(* ===== verification/_CoqProject ===== *)
-Q . S2P
Prelude.v
Cids.v
Message.v
Wantlist.v
PriorityQueue.v
TaskQueue.v
TaskQueueFacts.v
Engine.v
EngineFacts.v
EngineReceive.v
ServerTasks.v
ServerTasksFacts.v
MessageQueue.v
MessageQueueFacts.v
MessageQueueRun.v
TimeoutFacts.v
PeerWants.v
PeerWantsFacts.v
PeerManager.v
PeerManagerFacts.v
ClientTrackers.v
ClientTrackersFacts.v
Managers.v
WantSender.v
WantSenderFacts.v
Session.v
Client.v
ClientFacts.v
ClientDelivery.v
Network.v
NetworkFacts.v
Behaviour.v
BehaviourFacts.v
P2pProviders.v
P2pNode.v
P2pFacts.v
Bits.v
BitsFacts.v
BlockStore.v
BlockStoreFacts.v
Unixfs.v
Chunker.v
ChunkerFacts.v
RabinTables.v
Rabin.v
RabinFacts.v
BalancedTree.v
Reader.v
ReaderFacts.v
BalancedTreeFacts.v
Files.v
Builder.v
Hamt.v
BuilderFacts.v
HamtFacts.v
Paths.v
PathsFacts.v
Resolver.v
ResolverFacts.v
Loader.v
LoaderFacts.v
FileSystem.v
Entries.v
FileTrees.v
Api.v
ApiFacts.v
Car.v
CarFacts.v
Gateway.v
GatewayFacts.v
Handlers.v
HandlersFacts.v
