(* ===== verification/Prelude.v ===== *)
(** * A verification of Beetle

    Beetle (formerly iroh) is an implementation of IPFS in Rust.  A node stores
    blocks under the hashes of their contents ([iroh-store]), exchanges them with
    its peers with the bitswap protocol ([iroh-bitswap]) over a libp2p swarm
    ([iroh-p2p]), represents files and directories as DAGs of blocks in the
    UnixFS format ([iroh-unixfs]), resolves paths through these DAGs
    ([iroh-resolver]), packs them into archives ([iroh-car]) and serves them over
    HTTP ([iroh-gateway]); its interface adds trees of files and writes them back
    ([iroh-api]).  This library models these parts down to the level of
    their data structures and proves properties of the parts and of their
    composition.

    ** Conventions

    A computation that can fail is a [res E A]: a value, an error of the type of
    the source, or a panic ([assert!], [unwrap], an index out of range,
    [todo!]).  A stream of Rust ([try_stream!]) is a [gen Y E A]: the list of
    what it yields and how it ends.  Machine integers are [Z]; the module [Int]
    has their wrap-around ([Int.wrap], [Int.usize_add], ...) and every operation
    that can overflow uses it.  A hash map is a [gmap] and its iteration order is
    the class [HashOrder], so theorems hold for every order.  A [BTreeMap] is the
    sorted list of its bindings.  Bytes are integers, strings are their UTF-8
    bytes.  A clock is an argument of the operations that read it, and so are
    random draws.  An actor or a task is a transition function over the events it
    receives; the sending half of a channel is a number, and what is sent is
    part of the output of a step.

    Loops that do not recurse on the structure of their data have fuel.  Lack of
    fuel is a distinct outcome ([None], or a panic), and the theorems state that
    the outcome is a proper one, with a bound on the fuel where it is an argument:
    a read of a file needs at most three turns per node of its DAG, the chunkers
    as many turns as there are reads and bytes, [pop_tasks] one turn per pending
    task, the grouping of a sharded directory nine levels because a hash has
    eight bytes, a recursive walk with a limit two turns more than the limit, the
    walk over a directory of the file system one unit for each level.
    Three bounds are those of the code: [poll] of the behaviour handles fifty
    requests, a path follows sixteen DNSLink lookups, and sending makes the
    configured number of attempts.  Decoding a buffer of frames and comparing
    entity tags take one turn for a byte at most, and have that much fuel.

    Code outside the repository is a class with its operations and a second
    class with the documented laws the code relies on: CIDs, multihashes and
    peers ([Ids], [Multiformats], [MultiformatsLaws] in [Cids]), the generated
    protobuf code ([Prost] in [Message], [UnixfsProto] and [UnixfsProtoLaws] in
    [Unixfs]), framing ([Wire], [WireLaws]), the crates [keyed-priority-queue]
    ([PriorityQueue]), [lru] ([Lru]), [libp2p] ([Libp2p]), [libipld] ([IpldLib]),
    RocksDB and the archives in it ([RocksDb], [RocksDbLaws], [StoreCodecs],
    [StoreCodecsLaws]), the text of CIDs ([PathText], [PathTextLaws]), URLs
    ([Urls]), dag-cbor and binary CIDs in archives ([CarLib], [CarLibLaws]),
    header values, media types and hashing in the gateway ([GatewayLib],
    [GatewayLibLaws], [WebLib], [WebLibLaws]), CIDs in base 36 ([Base36Laws]), the
    crate [relative-path]
    ([RelativePath], [RelativePathLaws]).  The trait [Store] of bitswap is
    the class [Store] of [Engine] with its laws [ServerLaws], the trait [Store] of
    the API is [ApiStore] with [ApiStoreLaws], which both stores have.  Each has a
    concrete instance in a module named [...Toy] or [...Witness], with which the
    definitions run and the hypotheses of the theorems are shown to hold.  The
    hash [fastmurmur3] is an argument without assumptions.

    ** The bitswap server

    - [Cids]: blocks and CID prefixes ([block.rs], [prefix.rs]).
    - [Message]: messages and both wire formats ([message.rs]).  A decoded
      message is well formed and its blocks hash to their CIDs; encoding and
      decoding is the identity; adding entries merges them.
    - [Wantlist]: wantlists with their cache ([client/wantlist.rs]).  The cache
      is never stale; a want-block is never weakened.
    - [PriorityQueue]: the interface of the keyed priority queue, and an
      implementation of it.
    - [TaskQueue], [TaskQueueFacts]: the queue of the tasks of all peers
      ([peer_task_queue.rs] and its submodules, [server/task_merger.rs]).  Tasks
      leave in order of priority within the limits of the peer, work is booked
      exactly, frozen peers thaw, every operation preserves the invariant
      [ptq_wf].
    - [Engine], [EngineFacts], [EngineReceive]: ledgers and the decision engine
      ([server/ledger.rs], [server/peer_ledger.rs], [server/score_ledger.rs],
      [server/decision.rs], [server/blockstore_manager.rs]).  The state is the
      record [Engine]; the handlers are functions on it, and [engine_step] is the
      relation of all their calls, one after the other.  A received message has
      the effect it asks for; envelopes answer exactly their tasks; denied
      requests are never served; a sent message settles its wants.
    - [ServerTasks], [ServerTasksFacts]: the same handlers as concurrent calls.
      The state is the record [Server]: the engine, the calls in progress, and the
      ledgers that a call still holds although a disconnection has taken them out
      of the map.  A step is the part of a call between two points where it holds
      no ledger ([server_step]).  In every interleaving the ledgers and the queue
      keep their invariants; a want is in the reverse index from the moment its
      message has been handled, unless it was overtaken in between; and an
      announcement of new blocks goes through every peer that is in the index and
      still waits.  [ServerWitness.want_notification_lost] has an interleaving in
      which a want is overtaken, and its notification lost.

    The theorems about [Engine] are about calls that are not interrupted; those
    about [Server], and about the node in [Behaviour], hold for all interleavings.

    ** The bitswap client

    - [MessageQueue], [MessageQueueFacts], [MessageQueueRun], [TimeoutFacts]: the
      actor that turns the wants for one peer into messages, with its DONT_HAVE
      timeouts ([client/message_queue.rs] and its submodules).  Composed with the
      engine of the peer: its ledger mirrors the wants of the queue, and work
      that is pending is sent.
    - [PeerWants], [PeerWantsFacts], [PeerManager], [PeerManagerFacts]: which
      peer was asked for what ([client/peer_want_manager.rs],
      [client/peer_manager.rs]).  The composition of peer manager, queues and
      engines: every want reaches the ledger of its peer.
    - [ClientTrackers], [ClientTrackersFacts], [Managers]: presences of blocks,
      interests of sessions, wants and responses of peers
      ([client/block_presence_manager.rs], [client/session_interest_manager.rs],
      [client/session/...]).
    - [WantSender], [WantSenderFacts]: the want sender of a session
      ([client/session/session_want_sender.rs]).  A want is with one peer, and
      was handed to the peer manager and to the queue of that peer if it was
      connected, or no peer is known to be able to serve it.
    - [Session], [Client], [ClientFacts], [ClientDelivery]: sessions, the session
      manager and the callers of [get_blocks] as one transition system
      ([client/session.rs], [client/session_manager.rs], [client.rs]).  Broadcasts
      respect their limit, received blocks are not asked for any longer, and
      every block a caller waits for reaches it when it arrives.

    ** The network

    - [Network], [NetworkFacts]: protocol versions and framing, the handler of a
      connection, and sending with retries ([protocol.rs], [handler.rs],
      [network.rs]).  Messages survive any division of the stream; every message
      and every caller of a handler is accounted for.
    - [Behaviour], [BehaviourFacts]: the behaviour and the node made of it, the
      client and the server ([iroh-bitswap/src/lib.rs]).  Client and server are
      told of peers in agreement with the states of the peers; dials are
      accounted for.  The three workers of the node spawn the handlers of client
      and server as jobs ([node_job]) that run in any order: a handler of the
      client is one step, one of the server is cut as in [ServerTasks].  In every
      interleaving only verified blocks reach a caller.
    - [P2pProviders], [P2pNode], [P2pFacts]: provider queries, what is known
      about peers, and the event loop of the p2p node ([iroh-p2p/src/providers.rs],
      [behaviour/peer_manager.rs], [node.rs], [rpc.rs]).  The swarm is the record
      [Swarm] of what it answers during a turn.  Provider queries stay within
      their bounds and report a provider once; each caller is answered once,
      handed over, waiting, or lost in one of four places; the workers of
      sessions and the callers that ask for providers are accounted for too.

    ** UnixFS

    - [Unixfs]: nodes, links, decoding and encoding ([unixfs.rs], [types.rs]).
    - [Chunker], [ChunkerFacts], [RabinTables], [Rabin], [RabinFacts]: the
      chunkers ([chunker.rs], [chunker/fixed.rs], [chunker/rabin.rs]).  A source
      is the list of the results of its reads.  The chunks are those of a
      reference function of the content, for every sequence of reads; the lookup
      tables are the ones their generator computes.
    - [BalancedTree], [BalancedTreeFacts]: the tree builder ([balanced_tree.rs]).
      The blocks form a balanced DAG of bounded degree over the chunks.
    - [Reader], [ReaderFacts]: the reader ([UnixfsContentReader] in [unixfs.rs]).
      It refines a cursor over the content of the DAG ([cursor_run]), for every
      sequence of reads and seeks; where a seek goes is specified on its own
      ([named], [moved_to]).
    - [Files]: the composition of the three: what is written is read back.
    - [Builder], [BuilderFacts]: directories and symlinks ([builder.rs]).  A flat
      directory lists its entries.
    - [Bits], [BitsFacts], [Hamt], [HamtFacts]: sharded directories ([hamt.rs],
      [hamt/bitfield.rs], [hamt/hash_bits.rs]).  In a shard that was built and
      encoded, a lookup finds the entries, and nothing else if no entry is itself
      a sharded directory; names are not empty.

    ** Storing, loading and resolving

    - [BlockStore], [BlockStoreFacts]: the store over the tables of RocksDB
      ([iroh-store/src/store.rs], [cf.rs]).  It refines a map from CIDs to blocks,
      for every sequence of operations and failures of the database other than
      one of the iterator that looks for the last identifier when the store is
      opened again, and fails cleanly.
    - [Loader], [LoaderFacts]: loading from the store, bitswap and gateways
      ([content_loader.rs]).  What came over the network is verified and stored.
    - [Paths], [PathsFacts]: paths, DNSLink and codecs ([resolver.rs],
      [dns_resolver.rs], [codecs.rs]).  Printing and parsing is the identity.
    - [Resolver], [ResolverFacts]: resolution of paths over UnixFS and IPLD, and
      recursive walks ([resolver.rs]).  A path through a tree that the builder
      encoded reaches its entry and reads the bytes the file was made from; walks
      are breadth first and respect their limit.
    - [Car], [CarFacts]: archives ([iroh-car/src]).  What is written is read
      back; an archive that was cut off never gives a wrong block.

    ** Files of the operating system

    - [FileSystem]: paths and the operations of [std::fs] that the code uses, on
      a map from places to objects, with symbolic links.  How a file is cut into
      reads is the class [Reads].
    - [Entries], [FileTrees]: the builders of entries from paths and the walk
      over a directory ([builder.rs]).  The entry that is made of a path is that
      of the tree of objects below it.
    - [Api], [ApiFacts]: adding an entry to a store in batches, getting a path and
      writing it ([iroh-api/src/api.rs], [store.rs], [fs.rs]).  A tree of
      directories that are small enough not to be sharded, with names in UTF-8
      ([tree_ok]), that is added through any store and then got is written as it
      was, and nothing else of the file system changes.

    ** The gateway

    - [Gateway], [GatewayFacts]: headers, entity tags, ranges, formats and names
      in subdomains ([headers.rs], [response.rs], [handler_params.rs], ...).
    - [Handlers], [HandlersFacts]: the handling of requests ([handlers.rs],
      [client.rs], [error.rs], [bad_bits.rs]).  Requests for denied content are
      refused, a range request gives exactly the range, or the whole file if the
      range is of a kind that is not served, an archive download of blocks that
      the reader of archives takes has exactly the blocks of the DAG, redirects
      keep the path.

    Some lemmas that are not about correctness show what the code does on inputs
    that it does not handle as one would expect; they are in the sections on
    behaviour worth knowing of the [...Toy] and [...Witness] modules.

    ** Not modelled

    - Asynchronous plumbing: tokio tasks, locks, timers, cancellation, metrics
      and logging.  Concurrency appears as the order of steps; the handlers of
      the server are cut into steps at their locks ([ServerTasks]), other
      asynchronous handlers are one step each.  Who waits for a lock, and with it
      whether two calls wait for each other, is not modelled.
    - Floating-point numbers: the scores of the score ledger, the averages of
      latencies in the client, and the delay of its idle tick.  They are
      arguments, or events that may come at any time.
    - Stopping: of the behaviour, of the client, and of the sessions of a loader
      whose context is dropped.
    - Permissions, times, special files and concurrent changes of the file
      system, and file systems other than those of unix.
    - HTTP requests to an indexer and to gateways, DNS and the swarm of libp2p:
      their answers are arguments.
    - Construction and start-up of the services, their configuration, key
      storage, lock files, the transport of RPC, and the command line.
    - Of the gateway: its router, its style sheets and its pages of information,
      and [get_file_recursive], which nothing calls. *)

From stdpp Require Import prelude gmap fin_maps fin_sets list sorting.
From Stdlib Require Import ZArith Lia.

(** ** Results: Rust's [Result] together with panics *)

(** A computation ends with a value, with an error value or with a panic
    (a failed [assert!], an [unwrap] of [None], an index out of range). *)
Inductive res (E A : Type) : Type :=
  | Ok (a : A)
  | Err (e : E)
  | Panic.
Arguments Ok {E A} a.
Arguments Err {E A} e.
Arguments Panic {E A}.

#[global] Instance res_ret {E} : MRet (res E) := fun A a => Ok a.
#[global] Instance res_bind {E} : MBind (res E) := fun A B f m =>
  match m with Ok a => f a | Err e => Err e | Panic => Panic end.

(** [opt.ok_or(e)] *)
Definition ok_or {E A} (o : option A) (e : E) : res E A :=
  match o with Some a => Ok a | None => Err e end.

(** [opt.unwrap()] *)
Definition unwrap {E A} (o : option A) : res E A :=
  match o with Some a => Ok a | None => Panic end.

(** [ensure!(b, e)] and [assert!(b)] *)
Definition ensure {E} (b : bool) (e : E) : res E unit := if b then Ok tt else Err e.
Definition assert {E} (b : bool) : res E unit := if b then Ok tt else Panic.

Definition is_ok {E A} (r : res E A) : bool := match r with Ok _ => true | _ => false end.

(** [for x in l { s = f(s, x)? }] *)
Fixpoint fold_res {E S X} (f : S → X → res E S) (s : S) (l : list X) : res E S :=
  match l with
  | [] => Ok s
  | x :: l => s' ← f s x; fold_res f s' l
  end.

(** ** Streams *)

(** The body of a [stream!] or [try_stream!] block: the items it yields and how
    it ends. *)
Definition gen (Y E A : Type) : Type := list Y * res E A.

#[global] Instance gen_ret {Y E} : MRet (gen Y E) := fun A a => ([], Ok a).
#[global] Instance gen_bind {Y E} : MBind (gen Y E) := fun A B f m =>
  match m.2 with
  | Ok a => (m.1 ++ (f a).1, (f a).2)
  | Err e => (m.1, Err e)
  | Panic => (m.1, Panic)
  end.

Definition yield {Y E} (y : Y) : gen Y E unit := ([y], Ok tt).
(** [r?] *)
Definition try_ {Y E A} (r : res E A) : gen Y E A := ([], r).

Lemma gen_bind_Ok {Y E A B} (m : gen Y E A) (f : A → gen Y E B) out b :
  m ≫= f = (out, Ok b) →
  ∃ a o1 o2, m = (o1, Ok a) ∧ f a = (o2, Ok b) ∧ out = o1 ++ o2.
Proof.
  destruct m as [o1 [a|e|]]; unfold mbind, gen_bind; simpl; try done.
  destruct (f a) as [o2 r] eqn:Ef. simpl. intros [= <- ->]. eauto 6.
Qed.

(** ** Machine integers *)

(** Values of the integer types are kept in [Z]; an operation that can leave
    the range of its type is written with its wrap-around. *)
Module Int.
Local Open Scope Z_scope.

Definition modulus (w : Z) : Z := 2 ^ w.
Definition wrap (w z : Z) : Z := z mod modulus w.
Definition swrap (w z : Z) : Z := (z + 2 ^ (w - 1)) mod modulus w - 2 ^ (w - 1).

Definition in_u (w z : Z) : Prop := 0 ≤ z < 2 ^ w.
Definition in_i (w z : Z) : Prop := - 2 ^ (w - 1) ≤ z < 2 ^ (w - 1).

Definition u_max (w : Z) : Z := 2 ^ w - 1.
Definition i_max (w : Z) : Z := 2 ^ (w - 1) - 1.

(** [usize] is 64 bits wide. *)
Definition usize_add (a b : Z) : Z := wrap 64 (a + b).
Definition usize_sub (a b : Z) : Z := wrap 64 (a - b).
Definition i32_sub (a b : Z) : Z := swrap 32 (a - b).
Definition isize_add (a b : Z) : Z := swrap 64 (a + b).
Definition isize_sub (a b : Z) : Z := swrap 64 (a - b).

(** [x as i32] for a 64-bit [x]. *)
Definition as_i32 (z : Z) : Z := swrap 32 z.

Lemma wrap_id w z : in_u w z → wrap w z = z.
Proof. intros. apply Z.mod_small. done. Qed.

Lemma wrap_range w z : 0 ≤ w → in_u w (wrap w z).
Proof. intros. apply Z.mod_pos_bound. apply Z.pow_pos_nonneg; lia. Qed.

Lemma swrap_id w z : 0 < w → in_i w z → swrap w z = z.
Proof.
  unfold swrap, in_i, modulus. intros Hw Hz.
  assert (2 ^ w = 2 * 2 ^ (w - 1)) as E.
  { rewrite <-(Z.pow_succ_r 2 (w - 1)) by lia. f_equal. lia. }
  rewrite Z.mod_small; lia.
Qed.

Lemma swrap_range w z : 0 < w → in_i w (swrap w z).
Proof.
  unfold swrap, in_i, modulus. intros Hw.
  assert (2 ^ w = 2 * 2 ^ (w - 1)) as E.
  { rewrite <-(Z.pow_succ_r 2 (w - 1)) by lia. f_equal. lia. }
  pose proof (Z.pow_pos_nonneg 2 (w - 1)).
  pose proof (Z.mod_pos_bound (z + 2 ^ (w - 1)) (2 ^ w)). lia.
Qed.
End Int.

(** ** Hash iteration order *)

(** The iteration order of a [HashMap] is unspecified: it is some permutation
    of its entries.  Every loop over a hash map is written over [hm_iter], and
    every theorem holds for any order. *)
Class HashOrder := {
  hm_iter : ∀ {K V : Type} `{Countable K}, gmap K V → list (K * V);
  hm_iter_perm : ∀ {K V : Type} `{Countable K} (m : gmap K V), hm_iter m ≡ₚ map_to_list m
}.

Section hash_order.
Context `{HashOrder}.

(** [set.iter()], [map.keys()] and [map.values()] *)
Definition hs_iter {K} `{Countable K} (s : gset K) : list K :=
  (hm_iter (gset_to_gmap tt s)).*1.
Definition hm_keys {K V} `{Countable K} (m : gmap K V) : list K := (hm_iter m).*1.
Definition hm_values {K V} `{Countable K} (m : gmap K V) : list V := (hm_iter m).*2.

Lemma elem_of_hm_iter {K V} `{Countable K} (m : gmap K V) k v :
  (k, v) ∈ hm_iter m ↔ m !! k = Some v.
Proof. rewrite hm_iter_perm. apply elem_of_map_to_list. Qed.

Lemma NoDup_hm_keys {K V} `{Countable K} (m : gmap K V) : NoDup (hm_keys m).
Proof. unfold hm_keys. rewrite hm_iter_perm. apply NoDup_fst_map_to_list. Qed.

Lemma NoDup_hm_iter {K V} `{Countable K} (m : gmap K V) : NoDup (hm_iter m).
Proof. rewrite hm_iter_perm. apply NoDup_map_to_list. Qed.

Lemma elem_of_hm_keys {K V} `{Countable K} (m : gmap K V) k :
  k ∈ hm_keys m ↔ is_Some (m !! k).
Proof.
  unfold hm_keys. rewrite list_elem_of_fmap. split.
  - intros ([k' v] & -> & Hin). rewrite elem_of_hm_iter in Hin. eauto.
  - intros [v Hv]. exists (k, v). by rewrite elem_of_hm_iter.
Qed.

Lemma elem_of_hm_values {K V} `{Countable K} (m : gmap K V) v :
  v ∈ hm_values m ↔ ∃ k, m !! k = Some v.
Proof.
  unfold hm_values. rewrite list_elem_of_fmap. split.
  - intros ([k v'] & -> & Hin). rewrite elem_of_hm_iter in Hin. eauto.
  - intros [k Hv]. exists (k, v). by rewrite elem_of_hm_iter.
Qed.

Lemma elem_of_hs_iter {K} `{Countable K} (s : gset K) k : k ∈ hs_iter s ↔ k ∈ s.
Proof.
  unfold hs_iter. rewrite (elem_of_hm_keys (gset_to_gmap tt s)), lookup_gset_to_gmap.
  destruct (decide (k ∈ s)).
  - rewrite option_guard_True by done. naive_solver.
  - rewrite option_guard_False by done. rewrite is_Some_alt. naive_solver.
Qed.

Lemma NoDup_hs_iter {K} `{Countable K} (s : gset K) : NoDup (hs_iter s).
Proof. apply (NoDup_hm_keys (gset_to_gmap tt s)). Qed.

Lemma length_hs_iter {K} `{Countable K} (s : gset K) : length (hs_iter s) = size s.
Proof.
  rewrite <-(size_list_to_set (C := gset K) (hs_iter s)) by apply NoDup_hs_iter. f_equal.
  apply set_eq. intros c. by rewrite elem_of_list_to_set, elem_of_hs_iter.
Qed.

Lemma length_hm_iter {K V} `{Countable K} (m : gmap K V) : length (hm_iter m) = size m.
Proof. by rewrite hm_iter_perm, length_map_to_list. Qed.
End hash_order.

(** A concrete order, used to evaluate the definitions. *)
Definition key_order : HashOrder :=
  {| hm_iter := fun K V _ _ m => map_to_list m; hm_iter_perm := fun K V _ _ m => Permutation_refl _ |}.

(** ** Sorting *)

(** [v.sort_by_cached_key(k)]: a stable sort by an integer key.  A stable sort
    has one result, so it is given by insertion. *)
Section sort_by_key.
Context {A : Type} (k : A → Z).
Local Open Scope Z_scope.

Fixpoint insert_by_key (x : A) (l : list A) : list A :=
  match l with
  | [] => [x]
  | y :: l' => if k x <=? k y then x :: y :: l' else y :: insert_by_key x l'
  end.

Definition sort_by_key (l : list A) : list A := foldr insert_by_key [] l.

Lemma insert_by_key_perm x l : insert_by_key x l ≡ₚ x :: l.
Proof.
  induction l as [|y l IH]; simpl; [done|]. case_match; [done|].
  rewrite IH. constructor.
Qed.

Lemma sort_by_key_perm l : sort_by_key l ≡ₚ l.
Proof. induction l as [|x l IH]; simpl; [done|]. by rewrite insert_by_key_perm, IH. Qed.

Lemma insert_by_key_sorted x l :
  StronglySorted (λ a b, k a ≤ k b) l → StronglySorted (λ a b, k a ≤ k b) (insert_by_key x l).
Proof.
  induction 1 as [|y l Hl IH Hy]; simpl; [repeat constructor|].
  case_match eqn:E.
  - apply Z.leb_le in E. constructor; [by constructor|].
    constructor; [done|]. eapply Forall_impl; [done|]. simpl. lia.
  - apply Z.leb_gt in E. constructor; [done|].
    rewrite insert_by_key_perm. constructor; [lia|done].
Qed.

Lemma sort_by_key_sorted l : StronglySorted (λ a b, k a ≤ k b) (sort_by_key l).
Proof. induction l; simpl; [constructor|]. by apply insert_by_key_sorted. Qed.
End sort_by_key.

Lemma StronglySorted_reverse {A} (R : relation A) l :
  StronglySorted R l → StronglySorted (flip R) (reverse l).
Proof.
  induction 1 as [|x l Hl IH Hx]; [constructor|].
  rewrite reverse_cons. revert IH. generalize (reverse_Permutation l). generalize (reverse l).
  intros l' Hp Hs. rewrite <-Hp in Hx. clear Hp Hl l.
  induction Hs as [|y l' Hs IH Hy]; simpl; [repeat constructor|].
  inversion Hx; subst. constructor; [by apply IH|].
  rewrite Forall_app. split; [done|]. repeat constructor. done.
Qed.

(** ** Shared lemmas *)

Lemma list_to_map_hm_iter `{HashOrder} {K V} `{Countable K} (m : gmap K V) :
  list_to_map (hm_iter m) = m.
Proof.
  rewrite <-(list_to_map_to_list m) at 2. apply list_to_map_proper; [|apply hm_iter_perm].
  apply NoDup_hm_keys.
Qed.

Lemma fold_res_app {E S X} (f : S → X → res E S) s l1 l2 :
  fold_res f s (l1 ++ l2) = (s' ← fold_res f s l1; fold_res f s' l2).
Proof.
  revert s. induction l1 as [|x l1 IH]; intros s; simpl; [done|].
  destruct (f s x); simpl; [apply IH|done|done].
Qed.

(** A loop whose step preserves an invariant preserves it. *)
Lemma fold_res_invariant {E S X} (I : S → Prop) (f : S → X → res E S) l s s' :
  (∀ s x s', x ∈ l → I s → f s x = Ok s' → I s') → I s → fold_res f s l = Ok s' → I s'.
Proof.
  revert s. induction l as [|x l IH]; intros s Hf Hs; simpl; [by intros [= <-]|].
  destruct (f s x) as [s1| |] eqn:E1; simpl; [|done|done].
  apply IH; [|eapply Hf; [left|..]; done].
  intros. eapply Hf; [by right|done|done].
Qed.

Lemma foldl_invariant {S X} (I : S → Prop) (f : S → X → S) l s :
  (∀ s x, x ∈ l → I s → I (f s x)) → I s → I (foldl f s l).
Proof.
  revert s. induction l as [|x l IH]; intros s Hf Hs; simpl; [done|].
  apply IH; [|apply Hf; [left|done]]. intros. apply Hf; [by right|done].
Qed.

(** A loop that inserts fresh keys one by one into the map component [get] of
    the state builds the map of its list. *)
Lemma fold_res_insert {E S X K V} `{Countable K} (I : S → Prop) (P : K → V → Prop)
    (get : S → gmap K V) (set : gmap K V → S → S) (f : S → X → res E S) (enc : K * V → X) :
  (∀ s, set (get s) s = s) → (∀ m s, get (set m s) = m) →
  (∀ m m' s, set m (set m' s) = set m s) → (∀ m s, I s → I (set m s)) →
  (∀ s k v, I s → P k v → get s !! k = None → f s (enc (k, v)) = Ok (set (<[k:=v]> (get s)) s)) →
  ∀ l s, I s → NoDup l.*1 → (∀ k, k ∈ l.*1 → get s !! k = None) →
    (∀ k v, (k, v) ∈ l → P k v) →
    fold_res f s (enc <$> l) = Ok (set (list_to_map l ∪ get s) s).
Proof.
  intros Hsg Hgs Hss HI Hf l. induction l as [|[k v] l IH]; intros s Hs Hnd Hfresh HP; simpl.
  { by rewrite (left_id_L ∅ (∪)), Hsg. }
  simpl in Hnd. rewrite NoDup_cons in Hnd. destruct Hnd as [Hk Hnd].
  rewrite Hf; [|done|apply HP; left|apply Hfresh; left]. simpl.
  rewrite IH, Hss, Hgs; [| |done| |].
  - f_equal. f_equal. rewrite <-insert_union_l, insert_union_r; [done|].
    by apply not_elem_of_list_to_map_1.
  - by apply HI.
  - intros k' Hk'. rewrite Hgs. rewrite lookup_insert_ne by (intros ->; done).
    apply Hfresh. by right.
  - intros. apply HP. by right.
Qed.

(** Collecting the results of a fallible function in order. *)
Lemma fold_res_collect {E A B} (g : A → res E B) (h : A → B) l acc :
  (∀ a, a ∈ l → g a = Ok (h a)) →
  fold_res (λ acc a, b ← g a; Ok (acc ++ [b])) acc l = Ok (acc ++ (h <$> l)).
Proof.
  revert acc. induction l as [|a l IH]; intros acc Hg; simpl; [by rewrite app_nil_r|].
  rewrite Hg by left. simpl. rewrite IH by (intros; apply Hg; by right).
  by rewrite <-(assoc_L (++)).
Qed.

Lemma mjoin_cons {A} (x : list A) l : mjoin (x :: l) = x ++ mjoin l.
Proof. done. Qed.

Lemma mjoin_app {A} (l1 l2 : list (list A)) : mjoin (l1 ++ l2) = mjoin l1 ++ mjoin l2.
Proof. induction l1 as [|x l1 IH]; [done|]. simpl app. by rewrite !mjoin_cons, IH, app_assoc. Qed.

Lemma filter_all {A} (P : A → Prop) `{∀ x, Decision (P x)} l : Forall P l → filter P l = l.
Proof. induction 1; [done|]. rewrite filter_cons_True by done. by f_equal. Qed.

Lemma Forall_filter_sub {A} (P Q : A → Prop) `{∀ x, Decision (P x)} l :
  Forall Q l → Forall Q (filter P l).
Proof. rewrite !Forall_forall. intros HQ x [_ ?]%list_elem_of_filter. by apply HQ. Qed.

(** ** Sums *)

Definition sum_z (l : list Z) : Z := foldr Z.add 0%Z l.

Section sums.
Local Open Scope Z_scope.

Lemma sum_z_app l1 l2 : sum_z (l1 ++ l2) = sum_z l1 + sum_z l2.
Proof. induction l1; simpl; lia. Qed.

#[global] Instance sum_z_perm : Proper ((≡ₚ) ==> (=)) sum_z.
Proof. induction 1; simpl; lia. Qed.

Lemma sum_z_nonneg l : Forall (λ z, 0 ≤ z) l → 0 ≤ sum_z l.
Proof. induction 1; simpl; lia. Qed.

Lemma sum_z_le l1 l2 : Forall2 Z.le l1 l2 → sum_z l1 ≤ sum_z l2.
Proof. induction 1; simpl; lia. Qed.

(** The sum of a measure over the values of a map. *)
Definition map_sum {K V} `{Countable K} (f : V → Z) (m : gmap K V) : Z :=
  sum_z ((f ∘ snd) <$> map_to_list m).

Lemma map_sum_empty {K V} `{Countable K} (f : V → Z) : map_sum f (∅ : gmap K V) = 0.
Proof. unfold map_sum. by rewrite map_to_list_empty. Qed.

Lemma map_sum_insert {K V} `{Countable K} (f : V → Z) (m : gmap K V) k v :
  m !! k = None → map_sum f (<[k:=v]> m) = f v + map_sum f m.
Proof. intros Hk. unfold map_sum. by rewrite map_to_list_insert. Qed.

Lemma map_sum_delete {K V} `{Countable K} (f : V → Z) (m : gmap K V) k v :
  m !! k = Some v → map_sum f m = f v + map_sum f (delete k m).
Proof.
  intros Hk. rewrite <-(insert_delete_id m k v) at 1 by done.
  by rewrite map_sum_insert by apply lookup_delete_eq.
Qed.

Lemma map_sum_update {K V} `{Countable K} (f : V → Z) (m : gmap K V) k v v' :
  m !! k = Some v → map_sum f (<[k:=v']> m) = map_sum f m - f v + f v'.
Proof.
  intros Hk. rewrite <-insert_delete_eq, map_sum_insert by apply lookup_delete_eq.
  rewrite (map_sum_delete f m k v) by done. lia.
Qed.

Lemma map_sum_nonneg {K V} `{Countable K} (f : V → Z) (m : gmap K V) :
  (∀ k v, m !! k = Some v → 0 ≤ f v) → 0 ≤ map_sum f m.
Proof.
  intros Hf. apply sum_z_nonneg. apply Forall_fmap, Forall_forall.
  intros [k v] Hin%elem_of_map_to_list. simpl. eauto.
Qed.
End sums.
