(* ===== verification/Cids.v ===== *)
(** * Identifiers, blocks and CID prefixes

    Models [iroh-bitswap/src/block.rs], [iroh-bitswap/src/prefix.rs],
    [iroh-bitswap/src/error.rs] and [verify_hash] of [iroh-util/src/lib.rs].
    The crates [cid], [multihash], [unsigned-varint] and [libp2p] (for
    [PeerId]) are outside the repository: their types and functions are the
    fields of the classes [Ids] and [Multiformats], and what the code relies
    on is the class [MultiformatsLaws]. *)

From stdpp Require Import prelude gmap fin_maps.
From Stdlib Require Import ZArith Lia.
From S2P Require Import Prelude.
Local Open Scope Z_scope.

(** A byte string: every element is meant to be a [u8]. *)
Abbreviation bytes := (list Z).

(** [cid::Cid] and [libp2p::PeerId], used as keys of hash maps. *)
Class Ids := {
  Cid : Type;
  Cid_eq_dec :: EqDecision Cid;
  Cid_countable :: Countable Cid;
  PeerId : Type;
  PeerId_eq_dec :: EqDecision PeerId;
  PeerId_countable :: Countable PeerId
}.

(** The functions of the [cid], [multihash] and [unsigned-varint] crates. *)
Class Multiformats `{Ids} := {
  Multihash : Type;
  Multihash_eq_dec :: EqDecision Multihash;
  Code : Type;
  Version : Type;
  mh_code : Multihash → Z;
  mh_digest : Multihash → bytes;
  Sha2_256 : Code;
  code_try_from : Z → option Code;
  code_into : Code → Z;
  code_digest : Code → bytes → Multihash;
  version_try_from : Z → option Version;
  version_into : Version → Z;
  cid_version : Cid → Version;
  cid_codec : Cid → Z;
  cid_hash : Cid → Multihash;
  cid_new : Version → Z → Multihash → option Cid;
  cid_new_v0 : Multihash → option Cid;
  cid_to_bytes : Cid → bytes;
  cid_try_from : bytes → option Cid;
  varint_encode_u64 : Z → bytes;
  varint_decode_u64 : bytes → option (Z * bytes);
  varint_decode_usize : bytes → option (Z * bytes)
}.

(** The documented behaviour of those crates that the code relies on. *)
Class MultiformatsLaws `{Multiformats} : Prop := {
  code_into_try_from c : code_try_from (code_into c) = Some c;
  code_into_u64 c : Int.in_u 64 (code_into c);
  code_digest_code c d : mh_code (code_digest c d) = code_into c;
  version_into_try_from v : version_try_from (version_into v) = Some v;
  version_into_u64 v : Int.in_u 64 (version_into v);
  cid_codec_u64 c : Int.in_u 64 (cid_codec c);
  cid_new_hash v k h c : cid_new v k h = Some c → cid_hash c = h;
  cid_new_v0_hash h c : cid_new_v0 h = Some c → cid_hash c = h;
  cid_new_parts c : cid_new (cid_version c) (cid_codec c) (cid_hash c) = Some c;
  cid_bytes_roundtrip c : cid_try_from (cid_to_bytes c) = Some c;
  varint_u64_roundtrip n r :
    Int.in_u 64 n → varint_decode_u64 (varint_encode_u64 n ++ r) = Some (n, r);
  varint_usize_roundtrip n r :
    Int.in_u 64 n → varint_decode_usize (varint_encode_u64 n ++ r) = Some (n, r)
}.

(** [error.rs]: the payloads that come from other crates are left out. *)
Inductive Error :=
  | Error_Read
  | Error_Protobuf
  | Error_Cid
  | Error_Multihash
  | Error_InvalidBlockPresenceType (z : Z)
  | Error_InvalidWantType (z : Z).

Section cids.
Context `{Multiformats}.

(** [iroh_util::verify_hash] *)
Definition verify_hash (cid : Cid) (data : bytes) : option bool :=
  match code_try_from (mh_code (cid_hash cid)) with
  | Some code => Some (bool_decide (code_digest code data = cid_hash cid))
  | None => None
  end.

Record Block := { block_cid : Cid; block_data : bytes }.

Definition Block_new (data : bytes) (cid : Cid) : Block :=
  {| block_cid := cid; block_data := data |}.

Definition Block_from_v0_data (data : bytes) : res Error Block :=
  let digest := code_digest Sha2_256 data in
  cid ← ok_or (cid_new_v0 digest) Error_Cid;
  Ok {| block_cid := cid; block_data := data |}.

(** [struct Prefix] *)
Record Prefix := {
  prefix_version : Version;
  prefix_codec : Z;
  prefix_mh_type : Code;
  prefix_mh_len : Z
}.

Definition Prefix_new (data : bytes) : res Error Prefix :=
  '(raw_version, remain) ← ok_or (varint_decode_u64 data) Error_Cid;
  version ← ok_or (version_try_from raw_version) Error_Cid;
  '(codec, remain) ← ok_or (varint_decode_u64 remain) Error_Cid;
  '(mh_type, remain) ← ok_or (varint_decode_u64 remain) Error_Cid;
  '(mh_len, _) ← ok_or (varint_decode_usize remain) Error_Cid;
  code ← ok_or (code_try_from mh_type) Error_Multihash;
  Ok {| prefix_version := version; prefix_codec := codec;
        prefix_mh_type := code; prefix_mh_len := mh_len |}.

Definition Prefix_to_bytes (p : Prefix) : bytes :=
  varint_encode_u64 (version_into (prefix_version p))
  ++ varint_encode_u64 (prefix_codec p)
  ++ varint_encode_u64 (code_into (prefix_mh_type p))
  ++ varint_encode_u64 (prefix_mh_len p).

Definition Prefix_to_cid (p : Prefix) (data : bytes) : res Error Cid :=
  let mh := code_digest (prefix_mh_type p) data in
  ok_or (cid_new (prefix_version p) (prefix_codec p) mh) Error_Cid.

(** [impl From<&Cid> for Prefix]: an unknown hash code panics. *)
Definition Prefix_from (cid : Cid) : res Error Prefix :=
  code ← unwrap (code_try_from (mh_code (cid_hash cid)));
  Ok {| prefix_version := cid_version cid; prefix_codec := cid_codec cid;
        prefix_mh_type := code;
        prefix_mh_len := Z.of_nat (length (mh_digest (cid_hash cid))) |}.
End cids.

Section prefix_facts.
Context `{MultiformatsLaws}.

Lemma prefix_bytes_roundtrip p :
  Int.in_u 64 (prefix_codec p) → Int.in_u 64 (prefix_mh_len p) →
  Prefix_new (Prefix_to_bytes p) = Ok p.
Proof.
  intros Hc Hl. destruct p as [v k c l]. unfold Prefix_new, Prefix_to_bytes. simpl in *.
  rewrite varint_u64_roundtrip by apply version_into_u64; simpl.
  rewrite version_into_try_from; simpl.
  rewrite varint_u64_roundtrip by done; simpl.
  rewrite varint_u64_roundtrip by apply code_into_u64; simpl.
  rewrite <-(app_nil_r (varint_encode_u64 l)), varint_usize_roundtrip by done; simpl.
  by rewrite code_into_try_from.
Qed.

(** What a verified block sends as a prefix is enough to rebuild its CID. *)
Lemma prefix_rebuilds_cid b :
  verify_hash (block_cid b) (block_data b) = Some true →
  Int.in_u 64 (Z.of_nat (length (mh_digest (cid_hash (block_cid b))))) →
  ∃ p, Prefix_from (block_cid b) = Ok p ∧
    Prefix_new (Prefix_to_bytes p) = Ok p ∧
    Prefix_to_cid p (block_data b) = Ok (block_cid b).
Proof.
  unfold verify_hash. case_match eqn:Hc; [|done]. intros [= Hd%bool_decide_eq_true] Hl.
  eexists. unfold Prefix_from. rewrite Hc. simpl. split_and!; [done| |].
  - by apply prefix_bytes_roundtrip; simpl; [apply cid_codec_u64|].
  - unfold Prefix_to_cid; simpl. by rewrite Hd, cid_new_parts.
Qed.

Lemma prefix_to_cid_verifies p data c :
  Prefix_to_cid p data = Ok c → verify_hash c data = Some true.
Proof.
  unfold Prefix_to_cid, verify_hash. destruct (cid_new _ _ _) as [c'|] eqn:E; simpl; [|done].
  intros [= <-]. apply cid_new_hash in E. rewrite E, code_digest_code, code_into_try_from.
  by rewrite bool_decide_eq_true_2.
Qed.

Lemma from_v0_data_verifies data b :
  Block_from_v0_data data = Ok b →
  block_data b = data ∧ verify_hash (block_cid b) (block_data b) = Some true.
Proof.
  unfold Block_from_v0_data, verify_hash.
  destruct (cid_new_v0 _) as [c'|] eqn:E; simpl; [|done].
  intros [= <-]. simpl. split; [done|].
  apply cid_new_v0_hash in E. rewrite E, code_digest_code, code_into_try_from.
  by rewrite bool_decide_eq_true_2.
Qed.
End prefix_facts.

(** ** A concrete instance *)

(** Identity hashing with one codec: it satisfies the laws and makes every
    definition above executable. *)
Module Toy.
Definition ids : Ids := {| Cid := list Z; PeerId := nat |}.
#[export] Existing Instance ids.

Definition multiformats : Multiformats := {|
  Multihash := list Z;
  Code := unit;
  Version := unit;
  mh_code := fun _ => 0;
  mh_digest := fun h => h;
  Sha2_256 := tt;
  code_try_from := fun z => if z =? 0 then Some tt else None;
  code_into := fun _ => 0;
  code_digest := fun _ d => d;
  version_try_from := fun z => if z =? 1 then Some tt else None;
  version_into := fun _ => 1;
  cid_version := fun _ => tt;
  cid_codec := fun _ => 85;
  cid_hash := fun (c : @Cid ids) => (c : list Z);
  cid_new := fun _ k h => if k =? 85 then Some (h : @Cid ids) else None;
  cid_new_v0 := fun h => Some (h : @Cid ids);
  cid_to_bytes := fun c => c;
  cid_try_from := fun b => Some (b : @Cid ids);
  varint_encode_u64 := fun n => [n];
  varint_decode_u64 := fun b => match b with n :: r => Some (n, r) | [] => None end;
  varint_decode_usize := fun b => match b with n :: r => Some (n, r) | [] => None end
|}.
#[export] Existing Instance multiformats.

#[export] Instance laws : MultiformatsLaws.
Proof.
  split; try done; try (intros; unfold Int.in_u; simpl; lia).
  - by intros [].
  - by intros [].
  - simpl. intros v k h c. case_match; naive_solver.
  - simpl. intros h c [= ->]. done.
Qed.

Definition order : HashOrder := key_order.
#[export] Existing Instance order.
End Toy.
