(* ===== verification/Message.v ===== *)
(** * Bitswap messages

    Models [iroh-bitswap/src/message.rs]: the in-memory message, its builder
    operations and its conversion from and to the protobuf structures of
    [bitswap_pb.proto].  The byte-level protobuf code is generated by [prost];
    only its [encoded_len] is used here, as the class [Prost]. *)

From stdpp Require Import prelude gmap fin_maps.
From Stdlib Require Import ZArith Lia.
From S2P Require Import Prelude Cids.
Local Open Scope Z_scope.

Inductive BlockPresenceType := Presence_Have | Presence_DontHave.
Inductive WantType := WantType_Block | WantType_Have.

#[global] Instance BlockPresenceType_eq_dec : EqDecision BlockPresenceType.
Proof. solve_decision. Defined.
#[global] Instance WantType_eq_dec : EqDecision WantType.
Proof. solve_decision. Defined.

(** [IntoPrimitive] and [TryFromPrimitive] with [repr(i32)]. *)
Definition BlockPresenceType_into (t : BlockPresenceType) : Z :=
  match t with Presence_Have => 0 | Presence_DontHave => 1 end.
Definition BlockPresenceType_try_from (z : Z) : res Error BlockPresenceType :=
  if z =? 0 then Ok Presence_Have
  else if z =? 1 then Ok Presence_DontHave
  else Err (Error_InvalidBlockPresenceType z).
Definition WantType_into (t : WantType) : Z :=
  match t with WantType_Block => 0 | WantType_Have => 1 end.
Definition WantType_try_from (z : Z) : res Error WantType :=
  if z =? 0 then Ok WantType_Block
  else if z =? 1 then Ok WantType_Have
  else Err (Error_InvalidWantType z).

Lemma BlockPresenceType_roundtrip t :
  BlockPresenceType_try_from (BlockPresenceType_into t) = Ok t.
Proof. by destruct t. Qed.
Lemma WantType_roundtrip t : WantType_try_from (WantType_into t) = Ok t.
Proof. by destruct t. Qed.

(** ** The structures of [bitswap_pb.proto] *)
Record pb_Entry := {
  pbe_block : bytes;
  pbe_priority : Z;
  pbe_cancel : bool;
  pbe_want_type : Z;
  pbe_send_dont_have : bool
}.
Record pb_Wantlist := { pbw_entries : list pb_Entry; pbw_full : bool }.
Record pb_Block := { pbb_prefix : bytes; pbb_data : bytes }.
Record pb_BlockPresence := { pbp_cid : bytes; pbp_type : Z }.
Record pb_Message := {
  pbm_wantlist : option pb_Wantlist;
  pbm_blocks : list bytes;
  pbm_payload : list pb_Block;
  pbm_block_presences : list pb_BlockPresence;
  pbm_pending_bytes : Z
}.

(** The generated [encoded_len] methods. *)
Class Prost := {
  pb_entry_encoded_len : pb_Entry → Z;
  pb_presence_encoded_len : pb_BlockPresence → Z
}.

Section message.
Context `{Multiformats} `{Prost} `{HashOrder}.

Definition Priority := Z.

Record BlockPresence := { bp_cid : Cid; bp_typ : BlockPresenceType }.

Definition pb_of_BlockPresence (bp : BlockPresence) : pb_BlockPresence :=
  {| pbp_cid := cid_to_bytes (bp_cid bp); pbp_type := BlockPresenceType_into (bp_typ bp) |}.

Definition BlockPresence_encoded_len (bp : BlockPresence) : Z :=
  pb_presence_encoded_len (pb_of_BlockPresence bp).

Definition encoded_len_for_cid (cid : Cid) : Z :=
  pb_presence_encoded_len
    {| pbp_cid := cid_to_bytes cid; pbp_type := BlockPresenceType_into Presence_Have |}.

Record Entry := {
  entry_cid : Cid;
  entry_priority : Priority;
  entry_want_type : WantType;
  entry_cancel : bool;
  entry_send_dont_have : bool
}.

Definition pb_of_Entry (e : Entry) : pb_Entry :=
  {| pbe_block := cid_to_bytes (entry_cid e);
     pbe_priority := entry_priority e;
     pbe_want_type := WantType_into (entry_want_type e);
     pbe_cancel := entry_cancel e;
     pbe_send_dont_have := entry_send_dont_have e |}.

Definition Entry_encoded_len (e : Entry) : Z := pb_entry_encoded_len (pb_of_Entry e).

Record BitswapMessage := {
  msg_full : bool;
  msg_wantlist : gmap Cid Entry;
  msg_blocks : gmap Cid Block;
  msg_block_presences : gmap Cid BlockPresenceType;
  msg_pending_bytes : Z
}.

Definition with_wantlist (w : gmap Cid Entry) (m : BitswapMessage) : BitswapMessage :=
  {| msg_full := msg_full m; msg_wantlist := w; msg_blocks := msg_blocks m;
     msg_block_presences := msg_block_presences m; msg_pending_bytes := msg_pending_bytes m |}.
Definition with_blocks (b : gmap Cid Block) (m : BitswapMessage) : BitswapMessage :=
  {| msg_full := msg_full m; msg_wantlist := msg_wantlist m; msg_blocks := b;
     msg_block_presences := msg_block_presences m; msg_pending_bytes := msg_pending_bytes m |}.
Definition with_block_presences (p : gmap Cid BlockPresenceType) (m : BitswapMessage) :
    BitswapMessage :=
  {| msg_full := msg_full m; msg_wantlist := msg_wantlist m; msg_blocks := msg_blocks m;
     msg_block_presences := p; msg_pending_bytes := msg_pending_bytes m |}.

(** [BitswapMessage::new] *)
Definition message_new (full : bool) : BitswapMessage :=
  {| msg_full := full; msg_wantlist := ∅; msg_blocks := ∅;
     msg_block_presences := ∅; msg_pending_bytes := 0 |}.

(** [clear] *)
Definition message_clear (full : bool) (m : BitswapMessage) : BitswapMessage :=
  {| msg_full := full; msg_wantlist := ∅; msg_blocks := ∅;
     msg_block_presences := ∅; msg_pending_bytes := 0 |}.

(** [verify_blocks]: keeps the blocks whose hash is known and matches. *)
Definition verify_blocks (m : BitswapMessage) : BitswapMessage :=
  with_blocks
    (filter (λ kb, verify_hash (block_cid kb.2) (block_data kb.2) = Some true) (msg_blocks m)) m.

Definition message_is_empty (m : BitswapMessage) : bool :=
  bool_decide (msg_blocks m = ∅) && bool_decide (msg_wantlist m = ∅)
  && bool_decide (msg_block_presences m = ∅).

(** [wantlist()], [blocks()], [block_presences()] *)
Definition message_wantlist (m : BitswapMessage) : list Entry := hm_values (msg_wantlist m).
Definition message_blocks (m : BitswapMessage) : list Block := hm_values (msg_blocks m).
Definition blocks_len (m : BitswapMessage) : nat := size (msg_blocks m).
Definition message_block_presences (m : BitswapMessage) : list BlockPresence :=
  (λ '(cid, typ), {| bp_cid := cid; bp_typ := typ |}) <$> hm_iter (msg_block_presences m).

Definition get_block_presence_by_type (typ : BlockPresenceType) (m : BitswapMessage) : list Cid :=
  omap (λ '(cid, t), if decide (t = typ) then Some cid else None)
       (hm_iter (msg_block_presences m)).
Definition haves (m : BitswapMessage) : list Cid := get_block_presence_by_type Presence_Have m.
Definition dont_haves (m : BitswapMessage) : list Cid :=
  get_block_presence_by_type Presence_DontHave m.

Definition set_pending_bytes (n : Z) (m : BitswapMessage) : BitswapMessage :=
  {| msg_full := msg_full m; msg_wantlist := msg_wantlist m; msg_blocks := msg_blocks m;
     msg_block_presences := msg_block_presences m; msg_pending_bytes := n |}.

(** [remove] *)
Definition message_remove (cid : Cid) (m : BitswapMessage) : BitswapMessage :=
  with_wantlist (delete cid (msg_wantlist m)) m.

(** The update of an entry that is already in the message. *)
Definition update_entry (priority : Priority) (cancel : bool) (want_type : WantType)
    (send_dont_have : bool) (e : Entry) : Entry :=
  {| entry_cid := entry_cid e;
     entry_priority :=
       if decide (entry_want_type e = want_type) then priority else entry_priority e;
     entry_cancel := if cancel then cancel else entry_cancel e;
     entry_send_dont_have := if send_dont_have then send_dont_have else entry_send_dont_have e;
     entry_want_type :=
       if decide (want_type = WantType_Block ∧ entry_want_type e = WantType_Have)
       then want_type else entry_want_type e |}.

(** [add_full_entry]: returns the encoded size that was added. *)
Definition add_full_entry (cid : Cid) (priority : Priority) (cancel : bool)
    (want_type : WantType) (send_dont_have : bool) (m : BitswapMessage) : BitswapMessage * Z :=
  match msg_wantlist m !! cid with
  | Some entry =>
      (with_wantlist
         (<[cid := update_entry priority cancel want_type send_dont_have entry]> (msg_wantlist m))
         m, 0)
  | None =>
      let entry := {| entry_cid := cid; entry_priority := priority; entry_want_type := want_type;
                      entry_send_dont_have := send_dont_have; entry_cancel := cancel |} in
      let size := Entry_encoded_len entry in
      (with_wantlist (<[cid := entry]> (msg_wantlist m)) m, size)
  end.

(** [cancel] and [add_entry] *)
Definition message_cancel (cid : Cid) (m : BitswapMessage) : BitswapMessage * Z :=
  add_full_entry cid 0 true WantType_Block false m.
Definition add_entry (cid : Cid) (priority : Priority) (want_type : WantType)
    (send_dont_have : bool) (m : BitswapMessage) : BitswapMessage * Z :=
  add_full_entry cid priority false want_type send_dont_have m.

Definition add_block (block : Block) (m : BitswapMessage) : BitswapMessage :=
  with_blocks (<[block_cid block := block]> (msg_blocks m))
    (with_block_presences (delete (block_cid block) (msg_block_presences m)) m).

Definition add_block_presence (cid : Cid) (typ : BlockPresenceType) (m : BitswapMessage) :
    BitswapMessage :=
  match msg_blocks m !! cid with
  | Some _ => m
  | None => with_block_presences (<[cid := typ]> (msg_block_presences m)) m
  end.

Definition add_have (cid : Cid) : BitswapMessage → BitswapMessage :=
  add_block_presence cid Presence_Have.
Definition add_dont_have (cid : Cid) : BitswapMessage → BitswapMessage :=
  add_block_presence cid Presence_DontHave.

(** [encoded_len]: an estimate of the size, in bytes. *)
Definition message_encoded_len (m : BitswapMessage) : Z :=
  let block_size := sum_z ((λ b, Z.of_nat (length (block_data b))) <$> message_blocks m) in
  let block_presence_size := sum_z (BlockPresence_encoded_len <$> message_block_presences m) in
  let wantlist_size := sum_z (Entry_encoded_len <$> message_wantlist m) in
  block_size + block_presence_size + wantlist_size.

(** [encode_as_proto_v0] *)
Definition encode_as_proto_v0 (m : BitswapMessage) : pb_Message :=
  {| pbm_wantlist := Some {| pbw_entries := pb_of_Entry <$> message_wantlist m;
                             pbw_full := msg_full m |};
     pbm_blocks := block_data <$> message_blocks m;
     pbm_payload := [];
     pbm_block_presences := [];
     pbm_pending_bytes := 0 |}.

(** [encode_as_proto_v1]: panics on a block with an unknown hash code. *)
Definition pb_of_Block (b : Block) : res Error pb_Block :=
  p ← Prefix_from (block_cid b);
  Ok {| pbb_prefix := Prefix_to_bytes p; pbb_data := block_data b |}.

Definition encode_as_proto_v1 (m : BitswapMessage) : res Error pb_Message :=
  payload ← fold_res (λ payload b, pb ← pb_of_Block b; Ok (payload ++ [pb]))
              [] (message_blocks m);
  Ok {| pbm_wantlist := Some {| pbw_entries := pb_of_Entry <$> message_wantlist m;
                                pbw_full := msg_full m |};
        pbm_blocks := [];
        pbm_payload := payload;
        pbm_block_presences :=
          (λ '(cid, typ), {| pbp_cid := cid_to_bytes cid;
                             pbp_type := BlockPresenceType_into typ |})
            <$> hm_iter (msg_block_presences m);
        pbm_pending_bytes := msg_pending_bytes m |}.

(** The four loops of [impl TryFrom<pb::Message> for BitswapMessage]. *)
Definition decode_entry (m : BitswapMessage) (e : pb_Entry) : res Error BitswapMessage :=
  cid ← ok_or (cid_try_from (pbe_block e)) Error_Cid;
  want_type ← WantType_try_from (pbe_want_type e);
  Ok (add_full_entry cid (pbe_priority e) (pbe_cancel e) want_type (pbe_send_dont_have e) m).1.
Definition decode_v0_block (m : BitswapMessage) (data : bytes) : res Error BitswapMessage :=
  block ← Block_from_v0_data data;
  Ok (add_block block m).
Definition decode_v1_block (m : BitswapMessage) (b : pb_Block) : res Error BitswapMessage :=
  prefix ← Prefix_new (pbb_prefix b);
  cid ← Prefix_to_cid prefix (pbb_data b);
  Ok (add_block (Block_new (pbb_data b) cid) m).
Definition decode_presence (m : BitswapMessage) (p : pb_BlockPresence) :
    res Error BitswapMessage :=
  cid ← ok_or (cid_try_from (pbp_cid p)) Error_Cid;
  typ ← BlockPresenceType_try_from (pbp_type p);
  Ok (add_block_presence cid typ m).

(** [BitswapMessage::try_from(pb::Message)] *)
Definition message_try_from (pbm : pb_Message) : res Error BitswapMessage :=
  let full := match pbm_wantlist pbm with Some w => pbw_full w | None => false end in
  let message := message_new full in
  message ← match pbm_wantlist pbm with
            | Some wantlist => fold_res decode_entry message (pbw_entries wantlist)
            | None => Ok message
            end;
  message ← fold_res decode_v0_block message (pbm_blocks pbm);
  message ← fold_res decode_v1_block message (pbm_payload pbm);
  message ← fold_res decode_presence message (pbm_block_presences pbm);
  Ok (set_pending_bytes (pbm_pending_bytes pbm) message).
End message.

(** ** Properties *)

Section message_facts.
Context `{MultiformatsLaws} `{Prost} `{HashOrder}.

(** Well-formed messages: every map is keyed by the CID of its values, and a
    CID never has both a block and a presence. *)
Record message_wf (m : BitswapMessage) : Prop := {
  wf_wantlist c e : msg_wantlist m !! c = Some e → entry_cid e = c;
  wf_blocks c b : msg_blocks m !! c = Some b → block_cid b = c;
  wf_presences c : is_Some (msg_blocks m !! c) → msg_block_presences m !! c = None
}.

Definition blocks_verify (m : BitswapMessage) : Prop :=
  ∀ c b, msg_blocks m !! c = Some b → verify_hash (block_cid b) (block_data b) = Some true.

Lemma message_new_wf full : message_wf (message_new full).
Proof. split; simpl; intros *; rewrite ?lookup_empty; naive_solver. Qed.

Lemma add_full_entry_wf cid p ca wt sd m :
  message_wf m → message_wf (add_full_entry cid p ca wt sd m).1.
Proof.
  intros [Hw Hb Hp]. unfold add_full_entry. destruct (msg_wantlist m !! cid) eqn:E.
  - split; simpl; [|done|done]. intros c e'. rewrite lookup_insert. case_decide; [|by apply Hw].
    intros [= <-]. subst. simpl. by apply Hw.
  - split; simpl; [|done|done]. intros c e'. rewrite lookup_insert. case_decide; [|by apply Hw].
    by intros [= <-].
Qed.

Lemma add_block_wf b m : message_wf m → message_wf (add_block b m).
Proof.
  intros [Hw Hb Hp]. split; simpl; [done| |].
  - intros c b'. rewrite lookup_insert. case_decide; [by intros [= <-]|apply Hb].
  - intros c. rewrite lookup_insert, lookup_delete. case_decide; [done|apply Hp].
Qed.

Lemma add_block_presence_wf c t m : message_wf m → message_wf (add_block_presence c t m).
Proof.
  intros [Hw Hb Hp]. unfold add_block_presence. destruct (msg_blocks m !! c) eqn:E; [done|].
  split; simpl; [done|done|]. intros c' Hc'. rewrite lookup_insert_ne; [by apply Hp|].
  intros ->. rewrite E in Hc'. by destruct Hc'.
Qed.

Lemma verify_blocks_wf m : message_wf m → message_wf (verify_blocks m).
Proof.
  intros [Hw Hb Hp]. split; simpl; [done| |].
  - intros c b [? _]%map_lookup_filter_Some. by apply Hb.
  - intros c [b [? _]%map_lookup_filter_Some]. apply Hp. eauto.
Qed.

Lemma add_block_verify b m :
  verify_hash (block_cid b) (block_data b) = Some true → blocks_verify m →
  blocks_verify (add_block b m).
Proof. intros Hb Hm c b'. simpl. rewrite lookup_insert. case_decide; naive_solver. Qed.

Lemma add_block_presence_blocks c t m :
  msg_blocks (add_block_presence c t m) = msg_blocks m.
Proof. unfold add_block_presence. by case_match. Qed.

Lemma add_full_entry_blocks cid p ca wt sd m :
  msg_blocks (add_full_entry cid p ca wt sd m).1 = msg_blocks m.
Proof. unfold add_full_entry. by case_match. Qed.
End message_facts.

Create HintDb message.
#[export] Hint Resolve message_new_wf add_full_entry_wf add_block_wf add_block_presence_wf
  verify_blocks_wf : message.

Section message_codec.
Context `{MultiformatsLaws} `{Prost} `{HashOrder}.

Lemma decode_step_sound m x (f : BitswapMessage → x → res Error BitswapMessage) l m' :
  (∀ m y m', message_wf m ∧ blocks_verify m → f m y = Ok m' → message_wf m' ∧ blocks_verify m') →
  message_wf m ∧ blocks_verify m → fold_res f m l = Ok m' → message_wf m' ∧ blocks_verify m'.
Proof.
  intros Hf. apply (fold_res_invariant (λ m, message_wf m ∧ blocks_verify m)).
  intros; eapply Hf; eauto.
Qed.

Lemma decode_entry_sound m e m' :
  message_wf m ∧ blocks_verify m → decode_entry m e = Ok m' → message_wf m' ∧ blocks_verify m'.
Proof.
  unfold decode_entry. intros [Hwf Hv].
  destruct (cid_try_from _); simpl; [|done]. destruct (WantType_try_from _); simpl; [|done..].
  intros [= <-]. split; [by apply add_full_entry_wf|].
  intros k b. rewrite add_full_entry_blocks. apply Hv.
Qed.

Lemma decode_v0_block_sound m d m' :
  message_wf m ∧ blocks_verify m → decode_v0_block m d = Ok m' →
  message_wf m' ∧ blocks_verify m'.
Proof.
  unfold decode_v0_block. intros [Hwf Hv].
  destruct (Block_from_v0_data d) eqn:E; simpl; [|done..]. intros [= <-].
  apply from_v0_data_verifies in E as [_ ?]. split; [by apply add_block_wf|by apply add_block_verify].
Qed.

Lemma decode_v1_block_sound m b m' :
  message_wf m ∧ blocks_verify m → decode_v1_block m b = Ok m' →
  message_wf m' ∧ blocks_verify m'.
Proof.
  unfold decode_v1_block. intros [Hwf Hv].
  destruct (Prefix_new _); simpl; [|done..].
  destruct (Prefix_to_cid _ _) eqn:E; simpl; [|done..]. intros [= <-].
  apply prefix_to_cid_verifies in E. split; [by apply add_block_wf|by apply add_block_verify].
Qed.

Lemma decode_presence_sound m p m' :
  message_wf m ∧ blocks_verify m → decode_presence m p = Ok m' →
  message_wf m' ∧ blocks_verify m'.
Proof.
  unfold decode_presence. intros [Hwf Hv].
  destruct (cid_try_from _); simpl; [|done].
  destruct (BlockPresenceType_try_from _); simpl; [|done..].
  intros [= <-]. split; [by apply add_block_presence_wf|].
  intros k b. rewrite add_block_presence_blocks. apply Hv.
Qed.

(** C17: a message accepted from the network is well formed, and each of its
    blocks hashes to the CID it is filed under: a peer cannot make the node
    file data under a CID that does not describe it. *)
Theorem message_try_from_sound pbm m :
  message_try_from pbm = Ok m → message_wf m ∧ blocks_verify m.
Proof.
  unfold message_try_from. intros Hm.
  set (m0 := message_new _) in Hm.
  assert (message_wf m0 ∧ blocks_verify m0) as Hm0.
  { split; [apply message_new_wf|]. intros c b. simpl. by rewrite lookup_empty. }
  clearbody m0.
  destruct (match pbm_wantlist pbm with Some _ => _ | None => _ end) as [m1| |] eqn:E1;
    simpl in Hm; [|done..].
  assert (message_wf m1 ∧ blocks_verify m1) as Hm1.
  { destruct (pbm_wantlist pbm); [|by simplify_eq].
    eapply decode_step_sound; [apply decode_entry_sound|done|exact E1]. }
  destruct (fold_res decode_v0_block _ _) as [m2| |] eqn:E2; simpl in Hm; [|done..].
  eapply decode_step_sound in E2; [|apply decode_v0_block_sound|done].
  destruct (fold_res decode_v1_block _ _) as [m3| |] eqn:E3; simpl in Hm; [|done..].
  eapply decode_step_sound in E3; [|apply decode_v1_block_sound|done].
  destruct (fold_res decode_presence _ _) as [m4| |] eqn:E4; simpl in Hm; [|done..].
  eapply decode_step_sound in E4 as [[] ?]; [|apply decode_presence_sound|done].
  simplify_eq. split; [by split|done].
Qed.

(** The digest of every block has a length that fits [usize]. *)
Definition digests_fit (m : BitswapMessage) : Prop :=
  ∀ c b, msg_blocks m !! c = Some b →
    Int.in_u 64 (Z.of_nat (length (mh_digest (cid_hash (block_cid b))))).

(** The protobuf form of a verified block. *)
Definition pb_block_of (b : Block) : pb_Block :=
  match pb_of_Block b with Ok p => p | _ => {| pbb_prefix := []; pbb_data := [] |} end.

Lemma pb_of_Block_decodes b m :
  verify_hash (block_cid b) (block_data b) = Some true →
  Int.in_u 64 (Z.of_nat (length (mh_digest (cid_hash (block_cid b))))) →
  pb_of_Block b = Ok (pb_block_of b) ∧ decode_v1_block m (pb_block_of b) = Ok (add_block b m).
Proof.
  intros Hv Hl. destruct (prefix_rebuilds_cid b Hv Hl) as (p & Hp & Hn & Hc).
  unfold pb_block_of, pb_of_Block. rewrite Hp. simpl. split; [done|].
  unfold decode_v1_block. simpl. rewrite Hn. simpl. rewrite Hc. simpl.
  unfold Block_new. by destruct b.
Qed.

Lemma decode_encoded_entries m full :
  (∀ c e, msg_wantlist m !! c = Some e → entry_cid e = c) →
  fold_res decode_entry (message_new full) (pb_of_Entry <$> message_wantlist m)
  = Ok (with_wantlist (msg_wantlist m) (message_new full)).
Proof.
  intros Hwf. unfold message_wantlist, hm_values. rewrite <-list_fmap_compose.
  rewrite (fold_res_insert (λ _, True) (λ c e, entry_cid e = c) msg_wantlist with_wantlist
             decode_entry (pb_of_Entry ∘ snd)).
  - simpl. by rewrite (right_id_L ∅ (∪)), list_to_map_hm_iter.
  - by intros [].
  - done.
  - done.
  - done.
  - intros s k v _ Hk Hs. unfold decode_entry. simpl.
    rewrite cid_bytes_roundtrip. simpl. rewrite WantType_roundtrip. simpl.
    unfold add_full_entry. rewrite Hk, Hs. by destruct v; simpl in *; subst.
  - done.
  - apply NoDup_hm_keys.
  - simpl. intros. apply lookup_empty.
  - intros c e ?%elem_of_hm_iter. by apply Hwf.
Qed.

Lemma decode_encoded_blocks m m0 :
  (∀ c b, msg_blocks m !! c = Some b → block_cid b = c) → blocks_verify m → digests_fit m →
  msg_blocks m0 = ∅ → msg_block_presences m0 = ∅ →
  fold_res decode_v1_block m0 (pb_block_of <$> message_blocks m)
  = Ok (with_blocks (msg_blocks m) m0).
Proof.
  intros Hwf Hv Hl Hb0 Hp0. unfold message_blocks, hm_values. rewrite <-list_fmap_compose.
  rewrite (fold_res_insert (λ s, msg_block_presences s = ∅)
             (λ c b, block_cid b = c ∧ msg_blocks m !! c = Some b) msg_blocks with_blocks
             decode_v1_block (pb_block_of ∘ snd)).
  - by rewrite Hb0, (right_id_L ∅ (∪)), list_to_map_hm_iter.
  - by intros [].
  - done.
  - done.
  - done.
  - intros s k b Hs [Hk Hb] Hf. unfold compose; simpl.
    destruct (pb_of_Block_decodes b s) as [_ ->]; [by eapply Hv|by eapply Hl|].
    unfold add_block, with_blocks, with_block_presences. simpl.
    rewrite Hs, delete_empty, Hk. by destruct s; simpl in *; subst.
  - done.
  - apply NoDup_hm_keys.
  - rewrite Hb0. intros. apply lookup_empty.
  - intros c b Hin%elem_of_hm_iter. split; [by apply Hwf|done].
Qed.

Lemma decode_encoded_presences m m0 :
  (∀ c, is_Some (msg_block_presences m !! c) → msg_blocks m0 !! c = None) →
  msg_block_presences m0 = ∅ →
  fold_res decode_presence m0
    ((λ '(cid, typ), {| pbp_cid := cid_to_bytes cid; pbp_type := BlockPresenceType_into typ |})
       <$> hm_iter (msg_block_presences m))
  = Ok (with_block_presences (msg_block_presences m) m0).
Proof.
  intros Hd Hp0.
  rewrite (fold_res_insert (λ s, msg_blocks s = msg_blocks m0)
             (λ c _, is_Some (msg_block_presences m !! c)) msg_block_presences
             with_block_presences decode_presence
             (λ '(cid, typ),
               {| pbp_cid := cid_to_bytes cid; pbp_type := BlockPresenceType_into typ |})).
  - by rewrite Hp0, (right_id_L ∅ (∪)), list_to_map_hm_iter.
  - by intros [].
  - done.
  - done.
  - done.
  - intros s k t Hs Hk _. unfold decode_presence. simpl.
    rewrite cid_bytes_roundtrip. simpl. rewrite BlockPresenceType_roundtrip. simpl.
    unfold add_block_presence. by rewrite Hs, (Hd k Hk).
  - done.
  - apply NoDup_hm_keys.
  - rewrite Hp0. intros. apply lookup_empty.
  - intros c t ?%elem_of_hm_iter. eauto.
Qed.

(** Encoding a verified message in the 1.1.0 format and decoding it gives
    the message back, whatever the iteration order of the hash maps. *)
Theorem message_v1_roundtrip m :
  message_wf m → blocks_verify m → digests_fit m →
  ∃ pbm, encode_as_proto_v1 m = Ok pbm ∧ message_try_from pbm = Ok m.
Proof.
  intros [Hw Hb Hp] Hv Hl. unfold encode_as_proto_v1.
  rewrite (fold_res_collect pb_of_Block pb_block_of).
  2:{ intros b (k & Hk)%elem_of_hm_values. apply (pb_of_Block_decodes b m); eauto. }
  eexists. simpl. split; [done|].
  unfold message_try_from. simpl.
  rewrite (decode_encoded_entries m (msg_full m)) by done. simpl.
  rewrite (decode_encoded_blocks m) by done. simpl.
  rewrite (decode_encoded_presences m); simpl; [|intros c Hc|done].
  - by destruct m.
  - destruct (msg_blocks m !! c) eqn:E; [|done].
    rewrite (Hp c) in Hc by eauto. by destruct Hc.
Qed.

(** Adding an entry twice merges the two requests: a cancel and a request
    for DONT_HAVE are never lost, a want-block is never weakened to a
    want-have, the priority only changes between wants of one kind, other
    entries are untouched, and only a new entry costs bytes. *)
Theorem add_full_entry_merges cid p ca wt sd m e :
  msg_wantlist m !! cid = Some e →
  let '(m', n) := add_full_entry cid p ca wt sd m in
  n = 0 ∧
  (∃ e', msg_wantlist m' !! cid = Some e' ∧
    entry_cancel e' = ca || entry_cancel e ∧
    entry_send_dont_have e' = sd || entry_send_dont_have e ∧
    (entry_want_type e' = WantType_Block ↔
      wt = WantType_Block ∨ entry_want_type e = WantType_Block) ∧
    entry_priority e' = (if decide (entry_want_type e = wt) then p else entry_priority e)) ∧
  (∀ c, c ≠ cid → msg_wantlist m' !! c = msg_wantlist m !! c) ∧
  msg_blocks m' = msg_blocks m ∧ msg_block_presences m' = msg_block_presences m.
Proof.
  intros He. unfold add_full_entry. rewrite He. simpl. split_and!; [done| |by intros; apply lookup_insert_ne|done..].
  eexists. rewrite lookup_insert_eq. split; [done|]. simpl.
  destruct ca, sd, wt, (entry_want_type e); simpl; split_and!; done || (split; [intros; tauto|intros [?|?]; done]).
Qed.
End message_codec.

(** ** Witnesses *)

Module MessageWitness.
Import Toy.

(** Sizes that count the bytes of the CID. *)
Definition prost : Prost := {|
  pb_entry_encoded_len := fun e => Z.of_nat (length (pbe_block e)) + 4;
  pb_presence_encoded_len := fun p => Z.of_nat (length (pbp_cid p)) + 2 |}.
#[export] Existing Instance prost.

Definition wire : pb_Message :=
  {| pbm_wantlist := Some
       {| pbw_entries :=
            [ {| pbe_block := [1]; pbe_priority := 3; pbe_cancel := false; pbe_want_type := 1;
                 pbe_send_dont_have := true |};
              {| pbe_block := [1]; pbe_priority := 7; pbe_cancel := false; pbe_want_type := 0;
                 pbe_send_dont_have := false |} ];
          pbw_full := true |};
     pbm_blocks := [ [10; 11] ];
     pbm_payload := [ {| pbb_prefix := [1; 85; 0; 2]; pbb_data := [20; 21] |} ];
     pbm_block_presences := [ {| pbp_cid := [30]; pbp_type := 1 |} ];
     pbm_pending_bytes := 12 |}.

Definition demo : BitswapMessage :=
  match message_try_from wire with Ok m => m | _ => message_new false end.

Lemma message_try_from_sound_witness :
  message_try_from wire = Ok demo ∧ size (msg_blocks demo) = 2%nat ∧
  (message_wf demo ∧ blocks_verify demo).
Proof.
  split; [vm_compute; reflexivity|]. split; [vm_compute; reflexivity|].
  apply (message_try_from_sound wire demo). vm_compute. reflexivity.
Defined.

Definition small : BitswapMessage :=
  {| msg_full := false;
     msg_wantlist := {[ [1] := {| entry_cid := [1]; entry_priority := 3;
                                  entry_want_type := WantType_Have; entry_cancel := false;
                                  entry_send_dont_have := true |} ]};
     msg_blocks := {[ [10; 11] := Block_new [10; 11] [10; 11] ]};
     msg_block_presences := {[ [30] := Presence_DontHave ]};
     msg_pending_bytes := 12 |}.

Lemma message_v1_roundtrip_witness :
  ∃ pbm, encode_as_proto_v1 small = Ok pbm ∧ message_try_from pbm = Ok small.
Proof.
  apply (message_v1_roundtrip small).
  - split; simpl.
    + intros c e [<- <-]%lookup_singleton_Some. reflexivity.
    + intros c b [<- <-]%lookup_singleton_Some. reflexivity.
    + intros c [b [<- <-]%lookup_singleton_Some]. reflexivity.
  - unfold blocks_verify. simpl. intros c b [<- <-]%lookup_singleton_Some.
    vm_compute. reflexivity.
  - unfold digests_fit. simpl. intros c b [<- <-]%lookup_singleton_Some. unfold Int.in_u. simpl. lia.
Defined.

Lemma add_full_entry_merges_witness :
  (add_full_entry [1] 9 true WantType_Block false small).2 = 0.
Proof.
  exact (proj1 (add_full_entry_merges [1] 9 true WantType_Block false small
    {| entry_cid := [1]; entry_priority := 3; entry_want_type := WantType_Have;
       entry_cancel := false; entry_send_dont_have := true |} eq_refl)).
Defined.
End MessageWitness.
