(* ===== verification/Wantlist.v ===== *)
(** * Wantlists

    Models [iroh-bitswap/src/client/wantlist.rs]: the set of wanted CIDs with
    its lazily sorted cache.  The server's ledgers and the client's message
    queues are built on it. *)

From stdpp Require Import prelude gmap fin_maps sorting.
From Stdlib Require Import ZArith Lia.
From S2P Require Import Prelude Cids Message.
Local Open Scope Z_scope.

Section wantlist.
Context `{Ids} `{HashOrder}.

(** [wantlist::InnerEntry]; the [Arc] around it is shared, never mutated. *)
Record WlEntry := { wl_cid : Cid; wl_priority : Z; wl_want_type : WantType }.

Definition WlEntry_new (cid : Cid) (priority : Z) (want_type : WantType) : WlEntry :=
  {| wl_cid := cid; wl_priority := priority; wl_want_type := want_type |}.

Record Wantlist := { wl_set : gmap Cid WlEntry; wl_cached : list WlEntry }.

Definition wl_default : Wantlist := {| wl_set := ∅; wl_cached := [] |}.

Definition wl_len (w : Wantlist) : nat := size (wl_set w).
Definition wl_is_empty (w : Wantlist) : bool := bool_decide (wl_set w = ∅).
Definition wl_clear (w : Wantlist) : Wantlist := {| wl_set := ∅; wl_cached := [] |}.

(** [add] *)
Definition wl_add (cid : Cid) (priority : Z) (want_type : WantType) (w : Wantlist) :
    Wantlist * bool :=
  match wl_set w !! cid with
  | None =>
      ({| wl_set := <[cid := WlEntry_new cid priority want_type]> (wl_set w);
          wl_cached := [] |}, true)
  | Some entry =>
      if decide (wl_want_type entry = WantType_Block ∨ want_type = WantType_Have)
      then (w, false)
      else ({| wl_set := <[cid := WlEntry_new cid priority want_type]> (wl_set w);
               wl_cached := [] |}, true)
  end.

(** [remove] *)
Definition wl_remove (cid : Cid) (w : Wantlist) : Wantlist * option WlEntry :=
  ({| wl_set := delete cid (wl_set w); wl_cached := [] |}, wl_set w !! cid).

Definition wl_get (cid : Cid) (w : Wantlist) : option WlEntry := wl_set w !! cid.
Definition wl_contains (cid : Cid) (w : Wantlist) : bool :=
  bool_decide (is_Some (wl_set w !! cid)).

(** [remove_type] *)
Definition wl_remove_type (cid : Cid) (want_type : WantType) (w : Wantlist) :
    Wantlist * option WlEntry :=
  match wl_set w !! cid with
  | None => (w, None)
  | Some entry =>
      if decide (wl_want_type entry = WantType_Block ∧ want_type = WantType_Have)
      then (w, None)
      else ({| wl_set := delete cid (wl_set w); wl_cached := [] |}, Some entry)
  end.

(** [entries] *)
Definition wl_entries (w : Wantlist) : Wantlist * list WlEntry :=
  let cached :=
    match wl_cached w with
    | [] => reverse (sort_by_key wl_priority (hm_values (wl_set w)))
    | c => c
    end in
  ({| wl_set := wl_set w; wl_cached := cached |}, cached).

(** One iteration of the loop of [extend]. *)
Definition wl_extend_step (set : gmap Cid WlEntry) (ce : Cid * WlEntry) : gmap Cid WlEntry :=
  let '(cid, entry) := ce in
  match set !! cid with
  | Some e =>
      if decide (wl_want_type e = WantType_Block ∨ wl_want_type entry = WantType_Have)
      then set
      else <[cid := entry]> set
  | None => <[cid := entry]> set
  end.
Arguments wl_extend_step : simpl never.

(** [extend] *)
Definition wl_extend (other : Wantlist) (w : Wantlist) : Wantlist :=
  {| wl_set := foldl wl_extend_step (wl_set w) (hm_iter (wl_set other)); wl_cached := [] |}.

(** ** The invariant *)

(** Every entry is filed under its own CID, and a non-empty cache holds
    exactly the entries of the set, sorted by decreasing priority. *)
Record wl_wf (w : Wantlist) : Prop := {
  wl_wf_set c e : wl_set w !! c = Some e → wl_cid e = c;
  wl_wf_cached : wl_cached w ≠ [] →
    wl_cached w ≡ₚ (map_to_list (wl_set w)).*2 ∧
    StronglySorted (λ a b, wl_priority b ≤ wl_priority a) (wl_cached w)
}.

Lemma wl_wf_uncached set :
  (∀ c e, set !! c = Some e → wl_cid e = c) → wl_wf {| wl_set := set; wl_cached := [] |}.
Proof. by split. Qed.

Lemma wl_default_wf : wl_wf wl_default.
Proof. apply wl_wf_uncached. intros c e. by rewrite lookup_empty. Qed.

Lemma wl_add_wf c p t w : wl_wf w → wl_wf (wl_add c p t w).1.
Proof.
  intros Hw. unfold wl_add.
  assert (wl_wf {| wl_set := <[c:=WlEntry_new c p t]> (wl_set w); wl_cached := [] |}).
  { apply wl_wf_uncached. intros c' e. rewrite lookup_insert.
    case_decide; [by intros [= <-]|apply Hw]. }
  case_match; [case_decide|]; done.
Qed.

Lemma wl_delete_wf c w :
  wl_wf w → wl_wf {| wl_set := delete c (wl_set w); wl_cached := [] |}.
Proof. intros Hw. apply wl_wf_uncached. intros c' e [_ ?]%lookup_delete_Some. by apply Hw. Qed.

Lemma wl_remove_wf c w : wl_wf w → wl_wf (wl_remove c w).1.
Proof. apply wl_delete_wf. Qed.

Lemma wl_remove_type_wf c t w : wl_wf w → wl_wf (wl_remove_type c t w).1.
Proof.
  intros Hw. unfold wl_remove_type. case_match; [|done]. case_decide; [done|].
  by apply wl_delete_wf.
Qed.

Lemma wl_entries_spec w :
  wl_wf w →
  wl_wf (wl_entries w).1 ∧ wl_set (wl_entries w).1 = wl_set w ∧
  (wl_entries w).2 ≡ₚ (map_to_list (wl_set w)).*2 ∧
  StronglySorted (λ a b, wl_priority b ≤ wl_priority a) (wl_entries w).2.
Proof.
  intros Hw. unfold wl_entries. simpl. destruct (wl_cached w) as [|x l] eqn:E.
  - assert (reverse (sort_by_key wl_priority (hm_values (wl_set w))) ≡ₚ
              (map_to_list (wl_set w)).*2) as Hp.
    { rewrite reverse_Permutation, sort_by_key_perm. unfold hm_values. by rewrite hm_iter_perm. }
    pose proof (StronglySorted_reverse _ _
      (sort_by_key_sorted wl_priority (hm_values (wl_set w)))) as Hs.
    split_and!; [split; simpl; [apply Hw|done]|done|done|done].
  - destruct (wl_wf_cached _ Hw) as [Hp Hs]; [by rewrite E|]. rewrite E in Hp, Hs.
    split_and!; [split; simpl; [apply Hw|done]|done|done|done].
Qed.

(** What [extend] leaves at a CID: the entry of [self] unless [other] upgrades
    it from want-have to want-block. *)
Definition wl_merge (mine theirs : option WlEntry) : option WlEntry :=
  match mine, theirs with
  | Some e, Some e' =>
      if decide (wl_want_type e = WantType_Block ∨ wl_want_type e' = WantType_Have)
      then Some e else Some e'
  | Some e, None => Some e
  | None, o => o
  end.

Lemma wl_extend_step_lookup set cid e c :
  wl_extend_step set (cid, e) !! c
  = if decide (c = cid) then wl_merge (set !! c) (Some e) else set !! c.
Proof.
  unfold wl_extend_step. case_decide as Hc.
  - subst. destruct (set !! cid) as [e0|] eqn:E; simpl.
    + case_decide; [done|by rewrite lookup_insert_eq].
    + by rewrite lookup_insert_eq.
  - destruct (set !! cid) eqn:E; [case_decide; [done|]|]; by rewrite lookup_insert_ne.
Qed.

Lemma wl_extend_fold_lookup l set c :
  NoDup l.*1 →
  foldl wl_extend_step set l !! c = wl_merge (set !! c) ((list_to_map l : gmap Cid WlEntry) !! c).
Proof.
  revert set. induction l as [|[k e] l IH]; intros set Hnd; simpl.
  { rewrite lookup_empty. by destruct (set !! c). }
  simpl in Hnd. rewrite NoDup_cons in Hnd. destruct Hnd as [Hk Hnd].
  rewrite IH, wl_extend_step_lookup, lookup_insert by done.
  case_decide; subst.
  - rewrite decide_True, not_elem_of_list_to_map_1 by done.
    by destruct (set !! k); simpl; [case_decide|].
  - by rewrite decide_False.
Qed.

Lemma wl_extend_lookup other w c :
  wl_set (wl_extend other w) !! c = wl_merge (wl_set w !! c) (wl_set other !! c).
Proof.
  unfold wl_extend. simpl. rewrite wl_extend_fold_lookup by apply NoDup_hm_keys.
  by rewrite list_to_map_hm_iter.
Qed.

Lemma wl_extend_wf other w : wl_wf other → wl_wf w → wl_wf (wl_extend other w).
Proof.
  intros Ho Hw. apply wl_wf_uncached. intros c e.
  change (foldl _ _ _) with (wl_set (wl_extend other w)). rewrite wl_extend_lookup.
  destruct (wl_set w !! c) eqn:E1, (wl_set other !! c) eqn:E2; simpl; [case_decide|..];
    intros; simplify_eq; (by eapply (wl_wf_set w)) || by eapply (wl_wf_set other).
Qed.
End wantlist.

Create HintDb wantlist.
#[export] Hint Resolve wl_default_wf wl_add_wf wl_remove_wf wl_remove_type_wf wl_extend_wf
  wl_wf_set : wantlist.

(** ** Operations as steps *)

Section wantlist_steps.
Context `{Ids} `{HashOrder}.

Inductive wl_op :=
  | WlClear
  | WlAdd (c : Cid) (p : Z) (t : WantType)
  | WlRemove (c : Cid)
  | WlRemoveType (c : Cid) (t : WantType)
  | WlEntries
  | WlExtend (other : list wl_op).

(** Running a sequence of operations; [extend] takes another wantlist that
    was itself built by operations. *)
Fixpoint wl_run (op : wl_op) (w : Wantlist) : Wantlist :=
  match op with
  | WlClear => wl_clear w
  | WlAdd c p t => (wl_add c p t w).1
  | WlRemove c => (wl_remove c w).1
  | WlRemoveType c t => (wl_remove_type c t w).1
  | WlEntries => (wl_entries w).1
  | WlExtend other => wl_extend (foldl (λ w op, wl_run op w) wl_default other) w
  end.

Lemma wl_run_wf op w : wl_wf w → wl_wf (wl_run op w).
Proof.
  revert op w. fix IH 1. intros [| | | | |other] w Hw; simpl.
  - apply wl_wf_uncached. intros c e. by rewrite lookup_empty.
  - by apply wl_add_wf.
  - by apply wl_remove_wf.
  - by apply wl_remove_type_wf.
  - by apply wl_entries_spec.
  - apply wl_extend_wf; [|done]. generalize (wl_default_wf). generalize wl_default.
    induction other as [|op other IHo]; intros w0 Hw0; simpl; [done|].
    apply IHo. apply IH. done.
Qed.

(** After any sequence of operations, [entries] lists every wanted entry
    exactly once, in order of decreasing priority: the lazily filled cache is
    never stale. *)
Theorem wl_entries_sorted_and_complete ops :
  let w := foldl (λ w op, wl_run op w) wl_default ops in
  (wl_entries w).2 ≡ₚ (map_to_list (wl_set w)).*2 ∧
  NoDup (wl_cid <$> (wl_entries w).2) ∧
  StronglySorted (λ a b, wl_priority b ≤ wl_priority a) (wl_entries w).2.
Proof.
  intros w. assert (wl_wf w) as Hw.
  { apply foldl_invariant; [|apply wl_default_wf]. intros; by apply wl_run_wf. }
  destruct (wl_entries_spec w Hw) as (_ & _ & Hp & Hs). split_and!; [done| |done].
  rewrite Hp. replace (wl_cid <$> (map_to_list (wl_set w)).*2) with (map_to_list (wl_set w)).*1.
  - apply NoDup_fst_map_to_list.
  - rewrite <-list_fmap_compose. apply list_fmap_ext. intros i [c e] Hi. simpl.
    symmetry. apply (wl_wf_set _ Hw). apply elem_of_map_to_list.
    by eapply list_elem_of_lookup_2.
Qed.

(** A want-block is never downgraded: [add] and [extend] keep it, and only a
    removal that asks for want-blocks takes it out; [add] reports whether the
    wantlist changed. *)
Theorem wl_block_not_downgraded c e w p t other :
  wl_get c w = Some e → wl_want_type e = WantType_Block →
  wl_add c p t w = (w, false) ∧
  wl_get c (wl_extend other w) = Some e ∧
  wl_remove_type c WantType_Have w = (w, None) ∧
  (wl_remove_type c WantType_Block w).2 = Some e ∧
  wl_get c (wl_remove_type c WantType_Block w).1 = None.
Proof.
  unfold wl_get. intros He Ht. unfold wl_add, wl_remove_type.
  rewrite wl_extend_lookup, He. simpl.
  repeat rewrite decide_True by (by left).
  rewrite decide_True by done. rewrite decide_False by naive_solver. simpl.
  split_and!; [done| |done|done|apply lookup_delete_eq].
  case_match; [|done]. by rewrite decide_True by (by left).
Qed.
End wantlist_steps.

(** ** Witnesses *)

Module WantlistWitness.
Import Toy.

Definition demo : Wantlist :=
  {| wl_set := {[ [1] := WlEntry_new [1] 5 WantType_Block ]}; wl_cached := [] |}.

Lemma wl_block_not_downgraded_witness :
  wl_add [1] 9 WantType_Have demo = (demo, false).
Proof.
  refine (proj1 (wl_block_not_downgraded [1] (WlEntry_new [1] 5 WantType_Block) demo 9
    WantType_Have wl_default _ _)); reflexivity.
Defined.
End WantlistWitness.
