(* ===== verification/PriorityQueue.v ===== *)
(** * Keyed priority queues

    The crate [keyed-priority-queue] is outside the repository: its
    [KeyedPriorityQueue<K, P>] is the class [PriorityQueue], with the behaviour
    its documentation promises as the laws.  [pop] returns a maximal entry only
    for a queue whose order has been kept by operations under which [Ord::cmp]
    is a total preorder of the stored priorities; a heap cannot promise more.
    The module [ScanQueue] implements the interface, which shows that the laws
    can be met and makes the users of the queue executable. *)

From stdpp Require Import prelude gmap fin_maps.
From Stdlib Require Import ZArith Lia.
From S2P Require Import Prelude.

(** The trait [Ord]. *)
Class Ord (A : Type) := cmp : A → A → comparison.

(** [cmp] behaves as a total preorder on the values that satisfy [D]. *)
Record total_on {A} `{Ord A} (D : A → Prop) : Prop := {
  total_opp a b : D a → D b → cmp b a = CompOpp (cmp a b);
  total_trans a b c : D a → D b → D c → cmp a b ≠ Lt → cmp b c ≠ Lt → cmp a c ≠ Lt
}.

Lemma total_on_weaken {A} `{Ord A} (D E : A → Prop) :
  (∀ a, E a → D a) → total_on D → total_on E.
Proof. intros HE [Ho Ht]. split; eauto. Qed.

Class PriorityQueue := {
  kpq (K P : Type) `{Countable K} `{Ord P} : Type;
  kpq_new {K P} `{Countable K} `{Ord P} : kpq K P;
  kpq_push {K P} `{Countable K} `{Ord P} : K → P → kpq K P → kpq K P;
  kpq_pop {K P} `{Countable K} `{Ord P} : kpq K P → option (K * P * kpq K P);
  kpq_remove {K P} `{Countable K} `{Ord P} : K → kpq K P → kpq K P;
  kpq_iter {K P} `{Countable K} `{Ord P} : kpq K P → list (K * P);

  (** The entries, and the order kept by the operations. *)
  kpq_contents {K P} `{Countable K} `{Ord P} : kpq K P → gmap K P;
  kpq_ordered {K P} `{Countable K} `{Ord P} : kpq K P → Prop;

  kpq_new_contents {K P} `{Countable K} `{Ord P} : kpq_contents (kpq_new (K:=K) (P:=P)) = ∅;
  kpq_push_contents {K P} `{Countable K} `{Ord P} k p (q : kpq K P) :
    kpq_contents (kpq_push k p q) = <[k:=p]> (kpq_contents q);
  kpq_remove_contents {K P} `{Countable K} `{Ord P} k (q : kpq K P) :
    kpq_contents (kpq_remove k q) = delete k (kpq_contents q);
  kpq_iter_perm {K P} `{Countable K} `{Ord P} (q : kpq K P) :
    kpq_iter q ≡ₚ map_to_list (kpq_contents q);
  kpq_pop_none {K P} `{Countable K} `{Ord P} (q : kpq K P) :
    kpq_pop q = None ↔ kpq_contents q = ∅;
  kpq_pop_some {K P} `{Countable K} `{Ord P} (q q' : kpq K P) k p :
    kpq_pop q = Some (k, p, q') →
    kpq_contents q !! k = Some p ∧ kpq_contents q' = delete k (kpq_contents q);

  kpq_new_ordered {K P} `{Countable K} `{Ord P} : kpq_ordered (kpq_new (K:=K) (P:=P));
  kpq_push_ordered {K P} `{Countable K} `{Ord P} k p (q : kpq K P) :
    total_on (λ x, x = p ∨ ∃ k', kpq_contents q !! k' = Some x) →
    kpq_ordered q → kpq_ordered (kpq_push k p q);
  kpq_remove_ordered {K P} `{Countable K} `{Ord P} k (q : kpq K P) :
    total_on (λ x, ∃ k', kpq_contents q !! k' = Some x) →
    kpq_ordered q → kpq_ordered (kpq_remove k q);
  kpq_pop_ordered {K P} `{Countable K} `{Ord P} (q q' : kpq K P) k p :
    total_on (λ x, ∃ k', kpq_contents q !! k' = Some x) →
    kpq_ordered q → kpq_pop q = Some (k, p, q') →
    kpq_ordered q' ∧ ∀ k' p', kpq_contents q !! k' = Some p' → cmp p p' ≠ Lt
}.

Section derived.
Context `{PriorityQueue} {K P : Type} `{Countable K} `{Ord P}.

(** [len], [is_empty], and [get_priority] of an occupied [entry]. *)
Definition kpq_len (q : kpq K P) : nat := length (kpq_iter q).
Definition kpq_is_empty (q : kpq K P) : bool := bool_decide (kpq_len q = 0).
Definition kpq_get (k : K) (q : kpq K P) : option P := kpq_contents q !! k.

Lemma kpq_len_size (q : kpq K P) : kpq_len q = size (kpq_contents q).
Proof. unfold kpq_len. by rewrite kpq_iter_perm, length_map_to_list. Qed.

Lemma kpq_is_empty_spec (q : kpq K P) : kpq_is_empty q = bool_decide (kpq_contents q = ∅).
Proof.
  unfold kpq_is_empty. rewrite kpq_len_size. apply bool_decide_ext. apply map_size_empty_iff.
Qed.

Lemma kpq_pop_len (q q' : kpq K P) k p : kpq_pop q = Some (k, p, q') → kpq_len q = S (kpq_len q').
Proof.
  intros [Hk Hq]%kpq_pop_some. rewrite !kpq_len_size, Hq, map_size_delete_Some by eauto.
  assert (size (kpq_contents q) ≠ 0); [|lia].
  apply map_size_ne_0_lookup. eauto.
Qed.

Lemma elem_of_kpq_iter (q : kpq K P) k p : (k, p) ∈ kpq_iter q ↔ kpq_contents q !! k = Some p.
Proof. rewrite kpq_iter_perm. apply elem_of_map_to_list. Qed.
End derived.

(** ** An implementation *)

(** A map that is scanned for the maximum on every [pop]. *)
Module ScanQueue.
Section scan.
Context {K P : Type} `{Countable K} `{Ord P}.

(** The first maximum of a list. *)
Fixpoint best (b : K * P) (l : list (K * P)) : K * P :=
  match l with
  | [] => b
  | x :: l => best (match cmp b.2 x.2 with Lt => x | _ => b end) l
  end.

Definition pop (q : gmap K P) : option (K * P * gmap K P) :=
  match map_to_list q with
  | [] => None
  | b :: l => let kp := best b l in Some (kp, delete kp.1 q)
  end.

Lemma best_elem b l : best b l ∈ b :: l.
Proof.
  revert b. induction l as [|x l IH]; intros b; simpl; [left|].
  specialize (IH (match cmp b.2 x.2 with Lt => x | _ => b end)).
  rewrite elem_of_cons in IH. destruct IH as [->|IH]; [case_match; set_solver|set_solver].
Qed.

Lemma total_on_refl (D : P → Prop) a : total_on D → D a → cmp a a ≠ Lt.
Proof.
  intros Ht Ha Hlt. pose proof (total_opp _ Ht a a Ha Ha) as Ho. by rewrite Hlt in Ho.
Qed.

Lemma best_max (D : P → Prop) b l :
  total_on D → (∀ x, x ∈ b :: l → D x.2) → ∀ x, x ∈ b :: l → cmp (best b l).2 x.2 ≠ Lt.
Proof.
  intros Ht. revert b. induction l as [|y l IH]; intros b HD x Hx; simpl.
  { apply list_elem_of_singleton in Hx as ->. eapply total_on_refl; [done|]. apply HD. left. }
  set (c := match cmp b.2 y.2 with Lt => y | _ => b end).
  assert (c ∈ [b; y]) as Hc by (unfold c; case_match; set_solver).
  assert (∀ z, z ∈ c :: l → D z.2) as HDc by (intros z; set_solver).
  assert (cmp (best c l).2 c.2 ≠ Lt) as Hbc by (apply IH; [done|left]).
  assert (D (best c l).2) as HDb by (apply HDc, best_elem).
  rewrite !elem_of_cons in Hx. destruct Hx as [->|[->|Hx]]; [| |apply IH; [done|by right]].
  - eapply (total_trans _ Ht _ c.2); [done|apply HDc; left|apply HD; left|done|].
    unfold c. destruct (cmp b.2 y.2) eqn:E.
    + eapply total_on_refl; [done|]. apply HD. left.
    + rewrite (total_opp _ Ht b.2 y.2), E; [done|apply HD; left|apply HD; right; left].
    + eapply total_on_refl; [done|]. apply HD. left.
  - eapply (total_trans _ Ht _ c.2); [done|apply HDc; left|apply HD; right; left|done|].
    unfold c. destruct (cmp b.2 y.2) eqn:E; [by rewrite E| |by rewrite E].
    eapply total_on_refl; [done|]. apply HD. right; left.
Qed.

Lemma pop_some q k p q' :
  pop q = Some (k, p, q') →
  q !! k = Some p ∧ q' = delete k q ∧
  (total_on (λ x, ∃ k', q !! k' = Some x) → ∀ k' p', q !! k' = Some p' → cmp p p' ≠ Lt).
Proof.
  unfold pop. destruct (map_to_list q) as [|b l] eqn:E; [done|]. intros Hpop.
  destruct (best b l) as [k0 p0] eqn:Eb. simpl in Hpop. injection Hpop as -> -> <-.
  assert (∀ k p, q !! k = Some p ↔ (k, p) ∈ b :: l) as Hq
    by (intros; by rewrite <-E, elem_of_map_to_list).
  split_and!; [rewrite Hq, <-Eb; apply best_elem|done|].
  intros Ht k' p' Hk'. apply Hq in Hk'.
  pose proof (best_max _ b l Ht) as Hm. rewrite Eb in Hm.
  apply (Hm (λ '(k0, p0) (Hin : _), ex_intro _ k0 (proj2 (Hq k0 p0) Hin)) (k', p') Hk').
Qed.

Lemma pop_none q : pop q = None ↔ q = ∅.
Proof.
  unfold pop. rewrite <-map_to_list_empty_iff. destruct (map_to_list q); naive_solver.
Qed.
End scan.

#[export] Program Instance queue : PriorityQueue := {|
  kpq K P _ _ _ := gmap K P;
  kpq_new _ _ _ _ _ := ∅;
  kpq_push _ _ _ _ _ k p q := <[k:=p]> q;
  kpq_pop _ _ _ _ _ q := pop q;
  kpq_remove _ _ _ _ _ k q := delete k q;
  kpq_iter _ _ _ _ _ q := map_to_list q;
  kpq_contents _ _ _ _ _ q := q;
  kpq_ordered _ _ _ _ _ q := True
|}.
Next Obligation. done. Qed.
Next Obligation. done. Qed.
Next Obligation. done. Qed.
Next Obligation. done. Qed.
Next Obligation. intros. apply pop_none. Qed.
Next Obligation. intros * Hp. apply pop_some in Hp as (? & ? & ?). done. Qed.
Next Obligation. done. Qed.
Next Obligation. done. Qed.
Next Obligation. done. Qed.
Next Obligation. intros * Ht _ Hp. apply pop_some in Hp as (? & ? & ?). eauto. Qed.
End ScanQueue.
