(* ===== verification/TaskQueue.v ===== *)
(** * The peer task queue

    Models [iroh-bitswap/src/peer_task_queue.rs],
    [iroh-bitswap/src/peer_task_queue/peer_task.rs],
    [iroh-bitswap/src/peer_task_queue/peer_tracker.rs] and
    [iroh-bitswap/src/server/task_merger.rs].  [Instant]s are integers and the
    clock is an argument.  The channels handed out by [add_hook] are the lists
    of the events sent to them. *)

From stdpp Require Import prelude gmap fin_maps sorting.
From Stdlib Require Import ZArith Lia.
From S2P Require Import Prelude Cids PriorityQueue.
Local Open Scope Z_scope.

Record Task (T D : Type) := {
  task_topic : T;
  task_priority : Z;
  task_work : Z;
  task_data : D
}.
Arguments task_topic {T D} t.
Arguments task_priority {T D} t.
Arguments task_work {T D} t.
Arguments task_data {T D} t.

#[global] Instance Task_eq_dec `{EqDecision T, EqDecision D} : EqDecision (Task T D).
Proof. solve_decision. Defined.

Definition with_priority {T D} (p : Z) (t : Task T D) : Task T D :=
  {| task_topic := task_topic t; task_priority := p; task_work := task_work t;
     task_data := task_data t |}.

(** The trait [TaskMerger]; [merge] returns the updated existing task. *)
Class TaskMerger (T D : Type) := {
  has_new_info : Task T D → list (Task T D) → bool;
  merge : Task T D → Task T D → Task T D
}.

Definition DefaultTaskMerger {T D} : TaskMerger T D :=
  {| has_new_info := λ _ _, false; merge := λ _ existing, existing |}.

Section tracker.
Context `{Ids} `{PriorityQueue} {T D : Type} `{Countable T} `{EqDecision D} `{TaskMerger T D}.

Record QueueTask := { qt_task : Task T D; qt_target : PeerId; qt_created : Z }.

(** [impl Ord for QueueTask] *)
#[export] Instance QueueTask_cmp : Ord QueueTask := λ self other,
  if bool_decide (qt_target self = qt_target other)
     && negb (task_priority (qt_task self) =? task_priority (qt_task other))
  then task_priority (qt_task self) ?= task_priority (qt_task other)
  else qt_created other ?= qt_created self.

Definition QueueTask_new (task : Task T D) (target : PeerId) (created : Z) : QueueTask :=
  {| qt_task := task; qt_target := target; qt_created := created |}.

Record PeerTracker := {
  pt_target : PeerId;
  pt_pending_tasks : kpq T QueueTask;
  pt_active_tasks : gmap T (list (Task T D));
  pt_active_work : Z;
  pt_max_active_work_per_peer : Z;
  pt_freeze_val : Z
}.

Definition pt_with_pending (q : kpq T QueueTask) (pt : PeerTracker) : PeerTracker :=
  {| pt_target := pt_target pt; pt_pending_tasks := q; pt_active_tasks := pt_active_tasks pt;
     pt_active_work := pt_active_work pt;
     pt_max_active_work_per_peer := pt_max_active_work_per_peer pt;
     pt_freeze_val := pt_freeze_val pt |}.
Definition pt_with_active (a : gmap T (list (Task T D))) (w : Z) (pt : PeerTracker) : PeerTracker :=
  {| pt_target := pt_target pt; pt_pending_tasks := pt_pending_tasks pt; pt_active_tasks := a;
     pt_active_work := w;
     pt_max_active_work_per_peer := pt_max_active_work_per_peer pt;
     pt_freeze_val := pt_freeze_val pt |}.
Definition pt_with_freeze (z : Z) (pt : PeerTracker) : PeerTracker :=
  {| pt_target := pt_target pt; pt_pending_tasks := pt_pending_tasks pt;
     pt_active_tasks := pt_active_tasks pt; pt_active_work := pt_active_work pt;
     pt_max_active_work_per_peer := pt_max_active_work_per_peer pt; pt_freeze_val := z |}.

Definition PeerTracker_new (target : PeerId) (max_active_work_per_peer : Z) : PeerTracker :=
  {| pt_target := target; pt_pending_tasks := kpq_new; pt_active_tasks := ∅;
     pt_active_work := 0; pt_max_active_work_per_peer := max_active_work_per_peer;
     pt_freeze_val := 0 |}.

Definition pt_is_idle (pt : PeerTracker) : bool :=
  kpq_is_empty (pt_pending_tasks pt) && bool_decide (pt_active_tasks pt = ∅).

(** [stats]: the numbers of pending and of active topics. *)
Definition pt_stats (pt : PeerTracker) : nat * nat :=
  (kpq_len (pt_pending_tasks pt), size (pt_active_tasks pt)).

Definition task_has_more_info_than_active_tasks (task : Task T D) (pt : PeerTracker) : bool :=
  match pt_active_tasks pt !! task_topic task with
  | Some tasks_with_topic =>
      if decide (tasks_with_topic = []) then true else has_new_info task tasks_with_topic
  | None => true
  end.

(** One iteration of the loop of [push_tasks]. *)
Definition pt_push_task (now : Z) (pt : PeerTracker) (task : Task T D) : PeerTracker :=
  if negb (task_has_more_info_than_active_tasks task pt) then pt
  else match kpq_get (task_topic task) (pt_pending_tasks pt) with
  | Some existing_task =>
      let pending := kpq_remove (task_topic task) (pt_pending_tasks pt) in
      let existing := qt_task existing_task in
      let existing :=
        if task_priority existing <? task_priority task
        then with_priority (task_priority task) existing else existing in
      let existing := merge task existing in
      pt_with_pending
        (kpq_push (task_topic task)
           (QueueTask_new existing (qt_target existing_task) (qt_created existing_task)) pending) pt
  | None =>
      pt_with_pending
        (kpq_push (task_topic task) (QueueTask_new task (pt_target pt) now)
           (pt_pending_tasks pt)) pt
  end.

Definition pt_push_tasks (now : Z) (tasks : list (Task T D)) (pt : PeerTracker) : PeerTracker :=
  foldl (pt_push_task now) pt tasks.

Definition pt_start_task (task : Task T D) (pt : PeerTracker) : PeerTracker :=
  pt_with_active
    (<[task_topic task := default [] (pt_active_tasks pt !! task_topic task) ++ [task]]>
       (pt_active_tasks pt))
    (Int.usize_add (pt_active_work pt) (task_work task)) pt.

(** The condition of the loop of [pop_tasks] and the guard that leaves it. *)
Definition pt_pop_continues (target_min_work work : Z) (pt : PeerTracker) : bool :=
  (negb (kpq_is_empty (pt_pending_tasks pt)) && (pt_freeze_val pt =? 0)
   && (work <? target_min_work))
  && negb ((0 <? pt_max_active_work_per_peer pt)
           && (pt_max_active_work_per_peer pt <=? pt_active_work pt)).

Fixpoint pt_pop_loop (fuel : nat) (target_min_work work : Z) (out : list (Task T D))
    (pt : PeerTracker) : PeerTracker * list (Task T D) :=
  match fuel with
  | O => (pt, out)
  | S fuel =>
      if pt_pop_continues target_min_work work pt then
        match kpq_pop (pt_pending_tasks pt) with
        | Some (_, qtask, pending) =>
            let task := qt_task qtask in
            pt_pop_loop fuel target_min_work (Int.usize_add work (task_work task)) (out ++ [task])
              (pt_start_task task (pt_with_pending pending pt))
        | None => pt_pop_loop fuel target_min_work work out pt
        end
      else (pt, out)
  end.

(** [pop_tasks]: every iteration takes a pending task, which bounds the loop. *)
Definition pt_pop_tasks (target_min_work : Z) (pt : PeerTracker) : PeerTracker * list (Task T D) :=
  pt_pop_loop (S (kpq_len (pt_pending_tasks pt))) target_min_work 0 [] pt.

Definition pt_get_pending_work (pt : PeerTracker) : Z :=
  foldl (λ acc kq, Int.usize_add acc (task_work (qt_task kq.2))) 0 (kpq_iter (pt_pending_tasks pt)).

(** [task_done]: panics when more work is finished than was started. *)
Definition pt_task_done (task : Task T D) (pt : PeerTracker) : res Error PeerTracker :=
  match pt_active_tasks pt !! task_topic task with
  | Some active_tasks =>
      let work_done :=
        foldl (λ w at_, if decide (at_ = task) then Int.usize_add w (task_work task) else w)
          0 active_tasks in
      let active_tasks := filter (λ at_, at_ ≠ task) active_tasks in
      assert (work_done <=? pt_active_work pt);;
      let active_work := Int.usize_sub (pt_active_work pt) work_done in
      Ok (pt_with_active
            (if decide (active_tasks = [])
             then delete (task_topic task) (pt_active_tasks pt)
             else <[task_topic task := active_tasks]> (pt_active_tasks pt)) active_work pt)
  | None => Ok pt
  end.

Definition pt_remove (topic : T) (pt : PeerTracker) : PeerTracker * bool :=
  (pt_with_pending (kpq_remove topic (pt_pending_tasks pt)) pt,
   bool_decide (is_Some (kpq_get topic (pt_pending_tasks pt)))).

Definition pt_freeze (pt : PeerTracker) : PeerTracker :=
  pt_with_freeze (Int.isize_add (pt_freeze_val pt) 1) pt.

Definition pt_thaw (pt : PeerTracker) : PeerTracker * bool :=
  let v := Int.isize_sub (pt_freeze_val pt) (Z.quot (Int.isize_add (pt_freeze_val pt) 1) 2) in
  (pt_with_freeze v pt, v <=? 0).

Definition pt_full_thaw (pt : PeerTracker) : PeerTracker := pt_with_freeze 0 pt.
Definition pt_is_frozen (pt : PeerTracker) : bool := 0 <? pt_freeze_val pt.

(** [impl Ord for PeerTracker], with its repeated test. *)
#[export] Instance PeerTracker_cmp : Ord PeerTracker := λ self other,
  if kpq_is_empty (pt_pending_tasks self) then Lt
  else if kpq_is_empty (pt_pending_tasks other) then Gt
  else if pt_freeze_val other <? pt_freeze_val self then Lt
  else if pt_freeze_val other <? pt_freeze_val self then Gt
  else if pt_active_work self =? pt_active_work other
  then (Z.of_nat (kpq_len (pt_pending_tasks self)) ?= Z.of_nat (kpq_len (pt_pending_tasks other)))
  else pt_active_work other ?= pt_active_work self.
End tracker.

Arguments QueueTask {_} T D.
Arguments PeerTracker {_ _} T D {_ _}.

(** ** The queue of all peers *)

Inductive ptq_Event `{Ids} := PeerAdded (p : PeerId) | PeerRemoved (p : PeerId).

Section queue.
Context `{Ids} `{PriorityQueue} `{HashOrder} {T D : Type} `{Countable T} `{EqDecision D}
  `{TaskMerger T D}.

Record ptq_Config := { cfg_ignore_freezing : bool; cfg_max_outstanding_work_per_peer : Z }.

(** [Inner] *)
Record PeerTaskQueue := {
  ptq_peer_queue : kpq PeerId (PeerTracker T D);
  ptq_frozen_peers : gset PeerId;
  ptq_ignore_freezing : bool;
  ptq_max_outstanding_work_per_peer : Z;
  ptq_hooks : list (list ptq_Event)
}.

Definition ptq_with_queue (q : kpq PeerId (PeerTracker T D)) (s : PeerTaskQueue) : PeerTaskQueue :=
  {| ptq_peer_queue := q; ptq_frozen_peers := ptq_frozen_peers s;
     ptq_ignore_freezing := ptq_ignore_freezing s;
     ptq_max_outstanding_work_per_peer := ptq_max_outstanding_work_per_peer s;
     ptq_hooks := ptq_hooks s |}.
Definition ptq_with_frozen (f : gset PeerId) (s : PeerTaskQueue) : PeerTaskQueue :=
  {| ptq_peer_queue := ptq_peer_queue s; ptq_frozen_peers := f;
     ptq_ignore_freezing := ptq_ignore_freezing s;
     ptq_max_outstanding_work_per_peer := ptq_max_outstanding_work_per_peer s;
     ptq_hooks := ptq_hooks s |}.
Definition ptq_with_hooks (h : list (list ptq_Event)) (s : PeerTaskQueue) : PeerTaskQueue :=
  {| ptq_peer_queue := ptq_peer_queue s; ptq_frozen_peers := ptq_frozen_peers s;
     ptq_ignore_freezing := ptq_ignore_freezing s;
     ptq_max_outstanding_work_per_peer := ptq_max_outstanding_work_per_peer s;
     ptq_hooks := h |}.

Definition PeerTaskQueue_new (config : ptq_Config) : PeerTaskQueue :=
  {| ptq_peer_queue := kpq_new; ptq_frozen_peers := ∅;
     ptq_ignore_freezing := cfg_ignore_freezing config;
     ptq_max_outstanding_work_per_peer := cfg_max_outstanding_work_per_peer config;
     ptq_hooks := [] |}.

Definition ptq_add_hook (s : PeerTaskQueue) : PeerTaskQueue :=
  ptq_with_hooks (ptq_hooks s ++ [[]]) s.

Definition ptq_call_hook (e : ptq_Event) (s : PeerTaskQueue) : PeerTaskQueue :=
  ptq_with_hooks ((λ events, events ++ [e]) <$> ptq_hooks s) s.

(** [stats]: peers, active topics and pending topics. *)
Definition ptq_stats (s : PeerTaskQueue) : nat * nat * nat :=
  foldl (λ '(peers, active, pending) kt,
           (peers, active + (pt_stats kt.2).2, pending + (pt_stats kt.2).1))%nat
    (kpq_len (ptq_peer_queue s), 0%nat, 0%nat) (kpq_iter (ptq_peer_queue s)).

Definition ptq_push_tasks (now : Z) (peer : PeerId) (tasks : list (Task T D)) (s : PeerTaskQueue) :
    PeerTaskQueue :=
  let found := kpq_get peer (ptq_peer_queue s) in
  let s := ptq_with_queue (kpq_remove peer (ptq_peer_queue s)) s in
  let '(peer_tracker, s) :=
    match found with
    | Some peer_tracker => (peer_tracker, s)
    | None => (PeerTracker_new peer (ptq_max_outstanding_work_per_peer s),
               ptq_call_hook (PeerAdded peer) s)
    end in
  ptq_with_queue (kpq_push peer (pt_push_tasks now tasks peer_tracker) (ptq_peer_queue s)) s.

Definition ptq_push_task (now : Z) (peer : PeerId) (task : Task T D) (s : PeerTaskQueue) :
    PeerTaskQueue :=
  ptq_push_tasks now peer [task] s.

Definition ptq_pop_tasks (target_min_work : Z) (s : PeerTaskQueue) :
    PeerTaskQueue * option (PeerId * list (Task T D) * Z) :=
  match kpq_pop (ptq_peer_queue s) with
  | None => (s, None)
  | Some (peer, peer_tracker, q) =>
      let s := ptq_with_queue q s in
      let '(peer_tracker, out) := pt_pop_tasks target_min_work peer_tracker in
      let pending_work := pt_get_pending_work peer_tracker in
      let s :=
        if pt_is_idle peer_tracker
        then ptq_call_hook (PeerRemoved peer)
               (ptq_with_frozen (ptq_frozen_peers s ∖ {[peer]}) s)
        else ptq_with_queue (kpq_push peer peer_tracker (ptq_peer_queue s)) s in
      (s, Some (peer, out, pending_work))
  end.

Definition ptq_tasks_done (peer : PeerId) (tasks : list (Task T D)) (s : PeerTaskQueue) :
    res Error PeerTaskQueue :=
  match kpq_get peer (ptq_peer_queue s) with
  | Some peer_tracker =>
      let q := kpq_remove peer (ptq_peer_queue s) in
      peer_tracker ← fold_res (λ pt task, pt_task_done task pt) peer_tracker tasks;
      Ok (ptq_with_queue (kpq_push peer peer_tracker q) s)
  | None => Ok s
  end.

Definition ptq_remove (topic : T) (peer : PeerId) (s : PeerTaskQueue) : PeerTaskQueue :=
  match kpq_get peer (ptq_peer_queue s) with
  | Some peer_tracker =>
      let s := ptq_with_queue (kpq_remove peer (ptq_peer_queue s)) s in
      let '(peer_tracker, removed) := pt_remove topic peer_tracker in
      let '(peer_tracker, s) :=
        if removed && negb (ptq_ignore_freezing s) then
          (pt_freeze peer_tracker,
           if negb (pt_is_frozen peer_tracker)
           then ptq_with_frozen ({[peer]} ∪ ptq_frozen_peers s) s else s)
        else (peer_tracker, s) in
      ptq_with_queue (kpq_push peer peer_tracker (ptq_peer_queue s)) s
  | None => s
  end.

(** The bodies of the loops of [full_thaw] and [thaw_round]. *)
Definition ptq_full_thaw_peer (s : PeerTaskQueue) (peer : PeerId) : PeerTaskQueue :=
  match kpq_get peer (ptq_peer_queue s) with
  | Some peer_tracker =>
      let q := kpq_remove peer (ptq_peer_queue s) in
      ptq_with_queue (kpq_push peer (pt_full_thaw peer_tracker) q)
        (ptq_with_frozen (ptq_frozen_peers s ∖ {[peer]}) s)
  | None => s
  end.
Definition ptq_thaw_peer (s : PeerTaskQueue) (peer : PeerId) : PeerTaskQueue :=
  match kpq_get peer (ptq_peer_queue s) with
  | Some peer_tracker =>
      let q := kpq_remove peer (ptq_peer_queue s) in
      let '(peer_tracker, thawed) := pt_thaw peer_tracker in
      let s := if thawed then ptq_with_frozen (ptq_frozen_peers s ∖ {[peer]}) s else s in
      ptq_with_queue (kpq_push peer peer_tracker q) s
  | None => s
  end.

Definition ptq_full_thaw (s : PeerTaskQueue) : PeerTaskQueue :=
  foldl ptq_full_thaw_peer s (hs_iter (ptq_frozen_peers s)).
Definition ptq_thaw_round (s : PeerTaskQueue) : PeerTaskQueue :=
  foldl ptq_thaw_peer s (hs_iter (ptq_frozen_peers s)).
End queue.
Arguments PeerTaskQueue {_ _} T D {_ _}.

(** ** The task merger of the server *)

Record TaskData := {
  td_is_want_block : bool;
  td_send_dont_have : bool;
  td_block_size : Z;
  td_have_block : bool
}.

#[global] Instance TaskData_eq_dec : EqDecision TaskData.
Proof. solve_decision. Defined.

Section merger.
Context {T : Type}.

Definition server_has_new_info (task : Task T TaskData) (existing : list (Task T TaskData)) : bool :=
  let '(have_size, is_want_block) :=
    foldl (λ '(have_size, is_want_block) entry,
             (if td_have_block (task_data entry) then true else have_size,
              if td_is_want_block (task_data entry) then true else is_want_block))
      (false, false) existing in
  if negb is_want_block && td_is_want_block (task_data task) then true
  else if negb have_size && td_have_block (task_data task) then true
  else false.

Definition server_merge (task existing : Task T TaskData) : Task T TaskData :=
  let new_task := task_data task in
  let e := task_data existing in
  let work := task_work existing in
  let '(have_block, block_size) :=
    if negb (td_have_block e) && td_have_block new_task
    then (td_have_block new_task, td_block_size new_task)
    else (td_have_block e, td_block_size e) in
  let '(is_want_block, have_block, work) :=
    if negb (td_is_want_block e) && td_is_want_block new_task then
      if negb have_block || td_have_block new_task
      then (true, td_have_block new_task, task_work task)
      else (true, have_block, work)
    else (td_is_want_block e, have_block, work) in
  let work := if is_want_block && have_block then block_size else work in
  {| task_topic := task_topic existing; task_priority := task_priority existing;
     task_work := work;
     task_data := {| td_is_want_block := is_want_block; td_send_dont_have := td_send_dont_have e;
                     td_block_size := block_size; td_have_block := have_block |} |}.

#[export] Instance ServerTaskMerger : TaskMerger T TaskData :=
  {| has_new_info := server_has_new_info; merge := server_merge |}.
End merger.
