(* ===== verification/TaskQueueFacts.v ===== *)
(** * Correctness of the peer task queue

    Theorems on [TaskQueue]: the invariant of a peer's tracker, the order in
    which tasks leave it, work accounting, freezing and thawing of peers, and
    the monotonicity of the server's task merger. *)

From stdpp Require Import prelude gmap fin_maps sorting.
From Stdlib Require Import ZArith Lia.
From S2P Require Import Prelude Cids PriorityQueue TaskQueue.
Local Open Scope Z_scope.

(** What the queue expects of a merger: it keeps the topic of the existing task
    and the validity of its sizes. *)
Class MergerLaws (T D : Type) `{TaskMerger T D} := {
  task_ok : Task T D → Prop;
  task_ok_work t : task_ok t → 0 ≤ task_work t;
  task_ok_priority p t : task_ok t → task_ok (with_priority p t);
  merge_topic a b : task_topic (merge a b) = task_topic b;
  merge_ok a b : task_ok a → task_ok b → task_ok (merge a b)
}.

Section tracker_facts.
Context `{Ids} `{PriorityQueue} {T D : Type} `{Countable T} `{EqDecision D} `{MergerLaws T D}.
Implicit Types (pt : PeerTracker T D) (task : Task T D) (q : QueueTask T D).

(** The tasks of one peer are totally preordered. *)
Lemma QueueTask_cmp_total (p : PeerId) : total_on (λ q : QueueTask T D, qt_target q = p).
Proof.
  split.
  - intros a b Ha Hb. unfold cmp, QueueTask_cmp. rewrite Ha, Hb, bool_decide_eq_true_2 by done.
    simpl. rewrite (Z.eqb_sym (task_priority (qt_task b))). case_match; simpl;
      by rewrite Z.compare_antisym.
  - intros a b c Ha Hb Hc. unfold cmp, QueueTask_cmp. rewrite Ha, Hb, Hc.
    rewrite bool_decide_eq_true_2 by done. simpl.
    repeat case_match; simpl in *;
      repeat match goal with
      | H : negb (_ =? _) = true |- _ => apply negb_true_iff, Z.eqb_neq in H
      | H : negb (_ =? _) = false |- _ => apply negb_false_iff, Z.eqb_eq in H
      end; rewrite ?Z.compare_ge_iff; lia.
Qed.

Definition tasks_work (l : list (Task T D)) : Z := sum_z (task_work <$> l).

(** The work of all the active tasks. *)
Definition active_total pt : Z := map_sum tasks_work (pt_active_tasks pt).

(** Tasks are filed under their topic and belong to the tracker's peer, no
    empty list of active tasks is kept, and [active_work] is the work of the
    active tasks. *)
Record pt_wf pt : Prop := {
  pt_wf_pending t q : kpq_contents (pt_pending_tasks pt) !! t = Some q →
    task_topic (qt_task q) = t ∧ qt_target q = pt_target pt ∧ task_ok (qt_task q);
  pt_wf_ordered : kpq_ordered (pt_pending_tasks pt);
  pt_wf_active t l : pt_active_tasks pt !! t = Some l →
    l ≠ [] ∧ Forall (λ task, task_topic task = t ∧ task_ok task) l;
  pt_wf_work : pt_active_work pt = Int.wrap 64 (active_total pt)
}.

Lemma pt_wf_total pt : pt_wf pt →
  total_on (λ x, ∃ k', kpq_contents (pt_pending_tasks pt) !! k' = Some x).
Proof.
  intros Hwf. apply (total_on_weaken (λ q, qt_target q = pt_target pt)); [|apply QueueTask_cmp_total].
  intros q [t Ht]. simpl. by apply (pt_wf_pending _ Hwf) in Ht as (_ & ? & _).
Qed.

Lemma active_total_nonneg pt : pt_wf pt → 0 ≤ active_total pt.
Proof.
  intros Hwf. apply map_sum_nonneg. intros t l [_ Hl]%(pt_wf_active _ Hwf).
  apply sum_z_nonneg, Forall_fmap. eapply Forall_impl; [done|].
  intros task [_ ?]. by apply task_ok_work.
Qed.

Lemma PeerTracker_new_wf p m : pt_wf (PeerTracker_new p m).
Proof.
  split; simpl.
  - intros t q. by rewrite kpq_new_contents, lookup_empty.
  - apply kpq_new_ordered.
  - intros t l. by rewrite lookup_empty.
  - unfold active_total. simpl. by rewrite map_sum_empty.
Qed.

(** Replacing the entry of a topic keeps the invariant. *)
Lemma pt_push_wf pt t q :
  pt_wf pt → task_topic (qt_task q) = t → qt_target q = pt_target pt →
  task_ok (qt_task q) →
  pt_wf (pt_with_pending (kpq_push t q (pt_pending_tasks pt)) pt).
Proof.
  intros Hwf Hq Ht Hw. split; simpl; [| |apply Hwf|apply Hwf].
  - intros t' q'. rewrite kpq_push_contents, lookup_insert.
    case_decide; [by intros [= <-]; subst|]. by apply Hwf.
  - apply kpq_push_ordered; [|apply Hwf].
    apply (total_on_weaken (λ q, qt_target q = pt_target pt)); [|apply QueueTask_cmp_total].
    simpl. intros x [->|[k Hk]]; [done|]. by apply (pt_wf_pending _ Hwf) in Hk as (_ & ? & _).
Qed.

Lemma pt_delete_wf pt t :
  pt_wf pt → pt_wf (pt_with_pending (kpq_remove t (pt_pending_tasks pt)) pt).
Proof.
  intros Hwf. split; simpl; [| |apply Hwf|apply Hwf].
  - intros t' q'. rewrite kpq_remove_contents, lookup_delete_Some. intros [_ ?]. by apply Hwf.
  - apply kpq_remove_ordered; [by apply pt_wf_total|apply Hwf].
Qed.

(** The task that [push_tasks] files under the topic of [task]. *)
Definition pushed (now : Z) pt task : QueueTask T D :=
  match kpq_contents (pt_pending_tasks pt) !! task_topic task with
  | Some q => QueueTask_new
      (merge task (with_priority (Z.max (task_priority (qt_task q)) (task_priority task)) (qt_task q)))
      (qt_target q) (qt_created q)
  | None => QueueTask_new task (pt_target pt) now
  end.

Lemma pt_push_task_eq now pt task :
  task_has_more_info_than_active_tasks task pt = true →
  kpq_contents (pt_pending_tasks (pt_push_task now pt task))
  = <[task_topic task := pushed now pt task]> (kpq_contents (pt_pending_tasks pt)).
Proof.
  intros Hi. unfold pt_push_task, pushed, kpq_get. rewrite Hi. simpl.
  destruct (kpq_contents _ !! _) as [q|] eqn:E; simpl; rewrite kpq_push_contents; [|done].
  rewrite kpq_remove_contents, insert_delete_eq. do 3 f_equal. unfold with_priority.
  destruct (qt_task q) as [a p w d]; simpl. case_match; f_equal; lia.
Qed.

Lemma pt_push_task_wf now pt task :
  pt_wf pt → task_ok task → pt_wf (pt_push_task now pt task).
Proof.
  intros Hwf Hw. unfold pt_push_task. case_match; [done|].
  unfold kpq_get. destruct (kpq_contents _ !! _) as [q|] eqn:E; [|by apply pt_push_wf].
  apply (pt_wf_pending _ Hwf) in E as (Ht & Hp & Hq).
  change (pt_with_pending ?q pt) with
    (pt_with_pending q (pt_with_pending (kpq_remove (task_topic task) (pt_pending_tasks pt)) pt)).
  apply (pt_push_wf (pt_with_pending (kpq_remove (task_topic task) (pt_pending_tasks pt)) pt)).
  - by apply pt_delete_wf.
  - simpl. rewrite merge_topic. by case_match.
  - done.
  - simpl. apply merge_ok; [done|]. case_match; [by apply task_ok_priority|done].
Qed.

Lemma pt_push_tasks_wf now tasks pt :
  pt_wf pt → Forall task_ok tasks → pt_wf (pt_push_tasks now tasks pt).
Proof.
  intros Hwf Ht. unfold pt_push_tasks. apply foldl_invariant; [|done]. intros pt' t Hin Hwf'.
  apply pt_push_task_wf; [done|]. by eapply Forall_forall in Ht.
Qed.

Lemma tasks_work_app l1 l2 : tasks_work (l1 ++ l2) = tasks_work l1 + tasks_work l2.
Proof. unfold tasks_work. by rewrite fmap_app, sum_z_app. Qed.

Lemma tasks_work_cons task l : tasks_work (task :: l) = task_work task + tasks_work l.
Proof. done. Qed.

Lemma tasks_work_single task : tasks_work [task] = task_work task.
Proof. unfold tasks_work. simpl. lia. Qed.

Lemma active_total_start task pt :
  active_total (pt_start_task task pt) = active_total pt + task_work task.
Proof.
  unfold active_total, pt_start_task. simpl.
  destruct (pt_active_tasks pt !! task_topic task) as [l|] eqn:E; simpl.
  - rewrite (map_sum_update _ _ _ l) by done. rewrite tasks_work_app, tasks_work_single. lia.
  - rewrite map_sum_insert, tasks_work_single by done. lia.
Qed.

Lemma wrap_add_l w a b : Int.wrap w (Int.wrap w a + b) = Int.wrap w (a + b).
Proof. unfold Int.wrap. by rewrite Zplus_mod_idemp_l. Qed.

Lemma pt_start_task_wf task pt : pt_wf pt → task_ok task → pt_wf (pt_start_task task pt).
Proof.
  intros Hwf Hw. split; [apply Hwf..| |].
  - simpl. intros t l. rewrite lookup_insert. case_decide as Ht; [|apply Hwf].
    intros [= <-]. subst t. split; [by destruct (default _ _)|].
    apply Forall_app. split; [|by repeat constructor].
    destruct (pt_active_tasks pt !! task_topic task) eqn:E; simpl; [|constructor].
    by apply (pt_wf_active _ Hwf) in E as [_ ?].
  - rewrite active_total_start. simpl. unfold Int.usize_add.
    by rewrite (pt_wf_work _ Hwf), wrap_add_l.
Qed.

(** ** Popping *)

(** The iterations of the loop of [pop_tasks], with the tasks they take. *)
Inductive pop_run (target : Z) : Z → PeerTracker T D → list (QueueTask T D) → PeerTracker T D → Prop :=
  | pop_stop w pt : pt_pop_continues target w pt = false → pop_run target w pt [] pt
  | pop_step w pt k q pending qs pt' :
      pt_pop_continues target w pt = true →
      kpq_pop (pt_pending_tasks pt) = Some (k, q, pending) →
      pop_run target (Int.usize_add w (task_work (qt_task q)))
        (pt_start_task (qt_task q) (pt_with_pending pending pt)) qs pt' →
      pop_run target w pt (q :: qs) pt'.

Lemma pt_pop_continues_pop target w pt :
  pt_pop_continues target w pt = true → kpq_pop (pt_pending_tasks pt) ≠ None.
Proof.
  unfold pt_pop_continues. rewrite kpq_is_empty_spec, kpq_pop_none. intros Hc He.
  by rewrite bool_decide_eq_true_2 in Hc.
Qed.

(** Fuel beyond the number of pending tasks is never used up. *)
Lemma pt_pop_loop_run fuel target w out pt :
  (kpq_len (pt_pending_tasks pt) < fuel)%nat →
  ∃ qs, pop_run target w pt qs (pt_pop_loop fuel target w out pt).1 ∧
    (pt_pop_loop fuel target w out pt).2 = out ++ (qt_task <$> qs).
Proof.
  revert w out pt. induction fuel as [|fuel IH]; intros w out pt Hf; [lia|]. simpl.
  destruct (pt_pop_continues target w pt) eqn:Hc; simpl.
  2:{ exists []. split; [by constructor|]. by rewrite app_nil_r. }
  destruct (kpq_pop (pt_pending_tasks pt)) as [[[k q] pending]|] eqn:Hp.
  2:{ by apply pt_pop_continues_pop in Hc. }
  pose proof (kpq_pop_len _ _ _ _ Hp).
  destruct (IH (Int.usize_add w (task_work (qt_task q))) (out ++ [qt_task q])
    (pt_start_task (qt_task q) (pt_with_pending pending pt))) as (qs & Hr & Ho); [simpl; lia|].
  exists (q :: qs). split; [by econstructor|]. rewrite Ho. simpl. by rewrite <-(assoc_L (++)).
Qed.

Lemma pt_pop_wf pt k q pending :
  pt_wf pt → kpq_pop (pt_pending_tasks pt) = Some (k, q, pending) →
  pt_wf (pt_with_pending pending pt) ∧ task_topic (qt_task q) = k ∧ task_ok (qt_task q) ∧
  ∀ t r, kpq_contents (pt_pending_tasks pt) !! t = Some r → cmp q r ≠ Lt.
Proof.
  intros Hwf Hp. pose proof (kpq_pop_some _ _ _ _ Hp) as [Hk Hd].
  destruct (kpq_pop_ordered _ _ _ _ (pt_wf_total _ Hwf) (pt_wf_ordered _ Hwf) Hp) as [Ho Hm].
  destruct (pt_wf_pending _ Hwf _ _ Hk) as (? & ? & ?). split_and!; [|done..].
  split; simpl; [|done|apply Hwf|apply Hwf].
  intros t r. rewrite Hd, lookup_delete_Some. intros [_ ?]. by apply Hwf.
Qed.

Lemma pop_run_wf target w pt qs pt' : pop_run target w pt qs pt' → pt_wf pt → pt_wf pt'.
Proof.
  induction 1 as [|??????? _ Hp _ IH]; intros Hwf; [done|].
  destruct (pt_pop_wf _ _ _ _ Hwf Hp) as (? & _ & ? & _). by apply IH, pt_start_task_wf.
Qed.

Definition pair_of q : T * QueueTask T D := (task_topic (qt_task q), q).

Lemma pop_run_contents target w pt qs pt' :
  pop_run target w pt qs pt' → pt_wf pt →
  map_to_list (kpq_contents (pt_pending_tasks pt))
  ≡ₚ (pair_of <$> qs) ++ map_to_list (kpq_contents (pt_pending_tasks pt')).
Proof.
  induction 1 as [|w pt k q pending qs pt' _ Hp _ IH]; intros Hwf; [done|].
  destruct (pt_pop_wf _ _ _ _ Hwf Hp) as (? & Ht & ? & _). simpl.
  rewrite <-IH by (by apply pt_start_task_wf). simpl.
  apply kpq_pop_some in Hp as [Hk ->]. unfold pair_of. rewrite Ht.
  by rewrite map_to_list_delete.
Qed.

Lemma pop_run_sorted target w pt qs pt' :
  pop_run target w pt qs pt' → pt_wf pt →
  StronglySorted (λ a b, cmp a b ≠ Lt) qs ∧
  ∀ q t r, q ∈ qs → kpq_contents (pt_pending_tasks pt') !! t = Some r → cmp q r ≠ Lt.
Proof.
  intros Hr. induction Hr as [|w pt k q pending qs pt' _ Hp Hr IH]; intros Hwf.
  { split; [constructor|]. intros ??? Hin. by apply not_elem_of_nil in Hin. }
  destruct (pt_pop_wf _ _ _ _ Hwf Hp) as (Hwf' & Ht & Hw & Hmax).
  destruct IH as [Hs Hm]; [by apply pt_start_task_wf|].
  pose proof (pop_run_contents _ _ _ _ _ Hr) as Hc. simpl in Hc.
  assert (∀ t r, (t, r) ∈ (pair_of <$> qs) ++ map_to_list (kpq_contents (pt_pending_tasks pt')) →
    cmp q r ≠ Lt) as Hq.
  { intros t r. rewrite <-Hc by (by apply pt_start_task_wf).
    rewrite elem_of_map_to_list. apply kpq_pop_some in Hp as [_ ->].
    rewrite lookup_delete_Some. intros [_ ?]. eauto. }
  split.
  - constructor; [done|]. apply Forall_forall. intros r Hin.
    apply (Hq (task_topic (qt_task r))). apply elem_of_app. left.
    apply list_elem_of_fmap. by exists r.
  - intros q' t r [->|Hin]%elem_of_cons Hr'; [|by eapply Hm].
    apply (Hq t), elem_of_app. right. by apply elem_of_map_to_list.
Qed.

Lemma pop_run_active target w pt qs pt' :
  pop_run target w pt qs pt' → active_total pt' = active_total pt + tasks_work (qt_task <$> qs).
Proof.
  induction 1 as [|w pt k q pending qs pt' _ _ _ IH].
  { rewrite Z.add_0_r. done. }
  rewrite IH, active_total_start, fmap_cons, tasks_work_cons.
  change (active_total (pt_with_pending pending pt)) with (active_total pt). lia.
Qed.

Lemma pop_run_frame target w pt qs pt' :
  pop_run target w pt qs pt' →
  pt_target pt' = pt_target pt ∧ pt_freeze_val pt' = pt_freeze_val pt ∧
  pt_max_active_work_per_peer pt' = pt_max_active_work_per_peer pt.
Proof. by induction 1. Qed.

(** There is room for another task when [w] is the work taken so far and [a]
    the active work: the peer is not frozen, the target is not covered and the
    limit of active work, if there is one, is not reached. *)
Definition room target pt (w a : Z) : Prop :=
  pt_freeze_val pt = 0 ∧ Int.wrap 64 w < target ∧
  (0 < pt_max_active_work_per_peer pt → Int.wrap 64 a < pt_max_active_work_per_peer pt).

Lemma pt_pop_continues_room target w a pt :
  pt_active_work pt = Int.wrap 64 a →
  pt_pop_continues target (Int.wrap 64 w) pt = true ↔
  kpq_contents (pt_pending_tasks pt) ≠ ∅ ∧ room target pt w a.
Proof.
  intros Ha. unfold pt_pop_continues, room. rewrite kpq_is_empty_spec, Ha.
  rewrite !andb_true_iff, !negb_true_iff, andb_false_iff, bool_decide_eq_false.
  rewrite Z.eqb_eq, !Z.ltb_lt, Z.ltb_ge, Z.leb_gt. intuition lia.
Qed.

Lemma pop_run_stops target w a pt qs pt' :
  pop_run target (Int.wrap 64 w) pt qs pt' → pt_active_work pt = Int.wrap 64 a →
  (kpq_contents (pt_pending_tasks pt') = ∅ ∨
   ¬ room target pt (w + tasks_work (qt_task <$> qs)) (a + tasks_work (qt_task <$> qs))) ∧
  ∀ pre q post, qs = pre ++ q :: post →
    room target pt (w + tasks_work (qt_task <$> pre)) (a + tasks_work (qt_task <$> pre)).
Proof.
  intros Hr. remember (Int.wrap 64 w) as w' eqn:Hw.
  revert w a Hw. induction Hr as [w' pt Hc|w' pt k q pending qs pt' Hc _ _ IH]; intros w a -> Ha.
  { unfold tasks_work; simpl; rewrite ?Z.add_0_r. split; [|by intros [|] ? ?].
    destruct (decide (kpq_contents (pt_pending_tasks pt) = ∅)) as [|He]; [by left|right].
    intros Hr. by rewrite (proj2 (pt_pop_continues_room target w a pt Ha)) in Hc. }
  unfold Int.usize_add in IH. rewrite wrap_add_l in IH.
  destruct (IH _ (a + task_work (qt_task q)) eq_refl) as [Hs Hp].
  { simpl. unfold Int.usize_add. by rewrite Ha, wrap_add_l. }
  split; [by rewrite fmap_cons, tasks_work_cons, !Z.add_assoc|].
  intros [|q0 pre] q' post [= <- ->].
  - unfold tasks_work; simpl; rewrite ?Z.add_0_r.
    by apply (pt_pop_continues_room target w a pt Ha).
  - rewrite fmap_cons, tasks_work_cons, !Z.add_assoc. by eapply Hp.
Qed.

(** C21: [pop_tasks] returns the tasks of highest priority, oldest first among
    equals, each of them once; what stays pending has no higher priority.  It
    takes a task just when one is pending and there is room: the peer is not
    frozen, the work taken is below the target, and the peer has not reached its
    maximum of active work.  The work taken is booked as active. *)
Theorem pt_pop_tasks_correct target pt :
  pt_wf pt →
  let '(pt', out) := pt_pop_tasks target pt in
  pt_wf pt' ∧ active_total pt' = active_total pt + tasks_work out ∧
  ∃ qs, out = qt_task <$> qs ∧
    kpq_iter (pt_pending_tasks pt) ≡ₚ (pair_of <$> qs) ++ kpq_iter (pt_pending_tasks pt') ∧
    StronglySorted (λ a b, cmp a b ≠ Lt) qs ∧
    (∀ q t r, q ∈ qs → kpq_contents (pt_pending_tasks pt') !! t = Some r → cmp q r ≠ Lt) ∧
    (∀ pre task post, out = pre ++ task :: post →
      room target pt (tasks_work pre) (active_total pt + tasks_work pre)) ∧
    (kpq_contents (pt_pending_tasks pt') = ∅ ∨
     ¬ room target pt (tasks_work out) (active_total pt + tasks_work out)).
Proof.
  intros Hwf. unfold pt_pop_tasks.
  destruct (pt_pop_loop_run (S (kpq_len (pt_pending_tasks pt))) target 0 [] pt) as (qs & Hr & Ho);
    [lia|]. destruct (pt_pop_loop _ _ _ _ _) as [pt' out]. simpl in Hr, Ho. subst out.
  destruct (pop_run_sorted _ _ _ _ _ Hr Hwf) as [Hs Hm].
  destruct (pop_run_stops target 0 _ pt qs pt' Hr (pt_wf_work _ Hwf)) as [Hstop Hpre].
  split; [by eapply pop_run_wf|]. split; [by eapply pop_run_active|].
  exists qs. split_and!; [done| |done|done| |done].
  { rewrite !kpq_iter_perm. by eapply pop_run_contents. }
  intros pre task post Ho. apply fmap_app_inv in Ho as (pre' & rest & -> & Hrest & ->).
  destruct rest as [|q' rest]; [done|]. by eapply (Hpre _ q').
Qed.

(** ** Finishing tasks *)

Lemma tasks_work_filter task l :
  tasks_work l = tasks_work (filter (λ x, x ≠ task) l) + tasks_work (filter (λ x, x = task) l).
Proof.
  induction l as [|x l IH]; [done|]. rewrite tasks_work_cons, IH, !filter_cons.
  destruct (decide (x = task)) as [->|Hx].
  - rewrite decide_False by tauto. rewrite tasks_work_cons. lia.
  - rewrite decide_True by done. rewrite tasks_work_cons. lia.
Qed.

Lemma work_done_sum task l w :
  foldl (λ w x, if decide (x = task) then Int.usize_add w (task_work task) else w)
    (Int.wrap 64 w) l
  = Int.wrap 64 (w + tasks_work (filter (λ x, x = task) l)).
Proof.
  revert w. induction l as [|x l IH]; intros w; simpl.
  { unfold tasks_work. simpl. by rewrite Z.add_0_r. }
  rewrite filter_cons. destruct (decide (x = task)) as [->|Hx]; [|apply IH].
  unfold Int.usize_add. rewrite wrap_add_l, IH, tasks_work_cons. f_equal. lia.
Qed.

Lemma tasks_work_nonneg l : Forall (λ task, task_ok task) l → 0 ≤ tasks_work l.
Proof.
  intros Hl. apply sum_z_nonneg, Forall_fmap. eapply Forall_impl; [done|].
  intros t. apply task_ok_work.
Qed.

Lemma active_list_ok pt t l : pt_wf pt → pt_active_tasks pt !! t = Some l → Forall task_ok l.
Proof.
  intros Hwf [_ Hl]%(pt_wf_active _ Hwf). eapply Forall_impl; [done|]. by intros ? [].
Qed.

(** The active tasks after every copy of [task] is taken out. *)
Definition active_without task (m : gmap T (list (Task T D))) (l : list (Task T D)) :=
  if decide (filter (λ x, x ≠ task) l = []) then delete (task_topic task) m
  else <[task_topic task := filter (λ x, x ≠ task) l]> m.

Lemma active_without_sum task m l :
  m !! task_topic task = Some l →
  map_sum tasks_work (active_without task m l)
  = map_sum tasks_work m - tasks_work (filter (λ x, x = task) l).
Proof.
  intros El. pose proof (tasks_work_filter task l) as Hsplit.
  unfold active_without. case_decide as E.
  - rewrite (map_sum_delete _ m _ _ El), Hsplit, E. change (tasks_work []) with 0. lia.
  - rewrite (map_sum_update _ _ _ l) by done. lia.
Qed.

Lemma active_without_lookup task pt l t :
  pt_wf pt → pt_active_tasks pt !! task_topic task = Some l →
  default [] (active_without task (pt_active_tasks pt) l !! t)
  = filter (λ x, x ≠ task) (default [] (pt_active_tasks pt !! t)).
Proof.
  intros Hwf El. unfold active_without. destruct (decide (t = task_topic task)) as [->|Ht].
  - rewrite El. simpl. case_decide as E; [by rewrite lookup_delete_eq, E|].
    by rewrite lookup_insert_eq.
  - trans (default [] (pt_active_tasks pt !! t)).
    + f_equal. case_decide; [by rewrite lookup_delete_ne|by rewrite lookup_insert_ne].
    + destruct (pt_active_tasks pt !! t) as [l'|] eqn:E; [simpl|done].
      apply (pt_wf_active _ Hwf) in E as [_ Hl']. symmetry. apply filter_all.
      eapply Forall_impl; [done|]. intros x [<- _] ->. done.
Qed.

Lemma active_without_wf task pt l :
  pt_wf pt → pt_active_tasks pt !! task_topic task = Some l → ∀ w,
  w = Int.wrap 64 (active_total pt - tasks_work (filter (λ x, x = task) l)) →
  pt_wf (pt_with_active (active_without task (pt_active_tasks pt) l) w pt).
Proof.
  intros Hwf El w ->. split; [apply Hwf..| |]; simpl.
  - intros t l'. unfold active_without. case_decide as E.
    + intros [_ ?]%lookup_delete_Some. by apply Hwf.
    + rewrite lookup_insert. case_decide; [|apply Hwf]. intros [= <-]. subst t.
      split; [done|]. apply Forall_filter_sub. by apply (pt_wf_active _ Hwf) in El as [_ ?].
  - unfold active_total. simpl. by rewrite active_without_sum.
Qed.

Lemma active_sum_bound pt t l P `{∀ x, Decision (P x)} :
  pt_wf pt → pt_active_tasks pt !! t = Some l →
  0 ≤ tasks_work (filter P l) ∧ tasks_work l ≤ active_total pt.
Proof.
  intros Hwf El. pose proof (active_list_ok _ _ _ Hwf El) as Hok.
  split; [by apply tasks_work_nonneg, Forall_filter_sub|].
  unfold active_total. rewrite (map_sum_delete _ _ _ _ El).
  assert (0 ≤ map_sum tasks_work (delete t (pt_active_tasks pt))); [|lia].
  apply map_sum_nonneg. intros t' l' [_ Ht]%lookup_delete_Some.
  apply tasks_work_nonneg. by eapply active_list_ok.
Qed.

(** While the active work fits [usize], [task_done] does not panic: it takes
    every copy of the task out and books its work. *)
Lemma pt_task_done_ok task pt :
  pt_wf pt → active_total pt < 2 ^ 64 →
  ∃ pt', pt_task_done task pt = Ok pt' ∧ pt_wf pt' ∧ active_total pt' ≤ active_total pt ∧
    pt_target pt' = pt_target pt ∧ pt_freeze_val pt' = pt_freeze_val pt ∧
    pt_pending_tasks pt' = pt_pending_tasks pt ∧
    ∀ t, default [] (pt_active_tasks pt' !! t)
         = filter (λ x, x ≠ task) (default [] (pt_active_tasks pt !! t)).
Proof.
  intros Hwf Hlt. unfold pt_task_done.
  destruct (pt_active_tasks pt !! task_topic task) as [l|] eqn:El.
  2:{ exists pt. split_and!; try done. intros t.
      destruct (pt_active_tasks pt !! t) as [l|] eqn:E; [simpl|done].
      apply (pt_wf_active _ Hwf) in E as Hl. symmetry. apply filter_all.
      eapply Forall_impl; [apply Hl|]. intros x [<- _] ->. congruence. }
  pose proof (work_done_sum task l 0) as Hd. rewrite Z.add_0_l in Hd.
  change (Int.wrap 64 0) with 0 in Hd. rewrite Hd. clear Hd.
  destruct (active_sum_bound pt _ l (λ x, x = task) Hwf El) as [Hge Hle].
  destruct (active_sum_bound pt _ l (λ x, x ≠ task) Hwf El) as [Hge' _].
  pose proof (tasks_work_filter task l) as Hsplit.
  rewrite (pt_wf_work _ Hwf), !Int.wrap_id by (unfold Int.in_u; lia).
  rewrite (proj2 (Z.leb_le _ _)) by lia. simpl.
  change (if decide _ then _ else _) with (active_without task (pt_active_tasks pt) l).
  eexists. split; [done|]. split; [by apply active_without_wf|].
  split; [|split_and!; [done..|]; intros t; by apply active_without_lookup].
  unfold active_total at 1. simpl. rewrite active_without_sum by done.
  fold (active_total pt). lia.
Qed.

Lemma pt_tasks_done_ok tasks pt :
  pt_wf pt → active_total pt < 2 ^ 64 →
  ∃ pt', fold_res (λ pt task, pt_task_done task pt) pt tasks = Ok pt' ∧ pt_wf pt' ∧
    pt_target pt' = pt_target pt ∧ pt_freeze_val pt' = pt_freeze_val pt ∧
    pt_pending_tasks pt' = pt_pending_tasks pt ∧
    ∀ t, default [] (pt_active_tasks pt' !! t)
         = filter (λ x, x ∉ tasks) (default [] (pt_active_tasks pt !! t)).
Proof.
  revert pt. induction tasks as [|task tasks IH]; intros pt Hwf Hlt; simpl.
  { exists pt. split_and!; try done. intros t. symmetry. apply filter_all.
    apply Forall_forall. intros x _ Hx. by apply not_elem_of_nil in Hx. }
  destruct (pt_task_done_ok task pt Hwf Hlt) as (pt1 & -> & Hwf1 & Hle & Ht1 & Hf1 & Hp1 & Ha1).
  simpl. destruct (IH pt1 Hwf1) as (pt2 & -> & Hwf2 & Ht2 & Hf2 & Hp2 & Ha2); [lia|].
  exists pt2. split_and!; [done|done|congruence..|].
  intros t. rewrite Ha2, Ha1, list_filter_filter. apply list_filter_iff.
  intros x. rewrite not_elem_of_cons. tauto.
Qed.
End tracker_facts.

Section queue_facts.
Context `{Ids} `{PriorityQueue} `{HashOrder} {T D : Type} `{Countable T} `{EqDecision D}
  `{MergerLaws T D}.
Implicit Types (s : PeerTaskQueue T D) (pt : PeerTracker T D).

Definition trackers s : gmap PeerId (PeerTracker T D) := kpq_contents (ptq_peer_queue s).

(** Trackers are filed under their peer and satisfy their invariant, and the
    set of frozen peers is exactly the set of peers with a frozen tracker. *)
Record ptq_wf s : Prop := {
  ptq_wf_tracker p pt : trackers s !! p = Some pt →
    pt_target pt = p ∧ pt_wf pt ∧ 0 ≤ pt_freeze_val pt < Int.i_max 64;
  ptq_wf_frozen p :
    p ∈ ptq_frozen_peers s ↔ ∃ pt, trackers s !! p = Some pt ∧ 0 < pt_freeze_val pt
}.

(** Replacing the tracker of a peer by one with the same freeze value. *)
Lemma ptq_wf_replace s s' p pt :
  ptq_wf s → trackers s' = <[p:=pt]> (trackers s) → ptq_frozen_peers s' = ptq_frozen_peers s →
  pt_target pt = p → pt_wf pt →
  pt_freeze_val pt = (match trackers s !! p with Some pt0 => pt_freeze_val pt0 | None => 0 end) →
  ptq_wf s'.
Proof.
  intros Hwf Ht Hf Hp Hpt Hz. split.
  - intros p' pt'. rewrite Ht, lookup_insert. case_decide; [|apply Hwf].
    intros [= <-]. subst. split_and!; [done|done|..];
      (destruct (trackers s !! _) eqn:E; [apply (ptq_wf_tracker _ Hwf) in E|unfold Int.i_max]; lia).
  - intros p'. rewrite Hf, (ptq_wf_frozen _ Hwf), Ht, lookup_insert. case_decide; [|done].
    subst p'. destruct (trackers s !! p) eqn:E; rewrite ?E; naive_solver lia.
Qed.

Lemma ptq_push_tasks_trackers now peer tasks s :
  trackers (ptq_push_tasks now peer tasks s)
  = <[peer := pt_push_tasks now tasks
       (default (PeerTracker_new peer (ptq_max_outstanding_work_per_peer s)) (trackers s !! peer))]>
      (trackers s).
Proof.
  unfold ptq_push_tasks, kpq_get, trackers.
  destruct (kpq_contents (ptq_peer_queue s) !! peer); simpl;
    by rewrite kpq_push_contents, kpq_remove_contents, insert_delete_eq.
Qed.

Lemma pt_push_tasks_frame now tasks pt :
  pt_target (pt_push_tasks now tasks pt) = pt_target pt ∧
  pt_freeze_val (pt_push_tasks now tasks pt) = pt_freeze_val pt.
Proof.
  unfold pt_push_tasks. apply (foldl_invariant
    (λ pt', pt_target pt' = pt_target pt ∧ pt_freeze_val pt' = pt_freeze_val pt)); [|done].
  intros pt' t _ [<- <-]. unfold pt_push_task. by repeat case_match.
Qed.

Lemma ptq_push_tasks_wf now peer tasks s :
  ptq_wf s → Forall task_ok tasks → ptq_wf (ptq_push_tasks now peer tasks s).
Proof.
  intros Hwf Ht. pose proof (pt_push_tasks_frame now tasks) as Hfr.
  eapply ptq_wf_replace; [done|apply ptq_push_tasks_trackers|..].
  - unfold ptq_push_tasks. by destruct (kpq_get _ _).
  - rewrite (proj1 (Hfr _)). destruct (trackers s !! peer) eqn:E; [|done].
    by apply (ptq_wf_tracker _ Hwf) in E as (? & ? & _).
  - apply pt_push_tasks_wf; [|done]. destruct (trackers s !! peer) eqn:E; simpl.
    + by apply (ptq_wf_tracker _ Hwf) in E as (? & ? & _).
    + apply PeerTracker_new_wf.
  - rewrite (proj2 (Hfr _)). by destruct (trackers s !! peer).
Qed.

Lemma pt_pop_tasks_run target pt :
  ∃ qs, pop_run target 0 pt qs (pt_pop_tasks target pt).1 ∧
    (pt_pop_tasks target pt).2 = qt_task <$> qs.
Proof. apply (pt_pop_loop_run _ target 0 []). lia. Qed.

(** What [pop_tasks] does to the trackers. *)
Lemma ptq_pop_tasks_some target s s' p out w :
  ptq_pop_tasks target s = (s', Some (p, out, w)) →
  ∃ pt qs pt', trackers s !! p = Some pt ∧ pop_run target 0 pt qs pt' ∧ out = qt_task <$> qs ∧
    if pt_is_idle pt'
    then trackers s' = delete p (trackers s) ∧ ptq_frozen_peers s' = ptq_frozen_peers s ∖ {[p]}
    else trackers s' = <[p:=pt']> (trackers s) ∧ ptq_frozen_peers s' = ptq_frozen_peers s.
Proof.
  unfold ptq_pop_tasks. destruct (kpq_pop _) as [[[p' pt] q]|] eqn:Hp; [|done].
  apply kpq_pop_some in Hp as [Hp Hq].
  destruct (pt_pop_tasks_run target pt) as (qs & Hr & Ho).
  destruct (pt_pop_tasks target pt) as [pt' out']. simpl in Hr, Ho.
  intros [= Hs -> -> _]. exists pt, qs, pt'. split_and!; [done..|].
  unfold trackers. subst s'. destruct (pt_is_idle pt'); simpl; [by rewrite Hq|].
  by rewrite kpq_push_contents, Hq, insert_delete_eq.
Qed.

Lemma ptq_pop_tasks_wf target s : ptq_wf s → ptq_wf (ptq_pop_tasks target s).1.
Proof.
  intros Hwf. destruct (ptq_pop_tasks target s) as [s' [[[p out] w]|]] eqn:Hpop.
  2:{ revert Hpop. unfold ptq_pop_tasks. destruct (kpq_pop _) as [[[]]|]; [|by intros [= <-]].
      by destruct (pt_pop_tasks _ _). }
  apply ptq_pop_tasks_some in Hpop as (pt & qs & pt' & Hpt & Hr & _ & Hs).
  destruct (pop_run_frame _ _ _ _ _ Hr) as (Htg & Hfz & _).
  destruct (ptq_wf_tracker _ Hwf _ _ Hpt) as (Hp & Hw & Hb). simpl.
  destruct (pt_is_idle pt'); destruct Hs as [Ht Hf].
  - split; [intros p' x|intros p']; rewrite Ht.
    + intros [_ ?]%lookup_delete_Some. by apply Hwf.
    + rewrite Hf, elem_of_difference, (ptq_wf_frozen _ Hwf), elem_of_singleton.
      setoid_rewrite lookup_delete_Some. naive_solver.
  - eapply ptq_wf_replace; [done|done|done|congruence|by eapply pop_run_wf|]. by rewrite Hpt.
Qed.

(** The active tasks of a topic at a peer. *)
Definition active_at s (p : PeerId) (t : T) : list (Task T D) :=
  match trackers s !! p with
  | Some pt => default [] (pt_active_tasks pt !! t)
  | None => []
  end.

(** [tasks_done] does not panic and finishes exactly the given tasks. *)
Lemma ptq_tasks_done_ok peer tasks s :
  ptq_wf s → (∀ pt, trackers s !! peer = Some pt → active_total pt < 2 ^ 64) →
  ∃ s', ptq_tasks_done peer tasks s = Ok s' ∧ ptq_wf s' ∧
    (∀ t, active_at s' peer t = filter (λ x, x ∉ tasks) (active_at s peer t)) ∧
    (∀ p, p ≠ peer → trackers s' !! p = trackers s !! p).
Proof.
  intros Hwf Hb. unfold ptq_tasks_done, kpq_get. fold (trackers s). unfold active_at.
  destruct (trackers s !! peer) as [pt|] eqn:Hpt.
  2:{ exists s. split_and!; try done. intros t. by rewrite Hpt. }
  destruct (ptq_wf_tracker _ Hwf _ _ Hpt) as (Hp & Hw & Hz).
  destruct (pt_tasks_done_ok tasks pt Hw (Hb _ eq_refl)) as (pt' & -> & Hw' & Ht & Hf & _ & Ha).
  simpl. eexists. split; [done|].
  set (s' := ptq_with_queue _ s).
  assert (trackers s' = <[peer:=pt']> (trackers s)) as Htr.
  { unfold s', trackers. simpl. by rewrite kpq_push_contents, kpq_remove_contents, insert_delete_eq. }
  split_and!.
  - eapply ptq_wf_replace; [done|done|done|congruence|done|]. by rewrite Hpt.
  - intros t. rewrite Htr, lookup_insert_eq. apply Ha.
  - intros p Hne. by rewrite Htr, lookup_insert_ne.
Qed.

(** Freezing the peer whose pending task was cancelled. *)
Lemma ptq_remove_wf topic peer s :
  ptq_wf s → (∀ pt, trackers s !! peer = Some pt → pt_freeze_val pt + 1 < Int.i_max 64) →
  ptq_wf (ptq_remove topic peer s).
Proof.
  intros Hwf Hb. unfold ptq_remove, kpq_get. fold (trackers s).
  destruct (trackers s !! peer) as [pt|] eqn:Hpt; [|done]. simpl.
  destruct (ptq_wf_tracker _ Hwf _ _ Hpt) as (Hp & Hw & Hz). specialize (Hb _ eq_refl).
  pose proof (pt_delete_wf _ topic Hw) as Hw'.
  destruct (bool_decide _ && negb _); simpl.
  2:{ apply (ptq_wf_replace s _ peer (pt_remove topic pt).1); [done| |done|done|done|by rewrite Hpt].
      unfold trackers. simpl. by rewrite kpq_push_contents, kpq_remove_contents, insert_delete_eq. }
  assert (Int.isize_add (pt_freeze_val pt) 1 = pt_freeze_val pt + 1) as Hadd.
  { apply Int.swrap_id; [lia|]. unfold Int.in_i, Int.i_max in *. lia. }
  unfold pt_freeze, pt_is_frozen. simpl. rewrite Hadd.
  split; [intros p x|intros p]; unfold trackers; simpl;
    rewrite kpq_push_contents, lookup_insert.
  - case_decide.
    + intros [= <-]. subst. simpl. split_and!; [done|by destruct Hw'|lia|lia].
    + case_match; simpl; rewrite kpq_remove_contents, lookup_delete_ne by done; apply Hwf.
  - pose proof (ptq_wf_frozen _ Hwf p) as Hfz. unfold trackers in Hfz, Hpt.
    destruct (0 <? pt_freeze_val pt) eqn:E; simpl; rewrite kpq_remove_contents.
    + apply Z.ltb_lt in E. case_decide; [subst|by rewrite lookup_delete_ne].
      rewrite Hfz, Hpt. naive_solver lia.
    + apply Z.ltb_ge in E. rewrite elem_of_union, elem_of_singleton.
      case_decide; [subst; naive_solver lia|]. rewrite lookup_delete_ne, <-Hfz by done.
      naive_solver.
Qed.

(** ** Thawing *)

(** The common shape of the loops of [full_thaw] and [thaw_round]. *)
Definition thaw_with (f : PeerTracker T D → PeerTracker T D * bool) s (peer : PeerId) :
    PeerTaskQueue T D :=
  match kpq_get peer (ptq_peer_queue s) with
  | Some pt =>
      let q := kpq_remove peer (ptq_peer_queue s) in
      let s := if (f pt).2 then ptq_with_frozen (ptq_frozen_peers s ∖ {[peer]}) s else s in
      ptq_with_queue (kpq_push peer (f pt).1 q) s
  | None => s
  end.

Lemma thaw_with_lookup f s peer p :
  trackers (thaw_with f s peer) !! p
  = (if decide (p = peer) then fst ∘ f else id) <$> trackers s !! p.
Proof.
  unfold thaw_with, kpq_get. fold (trackers s).
  destruct (trackers s !! peer) as [pt|] eqn:E.
  - unfold trackers at 1. simpl.
    rewrite kpq_push_contents, kpq_remove_contents, insert_delete_eq, lookup_insert.
    fold (trackers s). case_decide; case_decide; subst; try done; [by rewrite E|].
    by rewrite option_fmap_id.
  - case_decide; subst; [by rewrite E|by rewrite option_fmap_id].
Qed.

Lemma thaw_with_frozen f s peer p :
  p ∈ ptq_frozen_peers (thaw_with f s peer) ↔
  p ∈ ptq_frozen_peers s ∧
  ¬ (p = peer ∧ ∃ pt, trackers s !! p = Some pt ∧ (f pt).2 = true).
Proof.
  unfold thaw_with, kpq_get. fold (trackers s).
  destruct (trackers s !! peer) as [pt|] eqn:E.
  2:{ split; [|tauto]. intros ?. split; [done|]. intros (-> & pt & ? & _). congruence. }
  destruct (f pt).2 eqn:Ef; simpl.
  - rewrite elem_of_difference, elem_of_singleton. split.
    + intros [? Hp]. split; [done|]. intros [? _]. done.
    + intros [? Hp]. split; [done|]. intros ->. apply Hp. eauto.
  - split; [|tauto]. intros ?. split; [done|]. intros (-> & pt' & ? & ?). congruence.
Qed.

Lemma thaw_fold f l s :
  NoDup l →
  (∀ p, trackers (foldl (thaw_with f) s l) !! p
        = (if decide (p ∈ l) then fst ∘ f else id) <$> trackers s !! p) ∧
  (∀ p, p ∈ ptq_frozen_peers (foldl (thaw_with f) s l) ↔
     p ∈ ptq_frozen_peers s ∧ ¬ (p ∈ l ∧ ∃ pt, trackers s !! p = Some pt ∧ (f pt).2 = true)).
Proof.
  revert s. induction l as [|x l IH]; intros s Hnd; cbn [foldl].
  { split; intros p; [|set_solver]. rewrite decide_False by set_solver. by rewrite option_fmap_id. }
  rewrite NoDup_cons in Hnd. destruct Hnd as [Hx Hnd].
  destruct (IH (thaw_with f s x) Hnd) as [Hl Hf]. split; intros p.
  - rewrite Hl, thaw_with_lookup. destruct (decide (p = x)) as [->|Hp].
    + rewrite decide_False, decide_True by set_solver. by rewrite option_fmap_id.
    + rewrite option_fmap_id. destruct (decide (p ∈ l)).
      * by rewrite decide_True by set_solver.
      * by rewrite decide_False by set_solver.
  - rewrite Hf, thaw_with_frozen, elem_of_cons, thaw_with_lookup.
    destruct (decide (p = x)) as [->|Hp]; [tauto|]. rewrite option_fmap_id. tauto.
Qed.

(** [thaw] halves the freeze value. *)
Lemma pt_thaw_halves pt :
  0 ≤ pt_freeze_val pt < Int.i_max 64 →
  pt_freeze_val (pt_thaw pt).1 = pt_freeze_val pt / 2 ∧
  ((pt_thaw pt).2 = true ↔ pt_freeze_val pt / 2 = 0).
Proof.
  intros Hb. unfold pt_thaw. simpl. unfold Int.isize_add, Int.isize_sub.
  assert (Int.i_max 64 < 2 ^ 63) by (by vm_compute).
  rewrite (Int.swrap_id 64 (pt_freeze_val pt + 1)) by (unfold Int.in_i; simpl; lia).
  rewrite Z.quot_div_nonneg by lia.
  assert (pt_freeze_val pt - (pt_freeze_val pt + 1) / 2 = pt_freeze_val pt / 2) as E.
  { pose proof (Z.div_mod (pt_freeze_val pt) 2). pose proof (Z.div_mod (pt_freeze_val pt + 1) 2).
    pose proof (Z.mod_pos_bound (pt_freeze_val pt) 2).
    pose proof (Z.mod_pos_bound (pt_freeze_val pt + 1) 2). lia. }
  rewrite E. assert (0 ≤ pt_freeze_val pt / 2 ≤ pt_freeze_val pt) as Hh.
  { split; [apply Z.div_pos; lia|apply Z.div_le_upper_bound; lia]. }
  rewrite Int.swrap_id by (unfold Int.in_i; simpl; lia).
  split; [done|]. rewrite Z.leb_le. lia.
Qed.

Lemma pt_with_freeze_wf z pt : pt_wf pt → pt_wf (pt_with_freeze z pt).
Proof. by intros [????]. Qed.

(** A loop that takes every frozen peer out of the frozen set once its tracker
    is no longer frozen keeps the invariant. *)
Lemma thaw_fold_wf f s :
  (∀ pt, 0 ≤ pt_freeze_val pt < Int.i_max 64 → ∃ z,
    (f pt).1 = pt_with_freeze z pt ∧ 0 ≤ z ≤ pt_freeze_val pt ∧ ((f pt).2 = true ↔ z = 0)) →
  ptq_wf s → ptq_wf (foldl (thaw_with f) s (hs_iter (ptq_frozen_peers s))).
Proof.
  intros Hf Hwf.
  destruct (thaw_fold f (hs_iter (ptq_frozen_peers s)) s (NoDup_hs_iter _)) as [Hl Hfr].
  split; [intros p x; rewrite Hl|intros p; rewrite Hfr; setoid_rewrite Hl].
  - rewrite fmap_Some. intros (pt & Hpt & ->). pose proof (ptq_wf_tracker _ Hwf _ _ Hpt) as (?&?&Hb).
    case_decide; simpl; [|done]. destruct (Hf pt Hb) as (z & -> & Hz & _). simpl.
    split_and!; [done|by apply pt_with_freeze_wf|lia|lia].
  - rewrite elem_of_hs_iter. setoid_rewrite fmap_Some.
    rewrite (ptq_wf_frozen _ Hwf). split.
    + intros [(pt & Hpt & Hz) Hn]. pose proof (ptq_wf_tracker _ Hwf _ _ Hpt) as (?&?&Hb).
      destruct (Hf pt Hb) as (z & Hfz & Hz' & Hiff).
      exists (f pt).1. split; [|rewrite Hfz; simpl; destruct (decide (z = 0)); [naive_solver|lia]].
      exists pt. rewrite decide_True; [done|]. apply elem_of_hs_iter, (ptq_wf_frozen _ Hwf). eauto.
    + intros (x & (pt & Hpt & ->) & Hz). pose proof (ptq_wf_tracker _ Hwf _ _ Hpt) as (?&?&Hb).
      destruct (Hf pt Hb) as (z & Hfz & Hz' & Hiff).
      case_decide as Hin; simpl in Hz.
      * rewrite Hfz in Hz. simpl in Hz. split; [exists pt; split; [done|lia]|].
        intros (_ & pt' & Hpt' & Ht). simplify_eq. apply Hiff in Ht. lia.
      * split; [eauto|]. rewrite elem_of_hs_iter, (ptq_wf_frozen _ Hwf) in Hin. naive_solver.
Qed.

Lemma ptq_thaw_round_eq s :
  ptq_thaw_round s = foldl (thaw_with pt_thaw) s (hs_iter (ptq_frozen_peers s)).
Proof. done. Qed.
Lemma ptq_full_thaw_eq s :
  ptq_full_thaw s
  = foldl (thaw_with (λ pt, (pt_full_thaw pt, true))) s (hs_iter (ptq_frozen_peers s)).
Proof. done. Qed.

Lemma ptq_thaw_round_wf s : ptq_wf s → ptq_wf (ptq_thaw_round s).
Proof.
  rewrite ptq_thaw_round_eq. apply thaw_fold_wf. intros pt Hb.
  destruct (pt_thaw_halves pt Hb) as [Hh Ht]. exists (pt_freeze_val pt / 2).
  split_and!; [unfold pt_thaw in *; simpl in *; by rewrite Hh|apply Z.div_pos; lia| |done].
  apply Z.div_le_upper_bound; lia.
Qed.

Lemma ptq_full_thaw_wf s : ptq_wf s → ptq_wf (ptq_full_thaw s).
Proof.
  rewrite ptq_full_thaw_eq. apply thaw_fold_wf. intros pt Hb. exists 0. by split_and!; [|lia|lia|].
Qed.

(** ** Reachable queues *)

(** The calls that the engine makes.  A peer's freeze value and its active work
    count events and bytes of one connection: they are taken to stay below the
    range of their 64-bit types. *)
Inductive ptq_step : PeerTaskQueue T D → PeerTaskQueue T D → Prop :=
  | step_add_hook s : ptq_step s (ptq_add_hook s)
  | step_push now peer tasks s :
      Forall task_ok tasks → ptq_step s (ptq_push_tasks now peer tasks s)
  | step_pop target s : ptq_step s (ptq_pop_tasks target s).1
  | step_done peer tasks s s' :
      (∀ pt, trackers s !! peer = Some pt → active_total pt < 2 ^ 64) →
      ptq_tasks_done peer tasks s = Ok s' → ptq_step s s'
  | step_remove topic peer s :
      (∀ pt, trackers s !! peer = Some pt → pt_freeze_val pt + 1 < Int.i_max 64) →
      ptq_step s (ptq_remove topic peer s)
  | step_full_thaw s : ptq_step s (ptq_full_thaw s)
  | step_thaw_round s : ptq_step s (ptq_thaw_round s).

Lemma PeerTaskQueue_new_wf config : ptq_wf (PeerTaskQueue_new config).
Proof.
  split; [intros p pt|intros p]; unfold trackers; simpl; setoid_rewrite kpq_new_contents.
  - by rewrite lookup_empty.
  - setoid_rewrite lookup_empty. set_solver.
Qed.

Lemma ptq_step_wf s s' : ptq_step s s' → ptq_wf s → ptq_wf s'.
Proof.
  intros [] Hwf.
  - by destruct Hwf.
  - by apply ptq_push_tasks_wf.
  - by apply ptq_pop_tasks_wf.
  - destruct (ptq_tasks_done_ok peer tasks s0 Hwf) as (? & ? & ? & _); [done|]. congruence.
  - by apply ptq_remove_wf.
  - by apply ptq_full_thaw_wf.
  - by apply ptq_thaw_round_wf.
Qed.

(** In every reachable queue the trackers are filed under their peers, their
    bookkeeping of active work and topics is exact, and the set of frozen peers
    is exactly the set of the peers whose tracker refuses to hand out tasks. *)
Theorem ptq_reachable_wf config s : rtc ptq_step (PeerTaskQueue_new config) s → ptq_wf s.
Proof.
  intros Hr. assert (ptq_wf (PeerTaskQueue_new config)) as Hwf by apply PeerTaskQueue_new_wf.
  revert Hwf. induction Hr as [|s1 s2 s3 Hs _ IH]; [done|]. intros Hwf. apply IH.
  by eapply ptq_step_wf.
Qed.

(** Serving a peer: the tasks that [pop_tasks] hands out can be reported to
    [tasks_done] without tripping its assertion, and none of them is active
    afterwards; the trackers of other peers are not touched. *)
Theorem ptq_serve_cycle target s s1 p out w :
  ptq_wf s → ptq_pop_tasks target s = (s1, Some (p, out, w)) →
  (∀ pt, trackers s1 !! p = Some pt → active_total pt < 2 ^ 64) →
  ∃ s2, ptq_tasks_done p out s1 = Ok s2 ∧ ptq_wf s2 ∧
    (∀ t task, task ∈ active_at s2 p t → task ∉ out) ∧
    (∀ p', p' ≠ p → trackers s2 !! p' = trackers s !! p').
Proof.
  intros Hwf Hpop Hb.
  assert (ptq_wf s1) as Hwf1 by (change s1 with (s1, Some (p, out, w)).1; rewrite <-Hpop;
                                 by apply ptq_pop_tasks_wf).
  destruct (ptq_tasks_done_ok p out s1 Hwf1 Hb) as (s2 & Hd & Hwf2 & Ha & Ho).
  exists s2. split_and!; [done|done| |].
  - intros t task. rewrite Ha, list_elem_of_filter. tauto.
  - intros p' Hp'. rewrite Ho by done.
    apply ptq_pop_tasks_some in Hpop as (pt & qs & pt' & _ & _ & _ & Hs).
    destruct (pt_is_idle pt'); destruct Hs as [-> _];
      [by rewrite lookup_delete_ne|by rewrite lookup_insert_ne].
Qed.

Lemma ptq_thaw_round_lookup s p pt :
  ptq_wf s → trackers s !! p = Some pt →
  ∃ pt', trackers (ptq_thaw_round s) !! p = Some pt' ∧ pt_freeze_val pt' = pt_freeze_val pt / 2.
Proof.
  intros Hwf Hpt. rewrite ptq_thaw_round_eq.
  destruct (thaw_fold pt_thaw (hs_iter (ptq_frozen_peers s)) s (NoDup_hs_iter _)) as [-> _].
  rewrite Hpt. simpl. eexists. split; [done|].
  destruct (ptq_wf_tracker _ Hwf _ _ Hpt) as (_ & _ & Hb). case_decide as Hin.
  - by apply pt_thaw_halves.
  - rewrite elem_of_hs_iter, (ptq_wf_frozen _ Hwf) in Hin. simpl.
    destruct (decide (pt_freeze_val pt = 0)) as [->|]; [done|].
    destruct Hin. exists pt. split; [done|lia].
Qed.

Lemma ptq_thaw_iter_wf n s : ptq_wf s → ptq_wf (Nat.iter n ptq_thaw_round s).
Proof. induction n; simpl; auto using ptq_thaw_round_wf. Qed.

(** Frozen peers thaw: every thaw round halves the freeze value of each of
    them, so enough rounds, or one full thaw, leave no peer frozen. *)
Theorem ptq_thaw_converges n s :
  ptq_wf s →
  (∀ p pt, trackers s !! p = Some pt →
    ∃ pt', trackers (Nat.iter n ptq_thaw_round s) !! p = Some pt' ∧
      pt_freeze_val pt' = pt_freeze_val pt / 2 ^ Z.of_nat n) ∧
  ((∀ p pt, trackers s !! p = Some pt → pt_freeze_val pt < 2 ^ Z.of_nat n) →
    ptq_frozen_peers (Nat.iter n ptq_thaw_round s) = ∅) ∧
  ptq_frozen_peers (ptq_full_thaw s) = ∅.
Proof.
  intros Hwf.
  assert (∀ p pt, trackers s !! p = Some pt →
    ∃ pt', trackers (Nat.iter n ptq_thaw_round s) !! p = Some pt' ∧
      pt_freeze_val pt' = pt_freeze_val pt / 2 ^ Z.of_nat n) as Hfz.
  { intros p pt Hpt. induction n as [|n (pt1 & Hl1 & Hv1)]; simpl Nat.iter.
    - exists pt. split; [done|]. by rewrite Z.div_1_r.
    - destruct (ptq_thaw_round_lookup _ p pt1 (ptq_thaw_iter_wf n s Hwf) Hl1) as (pt2 & ? & Hv2).
      exists pt2. split; [done|]. rewrite Hv2, Hv1, Z.div_div by lia.
      f_equal. rewrite Nat2Z.inj_succ, Z.pow_succ_r by lia. lia. }
  split_and!; [done| |].
  - intros Hb. apply elem_of_equiv_empty_L. intros p Hp.
    assert (∀ n, is_Some (trackers (Nat.iter n ptq_thaw_round s) !! p) → is_Some (trackers s !! p))
      as Hback.
    { clear. intros n. induction n as [|n IH]; simpl; [done|]. rewrite ptq_thaw_round_eq.
      destruct (thaw_fold pt_thaw _ (Nat.iter n ptq_thaw_round s)
        (NoDup_hs_iter (ptq_frozen_peers (Nat.iter n ptq_thaw_round s)))) as [-> _].
      rewrite fmap_is_Some. done. }
    apply (ptq_wf_frozen _ (ptq_thaw_iter_wf n s Hwf)) in Hp as (pt' & Hpt' & Hpos).
    destruct (Hback n) as [pt Hpt]; [eauto|].
    destruct (Hfz p pt Hpt) as (pt'' & ? & Hv). simplify_eq.
    destruct (ptq_wf_tracker _ Hwf _ _ Hpt) as (_ & _ & Hbb). specialize (Hb _ _ Hpt).
    rewrite Z.div_small in Hv by lia. lia.
  - apply elem_of_equiv_empty_L. intros p Hp. rewrite ptq_full_thaw_eq in Hp.
    apply thaw_fold in Hp as [Hp Hn]; [|apply NoDup_hs_iter]. apply Hn.
    rewrite elem_of_hs_iter. split; [done|]. apply (ptq_wf_frozen _ Hwf) in Hp. naive_solver.
Qed.

(** The order on trackers is not an order: for an unfrozen peer with much
    active work and a frozen one with little, each is less than the other,
    because the second test of the freeze values repeats the first. *)
Theorem PeerTracker_cmp_inconsistent (a b : PeerTracker T D) :
  kpq_contents (pt_pending_tasks a) ≠ ∅ → kpq_contents (pt_pending_tasks b) ≠ ∅ →
  pt_freeze_val a < pt_freeze_val b → pt_active_work b < pt_active_work a →
  PeerTracker_cmp a b = Lt ∧ PeerTracker_cmp b a = Lt.
Proof.
  intros Ha Hb Hf Hw. unfold PeerTracker_cmp. rewrite !kpq_is_empty_spec.
  rewrite !bool_decide_eq_false_2 by done.
  rewrite (proj2 (Z.ltb_ge (pt_freeze_val b) (pt_freeze_val a))) by lia.
  rewrite (proj2 (Z.ltb_lt (pt_freeze_val a) (pt_freeze_val b))) by lia.
  rewrite (proj2 (Z.eqb_neq _ _)) by lia. split; [|done]. by apply Z.compare_lt_iff.
Qed.

(** Among peers that are equally frozen and have something pending the order is
    total: less active work first, then more pending topics. *)
Lemma PeerTracker_cmp_total (v : Z) :
  total_on (λ pt : PeerTracker T D,
    kpq_contents (pt_pending_tasks pt) ≠ ∅ ∧ pt_freeze_val pt = v).
Proof.
  split.
  - intros a b [Ha <-] [Hb Hv]. unfold cmp, PeerTracker_cmp. rewrite !kpq_is_empty_spec.
    rewrite !bool_decide_eq_false_2 by done. rewrite Hv, !Z.ltb_irrefl.
    rewrite (Z.eqb_sym (pt_active_work b)). case_match; by rewrite Z.compare_antisym.
  - intros a b c [Ha Hva] [Hb Hvb] [Hc Hvc]. unfold cmp, PeerTracker_cmp.
    rewrite !kpq_is_empty_spec, !bool_decide_eq_false_2 by done.
    rewrite Hva, Hvb, Hvc, !Z.ltb_irrefl.
    repeat case_match; repeat match goal with
      | H : (_ =? _) = true |- _ => apply Z.eqb_eq in H
      | H : (_ =? _) = false |- _ => apply Z.eqb_neq in H
      end; rewrite ?Z.compare_ge_iff; lia.
Qed.
End queue_facts.

(** ** Properties of all the tasks of a queue *)

Section task_properties.
Context `{Ids} `{PriorityQueue} `{HashOrder} {T D : Type} `{Countable T} `{EqDecision D}
  `{MergerLaws T D}.
Implicit Types (s : PeerTaskQueue T D) (pt : PeerTracker T D).

(** [P] holds of every pending and of every active task. *)
Definition pt_all (P : Task T D → Prop) pt : Prop :=
  (∀ t q, kpq_contents (pt_pending_tasks pt) !! t = Some q → P (qt_task q)) ∧
  (∀ t l, pt_active_tasks pt !! t = Some l → Forall P l).

(** Properties that the merging of tasks of one topic keeps. *)
Record merge_closed (P : Task T D → Prop) : Prop := {
  mc_priority p t : P t → P (with_priority p t);
  mc_merge a b : P a → P b → task_topic a = task_topic b → P (merge a b)
}.

Lemma pt_all_new P p m : pt_all P (PeerTracker_new p m : PeerTracker T D).
Proof.
  split; simpl; intros t x; [by rewrite kpq_new_contents, lookup_empty|by rewrite lookup_empty].
Qed.

Lemma pt_all_push_task P now pt task :
  merge_closed P → pt_wf pt → pt_all P pt → P task → pt_all P (pt_push_task now pt task).
Proof.
  intros HP Hwf [Hp Ha] Ht.
  destruct (task_has_more_info_than_active_tasks task pt) eqn:Hi.
  2:{ unfold pt_push_task. by rewrite Hi. }
  split; [|unfold pt_push_task; by repeat case_match].
  intros t q. rewrite pt_push_task_eq, lookup_insert by done. case_decide; [|apply Hp].
  intros [= <-]. unfold pushed. destruct (kpq_contents _ !! _) as [q|] eqn:E; simpl; [|done].
  pose proof (pt_wf_pending _ Hwf _ _ E) as (Hq & _ & _).
  apply (mc_merge _ HP); [done|by eapply (mc_priority _ HP), Hp|done].
Qed.

Lemma pt_all_push P now tasks pt :
  merge_closed P → pt_wf pt → Forall task_ok tasks → pt_all P pt → Forall P tasks →
  pt_all P (pt_push_tasks now tasks pt).
Proof.
  intros HP Hwf Hok Hall HPt. unfold pt_push_tasks.
  apply (foldl_invariant (λ pt, pt_wf pt ∧ pt_all P pt)); [|done].
  intros pt' t Hin [Hwf' Hall']. rewrite Forall_forall in Hok, HPt.
  split; [by apply pt_push_task_wf, Hok|by apply pt_all_push_task; auto].
Qed.

Lemma pt_all_start P task pt : pt_all P pt → P task → pt_all P (pt_start_task task pt).
Proof.
  intros [Hp Ha] Ht. split; [done|]. simpl. intros t l. rewrite lookup_insert.
  case_decide; [|apply Ha]. intros [= <-]. apply Forall_app. split; [|by constructor].
  destruct (pt_active_tasks pt !! task_topic task) eqn:E; simpl; [by eapply Ha|constructor].
Qed.

Lemma pt_all_run P target w pt qs pt' :
  pop_run target w pt qs pt' → pt_all P pt → pt_all P pt' ∧ Forall P (qt_task <$> qs).
Proof.
  induction 1 as [|w pt k q pending qs pt' _ Hpop _ IH]; intros Hall; [by split; [|constructor]|].
  apply kpq_pop_some in Hpop as [Hk Hd]. assert (P (qt_task q)) as Hq by (by eapply Hall).
  destruct IH as [? ?]; [|by split; [|constructor]].
  apply pt_all_start; [|done]. split; simpl; [|apply Hall].
  intros t r. rewrite Hd, lookup_delete_Some. intros [_ ?]. by eapply Hall.
Qed.

Lemma pt_all_done P tasks pt pt' :
  pt_wf pt → active_total pt < 2 ^ 64 → pt_all P pt →
  fold_res (λ pt task, pt_task_done task pt) pt tasks = Ok pt' → pt_all P pt'.
Proof.
  intros Hwf Hb [Hp Ha] Hd.
  destruct (pt_tasks_done_ok tasks pt Hwf Hb) as (pt1 & Hd1 & Hwf1 & _ & _ & Hpend & Hact).
  rewrite Hd in Hd1. injection Hd1 as ->. split; [by rewrite Hpend|].
  intros t l Hl. specialize (Hact t). rewrite Hl in Hact. simpl in Hact. subst l.
  apply Forall_filter_sub. destruct (pt_active_tasks pt !! t) eqn:E; simpl; [by eapply Ha|constructor].
Qed.

(** The queue-wide version, with the peer of the tracker. *)
Definition ptq_all (P : PeerId → Task T D → Prop) s : Prop :=
  ∀ p pt, trackers s !! p = Some pt → pt_all (P p) pt.

Lemma ptq_all_new P config : ptq_all P (PeerTaskQueue_new config).
Proof. intros p pt. unfold trackers. simpl. by rewrite kpq_new_contents, lookup_empty. Qed.

Lemma ptq_all_push P now peer tasks s :
  (∀ p, merge_closed (P p)) → ptq_wf s → Forall task_ok tasks → ptq_all P s →
  Forall (P peer) tasks → ptq_all P (ptq_push_tasks now peer tasks s).
Proof.
  intros HP Hwf Hok Hall HPt p pt. rewrite ptq_push_tasks_trackers, lookup_insert.
  case_decide; [|apply Hall]. intros [= <-]. subst p.
  destruct (trackers s !! peer) as [pt0|] eqn:E; simpl.
  - pose proof (ptq_wf_tracker _ Hwf _ _ E) as (_ & ? & _).
    apply pt_all_push; [apply HP|done|done|by apply Hall|done].
  - apply pt_all_push; [apply HP|apply PeerTracker_new_wf|done|apply pt_all_new|done].
Qed.

Lemma ptq_all_pop P target s s' p out w :
  ptq_all P s → ptq_pop_tasks target s = (s', Some (p, out, w)) →
  ptq_all P s' ∧ Forall (P p) out.
Proof.
  intros Hall Hpop.
  apply ptq_pop_tasks_some in Hpop as (pt & qs & pt' & Hpt & Hr & -> & Hs).
  destruct (pt_all_run (P p) _ _ _ _ _ Hr (Hall _ _ Hpt)) as [Hall' Hout]. split; [|done].
  intros p' x. destruct (pt_is_idle pt'); destruct Hs as [-> _].
  - rewrite lookup_delete_Some. intros [_ ?]. by apply Hall.
  - rewrite lookup_insert. case_decide; [|apply Hall]. by intros [= <-]; subst.
Qed.

Lemma ptq_all_done P peer tasks s s' :
  ptq_wf s → (∀ pt, trackers s !! peer = Some pt → active_total pt < 2 ^ 64) →
  ptq_all P s → ptq_tasks_done peer tasks s = Ok s' → ptq_all P s'.
Proof.
  intros Hwf Hb Hall. unfold ptq_tasks_done, kpq_get. fold (trackers s).
  destruct (trackers s !! peer) as [pt|] eqn:E; [|by intros [= <-]].
  destruct (fold_res _ pt tasks) as [pt'| |] eqn:Ef; simpl; [|done..]. intros [= <-] p x.
  unfold trackers at 1. simpl.
  rewrite kpq_push_contents, kpq_remove_contents, insert_delete_eq, lookup_insert.
  case_decide; [|apply Hall]. intros [= <-]. subst p.
  pose proof (ptq_wf_tracker _ Hwf _ _ E) as (_ & ? & _).
  eapply pt_all_done; [done|by apply Hb|by apply Hall|done].
Qed.

Lemma ptq_all_remove P topic peer s : ptq_all P s → ptq_all P (ptq_remove topic peer s).
Proof.
  intros Hall. unfold ptq_remove, kpq_get. fold (trackers s).
  destruct (trackers s !! peer) as [pt|] eqn:E; [|done]. simpl.
  assert (∀ z, pt_all (P peer) (pt_with_freeze z
    (pt_with_pending (kpq_remove topic (pt_pending_tasks pt)) pt))) as Hpt.
  { intros z. destruct (Hall _ _ E) as [Hp Ha]. split; simpl; [|apply Ha].
    intros t q. rewrite kpq_remove_contents, lookup_delete_Some. intros [_ ?]. by eapply Hp. }
  intros p x. unfold trackers. destruct (_ && _); simpl;
    [destruct (negb _); simpl|]; rewrite kpq_push_contents, kpq_remove_contents,
      insert_delete_eq, lookup_insert; (case_decide; [|apply Hall]); intros [= <-]; subst p.
  1,2: apply Hpt. apply (Hpt (pt_freeze_val pt)).
Qed.

(** The tasks popped together have distinct topics. *)
Lemma ptq_pop_topics target s s' p out w :
  ptq_wf s → ptq_pop_tasks target s = (s', Some (p, out, w)) → NoDup (task_topic <$> out).
Proof.
  intros Hwf Hpop. apply ptq_pop_tasks_some in Hpop as (pt & qs & pt' & Hpt & Hr & -> & _).
  destruct (ptq_wf_tracker _ Hwf _ _ Hpt) as (_ & Hw & _).
  pose proof (NoDup_fst_map_to_list (kpq_contents (pt_pending_tasks pt))) as Hnd.
  rewrite (pop_run_contents _ _ _ _ _ Hr Hw), fmap_app in Hnd.
  apply NoDup_app in Hnd as [Hnd _]. rewrite <-list_fmap_compose in Hnd.
  by rewrite <-list_fmap_compose.
Qed.

(** A queue created to ignore freezing never freezes a peer. *)
Definition never_frozen s : Prop := ptq_ignore_freezing s = true ∧ ptq_frozen_peers s = ∅.

Lemma never_frozen_push now peer tasks s :
  never_frozen s → never_frozen (ptq_push_tasks now peer tasks s).
Proof. unfold ptq_push_tasks. by destruct (kpq_get _ _). Qed.

Lemma never_frozen_pop target s : never_frozen s → never_frozen (ptq_pop_tasks target s).1.
Proof.
  intros [Hi Hf]. unfold ptq_pop_tasks. destruct (kpq_pop _) as [[[p pt] q]|]; [|done].
  destruct (pt_pop_tasks _ _) as [pt' out]. destruct (pt_is_idle pt'); simpl; [|done].
  split; [done|]. simpl. rewrite Hf. set_solver.
Qed.

Lemma never_frozen_done peer tasks s s' :
  never_frozen s → ptq_tasks_done peer tasks s = Ok s' → never_frozen s'.
Proof.
  unfold ptq_tasks_done. intros Hn. destruct (kpq_get _ _); [|by intros [= <-]].
  destruct (fold_res _ _ _); simpl; [|done..]. by intros [= <-].
Qed.

Lemma never_frozen_remove topic peer s : never_frozen s → never_frozen (ptq_remove topic peer s).
Proof.
  intros [Hi Hf]. unfold ptq_remove. destruct (kpq_get _ _); [|done]. simpl.
  rewrite Hi, andb_false_r. done.
Qed.

Lemma never_frozen_val s p pt :
  ptq_wf s → never_frozen s → trackers s !! p = Some pt → pt_freeze_val pt = 0.
Proof.
  intros Hwf [_ Hf] Hpt. pose proof (ptq_wf_tracker _ Hwf _ _ Hpt) as (_ & _ & Hb).
  destruct (decide (pt_freeze_val pt = 0)) as [|Hne]; [done|].
  assert (p ∈ ptq_frozen_peers s) as Hin; [|rewrite Hf in Hin; set_solver].
  apply (ptq_wf_frozen _ Hwf). exists pt. split; [done|lia].
Qed.
End task_properties.

(** ** The server's merger *)

Section merger_facts.
Context {T : Type}.
Implicit Types (t e : Task T TaskData).

Lemma has_new_info_fold l hs wb :
  foldl (λ '(have_size, is_want_block) entry,
           (if td_have_block (task_data entry) then true else have_size,
            if td_is_want_block (task_data entry) then true else is_want_block))
    (hs, wb) l
  = (hs || existsb (td_have_block ∘ task_data) l,
     wb || existsb (td_is_want_block ∘ task_data (D:=TaskData)) (l : list (Task T TaskData))).
Proof.
  revert hs wb. induction l as [|e l IH]; intros hs wb; simpl; [by rewrite !orb_false_r|].
  rewrite IH. destruct hs, wb, (td_have_block (task_data e)), (td_is_want_block (task_data e));
    done.
Qed.

Lemma server_merge_have t e :
  task_topic (merge t e) = task_topic e ∧
  td_have_block (task_data (merge t e)) = td_have_block (task_data e) || td_have_block (task_data t).
Proof. by destruct t as [? ? ? [[] ? ? []]], e as [? ? ? [[] ? ? []]]. Qed.

(** Merging never loses information: the merged task asks for the block if
    either did, knows the size if either did, keeps topic and priority, and a
    want-block with a known size is booked with exactly that size.  A new task
    counts as news for the active ones just when it asks for a block none of
    them asks for, or knows a size none of them knows. *)
Theorem server_merge_keeps_information t e l :
  let m := server_merge t e in
  task_topic m = task_topic e ∧ task_priority m = task_priority e ∧
  td_is_want_block (task_data m)
  = td_is_want_block (task_data e) || td_is_want_block (task_data t) ∧
  td_have_block (task_data m) = td_have_block (task_data e) || td_have_block (task_data t) ∧
  td_send_dont_have (task_data m) = td_send_dont_have (task_data e) ∧
  td_block_size (task_data m)
  = (if td_have_block (task_data e) then td_block_size (task_data e)
     else if td_have_block (task_data t) then td_block_size (task_data t)
     else td_block_size (task_data e)) ∧
  (td_is_want_block (task_data m) = true → td_have_block (task_data m) = true →
    task_work m = td_block_size (task_data m)) ∧
  server_has_new_info t l
  = (td_is_want_block (task_data t) && negb (existsb (td_is_want_block ∘ task_data) l)
     || td_have_block (task_data t) && negb (existsb (td_have_block ∘ task_data) l)).
Proof.
  assert (server_has_new_info t l
    = (td_is_want_block (task_data t) && negb (existsb (td_is_want_block ∘ task_data) l)
       || td_have_block (task_data t) && negb (existsb (td_have_block ∘ task_data) l))) as Hnew.
  { unfold server_has_new_info. rewrite has_new_info_fold. simpl.
    destruct (td_is_want_block _), (td_have_block _), (existsb _ l), (existsb _ l); done. }
  destruct t as [? ? ? [[] ? ? []]], e as [? ? ? [[] ? ? []]]; simpl in *; split_and!; done.
Qed.

(** Tasks whose sizes are sizes; the server's merger meets the interface. *)
#[export] Program Instance server_merger_laws : MergerLaws T TaskData := {|
  task_ok t := 0 ≤ task_work t ∧ 0 ≤ td_block_size (task_data t) |}.
Next Obligation. by intros t []. Qed.
Next Obligation. done. Qed.
Next Obligation. intros t e. simpl. unfold server_merge. by repeat case_match. Qed.
Next Obligation.
  intros [? ? ? [[] ? ? []]] [? ? ? [[] ? ? []]]; simpl; lia.
Qed.
End merger_facts.

(** ** Witnesses *)

Module TaskQueueWitness.
Import Toy.
Import ScanQueue.

Definition peer : @PeerId ids := 7%nat.

Definition task (topic priority work : Z) : Task Z TaskData :=
  {| task_topic := topic; task_priority := priority; task_work := work;
     task_data := {| td_is_want_block := true; td_send_dont_have := false;
                     td_block_size := work; td_have_block := true |} |}.

Definition tracker : PeerTracker Z TaskData :=
  pt_push_tasks 1 [task 1 10 100; task 2 20 50; task 3 10 70] (PeerTracker_new peer 0).

Lemma tracker_wf : pt_wf tracker.
Proof.
  apply pt_push_tasks_wf; [apply PeerTracker_new_wf|]. repeat constructor; simpl; lia.
Qed.

Lemma pt_pop_tasks_correct_witness :
  task_topic <$> (pt_pop_tasks 120 tracker).2 = [2; 3] ∧ pt_wf (pt_pop_tasks 120 tracker).1.
Proof.
  split; [vm_compute; reflexivity|].
  pose proof (pt_pop_tasks_correct 120 tracker tracker_wf) as Hp.
  destruct (pt_pop_tasks 120 tracker) as [pt' out]. exact (proj1 Hp).
Defined.

Definition config : ptq_Config :=
  {| cfg_ignore_freezing := false; cfg_max_outstanding_work_per_peer := 0 |}.
Definition queue1 : PeerTaskQueue Z TaskData :=
  ptq_push_tasks 1 peer [task 1 10 100; task 2 20 50; task 3 10 70]
    (PeerTaskQueue_new config).
Definition queue2 : PeerTaskQueue Z TaskData := ptq_remove 3 peer queue1.

Lemma queue1_wf : ptq_wf queue1.
Proof.
  apply ptq_push_tasks_wf; [apply PeerTaskQueue_new_wf|]. repeat constructor; simpl; lia.
Qed.

Lemma queue2_wf : ptq_wf queue2.
Proof.
  apply ptq_remove_wf; [apply queue1_wf|]. intros pt Hpt. vm_compute in Hpt.
  injection Hpt as <-. vm_compute. reflexivity.
Qed.

Lemma ptq_reachable_wf_witness : ptq_wf queue1.
Proof.
  apply (ptq_reachable_wf config queue1). apply rtc_once. constructor.
  repeat constructor; simpl; lia.
Defined.

Definition served : PeerTaskQueue Z TaskData := (ptq_pop_tasks 120 queue1).1.

Lemma ptq_serve_cycle_witness :
  ∃ s2, ptq_tasks_done peer [task 2 20 50; task 3 10 70] served = Ok s2 ∧ ptq_wf s2.
Proof.
  destruct (ptq_serve_cycle 120 queue1 served peer [task 2 20 50; task 3 10 70] 100
    queue1_wf) as (s2 & Hd & Hwf & _).
  - vm_compute. reflexivity.
  - intros pt Hpt. vm_compute in Hpt. injection Hpt as <-. vm_compute. reflexivity.
  - exists s2. split; [exact Hd|exact Hwf].
Defined.

Lemma ptq_thaw_converges_witness :
  ptq_frozen_peers queue2 = {[ peer ]} ∧
  ptq_frozen_peers (Nat.iter 1 ptq_thaw_round queue2) = ∅.
Proof.
  split; [vm_compute; reflexivity|].
  apply (ptq_thaw_converges 1 queue2 queue2_wf). intros p pt Hpt.
  apply elem_of_map_to_list in Hpt. vm_compute in Hpt.
  apply list_elem_of_singleton in Hpt. injection Hpt as -> ->. vm_compute. reflexivity.
Defined.

Definition busy : PeerTracker Z TaskData := (pt_pop_tasks 60 tracker).1.
Definition cancelled : PeerTracker Z TaskData := pt_freeze tracker.

Lemma PeerTracker_cmp_inconsistent_witness : cmp busy cancelled = Lt ∧ cmp cancelled busy = Lt.
Proof.
  apply (PeerTracker_cmp_inconsistent busy cancelled).
  - by vm_compute.
  - by vm_compute.
  - by vm_compute.
  - by vm_compute.
Defined.
End TaskQueueWitness.
