(* ===== verification/Engine.v ===== *)
(** * The bitswap server: ledgers and the decision engine

    Models [iroh-bitswap/src/server/ledger.rs], [server/peer_ledger.rs],
    [server/score_ledger.rs] (its counters; the floating-point scores are not
    modelled), [server/blockstore_manager.rs], [server/decision.rs] and the
    sending of envelopes in [iroh-bitswap/src/server.rs].  The block store is
    the trait [Store] of the crate: here the class [Store].  A handler that
    takes its locks one after the other is written as the composition of the
    phases between them. *)

From stdpp Require Import prelude gmap fin_maps sorting.
From Stdlib Require Import ZArith Lia.
From S2P Require Import Prelude Cids Message Wantlist PriorityQueue TaskQueue.
Local Open Scope Z_scope.

(** [trait Store], for the operations that the server uses: a failing call is
    [None]. *)
Class Store `{Multiformats} := {
  store_get_size : Cid → option Z;
  store_get : Cid → option Block
}.

(** [iter.collect::<AHashMap<_, _>>()]: the last value of a key wins. *)
Definition hm_collect {K V} `{Countable K} (l : list (K * V)) : gmap K V :=
  foldl (λ m kv, <[kv.1 := kv.2]> m) ∅ l.

(** ** Ledgers *)

Section ledgers.
Context `{Multiformats} `{HashOrder}.

Record Ledger := { ledger_partner : PeerId; ledger_wantlist : Wantlist }.

Definition Ledger_new (partner : PeerId) : Ledger :=
  {| ledger_partner := partner; ledger_wantlist := wl_default |}.
Definition ledger_with (w : Wantlist) (l : Ledger) : Ledger :=
  {| ledger_partner := ledger_partner l; ledger_wantlist := w |}.
Definition ledger_clear_wantlist (l : Ledger) : Ledger :=
  ledger_with (wl_clear (ledger_wantlist l)) l.
Definition ledger_wants (cid : Cid) (priority : Z) (want_type : WantType) (l : Ledger) : Ledger :=
  ledger_with (wl_add cid priority want_type (ledger_wantlist l)).1 l.
Definition ledger_cancel_want (cid : Cid) (l : Ledger) : Ledger * option WlEntry :=
  let '(w, e) := wl_remove cid (ledger_wantlist l) in (ledger_with w l, e).
Definition ledger_wantlist_get (cid : Cid) (l : Ledger) : option WlEntry :=
  wl_get cid (ledger_wantlist l).

Record PeerLedger := { pl_cids : gmap Cid (gset PeerId) }.

Definition pl_default : PeerLedger := {| pl_cids := ∅ |}.
Definition pl_wants (peer : PeerId) (cid : Cid) (pl : PeerLedger) : PeerLedger :=
  {| pl_cids := <[cid := {[peer]} ∪ default ∅ (pl_cids pl !! cid)]> (pl_cids pl) |}.
Definition pl_cancel_want (peer : PeerId) (cid : Cid) (pl : PeerLedger) : PeerLedger :=
  match pl_cids pl !! cid with
  | Some peers => {| pl_cids := <[cid := peers ∖ {[peer]}]> (pl_cids pl) |}
  | None => pl
  end.
Definition pl_peers (cid : Cid) (pl : PeerLedger) : option (gset PeerId) := pl_cids pl !! cid.

(** [IndividualScoreLedger], without its scores. *)
Record ScoreLedger := {
  sl_partner : PeerId;
  sl_bytes_sent : Z;
  sl_bytes_recv : Z;
  sl_last_exchange : Z;
  sl_exchange_count : Z
}.
Definition ScoreLedger_new (now : Z) (partner : PeerId) : ScoreLedger :=
  {| sl_partner := partner; sl_bytes_sent := 0; sl_bytes_recv := 0; sl_last_exchange := now;
     sl_exchange_count := 0 |}.
Definition u64_add (a b : Z) : Z := Int.wrap 64 (a + b).
Definition sl_add_to_sent_bytes (now n : Z) (l : ScoreLedger) : ScoreLedger :=
  {| sl_partner := sl_partner l; sl_bytes_sent := u64_add (sl_bytes_sent l) n;
     sl_bytes_recv := sl_bytes_recv l; sl_last_exchange := now;
     sl_exchange_count := u64_add (sl_exchange_count l) 1 |}.
Definition sl_add_to_recv_bytes (now n : Z) (l : ScoreLedger) : ScoreLedger :=
  {| sl_partner := sl_partner l; sl_bytes_sent := sl_bytes_sent l;
     sl_bytes_recv := u64_add (sl_bytes_recv l) n; sl_last_exchange := now;
     sl_exchange_count := u64_add (sl_exchange_count l) 1 |}.

(** [DefaultScoreLedger] *)
Definition score_add_sent (now : Z) (peer : PeerId) (n : Z) (m : gmap PeerId ScoreLedger) :=
  <[peer := sl_add_to_sent_bytes now n (default (ScoreLedger_new now peer) (m !! peer))]> m.
Definition score_add_recv (now : Z) (peer : PeerId) (n : Z) (m : gmap PeerId ScoreLedger) :=
  <[peer := sl_add_to_recv_bytes now n (default (ScoreLedger_new now peer) (m !! peer))]> m.
Definition score_peer_connected (now : Z) (peer : PeerId) (m : gmap PeerId ScoreLedger) :=
  <[peer := default (ScoreLedger_new now peer) (m !! peer)]> m.
Definition score_peer_disconnected (peer : PeerId) (m : gmap PeerId ScoreLedger) :=
  delete peer m.
End ledgers.

(** ** The decision engine *)

Section engine.
Context `{Store} `{Prost} `{HashOrder} `{PriorityQueue}.

(** [BlockstoreManager::get_block_sizes] and [get_blocks] *)
Definition get_block_sizes (keys : list Cid) : gmap Cid Z :=
  hm_collect (omap (λ cid, pair cid <$> store_get_size cid) keys).
Definition get_blocks (keys : list Cid) : gmap Cid Block :=
  hm_collect (omap (λ cid, pair cid <$> store_get cid) keys).

Record Engine := {
  eng_queue : PeerTaskQueue Cid TaskData;
  eng_ledger_map : gmap PeerId Ledger;
  eng_peer_ledger : PeerLedger;
  eng_score : gmap PeerId ScoreLedger;
  eng_max_replace_size : Z;
  eng_send_dont_haves : bool;
  eng_filter : option (PeerId → Cid → bool)
}.

Definition eng_with_queue (q : PeerTaskQueue Cid TaskData) (e : Engine) : Engine :=
  {| eng_queue := q; eng_ledger_map := eng_ledger_map e; eng_peer_ledger := eng_peer_ledger e;
     eng_score := eng_score e; eng_max_replace_size := eng_max_replace_size e;
     eng_send_dont_haves := eng_send_dont_haves e; eng_filter := eng_filter e |}.
Definition eng_with_ledgers (m : gmap PeerId Ledger) (e : Engine) : Engine :=
  {| eng_queue := eng_queue e; eng_ledger_map := m; eng_peer_ledger := eng_peer_ledger e;
     eng_score := eng_score e; eng_max_replace_size := eng_max_replace_size e;
     eng_send_dont_haves := eng_send_dont_haves e; eng_filter := eng_filter e |}.
Definition eng_with_peer_ledger (pl : PeerLedger) (e : Engine) : Engine :=
  {| eng_queue := eng_queue e; eng_ledger_map := eng_ledger_map e; eng_peer_ledger := pl;
     eng_score := eng_score e; eng_max_replace_size := eng_max_replace_size e;
     eng_send_dont_haves := eng_send_dont_haves e; eng_filter := eng_filter e |}.
Definition eng_with_score (s : gmap PeerId ScoreLedger) (e : Engine) : Engine :=
  {| eng_queue := eng_queue e; eng_ledger_map := eng_ledger_map e;
     eng_peer_ledger := eng_peer_ledger e; eng_score := s;
     eng_max_replace_size := eng_max_replace_size e;
     eng_send_dont_haves := eng_send_dont_haves e; eng_filter := eng_filter e |}.

(** The part of [decision::Config] that the model keeps. *)
Record EngineConfig := {
  ec_filter : option (PeerId → Cid → bool);
  ec_send_dont_haves : bool;
  ec_target_message_size : Z;
  ec_max_outstanding_bytes_per_peer : Z;
  ec_max_replace_size : Z
}.
Definition EngineConfig_default : EngineConfig :=
  {| ec_filter := None; ec_send_dont_haves := true; ec_target_message_size := 16 * 1024;
     ec_max_outstanding_bytes_per_peer := Z.shiftl 1 20; ec_max_replace_size := 1024 |}.

Definition Engine_new (config : EngineConfig) : Engine :=
  {| eng_queue := ptq_add_hook (PeerTaskQueue_new
       {| cfg_ignore_freezing := true;
          cfg_max_outstanding_work_per_peer := ec_max_outstanding_bytes_per_peer config |});
     eng_ledger_map := ∅; eng_peer_ledger := pl_default; eng_score := ∅;
     eng_max_replace_size := ec_max_replace_size config;
     eng_send_dont_haves := ec_send_dont_haves config; eng_filter := ec_filter config |}.

Definition send_as_block (want_type : WantType) (block_size : Z) (e : Engine) : bool :=
  bool_decide (want_type = WantType_Block) || (block_size <=? eng_max_replace_size e).

(** [find_or_create] *)
Definition find_or_create (peer : PeerId) (e : Engine) : Engine * Ledger :=
  let l := default (Ledger_new peer) (eng_ledger_map e !! peer) in
  (eng_with_ledgers (<[peer := l]> (eng_ledger_map e)) e, l).

Definition wantlist_for_peer (peer : PeerId) (e : Engine) : Engine * list WlEntry :=
  let '(e, l) := find_or_create peer e in
  let '(w, entries) := wl_entries (ledger_wantlist l) in
  (eng_with_ledgers (<[peer := ledger_with w l]> (eng_ledger_map e)) e, entries).

(** [split_wants]: wants, cancels and denials, in the order of the message. *)
Definition split_wants (peer : PeerId) (entries : list Entry) (e : Engine) :
    list Entry * list Entry * list Entry :=
  foldl (λ '(wants, cancels, denials) entry,
    if entry_cancel entry then (wants, cancels ++ [entry], denials)
    else match eng_filter e with
         | Some f =>
             if f peer (entry_cid entry) then (wants ++ [entry], cancels, denials)
             else (wants, cancels, denials ++ [entry])
         | None => (wants ++ [entry], cancels, denials)
         end) ([], [], []) entries.

(** The closure [send_dont_have] of [message_received]. *)
Definition dont_have_task (e : Engine) (entry : Entry) : list (Task Cid TaskData) :=
  if eng_send_dont_haves e && entry_send_dont_have entry then
    [ {| task_topic := entry_cid entry; task_priority := entry_priority entry;
         task_work := encoded_len_for_cid (entry_cid entry);
         task_data := {| td_block_size := 0; td_have_block := false;
                         td_is_want_block := bool_decide (entry_want_type entry = WantType_Block);
                         td_send_dont_have := entry_send_dont_have entry |} |} ]
  else [].

(** The task for a want whose block was found. *)
Definition have_task (cid : Cid) (priority : Z) (want_type : WantType) (send_dont_have : bool)
    (block_size : Z) (e : Engine) : Task Cid TaskData :=
  let is_want_block := send_as_block want_type block_size e in
  {| task_topic := cid; task_priority := priority;
     task_work := if is_want_block then block_size else encoded_len_for_cid cid;
     task_data := {| td_is_want_block := is_want_block; td_send_dont_have := send_dont_have;
                     td_block_size := block_size; td_have_block := true |} |}.

(** The three phases of [message_received]: reading the block sizes, updating
    the peer ledger, updating the ledger of the peer and the queue. *)
Definition mr_block_sizes (wants : list Entry) : gmap Cid Z :=
  get_block_sizes (hs_iter (list_to_set (entry_cid <$> wants))).

Definition mr_peer_ledger (peer : PeerId) (wants cancels : list Entry) (e : Engine) : Engine :=
  let pl := foldl (λ pl w, pl_wants peer (entry_cid w) pl) (eng_peer_ledger e) wants in
  eng_with_peer_ledger (foldl (λ pl c, pl_cancel_want peer (entry_cid c) pl) pl cancels) e.

Definition mr_cancel (peer : PeerId) (st : Ledger * PeerTaskQueue Cid TaskData) (entry : Entry) :
    Ledger * PeerTaskQueue Cid TaskData :=
  let '(ledger, q) := st in
  let '(ledger, removed) := ledger_cancel_want (entry_cid entry) ledger in
  (ledger, match removed with Some _ => ptq_remove (entry_cid entry) peer q | None => q end).

Definition mr_want (block_sizes : gmap Cid Z) (e : Engine)
    (st : Ledger * list (Task Cid TaskData)) (entry : Entry) : Ledger * list (Task Cid TaskData) :=
  let '(ledger, active_entries) := st in
  let cid := entry_cid entry in
  let ledger := ledger_wants cid (entry_priority entry) (entry_want_type entry) ledger in
  (ledger, active_entries ++
    match block_sizes !! cid with
    | Some block_size =>
        [have_task cid (entry_priority entry) (entry_want_type entry) (entry_send_dont_have entry)
           block_size e]
    | None => dont_have_task e entry
    end).

Definition mr_ledger (now : Z) (peer : PeerId) (full : bool) (wants cancels denials : list Entry)
    (block_sizes : gmap Cid Z) (e : Engine) : Engine :=
  let '(e, ledger) := find_or_create peer e in
  let ledger := if full then ledger_clear_wantlist ledger else ledger in
  let '(ledger, q) := foldl (mr_cancel peer) (ledger, eng_queue e) cancels in
  let active_entries := denials ≫= dont_have_task e in
  let '(ledger, active_entries) := foldl (mr_want block_sizes e) (ledger, active_entries) wants in
  let q := if decide (active_entries = []) then q else ptq_push_tasks now peer active_entries q in
  eng_with_queue q (eng_with_ledgers (<[peer := ledger]> (eng_ledger_map e)) e).

Definition message_received (now : Z) (peer : PeerId) (m : BitswapMessage) (e : Engine) : Engine :=
  let '(wants, cancels, denials) := split_wants peer (message_wantlist m) e in
  let block_sizes := mr_block_sizes wants in
  let e := mr_peer_ledger peer wants cancels e in
  mr_ledger now peer (msg_full m) wants cancels denials block_sizes e.

(** [message_sent] *)
Definition message_sent (now : Z) (peer : PeerId) (m : BitswapMessage) (e : Engine) : Engine :=
  let '(e, ledger) := find_or_create peer e in
  let '(score, ledger) :=
    foldl (λ '(score, ledger) block,
      (score_add_sent now (ledger_partner ledger) (Z.of_nat (length (block_data block))) score,
       ledger_with (wl_remove_type (block_cid block) WantType_Block (ledger_wantlist ledger)).1
         ledger)) (eng_score e, ledger) (message_blocks m) in
  let ledger :=
    foldl (λ ledger bp,
      if decide (bp_typ bp = Presence_Have)
      then ledger_with (wl_remove_type (bp_cid bp) WantType_Have (ledger_wantlist ledger)).1 ledger
      else ledger) ledger (message_block_presences m) in
  eng_with_score score (eng_with_ledgers (<[peer := ledger]> (eng_ledger_map e)) e).

(** [received_blocks] *)
Definition received_blocks (now : Z) (from : PeerId) (blocks : list Block) (e : Engine) : Engine :=
  match blocks with
  | [] => e
  | _ =>
      let '(e, ledger) := find_or_create from e in
      eng_with_score
        (foldl (λ score block,
           score_add_recv now (ledger_partner ledger) (Z.of_nat (length (block_data block))) score)
           (eng_score e) blocks) e
  end.

(** The first loop of [notify_new_blocks]: tasks for the peers that want the
    block, and the wants that the ledgers no longer know. *)
Definition nb_peer (now : Z) (block_sizes : gmap Cid Z) (cid : Cid)
    (st : Engine * gmap PeerId (list Cid)) (peer : PeerId) : Engine * gmap PeerId (list Cid) :=
  let '(e, missing) := st in
  let add_missing := <[peer := default [] (missing !! peer) ++ [cid]]> missing in
  match eng_ledger_map e !! peer with
  | None => (e, add_missing)
  | Some ledger =>
      match ledger_wantlist_get cid ledger with
      | None => (e, add_missing)
      | Some entry =>
          let block_size := default 0 (block_sizes !! cid) in
          let task := have_task (wl_cid entry) (wl_priority entry) (wl_want_type entry) false
                        block_size e in
          (eng_with_queue (ptq_push_task now peer task (eng_queue e)) e, missing)
      end
  end.

Definition nb_block (now : Z) (block_sizes : gmap Cid Z) (st : Engine * gmap PeerId (list Cid))
    (block : Block) : Engine * gmap PeerId (list Cid) :=
  let cid := block_cid block in
  match pl_peers cid (eng_peer_ledger st.1) with
  | None => st
  | Some peers => foldl (nb_peer now block_sizes cid) st (hs_iter peers)
  end.

(** The second loop: dropping the missing wants from the peer ledger. *)
Definition nb_missing (ledger_map : gmap PeerId Ledger) (pl : PeerLedger)
    (pw : PeerId * list Cid) : PeerLedger :=
  let '(peer, wants) := pw in
  foldl (λ pl cid,
    match ledger_map !! peer with
    | Some ledger =>
        match ledger_wantlist_get cid ledger with
        | Some _ => pl
        | None => pl_cancel_want peer cid pl
        end
    | None => pl_cancel_want peer cid pl
    end) pl wants.

Definition notify_new_blocks (now : Z) (blocks : list Block) (e : Engine) : Engine :=
  match blocks with
  | [] => e
  | _ =>
      let block_sizes :=
        hm_collect ((λ b, (block_cid b, Z.of_nat (length (block_data b)))) <$> blocks) in
      let '(e, missing) := foldl (nb_block now block_sizes) (e, ∅) blocks in
      eng_with_peer_ledger
        (foldl (nb_missing (eng_ledger_map e)) (eng_peer_ledger e) (hm_iter missing)) e
  end.

Definition peer_connected (now : Z) (peer : PeerId) (e : Engine) : Engine :=
  let '(e, _) := find_or_create peer e in
  eng_with_score (score_peer_connected now peer (eng_score e)) e.

Definition peer_disconnected (peer : PeerId) (e : Engine) : Engine :=
  let e :=
    match eng_ledger_map e !! peer with
    | Some ledger =>
        let wants := (wl_entries (ledger_wantlist ledger)).2 in
        eng_with_peer_ledger
          (foldl (λ pl want, pl_cancel_want peer (wl_cid want) pl) (eng_peer_ledger e) wants)
          (eng_with_ledgers (delete peer (eng_ledger_map e)) e)
    | None => e
    end in
  eng_with_score (score_peer_disconnected peer (eng_score e)) e.

(** ** Envelopes *)

Record Envelope := {
  env_peer : PeerId;
  env_message : BitswapMessage;
  env_sent_tasks : list (Task Cid TaskData)
}.

(** The message for a list of popped tasks. *)
Definition split_task (st : BitswapMessage * list Cid * gmap Cid (Task Cid TaskData))
    (task : Task Cid TaskData) : BitswapMessage * list Cid * gmap Cid (Task Cid TaskData) :=
  let '(msg, block_cids, block_tasks) := st in
  if td_have_block (task_data task) then
    if td_is_want_block (task_data task)
    then (msg, block_cids ++ [task_topic task], <[task_topic task := task]> block_tasks)
    else (add_have (task_topic task) msg, block_cids, block_tasks)
  else (add_dont_have (task_topic task) msg, block_cids, block_tasks).

Definition add_block_task (blocks : gmap Cid Block) (msg : BitswapMessage)
    (ct : Cid * Task Cid TaskData) : BitswapMessage :=
  let '(cid, task) := ct in
  match blocks !! cid with
  | Some block => add_block block msg
  | None => if td_send_dont_have (task_data task) then add_dont_have cid msg else msg
  end.

Definition tasks_message (pending_bytes : Z) (tasks : list (Task Cid TaskData)) : BitswapMessage :=
  let msg := set_pending_bytes (Int.as_i32 pending_bytes) (message_new false) in
  let '(msg, block_cids, block_tasks) := foldl split_task (msg, [], ∅) tasks in
  foldl (add_block_task (get_blocks block_cids)) msg (hm_iter block_tasks).

(** One tick of an engine worker. *)
Definition engine_tick (target_message_size : Z) (e : Engine) :
    res Error (Engine * option Envelope) :=
  match ptq_pop_tasks target_message_size (eng_queue e) with
  | (q, None) => Ok (eng_with_queue q e, None)
  | (q, Some (peer, next_tasks, pending_bytes)) =>
      let e := eng_with_queue q e in
      if decide (next_tasks = []) then Ok (e, None)
      else
        let msg := tasks_message pending_bytes next_tasks in
        if message_is_empty msg then
          q ← ptq_tasks_done peer next_tasks q;
          Ok (eng_with_queue q e, None)
        else
          Ok (e, Some {| env_peer := peer; env_message := msg; env_sent_tasks := next_tasks |})
  end.

(** A server worker that takes an envelope from the outbox: [message_sent] and
    [send_blocks]; a failure to send is only logged. *)
Definition send_envelope (now : Z) (env : Envelope) (e : Engine) : res Error Engine :=
  let e := message_sent now (env_peer env) (env_message env) e in
  q ← ptq_tasks_done (env_peer env) (env_sent_tasks env) (eng_queue e);
  Ok (eng_with_queue q e).
End engine.
