(* ===== verification/EngineFacts.v ===== *)
(** * Correctness of the decision engine

    Theorems on [Engine]: the reverse index from CIDs to peers covers every
    ledger, new blocks reach every peer that waits for them, requests denied by
    the filter are never served, what an envelope contains, and what a sent
    message removes from a ledger. *)

From stdpp Require Import prelude gmap fin_maps sorting.
From Stdlib Require Import ZArith Lia.
From S2P Require Import Prelude Cids Message Wantlist PriorityQueue TaskQueue TaskQueueFacts Engine.
Local Open Scope Z_scope.

(** The documented behaviour of the store and of the generated protobuf code
    that the engine relies on. *)
Class ServerLaws `{Store} `{Prost} : Prop := {
  store_size_nonneg c n : store_get_size c = Some n → 0 ≤ n;
  store_get_cid c b : store_get c = Some b → block_cid b = c;
  presence_len_nonneg p : 0 ≤ pb_presence_encoded_len p
}.

Lemma hm_collect_snoc {K V} `{Countable K} (l : list (K * V)) k v :
  hm_collect (l ++ [(k, v)]) = <[k:=v]> (hm_collect l).
Proof. unfold hm_collect. by rewrite foldl_app. Qed.

Lemma hm_collect_elem {K V} `{Countable K} (l : list (K * V)) k v :
  hm_collect l !! k = Some v → (k, v) ∈ l.
Proof.
  induction l as [|[k' v'] l IH] using rev_ind; [done|].
  rewrite hm_collect_snoc, lookup_insert, elem_of_app, list_elem_of_singleton.
  case_decide; [intros [= ->]; subst; by right|intros; left; auto].
Qed.

Lemma hm_collect_omap {K V} `{Countable K} (f : K → option V) (l : list K) k v :
  hm_collect (omap (λ x, pair x <$> f x) l) !! k = Some v ↔ k ∈ l ∧ f k = Some v.
Proof.
  induction l as [|k' l IH] using rev_ind; [by split; [|intros [?%not_elem_of_nil _]]|].
  rewrite omap_app, elem_of_app, list_elem_of_singleton. simpl.
  destruct (f k') as [v'|] eqn:E; simpl.
  - rewrite hm_collect_snoc, lookup_insert. case_decide; naive_solver.
  - rewrite app_nil_r. naive_solver.
Qed.

Section engine_facts.
Context `{ServerLaws} `{HashOrder} `{PriorityQueue}.

(** ** The reverse index *)

Definition interested (pl : PeerLedger) (p : PeerId) (c : Cid) : Prop := p ∈ default ∅ (pl_cids pl !! c).

Lemma interested_wants peer cid pl p c :
  interested (pl_wants peer cid pl) p c ↔ (p = peer ∧ c = cid) ∨ interested pl p c.
Proof.
  unfold interested, pl_wants. simpl. rewrite lookup_insert. case_decide; simpl; [subst; set_solver|].
  naive_solver.
Qed.

Lemma interested_cancel peer cid pl p c :
  interested (pl_cancel_want peer cid pl) p c ↔ ¬ (p = peer ∧ c = cid) ∧ interested pl p c.
Proof.
  unfold interested, pl_cancel_want. destruct (pl_cids pl !! cid) eqn:E; simpl.
  - rewrite lookup_insert. case_decide; simpl; [subst; rewrite E; simpl; set_solver|naive_solver].
  - split; [|by intros []]. intros Hp. split; [|done]. intros [-> ->]. rewrite E in Hp. set_solver.
Qed.

Lemma interested_wants_fold peer cids pl p c :
  interested (foldl (λ pl c, pl_wants peer c pl) pl cids) p c ↔
  (p = peer ∧ c ∈ cids) ∨ interested pl p c.
Proof.
  revert pl. induction cids as [|x cids IH]; intros pl; simpl; [set_solver|].
  rewrite IH, interested_wants. set_solver.
Qed.

Lemma interested_cancel_fold peer cids pl p c :
  interested (foldl (λ pl c, pl_cancel_want peer c pl) pl cids) p c ↔
  ¬ (p = peer ∧ c ∈ cids) ∧ interested pl p c.
Proof.
  revert pl. induction cids as [|x cids IH]; intros pl; simpl; [set_solver|].
  rewrite IH, interested_cancel. set_solver.
Qed.

Lemma foldl_fmap {A B C} (f : A → B → A) (g : C → B) a l :
  foldl f a (g <$> l) = foldl (λ a c, f a (g c)) a l.
Proof. revert a. induction l; intros; simpl; auto. Qed.

Lemma mr_peer_ledger_interested peer wants cancels e p c :
  interested (eng_peer_ledger (mr_peer_ledger peer wants cancels e)) p c ↔
  ¬ (p = peer ∧ c ∈ entry_cid <$> cancels) ∧
  ((p = peer ∧ c ∈ entry_cid <$> wants) ∨ interested (eng_peer_ledger e) p c).
Proof.
  unfold mr_peer_ledger. simpl.
  rewrite <-(foldl_fmap (λ pl c, pl_wants peer c pl) entry_cid).
  rewrite <-(foldl_fmap (λ pl c, pl_cancel_want peer c pl) entry_cid).
  by rewrite interested_cancel_fold, interested_wants_fold.
Qed.

(** ** The invariant *)

Definition allowed (f : option (PeerId → Cid → bool)) (p : PeerId) (c : Cid) : bool :=
  match f with Some f => f p c | None => true end.

(** Tasks that report a block are only queued for allowed requests. *)
Definition task_allowed (f : option (PeerId → Cid → bool)) (p : PeerId) (t : Task Cid TaskData) :
    Prop :=
  td_have_block (task_data t) = true → allowed f p (task_topic t) = true.

Definition wants_in (m : gmap PeerId Ledger) (p : PeerId) (c : Cid) (entry : WlEntry) : Prop :=
  ∃ l, m !! p = Some l ∧ ledger_wantlist_get c l = Some entry.

(** The queue is well formed, never freezes a peer, and reports blocks only to
    peers that may have them. *)
Record queue_ok (f : option (PeerId → Cid → bool)) (q : PeerTaskQueue Cid TaskData) : Prop := {
  qo_wf : ptq_wf q;
  qo_never_frozen : never_frozen q;
  qo_tasks : ptq_all (task_allowed f) q
}.

(** A ledger of a peer holds only wants that the filter allows it. *)
Definition ledger_ok (f : option (PeerId → Cid → bool)) (p : PeerId) (l : Ledger) : Prop :=
  ledger_partner l = p ∧ wl_wf (ledger_wantlist l) ∧
  ∀ c en, ledger_wantlist_get c l = Some en → allowed f p c = true.

Record engine_wf (e : Engine) : Prop := {
  ew_ledgers p l : eng_ledger_map e !! p = Some l → ledger_ok (eng_filter e) p l;
  ew_queue : queue_ok (eng_filter e) (eng_queue e)
}.

(** Every want of a ledger is in the reverse index. *)
Definition indexed (e : Engine) : Prop :=
  ∀ p c en, wants_in (eng_ledger_map e) p c en → interested (eng_peer_ledger e) p c.

Lemma task_allowed_closed f p : merge_closed (task_allowed f p).
Proof.
  split; [done|]. intros a b Ha Hb Ht. unfold task_allowed.
  destruct (server_merge_have a b) as [-> ->].
  intros [?|?]%orb_true_iff; [by apply Hb|]. rewrite <-Ht. by apply Ha.
Qed.

Lemma queue_ok_remove f topic peer q : queue_ok f q → queue_ok f (ptq_remove topic peer q).
Proof.
  intros [Hwf Hn Ht]. split; [|by apply never_frozen_remove|apply ptq_all_remove; exact Ht].
  apply ptq_remove_wf; [done|]. intros pt Hpt.
  rewrite (never_frozen_val _ _ _ Hwf Hn Hpt). by vm_compute.
Qed.

Lemma queue_ok_push f now peer tasks q :
  queue_ok f q → Forall task_ok tasks → Forall (task_allowed f peer) tasks →
  queue_ok f (ptq_push_tasks now peer tasks q).
Proof.
  intros [Hwf Hn Ht] Hok Ha. split; [by apply ptq_push_tasks_wf|by apply never_frozen_push|].
  apply ptq_all_push; [intros; apply task_allowed_closed|done..].
Qed.

Lemma queue_ok_pop f target q q' p out w :
  queue_ok f q → ptq_pop_tasks target q = (q', Some (p, out, w)) →
  queue_ok f q' ∧ Forall (task_allowed f p) out.
Proof.
  intros [Hwf Hn Ht] Hpop. destruct (ptq_all_pop _ _ _ _ _ _ _ Ht Hpop) as [Ht' Hout].
  split; [|done]. pose proof (ptq_pop_tasks_wf target q Hwf) as Hwf'.
  pose proof (never_frozen_pop target q Hn) as Hn'. rewrite Hpop in Hwf', Hn'. by split.
Qed.

Lemma queue_ok_done f peer tasks q q' :
  queue_ok f q → (∀ pt, trackers q !! peer = Some pt → active_total pt < 2 ^ 64) →
  ptq_tasks_done peer tasks q = Ok q' → queue_ok f q'.
Proof.
  intros [Hwf Hn Ht] Hb Hd. destruct (ptq_tasks_done_ok peer tasks q Hwf Hb) as (q1 & Hd1 & ? & _).
  rewrite Hd in Hd1. injection Hd1 as <-.
  split; [done|by eapply never_frozen_done|exact (ptq_all_done _ _ _ _ _ Hwf Hb Ht Hd)].
Qed.

(** ** Receiving a message *)

Lemma split_wants_spec peer entries e :
  split_wants peer entries e =
  (filter (λ x, entry_cancel x = false ∧ allowed (eng_filter e) peer (entry_cid x) = true) entries,
   filter (λ x, entry_cancel x = true) entries,
   filter (λ x, entry_cancel x = false ∧ allowed (eng_filter e) peer (entry_cid x) = false) entries).
Proof.
  induction entries as [|x entries IH] using rev_ind; [done|].
  unfold split_wants in *. rewrite foldl_app, IH, !filter_app, !filter_cons, !filter_nil.
  unfold allowed. simpl.
  destruct (entry_cancel x) eqn:Ec, (eng_filter e) as [g|]; try destruct (g peer (entry_cid x)) eqn:Eg;
    simpl; rewrite ?app_nil_r; repeat case_decide; naive_solver.
Qed.

Lemma wl_add_get c p t w c' en :
  wl_get c' (wl_add c p t w).1 = Some en → c' = c ∨ wl_get c' w = Some en.
Proof.
  unfold wl_add, wl_get. destruct (wl_set w !! c); [case_decide|]; simpl; [by right|..];
    (rewrite lookup_insert; case_decide; [by left|by right]).
Qed.

Lemma ledger_cancel_fold_ok f peer cancels l q l' q' :
  foldl (mr_cancel peer) (l, q) cancels = (l', q') →
  ledger_partner l = peer → wl_wf (ledger_wantlist l) → queue_ok f q →
  ledger_partner l' = peer ∧ wl_wf (ledger_wantlist l') ∧ queue_ok f q' ∧
  ∀ c en, ledger_wantlist_get c l' = Some en →
    ledger_wantlist_get c l = Some en ∧ c ∉ entry_cid <$> cancels.
Proof.
  revert l q. induction cancels as [|x cancels IH]; intros l q Hf Hp Hw Hq; simpl in Hf.
  { simplify_eq. split_and!; [done..|]. intros c en Hc. split; [done|]. set_solver. }
  apply IH in Hf as (Hp' & Hw' & Hq' & Hl'); [|done|by apply wl_remove_wf|by case_match; [apply queue_ok_remove|]].
  split_and!; [done..|]. intros c en [Hc Hn]%Hl'.
  unfold ledger_wantlist_get, wl_get in Hc. simpl in Hc.
  apply lookup_delete_Some in Hc as [Hne Hc]. split; [done|]. simpl. set_solver.
Qed.

Lemma dont_have_task_ok f peer e x :
  Forall task_ok (dont_have_task e x) ∧ Forall (task_allowed f peer) (dont_have_task e x).
Proof.
  unfold dont_have_task. case_match; [|by split].
  split; repeat constructor; simpl; [apply presence_len_nonneg|lia|done].
Qed.

Lemma have_task_ok f peer c p t s n e :
  0 ≤ n → allowed f peer c = true →
  task_ok (have_task c p t s n e) ∧ task_allowed f peer (have_task c p t s n e).
Proof.
  intros Hn Ha. split; [split; simpl; [case_match; [done|apply presence_len_nonneg]|done]|].
  by intros _.
Qed.

Lemma mr_want_fold_ok f peer sizes e wants l tasks l' tasks' :
  foldl (mr_want sizes e) (l, tasks) wants = (l', tasks') →
  (∀ c n, sizes !! c = Some n → 0 ≤ n) →
  Forall (λ x, allowed f peer (entry_cid x) = true) wants →
  ledger_partner l = peer → wl_wf (ledger_wantlist l) →
  Forall task_ok tasks → Forall (task_allowed f peer) tasks →
  ledger_partner l' = peer ∧ wl_wf (ledger_wantlist l') ∧
  Forall task_ok tasks' ∧ Forall (task_allowed f peer) tasks' ∧
  ∀ c en, ledger_wantlist_get c l' = Some en →
    ledger_wantlist_get c l = Some en ∨ c ∈ entry_cid <$> wants.
Proof.
  intros Hf Hs Hall. revert l tasks Hf.
  induction Hall as [|x wants Hx Hall IH]; intros l tasks Hf Hp Hw Hok Ha; simpl in Hf.
  { simplify_eq. split_and!; auto. }
  apply IH in Hf as (Hp' & Hw' & Hok' & Ha' & Hl'); [|done|by apply wl_add_wf|..].
  - split_and!; [done..|]. intros c en [Hc|Hc]%Hl'; [|set_solver].
    apply wl_add_get in Hc as [->|Hc]; [set_solver|]. by left.
  - apply Forall_app. split; [done|].
    case_match; [constructor; [|done]; by eapply have_task_ok; eauto|apply dont_have_task_ok; done].
  - apply Forall_app. split; [done|].
    case_match; [constructor; [|done]; by eapply have_task_ok; eauto|apply dont_have_task_ok; done].
Qed.

Lemma block_sizes_nonneg wants c n : mr_block_sizes wants !! c = Some n → 0 ≤ n.
Proof. unfold mr_block_sizes, get_block_sizes. rewrite hm_collect_omap. intros [_ ?]. by eapply store_size_nonneg. Qed.

Lemma message_wantlist_unique m a b :
  message_wf m → a ∈ message_wantlist m → b ∈ message_wantlist m → entry_cid a = entry_cid b →
  a = b.
Proof.
  intros Hm (ca & Ha)%elem_of_hm_values (cb & Hb)%elem_of_hm_values Heq.
  pose proof (wf_wantlist _ Hm _ _ Ha). pose proof (wf_wantlist _ Hm _ _ Hb). congruence.
Qed.

Lemma Ledger_new_ok f peer : ledger_ok f peer (Ledger_new peer).
Proof.
  split_and!; [done|apply wl_default_wf|]. intros c en. unfold ledger_wantlist_get, wl_get. simpl. by rewrite lookup_empty.
Qed.

(** The ledger of a peer, whether it exists or is created *)
Lemma found_ok e peer : engine_wf e → ledger_ok (eng_filter e) peer (find_or_create peer e).2.
Proof.
  intros He. simpl. destruct (eng_ledger_map e !! peer) as [l|] eqn:E; [|apply Ledger_new_ok]. by apply (ew_ledgers _ He).
Qed.

Lemma found_wants e peer c en :
  ledger_wantlist_get c (find_or_create peer e).2 = Some en ↔ wants_in (eng_ledger_map e) peer c en.
Proof.
  unfold wants_in. simpl. destruct (eng_ledger_map e !! peer) as [l|]; simpl; [naive_solver|].
  split; [|naive_solver]. unfold ledger_wantlist_get, wl_get. simpl. by rewrite lookup_empty.
Qed.

(** A region of a handler that holds the ledger of a peer: it keeps the invariant, the
    index and the ledgers of the others. *)
Record region_ok (peer : PeerId) (e e' : Engine) : Prop := {
  ro_wf : engine_wf e';
  ro_filter : eng_filter e' = eng_filter e;
  ro_index : eng_peer_ledger e' = eng_peer_ledger e;
  ro_others p : p ≠ peer → eng_ledger_map e' !! p = eng_ledger_map e !! p
}.

Lemma region_insert e e' peer l :
  engine_wf e → ledger_ok (eng_filter e) peer l → queue_ok (eng_filter e) (eng_queue e') →
  eng_ledger_map e' = <[peer := l]> (eng_ledger_map e) → eng_peer_ledger e' = eng_peer_ledger e →
  eng_filter e' = eng_filter e → region_ok peer e e'.
Proof.
  intros [Hl Hq] Hn Hq' Em Epl Ef. split; [split; rewrite Ef; [|done]|done|done|].
  - intros p l'. rewrite Em, lookup_insert. case_decide; [intros [= <-]; by subst|apply Hl].
  - intros p Hp. by rewrite Em, lookup_insert_ne.
Qed.

(** The effect of the second phase of [message_received] on the wants of the sender *)
Lemma mr_ledger_ok now peer full wants cancels denials sizes e :
  (∀ c n, sizes !! c = Some n → 0 ≤ n) →
  Forall (λ x, allowed (eng_filter e) peer (entry_cid x) = true) wants →
  engine_wf e →
  let e' := mr_ledger now peer full wants cancels denials sizes e in
  region_ok peer e e' ∧
  ∀ c en, wants_in (eng_ledger_map e') peer c en →
    c ∈ entry_cid <$> wants ∨ (c ∉ entry_cid <$> cancels) ∧ wants_in (eng_ledger_map e) peer c en.
Proof.
  intros Hs Hall He. pose proof (found_ok e peer He) as (Hp & Hw & Ha). pose proof (found_wants e peer) as Hin.
  cbv zeta. unfold mr_ledger. destruct (find_or_create peer e) as [e2 l] eqn:E2. simpl in Hp, Hw, Ha, Hin.
  assert (eng_filter e2 = eng_filter e ∧ eng_queue e2 = eng_queue e ∧
    eng_peer_ledger e2 = eng_peer_ledger e ∧
    ∃ l0, eng_ledger_map e2 = <[peer := l0]> (eng_ledger_map e)) as (Ef & Eq & Epl & l0 & Em)
    by (unfold find_or_create in E2; simplify_eq; by eauto).
  set (l1 := if full then ledger_clear_wantlist l else l).
  assert (ledger_partner l1 = peer ∧ wl_wf (ledger_wantlist l1) ∧
    ∀ c en, ledger_wantlist_get c l1 = Some en → ledger_wantlist_get c l = Some en) as (Hp1 & Hw1 & Hin1).
  { unfold l1. destruct full; [|done]. split_and!; [done|apply wl_default_wf|].
    intros c en. unfold ledger_wantlist_get, wl_get. simpl. by rewrite lookup_empty. }
  rewrite Eq. destruct (foldl (mr_cancel peer) (l1, eng_queue e) cancels) as [l2 q2] eqn:Ec.
  apply (ledger_cancel_fold_ok (eng_filter e)) in Ec as (Hp2 & Hw2 & Hq2 & Hin2); [|done|done|apply He].
  destruct (foldl (mr_want sizes e2) _ wants) as [l3 tasks] eqn:Ew.
  apply (mr_want_fold_ok (eng_filter e) peer) in Ew as (Hp3 & Hw3 & Hok & Hta & Hin3);
    [|done|done|done|done|..].
  2,3: apply Forall_bind, Forall_true; intros x; apply (dont_have_task_ok (eng_filter e) peer e2 x).
  split.
  - eapply (region_insert e _ peer l3); [done| | |by simpl; rewrite Em, insert_insert_eq|done|done].
    + split_and!; [done..|]. intros c en [Hc|Hc]%Hin3; [by apply Hin2 in Hc as [Hc%Hin1%Ha _]|].
      apply list_elem_of_fmap in Hc as (x & -> & Hx). by eapply Forall_forall in Hall.
    + simpl. case_decide; [done|]. by apply queue_ok_push.
  - intros c en (l' & Hl' & Hc). simpl in Hl'. rewrite lookup_insert_eq in Hl'. injection Hl' as <-.
    apply Hin3 in Hc as [Hc|Hc]; [|by left]. right. apply Hin2 in Hc as [Hc%Hin1 Hn]. split; [done|]. by apply Hin.
Qed.

Lemma mr_peer_ledger_wf peer wants cancels e : engine_wf e → engine_wf (mr_peer_ledger peer wants cancels e).
Proof. by intros [??]. Qed.

(** What [split_wants] promises of the entries of a message *)
Lemma split_wants_ok peer m e wants cancels denials :
  message_wf m → split_wants peer (message_wantlist m) e = (wants, cancels, denials) →
  Forall (λ x, allowed (eng_filter e) peer (entry_cid x) = true) wants ∧
  ∀ c, c ∈ entry_cid <$> wants → c ∉ entry_cid <$> cancels.
Proof.
  intros Hm. rewrite split_wants_spec. intros [= <- <- _]. split.
  - apply Forall_forall. intros x Hx. apply list_elem_of_filter in Hx. tauto.
  - intros c (a & -> & Ha)%list_elem_of_fmap (b & Hb1 & Hb)%list_elem_of_fmap.
    apply list_elem_of_filter in Ha as [[Ha _] Ha2]. apply list_elem_of_filter in Hb as [Hb Hb2].
    pose proof (message_wantlist_unique m a b Hm Ha2 Hb2 Hb1). congruence.
Qed.

Lemma message_received_filter now peer m e : eng_filter (message_received now peer m e) = eng_filter e.
Proof.
  unfold message_received. destruct (split_wants _ _ _) as [[wants cancels] denials].
  unfold mr_ledger, find_or_create. simpl. destruct (foldl (mr_cancel peer) _ _) as [l q].
  by destruct (foldl (mr_want _ _) _ _).
Qed.

Lemma message_received_ok now peer m e :
  message_wf m → engine_wf e →
  engine_wf (message_received now peer m e) ∧ eng_filter (message_received now peer m e) = eng_filter e ∧
  (indexed e → indexed (message_received now peer m e)).
Proof.
  intros Hm He. unfold message_received.
  destruct (split_wants peer (message_wantlist m) e) as [[wants cancels] denials] eqn:Es.
  apply split_wants_ok in Es as [Hall Hdis]; [|done].
  destruct (mr_ledger_ok now peer (msg_full m) wants cancels denials (mr_block_sizes wants)
    (mr_peer_ledger peer wants cancels e)) as [[Hwf Hf Hi Ho] Hin];
    [apply block_sizes_nonneg|done|by apply mr_peer_ledger_wf|].
  split_and!; [done|done|]. intros Hx p c en Hw. rewrite Hi. apply mr_peer_ledger_interested.
  destruct (decide (p = peer)) as [->|Hp].
  - apply Hin in Hw as [Hw|[Hn Hw]]; [split; [intros [_ ?]; by eapply Hdis|by left]|].
    split; [naive_solver|]. right. by eapply Hx.
  - split; [naive_solver|]. right. destruct Hw as (l & Hl & Hc). rewrite Ho in Hl by done. eapply Hx. by exists l.
Qed.

(** ** Sending a message *)

Definition wl_shrinks (w w' : Wantlist) : Prop :=
  wl_wf w' ∧ ∀ c en, wl_get c w' = Some en → wl_get c w = Some en.

Lemma wl_remove_type_shrinks c t w w' :
  wl_shrinks w w' → wl_shrinks w (wl_remove_type c t w').1.
Proof.
  intros [Hw Hs]. split; [by apply wl_remove_type_wf|]. intros c' en.
  unfold wl_remove_type, wl_get. case_match; [|apply Hs]. case_decide; [apply Hs|]. simpl.
  rewrite lookup_delete_Some. intros [_ ?]. by apply Hs.
Qed.

(** A region that only takes wants out of the ledger *)
Record shrinks (peer : PeerId) (e e' : Engine) : Prop := {
  sh_region : region_ok peer e e';
  sh_queue : eng_queue e' = eng_queue e;
  sh_wants c en : wants_in (eng_ledger_map e') peer c en → wants_in (eng_ledger_map e) peer c en
}.

Lemma engine_wf_shrink e e' peer l' :
  engine_wf e → ledger_partner l' = peer →
  wl_shrinks (ledger_wantlist (find_or_create peer e).2) (ledger_wantlist l') →
  eng_ledger_map e' = <[peer := l']> (eng_ledger_map e) → eng_peer_ledger e' = eng_peer_ledger e →
  eng_filter e' = eng_filter e → eng_queue e' = eng_queue e → shrinks peer e e'.
Proof.
  intros He Hp [Hw Hs] Em Epl Ef Eq. pose proof (found_ok e peer He) as (_ & _ & Ha). split; [|done|].
  - eapply region_insert; [done| |rewrite Eq; apply He|done..]. split_and!; [done..|]. intros c en Hc. by eapply Ha, Hs.
  - intros c en (l & Hl & Hc). rewrite Em, lookup_insert_eq in Hl. injection Hl as <-. by apply found_wants, Hs.
Qed.

Lemma shrinks_indexed peer e e' : shrinks peer e e' → indexed e → indexed e'.
Proof.
  intros [[_ _ Hi Ho] _ Hw] Hx p c en Hp. rewrite Hi. destruct (decide (p = peer)) as [->|Hne]; [by eapply Hx, Hw|].
  destruct Hp as (l & Hl & Hc). rewrite Ho in Hl by done. eapply Hx. by exists l.
Qed.

Lemma wl_shrinks_found e peer :
  engine_wf e → wl_shrinks (ledger_wantlist (find_or_create peer e).2)
    (ledger_wantlist (find_or_create peer e).2).
Proof. intros He. split; [|done]. by apply found_ok. Qed.

Lemma found_partner e peer : engine_wf e → ledger_partner (find_or_create peer e).2 = peer.
Proof. intros He. by apply found_ok. Qed.

Lemma message_sent_shrinks now peer m e : engine_wf e → shrinks peer e (message_sent now peer m e).
Proof.
  intros He. unfold message_sent.
  pose proof (wl_shrinks_found e peer He) as Hsh. pose proof (found_partner e peer He) as Hp.
  destruct (find_or_create peer e) as [e1 l] eqn:E1. simpl in Hsh, Hp.
  destruct (foldl _ (eng_score e1, l) (message_blocks m)) as [score l1] eqn:E2.
  assert (ledger_partner l1 = peer ∧ wl_shrinks (ledger_wantlist l) (ledger_wantlist l1))
    as [Hp1 Hs1].
  { change l1 with (score, l1).2. rewrite <-E2.
    apply (foldl_invariant (λ sl : _ * Ledger, ledger_partner sl.2 = peer ∧
      wl_shrinks (ledger_wantlist l) (ledger_wantlist sl.2))); [|done].
    intros [sc l2] b _ [? ?]. simpl. split; [done|]. by apply wl_remove_type_shrinks. }
  set (l2 := foldl _ l1 (message_block_presences m)).
  assert (ledger_partner l2 = peer ∧ wl_shrinks (ledger_wantlist l) (ledger_wantlist l2))
    as [Hp2 Hs2].
  { unfold l2. apply (foldl_invariant (λ l3, ledger_partner l3 = peer ∧
      wl_shrinks (ledger_wantlist l) (ledger_wantlist l3))); [|done].
    intros l3 bp _ [? ?]. case_decide; [|done]. split; [done|]. by apply wl_remove_type_shrinks. }
  eapply (engine_wf_shrink e _ peer l2); [done|done|by rewrite E1|..];
    unfold find_or_create in E1; simplify_eq; simpl; [|done..].
  by rewrite insert_insert_eq.
Qed.

Lemma find_or_create_shrinks peer e : engine_wf e → shrinks peer e (find_or_create peer e).1.
Proof.
  intros He. eapply (engine_wf_shrink e _ peer (find_or_create peer e).2); try done.
  - by apply found_partner.
  - by apply wl_shrinks_found.
Qed.

Lemma with_score_wf sc e : engine_wf e → engine_wf (eng_with_score sc e).
Proof. by intros [??]. Qed.

Lemma with_score_shrinks peer sc e e' : shrinks peer e e' → shrinks peer e (eng_with_score sc e').
Proof. intros [[Hw ? ? ?] ? ?]. split; [split; [by apply with_score_wf|done..]|done|done]. Qed.

Lemma shrinks_refl peer e : engine_wf e → shrinks peer e e.
Proof. by split; [split|..]. Qed.

Lemma received_blocks_shrinks now from blocks e :
  engine_wf e → shrinks from e (received_blocks now from blocks e).
Proof.
  intros He. unfold received_blocks. case_match; [by apply shrinks_refl|].
  apply with_score_shrinks. by apply (find_or_create_shrinks from) in He.
Qed.

Lemma peer_connected_shrinks now peer e : engine_wf e → shrinks peer e (peer_connected now peer e).
Proof. intros He. apply with_score_shrinks. by apply (find_or_create_shrinks peer) in He. Qed.

(** The index after a disconnection: the wants of the ledger that goes are taken out *)
Lemma peer_disconnected_ok peer e :
  engine_wf e → let e' := peer_disconnected peer e in
  engine_wf e' ∧ eng_filter e' = eng_filter e ∧ eng_ledger_map e' = delete peer (eng_ledger_map e) ∧
  ∀ p c, p ≠ peer → interested (eng_peer_ledger e') p c ↔ interested (eng_peer_ledger e) p c.
Proof.
  intros [Hl Hq]. cbv zeta. unfold peer_disconnected. destruct (eng_ledger_map e !! peer) as [l|] eqn:E; simpl.
  - split_and!; [split; simpl; [|done]|done|done|].
    + intros p l' [_ ?]%lookup_delete_Some. by apply Hl.
    + intros p c Hp. rewrite <-(foldl_fmap (λ pl c, pl_cancel_want peer c pl) wl_cid), interested_cancel_fold. naive_solver.
  - by rewrite delete_id.
Qed.

Lemma peer_disconnected_indexed peer e : engine_wf e → indexed e → indexed (peer_disconnected peer e).
Proof.
  intros He Hx p c en (l & Hl & Hc). destruct (peer_disconnected_ok peer e He) as (_ & _ & Em & Hi).
  rewrite Em in Hl. apply lookup_delete_Some in Hl as [Hne Hl]. apply Hi; [done|]. eapply Hx. by exists l.
Qed.

(** ** New blocks *)

Definition only_queue (e e' : Engine) : Prop :=
  eng_ledger_map e' = eng_ledger_map e ∧ eng_peer_ledger e' = eng_peer_ledger e ∧
  eng_filter e' = eng_filter e ∧ eng_max_replace_size e' = eng_max_replace_size e.

Lemma nb_peer_ok now sizes cid e missing peer :
  (∀ c n, sizes !! c = Some n → 0 ≤ n) → engine_wf e →
  only_queue e (nb_peer now sizes cid (e, missing) peer).1 ∧ engine_wf (nb_peer now sizes cid (e, missing) peer).1.
Proof.
  intros Hs He. unfold nb_peer. destruct (eng_ledger_map e !! peer) as [l|] eqn:E; [|done].
  destruct (ledger_wantlist_get cid l) as [en|] eqn:Een; [|done]. split; [done|].
  destruct (ew_ledgers _ He _ _ E) as (_ & Hw & Ha).
  assert (wl_cid en = cid) as -> by (by eapply (wl_wf_set _ Hw)).
  destruct (have_task_ok (eng_filter e) peer cid (wl_priority en) (wl_want_type en) false
    (default 0 (sizes !! cid)) e) as [Hok Hal].
  { destruct (sizes !! cid) eqn:Es; [by eapply Hs|simpl; lia]. }
  { by eapply Ha. }
  split; simpl; [apply He|]. by apply queue_ok_push; [apply He|constructor|constructor].
Qed.

Lemma nb_blocks_ok now sizes blocks e st :
  (∀ c n, sizes !! c = Some n → 0 ≤ n) → only_queue e st.1 ∧ engine_wf st.1 →
  only_queue e (foldl (nb_block now sizes) st blocks).1 ∧ engine_wf (foldl (nb_block now sizes) st blocks).1.
Proof.
  intros Hs. apply (foldl_invariant (λ st, only_queue e st.1 ∧ engine_wf st.1)).
  intros st' b _ Hst. unfold nb_block. case_match; [|done].
  apply (foldl_invariant (λ st, only_queue e st.1 ∧ engine_wf st.1)); [|done].
  intros [e1 m1] p _ [(E1 & E2 & E3 & E4) Hw1]. cbn [fst] in *.
  destruct (nb_peer_ok now sizes (block_cid b) e1 m1 p Hs Hw1) as [(F1 & F2 & F3 & F4) ?].
  split; [|done]. repeat split; congruence.
Qed.

Lemma nb_missing_keeps m pl pw p c en :
  wants_in m p c en → interested pl p c → interested (nb_missing m pl pw) p c.
Proof.
  intros (l & Hl & Hc). destruct pw as [peer wants]. simpl.
  apply (foldl_invariant (λ pl, interested pl p c)). intros pl' c' _ Hi.
  destruct (m !! peer) as [l'|] eqn:El; [destruct (ledger_wantlist_get c' l') eqn:Ec; [done|]|];
    apply interested_cancel; (split; [|done]); naive_solver.
Qed.

Lemma block_sizes_of_nonneg (blocks : list Block) c n :
  hm_collect ((λ b, (block_cid b, Z.of_nat (length (block_data b)))) <$> blocks) !! c = Some n →
  0 ≤ n.
Proof. intros (b & [= -> ->] & _)%hm_collect_elem%list_elem_of_fmap. lia. Qed.

Lemma with_index_wf pl e : engine_wf e → engine_wf (eng_with_peer_ledger pl e).
Proof. by intros [??]. Qed.

Lemma notify_new_blocks_ok now blocks e :
  engine_wf e →
  engine_wf (notify_new_blocks now blocks e) ∧ eng_filter (notify_new_blocks now blocks e) = eng_filter e ∧
  (indexed e → indexed (notify_new_blocks now blocks e)).
Proof.
  intros He. unfold notify_new_blocks. destruct blocks as [|b blocks]; [done|].
  set (sizes := hm_collect _).
  destruct (nb_blocks_ok now sizes (b :: blocks) e (e, ∅)) as [(Em & Epl & Ef & _) Hwf];
    [apply block_sizes_of_nonneg|done|].
  destruct (foldl _ _ _) as [e1 missing]. simpl in *.
  split_and!; [by apply with_index_wf|done|]. intros Hx p c en Hc. simpl in *. rewrite Em in *. rewrite Epl.
  apply (foldl_invariant (λ pl, interested pl p c)); [|by eapply Hx].
  intros pl pw _. by eapply nb_missing_keeps.
Qed.

(** ** Envelopes *)

(** What a message says about a CID. *)
Definition answer (m : BitswapMessage) (c : Cid) : option Block * option BlockPresenceType :=
  (msg_blocks m !! c, msg_block_presences m !! c).

(** The answer that a task calls for. *)
Definition reply (t : Task Cid TaskData) : option Block * option BlockPresenceType :=
  if td_have_block (task_data t) then
    if td_is_want_block (task_data t) then
      match store_get (task_topic t) with
      | Some b => (Some b, None)
      | None => (None, if td_send_dont_have (task_data t) then Some Presence_DontHave else None)
      end
    else (None, Some Presence_Have)
  else (None, Some Presence_DontHave).

Definition is_block_task (t : Task Cid TaskData) : bool :=
  td_have_block (task_data t) && td_is_want_block (task_data t).

Lemma split_tasks_spec m0 tasks m cids bt :
  (∀ c, answer m0 c = (None, None)) → NoDup (task_topic <$> tasks) →
  foldl split_task (m0, [], ∅) tasks = (m, cids, bt) →
  (∀ c, msg_blocks m !! c = None) ∧
  (∀ c, c ∉ task_topic <$> tasks → answer m c = (None, None) ∧ bt !! c = None) ∧
  (∀ t, t ∈ tasks → if is_block_task t
     then answer m (task_topic t) = (None, None) ∧ bt !! task_topic t = Some t ∧ task_topic t ∈ cids
     else answer m (task_topic t) = reply t ∧ bt !! task_topic t = None).
Proof.
  intros Hm0. revert m cids bt.
  induction tasks as [|t tasks IH] using rev_ind; intros m cids bt Hnd Hf.
  { simpl in Hf. simplify_eq. split_and!; [intros c; by specialize (Hm0 c) as [= ??]|done|].
    intros t Ht. by apply not_elem_of_nil in Ht. }
  rewrite fmap_app in Hnd. apply NoDup_app in Hnd as (Hnd & Hx & _).
  rewrite foldl_app in Hf. destruct (foldl split_task (m0, [], ∅) tasks) as [[m1 cids1] bt1].
  destruct (IH _ _ _ Hnd eq_refl) as (Hb & Hout & Hin). clear IH.
  assert (task_topic t ∉ task_topic <$> tasks) as Hnt by (intros Hin'; eapply Hx; [done|simpl; left]).
  destruct (Hout _ Hnt) as [Ha Hbt]. unfold answer in Ha. injection Ha as Hab Hap.
  assert (∀ t', t' ∈ tasks → task_topic t' ≠ task_topic t) as Hne.
  { intros t' Ht' Heq. apply Hnt. rewrite <-Heq. by apply list_elem_of_fmap_2. }
  unfold reply, is_block_task, answer in *. simpl in Hf.
  destruct (td_have_block (task_data t)) eqn:Eh; [destruct (td_is_want_block (task_data t)) eqn:Ew|];
    unfold add_have, add_dont_have, add_block_presence in Hf; rewrite ?Hab in Hf; simplify_eq/=;
    (split_and!; [done| |]).
  all: try (intros c Hc; rewrite fmap_app, not_elem_of_app in Hc; destruct Hc as [Hc Hct];
    simpl in Hct; rewrite list_elem_of_singleton in Hct; rewrite !lookup_insert_ne by done;
    by apply Hout).
  all: intros t' [Ht'|Ht'%list_elem_of_singleton]%elem_of_app;
    [rewrite ?lookup_insert_ne by (intros Heq; by eapply Hne)|subst t'; rewrite ?Eh, ?Ew; simpl].
  all: try (rewrite Hab, ?Hap, ?lookup_insert_eq; split_and!; (done || set_solver)).
  all: specialize (Hin _ Ht'); destruct (_ && _); [|done]; destruct Hin as (? & ? & ?);
    split_and!; (done || set_solver).
Qed.

Lemma add_block_task_answer cids m k t c :
  task_topic t = k → is_block_task t = true → k ∈ cids → answer m k = (None, None) →
  answer (add_block_task (get_blocks cids) m (k, t)) c
  = if decide (c = k) then reply t else answer m c.
Proof.
  intros <- Hb Hk Ha. apply andb_true_iff in Hb as [Hh Hw]. unfold reply, answer in *.
  injection Ha as Ha1 Ha2. rewrite Hh, Hw. simpl.
  assert (get_blocks cids !! task_topic t = store_get (task_topic t)) as ->.
  { unfold get_blocks. apply option_eq. intros b. rewrite hm_collect_omap. tauto. }
  destruct (store_get (task_topic t)) as [b|] eqn:E; simpl.
  - rewrite (store_get_cid _ _ E), lookup_insert, lookup_delete.
    repeat case_decide; congruence.
  - destruct (td_send_dont_have (task_data t)); unfold add_dont_have, add_block_presence;
      rewrite ?Ha1; simpl; rewrite ?lookup_insert; repeat case_decide; congruence.
Qed.

Lemma add_block_tasks_answer cids l m c :
  NoDup l.*1 →
  (∀ k t, (k, t) ∈ l → task_topic t = k ∧ is_block_task t = true ∧ k ∈ cids) →
  (∀ k, k ∈ l.*1 → answer m k = (None, None)) →
  answer (foldl (add_block_task (get_blocks cids)) m l) c
  = match (list_to_map l : gmap Cid (Task Cid TaskData)) !! c with
    | Some t => reply t
    | None => answer m c
    end.
Proof.
  revert m. induction l as [|[k t] l IH]; intros m Hnd Hl Hm; simpl; [done|].
  simpl in Hnd. rewrite NoDup_cons in Hnd. destruct Hnd as [Hk Hnd].
  destruct (Hl k t) as (Ht & Hb & Hc); [left|].
  assert (answer m k = (None, None)) as Ha by (apply Hm; left).
  pose proof (λ c, add_block_task_answer cids m k t c Ht Hb Hc Ha) as Hstep. simpl in Hstep.
  rewrite IH; [|done|intros; apply Hl; by right|].
  - rewrite lookup_insert, Hstep. destruct (decide (k = c)) as [->|Hne].
    + by rewrite not_elem_of_list_to_map_1, decide_True.
    + by rewrite decide_False.
  - intros k' Hk'. rewrite Hstep, decide_False by (intros ->; done). apply Hm. by right.
Qed.

Lemma tasks_message_answers pb tasks :
  NoDup (task_topic <$> tasks) →
  (∀ t, t ∈ tasks → answer (tasks_message pb tasks) (task_topic t) = reply t) ∧
  (∀ c, c ∉ task_topic <$> tasks → answer (tasks_message pb tasks) c = (None, None)).
Proof.
  intros Hnd. unfold tasks_message.
  destruct (foldl split_task _ tasks) as [[m cids] bt] eqn:Ef.
  apply split_tasks_spec in Ef as (Hb & Hout & Hin); [|done|done].
  assert (∀ k t, bt !! k = Some t →
    task_topic t = k ∧ is_block_task t = true ∧ k ∈ cids ∧ answer m k = (None, None)) as Hbt.
  { intros k t Hk. destruct (decide (k ∈ task_topic <$> tasks)) as [Hd|Hd].
    - apply list_elem_of_fmap in Hd as (t' & -> & Ht'). specialize (Hin _ Ht').
      destruct (is_block_task t') eqn:E; [|naive_solver].
      destruct Hin as (? & ? & ?). simplify_eq. done.
    - apply Hout in Hd as [_ ?]. congruence. }
  assert (∀ c, answer (foldl (add_block_task (get_blocks cids)) m (hm_iter bt)) c
    = match bt !! c with Some t => reply t | None => answer m c end) as Hans.
  { intros c. rewrite add_block_tasks_answer; [by rewrite list_to_map_hm_iter|..].
    - apply NoDup_hm_keys.
    - intros k t (? & ? & ? & _)%elem_of_hm_iter%Hbt. done.
    - intros k ([k' t] & -> & Hkt)%list_elem_of_fmap. by apply elem_of_hm_iter, Hbt in Hkt as (_&_&_&?). }
  split; intros x Hx; rewrite Hans.
  - specialize (Hin _ Hx). destruct (is_block_task x); [by destruct Hin as (_ & -> & _)|].
    by destruct Hin as [? ->].
  - by destruct (Hout _ Hx) as [? ->].
Qed.

(** ** Reachable engines *)

Definition work_bounded (q : PeerTaskQueue Cid TaskData) : Prop :=
  ∀ p pt, trackers q !! p = Some pt → active_total pt < 2 ^ 64.

(** The calls made by the network and by the workers. *)
Inductive engine_step : Engine → Engine → Prop :=
  | es_message_received now peer m e :
      message_wf m → engine_step e (message_received now peer m e)
  | es_received_blocks now from blocks e : engine_step e (received_blocks now from blocks e)
  | es_notify now blocks e : engine_step e (notify_new_blocks now blocks e)
  | es_connected now peer e : engine_step e (peer_connected now peer e)
  | es_disconnected peer e : engine_step e (peer_disconnected peer e)
  | es_wantlist peer e : engine_step e (wantlist_for_peer peer e).1
  | es_tick size e e' env :
      work_bounded (ptq_pop_tasks size (eng_queue e)).1 →
      engine_tick size e = Ok (e', env) → engine_step e e'
  | es_send now env e e' :
      work_bounded (eng_queue e) → send_envelope now env e = Ok e' → engine_step e e'.

Lemma with_queue_wf q e : engine_wf e → queue_ok (eng_filter e) q → engine_wf (eng_with_queue q e).
Proof. by intros [??]. Qed.

Lemma engine_tick_ok size e :
  engine_wf e → work_bounded (ptq_pop_tasks size (eng_queue e)).1 →
  ∃ e' env, engine_tick size e = Ok (e', env) ∧ engine_wf e' ∧ eng_filter e' = eng_filter e ∧
    match env with
    | None => True
    | Some v => ∃ w, (ptq_pop_tasks size (eng_queue e)).2 = Some (env_peer v, env_sent_tasks v, w) ∧
        env_message v = tasks_message w (env_sent_tasks v)
    end.
Proof.
  intros He Hb. unfold engine_tick. pose proof (ew_queue _ He) as Hq.
  destruct (ptq_pop_tasks size (eng_queue e)) as [q [[[p out] w]|]] eqn:Hpop; simpl in Hb.
  2:{ eexists _, None. split_and!; [done| |done|done]. apply with_queue_wf; [done|].
      revert Hpop. unfold ptq_pop_tasks. destruct (kpq_pop _) as [[[]]|]; [|by intros [= <-]].
      by destruct (pt_pop_tasks _ _). }
  destruct (queue_ok_pop _ _ _ _ _ _ _ Hq Hpop) as [Hq1 _].
  pose proof (with_queue_wf q e He Hq1) as He1.
  case_decide; [by eexists _, None|]. case_match.
  - destruct (ptq_tasks_done_ok p out q (qo_wf _ _ Hq1) (Hb p)) as (q2 & Hd & _).
    rewrite Hd. simpl. eexists _, None. split_and!; [done| |done|done].
    apply (with_queue_wf q2 (eng_with_queue q e)); [done|]. by eapply queue_ok_done; [|apply (Hb p)|].
  - eexists _, (Some _). split_and!; [done|done|done|]. simpl. eauto.
Qed.

Lemma send_envelope_ok now env e :
  engine_wf e → work_bounded (eng_queue e) →
  ∃ e', send_envelope now env e = Ok e' ∧ engine_wf e' ∧ eng_filter e' = eng_filter e.
Proof.
  intros He Hb. unfold send_envelope.
  destruct (message_sent_shrinks now (env_peer env) (env_message env) e He) as [[He1 _ _ _] _ _].
  assert (eng_queue (message_sent now (env_peer env) (env_message env) e) = eng_queue e ∧
    eng_filter (message_sent now (env_peer env) (env_message env) e) = eng_filter e) as [Eq Ef].
  { unfold message_sent, find_or_create. by destruct (foldl _ _ (message_blocks _)). }
  destruct (ptq_tasks_done_ok (env_peer env) (env_sent_tasks env) (eng_queue e)
    (qo_wf _ _ (ew_queue _ He)) (Hb _)) as (q2 & Hd & _).
  rewrite Eq, Hd. simpl. eexists. split_and!; [done| |done].
  apply with_queue_wf; [done|]. rewrite Ef. eapply queue_ok_done; [apply He|apply (Hb _)|exact Hd].
Qed.

Lemma Engine_new_wf config : engine_wf (Engine_new config).
Proof.
  split; [|split]; simpl.
  - intros p l. by rewrite lookup_empty.
  - by destruct (PeerTaskQueue_new_wf (T:=Cid) (D:=TaskData) {| cfg_ignore_freezing := true;
      cfg_max_outstanding_work_per_peer := ec_max_outstanding_bytes_per_peer config |}).
  - done.
  - apply (ptq_all_new _ {| cfg_ignore_freezing := true;
      cfg_max_outstanding_work_per_peer := ec_max_outstanding_bytes_per_peer config |}).
Qed.

Lemma wantlist_for_peer_shrinks peer e : engine_wf e → shrinks peer e (wantlist_for_peer peer e).1.
Proof.
  intros He. unfold wantlist_for_peer.
  destruct (wl_shrinks_found e peer He) as [Hw _]. pose proof (found_partner e peer He) as Hp.
  destruct (find_or_create peer e) as [e1 l] eqn:E1. simpl in Hw, Hp.
  destruct (wl_entries_spec _ Hw) as (Hw1 & Hset & _). destruct (wl_entries (ledger_wantlist l)) as [w en].
  assert (wl_shrinks (ledger_wantlist (find_or_create peer e).2) w) as Hs.
  { rewrite E1. split; [done|]. simpl in *. unfold wl_get. by rewrite Hset. }
  eapply (engine_wf_shrink e _ peer (ledger_with w l)); [done|done|exact Hs|..];
    unfold find_or_create in E1; simplify_eq; simpl; [|done..].
  by rewrite insert_insert_eq.
Qed.

Lemma shrinks_step peer e e' :
  shrinks peer e e' → engine_wf e' ∧ eng_filter e' = eng_filter e ∧ (indexed e → indexed e').
Proof. intros Hs. split_and!; [apply Hs..|]. by eapply shrinks_indexed. Qed.

Lemma engine_tick_frame size e e' env :
  engine_tick size e = Ok (e', env) → eng_ledger_map e' = eng_ledger_map e ∧ eng_peer_ledger e' = eng_peer_ledger e.
Proof.
  unfold engine_tick. destruct (ptq_pop_tasks size (eng_queue e)) as [q [[[p out] w]|]]; [|by intros [= <- _]].
  case_decide; [by intros [= <- _]|]. case_match; [|by intros [= <- _]].
  destruct (ptq_tasks_done _ _ _); [|done..]. by intros [= <- _].
Qed.

Lemma engine_step_wf e e' :
  engine_step e e' → engine_wf e → engine_wf e' ∧ eng_filter e' = eng_filter e ∧ (indexed e → indexed e').
Proof.
  intros [| | | |peer e0|peer e0|size e0 e1 env Hb Ht|now env e0 e1 Hb Hs] He.
  - by apply message_received_ok.
  - by eapply shrinks_step, received_blocks_shrinks.
  - by apply notify_new_blocks_ok.
  - by eapply shrinks_step, peer_connected_shrinks.
  - destruct (peer_disconnected_ok peer e0 He) as (? & ? & _). split_and!; [done..|]. by apply peer_disconnected_indexed.
  - by eapply shrinks_step, wantlist_for_peer_shrinks.
  - destruct (engine_tick_ok size e0 He Hb) as (e2 & v & Ht2 & ? & ? & _). rewrite Ht in Ht2. injection Ht2 as -> ->.
    apply engine_tick_frame in Ht as [Em Ei]. split_and!; [done..|]. unfold indexed. by rewrite Em, Ei.
  - destruct (send_envelope_ok now env e0 He Hb) as (e2 & Hs2 & ? & ?).
    rewrite Hs in Hs2. injection Hs2 as ->. split_and!; [done..|]. intros Hx.
    eapply shrinks_indexed in Hx; [|by apply (message_sent_shrinks now (env_peer env) (env_message env))].
    revert Hs. unfold send_envelope. destruct (ptq_tasks_done _ _ _); [|done..]. by intros [= <-].
Qed.

Lemma engine_reachable config e :
  rtc engine_step (Engine_new config) e → engine_wf e ∧ eng_filter e = ec_filter config ∧ indexed e.
Proof.
  assert (engine_wf (Engine_new config) ∧ eng_filter (Engine_new config) = ec_filter config ∧ indexed (Engine_new config))
    as Hnew by (split_and!; [apply Engine_new_wf|done|]; intros p c en (l & Hl & _); cbn in Hl; by rewrite lookup_empty in Hl).
  revert Hnew. generalize (Engine_new config). intros e0 Hnew Hr.
  induction Hr as [|e1 e2 e3 Hs _ IH]; [done|]. apply IH.
  destruct Hnew as (He & Hf & Hx). apply engine_step_wf in Hs as (? & Hf2 & Hx2); [|done].
  split_and!; [done|congruence|auto].
Qed.

(** C27: a tick of a worker never panics, and an envelope answers exactly the tasks
    it was made for: the block for a want-block that the store still has, HAVE
    for a want-have, DONT_HAVE for a missing block that the peer asked to be
    told about, and nothing else. *)
Theorem engine_tick_answers config size e :
  rtc engine_step (Engine_new config) e →
  work_bounded (ptq_pop_tasks size (eng_queue e)).1 →
  ∃ e' env, engine_tick size e = Ok (e', env) ∧
    ∀ v, env = Some v →
      (∀ t, t ∈ env_sent_tasks v → answer (env_message v) (task_topic t) = reply t) ∧
      (∀ c, c ∉ task_topic <$> env_sent_tasks v → answer (env_message v) c = (None, None)).
Proof.
  intros (He & _ & _)%engine_reachable Hb.
  destruct (engine_tick_ok size e He Hb) as (e' & env & Ht & _ & _ & Hv).
  exists e', env. split; [done|]. intros v ->. destruct Hv as (w & Hpop & ->).
  apply tasks_message_answers. destruct (ptq_pop_tasks size (eng_queue e)) as [q r] eqn:E.
  simpl in Hpop. subst r. eapply ptq_pop_topics; [apply (qo_wf _ _ (ew_queue _ He))|exact E].
Qed.

(** C5: the request filter is respected: no envelope to a peer contains a block,
    or a HAVE, for a CID that the filter denies to that peer, whatever messages,
    connections and new blocks led to the current state. *)
Theorem denied_never_served config size e e' v c :
  rtc engine_step (Engine_new config) e →
  work_bounded (ptq_pop_tasks size (eng_queue e)).1 →
  engine_tick size e = Ok (e', Some v) →
  allowed (ec_filter config) (env_peer v) c = false →
  msg_blocks (env_message v) !! c = None ∧
  msg_block_presences (env_message v) !! c ≠ Some Presence_Have.
Proof.
  intros (He & Hf & _)%engine_reachable Hb Ht Hd.
  destruct (engine_tick_ok size e He Hb) as (e1 & env & Ht1 & _ & _ & Hv).
  rewrite Ht in Ht1. injection Ht1 as <- <-. destruct Hv as (w & Hpop & Hm).
  destruct (ptq_pop_tasks size (eng_queue e)) as [q r] eqn:E. simpl in Hpop. subst r.
  pose proof (ptq_pop_topics _ _ _ _ _ _ (qo_wf _ _ (ew_queue _ He)) E) as Hnd.
  destruct (queue_ok_pop _ _ _ _ _ _ _ (ew_queue _ He) E) as [_ Hall].
  destruct (tasks_message_answers w _ Hnd) as [Hin Hout]. rewrite <-Hm in Hin, Hout.
  destruct (decide (c ∈ task_topic <$> env_sent_tasks v)) as [Hc|Hc].
  - apply list_elem_of_fmap in Hc as (t & -> & Htin). specialize (Hin _ Htin).
    rewrite Forall_forall in Hall. specialize (Hall _ Htin). unfold task_allowed in Hall.
    rewrite Hf, Hd in Hall. unfold reply in Hin.
    destruct (td_have_block (task_data t)); [by specialize (Hall eq_refl)|].
    unfold answer in Hin. by injection Hin as -> ->.
  - specialize (Hout _ Hc). unfold answer in Hout. by injection Hout as -> ->.
Qed.

(** ** Waiting peers *)

(** A task that reports the block is pending or active. *)
Definition pt_served (pt : PeerTracker Cid TaskData) (c : Cid) : Prop :=
  (∃ q, kpq_contents (pt_pending_tasks pt) !! c = Some q ∧
        td_have_block (task_data (qt_task q)) = true) ∨
  (∃ a, a ∈ default [] (pt_active_tasks pt !! c) ∧ td_have_block (task_data a) = true).
Definition served (q : PeerTaskQueue Cid TaskData) (p : PeerId) (c : Cid) : Prop :=
  ∃ pt, trackers q !! p = Some pt ∧ pt_served pt c.

Lemma pushed_have now (pt : PeerTracker Cid TaskData) task :
  td_have_block (task_data (qt_task (pushed now pt task)))
  = td_have_block (task_data task) ||
    match kpq_contents (pt_pending_tasks pt) !! task_topic task with
    | Some q => td_have_block (task_data (qt_task q))
    | None => false
    end.
Proof.
  unfold pushed. destruct (kpq_contents _ !! _) as [q|]; simpl.
  - etrans; [apply server_merge_have|]. simpl. by rewrite orb_comm.
  - by rewrite orb_false_r.
Qed.

Lemma pt_push_task_active now (pt : PeerTracker Cid TaskData) task :
  pt_active_tasks (pt_push_task now pt task) = pt_active_tasks pt.
Proof. unfold pt_push_task. by repeat case_match. Qed.

Lemma pt_push_task_serves now (pt : PeerTracker Cid TaskData) task :
  td_have_block (task_data task) = true → pt_served (pt_push_task now pt task) (task_topic task).
Proof.
  intros Hh. destruct (task_has_more_info_than_active_tasks task pt) eqn:Hi.
  - left. rewrite pt_push_task_eq, lookup_insert_eq by done. eexists. split; [done|].
    by rewrite pushed_have, Hh.
  - right. rewrite pt_push_task_active. revert Hi. unfold task_has_more_info_than_active_tasks.
    destruct (pt_active_tasks pt !! task_topic task) as [l|] eqn:E; [|done].
    case_decide; [done|]. simpl. unfold server_has_new_info. rewrite has_new_info_fold, Hh. simpl.
    case_match; [done|]. rewrite andb_true_r. 
    destruct (existsb (td_have_block ∘ task_data) l) eqn:Ex; simpl; [intros _|intros [=]].
    apply existsb_exists in Ex as (a & Ha & ?). exists a. split; [by apply list_elem_of_In|done].
Qed.

Lemma pt_push_task_keeps now (pt : PeerTracker Cid TaskData) task c :
  pt_served pt c → pt_served (pt_push_task now pt task) c.
Proof.
  intros [(q & Hq & Hh)|Ha]; [|right; by rewrite pt_push_task_active].
  destruct (task_has_more_info_than_active_tasks task pt) eqn:Hi.
  - left. rewrite pt_push_task_eq, lookup_insert by done. case_decide; [|eauto].
    eexists. split; [done|]. subst c. by rewrite pushed_have, Hq, Hh, orb_true_r.
  - unfold pt_push_task. rewrite Hi. left. eauto.
Qed.

Lemma push_task_keeps now peer task q p c :
  served q p c → served (ptq_push_task now peer task q) p c.
Proof.
  intros (pt & Hpt & Hs). unfold served, ptq_push_task. rewrite ptq_push_tasks_trackers, lookup_insert.
  case_decide; [|by exists pt]. subst. eexists. split; [done|]. rewrite Hpt. simpl.
  by apply pt_push_task_keeps.
Qed.

Lemma push_task_serves now peer task q :
  td_have_block (task_data task) = true →
  served (ptq_push_task now peer task q) peer (task_topic task).
Proof.
  intros Hh. unfold served, ptq_push_task. rewrite ptq_push_tasks_trackers, lookup_insert_eq.
  eexists. split; [done|]. by apply pt_push_task_serves.
Qed.

Lemma nb_peer_keeps now sizes cid st peer p c :
  served (eng_queue st.1) p c → served (eng_queue (nb_peer now sizes cid st peer).1) p c.
Proof.
  destruct st as [e m]. simpl. intros Hs. repeat case_match; [|done..]. by apply push_task_keeps.
Qed.

Lemma nb_block_keeps now sizes st b p c :
  served (eng_queue st.1) p c → served (eng_queue (nb_block now sizes st b).1) p c.
Proof.
  intros Hs. unfold nb_block. case_match; [|done].
  apply (foldl_invariant (λ st, served (eng_queue st.1) p c)); [|done].
  intros. by apply nb_peer_keeps.
Qed.

(** The turn of a peer whose ledger wants the block *)
Lemma nb_peer_serves now sizes e missing p c en :
  engine_wf e → wants_in (eng_ledger_map e) p c en →
  served (eng_queue (nb_peer now sizes c (e, missing) p).1) p c.
Proof.
  intros He (l & Hl & Hc). unfold nb_peer. rewrite Hl, Hc. cbn [fst eng_queue eng_with_queue].
  assert (wl_cid en = c) as <- by (by eapply (wl_wf_set (ledger_wantlist l)); [apply (ew_ledgers _ He _ _ Hl)|]).
  by apply (push_task_serves now p (have_task _ _ _ _ _ e)).
Qed.

Lemma nb_block_serves now sizes e st b p en :
  engine_wf st.1 → only_queue e st.1 → (∀ c n, sizes !! c = Some n → 0 ≤ n) →
  wants_in (eng_ledger_map e) p (block_cid b) en → interested (eng_peer_ledger e) p (block_cid b) →
  served (eng_queue (nb_block now sizes st b).1) p (block_cid b).
Proof.
  intros Hwf Honly Hs Hw Hi. unfold nb_block, pl_peers. rewrite (proj1 (proj2 Honly)). unfold interested in Hi.
  destruct (pl_cids (eng_peer_ledger e) !! block_cid b) as [peers|]; simpl in Hi; [|set_solver].
  apply elem_of_hs_iter in Hi. revert st Hwf Honly. induction (hs_iter peers) as [|x l IH]; [set_solver|].
  intros [e1 m] Hwf Honly. cbn [foldl fst] in *. destruct (decide (p = x)) as [<-|Hne].
  - apply (foldl_invariant (λ st, served (eng_queue st.1) p (block_cid b))); [intros; by apply nb_peer_keeps|].
    eapply nb_peer_serves; [done|]. by rewrite (proj1 Honly).
  - destruct (nb_peer_ok now sizes (block_cid b) e1 m x Hs Hwf) as [(F1 & F2 & F3 & F4) ?].
    destruct Honly as (E1 & E2 & E3 & E4). apply IH; [set_solver|done|]. repeat split; congruence.
Qed.

(** An announcement that runs without interruption *)
Lemma notify_serves now blocks e p c en :
  engine_wf e → c ∈ block_cid <$> blocks → wants_in (eng_ledger_map e) p c en →
  interested (eng_peer_ledger e) p c → served (eng_queue (notify_new_blocks now blocks e)) p c.
Proof.
  intros He (b & -> & Hb)%list_elem_of_fmap Hw Hi.
  apply list_elem_of_split in Hb as (pre & post & Hsplit).
  unfold notify_new_blocks. set (sizes := hm_collect _).
  assert (∀ c n, sizes !! c = Some n → 0 ≤ n) as Hs by apply block_sizes_of_nonneg.
  assert (served (eng_queue (foldl (nb_block now sizes) (e, ∅) blocks).1) p (block_cid b)) as Hserved.
  { rewrite Hsplit, foldl_app. simpl.
    apply (foldl_invariant (λ st, served (eng_queue st.1) p (block_cid b))); [intros; by apply nb_block_keeps|].
    destruct (nb_blocks_ok now sizes pre e (e, ∅) Hs) as [Honly Hwf]; [done|]. by eapply nb_block_serves. }
  destruct blocks as [|b' blocks]; [by destruct pre|].
  by destruct (foldl (nb_block now sizes) _ _) as [e1 missing].
Qed.

(** ** What a sent message removes *)

Lemma wl_remove_type_get c t w c' :
  wl_get c' (wl_remove_type c t w).1
  = match wl_get c' w with
    | Some en => if decide (c' = c ∧ ¬ (wl_want_type en = WantType_Block ∧ t = WantType_Have))
                 then None else Some en
    | None => None
    end.
Proof.
  unfold wl_remove_type, wl_get. destruct (wl_set w !! c) as [en|] eqn:E.
  - case_decide; simpl.
    + destruct (wl_set w !! c') eqn:E'; [|done]. case_decide; naive_solver.
    + rewrite lookup_delete. case_decide; [subst; rewrite E; by rewrite decide_True|].
      destruct (wl_set w !! c'); [|done]. by rewrite decide_False by naive_solver.
  - destruct (wl_set w !! c') eqn:E'; [|done]. simpl. rewrite E'. case_decide; naive_solver.
Qed.

Lemma wl_remove_type_get_some c t w c' en :
  wl_get c' (wl_remove_type c t w).1 = Some en ↔
  wl_get c' w = Some en ∧ (c' = c → wl_want_type en = WantType_Block ∧ t = WantType_Have).
Proof.
  rewrite wl_remove_type_get. destruct (wl_get c' w) as [en'|]; [|naive_solver].
  destruct (decide (wl_want_type en' = WantType_Block ∧ t = WantType_Have)) as [Hd|Hd];
    case_decide; naive_solver.
Qed.

Lemma sent_blocks_fold now blocks sc l sc' l' c en :
  foldl (λ '(score, ledger) block,
      (score_add_sent now (ledger_partner ledger) (Z.of_nat (length (block_data block))) score,
       ledger_with (wl_remove_type (block_cid block) WantType_Block (ledger_wantlist ledger)).1
         ledger)) (sc, l) blocks = (sc', l') →
  ledger_wantlist_get c l' = Some en ↔
  ledger_wantlist_get c l = Some en ∧ c ∉ block_cid <$> blocks.
Proof.
  revert sc l. induction blocks as [|b blocks IH]; intros sc l; simpl foldl.
  { intros [= _ <-]. set_solver. }
  intros Hf%IH. rewrite Hf. unfold ledger_wantlist_get. simpl ledger_wantlist.
  rewrite wl_remove_type_get_some, fmap_cons, not_elem_of_cons. naive_solver.
Qed.

Lemma sent_presences_fold bps l c en :
  ledger_wantlist_get c (foldl (λ ledger bp,
      if decide (bp_typ bp = Presence_Have)
      then ledger_with (wl_remove_type (bp_cid bp) WantType_Have (ledger_wantlist ledger)).1 ledger
      else ledger) l bps) = Some en ↔
  ledger_wantlist_get c l = Some en ∧
  (wl_want_type en = WantType_Have → ∀ bp, bp ∈ bps → bp_typ bp = Presence_Have → bp_cid bp ≠ c).
Proof.
  revert l. induction bps as [|bp bps IH]; intros l; simpl foldl; [set_solver|].
  rewrite IH. setoid_rewrite elem_of_cons. case_decide as Hd; [|naive_solver].
  unfold ledger_wantlist_get. simpl ledger_wantlist. rewrite wl_remove_type_get_some.
  destruct (wl_want_type en) eqn:Et; naive_solver.
Qed.

(** Sending a message settles the wants it answers: afterwards the ledger of
    the peer wants a CID just when it did before, its block was not in the
    message, and it was not a want-have answered with HAVE. *)
Theorem message_sent_settles now peer m e c en :
  message_wf m → engine_wf e →
  wants_in (eng_ledger_map (message_sent now peer m e)) peer c en ↔
  wants_in (eng_ledger_map e) peer c en ∧ msg_blocks m !! c = None ∧
  (wl_want_type en = WantType_Have → msg_block_presences m !! c ≠ Some Presence_Have).
Proof.
  intros Hm He. unfold message_sent, find_or_create.
  set (l := default _ _).
  destruct (foldl _ (_, l) (message_blocks m)) as [sc l1] eqn:E1.
  unfold wants_in at 1. simpl eng_ledger_map. rewrite insert_insert_eq.
  setoid_rewrite lookup_insert_eq.
  assert (wants_in (eng_ledger_map e) peer c en ↔ ledger_wantlist_get c l = Some en) as ->.
  { unfold wants_in, l. destruct (eng_ledger_map e !! peer) as [l0|]; simpl; [naive_solver|].
    split; [naive_solver|]. unfold ledger_wantlist_get, wl_get. simpl. by rewrite lookup_empty. }
  assert (c ∉ block_cid <$> message_blocks m ↔ msg_blocks m !! c = None) as Hb.
  { rewrite list_elem_of_fmap. setoid_rewrite elem_of_hm_values. split.
    - intros Hn. destruct (msg_blocks m !! c) as [b|] eqn:E; [|done]. destruct Hn.
      exists b. split; [symmetry; by eapply (wf_blocks _ Hm)|eauto].
    - intros Hn (b & -> & c' & Hc'). pose proof (wf_blocks _ Hm _ _ Hc'). congruence. }
  assert ((∀ bp, bp ∈ message_block_presences m → bp_typ bp = Presence_Have → bp_cid bp ≠ c) ↔
    msg_block_presences m !! c ≠ Some Presence_Have) as Hp.
  { unfold message_block_presences. setoid_rewrite list_elem_of_fmap. split.
    - intros Hn Hc. eapply (Hn {| bp_cid := c; bp_typ := Presence_Have |}); [|done|done].
      exists (c, Presence_Have). by rewrite elem_of_hm_iter.
    - intros Hn bp ([c' t] & -> & Hc'%elem_of_hm_iter). simpl. naive_solver. }
  rewrite <-Hb, <-Hp. trans (∃ l0, l0 = l1 ∧ ledger_wantlist_get c (foldl (λ ledger bp,
      if decide (bp_typ bp = Presence_Have)
      then ledger_with (wl_remove_type (bp_cid bp) WantType_Have (ledger_wantlist ledger)).1 ledger
      else ledger) l0 (message_block_presences m)) = Some en).
  { split; [intros (? & [= <-] & ?)|intros (? & -> & ?)]; eauto. }
  setoid_rewrite sent_presences_fold. pose proof (sent_blocks_fold _ _ _ _ _ _ c en E1). naive_solver.
Qed.
End engine_facts.

(** ** Witnesses *)

Module EngineWitness.
Import Toy.
Import ScanQueue.
Import MessageWitness.

Definition blk : Block := Block_new [10; 11] [10; 11].

(** A store with one block. *)
Definition store : @Store ids multiformats :=
  {| store_get_size := fun c => if decide (c = ([10; 11] : @Cid ids)) then Some 2 else None;
     store_get := fun c => if decide (c = ([10; 11] : @Cid ids)) then Some blk else None |}.
#[export] Existing Instance store.

#[export] Instance server_laws : ServerLaws.
Proof.
  split; simpl.
  - intros c n. case_decide; naive_solver lia.
  - intros c b. case_decide; naive_solver.
  - intros p. lia.
Qed.

Definition peer : @PeerId ids := 7%nat.
Definition config : EngineConfig :=
  {| ec_filter := Some (λ (_ : @PeerId ids) (c : @Cid ids), negb (bool_decide (c = ([5] : @Cid ids))));
     ec_send_dont_haves := true; ec_target_message_size := 16384;
     ec_max_outstanding_bytes_per_peer := 1048576; ec_max_replace_size := 1024 |}.

Definition request : BitswapMessage :=
  (add_entry [6] 1 WantType_Have true
    (add_entry [5] 2 WantType_Block true
      (add_entry [10; 11] 3 WantType_Block true (message_new false)).1).1).1.

Lemma request_wf : message_wf request.
Proof. repeat apply add_full_entry_wf. apply message_new_wf. Qed.

Definition engine1 : Engine := message_received 1 peer request (Engine_new config).

Lemma engine1_reachable : rtc engine_step (Engine_new config) engine1.
Proof. apply rtc_once. constructor. apply request_wf. Qed.

Lemma engine1_bounded : work_bounded (ptq_pop_tasks 100 (eng_queue engine1)).1.
Proof.
  intros p pt Hpt. apply elem_of_map_to_list in Hpt. vm_compute in Hpt.
  apply list_elem_of_singleton in Hpt. injection Hpt as -> ->. vm_compute. reflexivity.
Qed.

Lemma engine_tick_answers_witness :
  ∃ e' env, engine_tick 100 engine1 = Ok (e', env).
Proof.
  destruct (engine_tick_answers config 100 engine1 engine1_reachable engine1_bounded)
    as (e' & env & Ht & _). exists e', env. exact Ht.
Defined.

Definition ticked : option (Engine * Envelope) :=
  match engine_tick 100 engine1 with Ok (e, Some v) => Some (e, v) | _ => None end.
Definition sent : Envelope :=
  match ticked with
  | Some (_, v) => v
  | None => {| env_peer := peer; env_message := message_new false; env_sent_tasks := [] |}
  end.

Lemma denied_never_served_witness :
  msg_blocks (env_message sent) !! [10; 11] = Some blk ∧
  msg_blocks (env_message sent) !! [5] = None ∧
  msg_block_presences (env_message sent) !! [5] ≠ Some Presence_Have.
Proof.
  split; [vm_compute; reflexivity|].
  refine (denied_never_served config 100 engine1
    (match ticked with Some (e, _) => e | None => engine1 end) sent [5]
    engine1_reachable engine1_bounded _ _); vm_compute; reflexivity.
Defined.

Lemma message_sent_settles_witness :
  ¬ wants_in (eng_ledger_map (message_sent 3 peer (env_message sent) engine1)) peer [10; 11]
      (WlEntry_new [10; 11] 3 WantType_Block).
Proof.
  intros Hw. apply (message_sent_settles 3 peer (env_message sent) engine1 [10; 11]) in Hw as (_ & Hb & _).
  - vm_compute in Hb. discriminate Hb.
  - split.
    + intros c e. vm_compute. intros Hc. discriminate Hc.
    + intros c b Hc. apply elem_of_map_to_list in Hc. vm_compute in Hc.
      apply list_elem_of_singleton in Hc. injection Hc as -> ->. reflexivity.
    + intros c [b Hc]. apply elem_of_map_to_list in Hc. vm_compute in Hc.
      apply list_elem_of_singleton in Hc. injection Hc as -> ->. vm_compute. reflexivity.
  - apply (engine_reachable config engine1), engine1_reachable.
Defined.
End EngineWitness.
