(* ===== verification/EngineReceive.v ===== *)
(** * What a received message does

    The effect of [Engine::message_received] on the ledger of the sender, on the
    ledgers of the other peers and on the task queue. *)

From stdpp Require Import prelude gmap fin_maps sorting.
From Stdlib Require Import ZArith Lia.
From S2P Require Import Prelude Cids Message Wantlist PriorityQueue TaskQueue TaskQueueFacts Engine EngineFacts.
Local Open Scope Z_scope.

Section engine_receive.
Context `{ServerLaws} `{HashOrder} `{PriorityQueue}.

(** The want of a peer for a CID. *)
Definition wanted (e : Engine) (p : PeerId) (c : Cid) : option WlEntry :=
  eng_ledger_map e !! p ≫= ledger_wantlist_get c.

(** The pending task of a peer for a CID. *)
Definition pending (q : PeerTaskQueue Cid TaskData) (p : PeerId) (c : Cid) :
    option (QueueTask Cid TaskData) :=
  trackers q !! p ≫= λ pt, kpq_contents (pt_pending_tasks pt) !! c.

(** The want that a request leaves: a want-block is not weakened, and a repeated
    want-have changes nothing. *)
Definition want_added (x : Entry) (old : option WlEntry) : WlEntry :=
  let new := WlEntry_new (entry_cid x) (entry_priority x) (entry_want_type x) in
  match old with
  | Some en =>
      if decide (wl_want_type en = WantType_Block ∨ entry_want_type x = WantType_Have) then en else new
  | None => new
  end.

Lemma want_added_idem x old : want_added x (Some (want_added x old)) = want_added x old.
Proof.
  unfold want_added. destruct (entry_want_type x) eqn:E; destruct old as [en|];
    repeat case_decide; naive_solver.
Qed.

Lemma wl_add_lookup x w c :
  wl_get c (wl_add (entry_cid x) (entry_priority x) (entry_want_type x) w).1
  = if decide (entry_cid x = c) then Some (want_added x (wl_get c w)) else wl_get c w.
Proof.
  unfold wl_add, wl_get, want_added. case_decide as Hc.
  - subst c. destruct (wl_set w !! entry_cid x) eqn:E; [case_decide|]; simpl; rewrite ?lookup_insert_eq; done.
  - destruct (wl_set w !! entry_cid x); [case_decide|]; simpl; rewrite ?lookup_insert_ne by done; done.
Qed.

(** ** The folds over cancels and wants *)

Lemma ptq_remove_pending topic peer q p c :
  pending (ptq_remove topic peer q) p c
  = if decide (p = peer ∧ c = topic) then None else pending q p c.
Proof.
  unfold pending, ptq_remove, kpq_get, trackers.
  destruct (kpq_contents (ptq_peer_queue q) !! peer) as [pt|] eqn:E.
  2:{ case_decide as Hc; [destruct Hc as [-> _]; by rewrite E|done]. }
  assert (∀ pt', kpq_contents (pt_pending_tasks pt') = delete topic (kpq_contents (pt_pending_tasks pt)) →
    (<[peer:=pt']> (delete peer (kpq_contents (ptq_peer_queue q)))) !! p
      ≫= (λ pt, kpq_contents (pt_pending_tasks pt) !! c)
    = if decide (p = peer ∧ c = topic) then None
      else kpq_contents (ptq_peer_queue q) !! p ≫= λ pt, kpq_contents (pt_pending_tasks pt) !! c) as Hpt.
  { intros pt' Hpt'. rewrite insert_delete_eq. destruct (decide (p = peer)) as [->|Hp].
    - rewrite lookup_insert_eq, E. simpl. rewrite Hpt', lookup_delete. repeat case_decide; naive_solver.
    - rewrite lookup_insert_ne by done. by rewrite decide_False by tauto. }
  simpl. destruct (_ && _); simpl; [destruct (negb _); simpl|]; rewrite kpq_push_contents, kpq_remove_contents;
    apply Hpt; simpl; apply kpq_remove_contents.
Qed.

(** What a cancel leaves of the pending task: it goes with the want, and stays where
    the ledger had no want. *)
Definition after_cancel (before : option WlEntry) (old : option (QueueTask Cid TaskData)) :
    option (QueueTask Cid TaskData) :=
  match before with Some _ => None | None => old end.

Lemma cancel_fold peer cancels l q c l' q' :
  foldl (mr_cancel peer) (l, q) cancels = (l', q') →
  ledger_wantlist_get c l' = (if decide (c ∈ entry_cid <$> cancels) then None else ledger_wantlist_get c l) ∧
  pending q' peer c
  = (if decide (c ∈ entry_cid <$> cancels) then after_cancel (ledger_wantlist_get c l) (pending q peer c)
     else pending q peer c).
Proof.
  revert l q. induction cancels as [|x cancels IH]; intros l q Hf; simpl in Hf.
  { simplify_eq. rewrite !decide_False by apply not_elem_of_nil. done. }
  apply IH in Hf as [Hl' Hq']. rewrite Hl', Hq'. clear Hl' Hq' IH.
  unfold ledger_wantlist_get, wl_get, after_cancel in *. simpl in *. rewrite lookup_delete.
  split; [repeat case_decide; set_solver|].
  destruct (decide (entry_cid x = c)) as [Hx|Hx].
  - subst c. rewrite (decide_True (P := _ ∈ _ :: _)) by (by left).
    destruct (wl_set (ledger_wantlist l) !! entry_cid x); [|by case_decide].
    rewrite ptq_remove_pending, (decide_True (P := _ ∧ _)) by done. by case_decide.
  - assert (pending (match wl_set (ledger_wantlist l) !! entry_cid x with
        | Some _ => ptq_remove (entry_cid x) peer q | None => q end) peer c = pending q peer c) as ->.
    { case_match; [|done]. rewrite ptq_remove_pending, (decide_False (P := _ ∧ _)) by naive_solver. done. }
    repeat case_decide; set_solver.
Qed.

(** The task that a want adds *)
Definition want_task (sizes : gmap Cid Z) (e : Engine) (x : Entry) : list (Task Cid TaskData) :=
  match sizes !! entry_cid x with
  | Some n => [have_task (entry_cid x) (entry_priority x) (entry_want_type x) (entry_send_dont_have x) n e]
  | None => dont_have_task e x
  end.

Lemma want_fold sizes e x wants l ts :
  (∀ y, y ∈ wants → entry_cid y = entry_cid x → y = x) →
  let r := foldl (mr_want sizes e) (l, ts) wants in
  ledger_wantlist_get (entry_cid x) r.1
  = (if decide (entry_cid x ∈ entry_cid <$> wants)
     then Some (want_added x (ledger_wantlist_get (entry_cid x) l))
     else ledger_wantlist_get (entry_cid x) l) ∧
  r.2 = ts ++ (wants ≫= want_task sizes e).
Proof.
  revert l ts. induction wants as [|y wants IH]; intros l ts Hu; simpl.
  { split; [done|]. by rewrite app_nil_r. }
  destruct (IH (ledger_wants (entry_cid y) (entry_priority y) (entry_want_type y) l)
    (ts ++ want_task sizes e y)) as [Hl Ht]; [set_solver|].
  split; [|rewrite (assoc_L (++)); apply Ht].
  etrans; [apply Hl|]. unfold ledger_wantlist_get, ledger_wants. simpl. rewrite wl_add_lookup.
  destruct (decide (entry_cid y = entry_cid x)) as [Heq|Hne].
  - assert (y = x) as -> by (apply Hu; [left|done]).
    rewrite (decide_True (P := _ ∈ _ :: _)) by (by left). case_decide; [|done]. by rewrite want_added_idem.
  - repeat case_decide; set_solver.
Qed.

(** ** Pushing tasks *)

Lemma dont_have_topic e x t : t ∈ dont_have_task e x → task_topic t = entry_cid x.
Proof. unfold dont_have_task. case_match; [|set_solver]. intros ->%list_elem_of_singleton. done. Qed.

Lemma want_topic sizes e x t : t ∈ want_task sizes e x → task_topic t = entry_cid x.
Proof.
  unfold want_task. case_match; [|apply dont_have_topic]. intros ->%list_elem_of_singleton. done.
Qed.

Lemma push_tasks_serves now peer tasks q t :
  t ∈ tasks → td_have_block (task_data t) = true →
  served (ptq_push_tasks now peer tasks q) peer (task_topic t).
Proof.
  intros (pre & post & ->)%list_elem_of_split Ht. unfold served.
  rewrite ptq_push_tasks_trackers, lookup_insert_eq. eexists. split; [done|].
  unfold pt_push_tasks. rewrite foldl_app. simpl.
  apply (foldl_invariant (λ pt, pt_served pt (task_topic t))); [intros; by apply pt_push_task_keeps|].
  by apply pt_push_task_serves.
Qed.

Lemma push_tasks_pending now peer tasks q c :
  c ∉ task_topic <$> tasks → pending (ptq_push_tasks now peer tasks q) peer c = pending q peer c.
Proof.
  intros Hc. unfold pending. rewrite ptq_push_tasks_trackers, lookup_insert_eq. simpl.
  unfold pt_push_tasks.
  apply (foldl_invariant (λ pt, kpq_contents (pt_pending_tasks pt) !! c = trackers q !! peer ≫= _)).
  - intros pt t Ht Hpt. destruct (task_has_more_info_than_active_tasks t pt) eqn:Hi.
    + rewrite pt_push_task_eq, lookup_insert_ne; [done| |done].
      intros <-. apply Hc, list_elem_of_fmap. eauto.
    + unfold pt_push_task. by rewrite Hi.
  - destruct (trackers q !! peer); [done|]. simpl. by rewrite kpq_new_contents, lookup_empty.
Qed.

(** ** The effect of a message *)

Lemma found_wanted peer e c : ledger_wantlist_get c (find_or_create peer e).2 = wanted e peer c.
Proof.
  unfold wanted. simpl. destruct (eng_ledger_map e !! peer) as [l|]; [done|].
  unfold ledger_wantlist_get, wl_get. simpl. apply lookup_empty.
Qed.

(** The entries of a message for a CID, sorted into wants, cancels and denials. *)
Lemma elem_of_wants (P : Entry → Prop) `{∀ x, Decision (P x)} m c :
  message_wf m →
  c ∈ entry_cid <$> filter P (message_wantlist m) ↔ ∃ x, msg_wantlist m !! c = Some x ∧ P x.
Proof.
  intros Hm. rewrite list_elem_of_fmap. setoid_rewrite list_elem_of_filter.
  setoid_rewrite elem_of_hm_values. split.
  - intros (x & -> & HP & c' & Hx). exists x. by rewrite (wf_wantlist _ Hm _ _ Hx).
  - intros (x & Hx & HP). exists x. rewrite (wf_wantlist _ Hm _ _ Hx). eauto.
Qed.

(** An entry for [c]: the one of the message, if there is one. *)
Definition entry_for (m : BitswapMessage) (c : Cid) : Entry :=
  default {| entry_cid := c; entry_priority := 0; entry_want_type := WantType_Block;
             entry_cancel := false; entry_send_dont_have := false |} (msg_wantlist m !! c).

Lemma entry_for_spec m c :
  message_wf m → entry_cid (entry_for m c) = c ∧
  ∀ y, y ∈ message_wantlist m → entry_cid y = c → y = entry_for m c.
Proof.
  intros Hm. unfold entry_for. split.
  - destruct (msg_wantlist m !! c) eqn:E; [|done]. by eapply (wf_wantlist _ Hm).
  - intros y (c' & Hy)%elem_of_hm_values <-. by rewrite (wf_wantlist _ Hm _ _ Hy), Hy.
Qed.

Lemma block_sizes_found wants c n :
  c ∈ entry_cid <$> wants → store_get_size c = Some n → mr_block_sizes wants !! c = Some n.
Proof.
  intros Hc Hn. unfold mr_block_sizes, get_block_sizes. rewrite hm_collect_omap, elem_of_hs_iter.
  split; [by apply elem_of_list_to_set|done].
Qed.

Lemma mr_ledger_effect now peer full wants cancels denials sizes e x :
  (∀ y, y ∈ wants → entry_cid y = entry_cid x → y = x) →
  let e' := mr_ledger now peer full wants cancels denials sizes e in
  let c := entry_cid x in
  let before := if full then None else wanted e peer c in
  let kept := if decide (c ∈ entry_cid <$> cancels) then None else before in
  wanted e' peer c
  = (if decide (c ∈ entry_cid <$> wants) then Some (want_added x kept) else kept) ∧
  (∀ n, c ∈ entry_cid <$> wants → sizes !! c = Some n → served (eng_queue e') peer c) ∧
  (c ∈ entry_cid <$> cancels → c ∉ entry_cid <$> wants → c ∉ entry_cid <$> denials →
   pending (eng_queue e') peer c = after_cancel before (pending (eng_queue e) peer c)) ∧
  (∀ p, p ≠ peer → wanted e' p c = wanted e p c).
Proof.
  intros Hu e' c before kept. unfold e', mr_ledger.
  pose proof (found_wanted peer e c) as Hb. destruct (find_or_create peer e) as [e2 l] eqn:E2.
  unfold find_or_create in E2. injection E2 as <- El.
  set (l1 := if full then ledger_clear_wantlist l else l).
  assert (ledger_wantlist_get c l1 = before) as Hl1.
  { unfold l1, before. destruct full; [|done]. apply lookup_empty. }
  destruct (foldl (mr_cancel peer) _ cancels) as [l2 q2] eqn:Ec.
  apply (cancel_fold _ _ _ _ c) in Ec as [Hl2 Hq2]. rewrite Hl1 in Hl2, Hq2.
  set (e2 := eng_with_ledgers _ _). destruct (want_fold sizes e2 x wants l2 (denials ≫= dont_have_task e2) Hu) as [Hl3 Ht].
  destruct (foldl (mr_want sizes e2) _ wants) as [l3 tasks]. simpl in Hl3, Ht. fold c in Hl3.
  split_and!.
  - unfold wanted. simpl. rewrite lookup_insert_eq. simpl. by rewrite Hl3, Hl2.
  - intros n (y & Hy & Hin)%list_elem_of_fmap Hn. symmetry in Hy. apply Hu in Hy as ->; [|done].
    assert (have_task c (entry_priority x) (entry_want_type x) (entry_send_dont_have x) n e2 ∈ tasks) as Htask.
    { rewrite Ht. apply elem_of_app. right. apply list_elem_of_bind. exists x. split; [|done].
      unfold want_task. fold c. rewrite Hn. by left. }
    simpl. rewrite decide_False by (intros ->; by apply not_elem_of_nil in Htask).
    by apply (push_tasks_serves now peer tasks q2 _ Htask).
  - intros Hc Hw Hd. simpl. rewrite decide_True in Hq2 by done. etrans; [|exact Hq2].
    destruct (decide (tasks = [])); [done|].
    apply push_tasks_pending. rewrite Ht, fmap_app, elem_of_app.
    intros [Hin|Hin]; apply list_elem_of_fmap in Hin as (t & Htc & (y & Hy & Hin)%list_elem_of_bind).
    + apply dont_have_topic in Hy. apply Hd, list_elem_of_fmap. exists y. by rewrite Htc.
    + apply want_topic in Hy. apply Hw, list_elem_of_fmap. exists y. by rewrite Htc.
  - intros p Hp. unfold wanted. simpl. by rewrite !lookup_insert_ne.
Qed.

(** The want that a message leaves in the ledger of its sender. *)
Lemma message_received_wanted now peer m e c :
  message_wf m →
  let before := if msg_full m then None else wanted e peer c in
  wanted (message_received now peer m e) peer c
  = match msg_wantlist m !! c with
    | Some x =>
        if entry_cancel x then None
        else if allowed (eng_filter e) peer c then Some (want_added x before) else before
    | None => before
    end.
Proof.
  intros Hm before. unfold message_received. rewrite split_wants_spec.
  set (wants := filter (λ x, entry_cancel x = false ∧ allowed _ _ _ = true) _).
  set (cancels := filter (λ x, entry_cancel x = true) _).
  set (denials := filter (λ x, entry_cancel x = false ∧ allowed _ _ _ = false) _).
  destruct (entry_for_spec m c Hm) as [Hx Hu].
  destruct (mr_ledger_effect now peer (msg_full m) wants cancels denials (mr_block_sizes wants)
    (mr_peer_ledger peer wants cancels e) (entry_for m c)) as (Hw & _).
  { intros y [_ Hy]%list_elem_of_filter. rewrite Hx. by apply Hu. }
  rewrite Hx in Hw. fold (wanted e peer c) in Hw.
  assert (∀ x, msg_wantlist m !! c = Some x → entry_cid x = c) as Hcid
    by (intros x ?; by eapply (wf_wantlist _ Hm)).
  etrans; [apply Hw|]. unfold entry_for. destruct (msg_wantlist m !! c) as [x|] eqn:E; simpl.
  - assert (c ∈ entry_cid <$> cancels ↔ entry_cancel x = true) as Hcs
      by (unfold cancels; rewrite elem_of_wants by done; naive_solver).
    assert (c ∈ entry_cid <$> wants ↔ entry_cancel x = false ∧ allowed (eng_filter e) peer c = true) as Hws.
    { unfold wants. rewrite elem_of_wants by done. pose proof (Hcid x eq_refl). naive_solver. }
    destruct (entry_cancel x), (allowed _ _ _); repeat case_decide; naive_solver.
  - rewrite !decide_False; [done|..]; intros (x & ? & _)%elem_of_wants; congruence.
Qed.

(** C11: a message that is handled without interruption has exactly the effect it
    asks for.  Its wants that the filter
    allows are in the ledger of the sender afterwards, a want-block never weakened
    to a want-have; its cancels are not; a full wantlist replaces the old one; and
    nothing else changes, in this ledger or another.  For every want whose block
    is in the store a task that reports the block is queued or under way.  The
    pending task of a cancelled CID is removed when the ledger had the want, and
    stays as it is when it had none: because the sender never asked, because an
    envelope took the want out, or because the message is a full wantlist, which
    clears the ledger before it looks at the cancels. *)
Theorem message_received_effect now peer m e c :
  message_wf m →
  let e' := message_received now peer m e in
  let before := if msg_full m then None else wanted e peer c in
  wanted e' peer c
  = match msg_wantlist m !! c with
    | Some x =>
        if entry_cancel x then None
        else if allowed (eng_filter e) peer c then Some (want_added x before) else before
    | None => before
    end ∧
  (∀ x n, msg_wantlist m !! c = Some x → entry_cancel x = false →
    allowed (eng_filter e) peer c = true → store_get_size c = Some n →
    served (eng_queue e') peer c) ∧
  (∀ x, msg_wantlist m !! c = Some x → entry_cancel x = true →
    pending (eng_queue e') peer c = after_cancel before (pending (eng_queue e) peer c)) ∧
  (∀ p, p ≠ peer → wanted e' p c = wanted e p c).
Proof.
  intros Hm e' before. unfold e', message_received. rewrite split_wants_spec.
  set (wants := filter (λ x, entry_cancel x = false ∧ allowed _ _ _ = true) _).
  set (cancels := filter (λ x, entry_cancel x = true) _).
  set (denials := filter (λ x, entry_cancel x = false ∧ allowed _ _ _ = false) _).
  destruct (entry_for_spec m c Hm) as [Hx Hu].
  destruct (mr_ledger_effect now peer (msg_full m) wants cancels denials (mr_block_sizes wants)
    (mr_peer_ledger peer wants cancels e) (entry_for m c)) as (Hw & Hs & Hp & Ho).
  { intros y [_ Hy]%list_elem_of_filter. rewrite Hx. by apply Hu. }
  rewrite Hx in Hw, Hs, Hp, Ho. fold (wanted e peer c) in Hw, Hp, Ho.
  assert (∀ x, msg_wantlist m !! c = Some x → entry_cid x = c) as Hcid
    by (intros x ?; by eapply (wf_wantlist _ Hm)).
  split_and!.
  - pose proof (message_received_wanted now peer m e c Hm) as Hr. unfold message_received in Hr.
    by rewrite split_wants_spec in Hr.
  - intros x n E Hc Ha Hn. assert (c ∈ entry_cid <$> wants) as Hin.
    { apply elem_of_wants; [done|]. exists x. by rewrite (Hcid x E). }
    eapply Hs; [done|]. by apply block_sizes_found.
  - intros x E Hc. apply Hp.
    + apply elem_of_wants; eauto.
    + intros (y & ? & ? & _)%elem_of_wants; congruence.
    + intros (y & ? & ? & _)%elem_of_wants; congruence.
  - done.
Qed.
End engine_receive.

Module EngineReceiveWitness.
Import Toy.
Import ScanQueue.
Import MessageWitness.
Import EngineWitness.

(** The request of the peer, and a second message that cancels one want. *)
Definition cancelling : BitswapMessage := (message_cancel [6] (message_new false)).1.

(** The same cancel in a full wantlist. *)
Definition cancelling_full : BitswapMessage := (message_cancel [6] (message_new true)).1.

Lemma message_received_effect_witness :
  served (eng_queue engine1) peer [10; 11] ∧
  wanted engine1 peer [5] = None ∧
  wanted (message_received 2 peer cancelling engine1) peer [6] = None ∧
  pending (eng_queue (message_received 2 peer cancelling engine1)) peer [6] = None ∧
  is_Some (pending (eng_queue (message_received 2 peer cancelling_full engine1)) peer [6]).
Proof.
  destruct (message_received_effect 1 peer request (Engine_new config) [10; 11] request_wf) as (_ & Hs & _).
  destruct (message_received_effect 1 peer request (Engine_new config) [5] request_wf) as (Hd & _).
  assert (message_wf cancelling) as Hc by (apply add_full_entry_wf, message_new_wf).
  destruct (message_received_effect 2 peer cancelling engine1 [6] Hc) as (Hw & _ & Hp & _).
  assert (message_wf cancelling_full) as Hf by (apply add_full_entry_wf, message_new_wf).
  destruct (message_received_effect 2 peer cancelling_full engine1 [6] Hf) as (_ & _ & Hk & _).
  split; [|split; [|split; [|split]]].
  - eapply Hs; vm_compute; reflexivity.
  - etransitivity; [exact Hd|]. vm_compute. reflexivity.
  - etransitivity; [exact Hw|]. vm_compute. reflexivity.
  - etransitivity; [eapply Hp; vm_compute; reflexivity|]. vm_compute. reflexivity.
  - erewrite Hk; [|vm_compute; reflexivity..]. vm_compute. eexists. reflexivity.
Defined.
End EngineReceiveWitness.
