(* ===== verification/ServerTasks.v ===== *)
(** * The bitswap server as concurrent calls

    The handlers of [Engine] are called from several tasks at once: the workers for
    messages, connections and disconnections of [iroh-bitswap/src/lib.rs], the callers of
    [notify_new_blocks] and the workers of [server.rs] and [server/decision.rs].  A handler
    is not one step: it takes the locks of the reverse index, of the ledger map, of a ledger
    and of the queue one after the other, and other calls run in between.  Here a call in
    progress is a [server_task], and one step of the server is the part of a call between
    two points where it holds no ledger: what another call can observe.  A ledger is shared
    ([Arc<Mutex<Ledger>>]): a call that found it before [peer_disconnected] took it out of
    the map still works on it, as one of the [sv_detached] ledgers.  The calls that one step
    makes on the queue are taken together.

    The locks of the index and of the map that a call keeps over several steps are not
    enforced, so the model has the runs of the code and some more. *)

From stdpp Require Import prelude gmap fin_maps sorting.
From Stdlib Require Import ZArith Lia.
From S2P Require Import Prelude Cids Message Wantlist PriorityQueue TaskQueue Engine.
Local Open Scope Z_scope.

Section server_tasks.
Context `{Store} `{Prost} `{HashOrder} `{PriorityQueue}.

(** The calls on a server *)
Inductive server_call :=
  | CallMessage (peer : PeerId) (m : BitswapMessage)
  | CallReceived (from : PeerId) (blocks : list Block)
  | CallNotify (blocks : list Block)
  | CallConnected (peer : PeerId)
  | CallDisconnected (peer : PeerId)
  | CallWantlist (peer : PeerId).

(** A call between two of its steps *)
Inductive server_task :=
  (** [message_received], its wants and cancels entered in the index *)
  | MessageTask (peer : PeerId) (full : bool) (wants cancels denials : list Entry) (block_sizes : gmap Cid Z)
  (** [received_blocks] and [wantlist_for_peer], about to lock the ledger *)
  | ReceivedTask (from : PeerId) (blocks : list Block)
  | WantlistTask (peer : PeerId)
  (** [notify_new_blocks], before the next block *)
  | NotifyTask (block_sizes : gmap Cid Z) (blocks : list Block) (missing_wants : gmap PeerId (list Cid))
  (** inside the loop over the peers that the index had for a block *)
  | PeersTask (block_sizes : gmap Cid Z) (cid : Cid) (peers : list PeerId) (blocks : list Block)
      (missing_wants : gmap PeerId (list Cid))
  (** in its second loop *)
  | ForgetTask (missing_wants : list (PeerId * list Cid))
  (** an envelope in the outbox, and tasks to be reported as done *)
  | SendTask (env : Envelope)
  | DoneTask (peer : PeerId) (tasks : list (Task Cid TaskData)).

(** The ledger that a call is about to lock: not looked up yet, the one in the map, or one
    that has been taken out of the map since. *)
Inductive handle := NotFound | InMap | Detached (i : nat).

Record Server := {
  sv_engine : Engine;
  sv_detached : list Ledger;
  sv_tasks : list (server_task * handle)
}.

Definition Server_new (config : EngineConfig) : Server :=
  {| sv_engine := Engine_new config; sv_detached := []; sv_tasks := [] |}.

Definition sv_with_engine (e : Engine) (s : Server) : Server :=
  {| sv_engine := e; sv_detached := sv_detached s; sv_tasks := sv_tasks s |}.
Definition sv_with_tasks (l : list (server_task * handle)) (s : Server) : Server :=
  {| sv_engine := sv_engine s; sv_detached := sv_detached s; sv_tasks := l |}.
Definition sv_spawn (t : server_task) (s : Server) : Server := sv_with_tasks (sv_tasks s ++ [(t, NotFound)]) s.

Definition is_message (t : server_task) : bool :=
  match t with MessageTask _ _ _ _ _ _ => true | _ => false end.

(** The peer whose ledger a call locks next *)
Definition task_peer (t : server_task) : option PeerId :=
  match t with
  | MessageTask p _ _ _ _ _ | ReceivedTask p _ | WantlistTask p | PeersTask _ _ (p :: _) _ _ => Some p
  | SendTask env => Some (env_peer env)
  | _ => None
  end.

(** [ledger_map.remove(peer)]: calls that found the ledger keep it. *)
Definition detach (peer : PeerId) (i : nat) (t : server_task * handle) : server_task * handle :=
  match t with
  | (t, InMap) => (t, if decide (task_peer t = Some peer) then Detached i else InMap)
  | _ => t
  end.

(** The first step of a call.  Messages are handled serially: the worker takes the next
    one when the last is done. *)
Definition server_start (now : Z) (c : server_call) (s : Server) : option Server :=
  let e := sv_engine s in
  match c with
  | CallMessage peer m =>
      if existsb is_message (sv_tasks s).*1 then None
      else
        let '(wants, cancels, denials) := split_wants peer (message_wantlist m) e in
        Some (sv_spawn (MessageTask peer (msg_full m) wants cancels denials (mr_block_sizes wants))
               (sv_with_engine (mr_peer_ledger peer wants cancels e) s))
  | CallReceived from [] => Some s
  | CallReceived from blocks => Some (sv_spawn (ReceivedTask from blocks) s)
  | CallNotify [] => Some s
  | CallNotify blocks =>
      Some (sv_spawn (NotifyTask
        (hm_collect ((λ b, (block_cid b, Z.of_nat (length (block_data b)))) <$> blocks)) blocks ∅) s)
  | CallConnected peer => Some (sv_with_engine (peer_connected now peer e) s)
  | CallDisconnected peer =>
      Some {| sv_engine := peer_disconnected peer e;
              sv_detached := sv_detached s ++ option_list (eng_ledger_map e !! peer);
              sv_tasks := detach peer (length (sv_detached s)) <$> sv_tasks s |}
  | CallWantlist peer => Some (sv_spawn (WantlistTask peer) s)
  end.

(** A call finds the ledger it will lock: [find_or_create], or, in [notify_new_blocks], a
    lookup that does not create. *)
Definition task_find (t : server_task) (s : Server) : option Server :=
  peer ← task_peer t;
  match t with
  | PeersTask _ _ _ _ _ => if decide (is_Some (eng_ledger_map (sv_engine s) !! peer)) then Some s else None
  | _ => Some (sv_with_engine (find_or_create peer (sv_engine s)).1 s)
  end.

(** A step that holds the ledger of a peer *)
Definition with_ledger {X} (h : handle) (peer : PeerId) (f : Engine → Engine * X) (s : Server) :
    option (Server * X) :=
  let e := sv_engine s in
  match h with
  | NotFound | InMap => let '(e', x) := f e in Some (sv_with_engine e' s, x)
  | Detached i =>
      ledger ← sv_detached s !! i;
      if decide (ledger_partner ledger = peer) then
        let '(e', x) := f (eng_with_ledgers (<[peer := ledger]> (eng_ledger_map e)) e) in
        Some ({| sv_engine := eng_with_ledgers (eng_ledger_map e) e';
                 sv_detached := <[i := default ledger (eng_ledger_map e' !! peer)]> (sv_detached s);
                 sv_tasks := sv_tasks s |}, x)
      else None
  end.

Definition returns_unit (f : Engine → Engine) (e : Engine) : Engine * unit := (f e, tt).

(** The next step of a call, and what is left of it *)
Definition task_step (now : Z) (h : handle) (t : server_task) (s : Server) :
    option (Server * option server_task) :=
  let e := sv_engine s in
  match t with
  | MessageTask peer full wants cancels denials sizes =>
      '(s, _) ← with_ledger h peer (returns_unit (mr_ledger now peer full wants cancels denials sizes)) s;
      Some (s, None)
  | ReceivedTask from blocks =>
      '(s, _) ← with_ledger h from (returns_unit (received_blocks now from blocks)) s; Some (s, None)
  | WantlistTask peer =>
      '(s, _) ← with_ledger h peer (wantlist_for_peer peer) s; Some (s, None)
  | NotifyTask sizes [] missing => Some (s, Some (ForgetTask (hm_iter missing)))
  | NotifyTask sizes (b :: blocks) missing =>
      Some (s, Some (match pl_peers (block_cid b) (eng_peer_ledger e) with
                     | None => NotifyTask sizes blocks missing
                     | Some peers => PeersTask sizes (block_cid b) (hs_iter peers) blocks missing
                     end))
  | PeersTask sizes cid [] blocks missing => Some (s, Some (NotifyTask sizes blocks missing))
  | PeersTask sizes cid (p :: peers) blocks missing =>
      '(s, missing) ← with_ledger h p (λ e, nb_peer now sizes cid (e, missing) p) s;
      Some (s, Some (PeersTask sizes cid peers blocks missing))
  | ForgetTask [] => Some (s, None)
  | ForgetTask (pw :: l) =>
      Some (sv_with_engine (eng_with_peer_ledger (nb_missing (eng_ledger_map e) (eng_peer_ledger e) pw) e) s,
            Some (ForgetTask l))
  | SendTask env =>
      '(s, _) ← with_ledger h (env_peer env) (returns_unit (message_sent now (env_peer env) (env_message env))) s;
      Some (s, Some (DoneTask (env_peer env) (env_sent_tasks env)))
  | DoneTask peer tasks =>
      match ptq_tasks_done peer tasks (eng_queue e) with
      | Ok q => Some (sv_with_engine (eng_with_queue q e) s, None)
      | _ => None
      end
  end.

(** A worker of the engine takes tasks from the queue: they become an envelope, or are
    done when there is nothing to say. *)
Definition server_pop (target_message_size : Z) (s : Server) : Server :=
  let e := sv_engine s in
  match ptq_pop_tasks target_message_size (eng_queue e) with
  | (q, None) => sv_with_engine (eng_with_queue q e) s
  | (q, Some (peer, next_tasks, pending_bytes)) =>
      let s := sv_with_engine (eng_with_queue q e) s in
      if decide (next_tasks = []) then s
      else
        let msg := tasks_message pending_bytes next_tasks in
        if message_is_empty msg then sv_spawn (DoneTask peer next_tasks) s
        else sv_spawn (SendTask {| env_peer := peer; env_message := msg; env_sent_tasks := next_tasks |}) s
  end.

Inductive server_op :=
  | SvCall (now : Z) (c : server_call)
  | SvFind (i : nat)
  | SvRun (now : Z) (i : nat)
  | SvPop (target_message_size : Z).

Definition server_step (op : server_op) (s : Server) : option Server :=
  match op with
  | SvCall now c => server_start now c s
  | SvFind i =>
      '(t, h) ← sv_tasks s !! i;
      s' ← (match h with NotFound => task_find t s | _ => None end);
      Some (sv_with_tasks (<[i := (t, InMap)]> (sv_tasks s)) s')
  | SvRun now i =>
      '(t, h) ← sv_tasks s !! i;
      '(s', t') ← task_step now h t s;
      Some (sv_with_tasks (take i (sv_tasks s) ++ option_list ((λ t, (t, NotFound)) <$> t') ++ drop (S i) (sv_tasks s)) s')
  | SvPop size => Some (server_pop size s)
  end.

Fixpoint server_run (ops : list server_op) (s : Server) : option Server :=
  match ops with
  | [] => Some s
  | op :: ops => s ← server_step op s; server_run ops s
  end.
End server_tasks.
