(* ===== verification/ServerTasksFacts.v ===== *)
(** * The server under interleaving

    The invariant of the engine holds in every state of [ServerTasks], whatever the order in
    which the calls take their steps.  The reverse index covers the ledgers except for the
    wants whose message was overtaken between its two phases, and an announcement reaches
    every other waiting peer. *)

From stdpp Require Import prelude gmap fin_maps sorting.
From Stdlib Require Import ZArith Lia.
From S2P Require Import Prelude Cids Message Wantlist PriorityQueue TaskQueue TaskQueueFacts Engine EngineFacts ServerTasks.
Local Open Scope Z_scope.

Section server_facts.
Context `{ServerLaws} `{HashOrder} `{PriorityQueue}.

(** Messages come out of the decoder, and the work under way stays below 2^64. *)
Definition op_ok (s : Server) (op : server_op) : Prop :=
  match op with
  | SvCall _ (CallMessage _ m) => message_wf m
  | SvRun _ _ => work_bounded (eng_queue (sv_engine s))
  | _ => True
  end.

(** ** The invariant *)

Definition sizes_ok (sizes : gmap Cid Z) : Prop := ∀ c n, sizes !! c = Some n → 0 ≤ n.

Definition task_inv (f : option (PeerId → Cid → bool)) (t : server_task) : Prop :=
  match t with
  | MessageTask peer _ wants cancels _ sizes =>
      Forall (λ x, allowed f peer (entry_cid x) = true) wants ∧
      (∀ c, c ∈ entry_cid <$> wants → c ∉ entry_cid <$> cancels) ∧ sizes_ok sizes
  | NotifyTask sizes _ _ | PeersTask sizes _ _ _ _ => sizes_ok sizes
  | _ => True
  end.

Record server_ok (f : option (PeerId → Cid → bool)) (s : Server) : Prop := {
  so_filter : eng_filter (sv_engine s) = f;
  so_engine : engine_wf (sv_engine s);
  so_detached : Forall (λ l, ledger_ok f (ledger_partner l) l) (sv_detached s);
  so_tasks : Forall (task_inv f ∘ fst) (sv_tasks s)
}.

Definition waits (s : Server) (p : PeerId) (c : Cid) : Prop := ∃ en, wants_in (eng_ledger_map (sv_engine s)) p c en.
Definition in_index (s : Server) (p : PeerId) (c : Cid) : Prop := interested (eng_peer_ledger (sv_engine s)) p c.

(** A step that adds no want to the ledgers in the map, and keeps their index entries *)
Record calm (s s' : Server) : Prop := {
  ca_tasks : sv_tasks s' = sv_tasks s;
  ca_index p c : waits s' p c → in_index s p c → in_index s' p c;
  ca_wants p c : waits s' p c → waits s p c
}.

Lemma calm_refl s : calm s s.
Proof. done. Qed.

Lemma server_ok_engine f s e :
  server_ok f s → engine_wf e → eng_filter e = f → server_ok f (sv_with_engine e s).
Proof. intros [? ? ? ?] He Hf. by split. Qed.

Lemma server_ok_tasks f s l : server_ok f s → Forall (task_inv f ∘ fst) l → server_ok f (sv_with_tasks l s).
Proof. intros [? ? ? ?] Hl. by split. Qed.

Lemma server_ok_spawn f s t : server_ok f s → task_inv f t → server_ok f (sv_spawn t s).
Proof. intros Hs Ht. apply server_ok_tasks; [done|]. apply Forall_app. split; [apply Hs|by repeat constructor]. Qed.

Lemma shrinks_calm peer s e' : shrinks peer (sv_engine s) e' → calm s (sv_with_engine e' s).
Proof.
  intros [[_ _ Hi Ho] _ Hw]. split; [done|unfold in_index; cbn; by rewrite Hi|]. intros p c [en Hp]. exists en. cbn in *.
  destruct (decide (p = peer)) as [->|Hne]; [by apply Hw|]. destruct Hp as (l & Hl & Hc). exists l. by rewrite <-Ho.
Qed.

(** A step on a detached ledger leaves the ledgers in the map alone. *)
Lemma with_ledger_ok {X} f h peer (g : Engine → Engine * X) s s' x :
  server_ok f s → (∀ e, engine_wf e → eng_filter e = f → region_ok peer e (g e).1) →
  with_ledger h peer g s = Some (s', x) →
  server_ok f s' ∧ eng_peer_ledger (sv_engine s') = eng_peer_ledger (sv_engine s) ∧
  match h with
  | Detached _ => calm s s'
  | _ => s' = sv_with_engine (g (sv_engine s)).1 s ∧ x = (g (sv_engine s)).2
  end.
Proof.
  intros Hs Hg E. pose proof Hs as [Hf He Hd Ht].
  destruct h as [| |i]; cbn [with_ledger] in E.
  1,2: destruct (Hg _ He Hf) as [Hwf Hf' Hi' _]; destruct (g (sv_engine s)) as [e' x']; injection E as <- <-; cbn in *;
    split_and!; [apply server_ok_engine; [done|done|congruence]|done|done|done].
  destruct (sv_detached s !! i) as [l|] eqn:El; [|done]. cbn [mbind option_bind] in E. case_decide as Hp; [|done].
  set (e1 := eng_with_ledgers _ _) in E. pose proof (Forall_lookup_1 _ _ _ _ Hd El) as Hl. cbn in Hl. rewrite Hp in Hl.
  assert (engine_wf e1) as He1.
  { split; cbn; [|apply He]. intros p l'. rewrite lookup_insert, Hf. case_decide; [intros [= <-]; by subst|].
    rewrite <-Hf. apply He. }
  destruct (Hg e1 He1 Hf) as [[Hl' Hq'] Hf' Hi' _]. destruct (g e1) as [e' x'] eqn:Eg. cbn in *. injection E as <- <-.
  split_and!; [|done|split; [done|unfold in_index; cbn; by rewrite Hi'|done]].
  split; cbn; [congruence| |apply Forall_insert; [done|]|done].
  - split; cbn; [|done]. rewrite Hf', Hf. rewrite <-Hf. apply He.
  - destruct (eng_ledger_map e' !! peer) as [l'|] eqn:E'; cbn; [|by rewrite Hp].
    apply Hl' in E' as Hok. rewrite Hf', Hf in Hok. by rewrite (proj1 Hok).
Qed.

Lemma shrinks_region f peer (g : Engine → Engine) :
  (∀ e, engine_wf e → shrinks peer e (g e)) →
  ∀ e, engine_wf e → eng_filter e = f → region_ok peer e (returns_unit g e).1.
Proof. intros Hg e He _. apply (Hg e He). Qed.

(** A step that shrinks the ledger it holds is calm, on whichever ledger it runs. *)
Lemma with_ledger_calm {X} f h peer (g : Engine → Engine * X) s s' x :
  server_ok f s → (∀ e, engine_wf e → shrinks peer e (g e).1) →
  with_ledger h peer g s = Some (s', x) → server_ok f s' ∧ calm s s'.
Proof.
  intros Hs Hg E. destruct (with_ledger_ok f h peer g s s' x) as (Hs' & _ & Hh); [done| |done|].
  { intros e He _. apply (Hg e He). }
  split; [done|]. destruct h; [destruct Hh as [-> _]; by eapply shrinks_calm, Hg, Hs..|done].
Qed.

Lemma nb_peer_region f now sizes c missing p e :
  sizes_ok sizes → engine_wf e → eng_filter e = f → region_ok p e (nb_peer now sizes c (e, missing) p).1.
Proof.
  intros Hz He _. destruct (nb_peer_ok now sizes c e missing p Hz He) as [(Em & Ei & Ef & _) Hwf].
  split; [done|done|done|]. intros q _. by rewrite Em.
Qed.

(** ** The calls in progress *)

Definition arriving (s : Server) (p : PeerId) (c : Cid) : Prop :=
  ∃ full wants cancels denials sizes,
    MessageTask p full wants cancels denials sizes ∈ (sv_tasks s).*1 ∧ c ∈ entry_cid <$> wants.
Definition cancelling (s : Server) (p : PeerId) (c : Cid) : Prop :=
  ∃ full wants cancels denials sizes,
    MessageTask p full wants cancels denials sizes ∈ (sv_tasks s).*1 ∧ c ∈ entry_cid <$> cancels.

(** A message whose ledger was taken out of the map *)
Definition cut_off (s : Server) (p : PeerId) : Prop :=
  ∃ full wants cancels denials sizes i, (MessageTask p full wants cancels denials sizes, Detached i) ∈ sv_tasks s.

Definition messages (s : Server) : list server_task := filter (λ t, is_message t = true) (sv_tasks s).*1.

Lemma messages_spec s t : is_message t = true → t ∈ messages s ↔ t ∈ (sv_tasks s).*1.
Proof. intros Ht. unfold messages. rewrite list_elem_of_filter. naive_solver. Qed.

Lemma arriving_messages s s' p c : messages s' = messages s → arriving s' p c ↔ arriving s p c.
Proof.
  intros E. unfold arriving. by setoid_rewrite <-messages_spec; [rewrite E|..].
Qed.

Lemma cancelling_messages s s' p c : messages s' = messages s → cancelling s' p c ↔ cancelling s p c.
Proof.
  intros E. unfold cancelling. by setoid_rewrite <-messages_spec; [rewrite E|..].
Qed.

(** ** Coverage of the index *)

(** The wants that a step leaves without an index entry: those that were overtaken before,
    and those whose entry it takes while their message is between its phases. *)
Definition overtaken_by (overtaken : PeerId → Cid → Prop) (s s' : Server) (p : PeerId) (c : Cid) : Prop :=
  ¬ in_index s' p c ∧ (overtaken p c ∨ in_index s p c ∧ arriving s p c).

(** The states of a server, with the wants that were overtaken on the way *)
Inductive server_reach (config : EngineConfig) : Server → (PeerId → Cid → Prop) → Prop :=
  | sr_new : server_reach config (Server_new config) (λ _ _, False)
  | sr_step s overtaken op s' :
      server_reach config s overtaken → op_ok s op → server_step op s = Some s' →
      server_reach config s' (overtaken_by overtaken s s').

Record coverage (s : Server) (overtaken : PeerId → Cid → Prop) : Prop := {
  cv_serial : (length (messages s) ≤ 1)%nat;
  cv_cut p c : cut_off s p → ¬ waits s p c;
  cv_index p c : waits s p c ∨ arriving s p c → in_index s p c ∨ overtaken p c ∨ cancelling s p c
}.

#[export] Instance in_index_dec s p c : Decision (in_index s p c).
Proof. unfold in_index, interested. apply _. Defined.

(** A step that starts and ends no message, and adds no want *)
Record quiet (s s' : Server) : Prop := {
  qu_messages : messages s' = messages s;
  qu_cut p : cut_off s' p → cut_off s p ∨ ∀ c, ¬ waits s' p c;
  qu_index p c : waits s' p c → in_index s p c → in_index s' p c;
  qu_wants p c : waits s' p c → waits s p c
}.

Lemma quiet_coverage s s' overtaken : quiet s s' → coverage s overtaken → coverage s' (overtaken_by overtaken s s').
Proof.
  intros [Hm Hc Hi Hw] [Hs Hcut Hix]. split.
  - by rewrite Hm.
  - intros p c [Hp|Hp]%Hc Hwt; [|by eapply Hp]. by eapply Hcut, Hw.
  - intros p c Hwa. destruct (decide (in_index s' p c)) as [|Hn]; [by left|]. right.
    rewrite (cancelling_messages s s') by done. rewrite (arriving_messages s s') in Hwa by done. unfold overtaken_by.
    assert (waits s p c ∨ arriving s p c) as Hwa' by (destruct Hwa; auto).
    destruct (Hix p c Hwa') as [Hin|[Ho|Hcl]]; [|by auto..]. destruct Hwa as [Hx|Hx]; [by apply Hi in Hin|auto].
Qed.

(** Steps that do not touch the messages *)
Lemma calm_quiet s s' l :
  calm s s' → filter (λ t, is_message t = true) l.*1 = messages s →
  (∀ t i, is_message t = true → (t, Detached i) ∈ l → (t, Detached i) ∈ sv_tasks s) →
  quiet s (sv_with_tasks l s').
Proof.
  intros [Ht Hi Hw] Hm Hd. split; [done| | |].
  - intros p (full & w & cs & ds & sz & i & Hin). left. exists full, w, cs, ds, sz, i. by apply Hd.
  - apply Hi.
  - apply Hw.
Qed.

Lemma run_messages {A} (P : A → Prop) `{∀ x, Decision (P x)} (l mid : list A) i t :
  l !! i = Some t → ¬ P t → Forall (λ x, ¬ P x) mid → filter P (take i l ++ mid ++ drop (S i) l) = filter P l.
Proof.
  intros Hl Ht Hmid. rewrite <-(take_drop_middle l i t Hl) at 3. rewrite !filter_app, filter_cons_False by done.
  f_equal. assert (filter P mid = []) as -> by (induction Hmid; [done|by rewrite filter_cons_False]). done.
Qed.

Lemma run_elem {A} (l mid : list A) i x : x ∈ take i l ++ mid ++ drop (S i) l → x ∈ mid ∨ x ∈ l.
Proof.
  rewrite !elem_of_app. intros [Hx|[Hx|Hx]]; [right|by left|right].
  - apply list_elem_of_lookup in Hx as [j [Hj _]%lookup_take_Some]. by eapply list_elem_of_lookup_2.
  - apply list_elem_of_lookup in Hx as [j Hj]. rewrite lookup_drop in Hj. by eapply list_elem_of_lookup_2.
Qed.

(** The next step of a call other than a message, when it is calm *)
Lemma run_quiet s s' i t h (t' : option server_task) :
  sv_tasks s !! i = Some (t, h) → is_message t = false → Forall (λ t, is_message t = false) (option_list t') →
  calm s s' →
  quiet s (sv_with_tasks (take i (sv_tasks s) ++ option_list ((λ t, (t, NotFound)) <$> t') ++ drop (S i) (sv_tasks s)) s').
Proof.
  intros Hl Ht Ht' Hc. apply calm_quiet; [done| |].
  - rewrite !fmap_app, fmap_take, fmap_drop. unfold messages. eapply (run_messages _ _ _ _ t).
    + by rewrite list_lookup_fmap, Hl.
    + by rewrite Ht.
    + destruct t' as [t'|]; [|constructor]. inversion Ht' as [|? ? Hm]. repeat constructor. cbn. by rewrite Hm.
  - intros t2 j Hm [Hin|Hin]%run_elem; [|done]. destruct t'; set_solver.
Qed.

(** ** The steps *)

Lemma with_queue_calm q s : calm s (sv_with_engine (eng_with_queue q (sv_engine s)) s).
Proof. done. Qed.

Lemma only_queue_calm e s : only_queue (sv_engine s) e → calm s (sv_with_engine e s).
Proof.
  intros (Em & Ei & _). split; [done|..]; intros p c; unfold in_index, waits; cbn; rewrite ?Em, ?Ei; done.
Qed.

Lemma forget_calm s pw :
  calm s (sv_with_engine (eng_with_peer_ledger
    (nb_missing (eng_ledger_map (sv_engine s)) (eng_peer_ledger (sv_engine s)) pw) (sv_engine s)) s).
Proof. split; [done| |done]. intros p c [en Hw] Hi. by eapply nb_missing_keeps. Qed.

(** The next step of a call other than a message *)
Lemma task_step_calm f now h t s s' t' :
  server_ok f s → task_inv f t → work_bounded (eng_queue (sv_engine s)) → is_message t = false →
  task_step now h t s = Some (s', t') →
  server_ok f s' ∧ calm s s' ∧ Forall (λ t, task_inv f t ∧ is_message t = false) (option_list t').
Proof.
  intros Hs Ht Hb Hm E.
  destruct t as [| | |sizes [|b bs] missing|sizes c [|p ps] bs missing|[|pw l]|env|peer tasks]; cbn [task_step] in E; [done|..].
  - destruct (with_ledger _ _ _ _) as [[s1 []]|] eqn:Ew; [|done]. injection E as <- <-.
    apply (with_ledger_calm f) in Ew as [??]; [split_and!; [done|done|by repeat constructor]|done|]. intros. by apply received_blocks_shrinks.
  - destruct (with_ledger _ _ _ _) as [[s1 l]|] eqn:Ew; [|done]. injection E as <- <-.
    apply (with_ledger_calm f) in Ew as [??]; [split_and!; [done|done|by repeat constructor]|done|]. intros. by apply wantlist_for_peer_shrinks.
  - injection E as <- <-. split_and!; [done|done|by repeat constructor].
  - injection E as <- <-. split_and!; [done..|]. constructor; [by case_match|constructor].
  - injection E as <- <-. split_and!; [done|done|by repeat constructor].
  - destruct (with_ledger _ _ _ _) as [[s1 m]|] eqn:Ew; [|done]. injection E as <- <-.
    destruct (with_ledger_ok f _ _ _ _ _ _ Hs (λ e He Hf, nb_peer_region f now sizes c missing p e Ht He Hf) Ew) as (Hs' & _ & Hh).
    split_and!; [done| |by repeat constructor]. destruct h; [..|done]; destruct Hh as [-> _];
      apply only_queue_calm, nb_peer_ok; [done|apply Hs|done|apply Hs].
  - injection E as <- <-. split_and!; [done|done|by repeat constructor].
  - injection E as <- <-. split_and!; [|apply forget_calm|by repeat constructor].
    apply server_ok_engine; [done|apply with_index_wf, Hs|apply Hs].
  - destruct (with_ledger _ _ _ _) as [[s1 []]|] eqn:Ew; [|done]. injection E as <- <-.
    apply (with_ledger_calm f) in Ew as [??]; [split_and!; [done|done|by repeat constructor]|done|]. intros. by apply message_sent_shrinks.
  - destruct (ptq_tasks_done peer tasks (eng_queue (sv_engine s))) as [q| |] eqn:Eq; [|done..]. injection E as <- <-.
    split_and!; [|apply with_queue_calm|constructor]. apply server_ok_engine; [done| |apply Hs].
    apply with_queue_wf; [apply Hs|]. eapply queue_ok_done; [apply Hs|apply Hb|exact Eq].
Qed.

(** Whatever is queued or taken, [messages] sees only messages. *)
Lemma spawn_quiet s s' t : calm s s' → is_message t = false → quiet s (sv_spawn t s').
Proof.
  intros Hc Ht. apply calm_quiet; [done|..]; rewrite (ca_tasks _ _ Hc).
  - rewrite fmap_app, filter_app. unfold messages.
    change ([(t, NotFound)].*1) with [t]. by rewrite (filter_cons_False _ t []), filter_nil, app_nil_r by (by rewrite Ht).
  - intros t2 i _ [Hin|Hin]%elem_of_app; [done|set_solver].
Qed.

Lemma calm_only s s' : calm s s' → quiet s s'.
Proof.
  intros [Ht Hi Hw]. split; [by unfold messages; rewrite Ht| |done|done].
  intros p. unfold cut_off. rewrite Ht. by left.
Qed.

Lemma pop_ok f size s : server_ok f s → server_ok f (server_pop size s) ∧ quiet s (server_pop size s).
Proof.
  intros Hs. unfold server_pop. destruct (ptq_pop_tasks size (eng_queue (sv_engine s))) as [q [[[p out] w]|]] eqn:Ep.
  - pose proof (ew_queue _ (so_engine _ _ Hs)) as Hq. rewrite (so_filter _ _ Hs) in Hq.
    destruct (queue_ok_pop _ _ _ _ _ _ _ Hq Ep) as [Hq' _].
    assert (server_ok f (sv_with_engine (eng_with_queue q (sv_engine s)) s)) as Hs1.
    { apply server_ok_engine; [done| |apply Hs]. apply with_queue_wf; [apply Hs|]. by rewrite (so_filter _ _ Hs). }
    repeat case_match; (split; [by try apply server_ok_spawn|]);
      [apply calm_only, with_queue_calm|apply spawn_quiet; [apply with_queue_calm|done]..].
  - split; [|apply calm_only, with_queue_calm]. apply server_ok_engine; [done| |apply Hs].
    apply with_queue_wf; [apply Hs|]. revert Ep. unfold ptq_pop_tasks.
    destruct (kpq_pop _) as [[[]]|]; [|intros [= <-]; apply Hs]. by destruct (pt_pop_tasks _ _).
Qed.

(** Looking up the ledger *)
Lemma find_ok f i t s s' :
  sv_tasks s !! i = Some (t, NotFound) → task_find t s = Some s' → server_ok f s →
  server_ok f (sv_with_tasks (<[i := (t, InMap)]> (sv_tasks s)) s') ∧
  quiet s (sv_with_tasks (<[i := (t, InMap)]> (sv_tasks s)) s').
Proof.
  intros Hl E Hs. assert (server_ok f s' ∧ calm s s') as [Hs' Hc].
  { unfold task_find in E. destruct (task_peer t) as [p|]; [|done]. cbn [mbind option_bind] in E.
    assert (server_ok f (sv_with_engine (find_or_create p (sv_engine s)).1 s) ∧
      calm s (sv_with_engine (find_or_create p (sv_engine s)).1 s)) as Hf.
    { pose proof (find_or_create_shrinks p _ (so_engine _ _ Hs)) as Hsh. split; [|by eapply shrinks_calm].
      apply server_ok_engine; [done|apply Hsh|]. rewrite (ro_filter _ _ _ (sh_region _ _ _ Hsh)). apply Hs. }
    destruct t; try (injection E as <-; exact Hf). case_decide; [|done]. by injection E as <-. }
  split.
  - apply server_ok_tasks; [done|]. apply Forall_insert; [apply Hs|]. by apply (Forall_lookup_1 _ _ _ _ (so_tasks _ _ Hs) Hl).
  - apply calm_quiet; [done|..].
    + rewrite list_fmap_insert, list_insert_id; [done|]. by rewrite list_lookup_fmap, Hl.
    + intros t2 j _ Hin. apply list_elem_of_lookup in Hin as [k Hk]. apply list_lookup_insert_Some in Hk as [(_ & ? & _)|[_ Hk]]; [done|].
      by eapply list_elem_of_lookup_2.
Qed.

(** ** Disconnections *)

Lemma detach_fst p i l : (detach p i <$> l).*1 = l.*1.
Proof. rewrite <-list_fmap_compose. apply list_fmap_ext. by intros _ [t [| |j]] _. Qed.

Lemma disconnect_ok f peer s s' now :
  server_start now (CallDisconnected peer) s = Some s' → server_ok f s → server_ok f s' ∧ quiet s s'.
Proof.
  intros [= <-] Hs. destruct (peer_disconnected_ok peer _ (so_engine _ _ Hs)) as (Hwf & Hf & Em & Hi).
  split; split; cbn [sv_engine sv_detached sv_tasks].
  - rewrite Hf. apply Hs.
  - done.
  - apply Forall_app. split; [apply Hs|]. destruct (eng_ledger_map _ !! peer) as [l|] eqn:El; [|constructor]. constructor; [|constructor].
    apply (ew_ledgers _ (so_engine _ _ Hs)) in El as Hl. rewrite (so_filter _ _ Hs) in Hl. by rewrite (proj1 Hl).
  - apply (Forall_fmap _ (task_inv f)). rewrite detach_fst. apply (Forall_fmap _ (task_inv f)), Hs.
  - unfold messages. cbn [sv_tasks]. by rewrite detach_fst.
  - intros p (full & w & cs & ds & sz & i & Hin). apply list_elem_of_fmap in Hin as ([t [| |j]] & Ht & Hin); [done| |].
    + cbn in Ht. case_decide as Hp; [|done]. injection Ht as <- _. injection Hp as <-. right. intros c (en & l & Hl & _). cbn [sv_engine] in Hl.
      by rewrite Em, lookup_delete_eq in Hl.
    + cbn in Ht. injection Ht as <- <-. left. by repeat eexists.
  - intros p c (en & l & Hl & _) Hin. cbn [sv_engine] in Hl. rewrite Em in Hl. apply lookup_delete_Some in Hl as [Hne _]. by apply Hi.
  - intros p c (en & l & Hl & Hc). cbn [sv_engine] in Hl. rewrite Em in Hl. apply lookup_delete_Some in Hl as [_ Hl]. by exists en, l.
Qed.

(** ** Messages *)

Lemma existsb_no_message s : existsb is_message (sv_tasks s).*1 = false → messages s = [].
Proof.
  unfold messages. induction (sv_tasks s).*1 as [|t l IH]; [done|]. cbn [existsb]. intros [Ht Hl]%orb_false_iff.
  rewrite filter_cons_False by (by rewrite Ht). auto.
Qed.

Lemma no_messages s p c : messages s = [] → ¬ arriving s p c ∧ ¬ cancelling s p c.
Proof.
  intros Hm. assert (∀ t, is_message t = true → t ∉ (sv_tasks s).*1) as Hn.
  { intros t Ht Hin. rewrite <-messages_spec, Hm in Hin by done. by apply not_elem_of_nil in Hin. }
  split; intros (full & w & cs & ds & sz & Hin & _); by apply (Hn _) in Hin.
Qed.

Lemma message_start f now peer m s s' :
  message_wf m → server_start now (CallMessage peer m) s = Some s' → server_ok f s →
  server_ok f s' ∧ ∀ overtaken, coverage s overtaken → coverage s' (overtaken_by overtaken s s').
Proof.
  intros Hm. cbn [server_start]. destruct (existsb is_message _) eqn:Ex; [done|]. apply existsb_no_message in Ex.
  destruct (split_wants peer (message_wantlist m) (sv_engine s)) as [[wants cancels] denials] eqn:Es. intros [= <-] Hs.
  apply split_wants_ok in Es as [Hall Hdis]; [|done]. rewrite (so_filter _ _ Hs) in Hall. split.
  - apply server_ok_spawn; [apply server_ok_engine; [done|apply mr_peer_ledger_wf, Hs|apply Hs]|].
    split_and!; [done|done|]. intros c n. apply block_sizes_nonneg.
  - intros ot [_ Hcut Hix]. set (t := MessageTask _ _ _ _ _ _). set (s' := sv_spawn _ _).
    assert ((sv_tasks s').*1 = (sv_tasks s).*1 ++ [t]) as Et by (cbn; by rewrite fmap_app).
    assert (∀ p c, in_index s' p c ↔ ¬ (p = peer ∧ c ∈ entry_cid <$> cancels) ∧
      ((p = peer ∧ c ∈ entry_cid <$> wants) ∨ in_index s p c)) as Hi by (intros; apply mr_peer_ledger_interested).
    split.
    + unfold messages in *. rewrite Et, filter_app, Ex. rewrite filter_cons_True, filter_nil by done. cbn. lia.
    + intros p c (full & w & cs & ds & sz & i & [Hin|Hin]%elem_of_app) Hw; [|set_solver].
      assert (cut_off s p) as Hc by (by repeat eexists). by eapply Hcut.
    + intros p c Hwa. destruct (decide (in_index s' p c)) as [|Hn]; [by left|]. right. destruct Hwa as [Hw|Ha].
      * destruct (Hix p c (or_introl Hw)) as [Hin|[Ho|Hc]]; [|left; split; [done|by left]|by apply no_messages in Hc].
        right. destruct (decide (p = peer ∧ c ∈ entry_cid <$> cancels)) as [[-> Hc]|Hc]; [|destruct Hn; apply Hi; tauto].
        exists (msg_full m), wants, cancels, denials, (mr_block_sizes wants). split; [|done]. rewrite Et. set_solver.
      * destruct Hn. apply Hi. destruct Ha as (full & w & cs & ds & sz & Hin & Hc). rewrite Et in Hin.
        apply elem_of_app in Hin as [Hin|Hin].
        { exfalso. apply (proj1 (no_messages s p c Ex)). by repeat eexists. }
        apply list_elem_of_singleton in Hin. injection Hin as -> _ -> _ _ _. split; [|by left]. intros [_ ?]. by eapply Hdis.
Qed.

(** The messages when one of them ends: there was only this one *)
Lemma message_ends s t h i s' :
  sv_tasks s !! i = Some (t, h) → is_message t = true → (length (messages s) ≤ 1)%nat →
  sv_tasks s' = take i (sv_tasks s) ++ drop (S i) (sv_tasks s) →
  messages s = [t] ∧ messages s' = [].
Proof.
  intros Hl Ht Hlen Es. assert ((sv_tasks s).*1 = take i (sv_tasks s).*1 ++ t :: drop (S i) (sv_tasks s).*1) as E.
  { symmetry. apply take_drop_middle. by rewrite list_lookup_fmap, Hl. }
  assert ((sv_tasks s').*1 = take i (sv_tasks s).*1 ++ drop (S i) (sv_tasks s).*1) as E'.
  { by rewrite Es, fmap_app, fmap_take, fmap_drop. }
  unfold messages in *. rewrite E, filter_app, filter_cons_True in Hlen |- * by done. rewrite E', filter_app.
  rewrite length_app in Hlen. cbn in Hlen.
  rewrite (nil_length_inv (filter _ (take i _))), (nil_length_inv (filter _ (drop (S i) _))) by lia. done.
Qed.

Lemma message_done f now peer full wants cancels denials sizes h i s s1 :
  sv_tasks s !! i = Some (MessageTask peer full wants cancels denials sizes, h) →
  with_ledger h peer (returns_unit (mr_ledger now peer full wants cancels denials sizes)) s = Some (s1, tt) → server_ok f s →
  let s' := sv_with_tasks (take i (sv_tasks s) ++ drop (S i) (sv_tasks s)) s1 in
  server_ok f s' ∧ ∀ overtaken, coverage s overtaken → coverage s' (overtaken_by overtaken s s').
Proof.
  intros Hl Ew Hs s'. destruct (Forall_lookup_1 _ _ _ _ (so_tasks _ _ Hs) Hl) as (Hall & Hdis & Hz).
  assert (∀ e, engine_wf e → eng_filter e = f → _) as Hg
    by exact (λ e He Hf, mr_ledger_ok now peer full wants cancels denials sizes e Hz (eq_rect_r (λ f, Forall (λ x, allowed f peer _ = true) wants) Hall Hf) He).
  destruct (with_ledger_ok f h peer (returns_unit (mr_ledger now peer full wants cancels denials sizes)) s s1 tt Hs (λ e He Hf, proj1 (Hg e He Hf)) Ew) as (Hs1 & Hpl & Hh). split.
  { apply server_ok_tasks; [done|]. apply Forall_app. split; [apply Forall_take, Hs|apply Forall_drop, Hs]. }
  intros ot [Hser Hcut Hix]. destruct (message_ends s _ h i s' Hl eq_refl Hser eq_refl) as [Em Em'].
  assert (MessageTask peer full wants cancels denials sizes ∈ (sv_tasks s).*1) as Hin.
  { apply (list_elem_of_lookup_2 _ i). by rewrite list_lookup_fmap, Hl. }
  assert (∀ p c, cancelling s p c → p = peer ∧ c ∈ entry_cid <$> cancels) as Hcl.
  { intros p c (f' & w & cs & ds & sz & Ht & Hc). rewrite <-messages_spec, Em in Ht by done.
    apply list_elem_of_singleton in Ht. by injection Ht as -> _ _ -> _ _. }
  (* the index is the same, and the new wants were arriving *)
  assert (∀ p c, waits s' p c → ¬ cancelling s p c ∧ (waits s p c ∨ arriving s p c)) as Hw.
  { intros p c Hw. destruct h as [| |j].
    3:{ apply (ca_wants _ _ Hh) in Hw. split; [|by left]. intros [-> _]%Hcl. eapply Hcut, Hw. exists full, wants, cancels, denials, sizes, j.
        by eapply list_elem_of_lookup_2. }
    all: destruct Hh as [-> _], (Hg _ (so_engine _ _ Hs) (so_filter _ _ Hs)) as [[_ _ _ Ho] Hm], Hw as [en Hw]; cbn in Hw;
      (destruct (decide (p = peer)) as [->|Hne]; [apply Hm in Hw as [Hw|[Hn Hw]]|destruct Hw as (l & Hl' & Hc); rewrite Ho in Hl' by done]).
    all: split; [intros [? Hc']%Hcl; subst; (done || by eapply Hdis)|].
    all: first [by left; exists en|by left; exists en, l|right; by repeat eexists]. }
  assert (∀ p c, in_index s' p c ↔ in_index s p c) as Hi.
  { intros p c. unfold in_index. cbn. by rewrite Hpl. }
  split.
  - rewrite Em'. cbn. lia.
  - intros p c (f' & w & cs & ds & sz & j & Ht) _. assert (MessageTask p f' w cs ds sz ∈ messages s') as Hm.
    { apply messages_spec; [done|]. apply list_elem_of_fmap. by eexists (_, _). }
    rewrite Em' in Hm. by apply not_elem_of_nil in Hm.
  - intros p c [Hwt|Ha]; [|by apply no_messages in Ha]. apply Hw in Hwt as [Hn Hwt]. rewrite Hi.
    destruct (Hix p c Hwt) as [|[Ho|]]; [by left| |done]. destruct (decide (in_index s' p c)) as [Hin'|Hn']; [left; by apply Hi|].
    right. left. split; [done|by left].
Qed.

(** ** Every step *)

Lemma server_step_ok f op s s' :
  op_ok s op → server_step op s = Some s' → server_ok f s →
  server_ok f s' ∧ ∀ overtaken, coverage s overtaken → coverage s' (overtaken_by overtaken s s').
Proof.
  intros Ho E Hs. assert (server_ok f s' ∧ quiet s s' → server_ok f s' ∧
    ∀ overtaken, coverage s overtaken → coverage s' (overtaken_by overtaken s s')) as Hquiet.
  { intros [? ?]. split; [done|]. intros. by apply quiet_coverage. }
  destruct op as [now c|i|now i|size]; cbn [server_step] in E.
  - destruct c as [peer m|from [|b bs]|[|b bs]|peer|peer|peer]; [by eapply message_start| | | | | |by eapply Hquiet, disconnect_ok|];
      injection E as <-; apply Hquiet.
    + split; [done|by apply calm_only].
    + split; [by apply server_ok_spawn|by apply spawn_quiet].
    + split; [done|by apply calm_only].
    + split; [|by apply spawn_quiet]. apply server_ok_spawn; [done|]. intros c n. exact (block_sizes_of_nonneg (b :: bs) c n).
    + pose proof (peer_connected_shrinks now peer _ (so_engine _ _ Hs)) as Hsh. split; [|by eapply calm_only, shrinks_calm].
      apply server_ok_engine; [done|apply Hsh|]. rewrite (ro_filter _ _ _ (sh_region _ _ _ Hsh)). apply Hs.
    + split; [by apply server_ok_spawn|by apply spawn_quiet].
  - destruct (sv_tasks s !! i) as [[t h]|] eqn:El; [|done]. cbn [mbind option_bind] in E. destruct h; [|done..].
    destruct (task_find t s) as [s1|] eqn:Ef; [|done]. injection E as <-. by apply Hquiet, find_ok.
  - destruct (sv_tasks s !! i) as [[t h]|] eqn:El; [|done]. cbn [mbind option_bind] in E.
    destruct (task_step now h t s) as [[s1 t']|] eqn:Et; [|done]. injection E as <-.
    destruct (is_message t) eqn:Em.
    + destruct t as [peer full w cs ds sz| | | | | | |]; [|done..]. cbn [task_step] in Et.
      destruct (with_ledger _ _ _ _) as [[s2 []]|] eqn:Ew; [|done]. injection Et as <- <-. by eapply message_done.
    + pose proof (Forall_lookup_1 _ _ _ _ (so_tasks _ _ Hs) El) as Hi.
      destruct (task_step_calm f now h t s s1 t' Hs Hi Ho Em Et) as (Hs1 & Hc & Ht'). apply Hquiet. split.
      * apply server_ok_tasks; [done|]. rewrite !Forall_app. split_and!; [apply Forall_take, Hs| |apply Forall_drop, Hs].
        destruct t' as [t'|]; [|constructor]. inversion_clear Ht' as [|? ? [? _]]. by repeat constructor.
      * eapply run_quiet; [done|done| |done]. eapply Forall_impl; [exact Ht'|]. by intros ? [_ ?].
  - injection E as <-. by apply Hquiet, pop_ok.
Qed.

Lemma Server_new_ok config : server_ok (ec_filter config) (Server_new config) ∧ coverage (Server_new config) (λ _ _, False).
Proof.
  split; [by split; [|apply Engine_new_wf|constructor..]|]. split.
  - cbn. lia.
  - intros p c (? & ? & ? & ? & ? & ? & []%not_elem_of_nil).
  - intros p c [(en & l & Hl & _)|(? & ? & ? & ? & ? & []%not_elem_of_nil & _)]. cbn in Hl. by rewrite lookup_empty in Hl.
Qed.

Lemma server_reachable config s overtaken :
  server_reach config s overtaken → server_ok (ec_filter config) s ∧ coverage s overtaken.
Proof.
  induction 1 as [|s ot op s' _ [Hs Hc] Ho E]; [apply Server_new_ok|].
  destruct (server_step_ok _ _ _ _ Ho E Hs) as [? Hx]. split; [done|by apply Hx].
Qed.

(** ** Handlers without interruption *)

(** The handlers of [Engine] are the runs of their calls in which nothing comes between
    the steps. *)
Definition alone (e : Engine) (l : list server_task) (s : Server) : Server :=
  {| sv_engine := e; sv_detached := sv_detached s; sv_tasks := (λ t, (t, NotFound)) <$> l |}.

Lemma server_run_app ops1 ops2 s : server_run (ops1 ++ ops2) s = server_run ops1 s ≫= server_run ops2.
Proof. revert s. induction ops1 as [|op ops1 IH]; intros s; [done|]. cbn. destruct (server_step op s); [apply IH|done]. Qed.

Lemma message_uninterrupted now peer m e s :
  server_run [SvCall now (CallMessage peer m); SvRun now 0] (alone e [] s) = Some (alone (message_received now peer m e) [] s).
Proof. unfold message_received. cbn. by destruct (split_wants _ _ e) as [[wants cancels] denials]. Qed.

Lemma peers_uninterrupted now sizes c ps bs missing e s :
  let r := foldl (nb_peer now sizes c) (e, missing) ps in
  server_run (replicate (S (length ps)) (SvRun now 0)) (alone e [PeersTask sizes c ps bs missing] s)
  = Some (alone r.1 [NotifyTask sizes bs r.2] s).
Proof.
  revert e missing. induction ps as [|p ps IH]; intros e missing; [done|]. cbn [foldl].
  specialize (IH (nb_peer now sizes c (e, missing) p).1 (nb_peer now sizes c (e, missing) p).2).
  rewrite <-surjective_pairing in IH. etrans; [|exact IH]. cbn [length replicate server_run].
  assert (server_step (SvRun now 0) (alone e [PeersTask sizes c (p :: ps) bs missing] s)
    = Some (alone (nb_peer now sizes c (e, missing) p).1 [PeersTask sizes c ps bs (nb_peer now sizes c (e, missing) p).2] s)) as ->; [|done].
  cbn -[nb_peer]. by destruct (nb_peer now sizes c (e, missing) p).
Qed.

Lemma blocks_uninterrupted now sizes bs missing e s :
  let r := foldl (nb_block now sizes) (e, missing) bs in
  ∃ ops, server_run ops (alone e [NotifyTask sizes bs missing] s) = Some (alone r.1 [NotifyTask sizes [] r.2] s).
Proof.
  revert e missing. induction bs as [|b bs IH]; intros e missing; [by exists []|].
  destruct (IH (nb_block now sizes (e, missing) b).1 (nb_block now sizes (e, missing) b).2) as [ops Hops].
  rewrite <-surjective_pairing in Hops. cbn [foldl]. revert Hops.
  assert (∃ ops, server_run ops (alone e [NotifyTask sizes (b :: bs) missing] s)
    = Some (alone (nb_block now sizes (e, missing) b).1 [NotifyTask sizes bs (nb_block now sizes (e, missing) b).2] s)) as [ops1 H1'].
  { unfold nb_block. cbn [fst]. destruct (pl_peers (block_cid b) (eng_peer_ledger e)) as [peers|] eqn:Ep.
    - exists (SvRun now 0 :: replicate (S (length (hs_iter peers))) (SvRun now 0)).
      etrans; [|apply peers_uninterrupted]. cbn -[replicate pl_peers]. by rewrite Ep.
    - exists [SvRun now 0]. cbn -[pl_peers]. by rewrite Ep. }
  intros Hops. exists (ops1 ++ ops). by rewrite server_run_app, H1'.
Qed.

Lemma forget_uninterrupted now l e s :
  server_run (replicate (S (length l)) (SvRun now 0)) (alone e [ForgetTask l] s)
  = Some (alone (eng_with_peer_ledger (foldl (nb_missing (eng_ledger_map e)) (eng_peer_ledger e) l) e) [] s).
Proof.
  revert e. induction l as [|pw l IH]; intros e; [by destruct e|].
  etrans; [|etrans; [apply (IH (eng_with_peer_ledger (nb_missing (eng_ledger_map e) (eng_peer_ledger e) pw) e))|done]].
  done.
Qed.

Lemma notify_uninterrupted now blocks e s :
  ∃ ops, server_run ops (alone e [] s) = Some (alone (notify_new_blocks now blocks e) [] s).
Proof.
  destruct blocks as [|b bs]; [by exists []|]. unfold notify_new_blocks. set (sizes := hm_collect _).
  destruct (blocks_uninterrupted now sizes (b :: bs) ∅ e s) as [ops Hops].
  destruct (foldl (nb_block now sizes) (e, ∅) (b :: bs)) as [e1 missing]. cbn [fst snd] in Hops.
  exists (SvCall now (CallNotify (b :: bs)) :: ops ++ SvRun now 0 :: replicate (S (length (hm_iter missing))) (SvRun now 0)).
  transitivity (server_run (ops ++ SvRun now 0 :: replicate (S (length (hm_iter missing))) (SvRun now 0)) (alone e [NotifyTask sizes (b :: bs) ∅] s)); [done|].
  rewrite server_run_app, Hops. etrans; [|apply (forget_uninterrupted now)]. done.
Qed.

(** ** Announcements *)

(** C7: announcing a new block reaches the peers that wait for it, however the calls on the
    server are interleaved.  Take any state in which the ledger of a peer wants the block,
    no cancel of that want is being handled, and the want was not overtaken: no step took
    the peer out of the reverse index between the two phases of the message that brought
    the want.  An announcement that comes to the block then goes through this peer; when the
    turn of the peer comes and its ledger wants the block, a task that reports the block is
    queued for it or already on its way; and an announcement that runs without interruption
    leaves such a task. *)
Theorem notify_reaches_every_waiter config s overtaken p c en :
  server_reach config s overtaken →
  wants_in (eng_ledger_map (sv_engine s)) p c en → ¬ overtaken p c → ¬ cancelling s p c →
  (∀ now i sizes b bs missing h s',
    sv_tasks s !! i = Some (NotifyTask sizes (b :: bs) missing, h) → block_cid b = c →
    server_step (SvRun now i) s = Some s' →
    ∃ peers, sv_tasks s' !! i = Some (PeersTask sizes c peers bs missing, NotFound) ∧ p ∈ peers) ∧
  (∀ now i sizes ps bs missing h s',
    sv_tasks s !! i = Some (PeersTask sizes c (p :: ps) bs missing, h) → (∀ j, h ≠ Detached j) →
    server_step (SvRun now i) s = Some s' → served (eng_queue (sv_engine s')) p c) ∧
  (∀ now blocks, c ∈ block_cid <$> blocks →
    served (eng_queue (notify_new_blocks now blocks (sv_engine s))) p c).
Proof.
  intros [Hs Hc]%server_reachable Hw Ho Hn.
  assert (in_index s p c) as Hi by (destruct (cv_index _ _ Hc p c) as [|[|]]; [by left; exists en|done..]). split_and!.
  - intros now i sizes b bs missing h s' El <- E. cbn [server_step] in E. rewrite El in E. cbn [mbind option_bind task_step] in E.
    injection E as <-. unfold in_index, interested, pl_peers in *.
    destruct (pl_cids (eng_peer_ledger (sv_engine s)) !! block_cid b) as [peers|]; cbn in Hi; [|set_solver].
    exists (hs_iter peers). split; [|by apply elem_of_hs_iter]. apply lookup_lt_Some in El as Hlt.
    cbn. rewrite lookup_app_r by (rewrite length_take; lia). rewrite length_take, Nat.min_l by lia. by rewrite Nat.sub_diag.
  - intros now i sizes ps bs missing h s' El Hh E. cbn [server_step] in E. rewrite El in E. cbn [mbind option_bind task_step] in E.
    assert (with_ledger h p (λ e, nb_peer now sizes c (e, missing) p) s
      = Some (sv_with_engine (nb_peer now sizes c (sv_engine s, missing) p).1 s, (nb_peer now sizes c (sv_engine s, missing) p).2)) as Ew.
    { destruct h as [| |j]; [..|by destruct (Hh j)]; unfold with_ledger; by destruct (nb_peer _ _ _ _ _). }
    rewrite Ew in E. cbn [mbind option_bind] in E. injection E as <-. eapply nb_peer_serves; [apply Hs|done].
  - intros now blocks Hb. eapply notify_serves; [apply Hs|done|exact Hw|done].
Qed.
End server_facts.

(** ** Witnesses *)

Module ServerWitness.
Import Toy.
Import ScanQueue.
Import MessageWitness.
Import EngineWitness.

(** A run whose work stays in bounds *)
Definition bounded (q : PeerTaskQueue Cid TaskData) : bool :=
  bool_decide (map_Forall (λ _ pt, active_total pt < 2 ^ 64) (trackers q)).
Fixpoint run_bounded (ops : list server_op) (s : Server) : bool :=
  match ops with
  | [] => true
  | op :: ops =>
      bounded (eng_queue (sv_engine s)) &&
      match server_step op s with Some s => run_bounded ops s | None => false end
  end.
Definition op_wf (op : server_op) : Prop :=
  match op with SvCall _ (CallMessage _ m) => message_wf m | _ => True end.

Lemma run_reach config ops s ot s' :
  server_reach config s ot → Forall op_wf ops → run_bounded ops s = true → server_run ops s = Some s' →
  ∃ ot', server_reach config s' ot' ∧ (ops ≠ [] → ∀ p c, in_index s' p c → ¬ ot' p c).
Proof.
  intros Hr Hops. revert s ot Hr. induction Hops as [|op ops Ho Hops IH]; intros s ot Hr Hb E.
  { injection E as <-. by exists ot. }
  cbn [server_run run_bounded] in *. apply andb_true_iff in Hb as [Hb Hb'].
  destruct (server_step op s) as [s1|] eqn:Es; [|done]. cbn [mbind option_bind] in E.
  assert (op_ok s op) as Hok.
  { destruct op as [now []| | |]; try done. intros p pt Hpt. apply bool_decide_eq_true in Hb. by apply (Hb p pt). }
  assert (server_reach config s1 (overtaken_by ot s s1)) as Hr1 by (by eapply sr_step).
  destruct (IH s1 _ Hr1 Hb' E) as (ot' & Hr' & Hn). destruct ops as [|op2 ops].
  - injection E as <-. exists (overtaken_by ot s s1). split; [done|]. intros _ p c Hi [Hni _]. done.
  - exists ot'. split; [done|]. intros _. by apply Hn.
Qed.

(** The block that the peer waits for *)
Definition six : @Cid ids := [6].
Definition news : list Block := [Block_new [6] [6]].
Definition server0 : Server := Server_new config.
Definition run (ops : list server_op) : Server := default server0 (server_run ops server0).

(** The request comes in and is handled while an announcement of another block is under way;
    then the block that the peer waits for is announced. *)
Definition calls : list server_op :=
  [SvCall 1 (CallNotify [Block_new [9] [9]]); SvCall 1 (CallMessage peer request); SvRun 1 0; SvFind 1; SvRun 2 1;
   SvCall 2 (CallNotify news)].
Definition server1 : Server := run calls.

Lemma calls_run : server_run calls server0 = Some server1.
Proof. vm_compute. reflexivity. Qed.

Lemma server1_reach :
  ∃ ot, server_reach config server1 ot ∧ ¬ ot peer six ∧ ¬ cancelling server1 peer six.
Proof.
  destruct (run_reach config calls server0 (λ _ _, False) server1) as (ot & Hr & Hn).
  - constructor.
  - repeat (apply Forall_cons_2; [first [exact I | exact request_wf]|]). apply Forall_nil_2.
  - vm_compute. reflexivity.
  - exact calls_run.
  - exists ot. split; [done|]. split; [apply Hn; [done|]; apply (bool_decide_unpack _); vm_compute; exact I|].
    intros (full & w & cs & ds & sz & Hin & _). rewrite <-messages_spec in Hin by done.
    assert (messages server1 = []) as E by (vm_compute; reflexivity). rewrite E in Hin. by apply not_elem_of_nil in Hin.
Qed.

Lemma server1_waits : wants_in (eng_ledger_map (sv_engine server1)) peer six (WlEntry_new six 1 WantType_Have).
Proof. eexists. split; vm_compute; reflexivity. Qed.

Lemma notify_reaches_every_waiter_witness :
  served (eng_queue (notify_new_blocks 3 news (sv_engine server1))) peer six ∧
  ∃ sizes peers, sv_tasks (run (calls ++ [SvRun 3 1])) !! 1%nat
    = Some (PeersTask sizes six peers [] ∅, NotFound) ∧ peer ∈ peers.
Proof.
  destruct server1_reach as (ot & Hr & Ho & Hc).
  destruct (notify_reaches_every_waiter config server1 ot peer six (WlEntry_new six 1 WantType_Have) Hr server1_waits Ho Hc)
    as (Hblock & _ & Hall).
  split.
  - apply Hall. apply list_elem_of_singleton. reflexivity.
  - eexists. eapply (Hblock 3 1%nat); [vm_compute; reflexivity|reflexivity|vm_compute; reflexivity].
Defined.

(** ** A lost notification *)

(** When a block is announced between the two phases of a message that asks for it, the
    announcement takes the peer out of the reverse index because its ledger does not have
    the want yet; the want is then recorded, and a later announcement of the same block
    does not reach the peer. *)
Definition asks : BitswapMessage := (add_entry [6] 1 WantType_Block false (message_new false)).1.
Definition overtaking : list server_op :=
  [SvCall 1 (CallMessage peer asks); SvCall 2 (CallNotify news); SvRun 2 1; SvRun 2 1; SvRun 2 1; SvRun 2 1; SvRun 2 1; SvRun 2 1;
   SvRun 3 0].

Lemma want_notification_lost :
  wants_in (eng_ledger_map (sv_engine (run overtaking))) peer [6] (WlEntry_new [6] 1 WantType_Block) ∧
  sv_tasks (run overtaking) = [] ∧
  pl_peers [6] (eng_peer_ledger (sv_engine (run overtaking))) = Some ∅ ∧
  trackers (eng_queue (notify_new_blocks 4 news (sv_engine (run overtaking)))) = ∅.
Proof. split; [eexists; split; vm_compute; reflexivity|]. split_and!; vm_compute; reflexivity. Qed.
End ServerWitness.
