(* ===== verification/MessageQueue.v ===== *)
(** * The client's message queues

    Models [iroh-bitswap/src/client/message_queue.rs], [message_queue/wantlist.rs]
    and [message_queue/dont_have_timeout_manager.rs]: the actor that turns the
    wants for one peer into messages, and the timeouts that stand in for missing
    DONT_HAVE answers.  [Instant]s and [Duration]s are integers (nanoseconds) and
    the clock is an argument.  The branches of the [select!] loop are the events
    [mq_event]; what the network answers is part of an event.  The floating-point
    average of latencies is not modelled: the operations that set a timeout take
    the computed value as an argument. *)

From stdpp Require Import prelude gmap fin_maps sorting.
From Stdlib Require Import ZArith Lia.
From S2P Require Import Prelude Cids Message Wantlist.
Local Open Scope Z_scope.

(** ** Timeouts *)

Definition SECOND : Z := 1000000000.
Definition MILLI : Z := 1000000.

Definition DONT_HAVE_TIMEOUT : Z := 5 * SECOND.
Definition MAX_TIMEOUT : Z := 7 * SECOND.

(** [Instant::elapsed] and the difference of [Instant]s saturate at zero. *)
Definition elapsed (now at_ : Z) : Z := Z.max 0 (now - at_).

(** The end of [calculate_timeout_from_message_latency] and
    [calculate_timeout_from_ping_latency]: [timeout] is the computed value. *)
Definition calculate_timeout (timeout max_timeout : Z) : Z :=
  if max_timeout <? timeout then max_timeout else timeout.

Section timeouts.
Context `{Ids}.

Record PendingWant := { pw_cid : Cid; pw_active : bool; pw_sent : Z }.

(** [Inner]; [dh_samples] is the only part of the latency average that
    decisions depend on.  [dh_worker] says whether the worker was started. *)
Record DontHaveTimeouts := {
  dh_active_wants : gmap Cid PendingWant;
  dh_want_queue : list PendingWant;
  dh_timeout : Z;
  dh_samples : Z;
  dh_worker : bool
}.

Definition DontHaveTimeouts_new : DontHaveTimeouts :=
  {| dh_active_wants := ∅; dh_want_queue := []; dh_timeout := DONT_HAVE_TIMEOUT; dh_samples := 0;
     dh_worker := false |}.

Definition dh_start (d : DontHaveTimeouts) : DontHaveTimeouts :=
  {| dh_active_wants := dh_active_wants d; dh_want_queue := dh_want_queue d;
     dh_timeout := dh_timeout d; dh_samples := dh_samples d; dh_worker := true |}.

(** The answer to the ping that the worker starts with; [timeout] is computed
    from the latency. *)
Definition dh_ping (timeout : Z) (d : DontHaveTimeouts) : DontHaveTimeouts :=
  if dh_samples d =? 0 then
    {| dh_active_wants := dh_active_wants d; dh_want_queue := dh_want_queue d;
       dh_timeout := calculate_timeout timeout MAX_TIMEOUT; dh_samples := dh_samples d;
       dh_worker := dh_worker d |}
  else d.

(** [update_message_latency]; [timeout] is computed from the new average.  The
    flag says whether the worker is triggered. *)
Definition dh_update_message_latency (timeout : Z) (d : DontHaveTimeouts) : DontHaveTimeouts * bool :=
  let t := calculate_timeout timeout MAX_TIMEOUT in
  ({| dh_active_wants := dh_active_wants d; dh_want_queue := dh_want_queue d; dh_timeout := t;
      dh_samples := Int.wrap 64 (dh_samples d + 1); dh_worker := dh_worker d |},
   (t <? dh_timeout d) && dh_worker d).

Definition dh_with (active : gmap Cid PendingWant) (queue : list PendingWant) (d : DontHaveTimeouts)
    : DontHaveTimeouts :=
  {| dh_active_wants := active; dh_want_queue := queue; dh_timeout := dh_timeout d;
     dh_samples := dh_samples d; dh_worker := dh_worker d |}.

(** [add_pending] *)
Definition dh_add (now : Z) (d : DontHaveTimeouts) (cid : Cid) : DontHaveTimeouts :=
  match dh_active_wants d !! cid with
  | Some _ => d
  | None =>
      let pw := {| pw_cid := cid; pw_active := true; pw_sent := now |} in
      dh_with (<[cid := pw]> (dh_active_wants d)) (dh_want_queue d ++ [pw]) d
  end.
Definition dh_add_pending (now : Z) (pending : list Cid) (d : DontHaveTimeouts) : DontHaveTimeouts * bool :=
  match pending with
  | [] => (d, false)
  | _ => (foldl (dh_add now) d pending, bool_decide (dh_active_wants d = ∅) && dh_worker d)
  end.

(** [cancel_pending]: the flag is cleared in the copy of the map, which is then
    removed; the copy in the queue keeps it. *)
Definition dh_cancel_pending (cancels : list Cid) (d : DontHaveTimeouts) : DontHaveTimeouts :=
  dh_with (foldl (λ m c, delete c m) (dh_active_wants d) cancels) (dh_want_queue d) d.

(** The loop of [check_for_timeouts] over the queue in reverse, which is the
    order in which [Vec::pop] takes its elements. *)
Fixpoint dh_expire (now timeout : Z) (rqueue : list PendingWant) (active : gmap Cid PendingWant)
    (expired : list Cid) : list PendingWant * gmap Cid PendingWant * list Cid :=
  match rqueue with
  | [] => ([], active, expired)
  | pw :: rqueue =>
      if pw_active pw then
        if elapsed now (pw_sent pw) <? timeout then (rqueue, active, expired)
        else dh_expire now timeout rqueue (delete (pw_cid pw) active) (expired ++ [pw_cid pw])
      else dh_expire now timeout rqueue active expired
  end.

(** [check_for_timeouts]: the CIDs that fire and the time until the next check. *)
Definition dh_check_for_timeouts (now : Z) (d : DontHaveTimeouts)
    : DontHaveTimeouts * list Cid * option Z :=
  match dh_want_queue d with
  | [] => (d, [], None)
  | _ =>
      let '(rqueue, active, expired) :=
        dh_expire now (dh_timeout d) (reverse (dh_want_queue d)) (dh_active_wants d) [] in
      let queue := reverse rqueue in
      (dh_with active queue d, expired,
       match queue with
       | oldest :: _ => Some (elapsed (pw_sent oldest + dh_timeout d) now)
       | [] => None
       end)
  end.
End timeouts.

(** ** Wantlists that remember what was sent *)

Section recall.
Context `{Ids} `{HashOrder}.

Record RecallWantlist := {
  rw_pending : Wantlist;
  rw_sent : Wantlist;
  rw_sent_at : gmap Cid Z
}.

Definition rw_default : RecallWantlist :=
  {| rw_pending := wl_default; rw_sent := wl_default; rw_sent_at := ∅ |}.

Definition rw_with_pending (w : Wantlist) (r : RecallWantlist) : RecallWantlist :=
  {| rw_pending := w; rw_sent := rw_sent r; rw_sent_at := rw_sent_at r |}.

Definition rw_add (cid : Cid) (priority : Z) (want_type : WantType) (r : RecallWantlist) : RecallWantlist :=
  rw_with_pending (wl_add cid priority want_type (rw_pending r)).1 r.

Definition rw_remove (cid : Cid) (r : RecallWantlist) : RecallWantlist :=
  {| rw_pending := (wl_remove cid (rw_pending r)).1; rw_sent := (wl_remove cid (rw_sent r)).1;
     rw_sent_at := delete cid (rw_sent_at r) |}.

Definition rw_remove_type (cid : Cid) (want_type : WantType) (r : RecallWantlist) : RecallWantlist :=
  let '(sent, removed) := wl_remove_type cid want_type (rw_sent r) in
  {| rw_pending := (wl_remove_type cid want_type (rw_pending r)).1; rw_sent := sent;
     rw_sent_at := match removed with Some _ => delete cid (rw_sent_at r) | None => rw_sent_at r end |}.

Definition rw_mark_sent (e : WlEntry) (r : RecallWantlist) : RecallWantlist * bool :=
  match wl_remove_type (wl_cid e) (wl_want_type e) (rw_pending r) with
  | (_, None) => (r, false)
  | (pending, Some _) =>
      ({| rw_pending := pending;
          rw_sent := (wl_add (wl_cid e) (wl_priority e) (wl_want_type e) (rw_sent r)).1;
          rw_sent_at := rw_sent_at r |}, true)
  end.

Definition rw_clear_sent_at (cid : Cid) (r : RecallWantlist) : RecallWantlist :=
  {| rw_pending := rw_pending r; rw_sent := rw_sent r; rw_sent_at := delete cid (rw_sent_at r) |}.

(** [sent_at]: the time is recorded when the want is _not_ in the sent list. *)
Definition rw_set_sent_at (cid : Cid) (at_ : Z) (r : RecallWantlist) : RecallWantlist :=
  if wl_contains cid (rw_sent r) then r
  else {| rw_pending := rw_pending r; rw_sent := rw_sent r; rw_sent_at := <[cid := at_]> (rw_sent_at r) |}.

(** [pending.extend(sent.clone())] *)
Definition rw_rebroadcast (r : RecallWantlist) : RecallWantlist :=
  rw_with_pending (wl_extend (rw_sent r) (rw_pending r)) r.

Record Wants := {
  bcst_wants : RecallWantlist;
  peer_wants : RecallWantlist;
  cancels : gset Cid;
  wants_priority : Z
}.

Definition pending_work_count (w : Wants) : nat :=
  wl_len (rw_pending (bcst_wants w)) + wl_len (rw_pending (peer_wants w)) + size (cancels w).
Definition has_pending_work (w : Wants) : bool := (0 <? pending_work_count w)%nat.

Inductive WantsUpdate :=
  | BroadcastWantHaves (want_haves : gset Cid)
  | UpdateWants (want_blocks want_haves : list Cid)
  | Cancels (cancels : gset Cid).

(** One iteration of the loops of [handle_wants_update] *)
Definition want_bcst (w : Wants) (cid : Cid) : Wants :=
  {| bcst_wants := rw_add cid (wants_priority w) WantType_Have (bcst_wants w);
     peer_wants := peer_wants w; cancels := cancels w ∖ {[cid]};
     wants_priority := Int.i32_sub (wants_priority w) 1 |}.
Definition want_peer (t : WantType) (w : Wants) (cid : Cid) : Wants :=
  {| bcst_wants := bcst_wants w; peer_wants := rw_add cid (wants_priority w) t (peer_wants w);
     cancels := cancels w ∖ {[cid]}; wants_priority := Int.i32_sub (wants_priority w) 1 |}.
Definition cancel_want (st : Wants * bool) (cid : Cid) : Wants * bool :=
  let '(w, work_ready) := st in
  let was_sent := wl_contains cid (rw_sent (bcst_wants w)) || wl_contains cid (rw_sent (peer_wants w)) in
  ({| bcst_wants := rw_remove cid (bcst_wants w); peer_wants := rw_remove cid (peer_wants w);
      cancels := if was_sent then {[cid]} ∪ cancels w else cancels w;
      wants_priority := wants_priority w |}, was_sent || work_ready).

(** The new wants and whether there is work to signal *)
Definition update_wants (u : WantsUpdate) (w : Wants) : Wants * bool :=
  match u with
  | BroadcastWantHaves hs => (foldl want_bcst w (hs_iter hs), true)
  | UpdateWants bs hs => (foldl (want_peer WantType_Block) (foldl (want_peer WantType_Have) w hs) bs, true)
  | Cancels cs => foldl cancel_want (w, false) (hs_iter cs)
  end.

(** [transfer_rebroadcast_wants] *)
Definition transfer_rebroadcast_wants (w : Wants) : option Wants :=
  if wl_is_empty (rw_sent (bcst_wants w)) && wl_is_empty (rw_sent (peer_wants w)) then None
  else Some {| bcst_wants := rw_rebroadcast (bcst_wants w); peer_wants := rw_rebroadcast (peer_wants w);
               cancels := cancels w; wants_priority := wants_priority w |}.
End recall.

(** ** The actor *)

Record MqConfig := {
  max_message_size : Z;
  send_error_backof : Z;
  max_valid_latency : Z;
  max_priority : Z;
  rebroadcast_interval : Z;
  send_message_max_delay : Z;
  send_message_cutoff : Z;
  send_message_debounce : Z;
  send_timeout : Z;
  max_retries : Z
}.

Definition MqConfig_default : MqConfig :=
  {| max_message_size := 1024 * 1024 * 2; send_error_backof := 100 * MILLI;
     max_valid_latency := 30 * SECOND; max_priority := Int.i_max 32;
     rebroadcast_interval := 30 * SECOND; send_message_max_delay := 20 * MILLI;
     send_message_cutoff := 256; send_message_debounce := MILLI; send_timeout := 30 * SECOND;
     max_retries := 3 |}.

Section actor.
Context `{Multiformats} `{Prost} `{HashOrder}.

(** [MessageQueueActor]; [mq_sender] is the open [MessageSender], of which only
    [supports_have] matters, and [mq_outgoing_work] the channel of size 2. *)
Record MessageQueueActor := {
  mq_config : MqConfig;
  mq_wants : Wants;
  mq_dh : DontHaveTimeouts;
  mq_outgoing_work : list Z;
  mq_sender : option bool
}.

Definition MessageQueueActor_new (config : MqConfig) : MessageQueueActor :=
  {| mq_config := config;
     mq_wants := {| bcst_wants := rw_default; peer_wants := rw_default; cancels := ∅;
                    wants_priority := max_priority config |};
     mq_dh := DontHaveTimeouts_new; mq_outgoing_work := []; mq_sender := None |}.

Definition mq_with_wants (w : Wants) (a : MessageQueueActor) : MessageQueueActor :=
  {| mq_config := mq_config a; mq_wants := w; mq_dh := mq_dh a;
     mq_outgoing_work := mq_outgoing_work a; mq_sender := mq_sender a |}.
Definition mq_with_dh (d : DontHaveTimeouts) (a : MessageQueueActor) : MessageQueueActor :=
  {| mq_config := mq_config a; mq_wants := mq_wants a; mq_dh := d;
     mq_outgoing_work := mq_outgoing_work a; mq_sender := mq_sender a |}.
Definition mq_with_work (l : list Z) (a : MessageQueueActor) : MessageQueueActor :=
  {| mq_config := mq_config a; mq_wants := mq_wants a; mq_dh := mq_dh a;
     mq_outgoing_work := l; mq_sender := mq_sender a |}.
Definition mq_with_sender (s : option bool) (a : MessageQueueActor) : MessageQueueActor :=
  {| mq_config := mq_config a; mq_wants := mq_wants a; mq_dh := mq_dh a;
     mq_outgoing_work := mq_outgoing_work a; mq_sender := s |}.

(** [signal_work]: [try_send] into a channel of size 2 *)
Definition signal_work (now : Z) (a : MessageQueueActor) : MessageQueueActor :=
  if (length (mq_outgoing_work a) <? 2)%nat then mq_with_work (mq_outgoing_work a ++ [now]) a else a.

Definition handle_wants_update (now : Z) (u : WantsUpdate) (a : MessageQueueActor) : MessageQueueActor :=
  let a := match u with
           | Cancels cs => mq_with_dh (dh_cancel_pending (hs_iter cs) (mq_dh a)) a
           | _ => a
           end in
  let '(wants, work_ready) := update_wants u (mq_wants a) in
  let a := mq_with_wants wants a in
  if work_ready then signal_work now a else a.

(** *** Building a message *)

(** The loops that add entries until the message is large enough; the count of
    added entries and whether the limit was reached. *)
Fixpoint fill_message {X} (add : X → BitswapMessage → BitswapMessage * Z) (max : Z) (l : list X)
    (msg : BitswapMessage) (msg_size : Z) (sent : nat) : BitswapMessage * Z * nat * bool :=
  match l with
  | [] => (msg, msg_size, sent, false)
  | x :: l =>
      let '(msg, n) := add x msg in
      let msg_size := msg_size + n in
      if max <=? msg_size then (msg, msg_size, S sent, true)
      else fill_message add max l msg msg_size (S sent)
  end.

(** [retain] with [mark_sent]: the entries that changed are taken out of the
    message. *)
Definition retain_sent (st : RecallWantlist * BitswapMessage * list WlEntry) (e : WlEntry)
    : RecallWantlist * BitswapMessage * list WlEntry :=
  let '(r, msg, kept) := st in
  let '(r, marked) := rw_mark_sent e r in
  if marked then (r, msg, kept ++ [e]) else (r, message_remove (wl_cid e) msg, kept).

Definition take_cancel (st : gset Cid * BitswapMessage) (c : Cid) : gset Cid * BitswapMessage :=
  let '(cs, msg) := st in
  if decide (c ∈ cs) then (cs ∖ {[c]}, msg) else (cs, message_remove c msg).

(** The want-haves that are dropped for a peer that does not know them *)
Definition drop_have (st : RecallWantlist * list WlEntry) (e : WlEntry) : RecallWantlist * list WlEntry :=
  let '(r, kept) := st in
  if decide (wl_want_type e = WantType_Have) then (rw_remove_type (wl_cid e) WantType_Have r, kept)
  else (r, kept ++ [e]).

(** The entries to send: the peer wants, the broadcast wants and the cancels *)
Definition pending_entries (supports_have : bool) (w : Wants)
    : Wants * list WlEntry * list WlEntry * list Cid :=
  let '(pending, peer_entries) := wl_entries (rw_pending (peer_wants w)) in
  let peer := rw_with_pending pending (peer_wants w) in
  let '(peer, peer_entries) :=
    if supports_have then (peer, peer_entries) else foldl drop_have (peer, []) peer_entries in
  let '(pending, bcst_entries) := wl_entries (rw_pending (bcst_wants w)) in
  ({| bcst_wants := rw_with_pending pending (bcst_wants w); peer_wants := peer;
      cancels := cancels w; wants_priority := wants_priority w |},
   peer_entries, bcst_entries, hs_iter (cancels w)).

Definition bcst_type (supports_have : bool) : WantType :=
  if supports_have then WantType_Have else WantType_Block.

(** The message, and how many cancels, peer wants and broadcast wants are in it *)
Definition build_message (supports_have : bool) (max : Z) (peer_entries bcst_entries : list WlEntry)
    (cancels : list Cid) : BitswapMessage * nat * nat * nat :=
  let '(msg, size, sent_cancels, done) :=
    fill_message message_cancel max cancels (message_new false) 0 0 in
  if done then (msg, sent_cancels, 0%nat, 0%nat) else
  let '(msg, size, sent_peer, done) :=
    fill_message (λ e, add_entry (wl_cid e) (wl_priority e) (wl_want_type e) true) max peer_entries
      msg size 0 in
  if done then (msg, sent_cancels, sent_peer, 0%nat) else
  let '(msg, size, sent_bcst, done) :=
    fill_message (λ e, add_entry (wl_cid e) (wl_priority e) (bcst_type supports_have) false) max
      bcst_entries msg size 0 in
  (msg, sent_cancels, sent_peer, sent_bcst).

(** [extract_outgoing_message] once there is a sender *)
Definition extract_wants (supports_have : bool) (max : Z) (w : Wants)
    : Wants * BitswapMessage * list WlEntry * list WlEntry :=
  let '(w, peer_entries, bcst_entries, cs) := pending_entries supports_have w in
  let '(msg, sent_cancels, sent_peer, sent_bcst) :=
    build_message supports_have max peer_entries bcst_entries cs in
  let '(peer, msg, peer_entries) :=
    foldl retain_sent (peer_wants w, msg, []) (take sent_peer peer_entries) in
  let '(bcst, msg, bcst_entries) :=
    foldl retain_sent (bcst_wants w, msg, []) (take sent_bcst bcst_entries) in
  let '(cs, msg) := foldl take_cancel (cancels w, msg) (take sent_cancels cs) in
  ({| bcst_wants := bcst; peer_wants := peer; cancels := cs; wants_priority := wants_priority w |},
   msg, peer_entries, bcst_entries).

(** [extract_outgoing_message]; [dial] is the answer of [new_message_sender]. *)
Definition extract_outgoing_message (dial : option bool) (a : MessageQueueActor)
    : option (MessageQueueActor * BitswapMessage * list WlEntry * list WlEntry) :=
  supports_have ← match mq_sender a with Some s => Some s | None => dial end;
  let '(w, msg, peer_entries, bcst_entries) :=
    extract_wants supports_have (max_message_size (mq_config a)) (mq_wants a) in
  Some (mq_with_wants w (mq_with_sender (Some supports_have) a), msg, peer_entries, bcst_entries).

(** *** Sending *)

(** [simulate_dont_have_with_timeout] *)
Definition simulate_dont_have_with_timeout (now : Z) (wantlist : list Entry) (a : MessageQueueActor)
    : MessageQueueActor :=
  let pending_wants :=
    omap (λ e, if decide (entry_want_type e = WantType_Block ∧ entry_send_dont_have e = true ∧
                          wl_contains (entry_cid e) (rw_sent (peer_wants (mq_wants a))) = true)
               then Some (entry_cid e) else None) wantlist in
  mq_with_dh (dh_add_pending now pending_wants (mq_dh a)).1 a.

Definition record_sent_at (now : Z) (peer_entries bcst_entries : list WlEntry) (w : Wants) : Wants :=
  {| bcst_wants := foldl (λ r e, rw_set_sent_at (wl_cid e) now r) (bcst_wants w) bcst_entries;
     peer_wants := foldl (λ r e, rw_set_sent_at (wl_cid e) now r) (peer_wants w) peer_entries;
     cancels := cancels w; wants_priority := wants_priority w |}.

(** What the network answers while a message is sent: the sender that is opened
    if there is none yet, and whether the message is delivered *)
Record Net := { net_dial : option bool; net_send : bool }.

(** What the loop lets others see: messages and timeouts *)
Inductive mq_output := Sent (msg : BitswapMessage) | DontHaveTimeout (cids : list Cid).

Inductive mq_result {R : Type} := Continue (r : R) (out : list mq_output) | Fatal.
Arguments mq_result : clear implicits.

(** [send_message]; [Fatal] is the return value [true]. *)
Definition send_message (now : Z) (net : Net) (a : MessageQueueActor) : mq_result MessageQueueActor :=
  let a := mq_with_dh (dh_start (mq_dh a)) a in
  match extract_outgoing_message (net_dial net) a with
  | None => Fatal
  | Some (a, msg, peer_entries, bcst_entries) =>
      if message_is_empty msg then Continue a [] else
      let wantlist := message_wantlist msg in
      if negb (net_send net) then Fatal else
      let a := mq_with_wants (record_sent_at now peer_entries bcst_entries (mq_wants a)) a in
      let a := simulate_dont_have_with_timeout now wantlist a in
      Continue (if has_pending_work (mq_wants a) then signal_work now a else a) [Sent msg]
  end.

Definition send_if_ready (now : Z) (net : Net) (a : MessageQueueActor) : mq_result MessageQueueActor :=
  if has_pending_work (mq_wants a) then send_message now net a else Continue a [].

Definition rebroadcast_wantlist (now : Z) (net : Net) (a : MessageQueueActor) : mq_result MessageQueueActor :=
  match transfer_rebroadcast_wants (mq_wants a) with
  | Some w => send_message now net (mq_with_wants w a)
  | None => Continue a []
  end.

(** *** Responses *)

(** One iteration of the loop of [handle_response] *)
Definition response_cid (now max_latency : Z) (st : Wants * option Z) (cid : Cid) : Wants * option Z :=
  let earlier at_ earliest :=
    match earliest with None => true | Some e => at_ <? e end && (elapsed now at_ <? max_latency) in
  let '(w, earliest) := st in
  let '(w, earliest) :=
    match rw_sent_at (bcst_wants w) !! cid with
    | Some at_ =>
        ({| bcst_wants := rw_clear_sent_at cid (bcst_wants w); peer_wants := peer_wants w;
            cancels := cancels w; wants_priority := wants_priority w |},
         if earlier at_ earliest then Some at_ else earliest)
    | None => (w, earliest)
    end in
  match rw_sent_at (peer_wants w) !! cid with
  | Some at_ =>
      if earlier at_ earliest then
        ({| bcst_wants := bcst_wants w; peer_wants := rw_clear_sent_at cid (peer_wants w);
            cancels := cancels w; wants_priority := wants_priority w |}, Some at_)
      else (w, earliest)
  | None => (w, earliest)
  end.

(** [handle_response]; [timeout] is computed from the new latency. *)
Definition handle_response (now timeout : Z) (response : list Cid) (a : MessageQueueActor)
    : MessageQueueActor :=
  let '(w, earliest) :=
    foldl (response_cid now (max_valid_latency (mq_config a))) (mq_wants a, None) response in
  let a := mq_with_wants w a in
  match earliest with
  | Some _ => mq_with_dh (dh_update_message_latency timeout (mq_dh a)).1 a
  | None => a
  end.

(** ** The loop *)

(** The local variables of [run] and the actor *)
Record MqRun := {
  run_actor : MessageQueueActor;
  run_work_scheduled : option Z;
  run_schedule_work_enabled : bool
}.

Definition run_new (config : MqConfig) : MqRun :=
  {| run_actor := MessageQueueActor_new config; run_work_scheduled := None;
     run_schedule_work_enabled := false |}.

(** The branches of [select!], and the two things the worker of the timeout
    manager does: a ping that is answered and a check, which may run at any time *)
Inductive mq_event :=
  | EvWants (u : WantsUpdate)
  | EvResponse (timeout : Z) (response : list Cid)
  | EvRebroadcast
  | EvWork
  | EvTimer
  | EvPing (timeout : Z)
  | EvCheck.

Definition run_with (a : MessageQueueActor) (r : MqRun) : MqRun :=
  {| run_actor := a; run_work_scheduled := run_work_scheduled r;
     run_schedule_work_enabled := run_schedule_work_enabled r |}.

Definition mq_lift (f : MessageQueueActor → MqRun) (x : mq_result MessageQueueActor) : mq_result MqRun :=
  match x with Continue a out => Continue (f a) out | Fatal => Fatal end.

(** The branch [outgoing_work.recv()] with the received [when_] *)
Definition on_outgoing_work (now : Z) (net : Net) (when_ : Z) (r : MqRun) : mq_result MqRun :=
  let a := run_actor r in
  let '(scheduled, enabled) :=
    match run_work_scheduled r with
    | None => (when_, run_schedule_work_enabled r)
    | Some s => (s, false)
    end in
  if (send_message_cutoff (mq_config a) <? Z.of_nat (pending_work_count (mq_wants a)))
     || (send_message_max_delay (mq_config a) <=? elapsed now scheduled)
  then
    mq_lift (λ a, {| run_actor := a; run_work_scheduled := None; run_schedule_work_enabled := enabled |})
      (send_if_ready now net a)
  else Continue {| run_actor := a; run_work_scheduled := Some scheduled;
                   run_schedule_work_enabled := true |} [].

(** One iteration; [None] when the event cannot happen *)
Definition mq_step (now : Z) (net : Net) (ev : mq_event) (r : MqRun) : option (mq_result MqRun) :=
  let a := run_actor r in
  match ev with
  | EvWants u => Some (Continue (run_with (handle_wants_update now u a) r) [])
  | EvResponse timeout response => Some (Continue (run_with (handle_response now timeout response a) r) [])
  | EvRebroadcast => Some (mq_lift (λ a, run_with a r) (rebroadcast_wantlist now net a))
  | EvWork =>
      match mq_outgoing_work a with
      | when_ :: rest => Some (on_outgoing_work now net when_ (run_with (mq_with_work rest a) r))
      | [] => None
      end
  | EvTimer =>
      if run_schedule_work_enabled r then
        Some (mq_lift (λ a, {| run_actor := a; run_work_scheduled := None;
                               run_schedule_work_enabled := false |}) (send_if_ready now net a))
      else None
  | EvPing timeout => Some (Continue (run_with (mq_with_dh (dh_ping timeout (mq_dh a)) a) r) [])
  | EvCheck =>
      let '(d, expired, _) := dh_check_for_timeouts now (mq_dh a) in
      Some (Continue (run_with (mq_with_dh d a) r)
              (if decide (expired = []) then [] else [DontHaveTimeout expired]))
  end.
End actor.
