(* ===== verification/MessageQueueFacts.v ===== *)
(** * What the message queues promise

    The invariant of the actor, what a message carries, and the composition with
    the engine of the peer that receives the messages: its ledger mirrors what the
    queue was asked for.  Then the loop: work that is pending is sent, and the
    timeouts. *)

From stdpp Require Import prelude gmap fin_maps sorting.
From Stdlib Require Import ZArith Lia.
From S2P Require Import Prelude Cids Message Wantlist PriorityQueue TaskQueue TaskQueueFacts Engine EngineFacts.
From S2P Require Import EngineReceive MessageQueue.
Local Open Scope Z_scope.

(** ** Wants as a semilattice *)

(** No want, want-have and want-block, in this order *)
Definition wjoin (a b : option WantType) : option WantType :=
  match a, b with
  | Some WantType_Block, _ | _, Some WantType_Block => Some WantType_Block
  | Some WantType_Have, _ | _, Some WantType_Have => Some WantType_Have
  | None, None => None
  end.

Definition wle (a b : option WantType) : Prop := wjoin a b = b.

Ltac wjoin := repeat match goal with
  | o : option WantType |- _ => destruct o as [[]|]
  | t : WantType |- _ => destruct t
  end; try done; try congruence.

Lemma wjoin_comm a b : wjoin a b = wjoin b a. Proof. wjoin. Qed.
Lemma wjoin_assoc a b c : wjoin a (wjoin b c) = wjoin (wjoin a b) c. Proof. wjoin. Qed.
Lemma wjoin_idem a : wjoin a a = a. Proof. wjoin. Qed.
Lemma wjoin_None_l a : wjoin None a = a. Proof. wjoin. Qed.
Lemma wjoin_None_r a : wjoin a None = a. Proof. wjoin. Qed.
Lemma wjoin_eq_None a b : wjoin a b = None ↔ a = None ∧ b = None.
Proof. wjoin; naive_solver. Qed.
Lemma wle_refl a : wle a a. Proof. unfold wle. wjoin. Qed.
Lemma wle_join a b c d : wle a b → wle c d → wle (wjoin a c) (wjoin b d).
Proof. unfold wle. wjoin. Qed.
Lemma wle_None a : wle None a. Proof. unfold wle. wjoin. Qed.

Lemma elem_of_take_sub {A} (x : A) n l : x ∈ take n l → x ∈ l.
Proof. intros Hx. rewrite <-(take_drop n l). apply elem_of_app. by left. Qed.

Section wants.
Context `{Ids} `{HashOrder}.

(** The type of the want in a wantlist *)
Definition wt (w : Wantlist) (c : Cid) : option WantType := wl_want_type <$> wl_set w !! c.

Lemma wt_None w c : wt w c = None ↔ wl_set w !! c = None.
Proof. unfold wt. destruct (wl_set w !! c); naive_solver. Qed.

Lemma wt_default c : wt wl_default c = None.
Proof. unfold wt, wl_default. simpl. by rewrite lookup_empty. Qed.

Lemma wl_contains_wt c w : wl_contains c w = bool_decide (is_Some (wt w c)).
Proof. unfold wl_contains, wt. apply bool_decide_ext. by rewrite fmap_is_Some. Qed.

Lemma wt_add c p t w c' :
  wt (wl_add c p t w).1 c' = if decide (c' = c) then wjoin (wt w c) (Some t) else wt w c'.
Proof.
  unfold wt, wl_add. destruct (wl_set w !! c) as [e|] eqn:E.
  - destruct (decide (wl_want_type e = WantType_Block ∨ t = WantType_Have)) as [Hd|Hd]; simpl.
    + case_decide; [subst; rewrite E; simpl|done]. destruct (wl_want_type e) eqn:Ht, t; naive_solver.
    + rewrite lookup_insert. case_decide as Hc; case_decide; try naive_solver. simpl.
      destruct (wl_want_type e) eqn:Ht, t; naive_solver.
  - simpl. rewrite lookup_insert. case_decide; case_decide; try naive_solver. simpl. by destruct t.
Qed.

Lemma wt_delete c w l c' :
  wt {| wl_set := delete c (wl_set w); wl_cached := l |} c' = if decide (c' = c) then None else wt w c'.
Proof. unfold wt. simpl. rewrite lookup_delete. case_decide; case_decide; naive_solver. Qed.

Lemma wt_remove_have c w c' :
  wt (wl_remove_type c WantType_Have w).1 c'
  = if decide (c' = c ∧ wt w c = Some WantType_Have) then None else wt w c'.
Proof.
  unfold wt, wl_remove_type. destruct (wl_set w !! c) as [e|] eqn:E; simpl.
  - destruct (wl_want_type e) eqn:Ht; case_decide as Hd; try naive_solver; simpl.
    + rewrite decide_False by naive_solver. done.
    + rewrite lookup_delete. case_decide; case_decide; naive_solver.
  - rewrite decide_False by naive_solver. done.
Qed.

Lemma wt_extend other w c : wt (wl_extend other w) c = wjoin (wt w c) (wt other c).
Proof.
  unfold wt. rewrite wl_extend_lookup.
  destruct (wl_set w !! c) as [[? ? t1]|], (wl_set other !! c) as [[? ? t2]|]; simpl;
    [case_decide; simpl|..]; wjoin; naive_solver.
Qed.

Lemma wt_entries w c : wt (wl_entries w).1 c = wt w c.
Proof. done. Qed.

(** The entries of a well-formed wantlist *)
Lemma entries_elem w e :
  wl_wf w → e ∈ (wl_entries w).2 ↔ wl_set w !! wl_cid e = Some e.
Proof.
  intros Hw. destruct (wl_entries_spec w Hw) as (_ & _ & Hp & _). rewrite Hp, list_elem_of_fmap. split.
  - intros ([c e'] & -> & Hin%elem_of_map_to_list). simpl in *. by rewrite (wl_wf_set _ Hw _ _ Hin).
  - intros He. exists (wl_cid e, e). split; [done|]. by apply elem_of_map_to_list.
Qed.

Lemma entries_nodup w : wl_wf w → NoDup (wl_cid <$> (wl_entries w).2).
Proof.
  intros Hw. destruct (wl_entries_spec w Hw) as (_ & _ & Hp & _). rewrite Hp.
  replace (wl_cid <$> (map_to_list (wl_set w)).*2) with (map_to_list (wl_set w)).*1.
  - apply NoDup_fst_map_to_list.
  - rewrite <-list_fmap_compose. apply list_fmap_ext. intros i [c e] Hi. simpl.
    symmetry. apply (wl_wf_set _ Hw). apply elem_of_map_to_list. by eapply list_elem_of_lookup_2.
Qed.

(** ** Marking entries as sent *)

(** [l] was moved from the pending to the sent wants. *)
Record marked (l : list WlEntry) (r r' : RecallWantlist) : Prop := {
  marked_pending c : wl_set (rw_pending r') !! c
    = if decide (c ∈ wl_cid <$> l) then None else wl_set (rw_pending r) !! c;
  marked_sent c : wt (rw_sent r') c
    = if decide (c ∈ wl_cid <$> l) then wjoin (wt (rw_sent r) c) (wt (rw_pending r) c)
      else wt (rw_sent r) c;
  marked_sent_at : rw_sent_at r' = rw_sent_at r;
  marked_wf : wl_wf (rw_pending r) → wl_wf (rw_sent r) → wl_wf (rw_pending r') ∧ wl_wf (rw_sent r')
}.

Lemma marked_wt_pending l r r' c :
  marked l r r' →
  wt (rw_pending r') c = if decide (c ∈ wl_cid <$> l) then None else wt (rw_pending r) c.
Proof. intros Hm. unfold wt. rewrite (marked_pending _ _ _ Hm). by case_decide. Qed.

Lemma rw_mark_sent_spec e r :
  wl_set (rw_pending r) !! wl_cid e = Some e →
  (rw_mark_sent e r).2 = true ∧ marked [e] r (rw_mark_sent e r).1.
Proof.
  intros He. unfold rw_mark_sent, wl_remove_type. rewrite He.
  rewrite decide_False by (destruct (wl_want_type e); naive_solver). split; [done|].
  assert (∀ c, c ∈ wl_cid <$> [e] ↔ c = wl_cid e) as Hin by (intros; set_solver).
  split; simpl; [| |done|].
  - intros c. rewrite lookup_delete. repeat case_decide; naive_solver.
  - intros c. rewrite wt_add. assert (wt (rw_pending r) (wl_cid e) = Some (wl_want_type e)) as Ht
      by (unfold wt; by rewrite He).
    destruct (decide (c = wl_cid e)) as [->|]; [rewrite decide_True, Ht by set_solver|rewrite decide_False by set_solver]; done.
  - intros Hp Hs. split; [|by apply wl_add_wf]. by apply wl_delete_wf.
Qed.

Lemma marked_trans l1 l2 r1 r2 r3 :
  NoDup (wl_cid <$> l1 ++ l2) → marked l1 r1 r2 → marked l2 r2 r3 → marked (l1 ++ l2) r1 r3.
Proof.
  intros Hnd H1 H2. rewrite fmap_app in Hnd. apply NoDup_app in Hnd as (_ & Hd & _). split.
  - intros c. rewrite (marked_pending _ _ _ H2), (marked_pending _ _ _ H1), fmap_app.
    pose proof (elem_of_app (wl_cid <$> l1) (wl_cid <$> l2) c). repeat case_decide; naive_solver.
  - intros c. rewrite (marked_sent _ _ _ H2), (marked_sent _ _ _ H1), fmap_app.
    pose proof (elem_of_app (wl_cid <$> l1) (wl_cid <$> l2) c). rewrite (marked_wt_pending _ _ _ _ H1). specialize (Hd c).
    repeat case_decide; naive_solver.
  - by rewrite (marked_sent_at _ _ _ H2), (marked_sent_at _ _ _ H1).
  - intros Hp Hs. destruct (marked_wf _ _ _ H1 Hp Hs). by apply (marked_wf _ _ _ H2).
Qed.

Lemma marked_nil r : marked [] r r.
Proof. split; [..|done]; intros; rewrite ?decide_False by (simpl; apply not_elem_of_nil); done. Qed.
End wants.

(** ** What a message carries *)

Section extract.
Context `{Multiformats} `{Prost} `{HashOrder}.

Lemma retain_sent_fold l r msg kept :
  NoDup (wl_cid <$> l) → (∀ e, e ∈ l → wl_set (rw_pending r) !! wl_cid e = Some e) →
  ∃ r', foldl retain_sent (r, msg, kept) l = (r', msg, kept ++ l) ∧ marked l r r'.
Proof.
  revert r kept. induction l as [|e l IH]; intros r kept Hnd Hp; simpl.
  { exists r. rewrite app_nil_r. split; [done|apply marked_nil]. }
  destruct (rw_mark_sent_spec e r) as [Hm Hr]; [apply Hp; by left|].
  destruct (rw_mark_sent e r) as [r1 m1]. simpl in Hm, Hr. subst m1.
  pose proof Hnd as Hnd'. simpl in Hnd'. apply NoDup_cons in Hnd' as [He Hnd'].
  destruct (IH r1 (kept ++ [e]) Hnd') as (r' & Hf & Hr').
  { intros x Hx. rewrite (marked_pending _ _ _ Hr), decide_False; [apply Hp; by right|].
    intros Hc%list_elem_of_singleton. apply He. rewrite <-Hc. by apply list_elem_of_fmap_2. }
  exists r'. split; [by rewrite Hf, <-app_assoc|].
  by apply (marked_trans [e] l r r1 r').
Qed.

Lemma take_cancel_fold l cs msg :
  NoDup l → (∀ c, c ∈ l → c ∈ cs) →
  foldl take_cancel (cs, msg) l = (cs ∖ list_to_set l, msg).
Proof.
  revert cs. induction l as [|c l IH]; intros cs Hnd Hin; simpl.
  { f_equal. set_solver. }
  apply NoDup_cons in Hnd as [Hc Hnd]. rewrite decide_True by (apply Hin; by left).
  rewrite IH by set_solver. f_equal. set_solver.
Qed.

(** What [drop_have] leaves when no want-have was sent *)
Lemma drop_have_fold l r kept :
  NoDup (wl_cid <$> l) → (∀ e, e ∈ l → wl_set (rw_pending r) !! wl_cid e = Some e) →
  (∀ c, wt (rw_sent r) c ≠ Some WantType_Have) →
  ∃ r', foldl drop_have (r, kept) l = (r', kept ++ filter (λ e, wl_want_type e = WantType_Block) l) ∧
    rw_sent r' = rw_sent r ∧ rw_sent_at r' = rw_sent_at r ∧
    (wl_wf (rw_pending r) → wl_wf (rw_pending r')) ∧
    ∀ c, wl_set (rw_pending r') !! c
      = if decide (c ∈ wl_cid <$> filter (λ e, wl_want_type e = WantType_Have) l) then None
        else wl_set (rw_pending r) !! c.
Proof.
  revert r kept. induction l as [|e l IH]; intros r kept Hnd Hp Hs; simpl.
  { exists r. rewrite app_nil_r. split_and!; [done..|]. done. }
  apply NoDup_cons in Hnd as [He Hnd].
  destruct (wl_want_type e) eqn:Ht.
  - rewrite decide_False by done. destruct (IH r (kept ++ [e])) as (r' & Hf & Hr'); [done|set_solver|done|].
    exists r'. rewrite !filter_cons, Ht, decide_True, decide_False by done. by rewrite Hf, <-app_assoc.
  - rewrite decide_True by done.
    assert (wl_remove_type (wl_cid e) WantType_Have (rw_sent r) = (rw_sent r, None)) as Hrs.
    { unfold wl_remove_type. specialize (Hs (wl_cid e)). unfold wt in Hs.
      destruct (wl_set (rw_sent r) !! wl_cid e) as [x|]; [|done].
      destruct (wl_want_type x) eqn:Hx; simpl in Hs; [|congruence]. by rewrite decide_True. }
    assert (wl_set (rw_pending r) !! wl_cid e = Some e) as Hpe by (apply Hp; by left).
    assert (wl_remove_type (wl_cid e) WantType_Have (rw_pending r)
      = ({| wl_set := delete (wl_cid e) (wl_set (rw_pending r)); wl_cached := [] |}, Some e)) as Hrp.
    { unfold wl_remove_type. rewrite Hpe, decide_False by (intros [? _]; congruence). done. }
    unfold rw_remove_type. rewrite Hrs, Hrp. simpl.
    match goal with |- context [foldl drop_have (?r1, _) l] =>
      destruct (IH r1 kept Hnd) as (r' & Hf & Hs' & Ha & Hw & Hl); [|exact Hs|] end.
    { intros x Hx. simpl. rewrite lookup_delete_ne; [apply Hp; by right|].
      intros Hc. apply He. rewrite Hc. by apply list_elem_of_fmap_2. }
    exists r'. rewrite !filter_cons, Ht, decide_False, decide_True by done.
    split_and!; [done..|intros; apply Hw; by apply wl_delete_wf|].
    intros c. rewrite Hl. simpl. rewrite lookup_delete.
    set (l' := wl_cid <$> filter _ l). pose proof (elem_of_cons l' c (wl_cid e)).
    repeat case_decide; naive_solver.
Qed.

(** What a message says about a CID: whether it cancels, and the want type *)
Definition mview (m : BitswapMessage) (c : Cid) : option (bool * WantType) :=
  (λ x, (entry_cancel x, entry_want_type x)) <$> msg_wantlist m !! c.

Definition vadd (v : option (bool * WantType)) (ca : bool) (t : WantType) : option (bool * WantType) :=
  Some match v with
       | None => (ca, t)
       | Some (ca', t') => (ca || ca', default t (wjoin (Some t) (Some t')))
       end.

Lemma mview_add c p ca t sd m c' :
  mview (add_full_entry c p ca t sd m).1 c'
  = if decide (c' = c) then vadd (mview m c) ca t else mview m c'.
Proof.
  unfold mview, add_full_entry. destruct (msg_wantlist m !! c) as [x|] eqn:E; simpl;
    rewrite lookup_insert; repeat case_decide; try naive_solver; simpl.
  destruct ca, x as [? ? [] [] ?], t; simpl; naive_solver.
Qed.

(** Adding entries for different CIDs, all as cancels or all as wants *)
Lemma mview_fold {X} (key : X → Cid) (prio : X → Z) (ca : bool) (ty : X → WantType) (sd : bool) l m :
  NoDup (key <$> l) →
  let m' := foldl (λ m x, (add_full_entry (key x) (prio x) ca (ty x) sd m).1) m l in
  (∀ x, x ∈ l → mview m' (key x) = vadd (mview m (key x)) ca (ty x)) ∧
  (∀ c, c ∉ key <$> l → mview m' c = mview m c).
Proof.
  revert m. induction l as [|x l IH]; intros m Hnd; simpl; [set_solver|].
  apply NoDup_cons in Hnd as [Hx Hnd]. destruct (IH (add_full_entry (key x) (prio x) ca (ty x) sd m).1 Hnd) as [Ha Hb].
  split.
  - intros y [->|Hy]%elem_of_cons.
    + by rewrite Hb, mview_add, decide_True.
    + rewrite Ha by done. rewrite mview_add, decide_False; [done|]. intros Hk. apply Hx. rewrite <-Hk.
      by apply list_elem_of_fmap_2.
  - intros c [Hc1 Hc2]%not_elem_of_cons. by rewrite Hb, mview_add, decide_False.
Qed.

(** What stays the same while entries are added: blocks, presences, [full] *)
Record wants_only (m : BitswapMessage) : Prop := {
  wo_full : msg_full m = false;
  wo_blocks : msg_blocks m = ∅;
  wo_presences : msg_block_presences m = ∅;
  wo_wf : message_wf m
}.

Lemma wants_only_fold {X} (key : X → Cid) (prio : X → Z) (ca : bool) (ty : X → WantType) (sd : bool) l m :
  wants_only m →
  wants_only (foldl (λ m x, (add_full_entry (key x) (prio x) ca (ty x) sd m).1) m l).
Proof.
  intros Hm. apply foldl_invariant; [|done]. intros m' x _ [Hf Hb Hp Hw]. split.
  1-3: unfold add_full_entry; by destruct (msg_wantlist m' !! key x).
  by apply add_full_entry_wf.
Qed.

Lemma wants_only_new : wants_only (message_new false).
Proof. split; [done..|apply message_new_wf]. Qed.

Lemma fill_message_spec {X} (add : X → BitswapMessage → BitswapMessage * Z) max l msg size n :
  ∃ k size' done, fill_message add max l msg size n = (foldl (λ m x, (add x m).1) msg (take k l), size', (n + k)%nat, done) ∧
    (k ≤ length l)%nat ∧ (l ≠ [] → 0 < k)%nat ∧ (done = false → k = length l) ∧ (done = true → l ≠ []).
Proof.
  revert msg size n. induction l as [|x l IH]; intros msg size n; simpl.
  { exists 0%nat, size, false. rewrite Nat.add_0_r. naive_solver lia. }
  destruct (add x msg) as [m1 s1] eqn:E. case_match.
  - exists 1%nat, (size + s1), true. rewrite Nat.add_1_r. simpl. rewrite E. destruct l; simpl.
    all:
    split_and!; [done|lia|lia|done|done].
  - destruct (IH m1 (size + s1) (S n)) as (k & s' & d & Hf & Hk & Hk' & Hd & Hd').
    exists (S k), s', d. rewrite Hf. simpl. rewrite E. simpl.
    split_and!; [by rewrite Nat.add_succ_r|lia|lia|intros ?; f_equal; auto|done].
Qed.

(** *** The invariant of the wants *)

Record wants_ok (w : Wants) : Prop := {
  ok_bcst_pending : wl_wf (rw_pending (bcst_wants w));
  ok_bcst_sent : wl_wf (rw_sent (bcst_wants w));
  ok_peer_pending : wl_wf (rw_pending (peer_wants w));
  ok_peer_sent : wl_wf (rw_sent (peer_wants w));
  ok_bcst_have c : wt (rw_pending (bcst_wants w)) c ≠ Some WantType_Block ∧
                   wt (rw_sent (bcst_wants w)) c ≠ Some WantType_Block;
  ok_cancels c : c ∈ cancels w →
    wt (rw_pending (bcst_wants w)) c = None ∧ wt (rw_sent (bcst_wants w)) c = None ∧
    wt (rw_pending (peer_wants w)) c = None ∧ wt (rw_sent (peer_wants w)) c = None;
  ok_sent_at : rw_sent_at (bcst_wants w) = ∅ ∧ rw_sent_at (peer_wants w) = ∅
}.

(** A peer without want-haves was only sent want-blocks. *)
Definition blocks_only (w : Wantlist) : Prop := ∀ c, wt w c ≠ Some WantType_Have.

(** The pending peer wants that can be sent *)
Definition sendable (sh : bool) (w : Wants) (c : Cid) : option WantType :=
  match wt (rw_pending (peer_wants w)) c with
  | Some WantType_Have => if sh then Some WantType_Have else None
  | o => o
  end.

Definition elem_if {A} (b : bool) (x : option A) : option A := if b then x else None.
Definition among (c : Cid) (l : list WlEntry) : bool := bool_decide (c ∈ wl_cid <$> l).

(** What [extract_wants] does: [cs], [pe] and [be] are the cancels, peer wants and
    broadcast wants in the message. *)
Record extracted (sh : bool) (w w' : Wants) (msg : BitswapMessage) (cs : list Cid) (pe be : list WlEntry)
    : Prop := {
  ex_peer_pending c : wt (rw_pending (peer_wants w')) c = elem_if (negb (among c pe)) (sendable sh w c);
  ex_peer_sent c : wt (rw_sent (peer_wants w')) c
    = wjoin (wt (rw_sent (peer_wants w)) c) (elem_if (among c pe) (sendable sh w c));
  ex_peer_in c : among c pe = true → is_Some (sendable sh w c);
  ex_bcst_pending c : wt (rw_pending (bcst_wants w')) c
    = elem_if (negb (among c be)) (wt (rw_pending (bcst_wants w)) c);
  ex_bcst_sent c : wt (rw_sent (bcst_wants w')) c
    = wjoin (wt (rw_sent (bcst_wants w)) c) (elem_if (among c be) (wt (rw_pending (bcst_wants w)) c));
  ex_bcst_in c : among c be = true → wt (rw_pending (bcst_wants w)) c = Some WantType_Have;
  ex_cancels : cancels w' = cancels w ∖ list_to_set cs;
  ex_cancels_in c : c ∈ cs → c ∈ cancels w;
  ex_message c : mview msg c
    = if decide (c ∈ cs) then Some (true, WantType_Block)
      else pair false <$> wjoin (elem_if (among c pe) (sendable sh w c))
                                (elem_if (among c be) (Some (bcst_type sh)));
  ex_wants_only : wants_only msg;
  ex_wf : wl_wf (rw_pending (bcst_wants w')) ∧ wl_wf (rw_sent (bcst_wants w')) ∧
          wl_wf (rw_pending (peer_wants w')) ∧ wl_wf (rw_sent (peer_wants w'));
  ex_sent_at : rw_sent_at (bcst_wants w') = ∅ ∧ rw_sent_at (peer_wants w') = ∅;
  ex_progress : cs = [] → pe = [] → be = [] →
    cancels w = ∅ ∧ (∀ c, sendable sh w c = None) ∧ (∀ c, wt (rw_pending (bcst_wants w)) c = None)
}.

(** The lists of [pending_entries] *)
Lemma pending_entries_spec sh w w1 pe be cs :
  wants_ok w → (sh = false → blocks_only (rw_sent (peer_wants w))) →
  pending_entries sh w = (w1, pe, be, cs) →
  bcst_wants w1 = rw_with_pending (wl_entries (rw_pending (bcst_wants w))).1 (bcst_wants w) ∧
  be = (wl_entries (rw_pending (bcst_wants w))).2 ∧ cs = hs_iter (cancels w) ∧ cancels w1 = cancels w ∧
  rw_sent (peer_wants w1) = rw_sent (peer_wants w) ∧
  rw_sent_at (peer_wants w1) = rw_sent_at (peer_wants w) ∧
  wl_wf (rw_pending (peer_wants w1)) ∧
  NoDup (wl_cid <$> pe) ∧
  (∀ e, e ∈ pe ↔ wl_set (rw_pending (peer_wants w1)) !! wl_cid e = Some e) ∧
  (∀ c, wt (rw_pending (peer_wants w1)) c = sendable sh w c).
Proof.
  intros Hw Hsh. unfold pending_entries.
  pose proof (ok_peer_pending _ Hw) as Hp. pose proof (entries_nodup _ Hp) as Hnd.
  assert (∀ e, e ∈ (wl_entries (rw_pending (peer_wants w))).2 ↔
    wl_set (rw_pending (peer_wants w)) !! wl_cid e = Some e) as Hel by (intros; by apply entries_elem).
  destruct (wl_entries_spec _ Hp) as (Hwf & Hset & _ & _).
  destruct (wl_entries (rw_pending (peer_wants w))) as [pend es] eqn:E1. simpl in *.
  destruct (wl_entries (rw_pending (bcst_wants w))) as [bpend bes] eqn:E2.
  destruct sh.
  - intros [= <- <- <- <-]. simpl. rewrite Hset. split_and!; try done. intros c. unfold wt, sendable.
    rewrite Hset. unfold wt. by destruct (wl_set _ !! c) as [[? ? []]|].
  - destruct (drop_have_fold es (rw_with_pending pend (peer_wants w)) []) as (r' & Hf & Hs & Ha & Hw' & Hl).
    { done. }
    { intros e He. simpl. rewrite Hset. by apply Hel. }
    { by apply Hsh. }
    rewrite Hf. intros [= <- <- <- <-]. simpl in *. rewrite Hset in Hl.
    assert (∀ c, wl_set (rw_pending r') !! c =
      match wl_set (rw_pending (peer_wants w)) !! c with
      | Some e => if decide (wl_want_type e = WantType_Have) then None else Some e
      | None => None end) as Hl'.
    { intros c. rewrite Hl. destruct (wl_set (rw_pending (peer_wants w)) !! c) as [e|] eqn:Ee.
      - pose proof (wl_wf_set _ Hp _ _ Ee) as Hc. destruct (decide (wl_want_type e = WantType_Have)) as [Ht|Ht].
        + rewrite decide_True; [done|]. rewrite <-Hc. apply list_elem_of_fmap_2, list_elem_of_filter.
          split; [done|]. apply Hel. by rewrite Hc.
        + rewrite decide_False; [done|]. intros (x & Hx & [Hxt Hxe]%list_elem_of_filter)%list_elem_of_fmap.
          apply Hel in Hxe. rewrite <-Hx in Hxe. congruence.
      - by case_decide. }
    split_and!; try done.
    + by apply Hw'.
    + eapply sublist_NoDup; [exact Hnd|]. apply fmap_sublist, sublist_filter.
    + intros e. rewrite list_elem_of_filter, Hel, Hl'.
      destruct (wl_set _ !! wl_cid e) as [x|]; [|split; [by intros [? ?]|done]].
      destruct (decide (wl_want_type x = WantType_Have)) as [Hd|Hd]; split.
      * intros [? [= ->]]. congruence.
      * done.
      * by intros [_ [= ->]].
      * intros [= ->]. split; [destruct (wl_want_type e); congruence|done].
    + intros c. unfold wt at 1, sendable. rewrite Hl'. unfold wt.
      by destruct (wl_set _ !! c) as [[? ? []]|].
Qed.

(** A message with the given cancels, peer wants and broadcast wants *)
Definition message_of (sh : bool) (cs : list Cid) (pe be : list WlEntry) : BitswapMessage :=
  let m := foldl (λ m c, (message_cancel c m).1) (message_new false) cs in
  let m := foldl (λ m e, (add_entry (wl_cid e) (wl_priority e) (wl_want_type e) true m).1) m pe in
  foldl (λ m e, (add_entry (wl_cid e) (wl_priority e) (bcst_type sh) false m).1) m be.

Lemma build_message_spec sh max pe be cs msg nc np nb :
  build_message sh max pe be cs = (msg, nc, np, nb) →
  msg = message_of sh (take nc cs) (take np pe) (take nb be) ∧
  (take nc cs = [] → take np pe = [] → take nb be = [] → cs = [] ∧ pe = [] ∧ be = []).
Proof.
  unfold build_message, message_of.
  destruct (fill_message_spec message_cancel max cs (message_new false) 0 0) as (k & s1 & d1 & -> & Hk & Hk1 & Hd & Hd').
  assert (take k cs = [] → cs = []) as Hcs.
  { intros Ht. destruct cs; [done|]. destruct k; [|done]. exfalso. assert (0 < 0)%nat by auto. lia. }
  destruct d1.
  { intros [= <- <- <- <-]. rewrite !take_0. split; [done|]. intros Ht _ _. destruct (Hd' eq_refl). auto. }
  match goal with |- context [fill_message ?f max pe ?m ?s 0] =>
    destruct (fill_message_spec f max pe m s 0) as (k2 & s2 & d2 & -> & Hk2 & Hk12 & Hd2 & Hd2') end.
  assert (take k2 pe = [] → pe = []) as Hpe.
  { intros Ht. destruct pe; [done|]. destruct k2; [|done]. exfalso. assert (0 < 0)%nat by auto. lia. }
  destruct d2.
  { intros [= <- <- <- <-]. rewrite !take_0. split; [done|]. intros _ Ht _. destruct (Hd2' eq_refl). auto. }
  match goal with |- context [fill_message ?f max be ?m ?s 0] =>
    destruct (fill_message_spec f max be m s 0) as (k3 & s3 & d3 & -> & Hk3 & Hk13 & Hd3 & Hd3') end.
  intros [= <- <- <- <-]. split; [done|]. intros Hc Hp Hb. split_and!; [by apply Hcs|by apply Hpe|].
  destruct be; [done|]. destruct k3; [|done]. exfalso. assert (0 < 0)%nat by auto. lia.
Qed.

Lemma message_of_wants_only sh cs pe be : wants_only (message_of sh cs pe be).
Proof.
  unfold message_of, add_entry, message_cancel.
  apply (wants_only_fold wl_cid wl_priority false (λ _, bcst_type sh) false).
  apply (wants_only_fold wl_cid wl_priority false wl_want_type true).
  apply (wants_only_fold id (λ _, 0) true (λ _, WantType_Block) false). apply wants_only_new.
Qed.

Lemma message_of_view sh cs pe be (tp : Cid → option WantType) c :
  NoDup cs → NoDup (wl_cid <$> pe) → NoDup (wl_cid <$> be) →
  (∀ e, e ∈ pe → tp (wl_cid e) = Some (wl_want_type e)) →
  (∀ c, c ∈ cs → among c pe = false ∧ among c be = false) →
  mview (message_of sh cs pe be) c
  = if decide (c ∈ cs) then Some (true, WantType_Block)
    else pair false <$> wjoin (elem_if (among c pe) (tp c)) (elem_if (among c be) (Some (bcst_type sh))).
Proof.
  intros Hc Hp Hb Ht Hd. unfold message_of, add_entry, message_cancel.
  set (m1 := foldl _ _ cs). set (m2 := foldl _ m1 pe).
  destruct (mview_fold wl_cid wl_priority false (λ _, bcst_type sh) false be m2 Hb) as [Hb1 Hb2].
  destruct (mview_fold wl_cid wl_priority false wl_want_type true pe m1 Hp) as [Hp1 Hp2].
  destruct (mview_fold id (λ _, 0) true (λ _, WantType_Block) false cs (message_new false)) as [Hc1 Hc2].
  { by rewrite list_fmap_id. }
  rewrite list_fmap_id in Hc2.
  assert (mview m1 c = if decide (c ∈ cs) then Some (true, WantType_Block) else None) as Hm1.
  { case_decide; [by apply (Hc1 c)|]. by apply Hc2. }
  assert (mview m2 c = if decide (c ∈ cs) then Some (true, WantType_Block)
    else pair false <$> elem_if (among c pe) (tp c)) as Hm2.
  { specialize (Hd c). unfold among in *. destruct (decide (c ∈ wl_cid <$> pe)) as [Hin|Hin].
    - rewrite bool_decide_eq_true_2 in * by done. rewrite decide_False in Hm1 |- * by naive_solver.
      apply list_elem_of_fmap in Hin as (e & -> & He). unfold m2. rewrite Hp1, Hm1 by done. simpl.
      by rewrite Ht.
    - rewrite bool_decide_eq_false_2 by done. unfold m2. rewrite Hp2, Hm1 by done. by case_decide. }
  specialize (Hd c). destruct (among c be) eqn:Eb; unfold among in Eb.
  - apply bool_decide_eq_true in Eb. rewrite decide_False in Hm2 |- * by naive_solver.
    apply list_elem_of_fmap in Eb as (e & -> & He). rewrite Hb1, Hm2 by done. simpl.
    destruct (elem_if (among (wl_cid e) pe) (tp (wl_cid e))) as [[]|], sh; done.
  - apply bool_decide_eq_false in Eb. rewrite Hb2, Hm2 by done. case_decide; [done|].
    simpl. by rewrite wjoin_None_r.
Qed.

Lemma marked_views l r r' c :
  marked l r r' →
  wt (rw_pending r') c = elem_if (negb (among c l)) (wt (rw_pending r) c) ∧
  wt (rw_sent r') c = wjoin (wt (rw_sent r) c) (elem_if (among c l) (wt (rw_pending r) c)).
Proof.
  intros Hm. rewrite (marked_wt_pending _ _ _ _ Hm), (marked_sent _ _ _ Hm). unfold among.
  destruct (decide (c ∈ wl_cid <$> l)).
  - by rewrite bool_decide_eq_true_2.
  - rewrite bool_decide_eq_false_2 by done. simpl. by rewrite wjoin_None_r.
Qed.

Lemma extract_wants_spec sh max w w' msg pe be :
  wants_ok w → (sh = false → blocks_only (rw_sent (peer_wants w))) →
  extract_wants sh max w = (w', msg, pe, be) →
  ∃ cs, extracted sh w w' msg cs pe be.
Proof.
  intros Hw Hsh. unfold extract_wants.
  destruct (pending_entries sh w) as [[[w1 pe1] be1] cs1] eqn:E1.
  destruct (pending_entries_spec sh w w1 pe1 be1 cs1 Hw Hsh E1)
    as (Hb1 & Hbe & Hcs & Hc1 & Hs1 & Ha1 & Hwf1 & Hnd & Hel & Hv).
  destruct (build_message sh max pe1 be1 cs1) as [[[m nc] np] nb] eqn:E2.
  apply build_message_spec in E2 as [-> Hprog].
  pose proof (ok_bcst_pending _ Hw) as Hbp.
  assert (NoDup (wl_cid <$> take np pe1)) as Hnp.
  { eapply sublist_NoDup; [exact Hnd|]. apply fmap_sublist, sublist_take. }
  assert (NoDup (wl_cid <$> take nb be1)) as Hnb.
  { eapply sublist_NoDup; [apply (entries_nodup _ Hbp)|]. rewrite <-Hbe. apply fmap_sublist, sublist_take. }
  assert (∀ e, e ∈ take np pe1 → wl_set (rw_pending (peer_wants w1)) !! wl_cid e = Some e) as Hpin.
  { intros e He. apply Hel. by eapply elem_of_take_sub. }
  assert (∀ e, e ∈ take nb be1 → wl_set (rw_pending (bcst_wants w1)) !! wl_cid e = Some e) as Hbin.
  { intros e He. rewrite Hb1. simpl. apply entries_elem; [done|]. rewrite <-Hbe. by eapply elem_of_take_sub. }
  assert (∀ e, e ∈ take np pe1 → sendable sh w (wl_cid e) = Some (wl_want_type e)) as Hpt.
  { intros e He. rewrite <-Hv. unfold wt. by rewrite Hpin. }
  assert (∀ c, wt (rw_pending (bcst_wants w1)) c = wt (rw_pending (bcst_wants w)) c) as Hbt
    by (intros c; by rewrite Hb1).
  destruct (retain_sent_fold (take np pe1) (peer_wants w1)
    (message_of sh (take nc cs1) (take np pe1) (take nb be1)) [] Hnp Hpin) as (peer & -> & Hmp).
  destruct (retain_sent_fold (take nb be1) (bcst_wants w1)
    (message_of sh (take nc cs1) (take np pe1) (take nb be1)) [] Hnb Hbin) as (bcst & -> & Hmb).
  assert (∀ c, c ∈ take nc cs1 → c ∈ cancels w) as Hcin.
  { intros c Hc. apply elem_of_hs_iter. rewrite <-Hcs. by eapply elem_of_take_sub. }
  assert (NoDup (take nc cs1)) as Hnc.
  { eapply sublist_NoDup; [apply (NoDup_hs_iter (cancels w))|]. rewrite <-Hcs. apply sublist_take. }
  rewrite Hc1, take_cancel_fold by done. intros [= <- <- <- <-].
  assert (∀ c, among c (take np pe1) = true → is_Some (sendable sh w c)) as Hpe.
  { intros c (e & -> & He)%bool_decide_eq_true%list_elem_of_fmap. rewrite Hpt by done. eauto. }
  assert (∀ c, among c (take nb be1) = true → wt (rw_pending (bcst_wants w)) c = Some WantType_Have) as Hbe'.
  { intros c (e & -> & He)%bool_decide_eq_true%list_elem_of_fmap.
    pose proof (proj1 (ok_bcst_have _ Hw (wl_cid e))) as Hn. rewrite <-Hbt in *. unfold wt in *.
    rewrite Hbin in * by done. simpl in *. by destruct (wl_want_type e). }
  exists (take nc cs1). split; simpl; try done.
  - intros c. rewrite <-Hv. apply (marked_views _ _ _ c Hmp).
  - intros c. rewrite <-Hv, <-Hs1. apply (marked_views _ _ _ c Hmp).
  - intros c. rewrite <-Hbt. apply (marked_views _ _ _ c Hmb).
  - intros c. rewrite <-Hbt. rewrite (proj2 (marked_views _ _ _ c Hmb)). by rewrite Hb1.
  - intros c. apply message_of_view; try done. intros c' Hc'. apply Hcin in Hc'.
    destruct (ok_cancels _ Hw _ Hc') as (Hx1 & _ & Hx2 & _). split.
    + destruct (among c' (take np pe1)) eqn:Ea; [|done]. apply Hpe in Ea. unfold sendable in Ea.
      rewrite Hx2 in Ea. by destruct Ea.
    + destruct (among c' (take nb be1)) eqn:Ea; [|done]. apply Hbe' in Ea. congruence.
  - apply message_of_wants_only.
  - destruct (marked_wf _ _ _ Hmp) as [? ?]; [done|rewrite Hs1; apply Hw|].
    destruct (marked_wf _ _ _ Hmb) as [? ?]; [|rewrite Hb1; apply Hw|done].
    rewrite Hb1. simpl. by apply wl_entries_spec.
  - rewrite (marked_sent_at _ _ _ Hmb), (marked_sent_at _ _ _ Hmp), Ha1, Hb1. apply Hw.
  - intros Ht1 Ht2 Ht3. destruct (Hprog Ht1 Ht2 Ht3) as (Hz1 & Hz2 & Hz3). split_and!.
    + apply elem_of_equiv_empty_L. intros c. rewrite <-elem_of_hs_iter, <-Hcs, Hz1. apply not_elem_of_nil.
    + intros c. rewrite <-Hv. apply wt_None. destruct (wl_set _ !! c) as [e|] eqn:Ee; [|done].
      pose proof (wl_wf_set _ Hwf1 _ _ Ee) as Hc. rewrite <-Hc in Ee. apply Hel in Ee. rewrite Hz2 in Ee.
      by apply not_elem_of_nil in Ee.
    + intros c. apply wt_None. destruct (wl_set _ !! c) as [e|] eqn:Ee; [|done].
      pose proof (wl_wf_set _ Hbp _ _ Ee) as Hc. rewrite <-Hc in Ee. apply entries_elem in Ee; [|done].
      rewrite <-Hbe, Hz3 in Ee. by apply not_elem_of_nil in Ee.
Qed.
End extract.

(** ** The remote side *)

Section mirror.
Context `{Multiformats} `{Prost} `{HashOrder}.

(** The wants of the queue that the peer should know, as it sees them *)
Definition known (sh : bool) (w : Wants) (c : Cid) : option WantType :=
  wjoin (wt (rw_sent (peer_wants w)) c)
        ((λ _, bcst_type sh) <$> wt (rw_sent (bcst_wants w)) c).

(** All the wants of the queue *)
Definition asked (w : Wants) (c : Cid) : option WantType :=
  wjoin (wjoin (wt (rw_pending (peer_wants w)) c) (wt (rw_sent (peer_wants w)) c))
        (wjoin (wt (rw_pending (bcst_wants w)) c) (wt (rw_sent (bcst_wants w)) c)).

(** What a message does to the wants of a peer, and a list of messages *)
Definition receive (R : Cid → option WantType) (m : BitswapMessage) (c : Cid) : option WantType :=
  match mview m c with
  | Some (true, _) => None
  | Some (false, t) => wjoin (R c) (Some t)
  | None => R c
  end.

Definition mirror_low (sh : bool) (w : Wants) (R : Cid → option WantType) : Prop :=
  ∀ c, wle (known sh w c) (R c).
Definition mirror_exact (sh : bool) (w : Wants) (R : Cid → option WantType) : Prop :=
  ∀ c, c ∉ cancels w → R c = known sh w c.

Lemma extracted_ok sh w w' msg cs pe be :
  wants_ok w → extracted sh w w' msg cs pe be → wants_ok w'.
Proof.
  intros Hw Hx. split.
  1-4: apply (ex_wf _ _ _ _ _ _ _ Hx).
  - intros c. rewrite (ex_bcst_pending _ _ _ _ _ _ _ Hx), (ex_bcst_sent _ _ _ _ _ _ _ Hx).
    destruct (ok_bcst_have _ Hw c). destruct (wt (rw_pending (bcst_wants w)) c) as [[]|],
      (wt (rw_sent (bcst_wants w)) c) as [[]|], (among c be); simpl; split; congruence.
  - intros c. rewrite (ex_cancels _ _ _ _ _ _ _ Hx). intros [Hc _]%elem_of_difference.
    destruct (ok_cancels _ Hw c Hc) as (Q1 & Q2 & Q3 & Q4).
    rewrite (ex_bcst_pending _ _ _ _ _ _ _ Hx), (ex_bcst_sent _ _ _ _ _ _ _ Hx),
      (ex_peer_pending _ _ _ _ _ _ _ Hx), (ex_peer_sent _ _ _ _ _ _ _ Hx).
    unfold sendable. rewrite Q1, Q2, Q3, Q4. by destruct (among c be), (among c pe).
  - apply (ex_sent_at _ _ _ _ _ _ _ Hx).
Qed.

Lemma extracted_blocks_only w w' msg cs pe be :
  extracted false w w' msg cs pe be → blocks_only (rw_sent (peer_wants w)) →
  blocks_only (rw_sent (peer_wants w')).
Proof.
  intros Hx Hb c. rewrite (ex_peer_sent _ _ _ _ _ _ _ Hx). specialize (Hb c). unfold sendable.
  destruct (wt (rw_sent (peer_wants w)) c) as [[]|], (wt (rw_pending (peer_wants w)) c) as [[]|], (among c pe);
    simpl; congruence.
Qed.

(** The message adds to the peer's wants what the queue has marked as sent. *)
Lemma extracted_known sh w w' msg cs pe be c :
  extracted sh w w' msg cs pe be →
  known sh w' c = wjoin (known sh w c)
    (wjoin (elem_if (among c pe) (sendable sh w c)) (elem_if (among c be) (Some (bcst_type sh)))).
Proof.
  intros Hx. unfold known. rewrite (ex_peer_sent _ _ _ _ _ _ _ Hx), (ex_bcst_sent _ _ _ _ _ _ _ Hx).
  pose proof (ex_bcst_in _ _ _ _ _ _ _ Hx c) as Hb.
  destruct (among c be); simpl; [rewrite Hb by done|rewrite !wjoin_None_r].
  - destruct (elem_if (among c pe) (sendable sh w c)) as [[]|], (wt (rw_sent (peer_wants w)) c) as [[]|],
      (wt (rw_sent (bcst_wants w)) c) as [[]|], sh; done.
  - destruct (elem_if (among c pe) (sendable sh w c)) as [[]|], (wt (rw_sent (peer_wants w)) c) as [[]|],
      (wt (rw_sent (bcst_wants w)) c) as [[]|], sh; done.
Qed.

Lemma extracted_receive sh w w' msg cs pe be R c :
  extracted sh w w' msg cs pe be →
  receive R msg c = if decide (c ∈ cs) then None
    else wjoin (R c) (wjoin (elem_if (among c pe) (sendable sh w c)) (elem_if (among c be) (Some (bcst_type sh)))).
Proof.
  intros Hx. unfold receive. rewrite (ex_message _ _ _ _ _ _ _ Hx). case_decide; [done|].
  destruct (wjoin _ _) as [t|]; simpl; [done|by rewrite wjoin_None_r].
Qed.

Lemma cancels_unknown sh w c : wants_ok w → c ∈ cancels w → known sh w c = None ∧ asked w c = None.
Proof.
  intros Hw Hc. destruct (ok_cancels _ Hw c Hc) as (Q1 & Q2 & Q3 & Q4). unfold known, asked.
  by rewrite Q1, Q2, Q3, Q4.
Qed.

Lemma extracted_mirror sh w w' msg cs pe be R :
  wants_ok w → extracted sh w w' msg cs pe be →
  (mirror_low sh w R → mirror_low sh w' (receive R msg)) ∧
  (mirror_exact sh w R → mirror_exact sh w' (receive R msg)).
Proof.
  intros Hw Hx. pose proof (extracted_ok _ _ _ _ _ _ _ Hw Hx) as Hw'. split.
  - intros Hl c. rewrite (extracted_receive _ _ _ _ _ _ _ _ _ Hx). case_decide as Hc.
    + pose proof (ex_cancels_in _ _ _ _ _ _ _ Hx c Hc) as Hin.
      rewrite (extracted_known _ _ _ _ _ _ _ _ Hx), (proj1 (cancels_unknown sh w c Hw Hin)).
      destruct (ok_cancels _ Hw c Hin) as (Q1 & _ & Q3 & _).
      pose proof (ex_bcst_in _ _ _ _ _ _ _ Hx c) as Hb. unfold sendable. rewrite Q3.
      destruct (among c be), (among c pe); simpl; try apply wle_None; specialize (Hb eq_refl); congruence.
    + rewrite (extracted_known _ _ _ _ _ _ _ _ Hx). apply wle_join; [apply Hl|apply wle_refl].
  - intros He c. rewrite (ex_cancels _ _ _ _ _ _ _ Hx), not_elem_of_difference, elem_of_list_to_set.
    rewrite (extracted_receive _ _ _ _ _ _ _ _ _ Hx), (extracted_known _ _ _ _ _ _ _ _ Hx). intros Hc. case_decide as Hd.
    + pose proof (ex_cancels_in _ _ _ _ _ _ _ Hx c Hd) as Hin.
      rewrite (proj1 (cancels_unknown sh w c Hw Hin)). destruct (ok_cancels _ Hw c Hin) as (Q1 & _ & Q3 & _).
      pose proof (ex_bcst_in _ _ _ _ _ _ _ Hx c) as Hb. unfold sendable. rewrite Q3.
      destruct (among c be), (among c pe); simpl; try done; specialize (Hb eq_refl); congruence.
    + by rewrite He by tauto.
Qed.

(** With want-haves, sending moves wants but neither adds nor loses any. *)
Lemma extracted_asked w w' msg cs pe be c :
  extracted true w w' msg cs pe be → asked w' c = asked w c.
Proof.
  intros Hx. unfold asked. rewrite (ex_bcst_pending _ _ _ _ _ _ _ Hx), (ex_bcst_sent _ _ _ _ _ _ _ Hx),
    (ex_peer_pending _ _ _ _ _ _ _ Hx), (ex_peer_sent _ _ _ _ _ _ _ Hx).
  unfold sendable. destruct (wt (rw_pending (peer_wants w)) c) as [[]|], (wt (rw_sent (peer_wants w)) c) as [[]|],
    (wt (rw_pending (bcst_wants w)) c) as [[]|], (wt (rw_sent (bcst_wants w)) c) as [[]|],
    (among c be), (among c pe); done.
Qed.
End mirror.
