(* ===== verification/MessageQueueRun.v ===== *)
(** * The message queue as it runs

    The invariant of the actor over the events of its loop, and the theorems on
    whole runs: the ledger of the peer mirrors the wants of the queue, pending work
    is sent, and what becomes of the timeouts. *)

From stdpp Require Import prelude gmap fin_maps sorting.
From Stdlib Require Import ZArith Lia.
From S2P Require Import Prelude Cids Message Wantlist PriorityQueue TaskQueue TaskQueueFacts Engine EngineFacts.
From S2P Require Import EngineReceive MessageQueue MessageQueueFacts.
Local Open Scope Z_scope.

Section updates.
Context `{Multiformats} `{Prost} `{HashOrder}.

Definition mem (c : Cid) (l : list Cid) : bool := bool_decide (c ∈ l).

Lemma mem_cons c x l : mem c (x :: l) = bool_decide (c = x) || mem c l.
Proof. unfold mem. rewrite <-bool_decide_or. apply bool_decide_ext. set_solver. Qed.

(** ** The updates *)

(** What an update asks for *)
Definition request (u : WantsUpdate) (f : Cid → option WantType) (c : Cid) : option WantType :=
  match u with
  | BroadcastWantHaves hs => wjoin (f c) (elem_if (bool_decide (c ∈ hs)) (Some WantType_Have))
  | UpdateWants bs hs =>
      wjoin (wjoin (f c) (elem_if (mem c hs) (Some WantType_Have))) (elem_if (mem c bs) (Some WantType_Block))
  | Cancels cs => if bool_decide (c ∈ cs) then None else f c
  end.

(** The CIDs that an update wants *)
Definition wanted_by (u : WantsUpdate) : gset Cid :=
  match u with
  | BroadcastWantHaves hs => hs
  | UpdateWants bs hs => list_to_set bs ∪ list_to_set hs
  | Cancels _ => ∅
  end.

(** [r'] is [r] with pending wants of type [t] for [l]. *)
Record pended (t : WantType) (l : list Cid) (r r' : RecallWantlist) : Prop := {
  pd_pending c : wt (rw_pending r') c = wjoin (wt (rw_pending r) c) (elem_if (mem c l) (Some t));
  pd_sent : rw_sent r' = rw_sent r;
  pd_sent_at : rw_sent_at r' = rw_sent_at r;
  pd_wf : wl_wf (rw_pending r) → wl_wf (rw_pending r')
}.

Lemma pended_nil t r : pended t [] r r.
Proof. split; [|done..]. intros c. simpl. by rewrite wjoin_None_r. Qed.

Lemma pended_cons t x p l r r' :
  pended t l (rw_add x p t r) r' → pended t (x :: l) r r'.
Proof.
  intros Hp. split.
  - intros c. rewrite (pd_pending _ _ _ _ Hp), mem_cons. simpl. rewrite wt_add.
    destruct (decide (c = x)) as [->|Hc].
    + rewrite bool_decide_eq_true_2 by done. simpl. destruct (wt (rw_pending r) x) as [[]|], t, (mem x l); done.
    + by rewrite bool_decide_eq_false_2.
  - by rewrite (pd_sent _ _ _ _ Hp).
  - by rewrite (pd_sent_at _ _ _ _ Hp).
  - intros Hw. apply (pd_wf _ _ _ _ Hp). by apply wl_add_wf.
Qed.

Lemma want_bcst_fold l w :
  let w' := foldl want_bcst w l in
  pended WantType_Have l (bcst_wants w) (bcst_wants w') ∧ peer_wants w' = peer_wants w ∧
  cancels w' = cancels w ∖ list_to_set l.
Proof.
  revert w. induction l as [|x l IH]; intros w; simpl.
  { split_and!; [apply pended_nil|done|set_solver]. }
  destruct (IH (want_bcst w x)) as (H1' & H2' & H3').
  split_and!; [exact (pended_cons _ _ _ _ _ _ H1')|by rewrite H2'|]. rewrite H3'. simpl. set_solver.
Qed.

Lemma want_peer_fold t l w :
  let w' := foldl (want_peer t) w l in
  pended t l (peer_wants w) (peer_wants w') ∧ bcst_wants w' = bcst_wants w ∧
  cancels w' = cancels w ∖ list_to_set l.
Proof.
  revert w. induction l as [|x l IH]; intros w; simpl.
  { split_and!; [apply pended_nil|done|set_solver]. }
  destruct (IH (want_peer t w x)) as (H1' & H2' & H3').
  split_and!; [exact (pended_cons _ _ _ _ _ _ H1')|by rewrite H2'|]. rewrite H3'. simpl. set_solver.
Qed.

(** [r'] is [r] without the CIDs of [l]. *)
Record purged (l : list Cid) (r r' : RecallWantlist) : Prop := {
  pg_pending c : wt (rw_pending r') c = elem_if (negb (mem c l)) (wt (rw_pending r) c);
  pg_sent c : wt (rw_sent r') c = elem_if (negb (mem c l)) (wt (rw_sent r) c);
  pg_sent_at : rw_sent_at r = ∅ → rw_sent_at r' = ∅;
  pg_wf : wl_wf (rw_pending r) → wl_wf (rw_sent r) → wl_wf (rw_pending r') ∧ wl_wf (rw_sent r')
}.

Lemma purged_nil r : purged [] r r.
Proof. by split. Qed.

Lemma purged_cons x l r r' : purged l (rw_remove x r) r' → purged (x :: l) r r'.
Proof.
  intros Hp. split.
  1-2: intros c; rewrite ?(pg_pending _ _ _ Hp), ?(pg_sent _ _ _ Hp), mem_cons; simpl; rewrite wt_delete;
    destruct (decide (c = x)); [rewrite bool_decide_eq_true_2 by done|rewrite bool_decide_eq_false_2 by done];
    by destruct (mem c l).
  - intros Ha. apply (pg_sent_at _ _ _ Hp). simpl. by rewrite Ha, delete_empty.
  - intros Ha Hb. apply (pg_wf _ _ _ Hp); by apply wl_remove_wf.
Qed.

Definition was_sent (w : Wants) (c : Cid) : Prop :=
  is_Some (wt (rw_sent (bcst_wants w)) c) ∨ is_Some (wt (rw_sent (peer_wants w)) c).

Lemma cancel_want_fold l w b :
  let '(w', b') := foldl cancel_want (w, b) l in
  purged l (bcst_wants w) (bcst_wants w') ∧ purged l (peer_wants w) (peer_wants w') ∧
  (∀ c, c ∈ cancels w' ↔ c ∈ cancels w ∨ c ∈ l ∧ was_sent w c) ∧
  (b' = true ↔ b = true ∨ ∃ c, c ∈ l ∧ was_sent w c).
Proof.
  revert w b. induction l as [|x l IH]; intros w b; simpl.
  { split_and!; [apply purged_nil..|set_solver|set_solver]. }
  set (s := wl_contains x (rw_sent (bcst_wants w)) || wl_contains x (rw_sent (peer_wants w))).
  assert (s = true ↔ was_sent w x) as Hs.
  { unfold s, was_sent. rewrite !wl_contains_wt, orb_true_iff, !bool_decide_eq_true. done. }
  match goal with |- context [foldl cancel_want (?w1, ?b1) l] => specialize (IH w1 b1); set (w1' := w1) in * end.
  destruct (foldl cancel_want _ l) as [w' b'].
  destruct IH as (Hb & Hp & Hc & Hr).
  assert (∀ c, was_sent w1' c ↔ c ≠ x ∧ was_sent w c) as Hw1.
  { intros c. unfold was_sent, w1'. simpl. rewrite !wt_delete. case_decide; [|naive_solver].
    rewrite !is_Some_alt. naive_solver. }
  split_and!; [by apply purged_cons|by apply purged_cons|..].
  - intros c. rewrite Hc, Hw1. unfold w1'. simpl. rewrite elem_of_cons.
    destruct s; [rewrite elem_of_union, elem_of_singleton|]; destruct (decide (c = x)) as [->|]; naive_solver.
  - rewrite Hr, orb_true_iff. setoid_rewrite Hw1. setoid_rewrite elem_of_cons. rewrite Hs.
    split; [naive_solver|]. intros [?|(c & [->|Hin] & ?)]; [naive_solver..|].
    destruct (decide (c = x)) as [->|]; naive_solver.
Qed.

Definition cancelled_by (u : WantsUpdate) : gset Cid :=
  match u with Cancels cs => cs | _ => ∅ end.

(** What an update does to the wants *)
Record updated (u : WantsUpdate) (w w' : Wants) : Prop := {
  up_ok : wants_ok w';
  up_asked c : asked w' c = request u (asked w) c;
  up_peer_sent c : wt (rw_sent (peer_wants w')) c
    = elem_if (negb (bool_decide (c ∈ cancelled_by u))) (wt (rw_sent (peer_wants w)) c);
  up_bcst_sent c : wt (rw_sent (bcst_wants w')) c
    = elem_if (negb (bool_decide (c ∈ cancelled_by u))) (wt (rw_sent (bcst_wants w)) c);
  up_cancels c : c ∈ cancels w' ↔
    c ∈ cancels w ∧ c ∉ wanted_by u ∨ c ∈ cancelled_by u ∧ was_sent w c
}.

Lemma mem_hs_iter c (s : gset Cid) : mem c (hs_iter s) = bool_decide (c ∈ s).
Proof. apply bool_decide_ext, elem_of_hs_iter. Qed.

Lemma bcst_updated hs w : wants_ok w → updated (BroadcastWantHaves hs) w (foldl want_bcst w (hs_iter hs)).
Proof.
  intros Hw. destruct (want_bcst_fold (hs_iter hs) w) as (Hb & Hp & Hc).
  set (w' := foldl want_bcst w _) in *. clearbody w'.
  assert (∀ c, c ∈ cancels w' ↔ c ∈ cancels w ∧ c ∉ hs) as Hc'.
  { intros c. by rewrite Hc, elem_of_difference, elem_of_list_to_set, elem_of_hs_iter. }
  split; simpl; rewrite ?Hp, ?(pd_sent _ _ _ _ Hb).
  - split; rewrite ?Hp, ?(pd_sent _ _ _ _ Hb), ?(pd_sent_at _ _ _ _ Hb); try apply Hw.
    + apply (pd_wf _ _ _ _ Hb), Hw.
    + intros c. destruct (ok_bcst_have _ Hw c) as [Hh ?]. split; [|done]. rewrite (pd_pending _ _ _ _ Hb).
      destruct (wt (rw_pending (bcst_wants w)) c) as [[]|], (mem c (hs_iter hs)); simpl; congruence.
    + intros c [Hin Hn]%Hc'. rewrite (pd_pending _ _ _ _ Hb), mem_hs_iter, bool_decide_eq_false_2 by done.
      simpl. rewrite wjoin_None_r. by apply ok_cancels.
  - intros c. unfold asked. rewrite Hp, (pd_sent _ _ _ _ Hb), (pd_pending _ _ _ _ Hb), mem_hs_iter.
    rewrite !wjoin_assoc. destruct (elem_if _ _) as [[]|];
      destruct (wt (rw_pending (bcst_wants w)) c) as [[]|], (wt (rw_sent (bcst_wants w)) c) as [[]|],
        (wjoin (wt (rw_pending (peer_wants w)) c) (wt (rw_sent (peer_wants w)) c)) as [[]|]; done.
  - done.
  - done.
  - intros c. rewrite Hc'. set_solver.
Qed.

Lemma peer_updated bs hs w :
  wants_ok w →
  updated (UpdateWants bs hs) w (foldl (want_peer WantType_Block) (foldl (want_peer WantType_Have) w hs) bs).
Proof.
  intros Hw. destruct (want_peer_fold WantType_Have hs w) as (Hh & Hhb & Hhc).
  set (w1 := foldl _ w hs) in *. clearbody w1.
  destruct (want_peer_fold WantType_Block bs w1) as (Hb & Hbb & Hbc).
  set (w' := foldl _ w1 bs) in *. clearbody w'.
  assert (∀ c, c ∈ cancels w' ↔ c ∈ cancels w ∧ (c ∉ hs) ∧ c ∉ bs) as Hc'.
  { intros c. rewrite Hbc, Hhc. set_solver. }
  rewrite Hhb in Hbb.
  split; simpl; rewrite ?Hbb, ?(pd_sent _ _ _ _ Hb), ?(pd_sent _ _ _ _ Hh).
  - split; rewrite ?Hbb, ?(pd_sent _ _ _ _ Hb), ?(pd_sent_at _ _ _ _ Hb), ?(pd_sent _ _ _ _ Hh),
      ?(pd_sent_at _ _ _ _ Hh); try apply Hw.
    + apply (pd_wf _ _ _ _ Hb), (pd_wf _ _ _ _ Hh), Hw.
    + intros c (Hin & Hn1 & Hn2)%Hc'. rewrite (pd_pending _ _ _ _ Hb), (pd_pending _ _ _ _ Hh).
      unfold mem. rewrite !bool_decide_eq_false_2 by done. simpl. rewrite !wjoin_None_r. by apply ok_cancels.
  - intros c. unfold asked.
    rewrite Hbb, (pd_sent _ _ _ _ Hb), (pd_sent _ _ _ _ Hh), (pd_pending _ _ _ _ Hb), (pd_pending _ _ _ _ Hh).
    destruct (elem_if (mem c hs) _) as [[]|], (elem_if (mem c bs) _) as [[]|];
      destruct (wt (rw_pending (peer_wants w)) c) as [[]|], (wt (rw_sent (peer_wants w)) c) as [[]|],
        (wjoin (wt (rw_pending (bcst_wants w)) c) (wt (rw_sent (bcst_wants w)) c)) as [[]|]; done.
  - done.
  - done.
  - intros c. rewrite Hc'. set_solver.
Qed.

Lemma cancel_updated cs w w' b :
  wants_ok w → foldl cancel_want (w, false) (hs_iter cs) = (w', b) →
  updated (Cancels cs) w w' ∧ (b = true ↔ ∃ c, c ∈ cs ∧ was_sent w c).
Proof.
  intros Hw E. pose proof (cancel_want_fold (hs_iter cs) w false) as Hf. rewrite E in Hf.
  destruct Hf as (Hb & Hp & Hc & Hr). setoid_rewrite elem_of_hs_iter in Hc. setoid_rewrite elem_of_hs_iter in Hr.
  split; [|naive_solver].
  assert (∀ c l r r', purged (hs_iter cs) r r' → l = mem c (hs_iter cs) →
    wt (rw_pending r') c = elem_if (negb (bool_decide (c ∈ cs))) (wt (rw_pending r) c) ∧
    wt (rw_sent r') c = elem_if (negb (bool_decide (c ∈ cs))) (wt (rw_sent r) c)) as Hv.
  { intros c l r r' Hg ->. by rewrite (pg_pending _ _ _ Hg), (pg_sent _ _ _ Hg), mem_hs_iter. }
  split; simpl.
  - destruct (pg_wf _ _ _ Hb) as [? ?]; [apply Hw..|]. destruct (pg_wf _ _ _ Hp) as [? ?]; [apply Hw..|].
    split; try done.
    + intros c. destruct (Hv c _ _ _ Hb eq_refl) as [-> ->]. destruct (ok_bcst_have _ Hw c).
      by destruct (bool_decide (c ∈ cs)).
    + intros c Hin. destruct (Hv c _ _ _ Hb eq_refl) as [-> ->], (Hv c _ _ _ Hp eq_refl) as [-> ->].
      destruct (decide (c ∈ cs)); [by rewrite bool_decide_eq_true_2|].
      rewrite bool_decide_eq_false_2 by done. apply ok_cancels; [done|]. apply Hc in Hin. tauto.
    + split; [apply (pg_sent_at _ _ _ Hb)|apply (pg_sent_at _ _ _ Hp)]; apply Hw.
  - intros c. unfold asked. destruct (Hv c _ _ _ Hb eq_refl) as [-> ->], (Hv c _ _ _ Hp eq_refl) as [-> ->].
    by destruct (bool_decide (c ∈ cs)).
  - intros c. apply (Hv c _ _ _ Hp eq_refl).
  - intros c. apply (Hv c _ _ _ Hb eq_refl).
  - intros c. rewrite Hc. set_solver.
Qed.

Lemma update_wants_spec u w :
  wants_ok w → updated u w (update_wants u w).1.
Proof.
  intros Hw. destruct u as [hs|bs hs|cs]; simpl.
  - by apply bcst_updated.
  - by apply peer_updated.
  - destruct (foldl cancel_want _ _) as [w' b] eqn:E. by apply (cancel_updated _ _ _ b).
Qed.

(** [transfer_rebroadcast_wants] *)
Lemma transfer_spec w w' :
  wants_ok w → transfer_rebroadcast_wants w = Some w' →
  wants_ok w' ∧ (∀ c, asked w' c = asked w c) ∧ cancels w' = cancels w ∧
  rw_sent (peer_wants w') = rw_sent (peer_wants w) ∧ rw_sent (bcst_wants w') = rw_sent (bcst_wants w).
Proof.
  intros Hw. unfold transfer_rebroadcast_wants. case_match; [done|]. intros [= <-]. simpl. split_and!; try done.
  - split; simpl; try apply Hw.
    + apply wl_extend_wf; apply Hw.
    + apply wl_extend_wf; apply Hw.
    + intros c. rewrite wt_extend. destruct (ok_bcst_have _ Hw c).
      destruct (wt (rw_pending (bcst_wants w)) c) as [[]|], (wt (rw_sent (bcst_wants w)) c) as [[]|]; done.
    + intros c Hc. rewrite !wt_extend. by destruct (ok_cancels _ Hw c Hc) as (-> & -> & -> & ->).
  - intros c. unfold asked. simpl. rewrite !wt_extend.
    destruct (wt (rw_pending (bcst_wants w)) c) as [[]|], (wt (rw_sent (bcst_wants w)) c) as [[]|],
      (wt (rw_pending (peer_wants w)) c) as [[]|], (wt (rw_sent (peer_wants w)) c) as [[]|]; done.
Qed.
End updates.

(** ** The actor *)

Section actor_facts.
Context `{Multiformats} `{Prost} `{HashOrder}.

Record mq_ok (a : MessageQueueActor) : Prop := {
  mo_wants : wants_ok (mq_wants a);
  mo_blocks : mq_sender a = Some false → blocks_only (rw_sent (peer_wants (mq_wants a)));
  mo_unsent : mq_sender a = None → ∀ c,
    wt (rw_sent (peer_wants (mq_wants a))) c = None ∧ wt (rw_sent (bcst_wants (mq_wants a))) c = None
}.

Definition knows_have (a : MessageQueueActor) : bool := default true (mq_sender a).

Lemma new_ok config : mq_ok (MessageQueueActor_new config).
Proof.
  assert (∀ c, wt wl_default c = None) as Hd by apply wt_default.
  split; simpl; [split; simpl; try apply wl_default_wf|done|done].
  - intros c. by rewrite Hd.
  - intros c. by intros ?%not_elem_of_empty.
  - done.
Qed.

(** Before there is a sender, nothing is known. *)
Lemma unsent_known a sh c : mq_ok a → mq_sender a = None → known sh (mq_wants a) c = None.
Proof. intros Ha Hs. unfold known. by destruct (mo_unsent _ Ha Hs c) as [-> ->]. Qed.

Definition sent_messages (out : list mq_output) : list BitswapMessage :=
  omap (λ o, match o with Sent m => Some m | DontHaveTimeout _ => None end) out.

Lemma sent_messages_app l1 l2 : sent_messages (l1 ++ l2) = sent_messages l1 ++ sent_messages l2.
Proof. apply omap_app. Qed.

Lemma pending_zero w :
  has_pending_work w = false ↔
  (∀ c, wt (rw_pending (bcst_wants w)) c = None) ∧ (∀ c, wt (rw_pending (peer_wants w)) c = None) ∧
  cancels w = ∅.
Proof.
  unfold has_pending_work, pending_work_count, wl_len. rewrite Nat.ltb_ge.
  assert (∀ x : Wantlist, size (wl_set x) = 0%nat ↔ ∀ c, wt x c = None) as Hz.
  { intros x. rewrite map_size_empty_iff. setoid_rewrite wt_None. by rewrite map_empty. }
  assert (size (cancels w) = 0%nat ↔ cancels w = ∅) as Hc by (rewrite size_empty_iff; by unfold_leibniz).
  rewrite <-!Hz, <-Hc. lia.
Qed.

Lemma empty_view m : message_is_empty m = true → ∀ c, mview m c = None.
Proof.
  unfold message_is_empty. rewrite !andb_true_iff, !bool_decide_eq_true. intros [[_ Hm] _] c.
  unfold mview. by rewrite Hm, lookup_empty.
Qed.

Lemma receive_empty R m c : message_is_empty m = true → receive R m c = R c.
Proof. intros Hm. unfold receive. by rewrite empty_view. Qed.

(** An empty message: there was nothing to send. *)
Lemma extracted_empty sh w w' msg cs pe be :
  extracted sh w w' msg cs pe be → message_is_empty msg = true → has_pending_work w' = false.
Proof.
  intros Hx Hm. pose proof (empty_view _ Hm) as Hv.
  assert (∀ c, (c ∉ cs) ∧ among c pe = false ∧ among c be = false) as Hn.
  { intros c. specialize (Hv c). rewrite (ex_message _ _ _ _ _ _ _ Hx) in Hv. case_decide; [done|].
    apply fmap_None, wjoin_eq_None in Hv as [Hp Hb]. pose proof (ex_peer_in _ _ _ _ _ _ _ Hx c) as Hi.
    destruct (among c pe); simpl in Hp; [rewrite Hp in Hi; destruct (Hi eq_refl); done|].
    by destruct (among c be). }
  assert (∀ l : list WlEntry, (∀ c, among c l = false) → l = []) as Hl.
  { intros [|e l] He; [done|]. specialize (He (wl_cid e)). apply bool_decide_eq_false in He. set_solver. }
  destruct (ex_progress _ _ _ _ _ _ _ Hx) as (Hc & Hs & Hb).
  { destruct cs as [|c cs]; [done|]. destruct (Hn c) as [Hc _]. set_solver. }
  { apply Hl. intros c. apply Hn. }
  { apply Hl. intros c. apply Hn. }
  apply pending_zero. split_and!.
  - intros c. rewrite (ex_bcst_pending _ _ _ _ _ _ _ Hx), Hb. by destruct (among c be).
  - intros c. rewrite (ex_peer_pending _ _ _ _ _ _ _ Hx), Hs. by destruct (among c pe).
  - rewrite (ex_cancels _ _ _ _ _ _ _ Hx), Hc. set_solver.
Qed.

(** The times are only recorded for wants that are not in the sent list: never. *)
Lemma set_sent_at_fold now l r :
  (∀ e, e ∈ l → is_Some (wt (rw_sent r) (wl_cid e))) →
  foldl (λ r e, rw_set_sent_at (wl_cid e) now r) r l = r.
Proof.
  induction l as [|e l IH]; intros Hl; simpl; [done|].
  unfold rw_set_sent_at at 2. rewrite wl_contains_wt, bool_decide_eq_true_2 by (apply Hl; by left).
  apply IH. intros x Hx. apply Hl. by right.
Qed.

Lemma extracted_record now sh w w' msg cs pe be :
  extracted sh w w' msg cs pe be → record_sent_at now pe be w' = w'.
Proof.
  intros Hx. unfold record_sent_at. destruct w' as [b p c i]. simpl. f_equal; apply set_sent_at_fold; intros e He.
  - pose proof (ex_bcst_sent _ _ _ _ _ _ _ Hx (wl_cid e)) as Hs. simpl in Hs. rewrite Hs.
    assert (among (wl_cid e) be = true) as Ha by (by apply bool_decide_eq_true, list_elem_of_fmap_2).
    rewrite Ha. simpl. rewrite (ex_bcst_in _ _ _ _ _ _ _ Hx _ Ha).
    destruct (wt (rw_sent (bcst_wants w)) (wl_cid e)) as [[]|]; simpl; eauto.
  - pose proof (ex_peer_sent _ _ _ _ _ _ _ Hx (wl_cid e)) as Hs. simpl in Hs. rewrite Hs.
    assert (among (wl_cid e) pe = true) as Ha by (by apply bool_decide_eq_true, list_elem_of_fmap_2).
    rewrite Ha. simpl. destruct (ex_peer_in _ _ _ _ _ _ _ Hx _ Ha) as [t ->].
    destruct (wt (rw_sent (peer_wants w)) (wl_cid e)) as [[]|], t; simpl; eauto.
Qed.

Lemma signal_work_spec now a :
  mq_wants (signal_work now a) = mq_wants a ∧ mq_sender (signal_work now a) = mq_sender a ∧
  mq_config (signal_work now a) = mq_config a ∧ mq_dh (signal_work now a) = mq_dh a ∧
  mq_outgoing_work (signal_work now a) ≠ [] ∧
  (length (mq_outgoing_work (signal_work now a)) ≤ 2 `max` length (mq_outgoing_work a))%nat.
Proof.
  unfold signal_work. case_match eqn:E; simpl; rewrite ?length_app; simpl; split_and!; try done; try lia.
  - by destruct (mq_outgoing_work a).
  - apply Nat.ltb_lt in E. lia.
  - apply Nat.ltb_ge in E. by destruct (mq_outgoing_work a); simpl in *; [lia|].
Qed.

(** [send_message] *)
Record sent_from (sh : bool) (a a' : MessageQueueActor) (out : list mq_output) : Prop := {
  sf_extracted : ∃ msg cs pe be, extracted sh (mq_wants a) (mq_wants a') msg cs pe be ∧
    out = (if message_is_empty msg then [] else [Sent msg]);
  sf_sender : mq_sender a' = Some sh;
  sf_config : mq_config a' = mq_config a;
  sf_signal : has_pending_work (mq_wants a') = true → mq_outgoing_work a' ≠ [];
  sf_length : (length (mq_outgoing_work a') ≤ 2 `max` length (mq_outgoing_work a))%nat
}.

Lemma send_message_spec now net a a' out :
  mq_ok a → send_message now net a = Continue a' out →
  ∃ sh, (mq_sender a = Some sh ∨ mq_sender a = None ∧ net_dial net = Some sh) ∧ sent_from sh a a' out.
Proof.
  intros Ha. unfold send_message, extract_outgoing_message. simpl.
  destruct (match mq_sender a with Some s => Some s | None => net_dial net end) as [sh|] eqn:Es; [|done].
  simpl. destruct (extract_wants sh (max_message_size (mq_config a)) (mq_wants a)) as [[[w' msg] pe] be] eqn:Ex.
  assert (mq_sender a = Some sh ∨ mq_sender a = None ∧ net_dial net = Some sh) as Hsh
    by (destruct (mq_sender a); naive_solver).
  apply extract_wants_spec in Ex as [cs Hx]; [|apply Ha|].
  2:{ intros ->. destruct Hsh as [Hs|[Hs _]]; [by apply Ha|]. intros c.
      by rewrite (proj1 (mo_unsent _ Ha Hs c)). }
  simpl. destruct (message_is_empty msg) eqn:Em.
  - intros [= <- <-]. exists sh. split; [done|]. split; simpl; [|done|done| |lia].
    + exists msg, cs, pe, be. by rewrite Em.
    + by rewrite (extracted_empty _ _ _ _ _ _ _ Hx Em).
  - destruct (net_send net); [|done]. simpl. rewrite (extracted_record _ _ _ _ _ _ _ _ Hx).
    intros [= <- <-]. exists sh. split; [done|].
    match goal with |- sent_from _ _ (if ?b then signal_work _ ?a else _) _ =>
      set (a1 := a); destruct b eqn:Ep end.
    + destruct (signal_work_spec now a1) as (S1 & S2 & S3 & _ & S5 & S6). split; rewrite ?S1, ?S2, ?S3; try done.
      exists msg, cs, pe, be. by rewrite Em.
    + split; simpl; [|done|done|unfold has_pending_work in *; simpl in *; congruence|lia].
      exists msg, cs, pe, be. by rewrite Em.
Qed.

(** No time was recorded, so a response changes nothing. *)
Lemma handle_response_idle now timeout response a :
  mq_ok a → handle_response now timeout response a = a.
Proof.
  intros Ha. unfold handle_response. destruct (ok_sent_at _ (mo_wants _ Ha)) as [Hb Hp].
  assert (foldl (response_cid now (max_valid_latency (mq_config a))) (mq_wants a, None) response
    = (mq_wants a, None)) as ->.
  { induction response as [|c l IH]; simpl; [done|]. by rewrite Hb, lookup_empty, Hp, lookup_empty. }
  by destruct a.
Qed.

(** ** The steps of the actor *)

Inductive actor_step (net : Net) : mq_event → MessageQueueActor → MessageQueueActor → list mq_output → Prop :=
  | as_idle ev a a' out :
      (∀ u, ev ≠ EvWants u) → mq_wants a' = mq_wants a → mq_sender a' = mq_sender a →
      sent_messages out = [] → actor_step net ev a a' out
  | as_update u a a' :
      mq_wants a' = (update_wants u (mq_wants a)).1 → mq_sender a' = mq_sender a →
      actor_step net (EvWants u) a a' []
  | as_send sh ev a a1 a' out :
      (∀ u, ev ≠ EvWants u) → mq_sender a1 = mq_sender a →
      mq_wants a1 = mq_wants a ∨ transfer_rebroadcast_wants (mq_wants a) = Some (mq_wants a1) →
      (mq_sender a = Some sh ∨ mq_sender a = None ∧ net_dial net = Some sh) →
      sent_from sh a1 a' out → actor_step net ev a a' out.

Lemma mq_ok_ext a a' : mq_wants a' = mq_wants a → mq_sender a' = mq_sender a → mq_ok a → mq_ok a'.
Proof. intros Hw Hs Ha. split; rewrite ?Hw, ?Hs; apply Ha. Qed.

Lemma send_if_ready_step now net ev a a0 a' out :
  (∀ u, ev ≠ EvWants u) → mq_ok a → mq_wants a0 = mq_wants a → mq_sender a0 = mq_sender a →
  send_if_ready now net a0 = Continue a' out → actor_step net ev a a' out.
Proof.
  intros Hev Ha Hw Hs. unfold send_if_ready. case_match.
  - intros (sh & Hsh & Hf)%send_message_spec; [|by eapply mq_ok_ext]. rewrite Hs in Hsh.
    eapply as_send; eauto.
  - intros [= <- <-]. by apply as_idle.
Qed.

Lemma transfer_ok a w : mq_ok a → transfer_rebroadcast_wants (mq_wants a) = Some w → mq_ok (mq_with_wants w a).
Proof.
  intros Ha Ht. destruct (transfer_spec _ _ (mo_wants _ Ha) Ht) as (Hw & _ & _ & Hp & Hb).
  split; simpl; rewrite ?Hp, ?Hb; [done|apply Ha..].
Qed.

Lemma handle_wants_update_spec now u a :
  let a' := handle_wants_update now u a in
  mq_wants a' = (update_wants u (mq_wants a)).1 ∧ mq_sender a' = mq_sender a ∧ mq_config a' = mq_config a ∧
  ((update_wants u (mq_wants a)).2 = true → mq_outgoing_work a' ≠ []) ∧
  (mq_outgoing_work a ≠ [] → mq_outgoing_work a' ≠ []) ∧
  (length (mq_outgoing_work a') ≤ 2 `max` length (mq_outgoing_work a))%nat.
Proof.
  intros a'. unfold a', handle_wants_update.
  set (a1 := match u with Cancels _ => _ | _ => a end).
  assert (mq_wants a1 = mq_wants a ∧ mq_sender a1 = mq_sender a ∧ mq_config a1 = mq_config a ∧
    mq_outgoing_work a1 = mq_outgoing_work a) as (-> & Hs & Hcf & Ho) by (by destruct u).
  destruct (update_wants u (mq_wants a)) as [w' b]. destruct b; simpl.
  - destruct (signal_work_spec now (mq_with_wants w' a1)) as (-> & -> & -> & _ & Hn & Hl). simpl in *.
    rewrite <-Ho. split_and!; try done.
  - rewrite Ho. split_and!; try done. lia.
Qed.

Lemma mq_step_cases now net ev r r' out :
  mq_ok (run_actor r) → mq_step now net ev r = Some (Continue r' out) →
  actor_step net ev (run_actor r) (run_actor r') out.
Proof.
  intros Ha. unfold mq_step. destruct ev as [u|timeout l| | | |timeout|].
  - intros [= <- <-]. simpl. destruct (handle_wants_update_spec now u (run_actor r)) as (Hw & Hs & _).
    by apply as_update.
  - intros [= <- <-]. simpl. rewrite handle_response_idle by done. by apply as_idle.
  - unfold rebroadcast_wantlist. destruct (transfer_rebroadcast_wants _) as [w|] eqn:Et.
    + destruct (send_message _ _ _) as [a' o|] eqn:Es; [|done]. intros [= <- <-]. simpl.
      apply send_message_spec in Es as (sh & Hsh & Hf); [|by apply transfer_ok]. simpl in Hsh.
      by apply (as_send _ sh _ _ (mq_with_wants w (run_actor r))); [done|done|right|..].
    + intros [= <- <-]. by apply as_idle.
  - destruct (mq_outgoing_work (run_actor r)) as [|when_ rest]; [done|]. unfold on_outgoing_work. simpl.
    destruct (match run_work_scheduled r with None => _ | Some _ => _ end) as [sch en].
    case_match.
    + destruct (send_if_ready _ _ _) as [a' o|] eqn:Es; [|done]. intros [= <- <-]. simpl.
      refine (send_if_ready_step _ _ _ _ _ _ _ _ Ha _ _ Es); done.
    + intros [= <- <-]. by apply as_idle.
  - case_match; [|done]. destruct (send_if_ready _ _ _) as [a' o|] eqn:Es; [|done]. intros [= <- <-]. simpl.
    refine (send_if_ready_step _ _ _ _ _ _ _ _ Ha _ _ Es); done.
  - intros [= <- <-]. by apply as_idle.
  - destruct (dh_check_for_timeouts now (mq_dh (run_actor r))) as [[d ex] nx]. intros [= <- <-].
    apply as_idle; try done. by case_decide.
Qed.

(** ** The mirror *)

(** The wants that an event asks for are not being cancelled. *)
Definition orderly_event (ev : mq_event) (a : MessageQueueActor) : Prop :=
  match ev with EvWants u => wanted_by u ## cancels (mq_wants a) | _ => True end.

Definition request_event (ev : mq_event) (f : Cid → option WantType) : Cid → option WantType :=
  match ev with EvWants u => request u f | _ => f end.

Lemma known_update sh u w w' c :
  updated u w w' → known sh w' c = elem_if (negb (bool_decide (c ∈ cancelled_by u))) (known sh w c).
Proof.
  intros Hu. unfold known. rewrite (up_peer_sent _ _ _ Hu), (up_bcst_sent _ _ _ Hu).
  by destruct (bool_decide (c ∈ cancelled_by u)).
Qed.

Lemma actor_step_ok net ev a a' out : mq_ok a → actor_step net ev a a' out → mq_ok a'.
Proof.
  intros Ha Hs. destruct Hs as [ev a a' out _ Hw Hs _|u a a' Hw Hs|sh ev a a1 a' out _ Hs Hw Hsh Hf].
  - by eapply mq_ok_ext.
  - pose proof (update_wants_spec u _ (mo_wants _ Ha)) as Hu. rewrite <-Hw in Hu.
    split; [apply Hu|rewrite Hs..].
    + intros Hf c. rewrite (up_peer_sent _ _ _ Hu). pose proof (mo_blocks _ Ha Hf c).
      by destruct (bool_decide (c ∈ cancelled_by u)).
    + intros Hn c. rewrite (up_peer_sent _ _ _ Hu), (up_bcst_sent _ _ _ Hu).
      destruct (mo_unsent _ Ha Hn c) as [-> ->]. by destruct (bool_decide (c ∈ cancelled_by u)).
  - assert (mq_ok a1) as Ha1.
    { destruct Hw as [Hw|Hw]; [by eapply mq_ok_ext|]. apply (mq_ok_ext (mq_with_wants (mq_wants a1) a)); [done..|].
      by apply transfer_ok. }
    destruct Hf as [(msg & cs & pe & be & Hx & _) Hs' _ _ _].
    split; [apply (extracted_ok _ _ _ _ _ _ _ (mo_wants _ Ha1) Hx)|rewrite Hs'..]; [|done].
    intros [= ->]. apply (extracted_blocks_only _ _ _ _ _ _ Hx). rewrite <-Hs in Hsh.
    destruct Hsh as [Hsh|[Hsh _]]; [by apply (mo_blocks _ Ha1)|]. intros c.
    by rewrite (proj1 (mo_unsent _ Ha1 Hsh c)).
Qed.

Lemma update_mirror sh u w w' R :
  wants_ok w → updated u w w' →
  (mirror_low sh w R → mirror_low sh w' R) ∧
  (wanted_by u ## cancels w → mirror_exact sh w R → mirror_exact sh w' R).
Proof.
  intros Hw Hu. split.
  - intros Hl c. rewrite (known_update _ _ _ _ _ Hu). destruct (bool_decide _); [apply wle_None|apply Hl].
  - intros Hd He c. rewrite (known_update _ _ _ _ _ Hu), (up_cancels _ _ _ Hu). intros Hc.
    assert (c ∉ cancels w) as Hn by set_solver. rewrite (He c Hn).
    destruct (decide (c ∈ cancelled_by u)) as [Hin|]; [|by rewrite bool_decide_eq_false_2].
    rewrite bool_decide_eq_true_2 by done. simpl.
    assert (¬ was_sent w c) as Hs by tauto. unfold was_sent, known in *.
    destruct (wt (rw_sent (peer_wants w)) c), (wt (rw_sent (bcst_wants w)) c); try done; destruct Hs; eauto.
Qed.

Lemma actor_step_mirror net ev a a' out R :
  mq_ok a → actor_step net ev a a' out →
  let R' := foldl receive R (sent_messages out) in
  (mirror_low (knows_have a) (mq_wants a) R → mirror_low (knows_have a') (mq_wants a') R') ∧
  (orderly_event ev a → mirror_exact (knows_have a) (mq_wants a) R →
   mirror_exact (knows_have a') (mq_wants a') R') ∧
  (mq_sender a ≠ Some false → net_dial net ≠ Some false →
   mq_sender a' ≠ Some false ∧ ∀ c, asked (mq_wants a') c = request_event ev (asked (mq_wants a)) c).
Proof.
  intros Ha Hs. destruct Hs as [ev a a' out Hev Hw Hs Hout|u a a' Hw Hs|sh ev a a1 a' out Hev Hs Hw Hsh Hf].
  - unfold knows_have. rewrite Hs, Hw, Hout. destruct ev; [by edestruct Hev|..]; done.
  - pose proof (update_wants_spec u _ (mo_wants _ Ha)) as Hu. rewrite <-Hw in Hu. unfold knows_have.
    rewrite Hs. simpl. destruct (update_mirror (default true (mq_sender a)) u _ _ R (mo_wants _ Ha) Hu).
    split_and!; [done|done|]. intros. split; [done|apply Hu].
  - assert (wants_ok (mq_wants a1) ∧ cancels (mq_wants a1) = cancels (mq_wants a) ∧
      (∀ sh c, known sh (mq_wants a1) c = known sh (mq_wants a) c) ∧
      (∀ c, asked (mq_wants a1) c = asked (mq_wants a) c)) as (Hw1 & Hc1 & Hk1 & Hq1).
    { destruct Hw as [->|Hw]; [split_and!; [apply Ha|done..]|].
      destruct (transfer_spec _ _ (mo_wants _ Ha) Hw) as (? & ? & ? & Hp & Hb).
      split_and!; try done. intros. unfold known. by rewrite Hp, Hb. }
    destruct Hf as [(msg & cs & pe & be & Hx & ->) Hs' _ _ _].
    assert (∀ c, known sh (mq_wants a1) c = known (knows_have a) (mq_wants a) c) as Hk.
    { intros c. rewrite Hk1. unfold knows_have. destruct Hsh as [->|[Hn _]]; [done|].
      by rewrite !unsent_known. }
    assert (∀ c, foldl receive R (sent_messages (if message_is_empty msg then [] else [Sent msg])) c
      = receive R msg c) as HR.
    { intros c. destruct (message_is_empty msg) eqn:Em; [|done]. simpl. by rewrite receive_empty. }
    destruct (extracted_mirror _ _ _ _ _ _ _ R Hw1 Hx) as [Hlow Hexact].
    unfold knows_have at 2 4. rewrite Hs'. simpl. unfold mirror_low, mirror_exact in *.
    setoid_rewrite HR. split_and!.
    + intros Hl. apply Hlow. intros c. rewrite Hk. apply Hl.
    + intros _ He. apply Hexact. intros c. rewrite Hc1, Hk. apply He.
    + intros Hns Hnd. assert (sh = true) as -> by (destruct sh; naive_solver). split; [done|].
      intros c. rewrite (extracted_asked _ _ _ _ _ _ _ Hx), Hq1. destruct ev; [by edestruct Hev|..]; done.
Qed.

(** ** Runs *)

Fixpoint mq_run (l : list (Z * Net * mq_event)) (r : MqRun) : option (MqRun * list mq_output) :=
  match l with
  | [] => Some (r, [])
  | (now, net, ev) :: l =>
      match mq_step now net ev r with
      | Some (Continue r out) =>
          '(r, out') ← mq_run l r;
          Some (r, out ++ out')
      | _ => None
      end
  end.

(** No want is repeated while its cancel waits to be sent. *)
Fixpoint orderly (l : list (Z * Net * mq_event)) (r : MqRun) : Prop :=
  match l with
  | [] => True
  | (now, net, ev) :: l =>
      orderly_event ev (run_actor r) ∧
      match mq_step now net ev r with Some (Continue r _) => orderly l r | _ => True end
  end.

Fixpoint requests (l : list (Z * Net * mq_event)) (f : Cid → option WantType) : Cid → option WantType :=
  match l with
  | [] => f
  | (_, _, ev) :: l => requests l (request_event ev f)
  end.

Lemma requests_ext l f g : (∀ c, f c = g c) → ∀ c, requests l f c = requests l g c.
Proof.
  revert f g. induction l as [|[[now net] ev] l IH]; intros f g Hfg; simpl; [done|]. apply IH.
  intros c. destruct ev as [[]| | | | | |]; simpl; by rewrite ?Hfg.
Qed.

Lemma mq_run_mirror l r r' out R :
  mq_ok (run_actor r) → mq_run l r = Some (r', out) →
  let R' := foldl receive R (sent_messages out) in
  mq_ok (run_actor r') ∧
  (mirror_low (knows_have (run_actor r)) (mq_wants (run_actor r)) R →
   mirror_low (knows_have (run_actor r')) (mq_wants (run_actor r')) R') ∧
  (orderly l r → mirror_exact (knows_have (run_actor r)) (mq_wants (run_actor r)) R →
   mirror_exact (knows_have (run_actor r')) (mq_wants (run_actor r')) R') ∧
  (mq_sender (run_actor r) ≠ Some false → Forall (λ x, net_dial x.1.2 ≠ Some false) l →
   mq_sender (run_actor r') ≠ Some false ∧
   ∀ c, asked (mq_wants (run_actor r')) c = requests l (asked (mq_wants (run_actor r))) c).
Proof.
  revert r out R. induction l as [|[[now net] ev] l IH]; intros r out R Ha; simpl.
  { intros [= <- <-]. done. }
  destruct (mq_step now net ev r) as [[r1 out1|]|] eqn:Es; try done.
  destruct (mq_run l r1) as [[r2 out2]|] eqn:Er; [|done]. simpl. intros [= <- <-].
  apply mq_step_cases in Es; [|done]. pose proof (actor_step_ok _ _ _ _ _ Ha Es) as Ha1.
  destruct (actor_step_mirror _ _ _ _ _ R Ha Es) as (Hl & He & Hq).
  destruct (IH r1 out2 (foldl receive R (sent_messages out1)) Ha1 Er) as (Ha2 & Hl2 & He2 & Hq2).
  rewrite sent_messages_app, foldl_app. split_and!; [done|auto| |].
  - intros [Ho Hos] Hm. by auto.
  - intros Hs [Hd Hds]%Forall_cons. destruct (Hq Hs Hd) as [Hs1 Hq1]. destruct (Hq2 Hs1 Hds) as [Hs2 Hq2'].
    split; [done|]. intros c. rewrite Hq2'. by apply requests_ext.
Qed.
End actor_facts.

(** ** The peer that receives the messages *)

Section remote.
Context `{ServerLaws} `{HashOrder} `{PriorityQueue}.

(** The engine of the peer after it received messages from [me] at some times *)
Definition deliver (me : PeerId) (l : list (Z * BitswapMessage)) (e : Engine) : Engine :=
  foldl (λ e tm, message_received tm.1 me tm.2 e) e l.

Definition remote_wants (e : Engine) (me : PeerId) (c : Cid) : option WantType :=
  wl_want_type <$> wanted e me c.

Lemma receive_ext m R R' : (∀ c, R c = R' c) → ∀ c, receive R m c = receive R' m c.
Proof. intros Hr c. unfold receive. by rewrite Hr. Qed.

Lemma receive_fold_ext l R R' : (∀ c, R c = R' c) → ∀ c, foldl receive R l c = foldl receive R' l c.
Proof.
  revert R R'. induction l as [|m l IH]; intros R R' Hr; simpl; [done|]. apply IH. by apply receive_ext.
Qed.

Lemma deliver_wants me l e c :
  eng_filter e = None → Forall wants_only l.*2 →
  remote_wants (deliver me l e) me c = foldl receive (remote_wants e me) l.*2 c.
Proof.
  unfold deliver. revert e. induction l as [|[t m] l IH]; intros e Hf; simpl; [done|].
  intros [Hm Hl]%Forall_cons. rewrite IH; [|by rewrite message_received_filter|done].
  apply receive_fold_ext. intros c'. unfold remote_wants, receive, mview.
  rewrite message_received_wanted by apply Hm. rewrite (wo_full _ Hm), Hf.
  destruct (msg_wantlist m !! c') as [x|]; [|done]. simpl. destruct (entry_cancel x); [done|]. simpl.
  unfold want_added. destruct (wanted e me c') as [[? ? t1]|]; simpl; [|by destruct (entry_want_type x)].
  destruct (entry_want_type x), t1; case_decide; simpl; naive_solver.
Qed.

Lemma mq_run_wants_only l r r' out :
  mq_ok (run_actor r) → mq_run l r = Some (r', out) → Forall wants_only (sent_messages out).
Proof.
  revert r out. induction l as [|[[now net] ev] l IH]; intros r out Ha; simpl.
  { intros [= <- <-]. constructor. }
  destruct (mq_step now net ev r) as [[r1 out1|]|] eqn:Es; try done.
  destruct (mq_run l r1) as [[r2 out2]|] eqn:Er; [|done]. simpl. intros [= <- <-].
  apply mq_step_cases in Es; [|done]. pose proof (actor_step_ok _ _ _ _ _ Ha Es) as Ha1.
  rewrite sent_messages_app. apply Forall_app. split; [|by eapply IH].
  destruct Es as [ev a a' out Hev Hw Hs Hout|u a a' Hw Hs|sh ev a a1 a' out Hev Hs Hw Hsh Hf].
  - by rewrite Hout.
  - constructor.
  - destruct Hf as [(msg & cs & pe & be & Hx & ->) _ _ _ _]. destruct (message_is_empty msg); constructor; [|constructor].
    apply (ex_wants_only _ _ _ _ _ _ _ Hx).
Qed.

Lemma remote_new ec me c : remote_wants (Engine_new ec) me c = None.
Proof. unfold remote_wants, wanted, Engine_new. simpl. by rewrite lookup_empty. Qed.

(** What the messages of a run add up to once nothing is left to send *)
Lemma idle_requests config trace r out c :
  mq_run trace (run_new config) = Some (r, out) →
  orderly trace (run_new config) →
  Forall (λ x, net_dial x.1.2 ≠ Some false) trace →
  has_pending_work (mq_wants (run_actor r)) = false →
  foldl receive (λ _, None) (sent_messages out) c = requests trace (λ _, None) c.
Proof.
  intros Hrun Ho Hd Hp.
  destruct (mq_run_mirror trace (run_new config) r out (λ _, None) (new_ok config) Hrun) as (Ha & _ & He & Hq).
  apply pending_zero in Hp as (Hb & Hpe & Hc). destruct Hq as [Hs Hq]; [done|done|].
  rewrite He; [|done| |by rewrite Hc; apply not_elem_of_empty].
  2:{ intros x _. unfold known. simpl. by rewrite !wt_default. }
  rewrite (requests_ext _ _ (asked (mq_wants (run_actor (run_new config))))).
  2:{ intros x. unfold asked. simpl. by rewrite !wt_default. }
  rewrite <-Hq. unfold known, asked. rewrite Hb, Hpe, !wjoin_None_l.
  unfold knows_have. replace (default true (mq_sender (run_actor r))) with true by (by destruct (mq_sender (run_actor r)) as [[]|]).
  pose proof (proj2 (ok_bcst_have _ (mo_wants _ Ha) c)) as Hbl.
  by destruct (wt (rw_sent (bcst_wants (mq_wants (run_actor r)))) c) as [[]|].
Qed.

(** What the peer has after the messages of a run *)
Lemma deliver_run config ec me trace r out deliveries c :
  mq_run trace (run_new config) = Some (r, out) → ec_filter ec = None → deliveries.*2 = sent_messages out →
  remote_wants (deliver me deliveries (Engine_new ec)) me c = foldl receive (λ _, None) (sent_messages out) c.
Proof.
  intros Hrun Hf Hdel.
  rewrite deliver_wants, Hdel; [|done|rewrite Hdel; by eapply mq_run_wants_only, Hrun; apply new_ok].
  apply receive_fold_ext. intros; apply remote_new.
Qed.

(** C20: once a message queue has nothing left to send, the ledger that the peer
    keeps for this client is exactly what the queue was asked for: every want that
    was requested and not cancelled, as a want-block if a block was requested, and
    nothing else.  This holds for every sequence of events (updates, responses,
    rebroadcasts, timers, messages cut at the size limit), as long as no want is
    repeated while its cancel still waits to be sent ([orderly]), every dial finds a
    peer that knows want-haves, the engine of the peer filters nobody and starts
    empty, and the messages that were sent arrive, each once and in order. *)
Theorem mq_mirrors_wants config ec me trace r out deliveries :
  mq_run trace (run_new config) = Some (r, out) →
  orderly trace (run_new config) →
  Forall (λ x, net_dial x.1.2 ≠ Some false) trace →
  ec_filter ec = None →
  deliveries.*2 = sent_messages out →
  has_pending_work (mq_wants (run_actor r)) = false →
  ∀ c, remote_wants (deliver me deliveries (Engine_new ec)) me c = requests trace (λ _, None) c.
Proof.
  intros Hrun Ho Hd Hf Hdel Hp c. rewrite (deliver_run _ _ _ _ _ _ _ _ Hrun Hf Hdel). by eapply idle_requests.
Qed.

(** Whatever happens, a want that a message queue counts as sent is in the
    ledger of the peer, in the form it was sent: a want-block as a want-block, and
    for a peer that does not know want-haves a broadcast as a want-block too. *)
Theorem mq_sent_is_known config ec me trace r out deliveries :
  mq_run trace (run_new config) = Some (r, out) →
  ec_filter ec = None →
  deliveries.*2 = sent_messages out →
  let a := run_actor r in
  let w := mq_wants a in
  let remote := remote_wants (deliver me deliveries (Engine_new ec)) me in
  ∀ c, (wl_contains c (rw_sent (peer_wants w)) = true ∨ wl_contains c (rw_sent (bcst_wants w)) = true →
        is_Some (remote c)) ∧
       (wt (rw_sent (peer_wants w)) c = Some WantType_Block → remote c = Some WantType_Block) ∧
       (mq_sender a = Some false → wl_contains c (rw_sent (bcst_wants w)) = true →
        remote c = Some WantType_Block).
Proof.
  intros Hrun Hf Hdel a w remote c.
  destruct (mq_run_mirror trace (run_new config) r out (λ _, None) (new_ok config) Hrun) as (Ha & Hl & _ & _).
  assert (remote c = foldl receive (λ _, None) (sent_messages out) c) as ->.
  { by eapply deliver_run. }
  assert (wle (known (knows_have a) w c) (foldl receive (λ _, None) (sent_messages out) c)) as Hle.
  { apply Hl. intros x. unfold known. simpl. rewrite !wt_default. apply wle_None. }
  rewrite !wl_contains_wt, !bool_decide_eq_true.
  revert Hle. generalize (foldl receive (λ _, None) (sent_messages out) c). intros o Hle. unfold wle, known, knows_have in Hle.
  destruct (wt (rw_sent (peer_wants w)) c) as [[]|], (wt (rw_sent (bcst_wants w)) c) as [[]|],
    (mq_sender a) as [[]|], o as [[]|]; simpl in Hle; try discriminate;
    split_and!; intros; try done; try (by eexists); try congruence; rewrite ?is_Some_alt in *; naive_solver.
Qed.
End remote.

(** ** Pending work is sent *)

Section loop.
Context `{Multiformats} `{Prost} `{HashOrder}.

Lemma wl_len_le x y : (∀ c, is_Some (wt y c) → is_Some (wt x c)) → (wl_len y ≤ wl_len x)%nat.
Proof.
  intros Hxy. unfold wl_len. rewrite <-!size_dom. apply subseteq_size. intros c.
  rewrite !elem_of_dom. specialize (Hxy c). unfold wt in Hxy. by rewrite !fmap_is_Some in Hxy.
Qed.

Lemma wl_len_lt x y c :
  (∀ c, is_Some (wt y c) → is_Some (wt x c)) → is_Some (wt x c) → wt y c = None → (wl_len y < wl_len x)%nat.
Proof.
  intros Hxy Hx Hy. unfold wl_len. rewrite <-!size_dom. apply subset_size. split.
  - intros c'. rewrite !elem_of_dom. specialize (Hxy c'). unfold wt in Hxy. by rewrite !fmap_is_Some in Hxy.
  - intros Hsub. specialize (Hsub c). rewrite !elem_of_dom in Hsub. unfold wt in *. rewrite fmap_is_Some in Hx.
    apply Hsub in Hx. by apply fmap_None, eq_None_not_Some in Hy.
Qed.

Lemma elem_if_Some {A} b (x : option A) : is_Some (elem_if b x) → b = true ∧ is_Some x.
Proof. destruct b; [done|]. by intros [? ?]. Qed.

Lemma sendable_pending sh w c : is_Some (sendable sh w c) → is_Some (wt (rw_pending (peer_wants w)) c).
Proof. unfold sendable. destruct (wt _ c) as [[]|], sh; naive_solver. Qed.

Lemma extracted_less sh w w' msg cs pe be :
  wants_ok w → extracted sh w w' msg cs pe be → has_pending_work w = true →
  (pending_work_count w' < pending_work_count w)%nat.
Proof.
  intros Hw Hx Hp. unfold pending_work_count.
  assert (∀ c, is_Some (wt (rw_pending (bcst_wants w')) c) → is_Some (wt (rw_pending (bcst_wants w)) c)) as Hb.
  { intros c. rewrite (ex_bcst_pending _ _ _ _ _ _ _ Hx). by intros [_ ?]%elem_if_Some. }
  assert (∀ c, is_Some (wt (rw_pending (peer_wants w')) c) → is_Some (wt (rw_pending (peer_wants w)) c)) as Hpe.
  { intros c. rewrite (ex_peer_pending _ _ _ _ _ _ _ Hx). by intros [_ ?%sendable_pending]%elem_if_Some. }
  pose proof (wl_len_le _ _ Hb). pose proof (wl_len_le _ _ Hpe). pose proof (ex_cancels _ _ _ _ _ _ _ Hx) as Hc.
  assert (size (cancels w') ≤ size (cancels w))%nat by (apply subseteq_size; rewrite Hc; set_solver).
  destruct cs as [|c cs].
  2:{ assert (size (cancels w') < size (cancels w))%nat; [|lia]. apply subset_size.
      pose proof (ex_cancels_in _ _ _ _ _ _ _ Hx c). rewrite Hc. set_solver. }
  destruct pe as [|e pe].
  2:{ assert (among (wl_cid e) (e :: pe) = true) as Ha by (apply bool_decide_eq_true; set_solver).
      assert (wl_len (rw_pending (peer_wants w')) < wl_len (rw_pending (peer_wants w)))%nat; [|lia].
      apply (wl_len_lt _ _ (wl_cid e)); [done|by eapply sendable_pending, (ex_peer_in _ _ _ _ _ _ _ Hx)|].
      by rewrite (ex_peer_pending _ _ _ _ _ _ _ Hx), Ha. }
  destruct be as [|e be].
  2:{ assert (among (wl_cid e) (e :: be) = true) as Ha by (apply bool_decide_eq_true; set_solver).
      assert (wl_len (rw_pending (bcst_wants w')) < wl_len (rw_pending (bcst_wants w)))%nat; [|lia].
      apply (wl_len_lt _ _ (wl_cid e)); [done|by rewrite (ex_bcst_in _ _ _ _ _ _ _ Hx _ Ha)|].
      by rewrite (ex_bcst_pending _ _ _ _ _ _ _ Hx), Ha. }
  destruct (ex_progress _ _ _ _ _ _ _ Hx) as (Hc0 & Hs0 & Hb0); [done..|].
  assert (has_pending_work w' = false) as Hz.
  { apply pending_zero. split_and!.
    - intros c. by rewrite (ex_bcst_pending _ _ _ _ _ _ _ Hx), Hb0.
    - intros c. by rewrite (ex_peer_pending _ _ _ _ _ _ _ Hx), Hs0.
    - rewrite Hc, Hc0. set_solver. }
  unfold has_pending_work, pending_work_count in *. apply Nat.ltb_ge in Hz. apply Nat.ltb_lt in Hp. lia.
Qed.

(** Work that is pending is announced: in the channel or by the timer. *)
Record run_ok (r : MqRun) : Prop := {
  ro_actor : mq_ok (run_actor r);
  ro_wakeup : has_pending_work (mq_wants (run_actor r)) = true →
    mq_outgoing_work (run_actor r) ≠ [] ∨ run_schedule_work_enabled r = true;
  ro_channel : (length (mq_outgoing_work (run_actor r)) ≤ 2)%nat
}.

(** An update that does not signal leaves no new work. *)
Lemma update_quiet u w :
  (update_wants u w).2 = false → has_pending_work (update_wants u w).1 = true → has_pending_work w = true.
Proof.
  destruct u as [hs|bs hs|cs]; simpl; [done..|]. pose proof (cancel_want_fold (hs_iter cs) w false) as Hf.
  destruct (foldl cancel_want _ _) as [w' b]. simpl. intros -> Hp. destruct Hf as (Hb & Hpe & Hc & Hr).
  destruct (has_pending_work w) eqn:E; [done|]. rewrite <-Hp. symmetry. apply pending_zero.
  apply pending_zero in E as (E1 & E2 & E3). split_and!.
  - intros c. rewrite (pg_pending _ _ _ Hb), E1. by destruct (mem c _).
  - intros c. rewrite (pg_pending _ _ _ Hpe), E2. by destruct (mem c _).
  - apply elem_of_equiv_empty_L. intros c. rewrite Hc, E3. intros [?%not_elem_of_empty|Hin]; [done|].
    assert (false = true) by (apply Hr; right; by exists c). done.
Qed.

(** What a send leaves, for the loop *)
Lemma send_if_ready_loop now net a a' out :
  mq_ok a → (length (mq_outgoing_work a) ≤ 2)%nat → send_if_ready now net a = Continue a' out →
  (has_pending_work (mq_wants a') = true → mq_outgoing_work a' ≠ []) ∧
  (length (mq_outgoing_work a') ≤ 2)%nat ∧
  (has_pending_work (mq_wants a) = true → (pending_work_count (mq_wants a') < pending_work_count (mq_wants a))%nat).
Proof.
  intros Ha Hl. unfold send_if_ready. case_match eqn:Hp.
  - intros (sh & Hsh & [(msg & cs & pe & be & Hx & _) _ _ Hsig Hlen])%send_message_spec; [|done].
    split_and!; [done|lia|]. intros _. by eapply extracted_less, Hp; [apply Ha|].
  - intros [= <- <-]. rewrite Hp. done.
Qed.

Lemma mq_step_wakeup now net ev r r' out :
  run_ok r → mq_step now net ev r = Some (Continue r' out) → run_ok r'.
Proof.
  intros [Ha Hw Hl] Hs. pose proof (mq_step_cases _ _ _ _ _ _ Ha Hs) as Hc.
  apply actor_step_ok in Hc as Ha'; [|done].
  assert ((has_pending_work (mq_wants (run_actor r')) = true →
    mq_outgoing_work (run_actor r') ≠ [] ∨ run_schedule_work_enabled r' = true) ∧
    (length (mq_outgoing_work (run_actor r')) ≤ 2)%nat) as [? ?]; [|done].
  clear Hc. revert Hs. unfold mq_step. destruct ev as [u|timeout l| | | |timeout|].
  - intros [= <- <-]. simpl. destruct (handle_wants_update_spec now u (run_actor r)) as (-> & _ & _ & Hb & Hk & Hn).
    split; [|lia]. intros Hp. destruct (update_wants u _).2 eqn:E; [left; by apply Hb|].
    destruct Hw as [Hw|Hw]; [by eapply update_quiet|left; by apply Hk|by right].
  - intros [= <- <-]. simpl. by rewrite handle_response_idle.
  - unfold rebroadcast_wantlist. destruct (transfer_rebroadcast_wants _) as [w|] eqn:Et.
    + destruct (send_message _ _ _) as [a' o|] eqn:Es; [|done]. intros [= <- <-]. simpl.
      apply send_message_spec in Es as (sh & _ & [_ _ _ Hsig Hlen]); [|by apply transfer_ok]. simpl in Hlen.
      split; [intros; left; auto|lia].
    + by intros [= <- <-].
  - destruct (mq_outgoing_work (run_actor r)) as [|when_ rest] eqn:Eo; [done|]. unfold on_outgoing_work. simpl in *.
    destruct (match run_work_scheduled r with None => _ | Some _ => _ end) as [sch en].
    case_match.
    + destruct (send_if_ready _ _ _) as [a' o|] eqn:Es; [|done]. intros [= <- <-]. simpl.
      apply send_if_ready_loop in Es as (Hq & Hlen & _); [|by eapply mq_ok_ext, Ha|simpl; lia].
      split; [intros; left; auto|lia].
    + intros [= <- <-]. simpl. split; [by right|lia].
  - case_match; [|done]. destruct (send_if_ready _ _ _) as [a' o|] eqn:Es; [|done]. intros [= <- <-]. simpl.
    apply send_if_ready_loop in Es as (Hq & Hlen & _); [|done|lia]. split; [intros; left; auto|lia].
  - by intros [= <- <-].
  - destruct (dh_check_for_timeouts now (mq_dh (run_actor r))) as [[d ex] nx]. by intros [= <- <-].
Qed.

Lemma mq_run_ok l r r' out : run_ok r → mq_run l r = Some (r', out) → run_ok r'.
Proof.
  revert r out. induction l as [|[[now net] ev] l IH]; intros r out Hr; simpl.
  { by intros [= <- <-]. }
  destruct (mq_step now net ev r) as [[r1 out1|]|] eqn:Es; try done.
  destruct (mq_run l r1) as [[r2 out2]|] eqn:Er; [|done]. simpl. intros [= <- <-].
  eapply IH, Er. by eapply mq_step_wakeup.
Qed.

Lemma run_new_ok config : run_ok (run_new config).
Proof. split; [apply new_ok| |simpl; lia]. simpl. intros Hp. exfalso. revert Hp. by vm_compute. Qed.

(** The loop when nothing arrives from outside: as [select!] is biased, a signal
    that waits in the channel is taken before the timer fires. *)
Fixpoint drain (clock : nat → Z) (net : Net) (n : nat) (r : MqRun) : option (MqRun * list mq_output) :=
  if has_pending_work (mq_wants (run_actor r)) then
    match n with
    | O => None
    | S n =>
        let ev := match mq_outgoing_work (run_actor r) with [] => EvTimer | _ => EvWork end in
        match mq_step (clock n) net ev r with
        | Some (Continue r out) =>
            '(r, out') ← drain clock net n r;
            Some (r, out ++ out')
        | _ => None
        end
    end
  else Some (r, []).

(** How much there is to do *)
Definition effort (r : MqRun) : nat :=
  4 * pending_work_count (mq_wants (run_actor r)) + 2 * length (mq_outgoing_work (run_actor r))
  + (if run_schedule_work_enabled r then 1 else 0).

Lemma send_if_ready_continues now net a sh :
  net_dial net = Some sh → net_send net = true → ∃ a' out, send_if_ready now net a = Continue a' out.
Proof.
  intros Hd Hn. unfold send_if_ready. case_match; [|eauto]. unfold send_message, extract_outgoing_message. simpl.
  rewrite Hd, Hn. assert (∃ s, (match mq_sender a with Some s => Some s | None => Some sh end) = Some s) as [s ->]
    by (destruct (mq_sender a); eauto). simpl.
  destruct (extract_wants _ _ _) as [[[w' msg] pe] be]. simpl. case_match; eauto.
Qed.

Lemma drain_step now net r sh :
  run_ok r → net_dial net = Some sh → net_send net = true → has_pending_work (mq_wants (run_actor r)) = true →
  let ev := match mq_outgoing_work (run_actor r) with [] => EvTimer | _ => EvWork end in
  ∃ r' out, mq_step now net ev r = Some (Continue r' out) ∧ (effort r' < effort r)%nat.
Proof.
  intros [Ha Hw Hl] Hd Hn Hp ev. unfold ev, effort. destruct (mq_outgoing_work (run_actor r)) as [|when_ rest] eqn:Eo.
  - destruct (Hw Hp) as [?|He]; [done|]. unfold mq_step. rewrite He.
    destruct (send_if_ready_continues now net (run_actor r) sh Hd Hn) as (a' & out & Es). rewrite Es.
    eexists _, _. split; [done|]. simpl.
    apply send_if_ready_loop in Es as (_ & Hlen & Hlt); [|done|by rewrite Eo]. specialize (Hlt Hp). lia.
  - unfold mq_step. rewrite Eo. unfold on_outgoing_work. simpl.
    destruct (match run_work_scheduled r with None => _ | Some _ => _ end) as [sch en] eqn:Em.
    assert ((if en then 1 else 0) ≤ (if run_schedule_work_enabled r then 1 else 0))%nat as Hen.
    { destruct (run_work_scheduled r); simplify_eq; [lia|done]. }
    destruct ((_ <? _) || _).
    + destruct (send_if_ready_continues now net (mq_with_work rest (run_actor r)) sh Hd Hn) as (a' & out & Es).
      rewrite Es. eexists _, _. split; [reflexivity|]. simpl in *.
      apply send_if_ready_loop in Es as (_ & Hlen & Hlt); [|by eapply mq_ok_ext, Ha|simpl; lia].
      specialize (Hlt Hp). simpl in Hlt. lia.
    + eexists _, _. split; [done|]. simpl. destruct (run_schedule_work_enabled r); lia.
Qed.

Lemma drain_ok clock net n r sh :
  run_ok r → net_dial net = Some sh → net_send net = true → (effort r ≤ n)%nat →
  ∃ r' out, drain clock net n r = Some (r', out) ∧ has_pending_work (mq_wants (run_actor r')) = false.
Proof.
  revert r. induction n as [|n IH]; intros r Hr Hd Hn He; simpl.
  - destruct (has_pending_work _) eqn:Hp; [|eauto]. exfalso. unfold has_pending_work, effort in *.
    apply Nat.ltb_lt in Hp. lia.
  - destruct (has_pending_work _) eqn:Hp; [|eauto].
    destruct (drain_step (clock n) net r sh Hr Hd Hn Hp) as (r1 & out1 & Es & Hlt). rewrite Es.
    apply mq_step_wakeup in Es; [|done]. destruct (IH r1 Es Hd Hn) as (r2 & out2 & -> & Hz); [lia|].
    simpl. eauto.
Qed.

(** C25: the loop never loses a wakeup.  From every state a message queue can reach,
    as long as the network delivers, it sends everything that is pending on its
    own: the signals in its channel and its timer are enough, whatever the clock
    shows, and it takes at most four iterations for each pending want or cancel
    and five more. *)
Theorem mq_drains config trace r out clock net sh :
  mq_run trace (run_new config) = Some (r, out) →
  net_dial net = Some sh → net_send net = true →
  ∃ r' out', drain clock net (4 * pending_work_count (mq_wants (run_actor r)) + 5) r = Some (r', out') ∧
    has_pending_work (mq_wants (run_actor r')) = false.
Proof.
  intros Hrun Hd Hn. pose proof (mq_run_ok _ _ _ _ (run_new_ok config) Hrun) as Hr.
  apply (drain_ok _ _ _ _ sh); [done..|]. unfold effort. pose proof (ro_channel _ Hr).
  destruct (run_schedule_work_enabled r); lia.
Qed.
End loop.

Module MessageQueueWitness.
Import Toy.
Import ScanQueue.
Import MessageWitness.
Import EngineWitness.

(** A run: a block and a have are asked for and sent, one is cancelled, a peer's
    response comes in, and the cancel is sent. *)
Definition net : Net := {| net_dial := Some true; net_send := true |}.
Definition at_ (now : Z) (ev : mq_event) : Z * Net * mq_event := (now, net, ev).

Definition asks : list (Z * Net * mq_event) :=
  [at_ 0 (EvWants (UpdateWants [[1]] [[2]])); at_ 0 (EvWants (BroadcastWantHaves {[ [3] ]}));
   at_ 1 EvWork; at_ MILLI EvTimer; at_ (2 * MILLI) (EvResponse 0 [[1]])].
Definition trace : list (Z * Net * mq_event) :=
  asks ++ [at_ (3 * MILLI) (EvWants (Cancels {[ [2] ]})); at_ (4 * MILLI) EvWork; at_ (30 * MILLI) EvTimer].

Definition final (l : list (Z * Net * mq_event)) : MqRun * list mq_output :=
  default (run_new MqConfig_default, []) (mq_run l (run_new MqConfig_default)).
Definition deliveries (l : list (Z * Net * mq_event)) : list (Z * BitswapMessage) :=
  pair 7 <$> sent_messages (final l).2.

Lemma deliveries_messages l : (deliveries l).*2 = sent_messages (final l).2.
Proof. unfold deliveries. rewrite <-list_fmap_compose. apply list_fmap_id. Qed.

Definition server : EngineConfig := EngineConfig_default.

Lemma mq_mirrors_wants_witness :
  remote_wants (deliver peer (deliveries trace) (Engine_new server)) peer [1] = Some WantType_Block ∧
  remote_wants (deliver peer (deliveries trace) (Engine_new server)) peer [2] = None ∧
  remote_wants (deliver peer (deliveries trace) (Engine_new server)) peer [3] = Some WantType_Have.
Proof.
  assert (∀ c, remote_wants (deliver peer (deliveries trace) (Engine_new server)) peer c
    = requests trace (λ _, None) c) as Hm.
  { apply (mq_mirrors_wants MqConfig_default server peer trace (final trace).1 (final trace).2 (deliveries trace)).
    - vm_compute. reflexivity.
    - vm_compute. repeat split; intros c; rewrite ?elem_of_empty; set_solver.
    - repeat constructor; done.
    - reflexivity.
    - apply deliveries_messages.
    - vm_compute. reflexivity. }
  rewrite !Hm. vm_compute. repeat split.
Defined.

Lemma mq_sent_is_known_witness :
  remote_wants (deliver peer (deliveries asks) (Engine_new server)) peer [1] = Some WantType_Block ∧
  is_Some (remote_wants (deliver peer (deliveries asks) (Engine_new server)) peer [3]).
Proof.
  pose proof (mq_sent_is_known MqConfig_default server peer asks (final asks).1 (final asks).2 (deliveries asks)) as Hk.
  split.
  - refine (proj1 (proj2 (Hk _ _ _ [1])) _); [vm_compute; reflexivity|reflexivity|apply deliveries_messages|].
    vm_compute. reflexivity.
  - refine (proj1 (Hk _ _ _ [3]) _); [vm_compute; reflexivity|reflexivity|apply deliveries_messages|].
    right. vm_compute. reflexivity.
Defined.

Lemma mq_drains_witness :
  ∃ r' out', drain (λ _, 0) net (4 * 3 + 5) (final (take 2 asks)).1 = Some (r', out') ∧
    has_pending_work (mq_wants (run_actor r')) = false.
Proof.
  refine (mq_drains MqConfig_default (take 2 asks) (final (take 2 asks)).1 (final (take 2 asks)).2 (λ _, 0) net true _ _ _);
    vm_compute; reflexivity.
Defined.

(** When a want is repeated while its cancel waits and then cancelled again, the
    cancel is never sent: the queue has nothing left to send and wants nothing,
    and the peer still has the want. *)
Definition flapping : list (Z * Net * mq_event) :=
  [at_ 0 (EvWants (UpdateWants [[1]] [])); at_ 0 EvWork; at_ MILLI EvTimer;
   at_ MILLI (EvWants (Cancels {[ [1] ]})); at_ MILLI (EvWants (UpdateWants [[1]] []));
   at_ MILLI (EvWants (Cancels {[ [1] ]})); at_ MILLI EvWork; at_ (2 * MILLI) EvTimer; at_ (3 * MILLI) EvWork].

Lemma mq_forgotten_cancel :
  is_Some (mq_run flapping (run_new MqConfig_default)) ∧
  has_pending_work (mq_wants (run_actor (final flapping).1)) = false ∧
  requests flapping (λ _, None) [1] = None ∧
  remote_wants (deliver peer (deliveries flapping) (Engine_new server)) peer [1] = Some WantType_Block.
Proof. vm_compute. repeat split. eexists. reflexivity. Qed.
End MessageQueueWitness.
