(* ===== verification/TimeoutFacts.v ===== *)
(** * The DONT_HAVE timeouts

    What [DontHaveTimeoutManager] promises: timeouts stay within their bound, and
    only overdue wants fire.  And what it loses: the check takes the newest want of
    the queue first and forgets it when it is not due yet. *)

From stdpp Require Import prelude gmap fin_maps.
From Stdlib Require Import ZArith Lia.
From S2P Require Import Prelude Cids MessageQueue.
Local Open Scope Z_scope.

Section timeouts.
Context `{Ids}.

(** The operations of the manager, in the order in which they take its lock *)
Inductive dh_op :=
  | DhStart
  | DhPing (timeout : Z)
  | DhLatency (timeout : Z)
  | DhAdd (now : Z) (pending : list Cid)
  | DhCancel (cancels : list Cid)
  | DhCheck (now : Z).

Definition dh_step (op : dh_op) (d : DontHaveTimeouts) : DontHaveTimeouts * list Cid :=
  match op with
  | DhStart => (dh_start d, [])
  | DhPing timeout => (dh_ping timeout d, [])
  | DhLatency timeout => ((dh_update_message_latency timeout d).1, [])
  | DhAdd now pending => ((dh_add_pending now pending d).1, [])
  | DhCancel cancels => (dh_cancel_pending cancels d, [])
  | DhCheck now => let '(d, fired, _) := dh_check_for_timeouts now d in (d, fired)
  end.

(** The state after some operations, and the CIDs that fired *)
Fixpoint dh_run (ops : list dh_op) (d : DontHaveTimeouts) : DontHaveTimeouts * list Cid :=
  match ops with
  | [] => (d, [])
  | op :: ops =>
      let '(d, fired) := dh_step op d in
      let '(d, fired') := dh_run ops d in
      (d, fired ++ fired')
  end.

(** A want is due when its timeout has passed. *)
Definition due (now : Z) (d : DontHaveTimeouts) (pw : PendingWant) : Prop :=
  dh_timeout d ≤ elapsed now (pw_sent pw).

Lemma dh_expire_spec now timeout rq active expired rq' active' expired' :
  dh_expire now timeout rq active expired = (rq', active', expired') →
  ∃ head dropped, rq = head ++ dropped ++ rq' ∧
    Forall (λ pw, pw_active pw = true → timeout ≤ elapsed now (pw_sent pw)) head ∧
    (length dropped ≤ 1)%nat ∧ (dropped = [] → rq' = []) ∧
    Forall (λ pw, pw_active pw = true ∧ elapsed now (pw_sent pw) < timeout) dropped ∧
    expired' = expired ++ (pw_cid <$> filter (λ pw, pw_active pw = true) head) ∧
    (∀ c, c ∉ expired' → active' !! c = active !! c).
Proof.
  revert active expired. induction rq as [|pw rq IH]; intros active expired; simpl.
  { intros [= <- <- <-]. exists [], []. split_and!; try done; [by constructor..|by rewrite app_nil_r]. }
  destruct (pw_active pw) eqn:Ea.
  - case_match eqn:Et.
    + intros [= <- <- <-]. exists [], [pw]. apply Z.ltb_lt in Et.
      split_and!; [done|by constructor|simpl; lia|done|by apply Forall_singleton|by rewrite app_nil_r|done].
    + apply Z.ltb_ge in Et. intros (head & dropped & -> & Hh & Hl & Hd & Hf & -> & Hact)%IH.
      exists (pw :: head), dropped. split_and!; try done.
      * by constructor.
      * rewrite filter_cons_True by done. by rewrite fmap_cons, <-app_assoc.
      * intros c Hc. rewrite Hact by done. apply lookup_delete_ne. set_solver.
  - intros (head & dropped & -> & Hh & Hl & Hd & Hf & -> & Hact)%IH. exists (pw :: head), dropped.
    split_and!; try done.
    + constructor; [congruence|done].
    + by rewrite filter_cons_False by congruence.
Qed.

(** A check fires only wants whose timeout has passed.  It takes the newest end
    off the queue: every want there that is due fires, newest first, at most one
    want that is not due is taken with them (and forgotten), the older ones stay,
    and the next check comes when the oldest that stayed is due. *)
Theorem dh_check_spec now d d' fired next :
  dh_check_for_timeouts now d = (d', fired, next) →
  ∃ kept dropped taken,
    dh_want_queue d = kept ++ dropped ++ taken ∧ dh_want_queue d' = kept ∧
    Forall (λ pw, pw_active pw = true → due now d pw) taken ∧
    fired = pw_cid <$> filter (λ pw, pw_active pw = true) (reverse taken) ∧
    (length dropped ≤ 1)%nat ∧ (dropped = [] → kept = []) ∧
    Forall (λ pw, pw_active pw = true ∧ ¬ due now d pw) dropped ∧
    next = (match kept with
            | oldest :: _ => Some (elapsed (pw_sent oldest + dh_timeout d) now)
            | [] => None
            end) ∧
    (∀ c, c ∉ fired → dh_active_wants d' !! c = dh_active_wants d !! c).
Proof.
  unfold dh_check_for_timeouts. destruct (dh_want_queue d) as [|q0 q] eqn:Eq.
  { intros [= <- <- <-]. exists [], [], []. rewrite Eq. split_and!; try done; try (by constructor); simpl; lia. }
  destruct (dh_expire _ _ _ _ _) as [[rq active] expired] eqn:Ee. intros [= <- <- <-].
  apply dh_expire_spec in Ee as (head & dropped & Hq & Hh & Hl & Hd & Hf & -> & Hact).
  apply (f_equal reverse) in Hq. rewrite reverse_involutive, !reverse_app, <-app_assoc in Hq.
  exists (reverse rq), (reverse dropped), (reverse head). rewrite reverse_involutive. simpl.
  split_and!; try done.
  - by apply Forall_reverse.
  - by rewrite length_reverse.
  - intros Hn. rewrite Hd; [done|]. destruct dropped; [done|]. by rewrite reverse_cons in Hn; destruct (reverse dropped).
  - apply Forall_reverse. eapply Forall_impl; [exact Hf|]. unfold due. intros pw [? ?]. split; [done|lia].
Qed.

(** ** The bound *)

(** Whatever latencies are measured, the timeout of a peer is never more than
    [MAX_TIMEOUT] (seven seconds). *)
Theorem dh_timeout_bounded ops :
  let d := (dh_run ops DontHaveTimeouts_new).1 in dh_timeout d ≤ MAX_TIMEOUT.
Proof.
  simpl. assert (dh_timeout DontHaveTimeouts_new ≤ MAX_TIMEOUT) as Hb by done. revert Hb.
  generalize DontHaveTimeouts_new. induction ops as [|op ops IH]; intros d Hb; simpl; [done|].
  assert (dh_timeout (dh_step op d).1 ≤ MAX_TIMEOUT) as Hs.
  { assert (∀ t, calculate_timeout t MAX_TIMEOUT ≤ MAX_TIMEOUT) as Hc.
    { intros t. unfold calculate_timeout. destruct (Z.ltb_spec MAX_TIMEOUT t); lia. }
    destruct op as [|t|t|now l|l|now]; simpl; try done.
    - unfold dh_ping. case_match; [apply Hc|done].
    - assert (dh_timeout (dh_add_pending now l d).1 = dh_timeout d) as ->; [|done].
      unfold dh_add_pending. destruct l as [|c l]; [done|]. cbn [fst]. generalize (c :: l). intros l'. clear Hb IH.
      revert d. induction l' as [|x l' IH]; intros d; simpl; [done|]. rewrite IH. unfold dh_add. by case_match.
    - unfold dh_check_for_timeouts. destruct (dh_want_queue d); [done|].
      by destruct (dh_expire _ _ _ _ _) as [[? ?] ?]. }
  specialize (IH (dh_step op d).1 Hs). destruct (dh_step op d) as [d1 f1]. simpl in *.
  by destruct (dh_run ops d1).
Qed.

(** ** The want that is forgotten *)

(** [c] waits for an answer but is not in the queue. *)
Definition forgotten (c : Cid) (d : DontHaveTimeouts) : Prop :=
  is_Some (dh_active_wants d !! c) ∧ c ∉ pw_cid <$> dh_want_queue d.

Lemma dh_add_forgotten now c l d : forgotten c d → forgotten c (foldl (dh_add now) d l).
Proof.
  intros Hc. apply foldl_invariant; [|done]. clear d Hc. intros d x _ [Ha Hq]. unfold dh_add.
  destruct (dh_active_wants d !! x) eqn:E; [done|]. assert (c ≠ x) as Hx by (intros ->; rewrite E in Ha; by destruct Ha).
  split; simpl.
  - by rewrite lookup_insert_ne.
  - rewrite fmap_app. set_solver.
Qed.

Lemma dh_step_forgotten c op d :
  forgotten c d → (∀ l, op = DhCancel l → c ∉ l) →
  forgotten c (dh_step op d).1 ∧ c ∉ (dh_step op d).2.
Proof.
  intros Hc Hop. destruct op as [|t|t|now l|l|now]; simpl.
  - split; [done|set_solver].
  - unfold dh_ping. by split; [case_match|set_solver].
  - split; [done|set_solver].
  - split; [|set_solver]. unfold dh_add_pending. destruct l; [done|]. by apply dh_add_forgotten.
  - split; [|set_solver]. specialize (Hop l eq_refl). destruct Hc as [Ha Hq]. split; [|done]. simpl.
    revert Ha. generalize (dh_active_wants d). induction l as [|x l IH]; intros m Hm; simpl; [done|].
    apply IH; [set_solver|]. rewrite lookup_delete_ne; set_solver.
  - destruct (dh_check_for_timeouts now d) as [[d' fired] next] eqn:E.
    unfold dh_check_for_timeouts in E. destruct Hc as [Ha Hq].
    destruct (dh_want_queue d) as [|q0 q] eqn:Eq.
    { injection E as <- <- <-. rewrite <-Eq in Hq. split; [done|set_solver]. }
    destruct (dh_expire _ _ _ _ _) as [[rq active] expired] eqn:Ee. injection E as <- <- <-.
    apply dh_expire_spec in Ee as (head & dropped & Hr & _ & _ & _ & _ & -> & Hact).
    rewrite <-(reverse_involutive (q0 :: q)), Hr, !reverse_app, !fmap_app in Hq.
    assert (c ∉ pw_cid <$> filter (λ pw, pw_active pw = true) head) as Hn.
    { intros (pw & -> & [_ Hin]%list_elem_of_filter)%list_elem_of_fmap. apply Hq. apply elem_of_app. right.
      apply list_elem_of_fmap_2. by apply elem_of_reverse. }
    split; [split; simpl; [by rewrite Hact|]|done]. set_solver.
Qed.

Lemma dh_run_forgotten c ops d :
  forgotten c d → (∀ l, DhCancel l ∈ ops → c ∉ l) → c ∉ (dh_run ops d).2.
Proof.
  revert d. induction ops as [|op ops IH]; intros d Hd Hops; simpl; [apply not_elem_of_nil|].
  destruct (dh_step_forgotten c op d Hd) as [Hd1 Hn1]; [intros l ->; apply Hops; by left|].
  destruct (dh_step op d) as [d1 f1]. simpl in *. specialize (IH d1 Hd1).
  destruct (dh_run ops d1) as [d2 f2]. simpl in *. rewrite elem_of_app. intros [?|Hin]; [done|].
  apply IH; [|done]. intros l Hl. apply Hops. by right.
Qed.

(** A timeout can be lost for good.  When a want-block is sent to a peer that
    nothing else is expected from, the check that this triggers takes the want off
    the queue before it is due; from then on, whatever happens short of a cancel
    for it, no timeout fires for this want. *)
Theorem dh_single_want_forgotten c d t t' ops :
  dh_active_wants d = ∅ → dh_want_queue d = [] → dh_worker d = true →
  elapsed t' t < dh_timeout d →
  (∀ l, DhCancel l ∈ ops → c ∉ l) →
  (dh_add_pending t [c] d).2 = true ∧
  c ∉ (dh_run (DhAdd t [c] :: DhCheck t' :: ops) d).2.
Proof.
  intros Ha Hq Hw Ht Hops. split.
  { unfold dh_add_pending. simpl. by rewrite Ha, Hw, bool_decide_eq_true_2. }
  assert (forgotten c (dh_step (DhCheck t') (dh_step (DhAdd t [c]) d).1).1 ∧
    (dh_step (DhCheck t') (dh_step (DhAdd t [c]) d).1).2 = []) as [Hf He].
  { simpl. unfold dh_add_pending, dh_add, dh_check_for_timeouts. simpl. rewrite Ha, lookup_empty. simpl. rewrite Hq. simpl.
    rewrite (proj2 (Z.ltb_lt _ _) Ht). simpl. split; [|done]. split; simpl; [rewrite lookup_insert_eq; eauto|].
    apply not_elem_of_nil. }
  cbn [dh_run]. destruct (dh_step (DhAdd t [c]) d) as [d1 f1] eqn:E1. simpl in E1. injection E1 as E1 <-. simpl in Hf, He |- *.
  destruct (dh_check_for_timeouts t' d1) as [[d2 f2] n2]. simpl in *. subst f2.
  pose proof (dh_run_forgotten c ops d2 Hf Hops) as Hr. by destruct (dh_run ops d2).
Qed.
End timeouts.

Module TimeoutWitness.
Import Toy.

Definition started : DontHaveTimeouts := dh_start DontHaveTimeouts_new.
Definition two : DontHaveTimeouts := (dh_add_pending 3 [[8]] (dh_add_pending 0 [[9]] started).1).1.

(** Two wants of different age: the check at the time the older one is due. *)
Lemma dh_check_spec_witness :
  ∃ kept dropped taken : list PendingWant,
    dh_want_queue two = kept ++ dropped ++ taken ∧ (length dropped ≤ 1)%nat.
Proof.
  destruct (dh_check_spec DONT_HAVE_TIMEOUT two (dh_check_for_timeouts DONT_HAVE_TIMEOUT two).1.1
    (dh_check_for_timeouts DONT_HAVE_TIMEOUT two).1.2 (dh_check_for_timeouts DONT_HAVE_TIMEOUT two).2)
    as (kept & dropped & taken & Hq & _ & _ & _ & Hl & _); [reflexivity|].
  exists kept, dropped, taken. split; assumption.
Defined.

Lemma dh_single_want_forgotten_witness :
  [9] ∉ (dh_run [DhAdd 0 [[9]]; DhCheck 1; DhCheck (100 * SECOND); DhCheck (200 * SECOND)] started).2.
Proof.
  refine (proj2 (dh_single_want_forgotten [9] started 0 1 [DhCheck (100 * SECOND); DhCheck (200 * SECOND)] _ _ _ _ _)).
  - reflexivity.
  - reflexivity.
  - reflexivity.
  - vm_compute. reflexivity.
  - intros l Hl. rewrite !elem_of_cons in Hl. destruct Hl as [Hl|[Hl|Hl]]; [discriminate|discriminate|].
    apply not_elem_of_nil in Hl. destruct Hl.
Defined.
End TimeoutWitness.
