(* ===== verification/PeerWants.v ===== *)
(** * Which peer was asked for what

    Models [iroh-bitswap/src/client/peer_want_manager.rs] and the sending half of
    [MessageQueue] in [client/message_queue.rs].  The updates that the operations
    put into the queues of the peers are returned as a list; [peer_queues] are the
    peers that have a queue. *)

From stdpp Require Import prelude gmap fin_maps.
From Stdlib Require Import ZArith Lia.
From S2P Require Import Prelude Cids Message Wantlist MessageQueue.

Section peer_wants.
Context `{Ids} `{HashOrder}.

Record PeerWant := { want_blocks : gset Cid; want_haves : gset Cid }.

Definition PeerWant_default : PeerWant := {| want_blocks := ∅; want_haves := ∅ |}.

Record PeerWantManager := {
  pwm_peer_wants : gmap PeerId PeerWant;
  pwm_want_peers : gmap Cid (gset PeerId);
  pwm_broadcast_wants : gset Cid
}.

Definition pwm_default : PeerWantManager :=
  {| pwm_peer_wants := ∅; pwm_want_peers := ∅; pwm_broadcast_wants := ∅ |}.

Definition Updates := list (PeerId * WantsUpdate).

(** ** What is put into a queue: nothing for an empty request *)

Definition add_broadcast_want_haves (peer : PeerId) (hs : gset Cid) : Updates :=
  if decide (hs = ∅) then [] else [(peer, BroadcastWantHaves hs)].
Definition add_wants (peer : PeerId) (bs hs : list Cid) : Updates :=
  if decide (bs = [] ∧ hs = []) then [] else [(peer, UpdateWants bs hs)].
Definition add_cancels (peer : PeerId) (cs : gset Cid) : Updates :=
  if decide (cs = ∅) then [] else [(peer, Cancels cs)].

(** ** The operations *)

Definition pwm_add_peer (peer : PeerId) (m : PeerWantManager) : PeerWantManager * Updates :=
  match pwm_peer_wants m !! peer with
  | Some _ => (m, [])
  | None =>
      ({| pwm_peer_wants := <[peer := PeerWant_default]> (pwm_peer_wants m);
          pwm_want_peers := pwm_want_peers m; pwm_broadcast_wants := pwm_broadcast_wants m |},
       if decide (pwm_broadcast_wants m = ∅) then []
       else add_broadcast_want_haves peer (pwm_broadcast_wants m))
  end.

(** [reverse_index_remove] *)
Definition reverse_index_remove (peer : PeerId) (index : gmap Cid (gset PeerId)) (cid : Cid)
    : gmap Cid (gset PeerId) :=
  match index !! cid with
  | Some peers =>
      let peers := peers ∖ {[peer]} in
      if decide (peers = ∅) then delete cid index else <[cid := peers]> index
  | None => index
  end.

Definition pwm_remove_peer (peer : PeerId) (m : PeerWantManager) : PeerWantManager :=
  match pwm_peer_wants m !! peer with
  | Some pw =>
      {| pwm_peer_wants := delete peer (pwm_peer_wants m);
         pwm_want_peers :=
           foldl (reverse_index_remove peer)
             (foldl (reverse_index_remove peer) (pwm_want_peers m) (hs_iter (want_blocks pw)))
             (hs_iter (want_haves pw));
         pwm_broadcast_wants := pwm_broadcast_wants m |}
  | None => m
  end.

(** [broadcast_want_haves] *)
Definition peer_unsent (unsent : gset Cid) (pw : PeerWant) : gset Cid :=
  list_to_set (filter (λ c, (c ∉ want_blocks pw) ∧ c ∉ want_haves pw) (hs_iter unsent)).
Definition pwm_broadcast_want_haves (hs : gset Cid) (peer_queues : gset PeerId) (m : PeerWantManager)
    : PeerWantManager * Updates :=
  let unsent := hs ∖ pwm_broadcast_wants m in
  ({| pwm_peer_wants := pwm_peer_wants m; pwm_want_peers := pwm_want_peers m;
      pwm_broadcast_wants := pwm_broadcast_wants m ∪ unsent |},
   hm_iter (pwm_peer_wants m) ≫= λ '(peer, pw),
     let unsent := peer_unsent unsent pw in
     if decide (unsent ≠ ∅ ∧ peer ∈ peer_queues) then add_broadcast_want_haves peer unsent else []).

Definition index_insert (peer : PeerId) (cid : Cid) (index : gmap Cid (gset PeerId)) : gmap Cid (gset PeerId) :=
  <[cid := {[peer]} ∪ default ∅ (index !! cid)]> index.

(** The two loops of [send_wants]: the wants of the peer, the index and the CIDs
    to send *)
Definition SendState : Type := PeerWant * gmap Cid (gset PeerId) * list Cid.
Definition send_block (peer : PeerId) (st : SendState) (cid : Cid) : SendState :=
  let '(pw, index, flt) := st in
  if decide (cid ∈ want_blocks pw) then st
  else ({| want_blocks := {[cid]} ∪ want_blocks pw; want_haves := want_haves pw ∖ {[cid]} |},
        index_insert peer cid index, flt ++ [cid]).
Definition send_have (peer : PeerId) (broadcast : gset Cid) (st : SendState) (cid : Cid) : SendState :=
  let '(pw, index, flt) := st in
  if decide (cid ∈ broadcast) then st
  else if decide (cid ∈ want_blocks pw ∨ cid ∈ want_haves pw) then st
  else ({| want_blocks := want_blocks pw; want_haves := {[cid]} ∪ want_haves pw |},
        index_insert peer cid index, flt ++ [cid]).

Definition pwm_send_wants (peer : PeerId) (blocks haves : list Cid) (m : PeerWantManager)
    : PeerWantManager * Updates :=
  match pwm_peer_wants m !! peer with
  | Some pw =>
      let '(pw, index, flt_blocks) := foldl (send_block peer) (pw, pwm_want_peers m, []) blocks in
      let '(pw, index, flt_haves) := foldl (send_have peer (pwm_broadcast_wants m)) (pw, index, []) haves in
      ({| pwm_peer_wants := <[peer := pw]> (pwm_peer_wants m); pwm_want_peers := index;
          pwm_broadcast_wants := pwm_broadcast_wants m |},
       if decide (flt_blocks = [] ∧ flt_haves = []) then [] else add_wants peer flt_blocks flt_haves)
  | None => (m, [])
  end.

(** The macro [send!] of [send_cancels]: the wants that stay and the CIDs to
    cancel *)
Definition cancel_one (broadcast : gset Cid) (st : PeerWant * gset Cid) (cid : Cid) : PeerWant * gset Cid :=
  let '(pw, to_cancel) := st in
  if decide ((cid ∉ want_blocks pw) ∧ cid ∉ want_haves pw) then st
  else ({| want_blocks := want_blocks pw ∖ {[cid]}; want_haves := want_haves pw ∖ {[cid]} |},
        if decide (cid ∈ broadcast) then to_cancel else {[cid]} ∪ to_cancel).
Definition cancel_peer (cancels : list Cid) (broadcast_cancels broadcast : gset Cid) (pw : PeerWant)
    : PeerWant * gset Cid :=
  foldl (cancel_one broadcast) (pw, broadcast_cancels) cancels.

(** One peer of the loops of [send_cancels] *)
Definition cancel_at (cancels : list Cid) (broadcast_cancels broadcast : gset Cid) (peer_queues : gset PeerId)
    (st : gmap PeerId PeerWant * Updates) (peer : PeerId) : gmap PeerId PeerWant * Updates :=
  let '(peer_wants, ups) := st in
  match peer_wants !! peer with
  | Some pw =>
      let '(pw, to_cancel) := cancel_peer cancels broadcast_cancels broadcast pw in
      (<[peer := pw]> peer_wants,
       ups ++ (if decide (to_cancel ≠ ∅ ∧ peer ∈ peer_queues) then add_cancels peer to_cancel else []))
  | None => (peer_wants, ups)
  end.

Definition pwm_send_cancels (cancels : list Cid) (peer_queues : gset PeerId) (m : PeerWantManager)
    : PeerWantManager * Updates :=
  if decide (cancels = []) then (m, []) else
  let broadcast_cancels : gset Cid :=
    list_to_set (filter (λ c, c ∈ pwm_broadcast_wants m) cancels) in
  let peers :=
    if decide (broadcast_cancels = ∅) then
      hs_iter (list_to_set (omap (λ c, pwm_want_peers m !! c) cancels ≫= hs_iter) : gset PeerId)
    else hm_keys (pwm_peer_wants m) in
  let '(peer_wants, ups) :=
    foldl (cancel_at cancels broadcast_cancels (pwm_broadcast_wants m) peer_queues) (pwm_peer_wants m, []) peers in
  ({| pwm_peer_wants := peer_wants;
      pwm_want_peers := foldl (λ index c, delete c index) (pwm_want_peers m) cancels;
      pwm_broadcast_wants := pwm_broadcast_wants m ∖ broadcast_cancels |}, ups).

(** ** Queries *)

Record WantPeerCounts := { count_block : nat; count_have : nat; is_broadcast : bool }.
Definition wanted_counts (c : WantPeerCounts) : bool :=
  (0 <? count_block c)%nat || (0 <? count_have c)%nat || is_broadcast c.

Definition count_peer (m : PeerWantManager) (cid : Cid) (counts : WantPeerCounts) (peer : PeerId) : WantPeerCounts :=
  match pwm_peer_wants m !! peer with
  | Some pw =>
      if decide (cid ∈ want_blocks pw) then
        {| count_block := S (count_block counts); count_have := count_have counts; is_broadcast := is_broadcast counts |}
      else if decide (cid ∈ want_haves pw) then
        {| count_block := count_block counts; count_have := S (count_have counts); is_broadcast := is_broadcast counts |}
      else counts
  | None => counts
  end.
Definition want_peer_counts (cid : Cid) (m : PeerWantManager) : WantPeerCounts :=
  let counts := {| count_block := 0; count_have := 0;
                   is_broadcast := bool_decide (cid ∈ pwm_broadcast_wants m) |} in
  match pwm_want_peers m !! cid with
  | Some peers => foldl (count_peer m cid) counts (hs_iter peers)
  | None => counts
  end.

Definition get_want_blocks (m : PeerWantManager) : gset Cid :=
  list_to_set (hm_values (pwm_peer_wants m) ≫= λ pw, hs_iter (want_blocks pw)).
Definition get_want_haves (m : PeerWantManager) : gset Cid :=
  list_to_set ((hm_values (pwm_peer_wants m) ≫= λ pw, hs_iter (want_haves pw))
               ++ hs_iter (pwm_broadcast_wants m)).
Definition get_wants (m : PeerWantManager) : gset Cid :=
  list_to_set (hs_iter (pwm_broadcast_wants m) ++ hm_keys (pwm_want_peers m)).
End peer_wants.
