(* ===== verification/PeerWantsFacts.v ===== *)
(** * The wants of the peers are consistent

    The invariant of [PeerWantManager] (its reverse index is exact), and the
    simulation: for every peer, the wants recorded for it are those that its queue
    was asked for. *)

From stdpp Require Import prelude gmap fin_maps.
From Stdlib Require Import ZArith Lia.
From S2P Require Import Prelude Cids Message Wantlist MessageQueue MessageQueueFacts MessageQueueRun PeerWants.

(** Membership by cases on whether the CID is the one of this iteration *)
Ltac elems c x := destruct (decide (c = x)) as [->|];
  repeat first [rewrite elem_of_cons | rewrite elem_of_union | rewrite elem_of_difference
               | rewrite elem_of_singleton | rewrite elem_of_nil | rewrite elem_of_app];
  tauto.

Section facts.
Context `{Ids} `{HashOrder}.

(** ** The invariant *)

(** [peer] is in the index under [c]. *)
Definition indexed (index : gmap Cid (gset PeerId)) (p : PeerId) (c : Cid) : Prop :=
  p ∈ default ∅ (index !! c).
Definition no_empty (index : gmap Cid (gset PeerId)) : Prop := ∀ c s, index !! c = Some s → s ≠ ∅.

(** The wants that were sent to a peer *)
Definition sent_to (m : PeerWantManager) (p : PeerId) (c : Cid) : Prop :=
  ∃ pw, pwm_peer_wants m !! p = Some pw ∧ (c ∈ want_blocks pw ∨ c ∈ want_haves pw).

Record pwm_wf (m : PeerWantManager) : Prop := {
  pwm_index p c : indexed (pwm_want_peers m) p c ↔ sent_to m p c;
  pwm_no_empty : no_empty (pwm_want_peers m);
  pwm_disjoint p pw : pwm_peer_wants m !! p = Some pw → want_blocks pw ## want_haves pw
}.

Lemma sent_to_at m p pw c :
  pwm_peer_wants m !! p = Some pw → sent_to m p c ↔ c ∈ want_blocks pw ∨ c ∈ want_haves pw.
Proof. intros Hp. unfold sent_to. rewrite Hp. split; [by intros (? & [= <-] & ?)|eauto]. Qed.

Lemma pwm_default_wf : pwm_wf pwm_default.
Proof.
  split; unfold indexed, no_empty, sent_to; simpl.
  - intros p c. rewrite lookup_empty. simpl. setoid_rewrite lookup_empty. set_solver.
  - intros c s. by rewrite lookup_empty.
  - intros p pw. by rewrite lookup_empty.
Qed.

(** ** Updates of one peer *)

Definition updates_for (p : PeerId) (ups : Updates) : list WantsUpdate :=
  omap (λ pu, if decide (pu.1 = p) then Some pu.2 else None) ups.

Definition requested (us : list WantsUpdate) (f : Cid → option WantType) : Cid → option WantType :=
  foldl (λ f u, request u f) f us.

(** The wants of a peer: its own and the broadcast ones *)
Definition peer_view (m : PeerWantManager) (p : PeerId) (c : Cid) : option WantType :=
  match pwm_peer_wants m !! p with
  | Some pw =>
      wjoin (elem_if (bool_decide (c ∈ want_blocks pw)) (Some WantType_Block))
        (elem_if (bool_decide (c ∈ want_haves pw ∨ c ∈ pwm_broadcast_wants m)) (Some WantType_Have))
  | None => None
  end.

Lemma updates_for_app p l1 l2 : updates_for p (l1 ++ l2) = updates_for p l1 ++ updates_for p l2.
Proof. apply omap_app. Qed.

Lemma updates_for_bind {A} (f : PeerId * A → Updates) (l : list (PeerId * A)) p :
  (∀ x u, u ∈ f x → u.1 = x.1) → NoDup l.*1 →
  updates_for p (l ≫= f)
  = match (list_to_map l : gmap PeerId A) !! p with Some a => updates_for p (f (p, a)) | None => [] end.
Proof.
  intros Hf. induction l as [|[q a] l IH]; intros Hnd.
  { simpl. by rewrite lookup_empty. }
  rewrite bind_cons. simpl in *. apply NoDup_cons in Hnd as [Hq Hnd]. rewrite updates_for_app, IH, lookup_insert by done.
  case_decide as Hp.
  - subst q. rewrite not_elem_of_list_to_map_1 by done. by rewrite app_nil_r.
  - assert (updates_for p (f (q, a)) = []) as ->; [|done].
    specialize (Hf (q, a)). induction (f (q, a)) as [|u us IHu]; [done|]. unfold updates_for. simpl.
    rewrite decide_False; [apply IHu; set_solver|]. specialize (Hf u). simpl in Hf. set_solver.
Qed.

(** ** The loops *)

Lemma index_insert_spec peer cid index p c :
  indexed (index_insert peer cid index) p c ↔ indexed index p c ∨ p = peer ∧ c = cid.
Proof.
  unfold indexed, index_insert. rewrite lookup_insert. case_decide; simpl; [subst|]; set_solver.
Qed.

Lemma index_insert_no_empty peer cid index : no_empty index → no_empty (index_insert peer cid index).
Proof.
  intros Hn c s. unfold index_insert. rewrite lookup_insert. case_decide; [intros [= <-]; set_solver|apply Hn].
Qed.

Lemma send_block_fold peer l pw index flt pw' index' flt' :
  foldl (send_block peer) (pw, index, flt) l = (pw', index', flt') →
  (∀ c, c ∈ want_blocks pw' ↔ c ∈ want_blocks pw ∨ c ∈ l) ∧
  (∀ c, c ∈ want_haves pw' ↔ c ∈ want_haves pw ∧ ¬ (c ∈ l ∧ c ∉ want_blocks pw)) ∧
  (∀ c, c ∈ flt' ↔ c ∈ flt ∨ c ∈ l ∧ c ∉ want_blocks pw) ∧
  (∀ p c, indexed index' p c ↔ indexed index p c ∨ p = peer ∧ c ∈ l ∧ c ∉ want_blocks pw) ∧
  (no_empty index → no_empty index').
Proof.
  revert pw index flt. induction l as [|x l IH]; intros pw index flt; simpl.
  { intros [= <- <- <-]. set_solver. }
  case_decide as Hx; intros (Hb & Hh & Hf & Hi & Hn)%IH; simpl in *.
  - split_and!; [intros c; rewrite Hb|intros c; rewrite Hh|intros c; rewrite Hf|intros p c; rewrite Hi|done];
      elems c x.
  - split_and!; [intros c; rewrite Hb|intros c; rewrite Hh|intros c; rewrite Hf
      |intros p c; rewrite Hi, index_insert_spec|intros; by apply Hn, index_insert_no_empty]; elems c x.
Qed.

Lemma send_have_fold peer bc l pw index flt pw' index' flt' :
  foldl (send_have peer bc) (pw, index, flt) l = (pw', index', flt') →
  want_blocks pw' = want_blocks pw ∧
  (∀ c, c ∈ want_haves pw' ↔ c ∈ want_haves pw ∨ c ∈ l ∧ (c ∉ bc) ∧ c ∉ want_blocks pw) ∧
  (∀ c, c ∈ flt' ↔ c ∈ flt ∨ c ∈ l ∧ (c ∉ bc) ∧ (c ∉ want_blocks pw) ∧ c ∉ want_haves pw) ∧
  (∀ p c, indexed index' p c ↔
     indexed index p c ∨ p = peer ∧ c ∈ l ∧ (c ∉ bc) ∧ (c ∉ want_blocks pw) ∧ c ∉ want_haves pw) ∧
  (no_empty index → no_empty index').
Proof.
  revert pw index flt. induction l as [|x l IH]; intros pw index flt; simpl.
  { intros [= <- <- <-]. set_solver. }
  case_decide as Hx; [|case_decide as Hy]; intros (Hb & Hh & Hf & Hi & Hn)%IH; simpl in *.
  1-2: split_and!; [done|intros c; rewrite Hh|intros c; rewrite Hf|intros p c; rewrite Hi|done]; elems c x.
  split_and!; [done|intros c; rewrite Hh|intros c; rewrite Hf|intros p c; rewrite Hi, index_insert_spec
    |intros; by apply Hn, index_insert_no_empty]; elems c x.
Qed.

Lemma cancel_peer_spec l bcs bc pw pw' tc :
  cancel_peer l bcs bc pw = (pw', tc) →
  (∀ c, c ∈ want_blocks pw' ↔ c ∈ want_blocks pw ∧ c ∉ l) ∧
  (∀ c, c ∈ want_haves pw' ↔ c ∈ want_haves pw ∧ c ∉ l) ∧
  (∀ c, c ∈ tc ↔ c ∈ bcs ∨ c ∈ l ∧ (c ∉ bc) ∧ (c ∈ want_blocks pw ∨ c ∈ want_haves pw)).
Proof.
  unfold cancel_peer. revert pw bcs. induction l as [|x l IH]; intros pw bcs; simpl.
  { intros [= <- <-]. set_solver. }
  case_decide as Hx; intros (Hb & Hh & Hf)%IH; simpl in *.
  - split_and!; [intros c; rewrite Hb|intros c; rewrite Hh|intros c; rewrite Hf]; elems c x.
  - assert (x ∈ want_blocks pw ∨ x ∈ want_haves pw)
      by (destruct (decide (x ∈ want_blocks pw)), (decide (x ∈ want_haves pw)); tauto).
    split_and!; [intros c; rewrite Hb|intros c; rewrite Hh|intros c; rewrite Hf; destruct (decide (x ∈ bc))];
      elems c x.
Qed.

Lemma reverse_index_remove_fold peer l index :
  let index' := foldl (reverse_index_remove peer) index l in
  (no_empty index → no_empty index') ∧
  ∀ p c, indexed index' p c ↔ indexed index p c ∧ ¬ (p = peer ∧ c ∈ l).
Proof.
  revert index. induction l as [|x l IH]; intros index; simpl; [set_solver|].
  destruct (IH (reverse_index_remove peer index x)) as [Hn Hi].
  assert (∀ p c, indexed (reverse_index_remove peer index x) p c ↔ indexed index p c ∧ ¬ (p = peer ∧ c = x)) as Hr.
  { intros p c. unfold indexed, reverse_index_remove. destruct (index !! x) as [s|] eqn:E.
    - case_decide as Hs.
      + rewrite lookup_delete. case_decide; simpl; [subst; rewrite E; simpl; set_solver|set_solver].
      + rewrite lookup_insert. case_decide; simpl; [subst; rewrite E; simpl; set_solver|set_solver].
    - split; [|naive_solver]. intros Hp. split; [done|]. intros [-> ->]. rewrite E in Hp. set_solver. }
  split.
  - intros Hne. apply Hn. intros c s. unfold reverse_index_remove. destruct (index !! x) as [s0|]; [|apply Hne].
    case_decide; [rewrite lookup_delete; case_decide; [done|apply Hne]|].
    rewrite lookup_insert. case_decide; [by intros [= <-]|apply Hne].
  - intros p c. rewrite Hi, Hr. elems c x.
Qed.

(** ** The operations *)

(** An update that does not repeat what the peer was already told *)
Definition fresh_update (f : Cid → option WantType) (u : WantsUpdate) : Prop :=
  match u with
  | BroadcastWantHaves hs => ∀ c, c ∈ hs → f c = None
  | UpdateWants bs hs => (∀ c, c ∈ bs → f c ≠ Some WantType_Block) ∧ (∀ c, c ∈ hs → f c = None)
  | Cancels cs => ∀ c, c ∈ cs → f c ≠ None
  end.

(** The updates bring the queue of every peer to the new wants, and none of them
    is redundant. *)
Record simulates (m m' : PeerWantManager) (ups : Updates) : Prop := {
  sim_view p c : is_Some (pwm_peer_wants m' !! p) →
    peer_view m' p c = requested (updates_for p ups) (peer_view m p) c;
  sim_fresh p u : (p, u) ∈ ups → is_Some (pwm_peer_wants m' !! p) ∧ fresh_update (peer_view m p) u
}.

Lemma updates_for_one p q u : updates_for p [(q, u)] = if decide (q = p) then [u] else [].
Proof. unfold updates_for. simpl. by case_decide. Qed.

Lemma add_peer_ok peer m m' ups :
  pwm_wf m → pwm_add_peer peer m = (m', ups) →
  pwm_wf m' ∧ simulates m m' ups ∧ dom (pwm_peer_wants m') = {[peer]} ∪ dom (pwm_peer_wants m).
Proof.
  intros [Hi Hn Hd]. unfold pwm_add_peer. destruct (pwm_peer_wants m !! peer) as [pw|] eqn:E.
  { intros [= <- <-]. split_and!; [done|split; [done|set_solver]|]. apply elem_of_dom_2 in E. set_solver. }
  intros [= <- <-]. split_and!.
  - split; simpl; [|done|].
    + intros p c. rewrite Hi. unfold sent_to. simpl. setoid_rewrite lookup_insert. case_decide; [|done].
      subst p. rewrite E. split; [naive_solver|]. intros (pw & [= <-] & [?|?]); set_solver.
    + intros p pw. rewrite lookup_insert. case_decide; [intros [= <-]; simpl; set_solver|apply Hd].
  - assert (∀ c, peer_view m peer c = None) as Hv by (intros; unfold peer_view; by rewrite E).
    split; simpl.
    + intros p c _. unfold peer_view at 1. simpl. rewrite lookup_insert.
      destruct (decide (peer = p)) as [<-|Hp].
      * simpl. unfold add_broadcast_want_haves. rewrite !bool_decide_eq_false_2 by set_solver. simpl.
        destruct (decide (pwm_broadcast_wants m = ∅)) as [He|He].
        -- simpl. rewrite Hv, He, bool_decide_eq_false_2 by set_solver. done.
        -- rewrite updates_for_one, decide_True by done. simpl. rewrite Hv.
           rewrite (bool_decide_ext (c ∈ ∅ ∨ _) (c ∈ pwm_broadcast_wants m)) by set_solver. done.
      * unfold add_broadcast_want_haves.
        destruct (decide (pwm_broadcast_wants m = ∅)); [done|]. by rewrite updates_for_one, decide_False.
    + intros p u. unfold add_broadcast_want_haves. destruct (decide (pwm_broadcast_wants m = ∅)); [set_solver|].
      intros [= -> ->]%list_elem_of_singleton. rewrite lookup_insert_eq. split; [eauto|]. simpl. intros; apply Hv.
  - simpl. by rewrite dom_insert_L.
Qed.

Lemma remove_peer_ok peer m :
  pwm_wf m → pwm_wf (pwm_remove_peer peer m) ∧ simulates m (pwm_remove_peer peer m) [] ∧
  dom (pwm_peer_wants (pwm_remove_peer peer m)) = dom (pwm_peer_wants m) ∖ {[peer]}.
Proof.
  intros [Hi Hn Hd]. unfold pwm_remove_peer. destruct (pwm_peer_wants m !! peer) as [pw|] eqn:E.
  2:{ split_and!; [done|split; [done|set_solver]|]. apply not_elem_of_dom in E. set_solver. }
  destruct (reverse_index_remove_fold peer (hs_iter (want_blocks pw)) (pwm_want_peers m)) as [Hn1 Hi1].
  destruct (reverse_index_remove_fold peer (hs_iter (want_haves pw))
    (foldl (reverse_index_remove peer) (pwm_want_peers m) (hs_iter (want_blocks pw)))) as [Hn2 Hi2].
  split_and!.
  - split; simpl.
    + intros p c. rewrite Hi2, Hi1, Hi, !elem_of_hs_iter. unfold sent_to. simpl.
      setoid_rewrite lookup_delete. case_decide as Hp; [subst p; rewrite E|]; naive_solver.
    + auto.
    + intros p pw'. rewrite lookup_delete. case_decide; [done|apply Hd].
  - split; simpl; [|set_solver]. intros p c. rewrite lookup_delete. unfold peer_view. simpl. rewrite lookup_delete.
    case_decide; [by intros [? ?]|done].
  - simpl. apply dom_delete_L.
Qed.

Lemma peer_unsent_spec unsent pw c :
  c ∈ peer_unsent unsent pw ↔ c ∈ unsent ∧ (c ∉ want_blocks pw) ∧ c ∉ want_haves pw.
Proof. unfold peer_unsent. rewrite elem_of_list_to_set, list_elem_of_filter, elem_of_hs_iter. tauto. Qed.

Lemma broadcast_ok hs m m' ups :
  pwm_wf m → pwm_broadcast_want_haves hs (dom (pwm_peer_wants m)) m = (m', ups) →
  pwm_wf m' ∧ simulates m m' ups ∧ dom (pwm_peer_wants m') = dom (pwm_peer_wants m).
Proof.
  intros [Hi Hn Hd]. unfold pwm_broadcast_want_haves. set (unsent := hs ∖ pwm_broadcast_wants m).
  set (f := λ '(peer, pw), _). intros [= <- <-].
  assert (∀ x u, u ∈ f x → u.1 = x.1 ∧ u.2 = BroadcastWantHaves (peer_unsent unsent x.2)) as Hf.
  { intros [p pw] u. simpl. case_decide; [|set_solver]. unfold add_broadcast_want_haves.
    case_decide; [set_solver|]. by intros ->%list_elem_of_singleton. }
  split_and!; [by split| |done]. split; simpl.
  - intros p c Hp. rewrite updates_for_bind; [|intros; by apply Hf|apply NoDup_hm_keys].
    rewrite list_to_map_hm_iter. unfold peer_view at 1. cbn [pwm_peer_wants pwm_broadcast_wants].
    destruct Hp as [pw E]. rewrite E.
    replace (f (p, pw)) with (add_broadcast_want_haves p (peer_unsent unsent pw)).
    2:{ simpl. unfold add_broadcast_want_haves. apply elem_of_dom_2 in E.
        destruct (decide (peer_unsent unsent pw = ∅)); [by rewrite decide_False by tauto|by rewrite decide_True]. }
    assert (requested (updates_for p (add_broadcast_want_haves p (peer_unsent unsent pw))) (peer_view m p) c
      = wjoin (peer_view m p c) (elem_if (bool_decide (c ∈ peer_unsent unsent pw)) (Some WantType_Have))) as ->.
    { unfold add_broadcast_want_haves. destruct (decide (peer_unsent unsent pw = ∅)) as [He|He].
      - rewrite bool_decide_eq_false_2 by set_solver. simpl. by rewrite wjoin_None_r.
      - by rewrite updates_for_one, decide_True. }
    unfold peer_view. rewrite E. pose proof (peer_unsent_spec unsent pw c) as Hu.
    assert (c ∈ unsent ↔ c ∈ hs ∧ c ∉ pwm_broadcast_wants m) as Hun by (unfold unsent; apply elem_of_difference).
    repeat case_bool_decide; simpl; try done; exfalso; rewrite elem_of_union in *; tauto.
  - intros p u ([q pw] & Hin & Hel%elem_of_hm_iter)%list_elem_of_bind.
    destruct (Hf _ _ Hin) as [Hq Hu]. simpl in Hq, Hu. subst q u. split; [eauto|].
    intros c (Hc1 & Hc2 & Hc3)%peer_unsent_spec. unfold peer_view. rewrite Hel.
    rewrite !bool_decide_eq_false_2; [done| |done]. unfold unsent in Hc1. set_solver.
Qed.

(** What the two loops of [send_wants] do together *)
Lemma send_loops peer bc bs hs pw index pw1 index1 fb pw2 index2 fh :
  want_blocks pw ## want_haves pw →
  foldl (send_block peer) (pw, index, []) bs = (pw1, index1, fb) →
  foldl (send_have peer bc) (pw1, index1, []) hs = (pw2, index2, fh) →
  (∀ c, c ∈ want_blocks pw2 ↔ c ∈ want_blocks pw ∨ c ∈ fb) ∧
  (∀ c, c ∈ want_haves pw2 ↔ (c ∈ want_haves pw ∨ c ∈ fh) ∧ c ∉ fb) ∧
  (∀ c, c ∈ fb → c ∉ want_blocks pw) ∧
  (∀ c, c ∈ fh → (c ∉ bc) ∧ (c ∉ want_blocks pw) ∧ (c ∉ want_haves pw) ∧ c ∉ fb) ∧
  (∀ p c, indexed index2 p c ↔ indexed index p c ∨ p = peer ∧ (c ∈ fb ∨ c ∈ fh)) ∧
  (no_empty index → no_empty index2).
Proof.
  intros Hdis (Hb1 & Hh1 & Hf1 & Hi1 & Hn1)%send_block_fold (Hb2 & Hh2 & Hf2 & Hi2 & Hn2)%send_have_fold.
  setoid_rewrite elem_of_nil in Hf1. setoid_rewrite elem_of_nil in Hf2. rewrite Hb2.
  assert (∀ c, c ∈ want_blocks pw1 ↔ c ∈ want_blocks pw ∨ c ∈ fb) as Hb.
  { intros c. rewrite Hb1, Hf1. destruct (decide (c ∈ want_blocks pw)); tauto. }
  assert (∀ c, c ∈ want_haves pw1 ↔ c ∈ want_haves pw ∧ c ∉ fb) as Hh.
  { intros c. rewrite Hh1, Hf1. tauto. }
  assert (∀ c, c ∈ fh ↔ c ∈ hs ∧ (c ∉ bc) ∧ (c ∉ want_blocks pw1) ∧ c ∉ want_haves pw1) as Hfh
    by (intros c; rewrite Hf2; tauto).
  split_and!; [done| | | | |auto].
  - intros c. rewrite Hh2. specialize (Hfh c). specialize (Hb c). specialize (Hh c). specialize (Hdis c).
    clear -Hfh Hb Hh Hdis. destruct (decide (c ∈ want_haves pw1)); tauto.
  - intros c. rewrite Hf1. tauto.
  - intros c. rewrite Hfh, Hh, Hb. specialize (Hb c). clear. destruct (decide (c ∈ fb)); tauto.
  - intros p c. rewrite Hi2, Hi1, <-(Hfh c). specialize (Hf1 c). clear -Hf1. tauto.
Qed.

Lemma send_wants_ok peer bs hs m m' ups :
  pwm_wf m → pwm_send_wants peer bs hs m = (m', ups) →
  pwm_wf m' ∧ simulates m m' ups ∧ dom (pwm_peer_wants m') = dom (pwm_peer_wants m).
Proof.
  intros [Hi Hn Hd]. unfold pwm_send_wants. destruct (pwm_peer_wants m !! peer) as [pw|] eqn:E.
  2:{ intros [= <- <-]. split_and!; [done|split; [done|set_solver]|done]. }
  destruct (foldl (send_block peer) _ bs) as [[pw1 index1] fb] eqn:E1.
  destruct (foldl (send_have peer _) _ hs) as [[pw2 index2] fh] eqn:E2.
  destruct (send_loops _ _ _ _ _ _ _ _ _ _ _ _ (Hd _ _ E) E1 E2) as (Hb & Hh & Hfb & Hfh & Hi2 & Hn2).
  intros [= <- <-]. pose proof (Hd _ _ E) as Hdis. split_and!.
  - split; simpl; [|auto|].
    + intros p c. rewrite Hi2, Hi. destruct (decide (p = peer)) as [->|Hp].
      * rewrite (sent_to_at _ _ _ _ E), (sent_to_at _ peer pw2 c) by (simpl; apply lookup_insert_eq).
        rewrite Hb, Hh. destruct (decide (c ∈ fb)); tauto.
      * unfold sent_to. simpl. rewrite lookup_insert_ne by done. tauto.
    + intros p pw'. rewrite lookup_insert. case_decide; [|apply Hd]. intros [= <-] c.
      rewrite Hb, Hh. specialize (Hdis c). specialize (Hfh c). tauto.
  - assert (∀ c, requested (updates_for peer (add_wants peer fb fh)) (peer_view m peer) c
      = wjoin (wjoin (peer_view m peer c) (elem_if (mem c fh) (Some WantType_Have)))
          (elem_if (mem c fb) (Some WantType_Block))) as Hreq.
    { intros c. unfold add_wants. case_decide as Hz; [|by rewrite updates_for_one, decide_True].
      destruct Hz as [-> ->]. simpl. by rewrite !wjoin_None_r. }
    assert ((if decide (fb = [] ∧ fh = []) then [] else add_wants peer fb fh) = add_wants peer fb fh) as ->
      by (unfold add_wants; by case_decide).
    split; simpl.
    + intros p c _. destruct (decide (p = peer)) as [->|Hp].
      * rewrite Hreq. unfold peer_view. simpl. rewrite lookup_insert_eq, E. unfold mem.
        specialize (Hb c). specialize (Hh c). specialize (Hfh c).
        repeat case_bool_decide; simpl; try done; exfalso; tauto.
      * unfold peer_view at 1. simpl. rewrite lookup_insert_ne by done.
        unfold add_wants. case_decide; [done|]. by rewrite updates_for_one, decide_False.
    + intros p u. unfold add_wants. case_decide; [set_solver|]. intros [= -> ->]%list_elem_of_singleton.
      rewrite lookup_insert_eq. split; [eauto|]. simpl. unfold peer_view. rewrite E. split; intros c Hc.
      * rewrite bool_decide_eq_false_2 by auto. by case_bool_decide.
      * destruct (Hfh _ Hc) as (? & ? & ? & ?). by rewrite !bool_decide_eq_false_2 by tauto.
  - simpl. apply elem_of_dom_2 in E. rewrite dom_insert_L. set_solver.
Qed.

(** The loop over the peers of [send_cancels] *)
Lemma cancel_at_fold cancels bcs bc queues l pws ups pws' ups' :
  NoDup l → foldl (cancel_at cancels bcs bc queues) (pws, ups) l = (pws', ups') →
  dom pws' = dom pws ∧
  (∀ p, p ∉ l → pws' !! p = pws !! p) ∧
  (∀ p pw, p ∈ l → pws !! p = Some pw → pws' !! p = Some (cancel_peer cancels bcs bc pw).1) ∧
  (∀ p, updates_for p ups' = updates_for p ups ++
    match pws !! p with
    | Some pw => if decide (p ∈ l ∧ p ∈ queues) then
                   updates_for p (add_cancels p (cancel_peer cancels bcs bc pw).2) else []
    | None => []
    end) ∧
  (∀ p u, (p, u) ∈ ups' → (p, u) ∈ ups ∨ is_Some (pws !! p)).
Proof.
  revert pws ups. induction l as [|x l IH]; intros pws ups Hnd; simpl.
  { intros [= <- <-]. split_and!; [done|done|set_solver| |by left]. intros p. by destruct (pws !! p); rewrite app_nil_r. }
  apply NoDup_cons in Hnd as [Hx Hnd]. destruct (pws !! x) as [pw|] eqn:E.
  2:{ intros (Hdom & Hout & Hin & Hups & Hel)%IH; [|done]. split_and!; [done| | | |done].
      - intros p Hp. apply Hout. set_solver.
      - intros p pw [->|Hp]%elem_of_cons Hpw; [congruence|auto].
      - intros p. rewrite Hups. destruct (pws !! p) as [pw|] eqn:Ep; [|done].
        assert (p ≠ x) by congruence. f_equal. apply decide_ext. rewrite elem_of_cons. tauto. }
  destruct (cancel_peer cancels bcs bc pw) as [pw' tc] eqn:Ec.
  intros (Hdom & Hout & Hin & Hups & Hel)%IH; [|done].
  assert (∀ p, updates_for p (if decide (tc ≠ ∅ ∧ x ∈ queues) then add_cancels x tc else [])
    = if decide (p = x ∧ x ∈ queues) then updates_for p (add_cancels x tc) else []) as Hone.
  { intros p. unfold add_cancels. destruct (decide (tc = ∅)) as [->|Hne].
    - repeat case_decide; done || tauto.
    - destruct (decide (x ∈ queues)); [rewrite decide_True by done|rewrite decide_False by tauto].
      + rewrite updates_for_one. repeat case_decide; naive_solver.
      + by rewrite decide_False by tauto. }
  split_and!.
  - rewrite Hdom, dom_insert_L. apply elem_of_dom_2 in E. set_solver.
  - intros p Hp. rewrite Hout by set_solver. apply lookup_insert_ne. set_solver.
  - intros p pw0 [->|Hp]%elem_of_cons Hpw.
    + rewrite Hout, lookup_insert_eq by done. rewrite E in Hpw. injection Hpw as <-. by rewrite Ec.
    + assert (p ≠ x) by set_solver. apply Hin; [done|]. by rewrite lookup_insert_ne.
  - intros p. rewrite Hups, updates_for_app, Hone, <-app_assoc. f_equal.
    destruct (decide (p = x)) as [->|Hp].
    + rewrite lookup_insert_eq, E, Ec. rewrite (decide_False (P := x ∈ l ∧ _)) by tauto. rewrite app_nil_r.
      simpl. destruct (decide (x ∈ queues)).
      * by rewrite !decide_True by set_solver.
      * by rewrite !decide_False by tauto.
    + rewrite lookup_insert_ne by done. rewrite decide_False by tauto. simpl.
      destruct (pws !! p); [|done]. apply decide_ext. rewrite elem_of_cons. tauto.
  - intros p u Hpu. apply Hel in Hpu as [[?|Hpu]%elem_of_app|Hpu]; [by left| |].
    + right. case_decide; [|set_solver]. unfold add_cancels in Hpu. case_decide; [set_solver|].
      apply list_elem_of_singleton in Hpu as [= -> ->]. eauto.
    + right. destruct (decide (p = x)) as [->|]; [eauto|]. by rewrite lookup_insert_ne in Hpu.
Qed.

Lemma delete_all_index l index :
  let index' := foldl (λ index c, delete c index) index l in
  (no_empty index → no_empty index') ∧ ∀ p c, indexed index' p c ↔ indexed index p c ∧ c ∉ l.
Proof.
  revert index. induction l as [|x l IH]; intros index; simpl; [set_solver|].
  destruct (IH (delete x index)) as [Hn Hi]. split.
  - intros Hne. apply Hn. intros c s. rewrite lookup_delete. case_decide; [done|apply Hne].
  - intros p c. rewrite Hi, not_elem_of_cons. unfold indexed. rewrite lookup_delete.
    case_decide; simpl; [subst|]; rewrite ?elem_of_empty; naive_solver.
Qed.

(** What [send_cancels] does for each peer *)
Record cancelled_at (cs : list Cid) (bc : gset Cid) (pw pw' : PeerWant) (us : list WantsUpdate) : Prop := {
  ca_blocks c : c ∈ want_blocks pw' ↔ c ∈ want_blocks pw ∧ c ∉ cs;
  ca_haves c : c ∈ want_haves pw' ↔ c ∈ want_haves pw ∧ c ∉ cs;
  ca_updates : ∃ tc : gset Cid, us = (if decide (tc = ∅) then [] else [Cancels tc]) ∧
    ∀ c, c ∈ tc ↔ c ∈ cs ∧ (c ∈ bc ∨ c ∈ want_blocks pw ∨ c ∈ want_haves pw)
}.

Lemma send_cancels_peers cs m m' ups :
  pwm_wf m → pwm_send_cancels cs (dom (pwm_peer_wants m)) m = (m', ups) →
  dom (pwm_peer_wants m') = dom (pwm_peer_wants m) ∧
  (∀ c, c ∈ pwm_broadcast_wants m' ↔ c ∈ pwm_broadcast_wants m ∧ c ∉ cs) ∧
  (∀ p c, indexed (pwm_want_peers m') p c ↔ indexed (pwm_want_peers m) p c ∧ c ∉ cs) ∧
  no_empty (pwm_want_peers m') ∧
  (∀ p u, (p, u) ∈ ups → is_Some (pwm_peer_wants m !! p)) ∧
  (∀ p pw, pwm_peer_wants m !! p = Some pw →
    ∃ pw', pwm_peer_wants m' !! p = Some pw' ∧
           cancelled_at cs (pwm_broadcast_wants m) pw pw' (updates_for p ups)).
Proof.
  intros [Hi Hn Hd]. unfold pwm_send_cancels. destruct (decide (cs = [])) as [->|Hcs].
  { intros [= <- <-]. split_and!; [done|set_solver|set_solver|done|set_solver|].
    intros p pw Hp. exists pw. split; [done|]. split; [set_solver..|]. exists ∅. split; [done|]. set_solver. }
  set (bcs := list_to_set (filter (λ c, c ∈ pwm_broadcast_wants m) cs)).
  set (peers := if decide (bcs = ∅) then _ else _).
  assert (∀ c, c ∈ bcs ↔ c ∈ pwm_broadcast_wants m ∧ c ∈ cs) as Hbcs.
  { intros c. unfold bcs. by rewrite elem_of_list_to_set, list_elem_of_filter. }
  destruct (foldl _ _ peers) as [pws' ups'] eqn:Ef. intros [= <- <-]. simpl.
  destruct (cancel_at_fold _ _ _ _ _ _ _ _ _ (ltac:(unfold peers; case_decide;
    [apply NoDup_hs_iter|apply NoDup_hm_keys]) : NoDup peers) Ef) as (Hdom & Hout & Hin & Hups & Hel).
  destruct (delete_all_index cs (pwm_want_peers m)) as [Hn' Hi'].
  split_and!; [done| |done|auto| |].
  { intros c. rewrite elem_of_difference, Hbcs. destruct (decide (c ∈ cs)); tauto. }
  { intros p u [?%not_elem_of_nil|?]%Hel; done. }
  intros p pw Hp. specialize (Hups p). rewrite Hp in Hups. simpl in Hups.
  destruct (decide (p ∈ peers)) as [Hpp|Hpp].
  - rewrite decide_True in Hups by (split; [done|by eapply elem_of_dom_2]). rewrite Hups.
    exists (cancel_peer cs bcs (pwm_broadcast_wants m) pw).1. split; [auto|].
    destruct (cancel_peer cs bcs _ pw) as [pw' tc] eqn:Ec. apply cancel_peer_spec in Ec as (Hb & Hh & Ht).
    split; [done|done|]. exists tc. split.
    + unfold add_cancels. simpl. case_decide; [done|]. by rewrite updates_for_one, decide_True.
    + intros c. rewrite Ht, Hbcs. destruct (decide (c ∈ pwm_broadcast_wants m)); tauto.
  - rewrite decide_False in Hups by tauto. exists pw. rewrite Hout by done. split; [done|]. rewrite Hups.
    assert (∀ c, c ∈ cs → (c ∉ pwm_broadcast_wants m) ∧ (c ∉ want_blocks pw) ∧ c ∉ want_haves pw) as Hnot.
    { intros c Hc. unfold peers in Hpp. destruct (decide (bcs = ∅)) as [He|He].
      - split; [intros ?; assert (c ∈ bcs) by (by apply Hbcs); set_solver|].
        assert (¬ indexed (pwm_want_peers m) p c) as Hni.
        { intros Hip. apply Hpp, elem_of_hs_iter, elem_of_list_to_set, list_elem_of_bind. unfold indexed in Hip.
          destruct (pwm_want_peers m !! c) as [s|] eqn:Es; [|by apply not_elem_of_empty in Hip].
          exists s. split; [by apply elem_of_hs_iter|]. apply list_elem_of_omap. eauto. }
        rewrite Hi, (sent_to_at _ _ _ _ Hp) in Hni. tauto.
      - destruct Hpp. apply elem_of_hm_keys. eauto. }
    split.
    + intros c. specialize (Hnot c). tauto.
    + intros c. specialize (Hnot c). tauto.
    + exists ∅. split; [done|]. intros c. specialize (Hnot c). set_solver.
Qed.

Lemma send_cancels_ok cs m m' ups :
  pwm_wf m → pwm_send_cancels cs (dom (pwm_peer_wants m)) m = (m', ups) →
  pwm_wf m' ∧ simulates m m' ups ∧ dom (pwm_peer_wants m') = dom (pwm_peer_wants m).
Proof.
  intros Hwf E. destruct (send_cancels_peers _ _ _ _ Hwf E) as (Hdom & Hbc & Hi & Hn & Hel & Hp).
  assert (∀ p pw', pwm_peer_wants m' !! p = Some pw' → ∃ pw, pwm_peer_wants m !! p = Some pw ∧
    cancelled_at cs (pwm_broadcast_wants m) pw pw' (updates_for p ups)) as Hp'.
  { intros p pw' E'. assert (is_Some (pwm_peer_wants m !! p)) as [pw Epw]
      by (apply elem_of_dom; rewrite <-Hdom; by eapply elem_of_dom_2).
    destruct (Hp p pw Epw) as (pw0 & E0 & Hc). rewrite E' in E0. injection E0 as <-. eauto. }
  split_and!; [| |done].
  - split; [|done|].
    + intros p c. rewrite Hi, (pwm_index _ Hwf). split.
      * intros [(pw & Epw & Hc) Hcs]. destruct (Hp _ _ Epw) as (pw' & E' & [Hb Hh _]).
        exists pw'. split; [done|]. rewrite Hb, Hh. tauto.
      * intros (pw' & E' & Hc). destruct (Hp' _ _ E') as (pw & Epw & [Hb Hh _]). rewrite Hb, Hh in Hc.
        split; [exists pw; tauto|tauto].
    + intros p pw' E' c. destruct (Hp' _ _ E') as (pw & Epw & [Hb Hh _]). rewrite Hb, Hh.
      pose proof (pwm_disjoint _ Hwf _ _ Epw c). tauto.
  - split.
    + intros p c [pw' E']. destruct (Hp' _ _ E') as (pw & Epw & [Hb Hh (tc & -> & Htc)]).
      assert (requested (if decide (tc = ∅) then [] else [Cancels tc]) (peer_view m p) c
        = if bool_decide (c ∈ tc) then None else peer_view m p c) as ->.
      { case_decide; [|done]. subst. by rewrite bool_decide_eq_false_2 by set_solver. }
      unfold peer_view. rewrite E', Epw. specialize (Hb c). specialize (Hh c). specialize (Hbc c). specialize (Htc c).
      destruct (decide (c ∈ cs)); repeat case_bool_decide; simpl; try done; exfalso; tauto.
    + intros p u Hu. destruct (Hel _ _ Hu) as [pw Epw]. destruct (Hp _ _ Epw) as (pw' & E' & [_ _ (tc & Ht & Htc)]).
      split; [eauto|]. assert (u ∈ updates_for p ups) as Hin.
      { apply list_elem_of_omap. exists (p, u). split; [done|]. simpl. by rewrite decide_True. }
      rewrite Ht in Hin. case_decide; [set_solver|]. apply list_elem_of_singleton in Hin as ->. simpl. intros c Hc.
      apply Htc in Hc as [_ Hc]. unfold peer_view. rewrite Epw. repeat case_bool_decide; simpl; try done. tauto.
Qed.
End facts.
