(* ===== verification/PeerManager.v ===== *)
(** * The peer manager

    Models the actor of [iroh-bitswap/src/client/peer_manager.rs].  The messages of
    its channel are [pm_message]; a step returns the answer and what the actor does
    outside: protecting connections, signalling sessions and telling queues of
    responses.  A [MessageQueue] is its log of updates: what was put into the
    channel that the actor of [MessageQueue] reads. *)

From stdpp Require Import prelude gmap fin_maps.
From Stdlib Require Import ZArith Lia.
From S2P Require Import Prelude Cids Message Wantlist MessageQueue PeerWants.

Section peer_manager.
Context `{Ids} `{HashOrder}.

Record Queue := { q_running : bool; q_log : list WantsUpdate }.
Definition Queue_new : Queue := {| q_running := true; q_log := [] |}.

(** [send_wants_update] behind the test of [is_running] *)
Definition q_send (u : WantsUpdate) (q : Queue) : Queue :=
  if q_running q then {| q_running := true; q_log := q_log q ++ [u] |} else q.

Record PeerState := { ps_queue : Queue; ps_sessions : gset Z }.

Record SessionState := { ss_peers : gset PeerId; ss_discovered : bool }.

Record PeerManagerActor := {
  pm_peers : gmap PeerId PeerState;
  pm_wants : PeerWantManager;
  pm_sessions : gmap Z SessionState
}.

Definition PeerManagerActor_new : PeerManagerActor :=
  {| pm_peers := ∅; pm_wants := pwm_default; pm_sessions := ∅ |}.

(** What the actor does to others *)
Inductive pm_effect :=
  | Protect (peer : PeerId)
  | Unprotect (peer : PeerId)
  | SignalAvailability (session : Z) (peer : PeerId) (is_connected : bool)
  | QueueResponse (peer : PeerId) (cids : list Cid).

(** What it answers *)
Inductive pm_answer :=
  | NoAnswer
  | AnswerBool (b : bool)
  | AnswerPeers (l : list PeerId)
  | AnswerCids (s : gset Cid).

(** The messages; [SetCb] only replaces the callback that the queues get. *)
Inductive pm_message :=
  | GetConnectedPeers
  | GetCurrentWants
  | GetCurrentWantBlocks
  | GetCurrentWantHaves
  | Connected (peer : PeerId)
  | Disconnected (peer : PeerId)
  | ResponseReceived (peer : PeerId) (cids : list Cid)
  | PmBroadcastWantHaves (hs : gset Cid)
  | SendWants (peer : PeerId) (bs hs : list Cid)
  | SendCancels (cs : list Cid)
  | RegisterSession (peer : PeerId) (session : Z)
  | UnregisterSession (session : Z)
  | AddPeerToSession (session : Z) (peer : PeerId)
  | RemovePeerFromSession (session : Z) (peer : PeerId)
  | ProtectConnection (session : Z) (peer : PeerId)
  | PeersDiscoveredForSession (session : Z)
  | PeersForSession (session : Z)
  | SessionHasPeers (session : Z)
  | SessionHasPeer (session : Z) (peer : PeerId).

(** ** Peers *)

Definition pm_with_peers (ps : gmap PeerId PeerState) (a : PeerManagerActor) : PeerManagerActor :=
  {| pm_peers := ps; pm_wants := pm_wants a; pm_sessions := pm_sessions a |}.
Definition pm_with_sessions (ss : gmap Z SessionState) (a : PeerManagerActor) : PeerManagerActor :=
  {| pm_peers := pm_peers a; pm_wants := pm_wants a; pm_sessions := ss |}.

Definition ps_with_queue (q : Queue) (s : PeerState) : PeerState := {| ps_queue := q; ps_sessions := ps_sessions s |}.

(** Putting updates into the queues of peers *)
Definition post (peers : gmap PeerId PeerState) (pu : PeerId * WantsUpdate) : gmap PeerId PeerState :=
  match peers !! pu.1 with
  | Some s => <[pu.1 := ps_with_queue (q_send pu.2 (ps_queue s)) s]> peers
  | None => peers
  end.
Definition pm_post (r : PeerWantManager * Updates) (a : PeerManagerActor) : PeerManagerActor :=
  {| pm_peers := foldl post (pm_peers a) r.2; pm_wants := r.1; pm_sessions := pm_sessions a |}.

(** [insert_peer] *)
Definition insert_peer (peer : PeerId) (session : option Z) (peers : gmap PeerId PeerState)
    : gmap PeerId PeerState :=
  match peers !! peer with
  | Some s =>
      match session with
      | Some id => <[peer := {| ps_queue := ps_queue s; ps_sessions := {[id]} ∪ ps_sessions s |}]> peers
      | None => peers
      end
  | None =>
      <[peer := {| ps_queue := Queue_new;
                   ps_sessions := match session with Some id => {[id]} | None => ∅ end |}]> peers
  end.

(** The restart of a stopped queue *)
Definition restart_queue (peer : PeerId) (peers : gmap PeerId PeerState) : gmap PeerId PeerState :=
  match peers !! peer with
  | Some s => if q_running (ps_queue s) then peers else <[peer := ps_with_queue Queue_new s]> peers
  | None => peers
  end.

(** [signal_availability] *)
Definition signal_availability (peer : PeerId) (is_connected : bool) (a : PeerManagerActor) : list pm_effect :=
  match pm_peers a !! peer with
  | Some s =>
      omap (λ id, match pm_sessions a !! id with
                  | Some _ => Some (SignalAvailability id peer is_connected)
                  | None => None
                  end) (hs_iter (ps_sessions s))
  | None => []
  end.

Definition pm_connected (peer : PeerId) (a : PeerManagerActor) : PeerManagerActor * list pm_effect :=
  let a := pm_with_peers (restart_queue peer (insert_peer peer None (pm_peers a))) a in
  let a := pm_post (pwm_add_peer peer (pm_wants a)) a in
  (a, signal_availability peer true a).

Definition pm_disconnected (peer : PeerId) (a : PeerManagerActor) : PeerManagerActor :=
  match pm_peers a !! peer with
  | Some _ =>
      {| pm_peers := delete peer (pm_peers a); pm_wants := pwm_remove_peer peer (pm_wants a);
         pm_sessions := pm_sessions a |}
  | None => a
  end.

Definition pm_send_wants (peer : PeerId) (bs hs : list Cid) (a : PeerManagerActor) : PeerManagerActor :=
  match pm_peers a !! peer with
  | Some _ => pm_post (pwm_send_wants peer bs hs (pm_wants a)) a
  | None => a
  end.

Definition pm_broadcast_want_haves (hs : gset Cid) (a : PeerManagerActor) : PeerManagerActor :=
  pm_post (pwm_broadcast_want_haves hs (dom (pm_peers a)) (pm_wants a)) a.
Definition pm_send_cancels (cs : list Cid) (a : PeerManagerActor) : PeerManagerActor :=
  pm_post (pwm_send_cancels cs (dom (pm_peers a)) (pm_wants a)) a.

(** [response_received], with that of the message queue: the queue is told when
    it runs. *)
Definition pm_response_received (peer : PeerId) (cids : list Cid) (a : PeerManagerActor) : list pm_effect :=
  match pm_peers a !! peer with
  | Some s => if negb (bool_decide (cids = [])) && q_running (ps_queue s) then [QueueResponse peer cids] else []
  | None => []
  end.

(** ** Sessions *)

Definition register_session (peer : PeerId) (id : Z) (a : PeerManagerActor) : PeerManagerActor * bool :=
  match pm_sessions a !! id with
  | Some s =>
      (pm_with_sessions (<[id := {| ss_peers := {[peer]} ∪ ss_peers s; ss_discovered := true |}]> (pm_sessions a)) a,
       bool_decide (peer ∉ ss_peers s))
  | None =>
      (pm_with_sessions (<[id := {| ss_peers := {[peer]}; ss_discovered := true |}]> (pm_sessions a)) a, true)
  end.

Definition unregister_session (id : Z) (a : PeerManagerActor) : PeerManagerActor * list pm_effect :=
  let peers := (λ s, {| ps_queue := ps_queue s; ps_sessions := ps_sessions s ∖ {[id]} |}) <$> pm_peers a in
  ({| pm_peers := peers; pm_wants := pm_wants a; pm_sessions := delete id (pm_sessions a) |},
   match pm_sessions a !! id with
   | Some s => Unprotect <$> hs_iter (ss_peers s)
   | None => []
   end).

Definition add_peer_to_session (id : Z) (peer : PeerId) (a : PeerManagerActor) : PeerManagerActor * bool :=
  match pm_sessions a !! id with
  | Some s =>
      if decide (peer ∈ ss_peers s) then (a, false)
      else (pm_with_sessions
              (<[id := {| ss_peers := {[peer]} ∪ ss_peers s; ss_discovered := true |}]> (pm_sessions a)) a, true)
  | None => (a, true)
  end.

Definition protect_connection (id : Z) (peer : PeerId) (a : PeerManagerActor) : list pm_effect :=
  match pm_sessions a !! id with
  | Some s => if decide (peer ∈ ss_peers s) then [Protect peer] else []
  | None => []
  end.

Definition remove_peer_from_session (id : Z) (peer : PeerId) (a : PeerManagerActor)
    : PeerManagerActor * bool * list pm_effect :=
  match pm_sessions a !! id with
  | Some s =>
      let existed := bool_decide (peer ∈ ss_peers s) in
      (pm_with_sessions
         (<[id := {| ss_peers := ss_peers s ∖ {[peer]}; ss_discovered := ss_discovered s |}]> (pm_sessions a)) a,
       existed, if existed then [Unprotect peer] else [])
  | None => (a, false, [])
  end.

Definition session_query (id : Z) (f : SessionState → bool) (a : PeerManagerActor) : bool :=
  match pm_sessions a !! id with Some s => f s | None => false end.

(** ** The loop *)

(** One iteration of [run] *)
Definition pm_step (msg : pm_message) (a : PeerManagerActor) : PeerManagerActor * pm_answer * list pm_effect :=
  match msg with
  | GetConnectedPeers => (a, AnswerPeers (hm_keys (pm_peers a)), [])
  | GetCurrentWants => (a, AnswerCids (get_wants (pm_wants a)), [])
  | GetCurrentWantBlocks => (a, AnswerCids (get_want_blocks (pm_wants a)), [])
  | GetCurrentWantHaves => (a, AnswerCids (get_want_haves (pm_wants a)), [])
  | Connected peer => let '(a, eff) := pm_connected peer a in (a, NoAnswer, eff)
  | Disconnected peer => (pm_disconnected peer a, NoAnswer, [])
  | ResponseReceived peer cids => (a, NoAnswer, pm_response_received peer cids a)
  | PmBroadcastWantHaves hs => (pm_broadcast_want_haves hs a, NoAnswer, [])
  | SendWants peer bs hs => (pm_send_wants peer bs hs a, NoAnswer, [])
  | SendCancels cs => (pm_send_cancels cs a, NoAnswer, [])
  | RegisterSession peer id => let '(a, b) := register_session peer id a in (a, AnswerBool b, [])
  | UnregisterSession id => let '(a, eff) := unregister_session id a in (a, NoAnswer, eff)
  | AddPeerToSession id peer => let '(a, b) := add_peer_to_session id peer a in (a, AnswerBool b, [])
  | RemovePeerFromSession id peer =>
      let '(a, b, eff) := remove_peer_from_session id peer a in (a, AnswerBool b, eff)
  | ProtectConnection id peer => (a, NoAnswer, protect_connection id peer a)
  | PeersDiscoveredForSession id => (a, AnswerBool (session_query id ss_discovered a), [])
  | PeersForSession id =>
      (a, AnswerPeers (match pm_sessions a !! id with Some s => hs_iter (ss_peers s) | None => [] end), [])
  | SessionHasPeers id => (a, AnswerBool (session_query id (λ s, negb (bool_decide (ss_peers s = ∅))) a), [])
  | SessionHasPeer id peer => (a, AnswerBool (session_query id (λ s, bool_decide (peer ∈ ss_peers s)) a), [])
  end.

(** A queue stops on its own when it cannot send. *)
Definition queue_stops (peer : PeerId) (a : PeerManagerActor) : PeerManagerActor :=
  pm_with_peers
    (alter (λ s, ps_with_queue {| q_running := false; q_log := q_log (ps_queue s) |} s) peer (pm_peers a)) a.
End peer_manager.
