(* ===== verification/PeerManagerFacts.v ===== *)
(** * Every queue is told everything

    The invariant of the peer manager, and the composition of the peer manager,
    the message queues and the engines of the peers. *)

From stdpp Require Import prelude gmap fin_maps.
From Stdlib Require Import ZArith Lia.
From S2P Require Import Prelude Cids Message Wantlist PriorityQueue TaskQueue TaskQueueFacts Engine EngineFacts.
From S2P Require Import EngineReceive MessageQueue MessageQueueFacts MessageQueueRun.
From S2P Require Import PeerWants PeerWantsFacts PeerManager.

Section facts.
Context `{Ids} `{HashOrder}.

(** The logs are only claimed to be complete for the peers of [P]. *)
Record pm_wf (P : PeerId → Prop) (a : PeerManagerActor) : Prop := {
  pm_wf_wants : pwm_wf (pm_wants a);
  pm_wf_dom : dom (pwm_peer_wants (pm_wants a)) = dom (pm_peers a);
  pm_wf_sessions p s : pm_peers a !! p = Some s → ps_sessions s = ∅;
  pm_wf_log p s : P p → pm_peers a !! p = Some s → q_running (ps_queue s) = true →
    ∀ c, requested (q_log (ps_queue s)) (λ _, None) c = peer_view (pm_wants a) p c
}.

Lemma request_ext u f g : (∀ c, f c = g c) → ∀ c, request u f c = request u g c.
Proof. intros Hfg c. destruct u; simpl; by rewrite ?Hfg. Qed.

Lemma requested_ext us f g : (∀ c, f c = g c) → ∀ c, requested us f c = requested us g c.
Proof.
  unfold requested. revert f g. induction us as [|u us IH]; intros f g Hfg; simpl; [done|].
  apply IH. by apply request_ext.
Qed.

Lemma requested_app us us' f : requested (us ++ us') f = requested us' (requested us f).
Proof. apply foldl_app. Qed.

Lemma updates_for_cons p q u ups :
  updates_for p ((q, u) :: ups) = (if decide (q = p) then [u] else []) ++ updates_for p ups.
Proof. change ((q, u) :: ups) with ([(q, u)] ++ ups). by rewrite updates_for_app, updates_for_one. Qed.

(** Posting updates appends them to the logs of the running queues. *)
Lemma post_fold ups peers p :
  foldl post peers ups !! p
  = (λ s, ps_with_queue
            (if q_running (ps_queue s)
             then {| q_running := true; q_log := q_log (ps_queue s) ++ updates_for p ups |}
             else ps_queue s) s) <$> peers !! p.
Proof.
  revert peers. induction ups as [|[q u] ups IH]; intros peers; cbn [foldl].
  { destruct (peers !! p) as [[[r l] ss]|]; [|done]. simpl. unfold ps_with_queue. simpl. rewrite app_nil_r.
    by destruct r. }
  rewrite IH, updates_for_cons. unfold post. cbn [fst snd]. destruct (decide (q = p)) as [->|Hq].
  -     destruct (peers !! p) as [[[r l] ss]|] eqn:E; [|by rewrite E]. rewrite lookup_insert_eq. simpl.
    unfold ps_with_queue, q_send. simpl. destruct r; simpl; [|done]. by rewrite <-app_assoc.
  - assert (match peers !! q with
            | Some s => <[q:=ps_with_queue (q_send u (ps_queue s)) s]> peers
            | None => peers end !! p = peers !! p) as -> by (case_match; by rewrite ?lookup_insert_ne).
    done.
Qed.

(** One step of the want manager, with its updates posted *)
Lemma pm_post_ok P m' ups a :
  pm_wf P a → pwm_wf m' → simulates (pm_wants a) m' ups →
  dom (pwm_peer_wants m') = dom (pwm_peer_wants (pm_wants a)) → pm_wf P (pm_post (m', ups) a).
Proof.
  intros [Hw Hd Hs Hl] Hw' Hsim Hdom. split; simpl; [done| | |].
  - rewrite Hdom, Hd. apply set_eq. intros p. rewrite !elem_of_dom. rewrite (post_fold ups). symmetry. apply fmap_is_Some.
  - intros p s. rewrite (post_fold ups). intros (s0 & E & ->)%fmap_Some. simpl. by eapply Hs.
  - intros p s HP. rewrite (post_fold ups). intros (s0 & E & ->)%fmap_Some. simpl. intros Hr c.
    destruct (q_running (ps_queue s0)) eqn:Er; [|congruence]. simpl. rewrite requested_app.
    rewrite (requested_ext _ _ _ (Hl p s0 HP E Er)). symmetry. apply Hsim.
    apply elem_of_dom. rewrite Hdom, Hd. by eapply elem_of_dom_2.
Qed.

(** The messages and the failures of queues *)
Inductive pm_event := PmMessage (msg : pm_message) | QueueStops (peer : PeerId).

Definition pm_event_step (ev : pm_event) (a : PeerManagerActor) : PeerManagerActor * list pm_effect :=
  match ev with
  | PmMessage msg => let '(a, _, eff) := pm_step msg a in (a, eff)
  | QueueStops peer => (queue_stops peer a, [])
  end.

(** A peer of [P] whose queue has stopped is not connected again before it was
    disconnected. *)
Definition no_restart (P : PeerId → Prop) (ev : pm_event) (a : PeerManagerActor) : Prop :=
  match ev with
  | PmMessage (Connected p) => P p → ∀ s, pm_peers a !! p = Some s → q_running (ps_queue s) = true
  | _ => True
  end.

(** Sessions do not matter for the wants. *)
Lemma pm_with_sessions_wf P ss a : pm_wf P a → pm_wf P (pm_with_sessions ss a).
Proof. intros [Hw Hd Hs Hl]. by split. Qed.

Lemma no_signal P peer b a : pm_wf P a → signal_availability peer b a = [].
Proof.
  intros Ha. unfold signal_availability. destruct (pm_peers a !! peer) as [s|] eqn:E; [|done].
  rewrite (pm_wf_sessions _ _ Ha _ _ E). assert (hs_iter (∅ : gset Z) = []) as ->; [|done].
  destruct (hs_iter ∅) as [|x l] eqn:Ex; [done|]. assert (x ∈ (∅ : gset Z)); [|set_solver].
  apply elem_of_hs_iter. rewrite Ex. by left.
Qed.

Lemma pm_connected_ok P peer a :
  pm_wf P a → (P peer → ∀ s, pm_peers a !! peer = Some s → q_running (ps_queue s) = true) →
  pm_wf P (pm_connected peer a).1.
Proof.
  intros Ha Hrun. unfold pm_connected. simpl. destruct (pwm_add_peer peer (pm_wants a)) as [m' ups] eqn:E.
  destruct (add_peer_ok _ _ _ _ (pm_wf_wants _ _ Ha) E) as (Hw' & Hsim & Hdom).
  destruct (pm_peers a !! peer) as [s|] eqn:Es.
  - apply pm_post_ok; [|done|done|].
    2:{ simpl. rewrite Hdom, (pm_wf_dom _ _ Ha). apply elem_of_dom_2 in Es. set_solver. }
    unfold insert_peer. rewrite Es. unfold restart_queue. rewrite Es. destruct (q_running (ps_queue s)) eqn:Er.
    { by destruct a. }
    destruct Ha as [Hw Hd Hs Hl]. split; simpl; [done| | |].
    + rewrite Hd, dom_insert_L. apply elem_of_dom_2 in Es. set_solver.
    + intros p s'. rewrite lookup_insert. case_decide; [|apply Hs]. intros [= <-]. simpl. by eapply Hs.
    + intros p s' HP. rewrite lookup_insert. case_decide; [|by apply Hl]. subst p.
      rewrite (Hrun HP s eq_refl) in Er. done.
  - unfold insert_peer. rewrite Es. unfold restart_queue. rewrite lookup_insert_eq. simpl.
    destruct Ha as [Hw Hd Hs Hl]. split; simpl; [done| | |].
    + rewrite Hdom, Hd. apply set_eq. intros p. rewrite elem_of_union, elem_of_singleton, !elem_of_dom, (post_fold ups), fmap_is_Some.
      rewrite lookup_insert. case_decide; [subst|]; naive_solver.
    + intros p s. rewrite (post_fold ups). intros (s0 & E0 & ->)%fmap_Some. simpl. revert E0. rewrite lookup_insert.
      case_decide; [by intros [= <-]|apply Hs].
    + intros p s HP. rewrite (post_fold ups). intros (s0 & E0 & ->)%fmap_Some. simpl. intros Hr c. revert E0.
      rewrite lookup_insert. case_decide as Hp.
      * subst p. intros [= <-]. simpl. rewrite (sim_view _ _ _ Hsim).
        2:{ apply elem_of_dom. rewrite Hdom. set_solver. }
        apply requested_ext. intros x. unfold peer_view.
        assert (pwm_peer_wants (pm_wants a) !! peer = None) as ->; [|done].
        apply not_elem_of_dom. rewrite Hd. by apply not_elem_of_dom.
      * intros E0. destruct (q_running (ps_queue s0)) eqn:Er; [|congruence]. simpl. rewrite requested_app.
        rewrite (requested_ext _ _ _ (Hl p s0 HP E0 Er)). symmetry. apply Hsim.
        apply elem_of_dom. rewrite Hdom, Hd. apply elem_of_dom_2 in E0. set_solver.
Qed.

Lemma pm_disconnected_ok P peer a : pm_wf P a → pm_wf P (pm_disconnected peer a).
Proof.
  intros [Hw Hd Hs Hl]. unfold pm_disconnected. destruct (pm_peers a !! peer) as [s|]; [|done].
  destruct (remove_peer_ok peer _ Hw) as (Hw' & Hsim & Hdom). split; simpl; [done| | |].
  - by rewrite Hdom, Hd, dom_delete_L.
  - intros p s'. rewrite lookup_delete. case_decide; [done|apply Hs].
  - intros p s' HP Hp Hr c. rewrite lookup_delete in Hp. case_decide; [done|].
    rewrite (Hl p s' HP Hp Hr). symmetry. apply (sim_view _ _ _ Hsim). apply elem_of_dom.
    rewrite Hdom, Hd. apply elem_of_dom_2 in Hp. set_solver.
Qed.

Lemma pm_event_ok P ev a :
  pm_wf P a → no_restart P ev a → pm_wf P (pm_event_step ev a).1.
Proof.
  intros Ha Hno. destruct ev as [msg|peer]; simpl.
  2:{ destruct Ha as [Hw Hd Hs Hl]. split; simpl; [done| | |].
      - by rewrite Hd, dom_alter_L.
      - intros p s. destruct (decide (p = peer)) as [->|]; [rewrite lookup_alter_eq|rewrite lookup_alter_ne by done; apply Hs].
        intros (s0 & E & ->)%fmap_Some. simpl. by eapply Hs.
      - intros p s HP. destruct (decide (p = peer)) as [->|]; [rewrite lookup_alter_eq|rewrite lookup_alter_ne by done; by apply Hl].
        by intros (s0 & E & ->)%fmap_Some. }
  destruct msg as [| | | |peer|peer|peer cids|hs|peer bs hs|cs|peer id|id|id peer|id peer|id peer|id|id|id|id peer];
    simpl; try done.
  - simpl in Hno. by apply (pm_connected_ok P peer a).
  - by apply pm_disconnected_ok.
  - unfold pm_broadcast_want_haves. rewrite <-(pm_wf_dom _ _ Ha). destruct (pwm_broadcast_want_haves hs _ _) as [m' ups] eqn:E.
    destruct (broadcast_ok _ _ _ _ (pm_wf_wants _ _ Ha) E) as (? & ? & ?). by apply pm_post_ok.
  - unfold pm_send_wants. destruct (pm_peers a !! peer); [|done].
    destruct (pwm_send_wants peer bs hs (pm_wants a)) as [m' ups] eqn:E.
    destruct (send_wants_ok _ _ _ _ _ _ (pm_wf_wants _ _ Ha) E) as (? & ? & ?). by apply pm_post_ok.
  - unfold pm_send_cancels. rewrite <-(pm_wf_dom _ _ Ha). destruct (pwm_send_cancels cs _ _) as [m' ups] eqn:E.
    destruct (send_cancels_ok _ _ _ _ (pm_wf_wants _ _ Ha) E) as (? & ? & ?). by apply pm_post_ok.
  - unfold register_session. destruct (pm_sessions a !! id); by apply pm_with_sessions_wf.
  - destruct Ha as [Hw Hd Hs Hl]. split; simpl; [done|by rewrite Hd, dom_fmap_L| |].
    + intros p s. rewrite lookup_fmap. intros (s0 & E & ->)%fmap_Some. simpl. rewrite (Hs _ _ E). set_solver.
    + intros p s HP. rewrite lookup_fmap. intros (s0 & E & ->)%fmap_Some. simpl. by apply Hl.
  - unfold add_peer_to_session. destruct (pm_sessions a !! id); [case_decide|]; try done. by apply pm_with_sessions_wf.
  - unfold remove_peer_from_session. destruct (pm_sessions a !! id); [|done]. by apply pm_with_sessions_wf.
Qed.

(** ** Runs *)

Fixpoint pm_run (evs : list pm_event) (a : PeerManagerActor) : PeerManagerActor * list pm_effect :=
  match evs with
  | [] => (a, [])
  | ev :: evs =>
      let '(a, eff) := pm_event_step ev a in
      let '(a, eff') := pm_run evs a in
      (a, eff ++ eff')
  end.

Fixpoint no_restarts (P : PeerId → Prop) (evs : list pm_event) (a : PeerManagerActor) : Prop :=
  match evs with
  | [] => True
  | ev :: evs => no_restart P ev a ∧ no_restarts P evs (pm_event_step ev a).1
  end.

Lemma pm_new_wf P : pm_wf P PeerManagerActor_new.
Proof. split; simpl; [apply pwm_default_wf|set_solver|..]; intros p s; by rewrite lookup_empty. Qed.

Lemma pm_run_wf P evs a : pm_wf P a → no_restarts P evs a → pm_wf P (pm_run evs a).1.
Proof.
  revert a. induction evs as [|ev evs IH]; intros a Ha; simpl; [done|]. intros [Hno Hnos].
  specialize (IH _ (pm_event_ok P ev a Ha Hno) Hnos). destruct (pm_event_step ev a) as [a1 eff1]. simpl in *.
  by destruct (pm_run evs a1).
Qed.

Lemma no_restarts_none evs a : no_restarts (λ _, False) evs a.
Proof.
  revert a. induction evs as [|ev evs IH]; intros a; simpl; [done|]. split; [|apply IH].
  destruct ev as [[]|]; simpl; done.
Qed.

(** The queue of a connected peer was told everything and nothing more.  After
    any sequence of messages to the peer manager, for a peer whose queue runs and
    was not replaced after a failure, the updates in the queue add up exactly to the
    wants recorded for the peer: its want-blocks, its want-haves and the broadcasts. *)
Theorem pm_queue_told evs p s c :
  let a := (pm_run evs PeerManagerActor_new).1 in
  no_restarts (λ q, q = p) evs PeerManagerActor_new →
  pm_peers a !! p = Some s → q_running (ps_queue s) = true →
  requested (q_log (ps_queue s)) (λ _, None) c = peer_view (pm_wants a) p c.
Proof.
  intros a Hno Hs Hr. pose proof (pm_run_wf _ _ _ (pm_new_wf _) Hno) as Ha. by eapply (pm_wf_log _ _ Ha).
Qed.

Lemma get_wants_spec m c :
  no_empty (pwm_want_peers m) →
  c ∈ get_wants m ↔ c ∈ pwm_broadcast_wants m ∨ ∃ p, indexed (pwm_want_peers m) p c.
Proof.
  intros Hn. unfold get_wants. rewrite elem_of_list_to_set, elem_of_app, elem_of_hs_iter, elem_of_hm_keys.
  apply or_iff_compat_l. unfold indexed. split.
  - intros [ps Hps]. destruct (set_choose_L ps) as [p Hp]; [by eapply Hn|]. exists p. by rewrite Hps.
  - intros [p Hp]. destruct (pwm_want_peers m !! c); [eauto|set_solver].
Qed.

(** The queries of the wants are exact in every reachable state: a CID is among
    the current wants iff it is broadcast or was sent to a connected peer and not
    cancelled, and the two tables from peers to wants and from wants to peers
    always agree. *)
Theorem pm_wants_exact evs c :
  let a := (pm_run evs PeerManagerActor_new).1 in
  let m := pm_wants a in
  (∀ p, p ∈ default ∅ (pwm_want_peers m !! c) ↔ sent_to m p c) ∧
  (c ∈ get_wants m ↔ c ∈ pwm_broadcast_wants m ∨ ∃ p, sent_to m p c) ∧
  (c ∈ get_wants m ↔ c ∈ get_want_blocks m ∨ c ∈ get_want_haves m) ∧
  (∀ p, is_Some (pm_peers a !! p) ↔ is_Some (pwm_peer_wants m !! p)) ∧
  (∀ p, sent_to m p c → is_Some (peer_view m p c)).
Proof.
  intros a m. pose proof (pm_run_wf _ _ _ (pm_new_wf _) (no_restarts_none evs _)) as Ha.
  destruct (pm_wf_wants _ _ Ha) as [Hi Hn Hd]. fold a in Ha, Hi, Hn, Hd. fold m in Hi, Hn, Hd.
  assert (c ∈ get_wants m ↔ c ∈ pwm_broadcast_wants m ∨ ∃ p, sent_to m p c) as Hw.
  { rewrite get_wants_spec by done. by setoid_rewrite Hi. }
  split_and!; [intros p; apply Hi|done| | |].
  - rewrite Hw. unfold get_want_blocks, get_want_haves.
    rewrite !elem_of_list_to_set, elem_of_app, elem_of_hs_iter, !list_elem_of_bind.
    setoid_rewrite elem_of_hm_values. setoid_rewrite elem_of_hs_iter. unfold sent_to. naive_solver.
  - intros p. rewrite <-!elem_of_dom. unfold m. by rewrite (pm_wf_dom _ _ Ha).
  - intros p (pw & Hp & Hc). unfold peer_view. rewrite Hp. repeat case_bool_decide; simpl; eauto; tauto.
Qed.

(** A session is never told that a peer connected: in no sequence of messages
    does the peer manager signal the availability of a peer. *)
Theorem pm_never_signals evs id p b :
  SignalAvailability id p b ∉ (pm_run evs PeerManagerActor_new).2.
Proof.
  pose proof (pm_new_wf (λ _, False)) as Ha. revert Ha. generalize PeerManagerActor_new.
  induction evs as [|ev evs IH]; intros a Ha; simpl; [apply not_elem_of_nil|].
  assert (no_restart (λ _, False) ev a) as Hno by (destruct ev as [[]|]; simpl; done).
  pose proof (pm_event_ok _ _ _ Ha Hno) as Ha1. specialize (IH _ Ha1).
  assert (SignalAvailability id p b ∉ (pm_event_step ev a).2) as Hev.
  { clear IH Ha1 Hno. destruct ev as [msg|q]; simpl; [|apply not_elem_of_nil].
    destruct msg as [| | | |peer|peer|peer cids|hs|peer bs hs|cs|peer i|i|i peer|i peer|i peer|i|i|i|i peer];
      simpl; try apply not_elem_of_nil.
    - rewrite (no_signal (λ _, False)); [apply not_elem_of_nil|]. by apply (pm_connected_ok _ peer a).
    - unfold pm_response_received. destruct (pm_peers a !! peer) as [s|]; [|apply not_elem_of_nil].
      destruct (negb _ && _); set_solver.
    - unfold register_session. destruct (pm_sessions a !! i); apply not_elem_of_nil.
    - destruct (pm_sessions a !! i); [|apply not_elem_of_nil]. by intros (x & [=] & _)%list_elem_of_fmap.
    - unfold add_peer_to_session. destruct (pm_sessions a !! i); [case_decide|]; apply not_elem_of_nil.
    - unfold remove_peer_from_session. destruct (pm_sessions a !! i); [|apply not_elem_of_nil]. simpl.
      case_bool_decide; set_solver.
    - unfold protect_connection. destruct (pm_sessions a !! i); [case_decide|]; set_solver. }
  destruct (pm_event_step ev a) as [a1 eff1]. simpl in *. destruct (pm_run evs a1) as [a2 eff2].
  simpl in *. by rewrite elem_of_app; intros [?|?].
Qed.
End facts.

(** ** From the peer manager to the ledger of the peer *)

Section composition.
Context `{ServerLaws} `{HashOrder} `{PriorityQueue}.

(** The updates that a queue has read *)
Definition updates_of (trace : list (Z * Net * mq_event)) : list WantsUpdate :=
  omap (λ x, match x.2 with EvWants u => Some u | _ => None end) trace.

Lemma requests_updates trace f : requests trace f = requested (updates_of trace) f.
Proof.
  revert f. induction trace as [|[[now net] ev] trace IH]; intros f; simpl; [done|]. rewrite IH.
  by destruct ev.
Qed.

(** C8: the wants reach the peer.  When the queue of a connected peer has read what
    the peer manager put into it and has nothing left to send, the engine of the
    peer has in its ledger for this client exactly the wants that the peer manager
    records for the peer: want-blocks as want-blocks, want-haves and broadcasts as
    want-haves.  Needed for this: the queue runs and was not started again after it
    had stopped while the peer was connected ([no_restarts]), no want was repeated
    while its cancel still waited to be sent ([orderly]), every dial finds a peer that
    knows want-haves, the engine of the peer filters nobody and starts empty, and the
    messages that were sent arrive, each once and in order. *)
Theorem wants_reach_the_peer evs p s config trace r out ec me deliveries :
  let a := (pm_run evs PeerManagerActor_new).1 in
  no_restarts (λ q, q = p) evs PeerManagerActor_new →
  pm_peers a !! p = Some s → q_running (ps_queue s) = true →
  mq_run trace (run_new config) = Some (r, out) →
  updates_of trace = q_log (ps_queue s) →
  orderly trace (run_new config) →
  Forall (λ x, net_dial x.1.2 ≠ Some false) trace →
  has_pending_work (mq_wants (run_actor r)) = false →
  ec_filter ec = None → deliveries.*2 = sent_messages out →
  ∀ c, remote_wants (deliver me deliveries (Engine_new ec)) me c = peer_view (pm_wants a) p c.
Proof.
  intros a Hno Hs Hr Hrun Hups Ho Hd Hp Hf Hdel c.
  pose proof (pm_run_wf _ _ _ (pm_new_wf _) Hno) as Ha.
  fold a in Ha. rewrite <-(pm_wf_log _ _ Ha p s eq_refl Hs Hr c), <-Hups, <-requests_updates.
  rewrite (deliver_run _ _ _ _ _ _ _ _ Hrun Hf Hdel). by eapply idle_requests.
Qed.
End composition.

Local Open Scope Z_scope.

Module PeerManagerWitness.
Import Toy.
Import ScanQueue.
Import MessageWitness.
Import EngineWitness.
Import MessageQueueWitness.

Definition p1 : @PeerId ids := 1%nat.
Definition p2 : @PeerId ids := 2%nat.

(** Two peers connect; one is asked for a block, both are sent a broadcast, and
    the block is cancelled. *)
Definition events : list pm_event :=
  [PmMessage (Connected p1); PmMessage (SendWants p1 [[1]] [[2]]); PmMessage (PmBroadcastWantHaves {[ [3] ]});
   PmMessage (Connected p2); PmMessage (RegisterSession p2 5); PmMessage (SendCancels [[2]])].
Definition manager : PeerManagerActor := (pm_run events PeerManagerActor_new).1.
Definition state1 : PeerState := default {| ps_queue := Queue_new; ps_sessions := ∅ |} (pm_peers manager !! p1).

Lemma events_no_restarts : no_restarts (λ q, q = p1) events PeerManagerActor_new.
Proof. vm_compute. repeat split; intros Hp; [intros s [=]|discriminate Hp]. Qed.

Lemma pm_queue_told_witness :
  requested (q_log (ps_queue state1)) (λ _, None) [3] = Some WantType_Have ∧
  requested (q_log (ps_queue state1)) (λ _, None) [2] = None.
Proof.
  split; (etransitivity; [refine (pm_queue_told events p1 state1 _ events_no_restarts _ _); vm_compute; reflexivity|]);
    vm_compute; reflexivity.
Defined.

Definition trace1 : list (Z * Net * mq_event) :=
  (at_ 0 ∘ EvWants) <$> take 2 (q_log (ps_queue state1)).
Definition trace2 : list (Z * Net * mq_event) :=
  trace1 ++ [at_ 1 EvWork; at_ MILLI EvTimer] ++ ((at_ MILLI ∘ EvWants) <$> drop 2 (q_log (ps_queue state1)))
  ++ [at_ (2 * MILLI) EvWork; at_ (30 * MILLI) EvWork].

Lemma wants_reach_the_peer_witness :
  remote_wants (deliver peer (deliveries trace2) (Engine_new server)) peer [1] = Some WantType_Block ∧
  remote_wants (deliver peer (deliveries trace2) (Engine_new server)) peer [2] = None ∧
  remote_wants (deliver peer (deliveries trace2) (Engine_new server)) peer [3] = Some WantType_Have.
Proof.
  assert (∀ c, remote_wants (deliver peer (deliveries trace2) (Engine_new server)) peer c
    = peer_view (pm_wants manager) p1 c) as Hm.
  { apply (wants_reach_the_peer events p1 state1 MqConfig_default trace2 (final trace2).1 (final trace2).2
      server peer (deliveries trace2) events_no_restarts).
    - vm_compute. reflexivity.
    - vm_compute. reflexivity.
    - vm_compute. reflexivity.
    - vm_compute. reflexivity.
    - vm_compute. repeat split; intros c; rewrite ?elem_of_empty; set_solver.
    - vm_compute. repeat constructor; done.
    - vm_compute. reflexivity.
    - reflexivity.
    - apply deliveries_messages. }
  rewrite !Hm. vm_compute. repeat split.
Defined.

(** When a stopped queue is replaced, the wants that the old one had are not put
    into the new one. *)
Definition restarted : PeerManagerActor :=
  (pm_run [PmMessage (Connected p1); PmMessage (SendWants p1 [[1]] []); QueueStops p1; PmMessage (Connected p1);
           PmMessage (SendWants p1 [[1]] [])] PeerManagerActor_new).1.

Lemma pm_restart_loses_wants :
  ps_queue <$> pm_peers restarted !! p1 = Some Queue_new ∧
  peer_view (pm_wants restarted) p1 [1] = Some WantType_Block.
Proof. vm_compute. split; reflexivity. Qed.
End PeerManagerWitness.
