(* ===== verification/ClientTrackers.v ===== *)
(** * What the client keeps track of

    Models the small stores that the sessions of the bitswap client share or own:
    [client/block_presence_manager.rs], [client/session_interest_manager.rs],
    [client/session/cid_queue.rs], [client/session/session_wants.rs],
    [client/session/sent_want_blocks_tracker.rs] and
    [client/session/peer_response_tracker.rs].  Each operation holds the lock of its
    store for its whole body, so it is one step.  The random numbers are arguments. *)

From stdpp Require Import prelude gmap fin_maps.
From Stdlib Require Import ZArith Lia.
From S2P Require Import Prelude Cids.
Local Open Scope Z_scope.

(** [BlockPresenceManager], [SessionInterestManager], [SentWantBlocksTracker] and
    [PeerResponseTracker]: the maps behind their locks *)
Abbreviation Presence := (gmap Cid (gmap PeerId bool)).
Abbreviation Interests := (gmap Cid (gmap Z bool)).
Abbreviation SentWantBlocks := (gmap PeerId (gset Cid)).
Abbreviation Responses := (gmap PeerId Z).

(** ** Which peer has which block *)

Section presence.
Context `{Ids}.


Definition update_block_presence (peer : PeerId) (present : bool) (presence : Presence) (key : Cid) : Presence :=
  let entry := default ∅ (presence !! key) in
  match entry !! peer with
  | Some true => <[key := entry]> presence
  | _ => <[key := <[peer := present]> entry]> presence
  end.

(** [BlockPresenceManager::receive_from] *)
Definition bpm_receive_from (peer : PeerId) (haves dont_haves : list Cid) (presence : Presence) : Presence :=
  foldl (update_block_presence peer false) (foldl (update_block_presence peer true) presence haves) dont_haves.

Definition peer_has_block (peer : PeerId) (cid : Cid) (presence : Presence) : bool :=
  match presence !! cid with
  | Some l => match l !! peer with Some have => have | None => false end
  | None => false
  end.
Definition peer_does_not_have_block (peer : PeerId) (cid : Cid) (presence : Presence) : bool :=
  match presence !! cid with
  | Some l => match l !! peer with Some have => negb have | None => false end
  | None => false
  end.

Fixpoint all_dont_have_loop (ps : gmap PeerId bool) (peers : list PeerId) : bool :=
  match peers with
  | [] => true
  | peer :: peers =>
      match ps !! peer with
      | Some true => false
      | Some false => all_dont_have_loop ps peers
      | None => false
      end
  end.
Definition all_dont_have (presence : Presence) (peers : list PeerId) (key : Cid) : bool :=
  match presence !! key with
  | Some ps => all_dont_have_loop ps peers
  | None => false
  end.
Definition all_peers_do_not_have_block (peers : list PeerId) (keys : list Cid) (presence : Presence) : list Cid :=
  filter (λ key, all_dont_have presence peers key = true) keys.

Definition bpm_remove_keys (keys : list Cid) (presence : Presence) : Presence :=
  foldl (λ m key, delete key m) presence keys.
Definition bpm_has_key (cid : Cid) (presence : Presence) : bool := bool_decide (is_Some (presence !! cid)).
End presence.

(** ** Which session is interested in which block *)

Section interest.
Context `{Multiformats} `{HashOrder}.


Definition record_session_interest (session : Z) (keys : list Cid) (wants : Interests) : Interests :=
  foldl (λ wants key, <[key := <[session := true]> (default ∅ (wants !! key))]> wants) wants keys.

(** [remove_session]: the keys that no session is interested in anymore are
    returned *)
Definition sim_remove_session (session : Z) (wants : Interests) : Interests * list Cid :=
  let left := delete session <$> wants in
  let deleted := filter (λ key, left !! key = Some ∅) (hm_keys left) in
  (foldl (λ m key, delete key m) left deleted, deleted).

Definition remove_session_wants (session : Z) (keys : list Cid) (wants : Interests) : Interests :=
  foldl (λ wants key,
    match wants !! key with
    | Some ss => match ss !! session with
                 | Some true => <[key := <[session := false]> ss]> wants
                 | _ => wants
                 end
    | None => wants
    end) wants keys.

(** One key of the loop of [remove_session_interested] *)
Definition remove_interest (session : Z) (st : Interests * list Cid) (key : Cid) : Interests * list Cid :=
  let '(wants, deleted) := st in
  match wants !! key with
  | Some ss =>
      let ss := delete session ss in
      (<[key := ss]> wants, if decide (ss = ∅) then deleted ++ [key] else deleted)
  | None => st
  end.
Definition remove_session_interested (session : Z) (keys : list Cid) (wants : Interests) : Interests * list Cid :=
  let '(wants, deleted) := foldl (remove_interest session) (wants, []) keys in
  (foldl (λ m key, delete key m) wants deleted, deleted).

(** Whether the session wants the block *)
Definition session_wants_key (session : Z) (wants : Interests) (key : Cid) : bool :=
  match wants !! key with
  | Some ss => default false (ss !! session)
  | None => false
  end.
Definition filter_session_interested (session : Z) (key_sets : list (list Cid)) (wants : Interests)
    : list (list Cid) :=
  filter (λ key, session_wants_key session wants key = true) <$> key_sets.

Definition wanted_keys (blocks : list Block) (wants : Interests) : gset Cid :=
  list_to_set (blocks ≫= λ block,
    match wants !! block_cid block with
    | Some ss => (λ _, block_cid block) <$> filter (λ w, w = true) (hm_values ss)
    | None => []
    end).
Definition split_wanted_unwanted (blocks : list Block) (wants : Interests) : list Block * list Block :=
  let keys := wanted_keys blocks wants in
  (filter (λ b, block_cid b ∈ keys) blocks, filter (λ b, block_cid b ∉ keys) blocks).

Definition interested_sessions (blocks haves dont_haves : list Cid) (wants : Interests) : gset Z :=
  list_to_set ((blocks ++ haves ++ dont_haves) ≫= λ key,
    match wants !! key with Some ss => hm_keys ss | None => [] end).
End interest.

(** ** A queue of CIDs *)

Section cid_queue.
Context `{Ids}.

Record CidQueue := { cq_elements : list Cid; cq_set : gset Cid }.
Definition CidQueue_default : CidQueue := {| cq_elements := []; cq_set := ∅ |}.

(** The loop of [pop] *)
Fixpoint pop_elements (set : gset Cid) (elements : list Cid) : list Cid * option Cid :=
  match elements with
  | [] => ([], None)
  | el :: elements => if decide (el ∈ set) then (elements, Some el) else pop_elements set elements
  end.
Definition cq_pop (q : CidQueue) : CidQueue * option Cid :=
  let '(elements, el) := pop_elements (cq_set q) (cq_elements q) in
  ({| cq_elements := elements; cq_set := cq_set q |}, el).
Definition cq_cids (q : CidQueue) : CidQueue * list Cid :=
  let elements := filter (λ el, el ∈ cq_set q) (cq_elements q) in
  ({| cq_elements := elements; cq_set := cq_set q |}, elements).
Definition cq_push (cid : Cid) (q : CidQueue) : CidQueue :=
  if decide (cid ∈ cq_set q) then q
  else {| cq_elements := cq_elements q ++ [cid]; cq_set := {[cid]} ∪ cq_set q |}.
Definition cq_remove (cid : Cid) (q : CidQueue) : CidQueue :=
  {| cq_elements := cq_elements q; cq_set := cq_set q ∖ {[cid]} |}.
Definition cq_has (cid : Cid) (q : CidQueue) : bool := bool_decide (cid ∈ cq_set q).
Definition cq_len (q : CidQueue) : nat := size (cq_set q).
End cid_queue.

(** ** The wants of a session *)

Section session_wants.
Context `{Ids} `{HashOrder}.

Definition LIVE_WANTS_ORDER_GC_LIMIT : Z := 32.

Record SessionWants := {
  to_fetch : CidQueue;
  live_wants : gmap Cid Z;
  live_wants_order : list Cid;
  broadcast_limit : Z
}.

Definition SessionWants_new (limit : Z) : SessionWants :=
  {| to_fetch := CidQueue_default; live_wants := ∅; live_wants_order := []; broadcast_limit := limit |}.

Definition sw_with_fetch (q : CidQueue) (w : SessionWants) : SessionWants :=
  {| to_fetch := q; live_wants := live_wants w; live_wants_order := live_wants_order w;
     broadcast_limit := broadcast_limit w |}.

Definition blocks_requested (new_wants : list Cid) (w : SessionWants) : SessionWants :=
  sw_with_fetch (foldl (λ q cid, cq_push cid q) (to_fetch w) new_wants) w.

(** The loop of [get_next_wants]; [fuel] is the number of elements of the queue,
    of which every iteration takes one. *)
Definition make_live (now : Z) (cid : Cid) (q : CidQueue) (w : SessionWants) : SessionWants :=
  {| to_fetch := q; live_wants := <[cid := now]> (live_wants w);
     live_wants_order := live_wants_order w ++ [cid]; broadcast_limit := broadcast_limit w |}.
Fixpoint next_wants (fuel : nat) (now to_add : Z) (w : SessionWants) (live : gset Cid) : SessionWants * gset Cid :=
  match fuel with
  | O => (w, live)
  | S fuel =>
      if to_add <=? 0 then (w, live) else
      match cq_pop (to_fetch w) with
      | (q, Some cid) => next_wants fuel now (to_add - 1) (make_live now cid q w) ({[cid]} ∪ live)
      | (q, None) => (sw_with_fetch q w, live)
      end
  end.
Definition get_next_wants (now : Z) (w : SessionWants) : SessionWants * gset Cid :=
  let to_add := Int.usize_sub (broadcast_limit w) (Z.of_nat (size (live_wants w))) in
  next_wants (S (length (cq_elements (to_fetch w)))) now to_add w ∅.

Definition want_sent (now : Z) (w : SessionWants) (key : Cid) : SessionWants :=
  if decide (live_wants w !! key = None ∧ cq_has key (to_fetch w) = true)
  then make_live now key (cq_remove key (to_fetch w)) w else w.
Definition wants_sent (now : Z) (keys : list Cid) (w : SessionWants) : SessionWants :=
  foldl (want_sent now) w keys.

Definition is_wanted (key : Cid) (w : SessionWants) : bool :=
  match live_wants w !! key with
  | None => cq_has key (to_fetch w)
  | Some _ => true
  end.

(** One key of the loop of [blocks_received] *)
Definition block_received (now : Z) (st : SessionWants * list Cid * Z) (key : Cid) : SessionWants * list Cid * Z :=
  let '(w, wanted, latency) := st in
  if is_wanted key w then
    ({| to_fetch := cq_remove key (to_fetch w); live_wants := delete key (live_wants w);
        live_wants_order := live_wants_order w; broadcast_limit := broadcast_limit w |},
     wanted ++ [key],
     match live_wants w !! key with
     | Some sent_at => latency + Z.max 0 (now - sent_at)
     | None => latency
     end)
  else st.
Definition blocks_received (now : Z) (keys : list Cid) (w : SessionWants) : SessionWants * list Cid * Z :=
  let '(w, wanted, latency) := foldl (block_received now) (w, [], 0) keys in
  let behind := Int.usize_sub (Z.of_nat (length (live_wants_order w))) (Z.of_nat (size (live_wants w))) in
  (if LIVE_WANTS_ORDER_GC_LIMIT <? behind then
     {| to_fetch := to_fetch w; live_wants := live_wants w;
        live_wants_order := filter (λ key, is_Some (live_wants w !! key)) (live_wants_order w);
        broadcast_limit := broadcast_limit w |}
   else w, wanted, latency).

(** The loop of [prepare_broadcast] *)
Fixpoint broadcast_loop (now limit : Z) (order : list Cid) (live_wants : gmap Cid Z) (live : gset Cid)
    : gmap Cid Z * gset Cid :=
  match order with
  | [] => (live_wants, live)
  | key :: order =>
      match live_wants !! key with
      | Some _ =>
          let live_wants := <[key := now]> live_wants in
          let live := {[key]} ∪ live in
          if Z.of_nat (size live) =? limit then (live_wants, live)
          else broadcast_loop now limit order live_wants live
      | None => broadcast_loop now limit order live_wants live
      end
  end.
Definition prepare_broadcast (now : Z) (w : SessionWants) : SessionWants * gset Cid :=
  let '(lw, live) := broadcast_loop now (broadcast_limit w) (live_wants_order w) (live_wants w) ∅ in
  ({| to_fetch := to_fetch w; live_wants := lw; live_wants_order := live_wants_order w;
      broadcast_limit := broadcast_limit w |}, live).

Definition sw_cancel_pending (keys : list Cid) (w : SessionWants) : SessionWants :=
  sw_with_fetch (foldl (λ q key, cq_remove key q) (to_fetch w) keys) w.

(** [random_live_want]; [i] is the random index. *)
Definition random_live_want (i : nat) (w : SessionWants) : option Cid :=
  if decide (live_wants w = ∅) then None else hm_keys (live_wants w) !! i.
Definition has_live_wants (w : SessionWants) : bool := negb (bool_decide (live_wants w = ∅)).
End session_wants.

(** ** Want-blocks that were sent, and the ranking of peers *)

Section trackers.
Context `{Ids}.

Definition add_sent_want_blocks_to (peer : PeerId) (keys : list Cid) (t : SentWantBlocks) : SentWantBlocks :=
  <[peer := foldl (λ s key, {[key]} ∪ s) (default ∅ (t !! peer)) keys]> t.
Definition have_sent_want_block_to (peer : PeerId) (cid : Cid) (t : SentWantBlocks) : bool :=
  match t !! peer with Some cids => bool_decide (cid ∈ cids) | None => false end.

Definition received_block_from (from : PeerId) (t : Responses) : Responses :=
  <[from := Int.usize_add (default 0 (t !! from)) 1]> t.
Definition get_peer_count (peer : PeerId) (t : Responses) : Z := default 1 (t !! peer).

(** [choose]: [exceeds c total] is the outcome of the comparison
    [counted > rnd] for a peer up to which [c] of [total] blocks were counted. *)
Fixpoint choose_loop (exceeds : Z → Z → bool) (total counted : Z) (peers : list PeerId) (t : Responses)
    : option PeerId :=
  match peers with
  | [] => None
  | peer :: peers =>
      let counted := counted + get_peer_count peer t in
      if exceeds counted total then Some peer else choose_loop exceeds total counted peers t
  end.
Definition choose (exceeds : Z → Z → bool) (peers : list PeerId) (t : Responses) : option PeerId :=
  match peers with
  | [] => None
  | _ =>
      let total := sum_z ((λ p, get_peer_count p t) <$> peers) in
      match choose_loop exceeds total 0 peers t with
      | Some peer => Some peer
      | None => last peers
      end
  end.
End trackers.
