(* ===== verification/ClientTrackersFacts.v ===== *)
(** * The trackers are exact

    What the stores of [ClientTrackers] answer, in terms of what they were told. *)

From stdpp Require Import prelude gmap fin_maps.
From Stdlib Require Import ZArith Lia.
From S2P Require Import Prelude Cids ClientTrackers.
Local Open Scope Z_scope.

(** ** Presence *)

Section presence.
Context `{Ids}.

Inductive bpm_op :=
  | BpmReceive (peer : PeerId) (haves dont_haves : list Cid)
  | BpmRemove (keys : list Cid).

Definition bpm_step (presence : Presence) (op : bpm_op) : Presence :=
  match op with
  | BpmReceive peer haves dont_haves => bpm_receive_from peer haves dont_haves presence
  | BpmRemove keys => bpm_remove_keys keys presence
  end.

(** What is known of a peer and a block: a HAVE is final until the key is
    removed *)
Definition learn (peer : PeerId) (c : Cid) (known : option bool) (op : bpm_op) : option bool :=
  match op with
  | BpmReceive from haves dont_haves =>
      if decide (from = peer) then
        if decide (c ∈ haves) then Some true
        else if decide (c ∈ dont_haves ∧ known ≠ Some true) then Some false else known
      else known
  | BpmRemove keys => if decide (c ∈ keys) then None else known
  end.

Definition presence_of (presence : Presence) (peer : PeerId) (c : Cid) : option bool :=
  presence !! c ≫= (.!! peer).

Lemma update_presence from b presence key peer c :
  presence_of (update_block_presence from b presence key) peer c
  = if decide (from = peer ∧ key = c ∧ presence_of presence peer c ≠ Some true) then Some b
    else presence_of presence peer c.
Proof.
  unfold presence_of, update_block_presence. set (entry := default ∅ (presence !! key)).
  destruct (decide (key = c)) as [<-|Hk].
  - assert (presence !! key ≫= (.!! peer) = entry !! peer) as ->.
    { unfold entry. destruct (presence !! key); [done|]. symmetry. apply lookup_empty. }
    assert (∀ e : gmap PeerId bool, (<[key:=e]> presence : Presence) !! key ≫= (.!! peer) = e !! peer) as Hi.
    { intros e. by rewrite lookup_insert_eq. }
    destruct (decide (from = peer)) as [->|Hp].
    + destruct (entry !! peer) as [[]|] eqn:E; rewrite Hi.
      * rewrite E. rewrite decide_False by naive_solver. done.
      * rewrite lookup_insert_eq, decide_True by done. done.
      * rewrite lookup_insert_eq, decide_True by done. done.
    + rewrite decide_False by tauto. destruct (entry !! from) as [[]|]; rewrite Hi; by rewrite ?lookup_insert_ne.
  - rewrite decide_False by tauto. destruct (entry !! from) as [[]|]; by rewrite lookup_insert_ne.
Qed.

Lemma update_presence_fold from b l presence peer c :
  presence_of (foldl (update_block_presence from b) presence l) peer c
  = if decide (from = peer ∧ c ∈ l ∧ presence_of presence peer c ≠ Some true) then Some b
    else presence_of presence peer c.
Proof.
  revert presence. induction l as [|x l IH]; intros presence; cbn [foldl].
  { by rewrite decide_False by set_solver. }
  rewrite IH, update_presence. pose proof (elem_of_cons l c x).
  destruct (decide (from = peer)) as [->|]; [|repeat (rewrite decide_False by tauto); done].
  destruct (decide (presence_of presence peer c = Some true)) as [Ht|Ht].
  - rewrite (decide_False (P := peer = peer ∧ x = c ∧ _)) by tauto. rewrite !decide_False by tauto. done.
  - destruct (decide (x = c)) as [->|Hx].
    + rewrite (decide_True (P := peer = peer ∧ c = c ∧ _)) by done.
      rewrite (decide_True (P := peer = peer ∧ c ∈ c :: l ∧ _)) by (split_and!; [done|by left|done]).
      by destruct (decide _).
    + rewrite (decide_False (P := peer = peer ∧ x = c ∧ _)) by tauto.
      destruct (decide (c ∈ l)); [rewrite !decide_True by tauto|rewrite !decide_False by naive_solver]; done.
Qed.

Lemma remove_keys_presence keys presence peer c :
  presence_of (bpm_remove_keys keys presence) peer c
  = if decide (c ∈ keys) then None else presence_of presence peer c.
Proof.
  unfold bpm_remove_keys, presence_of. revert presence. induction keys as [|k keys IH]; intros presence; cbn [foldl].
  { by rewrite decide_False by set_solver. }
  rewrite IH. destruct (decide (c ∈ keys)); [by rewrite decide_True by set_solver|].
  destruct (decide (k = c)) as [->|].
  - rewrite lookup_delete_eq, decide_True by set_solver. done.
  - rewrite lookup_delete_ne, decide_False by set_solver. done.
Qed.

Lemma presence_history ops peer c :
  presence_of (foldl bpm_step ∅ ops) peer c = foldl (learn peer c) None ops.
Proof.
  assert (presence_of ∅ peer c = None) as H0' by (unfold presence_of; by rewrite lookup_empty).
  rewrite <-H0'. generalize (∅ : Presence). induction ops as [|op ops IH]; intros m; simpl; [done|].
  rewrite IH. f_equal. destruct op as [from hs ds|keys]; simpl; [|apply remove_keys_presence].
  unfold bpm_receive_from. rewrite !update_presence_fold.
  destruct (decide (from = peer)) as [->|]; [|repeat (rewrite decide_False by tauto); done].
  destruct (decide (presence_of m peer c = Some true)) as [Ht|Ht].
  - rewrite Ht. repeat case_decide; naive_solver.
  - destruct (decide (c ∈ hs)).
    + rewrite (decide_True (P := peer = peer ∧ c ∈ hs ∧ _)) by done. by rewrite decide_False by tauto.
    + rewrite (decide_False (P := peer = peer ∧ c ∈ hs ∧ _)) by tauto.
      destruct (decide (c ∈ ds)); [by rewrite !decide_True by tauto|by rewrite !decide_False by tauto].
Qed.

Lemma all_dont_have_loop_spec ps peers :
  all_dont_have_loop ps peers = true ↔ ∀ p, p ∈ peers → ps !! p = Some false.
Proof.
  induction peers as [|p peers IH]; simpl; [set_solver|].
  destruct (ps !! p) as [[]|] eqn:E.
  - split; [done|]. intros Hp. specialize (Hp p). set_solver.
  - rewrite IH. set_solver.
  - split; [done|]. intros Hp. specialize (Hp p). set_solver.
Qed.

(** What is recorded about the blocks of peers is exactly what the peers said: a
    peer has a block iff it sent a HAVE for it since the key was last removed, it
    does not have it iff it sent a DONT_HAVE and no HAVE, and the blocks that are
    exhausted among some peers are those that each of them said not to have. *)
Theorem presence_exact ops peer c peers keys :
  let m := foldl bpm_step ∅ ops in
  let known p := foldl (learn p c) None ops in
  (peer_has_block peer c m = true ↔ known peer = Some true) ∧
  (peer_does_not_have_block peer c m = true ↔ known peer = Some false) ∧
  (peers ≠ [] →
   c ∈ all_peers_do_not_have_block peers keys m ↔ c ∈ keys ∧ ∀ p, p ∈ peers → known p = Some false).
Proof.
  intros m known. assert (∀ p, presence_of m p c = known p) as Hk by (intros; apply presence_history).
  unfold peer_has_block, peer_does_not_have_block, presence_of in *.
  split_and!; [rewrite <-Hk; destruct (m !! c) as [l|]; simpl; [destruct (l !! peer) as [[]|]|]; naive_solver..|].
  intros Hne. unfold all_peers_do_not_have_block. rewrite list_elem_of_filter. setoid_rewrite <-Hk.
  unfold all_dont_have. destruct (m !! c) as [l|]; simpl.
  - rewrite all_dont_have_loop_spec. naive_solver.
  - split; [naive_solver|]. intros [_ Hp]. destruct peers as [|p ps]; [done|]. specialize (Hp p). set_solver.
Qed.
End presence.

(** ** Interest *)

Section interest.
Context `{Multiformats} `{HashOrder}.

Inductive sim_op :=
  | SimRecord (session : Z) (keys : list Cid)
  | SimRemoveSession (session : Z)
  | SimRemoveWants (session : Z) (keys : list Cid)
  | SimRemoveInterested (session : Z) (keys : list Cid).

(** The new interests and the keys that are returned *)
Definition sim_step (op : sim_op) (wants : Interests) : Interests * list Cid :=
  match op with
  | SimRecord session keys => (record_session_interest session keys wants, [])
  | SimRemoveSession session => sim_remove_session session wants
  | SimRemoveWants session keys => (remove_session_wants session keys wants, [])
  | SimRemoveInterested session keys => remove_session_interested session keys wants
  end.

(** The interest of a session in a block: none, just interested, or wanted *)
Definition interest (s : Z) (c : Cid) (known : option bool) (op : sim_op) : option bool :=
  match op with
  | SimRecord session keys => if decide (session = s ∧ c ∈ keys) then Some true else known
  | SimRemoveSession session => if decide (session = s) then None else known
  | SimRemoveWants session keys =>
      if decide (session = s ∧ c ∈ keys) then (λ _, false) <$> known else known
  | SimRemoveInterested session keys => if decide (session = s ∧ c ∈ keys) then None else known
  end.

Definition interest_of (wants : Interests) (s : Z) (c : Cid) : option bool := wants !! c ≫= (.!! s).

(** Keys without an interested session are not kept. *)
Definition tidy (wants : Interests) : Prop := ∀ c, wants !! c ≠ Some ∅.

Lemma interest_insert (wants : Interests) key ss s c :
  interest_of (<[key := ss]> wants) s c = if decide (key = c) then ss !! s else interest_of wants s c.
Proof. unfold interest_of. rewrite lookup_insert. by case_decide. Qed.

Lemma interest_default (wants : Interests) s c : default ∅ (wants !! c) !! s = interest_of wants s c.
Proof. unfold interest_of. destruct (wants !! c); [done|]. apply lookup_empty. Qed.

Lemma tidy_insert (wants : Interests) key ss : tidy wants → ss ≠ ∅ → tidy (<[key := ss]> wants).
Proof. intros Ht Hs c. rewrite lookup_insert. case_decide; [congruence|apply Ht]. Qed.

Lemma record_spec session keys wants :
  tidy wants → tidy (record_session_interest session keys wants) ∧
  ∀ s c, interest_of (record_session_interest session keys wants) s c
    = interest s c (interest_of wants s c) (SimRecord session keys).
Proof.
  unfold record_session_interest. revert wants. induction keys as [|k keys IH]; intros wants Ht; cbn [foldl].
  { split; [done|]. intros s c. simpl. by rewrite decide_False by set_solver. }
  destruct (IH (<[k:=<[session:=true]> (default ∅ (wants !! k))]> wants)) as [Ht' Hi].
  { apply tidy_insert; [done|apply insert_non_empty]. }
  split; [done|]. intros s c. rewrite Hi. simpl. rewrite interest_insert.
  destruct (decide (session = s)) as [->|Hs].
  - destruct (decide (c ∈ keys)); [by rewrite !decide_True by set_solver|].
    rewrite decide_False by tauto. destruct (decide (k = c)) as [->|].
    + rewrite lookup_insert_eq, decide_True by set_solver. done.
    + by rewrite decide_False by set_solver.
  - rewrite !(decide_False (P := session = s ∧ _)) by tauto. case_decide; [|done]. subst.
    rewrite lookup_insert_ne by done. apply interest_default.
Qed.

Lemma delete_keys_lookup (wants : Interests) l c :
  foldl (λ m key, delete key m) wants l !! c = if decide (c ∈ l) then None else wants !! c.
Proof.
  revert wants. induction l as [|k l IH]; intros wants; cbn [foldl].
  { by rewrite decide_False by set_solver. }
  rewrite IH, lookup_delete. destruct (decide (c ∈ l)); [by rewrite decide_True by set_solver|].
  destruct (decide (k = c)); [by rewrite decide_True by set_solver|by rewrite decide_False by set_solver].
Qed.

Lemma remove_session_spec session (wants : Interests) :
  tidy wants →
  let '(wants', deleted) := sim_remove_session session wants in
  tidy wants' ∧ (∀ s c, interest_of wants' s c = interest s c (interest_of wants s c) (SimRemoveSession session)) ∧
  (∀ c, c ∈ deleted ↔ is_Some (wants !! c) ∧ wants' !! c = None).
Proof.
  intros Ht. unfold sim_remove_session. set (left := delete session <$> wants).
  set (deleted := filter _ _).
  assert (∀ c, c ∈ deleted ↔ left !! c = Some ∅) as Hd.
  { intros c. unfold deleted. rewrite list_elem_of_filter, elem_of_hm_keys. naive_solver. }
  assert (∀ c, foldl (λ m key, delete key m) left deleted !! c
    = if decide (left !! c = Some ∅) then None else left !! c) as Hl.
  { intros c. rewrite delete_keys_lookup. specialize (Hd c). repeat case_decide; tauto. }
  assert (∀ c, left !! c = delete session <$> wants !! c) as Hleft by (intros; apply lookup_fmap).
  split_and!.
  - intros c. rewrite Hl. by case_decide.
  - intros s c. unfold interest_of. rewrite Hl, Hleft. simpl. destruct (wants !! c) as [ss|]; simpl.
    2:{ by destruct (decide (session = s)). }
    case_decide as He; simpl.
    + injection He as He. case_decide; [done|]. rewrite <-(lookup_delete_ne ss session s) by done.
      by rewrite He, lookup_empty.
    + rewrite lookup_delete. by case_decide.
  - intros c. rewrite Hd, Hl, Hleft. destruct (wants !! c) as [ss|]; simpl.
    + destruct (decide (Some (delete session ss) = Some ∅)); split; intros; try done; try (by split; eauto); by destruct_and?.
    + split; [done|]. by intros [[? ?] _].
Qed.

Lemma remove_wants_spec session keys (wants : Interests) :
  tidy wants → tidy (remove_session_wants session keys wants) ∧
  ∀ s c, interest_of (remove_session_wants session keys wants) s c
    = interest s c (interest_of wants s c) (SimRemoveWants session keys).
Proof.
  unfold remove_session_wants. revert wants. induction keys as [|k keys IH]; intros wants Ht; cbn [foldl].
  { split; [done|]. intros s c. simpl. by rewrite decide_False by set_solver. }
  match goal with |- context [foldl _ ?w1 keys] => set (w := w1) end.
  assert (tidy w ∧ ∀ s c, interest_of w s c
    = if decide (session = s ∧ c = k) then (λ _, false) <$> interest_of wants s c else interest_of wants s c) as [Ht' Hw].
  { unfold w. destruct (wants !! k) as [ss|] eqn:Ek.
    2:{ split; [done|]. intros s c. case_decide as Hd; [|done]. destruct Hd as [_ ->]. unfold interest_of.
        by rewrite Ek. }
    assert (∀ s, interest_of wants s k = ss !! s) as Hk by (intros; unfold interest_of; by rewrite Ek).
    destruct (ss !! session) as [[]|] eqn:Es.
    - split; [apply tidy_insert; [done|apply insert_non_empty]|]. intros s c. rewrite interest_insert.
      destruct (decide (k = c)) as [<-|]; [|by rewrite decide_False by naive_solver].
      rewrite Hk, lookup_insert. destruct (decide (session = s)) as [<-|].
      + by rewrite decide_True, Es by done.
      + by rewrite decide_False by tauto.
    - split; [done|]. intros s c. case_decide as Hd; [|done]. destruct Hd as [<- ->]. by rewrite Hk, Es.
    - split; [done|]. intros s c. case_decide as Hd; [|done]. destruct Hd as [<- ->]. by rewrite Hk, Es. }
  destruct (IH w Ht') as [Ht'' Hi]. split; [done|]. intros s c. rewrite Hi. simpl. rewrite Hw.
  destruct (decide (session = s)) as [->|]; [|by rewrite !decide_False by tauto].
  destruct (decide (c = k)) as [->|].
  - rewrite (decide_True (P := s = s ∧ k = k)) by done. rewrite (decide_True (P := s = s ∧ k ∈ k :: keys)) by set_solver.
    case_decide; [|done]. by destruct (interest_of wants s k).
  - rewrite (decide_False (P := s = s ∧ c = k)) by tauto.
    destruct (decide (c ∈ keys)); [by rewrite !decide_True by set_solver|by rewrite !decide_False by set_solver].
Qed.

Lemma remove_interest_fold session keys (wants : Interests) del wants' del' :
  foldl (remove_interest session) (wants, del) keys = (wants', del') →
  (∀ c, wants' !! c = if decide (c ∈ keys) then delete session <$> wants !! c else wants !! c) ∧
  (∀ c, c ∈ del' ↔ c ∈ del ∨ c ∈ keys ∧ delete session <$> wants !! c = Some ∅).
Proof.
  revert wants del. induction keys as [|k keys IH]; intros wants del; cbn [foldl].
  { intros [= <- <-]. split; intros c; [by rewrite decide_False by set_solver|set_solver]. }
  destruct (remove_interest session (wants, del) k) as [w1 d1] eqn:E. intros [Hw Hd]%IH.
  assert (∀ c, w1 !! c = if decide (c = k) then delete session <$> wants !! c else wants !! c) as Hw1.
  { intros c. simpl in E. destruct (wants !! k) as [ss|] eqn:Ek; injection E as <- <-.
    - rewrite lookup_insert. destruct (decide (k = c)) as [<-|]; [by rewrite decide_True, Ek|by rewrite decide_False].
    - case_decide; [subst; by rewrite Ek|done]. }
  assert (∀ c, c ∈ d1 ↔ c ∈ del ∨ c = k ∧ delete session <$> wants !! c = Some ∅) as Hd1.
  { intros c. simpl in E. destruct (wants !! k) as [ss|] eqn:Ek; injection E as <- <-.
    - destruct (decide (delete session ss = ∅)) as [Hs|Hs]; [rewrite elem_of_app, list_elem_of_singleton|].
      + split; [|naive_solver]. intros [? | ->]; [by left|]. right. split; [done|]. rewrite Ek. simpl. by rewrite Hs.
      + split; [by left|]. intros [?|[-> Hc]]; [done|]. rewrite Ek in Hc. simpl in Hc. congruence.
    - split; [by left|]. intros [?|[-> Hc]]; [done|]. by rewrite Ek in Hc. }
  assert (∀ c, delete session <$> w1 !! c = delete session <$> wants !! c) as Hidem.
  { intros c. rewrite Hw1. case_decide; [|done]. destruct (wants !! c) as [ss|]; [|done]. simpl. f_equal.
    apply map_eq. intros s. rewrite !lookup_delete. by case_decide. }
  split.
  - intros c. rewrite Hw, Hidem, Hw1. pose proof (elem_of_cons keys c k). repeat case_decide; tauto.
  - intros c. rewrite Hd, Hd1, Hidem, elem_of_cons. tauto.
Qed.

Lemma remove_interested_spec session keys (wants : Interests) :
  tidy wants →
  let '(wants', deleted) := remove_session_interested session keys wants in
  tidy wants' ∧ (∀ s c, interest_of wants' s c = interest s c (interest_of wants s c) (SimRemoveInterested session keys)) ∧
  (∀ c, c ∈ deleted ↔ is_Some (wants !! c) ∧ wants' !! c = None).
Proof.
  intros Ht. unfold remove_session_interested. destruct (foldl _ _ keys) as [w' del] eqn:E.
  apply remove_interest_fold in E as [Hw Hd].
  assert (∀ c, c ∈ del ↔ w' !! c = Some ∅) as Hdel.
  { intros c. rewrite Hd, Hw, elem_of_nil. specialize (Ht c). destruct (decide (c ∈ keys)); tauto. }
  assert (∀ c, foldl (λ m key, delete key m) w' del !! c = if decide (w' !! c = Some ∅) then None else w' !! c) as Hl.
  { intros c. rewrite delete_keys_lookup. specialize (Hdel c). repeat case_decide; tauto. }
  split_and!.
  - intros c. rewrite Hl. by case_decide.
  - intros s c. assert (interest_of (foldl (λ m key, delete key m) w' del) s c = interest_of w' s c) as ->.
    { unfold interest_of. rewrite Hl. case_decide as Hc; [|done]. rewrite Hc. simpl. by rewrite lookup_empty. }
    unfold interest_of. rewrite Hw. simpl. destruct (decide (c ∈ keys)).
    + destruct (wants !! c) as [ss|]; simpl; [|by case_decide]. rewrite lookup_delete.
      destruct (decide (session = s)); [by rewrite decide_True|by rewrite decide_False by tauto].
    + by rewrite decide_False by tauto.
  - intros c. rewrite Hdel, Hl, Hw. destruct (decide (c ∈ keys)).
    + destruct (wants !! c) as [ss|]; simpl; [|by split; [|intros [[? ?] _]]].
      destruct (decide (Some (delete session ss) = Some ∅)); split; intros; try done; try (by split; eauto); by destruct_and?.
    + specialize (Ht c). destruct (decide (wants !! c = Some ∅)); [done|].
      split; [done|]. intros [[? ?] ?]. congruence.
Qed.

Lemma sim_step_spec op wants :
  tidy wants →
  tidy (sim_step op wants).1 ∧
  (∀ s c, interest_of (sim_step op wants).1 s c = interest s c (interest_of wants s c) op) ∧
  (∀ c, c ∈ (sim_step op wants).2 → is_Some (wants !! c) ∧ (sim_step op wants).1 !! c = None) ∧
  (∀ c, (∃ session keys, op = SimRemoveSession session ∨ op = SimRemoveInterested session keys) →
     is_Some (wants !! c) → (sim_step op wants).1 !! c = None → c ∈ (sim_step op wants).2).
Proof.
  intros Ht. destruct op as [session keys|session|session keys|session keys]; cbn [sim_step fst snd].
  - destruct (record_spec session keys wants Ht) as [? Hi]. split_and!; [done|apply Hi|set_solver|].
    intros c (? & ? & [?|?]); done.
  - pose proof (remove_session_spec session wants Ht) as Hs. destruct (sim_remove_session session wants) as [w' del].
    destruct Hs as (Ht' & Hi & Hd). split_and!; [exact Ht'|apply Hi|apply Hd|]. intros c _ ? ?. by apply Hd.
  - destruct (remove_wants_spec session keys wants Ht) as [? Hi]. split_and!; [done|apply Hi|set_solver|].
    intros c (? & ? & [?|?]); done.
  - pose proof (remove_interested_spec session keys wants Ht) as Hs. destruct (remove_session_interested session keys wants) as [w' del].
    destruct Hs as (Ht' & Hi & Hd). split_and!; [exact Ht'|apply Hi|apply Hd|]. intros c _ ? ?. by apply Hd.
Qed.

Lemma sim_run_spec ops :
  let wants := foldl (λ w op, (sim_step op w).1) ∅ ops in
  tidy wants ∧ ∀ s c, interest_of wants s c = foldl (interest s c) None ops.
Proof.
  assert (tidy ∅ ∧ ∀ s c, interest_of ∅ s c = None) as [Ht Hi].
  { split; [intros c; by rewrite lookup_empty|]. intros s c. unfold interest_of. by rewrite lookup_empty. }
  simpl. cut (∀ (w : Interests), tidy w → let w' := foldl (λ w op, (sim_step op w).1) w ops in
    tidy w' ∧ ∀ s c, interest_of w' s c = foldl (interest s c) (interest_of w s c) ops).
  { intros Hc. destruct (Hc ∅ Ht) as [? Hi']. split; [done|]. intros s c. by rewrite Hi', Hi. }
  clear. induction ops as [|op ops IH]; intros w Ht; simpl; [done|].
  destruct (sim_step_spec op w Ht) as (Ht' & Hi & _). destruct (IH _ Ht') as [? Hi']. split; [done|].
  intros s c. by rewrite Hi', Hi.
Qed.

Lemma filter_interested_spec s (keys : list Cid) (wants : Interests) c :
  c ∈ filter (λ key, session_wants_key s wants key = true) keys ↔ c ∈ keys ∧ interest_of wants s c = Some true.
Proof.
  rewrite list_elem_of_filter. unfold session_wants_key, interest_of. destruct (wants !! c) as [ss|]; simpl; [|naive_solver].
  destruct (ss !! s) as [[]|]; naive_solver.
Qed.

Lemma split_wanted_spec blocks (wants : Interests) b :
  b ∈ (split_wanted_unwanted blocks wants).1 ↔ b ∈ blocks ∧ ∃ s, interest_of wants s (block_cid b) = Some true.
Proof.
  unfold split_wanted_unwanted. simpl. rewrite list_elem_of_filter. unfold wanted_keys.
  rewrite elem_of_list_to_set, list_elem_of_bind. unfold interest_of. split.
  - intros [(b' & Hin & Hb') Hb]. split; [done|]. destruct (wants !! block_cid b') as [ss|] eqn:E; [|set_solver].
    apply list_elem_of_fmap in Hin as (x & Hc & [-> (k & Hkx)%elem_of_hm_values]%list_elem_of_filter).
    exists k. rewrite Hc, E. done.
  - intros [Hb (k & Hkx)]. split; [|done]. exists b. split; [|done].
    destruct (wants !! block_cid b) as [ss|]; [|done]. simpl in Hkx.
    apply list_elem_of_fmap. exists true. split; [done|]. apply list_elem_of_filter. split; [done|].
    apply elem_of_hm_values. eauto.
Qed.

(** The interests of the sessions are exact.  After any operations, a session
    wants a block iff it asked for it and neither received nor dropped it since; a
    message concerns exactly the sessions that are still interested in one of its
    blocks; a received block counts as wanted iff some session wants it; and a
    removal returns exactly the keys that nobody is interested in anymore. *)
Theorem interests_exact ops op blocks keys s :
  let wants := foldl (λ w op, (sim_step op w).1) ∅ ops in
  let known s c := foldl (interest s c) None ops in
  let '(wants', removed) := sim_step op wants in
  (∀ c, c ∈ keys ∧ known s c = Some true ↔
        c ∈ default [] (head (filter_session_interested s [keys] wants))) ∧
  (∀ hs ds, s ∈ interested_sessions keys hs ds wants ↔
     ∃ c, (c ∈ keys ∨ c ∈ hs ∨ c ∈ ds) ∧ is_Some (known s c)) ∧
  (∀ b, b ∈ (split_wanted_unwanted blocks wants).1 ↔
     b ∈ blocks ∧ ∃ s, known s (block_cid b) = Some true) ∧
  (∀ c, c ∈ removed → (∃ s, is_Some (known s c)) ∧ ∀ s, interest s c (known s c) op = None) ∧
  (∀ c, (∃ session keys, op = SimRemoveSession session ∨ op = SimRemoveInterested session keys) →
     (∃ s, is_Some (known s c)) → (∀ s, interest s c (known s c) op = None) → c ∈ removed).
Proof.
  intros wants known. destruct (sim_run_spec ops) as [Ht Hi]. fold wants in Ht, Hi.
  destruct (sim_step_spec op wants Ht) as (Ht' & Hi' & Hr & Hr'). destruct (sim_step op wants) as [wants' removed].
  simpl in *. assert (∀ s c, interest_of wants s c = known s c) as Hk by apply Hi.
  assert (∀ w : Interests, tidy w → ∀ c, is_Some (w !! c) ↔ ∃ s, is_Some (interest_of w s c)) as Hex.
  { intros w Hw c. unfold interest_of. split; [|intros [x [b Hb]]; destruct (w !! c); [eauto|done]].
    intros [ss Hss]. destruct (map_choose ss) as (x & b & Hb); [intros ->; by apply (Hw c)|].
    exists x. rewrite Hss. simpl. rewrite Hb. eauto. }
  split_and!.
  - intros c. unfold filter_session_interested. simpl. by rewrite filter_interested_spec, Hk.
  - intros hs ds. unfold interested_sessions. rewrite elem_of_list_to_set, list_elem_of_bind.
    setoid_rewrite <-Hk. setoid_rewrite elem_of_app. setoid_rewrite elem_of_app. unfold interest_of.
    split; intros (c & Ha & Hb); exists c.
    + destruct (wants !! c) as [ss|]; [|by apply not_elem_of_nil in Ha]. by apply elem_of_hm_keys in Ha.
    + destruct (wants !! c) as [ss|]; [by rewrite elem_of_hm_keys|by destruct Hb].
  - intros b. etrans; [apply split_wanted_spec|]. by setoid_rewrite Hk.
  - intros c [Hs Hn]%Hr. split; [by apply Hex in Hs; [setoid_rewrite Hk in Hs|]|]. intros x.
    rewrite <-Hk, <-Hi'. unfold interest_of. by rewrite Hn.
  - intros c Hop Hs Hn. apply Hr'; [done| |].
    + apply Hex; [done|]. by setoid_rewrite Hk.
    + destruct (wants' !! c) eqn:E; [|done]. destruct (proj1 (Hex wants' Ht' c)) as [x Hx]; [eauto|].
      rewrite Hi', Hk, Hn in Hx. by destruct Hx.
Qed.
End interest.

(** ** The wants of a session *)

Section session_wants.
Context `{Ids} `{HashOrder}.

Inductive sw_op :=
  | SwRequested (keys : list Cid)
  | SwNextWants (now : Z)
  | SwWantsSent (now : Z) (keys : list Cid)
  | SwReceived (now : Z) (keys : list Cid)
  | SwBroadcast (now : Z)
  | SwCancel (keys : list Cid).

(** The new state, and the keys that are returned *)
Definition sw_step (op : sw_op) (w : SessionWants) : SessionWants * list Cid :=
  match op with
  | SwRequested keys => (blocks_requested keys w, [])
  | SwNextWants now => let '(w, live) := get_next_wants now w in (w, hs_iter live)
  | SwWantsSent now keys => (wants_sent now keys w, [])
  | SwReceived now keys => let '(w, wanted, _) := blocks_received now keys w in (w, wanted)
  | SwBroadcast now => let '(w, live) := prepare_broadcast now w in (w, hs_iter live)
  | SwCancel keys => (sw_cancel_pending keys w, [])
  end.

Definition live (w : SessionWants) (c : Cid) : Prop := is_Some (live_wants w !! c).
Definition wanted (w : SessionWants) (c : Cid) : Prop := live w c ∨ c ∈ cq_set (to_fetch w).

(** A live want has its place in the order, and a want that is not live waits in
    the queue. *)
Record sw_wf (w : SessionWants) : Prop := {
  sw_order c : live w c → c ∈ live_wants_order w;
  sw_queue c : c ∈ cq_set (to_fetch w) → live w c ∨ c ∈ cq_elements (to_fetch w)
}.

Lemma is_wanted_spec c w : is_wanted c w = true ↔ wanted w c.
Proof.
  unfold is_wanted, wanted, live, cq_has. destruct (live_wants w !! c); [naive_solver|].
  rewrite bool_decide_eq_true, is_Some_alt. naive_solver.
Qed.

(** The order is never shorter than the live wants. *)
Lemma sw_order_length w : sw_wf w → (size (live_wants w) ≤ length (live_wants_order w))%nat.
Proof.
  intros Hw. assert (dom (live_wants w) ⊆ (list_to_set (live_wants_order w) : gset Cid)) as Hs.
  { intros c. rewrite elem_of_dom, elem_of_list_to_set. apply Hw. }
  apply subseteq_size in Hs. rewrite size_dom in Hs. etrans; [exact Hs|]. clear.
  induction (live_wants_order w) as [|c l IH]; [done|]. rewrite list_to_set_cons. cbn [length].
  rewrite size_union_alt. rewrite size_singleton.
  assert (size (list_to_set l ∖ {[c]} : gset Cid) ≤ size (list_to_set l : gset Cid))%nat
    by (apply subseteq_size; set_solver). lia.
Qed.

Lemma push_fold keys q :
  let q' := foldl (λ q cid, cq_push cid q) q keys in
  (∀ c, c ∈ cq_set q' ↔ c ∈ cq_set q ∨ c ∈ keys) ∧
  (∀ c, c ∈ cq_elements q' ↔ c ∈ cq_elements q ∨ c ∈ keys ∧ c ∉ cq_set q).
Proof.
  revert q. induction keys as [|k keys IH]; intros q; simpl; [set_solver|].
  destruct (IH (cq_push k q)) as [Hs He]. unfold cq_push in *. case_decide; simpl in *; split; intros c;
    rewrite ?Hs, ?He; destruct (decide (c = k)) as [->|]; set_solver.
Qed.

Lemma remove_fold keys q :
  let q' := foldl (λ q key, cq_remove key q) q keys in
  (∀ c, c ∈ cq_set q' ↔ c ∈ cq_set q ∧ c ∉ keys) ∧ cq_elements q' = cq_elements q.
Proof.
  revert q. induction keys as [|k keys IH]; intros q; simpl; [set_solver|].
  destruct (IH (cq_remove k q)) as [Hs He]. split; [|done]. intros c. rewrite Hs. simpl. set_solver.
Qed.

Lemma pop_spec set l l' o :
  pop_elements set l = (l', o) →
  (length l' ≤ length l)%nat ∧
  match o with
  | Some c => c ∈ set ∧ (length l' < length l)%nat ∧ ∀ x, x ∈ set → x ∈ l → x = c ∨ x ∈ l'
  | None => l' = [] ∧ ∀ x, x ∈ set → x ∉ l
  end.
Proof.
  induction l as [|x l IH]; simpl; [intros [= <- <-]; set_solver|]. case_decide.
  - intros [= <- <-]. set_solver.
  - intros Hp. destruct (IH Hp) as [Hl Ho]. split; [lia|]. destruct o; [|set_solver].
    destruct Ho as (? & ? & Hx). split_and!; [done|lia|]. intros y Hy [->|?]%elem_of_cons; [done|auto].
Qed.

(** Making a want live that is in the set *)
Lemma make_live_spec now c q w :
  sw_wf w → cq_set q ⊆ cq_set (to_fetch w) →
  (∀ x, x ∈ cq_set q → x ∈ cq_elements (to_fetch w) → x = c ∨ x ∈ cq_elements q) →
  (∀ x, x ∈ cq_set (to_fetch w) → x = c ∨ x ∈ cq_set q) → c ∈ cq_set (to_fetch w) →
  sw_wf (make_live now c q w) ∧ (∀ x, live (make_live now c q w) x ↔ live w x ∨ x = c) ∧
  (∀ x, wanted (make_live now c q w) x ↔ wanted w x).
Proof.
  intros [Ho Hq] Hsub Hel Hset Hc.
  assert (∀ x, live (make_live now c q w) x ↔ live w x ∨ x = c) as Hl.
  { intros x. unfold live. simpl. rewrite lookup_insert. case_decide; [subst|]; naive_solver. }
  split_and!; [split|done|].
  - intros x. rewrite Hl. simpl. rewrite elem_of_app. intros [?| ->]; [left; by apply Ho|right; by left].
  - intros x. simpl. rewrite Hl. intros Hx. destruct (Hq x) as [?|Hin]; [set_solver|tauto|].
    destruct (Hel x Hx Hin); tauto.
  - intros x. unfold wanted. rewrite Hl. simpl. specialize (Hset x). set_solver.
Qed.

(** [get_next_wants] *)
Lemma next_wants_spec fuel now n w res w' res' :
  (length (cq_elements (to_fetch w)) < fuel)%nat → sw_wf w →
  next_wants fuel now n w res = (w', res') →
  sw_wf w' ∧ (∀ c, wanted w' c ↔ wanted w c) ∧ broadcast_limit w' = broadcast_limit w ∧
  (∃ new : gset Cid, res' = new ∪ res ∧ (∀ c, live w' c ↔ live w c ∨ c ∈ new) ∧
     Z.of_nat (size new) ≤ Z.max 0 n) ∧
  ((∀ c, wanted w' c → live w' c) ∨
   Z.of_nat (length (live_wants_order w')) = Z.of_nat (length (live_wants_order w)) + Z.max 0 n).
Proof.
  revert n w res. induction fuel as [|fuel IH]; intros n w res Hlen Hw; simpl; [lia|].
  destruct (Z.leb_spec n 0) as [Hn|Hn].
  { intros [= <- <-]. split_and!; [done..| |right; lia]. exists ∅. split_and!; [set_solver|set_solver|]. rewrite size_empty. lia. }
  destruct (cq_pop (to_fetch w)) as [q o] eqn:Ep. unfold cq_pop in Ep.
  destruct (pop_elements _ _) as [l' o'] eqn:Epp. injection Ep as <- <-. apply pop_spec in Epp as [Hll Ho'].
  destruct o' as [c|].
  - destruct Ho' as (Hc & Hlt & Hel). set (q := {| cq_elements := l'; cq_set := cq_set (to_fetch w) |}).
    destruct (make_live_spec now c q w) as (Hw1 & Hl1 & Hwt1); [done|done|by apply Hel|naive_solver|done|].
    intros (Hw2 & Hwt2 & Hb2 & (new & Hres & Hl2 & Hsz) & Hor)%IH; [|simpl; lia|done].
    split_and!; [done|intros x; by rewrite Hwt2|done| |].
    + exists ({[c]} ∪ new). split_and!; [set_solver|intros x; rewrite Hl2, Hl1; set_solver|].
      rewrite size_union_alt, size_singleton. assert (size (new ∖ {[c]}) ≤ size new)%nat
        by (apply subseteq_size; set_solver). lia.
    + destruct Hor as [?|Hor]; [by left|]. right. rewrite Hor. simpl. rewrite length_app. simpl. lia.
  - destruct Ho' as [-> Hel]. intros [= <- <-]. assert (∀ x, live (sw_with_fetch {| cq_elements := []; cq_set := cq_set (to_fetch w) |} w) x ↔ live w x) as Hl by done.
    assert (∀ x, x ∈ cq_set (to_fetch w) → live w x) as Hall.
    { intros x Hx. destruct (sw_queue _ Hw x Hx); [done|]. by destruct (Hel x Hx). }
    split_and!; [split; simpl; [apply Hw|intros; left; by apply Hall]|done|done| |].
    + exists ∅. rewrite size_empty. split_and!; [set_solver|set_solver|lia].
    + left. intros c [?|Hc]; [done|]. by apply Hall.
Qed.

Lemma wants_sent_spec now keys w :
  sw_wf w → let w' := wants_sent now keys w in
  sw_wf w' ∧ (∀ c, wanted w' c ↔ wanted w c) ∧ broadcast_limit w' = broadcast_limit w ∧
  (∀ c, live w' c ↔ live w c ∨ c ∈ keys ∧ wanted w c).
Proof.
  unfold wants_sent. revert w. induction keys as [|k keys IH]; intros w Hw; cbn [foldl].
  { split_and!; try done. intros c. rewrite elem_of_nil. tauto. }
  assert (sw_wf (want_sent now w k) ∧ (∀ c, wanted (want_sent now w k) c ↔ wanted w c) ∧
    broadcast_limit (want_sent now w k) = broadcast_limit w ∧
    (∀ c, live (want_sent now w k) c ↔ live w c ∨ c = k ∧ wanted w c)) as (Hw1 & Hwt1 & Hb1 & Hl1).
  { unfold want_sent, cq_has. destruct (decide _) as [[Hn Hk%bool_decide_eq_true]|Hd].
    - destruct (make_live_spec now k (cq_remove k (to_fetch w)) w) as (? & Hl & ?); simpl;
        [done|set_solver|tauto|intros x; destruct (decide (x = k)); set_solver|done|].
      split_and!; try done. intros c. rewrite Hl. unfold wanted. naive_solver.
    - rewrite bool_decide_eq_true in Hd. split_and!; try done. intros c. split; [tauto|]. intros [?|[-> [?|Hk]]]; [done..|].
      destruct (decide (live_wants w !! k = None)) as [Hn|Hn]; [tauto|]. unfold live.
      destruct (live_wants w !! k); [eauto|done]. }
  destruct (IH _ Hw1) as (Hw2 & Hwt2 & Hb2 & Hl2). split_and!; [done|intros c; by rewrite Hwt2|congruence|].
  intros c. rewrite Hl2, Hl1, Hwt1, elem_of_cons. tauto.
Qed.

Lemma block_received_fold now keys w ret lat w' ret' lat' :
  sw_wf w → foldl (block_received now) (w, ret, lat) keys = (w', ret', lat') →
  sw_wf w' ∧ broadcast_limit w' = broadcast_limit w ∧
  (∀ c, live w' c ↔ live w c ∧ c ∉ keys) ∧ (∀ c, wanted w' c ↔ wanted w c ∧ c ∉ keys) ∧
  (∀ c, c ∈ ret' ↔ c ∈ ret ∨ c ∈ keys ∧ wanted w c) ∧
  (NoDup ret → (∀ c, c ∈ ret → ¬ wanted w c) → NoDup ret').
Proof.
  revert w ret lat. induction keys as [|k keys IH]; intros w ret lat Hw; cbn [foldl].
  { intros [= <- <- <-]. split_and!; try done; intros c; rewrite elem_of_nil; tauto. }
  unfold block_received at 2. destruct (is_wanted k w) eqn:Ek.
  - apply is_wanted_spec in Ek.
    match goal with |- foldl _ (?w1, _, _) _ = _ → _ => set (w1' := w1) end.
    assert (∀ c, live w1' c ↔ live w c ∧ c ≠ k) as Hl1.
    { intros c. unfold live, w1'. simpl. rewrite lookup_delete. case_decide; [subst|]; rewrite ?is_Some_alt; naive_solver. }
    assert (∀ c, wanted w1' c ↔ wanted w c ∧ c ≠ k) as Hw1.
    { intros c. unfold wanted. rewrite Hl1. unfold w1'. simpl. rewrite elem_of_difference, elem_of_singleton. tauto. }
    intros (Hwf & Hb & Hl & Hwt & Hr & Hnd)%IH.
    2:{ destruct Hw as [Ho Hq]. split; [intros c [? ?]%Hl1; by apply Ho|]. intros c. rewrite Hl1. unfold w1'. simpl.
        rewrite elem_of_difference, elem_of_singleton. intros [Hc ?]. destruct (Hq c Hc); tauto. }
    split_and!; [done|done|intros c; rewrite Hl, Hl1, not_elem_of_cons; tauto
      |intros c; rewrite Hwt, Hw1, not_elem_of_cons; tauto| |].
    + intros c. rewrite Hr, Hw1, elem_of_app, list_elem_of_singleton, elem_of_cons.
      destruct (decide (c = k)) as [->|]; tauto.
    + intros Hn Hret. apply Hnd.
      * apply NoDup_app. split_and!; [done| |apply NoDup_singleton]. intros c Hc ->%list_elem_of_singleton.
        by apply (Hret k).
      * intros c. rewrite Hw1, elem_of_app, list_elem_of_singleton. intros [Hc| ->]; [|tauto].
        specialize (Hret c Hc). tauto.
  - intros (Hwf & Hb & Hl & Hwt & Hr & Hnd)%IH; [|done].
    assert (¬ wanted w k) as Hnw by (rewrite <-is_wanted_spec, Ek; done).
    assert (¬ live w k) as Hnl by (unfold wanted in Hnw; tauto).
    split_and!; [done|done|intros c; rewrite Hl, not_elem_of_cons; destruct (decide (c = k)) as [->|]; tauto
      |intros c; rewrite Hwt, not_elem_of_cons; destruct (decide (c = k)) as [->|]; tauto| |done].
    intros c. rewrite Hr, elem_of_cons. destruct (decide (c = k)) as [->|]; tauto.
Qed.

Lemma blocks_received_spec now keys w w' ret lat :
  sw_wf w → blocks_received now keys w = (w', ret, lat) →
  sw_wf w' ∧ broadcast_limit w' = broadcast_limit w ∧
  (∀ c, live w' c ↔ live w c ∧ c ∉ keys) ∧ (∀ c, wanted w' c ↔ wanted w c ∧ c ∉ keys) ∧
  (∀ c, c ∈ ret ↔ c ∈ keys ∧ wanted w c) ∧ NoDup ret.
Proof.
  intros Hw. unfold blocks_received. destruct (foldl _ _ keys) as [[w1 ret1] lat1] eqn:E.
  apply block_received_fold in E as (Hw1 & Hb & Hl & Hwt & Hr & Hnd); [|done]. intros [= <- <- <-].
  assert (NoDup ret1) by (apply Hnd; [constructor|set_solver]).
  assert (∀ c, c ∈ ret1 ↔ c ∈ keys ∧ wanted w c) as Hret by (intros c; rewrite Hr, elem_of_nil; tauto).
  case_match; [|done]. split_and!; try done. split; simpl; [|apply Hw1].
  intros c Hc. apply list_elem_of_filter. split; [done|]. by apply Hw1.
Qed.

Lemma broadcast_loop_spec now limit order lw res lw' res' :
  broadcast_loop now limit order lw res = (lw', res') →
  (Z.of_nat (size res) < limit) → (∀ c, c ∈ res → is_Some (lw !! c)) →
  dom lw' = dom lw ∧ res ⊆ res' ∧ Z.of_nat (size res') ≤ limit ∧ (∀ c, c ∈ res' → is_Some (lw !! c)) ∧
  (Z.of_nat (size res') = limit ∨ ∀ c, c ∈ order → is_Some (lw !! c) → c ∈ res').
Proof.
  revert lw res. induction order as [|k order IH]; intros lw res; simpl.
  { intros [= <- <-] Hs Hr. split_and!; try done; [lia|]. right. set_solver. }
  destruct (lw !! k) as [t|] eqn:Ek.
  - assert (∀ c, is_Some (<[k:=now]> lw !! c) ↔ is_Some (lw !! c)) as Hdom.
    { intros c. rewrite lookup_insert. case_decide; [subst; rewrite Ek|]; naive_solver. }
    assert (dom (<[k:=now]> lw) = dom lw) as Hd by (rewrite dom_insert_L; apply elem_of_dom_2 in Ek; set_solver).
    assert (size ({[k]} ∪ res) ≤ S (size res))%nat as Hsz.
    { rewrite size_union_alt, size_singleton.
      assert (size (res ∖ {[k]}) ≤ size res)%nat by (apply subseteq_size; set_solver). lia. }
    assert (∀ c, c ∈ {[k]} ∪ res → c = k ∨ c ∈ res) as Hin by set_solver.
    destruct (Z.eqb_spec (Z.of_nat (size ({[k]} ∪ res))) limit) as [He|He].
    + intros [= <- <-] Hs Hr. split_and!; [done|set_solver|lia| |by left].
      intros c [-> |?]%Hin; [by rewrite Ek|auto].
    + intros Hf Hs Hr. destruct (IH _ _ Hf) as (Hd' & Hsub & Hle & Hall & Hor); [lia| |].
      { intros c Hc. apply Hdom. destruct (Hin c Hc) as [-> |?]; [by rewrite Ek|auto]. }
      split_and!; [congruence|set_solver|done|intros c Hc; apply Hdom; auto|].
      destruct Hor as [?|Hor]; [by left|]. right. intros c [-> |Hc]%elem_of_cons Hsome; [set_solver|].
      apply Hor; [done|]. by apply Hdom.
  - intros Hf Hs Hr. destruct (IH _ _ Hf Hs Hr) as (Hd' & Hsub & Hle & Hall & Hor). split_and!; try done.
    destruct Hor as [?|Hor]; [by left|]. right. intros c [-> |Hc]%elem_of_cons Hsome; [|auto].
    rewrite Ek in Hsome. by destruct Hsome.
Qed.

Lemma prepare_broadcast_spec now w w' res :
  sw_wf w → 0 < broadcast_limit w → prepare_broadcast now w = (w', res) →
  sw_wf w' ∧ broadcast_limit w' = broadcast_limit w ∧
  (∀ c, live w' c ↔ live w c) ∧ (∀ c, wanted w' c ↔ wanted w c) ∧
  (∀ c, c ∈ res → live w c) ∧ Z.of_nat (size res) ≤ broadcast_limit w ∧
  (Z.of_nat (size res) = broadcast_limit w ∨ ∀ c, live w c → c ∈ res).
Proof.
  intros Hw Hb. unfold prepare_broadcast. destruct (broadcast_loop _ _ _ _ _) as [lw l] eqn:E. intros [= <- <-].
  apply broadcast_loop_spec in E as (Hd & _ & Hle & Hall & Hor); [|rewrite size_empty; lia|set_solver].
  assert (∀ c, is_Some (lw !! c) ↔ live w c) as Hl.
  { intros c. unfold live. rewrite <-!elem_of_dom. by rewrite Hd. }
  split_and!; [|done|done| |done|done|].
  - destruct Hw as [Ho Hq]. split; simpl; [intros c Hc; apply Ho; by apply Hl|]. intros c Hc. unfold live. simpl.
    rewrite Hl. by apply Hq.
  - intros c. unfold wanted, live at 1. simpl. by rewrite Hl.
  - destruct Hor as [?|Hor]; [by left|]. right. intros c Hc. apply Hor; [by apply Hw|done].
Qed.

Lemma sw_step_spec op w :
  sw_wf w → 0 < broadcast_limit w →
  let '(w', ret) := sw_step op w in
  sw_wf w' ∧ broadcast_limit w' = broadcast_limit w ∧
  match op with
  | SwRequested keys =>
      (∀ c, live w' c ↔ live w c) ∧ (∀ c, wanted w' c ↔ wanted w c ∨ c ∈ keys)
  | SwNextWants _ =>
      let room := Int.usize_sub (broadcast_limit w) (Z.of_nat (size (live_wants w))) in
      (∀ c, live w' c ↔ live w c ∨ c ∈ ret) ∧ (∀ c, wanted w' c ↔ wanted w c) ∧
      Z.of_nat (length ret) ≤ room ∧
      ((∀ c, wanted w' c → live w' c) ∨
       Z.of_nat (length (live_wants_order w')) = Z.of_nat (length (live_wants_order w)) + room)
  | SwWantsSent _ keys =>
      (∀ c, live w' c ↔ live w c ∨ c ∈ keys ∧ wanted w c) ∧ (∀ c, wanted w' c ↔ wanted w c)
  | SwReceived _ keys =>
      (∀ c, live w' c ↔ live w c ∧ c ∉ keys) ∧ (∀ c, wanted w' c ↔ wanted w c ∧ c ∉ keys) ∧
      (∀ c, c ∈ ret ↔ c ∈ keys ∧ wanted w c) ∧ NoDup ret
  | SwBroadcast _ =>
      (∀ c, live w' c ↔ live w c) ∧ (∀ c, wanted w' c ↔ wanted w c) ∧ (∀ c, c ∈ ret → live w c) ∧
      Z.of_nat (length ret) ≤ broadcast_limit w ∧
      (Z.of_nat (length ret) = broadcast_limit w ∨ ∀ c, live w c → c ∈ ret)
  | SwCancel keys =>
      (∀ c, live w' c ↔ live w c) ∧ (∀ c, wanted w' c ↔ live w c ∨ wanted w c ∧ c ∉ keys)
  end.
Proof.
  intros Hw Hb. destruct op as [keys|now|now keys|now keys|now|keys]; simpl.
  - destruct (push_fold keys (to_fetch w)) as [Hs He]. split_and!; [|done|done|].
    + split; simpl; [apply Hw|]. intros c Hc. rewrite He. apply Hs in Hc.
      destruct (decide (c ∈ cq_set (to_fetch w))) as [Hin|Hin]; [destruct (sw_queue _ Hw c Hin); tauto|tauto].
    + intros c. unfold wanted. simpl. rewrite Hs. unfold live. simpl. tauto.
  - destruct (get_next_wants now w) as [w' res] eqn:E. unfold get_next_wants in E.
    assert (0 ≤ Int.usize_sub (broadcast_limit w) (Z.of_nat (size (live_wants w)))) as Hroom
      by (apply (Int.wrap_range 64); lia).
    apply next_wants_spec in E as (Hw' & Hwt & Hb' & (new & Hres & Hl & Hsz) & Hor); [|lia|done].
    rewrite Z.max_r in Hsz, Hor by done. assert (res = new) as -> by set_solver.
    split_and!; [done|done|intros c; by rewrite elem_of_hs_iter|done| |done].
    by rewrite length_hs_iter.
  - destruct (wants_sent_spec now keys w Hw) as (? & ? & ? & ?). done.
  - destruct (blocks_received now keys w) as [[w' ret] lat] eqn:E.
    apply blocks_received_spec in E as (? & ? & ? & ? & ? & ?); done.
  - destruct (prepare_broadcast now w) as [w' res] eqn:E.
    apply prepare_broadcast_spec in E as (? & ? & ? & ? & Hr & ? & Hor); [|done|done].
    rewrite length_hs_iter.
    split_and!; [done..|intros c Hc; apply Hr; by apply elem_of_hs_iter|done|].
    destruct Hor as [?|Hor]; [by left|]. right. intros c Hc. apply elem_of_hs_iter. by apply Hor.
  - destruct (remove_fold keys (to_fetch w)) as [Hs He]. split_and!; [|done|done|].
    + split; simpl; [apply Hw|]. intros c Hc. rewrite He. apply Hs in Hc as [Hc _]. by apply Hw.
    + intros c. unfold wanted. simpl. rewrite Hs. unfold live. simpl. tauto.
Qed.

(** A session loses no want.  After any operations and for any next one: what the
    client requested is wanted until it is received or cancelled before it was sent;
    a broadcast and the next wants contain only wanted blocks and stay within the
    limit; of the received blocks exactly the wanted ones are reported, each once; and
    the list of live wants never falls behind the map, so that the difference of
    their lengths does not underflow. *)
Theorem session_wants_track limit ops op :
  0 < limit →
  let w := foldl (λ w op, (sw_step op w).1) (SessionWants_new limit) ops in
  let '(w', ret) := sw_step op w in
  (size (live_wants w) ≤ length (live_wants_order w))%nat ∧
  match op with
  | SwRequested keys => ∀ c, is_wanted c w' = true ↔ is_wanted c w = true ∨ c ∈ keys
  | SwNextWants _ =>
      (∀ c, is_wanted c w' = is_wanted c w) ∧ (∀ c, live w' c ↔ live w c ∨ c ∈ ret) ∧
      (∀ c, c ∈ ret → is_wanted c w = true) ∧
      Z.of_nat (length ret) ≤ Int.usize_sub limit (Z.of_nat (size (live_wants w))) ∧
      ((∀ c, is_wanted c w' = true → live w' c) ∨
       Z.of_nat (length (live_wants_order w'))
       = Z.of_nat (length (live_wants_order w)) + Int.usize_sub limit (Z.of_nat (size (live_wants w))))
  | SwWantsSent _ keys =>
      (∀ c, is_wanted c w' = is_wanted c w) ∧ (∀ c, live w' c ↔ live w c ∨ c ∈ keys ∧ is_wanted c w = true)
  | SwReceived _ keys =>
      (∀ c, is_wanted c w' = true ↔ is_wanted c w = true ∧ c ∉ keys) ∧
      (∀ c, c ∈ ret ↔ c ∈ keys ∧ is_wanted c w = true) ∧ NoDup ret
  | SwBroadcast _ =>
      (∀ c, is_wanted c w' = is_wanted c w) ∧ (∀ c, c ∈ ret → live w c) ∧ Z.of_nat (length ret) ≤ limit ∧
      (Z.of_nat (length ret) = limit ∨ ∀ c, live w c → c ∈ ret)
  | SwCancel keys => ∀ c, is_wanted c w' = true ↔ live w c ∨ is_wanted c w = true ∧ c ∉ keys
  end.
Proof.
  intros Hlim w. assert (sw_wf w ∧ broadcast_limit w = limit) as [Hw Hb].
  { unfold w. apply foldl_invariant.
    - intros w0 op0 _ [Hw0 Hb0]. pose proof (sw_step_spec op0 w0 Hw0) as Hs. rewrite Hb0 in Hs.
      destruct (sw_step op0 w0) as [w1 r1]. destruct (Hs Hlim) as (? & ? & _). done.
    - split; [|done]. split; simpl; [|set_solver]. intros c [? Hc]. simpl in Hc. by rewrite lookup_empty in Hc. }
  pose proof (sw_step_spec op w Hw) as Hs. rewrite Hb in Hs. specialize (Hs Hlim).
  destruct (sw_step op w) as [w' ret]. destruct Hs as (Hw' & Hb' & Hop).
  split; [by apply sw_order_length|].
  assert ((∀ c, wanted w' c ↔ wanted w c) → ∀ c, is_wanted c w' = is_wanted c w) as Hsame.
  { intros Heq c. apply eq_bool_prop_intro. rewrite !Is_true_true, !is_wanted_spec. apply Heq. }
  destruct op as [keys|now|now keys|now keys|now|keys]; simpl in Hop; rewrite ?Hb in Hop.
  - destruct Hop as [_ Hwt]. intros c. by rewrite !is_wanted_spec.
  - destruct Hop as (Hl & Hwt & Hlen & Hor). split_and!; [auto|done| |done|].
    + intros c Hc. apply is_wanted_spec, Hwt. left. apply Hl. by right.
    + destruct Hor as [Hor|?]; [|by right]. left. intros c ?%is_wanted_spec. by apply Hor.
  - destruct Hop as [Hl Hwt]. split; [auto|]. intros c. by rewrite is_wanted_spec.
  - destruct Hop as (Hl & Hwt & Hr & Hnd). split_and!; [intros c; by rewrite !is_wanted_spec
      |intros c; by rewrite is_wanted_spec|done].
  - destruct Hop as (Hl & Hwt & Hr & Hlen & Hor). split_and!; auto.
  - destruct Hop as [_ Hwt]. intros c. by rewrite !is_wanted_spec.
Qed.
End session_wants.

(** ** Witnesses *)

Module TrackersWitness.
Import Toy.

Definition p1 : @PeerId ids := 1%nat.

Lemma presence_exact_witness :
  [2] ∈ all_peers_do_not_have_block [p1] [[2]; [3]] (foldl bpm_step ∅ [BpmReceive p1 [[3]] [[2]; [3]]]).
Proof.
  apply (presence_exact [BpmReceive p1 [[3]] [[2]; [3]]] p1 [2] [p1] [[2]; [3]]); [discriminate|].
  split; [by left|]. intros p ->%list_elem_of_singleton. vm_compute. reflexivity.
Defined.

Definition k1 : @Cid ids := [1].
Definition k2 : @Cid ids := [2].

Lemma session_wants_track_witness :
  is_wanted k1 (sw_step (SwReceived 5 [k2])
    (sw_step (SwNextWants 3) (sw_step (SwRequested [k1; k2]) (SessionWants_new 64)).1).1).1 = true.
Proof.
  destruct (session_wants_track 64 [SwRequested [k1; k2]; SwNextWants 3] (SwReceived 5 [k2])) as (_ & Hw & _); [lia|].
  apply (Hw k1). split; [vm_compute; reflexivity|]. intros ?%list_elem_of_singleton. discriminate.
Defined.

(** [pop] leaves the CID in the set, so that it can be returned twice. *)
Lemma cq_pop_twice :
  let q := cq_push k1 (cq_remove k1 (cq_push k1 CidQueue_default)) in
  (cq_pop q).2 = Some k1 ∧ (cq_pop (cq_pop q).1).2 = Some k1.
Proof. vm_compute. split; reflexivity. Qed.
End TrackersWitness.
