(* ===== verification/Managers.v ===== *)
(** * The managers that sessions share

    The state behind the peer manager, the session interest manager and the block
    presence manager of [iroh-bitswap/src/client], and the operations of
    [session_manager.rs] that cancel wants in all three. *)

From stdpp Require Import prelude gmap fin_maps.
From Stdlib Require Import ZArith Lia.
From S2P Require Import Prelude Cids Message Wantlist MessageQueue PeerWants PeerManager ClientTrackers.

Section managers.
Context `{Ids} `{HashOrder}.

Record Managers := {
  mg_sim : Interests;
  mg_bpm : Presence;
  mg_pm : PeerManagerActor
}.

Definition mg_with_pm (pm : PeerManagerActor) (mg : Managers) : Managers :=
  {| mg_sim := mg_sim mg; mg_bpm := mg_bpm mg; mg_pm := pm |}.
Definition mg_with_sim (sim : Interests) (mg : Managers) : Managers :=
  {| mg_sim := sim; mg_bpm := mg_bpm mg; mg_pm := mg_pm mg |}.

(** [cancel_wants] *)
Definition cancel_wants (wants : list Cid) (mg : Managers) : Managers :=
  {| mg_sim := mg_sim mg; mg_bpm := bpm_remove_keys wants (mg_bpm mg);
     mg_pm := pm_send_cancels wants (mg_pm mg) |}.

(** [cancel_session_wants] *)
Definition cancel_session_wants (session_id : Z) (wants : list Cid) (mg : Managers) : Managers :=
  let '(sim, cancels) := remove_session_interested session_id wants (mg_sim mg) in
  cancel_wants cancels (mg_with_sim sim mg).
End managers.
