(* ===== verification/WantSender.v ===== *)
(** * The want sender of a session

    Models [iroh-bitswap/src/client/session/session_want_sender.rs]: it sends one
    optimistic want-block for each want and want-haves to the other peers of the
    session.  [on_change] is one step over its own state and the managers that the
    sessions share.  Random numbers come from an oracle that is asked once for each
    draw.  What it tells the session is its output. *)

From stdpp Require Import prelude gmap fin_maps.
From Stdlib Require Import ZArith Lia.
From S2P Require Import Prelude Cids Message Wantlist MessageQueue PeerWants PeerManager ClientTrackers Managers.
Local Open Scope Z_scope.

Definition CHANGES_BUFFER_SIZE : nat := 128.
Definition PEER_DONT_HAVE_LIMIT : Z := 16.

(** The capacity of the channel of changes *)
Definition CHANGES_CAPACITY : nat := 64.

(** [enum BlockPresence] of the want sender, with its order *)
Inductive WantPresence := BpDontHave | BpUnknown | BpHave.

#[global] Instance WantPresence_eq_dec : EqDecision WantPresence.
Proof. solve_decision. Defined.

Definition bp_rank (b : WantPresence) : Z :=
  match b with BpDontHave => 0 | BpUnknown => 1 | BpHave => 2 end.

Section want_sender.
Context `{Ids} `{HashOrder}.

(** The outcome of the [n]th random draw: whether the share [counted] of [total]
    exceeds it. *)
Variable draw : nat → Z → Z → bool.

Record Update := {
  up_from : PeerId;
  up_keys : list Cid;
  up_haves : list Cid;
  up_dont_haves : list Cid
}.

Inductive Change :=
  | ChangeAdd (cids : list Cid)
  | ChangeCancel (cids : list Cid)
  | ChangeUpdate (u : Update)
  | ChangeAvailability (target : PeerId) (is_available : bool).

Record WantInfo := {
  wi_presence : gmap PeerId WantPresence;
  wi_sent_to : option PeerId;
  wi_best_peer : option PeerId;
  wi_exhausted : bool
}.

Definition WantInfo_new : WantInfo :=
  {| wi_presence := ∅; wi_sent_to := None; wi_best_peer := None; wi_exhausted := false |}.

(** ** The best peer *)

Definition best_step (st : WantPresence * option PeerId * nat) (e : PeerId * WantPresence)
    : WantPresence * option PeerId * nat :=
  let '(best_bp, best_peer, count) := st in
  let '(peer, bp) := e in
  match Z.compare (bp_rank bp) (bp_rank best_bp) with
  | Gt => (bp, Some peer, 1%nat)
  | Eq => (best_bp, best_peer, S count)
  | Lt => st
  end.

(** [calculate_best_peer]; the number of draws so far is threaded through. *)
Definition calculate_best_peer (responses : Responses) (draws : nat) (wi : WantInfo) : WantInfo * nat :=
  let '(best_bp, best_peer, count) := foldl best_step (BpDontHave, None, 0%nat) (hm_iter (wi_presence wi)) in
  let with_best p := {| wi_presence := wi_presence wi; wi_sent_to := wi_sent_to wi; wi_best_peer := p;
                        wi_exhausted := wi_exhausted wi |} in
  match best_peer with
  | None => (with_best None, draws)
  | Some _ =>
      if (count <=? 1)%nat then (with_best best_peer, draws)
      else
        let peers := (filter (λ e, e.2 = best_bp) (hm_iter (wi_presence wi))).*1 in
        (with_best (choose (draw draws) peers responses), S draws)
  end.

Definition set_peer_block_presence (responses : Responses) (peer : PeerId) (bp : WantPresence) (draws : nat)
    (wi : WantInfo) : WantInfo * nat :=
  let wi := {| wi_presence := <[peer := bp]> (wi_presence wi); wi_sent_to := wi_sent_to wi;
               wi_best_peer := wi_best_peer wi; wi_exhausted := wi_exhausted wi |} in
  let '(wi, draws) := calculate_best_peer responses draws wi in
  ({| wi_presence := wi_presence wi; wi_sent_to := wi_sent_to wi; wi_best_peer := wi_best_peer wi;
      wi_exhausted := if decide (bp = BpHave) then false else wi_exhausted wi |}, draws).

Definition presence_info (bpm : Presence) (cid : Cid) (peer : PeerId) : WantPresence :=
  if peer_has_block peer cid bpm then BpHave
  else if peer_does_not_have_block peer cid bpm then BpDontHave
  else BpUnknown.
Definition update_want_block_presence (bpm : Presence) (responses : Responses) (cid : Cid) (peer : PeerId)
    (draws : nat) (wi : WantInfo) : WantInfo * nat :=
  set_peer_block_presence responses peer (presence_info bpm cid peer) draws wi.

(** [WantInfo::remove_peer] *)
Definition wi_remove_peer (responses : Responses) (peer : PeerId) (draws : nat) (wi : WantInfo) : WantInfo * nat :=
  calculate_best_peer responses draws
    {| wi_presence := delete peer (wi_presence wi);
       wi_sent_to := if decide (wi_sent_to wi = Some peer) then None else wi_sent_to wi;
       wi_best_peer := wi_best_peer wi; wi_exhausted := wi_exhausted wi |}.

(** ** The state *)

Record LoopState := {
  ls_id : Z;
  ls_changes : list Change;
  ls_wants : gmap Cid WantInfo;
  ls_dont_haves : gmap PeerId Z;
  ls_sent : SentWantBlocks;
  ls_responses : Responses;
  ls_draws : nat
}.

Definition LoopState_new (id : Z) : LoopState :=
  {| ls_id := id; ls_changes := []; ls_wants := ∅; ls_dont_haves := ∅; ls_sent := ∅; ls_responses := ∅;
     ls_draws := 0 |}.

Definition ls_with_changes (l : list Change) (s : LoopState) : LoopState :=
  {| ls_id := ls_id s; ls_changes := l; ls_wants := ls_wants s; ls_dont_haves := ls_dont_haves s;
     ls_sent := ls_sent s; ls_responses := ls_responses s; ls_draws := ls_draws s |}.
Definition ls_with_wants (w : gmap Cid WantInfo) (draws : nat) (s : LoopState) : LoopState :=
  {| ls_id := ls_id s; ls_changes := ls_changes s; ls_wants := w; ls_dont_haves := ls_dont_haves s;
     ls_sent := ls_sent s; ls_responses := ls_responses s; ls_draws := draws |}.
Definition ls_with_dont_haves (d : gmap PeerId Z) (s : LoopState) : LoopState :=
  {| ls_id := ls_id s; ls_changes := ls_changes s; ls_wants := ls_wants s; ls_dont_haves := d;
     ls_sent := ls_sent s; ls_responses := ls_responses s; ls_draws := ls_draws s |}.
Definition ls_with_sent (t : SentWantBlocks) (s : LoopState) : LoopState :=
  {| ls_id := ls_id s; ls_changes := ls_changes s; ls_wants := ls_wants s; ls_dont_haves := ls_dont_haves s;
     ls_sent := t; ls_responses := ls_responses s; ls_draws := ls_draws s |}.
Definition ls_with_responses (r : Responses) (s : LoopState) : LoopState :=
  {| ls_id := ls_id s; ls_changes := ls_changes s; ls_wants := ls_wants s; ls_dont_haves := ls_dont_haves s;
     ls_sent := ls_sent s; ls_responses := r; ls_draws := ls_draws s |}.

(** What the session and the network are told *)
Inductive ws_output :=
  | OpBroadcast (cids : list Cid)
  | OpWantsSent (cids : list Cid)
  | PmEffect (e : pm_effect).

(** [signal_availability]: [try_send] into the channel of changes *)
Definition signal_change (change : Change) (s : LoopState) : LoopState :=
  if (length (ls_changes s) <? CHANGES_CAPACITY)%nat then ls_with_changes (ls_changes s ++ [change]) s else s.

Definition peers_for_session (id : Z) (pm : PeerManagerActor) : list PeerId :=
  match pm_sessions pm !! id with Some s => hs_iter (ss_peers s) | None => [] end.
Definition session_has_peers (id : Z) (pm : PeerManagerActor) : bool :=
  session_query id (λ s, negb (bool_decide (ss_peers s = ∅))) pm.

(** ** Wants *)

Definition track_want (bpm : Presence) (peers : list PeerId) (s : LoopState) (cid : Cid) : LoopState :=
  match ls_wants s !! cid with
  | Some _ => s
  | None =>
      let '(wi, draws) :=
        foldl (λ '(wi, draws) peer, update_want_block_presence bpm (ls_responses s) cid peer draws wi)
          (WantInfo_new, ls_draws s) peers in
      ls_with_wants (<[cid := wi]> (ls_wants s)) draws s
  end.
Definition track_wants (bpm : Presence) (pm : PeerManagerActor) (cids : list Cid) (s : LoopState) : LoopState :=
  foldl (track_want bpm (peers_for_session (ls_id s) pm)) s cids.

Definition untrack_want (cid : Cid) (s : LoopState) : LoopState :=
  ls_with_wants (delete cid (ls_wants s)) (ls_draws s) s.

(** A loop over all wants that changes each of them *)
Definition map_wants (f : Cid → nat → WantInfo → WantInfo * nat) (s : LoopState) : LoopState :=
  let '(w, draws) :=
    foldl (λ '(w, draws) '(cid, wi), let '(wi, draws) := f cid draws wi in (<[cid := wi]> w, draws))
      (ls_wants s, ls_draws s) (hm_iter (ls_wants s)) in
  ls_with_wants w draws s.

(** [update_wants_peer_availability] *)
Definition update_wants_peer_availability (bpm : Presence) (peer : PeerId) (is_now_available : bool) (s : LoopState)
    : LoopState :=
  map_wants (λ cid draws wi,
    if is_now_available then update_want_block_presence bpm (ls_responses s) cid peer draws wi
    else wi_remove_peer (ls_responses s) peer draws wi) s.

(** ** Availability *)

(** One peer of [process_availability] *)
Definition process_one_availability (bpm : Presence)
    (st : LoopState * PeerManagerActor * list PeerId * list PeerId * list ws_output)
    (e : PeerId * (bool * option bool))
    : LoopState * PeerManagerActor * list PeerId * list PeerId * list ws_output :=
  let '(s, pm, available, unavailable, out) := st in
  let '(peer, (is_now_available, is_new)) := e in
  let change s available unavailable pm out :=
    let s := update_wants_peer_availability bpm peer is_now_available s in
    (ls_with_dont_haves (delete peer (ls_dont_haves s)) s, pm, available, unavailable, out) in
  if is_now_available then
    let '(pm, is_new_peer) := add_peer_to_session (ls_id s) peer pm in
    if is_new_peer || default false is_new then change s (available ++ [peer]) unavailable pm out
    else (s, pm, available, unavailable, out)
  else
    let '(pm, was_available, eff) := remove_peer_from_session (ls_id s) peer pm in
    let out := out ++ (PmEffect <$> eff) in
    if was_available then change s available (unavailable ++ [peer]) pm out
    else (s, pm, available, unavailable, out).
Definition process_availability (bpm : Presence) (availability : gmap PeerId (bool * option bool)) (s : LoopState)
    (pm : PeerManagerActor) : LoopState * PeerManagerActor * list PeerId * list PeerId * list ws_output :=
  foldl (process_one_availability bpm) (s, pm, [], [], []) (hm_iter availability).

(** ** Updates *)

(** A received block: the first loop of [process_updates] *)
Definition receive_key (pm : PeerManagerActor) (from : PeerId) (st : LoopState * gset Cid * list ws_output) (cid : Cid)
    : LoopState * gset Cid * list ws_output :=
  let '(s, block_cids, out) := st in
  let block_cids := {[cid]} ∪ block_cids in
  match ls_wants s !! cid with
  | Some _ =>
      let s := untrack_want cid s in
      let s := ls_with_responses (received_block_from from (ls_responses s)) s in
      (ls_with_dont_haves (delete from (ls_dont_haves s)) s, block_cids,
       out ++ (PmEffect <$> protect_connection (ls_id s) from pm))
  | None => (s, block_cids, out)
  end.
Definition receive_keys (pm : PeerManagerActor) (st : LoopState * gset Cid * list ws_output) (u : Update) :=
  foldl (receive_key pm (up_from u)) st (up_keys u).

(** The new presence of a peer for a want that is tracked *)
Definition refresh_presence (bpm : Presence) (cid : Cid) (peer : PeerId) (s : LoopState) : LoopState :=
  match ls_wants s !! cid with
  | Some wi =>
      let '(wi, draws) := update_want_block_presence bpm (ls_responses s) cid peer (ls_draws s) wi in
      ls_with_wants (<[cid := wi]> (ls_wants s)) draws s
  | None => s
  end.

Definition get_want_sent_to (cid : Cid) (s : LoopState) : option PeerId := ls_wants s !! cid ≫= wi_sent_to.
Definition set_want_sent_to (cid : Cid) (peer : option PeerId) (s : LoopState) : LoopState :=
  match ls_wants s !! cid with
  | Some wi =>
      ls_with_wants (<[cid := {| wi_presence := wi_presence wi; wi_sent_to := peer; wi_best_peer := wi_best_peer wi;
                                 wi_exhausted := wi_exhausted wi |}]> (ls_wants s)) (ls_draws s) s
  | None => s
  end.

(** A DONT_HAVE: the second loop of [process_updates] *)
Definition receive_dont_have (bpm : Presence) (block_cids : gset Cid) (from : PeerId)
    (st : LoopState * gset Cid * gset PeerId) (cid : Cid) : LoopState * gset Cid * gset PeerId :=
  let '(s, dont_haves, prune) := st in
  let count := default 0 (ls_dont_haves s !! from) in
  let limit := bool_decide (count = PEER_DONT_HAVE_LIMIT) in
  let s := ls_with_dont_haves (<[from := if limit then count else count + 1]> (ls_dont_haves s)) s in
  let prune := if limit then {[from]} ∪ prune else prune in
  if decide (cid ∈ block_cids) then (s, dont_haves, prune) else
  let dont_haves := {[cid]} ∪ dont_haves in
  let s := refresh_presence bpm cid from s in
  let s :=
    if have_sent_want_block_to from cid (ls_sent s) then
      match get_want_sent_to cid s with
      | Some sent_to => if decide (sent_to = from) then set_want_sent_to cid None s else s
      | None => s
      end
    else s in
  (s, dont_haves, prune).
Definition receive_dont_haves (bpm : Presence) (block_cids : gset Cid) (st : LoopState * gset Cid * gset PeerId)
    (u : Update) :=
  foldl (receive_dont_have bpm block_cids (up_from u)) st (up_dont_haves u).

(** A HAVE: the third loop *)
Definition receive_have (bpm : Presence) (block_cids : gset Cid) (from : PeerId) (st : LoopState * gset PeerId)
    (cid : Cid) : LoopState * gset PeerId :=
  let '(s, prune) := st in
  let s := if decide (cid ∈ block_cids) then s else refresh_presence bpm cid from s in
  (ls_with_dont_haves (delete from (ls_dont_haves s)) s, prune ∖ {[from]}).
Definition receive_haves (bpm : Presence) (block_cids : gset Cid) (st : LoopState * gset PeerId) (u : Update) :=
  foldl (receive_have bpm block_cids (up_from u)) st (up_haves u).

(** The peers that are removed from the session: none that has a wanted block *)
Definition prune_peers (bpm : Presence) (s : LoopState) (prune : gset PeerId) : gset PeerId :=
  let to_remove : gset PeerId := list_to_set (hs_iter prune ≫= λ peer,
    hm_keys (ls_wants s) ≫= λ cid, if peer_has_block peer cid bpm then [peer] else []) in
  prune ∖ to_remove.

Definition process_updates (bpm : Presence) (pm : PeerManagerActor) (updates : list Update) (s : LoopState)
    : LoopState * gset Cid * list ws_output :=
  let '(s, block_cids, out) := foldl (receive_keys pm) (s, ∅, []) updates in
  let '(s, dont_haves, prune) := foldl (receive_dont_haves bpm block_cids) (s, ∅, ∅) updates in
  let '(s, prune) := foldl (receive_haves bpm block_cids) (s, prune) updates in
  let prune := prune_peers bpm s prune in
  (foldl (λ s peer, signal_change (ChangeAvailability peer false) s) s (hs_iter prune), dont_haves, out).

(** ** Exhausted wants *)

(** One key of [newly_exhausted] *)
Definition exhaust (st : LoopState * list Cid) (cid : Cid) : LoopState * list Cid :=
  let '(s, res) := st in
  match ls_wants s !! cid with
  | Some wi =>
      if wi_exhausted wi then st
      else (ls_with_wants (<[cid := {| wi_presence := wi_presence wi; wi_sent_to := wi_sent_to wi;
                                       wi_best_peer := wi_best_peer wi; wi_exhausted := true |}]> (ls_wants s))
              (ls_draws s) s, res ++ [cid])
  | None => st
  end.
Definition process_exhausted_wants (exhausted : list Cid) (s : LoopState) : LoopState * list ws_output :=
  let '(s, newly) := foldl exhaust (s, []) exhausted in
  (s, if decide (newly = []) then [] else [OpBroadcast newly]).

Definition check_for_exhausted_wants (bpm : Presence) (pm : PeerManagerActor) (dont_haves : gset Cid)
    (newly_unavailable : list PeerId) (s : LoopState) : LoopState * list ws_output :=
  if decide (dont_haves = ∅ ∧ newly_unavailable = []) then (s, []) else
  let wants := if decide (newly_unavailable = []) then dont_haves
               else dont_haves ∪ list_to_set (hm_keys (ls_wants s)) in
  if decide (newly_unavailable ≠ [] ∧ session_has_peers (ls_id s) pm = false)
  then process_exhausted_wants (hs_iter wants) s
  else if decide (wants = ∅) then (s, [])
  else process_exhausted_wants
         (all_peers_do_not_have_block (peers_for_session (ls_id s) pm) (hs_iter wants) bpm) s.

(** ** Sending *)

Record WantSets := { ws_blocks : gset Cid; ws_haves : gset Cid }.
Definition WantSets_default : WantSets := {| ws_blocks := ∅; ws_haves := ∅ |}.

(** [AllWants::for_peer] and the insertion into one of the sets *)
Definition insert_have (cid : Cid) (m : gmap PeerId WantSets) (peer : PeerId) : gmap PeerId WantSets :=
  let w := default WantSets_default (m !! peer) in
  <[peer := {| ws_blocks := ws_blocks w; ws_haves := {[cid]} ∪ ws_haves w |}]> m.
Definition insert_block (cid : Cid) (m : gmap PeerId WantSets) (peer : PeerId) : gmap PeerId WantSets :=
  let w := default WantSets_default (m !! peer) in
  <[peer := {| ws_blocks := {[cid]} ∪ ws_blocks w; ws_haves := ws_haves w |}]> m.

(** One want of [send_next_wants] *)
Definition next_want (newly_available session_peers : list PeerId)
    (st : gmap Cid WantInfo * gmap PeerId WantSets) (e : Cid * WantInfo)
    : gmap Cid WantInfo * gmap PeerId WantSets :=
  let '(wants, to_send) := st in
  let '(cid, wi) := e in
  let to_send := foldl (insert_have cid) to_send newly_available in
  match wi_sent_to wi, wi_best_peer wi with
  | None, Some best =>
      (<[cid := {| wi_presence := wi_presence wi; wi_sent_to := Some best; wi_best_peer := Some best;
                   wi_exhausted := wi_exhausted wi |}]> wants,
       foldl (insert_have cid) (insert_block cid to_send best) (filter (λ op, op ≠ best) session_peers))
  | _, _ => (wants, to_send)
  end.

Definition get_piggyback_want_haves (peer : PeerId) (blocks : gset Cid) (s : LoopState) : list Cid :=
  filter (λ cid, (cid ∉ blocks) ∧ have_sent_want_block_to peer cid (ls_sent s) = false) (hm_keys (ls_wants s)).

(** One peer of [send_wants] *)
Definition send_to_peer (st : LoopState * PeerManagerActor * list ws_output) (e : PeerId * WantSets)
    : LoopState * PeerManagerActor * list ws_output :=
  let '(s, pm, out) := st in
  let '(peer, snd) := e in
  let haves := foldl (λ h cid, {[cid]} ∪ h) (ws_haves snd) (get_piggyback_want_haves peer (ws_blocks snd) s) in
  let want_blocks := hs_iter (ws_blocks snd) in
  let want_haves := hs_iter haves in
  (ls_with_sent (add_sent_want_blocks_to peer want_blocks (ls_sent s)) s,
   pm_send_wants peer want_blocks want_haves pm,
   out ++ [OpWantsSent (want_blocks ++ want_haves)]).

Definition send_next_wants (newly_available : list PeerId) (s : LoopState) (pm : PeerManagerActor)
    : LoopState * PeerManagerActor * list ws_output :=
  let '(wants, to_send) :=
    foldl (next_want newly_available (peers_for_session (ls_id s) pm)) (ls_wants s, ∅) (hm_iter (ls_wants s)) in
  foldl send_to_peer (ls_with_wants wants (ls_draws s) s, pm, []) (hm_iter to_send).

(** ** [on_change] *)

(** One change *)
Definition apply_change (bpm : Presence)
    (st : LoopState * PeerManagerActor * gmap PeerId (bool * option bool) * list Cid * list Update) (c : Change)
    : LoopState * PeerManagerActor * gmap PeerId (bool * option bool) * list Cid * list Update :=
  let '(s, pm, availability, cancels, updates) := st in
  match c with
  | ChangeAdd cids => (track_wants bpm pm cids s, pm, availability, cancels, updates)
  | ChangeCancel cids => (foldl (λ s cid, untrack_want cid s) s cids, pm, availability, cancels ++ cids, updates)
  | ChangeUpdate u =>
      if decide (up_keys u = [] ∧ up_haves u = []) then (s, pm, availability, cancels, updates ++ [u])
      else
        let '(pm, is_new) := register_session (up_from u) (ls_id s) pm in
        (s, pm, <[up_from u := (true, Some is_new)]> availability, cancels, updates ++ [u])
  | ChangeAvailability target is_available =>
      (s, pm, <[target := (is_available, None)]> availability, cancels, updates)
  end.

Definition on_change (change : Change) (s : LoopState) (mg : Managers) : LoopState * Managers * list ws_output :=
  let bpm := mg_bpm mg in
  let collected := take (CHANGES_BUFFER_SIZE - 1) (ls_changes s) in
  let s := ls_with_changes (drop (CHANGES_BUFFER_SIZE - 1) (ls_changes s)) s in
  let '(s, pm, availability, cancels, updates) :=
    foldl (apply_change bpm) (s, mg_pm mg, ∅, [], []) (change :: collected) in
  let '(s, pm, newly_available, newly_unavailable, out1) := process_availability bpm availability s pm in
  let '(s, dont_haves, out2) := process_updates bpm pm updates s in
  let '(s, out3) := check_for_exhausted_wants bpm pm dont_haves newly_unavailable s in
  let mg := mg_with_pm pm mg in
  let mg := if decide (cancels = []) then mg else cancel_session_wants (ls_id s) cancels mg in
  let '(s, pm, out5) :=
    if session_has_peers (ls_id s) (mg_pm mg) then send_next_wants newly_available s (mg_pm mg)
    else (s, mg_pm mg, []) in
  (s, mg_with_pm pm mg, out1 ++ out2 ++ out3 ++ out5).
End want_sender.
