(* ===== verification/WantSenderFacts.v ===== *)
(** * The want sender makes progress

    The best peer of a want has the best presence; every want is either with one
    peer or no peer of the session is known to be able to serve it; wants are
    declared exhausted once and only when they are. *)

From stdpp Require Import prelude gmap fin_maps.
From Stdlib Require Import ZArith Lia.
From S2P Require Import Prelude Cids Message Wantlist MessageQueue MessageQueueFacts MessageQueueRun.
From S2P Require Import PeerWants PeerWantsFacts PeerManager PeerManagerFacts ClientTrackers ClientTrackersFacts Managers WantSender.
Local Open Scope Z_scope.

Section facts.
Context `{Ids} `{HashOrder}.
Variable draw : nat → Z → Z → bool.

(** ** The best peer *)

Lemma choose_spec (exceeds : Z → Z → bool) peers (t : Responses) :
  peers ≠ [] → ∃ p, choose exceeds peers t = Some p ∧ p ∈ peers.
Proof.
  intros Hne. unfold choose. destruct peers as [|q l]; [done|]. generalize (sum_z ((λ p, get_peer_count p t) <$> q :: l)).
  intros total. destruct (choose_loop exceeds total 0 (q :: l) t) as [p|] eqn:E.
  - exists p. split; [done|]. revert E. generalize 0 (q :: l). clear. intros n l. revert n.
    induction l as [|q l IH]; intros n; simpl; [done|]. case_match; [intros [= <-]; by left|].
    intros ?%IH. by right.
  - destruct (last_is_Some (q :: l)) as [_ [p Hp]]; [done|]. exists p. split; [done|].
    apply last_Some in Hp as [l' ->]. apply elem_of_app. right. by left.
Qed.

(** The peer for the want-block has the best presence, and there is none only if
    every peer said that it does not have the block. *)
Definition best_ok (wi : WantInfo) : Prop :=
  match wi_best_peer wi with
  | Some p => ∃ b, wi_presence wi !! p = Some b ∧ b ≠ BpDontHave ∧
                   ∀ q b', wi_presence wi !! q = Some b' → bp_rank b' ≤ bp_rank b
  | None => ∀ q b, wi_presence wi !! q = Some b → b = BpDontHave
  end.

Definition best_of (l : list (PeerId * WantPresence)) (bp : WantPresence) (best : option PeerId) : Prop :=
  (∀ q b, (q, b) ∈ l → bp_rank b ≤ bp_rank bp) ∧
  match best with Some p => (p, bp) ∈ l ∧ bp ≠ BpDontHave | None => bp = BpDontHave end.

Lemma best_fold l bp best n :
  foldl best_step (BpDontHave, None, 0%nat) l = (bp, best, n) → best_of l bp best.
Proof.
  revert bp best n. induction l as [|[q b] l IH] using rev_ind; intros bp best n.
  { intros [= <- <- <-]. split; [set_solver|done]. }
  rewrite foldl_app. cbn [foldl]. destruct (foldl best_step _ l) as [[bp0 best0] n0]. destruct (IH _ _ _ eq_refl) as [Hle Hb].
  unfold best_step. destruct (Z.compare_spec (bp_rank b) (bp_rank bp0)) as [Heq|Hlt|Hgt]; intros [= <- <- <-].
  - split; [|destruct best0; set_solver]. intros q' b'. rewrite elem_of_app, list_elem_of_singleton.
    intros [?|[= -> ->]]; [eauto|lia].
  - split; [|destruct best0; set_solver]. intros q' b'. rewrite elem_of_app, list_elem_of_singleton.
    intros [?|[= -> ->]]; [eauto|lia].
  - split.
    + intros q' b'. rewrite elem_of_app, list_elem_of_singleton. intros [Hin|[= -> ->]]; [|lia].
      specialize (Hle _ _ Hin). lia.
    + split; [set_solver|]. intros ->. simpl in Hgt. destruct bp0; simpl in Hgt; lia.
Qed.

(** Everything but the best peer stays. *)
Lemma calculate_best_spec r d wi :
  let wi' := (calculate_best_peer draw r d wi).1 in
  best_ok wi' ∧ wi_presence wi' = wi_presence wi ∧ wi_sent_to wi' = wi_sent_to wi ∧
  wi_exhausted wi' = wi_exhausted wi.
Proof.
  unfold calculate_best_peer. destruct (foldl best_step _ _) as [[bp best] n] eqn:E.
  apply best_fold in E as [Hle Hb]. setoid_rewrite elem_of_hm_iter in Hle.
  destruct best as [p|]; [|split; [|done]].
  - rewrite elem_of_hm_iter in Hb. destruct Hb as [Hp Hne]. destruct (n <=? 1)%nat; (split; [|done]); cbn.
    { exists bp. split_and!; [done|done|]. intros q b Hq. by eapply Hle. }
    unfold best_ok. cbn.
    destruct (choose_spec (draw d) (filter (λ e, e.2 = bp) (hm_iter (wi_presence wi))).*1 r) as (c & -> & Hc).
    { intros Hnil. apply fmap_nil_inv in Hnil. apply (not_elem_of_nil (p, bp)). rewrite <-Hnil.
      apply list_elem_of_filter. split; [done|]. by apply elem_of_hm_iter. }
    apply list_elem_of_fmap in Hc as ([c' b'] & -> & [Hb' Hin]%list_elem_of_filter).
    apply elem_of_hm_iter in Hin. simpl in Hb' |- *. subst b'. exists bp. split_and!; [done|done|].
    intros q b Hq. by eapply Hle.
  - unfold best_ok. cbn. intros q b Hq. specialize (Hle _ _ Hq). subst bp. by destruct b.
Qed.

Lemma update_want_spec bpm r c q d wi :
  let wi' := (update_want_block_presence draw bpm r c q d wi).1 in
  best_ok wi' ∧ wi_presence wi' = <[q := presence_info bpm c q]> (wi_presence wi) ∧
  wi_sent_to wi' = wi_sent_to wi ∧
  wi_exhausted wi' = if decide (presence_info bpm c q = BpHave) then false else wi_exhausted wi.
Proof.
  unfold update_want_block_presence, set_peer_block_presence.
  match goal with |- context [calculate_best_peer _ _ _ ?w] => pose proof (calculate_best_spec r d w) as Hs end.
  destruct (calculate_best_peer _ _ _ _) as [wi' d']. cbn in *. destruct Hs as (Hb & Hp & Hs & He).
  split_and!; [done|done|done|]. by rewrite He.
Qed.

Lemma wi_remove_spec r q d wi :
  let wi' := (wi_remove_peer draw r q d wi).1 in
  best_ok wi' ∧ wi_presence wi' = delete q (wi_presence wi) ∧
  (wi_sent_to wi' = None ∨ wi_sent_to wi' = wi_sent_to wi) ∧ wi_exhausted wi' = wi_exhausted wi.
Proof.
  unfold wi_remove_peer.
  match goal with |- context [calculate_best_peer _ _ _ ?w] => destruct (calculate_best_spec r d w) as (Hb & Hp & Hs & He) end.
  cbn in *. split_and!; [done|done| |done]. rewrite Hs. case_decide; auto.
Qed.

(** ** What all steps before the sending keep *)

Definition with_sent_to (p : option PeerId) (wi : WantInfo) : WantInfo :=
  {| wi_presence := wi_presence wi; wi_sent_to := p; wi_best_peer := wi_best_peer wi; wi_exhausted := wi_exhausted wi |}.
Definition with_exhausted (wi : WantInfo) : WantInfo :=
  {| wi_presence := wi_presence wi; wi_sent_to := wi_sent_to wi; wi_best_peer := wi_best_peer wi; wi_exhausted := true |}.

(** A predicate on wants that the operations on a want keep; the wants of [X] are
    tracked already. *)
Record closed (bpm : Presence) (X : gset Cid) (Φ : Cid → WantInfo → Prop) : Prop := {
  closed_new c : c ∉ X → Φ c WantInfo_new;
  closed_update c wi r q d : Φ c wi → Φ c (update_want_block_presence draw bpm r c q d wi).1;
  closed_remove c wi r q d : Φ c wi → Φ c (wi_remove_peer draw r q d wi).1;
  closed_clear c wi : Φ c wi → Φ c (with_sent_to None wi);
  closed_exhaust c wi : Φ c wi → Φ c (with_exhausted wi)
}.

Lemma track_dom bpm peers c s : dom (ls_wants (track_want draw bpm peers s c)) = {[c]} ∪ dom (ls_wants s).
Proof.
  unfold track_want. destruct (ls_wants s !! c) eqn:E.
  - apply elem_of_dom_2 in E. set_solver.
  - destruct (foldl _ _ peers). simpl. apply dom_insert_L.
Qed.

Section phases.
Variables (bpm : Presence) (X : gset Cid) (Φ : Cid → WantInfo → Prop) (id : Z) (t : SentWantBlocks) (l0 : list Change).
Hypothesis Hclosed : closed bpm X Φ.

Record holds (s : LoopState) : Prop := {
  holds_wants c wi : ls_wants s !! c = Some wi → Φ c wi;
  holds_id : ls_id s = id;
  holds_sent : ls_sent s = t;
  holds_queue ch : ch ∈ ls_changes s → ch ∈ l0 ∨ ∃ p b, ch = ChangeAvailability p b
}.

Lemma holds_set w d s : (∀ c wi, w !! c = Some wi → Φ c wi) → holds s → holds (ls_with_wants w d s).
Proof. intros Hw [_ Hi Ht Hl]. by split. Qed.

Lemma holds_insert c wi d s : Φ c wi → holds s → holds (ls_with_wants (<[c := wi]> (ls_wants s)) d s).
Proof.
  intros Hc Hs. apply holds_set; [|done]. intros c' wi'. rewrite lookup_insert. case_decide; [|apply Hs].
  subst. by intros [= <-].
Qed.

Lemma holds_dont_haves m s : holds s → holds (ls_with_dont_haves m s).
Proof. intros [Hw Hi Ht Hl]. by split. Qed.

Lemma holds_responses m s : holds s → holds (ls_with_responses m s).
Proof. intros [Hw Hi Ht Hl]. by split. Qed.

Lemma holds_signal p b s : holds s → holds (signal_change (ChangeAvailability p b) s).
Proof.
  intros [Hw Hi Ht Hl]. unfold signal_change. case_match; [|done]. split; simpl; [done..|].
  intros ch. rewrite elem_of_app, list_elem_of_singleton. intros [?| ->]; eauto.
Qed.

Lemma holds_untrack c s : holds s → holds (untrack_want c s).
Proof.
  intros Hs. apply holds_set; [|done]. intros c' wi. rewrite lookup_delete. case_decide; [done|]. apply Hs.
Qed.

Lemma holds_track peers c s : X ⊆ dom (ls_wants s) → holds s → holds (track_want draw bpm peers s c).
Proof.
  intros HX Hs. unfold track_want. destruct (ls_wants s !! c) eqn:E; [done|].
  destruct (foldl _ _ peers) as [wi d] eqn:Ef. apply holds_insert; [|done]. change wi with (wi, d).1. rewrite <-Ef.
  apply (foldl_invariant (λ x : WantInfo * nat, Φ c x.1)).
  - intros [wi0 d0] q _ Hq. by apply (closed_update _ _ _ Hclosed).
  - apply (closed_new _ _ _ Hclosed). apply not_elem_of_dom in E. set_solver.
Qed.

Lemma holds_map f s : (∀ c d wi, Φ c wi → Φ c (f c d wi).1) → holds s → holds (map_wants f s).
Proof.
  intros Hf Hs. unfold map_wants. destruct (foldl _ _ _) as [w d] eqn:E. apply holds_set; [|done].
  change w with (w, d).1. rewrite <-E.
  apply (foldl_invariant (λ x : gmap Cid WantInfo * nat, ∀ c wi, x.1 !! c = Some wi → Φ c wi)); [|apply Hs].
  intros [w0 d0] [c wi] Hin Hw. apply elem_of_hm_iter in Hin. pose proof (Hf c d0 wi (holds_wants _ Hs _ _ Hin)) as Hc.
  destruct (f c d0 wi) as [wi1 d1]. simpl in *. intros c' wi'. rewrite lookup_insert. case_decide; [|apply Hw].
  subst. by intros [= <-].
Qed.

Lemma holds_refresh c q s : holds s → holds (refresh_presence draw bpm c q s).
Proof.
  intros Hs. unfold refresh_presence. destruct (ls_wants s !! c) as [wi|] eqn:E; [|done].
  pose proof (closed_update _ _ _ Hclosed c wi (ls_responses s) q (ls_draws s) (holds_wants _ Hs _ _ E)) as Hc.
  destruct (update_want_block_presence _ _ _ _ _ _ _) as [wi' d]. by apply holds_insert.
Qed.

Lemma holds_clear c s : holds s → holds (set_want_sent_to c None s).
Proof.
  intros Hs. unfold set_want_sent_to. destruct (ls_wants s !! c) as [wi|] eqn:E; [|done].
  apply holds_insert; [|done]. apply (closed_clear _ _ _ Hclosed). by apply Hs.
Qed.

Lemma holds_one_availability st e : holds st.1.1.1.1 → holds (process_one_availability draw bpm st e).1.1.1.1.
Proof.
  destruct st as [[[[s pm] av] un] out], e as [p [b n]]. intros Hs. unfold process_one_availability.
  assert (∀ b, holds (update_wants_peer_availability draw bpm p b s)) as Hu.
  { intros b'. apply holds_map; [|done]. intros c d wi Hc. destruct b'; [by apply (closed_update _ _ _ Hclosed)|by apply (closed_remove _ _ _ Hclosed)]. }
  destruct b.
  - destruct (add_peer_to_session _ _ _) as [pm' new]. destruct (new || default false n); [|done].
    apply holds_dont_haves, Hu.
  - destruct (remove_peer_from_session _ _ _) as [[pm' was] eff]. destruct was; [|done]. apply holds_dont_haves, Hu.
Qed.

Lemma holds_receive_key pm p st c : holds st.1.1 → holds (receive_key pm p st c).1.1.
Proof.
  destruct st as [[s cids] out]. simpl. intros Hs. destruct (ls_wants s !! c); [|done].
  apply holds_dont_haves, holds_responses. by apply (holds_untrack c).
Qed.

Lemma holds_receive_dont_have cids p st c : holds st.1.1 → holds (receive_dont_have draw bpm cids p st c).1.1.
Proof.
  destruct st as [[s dh] prune]. simpl. intros Hs. destruct (decide (c ∈ cids)); simpl; [by apply holds_dont_haves|].
  set (s1 := ls_with_dont_haves _ s). assert (holds (refresh_presence draw bpm c p s1)) as H1.
  { apply holds_refresh. by apply holds_dont_haves. }
  repeat case_match; try done. by apply holds_clear.
Qed.

Lemma holds_receive_have cids p st c : holds st.1 → holds (receive_have draw bpm cids p st c).1.
Proof.
  destruct st as [s prune]. simpl. intros Hs. apply holds_dont_haves. case_decide; [done|]. by apply holds_refresh.
Qed.

Lemma holds_process_updates pm us s : holds s → holds (process_updates draw bpm pm us s).1.1.
Proof.
  intros Hs. unfold process_updates. destruct (foldl (receive_keys pm) _ us) as [[s1 cids] out] eqn:E1.
  destruct (foldl (receive_dont_haves draw bpm cids) _ us) as [[s2 dh] prune] eqn:E2.
  destruct (foldl (receive_haves draw bpm cids) _ us) as [s3 prune3] eqn:E3. simpl.
  assert (holds s1) as H1.
  { change s1 with (s1, cids, out).1.1. rewrite <-E1. apply (foldl_invariant (λ x, holds x.1.1)); [|done].
    intros x u _ Hx. apply (foldl_invariant (λ x, holds x.1.1)); [|done]. intros. by apply holds_receive_key. }
  assert (holds s2) as H2.
  { change s2 with (s2, dh, prune).1.1. rewrite <-E2. apply (foldl_invariant (λ x, holds x.1.1)); [|done].
    intros x u _ Hx. apply (foldl_invariant (λ x, holds x.1.1)); [|done]. intros. by apply holds_receive_dont_have. }
  assert (holds s3) as H3.
  { change s3 with (s3, prune3).1. rewrite <-E3. apply (foldl_invariant (λ x, holds x.1)); [|done].
    intros x u _ Hx. apply (foldl_invariant (λ x, holds x.1)); [|done]. intros. by apply holds_receive_have. }
  apply (foldl_invariant holds); [|done]. intros x p _ Hx. by apply holds_signal.
Qed.

Lemma holds_exhaust st c : holds st.1 → holds (exhaust st c).1.
Proof.
  destruct st as [s res]. simpl. intros Hs. destruct (ls_wants s !! c) as [wi|] eqn:E; [|done].
  destruct (wi_exhausted wi); [done|]. apply holds_insert; [|done]. apply (closed_exhaust _ _ _ Hclosed). by apply Hs.
Qed.

Lemma holds_process_exhausted l s : holds s → holds (process_exhausted_wants l s).1.
Proof.
  intros Hs. unfold process_exhausted_wants. destruct (foldl exhaust (s, []) l) as [s' new] eqn:E. simpl.
  change s' with (s', new).1. rewrite <-E. apply (foldl_invariant (λ x, holds x.1)); [|done].
  intros. by apply holds_exhaust.
Qed.

Lemma holds_check pm dh un s : holds s → holds (check_for_exhausted_wants bpm pm dh un s).1.
Proof.
  intros Hs. unfold check_for_exhausted_wants. repeat case_decide; try done; by apply holds_process_exhausted.
Qed.

Lemma holds_process_availability av s pm : holds s → holds (process_availability draw bpm av s pm).1.1.1.1.
Proof.
  intros Hs. apply (foldl_invariant (λ x, holds x.1.1.1.1)); [|done]. intros. by apply holds_one_availability.
Qed.

(** The wants of [X] are not cancelled. *)
Definition not_cancelled (l : list Change) : Prop :=
  ∀ cids c, ChangeCancel cids ∈ l → c ∈ cids → c ∉ X.

Lemma holds_apply_changes l st :
  not_cancelled l → X ⊆ dom (ls_wants st.1.1.1.1) → holds st.1.1.1.1 →
  let st' := foldl (apply_change draw bpm) st l in holds st'.1.1.1.1 ∧ X ⊆ dom (ls_wants st'.1.1.1.1).
Proof.
  intros Hl HX Hs. apply (foldl_invariant (λ x, holds x.1.1.1.1 ∧ X ⊆ dom (ls_wants x.1.1.1.1))); [|done].
  intros [[[[s1 pm] av] cs] us] ch Hin [H1 HX1]. simpl in H1, HX1. destruct ch as [cids|cids|u|p b]; simpl; [| | |done].
  - apply (foldl_invariant (λ x, holds x ∧ X ⊆ dom (ls_wants x))); [|done]. intros x c _ [Hx HXx].
    split; [by apply holds_track|]. rewrite track_dom. set_solver.
  - apply (foldl_invariant (λ x, holds x ∧ X ⊆ dom (ls_wants x))); [|done]. intros x c Hc [Hx HXx].
    split; [by apply holds_untrack|]. simpl. rewrite dom_delete_L. pose proof (Hl _ _ Hin Hc). set_solver.
  - case_decide; [done|]. by destruct (register_session _ _ _).
Qed.
End phases.

(** ** Sending *)

(** What [send_next_wants] does to a want *)
Definition sending (wi : WantInfo) : WantInfo :=
  match wi_sent_to wi, wi_best_peer wi with
  | None, Some best => with_sent_to (Some best) wi
  | _, _ => wi
  end.

Definition blocks_for (to_send : gmap PeerId WantSets) (p : PeerId) : gset Cid :=
  ws_blocks (default WantSets_default (to_send !! p)).

Lemma blocks_insert_have c q m p : blocks_for (insert_have c m q) p = blocks_for m p.
Proof.
  unfold blocks_for, insert_have. rewrite lookup_insert. case_decide; [|done]. by subst.
Qed.

Lemma blocks_insert_haves c l m p : blocks_for (foldl (insert_have c) m l) p = blocks_for m p.
Proof.
  revert m. induction l as [|q l IH]; intros m; cbn [foldl]; [done|]. rewrite IH. apply blocks_insert_have.
Qed.

Lemma blocks_insert_block c q m p c' :
  c' ∈ blocks_for (insert_block c m q) p ↔ c' ∈ blocks_for m p ∨ c' = c ∧ p = q.
Proof.
  unfold blocks_for, insert_block. rewrite lookup_insert. case_decide; simpl; [subst|].
  - rewrite elem_of_union, elem_of_singleton. tauto.
  - naive_solver.
Qed.

Lemma next_want_fold av peers l w to_send w' to_send' :
  NoDup l.*1 → (∀ c wi, (c, wi) ∈ l → w !! c = Some wi) →
  foldl (next_want av peers) (w, to_send) l = (w', to_send') →
  (∀ c, w' !! c = if decide (c ∈ l.*1) then sending <$> w !! c else w !! c) ∧
  (∀ p c, c ∈ blocks_for to_send' p ↔
     c ∈ blocks_for to_send p ∨ ∃ wi, (c, wi) ∈ l ∧ wi_sent_to wi = None ∧ wi_best_peer wi = Some p).
Proof.
  revert w to_send. induction l as [|[c wi] l IH]; intros w to_send; cbn [foldl].
  { intros _ _ [= <- <-]. split; [done|]. intros p c. split; [by left|]. intros [?|(? & ?%not_elem_of_nil & _)]; done. }
  intros [Hc Hnd]%NoDup_cons Hw. cbn [fst] in Hc.
  destruct (next_want av peers (w, to_send) (c, wi)) as [w1 to1] eqn:E1.
  assert ((∀ c', w1 !! c' = if decide (c' = c) then sending <$> w !! c' else w !! c') ∧
          (∀ p c', c' ∈ blocks_for to1 p ↔ c' ∈ blocks_for to_send p ∨
                     c' = c ∧ wi_sent_to wi = None ∧ wi_best_peer wi = Some p)) as [Hw1 Hb1].
  { pose proof (Hw c wi ltac:(left)) as Hcw. unfold next_want in E1.
    assert (∀ c', w !! c' = if decide (c' = c) then Some wi else w !! c') as Hid by (intros; case_decide; congruence).
    destruct (wi_sent_to wi) eqn:Es; [|destruct (wi_best_peer wi) as [best|] eqn:Eb]; injection E1 as <- <-.
    - split; intros; [case_decide; [|done]|rewrite blocks_insert_haves; naive_solver].
      subst. rewrite Hcw. simpl. unfold sending. by rewrite Es.
    - split; intros.
      + rewrite lookup_insert. destruct (decide (c = c')), (decide (c' = c)); subst; try done.
        rewrite Hcw. simpl. unfold sending, with_sent_to. by rewrite Es, Eb.
      + rewrite blocks_insert_haves, blocks_insert_block, blocks_insert_haves. naive_solver.
    - split; intros; [case_decide; [|done]|rewrite blocks_insert_haves; naive_solver].
      subst. rewrite Hcw. simpl. unfold sending. by rewrite Es, Eb. }
  intros Hf. destruct (IH w1 to1 Hnd) as [Hw2 Hb2]; [|done|].
  { intros c' wi' Hin. rewrite Hw1. destruct (decide (c' = c)) as [->|].
    - destruct Hc. apply list_elem_of_fmap. by exists (c, wi').
    - apply Hw. by right. }
  split.
  - intros c'. rewrite Hw2, Hw1. cbn [fmap list_fmap fst].
    destruct (decide (c' = c)) as [->|Hne].
    + rewrite (decide_False (P := c ∈ l.*1)) by done. by rewrite decide_True by left.
    + destruct (decide (c' ∈ l.*1)) as [Hin|Hin]; [by rewrite decide_True by (by right)|].
      rewrite decide_False; [done|]. by intros [|]%elem_of_cons.
  - intros p c'. rewrite Hb2, Hb1. setoid_rewrite elem_of_cons. split.
    + intros [[?|(-> & ? & ?)]|(wi' & ? & ?)]; [by left|right; exists wi|right; exists wi']; auto.
    + intros [?|(wi' & [[= -> ->]|?] & ?)]; [by left; left|left; right; done|right; eauto].
Qed.

(** [c] is a want-block of the peer in the peer manager. *)
Definition asked_block (pm : PeerManagerActor) (p : PeerId) (c : Cid) : Prop :=
  ∃ pw, pwm_peer_wants (pm_wants pm) !! p = Some pw ∧ c ∈ want_blocks pw.

Lemma send_wants_blocks peer bs hs m p c :
  is_Some (pwm_peer_wants m !! peer) →
  (∃ pw, pwm_peer_wants (pwm_send_wants peer bs hs m).1 !! p = Some pw ∧ c ∈ want_blocks pw) ↔
  (∃ pw, pwm_peer_wants m !! p = Some pw ∧ c ∈ want_blocks pw) ∨ p = peer ∧ c ∈ bs.
Proof.
  intros [pw E]. unfold pwm_send_wants. rewrite E.
  destruct (foldl (send_block peer) _ bs) as [[pw1 index1] fb] eqn:E1.
  destruct (foldl (send_have peer _) _ hs) as [[pw2 index2] fh] eqn:E2.
  pose proof (send_block_fold _ _ _ _ _ _ _ _ E1) as (Hb1 & _). apply send_have_fold in E2 as (Hb2 & _). cbn.
  destruct (decide (p = peer)) as [->|Hne]; [rewrite lookup_insert_eq|rewrite lookup_insert_ne by done; naive_solver].
  rewrite E. split.
  - intros (? & [= <-] & Hc). rewrite Hb2, Hb1 in Hc. naive_solver.
  - intros Hc. exists pw2. split; [done|]. rewrite Hb2, Hb1. naive_solver.
Qed.

(** The peers of the manager are those of its wants. *)
Definition same_peers (pm : PeerManagerActor) : Prop :=
  ∀ p, is_Some (pm_peers pm !! p) ↔ is_Some (pwm_peer_wants (pm_wants pm) !! p).

Lemma have_sent_add peer keys (t : SentWantBlocks) p c :
  have_sent_want_block_to p c (add_sent_want_blocks_to peer keys t) = true ↔
  have_sent_want_block_to p c t = true ∨ p = peer ∧ c ∈ keys.
Proof.
  unfold have_sent_want_block_to, add_sent_want_blocks_to.
  assert (∀ s : gset Cid, c ∈ foldl (λ s key, {[key]} ∪ s) s keys ↔ c ∈ s ∨ c ∈ keys) as Hf.
  { induction keys as [|k keys IH]; intros s; cbn [foldl].
    - rewrite elem_of_nil. tauto.
    - rewrite IH, elem_of_union, elem_of_singleton, elem_of_cons. tauto. }
  rewrite lookup_insert. case_decide as Hp; [subst|naive_solver]. rewrite bool_decide_eq_true, Hf.
  destruct (t !! p); simpl; [rewrite bool_decide_eq_true; tauto|]. set_solver.
Qed.

Lemma pm_send_wants_spec peer bs hs pm :
  same_peers pm →
  let pm' := pm_send_wants peer bs hs pm in
  same_peers pm' ∧ pm_sessions pm' = pm_sessions pm ∧
  (∀ p, is_Some (pm_peers pm' !! p) ↔ is_Some (pm_peers pm !! p)) ∧
  (∀ p c, asked_block pm' p c ↔ asked_block pm p c ∨ is_Some (pm_peers pm !! p) ∧ p = peer ∧ c ∈ bs).
Proof.
  intros Hsame pm'. unfold pm', pm_send_wants. destruct (pm_peers pm !! peer) as [ps|] eqn:E.
  2:{ split_and!; [done|done|done|]. intros p c. split; [by left|]. intros [?|([? ?] & -> & _)]; [done|congruence]. }
  assert (is_Some (pwm_peer_wants (pm_wants pm) !! peer)) as Hp by (apply Hsame; eauto).
  assert (∀ p, is_Some (pwm_peer_wants (pwm_send_wants peer bs hs (pm_wants pm)).1 !! p) ↔
               is_Some (pwm_peer_wants (pm_wants pm) !! p)) as Hdom.
  { intros p. destruct Hp as [pw Hpw]. unfold pwm_send_wants. rewrite Hpw.
    destruct (foldl (send_block peer) _ bs) as [[? ?] ?]. destruct (foldl (send_have peer _) _ hs) as [[? ?] ?]. cbn.
    rewrite lookup_insert_is_Some. destruct (decide (peer = p)); naive_solver. }
  assert (∀ p, is_Some (foldl post (pm_peers pm) (pwm_send_wants peer bs hs (pm_wants pm)).2 !! p) ↔
               is_Some (pm_peers pm !! p)) as Hpost.
  { intros p. rewrite post_fold. apply fmap_is_Some. }
  split_and!; [|done|done|].
  - intros p. cbn. rewrite Hpost, Hdom. apply Hsame.
  - intros p c. unfold asked_block. cbn. rewrite send_wants_blocks by done. naive_solver.
Qed.

Lemma send_peers_spec l s pm out s' pm' out' :
  same_peers pm → foldl send_to_peer (s, pm, out) l = (s', pm', out') →
  ls_wants s' = ls_wants s ∧ ls_id s' = ls_id s ∧ ls_changes s' = ls_changes s ∧ pm_sessions pm' = pm_sessions pm ∧
  (∀ p, is_Some (pm_peers pm' !! p) ↔ is_Some (pm_peers pm !! p)) ∧
  (∀ p c, have_sent_want_block_to p c (ls_sent s') = true ↔
     have_sent_want_block_to p c (ls_sent s) = true ∨ ∃ w, (p, w) ∈ l ∧ c ∈ ws_blocks w) ∧
  (∀ p c, asked_block pm' p c ↔
     asked_block pm p c ∨ is_Some (pm_peers pm !! p) ∧ ∃ w, (p, w) ∈ l ∧ c ∈ ws_blocks w) ∧
  same_peers pm' ∧ (∀ cids, OpBroadcast cids ∈ out' ↔ OpBroadcast cids ∈ out).
Proof.
  revert s pm out. induction l as [|[peer snd] l IH]; intros s pm out Hsame; cbn [foldl].
  { intros [= <- <- <-]. split_and!; try done; intros p c; split; try (by left);
      [intros [?|(? & ?%not_elem_of_nil & _)]|intros [?|(_ & ? & ?%not_elem_of_nil & _)]]; done. }
  unfold send_to_peer at 2. set (haves := foldl _ _ (get_piggyback_want_haves _ _ _)). intros E.
  destruct (pm_send_wants_spec peer (hs_iter (ws_blocks snd)) (hs_iter haves) pm Hsame) as (Hs1 & Hss1 & Hp1 & Ha1).
  destruct (IH _ _ _ Hs1 E) as (Hw & Hi & Hch & Hss & Hp & Hh & Ha & Hsm & Ho).
  split_and!; [done|done|done|congruence| | | |done|].
  - intros p. by rewrite Hp, Hp1.
  - intros p c. rewrite Hh. cbn. rewrite have_sent_add, elem_of_hs_iter. setoid_rewrite elem_of_cons. split.
    + intros [[?|[-> ?]]|(w & ? & ?)]; [by left|right; exists snd|right; exists w]; auto.
    + intros [?|(w & [[= -> ->]|?] & ?)]; [by left; left|left; right; done|right; eauto].
  - intros p c. rewrite Ha, Ha1, Hp1, elem_of_hs_iter. setoid_rewrite elem_of_cons. split.
    + intros [[?|(? & -> & ?)]|(? & w & ? & ?)]; [by left|right; split; [done|]; exists snd|right; split; [done|]; exists w]; auto.
    + intros [?|(? & w & [[= -> ->]|?] & ?)]; [by left; left|left; right; done|right; eauto].
  - intros cids. rewrite Ho, elem_of_app, list_elem_of_singleton. naive_solver.
Qed.

(** The queue of the peer runs, and was given the want-block. *)
Definition runs (pm : PeerManagerActor) (p : PeerId) : Prop :=
  ∃ ps, pm_peers pm !! p = Some ps ∧ q_running (ps_queue ps) = true.
Definition queued (pm : PeerManagerActor) (p : PeerId) (c : Cid) : Prop :=
  ∃ ps bs hs, pm_peers pm !! p = Some ps ∧ UpdateWants bs hs ∈ q_log (ps_queue ps) ∧ c ∈ bs.

Lemma post_runs ups pm p :
  runs pm p → ∃ ps ps', pm_peers pm !! p = Some ps ∧ foldl post (pm_peers pm) ups !! p = Some ps' ∧
    q_running (ps_queue ps') = true ∧ q_log (ps_queue ps') = q_log (ps_queue ps) ++ updates_for p ups.
Proof.
  intros (ps & E & Hr). exists ps. rewrite post_fold, E. cbn. rewrite Hr. eexists. split_and!; done.
Qed.

Lemma post_queued ups pm p c m : queued pm p c → queued {| pm_peers := foldl post (pm_peers pm) ups; pm_wants := m; pm_sessions := pm_sessions pm |} p c.
Proof.
  intros (ps & bs & hs & E & Hu & Hc). unfold queued. cbn. rewrite post_fold, E. cbn. eexists _, bs, hs. split_and!; [done| |done].
  cbn. case_match; cbn; [|done]. apply elem_of_app. by left.
Qed.

Lemma pm_send_wants_queued peer bs hs pm :
  same_peers pm →
  let pm' := pm_send_wants peer bs hs pm in
  (∀ p, runs pm p → runs pm' p) ∧ (∀ p c, queued pm p c → queued pm' p c) ∧
  (∀ c, runs pm peer → c ∈ bs → asked_block pm peer c ∨ queued pm' peer c).
Proof.
  intros Hsame pm'. unfold pm', pm_send_wants. destruct (pm_peers pm !! peer) as [ps|] eqn:E.
  2:{ split_and!; [done|done|]. intros c (ps & E' & _). congruence. }
  unfold pm_post. split_and!.
  - intros p Hr. destruct (post_runs (pwm_send_wants peer bs hs (pm_wants pm)).2 pm p Hr) as (? & ps' & _ & Hp' & Hr' & _). by exists ps'.
  - intros p c. apply post_queued.
  - intros c Hr Hc. assert (is_Some (pwm_peer_wants (pm_wants pm) !! peer)) as [pw Epw] by (apply Hsame; eauto).
    destruct (decide (c ∈ want_blocks pw)) as [Hin|Hin]; [left; by exists pw|]. right.
    destruct (post_runs (pwm_send_wants peer bs hs (pm_wants pm)).2 pm peer Hr) as (ps0 & ps' & _ & Hp' & _ & Hlog).
    revert Hp' Hlog. unfold pwm_send_wants. rewrite Epw.
    destruct (foldl (send_block peer) _ bs) as [[pw1 index1] fb] eqn:E1.
    destruct (foldl (send_have peer _) _ hs) as [[pw2 index2] fh] eqn:E2. cbn [snd].
    apply send_block_fold in E1 as (_ & _ & Hf & _). assert (c ∈ fb) as Hfb by (apply Hf; by right).
    rewrite decide_False by (intros [-> _]; by apply not_elem_of_nil in Hfb). unfold add_wants.
    rewrite decide_False by (intros [-> _]; by apply not_elem_of_nil in Hfb). intros Hp' Hlog.
    exists ps', fb, fh. split_and!; [exact Hp'| |done]. rewrite Hlog. apply elem_of_app. right. unfold updates_for. cbn.
    rewrite decide_True by done. by left.
Qed.

Lemma send_peers_queued l s pm out s' pm' out' :
  same_peers pm → foldl send_to_peer (s, pm, out) l = (s', pm', out') →
  (∀ p c, queued pm p c → queued pm' p c) ∧
  (∀ p c w, (p, w) ∈ l → c ∈ ws_blocks w → runs pm p → asked_block pm p c ∨ queued pm' p c).
Proof.
  revert s pm out. induction l as [|[peer snd] l IH]; intros s pm out Hsame; cbn [foldl].
  { intros [= <- <- <-]. split; [done|]. by intros p c w ?%not_elem_of_nil. }
  unfold send_to_peer at 2. set (haves := foldl _ _ (get_piggyback_want_haves _ _ _)). intros E.
  destruct (pm_send_wants_spec peer (hs_iter (ws_blocks snd)) (hs_iter haves) pm Hsame) as (Hs1 & _ & _ & Ha1).
  destruct (pm_send_wants_queued peer (hs_iter (ws_blocks snd)) (hs_iter haves) pm Hsame) as (Hr1 & Hq1 & Hn1).
  destruct (IH _ _ _ Hs1 E) as [Hq Hn]. split; [by auto|].
  assert (∀ c, runs pm peer → c ∈ ws_blocks snd → asked_block pm peer c ∨ queued pm' peer c) as Hhead.
  { intros c Hr Hc. destruct (Hn1 c Hr) as [?|?]; [by apply elem_of_hs_iter|by left|right; by apply Hq]. }
  intros p c w [[= -> ->]|Hin]%elem_of_cons Hc Hr; [by apply Hhead|].
  destruct (Hn p c w Hin Hc (Hr1 _ Hr)) as [Hask|?]; [|by right].
  apply Ha1 in Hask as [?|(_ & -> & Hb)]; [by left|]. apply Hhead; [done|by apply elem_of_hs_iter].
Qed.

Lemma send_next_wants_spec av s pm s' pm' out' :
  same_peers pm → send_next_wants av s pm = (s', pm', out') →
  (∀ c, ls_wants s' !! c = sending <$> ls_wants s !! c) ∧ ls_id s' = ls_id s ∧ ls_changes s' = ls_changes s ∧
  pm_sessions pm' = pm_sessions pm ∧
  (∀ p, is_Some (pm_peers pm' !! p) ↔ is_Some (pm_peers pm !! p)) ∧
  (∀ p c, have_sent_want_block_to p c (ls_sent s) = true → have_sent_want_block_to p c (ls_sent s') = true) ∧
  (∀ p c wi, ls_wants s !! c = Some wi → wi_sent_to wi = None → wi_best_peer wi = Some p →
     have_sent_want_block_to p c (ls_sent s') = true ∧ (is_Some (pm_peers pm !! p) → asked_block pm' p c) ∧
     (runs pm p → asked_block pm p c ∨ queued pm' p c)) ∧
  (∀ cids, OpBroadcast cids ∉ out').
Proof.
  intros Hsame. unfold send_next_wants.
  destruct (foldl (next_want _ _) _ _) as [w to_send] eqn:E1. intros E2.
  apply next_want_fold in E1 as [Hw Hb]; [|apply NoDup_hm_keys|by intros c wi; rewrite elem_of_hm_iter].
  pose proof (send_peers_queued _ _ _ _ _ _ _ Hsame E2) as [_ Hq].
  apply send_peers_spec in E2 as (Hws & Hi & Hch & Hss & Hp & Hh & Ha & _ & Ho); [|done].
  split_and!; [|done|done|done|done| | |].
  - intros c. rewrite Hws. cbn. rewrite Hw. destruct (decide (c ∈ _)) as [|Hn]; [done|].
    destruct (ls_wants s !! c) as [wi|] eqn:Ec; [|done]. destruct Hn. apply elem_of_hm_keys. eauto.
  - intros p c Hc. apply Hh. by left.
  - intros p c wi Hc Hs Hbest.
    assert (∃ w, (p, w) ∈ hm_iter to_send ∧ c ∈ ws_blocks w) as Hsend.
    { assert (c ∈ blocks_for to_send p) as Hin.
      { apply Hb. right. exists wi. by rewrite elem_of_hm_iter. }
      unfold blocks_for in Hin. destruct (to_send !! p) as [w0|] eqn:Ew; simpl in Hin; [|set_solver].
      exists w0. by rewrite elem_of_hm_iter. }
    split_and!; [apply Hh; by right|intros Hsome; apply Ha; by right|].
    destruct Hsend as (w0 & Hw0 & Hin). by eapply Hq.
  - intros cids Hin%Ho. by apply not_elem_of_nil in Hin.
Qed.

(** ** [on_change] *)

(** The changes that one call handles *)
Definition batch (change : Change) (s : LoopState) : list Change :=
  change :: take (CHANGES_BUFFER_SIZE - 1) (ls_changes s).

Definition same_wants (pm pm' : PeerManagerActor) : Prop :=
  pm_peers pm' = pm_peers pm ∧ pm_wants pm' = pm_wants pm.

Lemma apply_changes_pm bpm l st : same_wants st.1.1.1.2 (foldl (apply_change draw bpm) st l).1.1.1.2.
Proof.
  apply (foldl_invariant (λ x, same_wants st.1.1.1.2 x.1.1.1.2)); [|done].
  intros [[[[s1 pm1] av] cs] us] ch _ Hs. destruct ch; simpl in *; try done. case_decide; [done|].
  unfold register_session. destruct (pm_sessions pm1 !! ls_id s1); done.
Qed.

Definition is_effect (o : ws_output) : Prop := match o with PmEffect _ => True | _ => False end.

Lemma effects_only eff : Forall is_effect (PmEffect <$> eff).
Proof. apply Forall_fmap, Forall_true. done. Qed.

Lemma availability_pm bpm av s pm :
  let r := process_availability draw bpm av s pm in
  same_wants pm r.1.1.1.2 ∧ Forall is_effect r.2.
Proof.
  apply (foldl_invariant (λ x, same_wants pm x.1.1.1.2 ∧ Forall is_effect x.2)); [|done].
  intros [[[[s1 pm1] a] u] out] [p [b n]] _ [Hs Ho]. unfold process_one_availability. simpl in Hs, Ho. destruct b.
  - unfold add_peer_to_session. destruct (pm_sessions pm1 !! ls_id s1); [case_decide|]; simpl; repeat case_match; done.
  - assert (∀ eff, Forall is_effect (out ++ (PmEffect <$> eff))) as Ho' by (intros; apply Forall_app_2; [done|apply effects_only]).
    unfold remove_peer_from_session. destruct (pm_sessions pm1 !! ls_id s1); [|split; [done|apply Ho']].
    destruct (bool_decide _); (split; [done|]); apply Ho'.
Qed.

Lemma updates_out bpm pm us s : Forall is_effect (process_updates draw bpm pm us s).2.
Proof.
  unfold process_updates. destruct (foldl (receive_keys pm) _ us) as [[s1 bs] out] eqn:E1.
  destruct (foldl (receive_dont_haves draw bpm bs) _ us) as [[s2 dh] prune].
  destruct (foldl (receive_haves draw bpm bs) _ us) as [s3 prune3]. simpl. change out with (s1, bs, out).2. rewrite <-E1.
  apply (foldl_invariant (λ x : LoopState * gset Cid * list ws_output, Forall is_effect x.2)); [|done].
  intros x u _ Hx. apply (foldl_invariant (λ x : LoopState * gset Cid * list ws_output, Forall is_effect x.2)); [|done].
  intros [[s0 b0] o0] c _ Ho. simpl in *. destruct (ls_wants s0 !! c); [|done]. cbn.
  apply Forall_app_2; [done|apply effects_only].
Qed.

(** The peer manager can be in this state. *)
Definition pm_good (pm : PeerManagerActor) : Prop := pwm_wf (pm_wants pm) ∧ same_peers pm.

(** Cancelling the wants of a session changes neither the peers nor the sessions. *)
Lemma cancel_session_pm id cs mg :
  pm_good (mg_pm mg) →
  let pm' := mg_pm (cancel_session_wants id cs mg) in
  pm_good pm' ∧ pm_sessions pm' = pm_sessions (mg_pm mg) ∧
  (∀ p, is_Some (pm_peers pm' !! p) ↔ is_Some (pm_peers (mg_pm mg) !! p)) ∧
  (∀ p, runs (mg_pm mg) p → runs pm' p) ∧ (∀ p c, asked_block pm' p c → asked_block (mg_pm mg) p c).
Proof.
  intros [Hw Hs]. unfold cancel_session_wants. destruct (remove_session_interested id cs (mg_sim mg)) as [sim l]. cbn.
  unfold pm_send_cancels. set (pm := mg_pm mg) in *.
  assert (dom (pm_peers pm) = dom (pwm_peer_wants (pm_wants pm))) as ->.
  { apply set_eq. intros p. rewrite !elem_of_dom. apply Hs. }
  destruct (pwm_send_cancels l _ (pm_wants pm)) as [m' ups] eqn:E.
  destruct (send_cancels_ok _ _ _ _ Hw E) as (Hw' & _ & Hdom).
  destruct (send_cancels_peers _ _ _ _ Hw E) as (_ & _ & _ & _ & _ & Hcp).
  assert (∀ p, is_Some (foldl post (pm_peers pm) ups !! p) ↔ is_Some (pm_peers pm !! p)) as Hp.
  { intros p. rewrite post_fold. apply fmap_is_Some. }
  split_and!; [split; [done|]|done|done| |].
  - intros p. cbn. rewrite Hp, (Hs p), <-!elem_of_dom. by rewrite Hdom.
  - intros p Hr. destruct (post_runs ups pm p Hr) as (? & ps' & _ & Hp' & Hr' & _). by exists ps'.
  - intros p c (pw' & E' & Hc). cbn in E'. assert (is_Some (pwm_peer_wants (pm_wants pm) !! p)) as [pw Epw].
    { apply elem_of_dom. rewrite <-Hdom. by eapply elem_of_dom_2. }
    destruct (Hcp p pw Epw) as (pw0 & E0 & [Hb _ _]). rewrite E' in E0. injection E0 as ->. exists pw. split; [done|]. by apply Hb in Hc as [? _].
Qed.

(** The wants that are cancelled *)
Definition cancelled (l : list Change) : list Cid := l ≫= λ ch, match ch with ChangeCancel cids => cids | _ => [] end.

Lemma apply_cancels bpm l st : (foldl (apply_change draw bpm) st l).1.2 = st.1.2 ++ cancelled l.
Proof.
  revert st. induction l as [|ch l IH]; intros st; cbn [foldl]; [by rewrite app_nil_r|]. rewrite IH. unfold cancelled at 2.
  cbn [mbind list_bind]. fold (cancelled l). rewrite (app_assoc st.1.2). f_equal.
  destruct st as [[[[s pm] av] cs] us], ch; cbn [apply_change fst snd]; rewrite ?app_nil_r; try done.
  case_decide; [done|]. by destruct (register_session _ _ _).
Qed.

(** The parts of a call: [s0] is the state before the check for exhausted wants,
    [s1] and [pm2] are the states before sending. *)
Lemma on_change_phases change s mg s' mg' out :
  pm_good (mg_pm mg) → on_change draw change s mg = (s', mg', out) →
  ∃ s0 s1 pm1 pm2 av un dh out3 out5,
    (∀ X Φ, closed (mg_bpm mg) X Φ → X ⊆ dom (ls_wants s) → not_cancelled X (batch change s) →
       (∀ c wi, ls_wants s !! c = Some wi → Φ c wi) → holds Φ (ls_id s) (ls_sent s) (ls_changes s) s0) ∧
    check_for_exhausted_wants (mg_bpm mg) pm1 dh un s0 = (s1, out3) ∧
    pm_good pm2 ∧ pm_sessions pm2 = pm_sessions pm1 ∧
    (∀ p, is_Some (pm_peers pm2 !! p) ↔ is_Some (pm_peers (mg_pm mg) !! p)) ∧
    (∀ p, runs (mg_pm mg) p → runs pm2 p) ∧ (∀ p c, asked_block pm2 p c → asked_block (mg_pm mg) p c) ∧
    (∃ out0, out = out0 ++ out3 ++ out5 ∧ Forall is_effect out0) ∧
    mg_sim mg' = (if decide (cancelled (batch change s) = []) then mg_sim mg
                  else (remove_session_interested (ls_id s1) (cancelled (batch change s)) (mg_sim mg)).1) ∧
    (if session_has_peers (ls_id s1) pm2 then send_next_wants av s1 pm2 else (s1, pm2, [])) = (s', mg_pm mg', out5).
Proof.
  intros Hgood. unfold on_change. fold (batch change s). set (bpm := mg_bpm mg). set (pm := mg_pm mg) in *.
  destruct (foldl (apply_change draw bpm) _ (batch change s)) as [[[[sa pma] av] cancels] us] eqn:E1.
  destruct (process_availability draw bpm av sa pma) as [[[[sb pmb] nav] nun] out1] eqn:E2.
  destruct (process_updates draw bpm pmb us sb) as [[sc dh] out2] eqn:E3.
  destruct (check_for_exhausted_wants bpm pmb dh nun sc) as [sd out3] eqn:E4.
  set (mg2 := if decide (cancels = []) then _ else _).
  destruct (if session_has_peers (ls_id sd) (mg_pm mg2) then _ else _) as [[se pme] out5] eqn:E5. intros [= <- <- <-].
  pose proof (apply_changes_pm bpm (batch change s)
    (ls_with_changes (drop (CHANGES_BUFFER_SIZE - 1) (ls_changes s)) s, pm, ∅, [], [])) as Hpa. rewrite E1 in Hpa.
  pose proof (apply_cancels bpm (batch change s)
    (ls_with_changes (drop (CHANGES_BUFFER_SIZE - 1) (ls_changes s)) s, pm, ∅, [], [])) as Hcs. rewrite E1 in Hcs.
  cbn [fst snd app] in Hcs.
  destruct (availability_pm bpm av sa pma) as [Hpb Ho1]. rewrite E2 in Hpb, Ho1.
  assert (pm_good pmb ∧ pm_peers pmb = pm_peers pm ∧ pm_wants pmb = pm_wants pm) as (Hgb & Hpeers & Hwants).
  { destruct Hpa as [Hpa1 Hpa2], Hpb as [Hpb1 Hpb2], Hgood as [Hw Hs]. cbn in *.
    split_and!; [|congruence..]. split; [by rewrite Hpb2, Hpa2|]. intros p. rewrite Hpb1, Hpb2, Hpa1, Hpa2. apply Hs. }
  assert (pm_good (mg_pm mg2) ∧ pm_sessions (mg_pm mg2) = pm_sessions pmb ∧
          (∀ p, is_Some (pm_peers (mg_pm mg2) !! p) ↔ is_Some (pm_peers pmb !! p)) ∧
          (∀ p, runs pmb p → runs (mg_pm mg2) p) ∧ (∀ p c, asked_block (mg_pm mg2) p c → asked_block pmb p c))
    as (Hg2 & Hs2 & Hp2 & Hr2 & Ha2).
  { unfold mg2. case_decide; [done|]. by apply (cancel_session_pm _ _ (mg_with_pm pmb mg)). }
  exists sc, sd, pmb, (mg_pm mg2), nav, nun, dh, out3, out5.
  split_and!; [|done|done|done|intros p; by rewrite Hp2, Hpeers| | | | |done].
  - intros X Φ Hc HX Hnc Hs.
    assert (holds Φ (ls_id s) (ls_sent s) (ls_changes s)
      (ls_with_changes (drop (CHANGES_BUFFER_SIZE - 1) (ls_changes s)) s)) as Hstart.
    { split; try done. simpl. intros ch Hch. left. rewrite <-(take_drop (CHANGES_BUFFER_SIZE - 1) (ls_changes s)). apply elem_of_app. by right. }
    destruct (holds_apply_changes bpm X Φ _ _ _ Hc (batch change s)
      (ls_with_changes (drop (CHANGES_BUFFER_SIZE - 1) (ls_changes s)) s, pm, ∅, [], []) Hnc HX Hstart) as [Ha _].
    rewrite E1 in Ha. pose proof (holds_process_availability bpm X Φ _ _ _ Hc av sa pma Ha) as Hb. rewrite E2 in Hb.
    pose proof (holds_process_updates bpm X Φ _ _ _ Hc pmb us sb Hb) as Hcc. by rewrite E3 in Hcc.
  - intros p Hr. apply Hr2. unfold runs in *. by rewrite Hpeers.
  - intros p c Ha%Ha2. unfold asked_block in *. by rewrite <-Hwants.
  - exists (out1 ++ out2). rewrite <-!app_assoc. split; [done|]. apply Forall_app_2; [done|].
    pose proof (updates_out bpm pmb us sb) as Ho2. by rewrite E3 in Ho2.
  - rewrite <-Hcs. cbn. unfold mg2. case_decide; [done|]. unfold cancel_session_wants.
    by destruct (remove_session_interested _ _ _).
Qed.

Lemma check_out bpm pm dh un s o :
  o ∈ (check_for_exhausted_wants bpm pm dh un s).2 → ∃ cids, o = OpBroadcast cids.
Proof.
  assert (∀ l, o ∈ (process_exhausted_wants l s).2 → ∃ cids, o = OpBroadcast cids) as Hp.
  { intros l. unfold process_exhausted_wants. destruct (foldl exhaust (s, []) l) as [s' new]. cbn.
    case_decide; [by intros ?%not_elem_of_nil|]. intros ->%list_elem_of_singleton. eauto. }
  unfold check_for_exhausted_wants. repeat case_decide; try apply Hp; by intros ?%not_elem_of_nil.
Qed.

(** What a call does around the wants *)
Lemma on_change_frame change s mg s' mg' out :
  pm_good (mg_pm mg) → on_change draw change s mg = (s', mg', out) →
  ls_id s' = ls_id s ∧
  (∀ ch, ch ∈ ls_changes s' → ch ∈ ls_changes s ∨ ∃ p b, ch = ChangeAvailability p b) ∧
  (∀ ks, OpWantsSent ks ∈ out → is_Some (pm_sessions (mg_pm mg') !! ls_id s)) ∧
  mg_sim mg' = (if decide (cancelled (batch change s) = []) then mg_sim mg
                else (remove_session_interested (ls_id s) (cancelled (batch change s)) (mg_sim mg)).1).
Proof.
  intros Hgood E. destruct (on_change_phases _ _ _ _ _ _ Hgood E)
    as (s0 & s1 & pm1 & pm2 & av & un & dh & out3 & out5 & Hph & Hck & [_ Hsame] & _ & _ & _ & _ & (out0 & -> & Heff) & Hsim & Hsend).
  assert (closed (mg_bpm mg) ∅ (λ _ _, True)) as Hcl by done.
  assert (holds (λ _ _, True) (ls_id s) (ls_sent s) (ls_changes s) s0) as Hh0.
  { apply (Hph ∅ _ Hcl); [set_solver|intros ? ? _ _; apply not_elem_of_empty|done]. }
  pose proof (holds_check (mg_bpm mg) ∅ _ _ _ _ Hcl pm1 dh un s0 Hh0) as [_ Hi1 _ Hl1].
  pose proof (check_out (mg_bpm mg) pm1 dh un s0) as Hout3. rewrite Hck in Hi1, Hl1, Hout3. cbn [fst snd] in Hi1, Hl1, Hout3.
  rewrite Hi1 in Hsend, Hsim.
  assert (ls_id s' = ls_id s1 ∧ ls_changes s' = ls_changes s1 ∧
    ∀ ks, OpWantsSent ks ∈ out5 → is_Some (pm_sessions (mg_pm mg') !! ls_id s)) as (Hi & Hl & Hsent).
  { destruct (session_has_peers (ls_id s) pm2) eqn:Eh.
    - apply send_next_wants_spec in Hsend as (_ & Hi & Hl & Hss & _); [|done]. split_and!; [done|done|].
      intros ks _. rewrite Hss. unfold session_has_peers, session_query in Eh. destruct (pm_sessions pm2 !! ls_id s); [eauto|done].
    - injection Hsend as -> <- <-. split_and!; [done|done|]. by intros ks ?%not_elem_of_nil. }
  split_and!; [congruence|rewrite Hl; apply Hl1| |done].
  intros ks. rewrite !elem_of_app. intros [Hin|[Hin|Hin]]; [|by destruct (Hout3 _ Hin)|by eapply Hsent].
  rewrite Forall_forall in Heff. by apply Heff in Hin.
Qed.

(** ** Runs *)

(** Another change enters the channel, or a change is handled.  The managers are
    those of that moment; the peer manager is in any state it can reach. *)
Inductive ws_event :=
  | WsSignal (change : Change)
  | WsChange (sim : Interests) (bpm : Presence) (pevs : list pm_event) (change : Change).

Definition manager_after (pevs : list pm_event) : PeerManagerActor := (pm_run pevs PeerManagerActor_new).1.

Definition managers_at (sim : Interests) (bpm : Presence) (pevs : list pm_event) : Managers :=
  {| mg_sim := sim; mg_bpm := bpm; mg_pm := manager_after pevs |}.

Definition ws_step (s : LoopState) (ev : ws_event) : LoopState :=
  match ev with
  | WsSignal change => signal_change change s
  | WsChange sim bpm pevs change => (on_change draw change s (managers_at sim bpm pevs)).1.1
  end.
Definition ws_run (id : Z) (evs : list ws_event) : LoopState := foldl ws_step (LoopState_new id) evs.

Definition want_ok (t : SentWantBlocks) (c : Cid) (wi : WantInfo) : Prop :=
  best_ok wi ∧ ∀ p, wi_sent_to wi = Some p → have_sent_want_block_to p c t = true.

Definition ws_ok (s : LoopState) : Prop := ∀ c wi, ls_wants s !! c = Some wi → want_ok (ls_sent s) c wi.

Lemma want_ok_closed bpm t : closed bpm ∅ (want_ok t).
Proof.
  split.
  - intros c _. split; [|done]. unfold best_ok. simpl. intros q b. by rewrite lookup_empty.
  - intros c wi r q d [_ Hs]. destruct (update_want_spec bpm r c q d wi) as (Hb & _ & Hst & _). split; [done|].
    intros p. rewrite Hst. apply Hs.
  - intros c wi r q d [_ Hs]. destruct (wi_remove_spec r q d wi) as (Hb & _ & Hst & _). split; [done|].
    intros p Hp. apply Hs. destruct Hst as [Hst|Hst]; congruence.
  - intros c wi [Hb _]. by split.
  - intros c wi [Hb Hs]. by split.
Qed.

Lemma managers_good sim bpm pevs : pm_good (mg_pm (managers_at sim bpm pevs)).
Proof.
  pose proof (pm_run_wf _ _ _ (pm_new_wf _) (no_restarts_none pevs _)) as Ha. split; [by apply (pm_wf_wants _ _ Ha)|].
  intros p. rewrite <-!elem_of_dom. cbn. unfold manager_after. by rewrite (pm_wf_dom _ _ Ha).
Qed.

Lemma sending_ok t t' c wi :
  (∀ p, have_sent_want_block_to p c t = true → have_sent_want_block_to p c t' = true) →
  (∀ p, wi_sent_to wi = None → wi_best_peer wi = Some p → have_sent_want_block_to p c t' = true) →
  want_ok t c wi →
  want_ok t' c (sending wi) ∧
  (wi_sent_to (sending wi) = None → ∀ q b, wi_presence (sending wi) !! q = Some b → b = BpDontHave).
Proof.
  intros Ht Hn [Hb Hs]. unfold sending. destruct (wi_sent_to wi) as [p|] eqn:Es.
  - split; [|congruence]. split; [done|]. intros q. rewrite Es. auto.
  - destruct (wi_best_peer wi) as [p|] eqn:Eb.
    + split; [|done]. split; [done|]. simpl. intros q [= <-]. auto.
    + split; [split; [done|]; intros q; congruence|]. unfold best_ok in Hb. by rewrite Eb in Hb.
Qed.

(** Every want that is tracked after a change *)
Lemma on_change_ok change s mg s' mg' out :
  pm_good (mg_pm mg) → ws_ok s → on_change draw change s mg = (s', mg', out) →
  ls_id s' = ls_id s ∧ ws_ok s' ∧
  (session_has_peers (ls_id s) (mg_pm mg') = true → ∀ c wi, ls_wants s' !! c = Some wi → wi_sent_to wi = None →
     ∀ q b, wi_presence wi !! q = Some b → b = BpDontHave).
Proof.
  intros Hgood Hs E. destruct (on_change_phases _ _ _ _ _ _ Hgood E)
    as (s0 & s1 & pm1 & pm2 & av & un & dh & out3 & out5 & Hph & Hck & [_ Hsame] & _ & _ & _ & _ & _ & _ & Hsend).
  pose proof (want_ok_closed (mg_bpm mg) (ls_sent s)) as Hcl.
  assert (holds (want_ok (ls_sent s)) (ls_id s) (ls_sent s) (ls_changes s) s0) as Hh0.
  { apply (Hph ∅ _ Hcl); [set_solver|intros ? ? _ _; apply not_elem_of_empty|done]. }
  pose proof (holds_check (mg_bpm mg) ∅ _ _ _ _ Hcl pm1 dh un s0 Hh0) as [Hw1 Hi1 Ht1 _]. rewrite Hck in Hw1, Hi1, Ht1.
  cbn [fst] in Hw1, Hi1, Ht1. rewrite Hi1 in Hsend. destruct (session_has_peers (ls_id s) pm2) eqn:Ehas.
  - apply send_next_wants_spec in Hsend as (Hw & Hi & _ & Hss & _ & Ht & Hn & _); [|done].
    assert (∀ c wi, ls_wants s' !! c = Some wi → want_ok (ls_sent s') c wi ∧
      (wi_sent_to wi = None → ∀ q b, wi_presence wi !! q = Some b → b = BpDontHave)) as Hall.
    { intros c wi. rewrite Hw. intros (wi1 & E1 & ->)%fmap_Some. eapply (sending_ok (ls_sent s1)).
      - intros p. apply Ht.
      - intros p Hsn Hb. by eapply Hn.
      - rewrite Ht1. by apply Hw1. }
    split_and!; [congruence|intros c wi Hc; exact (proj1 (Hall c wi Hc))|]. intros _ c wi Hc. exact (proj2 (Hall c wi Hc)).
  - injection Hsend as -> <- <-. split_and!; [done|intros c wi Hc; rewrite Ht1; by apply Hw1|]. congruence.
Qed.

Lemma ws_run_ok id evs : ws_ok (ws_run id evs) ∧ ls_id (ws_run id evs) = id.
Proof.
  unfold ws_run. apply (foldl_invariant (λ s, ws_ok s ∧ ls_id s = id)).
  - intros s ev _ [Hs Hi]. destruct ev as [change|sim bpm pevs change]; simpl.
    + unfold signal_change. by case_match.
    + destruct (on_change draw change s (managers_at sim bpm pevs)) as [[s' mg'] out] eqn:E.
      destruct (on_change_ok _ _ _ _ _ _ (managers_good sim bpm pevs) Hs E) as (Hi' & Hs' & _). simpl. split; [done|congruence].
  - split; [|done]. intros c wi. simpl. by rewrite lookup_empty.
Qed.

(** ** Want-blocks reach the peer manager *)

(** The wants that were with a peer before *)
Definition with_peer (w : gmap Cid WantInfo) (c : Cid) (wi : WantInfo) : Prop :=
  ∀ p, wi_sent_to wi = Some p → ∃ wi0, w !! c = Some wi0 ∧ wi_sent_to wi0 = Some p.

Lemma with_peer_closed bpm w : closed bpm ∅ (with_peer w).
Proof.
  split; [done| | |done|done].
  - intros c wi r q d Hs p. destruct (update_want_spec bpm r c q d wi) as (_ & _ & -> & _). apply Hs.
  - intros c wi r q d Hs p. destruct (wi_remove_spec r q d wi) as (_ & _ & [->| ->] & _); [done|apply Hs].
Qed.

Definition view_block (pm : PeerManagerActor) (p : PeerId) (c : Cid) : Prop :=
  peer_view (pm_wants pm) p c = Some WantType_Block.

Lemma asked_view pm p c : asked_block pm p c → view_block pm p c.
Proof. intros (pw & Hpw & Hin). unfold view_block, peer_view. rewrite Hpw, bool_decide_true by done. by case_bool_decide. Qed.

(** What becomes of a want that is newly given to a peer: the peer manager has it as a
    want-block of the peer, and the queue of the peer, if it runs, was given it now, unless
    the peer manager had it before.  A peer that the peer manager does not know gets
    nothing. *)
Definition handed_to (pm pm' : PeerManagerActor) (p : PeerId) (c : Cid) : Prop :=
  match pm_peers pm !! p with
  | Some ps =>
      view_block pm' p c ∧ (q_running (ps_queue ps) = true → view_block pm p c ∨ queued pm' p c)
  | None => pm_peers pm' !! p = None
  end.

Lemma want_handed id evs sim bpm pevs change c p s' mg' out :
  let s := ws_run id evs in
  on_change draw change s (managers_at sim bpm pevs) = (s', mg', out) →
  get_want_sent_to c s' = Some p → get_want_sent_to c s ≠ Some p → handed_to (manager_after pevs) (mg_pm mg') p c.
Proof.
  intros s E. unfold get_want_sent_to. intros (wi & Hc & Hp)%bind_Some Hnew.
  destruct (on_change_phases _ _ _ _ _ _ (managers_good sim bpm pevs) E)
    as (s0 & s1 & pm1 & pm2 & av & un & dh & out3 & out5 & Hph & Hck & [_ Hsame] & _ & Hpeers & Hruns & Hasked & _ & _ & Hsend).
  pose proof (with_peer_closed bpm (ls_wants s)) as Hcl.
  assert (holds (with_peer (ls_wants s)) (ls_id s) (ls_sent s) (ls_changes s) s0) as Hh0.
  { apply (Hph ∅ _ Hcl); [set_solver|intros ? ? _ _; apply not_elem_of_empty|]. intros c0 wi0 Hc0 p0 Hp0. eauto. }
  pose proof (holds_check bpm ∅ _ _ _ _ Hcl pm1 dh un s0 Hh0) as [Hw1 _ _ _]. cbn [mg_bpm managers_at] in Hck.
  rewrite Hck in Hw1. cbn [fst] in Hw1.
  assert (∀ wi1, ls_wants s1 !! c = Some wi1 → wi_sent_to wi1 ≠ Some p) as Hnot.
  { intros wi1 Hc1 Hs1. destruct (Hw1 _ _ Hc1 _ Hs1) as (wi0 & Hc0 & Hs0). apply Hnew. by rewrite Hc0. }
  destruct (session_has_peers (ls_id s1) pm2).
  2:{ injection Hsend as -> _ <-. by destruct (Hnot _ Hc). }
  apply send_next_wants_spec in Hsend as (Hw & _ & _ & _ & Hdom & _ & Hn & _); [|done].
  rewrite Hw in Hc. apply fmap_Some in Hc as (wi1 & E1 & ->). unfold sending in Hp.
  destruct (wi_sent_to wi1) as [q|] eqn:Es; [by destruct (Hnot wi1)|].
  destruct (wi_best_peer wi1) as [q|] eqn:Eb; [|congruence]. injection Hp as ->.
  destruct (Hn _ _ _ E1 Es Eb) as (_ & Hask & Hq). unfold handed_to. cbn [mg_pm managers_at] in Hpeers, Hruns, Hasked.
  destruct (pm_peers (manager_after pevs) !! p) as [ps|] eqn:Ep.
  - split; [apply asked_view, Hask, Hpeers; eauto|]. intros Hr. destruct Hq as [Hq|Hq]; [apply Hruns; by exists ps| |by right].
    left. by apply asked_view, Hasked.
  - apply eq_None_not_Some. rewrite Hdom, Hpeers, Ep. by intros [? [=]].
Qed.


(** ** Exhausted wants *)

Lemma exhaust_fold l s s' new :
  foldl exhaust (s, []) l = (s', new) →
  NoDup new ∧ ∀ c, c ∈ new →
    c ∈ l ∧ (∃ wi, ls_wants s !! c = Some wi ∧ wi_exhausted wi = false) ∧
    (∃ wi, ls_wants s' !! c = Some wi ∧ wi_exhausted wi = true).
Proof.
  revert s' new. induction l as [|x l IH] using rev_ind; intros s' new.
  { intros [= <- <-]. split; [apply NoDup_nil_2|]. intros c ?%not_elem_of_nil. done. }
  rewrite foldl_app. cbn [foldl]. destruct (foldl exhaust (s, []) l) as [s1 new1] eqn:E. destruct (IH _ _ eq_refl) as [Hnd Hnew].
  assert (∀ c, default false (wi_exhausted <$> ls_wants s !! c) = true → default false (wi_exhausted <$> ls_wants s1 !! c) = true) as Hmono.
  { change s1 with (s1, new1).1. rewrite <-E. clear. intros c Hc.
    apply (foldl_invariant (λ x : LoopState * list Cid, default false (wi_exhausted <$> ls_wants x.1 !! c) = true)); [|done].
    intros [x n] y _ Hx. simpl in *. destruct (ls_wants x !! y) as [wi|] eqn:E; [|done]. destruct (wi_exhausted wi); [done|].
    cbn. rewrite lookup_insert. by case_decide. }
  assert (∀ c, is_Some (ls_wants s1 !! c) ↔ is_Some (ls_wants s !! c)) as Hdom.
  { change s1 with (s1, new1).1. rewrite <-E. clear. intros c.
    apply (foldl_invariant (λ x : LoopState * list Cid, is_Some (ls_wants x.1 !! c) ↔ is_Some (ls_wants s !! c))); [|done].
    intros [x n] y _ Hx. simpl in *. destruct (ls_wants x !! y) as [wi|] eqn:E; [|done]. destruct (wi_exhausted wi); [done|].
    cbn. rewrite lookup_insert_is_Some, <-Hx. destruct (decide (y = c)); [subst; rewrite E; naive_solver|naive_solver]. }
  cbn [exhaust]. destruct (ls_wants s1 !! x) as [wi|] eqn:Ex; [destruct (wi_exhausted wi) eqn:Ee|]; intros [= <- <-].
  1,3: split; [done|]; intros c Hc; destruct (Hnew c Hc) as (? & ? & ?); split_and!; [apply elem_of_app; by left|done|done].
  assert (x ∉ new1) as Hx. { intros Hx. destruct (Hnew x Hx) as (_ & _ & wi' & ? & ?). congruence. }
  split.
  { apply NoDup_app. split_and!; [done| |apply NoDup_singleton]. intros c Hc ->%list_elem_of_singleton. done. }
  intros c. rewrite !elem_of_app, !list_elem_of_singleton. cbn. intros [Hc| ->].
  - destruct (Hnew c Hc) as (? & ? & ?). split_and!; [by left|done|]. rewrite lookup_insert_ne; [done|]. by intros ->.
  - split_and!; [by right| |].
    + destruct (Hdom x) as [[wi0 Hwi0] _]; [eauto|]. exists wi0. split; [done|]. specialize (Hmono x).
      rewrite Ex, Hwi0 in Hmono. simpl in Hmono. destruct (wi_exhausted wi0); [|done]. rewrite Hmono in Ee by done. done.
    + eexists. split; [apply lookup_insert_eq|done].
Qed.

Lemma all_dont_have_sound peers keys (bpm : Presence) c :
  c ∈ all_peers_do_not_have_block peers keys bpm → ∀ p, p ∈ peers → peer_does_not_have_block p c bpm = true.
Proof.
  unfold all_peers_do_not_have_block. intros [Hc _]%list_elem_of_filter p Hp. unfold all_dont_have in Hc.
  unfold peer_does_not_have_block. destruct (bpm !! c) as [ps|]; [|done]. by rewrite (proj1 (all_dont_have_loop_spec _ _) Hc p Hp).
Qed.

Lemma check_spec bpm pm dh un s s' out cids :
  check_for_exhausted_wants bpm pm dh un s = (s', out) → OpBroadcast cids ∈ out →
  NoDup cids ∧ ∀ c, c ∈ cids →
    (∃ wi, ls_wants s !! c = Some wi ∧ wi_exhausted wi = false) ∧
    (∃ wi, ls_wants s' !! c = Some wi ∧ wi_exhausted wi = true) ∧
    (session_has_peers (ls_id s) pm = false ∨
     ∀ p, p ∈ peers_for_session (ls_id s) pm → peer_does_not_have_block p c bpm = true).
Proof.
  assert (∀ l Q, (∀ c, c ∈ l → Q c) → process_exhausted_wants l s = (s', out) → OpBroadcast cids ∈ out →
    NoDup cids ∧ ∀ c, c ∈ cids → (∃ wi, ls_wants s !! c = Some wi ∧ wi_exhausted wi = false) ∧
      (∃ wi, ls_wants s' !! c = Some wi ∧ wi_exhausted wi = true) ∧ Q c) as Hproc.
  { intros l Q HQ. unfold process_exhausted_wants. destruct (foldl exhaust (s, []) l) as [s1 new] eqn:E.
    intros [= <- <-]. case_decide; [by intros ?%not_elem_of_nil|]. intros [= ->]%list_elem_of_singleton.
    destruct (exhaust_fold _ _ _ _ E) as [Hnd Hall]. split; [done|]. intros c Hc. destruct (Hall c Hc) as (? & ? & ?). auto. }
  unfold check_for_exhausted_wants. destruct (decide (dh = ∅ ∧ un = [])).
  { intros [= <- <-] ?%not_elem_of_nil. done. }
  destruct (decide (un ≠ [] ∧ session_has_peers (ls_id s) pm = false)) as [[_ Hno]|]; [apply Hproc; by left|].
  set (wants := if decide (un = []) then dh else _). destruct (decide (wants = ∅)).
  { intros [= <- <-] ?%not_elem_of_nil. done. }
  apply Hproc. intros c Hc. right. by eapply all_dont_have_sound.
Qed.

Lemma exhausted_closed bpm c :
  (∀ q, peer_has_block q c bpm = false) →
  closed bpm {[c]} (λ c' wi, c' = c → wi_exhausted wi = true).
Proof.
  intros Hno. split; [set_solver| | |done|done].
  - intros c' wi r q d Hs ->. destruct (update_want_spec bpm r c q d wi) as (_ & _ & _ & ->).
    unfold presence_info. rewrite Hno. rewrite decide_False by (by case_match). by apply Hs.
  - intros c' wi r q d Hs ->. destruct (wi_remove_spec r q d wi) as (_ & _ & _ & ->). by apply Hs.
Qed.

Lemma newly_exhausted_why bpm c l s s0 wi wi0 :
  (∀ X Φ, closed bpm X Φ → X ⊆ dom (ls_wants s) → not_cancelled X l →
     (∀ c wi, ls_wants s !! c = Some wi → Φ c wi) → holds Φ (ls_id s) (ls_sent s) (ls_changes s) s0) →
  ls_wants s !! c = Some wi → wi_exhausted wi = true → ls_wants s0 !! c = Some wi0 → wi_exhausted wi0 = false →
  (∃ p, peer_has_block p c bpm = true) ∨ ∃ cs, ChangeCancel cs ∈ l ∧ c ∈ cs.
Proof.
  intros Hph Hwi Hewi Hwi0 Hewi0.
  set (cancels ch := match ch with ChangeCancel cs => bool_decide (c ∈ cs) | _ => false end).
  destruct (decide (Exists (λ ch, cancels ch = true) l)) as [Hx|Hx].
  { right. apply Exists_exists in Hx as (ch & Hch & Hcs). destruct ch; try done.
    exists cids. split; [done|]. by apply bool_decide_eq_true in Hcs. }
  left. destruct (decide (Exists (λ p, peer_has_block p c bpm = true) (hm_keys (default ∅ (bpm !! c))))) as [Hy|Hy].
  { apply Exists_exists in Hy as (p & _ & Hp). eauto. }
  exfalso. assert (∀ q, peer_has_block q c bpm = false) as Hno.
  { intros q. apply not_true_is_false. intros Hq. apply Hy, Exists_exists. exists q. split; [|done].
    apply elem_of_hm_keys. unfold peer_has_block in Hq. destruct (bpm !! c) as [ps|]; [|done]. simpl.
    destruct (ps !! q); [eauto|done]. }
  destruct (Hph {[c]} _ (exhausted_closed bpm c Hno)) as [Hw0 _ _ _].
  - apply singleton_subseteq_l. by eapply elem_of_dom_2.
  - intros cs c' Hcs Hc' ->%elem_of_singleton. apply Hx, Exists_exists. exists (ChangeCancel cs).
    split; [done|]. by apply bool_decide_eq_true.
  - intros c' wi' Hc' ->. congruence.
  - specialize (Hw0 _ _ Hwi0 eq_refl). congruence.
Qed.

(** A broadcast is asked for only when it is needed and once.  The wants that a
    want sender reports as exhausted are tracked and marked, each peer of the
    session said that it does not have them or the session has no peers, and a want
    that was reported before is not reported again while it stays tracked and no
    peer is known to have the block. *)
Theorem exhausted_sound id evs sim bpm pevs change cids :
  let s := ws_run id evs in
  let '(s', mg', out) := on_change draw change s (managers_at sim bpm pevs) in
  OpBroadcast cids ∈ out →
  NoDup cids ∧ ∀ c, c ∈ cids →
    (∃ wi, ls_wants s' !! c = Some wi ∧ wi_exhausted wi = true) ∧
    (session_has_peers id (mg_pm mg') = false ∨
     ∀ p, p ∈ peers_for_session id (mg_pm mg') → peer_does_not_have_block p c bpm = true) ∧
    (∀ wi, ls_wants s !! c = Some wi → wi_exhausted wi = true →
       (∃ p, peer_has_block p c bpm = true) ∨ ∃ cs, ChangeCancel cs ∈ batch change s ∧ c ∈ cs).
Proof.
  intros s. destruct (on_change draw change s _) as [[s' mg'] out] eqn:E. destruct (ws_run_ok id evs) as [_ Hid].
  fold s in Hid. intros Hout. destruct (on_change_phases _ _ _ _ _ _ (managers_good sim bpm pevs) E)
    as (s0 & s1 & pm1 & pm2 & av & un & dh & out3 & out5 & Hph & Hck & [_ Hsame] & Hs2 & _ & _ & _ & Hbc & _ & Hsend).
  cbn [mg_bpm managers_at] in Hck, Hph. assert (ls_id s0 = id) as Hid0.
  { rewrite <-Hid. apply (Hph ∅ (λ _ _, True)); [by split|set_solver|intros ? ? _ _; apply not_elem_of_empty|done]. }
  assert (OpBroadcast cids ∈ out3 ∧ (∀ c, (∃ wi, ls_wants s1 !! c = Some wi ∧ wi_exhausted wi = true) →
    ∃ wi, ls_wants s' !! c = Some wi ∧ wi_exhausted wi = true) ∧ pm_sessions (mg_pm mg') = pm_sessions pm1)
    as (Hin & Hkeep & Hss).
  { destruct Hbc as (out0 & -> & Heff). rewrite !elem_of_app in Hout. destruct Hout as [Hout|Hout].
    { rewrite Forall_forall in Heff. by apply Heff in Hout. }
    destruct (session_has_peers (ls_id s1) pm2).
    - apply send_next_wants_spec in Hsend as (Hw & _ & _ & Hss & _ & _ & _ & Hno); [|done].
      split_and!; [destruct Hout; [done|by destruct (Hno cids)]| |congruence]. intros c (wi & Hc & He).
      exists (sending wi). rewrite Hw, Hc. split; [done|]. unfold sending. by repeat case_match.
    - injection Hsend as -> <- <-. split_and!; [|done|done]. destruct Hout as [?|?%not_elem_of_nil]; done. }
  destruct (check_spec _ _ _ _ _ _ _ _ Hck Hin) as [Hnd Hall]. split; [done|]. intros c Hc.
  destruct (Hall c Hc) as ((wi0 & Hc0 & He0) & Hex & Hwhy). rewrite Hid0 in Hwhy.
  split_and!; [by apply Hkeep|unfold session_has_peers, session_query, peers_for_session in *; by rewrite Hss|].
  intros wi Hwi Hewi. by eapply newly_exhausted_why.
Qed.

(** ** Which wants are tracked *)

Definition tracked (s : LoopState) : gset Cid := dom (ls_wants s).

Definition track_change (D : gset Cid) (ch : Change) : gset Cid :=
  match ch with
  | ChangeAdd cids => D ∪ list_to_set cids
  | ChangeCancel cids => D ∖ list_to_set cids
  | _ => D
  end.
Definition update_of (ch : Change) : option Update := match ch with ChangeUpdate u => Some u | _ => None end.
Definition received (us : list Update) : gset Cid := list_to_set (us ≫= up_keys).

Lemma tracked_apply bpm l st :
  tracked (foldl (apply_change draw bpm) st l).1.1.1.1 = foldl track_change (tracked st.1.1.1.1) l ∧
  (foldl (apply_change draw bpm) st l).2 = st.2 ++ omap update_of l.
Proof.
  revert st. induction l as [|ch l IH]; intros st; cbn [foldl omap list_omap].
  { by rewrite app_nil_r. }
  destruct (IH (apply_change draw bpm st ch)) as [-> ->]. clear IH. destruct st as [[[[s pm] av] cs] us].
  assert (∀ peers cids s, tracked (foldl (track_want draw bpm peers) s cids) = tracked s ∪ list_to_set cids) as Hadd.
  { intros peers cids. induction cids as [|c cids IH]; intros s0; cbn [foldl list_to_set]; [set_solver|].
    rewrite IH. unfold tracked at 1. rewrite track_dom. unfold tracked. set_solver. }
  assert (∀ cids s, tracked (foldl (λ s c, untrack_want c s) s cids) = tracked s ∖ list_to_set cids) as Hdel.
  { intros cids. induction cids as [|c cids IH]; intros s0; cbn [foldl list_to_set]; [set_solver|].
    rewrite IH. unfold tracked. simpl. rewrite dom_delete_L. set_solver. }
  destruct ch as [cids|cids|u|p b]; cbn [apply_change track_change update_of].
  - unfold track_wants. cbn [fst]. by rewrite Hadd.
  - cbn [fst]. by rewrite Hdel.
  - case_decide; [|destruct (register_session _ _ _)]; cbn [fst snd]; by rewrite <-app_assoc.
  - done.
Qed.

Lemma tracked_map f s : tracked (map_wants f s) = tracked s.
Proof.
  unfold map_wants. destruct (foldl _ _ _) as [w d] eqn:E. unfold tracked. cbn. change w with (w, d).1. rewrite <-E.
  apply (foldl_invariant (λ x : gmap Cid WantInfo * nat, dom x.1 = dom (ls_wants s))); [|done].
  intros [w0 d0] [c wi] Hin Hx. destruct (f c d0 wi). cbn in *. apply elem_of_hm_iter, elem_of_dom_2 in Hin.
  rewrite dom_insert_L, Hx. set_solver.
Qed.

Lemma tracked_replace c wi wi' d s : ls_wants s !! c = Some wi → tracked (ls_with_wants (<[c := wi']> (ls_wants s)) d s) = tracked s.
Proof. intros Hc%elem_of_dom_2. unfold tracked. cbn. rewrite dom_insert_L. set_solver. Qed.

Lemma tracked_availability bpm av s pm : tracked (process_availability draw bpm av s pm).1.1.1.1 = tracked s.
Proof.
  apply (foldl_invariant (λ x, tracked x.1.1.1.1 = tracked s)); [|done].
  intros [[[[s1 pm1] a] u] out] [p [b n]] _ Hx. simpl in Hx. unfold process_one_availability.
  destruct b; [destruct (add_peer_to_session _ _ _) as [pm' new]; destruct (new || default false n); [|done]
              |destruct (remove_peer_from_session _ _ _) as [[pm' was] eff]; destruct was; [|done]];
    rewrite <-Hx; apply (tracked_map _ s1).
Qed.

Lemma tracked_refresh bpm c q s : tracked (refresh_presence draw bpm c q s) = tracked s.
Proof.
  unfold refresh_presence. destruct (ls_wants s !! c) as [wi|] eqn:E; [|done].
  destruct (update_want_block_presence _ _ _ _ _ _ _). by eapply tracked_replace.
Qed.

Lemma tracked_keys pm us st :
  tracked (foldl (receive_keys pm) st us).1.1 = tracked st.1.1 ∖ received us.
Proof.
  assert (∀ p l st, tracked (foldl (receive_key pm p) st l).1.1 = tracked st.1.1 ∖ list_to_set l) as Hkeys.
  { intros p l. induction l as [|c l IH]; intros st0; cbn [foldl list_to_set]; [set_solver|]. rewrite IH.
    destruct st0 as [[s0 b0] o0]. cbn [receive_key fst]. destruct (ls_wants s0 !! c) eqn:E; cbn [fst].
    - unfold tracked. cbn. rewrite dom_delete_L. set_solver.
    - apply not_elem_of_dom in E. unfold tracked. set_solver. }
  unfold received. revert st. induction us as [|u us IH]; intros st; cbn [foldl mbind list_bind list_to_set]; [set_solver|].
  rewrite IH. unfold receive_keys at 1. rewrite Hkeys, list_to_set_app_L. set_solver.
Qed.

Lemma tracked_dont_haves bpm bs us st : tracked (foldl (receive_dont_haves draw bpm bs) st us).1.1 = tracked st.1.1.
Proof.
  apply (foldl_invariant (λ x : LoopState * gset Cid * gset PeerId, tracked x.1.1 = tracked st.1.1)); [|done].
  intros x u _ Hx. apply (foldl_invariant (λ x : LoopState * gset Cid * gset PeerId, tracked x.1.1 = tracked st.1.1)); [|done].
  clear. intros [[s dh] prune] c _ Hs. cbn [receive_dont_have]. destruct (decide (c ∈ bs)); [done|].
  set (s1 := ls_with_dont_haves _ s). cbn [fst].
  assert (tracked (refresh_presence draw bpm c (up_from u) s1) = tracked st.1.1) as H1' by (by rewrite tracked_refresh).
  repeat case_match; try done. unfold set_want_sent_to. case_match; [|done]. by erewrite tracked_replace.
Qed.

Lemma tracked_haves bpm bs us st : tracked (foldl (receive_haves draw bpm bs) st us).1 = tracked st.1.
Proof.
  apply (foldl_invariant (λ x : LoopState * gset PeerId, tracked x.1 = tracked st.1)); [|done].
  intros x u _ Hx. apply (foldl_invariant (λ x : LoopState * gset PeerId, tracked x.1 = tracked st.1)); [|done].
  clear. intros [s prune] c _ Hs. cbn [receive_have fst]. destruct (decide (c ∈ bs)); [done|].
  rewrite <-Hs. apply (tracked_refresh bpm c (up_from u) s).
Qed.

Lemma tracked_updates bpm pm us s : tracked (process_updates draw bpm pm us s).1.1 = tracked s ∖ received us.
Proof.
  unfold process_updates. pose proof (tracked_keys pm us (s, ∅, [])) as Hk.
  destruct (foldl (receive_keys pm) _ us) as [[s1 bs] out].
  pose proof (tracked_dont_haves bpm bs us (s1, ∅, ∅)) as Hd.
  destruct (foldl (receive_dont_haves draw bpm bs) _ us) as [[s2 dh] prune].
  pose proof (tracked_haves bpm bs us (s2, prune)) as Hh.
  destruct (foldl (receive_haves draw bpm bs) _ us) as [s3 prune3]. cbn [fst] in *.
  rewrite <-Hk, <-Hd, <-Hh. apply (foldl_invariant (λ x, tracked x = tracked s3)); [|done].
  intros x p _ Hx. unfold signal_change. by case_match.
Qed.

Lemma tracked_check bpm pm dh un s : tracked (check_for_exhausted_wants bpm pm dh un s).1 = tracked s.
Proof.
  assert (∀ l, tracked (process_exhausted_wants l s).1 = tracked s) as Hp.
  { intros l. unfold process_exhausted_wants. destruct (foldl exhaust (s, []) l) as [s' new] eqn:E. cbn.
    change s' with (s', new).1. rewrite <-E. apply (foldl_invariant (λ x : LoopState * list Cid, tracked x.1 = tracked s)); [|done].
    intros [s1 n1] c _ Hx. cbn [exhaust fst] in *. destruct (ls_wants s1 !! c) eqn:Ec; [|done].
    case_match; [done|]. rewrite <-Hx. by eapply tracked_replace. }
  unfold check_for_exhausted_wants. repeat case_decide; try done; apply Hp.
Qed.

Lemma on_change_tracks change s mg s' mg' out :
  pm_good (mg_pm mg) → on_change draw change s mg = (s', mg', out) →
  tracked s' = foldl track_change (tracked s) (batch change s) ∖ received (omap update_of (batch change s)).
Proof.
  intros Hgood. unfold on_change. fold (batch change s). set (bpm := mg_bpm mg). set (pm := mg_pm mg) in *.
  destruct (tracked_apply bpm (batch change s)
    (ls_with_changes (drop (CHANGES_BUFFER_SIZE - 1) (ls_changes s)) s, pm, ∅, [], [])) as [Ha Hus].
  pose proof (apply_changes_pm bpm (batch change s)
    (ls_with_changes (drop (CHANGES_BUFFER_SIZE - 1) (ls_changes s)) s, pm, ∅, [], [])) as Hpa.
  destruct (foldl (apply_change draw bpm) _ (batch change s)) as [[[[sa pma] av] cancels] us].
  pose proof (tracked_availability bpm av sa pma) as Hb. pose proof (availability_pm bpm av sa pma) as [Hpm _].
  destruct (process_availability draw bpm av sa pma) as [[[[sb pmb] nav] nun] out1].
  pose proof (tracked_updates bpm pmb us sb) as Hc. destruct (process_updates draw bpm pmb us sb) as [[sc dh] out2].
  pose proof (tracked_check bpm pmb dh nun sc) as Hd. destruct (check_for_exhausted_wants bpm pmb dh nun sc) as [sd out3].
  set (mg2 := if decide (cancels = []) then _ else _). cbn [fst snd app] in *.
  assert (pm_good (mg_pm mg2)) as [_ Hs2].
  { assert (pm_good pmb) as Hgb.
    { destruct Hgood as [Hw Hs], Hpm as [Hm1 Hm2], Hpa as [Hm3 Hm4].
      split; [by rewrite Hm2, Hm4|]. intros q. rewrite Hm1, Hm2, Hm3, Hm4. apply Hs. }
    unfold mg2. case_decide; [done|]. by apply (cancel_session_pm _ _ (mg_with_pm pmb mg)). }
  assert (tracked sd = foldl track_change (tracked s) (batch change s) ∖ received (omap update_of (batch change s))) as Hsd
    by (by rewrite Hd, Hc, Hb, Ha, Hus).
  destruct (session_has_peers (ls_id sd) (mg_pm mg2)); [|by intros [= <- <- <-]].
  destruct (send_next_wants nav sd (mg_pm mg2)) as [[se pme] out5] eqn:E5. intros [= <- <- <-]. rewrite <-Hsd.
  apply send_next_wants_spec in E5 as (Hw & _); [|done].
  apply set_eq. intros c. unfold tracked. by rewrite !elem_of_dom, Hw, fmap_is_Some.
Qed.

(** The wants of a session that are tracked are exactly those that were added and
    since then neither cancelled nor received: one change, with the changes that are
    waiting, adds and cancels wants in their order and then removes every block
    that came with an update. *)
Theorem want_sender_tracks id evs sim bpm pevs change :
  let s := ws_run id evs in
  let s' := (on_change draw change s (managers_at sim bpm pevs)).1.1 in
  tracked s' = foldl track_change (tracked s) (batch change s) ∖ received (omap update_of (batch change s)).
Proof.
  intros s s'. unfold s'. destruct (on_change draw change s _) as [[s1 mg'] out] eqn:E. cbn [fst].
  by eapply on_change_tracks, E; apply managers_good.
Qed.
End facts.

(** ** Witnesses *)

Module WantSenderWitness.
Import Toy.

Definition p1 : @PeerId ids := 1%nat.
Definition p2 : @PeerId ids := 2%nat.
Definition k1 : @Cid ids := [1].
Definition k2 : @Cid ids := [2].
Definition first_draw : nat → Z → Z → bool := λ _ _ _, true.

(** Two peers are connected; one is in session 7. *)
Definition connected : list pm_event :=
  [PmMessage (Connected p1); PmMessage (Connected p2); PmMessage (RegisterSession p1 7)].
(** Both keys are wanted. *)
Definition adding : list ws_event := [WsChange ∅ ∅ [] (ChangeAdd [k1; k2])].

Definition have1 : Presence := bpm_receive_from p2 [k1] [] ∅.
Definition update2 : Change :=
  ChangeUpdate {| up_from := p2; up_keys := []; up_haves := [k1]; up_dont_haves := [] |}.
Definition after_have := on_change first_draw update2 (ws_run first_draw 7 adding) (managers_at ∅ have1 connected).
Definition info1 : WantInfo := default WantInfo_new (ls_wants after_have.1.1 !! k1).


(** A peer that is gone stays in the session until its want sender hears of it: a want that
    comes in between counts as sent to the peer, and nothing is sent. *)
Lemma want_to_lost_peer :
  let pevs := [PmMessage (Connected p1); PmMessage (RegisterSession p1 7); PmMessage (Disconnected p1)] in
  let r := on_change first_draw (ChangeAdd [k1]) (ws_run first_draw 7 []) (managers_at ∅ ∅ pevs) in
  get_want_sent_to k1 r.1.1 = Some p1 ∧ have_sent_want_block_to p1 k1 (ls_sent r.1.1) = true ∧
  r.2 = [OpWantsSent [k1]] ∧ pm_peers (mg_pm r.1.2) !! p1 = None ∧ pwm_peer_wants (pm_wants (mg_pm r.1.2)) !! p1 = None.
Proof. vm_compute. done. Qed.

Definition dont_have1 : Presence := bpm_receive_from p1 [] [k1] ∅.
Definition update1 (l : list Cid) : Change :=
  ChangeUpdate {| up_from := p1; up_keys := []; up_haves := []; up_dont_haves := l |}.

Definition after_dont_have :=
  on_change first_draw (update1 [k1]) (ws_run first_draw 7 adding) (managers_at ∅ dont_have1 connected).

Lemma exhausted_sound_witness : ∃ wi, ls_wants after_dont_have.1.1 !! k1 = Some wi ∧ wi_exhausted wi = true.
Proof.
  pose proof (exhausted_sound first_draw 7 adding ∅ dont_have1 connected (update1 [k1]) [k1]) as Hs. cbv zeta in Hs.
  fold after_dont_have in Hs. assert (after_dont_have.2 = [OpBroadcast [k1]]) as Ho by (vm_compute; reflexivity).
  destruct after_dont_have as [[s' mg'] out]. cbn [snd] in Ho. subst out. destruct (Hs (ltac:(left))) as [_ Hall].
  apply (Hall k1). left.
Defined.

(** Sixteen DONT_HAVEs in a row do not remove a peer; the next one does. *)
Lemma seventeen_dont_haves :
  let run n := on_change first_draw (update1 (repeat k2 n)) (ws_run first_draw 7 []) (managers_at ∅ ∅ connected) in
  ls_changes (run 16%nat).1.1 = [] ∧ ls_changes (run 17%nat).1.1 = [ChangeAvailability p1 false].
Proof. vm_compute. split; reflexivity. Qed.
End WantSenderWitness.
