(* ===== verification/Session.v ===== *)
(** * Sessions

    Models [iroh-bitswap/src/client/session.rs]: the loop of a session over its
    channel of operations, its wants, its want sender and the managers that the
    sessions share, and the workers of [get_blocks] that wait for blocks.  The clock
    and random indices are arguments.  The channels are lists; a [send] that waits
    for room counts as an element already.  The delay of the idle tick is computed
    with floating-point numbers and is not modelled: the tick may come at any time. *)

From stdpp Require Import prelude gmap fin_maps.
From Stdlib Require Import ZArith Lia.
From S2P Require Import Prelude Cids Message Wantlist MessageQueue PeerWants PeerManager ClientTrackers Managers WantSender.
Local Open Scope Z_scope.

Definition BROADCAST_LIVE_WANTS_LIMIT : Z := 64.

(** ** Latencies *)

Record LatencyTracker := { lt_total : Z; lt_count : Z }.
Definition LatencyTracker_default : LatencyTracker := {| lt_total := 0; lt_count := 0 |}.
Definition has_latency (t : LatencyTracker) : bool := negb (lt_total t =? 0) && (0 <? lt_count t).
Definition receive_update (count latency : Z) (t : LatencyTracker) : LatencyTracker :=
  {| lt_total := lt_total t + latency; lt_count := Int.usize_add (lt_count t) count |}.

Section session.
Context `{Multiformats} `{HashOrder}.
Variable draw : nat → Z → Z → bool.

(** ** The loop *)

(** [enum Op] *)
Inductive Op :=
  | OpReceive (keys : list Cid)
  | OpWant (keys : list Cid)
  | OpCancel (keys : list Cid)
  | OpBroadcastWants (keys : gset Cid)
  | OpSent (keys : list Cid)
  | OpUpdateWantSender (u : Update).

(** [Session] with the [LoopState] of its worker; [se_search] is the queue of the
    CIDs whose providers are searched. *)
Record Session := {
  se_id : Z;
  se_incoming : list Op;
  se_consecutive_ticks : Z;
  se_wants : SessionWants;
  se_sender : LoopState;
  se_latency : LatencyTracker;
  se_search : list Cid
}.

Definition Session_new (id : Z) : Session :=
  {| se_id := id; se_incoming := []; se_consecutive_ticks := 0;
     se_wants := SessionWants_new BROADCAST_LIVE_WANTS_LIMIT; se_sender := LoopState_new id;
     se_latency := LatencyTracker_default; se_search := [] |}.

Definition se_with_incoming (l : list Op) (s : Session) : Session :=
  {| se_id := se_id s; se_incoming := l; se_consecutive_ticks := se_consecutive_ticks s; se_wants := se_wants s;
     se_sender := se_sender s; se_latency := se_latency s; se_search := se_search s |}.
Definition se_with_wants (w : SessionWants) (s : Session) : Session :=
  {| se_id := se_id s; se_incoming := se_incoming s; se_consecutive_ticks := se_consecutive_ticks s; se_wants := w;
     se_sender := se_sender s; se_latency := se_latency s; se_search := se_search s |}.
Definition se_with_sender (l : LoopState) (s : Session) : Session :=
  {| se_id := se_id s; se_incoming := se_incoming s; se_consecutive_ticks := se_consecutive_ticks s;
     se_wants := se_wants s; se_sender := l; se_latency := se_latency s; se_search := se_search s |}.
Definition se_with_ticks (n : Z) (s : Session) : Session :=
  {| se_id := se_id s; se_incoming := se_incoming s; se_consecutive_ticks := n; se_wants := se_wants s;
     se_sender := se_sender s; se_latency := se_latency s; se_search := se_search s |}.

(** [self.incoming.send(op)] *)
Definition se_push (op : Op) (s : Session) : Session := se_with_incoming (se_incoming s ++ [op]) s.

(** [SessionWantSender::add_change], behind [add], [cancel] and [update] *)
Definition sender_add_change (change : Change) (s : Session) : Session :=
  se_with_sender (ls_with_changes (ls_changes (se_sender s) ++ [change]) (se_sender s)) s.
Definition sender_add (keys : list Cid) (s : Session) : Session :=
  match keys with [] => s | _ => sender_add_change (ChangeAdd keys) s end.
Definition sender_cancel (keys : list Cid) (s : Session) : Session :=
  match keys with [] => s | _ => sender_add_change (ChangeCancel keys) s end.
Definition sender_update (u : Update) (s : Session) : Session :=
  if decide (up_keys u = [] ∧ up_haves u = [] ∧ up_dont_haves u = []) then s
  else sender_add_change (ChangeUpdate u) s.

(** [broadcast_want_haves] *)
Definition mg_broadcast_want_haves (wants : gset Cid) (mg : Managers) : Managers :=
  mg_with_pm (pm_broadcast_want_haves wants (mg_pm mg)) mg.

Definition find_more_peers (cid : Cid) (s : Session) : Session :=
  {| se_id := se_id s; se_incoming := se_incoming s; se_consecutive_ticks := se_consecutive_ticks s;
     se_wants := se_wants s; se_sender := se_sender s; se_latency := se_latency s;
     se_search := se_search s ++ [cid] |}.

(** [broadcast] *)
Definition se_broadcast (now : Z) (wants : option (gset Cid)) (s : Session) (mg : Managers) : Session * Managers :=
  let '(w, wants) := match wants with
                     | Some wants => (se_wants s, wants)
                     | None => prepare_broadcast now (se_wants s)
                     end in
  let s := se_with_wants w s in
  let mg := if decide (wants = ∅) then mg else mg_broadcast_want_haves wants mg in
  let s := match hs_iter wants with
           | cid :: _ => if se_consecutive_ticks s =? 0 then find_more_peers cid s else s
           | [] => s
           end in
  (if has_live_wants (se_wants s) then se_with_ticks (Int.usize_add (se_consecutive_ticks s) 1) s else s, mg).

(** [handle_periodic_search]; [i] is the random index. *)
Definition handle_periodic_search (i : nat) (s : Session) (mg : Managers) : Session * Managers :=
  match random_live_want i (se_wants s) with
  | Some cid => (find_more_peers cid s, mg_broadcast_want_haves {[cid]} mg)
  | None => (s, mg)
  end.

Definition handle_receive (now : Z) (keys : list Cid) (s : Session) (mg : Managers) : Session * Managers :=
  let '(w, wanted, total_latency) := blocks_received now keys (se_wants s) in
  let s := se_with_wants w s in
  match wanted with
  | [] => (s, mg)
  | _ =>
      ({| se_id := se_id s; se_incoming := se_incoming s; se_consecutive_ticks := 0; se_wants := se_wants s;
          se_sender := se_sender s;
          se_latency := receive_update (Z.of_nat (length wanted)) total_latency (se_latency s);
          se_search := se_search s |},
       mg_with_sim (remove_session_wants (se_id s) wanted (mg_sim mg)) mg)
  end.

(** [want_blocks] *)
Definition se_want_blocks (now : Z) (new_keys : list Cid) (s : Session) (mg : Managers) : Session * Managers :=
  let '(s, mg) :=
    match new_keys with
    | [] => (s, mg)
    | _ => (sender_add new_keys (se_with_wants (blocks_requested new_keys (se_wants s)) s),
            mg_with_sim (record_session_interest (se_id s) new_keys (mg_sim mg)) mg)
    end in
  if session_query (se_id s) ss_discovered (mg_pm mg) then (s, mg) else
  let '(w, keys) := get_next_wants now (se_wants s) in
  (se_with_wants w s, if decide (keys = ∅) then mg else mg_broadcast_want_haves keys mg).

(** The branches for an operation that was received *)
Definition session_op (now : Z) (op : Op) (s : Session) (mg : Managers) : Session * Managers :=
  match op with
  | OpReceive keys => handle_receive now keys s mg
  | OpWant keys => se_want_blocks now keys s mg
  | OpCancel keys => (sender_cancel keys (se_with_wants (sw_cancel_pending keys (se_wants s)) s), mg)
  | OpSent keys => (se_with_wants (wants_sent now keys (se_wants s)) s, mg)
  | OpBroadcastWants keys => se_broadcast now (Some keys) s mg
  | OpUpdateWantSender u => (sender_update u s, mg)
  end.

(** The branches of the loop, and one round of the loop of the want sender.  [None]
    when the branch is not ready. *)
Inductive session_event := SeOperation | SeIdleTick | SePeriodicSearch (i : nat) | SeChange.

(** What the want sender tells the session *)
Definition sender_op (o : ws_output) : list Op :=
  match o with
  | OpBroadcast cids => [OpBroadcastWants (list_to_set cids)]
  | OpWantsSent cids => [OpSent cids]
  | PmEffect _ => []
  end.
Definition sender_effect (o : ws_output) : list pm_effect := match o with PmEffect e => [e] | _ => [] end.

Definition session_step (now : Z) (ev : session_event) (s : Session) (mg : Managers)
    : option (Session * Managers * list pm_effect) :=
  match ev with
  | SeOperation =>
      match se_incoming s with
      | op :: rest => Some (session_op now op (se_with_incoming rest s) mg, [])
      | [] => None
      end
  | SeIdleTick => Some (se_broadcast now None s mg, [])
  | SePeriodicSearch i => Some (handle_periodic_search i s mg, [])
  | SeChange =>
      match ls_changes (se_sender s) with
      | change :: rest =>
          let '(l, mg, out) := on_change draw change (ls_with_changes rest (se_sender s)) mg in
          Some (se_with_incoming (se_incoming s ++ (out ≫= sender_op)) (se_with_sender l s), mg,
                out ≫= sender_effect)
      | [] => None
      end
  end.

(** ** What others do with a session *)

(** [Session::receive_from] *)
Definition session_receive_from (from : option PeerId) (keys haves dont_haves : list Cid) (sim : Interests)
    (s : Session) : Session :=
  match filter_session_interested (se_id s) [keys; haves; dont_haves] sim with
  | [keys; haves; dont_haves] =>
      let s := match from with
               | Some from => se_push (OpUpdateWantSender {| up_from := from; up_keys := keys; up_haves := haves;
                                                             up_dont_haves := dont_haves |}) s
               | None => s
               end in
      match keys with [] => s | _ => se_push (OpReceive keys) s end
  | _ => s
  end.

(** A provider: [add_provider] and the workers of the provider search *)
Definition add_provider (cid : Cid) (provider : PeerId) (s : Session) : Session :=
  se_push (OpUpdateWantSender {| up_from := provider; up_keys := []; up_haves := [cid]; up_dont_haves := [] |}) s.

(** ** The workers of [get_blocks] *)

(** [gt_queue] are the blocks of the broadcast channel that the worker has not read
    yet, [gt_found] those it sent to its caller. *)
Record Getter := {
  gt_session : Z;
  gt_queue : list Block;
  gt_remaining : gset Cid;
  gt_found : list Block;
  gt_running : bool
}.

(** [get_blocks]: the worker and the operation for the session *)
Definition session_get_blocks (keys : list Cid) (s : Session) : option (Getter * Session) :=
  match keys with
  | [] => None
  | _ => Some ({| gt_session := se_id s; gt_queue := []; gt_remaining := list_to_set keys; gt_found := [];
                  gt_running := true |}, se_push (OpWant keys) s)
  end.

(** A block is broadcast. *)
Definition getter_notify (b : Block) (g : Getter) : Getter :=
  if gt_running g then
    {| gt_session := gt_session g; gt_queue := gt_queue g ++ [b]; gt_remaining := gt_remaining g;
       gt_found := gt_found g; gt_running := true |}
  else g.

(** The worker reads a block; [None] when there is none. *)
Definition getter_step (g : Getter) : option Getter :=
  match gt_queue g with
  | b :: rest =>
      if gt_running g then
        let found := bool_decide (block_cid b ∈ gt_remaining g) in
        let remaining := if found then gt_remaining g ∖ {[block_cid b]} else gt_remaining g in
        Some {| gt_session := gt_session g; gt_queue := rest; gt_remaining := remaining;
                gt_found := if found then gt_found g ++ [b] else gt_found g;
                gt_running := negb (bool_decide (remaining = ∅)) |}
      else None
  | [] => None
  end.

(** The caller is gone: the worker ends and cancels what remains. *)
Definition getter_close (g : Getter) : Getter * option Op :=
  ({| gt_session := gt_session g; gt_queue := gt_queue g; gt_remaining := gt_remaining g; gt_found := gt_found g;
      gt_running := false |},
   if gt_running g then
     if decide (gt_remaining g = ∅) then None else Some (OpCancel (hs_iter (gt_remaining g)))
   else None).
End session.
