(* ===== verification/Client.v ===== *)
(** * The bitswap client

    Models [iroh-bitswap/src/client.rs] and [client/session_manager.rs]: sessions and
    their identifiers, messages from the network, blocks that are announced, and the
    callers that wait for blocks.  The tasks of the client are the events of one
    transition function; each handler runs without interruption. *)

From stdpp Require Import prelude gmap fin_maps.
From Stdlib Require Import ZArith Lia.
From S2P Require Import Prelude Cids Message Wantlist MessageQueue PeerWants PeerManager ClientTrackers Managers WantSender Session.
Local Open Scope Z_scope.

Section client.
Context `{Multiformats} `{HashOrder}.
Variable draw : nat → Z → Z → bool.

(** [Client] with the [SessionManager] behind it *)
Record Client := {
  cl_managers : Managers;
  cl_sessions : gmap Z Session;
  cl_session_index : Z;
  cl_getters : list Getter
}.

Definition Client_new : Client :=
  {| cl_managers := {| mg_sim := ∅; mg_bpm := ∅; mg_pm := PeerManagerActor_new |};
     cl_sessions := ∅; cl_session_index := 0; cl_getters := [] |}.

Definition cl_with_managers (mg : Managers) (c : Client) : Client :=
  {| cl_managers := mg; cl_sessions := cl_sessions c; cl_session_index := cl_session_index c;
     cl_getters := cl_getters c |}.
Definition cl_with_sessions (ss : gmap Z Session) (c : Client) : Client :=
  {| cl_managers := cl_managers c; cl_sessions := ss; cl_session_index := cl_session_index c;
     cl_getters := cl_getters c |}.
Definition cl_with_getters (gs : list Getter) (c : Client) : Client :=
  {| cl_managers := cl_managers c; cl_sessions := cl_sessions c; cl_session_index := cl_session_index c;
     cl_getters := gs |}.

(** What leaves the client *)
Inductive client_effect :=
  | ClPeerManager (e : pm_effect)
  | ClBlocksReceived (from : PeerId) (blocks : list Block).

Definition pm_effects (l : list pm_effect) : list client_effect := ClPeerManager <$> l.

(** ** Sessions *)

(** [get_next_session_id]: the identifier and the new index; [None] is the panic. *)
Fixpoint next_session_id (tries : nat) (index : Z) (sessions : gmap Z Session) : option (Z * Z) :=
  match tries with
  | O => None
  | S tries =>
      let index' := Int.wrap 64 (index + 1) in
      match sessions !! index with
      | None => Some (index, index')
      | Some _ => next_session_id tries index' sessions
      end
  end.
Definition get_next_session_id (c : Client) : option (Z * Client) :=
  '(id, index) ← next_session_id 1000 (cl_session_index c) (cl_sessions c);
  Some (id, {| cl_managers := cl_managers c; cl_sessions := cl_sessions c; cl_session_index := index;
               cl_getters := cl_getters c |}).

Definition new_session_with_id (id : Z) (c : Client) : Client :=
  cl_with_sessions (<[id := Session_new id]> (cl_sessions c)) c.
Definition new_session (c : Client) : option (Z * Client) :=
  '(id, c) ← get_next_session_id c;
  Some (id, new_session_with_id id c).
Definition get_or_create_session (id : Z) (c : Client) : Client :=
  match cl_sessions c !! id with
  | Some _ => c
  | None => new_session_with_id id c
  end.

(** [SessionManager::remove_session] *)
Definition remove_session (id : Z) (c : Client) : Client :=
  let '(sim, cancels) := sim_remove_session id (mg_sim (cl_managers c)) in
  {| cl_managers := cancel_wants cancels (mg_with_sim sim (cl_managers c));
     cl_sessions := delete id (cl_sessions c); cl_session_index := cl_session_index c;
     cl_getters := cl_getters c |}.

(** [stop_session]: [last_ref] says whether nobody else holds the session.  Its
    worker stops the want sender, which unregisters the session. *)
Definition stop_session (id : Z) (last_ref : bool) (c : Client) : Client * list client_effect :=
  match cl_sessions c !! id with
  | Some _ =>
      if last_ref then
        let c := remove_session id c in
        let '(pm, eff) := unregister_session id (mg_pm (cl_managers c)) in
        (cl_with_managers (mg_with_pm pm (cl_managers c)) c, pm_effects eff)
      else (c, [])
  | None => (c, [])
  end.

(** ** Messages *)

(** [SessionManager::receive_from] *)
Definition client_receive_from (peer : option PeerId) (blocks haves dont_haves : list Cid) (c : Client) : Client :=
  let mg := cl_managers c in
  let bpm := match peer with
             | Some peer => bpm_receive_from peer haves dont_haves (mg_bpm mg)
             | None => mg_bpm mg
             end in
  let sessions :=
    foldl (λ ss id, alter (session_receive_from peer blocks haves dont_haves (mg_sim mg)) id ss) (cl_sessions c)
      (hs_iter (interested_sessions blocks haves dont_haves (mg_sim mg))) in
  {| cl_managers := {| mg_sim := mg_sim mg; mg_bpm := bpm; mg_pm := pm_send_cancels blocks (mg_pm mg) |};
     cl_sessions := sessions; cl_session_index := cl_session_index c; cl_getters := cl_getters c |}.

(** [notify.broadcast] *)
Definition client_broadcast (b : Block) (c : Client) : Client :=
  cl_with_getters (getter_notify b <$> cl_getters c) c.

Definition client_notify_new_blocks (blocks : list Block) (c : Client) : Client :=
  let c := client_receive_from None (block_cid <$> blocks) [] [] c in
  foldl (λ c b, client_broadcast b c) c blocks.

Definition receive_blocks_from (from : PeerId) (incoming : BitswapMessage) (hs ds : list Cid) (c : Client)
    : Client * list client_effect :=
  let all_keys := block_cid <$> message_blocks incoming in
  let blocks := message_blocks incoming in
  let '(wanted, not_wanted) := split_wanted_unwanted blocks (mg_sim (cl_managers c)) in
  let eff := pm_response_received from (all_keys ++ hs ++ ds) (mg_pm (cl_managers c)) in
  let c := client_receive_from (Some from) all_keys hs ds c in
  (foldl (λ c b, client_broadcast b c) c wanted, pm_effects eff ++ [ClBlocksReceived from wanted]).

Definition client_receive_message (peer : PeerId) (incoming : BitswapMessage) (c : Client)
    : Client * list client_effect :=
  let hs := haves incoming in
  let ds := dont_haves incoming in
  if (0 <? blocks_len incoming)%nat || negb (bool_decide (hs = [])) || negb (bool_decide (ds = []))
  then receive_blocks_from peer incoming hs ds c
  else (c, []).

(** ** Peers *)

(** A signal of the peer manager enters the channel of the want sender. *)
Definition deliver_signal (ss : gmap Z Session) (e : pm_effect) : gmap Z Session :=
  match e with
  | SignalAvailability id peer is_connected =>
      alter (λ s, se_with_sender (signal_change (ChangeAvailability peer is_connected) (se_sender s)) s) id ss
  | _ => ss
  end.

Definition client_peer_connected (peer : PeerId) (c : Client) : Client * list client_effect :=
  let '(pm, eff) := pm_connected peer (mg_pm (cl_managers c)) in
  (cl_with_sessions (foldl deliver_signal (cl_sessions c) eff)
     (cl_with_managers (mg_with_pm pm (cl_managers c)) c), pm_effects eff).
Definition client_peer_disconnected (peer : PeerId) (c : Client) : Client :=
  cl_with_managers (mg_with_pm (pm_disconnected peer (mg_pm (cl_managers c))) (cl_managers c)) c.

(** ** The steps *)

Inductive client_event :=
  | ClNewSession
  | ClGetOrCreateSession (id : Z)
  | ClStopSession (id : Z) (last_ref : bool)
  | ClGetBlocks (id : Z) (keys : list Cid)
  | ClAddProvider (id : Z) (cid : Cid) (provider : PeerId)
  | ClSession (now : Z) (id : Z) (ev : session_event)
  | ClGetter (i : nat)
  | ClGetterClose (i : nat)
  | ClReceiveMessage (peer : PeerId) (incoming : BitswapMessage)
  | ClNotifyNewBlocks (blocks : list Block)
  | ClPeerConnected (peer : PeerId)
  | ClPeerDisconnected (peer : PeerId)
  | ClQueueStops (peer : PeerId)
  | ClDontHaveTimeout (peer : PeerId) (cids : list Cid).

(** The caller of a worker is gone. *)
Definition close_getter (i : nat) (g : Getter) (c : Client) : Client :=
  let '(g, op) := getter_close g in
  let c := cl_with_getters (<[i := g]> (cl_getters c)) c in
  match op with
  | Some op => cl_with_sessions (alter (se_push op) (gt_session g) (cl_sessions c)) c
  | None => c
  end.

(** [None]: the event is not possible, or the panic of [get_next_session_id]. *)
Definition client_step (ev : client_event) (c : Client) : option (Client * list client_effect) :=
  match ev with
  | ClNewSession => '(_, c) ← new_session c; Some (c, [])
  | ClGetOrCreateSession id => Some (get_or_create_session id c, [])
  | ClStopSession id last_ref => Some (stop_session id last_ref c)
  | ClGetBlocks id keys =>
      s ← cl_sessions c !! id;
      '(g, s) ← session_get_blocks keys s;
      Some (cl_with_getters (cl_getters c ++ [g]) (cl_with_sessions (<[id := s]> (cl_sessions c)) c), [])
  | ClAddProvider id cid provider =>
      s ← cl_sessions c !! id;
      Some (cl_with_sessions (<[id := add_provider cid provider s]> (cl_sessions c)) c, [])
  | ClSession now id ev =>
      s ← cl_sessions c !! id;
      '(s, mg, eff) ← session_step draw now ev s (cl_managers c);
      Some (cl_with_sessions (<[id := s]> (cl_sessions c)) (cl_with_managers mg c), pm_effects eff)
  | ClGetter i =>
      match cl_getters c !! i with
      | Some g => g' ← getter_step g; Some (cl_with_getters (<[i := g']> (cl_getters c)) c, [])
      | None => None
      end
  | ClGetterClose i =>
      match cl_getters c !! i with
      | Some g => Some (close_getter i g c, [])
      | None => None
      end
  | ClReceiveMessage peer incoming => Some (client_receive_message peer incoming c)
  | ClNotifyNewBlocks blocks => Some (client_notify_new_blocks blocks c, [])
  | ClPeerConnected peer => Some (client_peer_connected peer c)
  | ClPeerDisconnected peer => Some (client_peer_disconnected peer c, [])
  | ClQueueStops peer =>
      Some (cl_with_managers (mg_with_pm (queue_stops peer (mg_pm (cl_managers c))) (cl_managers c)) c, [])
  | ClDontHaveTimeout peer cids => Some (client_receive_from (Some peer) [] [] cids c, [])
  end.
End client.
