(* ===== verification/ClientFacts.v ===== *)
(** * Blocks reach the callers that wait for them

    The invariants of the client: the peer manager stays in a state it can reach on
    its own, sessions that have not discovered peers respect the limit of their
    broadcasts, received blocks are not asked for any longer, and every block that a
    caller waits for reaches it when it arrives. *)

From stdpp Require Import prelude gmap fin_maps.
From Stdlib Require Import ZArith Lia.
From S2P Require Import Prelude Cids Message Wantlist MessageQueue MessageQueueFacts MessageQueueRun.
From S2P Require Import PeerWants PeerWantsFacts PeerManager PeerManagerFacts ClientTrackers ClientTrackersFacts.
From S2P Require Import Managers WantSender WantSenderFacts Session Client.
Local Open Scope Z_scope.

Section facts.
Context `{Multiformats} `{HashOrder}.
Variable draw : nat → Z → Z → bool.

(** ** The peer manager *)

(** A predicate that every message keeps, but the end of a session *)
Definition pm_keeps (R : PeerManagerActor → Prop) : Prop :=
  ∀ msg a, (∀ id, msg ≠ UnregisterSession id) → R a → R (pm_step msg a).1.1.

Section closed.
Variable R : PeerManagerActor → Prop.
Hypothesis HR : pm_keeps R.

Lemma keeps_register p id a : R a → R (register_session p id a).1.
Proof. intros Ha. apply (HR (RegisterSession p id)) in Ha; [|done]. simpl in Ha. by destruct (register_session p id a). Qed.

Lemma keeps_add id p a : R a → R (add_peer_to_session id p a).1.
Proof. intros Ha. apply (HR (AddPeerToSession id p)) in Ha; [|done]. simpl in Ha. by destruct (add_peer_to_session id p a). Qed.

Lemma keeps_remove id p a : R a → R (remove_peer_from_session id p a).1.1.
Proof.
  intros Ha. apply (HR (RemovePeerFromSession id p)) in Ha; [|done]. simpl in Ha.
  by destruct (remove_peer_from_session id p a) as [[??]?].
Qed.

Lemma keeps_cancel_wants l mg : R (mg_pm mg) → R (mg_pm (cancel_wants l mg)).
Proof. apply (HR (SendCancels l)). done. Qed.

Lemma keeps_cancel_session id l mg : R (mg_pm mg) → R (mg_pm (cancel_session_wants id l mg)).
Proof.
  intros Ha. unfold cancel_session_wants. destruct (remove_session_interested _ _ _). by apply keeps_cancel_wants.
Qed.

Lemma keeps_apply bpm l st : R st.1.1.1.2 → R (foldl (apply_change draw bpm) st l).1.1.1.2.
Proof.
  apply (foldl_invariant (λ x, R x.1.1.1.2)). intros [[[[s pm] av] cs] us] ch _ Hx. destruct ch; simpl in *; try done.
  case_decide; [done|]. pose proof (keeps_register (up_from u) (ls_id s) pm Hx). by destruct (register_session _ _ _).
Qed.

Lemma keeps_availability bpm av s pm : R pm → R (process_availability draw bpm av s pm).1.1.1.2.
Proof.
  intros Ha. apply (foldl_invariant (λ x, R x.1.1.1.2)); [|done]. intros [[[[s1 pm1] a] u] out] [p [b n]] _ Hx.
  unfold process_one_availability. simpl in Hx. destruct b.
  - pose proof (keeps_add (ls_id s1) p pm1 Hx). destruct (add_peer_to_session _ _ _). by case_match.
  - pose proof (keeps_remove (ls_id s1) p pm1 Hx). destruct (remove_peer_from_session _ _ _) as [[??]?]. by case_match.
Qed.

Lemma keeps_send av s pm : R pm → R (send_next_wants av s pm).1.2.
Proof.
  intros Ha. unfold send_next_wants. destruct (foldl (next_want _ _) _ _) as [w to_send].
  apply (foldl_invariant (λ x : LoopState * PeerManagerActor * list ws_output, R x.1.2)); [|done].
  intros [[s1 pm1] out] [p w1] _ Hx. unfold send_to_peer. cbn [fst snd] in *.
  by apply (HR (SendWants p _ _)).
Qed.

Lemma keeps_on_change change s mg : R (mg_pm mg) → R (mg_pm (on_change draw change s mg).1.2).
Proof.
  intros Ha. unfold on_change. set (bpm := mg_bpm mg).
  match goal with |- context [foldl (apply_change draw bpm) ?st ?l] => pose proof (keeps_apply bpm l st Ha) as H1' end.
  destruct (foldl (apply_change draw bpm) _ _) as [[[[sa pma] av] cancels] us]. cbn [fst snd] in H1'.
  pose proof (keeps_availability bpm av sa pma H1') as H2'.
  destruct (process_availability draw bpm av sa pma) as [[[[sb pmb] nav] nun] out1]. cbn [fst snd] in H2'.
  destruct (process_updates draw bpm pmb us sb) as [[sc dh] out2].
  destruct (check_for_exhausted_wants bpm pmb dh nun sc) as [sd out3].
  set (mg2 := if decide (cancels = []) then _ else _).
  assert (R (mg_pm mg2)) as H3'. { unfold mg2. case_decide; [done|]. by apply keeps_cancel_session. }
  destruct (session_has_peers (ls_id sd) (mg_pm mg2)); [|done].
  pose proof (keeps_send nav sd _ H3'). by destruct (send_next_wants nav sd (mg_pm mg2)) as [[? ?] ?].
Qed.

Lemma keeps_session_step now ev s mg s' mg' eff :
  R (mg_pm mg) → session_step draw now ev s mg = Some (s', mg', eff) → R (mg_pm mg').
Proof.
  intros Ha. assert (∀ l, R (pm_broadcast_want_haves l (mg_pm mg))) as Hb.
  { intros l. by apply (HR (PmBroadcastWantHaves l)). }
  assert (∀ o x, R (mg_pm (se_broadcast now o x mg).2)) as Hbc.
  { intros o x. unfold se_broadcast. destruct (match o with Some _ => _ | None => _ end) as [w l]. cbn [snd].
    case_decide; [done|apply Hb]. }
  destruct ev as [| |i|]; cbn [session_step].
  - destruct (se_incoming s) as [|op rest]; [done|]. intros [= E _]. revert E. set (x := se_with_incoming rest s).
    destruct op as [ks|ks|ks|ks|ks|u]; cbn [session_op]; try (intros [= <- <-]; done).
    + unfold handle_receive. destruct (blocks_received _ _ _) as [[w wanted] lat].
      destruct wanted; intros [= <- <-]; done.
    + intros E. assert (mg_pm mg' = mg_pm mg ∨ ∃ l, mg_pm mg' = pm_broadcast_want_haves l (mg_pm mg)) as [->|[l ->]];
        [|done|apply Hb].
      revert E. unfold se_want_blocks. destruct ks; simpl; (destruct (session_query _ _ _); [intros [= <- <-]; by left|]);
        destruct (get_next_wants _ _) as [w l]; case_decide; intros [= <- <-]; [by left|right; by exists l|by left|right; by exists l].
    + intros E. pose proof (Hbc (Some ks) x) as Hx. destruct (se_broadcast _ _ _ _). cbn in Hx. by injection E as <- <-.
  - intros E. pose proof (Hbc None s) as Hx. destruct (se_broadcast _ _ _ _). cbn in Hx. by injection E as <- <- _.
  - unfold handle_periodic_search. destruct (random_live_want i (se_wants s)); intros [= <- <-]; [apply Hb|done].
  - destruct (ls_changes (se_sender s)) as [|ch rest]; [done|].
    pose proof (keeps_on_change ch (ls_with_changes rest (se_sender s)) mg Ha) as Ho.
    destruct (on_change draw ch _ mg) as [[l mg1] out]. by intros [= <- <-].
Qed.
End closed.

(** The peer manager is consistent, and a session it knows has discovered peers. *)
Record pm_ok (a : PeerManagerActor) : Prop := {
  pm_ok_wf : pm_wf (λ _, False) a;
  pm_ok_sessions id s : pm_sessions a !! id = Some s → ss_discovered s = true
}.

Lemma pm_ok_good a : pm_ok a → pm_good a.
Proof.
  intros [Ha _]. split; [apply (pm_wf_wants _ _ Ha)|]. intros p. rewrite <-!elem_of_dom. by rewrite (pm_wf_dom _ _ Ha).
Qed.

Lemma pm_ok_event ev a : pm_ok a → pm_ok (pm_event_step ev a).1.
Proof.
  intros [Hw Hs]. split; [apply pm_event_ok; [done|destruct ev as [[]|]; simpl; done]|].
  destruct ev as [msg|p]; [|done]. destruct msg; simpl; try apply Hs.
  - unfold pm_disconnected. by case_match.
  - unfold pm_send_wants. by case_match.
  - unfold register_session. destruct (pm_sessions a !! session) as [x|]; simpl; intros id s;
      (rewrite lookup_insert; case_decide; [by intros [= <-]|apply Hs]).
  - intros id s Hl. apply lookup_delete_Some in Hl as [_ Hl]. by eapply Hs.
  - unfold add_peer_to_session. destruct (pm_sessions a !! session) as [x|]; [case_decide|]; simpl; try apply Hs.
    intros id s. rewrite lookup_insert. case_decide; [by intros [= <-]|apply Hs].
  - unfold remove_peer_from_session. destruct (pm_sessions a !! session) as [x|] eqn:E; simpl; try apply Hs.
    intros id s. rewrite lookup_insert. case_decide; [|apply Hs]. intros [= <-]. simpl. by eapply Hs.
Qed.

Lemma pm_ok_keeps : pm_keeps pm_ok.
Proof. intros msg a _ Ha. apply (pm_ok_event (PmMessage msg)) in Ha. simpl in Ha. by destruct (pm_step msg a) as [[??]?]. Qed.

(** A session stays known. *)
Lemma known_keeps id : pm_keeps (λ a, is_Some (pm_sessions a !! id)).
Proof.
  intros msg a Hmsg Ha. destruct msg; simpl; try done.
  - unfold pm_disconnected. by case_match.
  - unfold pm_send_wants. by case_match.
  - unfold register_session. destruct (pm_sessions a !! session); simpl; rewrite lookup_insert_is_Some'; by right.
  - by destruct (Hmsg session).
  - unfold add_peer_to_session. destruct (pm_sessions a !! session); [case_decide|]; simpl; try done.
    rewrite lookup_insert_is_Some'. by right.
  - unfold remove_peer_from_session. destruct (pm_sessions a !! session); simpl; [|done].
    rewrite lookup_insert_is_Some'. by right.
Qed.

(** ** Sessions *)

(** As long as a session has no peers, it only knows live wants from its own
    broadcasts. *)
Record sess_ok (pm : PeerManagerActor) (id : Z) (s : Session) : Prop := {
  so_id : se_id s = id;
  so_sender : ls_id (se_sender s) = id;
  so_wf : sw_wf (se_wants s);
  so_limit : broadcast_limit (se_wants s) = BROADCAST_LIVE_WANTS_LIMIT;
  so_few : pm_sessions pm !! id = None → Z.of_nat (size (live_wants (se_wants s))) ≤ BROADCAST_LIVE_WANTS_LIMIT;
  so_sent ks : pm_sessions pm !! id = None → OpSent ks ∉ se_incoming s
}.

Lemma Session_new_ok pm id : sess_ok pm id (Session_new id).
Proof.
  split; try done.
  - split; [|set_solver]. intros c [x Hx]. cbn in Hx. by rewrite lookup_empty in Hx.
  - intros ks _. apply not_elem_of_nil.
Qed.

Lemma live_size (w w' : SessionWants) (new : gset Cid) :
  (∀ c, live w' c → live w c ∨ c ∈ new) →
  Z.of_nat (size (live_wants w')) ≤ Z.of_nat (size (live_wants w)) + Z.of_nat (size new).
Proof.
  intros Hl. rewrite <-!size_dom. assert (dom (live_wants w') ⊆ dom (live_wants w) ∪ new) as Hs.
  { intros c. rewrite elem_of_union, !elem_of_dom. apply Hl. }
  apply subseteq_size in Hs. rewrite size_union_alt in Hs.
  assert (size (new ∖ dom (live_wants w)) ≤ size new)%nat by (apply subseteq_size; set_solver). lia.
Qed.

Lemma live_size_le (w w' : SessionWants) :
  (∀ c, live w' c → live w c) → Z.of_nat (size (live_wants w')) ≤ Z.of_nat (size (live_wants w)).
Proof. intros Hl. pose proof (live_size w w' ∅) as Hs. rewrite size_empty in Hs. cut (size (live_wants w') ≤ size (live_wants w))%nat; [lia|]. apply Nat2Z.inj_le. rewrite Z.add_0_r in Hs. apply Hs. intros c Hc. left. by apply Hl. Qed.

(** Changing the wants of a session without making more of them live *)
Lemma sess_ok_wants pm id s w :
  sess_ok pm id s → sw_wf w → broadcast_limit w = broadcast_limit (se_wants s) →
  (pm_sessions pm !! id = None → ∀ c, live w c → live (se_wants s) c) → sess_ok pm id (se_with_wants w s).
Proof.
  intros [Hi Hse Hw Hl Hf Hs] Hw' Hl' Hlive. split; try done; cbn; [congruence|].
  intros Hn. specialize (Hf Hn). pose proof (live_size_le _ _ (Hlive Hn)). lia.
Qed.

Lemma sess_ok_push pm id s op : sess_ok pm id s → (∀ ks, op ≠ OpSent ks) → sess_ok pm id (se_push op s).
Proof.
  intros [Hi Hse Hw Hl Hf Hs] Hop. split; try done. cbn. intros ks Hn. rewrite elem_of_app, list_elem_of_singleton.
  intros [?|?]; [by eapply Hs|by eapply Hop].
Qed.

Lemma sess_ok_add_change pm id s ch : sess_ok pm id s → sess_ok pm id (sender_add_change ch s).
Proof. intros [Hi Hse Hw Hl Hf Hs]. by split. Qed.

Lemma sess_ok_update pm id s u : sess_ok pm id s → sess_ok pm id (sender_update u s).
Proof. intros Hs. unfold sender_update. case_decide; [done|by apply sess_ok_add_change]. Qed.

Lemma sess_ok_pm pm pm' id s :
  (pm_sessions pm' !! id = None → pm_sessions pm !! id = None) → sess_ok pm id s → sess_ok pm' id s.
Proof. intros Hn [Hi Hse Hw Hl Hf Hs]. split; auto. Qed.

Lemma sess_ok_ext pm id s s' :
  se_id s' = se_id s → se_sender s' = se_sender s → se_wants s' = se_wants s → se_incoming s' = se_incoming s →
  sess_ok pm id s → sess_ok pm id s'.
Proof. intros E1 E2 E3 E4 [Hi Hse Hw Hl Hf Hs]. split; rewrite ?E1, ?E2, ?E3, ?E4; done. Qed.

(** The counts that the loop of [get_next_wants] relies on *)
Lemma get_next_wants_ok pm id now s w keys :
  sess_ok pm id s → pm_sessions pm !! id = None → get_next_wants now (se_wants s) = (w, keys) →
  sess_ok pm id (se_with_wants w s).
Proof.
  intros [Hi Hse Hw Hl Hf Hs] Hn. specialize (Hf Hn). unfold get_next_wants, Int.usize_sub. rewrite Hl.
  rewrite Int.wrap_id by (unfold Int.in_u, BROADCAST_LIVE_WANTS_LIMIT in *; lia). intros E.
  apply next_wants_spec in E as (Hw' & _ & Hl' & (new & _ & Hlive & Hnew) & _); [|lia|done].
  pose proof (live_size (se_wants s) w new (λ c, proj1 (Hlive c))).
  split; try done; cbn; [congruence|]. intros _. unfold BROADCAST_LIVE_WANTS_LIMIT in *. lia.
Qed.

Lemma se_broadcast_ok pm id now o s mg :
  sess_ok pm id s → sess_ok pm id (se_broadcast now o s mg).1.
Proof.
  intros Hs. unfold se_broadcast.
  assert (∃ w l, match o with Some wants => (se_wants s, wants) | None => prepare_broadcast now (se_wants s) end = (w, l) ∧
    sess_ok pm id (se_with_wants w s)) as (w & l & -> & Hok).
  { destruct o as [l|]; [exists (se_wants s), l; split; [done|]; by destruct s|].
    destruct (prepare_broadcast now (se_wants s)) as [w l] eqn:E. exists w, l. split; [done|].
    apply prepare_broadcast_spec in E as (Hw & Hl & Hlive & _); [|apply Hs|by rewrite (so_limit _ _ _ Hs)].
    apply sess_ok_wants; [done..|]. intros _ c Hc. by apply Hlive. }
  cbn [fst]. set (s1 := match hs_iter l with [] => _ | _ => _ end).
  assert (sess_ok pm id s1) as Hs1.
  { unfold s1. destruct (hs_iter l); [done|]. case_match; [|done]. by eapply sess_ok_ext, Hok. }
  case_match; [|done]. by eapply sess_ok_ext, Hs1.
Qed.

Lemma session_op_ok now op s mg id :
  pm_ok (mg_pm mg) → sess_ok (mg_pm mg) id s →
  (∀ ks, pm_sessions (mg_pm mg) !! id = None → op ≠ OpSent ks) →
  sess_ok (mg_pm (session_op now op s mg).2) id (session_op now op s mg).1 ∧
  pm_sessions (mg_pm (session_op now op s mg).2) = pm_sessions (mg_pm mg).
Proof.
  intros Hpm Hs Hop. assert (∀ r : Session * Managers, pm_sessions (mg_pm r.2) = pm_sessions (mg_pm mg) →
    sess_ok (mg_pm mg) id r.1 → sess_ok (mg_pm r.2) id r.1 ∧ pm_sessions (mg_pm r.2) = pm_sessions (mg_pm mg)) as Hr.
  { intros r Hr Hok. split; [|done]. eapply sess_ok_pm, Hok. by rewrite Hr. }
  destruct op as [ks|ks|ks|ks|ks|u]; cbn [session_op].
  - apply Hr; unfold handle_receive; destruct (blocks_received now ks (se_wants s)) as [[w wanted] lat] eqn:E;
      [by destruct wanted|].
    apply blocks_received_spec in E as (Hw & Hl & Hlive & _); [|apply Hs].
    assert (sess_ok (mg_pm mg) id (se_with_wants w s)) as Hok.
    { apply sess_ok_wants; [done..|]. intros _ c Hc. by apply Hlive. }
    destruct wanted; [done|]. by eapply sess_ok_ext, Hok.
  - unfold se_want_blocks. set (r := match ks with [] => _ | _ => _ end).
    assert (sess_ok (mg_pm mg) id r.1 ∧ mg_pm r.2 = mg_pm mg) as [Hok Hpm'].
    { unfold r. destruct ks as [|k ks]; [done|]. split; [|done]. apply sess_ok_add_change, sess_ok_wants; try done.
      pose proof (so_wf _ _ _ Hs) as Hw. pose proof (sw_step_spec (SwRequested (k :: ks)) _ Hw) as Hst.
      by destruct Hst as (? & _); [rewrite (so_limit _ _ _ Hs)|]. }
    destruct r as [s1 mg1]. cbn [fst snd] in Hok, Hpm'. rewrite (so_id _ _ _ Hok), Hpm'.
    destruct (session_query id ss_discovered (mg_pm mg)) eqn:Eq; [apply Hr; cbn; [by rewrite Hpm'|done]|].
    assert (pm_sessions (mg_pm mg) !! id = None) as Hnone.
    { unfold session_query in Eq. destruct (pm_sessions (mg_pm mg) !! id) as [x|] eqn:Ex; [|done].
      by rewrite (pm_ok_sessions _ Hpm _ _ Ex) in Eq. }
    destruct (get_next_wants now (se_wants s1)) as [w keys] eqn:E.
    apply Hr; cbn; [case_decide; cbn; by rewrite Hpm'|]. by eapply get_next_wants_ok.
  - apply Hr; [done|]. cbn [fst]. assert (sess_ok (mg_pm mg) id (se_with_wants (sw_cancel_pending ks (se_wants s)) s)) as Hok.
    { apply sess_ok_wants; try done. pose proof (so_wf _ _ _ Hs) as Hw. pose proof (sw_step_spec (SwCancel ks) _ Hw) as Hst.
      by destruct Hst as (? & _); [rewrite (so_limit _ _ _ Hs)|]. }
    destruct ks; [done|by apply sess_ok_add_change].
  - apply Hr; [|by apply se_broadcast_ok]. unfold se_broadcast. cbn. by case_decide.
  - apply Hr; [done|]. cbn [fst]. pose proof (wants_sent_spec now ks _ (so_wf _ _ _ Hs)) as (Hw & _ & Hl & Hlive).
    apply sess_ok_wants; try done. intros Hn. by destruct (Hop ks Hn).
  - apply Hr; [done|]. by apply sess_ok_update.
Qed.

Lemma session_step_ok now ev s mg id s' mg' eff :
  pm_ok (mg_pm mg) → sess_ok (mg_pm mg) id s → session_step draw now ev s mg = Some (s', mg', eff) →
  sess_ok (mg_pm mg') id s'.
Proof.
  intros Hpm Hs. destruct ev as [| |i|]; cbn [session_step].
  - destruct (se_incoming s) as [|op rest] eqn:Ei; [done|]. intros [= E _].
    assert (sess_ok (mg_pm mg) id (se_with_incoming rest s)) as Hrest.
    { destruct Hs as [H1' H2' H3' H4' H5' H6']. split; try done. cbn. intros ks Hn Hin. apply (H6' ks Hn). rewrite Ei. by right. }
    destruct (session_op_ok now op _ mg id Hpm Hrest) as [Hok _].
    { intros ks Hn ->. apply (so_sent _ _ _ Hs ks Hn). rewrite Ei. by left. }
    by rewrite E in Hok.
  - intros [= E _]. pose proof (se_broadcast_ok (mg_pm mg) id now None s mg Hs) as Hok. rewrite E in Hok. cbn in Hok.
    eapply sess_ok_pm, Hok. assert (mg' = (se_broadcast now None s mg).2) as -> by (by rewrite E). unfold se_broadcast.
    destruct (prepare_broadcast now (se_wants s)). cbn. by case_decide.
  - unfold handle_periodic_search. destruct (random_live_want i (se_wants s)); intros [= <- <- _]; [|done].
    eapply sess_ok_pm, sess_ok_ext, Hs; done.
  - destruct (ls_changes (se_sender s)) as [|ch rest]; [done|].
    pose proof (λ R HR, keeps_on_change R HR ch (ls_with_changes rest (se_sender s)) mg) as Hk.
    destruct (on_change draw ch _ mg) as [[l mg1] out] eqn:E. intros [= <- <- _].
    destruct (on_change_frame _ _ _ _ _ _ _ (pm_ok_good _ Hpm) E) as (Hi & _ & Hsent & _). cbn in Hi, Hsent.
    specialize (Hk _ (known_keeps id)). cbn [fst snd] in Hk.
    destruct Hs as [H1' H2' H3' H4' H5' H6']. rewrite H2' in Hi, Hsent.
    assert (pm_sessions (mg_pm mg1) !! id = None → pm_sessions (mg_pm mg) !! id = None) as Hn.
    { intros Hn. apply eq_None_not_Some. intros Hx%Hk. rewrite Hn in Hx. by destruct Hx. }
    split; try done; cbn; [by auto|]. intros ks Hnone. rewrite elem_of_app, list_elem_of_bind.
    intros [?|(o & Ho & Hin)]; [by apply (H6' ks); auto|]. destruct o; cbn in Ho; [set_solver| |set_solver].
    apply Hsent in Hin. rewrite Hnone in Hin. by destruct Hin.
Qed.

(** ** The client *)

Record cl_ok (c : Client) : Prop := {
  cl_ok_pm : pm_ok (mg_pm (cl_managers c));
  cl_ok_tidy : tidy (mg_sim (cl_managers c));
  cl_ok_session id s : cl_sessions c !! id = Some s → sess_ok (mg_pm (cl_managers c)) id s
}.

(** Sessions are changed one after the other. *)
Lemma alter_fold {K A} `{Countable K} (f : A → A) (l : list K) (m : gmap K A) k :
  NoDup l → foldl (λ m k, alter f k m) m l !! k = if decide (k ∈ l) then f <$> m !! k else m !! k.
Proof.
  revert m. induction l as [|x l IH]; intros m Hnd; cbn [foldl].
  { by rewrite decide_False by apply not_elem_of_nil. }
  apply NoDup_cons in Hnd as [Hx Hnd]. rewrite IH by done. destruct (decide (k = x)) as [->|Hk].
  - rewrite decide_False by done. rewrite decide_True by left. by rewrite lookup_alter_eq.
  - rewrite lookup_alter_ne by done. destruct (decide (k ∈ l)); [by rewrite decide_True by (by right)|].
    rewrite decide_False; [done|]. by intros [|]%elem_of_cons.
Qed.

Lemma receive_from_session peer bs hs ds c id :
  cl_sessions (client_receive_from peer bs hs ds c) !! id
  = if decide (id ∈ interested_sessions bs hs ds (mg_sim (cl_managers c)))
    then session_receive_from peer bs hs ds (mg_sim (cl_managers c)) <$> cl_sessions c !! id
    else cl_sessions c !! id.
Proof.
  cbn. rewrite alter_fold by apply NoDup_hs_iter.
  destruct (decide (id ∈ interested_sessions _ _ _ _)) as [Hin|Hin].
  - by rewrite decide_True by (by apply elem_of_hs_iter).
  - by rewrite decide_False by (by rewrite elem_of_hs_iter).
Qed.

Lemma session_receive_ok pm id peer bs hs ds sim s :
  sess_ok pm id s → sess_ok pm id (session_receive_from peer bs hs ds sim s).
Proof.
  intros Hs. unfold session_receive_from. cbn. set (s1 := match peer with Some _ => _ | None => _ end).
  assert (sess_ok pm id s1) as Hs1 by (unfold s1; destruct peer; [by apply sess_ok_push|done]).
  case_match; [done|by apply sess_ok_push].
Qed.

Lemma receive_from_ok peer bs hs ds c : cl_ok c → cl_ok (client_receive_from peer bs hs ds c).
Proof.
  intros [Hp Ht Hs]. assert (pm_ok (pm_send_cancels bs (mg_pm (cl_managers c)))) as Hp' by (by apply (pm_ok_keeps (SendCancels bs))).
  split; [done|done|]. intros id s. rewrite receive_from_session.
  assert (∀ s, sess_ok (mg_pm (cl_managers c)) id s →
    sess_ok (mg_pm (cl_managers (client_receive_from peer bs hs ds c))) id s) as Hpm by (intros x; by apply sess_ok_pm).
  case_decide; [|intros Hc; by apply Hpm, Hs]. intros (s0 & Hs0 & ->)%fmap_Some. apply Hpm, session_receive_ok. by apply Hs.
Qed.

Lemma broadcasts_same bs c :
  cl_managers (foldl (λ c b, client_broadcast b c) c bs) = cl_managers c ∧
  cl_sessions (foldl (λ c b, client_broadcast b c) c bs) = cl_sessions c ∧
  cl_getters (foldl (λ c b, client_broadcast b c) c bs) = (λ g, foldl (λ g b, getter_notify b g) g bs) <$> cl_getters c.
Proof.
  revert c. induction bs as [|b bs IH]; intros c; cbn [foldl].
  { split_and!; [done..|]. symmetry. apply list_fmap_id. }
  destruct (IH (client_broadcast b c)) as (-> & -> & ->). split_and!; [done..|]. cbn. rewrite <-list_fmap_compose. done.
Qed.

Lemma broadcasts_ok bs c : cl_ok c → cl_ok (foldl (λ c b, client_broadcast b c) c bs).
Proof. intros [Hp Ht Hs]. destruct (broadcasts_same bs c) as (E1 & E2 & _). split; rewrite ?E1, ?E2; done. Qed.

Lemma cl_ok_sessions c id s :
  cl_ok c → sess_ok (mg_pm (cl_managers c)) id s → cl_ok (cl_with_sessions (<[id := s]> (cl_sessions c)) c).
Proof.
  intros [Hp Ht Hs] Hok. split; [done|done|]. intros id' s'. cbn. rewrite lookup_insert. case_decide; [|apply Hs].
  subst. by intros [= <-].
Qed.

Lemma cl_ok_alter c id f :
  cl_ok c → (∀ s, sess_ok (mg_pm (cl_managers c)) id s → sess_ok (mg_pm (cl_managers c)) id (f s)) →
  cl_ok (cl_with_sessions (alter f id (cl_sessions c)) c).
Proof.
  intros [Hp Ht Hs] Hf. split; [done|done|]. intros id' s'. cbn. rewrite lookup_alter. case_decide; [|apply Hs].
  subst. intros (s0 & Hs0 & ->)%fmap_Some. by apply Hf, Hs.
Qed.

(** Messages to the peer manager *)
Lemma cl_ok_event ev c :
  (∀ id, ev ≠ PmMessage (UnregisterSession id)) → cl_ok c →
  cl_ok (cl_with_managers (mg_with_pm (pm_event_step ev (mg_pm (cl_managers c))).1 (cl_managers c)) c).
Proof.
  intros Hev [Hp Ht Hs]. split; [by apply pm_ok_event|done|]. intros id s Hid. eapply sess_ok_pm, Hs, Hid. cbn.
  intros Hn. apply eq_None_not_Some. intros Hx. destruct ev as [msg|p]; [|cbn in Hn; rewrite Hn in Hx; by destruct Hx].
  apply (known_keeps id msg) in Hx; [|by intros id' ->; by destruct (Hev id')]. cbn in Hn.
  destruct (pm_step msg _) as [[??]?]. cbn in Hn, Hx. rewrite Hn in Hx. by destruct Hx.
Qed.

(** A step of the tasks of a session *)
Lemma session_step_sim now ev s mg s' mg' eff id :
  pm_ok (mg_pm mg) → sess_ok (mg_pm mg) id s → session_step draw now ev s mg = Some (s', mg', eff) →
  mg_sim mg' = mg_sim mg ∨
  ∃ op, mg_sim mg' = (sim_step op (mg_sim mg)).1 ∧ ∀ id' k known, id' ≠ id → interest id' k known op = known.
Proof.
  intros Hpm Hs. destruct ev as [| |i|]; cbn [session_step].
  - destruct (se_incoming s) as [|op rest]; [done|]. intros [= E _].
    assert (mg' = (session_op now op (se_with_incoming rest s) mg).2) as -> by (by rewrite E). clear E.
    rewrite <-(so_id _ _ _ Hs). destruct op as [ks|ks|ks|ks|ks|u]; cbn [session_op snd]; try by left.
    + unfold handle_receive. destruct (blocks_received _ _ _) as [[w [|k l]] lat]; [by left|]. right.
      exists (SimRemoveWants (se_id s) (k :: l)). split; [done|]. intros. cbn. by rewrite decide_False by naive_solver.
    + unfold se_want_blocks. set (r := match ks with [] => _ | _ => _ end).
      assert (mg_sim r.2 = (sim_step (SimRecord (se_id s) ks) (mg_sim mg)).1) as Hr by (by destruct ks).
      right. exists (SimRecord (se_id s) ks). split; [|intros; cbn; by rewrite decide_False by naive_solver].
      rewrite <-Hr. destruct r as [s1 mg1]. destruct (session_query _ _ _); [done|].
      destruct (get_next_wants _ _). cbn. by case_decide.
    + unfold se_broadcast. cbn. left. by case_decide.
  - intros [= E _]. assert (mg' = (se_broadcast now None s mg).2) as -> by (by rewrite E). left.
    unfold se_broadcast. destruct (prepare_broadcast now (se_wants s)). cbn. by case_decide.
  - unfold handle_periodic_search. destruct (random_live_want i (se_wants s)); intros [= <- <- _]; by left.
  - destruct (ls_changes (se_sender s)) as [|ch rest]; [done|].
    destruct (on_change draw ch _ mg) as [[l mg1] out] eqn:E. intros [= <- <- _].
    destruct (on_change_frame _ _ _ _ _ _ _ (pm_ok_good _ Hpm) E) as (_ & _ & _ & ->). case_decide; [by left|right].
    eexists (SimRemoveInterested _ _). split; [done|]. intros. cbn. rewrite decide_False; [done|].
    rewrite (so_sender _ _ _ Hs). naive_solver.
Qed.

Lemma session_step_tidy now ev s mg s' mg' eff id :
  pm_ok (mg_pm mg) → tidy (mg_sim mg) → sess_ok (mg_pm mg) id s →
  session_step draw now ev s mg = Some (s', mg', eff) → tidy (mg_sim mg').
Proof.
  intros Hpm Ht Hs E. destruct (session_step_sim _ _ _ _ _ _ _ _ Hpm Hs E) as [->|(op & -> & _)]; [done|].
  by apply sim_step_spec.
Qed.

Lemma cl_ok_session_step now ev c id s s' mg' eff :
  cl_ok c → cl_sessions c !! id = Some s → session_step draw now ev s (cl_managers c) = Some (s', mg', eff) →
  cl_ok (cl_with_sessions (<[id := s']> (cl_sessions c)) (cl_with_managers mg' c)).
Proof.
  intros [Hp Ht Hs] Hid E. split; cbn.
  - by eapply (keeps_session_step pm_ok), E; [apply pm_ok_keeps|].
  - eapply session_step_tidy, E; [done..|by apply Hs].
  - intros id' x. rewrite lookup_insert. case_decide.
    + subst. intros [= <-]. eapply session_step_ok, E; [done|by apply Hs].
    + intros Hx. eapply sess_ok_pm, Hs, Hx. intros Hn. apply eq_None_not_Some. intros Hy.
      eapply (keeps_session_step _ (known_keeps id')) in Hy; [|exact E]. rewrite Hn in Hy. by destruct Hy.
Qed.

Lemma new_session_ok id c : cl_ok c → cl_ok (new_session_with_id id c).
Proof. intros Hc. apply cl_ok_sessions; [done|apply Session_new_ok]. Qed.

Lemma stop_session_ok id b c : cl_ok c → cl_ok (stop_session id b c).1.
Proof.
  intros Hc. unfold stop_session. destruct (cl_sessions c !! id) as [x|]; [|done]. destruct b; [|done].
  destruct Hc as [Hp Ht Hs]. unfold remove_session.
  pose proof (remove_session_spec id (mg_sim (cl_managers c)) Ht) as Hr. destruct (sim_remove_session _ _) as [sim cs].
  destruct Hr as (Ht' & _). set (c1 := {| cl_managers := _; cl_sessions := _; cl_session_index := _; cl_getters := _ |}).
  assert (pm_ok (mg_pm (cl_managers c1))) as Hp1 by (by apply (pm_ok_keeps (SendCancels cs))).
  pose proof (pm_ok_event (PmMessage (UnregisterSession id)) _ Hp1) as Hp2. simpl in Hp2.
  split; [exact Hp2|exact Ht'|]. intros id' s. cbn. rewrite lookup_delete. case_decide; [done|]. intros Hid.
  eapply sess_ok_pm, Hs, Hid. cbn. by rewrite lookup_delete_ne.
Qed.

Lemma sess_ok_signal pm id s ch : sess_ok pm id s → sess_ok pm id (se_with_sender (signal_change ch (se_sender s)) s).
Proof. intros [H1' H2' H3' H4' H5' H6']. split; try done. cbn. unfold signal_change. by case_match. Qed.

Lemma connected_ok p c : cl_ok c → cl_ok (client_peer_connected p c).1.
Proof.
  intros Hc. unfold client_peer_connected. pose proof (cl_ok_event (PmMessage (Connected p)) c) as Hok. cbn [pm_event_step pm_step] in Hok.
  destruct (pm_connected p (mg_pm (cl_managers c))) as [pm eff]. cbn [fst] in *.
  destruct (Hok (λ id, ltac:(done)) Hc) as [Hp Ht Hs]. split; [exact Hp|exact Ht|]. cbn in *.
  apply (foldl_invariant (λ ss : gmap Z Session, ∀ id s, ss !! id = Some s → sess_ok pm id s)); [|done].
  intros ss e _ Hss. destruct e; try done. cbn. intros id s. rewrite lookup_alter. case_decide; [|apply Hss].
  subst. intros (s0 & Hs0 & ->)%fmap_Some. by apply sess_ok_signal, Hss.
Qed.

Lemma client_step_ok ev c c' eff : cl_ok c → client_step draw ev c = Some (c', eff) → cl_ok c'.
Proof.
  intros Hc. destruct ev as [|id|id b|id ks|id k p|now id ev|i|i|p m|bs|p|p|p|p ks]; cbn [client_step].
  - unfold new_session, get_next_session_id. destruct (next_session_id _ _ _) as [[id index]|]; [|done]. cbn.
    intros [= <- _]. refine (new_session_ok id {| cl_session_index := index |} _). destruct Hc. by split.
  - intros [= <- _]. unfold get_or_create_session. case_match; [done|by apply new_session_ok].
  - intros E%(inj Some). pose proof (stop_session_ok id b c Hc) as Hok. by rewrite E in Hok.
  - destruct (cl_sessions c !! id) as [s|] eqn:Es; [|done]. cbn. destruct ks as [|k ks]; [done|]. cbn. intros [= <- _].
    destruct (cl_ok_sessions c id (se_push (OpWant (k :: ks)) s)) as [Hp Ht Hs]; [done| |by split].
    apply sess_ok_push; [by apply Hc|done].
  - destruct (cl_sessions c !! id) as [s|] eqn:Es; [|done]. cbn. intros [= <- _].
    apply cl_ok_sessions; [done|]. apply sess_ok_push; [by apply Hc|done].
  - destruct (cl_sessions c !! id) as [s|] eqn:Es; [|done]. cbn.
    destruct (session_step draw now ev s (cl_managers c)) as [[[s' mg'] e]|] eqn:E; [|done]. cbn. intros [= <- _].
    by eapply cl_ok_session_step.
  - destruct (cl_getters c !! i); [|done]. destruct (getter_step g); [|done]. cbn. intros [= <- _]. destruct Hc. by split.
  - destruct (cl_getters c !! i) as [g|]; [|done]. intros [= <- _]. unfold close_getter.
    destruct (getter_close g) as [g' [op|]] eqn:Eg; [|destruct Hc; by split].
    apply (cl_ok_alter (cl_with_getters (<[i:=g']> (cl_getters c)) c)); [destruct Hc; by split|]. intros s Hs.
    apply sess_ok_push; [done|]. unfold getter_close in Eg. by repeat case_match; simplify_eq.
  - unfold client_receive_message. case_match; [|intros [= <- _]; done]. unfold receive_blocks_from.
    destruct (split_wanted_unwanted _ _) as [w nw]. intros [= <- _]. by apply broadcasts_ok, receive_from_ok.
  - intros [= <- _]. by apply broadcasts_ok, receive_from_ok.
  - intros E%(inj Some). pose proof (connected_ok p c Hc) as Hok. by rewrite E in Hok.
  - intros [= <- _]. by apply (cl_ok_event (PmMessage (Disconnected p))).
  - intros [= <- _]. by apply (cl_ok_event (QueueStops p)).
  - intros [= <- _]. by apply receive_from_ok.
Qed.

(** ** Runs *)

Fixpoint client_run (evs : list client_event) (c : Client) : option (Client * list client_effect) :=
  match evs with
  | [] => Some (c, [])
  | ev :: evs =>
      '(c1, eff1) ← client_step draw ev c;
      '(c2, eff2) ← client_run evs c1;
      Some (c2, eff1 ++ eff2)
  end.

Lemma Client_new_ok : cl_ok Client_new.
Proof.
  split; cbn.
  - split; [apply pm_new_wf|]. intros id s. cbn. by rewrite lookup_empty.
  - intros c. by rewrite lookup_empty.
  - intros id s. by rewrite lookup_empty.
Qed.

Lemma client_run_invariant (I : Client → Prop) evs c c' eff :
  (∀ ev c c' eff, ev ∈ evs → I c → client_step draw ev c = Some (c', eff) → I c') →
  I c → client_run evs c = Some (c', eff) → I c'.
Proof.
  revert c eff. induction evs as [|ev evs IH]; intros c eff Hstep Hc; cbn [client_run]; [by intros [= <- _]|].
  destruct (client_step draw ev c) as [[c1 e1]|] eqn:E1; [|done]. cbn.
  destruct (client_run evs c1) as [[c2 e2]|] eqn:E2; [|done]. cbn. intros [= <- _].
  eapply IH, E2; [intros; eapply Hstep; [by right|done..]|]. eapply Hstep, E1; [left|done].
Qed.

Lemma client_run_ok evs c eff : client_run evs Client_new = Some (c, eff) → cl_ok c.
Proof. apply client_run_invariant; [|apply Client_new_ok]. intros ev c0 c1 e _. apply client_step_ok. Qed.

Lemma message_blocks_nonempty (m : BitswapMessage) b : b ∈ message_blocks m → (0 <? blocks_len m)%nat = true.
Proof.
  intros [k Hk]%elem_of_hm_values. apply Nat.ltb_lt. unfold blocks_len.
  destruct (decide (size (msg_blocks m) = 0%nat)) as [E0|]; [|lia].
  apply map_size_empty_inv in E0. by rewrite E0, lookup_empty in Hk.
Qed.

(** C26: a block that arrived is not asked for any longer.  Whatever the client has
    done before, after it handled a message none of the blocks in the message is
    among the wants of the peer manager, and no connected peer is asked for one.  The
    handlers of the client run one after the other here. *)
Theorem received_not_wanted evs c eff peer incoming c' eff' b :
  client_run evs Client_new = Some (c, eff) →
  client_step draw (ClReceiveMessage peer incoming) c = Some (c', eff') →
  b ∈ message_blocks incoming →
  (block_cid b ∉ get_wants (pm_wants (mg_pm (cl_managers c')))) ∧
  ∀ p, peer_view (pm_wants (mg_pm (cl_managers c'))) p (block_cid b) = None.
Proof.
  intros Hrun. pose proof (client_run_ok _ _ _ Hrun) as Hc. cbn [client_step]. unfold client_receive_message.
  intros E Hb. rewrite message_blocks_nonempty with (b := b) in E by done. cbn [orb] in E. revert E. unfold receive_blocks_from.
  destruct (split_wanted_unwanted _ _) as [w nw]. intros [= <- _].
  match goal with |- context [foldl _ ?c1 w] => destruct (broadcasts_same w c1) as (-> & _) end. cbn.
  set (m := pm_wants (mg_pm (cl_managers c))). set (cs := block_cid <$> message_blocks incoming).
  destruct (pm_ok_good _ (cl_ok_pm _ Hc)) as [Hwf Hsame].
  assert (dom (pm_peers (mg_pm (cl_managers c))) = dom (pwm_peer_wants m)) as ->.
  { apply set_eq. intros p. rewrite !elem_of_dom. apply Hsame. }
  destruct (pwm_send_cancels cs _ m) as [m' ups] eqn:Es. cbn.
  assert (block_cid b ∈ cs) as Hin by (by apply list_elem_of_fmap_2).
  destruct (send_cancels_peers _ _ _ _ Hwf Es) as (_ & Hbc & Hidx & Hne & _).
  destruct (send_cancels_ok _ _ _ _ Hwf Es) as ([Hi' _ _] & _).
  assert (block_cid b ∉ get_wants m') as Hno.
  { rewrite get_wants_spec by done. rewrite Hbc. setoid_rewrite Hidx. naive_solver. }
  split; [done|]. intros p. unfold peer_view. destruct (pwm_peer_wants m' !! p) as [pw|] eqn:Ep; [|done].
  assert (¬ sent_to m' p (block_cid b)) as Hns by (rewrite <-Hi', Hidx; tauto).
  rewrite (sent_to_at _ _ _ _ Ep) in Hns. rewrite !bool_decide_false; [done|rewrite Hbc; tauto|tauto].
Qed.

(** C39: the limit of broadcasts is respected and its arithmetic is safe.  In every
    reachable state a session that has not discovered peers has at most 64 live
    wants, so the subtraction of [get_next_wants] does not underflow. *)
Theorem broadcast_limit_respected evs c eff id s :
  client_run evs Client_new = Some (c, eff) → cl_sessions c !! id = Some s →
  session_query id ss_discovered (mg_pm (cl_managers c)) = false →
  0 ≤ broadcast_limit (se_wants s) - Z.of_nat (size (live_wants (se_wants s))) ≤ BROADCAST_LIVE_WANTS_LIMIT.
Proof.
  intros Hrun Hs Hq. pose proof (client_run_ok _ _ _ Hrun) as Hc. destruct (cl_ok_session _ Hc _ _ Hs) as [_ _ _ Hl Hf _].
  rewrite Hl. assert (pm_sessions (mg_pm (cl_managers c)) !! id = None) as Hn; [|specialize (Hf Hn); lia].
  unfold session_query in Hq. destruct (pm_sessions _ !! id) as [x|] eqn:Ex; [|done].
  by rewrite (pm_ok_sessions _ (cl_ok_pm _ Hc) _ _ Ex) in Hq.
Qed.

End facts.

Module ClientWitness.
Import Toy.

Definition p1 : @PeerId ids := 1%nat.
Definition k1 : @Cid ids := [1].
Definition k2 : @Cid ids := [2].
Definition first_draw : nat → Z → Z → bool := λ _ _ _, true.

(** A caller asks for two blocks; the session broadcasts the wants. *)
Definition asking : list client_event :=
  [ClPeerConnected p1; ClNewSession; ClGetBlocks 0 [k1; k2]; ClSession 5 0 SeOperation].
Definition run (evs : list client_event) : Client * list client_effect :=
  default (Client_new, []) (client_run first_draw evs Client_new).
Definition with_block1 : BitswapMessage :=
  {| msg_full := false; msg_wantlist := ∅; msg_blocks := {[ k1 := Block_new k1 k1 ]};
     msg_block_presences := ∅; msg_pending_bytes := 0 |}.

Definition asked := run asking.
Definition answered := client_receive_message p1 with_block1 asked.1.

Lemma run_asking : client_run first_draw asking Client_new = Some asked.
Proof. vm_compute. reflexivity. Qed.

Lemma received_not_wanted_witness :
  (k1 ∈ get_wants (pm_wants (mg_pm (cl_managers asked.1)))) ∧
  (k1 ∉ get_wants (pm_wants (mg_pm (cl_managers answered.1)))).
Proof.
  split; [refine (bool_decide_unpack _ _); vm_compute; exact I|].
  apply (received_not_wanted first_draw asking asked.1 asked.2 p1 with_block1 answered.1 answered.2 (Block_new k1 k1)).
  - rewrite run_asking. by destruct asked.
  - cbn [client_step]. fold answered. by destruct answered.
  - vm_compute. left.
Defined.

Definition session0 : Session := default (Session_new 0) (cl_sessions asked.1 !! 0).

Lemma broadcast_limit_respected_witness :
  0 ≤ broadcast_limit (se_wants session0) - Z.of_nat (size (live_wants (se_wants session0))) ≤ BROADCAST_LIVE_WANTS_LIMIT.
Proof.
  apply (broadcast_limit_respected first_draw asking asked.1 asked.2 0 session0).
  - rewrite run_asking. by destruct asked.
  - vm_compute. reflexivity.
  - vm_compute. reflexivity.
Defined.

(** A caller goes away and another one asks the same session for the same block.  The
    want sender handles the cancel after the session recorded the new interest, and
    removes it: the block that arrives is not wanted by anyone. *)
Definition asking_again : list client_event :=
  [ClPeerConnected p1; ClNewSession; ClGetBlocks 0 [k1]; ClSession 5 0 SeOperation; ClGetterClose 0;
   ClGetBlocks 0 [k1]; ClSession 6 0 SeOperation; ClSession 7 0 SeOperation; ClSession 8 0 SeChange].

Lemma rewant_lost :
  let c := (run asking_again).1 in
  let '(c', eff) := client_receive_message p1 with_block1 c in
  (gt_remaining <$> cl_getters c) = [{[k1]}; {[k1]}] ∧ (gt_running <$> cl_getters c') = [false; true] ∧
  (gt_queue <$> cl_getters c') = [[]; []] ∧ ClBlocksReceived p1 [] ∈ eff.
Proof. vm_compute. split_and!; try reflexivity. right. left. Qed.
End ClientWitness.
