(* ===== verification/ClientDelivery.v ===== *)
(** * Blocks reach the callers that wait for them

    A caller of [get_blocks] that is not abandoned gets every block that arrives after
    its request was read, whatever the client, its sessions and its peers do in the
    meantime. *)

From stdpp Require Import prelude gmap fin_maps.
From Stdlib Require Import ZArith Lia.
From S2P Require Import Prelude Cids Message Wantlist MessageQueue MessageQueueFacts MessageQueueRun.
From S2P Require Import PeerWants PeerWantsFacts PeerManager PeerManagerFacts ClientTrackers ClientTrackersFacts.
From S2P Require Import Managers WantSender WantSenderFacts Session Client ClientFacts.
Local Open Scope Z_scope.

Section delivery.
Context `{Multiformats} `{HashOrder}.
Variable draw : nat → Z → Z → bool.

(** ** Callers that wait *)

(** Whether the session still waits for a block once it has read the operations
    [ops]: wants make it wait, received blocks end it. *)
Definition wait_op (k : Cid) (b : bool) (op : Op) : bool :=
  match op with
  | OpWant ks => if decide (k ∈ ks) then true else b
  | OpReceive ks => if decide (k ∈ ks) then false else b
  | _ => b
  end.
Definition waits (k : Cid) (b : bool) (ops : list Op) : bool := foldl (wait_op k) b ops.
#[local] Arguments waits : simpl never.

Definition interested (sim : Interests) (id : Z) (k : Cid) : bool := bool_decide (interest_of sim id k = Some true).

Lemma waits_mono k (b b' : bool) ops : (b = true → b' = true) → waits k b ops = true → waits k b' ops = true.
Proof.
  unfold waits. revert b b'. induction ops as [|op ops IH]; intros b b' Hb; cbn [foldl]; [done|]. apply IH.
  destruct op; cbn; try done; by case_decide.
Qed.

Lemma waits_app k b ops ops' : waits k b (ops ++ ops') = waits k (waits k b ops) ops'.
Proof. apply foldl_app. Qed.

Lemma waits_snoc k b ops op : waits k b (ops ++ [op]) = wait_op k (waits k b ops) op.
Proof. apply waits_app. Qed.

Lemma waits_same k b ops :
  (∀ ks, OpWant ks ∈ ops → k ∉ ks) → (∀ ks, OpReceive ks ∈ ops → k ∉ ks) → waits k b ops = b.
Proof.
  intros Hw Hr. unfold waits. induction ops as [|op ops IH] using rev_ind; [done|]. rewrite foldl_app. cbn.
  rewrite IH; [|intros ks Hin; apply Hw, elem_of_app; by left|intros ks Hin; apply Hr, elem_of_app; by left].
  destruct op as [ks|ks|ks|ks|ks|u]; cbn; try done; rewrite decide_False; try done;
    [apply Hr|apply Hw]; apply elem_of_app; right; by left.
Qed.

(** Without wants that are still to be read, the session is interested now. *)
Lemma waits_now k b ops : (∀ ks, OpWant ks ∈ ops → k ∉ ks) → waits k b ops = true → b = true.
Proof.
  unfold waits. revert b. induction ops as [|op ops IH]; intros b Hw; cbn [foldl]; [done|].
  intros Hb. apply IH in Hb; [|intros ks Hin; apply Hw; by right].
  destruct op as [ks|ks|ks|ks|ks|u]; cbn in Hb; try done; case_decide as Hk; try done.
  exfalso. by apply (Hw ks); [left|].
Qed.

(** Nobody gives up: no cancels are on their way. *)
Record no_cancel (s : Session) : Prop := {
  nc_ops ks : OpCancel ks ∉ se_incoming s;
  nc_changes ks : ChangeCancel ks ∉ ls_changes (se_sender s)
}.

Lemma no_cancel_push s op : no_cancel s → (∀ ks, op ≠ OpCancel ks) → no_cancel (se_push op s).
Proof.
  intros [Ho Hc] Hop. split; [|done]. intros ks. cbn. rewrite elem_of_app, list_elem_of_singleton.
  intros [?|?]; [by eapply Ho|by eapply Hop].
Qed.

Lemma no_cancel_change s ch : no_cancel s → (∀ ks, ch ≠ ChangeCancel ks) → no_cancel (sender_add_change ch s).
Proof.
  intros [Ho Hc] Hop. split; [done|]. intros ks. cbn. rewrite elem_of_app, list_elem_of_singleton.
  intros [?|?]; [by eapply Hc|by eapply Hop].
Qed.

Lemma no_cancel_ext s s' :
  se_incoming s' = se_incoming s → se_sender s' = se_sender s → no_cancel s → no_cancel s'.
Proof. intros E1 E2 [Ho Hc]. split; by rewrite ?E1, ?E2. Qed.

Lemma se_broadcast_frame now o s mg :
  let r := se_broadcast now o s mg in
  se_incoming r.1 = se_incoming s ∧ se_sender r.1 = se_sender s ∧ mg_sim r.2 = mg_sim mg.
Proof.
  unfold se_broadcast. destruct (match o with Some _ => _ | None => _ end) as [w l]. cbn [fst snd].
  split_and!; [| |by case_decide].
  - destruct (hs_iter l); [by case_match|]. destruct (se_consecutive_ticks _ =? 0); by case_match.
  - destruct (hs_iter l); [by case_match|]. destruct (se_consecutive_ticks _ =? 0); by case_match.
Qed.

Lemma interested_eq sim sim' id k :
  interest_of sim' id k = interest_of sim id k → interested sim' id k = interested sim id k.
Proof. intros E. unfold interested. by rewrite E. Qed.

(** An operation is read. *)
Lemma session_op_waits now op s mg :
  tidy (mg_sim mg) → sw_wf (se_wants s) → no_cancel s → (∀ ks, op ≠ OpCancel ks) →
  let r := session_op now op s mg in
  no_cancel r.1 ∧ se_incoming r.1 = se_incoming s ∧
  (∀ k, wait_op k (interested (mg_sim mg) (se_id s) k) op = true → interested (mg_sim r.2) (se_id s) k = true).
Proof.
  intros Ht Hwf Hnc Hop. destruct op as [ks|ks|ks|ks|ks|u]; cbn [session_op].
  - unfold handle_receive. destruct (blocks_received now ks (se_wants s)) as [[w wanted] lat] eqn:E.
    apply blocks_received_spec in E as (_ & _ & _ & _ & Hret & _); [|done].
    assert (no_cancel (se_with_wants w s)) as Hnc1 by (by eapply no_cancel_ext, Hnc).
    destruct wanted as [|k0 l]; [split_and!; try done; intros k; cbn; case_decide; done|].
    destruct (remove_wants_spec (se_id s) (k0 :: l) (mg_sim mg) Ht) as [_ Hi]. split_and!; [by destruct Hnc1|done|].
    intros k. cbn [wait_op snd mg_sim mg_with_sim]. case_decide as Hk; [done|]. intros Hw.
    erewrite interested_eq; [exact Hw|]. rewrite Hi. cbn [interest]. rewrite decide_False; [done|].
    intros [_ Hin]. apply Hk, (Hret k). done.
  - unfold se_want_blocks. set (r := match ks with [] => _ | _ => _ end).
    assert (no_cancel r.1 ∧ se_incoming r.1 = se_incoming s ∧
      (∀ k, wait_op k (interested (mg_sim mg) (se_id s) k) (OpWant ks) = true → interested (mg_sim r.2) (se_id s) k = true)) as (Hn & Hin & Hw).
    { unfold r. destruct ks as [|k0 ks]; [split_and!; try done; intros k; cbn [wait_op];
        by rewrite decide_False by apply not_elem_of_nil|].
      destruct (record_spec (se_id s) (k0 :: ks) (mg_sim mg) Ht) as [_ Hi]. split_and!.
      - apply no_cancel_change; [by eapply no_cancel_ext, Hnc|done].
      - done.
      - intros k. cbn [wait_op snd mg_sim mg_with_sim]. unfold interested. rewrite Hi. cbn [interest].
        case_decide as Hk; [by rewrite decide_True|]. by rewrite decide_False by tauto. }
    destruct r as [s1 mg1]. cbn [fst snd] in *. destruct (session_query _ _ _); [by split_and!|].
    destruct (get_next_wants now (se_wants s1)) as [w l]. cbn. split_and!; try done.
    + by eapply no_cancel_ext, Hn.
    + by case_decide.
  - by destruct (Hop ks).
  - destruct (se_broadcast_frame now (Some ks) s mg) as (E1 & E2 & E3). rewrite E3.
    split_and!; [by eapply no_cancel_ext, Hnc|done|done].
  - split_and!; try done. by eapply no_cancel_ext, Hnc.
  - split_and!; try done; unfold sender_update; case_decide; try done. by apply no_cancel_change.
Qed.

Lemma cancelled_none l : (∀ ks, ChangeCancel ks ∉ l) → cancelled l = [].
Proof.
  unfold cancelled. induction l as [|ch l IH]; intros Hl; [done|]. cbn [mbind list_bind].
  rewrite IH by (intros ks Hin; apply (Hl ks); by right). destruct ch; cbn; try done. by destruct (Hl cids); left.
Qed.

(** A step of the tasks of a session *)
Lemma session_step_waits now ev s mg s' mg' eff id :
  pm_ok (mg_pm mg) → tidy (mg_sim mg) → sess_ok (mg_pm mg) id s → no_cancel s →
  session_step draw now ev s mg = Some (s', mg', eff) →
  no_cancel s' ∧
  ∀ k, waits k (interested (mg_sim mg) id k) (se_incoming s) = true →
       waits k (interested (mg_sim mg') id k) (se_incoming s') = true.
Proof.
  intros Hpm Ht Hs Hnc. destruct ev as [| |i|]; cbn [session_step].
  - destruct (se_incoming s) as [|op rest] eqn:Ei; [done|]. intros [= E _].
    assert (no_cancel (se_with_incoming rest s)) as Hnc1.
    { split; [|apply Hnc]. intros ks Hin. apply (nc_ops _ Hnc ks). rewrite Ei. by right. }
    destruct (session_op_waits now op (se_with_incoming rest s) mg Ht (so_wf _ _ _ Hs) Hnc1) as (Hn & Hin & Hw).
    { intros ks ->. apply (nc_ops _ Hnc ks). rewrite Ei. by left. }
    rewrite E in Hn, Hin, Hw. cbn [fst snd] in *. rewrite <-(so_id _ _ _ Hs). split; [done|].
    intros k Hk. rewrite Hin. cbn. unfold waits in Hk. cbn [foldl] in Hk. eapply waits_mono, Hk. apply Hw.
  - intros [= E _]. destruct (se_broadcast_frame now None s mg) as (E1 & E2 & E3). rewrite E in E1, E2, E3.
    cbn [fst snd] in *. rewrite E1, E3. split; [by eapply no_cancel_ext, Hnc|done].
  - unfold handle_periodic_search. destruct (random_live_want i (se_wants s)); intros [= <- <- _]; [|done].
    split; [by eapply no_cancel_ext, Hnc|done].
  - destruct (ls_changes (se_sender s)) as [|ch rest] eqn:Ec; [done|].
    destruct (on_change draw ch _ mg) as [[l mg1] out] eqn:E. intros [= <- <- _].
    destruct (on_change_frame _ _ _ _ _ _ _ (pm_ok_good _ Hpm) E) as (_ & Hch & _ & Hsim).
    rewrite cancelled_none in Hsim; [rewrite decide_True in Hsim by done|].
    2:{ intros ks Hin. apply (nc_changes _ Hnc ks). rewrite Ec. unfold batch in Hin. cbn in Hin.
        apply elem_of_cons in Hin as [->|Hin]; [by left|]. right. by apply (subseteq_take 127). }
    rewrite Hsim. cbn [se_incoming se_with_incoming]. assert (∀ op, op ∈ out ≫= sender_op → (∃ ks, op = OpSent ks) ∨ ∃ ks, op = OpBroadcastWants ks) as Hops.
    { intros op (o & Ho & _)%list_elem_of_bind. destruct o; cbn in Ho; set_solver. }
    split; [|intros k Hk; rewrite waits_app].
    + split; cbn.
      * intros ks [?|Hin]%elem_of_app; [by eapply (nc_ops _ Hnc)|]. apply Hops in Hin as [[? ?]|[? ?]]; done.
      * intros ks [Hin|(p & b & ?)]%Hch; [|done]. apply (nc_changes _ Hnc ks). rewrite Ec. cbn in Hin. by right.
    + rewrite Hk. apply waits_same; intros ks Hin%Hops; by destruct Hin as [[? ?]|[? ?]].
Qed.

(** What others do to a session *)
Lemma session_receive_waits peer bs hs ds sim s :
  let s' := session_receive_from peer bs hs ds sim s in
  (no_cancel s → no_cancel s') ∧
  ∀ k b, waits k b (se_incoming s) = true →
    waits k b (se_incoming s') = true ∨ (k ∈ bs ∧ interested sim (se_id s) k = true).
Proof.
  unfold session_receive_from. cbn. set (s1 := match peer with Some _ => _ | None => _ end).
  assert ((no_cancel s → no_cancel s1) ∧ ∀ k b, waits k b (se_incoming s1) = waits k b (se_incoming s)) as [Hn Hw].
  { unfold s1. destruct peer as [p|]; [|done]. split; [intros Hs; by apply no_cancel_push|].
    intros k b. cbn. by rewrite waits_snoc. }
  set (l := filter _ bs). assert (∀ k, k ∈ l → k ∈ bs ∧ interested sim (se_id s) k = true) as Hl.
  { intros k [? ?]%filter_interested_spec. split; [done|by apply bool_decide_eq_true]. }
  destruct l as [|k0 l]; [split; [done|]; intros k b Hb; left; by rewrite Hw|].
  split; [intros Hs; apply no_cancel_push; auto|]. intros k b Hb. cbn. rewrite waits_snoc, Hw, Hb. cbn.
  case_decide as Hk; [right; by apply Hl|by left].
Qed.

(** ** The invariant *)

Section session.
Variable sid : Z.

(** What a session promises is kept. *)
Definition sess_le (sim : Interests) (s : Session) (sim' : Interests) (s' : Session) : Prop :=
  (no_cancel s → no_cancel s') ∧
  ∀ k, waits k (interested sim sid k) (se_incoming s) = true → waits k (interested sim' sid k) (se_incoming s') = true.

(** Every block that remains is in the queue of the caller, or the session waits for it. *)
Definition caller_waits (sim : Interests) (s : Session) (g : Getter) : Prop :=
  (gt_running g = false → gt_remaining g = ∅) ∧
  ∀ k, k ∈ gt_remaining g → k ∈ block_cid <$> gt_queue g ∨ waits k (interested sim sid k) (se_incoming s) = true.

Record delivers (c : Client) : Prop := {
  dl_cancel s : cl_sessions c !! sid = Some s → no_cancel s;
  dl_caller g : g ∈ cl_getters c → gt_session g = sid →
    ∃ s, cl_sessions c !! sid = Some s ∧ caller_waits (mg_sim (cl_managers c)) s g
}.

Lemma sess_le_refl sim sim' s : (∀ k, interest_of sim' sid k = interest_of sim sid k) → sess_le sim s sim' s.
Proof. intros E. split; [done|]. intros k. by rewrite (interested_eq _ _ _ _ (E k)). Qed.

Lemma sess_le_push sim s op :
  (∀ ks, op ≠ OpCancel ks) → (∀ ks, op ≠ OpReceive ks) → sess_le sim s sim (se_push op s).
Proof.
  intros Hc Hr. split; [intros Hs; by apply no_cancel_push|]. intros k Hk. cbn. rewrite waits_snoc, Hk.
  destruct op as [ks|ks|ks|ks|ks|u]; cbn; try done; [by destruct (Hr ks)|by case_decide].
Qed.

Lemma caller_le sim s sim' s' g : sess_le sim s sim' s' → caller_waits sim s g → caller_waits sim' s' g.
Proof. intros [_ Hle] [Hr Hw]. split; [done|]. intros k [?|?]%Hw; [by left|right; by apply Hle]. Qed.

(** Steps that leave the callers alone *)
Lemma delivers_frame c c' :
  cl_getters c' = cl_getters c →
  match cl_sessions c !! sid with
  | Some s => ∃ s', cl_sessions c' !! sid = Some s' ∧ sess_le (mg_sim (cl_managers c)) s (mg_sim (cl_managers c')) s'
  | None => ∀ s', cl_sessions c' !! sid = Some s' → no_cancel s'
  end → delivers c → delivers c'.
Proof.
  intros Hg Hs [Hc Hw]. destruct (cl_sessions c !! sid) as [s|] eqn:Es.
  - destruct Hs as (s' & Es' & Hle). split.
    + intros x Hx. simplify_eq. by apply Hle, Hc.
    + intros g Hin Hid. rewrite Hg in Hin. destruct (Hw g Hin Hid) as (x & Hx & Hgw). simplify_eq.
      exists s'. split; [done|]. by eapply caller_le.
  - split; [done|]. intros g Hin Hid. rewrite Hg in Hin. destruct (Hw g Hin Hid) as (x & Hx & _). by simplify_eq.
Qed.

Lemma delivers_insert c id s :
  match cl_sessions c !! id with
  | Some s0 => sess_le (mg_sim (cl_managers c)) s0 (mg_sim (cl_managers c)) s
  | None => no_cancel s
  end → delivers c → delivers (cl_with_sessions (<[id := s]> (cl_sessions c)) c).
Proof.
  intros Hs. apply delivers_frame; [done|]. cbn. rewrite lookup_insert. destruct (decide (id = sid)) as [->|Hne].
  - destruct (cl_sessions c !! sid); [eauto|]. by intros s' [= <-].
  - destruct (cl_sessions c !! sid) as [x|]; [|done]. exists x. split; [done|]. by apply sess_le_refl.
Qed.

Lemma Session_new_no_cancel id : no_cancel (Session_new id).
Proof. split; cbn; intros ks; apply not_elem_of_nil. Qed.

(** Blocks are broadcast. *)
Lemma notify_fold bs g :
  let g' := foldl (λ g b, getter_notify b g) g bs in
  gt_session g' = gt_session g ∧ gt_remaining g' = gt_remaining g ∧ gt_running g' = gt_running g ∧
  gt_found g' = gt_found g ∧ gt_queue g' = if gt_running g then gt_queue g ++ bs else gt_queue g.
Proof.
  revert g. induction bs as [|b bs IH]; intros g; cbn.
  { split_and!; try done. rewrite app_nil_r. by destruct (gt_running g). }
  destruct (IH (getter_notify b g)) as (-> & -> & -> & -> & ->). unfold getter_notify.
  destruct (gt_running g) eqn:E; cbn; rewrite ?E; split_and!; try done. by rewrite <-app_assoc.
Qed.

Lemma delivers_receive peer bs hs ds w c :
  (∀ k, k ∈ bs → interested (mg_sim (cl_managers c)) sid k = true → k ∈ block_cid <$> w) → cl_ok c →
  delivers c → delivers (foldl (λ c b, client_broadcast b c) (client_receive_from peer bs hs ds c) w).
Proof.
  intros Hbs Hok [Hc Hw]. destruct (broadcasts_same w (client_receive_from peer bs hs ds c)) as (E1 & E2 & E3).
  assert (∀ s, cl_sessions c !! sid = Some s → ∃ s', cl_sessions (client_receive_from peer bs hs ds c) !! sid = Some s' ∧
    (no_cancel s → no_cancel s') ∧ ∀ k b, waits k b (se_incoming s) = true →
      waits k b (se_incoming s') = true ∨ (k ∈ bs ∧ interested (mg_sim (cl_managers c)) sid k = true)) as Hs.
  { intros s Es. rewrite receive_from_session, Es. case_decide; [|exists s; split_and!; eauto].
    pose proof (session_receive_waits peer bs hs ds (mg_sim (cl_managers c)) s) as Hr.
    rewrite (so_id _ _ _ (cl_ok_session _ Hok _ _ Es)) in Hr. eexists. split; [done|exact Hr]. }
  split; rewrite ?E1, ?E2, ?E3.
  - intros s' Hs'. destruct (cl_sessions c !! sid) as [s|] eqn:Es.
    + destruct (Hs s eq_refl) as (x & Hx & Hn & _). simplify_eq. by apply Hn, Hc.
    + rewrite receive_from_session, Es in Hs'. by case_decide.
  - intros g' Hg' Hid. apply list_elem_of_fmap in Hg' as (g & -> & Hin).
    destruct (notify_fold w g) as (Eid & Er & Erun & _ & Eq). rewrite Eid in Hid.
    destruct (Hw g Hin Hid) as (s & Es & Hrun & Hg). destruct (Hs s Es) as (s' & Es' & _ & Hle).
    exists s'. split; [done|]. split; [by rewrite Er, Erun|]. intros k Hk. rewrite Er in Hk. rewrite Eq.
    assert (gt_running g = true) as ->.
    { apply not_false_is_true. intros Hf. rewrite (Hrun Hf) in Hk. by apply not_elem_of_empty in Hk. }
    rewrite fmap_app, elem_of_app. destruct (Hg k Hk) as [?|[?|[? ?]]%Hle]; [by left; left|by right|].
    left. right. by apply Hbs.
Qed.

Lemma session_step_others now ev s mg s' mg' eff id :
  pm_ok (mg_pm mg) → tidy (mg_sim mg) → sess_ok (mg_pm mg) id s → session_step draw now ev s mg = Some (s', mg', eff) →
  id ≠ sid → ∀ k, interest_of (mg_sim mg') sid k = interest_of (mg_sim mg) sid k.
Proof.
  intros Hpm Ht Hs E Hne k. destruct (session_step_sim draw _ _ _ _ _ _ _ _ Hpm Hs E) as [->|(op & -> & Ho)]; [done|].
  destruct (sim_step_spec op (mg_sim mg) Ht) as (_ & -> & _). by apply Ho.
Qed.

Lemma delivers_session_step now ev c id s s' mg' eff :
  cl_ok c → cl_sessions c !! id = Some s → session_step draw now ev s (cl_managers c) = Some (s', mg', eff) →
  delivers c → delivers (cl_with_sessions (<[id := s']> (cl_sessions c)) (cl_with_managers mg' c)).
Proof.
  intros Hok Es E Hd. pose proof (cl_ok_session _ Hok _ _ Es) as Hs. destruct Hok as [Hpm Ht _].
  eapply delivers_frame, Hd; [done|]. cbn. rewrite lookup_insert. case_decide as Hid.
  - subst. rewrite Es. exists s'. split; [done|]. destruct (session_step_waits _ _ _ _ _ _ _ _ Hpm Ht Hs (dl_cancel _ Hd _ Es) E).
    by split.
  - destruct (cl_sessions c !! sid) as [x|] eqn:Ex; [|done]. exists x. split; [done|].
    apply sess_le_refl. by eapply session_step_others.
Qed.

Lemma delivers_stop id b c : cl_ok c → id ≠ sid → delivers c → delivers (stop_session id b c).1.
Proof.
  intros [_ Ht _] Hne. unfold stop_session. destruct (cl_sessions c !! id) as [x|]; [|done]. destruct b; [|done].
  unfold remove_session. pose proof (remove_session_spec id (mg_sim (cl_managers c)) Ht) as Hr.
  destruct (sim_remove_session _ _) as [sim cs]. destruct Hr as (_ & Hi & _).
  apply delivers_frame; [done|]. cbn. rewrite lookup_delete_ne by done.
  destruct (cl_sessions c !! sid) as [y|]; [|done]. exists y. split; [done|]. apply sess_le_refl.
  intros k. rewrite Hi. cbn. by rewrite decide_False.
Qed.

Lemma sess_le_signal sim s ch :
  (∀ ks, ch ≠ ChangeCancel ks) → sess_le sim s sim (se_with_sender (signal_change ch (se_sender s)) s).
Proof.
  intros Hch. split; [|done]. intros [Ho Hc]. split; [done|]. intros ks. cbn. unfold signal_change. case_match; [|apply Hc].
  cbn. intros [?|Hin]%elem_of_app; [by eapply Hc|]. apply list_elem_of_singleton in Hin. by eapply Hch.
Qed.

Lemma sess_le_trans sim s1 s2 s3 : sess_le sim s1 sim s2 → sess_le sim s2 sim s3 → sess_le sim s1 sim s3.
Proof. intros [? ?] [? ?]. split; auto. Qed.

Lemma delivers_connected p c : delivers c → delivers (client_peer_connected p c).1.
Proof.
  unfold client_peer_connected. destruct (pm_connected p (mg_pm (cl_managers c))) as [pm eff].
  apply delivers_frame; [done|]. cbn. set (sim := mg_sim (cl_managers c)).
  destruct (cl_sessions c !! sid) as [s|] eqn:Es.
  - apply (foldl_invariant (λ ss : gmap Z Session, ∃ s', ss !! sid = Some s' ∧ sess_le sim s sim s')).
    + intros ss e _ (s' & Es' & Hle). destruct e as [| |id q b|]; cbn; eauto. rewrite lookup_alter. case_decide; [|eauto].
      subst. rewrite Es'. eexists. split; [done|]. eapply sess_le_trans; [exact Hle|]. by apply sess_le_signal.
    + exists s. split; [done|by apply sess_le_refl].
  - apply (foldl_invariant (λ ss : gmap Z Session, ∀ s', ss !! sid = Some s' → no_cancel s')); [|by rewrite Es].
    intros ss e _ Hss. destruct e as [| |id q b|]; try done. cbn. intros s'. rewrite lookup_alter. case_decide; [|apply Hss].
    subst. intros (s0 & Hs0 & ->)%fmap_Some. apply (sess_le_signal ∅); [done|by apply Hss].
Qed.

Lemma delivers_new_getter c s ks :
  cl_sessions c !! se_id s = Some s →
  delivers c →
  let g := {| gt_session := se_id s; gt_queue := []; gt_remaining := list_to_set ks; gt_found := []; gt_running := true |} in
  delivers (cl_with_getters (cl_getters c ++ [g]) (cl_with_sessions (<[se_id s := se_push (OpWant ks) s]> (cl_sessions c)) c)).
Proof.
  intros Es Hd g. destruct (delivers_insert c (se_id s) (se_push (OpWant ks) s)) as [Hc Hw]; [|done|].
  { rewrite Es. by apply sess_le_push. }
  split; [exact Hc|]. intros g' Hin Hid. cbn in Hin. apply elem_of_app in Hin as [Hin|Hin].
  - exact (Hw g' Hin Hid).
  - apply list_elem_of_singleton in Hin as ->. cbn in Hid. exists (se_push (OpWant ks) s). cbn. rewrite <-Hid, lookup_insert_eq. split; [done|].
    split; [done|]. intros k Hk. right. cbn in *. rewrite waits_snoc. cbn. rewrite decide_True; [done|]. set_solver.
Qed.

Lemma delivers_getters c i g g' :
  cl_getters c !! i = Some g → gt_session g' = gt_session g →
  (∀ sim s, gt_session g = sid → caller_waits sim s g → caller_waits sim s g') →
  delivers c → delivers (cl_with_getters (<[i := g']> (cl_getters c)) c).
Proof.
  intros Hg Hid Hle [Hc Hw]. split; [exact Hc|]. intros x Hx Hsx. cbn in Hx.
  apply list_elem_of_lookup in Hx as [j Hj]. destruct (decide (i = j)) as [<-|Hne].
  - rewrite list_lookup_insert_eq in Hj by (by eapply lookup_lt_Some). injection Hj as <-. rewrite Hid in Hsx.
    destruct (Hw g) as (s & Es & Hgw); [by eapply list_elem_of_lookup_2|done|]. exists s. split; [done|by apply Hle].
  - rewrite list_lookup_insert_ne in Hj by done. apply Hw; [by eapply list_elem_of_lookup_2|done].
Qed.

Lemma getter_step_waits sim s g g' : getter_step g = Some g' → caller_waits sim s g → caller_waits sim s g'.
Proof.
  unfold getter_step. destruct (gt_queue g) as [|b q] eqn:Eq; [done|]. destruct (gt_running g); [|done].
  intros [= <-] [_ Hw]. split; cbn.
  - intros Hn. apply negb_false_iff, bool_decide_eq_true in Hn. exact Hn.
  - intros k Hk. case_bool_decide as Hb.
    + destruct (Hw k) as [Hin|?]; [set_solver| |by right]. rewrite Eq in Hin. left. set_solver.
    + destruct (Hw k Hk) as [Hin|?]; [|by right]. rewrite Eq in Hin. left. set_solver.
Qed.

(** Events that do not give up what the session waits for *)
Definition keeps_waiting (c : Client) (ev : client_event) : Prop :=
  match ev with
  | ClStopSession id _ => id ≠ sid
  | ClGetterClose i => ∀ g, cl_getters c !! i = Some g → gt_session g ≠ sid
  | _ => True
  end.

Lemma next_session_fresh n index ss id index' : next_session_id n index ss = Some (id, index') → ss !! id = None.
Proof.
  revert index. induction n as [|n IH]; intros index; cbn; [done|].
  destruct (ss !! index) eqn:E; [apply IH|by intros [= <- _]].
Qed.

Lemma delivers_close i g c :
  cl_getters c !! i = Some g → gt_session g ≠ sid → delivers c → delivers (close_getter i g c).
Proof.
  intros Hg Hne Hd. unfold close_getter. cbn [getter_close].
  set (g' := {| gt_session := _; gt_queue := _; gt_remaining := _; gt_found := _; gt_running := _ |}).
  assert (delivers (cl_with_getters (<[i := g']> (cl_getters c)) c)) as Hd'.
  { by eapply delivers_getters; [done|done| |]. }
  destruct (gt_running g); [|exact Hd']. destruct (decide _); [exact Hd'|]. eapply delivers_frame, Hd'; [done|]. cbn. rewrite lookup_alter_ne by done.
  destruct (cl_sessions c !! sid) as [y|]; [|done]. exists y. split; [done|by apply sess_le_refl].
Qed.

Lemma delivers_step ev c c' eff :
  cl_ok c → keeps_waiting c ev → client_step draw ev c = Some (c', eff) → delivers c → delivers c'.
Proof.
  intros Hok Hk E Hd. revert E. destruct ev as [|id|id b|id ks|id k p|now id ev|i|i|p m|bs|p|p|p|p ks]; cbn [client_step].
  - unfold new_session, get_next_session_id. destruct (next_session_id _ _ _) as [[id index]|] eqn:En; [|done]. cbn.
    intros [= <- _]. apply next_session_fresh in En.
    apply (delivers_insert {| cl_session_index := index |}); [|by destruct Hd]. cbn. rewrite En. apply Session_new_no_cancel.
  - intros [= <- _]. unfold get_or_create_session. destruct (cl_sessions c !! id) eqn:En; [done|].
    apply delivers_insert; [|done]. rewrite En. apply Session_new_no_cancel.
  - intros E%(inj Some). pose proof (delivers_stop id b c Hok Hk Hd) as Hd'. by rewrite E in Hd'.
  - destruct (cl_sessions c !! id) as [s|] eqn:Es; [|done]. cbn. destruct ks as [|k ks]; [done|]. cbn. intros [= <- _].
    pose proof (so_id _ _ _ (cl_ok_session _ Hok _ _ Es)) as <-. by apply (delivers_new_getter c s (k :: ks)).
  - destruct (cl_sessions c !! id) as [s|] eqn:Es; [|done]. cbn. intros [= <- _]. apply delivers_insert; [|done].
    rewrite Es. by apply sess_le_push.
  - destruct (cl_sessions c !! id) as [s|] eqn:Es; [|done]. cbn.
    destruct (session_step draw now ev s (cl_managers c)) as [[[s' mg'] e]|] eqn:E; [|done]. cbn. intros [= <- _].
    by eapply delivers_session_step.
  - destruct (cl_getters c !! i) as [g|] eqn:Eg; [|done]. destruct (getter_step g) as [g'|] eqn:E; [|done]. cbn. intros [= <- _].
    eapply delivers_getters; [done| |intros ?? _; by apply getter_step_waits|done].
    unfold getter_step in E. by destruct (gt_queue g), (gt_running g); simplify_eq.
  - destruct (cl_getters c !! i) as [g|] eqn:Eg; [|done]. intros [= <- _]. by eapply delivers_close; [|apply Hk|].
  - unfold client_receive_message. case_match; [|intros [= <- _]; done]. unfold receive_blocks_from.
    destruct (split_wanted_unwanted _ _) as [w nw] eqn:Ew. intros [= <- _]. apply delivers_receive; [|done|done].
    intros k (b & -> & Hb)%list_elem_of_fmap Hi%bool_decide_eq_true. apply list_elem_of_fmap_2.
    change w with (w, nw).1. rewrite <-Ew. apply split_wanted_spec. eauto.
  - intros [= <- _]. by apply delivers_receive.
  - intros E%(inj Some). pose proof (delivers_connected p c Hd) as Hd'. by rewrite E in Hd'.
  - intros [= <- _]. eapply delivers_frame, Hd; [done|]. cbn.
    destruct (cl_sessions c !! sid); [|done]. eexists. split; [done|by apply sess_le_refl].
  - intros [= <- _]. eapply delivers_frame, Hd; [done|]. cbn.
    destruct (cl_sessions c !! sid); [|done]. eexists. split; [done|by apply sess_le_refl].
  - intros [= <- _]. apply (delivers_receive (Some p) [] [] ks []); [|done|done]. intros k []%not_elem_of_nil.
Qed.

Lemma Client_new_delivers : delivers Client_new.
Proof.
  split; cbn; [intros s; by rewrite lookup_empty|]. intros g []%not_elem_of_nil.
Qed.
End session.

(** ** Callers over a run *)

Definition found_cids (g : Getter) : list Cid := block_cid <$> gt_found g.

(** A caller gets each of its blocks once, and only those. *)
Record getter_le (g g' : Getter) : Prop := {
  gl_session : gt_session g' = gt_session g;
  gl_keys k : k ∈ gt_remaining g' ∨ k ∈ found_cids g' ↔ k ∈ gt_remaining g ∨ k ∈ found_cids g;
  gl_once : NoDup (found_cids g) → (∀ k, k ∈ found_cids g → k ∉ gt_remaining g) →
            NoDup (found_cids g') ∧ ∀ k, k ∈ found_cids g' → k ∉ gt_remaining g'
}.

Lemma getter_le_refl g g' :
  gt_session g' = gt_session g → gt_remaining g' = gt_remaining g → gt_found g' = gt_found g → getter_le g g'.
Proof. intros E1 E2 E3. unfold found_cids. split; [done|..]; unfold found_cids; by rewrite E2, E3. Qed.

Lemma getter_le_trans g1 g2 g3 : getter_le g1 g2 → getter_le g2 g3 → getter_le g1 g3.
Proof.
  intros [E1 K1 O1] [E2 K2 O2]. split; [congruence|intros k; by rewrite K2, K1|].
  intros Hn Hd. destruct (O1 Hn Hd). by apply O2.
Qed.

Lemma getter_step_le g g' : getter_step g = Some g' → getter_le g g'.
Proof.
  unfold getter_step. destruct (gt_queue g) as [|b q]; [done|]. destruct (gt_running g); [|done]. intros [= <-].
  case_bool_decide as Hb; [|by apply getter_le_refl]. split; [done|..]; unfold found_cids; cbn.
  - intros k. rewrite fmap_app, elem_of_app, elem_of_difference, elem_of_singleton. cbn. rewrite list_elem_of_singleton.
    destruct (decide (k = block_cid b)) as [->|]; [|tauto]. split; [intros _; by left|tauto].
  - intros Hn Hd. rewrite fmap_app. cbn. split.
    + apply NoDup_app. split_and!; [done| |apply NoDup_singleton]. intros k Hk Hkb. apply list_elem_of_singleton in Hkb as ->. by apply (Hd _ Hk).
    + intros k. rewrite elem_of_app, list_elem_of_singleton, elem_of_difference, elem_of_singleton.
      intros [Hk| ->]; [|tauto]. specialize (Hd _ Hk). tauto.
Qed.

Definition getters_le (gs gs' : list Getter) : Prop :=
  ∀ i g, gs !! i = Some g → ∃ g', gs' !! i = Some g' ∧ getter_le g g'.

Lemma getters_le_refl gs : getters_le gs gs.
Proof. intros i g Hg. exists g. split; [done|by apply getter_le_refl]. Qed.

Lemma getters_le_insert gs i g g' : gs !! i = Some g → getter_le g g' → getters_le gs (<[i := g']> gs).
Proof.
  intros Hg Hle j x Hx. destruct (decide (i = j)) as [<-|Hne].
  - simplify_eq. exists g'. rewrite list_lookup_insert_eq by (by eapply lookup_lt_Some). done.
  - exists x. rewrite list_lookup_insert_ne by done. split; [done|by apply getter_le_refl].
Qed.

Lemma getters_le_notify bs gs : getters_le gs ((λ g, foldl (λ g b, getter_notify b g) g bs) <$> gs).
Proof.
  intros i g Hg. eexists. rewrite list_lookup_fmap, Hg. split; [done|].
  destruct (notify_fold bs g) as (E1 & E2 & _ & E3 & _). by apply getter_le_refl.
Qed.

Lemma client_step_getters ev c c' eff : client_step draw ev c = Some (c', eff) → getters_le (cl_getters c) (cl_getters c').
Proof.
  destruct ev as [|id|id b|id ks|id k p|now id ev|i|i|p m|bs|p|p|p|p ks]; cbn [client_step].
  - unfold new_session, get_next_session_id. destruct (next_session_id _ _ _) as [[id index]|]; [|done]. cbn.
    intros [= <- _]. apply getters_le_refl.
  - intros [= <- _]. unfold get_or_create_session. case_match; apply getters_le_refl.
  - intros E%(inj Some). assert (c' = (stop_session id b c).1) as -> by (by rewrite E). unfold stop_session, remove_session.
    destruct (cl_sessions c !! id); [|apply getters_le_refl]. destruct b; [|apply getters_le_refl].
    destruct (sim_remove_session _ _). apply getters_le_refl.
  - destruct (cl_sessions c !! id) as [s|]; [|done]. cbn. destruct ks as [|k ks]; [done|]. cbn. intros [= <- _]. cbn.
    intros i g Hg. exists g. split; [by apply lookup_app_l_Some|by apply getter_le_refl].
  - destruct (cl_sessions c !! id); [|done]. intros [= <- _]. apply getters_le_refl.
  - destruct (cl_sessions c !! id) as [s|]; [|done]. cbn. destruct (session_step _ _ _ _ _) as [[[? ?] ?]|]; [|done].
    cbn. intros [= <- _]. apply getters_le_refl.
  - destruct (cl_getters c !! i) as [g|] eqn:Eg; [|done]. destruct (getter_step g) eqn:E; [|done]. intros [= <- _].
    by eapply getters_le_insert, getter_step_le.
  - destruct (cl_getters c !! i) as [g|] eqn:Eg; [|done]. intros [= <- _]. unfold close_getter, getter_close.
    destruct (gt_running g); [destruct (decide _)|]; by eapply getters_le_insert, getter_le_refl.
  - unfold client_receive_message. case_match; [|intros [= <- _]; apply getters_le_refl]. unfold receive_blocks_from.
    destruct (split_wanted_unwanted _ _) as [w nw]. intros [= <- _].
    match goal with |- context [foldl _ ?c1 w] => destruct (broadcasts_same w c1) as (_ & _ & ->) end. apply getters_le_notify.
  - intros [= <- _]. unfold client_notify_new_blocks.
    match goal with |- context [foldl _ ?c1 bs] => destruct (broadcasts_same bs c1) as (_ & _ & ->) end. apply getters_le_notify.
  - intros E%(inj Some). assert (c' = (client_peer_connected p c).1) as -> by (by rewrite E). unfold client_peer_connected.
    destruct (pm_connected _ _). apply getters_le_refl.
  - intros [= <- _]. apply getters_le_refl.
  - intros [= <- _]. apply getters_le_refl.
  - intros [= <- _]. apply getters_le_refl.
Qed.

Lemma client_run_getters evs c c' eff :
  client_run draw evs c = Some (c', eff) → getters_le (cl_getters c) (cl_getters c').
Proof.
  revert c eff. induction evs as [|ev evs IH]; intros c eff; cbn; [intros [= <- _]; apply getters_le_refl|].
  destruct (client_step draw ev c) as [[c1 e1]|] eqn:E1; [|done]. cbn.
  destruct (client_run draw evs c1) as [[c2 e2]|] eqn:E2; [|done]. cbn. intros [= <- _].
  intros i g Hg. destruct (client_step_getters _ _ _ _ E1 _ _ Hg) as (g1 & Hg1 & Hle1).
  destruct (IH _ _ E2 _ _ Hg1) as (g2 & Hg2 & Hle2). exists g2. split; [done|by eapply getter_le_trans].
Qed.

(** C34: a caller of [get_blocks] gets what it asked for, nothing else and nothing
    twice.  Whatever happens after the call, the blocks given to the caller have
    distinct CIDs, and the requested CIDs are split into those of the blocks given and
    those that remain. *)
Theorem get_blocks_exact c0 id ks c1 eff1 evs c2 eff2 :
  client_step draw (ClGetBlocks id ks) c0 = Some (c1, eff1) →
  client_run draw evs c1 = Some (c2, eff2) →
  ∃ g, cl_getters c2 !! length (cl_getters c0) = Some g ∧
       NoDup (found_cids g) ∧ (∀ k, k ∈ found_cids g → k ∉ gt_remaining g) ∧
       ∀ k, k ∈ ks ↔ k ∈ gt_remaining g ∨ k ∈ found_cids g.
Proof.
  cbn. destruct (cl_sessions c0 !! id) as [s|]; [|done]. cbn. destruct ks as [|k0 ks]; [done|]. cbn.
  set (g0 := {| gt_session := _; gt_queue := _; gt_remaining := _; gt_found := _; gt_running := _ |}).
  intros [= <- _] Hrun. destruct (client_run_getters _ _ _ _ Hrun (length (cl_getters c0)) g0) as (g & Hg & [_ Hk Ho]).
  { cbn. rewrite lookup_app_r by lia. by rewrite Nat.sub_diag. }
  exists g. split; [done|]. destruct Ho as [Hn Hd]; [apply NoDup_nil_2|by intros k ?%not_elem_of_nil|].
  split_and!; [done|done|]. intros k. rewrite Hk. change (gt_remaining g0) with (list_to_set (k0 :: ks) : gset Cid).
  rewrite elem_of_list_to_set. split; [by left|]. intros [?|?%not_elem_of_nil]; done.
Qed.

Lemma delivers_run sid evs c c' eff :
  cl_ok c → delivers sid c → client_run draw evs c = Some (c', eff) →
  (∀ last, ClStopSession sid last ∉ evs) →
  (∀ j g, ClGetterClose j ∈ evs → cl_getters c' !! j = Some g → gt_session g ≠ sid) → delivers sid c'.
Proof.
  revert c eff. induction evs as [|ev evs IH]; intros c eff Hok Hd; cbn; [by intros [= <- _]|].
  destruct (client_step draw ev c) as [[c1 e1]|] eqn:E1; [|done]. cbn.
  destruct (client_run draw evs c1) as [[c2 e2]|] eqn:E2; [|done]. cbn. intros [= <- _] Hstop Hclose.
  eapply IH; [by eapply client_step_ok| |exact E2| |].
  - eapply delivers_step; [done| |done|done]. destruct ev as [| |id last| | | | |j| | | | | |]; try done; cbn.
    + intros ->. apply (Hstop last). by left.
    + intros g Hg. destruct (client_step_getters _ _ _ _ E1 _ _ Hg) as (g1 & Hg1 & Hle1).
      destruct (client_run_getters _ _ _ _ E2 _ _ Hg1) as (g2 & Hg2 & Hle2).
      rewrite <-(gl_session _ _ Hle1), <-(gl_session _ _ Hle2). eapply Hclose, Hg2. by left.
  - intros last Hin. apply (Hstop last). by right.
  - intros j g Hin. apply Hclose. by right.
Qed.

(** The worker reads its queue. *)
Lemma worker_finds k i c g :
  cl_getters c !! i = Some g → gt_running g = true → k ∈ gt_remaining g → k ∈ block_cid <$> gt_queue g →
  ∃ n c' eff g', client_run draw (replicate n (ClGetter i)) c = Some (c', eff) ∧
    cl_getters c' !! i = Some g' ∧ k ∈ found_cids g'.
Proof.
  remember (gt_queue g) as q eqn:Eq. revert c g Eq. induction q as [|b q IH]; intros c g Eq Hg Hrun Hk Hq.
  { by apply not_elem_of_nil in Hq. }
  destruct (getter_step g) as [g1|] eqn:E1; [|unfold getter_step in E1; by rewrite <-Eq, Hrun in E1].
  set (c1 := cl_with_getters (<[i := g1]> (cl_getters c)) c).
  assert (client_step draw (ClGetter i) c = Some (c1, [])) as Es by (cbn; by rewrite Hg, E1).
  assert (cl_getters c1 !! i = Some g1) as Hg1 by (cbn; apply list_lookup_insert_eq; by eapply lookup_lt_Some).
  unfold getter_step in E1. rewrite <-Eq, Hrun in E1. injection E1 as E1. destruct (decide (k = block_cid b)) as [->|Hne].
  - exists 1%nat, c1, [], g1. cbn [replicate client_run]. rewrite Es. split_and!; [done|done|].
    subst g1. unfold found_cids. cbn. rewrite bool_decide_true by done. rewrite fmap_app, elem_of_app. right. by left.
  - destruct (IH c1 g1) as (n & c' & eff & g' & Hr & Hg' & Hf).
    + by subst g1.
    + done.
    + subst g1. cbn. apply negb_true_iff, bool_decide_eq_false. case_bool_decide; set_solver.
    + subst g1. cbn. case_bool_decide; set_solver.
    + set_solver.
    + exists (S n), c', ([] ++ eff), g'. cbn [replicate client_run]. rewrite Es. cbn [mbind option_bind]. by rewrite Hr.
Qed.

(** C9: a block reaches its callers.  Take any run in which the session of the caller
    is not stopped and none of the callers of this session goes away, and let the
    session have read the request: when a message brings a block that the caller
    still waits for, the worker of the caller finds it after finitely many steps. *)
Theorem block_reaches_caller evs c eff i g peer incoming b c' eff' :
  client_run draw evs Client_new = Some (c, eff) →
  (∀ last, ClStopSession (gt_session g) last ∉ evs) →
  (∀ j g', ClGetterClose j ∈ evs → cl_getters c !! j = Some g' → gt_session g' ≠ gt_session g) →
  cl_getters c !! i = Some g → block_cid b ∈ gt_remaining g →
  (∀ s ks, cl_sessions c !! gt_session g = Some s → OpWant ks ∈ se_incoming s → block_cid b ∉ ks) →
  b ∈ message_blocks incoming → client_step draw (ClReceiveMessage peer incoming) c = Some (c', eff') →
  ∃ n c'' eff'' g'', client_run draw (replicate n (ClGetter i)) c' = Some (c'', eff'') ∧
    cl_getters c'' !! i = Some g'' ∧ block_cid b ∈ found_cids g''.
Proof.
  intros Hrun Hstop Hclose Hg Hk Hread Hb. pose proof (client_run_ok _ _ _ _ Hrun) as Hok.
  pose proof (delivers_run _ _ _ _ _ Client_new_ok (Client_new_delivers _) Hrun Hstop Hclose) as [_ Hw].
  destruct (Hw g) as (s & Es & Hrn & Hkw); [by eapply list_elem_of_lookup_2|done|].
  cbn [client_step]. unfold client_receive_message. rewrite message_blocks_nonempty with (b := b) by done. cbn [orb].
  unfold receive_blocks_from. destruct (split_wanted_unwanted _ _) as [w nw] eqn:Ew. intros [= <- _].
  destruct (notify_fold w g) as (E1 & E2 & E3 & _ & E4). assert (gt_running g = true) as Er.
  { apply not_false_is_true. intros Hf. rewrite (Hrn Hf) in Hk. by apply not_elem_of_empty in Hk. }
  eapply worker_finds; [| |rewrite E2; exact Hk|].
  - match goal with |- context [foldl _ ?c1 w] => destruct (broadcasts_same w c1) as (_ & _ & ->) end.
    rewrite list_lookup_fmap. cbn. by rewrite Hg.
  - by rewrite E3.
  - rewrite E4, Er, fmap_app, elem_of_app. destruct (Hkw _ Hk) as [?|Hwait]; [by left|right].
    apply waits_now in Hwait; [|intros ks Hin; by eapply Hread]. apply bool_decide_eq_true in Hwait.
    apply list_elem_of_fmap_2. change w with (w, nw).1. rewrite <-Ew. apply split_wanted_spec. eauto.
Qed.
End delivery.

Module DeliveryWitness.
Import Toy ClientWitness.

Lemma get_blocks_exact_witness :
  ∃ g, cl_getters answered.1 !! 0%nat = Some g ∧ NoDup (found_cids g) ∧ (∀ k, k ∈ found_cids g → k ∉ gt_remaining g) ∧
       ∀ k, k ∈ [k1; k2] ↔ k ∈ gt_remaining g ∨ k ∈ found_cids g.
Proof.
  pose (before := run [ClPeerConnected p1; ClNewSession]).
  pose (called := run [ClPeerConnected p1; ClNewSession; ClGetBlocks 0 [k1; k2]]).
  pose (after := [ClSession 5 0 SeOperation; ClReceiveMessage p1 with_block1]).
  pose (effs := (default (Client_new, []) (client_run first_draw after called.1)).2).
  apply (get_blocks_exact first_draw before.1 0 [k1; k2] called.1 [] after answered.1 effs); vm_compute; reflexivity.
Defined.

Definition getter0 : Getter :=
  default {| gt_session := 9; gt_queue := []; gt_remaining := ∅; gt_found := []; gt_running := false |}
    (cl_getters asked.1 !! 0%nat).

Lemma block_reaches_caller_witness :
  ∃ n c eff g, client_run first_draw (replicate n (ClGetter 0)) answered.1 = Some (c, eff) ∧
    cl_getters c !! 0%nat = Some g ∧ k1 ∈ found_cids g.
Proof.
  apply (block_reaches_caller first_draw asking asked.1 asked.2 0%nat getter0 p1 with_block1 (Block_new k1 k1)
           answered.1 answered.2).
  - rewrite run_asking. by destruct asked.
  - intros last Hin. repeat (apply elem_of_cons in Hin as [Hin|Hin]; [discriminate Hin|]). by apply not_elem_of_nil in Hin.
  - intros j g' Hin. repeat (apply elem_of_cons in Hin as [Hin|Hin]; [discriminate Hin|]). by apply not_elem_of_nil in Hin.
  - vm_compute. reflexivity.
  - refine (bool_decide_unpack _ _). vm_compute. exact I.
  - assert ((se_incoming <$> cl_sessions asked.1 !! gt_session getter0) = Some []) as Hs by (vm_compute; reflexivity).
    intros s ks Es Hin. rewrite Es in Hs. injection Hs as Hs. rewrite Hs in Hin. by apply not_elem_of_nil in Hin.
  - vm_compute. left.
  - cbn [client_step]. fold answered. by destruct answered.
Defined.
End DeliveryWitness.
