(* ===== verification/Network.v ===== *)
(** * The bitswap network layer

    Models [iroh-bitswap/src/protocol.rs] (protocol versions and the framing of
    messages), [handler.rs] (the handler of one connection) and [network.rs] (the
    operations client and server use to reach the network).

    The varint framing of [unsigned-varint] and the protobuf code of [prost] are the
    class [Wire].  The substreams of [libp2p] appear through what they deliver: an
    inbound substream is the list of the items it decodes, an outbound one is given
    the outcome of its writes.  The sending half of a [oneshot] channel is a number
    ([Tx]); answers through it are collected in the output of a step. *)

From stdpp Require Import prelude gmap fin_maps strings.
From Stdlib Require Import ZArith Lia.
From S2P Require Import Prelude Cids Message.
Local Open Scope Z_scope.

(** ** Protocol versions *)

Inductive ProtocolId := Legacy | Bitswap100 | Bitswap110 | Bitswap120.
#[global] Instance ProtocolId_eq_dec : EqDecision ProtocolId.
Proof. solve_decision. Defined.

(** The discriminants, which [PartialOrd] and [Ord] compare *)
Definition ProtocolId_ord (p : ProtocolId) : Z :=
  match p with Legacy => 0 | Bitswap100 => 1 | Bitswap110 => 2 | Bitswap120 => 3 end.

Definition protocol_name (p : ProtocolId) : string :=
  match p with
  | Legacy => "/ipfs/bitswap"
  | Bitswap100 => "/ipfs/bitswap/1.0.0"
  | Bitswap110 => "/ipfs/bitswap/1.1.0"
  | Bitswap120 => "/ipfs/bitswap/1.2.0"
  end.

Definition ProtocolId_try_from (value : string) : option ProtocolId :=
  if decide (value = protocol_name Legacy) then Some Legacy
  else if decide (value = protocol_name Bitswap100) then Some Bitswap100
  else if decide (value = protocol_name Bitswap110) then Some Bitswap110
  else if decide (value = protocol_name Bitswap120) then Some Bitswap120
  else None.

Definition protocol_supports_have (p : ProtocolId) : bool :=
  match p with Bitswap120 => true | _ => false end.

Definition MAX_BUF_SIZE : Z := 1024 * 1024 * 2.

Record ProtocolConfig := { pc_protocol_ids : list ProtocolId; pc_max_transmit_size : Z }.
Definition ProtocolConfig_default : ProtocolConfig :=
  {| pc_protocol_ids := [Bitswap120; Bitswap110; Bitswap100; Legacy];
     pc_max_transmit_size := MAX_BUF_SIZE |}.

(** ** Errors *)

(** The errors of other crates are carried as their text. *)
Inductive BitswapHandlerError :=
  | MaxTransmissionSize
  | NegotiationTimeout
  | NegotiationProtocolError (e : string)
  | HandlerIo (e : string)
  | HandlerBitswap (e : Error).

Inductive SendError := ProtocolNotSupported | SendOther (e : string).
#[global] Instance SendError_eq_dec : EqDecision SendError.
Proof. solve_decision. Defined.

(** [#[error(...)]] of [BitswapHandlerError]; [show] prints an [Error]. *)
Definition handler_error_to_string (show : Error → string) (e : BitswapHandlerError) : string :=
  match e with
  | MaxTransmissionSize => "max transmission size"
  | NegotiationTimeout => "negotiation timeout"
  | NegotiationProtocolError e => "negotatiation protocol error " +:+ e
  | HandlerIo e => "io " +:+ e
  | HandlerBitswap e => "bitswap " +:+ show e
  end.

(** ** Framing *)

(** [prost]'s [encode] and [decode], and [unsigned_varint::codec::UviBytes] with a
    maximal length: [uvi_encode] is what is appended to the destination, [None] when
    the message is too long; [uvi_decode] consumes a part of the buffer. *)
Inductive uvi_error := PermissionDenied | OtherKind (e : string).
Class Wire := {
  pb_encode : pb_Message → bytes;
  pb_decode : bytes → option pb_Message;
  UviState : Type;
  uvi_default : UviState;
  uvi_encode : Z → bytes → option bytes;
  uvi_decode : Z → UviState → bytes → res uvi_error (option bytes) * UviState * bytes
}.

Section codec.
Context `{Multiformats} `{Prost} `{HashOrder} `{Wire}.

Record BitswapCodec := {
  codec_max_len : Z;
  codec_length : UviState;
  codec_protocol : ProtocolId
}.

(** [upgrade_inbound] and [upgrade_outbound]: the codec of a negotiated substream *)
Definition upgrade (config : ProtocolConfig) (protocol_id : ProtocolId) : BitswapCodec :=
  {| codec_max_len := pc_max_transmit_size config; codec_length := uvi_default;
     codec_protocol := protocol_id |}.

(** [BitswapMessage::try_from(Bytes)] *)
Definition message_try_from_bytes (value : bytes) : res Error BitswapMessage :=
  pbm ← ok_or (pb_decode value) Error_Protobuf;
  message_try_from pbm.

Definition codec_encode (c : BitswapCodec) (item : BitswapMessage) (dst : bytes)
    : res BitswapHandlerError bytes :=
  let message :=
    match codec_protocol c with
    | Legacy | Bitswap100 => Ok (encode_as_proto_v0 item)
    | Bitswap110 | Bitswap120 => encode_as_proto_v1 item
    end in
  match message with
  | Ok message =>
      match uvi_encode (codec_max_len c) (pb_encode message) with
      | Some frame => Ok (dst ++ frame)
      | None => Err MaxTransmissionSize
      end
  | _ => Panic
  end.

Definition codec_decode (c : BitswapCodec) (src : bytes)
    : res BitswapHandlerError (option (BitswapMessage * ProtocolId)) * BitswapCodec * bytes :=
  let '(r, st, src) := uvi_decode (codec_max_len c) (codec_length c) src in
  let c := {| codec_max_len := codec_max_len c; codec_length := st; codec_protocol := codec_protocol c |} in
  (match r with
   | Err PermissionDenied => Err MaxTransmissionSize
   | Err (OtherKind e) => Err (HandlerIo e)
   | Panic => Panic
   | Ok None => Ok None
   | Ok (Some packet) =>
       match message_try_from_bytes packet with
       | Ok message => Ok (Some (message, codec_protocol c))
       | Err e => Err (HandlerBitswap e)
       | Panic => Panic
       end
   end, c, src).
End codec.

(** ** The handler of a connection *)

Abbreviation Tx := nat.

Section handler.
Context `{Multiformats} `{Prost} `{HashOrder} `{Wire}.
Variable show : Error → string.

Inductive HandlerEvent :=
  | EvMessage (message : BitswapMessage) (protocol : ProtocolId)
  | EvConnected (protocol : ProtocolId)
  | EvProtocolNotSuppported
  | EvFailedToSendMessage (error : BitswapHandlerError).

Inductive BitswapHandlerIn :=
  | InMessage (m : BitswapMessage) (response : Tx)
  | InProtect
  | InUnprotect.

(** [ConnectionHandlerEvent] *)
Inductive conn_event :=
  | OutboundSubstreamRequest (config : ProtocolConfig) (info : BitswapMessage * Tx)
  | ConnClose (e : BitswapHandlerError)
  | ConnCustom (e : HandlerEvent).

(** [ConnectionHandlerUpgrErr] *)
Inductive upgrade_error :=
  | UpgrTimeout | UpgrTimer | UpgrApply (e : BitswapHandlerError) | UpgrSelect (e : string).

Inductive KeepAlive := KeepUntil (t : Z) | KeepYes.

(** What the task of a substream still does: it answers a caller, yields an event,
    or panics. *)
Inductive act :=
  | ActAnswer (tx : Tx) (r : res SendError ())
  | ActYield (e : conn_event)
  | ActPanic.

Definition INITIAL_KEEP_ALIVE : Z := 30 * 1000.

Record BitswapHandler := {
  hd_listen_protocol : ProtocolConfig;
  hd_outbound : list (list act);
  hd_inbound : list (list act);
  hd_events : list conn_event;
  hd_send_queue : list (BitswapMessage * Tx);
  hd_protocol : option ProtocolId;
  hd_idle_timeout : Z;
  hd_upgrade_errors : list upgrade_error;
  hd_keep_alive : KeepAlive
}.

Definition BitswapHandler_new (now : Z) (config : ProtocolConfig) (idle_timeout : Z) : BitswapHandler :=
  {| hd_listen_protocol := config; hd_inbound := []; hd_outbound := []; hd_send_queue := [];
     hd_protocol := None; hd_idle_timeout := idle_timeout; hd_upgrade_errors := [];
     hd_keep_alive := KeepUntil (now + INITIAL_KEEP_ALIVE); hd_events := [] |}.

Definition hd_with_streams (out inb : list (list act)) (p : option ProtocolId) (h : BitswapHandler) :=
  {| hd_listen_protocol := hd_listen_protocol h; hd_outbound := out; hd_inbound := inb;
     hd_events := hd_events h; hd_send_queue := hd_send_queue h; hd_protocol := p;
     hd_idle_timeout := hd_idle_timeout h; hd_upgrade_errors := hd_upgrade_errors h;
     hd_keep_alive := hd_keep_alive h |}.
Definition hd_with_queue (q : list (BitswapMessage * Tx)) (h : BitswapHandler) :=
  {| hd_listen_protocol := hd_listen_protocol h; hd_outbound := hd_outbound h; hd_inbound := hd_inbound h;
     hd_events := hd_events h; hd_send_queue := q; hd_protocol := hd_protocol h;
     hd_idle_timeout := hd_idle_timeout h; hd_upgrade_errors := hd_upgrade_errors h;
     hd_keep_alive := hd_keep_alive h |}.
Definition hd_with_errors (ev : list conn_event) (errs : list upgrade_error) (h : BitswapHandler) :=
  {| hd_listen_protocol := hd_listen_protocol h; hd_outbound := hd_outbound h; hd_inbound := hd_inbound h;
     hd_events := ev; hd_send_queue := hd_send_queue h; hd_protocol := hd_protocol h;
     hd_idle_timeout := hd_idle_timeout h; hd_upgrade_errors := errs;
     hd_keep_alive := hd_keep_alive h |}.
Definition hd_with_keep_alive (k : KeepAlive) (h : BitswapHandler) :=
  {| hd_listen_protocol := hd_listen_protocol h; hd_outbound := hd_outbound h; hd_inbound := hd_inbound h;
     hd_events := hd_events h; hd_send_queue := hd_send_queue h; hd_protocol := hd_protocol h;
     hd_idle_timeout := hd_idle_timeout h; hd_upgrade_errors := hd_upgrade_errors h;
     hd_keep_alive := k |}.

(** [inbound_substream]: [items] is what the framed substream decodes. *)
Fixpoint inbound_substream (items : list (res BitswapHandlerError (BitswapMessage * ProtocolId)))
    : list act :=
  match items with
  | [] => []
  | Ok (message, protocol) :: items =>
      ActYield (ConnCustom (EvMessage message protocol)) :: inbound_substream items
  | Err MaxTransmissionSize :: items => inbound_substream items
  | Err error :: _ => [ActYield (ConnClose error)]
  | Panic :: _ => [ActPanic]
  end.

(** [outbound_substream]: [ready] is an error of the transport before the message is
    encoded; [flush] and [close], errors after it, are only logged. *)
Definition outbound_substream (codec : BitswapCodec) (ready flush close : option string)
    (info : BitswapMessage * Tx) : list act :=
  let '(message, response) := info in
  let feed := match ready with
              | Some e => Err (HandlerIo e)
              | None => codec_encode codec message []
              end in
  match feed with
  | Err error =>
      [ActAnswer response (Err (SendOther (handler_error_to_string show error)));
       ActYield (ConnCustom (EvFailedToSendMessage error))]
  | Ok _ => [ActAnswer response (Ok ())]
  | Panic => [ActPanic]
  end.

Definition first_protocol (h : BitswapHandler) (c : BitswapCodec) : option ProtocolId :=
  match hd_protocol h with Some p => Some p | None => Some (codec_protocol c) end.

Definition inject_fully_negotiated_inbound (c : BitswapCodec)
    (items : list (res BitswapHandlerError (BitswapMessage * ProtocolId))) (h : BitswapHandler) :=
  hd_with_streams (hd_outbound h) (hd_inbound h ++ [inbound_substream items]) (first_protocol h c) h.

Definition inject_fully_negotiated_outbound (c : BitswapCodec) (ready flush close : option string)
    (info : BitswapMessage * Tx) (h : BitswapHandler) :=
  hd_with_streams (hd_outbound h ++ [outbound_substream c ready flush close info]) (hd_inbound h)
    (first_protocol h c) h.

Definition handler_inject_event (now : Z) (ev : BitswapHandlerIn) (h : BitswapHandler) : BitswapHandler :=
  match ev with
  | InMessage m response =>
      hd_with_keep_alive (KeepUntil (now + hd_idle_timeout h))
        (hd_with_queue (hd_send_queue h ++ [(m, response)]) h)
  | InProtect => hd_with_keep_alive KeepYes h
  | InUnprotect => hd_with_keep_alive (KeepUntil (now + INITIAL_KEEP_ALIVE)) h
  end.

(** The message and its response are dropped. *)
Definition inject_dial_upgrade_error (info : BitswapMessage * Tx) (e : upgrade_error) (h : BitswapHandler) :=
  hd_with_errors (hd_events h) (hd_upgrade_errors h ++ [e]) h.

(** A substream runs until it yields. *)
Fixpoint run_acts (l : list act) : list (Tx * res SendError ()) * option conn_event * list act :=
  match l with
  | [] => ([], None, [])
  | ActAnswer tx r :: l => let '(ans, ev, l) := run_acts l in ((tx, r) :: ans, ev, l)
  | ActYield e :: l => ([], Some e, l)
  | ActPanic :: l => ([], None, [])
  end.

(** [SelectAll::poll_next]: [ready] are the substreams that are woken, in the order in
    which they run; one that ends is removed, one that yields ends the poll. *)
Fixpoint select_all (ready : list nat) (streams : list (list act))
    : list (Tx * res SendError ()) * option conn_event * list (list act) :=
  match ready with
  | [] => ([], None, streams)
  | i :: ready =>
      match streams !! i with
      | None => select_all ready streams
      | Some l =>
          let '(ans, ev, l) := run_acts l in
          match ev with
          | Some ev => (ans, Some ev, <[i := l]> streams)
          | None =>
              let '(ans', ev, streams) := select_all ready (<[i := []]> streams) in
              (ans ++ ans', ev, streams)
          end
      end
  end.

Definition reported_error (e : upgrade_error) : BitswapHandlerError :=
  match e with
  | UpgrTimeout | UpgrTimer => NegotiationTimeout
  | UpgrApply e => e
  | UpgrSelect e => NegotiationProtocolError e
  end.

(** [poll]; [None] is [Poll::Pending]. *)
Definition handler_poll (now : Z) (out_ready in_ready : list nat) (h : BitswapHandler)
    : option conn_event * list (Tx * res SendError ()) * BitswapHandler :=
  match hd_events h with
  | ev :: evs => (Some ev, [], hd_with_errors evs (hd_upgrade_errors h) h)
  | [] =>
  match hd_upgrade_errors h with
  | e :: errs => (Some (ConnClose (reported_error e)), [], hd_with_errors [] errs h)
  | [] =>
  match hd_send_queue h with
  | message :: q =>
      (Some (OutboundSubstreamRequest (hd_listen_protocol h) message), [], hd_with_queue q h)
  | [] =>
      let '(ans, ev, out) := select_all out_ready (hd_outbound h) in
      let h := hd_with_streams out (hd_inbound h) (hd_protocol h) h in
      match ev with
      | Some ev => (Some ev, ans, h)
      | None =>
          let '(ans', ev, inb) := select_all in_ready (hd_inbound h) in
          let h := hd_with_streams (hd_outbound h) inb (hd_protocol h) h in
          let h := match ev with
                   | Some (ConnCustom (EvMessage _ _)) =>
                       hd_with_keep_alive (KeepUntil (now + hd_idle_timeout h)) h
                   | _ => h
                   end in
          (ev, ans ++ ans', h)
      end
  end end end.
End handler.

(** ** Sending with retries *)

Section sending.

Definition CONNECT_TIMEOUT : Z := 20 * 1000.
Definition MAX_SEND_TIMEOUT : Z := (3 * 60 + 5) * 1000.
Definition MIN_SEND_TIMEOUT : Z := 2 * 1000.
Definition SEND_LATENCY : Z := 2 * 1000.
Definition MIN_SEND_RATE : Z := (100 * 1000) / 8.

(** [send_timeout], in milliseconds; the size is a [u64]. *)
Definition send_timeout (size : Z) : Z :=
  let timeout := SEND_LATENCY + size / MIN_SEND_RATE * 1000 in
  Z.max MIN_SEND_TIMEOUT (Z.min timeout MAX_SEND_TIMEOUT).

Record MessageSenderConfig := {
  ms_max_retries : Z;
  ms_send_timeout : Z;
  ms_send_error_backoff : Z
}.
Definition MessageSenderConfig_default : MessageSenderConfig :=
  {| ms_max_retries := 3; ms_send_timeout := MAX_SEND_TIMEOUT; ms_send_error_backoff := 100 |}.

(** How one attempt ends: the network is gone, the message is answered, or its
    response is dropped; an attempt that is never answered takes longer than any timeout. *)
Inductive attempt :=
  | ChannelClosed
  | AnsweredOk
  | AnsweredErr (e : SendError)
  | ResponseDropped.

#[global] Instance attempt_eq_dec : EqDecision attempt.
Proof. solve_decision. Defined.

Inductive send_failure :=
  | FailTimeout
  | FailChannel
  | FailGone
  | FailNotSupported
  | FailErrors (errors : list SendError).

(** What the caller does to the network. *)
Inductive net_action := NetSend | NetSleep (d : Z) | NetDisconnect.

(** The loop of [send_message_with_retry_and_timeout].  [env i] is the time the [i]th
    attempt takes and its end, [disc] the time of a disconnect; [left] is what remains of
    the timeout, which cancels the loop where it waits. *)
Fixpoint retry_loop (n : nat) (i retries : Z) (backoff : Z) (env : Z → Z * attempt) (disc : Z)
    (left : Z) (errors : list SendError) : res send_failure () * list net_action :=
  match n with
  | O => (Err (FailErrors errors), [])
  | S n =>
      let '(d, a) := env i in
      if decide (a = ChannelClosed) then (Err FailChannel, [])
      else if left <? d then (Err FailTimeout, [NetSend])
      else
        let left := left - d in
        match a with
        | AnsweredOk => (Ok (), [NetSend])
        | AnsweredErr ProtocolNotSupported =>
            (Err (if left <? disc then FailTimeout else FailNotSupported), [NetSend; NetDisconnect])
        | AnsweredErr other =>
            let errors := errors ++ [other] in
            if i <? retries - 1 then
              if left <? backoff then (Err FailTimeout, [NetSend; NetSleep backoff])
              else
                let '(r, acts) := retry_loop n (i + 1) retries backoff env disc (left - backoff) errors in
                (r, NetSend :: NetSleep backoff :: acts)
            else
              let '(r, acts) := retry_loop n (i + 1) retries backoff env disc left errors in
              (r, NetSend :: acts)
        | _ => (Err FailGone, [NetSend])
        end
  end.

Definition send_message_with_retry_and_timeout (retries timeout backoff : Z) (env : Z → Z * attempt)
    (disc : Z) : res send_failure () * list net_action :=
  retry_loop (Z.to_nat retries) 1 retries backoff env disc timeout [].

(** ** Dialing *)

(** How the behaviour answers a dial *)
Inductive dial_end :=
  | DialClosed
  | DialAnswered (r : res string (Z * option ProtocolId))
  | DialDropped.
Inductive dial_failure := DialTimeout | DialChannel | DialGone | DialFailed (e : string).

(** [Network::dial]: the outcome, and the next value of the counter that numbers the
    dials; [d] is the time until the end. *)
Definition network_dial (dial_id timeout : Z) (env : Z * dial_end)
    : res dial_failure (Z * option ProtocolId) * Z :=
  let '(d, a) := env in
  (match a with
   | DialClosed => Err DialChannel
   | DialAnswered _ | DialDropped =>
       if timeout <? d then Err DialTimeout
       else match a with
            | DialAnswered (Ok r) => Ok r
            | DialAnswered (Err e) => Err (DialFailed e)
            | _ => Err DialGone
            end
   end, Int.wrap 64 (dial_id + 1)).

(** [Network::new_message_sender]: the connection and the protocol of the sender *)
Definition new_message_sender (dial_id : Z) (env : Z * dial_end) :=
  network_dial dial_id CONNECT_TIMEOUT env.

(** [Network::send_message]: one attempt, with a timeout that depends on the size *)
Definition network_send_message (size dial_id : Z) (denv : Z * dial_end) (env : Z → Z * attempt) (disc : Z)
    : res (dial_failure + send_failure) () * list net_action * Z :=
  let '(r, dial_id) := network_dial dial_id CONNECT_TIMEOUT denv in
  match r with
  | Ok _ =>
      let '(r, acts) := send_message_with_retry_and_timeout 1 (send_timeout size) 0 env disc in
      (match r with Ok u => Ok u | Err e => Err (inr e) | Panic => Panic end, acts, dial_id)
  | Err e => (Err (inl e), [], dial_id)
  | Panic => (Panic, [], dial_id)
  end.

(** [MessageSender::supports_have] *)
Definition sender_supports_have (protocol_id : option ProtocolId) : bool :=
  match protocol_id with Some p => protocol_supports_have p | None => true end.

(** [MessageSender::send_message] *)
Definition sender_send_message (config : MessageSenderConfig) (env : Z → Z * attempt) (disc : Z) :=
  send_message_with_retry_and_timeout (ms_max_retries config) (ms_send_timeout config)
    (ms_send_error_backoff config) env disc.
End sending.
