(* ===== verification/NetworkFacts.v ===== *)
(** * Facts about the network layer

    Messages survive the framing in any division of the stream; a handler asks for
    substreams in the order of its messages and accounts for each of them; sending
    with retries is bounded in attempts and ends with the first decisive answer. *)

From stdpp Require Import prelude gmap fin_maps strings countable.
From Stdlib Require Import ZArith Lia.
From S2P Require Import Prelude Cids Message Network.
Local Open Scope Z_scope.

(** ** Versions *)

Lemma ProtocolId_try_from_name p : ProtocolId_try_from (protocol_name p) = Some p.
Proof. by destruct p. Qed.
Lemma ProtocolId_try_from_Some s p : ProtocolId_try_from s = Some p → s = protocol_name p.
Proof. unfold ProtocolId_try_from. repeat case_decide; by intros [= <-]. Qed.

(** ** Framing *)

Definition in_i32 (z : Z) : Prop := - 2 ^ 31 ≤ z < 2 ^ 31.

(** The numbers of a message fit the fields of [bitswap_pb.proto]. *)
Record pb_fits (m : pb_Message) : Prop := {
  fits_pending : in_i32 (pbm_pending_bytes m);
  fits_entries w e : pbm_wantlist m = Some w → e ∈ pbw_entries w →
    in_i32 (pbe_priority e) ∧ in_i32 (pbe_want_type e);
  fits_presences p : p ∈ pbm_block_presences m → in_i32 (pbp_type p)
}.

(** What the framing relies on: protobuf decodes what it encodes; a frame is not
    empty, is decoded with the bytes after it left in place, and a part of a frame
    leaves the decoder waiting for the rest. *)
Class WireLaws `{Wire} : Prop := {
  pb_roundtrip m : pb_fits m → pb_decode (pb_encode m) = Some m;
  uvi_encode_fits max p : Z.of_nat (length p) ≤ max → is_Some (uvi_encode max p);
  uvi_encode_long max p : max < Z.of_nat (length p) → uvi_encode max p = None;
  uvi_frame_nonempty max p f : uvi_encode max p = Some f → f ≠ [];
  uvi_frame max p f rest :
    uvi_encode max p = Some f → uvi_decode max uvi_default (f ++ rest) = (Ok (Some p), uvi_default, rest);
  uvi_waits max p f a b :
    uvi_encode max p = Some f → f = a ++ b → b ≠ [] →
    ∃ st a', uvi_decode max uvi_default a = (Ok None, st, a') ∧
      ∀ more, uvi_decode max st (a' ++ more) = uvi_decode max uvi_default (a ++ more);
  uvi_idle max : uvi_decode max uvi_default [] = (Ok None, uvi_default, [])
}.

Section framing.
Context `{MultiformatsLaws} `{Prost} `{HashOrder} `{WireLaws}.

Abbreviation item := (res BitswapHandlerError (BitswapMessage * ProtocolId)).

(** [Framed] decodes until nothing is left to decode; an error leaves the rest in the
    buffer. *)
Fixpoint decode_buffered (fuel : nat) (c : BitswapCodec) (buf : bytes) : list item * BitswapCodec * bytes :=
  match fuel with
  | O => ([], c, buf)
  | S fuel =>
      match codec_decode c buf with
      | (Ok None, c, buf) => ([], c, buf)
      | (Ok (Some m), c, buf) =>
          let '(items, c, buf) := decode_buffered fuel c buf in (Ok m :: items, c, buf)
      | (Err e, c, buf) => ([Err e], c, buf)
      | (Panic, c, buf) => ([Panic], c, buf)
      end
  end.

(** The bytes arrive in chunks. *)
Fixpoint read_chunks (c : BitswapCodec) (buf : bytes) (chunks : list bytes) : list item * BitswapCodec * bytes :=
  match chunks with
  | [] => ([], c, buf)
  | chunk :: chunks =>
      let '(items, c, buf) := decode_buffered (S (length (buf ++ chunk))) c (buf ++ chunk) in
      let '(items', c, buf) := read_chunks c buf chunks in
      (items ++ items', c, buf)
  end.

(** The messages written to one substream *)
Definition write_messages (c : BitswapCodec) (ms : list BitswapMessage) : res BitswapHandlerError bytes :=
  fold_res (λ dst m, codec_encode c m dst) [] ms.

Record sendable (m : BitswapMessage) : Prop := {
  snd_wf : message_wf m;
  snd_verify : blocks_verify m;
  snd_digests : digests_fit m;
  snd_pending : in_i32 (msg_pending_bytes m);
  snd_priorities k e : msg_wantlist m !! k = Some e → in_i32 (entry_priority e)
}.

Lemma encode_v1_fits m pbm : sendable m → encode_as_proto_v1 m = Ok pbm → pb_fits pbm.
Proof.
  intros Hm. unfold encode_as_proto_v1. destruct (fold_res _ _ _) as [pl|?|]; [|done..]. cbn [mbind res_bind].
  intros [= <-]. split; cbn.
  - apply Hm.
  - intros w e [= <-]. cbn. intros (x & -> & [k Hk]%elem_of_hm_values)%list_elem_of_fmap. cbn. split.
    + by eapply snd_priorities.
    + unfold in_i32. destruct (entry_want_type x); cbn; lia.
  - intros p ([k t] & -> & _)%list_elem_of_fmap. unfold in_i32. destruct t; cbn; lia.
Qed.

(** A frame that decodes to a message *)
Definition frame_of (c : BitswapCodec) (m : BitswapMessage) (f : bytes) : Prop :=
  ∃ p, uvi_encode (codec_max_len c) p = Some f ∧ message_try_from_bytes p = Ok m.

Definition speaks_v1 (p : ProtocolId) : bool := match p with Bitswap110 | Bitswap120 => true | _ => false end.

Lemma encode_frame c m dst out :
  sendable m → speaks_v1 (codec_protocol c) = true → codec_encode c m dst = Ok out →
  ∃ f, out = dst ++ f ∧ frame_of c m f.
Proof.
  intros Hm Hp. destruct (message_v1_roundtrip m) as (pbm & He & Hd); [apply Hm..|].
  unfold codec_encode. destruct (codec_protocol c); try done; rewrite He;
    (destruct (uvi_encode _ _) as [f|] eqn:Ef; [|done]); intros [= <-]; exists f; (split; [done|]);
    exists (pb_encode pbm); (split; [done|]); unfold message_try_from_bytes;
    rewrite pb_roundtrip by (by eapply encode_v1_fits); exact Hd.
Qed.

Lemma write_frames c ms dst out :
  Forall sendable ms → speaks_v1 (codec_protocol c) = true →
  fold_res (λ dst m, codec_encode c m dst) dst ms = Ok out →
  ∃ fs, out = dst ++ concat fs ∧ Forall2 (frame_of c) ms fs.
Proof.
  intros Hms Hp. revert dst. induction Hms as [|m ms Hm Hms IH]; intros dst; cbn [fold_res].
  { intros [= <-]. exists []. by rewrite app_nil_r. }
  destruct (codec_encode c m dst) as [d1|?|] eqn:E; [|done..]. cbn [mbind res_bind]. intros Hrest.
  apply encode_frame in E as (f & -> & Hf); [|done..]. apply IH in Hrest as (fs & -> & Hfs).
  exists (f :: fs). split; [by rewrite <-app_assoc|by constructor].
Qed.

(** ** Reading *)

(** The decoder has read [a] of a frame: it behaves as a new one with [a] in front. *)
Definition holds (c0 c : BitswapCodec) (buf a : bytes) : Prop :=
  codec_max_len c = codec_max_len c0 ∧ codec_protocol c = codec_protocol c0 ∧
  ∀ more, uvi_decode (codec_max_len c) (codec_length c) (buf ++ more) =
          uvi_decode (codec_max_len c0) uvi_default (a ++ more).

Lemma holds_start config p buf : holds (upgrade config p) (upgrade config p) buf buf.
Proof. by split_and!. Qed.

Lemma decode_frame c0 c buf a chunk m f rest :
  holds c0 c buf a → frame_of c0 m f → a ++ chunk = f ++ rest →
  ∃ c', codec_decode c (buf ++ chunk) = (Ok (Some (m, codec_protocol c0)), c', rest) ∧ holds c0 c' rest rest.
Proof.
  intros (Hm & Hp & Hh) (p & Hf & Hd) E. unfold codec_decode. rewrite Hh, E, (uvi_frame _ _ _ _ Hf). cbn.
  rewrite Hd, Hp. eexists. split; [done|]. split_and!; cbn; [done..|]. by rewrite Hm.
Qed.

Lemma decode_part c0 c buf a chunk m f b :
  holds c0 c buf a → frame_of c0 m f → f = (a ++ chunk) ++ b → b ≠ [] →
  ∃ c' buf', codec_decode c (buf ++ chunk) = (Ok None, c', buf') ∧ holds c0 c' buf' (a ++ chunk).
Proof.
  intros (Hm & Hp & Hh) (p & Hf & Hd) E Hb. destruct (uvi_waits _ _ _ _ _ Hf E Hb) as (st & a' & Hdec & Hmore).
  unfold codec_decode. rewrite Hh, Hdec. cbn. eexists _, _. split; [done|]. split_and!; cbn; [done..|].
  intros more. rewrite Hm. apply Hmore.
Qed.

Lemma decode_nothing c0 c buf a chunk :
  holds c0 c buf a → a ++ chunk = [] →
  ∃ c' buf', codec_decode c (buf ++ chunk) = (Ok None, c', buf') ∧ holds c0 c' buf' [].
Proof.
  intros (Hm & Hp & Hh) E. unfold codec_decode. rewrite Hh, E, uvi_idle. cbn. eexists _, _. split; [done|].
  split_and!; cbn; [done..|]. intros more. by rewrite Hm.
Qed.

(** What remains of a list of frames after some bytes of it: the complete frames and a
    part of the next one. *)
Lemma concat_split (fs : list bytes) (s rest : bytes) :
  Forall (λ f, f ≠ []) fs → s ++ rest = concat fs →
  ∃ done part fs', fs = done ++ fs' ∧ s = concat done ++ part ∧ part ++ rest = concat fs' ∧
    match fs' with [] => part = [] | f :: _ => ∃ b, f = part ++ b ∧ b ≠ [] end.
Proof.
  revert s. induction fs as [|f fs IH]; intros s Hne E.
  { apply app_eq_nil in E as [-> ->]. by exists [], [], []. }
  inversion_clear Hne as [|? ? Hf Hfs]. cbn in E.
  destruct (decide (length f ≤ length s)%nat) as [Hle|Hlt].
  - assert (s = f ++ drop (length f) s) as Es.
    { rewrite <-(take_drop (length f) s) at 1. f_equal. apply (f_equal (take (length f))) in E.
      by rewrite take_app_le, take_app_length in E by done. }
    rewrite Es, <-app_assoc in E. apply app_inv_head in E. apply IH in E as (dn & part & fs' & -> & Ed & Hr & Hm); [|done].
    exists (f :: dn), part, fs'. split_and!; [done| |done..]. cbn. by rewrite <-app_assoc, <-Ed.
  - exists [], s, (f :: fs). split_and!; [done..|]. exists (drop (length s) f). split.
    + rewrite <-(take_drop (length s) f) at 1. f_equal. apply (f_equal (take (length s))) in E.
      by rewrite take_app_length, take_app_le in E by lia.
    + intros Hd. apply (f_equal length) in Hd. rewrite length_drop in Hd. cbn in Hd. lia.
Qed.

Lemma frame_nonempty c m f : frame_of c m f → f ≠ [].
Proof. intros (p & Hf & _). by eapply uvi_frame_nonempty. Qed.

Lemma decode_after c0 c buf a chunk part ms fs :
  holds c0 c buf a → a ++ chunk = part →
  Forall2 (frame_of c0) ms fs → match fs with [] => part = [] | f :: _ => ∃ b, f = part ++ b ∧ b ≠ [] end →
  ∃ c' buf', codec_decode c (buf ++ chunk) = (Ok None, c', buf') ∧ holds c0 c' buf' part.
Proof.
  intros Hh Ea Hfs Hp. destruct Hfs as [|m f ms fs Hf Hfs].
  - rewrite Hp in Ea |- *. by eapply decode_nothing.
  - destruct Hp as (b & -> & Hb). rewrite <-Ea in Hf. destruct (decode_part c0 c buf a chunk m _ b Hh Hf) as (c' & b' & Hd & Hh'); [done..|].
    rewrite Ea in Hh'. eauto.
Qed.

Lemma decode_buffered_frames c0 done_ms done fs ms part fuel c buf a chunk :
  Forall2 (frame_of c0) done_ms done → Forall2 (frame_of c0) ms fs →
  holds c0 c buf a → a ++ chunk = concat done ++ part →
  match fs with [] => part = [] | f :: _ => ∃ b, f = part ++ b ∧ b ≠ [] end →
  (length done < fuel)%nat →
  ∃ c' buf', decode_buffered fuel c (buf ++ chunk) = ((λ m, Ok (m, codec_protocol c0)) <$> done_ms, c', buf') ∧
    holds c0 c' buf' part.
Proof.
  intros Hd Hfs. revert c buf a chunk fuel. induction Hd as [|m f done_ms done Hf Hd IH];
    intros c buf a chunk [|fuel] Hh E Hp Hfu; cbn in Hfu; try lia; cbn [decode_buffered].
  - destruct (decode_after c0 c buf a chunk part ms fs Hh E Hfs Hp) as (c' & b' & -> & Hh'). eauto.
  - cbn in E. rewrite <-app_assoc in E. destruct (decode_frame _ _ _ _ _ _ _ _ Hh Hf E) as (c1 & -> & Hh1).
    destruct (IH c1 (concat done ++ part) (concat done ++ part) [] fuel) as (c' & b' & Hdec & Hh'); [done|by rewrite app_nil_r|done|lia|].
    rewrite app_nil_r in Hdec. rewrite Hdec. cbn. eauto.
Qed.

Lemma concat_length_le (fs : list bytes) : Forall (λ f, f ≠ []) fs → (length fs ≤ length (concat fs))%nat.
Proof.
  induction 1 as [|f fs Hf _ IH]; cbn; [lia|]. rewrite length_app. destruct f; [done|cbn; lia].
Qed.

Lemma frames_nonempty c ms fs : Forall2 (frame_of c) ms fs → Forall (λ f, f ≠ []) fs.
Proof. induction 1; constructor; [by eapply frame_nonempty|done]. Qed.

(** The bytes of [part] begin the next frame but do not complete it. *)
Definition begins (part : bytes) (fs : list bytes) : Prop :=
  match fs with [] => part = [] | f :: _ => ∃ b, f = part ++ b ∧ b ≠ [] end.

Lemma done_in_chunk a chunk part done fs :
  begins a (done ++ fs) → Forall (λ f, f ≠ []) done → a ++ chunk = concat done ++ part →
  (length done ≤ length chunk)%nat.
Proof.
  destruct done as [|f dn]; cbn; [lia|]. intros (b & -> & Hb) Hne E. rewrite <-!app_assoc in E.
  apply app_inv_head in E as ->. inversion_clear Hne as [|? ? _ Hdn]. rewrite !length_app.
  pose proof (concat_length_le dn Hdn). destruct b; [done|cbn; lia].
Qed.

Lemma read_chunks_frames c0 chunks : ∀ ms fs c buf a,
  Forall2 (frame_of c0) ms fs → holds c0 c buf a → begins a fs → a ++ concat chunks = concat fs →
  ∃ c' buf', read_chunks c buf chunks = ((λ m, Ok (m, codec_protocol c0)) <$> ms, c', buf') ∧ holds c0 c' buf' [].
Proof.
  induction chunks as [|chunk chunks IH]; intros ms fs c buf a Hfs Hh Ha E; cbn [read_chunks].
  - destruct Hfs as [|m f ms fs Hf Hfs]; cbn in Ha, E.
    + subst a. eauto.
    + destruct Ha as (b & -> & Hb). rewrite app_nil_r, <-app_assoc in E.
      apply (f_equal length) in E. rewrite !length_app in E. destruct b; [done|cbn in E; lia].
  - cbn in E. rewrite app_assoc in E. pose proof (frames_nonempty _ _ _ Hfs) as Hne.
    destruct (concat_split _ _ _ Hne E) as (dn & part & fs' & -> & Ed & Er & Hp).
    apply Forall2_app_inv_r in Hfs as (ms1 & ms2 & Hm1 & Hm2 & ->). apply Forall_app in Hne as [Hne _].
    destruct (decode_buffered_frames c0 ms1 dn fs' ms2 part (S (length (buf ++ chunk))) c buf a chunk)
      as (c1 & b1 & -> & Hh1); [done..| |].
    { pose proof (done_in_chunk _ _ _ _ _ Ha Hne Ed). rewrite length_app. lia. }
    destruct (IH _ _ _ _ _ Hm2 Hh1 Hp Er) as (c2 & b2 & -> & Hh2). exists c2, b2. by rewrite fmap_app.
Qed.

(** Only the size decides whether a message can be written. *)
Lemma encode_total c m dst :
  sendable m → speaks_v1 (codec_protocol c) = true →
  ∃ pbm, encode_as_proto_v1 m = Ok pbm ∧
    if Z.of_nat (length (pb_encode pbm)) <=? codec_max_len c
    then ∃ f, codec_encode c m dst = Ok (dst ++ f)
    else codec_encode c m dst = Err MaxTransmissionSize.
Proof.
  intros Hm Hp. destruct (message_v1_roundtrip m) as (pbm & He & Hd); [apply Hm..|]. exists pbm. split; [done|].
  destruct (Z.leb_spec (Z.of_nat (length (pb_encode pbm))) (codec_max_len c)) as [Hle|Hlt].
  - destruct (uvi_encode_fits _ _ Hle) as [f Hf]. exists f. unfold codec_encode.
    destruct (codec_protocol c); try done; by rewrite He, Hf.
  - apply uvi_encode_long in Hlt. unfold codec_encode. destruct (codec_protocol c); try done; by rewrite He, Hlt.
Qed.

(** The encoding of a message is within the limit of the protocol. *)
Definition within_limit (c : BitswapCodec) (m : BitswapMessage) : Prop :=
  ∃ pbm, encode_as_proto_v1 m = Ok pbm ∧ Z.of_nat (length (pb_encode pbm)) ≤ codec_max_len c.

Lemma write_total c ms dst :
  Forall sendable ms → Forall (within_limit c) ms → speaks_v1 (codec_protocol c) = true →
  ∃ out, fold_res (λ dst m, codec_encode c m dst) dst ms = Ok out.
Proof.
  intros Hms Hl Hp. revert dst. induction Hms as [|m ms Hm Hms IH]; intros dst; cbn [fold_res]; [eauto|].
  inversion_clear Hl as [|? ? (pbm & He & Hlen) Hl'].
  destruct (encode_total c m dst Hm Hp) as (pbm' & He' & Hc). rewrite He in He'. injection He' as <-.
  rewrite (proj2 (Z.leb_le _ _) Hlen) in Hc. destruct Hc as [f ->]. cbn [mbind res_bind]. by apply IH.
Qed.

(** C13: messages survive the stream.  A list of messages within the size limit can be
    written to a substream with protocol 1.1.0 or 1.2.0, and however the bytes are
    divided into chunks on the way, the reader of the substream decodes exactly these
    messages, in order, and is then ready for the next one. *)
Theorem stream_roundtrip config p ms :
  Forall sendable ms → Forall (within_limit (upgrade config p)) ms → speaks_v1 p = true →
  ∃ out, write_messages (upgrade config p) ms = Ok out ∧
    ∀ chunks, concat chunks = out →
    ∃ c buf, read_chunks (upgrade config p) [] chunks = ((λ m, Ok (m, p)) <$> ms, c, buf) ∧
      codec_decode c buf = codec_decode (upgrade config p) [].
Proof.
  intros Hms Hl Hp. destruct (write_total (upgrade config p) ms [] Hms Hl Hp) as [out Hw].
  exists out. split; [done|]. intros chunks Hc. apply write_frames in Hw as (fs & -> & Hfs); [|done..]. cbn in Hc.
  pose proof (frames_nonempty _ _ _ Hfs) as Hne.
  destruct (read_chunks_frames (upgrade config p) chunks ms fs (upgrade config p) [] [])
    as (c & buf & -> & Hm & Hpr & Hh); [done|apply holds_start| |done|].
  { destruct Hne as [|f fs' Hf _]; cbn; [done|eauto]. }
  exists c, buf. split; [done|]. specialize (Hh []). rewrite !app_nil_r in Hh. unfold codec_decode.
  rewrite Hh, Hm, Hpr. done.
Qed.
End framing.

(** ** The handler *)

Section handler.
Context `{Multiformats} `{Prost} `{HashOrder} `{Wire}.
Variable show : Error → string.

(** What happens to a handler, and what the swarm holds for it: the substreams it asked
    for and has not got yet. *)
Inductive handler_event :=
  | HdEvent (now : Z) (ev : BitswapHandlerIn)
  | HdInbound (c : BitswapCodec) (items : list (res BitswapHandlerError (BitswapMessage * ProtocolId)))
  | HdOutbound (i : nat) (c : BitswapCodec) (ready flush close : option string)
  | HdUpgradeError (i : nat) (e : upgrade_error)
  | HdPoll (now : Z) (out_ready in_ready : list nat).

Record connection := {
  cn_handler : BitswapHandler;
  cn_requested : list (BitswapMessage * Tx);
  cn_events : list conn_event;
  cn_answers : list (Tx * res SendError ());
  cn_failed : list Tx
}.

Definition connection_new (now : Z) (config : ProtocolConfig) (idle : Z) : connection :=
  {| cn_handler := BitswapHandler_new now config idle; cn_requested := []; cn_events := [];
     cn_answers := []; cn_failed := [] |}.

(** The substreams open or fail in any order. *)
Definition connection_step (ev : handler_event) (n : connection) : option connection :=
  let h := cn_handler n in
  match ev with
  | HdEvent now ev =>
      Some {| cn_handler := handler_inject_event now ev h; cn_requested := cn_requested n;
              cn_events := cn_events n; cn_answers := cn_answers n; cn_failed := cn_failed n |}
  | HdInbound c items =>
      Some {| cn_handler := inject_fully_negotiated_inbound c items h; cn_requested := cn_requested n;
              cn_events := cn_events n; cn_answers := cn_answers n; cn_failed := cn_failed n |}
  | HdOutbound i c ready flush close =>
      info ← cn_requested n !! i;
      Some {| cn_handler := inject_fully_negotiated_outbound show c ready flush close info h;
              cn_requested := delete i (cn_requested n);
              cn_events := cn_events n; cn_answers := cn_answers n; cn_failed := cn_failed n |}
  | HdUpgradeError i e =>
      info ← cn_requested n !! i;
      Some {| cn_handler := inject_dial_upgrade_error info e h; cn_requested := delete i (cn_requested n);
              cn_events := cn_events n; cn_answers := cn_answers n; cn_failed := cn_failed n ++ [info.2] |}
  | HdPoll now out_ready in_ready =>
      let '(ev, ans, h) := handler_poll now out_ready in_ready h in
      Some {| cn_handler := h;
              cn_requested := cn_requested n ++
                match ev with Some (OutboundSubstreamRequest _ info) => [info] | _ => [] end;
              cn_events := cn_events n ++ option_list ev;
              cn_answers := cn_answers n ++ ans; cn_failed := cn_failed n |}
  end.

Fixpoint connection_run (evs : list handler_event) (n : connection) : option connection :=
  match evs with
  | [] => Some n
  | ev :: evs => n ← connection_step ev n; connection_run evs n
  end.

(** The messages handed to the handler, and those it asked a substream for *)
Definition handed (evs : list handler_event) : list (BitswapMessage * Tx) :=
  evs ≫= λ ev, match ev with HdEvent _ (InMessage m tx) => [(m, tx)] | _ => [] end.
Definition asked (evs : list conn_event) : list (BitswapMessage * Tx) :=
  evs ≫= λ ev, match ev with OutboundSubstreamRequest _ info => [info] | _ => [] end.

(** The callers a substream is still going to answer *)
Definition owed (l : list act) : list Tx :=
  l ≫= λ a, match a with ActAnswer tx _ => [tx] | _ => [] end.
Definition owed_all (ls : list (list act)) : list Tx := ls ≫= owed.

(** Events that say nothing about the protocols of the peer *)
Definition silent (ev : conn_event) : Prop :=
  match ev with ConnCustom (EvConnected _) | ConnCustom EvProtocolNotSuppported => False | _ => True end.

(** A substream that does not panic and does not ask for substreams itself *)
Definition quiet_event (ev : conn_event) : Prop :=
  match ev with OutboundSubstreamRequest _ _ => False | ev => silent ev end.
Definition quiet (a : act) : Prop :=
  match a with ActPanic => False | ActYield ev => quiet_event ev | _ => True end.
Definition calm (l : list act) : Prop := Forall quiet l.
Definition no_request (ev : option conn_event) : Prop :=
  match ev with Some ev => quiet_event ev | _ => True end.

Lemma no_request_silent evs ev :
  Forall silent evs → no_request ev → Forall silent (evs ++ option_list ev).
Proof.
  intros Hs Hq. apply Forall_app. split; [done|]. destruct ev as [ev|]; cbn; [|constructor].
  constructor; [by destruct ev|constructor].
Qed.

Lemma run_acts_owed l ans ev rest :
  calm l → run_acts l = (ans, ev, rest) →
  owed l = ans.*1 ++ owed rest ∧ calm rest ∧ no_request ev ∧ (ev = None → rest = []).
Proof.
  intros Hc. revert ans. induction Hc as [|a l Ha Hc IH]; intros ans; cbn [run_acts].
  { intros [= <- <- <-]. split_and!; [done|constructor|done..]. }
  destruct a as [tx r|e|]; [| |done].
  - destruct (run_acts l) as [[a v] k] eqn:E. intros [= <- <- <-].
    destruct (IH a) as (E1 & ? & ? & ?); [done|]. split_and!; [|done..].
    change (tx :: owed l = tx :: (a.*1 ++ owed k)). by rewrite E1.
  - intros [= <- <- <-]. done.
Qed.

Lemma owed_all_insert ls i l l' :
  ls !! i = Some l → owed_all (<[i := l']> ls) ++ owed l ≡ₚ owed_all ls ++ owed l'.
Proof.
  intros Hi. rewrite <-(take_drop_middle _ _ _ Hi) at 2. rewrite insert_take_drop by (by eapply lookup_lt_Some).
  unfold owed_all. rewrite !bind_app. cbn [mbind list_bind]. solve_Permutation.
Qed.

Lemma select_all_owed ready ls ans ev ls' :
  Forall calm ls → select_all ready ls = (ans, ev, ls') →
  owed_all ls ≡ₚ ans.*1 ++ owed_all ls' ∧ Forall calm ls' ∧ no_request ev.
Proof.
  revert ls ans ev ls'. induction ready as [|i ready IH]; intros ls ans ev ls' Hc; cbn [select_all].
  { by intros [= <- <- <-]. }
  destruct (ls !! i) as [l|] eqn:Ei; [|by apply IH].
  destruct (run_acts l) as [[a v] rest] eqn:Er. apply run_acts_owed in Er as (Ho & Hr & Hq & Hn).
  2:{ by eapply Forall_lookup_1. }
  assert (owed_all ls ≡ₚ a.*1 ++ owed_all (<[i := rest]> ls)) as Hp.
  { apply (Permutation_app_inv_r (owed rest)). rewrite <-owed_all_insert by done. rewrite Ho. solve_Permutation. }
  assert (Forall calm (<[i := rest]> ls)) as Hc' by (by apply Forall_insert).
  destruct v as [v|]; [by intros [= <- <- <-]|]. rewrite Hn in Hp, Hc' by done.
  destruct (select_all ready _) as [[a' v] k] eqn:Es. apply IH in Es as (Hp' & Hk & ?); [|done]. intros [= <- <- <-].
  split_and!; [|done..]. by rewrite fmap_app, Hp, Hp', app_assoc.
Qed.

(** Messages that can be encoded; decoding never panics. *)
Definition encodable (m : BitswapMessage) : Prop := ∃ pbm, encode_as_proto_v1 m = Ok pbm.
Definition orderly (ev : handler_event) : Prop :=
  match ev with
  | HdEvent _ (InMessage m _) => encodable m
  | HdInbound _ items => Panic ∉ items
  | _ => True
  end.

Lemma inbound_calm items : Panic ∉ items → calm (inbound_substream items) ∧ owed (inbound_substream items) = [].
Proof.
  induction items as [|[[m p]|e|] items IH]; intros Hi; cbn [inbound_substream].
  - by split; [constructor|].
  - destruct IH as [Hc Ho]; [intros ?; apply Hi; by right|]. by split; [constructor|].
  - destruct IH as [Hc Ho]; [intros ?; apply Hi; by right|]. by destruct e; split; try done; repeat constructor.
  - destruct Hi. by left.
Qed.

Lemma outbound_calm c r f cl m tx :
  encodable m → let l := outbound_substream show c r f cl (m, tx) in calm l ∧ owed l = [tx].
Proof.
  intros [pbm He]. cbn. destruct r as [e|]; cbn [outbound_substream]; [by split; [repeat constructor|]|].
  assert (codec_encode c m [] ≠ Panic) as Hp.
  { unfold codec_encode. destruct (codec_protocol c); rewrite ?He; by case_match. }
  destruct (codec_encode c m []); by split; try done; repeat constructor.
Qed.

#[local] Arguments outbound_substream : simpl never.
#[local] Arguments inbound_substream : simpl never.

(** The state of a connection after the messages [sent] *)
Record accounts (sent : list (BitswapMessage * Tx)) (n : connection) : Prop := {
  acc_order : sent = asked (cn_events n) ++ hd_send_queue (cn_handler n);
  acc_callers : sent.*2 ≡ₚ (cn_answers n).*1 ++ (hd_send_queue (cn_handler n)).*2 ++ (cn_requested n).*2 ++
                  owed_all (hd_outbound (cn_handler n)) ++ cn_failed n;
  acc_encodable : Forall (encodable ∘ fst) sent;
  acc_requested : cn_requested n ⊆ sent;
  acc_outbound : Forall calm (hd_outbound (cn_handler n));
  acc_inbound : Forall calm (hd_inbound (cn_handler n));
  acc_inbound_owed : owed_all (hd_inbound (cn_handler n)) = [];
  acc_no_events : hd_events (cn_handler n) = [];
  acc_silent : Forall silent (cn_events n)
}.

Lemma connection_new_accounts now config idle : accounts [] (connection_new now config idle).
Proof. by split. Qed.

Lemma owed_all_snoc ls l : owed_all (ls ++ [l]) = owed_all ls ++ owed l.
Proof. unfold owed_all. rewrite bind_app. cbn. by rewrite app_nil_r. Qed.

Lemma requested_delete (l : list (BitswapMessage * Tx)) i info :
  l !! i = Some info → l.*2 ≡ₚ info.2 :: (delete i l).*2 ∧ delete i l ⊆ l ∧ info ∈ l.
Proof.
  intros Hi. pose proof (delete_Permutation l i info Hi) as Hp. split_and!.
  - by rewrite Hp at 1.
  - intros x Hx. rewrite Hp. by right.
  - by eapply list_elem_of_lookup_2.
Qed.

Lemma asked_quiet evs ev : no_request ev → asked (evs ++ option_list ev) = asked evs.
Proof.
  intros Hq. unfold asked. rewrite bind_app. destruct ev as [[]|]; try done; cbn; by rewrite ?app_nil_r.
Qed.
Lemma requests_quiet ev :
  no_request ev → match ev with Some (OutboundSubstreamRequest _ info) => [info] | _ => [] end
    = @nil (BitswapMessage * Tx).
Proof. by destruct ev as [[]|]. Qed.

Lemma poll_accounts sent now ro ri n n' :
  connection_step (HdPoll now ro ri) n = Some n' → accounts sent n → accounts sent n'.
Proof.
  intros E [Ho Hp He Hr Hout Hin Hino Hev Hsi]. revert E. cbn [connection_step]. unfold handler_poll. rewrite Hev.
  destruct (hd_upgrade_errors (cn_handler n)) as [|e errs].
  2:{ intros [= <-]. split; cbn; rewrite ?app_nil_r; try done.
      - rewrite Ho at 1. f_equal. symmetry. by apply (asked_quiet _ (Some _)).
      - by apply (no_request_silent _ (Some _)). }
  destruct (hd_send_queue (cn_handler n)) as [|info q] eqn:Eq.
  2:{ intros [= <-]. split; cbn; rewrite ?app_nil_r; try done.
      - unfold asked. rewrite bind_app. cbn. by rewrite Ho, <-app_assoc.
      - rewrite Hp, fmap_app. cbn. solve_Permutation.
      - intros x [?|Hx%list_elem_of_singleton]%elem_of_app; [by apply Hr|]. subst x. rewrite Ho, elem_of_app. right. left.
      - apply Forall_app. by split; [|constructor]. }
  destruct (select_all ro _) as [[a v] out] eqn:E1. apply select_all_owed in E1 as (P1 & C1 & N1); [|done].
  rewrite app_nil_r in Ho. destruct v as [v|].
  { intros [= <-]. split; cbn; rewrite ?Eq, ?app_nil_r; try done.
    - rewrite Ho at 1. symmetry. by apply (asked_quiet _ (Some v)).
    - rewrite Hp, P1, (requests_quiet (Some v)), fmap_app, !app_nil_r by done. cbn. solve_Permutation.
    - by rewrite (requests_quiet (Some v)), app_nil_r.
    - by apply (no_request_silent _ (Some v)). }
  cbn [hd_inbound hd_with_streams]. destruct (select_all ri _) as [[a' v] inb] eqn:E2.
  apply select_all_owed in E2 as (P2 & C2 & N2); [|done]. rewrite Hino in P2. apply Permutation_nil in P2.
  apply app_eq_nil in P2 as [Ha' Hinb]. apply fmap_nil_inv in Ha' as ->.
  intros [= <-]. rewrite (requests_quiet v), !app_nil_r by done.
  assert (asked (cn_events n ++ option_list v) = asked (cn_events n)) as Hq by (by apply asked_quiet).
  assert (sent.*2 ≡ₚ (cn_answers n ++ a).*1 ++ (cn_requested n).*2 ++ owed_all out ++ cn_failed n) as Hp'.
  { rewrite Hp, P1, fmap_app. cbn. solve_Permutation. }
  pose proof (no_request_silent _ v Hsi N2) as Hsv.
  rewrite <-Hq in Ho. destruct v as [[| |[]]|]; cbn in Ho; rewrite ?app_nil_r in Ho; split; cbn; rewrite ?Eq, ?app_nil_r; try done.
Qed.

Lemma step_accounts sent ev n n' :
  orderly ev → connection_step ev n = Some n' → accounts sent n → accounts (sent ++ handed [ev]) n'.
Proof.
  intros Hev E Ha. destruct ev as [now [m tx| |]|c items|i c r f cl|i e|now ro ri].
  7:{ cbn. rewrite app_nil_r. by eapply poll_accounts. }
  all: destruct Ha as [Ho Hp He Hr Hout Hin Hino Hne Hsi]; cbn [connection_step] in E.
  - injection E as <-. cbn. split; cbn; try done.
    + by rewrite Ho, app_assoc.
    + rewrite fmap_app, Hp, fmap_app. cbn. solve_Permutation.
    + apply Forall_app. by split; [|constructor].
    + etrans; [done|]. set_solver.
  - injection E as <-. cbn. rewrite app_nil_r. by split.
  - injection E as <-. cbn. rewrite app_nil_r. by split.
  - injection E as <-. cbn. rewrite app_nil_r. destruct (inbound_calm items Hev) as [Hc Hi]. split; cbn; try done.
    + apply Forall_app. by split; [|constructor].
    + by rewrite owed_all_snoc, Hino, Hi.
  - destruct (cn_requested n !! i) as [[m tx]|] eqn:Ei; [|done]. injection E as <-. cbn. rewrite app_nil_r.
    destruct (requested_delete _ _ _ Ei) as (Hd & Hs & Hin').
    destruct (outbound_calm c r f cl m tx) as [Hc Hi]. { apply (proj1 (list.Forall_forall _ _) He (m, tx)). by apply Hr. }
    split; cbn; try done.
    + rewrite Hp, Hd, owed_all_snoc, Hi. cbn. solve_Permutation.
    + by etrans.
    + apply Forall_app. by split; [|constructor].
  - destruct (cn_requested n !! i) as [[m tx]|] eqn:Ei; [|done]. injection E as <-. cbn. rewrite app_nil_r.
    destruct (requested_delete _ _ _ Ei) as (Hd & Hs & Hin'). split; cbn; try done.
    + rewrite Hp, Hd. cbn. solve_Permutation.
    + by etrans.
Qed.

Lemma run_accounts evs : ∀ sent n n',
  Forall orderly evs → connection_run evs n = Some n' → accounts sent n → accounts (sent ++ handed evs) n'.
Proof.
  induction evs as [|ev evs IH]; intros sent n n' Hev; cbn [connection_run].
  { intros [= <-]. by rewrite app_nil_r. }
  inversion_clear Hev as [|? ? Ho Hos]. destruct (connection_step ev n) as [n1|] eqn:E; [|done]. cbn [mbind option_bind].
  intros Hr Ha. eapply step_accounts in Ha; [|done..]. eapply IH in Ha; [|done..].
  assert (handed (ev :: evs) = handed [ev] ++ handed evs) as -> by apply (bind_app _ [ev] evs). by rewrite app_assoc.
Qed.

(** The handler never reports which protocol the peer speaks, nor that it speaks none. *)
Lemma handler_never_reports now config idle evs n :
  Forall orderly evs → connection_run evs (connection_new now config idle) = Some n →
  Forall silent (cn_events n).
Proof. intros Hev Hr. apply (run_accounts _ _ _ _ Hev Hr (connection_new_accounts now config idle)). Qed.

(** C33: a connection loses no message.  A handler asks for substreams in the order in
    which it was given messages, and at every moment each message is in exactly one
    place: answered, in the queue, waiting for its substream, on a substream that is
    going to answer, or given up because its substream could not be opened.  No caller
    is answered twice. *)
Theorem handler_accounts now config idle evs n :
  Forall orderly evs → connection_run evs (connection_new now config idle) = Some n →
  handed evs = asked (cn_events n) ++ hd_send_queue (cn_handler n) ∧
  (handed evs).*2 ≡ₚ (cn_answers n).*1 ++ (hd_send_queue (cn_handler n)).*2 ++ (cn_requested n).*2 ++
    owed_all (hd_outbound (cn_handler n)) ++ cn_failed n ∧
  (NoDup (handed evs).*2 → NoDup (cn_answers n).*1).
Proof.
  intros Hev Hr. destruct (run_accounts _ _ _ _ Hev Hr (connection_new_accounts now config idle)) as [Ho Hp _ _ _ _ _ _ _].
  split_and!; [done..|]. cbn in Hp. rewrite Hp. by intros [? _]%list.NoDup_app.
Qed.
End handler.

(** ** Sending with retries *)

(** The time until attempt [i + n] is answered, when the [n] before it failed *)
Fixpoint spent (n : nat) (i retries backoff : Z) (env : Z → Z * attempt) : Z :=
  match n with
  | O => (env i).1
  | S n => (env i).1 + (if i <? retries - 1 then backoff else 0) + spent n (i + 1) retries backoff env
  end.

Definition fails (a : attempt) : Prop := ∃ e, a = AnsweredErr (SendOther e).

(** The attempts up to the [k]th after [i] fail, the [k]th is answered with success in time. *)
Definition succeeds (k : nat) (i retries backoff : Z) (env : Z → Z * attempt) (left : Z) : Prop :=
  (env (i + Z.of_nat k)).2 = AnsweredOk ∧ (∀ j, (j < k)%nat → fails (env (i + Z.of_nat j)).2) ∧
  spent k i retries backoff env ≤ left.

Lemma spent_nonneg n i retries backoff env :
  0 ≤ backoff → (∀ j, 0 ≤ (env j).1) → 0 ≤ spent n i retries backoff env.
Proof.
  intros Hb He. revert i. induction n as [|n IH]; intros i; cbn; [done|].
  specialize (IH (i + 1)). specialize (He i). case_match; lia.
Qed.

Fixpoint sends (l : list net_action) : nat :=
  match l with [] => 0 | NetSend :: l => S (sends l) | _ :: l => sends l end.

Lemma succeeds_S k i retries backoff env left :
  succeeds (S k) i retries backoff env left ↔
  fails (env i).2 ∧
  succeeds k (i + 1) retries backoff env
    (left - (env i).1 - (if i <? retries - 1 then backoff else 0)).
Proof.
  unfold succeeds. cbn [spent]. replace (i + Z.of_nat (S k)) with (i + 1 + Z.of_nat k) by lia. split.
  - intros (Hk & Hj & Hs). split_and!; [|done| |lia].
    + specialize (Hj 0%nat). rewrite Z.add_0_r in Hj. apply Hj. lia.
    + intros j Hlt. replace (i + 1 + Z.of_nat j) with (i + Z.of_nat (S j)) by lia. apply Hj. lia.
  - intros (H0 & Hk & Hj & Hs). split_and!; [done| |lia]. intros [|j] Hlt; [by rewrite Z.add_0_r|].
    replace (i + Z.of_nat (S j)) with (i + 1 + Z.of_nat j) by lia. apply Hj. lia.
Qed.

(** A success that is in time needs a first attempt that is in time and does not end
    the loop. *)
Lemma succeeds_first k i retries backoff env left d a :
  0 ≤ backoff → (∀ j, 0 ≤ (env j).1) → env i = (d, a) →
  succeeds k i retries backoff env left → d ≤ left ∧ (a = AnsweredOk ∨ fails a).
Proof.
  intros Hb He Ei. destruct k as [|k]; intros Hk.
  - destruct Hk as (Hk & _ & Hsp). rewrite Z.add_0_r, Ei in Hk. cbn in Hsp. rewrite Ei in Hsp. cbn in Hsp. eauto.
  - apply succeeds_S in Hk as (Hf & _ & _ & Hsp). rewrite Ei in Hf, Hsp. cbn in Hf, Hsp.
    pose proof (spent_nonneg k (i + 1) retries backoff env Hb He). split; [case_match; lia|by right].
Qed.

Lemma succeeds_next n i retries backoff env left d e :
  env i = (d, AnsweredErr (SendOther e)) →
  (∃ k, (k < n)%nat ∧
     succeeds k (i + 1) retries backoff env (left - d - (if i <? retries - 1 then backoff else 0))) ↔
  ∃ k, (k < S n)%nat ∧ succeeds k i retries backoff env left.
Proof.
  intros Ei. split.
  - intros (k & Hk & Hsu). exists (S k). split; [lia|]. apply succeeds_S. rewrite Ei. split; [by eexists|done].
  - intros ([|k] & Hk & Hsu).
    + destruct Hsu as (Hx & _). by rewrite Z.add_0_r, Ei in Hx.
    + apply succeeds_S in Hsu as [_ Hsu]. rewrite Ei in Hsu. exists k. split; [lia|done].
Qed.

Lemma retry_loop_ok n : ∀ i retries backoff env disc left errors,
  0 ≤ backoff → (∀ j, 0 ≤ (env j).1) →
  let r := retry_loop n i retries backoff env disc left errors in
  (sends r.2 ≤ n)%nat ∧
  (r.1 = Ok () ↔ ∃ k, (k < n)%nat ∧ succeeds k i retries backoff env left).
Proof.
  induction n as [|n IH]; intros i retries backoff env disc left errors Hb He; cbn [retry_loop].
  { split; [done|]. split; [done|]. intros (k & ? & _). lia. }
  destruct (env i) as [d a] eqn:Ei. pose proof (λ k, succeeds_first k i retries backoff env left d a Hb He Ei) as Hs.
  case_decide as Hc.
  { subst a. split; [cbn; lia|]. split; [done|]. by intros (k & _ & [_ [?|[? ?]]]%Hs). }
  destruct (Z.ltb_spec left d) as [Hlt|Hge].
  { split; [cbn; lia|]. split; [done|]. intros (k & _ & [? _]%Hs). lia. }
  destruct a as [| |[|e]|]; try done.
  - split; [cbn; lia|]. split; [|done]. intros _. exists 0%nat. split; [lia|]. unfold succeeds. rewrite Z.add_0_r, Ei.
    cbn [spent]. rewrite Ei. split_and!; [done|intros; lia|done].
  - split; [cbn; lia|]. split; [by case_match|]. by intros (k & _ & [_ [?|[? ?]]]%Hs).
  - pose proof (succeeds_next n i retries backoff env left d e Ei) as Hk.
    destruct (Z.ltb_spec i (retries - 1)) as [Hi|Hi].
    + destruct (Z.ltb_spec (left - d) backoff) as [Hl|Hl].
      * split; [cbn; lia|]. rewrite <-Hk. split; [done|]. intros (k & _ & _ & _ & Hsp).
        pose proof (spent_nonneg k (i + 1) retries backoff env Hb He). lia.
      * specialize (IH (i + 1) retries backoff env disc (left - d - backoff) (errors ++ [SendOther e]) Hb He).
        destruct (retry_loop n _ _ _ _ _ _ _) as [r acts]. cbn [fst snd] in *. destruct IH as [IH1 ->].
        split; [cbn; lia|done].
    + specialize (IH (i + 1) retries backoff env disc (left - d) (errors ++ [SendOther e]) Hb He).
      destruct (retry_loop n _ _ _ _ _ _ _) as [r acts]. cbn [fst snd] in *. destruct IH as [IH1 ->].
      rewrite Z.sub_0_r in Hk. split; [cbn; lia|done].
  - split; [cbn; lia|]. split; [done|]. by intros (k & _ & [_ [?|[? ?]]]%Hs).
Qed.

(** C38: sending with retries.  Whatever the network answers and however long it takes, at
    most [retries] attempts are made, and sending succeeds exactly when some attempt
    among them is answered with success while all before it failed in a way that is
    worth another attempt, and the attempts and pauses up to then fit into the timeout. *)
Theorem send_with_retry_exact retries timeout backoff env disc :
  0 ≤ retries → 0 ≤ backoff → (∀ j, 0 ≤ (env j).1) →
  let r := send_message_with_retry_and_timeout retries timeout backoff env disc in
  Z.of_nat (sends r.2) ≤ retries ∧
  (r.1 = Ok () ↔
   ∃ k, Z.of_nat k < retries ∧ (env (1 + Z.of_nat k)).2 = AnsweredOk ∧
     (∀ j, (j < k)%nat → fails (env (1 + Z.of_nat j)).2) ∧ spent k 1 retries backoff env ≤ timeout).
Proof.
  intros Hr Hb He. destruct (retry_loop_ok (Z.to_nat retries) 1 retries backoff env disc timeout [] Hb He) as [Hs Ho].
  unfold send_message_with_retry_and_timeout. cbn zeta. split; [lia|]. etrans; [exact Ho|]. split; intros (k & Hk & Hsu); exists k; (split; [lia|done]).
Qed.

Lemma send_timeout_bounds size : 0 ≤ size →
  MIN_SEND_TIMEOUT ≤ send_timeout size ≤ MAX_SEND_TIMEOUT ∧
  ∀ size', size ≤ size' → send_timeout size ≤ send_timeout size'.
Proof.
  intros Hs. unfold send_timeout, MIN_SEND_TIMEOUT, MAX_SEND_TIMEOUT, MIN_SEND_RATE. split; [lia|].
  intros size' Hle. apply (Z.div_le_mono _ _ (100 * 1000 / 8)) in Hle; [lia|done].
Qed.

(** A message that was sent was answered before its timeout, on a connection that was
    dialed in time. *)
Lemma network_send_ok size dial_id denv env disc :
  (network_send_message size dial_id denv env disc).1.1 = Ok () ↔
  (∃ r, denv.2 = DialAnswered (Ok r) ∧ denv.1 ≤ CONNECT_TIMEOUT) ∧
  (env 1).2 = AnsweredOk ∧ (env 1).1 ≤ send_timeout size.
Proof.
  unfold network_send_message, network_dial, send_message_with_retry_and_timeout. destruct denv as [d a].
  cbn [fst snd]. change (Z.to_nat 1) with 1%nat. cbn [retry_loop]. destruct (env 1) as [d1 a1]. cbn [fst snd].
  destruct a as [|[r|e|]|]; cbn; try (split; [done|by intros [(? & ? & ?) _]]);
    destruct (Z.ltb_spec CONNECT_TIMEOUT d); cbn; try (split; [done|intros [(? & ? & ?) _]; (done || lia)]).
  destruct a1 as [| |[|?]|]; cbn; destruct (Z.ltb_spec (send_timeout size) d1); cbn;
    try (split; [done|intros (_ & ? & ?); (done || lia)]).
  split; [intros _; eauto|done].
Qed.

(** ** Witnesses *)

Module NetworkToy.
Import Toy MessageWitness.

(** Protobuf messages as one number, frames with one number for the length *)
Definition tuple_entry (e : pb_Entry) :=
  (pbe_block e, pbe_priority e, pbe_cancel e, pbe_want_type e, pbe_send_dont_have e).
Definition untuple_entry '(b, p, c, w, s) : pb_Entry :=
  {| pbe_block := b; pbe_priority := p; pbe_cancel := c; pbe_want_type := w; pbe_send_dont_have := s |}.
Definition tuple_message (m : pb_Message) :=
  ((λ w, (tuple_entry <$> pbw_entries w, pbw_full w)) <$> pbm_wantlist m, pbm_blocks m,
   (λ b, (pbb_prefix b, pbb_data b)) <$> pbm_payload m,
   (λ p, (pbp_cid p, pbp_type p)) <$> pbm_block_presences m, pbm_pending_bytes m).
Definition untuple_message '(w, bs, pl, ps, n) : pb_Message :=
  {| pbm_wantlist := (λ '(es, full), {| pbw_entries := untuple_entry <$> es; pbw_full := full |}) <$> w;
     pbm_blocks := bs;
     pbm_payload := (λ '(p, d), {| pbb_prefix := p; pbb_data := d |}) <$> pl;
     pbm_block_presences := (λ '(c, t), {| pbp_cid := c; pbp_type := t |}) <$> ps;
     pbm_pending_bytes := n |}.

Lemma untuple_tuple m : untuple_message (tuple_message m) = m.
Proof.
  assert (∀ A B (f : A → B) g (l : list A), (∀ x, g (f x) = x) → g <$> (f <$> l) = l) as Hid.
  { intros A B f g l Hg. induction l as [|x l IH]; cbn; [done|]. by rewrite Hg, IH. }
  destruct m as [w bs pl ps n]. unfold untuple_message, tuple_message. cbn. f_equal.
  - destruct w as [[es full]|]; [|done]. cbn. rewrite Hid; [done|by intros []].
  - apply Hid. by intros [].
  - apply Hid. by intros [].
Qed.

Definition toy_uvi_decode (max : Z) (st : ()) (src : bytes) : res uvi_error (option bytes) * () * bytes :=
  match src with
  | [] => (Ok None, (), [])
  | n :: rest =>
      if max <? n then (Err PermissionDenied, (), rest)
      else if Z.of_nat (length rest) <? n then (Ok None, (), src)
      else (Ok (Some (take (Z.to_nat n) rest)), (), drop (Z.to_nat n) rest)
  end.

Definition wire : Wire := {|
  pb_encode := λ m, [Zpos (encode (tuple_message m))];
  pb_decode := λ bs, match bs with [Zpos p] => untuple_message <$> decode p | _ => None end;
  UviState := ();
  uvi_default := ();
  uvi_encode := λ max p, if Z.of_nat (length p) <=? max then Some (Z.of_nat (length p) :: p) else None;
  uvi_decode := toy_uvi_decode |}.
#[export] Existing Instance wire.

#[export] Instance wire_laws : WireLaws.
Proof.
  split; cbn.
  - intros m _. rewrite decode_encode. exact (f_equal Some (untuple_tuple m)).
  - intros max p Hle. rewrite (proj2 (Z.leb_le _ _)) by done. eauto.
  - intros max p Hlt. by rewrite (proj2 (Z.leb_gt _ _)).
  - intros max p f. case_match; [|done]. by intros [= <-].
  - intros max p f rest. destruct (Z.leb_spec (Z.of_nat (length p)) max) as [Hle|]; [|done]. intros [= <-]. cbn.
    rewrite (proj2 (Z.ltb_ge _ _)) by done. rewrite length_app, (proj2 (Z.ltb_ge _ _)) by lia.
    by rewrite Nat2Z.id, take_app_length, drop_app_length.
  - intros max p f a b. destruct (Z.leb_spec (Z.of_nat (length p)) max) as [Hle|]; [|done]. intros [= <-].
    destruct a as [|n a]; intros Ef Hb; [by exists (), []|]. injection Ef as En Ep. subst p. rewrite <-En.
    exists (), (Z.of_nat (length (a ++ b)) :: a). split; [|done]. unfold toy_uvi_decode.
    rewrite (proj2 (Z.ltb_ge _ _)) by done. rewrite (proj2 (Z.ltb_lt _ _)); [done|].
    rewrite length_app. destruct b; [done|]. cbn [length]. lia.
  - done.
Qed.

Definition config : ProtocolConfig := ProtocolConfig_default.

Lemma small_sendable : sendable small.
Proof.
  split.
  - split; cbn.
    + intros c e [<- <-]%lookup_singleton_Some. reflexivity.
    + intros c b [<- <-]%lookup_singleton_Some. reflexivity.
    + intros c [b [<- <-]%lookup_singleton_Some]. reflexivity.
  - unfold blocks_verify. cbn. intros c b [<- <-]%lookup_singleton_Some. vm_compute. reflexivity.
  - unfold digests_fit. cbn. intros c b [<- <-]%lookup_singleton_Some. unfold Int.in_u. cbn. lia.
  - unfold in_i32. cbn. lia.
  - intros k e. cbn. intros [<- <-]%lookup_singleton_Some. unfold in_i32. cbn. lia.
Qed.

Lemma small_within_limit p : within_limit (upgrade config p) small.
Proof.
  destruct (message_v1_roundtrip small) as (pbm & He & _); [apply small_sendable..|]. exists pbm. split; [done|].
  cbn. unfold MAX_BUF_SIZE. lia.
Qed.

Lemma stream_roundtrip_witness :
  ∃ out, write_messages (upgrade config Bitswap120) [small; small] = Ok out ∧
    ∀ chunks, concat chunks = out →
    ∃ c buf, read_chunks (upgrade config Bitswap120) [] chunks
        = ([Ok (small, Bitswap120); Ok (small, Bitswap120)], c, buf) ∧
      codec_decode c buf = codec_decode (upgrade config Bitswap120) [].
Proof.
  apply (stream_roundtrip config Bitswap120 [small; small]).
  - do 2 (apply Forall_cons_2; [apply small_sendable|]). apply Forall_nil_2.
  - do 2 (apply Forall_cons_2; [apply small_within_limit|]). apply Forall_nil_2.
  - reflexivity.
Defined.

(** A message is sent, then another one whose substream fails. *)
Definition show (e : Error) : string := "error".
Definition connection_events : list handler_event :=
  [HdEvent 5 (InMessage small 1%nat); HdEvent 6 (InMessage small 2%nat); HdPoll 7 [] []; HdPoll 8 [] [];
   HdOutbound 0 (upgrade config Bitswap120) None None None; HdUpgradeError 0 UpgrTimeout; HdPoll 9 [] [];
   HdPoll 10 [0%nat] []; HdEvent 11 (InMessage small 3%nat)].
Definition connection_end : connection :=
  default (connection_new 0 config 30) (connection_run show connection_events (connection_new 0 config 30)).

Lemma handler_accounts_witness :
  (cn_answers connection_end, cn_failed connection_end) = ([(1%nat, Ok ())], [2%nat]) ∧
  [1%nat; 2%nat; 3%nat] ≡ₚ [1%nat] ++ [3%nat] ++ [] ++ [] ++ [2%nat].
Proof.
  split; [vm_compute; reflexivity|].
  refine (proj1 (proj2 (handler_accounts show 0 config 30 connection_events connection_end _ _))).
  - destruct (message_v1_roundtrip small) as (pbm & He & _); [apply small_sendable..|].
    repeat constructor; by exists pbm.
  - vm_compute. reflexivity.
Defined.

Definition flaky (i : Z) : Z * attempt := (10, if i <? 2 then AnsweredErr (SendOther "busy") else AnsweredOk).

Lemma send_with_retry_exact_witness :
  Z.of_nat (sends (send_message_with_retry_and_timeout 3 1000 100 flaky 0).2) ≤ 3 ∧
  (send_message_with_retry_and_timeout 3 1000 100 flaky 0).1 = Ok ().
Proof.
  destruct (send_with_retry_exact 3 1000 100 flaky 0) as [Hs Ho]; [lia..|intros j; unfold flaky; cbn; lia|].
  split; [exact Hs|]. apply Ho. exists 1%nat. split; [lia|]. split; [reflexivity|]. split; [|vm_compute; by intros ?].
  intros [|j] Hj; [eexists; reflexivity|lia].
Defined.

(** ** Behaviour worth knowing *)

(** The pause is missing before the last attempt. *)
Lemma no_pause_before_last :
  (send_message_with_retry_and_timeout 3 1000 100 (λ _, (10, AnsweredErr (SendOther "busy"))) 0).2
  = [NetSend; NetSleep 100; NetSend; NetSend].
Proof. reflexivity. Qed.

(** A protected connection is an ordinary one again after the next message. *)
Lemma protection_lost h now now' m tx :
  hd_keep_alive (handler_inject_event now InProtect h) = KeepYes ∧
  hd_keep_alive (handler_inject_event now' (InMessage m tx) (handler_inject_event now InProtect h))
  = KeepUntil (now' + hd_idle_timeout h).
Proof. done. Qed.

(** The caller is told that its message was sent when it is only in the buffer. *)
Lemma answered_before_flush c m tx out e :
  codec_encode c m [] = Ok out → outbound_substream show c None (Some e) None (m, tx) = [ActAnswer tx (Ok ())].
Proof. intros E. unfold outbound_substream. by rewrite E. Qed.

(** A response that is dropped with its substream ends all attempts. *)
Lemma upgrade_error_not_retried :
  (send_message_with_retry_and_timeout 3 1000 100 (λ i, (10, if i <? 2 then ResponseDropped else AnsweredOk)) 0)
  = (Err FailGone, [NetSend]).
Proof. reflexivity. Qed.
End NetworkToy.
