(* ===== verification/Behaviour.v ===== *)
(** * The bitswap behaviour

    Models [iroh-bitswap/src/lib.rs]: what is known about the peers, the dials that
    wait for a connection, the requests client and server send to the network, and
    the three workers that hand messages, connections and disconnections to client
    and server.  A worker runs the handler of the client and that of the server at the
    same time: both are jobs of the node until they are done, the handlers of the server
    step by step ([ServerTasks]), those of the client as one step each.

    A step returns what leaves the behaviour ([output]): answers through [oneshot]
    channels, and the notifications that are put into (or dropped at) the bounded
    channels of the workers.  Times are milliseconds. *)

From stdpp Require Import prelude gmap fin_maps strings pretty sorting.
From Stdlib Require Import ZArith Lia.
From S2P Require Import Prelude Cids Message Wantlist PriorityQueue TaskQueue Engine ServerTasks.
From S2P Require Import MessageQueue PeerWants PeerManager ClientTrackers Managers WantSender Session Client Network.
Local Open Scope Z_scope.

Definition DIAL_BACK_OFF : Z := 10 * 60 * 1000.
Definition CHANNEL_CAPACITY : nat := 2048.
Definition NETWORK_CAPACITY : nat := 1024.

Abbreviation ConnectionId := Z.

Inductive PeerState :=
  | Connected (c : ConnectionId)
  | Responsive (c : ConnectionId) (p : ProtocolId)
  | Unresponsive
  | Disconnected
  | DialFailure (t : Z).
#[global] Instance PeerState_eq_dec : EqDecision PeerState.
Proof. solve_decision. Defined.

Definition is_connected (s : PeerState) : bool :=
  match s with Connected _ | Responsive _ _ => true | _ => false end.

Section behaviour.
Context `{Multiformats} `{Prost} `{HashOrder}.

Inductive BitswapEvent :=
  | Provide (key : Cid)
  | FindProviders (key : Cid) (response : Tx) (limit : Z)
  | Ping (peer : PeerId) (response : Tx).

(** [network::OutEvent] *)
Inductive OutEvent :=
  | ODial (peer : PeerId) (response : Tx) (id : Z)
  | ODisconnect (peer : PeerId) (response : Tx)
  | OSendMessage (peer : PeerId) (message : BitswapMessage) (response : Tx) (connection_id : ConnectionId)
  | OGenerateEvent (ev : BitswapEvent)
  | OProtectPeer (peer : PeerId)
  | OUnprotectPeer (peer : PeerId) (response : Tx).

Record Bitswap := {
  bs_network : list OutEvent;
  bs_protocol_config : ProtocolConfig;
  bs_idle_timeout : Z;
  bs_peers : gmap PeerId PeerState;
  bs_dials : gmap PeerId (list (Z * Tx));
  bs_pause_dialing : bool;
  bs_incoming_messages : list (PeerId * BitswapMessage);
  bs_peers_connected : list PeerId;
  bs_peers_disconnected : list PeerId
}.

Definition Bitswap_new (config : ProtocolConfig) (idle_timeout : Z) : Bitswap :=
  {| bs_network := []; bs_protocol_config := config; bs_idle_timeout := idle_timeout; bs_peers := ∅;
     bs_dials := ∅; bs_pause_dialing := false; bs_incoming_messages := []; bs_peers_connected := [];
     bs_peers_disconnected := [] |}.

Definition bs_with_network (l : list OutEvent) (b : Bitswap) : Bitswap :=
  {| bs_network := l; bs_protocol_config := bs_protocol_config b; bs_idle_timeout := bs_idle_timeout b;
     bs_peers := bs_peers b; bs_dials := bs_dials b; bs_pause_dialing := bs_pause_dialing b;
     bs_incoming_messages := bs_incoming_messages b; bs_peers_connected := bs_peers_connected b;
     bs_peers_disconnected := bs_peers_disconnected b |}.
Definition bs_with_peers (m : gmap PeerId PeerState) (b : Bitswap) : Bitswap :=
  {| bs_network := bs_network b; bs_protocol_config := bs_protocol_config b;
     bs_idle_timeout := bs_idle_timeout b; bs_peers := m; bs_dials := bs_dials b;
     bs_pause_dialing := bs_pause_dialing b; bs_incoming_messages := bs_incoming_messages b;
     bs_peers_connected := bs_peers_connected b; bs_peers_disconnected := bs_peers_disconnected b |}.
Definition bs_with_dials (d : gmap PeerId (list (Z * Tx))) (b : Bitswap) : Bitswap :=
  {| bs_network := bs_network b; bs_protocol_config := bs_protocol_config b;
     bs_idle_timeout := bs_idle_timeout b; bs_peers := bs_peers b; bs_dials := d;
     bs_pause_dialing := bs_pause_dialing b; bs_incoming_messages := bs_incoming_messages b;
     bs_peers_connected := bs_peers_connected b; bs_peers_disconnected := bs_peers_disconnected b |}.
Definition bs_with_pause (p : bool) (b : Bitswap) : Bitswap :=
  {| bs_network := bs_network b; bs_protocol_config := bs_protocol_config b;
     bs_idle_timeout := bs_idle_timeout b; bs_peers := bs_peers b; bs_dials := bs_dials b;
     bs_pause_dialing := p; bs_incoming_messages := bs_incoming_messages b;
     bs_peers_connected := bs_peers_connected b; bs_peers_disconnected := bs_peers_disconnected b |}.
Definition bs_with_channels (ms : list (PeerId * BitswapMessage)) (con dis : list PeerId) (b : Bitswap)
    : Bitswap :=
  {| bs_network := bs_network b; bs_protocol_config := bs_protocol_config b;
     bs_idle_timeout := bs_idle_timeout b; bs_peers := bs_peers b; bs_dials := bs_dials b;
     bs_pause_dialing := bs_pause_dialing b; bs_incoming_messages := ms; bs_peers_connected := con;
     bs_peers_disconnected := dis |}.

(** What leaves the behaviour *)
Inductive output :=
  | AnswerDial (tx : Tx) (r : res string (ConnectionId * option ProtocolId))
  | AnswerDisconnect (tx : Tx)
  | AnswerUnprotect (tx : Tx) (b : bool)
  | ToldConnected (peer : PeerId)
  | ToldDisconnected (peer : PeerId)
  | QueuedMessage (peer : PeerId) (m : BitswapMessage)
  | DroppedConnected (peer : PeerId)
  | DroppedDisconnected (peer : PeerId)
  | DroppedMessage (peer : PeerId) (m : BitswapMessage).

(** ** Notifications: [try_send] on a channel of 2048 places *)

Definition bs_peer_connected (peer : PeerId) (b : Bitswap) : Bitswap * list output :=
  if (length (bs_peers_connected b) <? CHANNEL_CAPACITY)%nat
  then (bs_with_channels (bs_incoming_messages b) (bs_peers_connected b ++ [peer]) (bs_peers_disconnected b) b,
        [ToldConnected peer])
  else (b, [DroppedConnected peer]).

Definition bs_peer_disconnected (peer : PeerId) (b : Bitswap) : Bitswap * list output :=
  if (length (bs_peers_disconnected b) <? CHANNEL_CAPACITY)%nat
  then (bs_with_channels (bs_incoming_messages b) (bs_peers_connected b) (bs_peers_disconnected b ++ [peer]) b,
        [ToldDisconnected peer])
  else (b, [DroppedDisconnected peer]).

Definition bs_receive_message (peer : PeerId) (message : BitswapMessage) (b : Bitswap) : Bitswap * list output :=
  if (length (bs_incoming_messages b) <? CHANNEL_CAPACITY)%nat
  then (bs_with_channels (bs_incoming_messages b ++ [(peer, message)]) (bs_peers_connected b)
          (bs_peers_disconnected b) b, [QueuedMessage peer message])
  else (b, [DroppedMessage peer message]).

(** ** The states of the peers *)

Definition get_peer_state (peer : PeerId) (b : Bitswap) : option PeerState := bs_peers b !! peer.

Definition store_state (peer : PeerId) (new_state : PeerState) (b : Bitswap) : Bitswap :=
  if decide (new_state = Disconnected)
  then bs_with_peers (delete peer (bs_peers b)) b
  else bs_with_peers (<[peer := new_state]> (bs_peers b)) b.

Definition set_peer_state (peer : PeerId) (new_state : PeerState) (b : Bitswap) : Bitswap * list output :=
  match bs_peers b !! peer with
  | Some old_state =>
      if decide (old_state = new_state) then (b, [])
      else
        match old_state, new_state with
        | Connected _, Connected _ => (b, [])
        | _, _ =>
            let b := store_state peer new_state b in
            match new_state with
            | DialFailure _ | Disconnected | Unresponsive =>
                if is_connected old_state then bs_peer_disconnected peer b else (b, [])
            | Connected _ => (b, [])
            | Responsive _ _ => bs_peer_connected peer b
            end
        end
  | None =>
      let b := if decide (new_state = Disconnected) then b
               else bs_with_peers (<[peer := new_state]> (bs_peers b)) b in
      match new_state with
      | DialFailure _ | Disconnected | Unresponsive => bs_peer_disconnected peer b
      | Connected _ => (b, [])
      | Responsive _ _ => bs_peer_connected peer b
      end
  end.

(** [on_identify]: the newest version both sides speak *)
Definition protocol_le (p q : ProtocolId) : Prop := ProtocolId_ord p ≤ ProtocolId_ord q.
#[global] Instance protocol_le_dec p q : Decision (protocol_le p q).
Proof. unfold protocol_le. apply _. Defined.

Definition on_identify (peer : PeerId) (protocols : list string) (b : Bitswap) : Bitswap * list output :=
  match get_peer_state peer b with
  | Some (Connected conn_id) =>
      match last (merge_sort protocol_le (omap ProtocolId_try_from protocols)) with
      | Some best_protocol => set_peer_state peer (Responsive conn_id best_protocol) b
      | None => (b, [])
      end
  | _ => (b, [])
  end.

(** ** Events of the swarm *)

Definition inject_connection_established (peer_id : PeerId) (connection : ConnectionId) (b : Bitswap)
    : Bitswap * list output :=
  let '(b, out) := set_peer_state peer_id (Connected connection) b in
  (bs_with_pause false b, out).

Definition inject_connection_closed (peer_id : PeerId) (remaining_established : Z) (b : Bitswap)
    : Bitswap * list output :=
  let b := bs_with_pause false b in
  if remaining_established =? 0 then set_peer_state peer_id Disconnected b else (b, []).

(** The waiting dials of a peer, answered from the last to the first *)
Definition answer_dials (peer_id : PeerId) (r : res string (ConnectionId * option ProtocolId)) (b : Bitswap)
    : Bitswap * list output :=
  match bs_dials b !! peer_id with
  | Some dials =>
      (bs_with_dials (delete peer_id (bs_dials b)) b, (λ d, AnswerDial d.2 r) <$> reverse dials)
  | None => (b, [])
  end.

(** [limit]: the error is [DialError::ConnectionLimit]; [error] is its text. *)
Definition inject_dial_failure (now : Z) (peer_id : option PeerId) (limit : bool) (error : string)
    (b : Bitswap) : Bitswap * list output :=
  match peer_id with
  | Some peer_id =>
      let '(b, out) :=
        if limit then set_peer_state peer_id Disconnected (bs_with_pause true b)
        else set_peer_state peer_id (DialFailure now) b in
      let '(b, out') := answer_dials peer_id (Err error) b in
      (b, out ++ out')
  | None => (b, [])
  end.

Definition inject_event (peer_id : PeerId) (connection : ConnectionId) (event : HandlerEvent) (b : Bitswap)
    : Bitswap * list output :=
  match event with
  | EvConnected protocol =>
      let '(b, out) := set_peer_state peer_id (Responsive connection protocol) b in
      let '(b, out') := answer_dials peer_id (Ok (connection, Some protocol)) b in
      (b, out ++ out')
  | EvProtocolNotSuppported =>
      let '(b, out) := set_peer_state peer_id Unresponsive b in
      let '(b, out') := answer_dials peer_id (Err "protocol not supported"%string) b in
      (b, out ++ out')
  | EvMessage message protocol =>
      let '(b, out) := set_peer_state peer_id (Responsive connection protocol) b in
      let '(b, out') := bs_receive_message peer_id (verify_blocks message) b in
      (b, out ++ out')
  | EvFailedToSendMessage _ => (b, [])
  end.

(** ** [poll] *)

(** [NetworkBehaviourAction] *)
Inductive action :=
  | CloseConnectionAll (peer : PeerId)
  | DialPeer (peer : PeerId)
  | GenerateEvent (ev : BitswapEvent)
  | NotifyHandlerOne (peer : PeerId) (connection : ConnectionId) (ev : BitswapHandlerIn).

Definition dial_text (id : Z) (msg : string) : string := "dial:" +:+ pretty id +:+ ": " +:+ msg.

Definition push_dial (peer : PeerId) (d : Z * Tx) (b : Bitswap) : Bitswap :=
  bs_with_dials (<[peer := default [] (bs_dials b !! peer) ++ [d]]> (bs_dials b)) b.

(** One request; [None] continues the loop. *)
Definition handle_out_event (now : Z) (ev : OutEvent) (b : Bitswap) : option action * list output * Bitswap :=
  match ev with
  | ODisconnect peer_id response => (Some (CloseConnectionAll peer_id), [AnswerDisconnect response], b)
  | ODial peer response id =>
      match get_peer_state peer b with
      | Some (Responsive conn protocol_id) =>
          (None, [AnswerDial response (Ok (conn, Some protocol_id))], b)
      | Some (Connected conn) => (None, [AnswerDial response (Ok (conn, None))], b)
      | st =>
          let backing_off :=
            match st with Some (DialFailure dialed) => now - dialed <? DIAL_BACK_OFF | _ => false end in
          if backing_off then (None, [AnswerDial response (Err (dial_text id "undialable peer"))], b)
          else if bs_pause_dialing b
          then (None, [AnswerDial response (Err (dial_text id "dialing paused"))], b)
          else (Some (DialPeer peer), [], push_dial peer (id, response) b)
      end
  | OGenerateEvent ev => (Some (GenerateEvent ev), [], b)
  | OSendMessage peer message response connection_id =>
      (Some (NotifyHandlerOne peer connection_id (InMessage message response)), [], b)
  | OProtectPeer peer =>
      match get_peer_state peer b with
      | Some (Responsive conn_id _) => (Some (NotifyHandlerOne peer conn_id InProtect), [], b)
      | _ => (None, [], b)
      end
  | OUnprotectPeer peer response =>
      match get_peer_state peer b with
      | Some (Responsive conn_id _) =>
          (Some (NotifyHandlerOne peer conn_id InUnprotect), [AnswerUnprotect response true], b)
      | _ => (None, [AnswerUnprotect response false], b)
      end
  end.

Fixpoint poll_loop (n : nat) (now : Z) (b : Bitswap) : option action * list output * Bitswap :=
  match n with
  | O => (None, [], b)
  | S n =>
      match bs_network b with
      | [] => (None, [], b)
      | ev :: rest =>
          let '(act, out, b) := handle_out_event now ev (bs_with_network rest b) in
          match act with
          | Some act => (Some act, out, b)
          | None => let '(act, out', b) := poll_loop n now b in (act, out ++ out', b)
          end
      end
  end.

(** [None] is [Poll::Pending]. *)
Definition bitswap_poll (now : Z) (b : Bitswap) : option action * list output * Bitswap := poll_loop 50 now b.

(** ** Steps *)

Inductive bs_event :=
  | BsRequest (ev : OutEvent)
  | BsEstablished (peer : PeerId) (c : ConnectionId)
  | BsClosed (peer : PeerId) (remaining : Z)
  | BsDialFailure (now : Z) (peer : option PeerId) (limit : bool) (error : string)
  | BsHandler (peer : PeerId) (c : ConnectionId) (ev : HandlerEvent)
  | BsIdentify (peer : PeerId) (protocols : list string)
  | BsPoll (now : Z).

(** A request waits while the channel of the network is full. *)
Definition bs_step (ev : bs_event) (b : Bitswap) : option (Bitswap * list output) :=
  match ev with
  | BsRequest ev =>
      if (length (bs_network b) <? NETWORK_CAPACITY)%nat
      then Some (bs_with_network (bs_network b ++ [ev]) b, []) else None
  | BsEstablished peer c => Some (inject_connection_established peer c b)
  | BsClosed peer remaining => Some (inject_connection_closed peer remaining b)
  | BsDialFailure now peer limit error => Some (inject_dial_failure now peer limit error b)
  | BsHandler peer c ev => Some (inject_event peer c ev b)
  | BsIdentify peer protocols => Some (on_identify peer protocols b)
  | BsPoll now => let '(_, out, b) := bitswap_poll now b in Some (b, out)
  end.
End behaviour.

(** ** The node: the behaviour with client and server *)

Section node.
Context `{Store} `{Prost} `{HashOrder} `{PriorityQueue}.
Variable draw : nat → Z → Z → bool.

(** A call that a worker, or a caller of the node, is waiting for *)
Inductive node_job :=
  | JobClient (ev : client_event)
  | JobServer (c : server_call).

Record Node := {
  nd_bitswap : Bitswap;
  nd_client : Client;
  nd_server : option Server;
  nd_jobs : list node_job
}.

(** [Bitswap::new]: without a server configuration there is no server. *)
Definition Node_new (config : ProtocolConfig) (idle_timeout : Z) (server : option EngineConfig) : Node :=
  {| nd_bitswap := Bitswap_new config idle_timeout; nd_client := Client_new;
     nd_server := Server_new <$> server; nd_jobs := [] |}.

Definition nd_with_bitswap (b : Bitswap) (n : Node) : Node :=
  {| nd_bitswap := b; nd_client := nd_client n; nd_server := nd_server n; nd_jobs := nd_jobs n |}.
Definition nd_with_client (c : Client) (n : Node) : Node :=
  {| nd_bitswap := nd_bitswap n; nd_client := c; nd_server := nd_server n; nd_jobs := nd_jobs n |}.
Definition nd_with_server (s : Server) (n : Node) : Node :=
  {| nd_bitswap := nd_bitswap n; nd_client := nd_client n; nd_server := Some s; nd_jobs := nd_jobs n |}.
Definition nd_with_jobs (l : list node_job) (n : Node) : Node :=
  {| nd_bitswap := nd_bitswap n; nd_client := nd_client n; nd_server := nd_server n; nd_jobs := l |}.
Definition nd_spawn (l : list node_job) (n : Node) : Node := nd_with_jobs (nd_jobs n ++ l) n.

(** Jobs for a server that may not be there *)
Definition server_jobs (l : list server_call) (n : Node) : list node_job :=
  match nd_server n with Some _ => JobServer <$> l | None => [] end.

(** The three workers handle what they receive serially: the next item is taken when the
    handlers for the last are done. *)
Definition message_job (j : node_job) : bool :=
  match j with JobClient (ClReceiveMessage _ _) | JobServer (CallMessage _ _) => true | _ => false end.
Definition connected_job (j : node_job) : bool :=
  match j with JobClient (ClPeerConnected _) | JobServer (CallConnected _) => true | _ => false end.
Definition disconnected_job (j : node_job) : bool :=
  match j with JobClient (ClPeerDisconnected _) | JobServer (CallDisconnected _) => true | _ => false end.
Definition message_worker_busy (n : Node) : bool :=
  existsb message_job (nd_jobs n) ||
  match nd_server n with Some s => existsb is_message (sv_tasks s).*1 | None => false end.

(** The worker for messages *)
Definition message_worker (n : Node) : option Node :=
  let b := nd_bitswap n in
  match bs_incoming_messages b with
  | [] => None
  | (peer, message) :: rest =>
      if message_worker_busy n then None
      else
        let b := bs_with_channels rest (bs_peers_connected b) (bs_peers_disconnected b) b in
        Some (nd_with_bitswap b
          (nd_spawn (JobClient (ClReceiveMessage peer message) :: server_jobs [CallMessage peer message] n) n))
  end.

(** The worker for new connections *)
Definition connected_worker (n : Node) : option Node :=
  let b := nd_bitswap n in
  match bs_peers_connected b with
  | [] => None
  | peer :: rest =>
      if existsb connected_job (nd_jobs n) then None
      else
        let b := bs_with_channels (bs_incoming_messages b) rest (bs_peers_disconnected b) b in
        Some (nd_with_bitswap b (nd_spawn (JobClient (ClPeerConnected peer) :: server_jobs [CallConnected peer] n) n))
  end.

(** The worker for peers that are gone *)
Definition disconnected_worker (n : Node) : option Node :=
  let b := nd_bitswap n in
  match bs_peers_disconnected b with
  | [] => None
  | peer :: rest =>
      if existsb disconnected_job (nd_jobs n) then None
      else
        let b := bs_with_channels (bs_incoming_messages b) (bs_peers_connected b) rest b in
        Some (nd_with_bitswap b (nd_spawn (JobClient (ClPeerDisconnected peer) :: server_jobs [CallDisconnected peer] n) n))
  end.

(** [Bitswap::notify_new_blocks]: the client first, then the server *)
Definition node_notify_new_blocks (blocks : list Block) (n : Node) : Node :=
  nd_spawn [JobClient (ClNotifyNewBlocks blocks)] n.

(** [Bitswap::wantlist_for_peer]: the own wants are read from the client; the ledger of
    another peer is read by the server, which creates one for a peer it does not know. *)
Definition node_wantlist_for_peer (self_id peer : PeerId) (n : Node) : Node :=
  if decide (peer = self_id) then n else nd_spawn (server_jobs [CallWantlist peer] n) n.

(** [received_blocks_cb]: what the client hands to the server *)
Definition server_callback (eff : client_effect) : option server_call :=
  match eff with
  | ClBlocksReceived from blocks => Some (CallReceived from blocks)
  | ClPeerManager _ => None
  end.

(** What follows when the client is done with a job *)
Definition then_server (ev : client_event) (eff : list client_effect) : list server_call :=
  omap server_callback eff ++ match ev with ClNotifyNewBlocks blocks => [CallNotify blocks] | _ => [] end.

(** A job goes on: the handler of the client runs, or the call on the server starts. *)
Definition run_job (now : Z) (i : nat) (n : Node) : option Node :=
  j ← nd_jobs n !! i;
  let n := nd_with_jobs (take i (nd_jobs n) ++ drop (S i) (nd_jobs n)) n in
  match j with
  | JobClient ev =>
      '(c, eff) ← client_step draw ev (nd_client n);
      Some (nd_spawn (server_jobs (then_server ev eff) n) (nd_with_client c n))
  | JobServer c =>
      s ← nd_server n;
      s ← server_start now c s;
      Some (nd_with_server s n)
  end.

(** What the callers of the client and its own tasks do *)
Definition local_event (ev : client_event) : bool :=
  match ev with
  | ClReceiveMessage _ _ | ClNotifyNewBlocks _ | ClPeerConnected _ | ClPeerDisconnected _ => false
  | _ => true
  end.

(** What the workers of the server do *)
Definition server_event (op : server_op) : bool := match op with SvCall _ _ => false | _ => true end.

Inductive node_event :=
  | NdSwarm (ev : bs_event)
  | NdMessage
  | NdConnected
  | NdDisconnected
  | NdNotify (blocks : list Block)
  | NdWantlist (self_id peer : PeerId)
  | NdJob (now : Z) (i : nat)
  | NdServer (op : server_op)
  | NdClient (ev : client_event).

Definition node_step (ev : node_event) (n : Node) : option Node :=
  match ev with
  | NdSwarm ev => '(b, _) ← bs_step ev (nd_bitswap n); Some (nd_with_bitswap b n)
  | NdMessage => message_worker n
  | NdConnected => connected_worker n
  | NdDisconnected => disconnected_worker n
  | NdNotify blocks => Some (node_notify_new_blocks blocks n)
  | NdWantlist self_id peer => Some (node_wantlist_for_peer self_id peer n)
  | NdJob now i => run_job now i n
  | NdServer op =>
      if server_event op then
        s ← nd_server n;
        s ← server_step op s;
        Some (nd_with_server s n)
      else None
  | NdClient ev =>
      if local_event ev then
        '(c, _) ← client_step draw ev (nd_client n); Some (nd_with_client c n)
      else None
  end.

Fixpoint node_run (evs : list node_event) (n : Node) : option Node :=
  match evs with
  | [] => Some n
  | ev :: evs => n ← node_step ev n; node_run evs n
  end.
End node.
