(* ===== verification/BehaviourFacts.v ===== *)
(** * Facts about the bitswap behaviour

    Client and server are told about the peers in agreement with the states of the
    peers; every dial is answered once or still waits; and the node as a whole, its
    behaviour, client and server together, only lets verified blocks reach a caller. *)

From stdpp Require Import prelude gmap fin_maps strings pretty sorting.
From Stdlib Require Import ZArith Lia.
From S2P Require Import Prelude Cids Message Wantlist PriorityQueue TaskQueue TaskQueueFacts Engine EngineFacts ServerTasks ServerTasksFacts.
From S2P Require Import MessageQueue PeerWants PeerManager ClientTrackers ClientTrackersFacts Managers WantSender Session Client ClientFacts.
From S2P Require Import Network NetworkFacts Behaviour.
Local Open Scope Z_scope.

Section behaviour.
Context `{Multiformats} `{Prost} `{HashOrder}.

Fixpoint bs_run (evs : list bs_event) (b : Bitswap) : option (Bitswap * list output) :=
  match evs with
  | [] => Some (b, [])
  | ev :: evs =>
      '(b, out) ← bs_step ev b;
      '(b, out') ← bs_run evs b;
      Some (b, out ++ out')
  end.

(** Invariants of the behaviour with the outputs so far *)
Lemma bs_run_invariant (I : Bitswap → list output → Prop) evs : ∀ b log b' out,
  (∀ ev b b' log out, ev ∈ evs → bs_step ev b = Some (b', out) → I b log → I b' (log ++ out)) →
  bs_run evs b = Some (b', out) → I b log → I b' (log ++ out).
Proof.
  induction evs as [|ev evs IH]; intros b log b' out Hstep; cbn [bs_run].
  { intros [= <- <-]. by rewrite app_nil_r. }
  destruct (bs_step ev b) as [[b1 o1]|] eqn:E1; [|done]. cbn.
  destruct (bs_run evs b1) as [[b2 o2]|] eqn:E2; [|done]. cbn. intros [= <- <-] HI. rewrite app_assoc.
  eapply IH, Hstep, HI; [|exact E2|by left|exact E1]. intros. eapply Hstep; [by right|done..].
Qed.

(** ** What client and server are told *)

(** The last notification about a peer: [Some true] for a connection. *)
Definition tell (p : PeerId) (o : option bool) (out : output) : option bool :=
  match out with
  | ToldConnected q => if decide (q = p) then Some true else o
  | ToldDisconnected q => if decide (q = p) then Some false else o
  | _ => o
  end.
Definition told (p : PeerId) (log : list output) : option bool := foldl (tell p) None log.

Definition undropped (p : PeerId) (log : list output) : Prop :=
  (DroppedConnected p ∉ log) ∧ (DroppedDisconnected p ∉ log).

(** The notification agrees with the state: a responsive peer has been announced, a
    peer that is not connected has not, or its end has been announced since. *)
Definition agrees (st : option PeerState) (o : option bool) : Prop :=
  match st with
  | Some (Responsive _ _) => o = Some true
  | Some (Connected _) => True
  | _ => o ≠ Some true
  end.

Definition told_right (b : Bitswap) (log : list output) : Prop :=
  ∀ p, undropped p log → agrees (bs_peers b !! p) (told p log).

Lemma told_app p log out : told p (log ++ out) = foldl (tell p) (told p log) out.
Proof. apply foldl_app. Qed.

Lemma undropped_app p log out : (undropped p (log ++ out)) ↔ (undropped p log ∧ undropped p out).
Proof. unfold undropped. rewrite !not_elem_of_app. tauto. Qed.

(** Outputs without notifications *)
Definition no_note (out : output) : Prop :=
  match out with ToldConnected _ | ToldDisconnected _ => False | _ => True end.

Lemma tell_no_note p o out : Forall no_note out → foldl (tell p) o out = o.
Proof. intros Hn. revert o. induction Hn as [|[] out Hx Hn IH]; intros o; cbn; done. Qed.

Lemma told_right_frame b b' log out :
  bs_peers b' = bs_peers b → Forall no_note out → told_right b log → told_right b' (log ++ out).
Proof. intros E Hn HI p [Hu _]%undropped_app. rewrite E, told_app, tell_no_note by done. by apply HI. Qed.

Lemma store_state_peers peer new b p :
  bs_peers (store_state peer new b) !! p =
  if decide (p = peer) then (if decide (new = Disconnected) then None else Some new) else bs_peers b !! p.
Proof.
  unfold store_state. case_decide; cbn; case_decide; subst;
    by rewrite ?lookup_delete_eq, ?lookup_insert_eq, ?lookup_delete_ne, ?lookup_insert_ne by done.
Qed.

(** Everything else is left alone. *)
Definition same_frame (b b' : Bitswap) : Prop :=
  bs_network b' = bs_network b ∧ bs_dials b' = bs_dials b ∧ bs_incoming_messages b' = bs_incoming_messages b.

(** A notification about [peer], or none *)
Inductive note_of (peer : PeerId) : list output → Prop :=
  | note_none : note_of peer []
  | note_connected : note_of peer [ToldConnected peer]
  | note_disconnected : note_of peer [ToldDisconnected peer]
  | note_dropped_connected : note_of peer [DroppedConnected peer]
  | note_dropped_disconnected : note_of peer [DroppedDisconnected peer].

Lemma note_of_other peer out p o : note_of peer out → p ≠ peer → foldl (tell p) o out = o.
Proof. intros [] Hne; cbn; try done; by rewrite decide_False. Qed.

Lemma connected_spec peer b :
  let '(b', out) := bs_peer_connected peer b in
  same_frame b b' ∧ bs_peers b' = bs_peers b ∧ note_of peer out ∧
  ∀ o, undropped peer out → foldl (tell peer) o out = Some true.
Proof.
  unfold bs_peer_connected. destruct (_ <? _)%nat; (split; [by repeat split|]); (split; [done|]); (split; [constructor|]); intros o; cbn.
  - by rewrite decide_True.
  - intros [Hu _]. destruct Hu. by left.
Qed.

Lemma disconnected_spec peer b :
  let '(b', out) := bs_peer_disconnected peer b in
  same_frame b b' ∧ bs_peers b' = bs_peers b ∧ note_of peer out ∧
  ∀ o, undropped peer out → foldl (tell peer) o out = Some false.
Proof.
  unfold bs_peer_disconnected. destruct (_ <? _)%nat; (split; [by repeat split|]); (split; [done|]); (split; [constructor|]); intros o; cbn.
  - by rewrite decide_True.
  - intros [_ Hu]. destruct Hu. by left.
Qed.

(** The frame and the notification of a change of state *)
Record tells (peer : PeerId) (b b' : Bitswap) (out : list output) : Prop := {
  tl_frame : same_frame b b';
  tl_others p : p ≠ peer → bs_peers b' !! p = bs_peers b !! p;
  tl_note : note_of peer out;
  tl_agrees o : undropped peer out → agrees (bs_peers b !! peer) o →
    agrees (bs_peers b' !! peer) (foldl (tell peer) o out)
}.

Lemma tells_connected peer b b0 c p :
  same_frame b b0 → (∀ q, q ≠ peer → bs_peers b0 !! q = bs_peers b !! q) →
  bs_peers b0 !! peer = Some (Responsive c p) →
  tells peer b (bs_peer_connected peer b0).1 (bs_peer_connected peer b0).2.
Proof.
  intros Hf Ho Hp. pose proof (connected_spec peer b0) as Hs. destruct (bs_peer_connected peer b0) as [b' out].
  destruct Hs as ((? & ? & ?) & Epe & Hn & Ht). destruct Hf as (? & ? & ?).
  split; cbn [fst snd]; [by split_and!; congruence| |done|]; rewrite Epe; [done|]. intros o Hu _. rewrite Hp. by apply Ht.
Qed.

Lemma tells_disconnected peer b b0 :
  same_frame b b0 → (∀ q, q ≠ peer → bs_peers b0 !! q = bs_peers b !! q) →
  agrees (bs_peers b0 !! peer) (Some false) →
  tells peer b (bs_peer_disconnected peer b0).1 (bs_peer_disconnected peer b0).2.
Proof.
  intros Hf Ho Hp. pose proof (disconnected_spec peer b0) as Hs. destruct (bs_peer_disconnected peer b0) as [b' out].
  destruct Hs as ((? & ? & ?) & Epe & Hn & Ht). destruct Hf as (? & ? & ?).
  split; cbn [fst snd]; [by split_and!; congruence| |done|]; rewrite Epe; [done|]. intros o Hu _. by rewrite Ht.
Qed.

Lemma tells_silent peer b b' :
  same_frame b b' → (∀ q, q ≠ peer → bs_peers b' !! q = bs_peers b !! q) →
  (∀ o, agrees (bs_peers b !! peer) o → agrees (bs_peers b' !! peer) o) → tells peer b b' [].
Proof. intros. split; [done..|constructor|]. cbn. eauto. Qed.

Lemma store_frame peer new b : same_frame b (store_state peer new b).
Proof. unfold store_state. case_decide; by repeat split. Qed.

Lemma store_others peer new b q : q ≠ peer → bs_peers (store_state peer new b) !! q = bs_peers b !! q.
Proof. intros. by rewrite store_state_peers, decide_False. Qed.

Lemma store_self peer new b :
  bs_peers (store_state peer new b) !! peer = if decide (new = Disconnected) then None else Some new.
Proof. by rewrite store_state_peers, decide_True. Qed.

Lemma same_frame_refl b : same_frame b b.
Proof. by repeat split. Qed.

Lemma tells_nothing peer b : tells peer b b [].
Proof. by apply tells_silent; [apply same_frame_refl|..]. Qed.

Lemma set_peer_state_spec peer new b :
  tells peer b (set_peer_state peer new b).1 (set_peer_state peer new b).2.
Proof.
  pose proof (store_frame peer new b) as Hf. pose proof (store_others peer new b) as Ho.
  pose proof (store_self peer new b) as Hs.
  unfold set_peer_state. destruct (bs_peers b !! peer) as [old|] eqn:Eo.
  - destruct (decide (old = new)) as [|Hne]; [apply tells_nothing|].
    destruct new as [c|c p| | |t]; rewrite ?decide_False, ?decide_True in Hs by done; destruct old as [c'|c' p'| | |t']; cbn [is_connected fst snd];
      first [ apply tells_nothing | by eapply tells_connected
            | apply tells_disconnected; [done..|by rewrite Hs]
            | apply tells_silent; [done..|rewrite Hs, Eo; by cbn] ].
  - assert (same_frame b (bs_with_peers (<[peer := new]> (bs_peers b)) b)) as Hf' by (by repeat split).
    assert (∀ q, q ≠ peer → bs_peers (bs_with_peers (<[peer := new]> (bs_peers b)) b) !! q = bs_peers b !! q) as Ho'
      by (intros; by apply lookup_insert_ne).
    assert (bs_peers (bs_with_peers (<[peer := new]> (bs_peers b)) b) !! peer = Some new) as Hs' by apply lookup_insert_eq.
    destruct new as [c|c p| | |t]; rewrite ?decide_False, ?decide_True by done; cbn [fst snd].
    + apply tells_silent; [done..|by rewrite Hs', Eo].
    + by eapply tells_connected.
    + apply tells_disconnected; [done..|by rewrite Hs'].
    + by apply tells_disconnected; [apply same_frame_refl|..|rewrite Eo].
    + apply tells_disconnected; [done..|by rewrite Hs'].
Qed.

Lemma told_right_state peer new b log :
  told_right b log → told_right (set_peer_state peer new b).1 (log ++ (set_peer_state peer new b).2).
Proof.
  intros HI p [Hu Hu']%undropped_app. destruct (set_peer_state_spec peer new b) as [_ Ho Hn Ha]. rewrite told_app.
  destruct (decide (p = peer)) as [->|Hne]; [by apply Ha; [|apply HI]|].
  rewrite (note_of_other peer) by done. rewrite Ho by done. by apply HI.
Qed.

Lemma answer_dials_no_note peer r b : Forall no_note (answer_dials peer r b).2.
Proof.
  unfold answer_dials. destruct (bs_dials b !! peer) as [ds|]; cbn [snd]; [|constructor].
  apply Forall_fmap, list.Forall_forall. done.
Qed.
Lemma answer_dials_frame peer r b :
  let b' := (answer_dials peer r b).1 in
  bs_peers b' = bs_peers b ∧ bs_network b' = bs_network b ∧ bs_incoming_messages b' = bs_incoming_messages b.
Proof. unfold answer_dials. by destruct (bs_dials b !! peer). Qed.

Lemma told_right_then b1 b2 log o1 o2 :
  told_right b1 (log ++ o1) → bs_peers b2 = bs_peers b1 → Forall no_note o2 → told_right b2 (log ++ (o1 ++ o2)).
Proof. rewrite app_assoc. intros HI E Hn. by eapply told_right_frame. Qed.

Lemma handle_out_event_frame now ev b :
  let '(_, out, b') := handle_out_event now ev b in
  Forall no_note out ∧ bs_peers b' = bs_peers b ∧ bs_network b' = bs_network b ∧
  bs_incoming_messages b' = bs_incoming_messages b.
Proof.
  destruct ev; cbn [handle_out_event]; repeat case_match; simplify_eq; split_and!; try done; repeat constructor.
Qed.

Lemma poll_loop_frame n now b :
  let '(_, out, b') := poll_loop n now b in
  Forall no_note out ∧ bs_peers b' = bs_peers b ∧ bs_incoming_messages b' = bs_incoming_messages b.
Proof.
  revert b. induction n as [|n IH]; intros b; cbn [poll_loop]; [by repeat constructor|].
  destruct (bs_network b) as [|ev rest]; [by repeat constructor|].
  pose proof (handle_out_event_frame now ev (bs_with_network rest b)) as Hh.
  destruct (handle_out_event _ _ _) as [[[a|] out] b1]; destruct Hh as (Ho & Hp & _ & Hi); [done|]. cbn in Hp, Hi.
  specialize (IH b1). destruct (poll_loop n now b1) as [[a o2] b2]. destruct IH as (? & ? & ?).
  split_and!; [by apply Forall_app|congruence..].
Qed.

Lemma receive_message_frame peer m b :
  Forall no_note (bs_receive_message peer m b).2 ∧ bs_peers (bs_receive_message peer m b).1 = bs_peers b.
Proof. unfold bs_receive_message. case_match; split; try done; repeat constructor. Qed.

(** A change of state, then the answers to the waiting dials *)
Lemma state_then_answers p new r b log b' out :
  (let '(b, out) := set_peer_state p new b in
   let '(b, out') := answer_dials p r b in (b, out ++ out')) = (b', out) →
  told_right b log → told_right b' (log ++ out).
Proof.
  intros E HI. pose proof (told_right_state p new b log HI) as Ht. destruct (set_peer_state p new b) as [b1 o1].
  pose proof (answer_dials_no_note p r b1) as Hn. destruct (answer_dials_frame p r b1) as (Hp & _).
  destruct (answer_dials p r b1) as [b2 o2]. injection E as <- <-. by eapply told_right_then.
Qed.

Lemma told_right_event p c ev b log b' out :
  inject_event p c ev b = (b', out) → told_right b log → told_right b' (log ++ out).
Proof.
  destruct ev as [m pr|pr| |e]; cbn [inject_event]; [|by apply state_then_answers..|].
  - intros E HI. pose proof (told_right_state p (Responsive c pr) b log HI) as Ht.
    destruct (set_peer_state _ _ _) as [b1 o1]. destruct (receive_message_frame p (verify_blocks m) b1) as [Hn Hp].
    destruct (bs_receive_message _ _ _) as [b2 o2]. injection E as <- <-. by eapply told_right_then.
  - intros [= <- <-]. by rewrite app_nil_r.
Qed.

Lemma told_right_step ev b b' log out :
  bs_step ev b = Some (b', out) → told_right b log → told_right b' (log ++ out).
Proof.
  intros E HI. assert (∀ b1, bs_peers b1 = bs_peers b → told_right b1 log) as Hsame.
  { intros b1 E1. rewrite <-(app_nil_r log). eapply told_right_frame, HI; [done|constructor]. }
  destruct ev as [ev|p c|p r|now [p|] lim e|p c ev|p ps|now]; cbn [bs_step] in E.
  - case_match; [|done]. injection E as <- <-. rewrite app_nil_r. by apply Hsame.
  - injection E as E. revert E. unfold inject_connection_established.
    pose proof (told_right_state p (Connected c) b log HI) as Ht. destruct (set_peer_state _ _ _) as [b1 o1].
    by intros [= <- <-].
  - injection E as E. revert E. unfold inject_connection_closed. case_match.
    + intros E. pose proof (told_right_state p Disconnected (bs_with_pause false b) log (Hsame _ eq_refl)) as Ht.
      by rewrite E in Ht.
    + intros [= <- <-]. rewrite app_nil_r. by apply Hsame.
  - injection E as E. revert E. unfold inject_dial_failure. destruct lim; intros E; (eapply state_then_answers; [exact E|]);
      [by apply Hsame|done].
  - injection E as <- <-. by rewrite app_nil_r.
  - injection E as E. by eapply told_right_event.
  - injection E as E. revert E. unfold on_identify.
    repeat case_match; intros E; try (injection E as <- <-; by rewrite app_nil_r).
    match type of E with set_peer_state ?p ?st b = _ => pose proof (told_right_state p st b log HI) as Ht end.
    by rewrite E in Ht.
  - revert E. unfold bitswap_poll. pose proof (poll_loop_frame 50 now b) as Hp. destruct (poll_loop 50 now b) as [[a o] b1].
    destruct Hp as (Hn & Hp & _). intros [= <- <-]. by eapply told_right_frame.
Qed.

(** C23: client and server are told the truth.  Whatever happens, as long as no
    notification about a peer had to be dropped at a full channel: a peer that is
    responsive was last announced as connected, and a peer that is not connected, or is
    not known, was never announced or last announced as gone. *)
Theorem peers_told_right config idle evs b log p :
  bs_run evs (Bitswap_new config idle) = Some (b, log) →
  DroppedConnected p ∉ log → DroppedDisconnected p ∉ log →
  match bs_peers b !! p with
  | Some (Responsive _ _) => told p log = Some true
  | Some (Connected _) => True
  | _ => told p log ≠ Some true
  end.
Proof.
  intros Hr Hc Hd. apply (bs_run_invariant told_right _ _ [] _ _) in Hr; [by apply Hr| |].
  - intros. by eapply told_right_step.
  - intros q _. cbn. by rewrite lookup_empty.
Qed.

(** ** Dials *)

Definition dial_tx (ev : OutEvent) : option Tx :=
  match ev with ODial _ tx _ => Some tx | _ => None end.
Definition requested_dials (evs : list bs_event) : list Tx :=
  omap (λ ev, match ev with BsRequest ev => dial_tx ev | _ => None end) evs.
Definition answered_dials (log : list output) : list Tx :=
  omap (λ o, match o with AnswerDial tx _ => Some tx | _ => None end) log.
Definition queued_dials (b : Bitswap) : list Tx := omap dial_tx (bs_network b).
Definition waiting (m : gmap PeerId (list (Z * Tx))) : list Tx := (mjoin (map_to_list m).*2).*2.

Lemma waiting_delete m p ds : m !! p = Some ds → waiting m ≡ₚ ds.*2 ++ waiting (delete p m).
Proof.
  intros Hp. unfold waiting. rewrite <-(map_to_list_delete m p ds Hp). cbn. by rewrite fmap_app.
Qed.

Lemma waiting_insert m p ds : m !! p = None → waiting (<[p := ds]> m) ≡ₚ ds.*2 ++ waiting m.
Proof. intros Hp. unfold waiting. rewrite map_to_list_insert by done. cbn. by rewrite fmap_app. Qed.

Lemma waiting_push p d b : waiting (bs_dials (push_dial p d b)) ≡ₚ d.2 :: waiting (bs_dials b).
Proof.
  unfold push_dial. cbn. destruct (bs_dials b !! p) as [ds|] eqn:E; cbn.
  - rewrite <-insert_delete_eq, waiting_insert by apply lookup_delete_eq.
    rewrite (waiting_delete _ _ _ E), fmap_app. cbn. solve_Permutation.
  - by rewrite waiting_insert.
Qed.

Lemma answered_app l l' : answered_dials (l ++ l') = answered_dials l ++ answered_dials l'.
Proof. apply omap_app. Qed.

(** The dials among the requests of [n] queued events *)
Definition dials_split (b b' : Bitswap) (out : list output) : Prop :=
  queued_dials b ++ waiting (bs_dials b) ≡ₚ answered_dials out ++ queued_dials b' ++ waiting (bs_dials b').

Lemma dials_split_trans b1 b2 b3 o1 o2 :
  dials_split b1 b2 o1 → dials_split b2 b3 o2 → dials_split b1 b3 (o1 ++ o2).
Proof. unfold dials_split. intros -> ->. by rewrite answered_app, app_assoc. Qed.

Lemma dials_split_frame b b' out :
  bs_network b' = bs_network b → bs_dials b' = bs_dials b → answered_dials out = [] → dials_split b b' out.
Proof. unfold dials_split, queued_dials. by intros -> -> ->. Qed.

Lemma note_of_answered p out : note_of p out → answered_dials out = [].
Proof. by intros []. Qed.

Lemma dials_split_state p new b : dials_split b (set_peer_state p new b).1 (set_peer_state p new b).2.
Proof.
  destruct (set_peer_state_spec p new b) as [(? & ? & ?) _ Hn _].
  apply dials_split_frame; [done..|by eapply note_of_answered].
Qed.

Lemma answered_reverse ds r :
  answered_dials ((λ d : Z * Tx, AnswerDial d.2 r) <$> reverse ds) ≡ₚ ds.*2.
Proof.
  assert (∀ l, answered_dials ((λ d : Z * Tx, AnswerDial d.2 r) <$> l) = l.*2) as ->.
  { induction l as [|d l IH]; [done|]. unfold answered_dials in *. cbn. by rewrite IH. }
  by rewrite reverse_Permutation.
Qed.

Lemma dials_split_answers p r b : dials_split b (answer_dials p r b).1 (answer_dials p r b).2.
Proof.
  unfold answer_dials. destruct (bs_dials b !! p) as [ds|] eqn:E; [|by apply dials_split_frame].
  unfold dials_split, queued_dials. cbn [fst snd bs_with_dials bs_network bs_dials].
  rewrite answered_reverse, (waiting_delete _ _ _ E). solve_Permutation.
Qed.

#[local] Arguments push_dial : simpl never.

Lemma dials_split_out now ev rest b :
  bs_network b = ev :: rest →
  let '(_, out, b') := handle_out_event now ev (bs_with_network rest b) in dials_split b b' out.
Proof.
  intros En. unfold dials_split, queued_dials. rewrite En. destruct ev; cbn; repeat case_match; simplify_eq; cbn; try done.
  all: rewrite waiting_push; cbn; solve_Permutation.
Qed.

Lemma dials_split_poll n now b : let '(_, out, b') := poll_loop n now b in dials_split b b' out.
Proof.
  revert b. induction n as [|n IH]; intros b; cbn [poll_loop]; [by apply dials_split_frame|].
  destruct (bs_network b) as [|ev rest] eqn:En; [by apply dials_split_frame|].
  pose proof (dials_split_out now ev rest b En) as Hh.
  destruct (handle_out_event _ _ _) as [[[a|] out] b1]; [done|].
  specialize (IH b1). destruct (poll_loop n now b1) as [[a o2] b2]. by eapply dials_split_trans.
Qed.

(** A change of state, then the answers to the waiting dials *)
Lemma dials_split_both p new r b0 b b' out :
  bs_network b0 = bs_network b → bs_dials b0 = bs_dials b →
  (let '(b, out) := set_peer_state p new b0 in
   let '(b, out') := answer_dials p r b in (b, out ++ out')) = (b', out) → dials_split b b' out.
Proof.
  intros En Ed. pose proof (dials_split_state p new b0) as Hs. destruct (set_peer_state p new b0) as [b1 o1].
  pose proof (dials_split_answers p r b1) as Ha. destruct (answer_dials p r b1) as [b2 o2]. intros [= <- <-].
  unfold dials_split, queued_dials. rewrite <-En, <-Ed. by eapply dials_split_trans.
Qed.

(** What a step adds to the dials *)
Definition new_dials (ev : bs_event) : list Tx := requested_dials [ev].

Lemma dials_step ev b b' out :
  bs_step ev b = Some (b', out) →
  new_dials ev ++ queued_dials b ++ waiting (bs_dials b) ≡ₚ
  answered_dials out ++ queued_dials b' ++ waiting (bs_dials b').
Proof.
  destruct ev as [ev|p c|p r|now [p|] lim e|p c ev|p ps|now]; cbn [bs_step]; try (intros E%(inj Some); change (dials_split b b' out)).
  - case_match; [|done]. intros [= <- <-]. unfold queued_dials. cbn [bs_with_network bs_network bs_dials].
    rewrite omap_app. unfold new_dials, requested_dials. cbn. destruct (dial_tx ev); cbn; solve_Permutation.
  - revert E. unfold inject_connection_established. pose proof (dials_split_state p (Connected c) b) as Ht.
    destruct (set_peer_state _ _ _) as [b1 o1]. by intros [= <- <-].
  - revert E. unfold inject_connection_closed. case_match.
    + intros E. pose proof (dials_split_state p Disconnected (bs_with_pause false b)) as Ht. by rewrite E in Ht.
    + intros [= <- <-]. by apply dials_split_frame.
  - revert E. unfold inject_dial_failure.
    destruct lim; by apply dials_split_both.
  - injection E as <- <-. by apply dials_split_frame.
  - revert E. destruct ev as [m pr|pr| |e]; cbn [inject_event].
    + pose proof (dials_split_state p (Responsive c pr) b) as Hs. destruct (set_peer_state _ _ _) as [b1 o1].
      unfold bs_receive_message. destruct (_ <? _)%nat; intros [= <- <-]; (eapply dials_split_trans; [exact Hs|]); by apply dials_split_frame.
    + by apply dials_split_both.
    + by apply dials_split_both.
    + intros [= <- <-]. by apply dials_split_frame.
  - revert E. unfold on_identify. repeat case_match; intros E; try (injection E as <- <-; by apply dials_split_frame).
    match type of E with set_peer_state ?p ?st b = _ => pose proof (dials_split_state p st b) as Ht end. by rewrite E in Ht.
  - unfold bitswap_poll. pose proof (dials_split_poll 50 now b) as Hp. destruct (poll_loop 50 now b) as [[a o] b1].
    by intros [= <- <-].
Qed.

Lemma dials_run evs : ∀ b b' log,
  bs_run evs b = Some (b', log) →
  requested_dials evs ++ queued_dials b ++ waiting (bs_dials b) ≡ₚ
  answered_dials log ++ queued_dials b' ++ waiting (bs_dials b').
Proof.
  induction evs as [|ev evs IH]; intros b b' log; cbn [bs_run]; [by intros [= <- <-]|].
  destruct (bs_step ev b) as [[b1 o1]|] eqn:E1; [|done]. cbn [mbind option_bind].
  destruct (bs_run evs b1) as [[b2 o2]|] eqn:E2; [|done]. cbn [mbind option_bind]. intros [= <- <-].
  apply dials_step in E1. apply IH in E2. rewrite answered_app.
  assert (requested_dials (ev :: evs) = new_dials ev ++ requested_dials evs) as ->.
  { apply (omap_app _ [ev] evs). }
  rewrite (Permutation_app_comm (new_dials ev)), <-app_assoc, E1.
  transitivity (answered_dials o1 ++ (requested_dials evs ++ queued_dials b1 ++ waiting (bs_dials b1))).
  { solve_Permutation. }
  rewrite E2. solve_Permutation.
Qed.

Lemma failed_dial_clears now p lim e b :
  bs_dials (inject_dial_failure now (Some p) lim e b).1 !! p = None.
Proof.
  unfold inject_dial_failure. destruct (if lim then _ else _) as [b1 o1]. unfold answer_dials.
  destruct (bs_dials b1 !! p) eqn:E; cbn; [apply lookup_delete_eq|done].
Qed.

(** C30: every dial has one fate.  At every moment, each dial that was requested is either
    answered, or in the queue of the network, or waits for the outcome of the
    connection attempt; none is answered twice, and after a failed attempt nobody waits
    for that peer any more. *)
Theorem dials_accounted config idle evs b log :
  bs_run evs (Bitswap_new config idle) = Some (b, log) →
  requested_dials evs ≡ₚ answered_dials log ++ queued_dials b ++ waiting (bs_dials b) ∧
  (NoDup (requested_dials evs) → NoDup (answered_dials log)) ∧
  ∀ now p lim e, bs_dials (inject_dial_failure now (Some p) lim e b).1 !! p = None.
Proof.
  intros Hr%dials_run. cbn in Hr. rewrite app_nil_r in Hr. split; [done|]. split.
  - rewrite Hr. by intros [? _]%list.NoDup_app.
  - intros. apply failed_dial_clears.
Qed.
End behaviour.

(** ** The node *)

Section node.
Context `{ServerLaws} `{HashOrder} `{PriorityQueue}.
Variable draw : nat → Z → Z → bool.

Definition block_ok (b : Block) : Prop := verify_hash (block_cid b) (block_data b) = Some true.
Definition message_ok (m : BitswapMessage) : Prop := message_wf m ∧ Forall block_ok (message_blocks m).
Definition getter_ok (g : Getter) : Prop := Forall block_ok (gt_queue g ++ gt_found g).
Definition job_ok (j : node_job) : Prop :=
  match j with
  | JobClient (ClReceiveMessage _ m) => message_ok m
  | JobClient (ClNotifyNewBlocks blocks) => Forall block_ok blocks
  | JobServer (CallMessage _ m) => message_wf m
  | _ => True
  end.

(** What the environment owes the node: messages come out of the decoder, which makes
    them well-formed, the blocks announced by the node itself are genuine, and the work
    under way at the server stays below 2^64. *)
Definition swarm_ok (ev : bs_event) : Prop :=
  match ev with BsHandler _ _ (EvMessage m _) => message_wf m | _ => True end.
Definition event_ok (n : Node) (ev : node_event) : Prop :=
  match ev with
  | NdSwarm ev => swarm_ok ev
  | NdNotify blocks => Forall block_ok blocks
  | NdServer op => ∀ s, nd_server n = Some s → op_ok s op
  | _ => True
  end.

(** The states of the node: its workers, callers and handlers in any order *)
Definition node_trans (n n' : Node) : Prop := ∃ ev, event_ok n ev ∧ node_step draw ev n = Some n'.

Lemma verified_message m : message_wf m → message_ok (verify_blocks m).
Proof.
  intros Hm. split; [by apply verify_blocks_wf|]. apply list.Forall_forall. intros b [k Hk]%elem_of_hm_values.
  cbn in Hk. by apply map_lookup_filter_Some in Hk as [_ ?].
Qed.

(** *** Messages on their way to the workers *)

Definition incoming_ok (b : Bitswap) : Prop := Forall (message_ok ∘ snd) (bs_incoming_messages b).

Lemma state_incoming p new b : bs_incoming_messages (set_peer_state p new b).1 = bs_incoming_messages b.
Proof. by destruct (set_peer_state_spec p new b) as [(_ & _ & ?) _ _ _]. Qed.

Lemma incoming_both p new r b b' out :
  (let '(b, out) := set_peer_state p new b in
   let '(b, out') := answer_dials p r b in (b, out ++ out')) = (b', out) →
  bs_incoming_messages b' = bs_incoming_messages b.
Proof.
  pose proof (state_incoming p new b) as Es. destruct (set_peer_state p new b) as [b1 o1].
  destruct (answer_dials_frame p r b1) as (_ & _ & Ea). destruct (answer_dials p r b1) as [b2 o2].
  intros [= <- _]. cbn in *. congruence.
Qed.

Lemma incoming_step ev b b' out :
  swarm_ok ev → bs_step ev b = Some (b', out) → incoming_ok b → incoming_ok b'.
Proof.
  unfold incoming_ok. intros Hev E Hb.
  destruct ev as [ev|p c|p r|now [p|] lim e|p c ev|p ps|now]; cbn [bs_step] in E; try apply (inj Some) in E.
  - case_match; [|done]. by injection E as <- _.
  - revert E. unfold inject_connection_established. pose proof (state_incoming p (Connected c) b) as Es.
    destruct (set_peer_state _ _ _) as [b1 o1]. intros [= <- _]. cbn in *. by rewrite Es.
  - revert E. unfold inject_connection_closed. case_match; [|by intros [= <- _]].
    intros E. pose proof (state_incoming p Disconnected (bs_with_pause false b)) as Es. rewrite E in Es. cbn in Es. by rewrite Es.
  - revert E. unfold inject_dial_failure. destruct lim; intros ->%incoming_both; done.
  - by injection E as <- _.
  - revert E. destruct ev as [m pr|pr| |e]; cbn [inject_event]; [|by intros ->%incoming_both..|by intros [= <- _]].
    pose proof (state_incoming p (Responsive c pr) b) as Es. destruct (set_peer_state _ _ _) as [b1 o1]. cbn in Es.
    unfold bs_receive_message. destruct (_ <? _)%nat; intros [= <- _]; cbn; rewrite Es; [|done].
    apply Forall_app. split; [done|]. constructor; [by apply verified_message|constructor].
  - revert E. unfold on_identify. repeat case_match; intros E; try (by injection E as <- _).
    match type of E with set_peer_state ?p ?st b = _ => pose proof (state_incoming p st b) as Es end.
    rewrite E in Es. cbn in Es. by rewrite Es.
  - revert E. unfold bitswap_poll. pose proof (poll_loop_frame 50 now b) as Hp.
    destruct (poll_loop 50 now b) as [[a o] b1]. destruct Hp as (_ & _ & Hp). intros [= <- _]. by rewrite Hp.
Qed.

(** *** Callers *)

Lemma broadcast_getters bs c :
  Forall block_ok bs → Forall getter_ok (cl_getters c) →
  Forall getter_ok (cl_getters (foldl (λ c b, client_broadcast b c) c bs)).
Proof.
  intros Hbs. revert c. induction Hbs as [|b bs Hb Hbs IH]; intros c Hc; [done|]. cbn. apply IH. cbn.
  apply Forall_fmap. eapply Forall_impl; [exact Hc|]. intros g Hg. unfold getter_notify, getter_ok. cbn.
  destruct (gt_running g); [|done]. cbn. apply Forall_app in Hg as [??]. rewrite !Forall_app. by repeat constructor.
Qed.

Lemma getter_step_ok g g' : getter_step g = Some g' → getter_ok g → getter_ok g'.
Proof.
  unfold getter_step, getter_ok. destruct (gt_queue g) as [|b rest]; [done|]. case_match; [|done]. intros [= <-]. cbn.
  rewrite Forall_cons, !Forall_app. intros (Hb & Hr & Hf). split; [done|]. case_match; [|done].
  apply Forall_app. by repeat constructor.
Qed.

Lemma getters_step ev c c' eff :
  local_event ev = true → client_step draw ev c = Some (c', eff) →
  Forall getter_ok (cl_getters c) → Forall getter_ok (cl_getters c').
Proof.
  intros Hl E Hc. destruct ev as [|id|id lr|id ks|id k p|now id ev|i|i|p m|bs|p|p|p|p ks]; cbn [client_step] in E; try done.
  - revert E. unfold new_session. destruct (get_next_session_id c) as [[id c1]|] eqn:Ei; [|done]. cbn. intros [= <- _].
    cbn. unfold get_next_session_id in Ei. destruct (next_session_id _ _ _) as [[x y]|]; [|done]. cbn in Ei. by injection Ei as _ <-.
  - injection E as <- _. unfold get_or_create_session. by case_match.
  - injection E as E. revert E. unfold stop_session, remove_session. repeat case_match; intros [= <- _]; done.
  - destruct (cl_sessions c !! id) as [se|]; [|done]. cbn in E. unfold session_get_blocks in E. case_match; [done|].
    injection E as <- _. cbn. apply Forall_app. split; [done|]. constructor; [|constructor]. constructor.
  - destruct (cl_sessions c !! id) as [se|]; [|done]. by injection E as <- _.
  - destruct (cl_sessions c !! id) as [se|]; [|done]. cbn in E. destruct (session_step _ _ _ _ _) as [[[s' mg] ef]|]; [|done].
    by injection E as <- _.
  - destruct (cl_getters c !! i) as [g|] eqn:Eg; [|done]. destruct (getter_step g) as [g'|] eqn:Es; [|done].
    injection E as <- _. cbn. apply Forall_insert; [done|]. eapply getter_step_ok; [done|]. by eapply Forall_lookup_1.
  - destruct (cl_getters c !! i) as [g|] eqn:Eg; [|done]. injection E as <- _. unfold close_getter, getter_close.
    assert (getter_ok g) as Hg by (by eapply Forall_lookup_1).
    repeat case_match; simplify_eq; cbn; by apply Forall_insert.
  - by injection E as <- _.
  - by injection E as <- _.
Qed.

Lemma receive_getters peer m c :
  Forall block_ok (message_blocks m) → Forall getter_ok (cl_getters c) →
  Forall getter_ok (cl_getters (client_receive_message peer m c).1).
Proof.
  intros Hm Hc. unfold client_receive_message. case_match; [|done]. unfold receive_blocks_from.
  pose proof (λ b, split_wanted_spec (message_blocks m) (mg_sim (cl_managers c)) b) as Hs.
  destruct (split_wanted_unwanted _ _) as [w nw]. cbn [fst snd] in *. apply broadcast_getters; [|done].
  apply list.Forall_forall. intros b [Hb _]%Hs. by eapply list.Forall_forall in Hm.
Qed.

(** *** Jobs *)

(** The server of a node keeps the invariant of its configuration. *)
Definition server_inv (srv : option EngineConfig) (o : option Server) : Prop :=
  match srv, o with
  | Some config, Some s => server_ok (ec_filter config) s
  | None, None => True
  | _, _ => False
  end.

Record node_ok (srv : option EngineConfig) (n : Node) : Prop := {
  no_incoming : incoming_ok (nd_bitswap n);
  no_client : cl_ok (nd_client n);
  no_getters : Forall getter_ok (cl_getters (nd_client n));
  no_server : server_inv srv (nd_server n);
  no_jobs : Forall job_ok (nd_jobs n)
}.

Lemma node_ok_spawn srv n l : node_ok srv n → Forall job_ok l → node_ok srv (nd_spawn l n).
Proof. intros [? ? ? ? ?] Hl. split; cbn; try done. by apply Forall_app. Qed.

Lemma node_ok_client srv n c :
  node_ok srv n → cl_ok c → Forall getter_ok (cl_getters c) → node_ok srv (nd_with_client c n).
Proof. intros [? ? ? ? ?] Hc Hg. by split. Qed.

Lemma node_ok_server srv n s s' :
  node_ok srv n → nd_server n = Some s → (∀ f, server_ok f s → server_ok f s') → node_ok srv (nd_with_server s' n).
Proof. intros [? ? ? Hs ?] E Hf. rewrite E in Hs. split; cbn; try done. destruct srv; [|done]. by apply Hf. Qed.

Lemma server_jobs_ok n l : Forall (job_ok ∘ JobServer) l → Forall job_ok (server_jobs l n).
Proof. intros Hl. unfold server_jobs. case_match; [|constructor]. by apply Forall_fmap. Qed.

(** A worker that takes an item from its channel *)
Lemma worker_ok srv n b l :
  node_ok srv n → incoming_ok b → Forall job_ok l → node_ok srv (nd_with_bitswap b (nd_spawn l n)).
Proof. intros Hn Hb Hl. destruct (node_ok_spawn srv n l Hn Hl) as [? ? ? ? ?]. by split. Qed.

Lemma then_server_ok ev eff : Forall (job_ok ∘ JobServer) (then_server ev eff).
Proof.
  apply Forall_app. split; [|by destruct ev; repeat constructor].
  apply list.Forall_forall. intros c ([pe|from bs] & _ & Hc)%list_elem_of_omap; [done|]. by injection Hc as <-.
Qed.

(** The handlers of the client *)
Lemma job_getters ev c c' eff :
  job_ok (JobClient ev) → client_step draw ev c = Some (c', eff) →
  Forall getter_ok (cl_getters c) → Forall getter_ok (cl_getters c').
Proof.
  intros Hj E Hg. destruct (local_event ev) eqn:El; [by eapply getters_step|].
  apply (f_equal (λ o, default [] ((λ r, cl_getters r.1) <$> o))) in E. cbn [option_fmap fmap option_map default fst] in E.
  destruct ev as [|id|id lr|id ks|id k p|now id ev|i|i|p m|bs|p|p|p|p ks]; try done; cbn in E; rewrite <-E; [|by apply broadcast_getters|done..].
  apply receive_getters; [apply Hj|done].
Qed.

Lemma run_job_ok srv now i n n' : run_job draw now i n = Some n' → node_ok srv n → node_ok srv n'.
Proof.
  unfold run_job. destruct (nd_jobs n !! i) as [j|] eqn:Ej; [|done]. cbn [mbind option_bind]. set (n1 := nd_with_jobs _ n).
  intros E Hn. pose proof (Forall_lookup_1 _ _ _ _ (no_jobs _ _ Hn) Ej) as Hj.
  assert (node_ok srv n1) as Hn1.
  { destruct Hn as [? ? ? ? Hjobs]. split; cbn; try done. apply Forall_app. split; [by apply Forall_take|by apply Forall_drop]. }
  destruct j as [ev|call].
  - destruct (client_step draw ev (nd_client n1)) as [[c eff]|] eqn:Ec; [|done]. injection E as <-. apply node_ok_spawn.
    + apply node_ok_client; [done|by eapply client_step_ok, Ec; apply Hn1|]. by eapply job_getters, Hn1.
    + apply server_jobs_ok, then_server_ok.
  - destruct (nd_server n1) as [s|] eqn:Es; [|done]. cbn [mbind option_bind] in E.
    destruct (server_start now call s) as [s'|] eqn:Ec; [|done]. injection E as <-. eapply node_ok_server; [done|done|].
    intros f Hs. eapply (server_step_ok f (SvCall now call)); [|exact Ec|done]. by destruct call.
Qed.

Lemma node_step_ok srv ev n n' : event_ok n ev → node_step draw ev n = Some n' → node_ok srv n → node_ok srv n'.
Proof.
  intros Hev E Hn. pose proof Hn as [Hi _ _ _ _]. destruct ev as [ev| | | |bs|self_id p|now i|op|ev]; cbn [node_step] in E.
  - destruct (bs_step ev (nd_bitswap n)) as [[b out]|] eqn:Eb; [|done]. injection E as <-.
    destruct Hn. split; cbn; [by eapply incoming_step|done..].
  - revert E. unfold message_worker. unfold incoming_ok in Hi. destruct (bs_incoming_messages (nd_bitswap n)) as [|[peer m] rest] eqn:Ei; [done|].
    case_match; [done|]. intros [= <-]. inversion_clear Hi as [|? ? Hm Hr]. apply worker_ok; [done|done|].
    constructor; [exact Hm|]. apply server_jobs_ok. repeat constructor; apply Hm.
  - revert E. unfold connected_worker. repeat case_match; [done..|]. intros [= <-]. apply worker_ok; [done|done|].
    constructor; [done|]. apply server_jobs_ok. by repeat constructor.
  - revert E. unfold disconnected_worker. repeat case_match; [done..|]. intros [= <-]. apply worker_ok; [done|done|].
    constructor; [done|]. apply server_jobs_ok. by repeat constructor.
  - injection E as <-. apply node_ok_spawn; [done|]. by constructor.
  - injection E as <-. unfold node_wantlist_for_peer. case_decide; [done|]. apply node_ok_spawn; [done|]. apply server_jobs_ok. by repeat constructor.
  - by eapply run_job_ok.
  - case_match; [|done]. destruct (nd_server n) as [s|] eqn:Es; [|done]. cbn [mbind option_bind] in E.
    destruct (server_step op s) as [s'|] eqn:Eo; [|done]. injection E as <-. eapply node_ok_server; [done|done|].
    intros f Hs. eapply server_step_ok; [|exact Eo|done]. by apply Hev.
  - case_match eqn:El; [|done]. destruct (client_step draw ev (nd_client n)) as [[c eff]|] eqn:Ec; [|done].
    injection E as <-. apply node_ok_client; [done|by eapply client_step_ok, Ec; apply Hn|]. by eapply getters_step, Hn.
Qed.

Lemma node_run_trans evs n n' :
  (∀ n, Forall (event_ok n) evs) → node_run draw evs n = Some n' → rtc node_trans n n'.
Proof.
  revert n. induction evs as [|ev evs IH]; intros n Hev; cbn [node_run]; [intros [= <-]; apply rtc_refl|].
  destruct (node_step draw ev n) as [n1|] eqn:E; [|done]. cbn. intros Hr. eapply rtc_l; [|apply IH; [|exact Hr]].
  - exists ev. split; [|done]. by eapply Forall_inv.
  - intros n2. by eapply Forall_inv_tail.
Qed.

(** C6: the node as a whole is sound, whatever peers send, whoever connects, whatever the
    callers ask for, and in whatever order the workers, the handlers of the client (each one
    step) and the locked regions of the handlers of the server run.  It needs that messages
    come well-formed out of the decoder, that the blocks the node announces itself are
    genuine, and that the work under way stays below 2^64.  Every block that is handed to a
    caller, or waits to be, then matches its CID; the client keeps its invariants; the
    ledgers of the server are filed under their partners and hold only requests that the
    configured filter allows, also those that a disconnection has taken out of the map; and
    its queue is consistent and reports blocks only to peers that the filter allows them. *)
Theorem node_sound config idle srv n :
  rtc node_trans (Node_new config idle srv) n →
  (∀ g b, g ∈ cl_getters (nd_client n) → b ∈ gt_queue g ++ gt_found g →
     verify_hash (block_cid b) (block_data b) = Some true) ∧
  cl_ok (nd_client n) ∧
  (∀ s, nd_server n = Some s →
     ∃ ec, srv = Some ec ∧ eng_filter (sv_engine s) = ec_filter ec ∧ engine_wf (sv_engine s) ∧
       ∀ l, l ∈ sv_detached s → ledger_ok (ec_filter ec) (ledger_partner l) l).
Proof.
  intros Hr. assert (node_ok srv (Node_new config idle srv)) as Hnew.
  { split; cbn; [constructor|apply Client_new_ok|constructor| |constructor]. destruct srv; cbn; [apply Server_new_ok|done]. }
  assert (node_ok srv n) as [_ Hc Hg Hs _].
  { revert Hnew. induction Hr as [|n1 n2 n3 (ev & Hev & Hs) _ IH]; [done|]. intros Hn. by eapply IH, node_step_ok. }
  split_and!; [|done|].
  - intros g b Hgin Hb. eapply list.Forall_forall in Hg; [|done]. by eapply list.Forall_forall in Hg.
  - intros s Es. rewrite Es in Hs. destruct srv as [ec|]; [|done]. exists ec. destruct Hs as [? ? Hd _]. split_and!; [done..|].
    intros l Hl. by eapply list.Forall_forall in Hd.
Qed.
End node.

(** ** Witnesses *)

Module BehaviourToy.
Import Toy ScanQueue MessageWitness EngineWitness NetworkToy.

Definition p1 : @PeerId ids := 1%nat.
Definition p2 : @PeerId ids := 2%nat.
Definition start : Bitswap := Bitswap_new NetworkToy.config 30000.
Definition run (evs : list bs_event) : Bitswap * list output := default (start, []) (bs_run evs start).

(** A peer is dialed, connects, sends a message and leaves; another one cannot be reached. *)
Definition story : list bs_event :=
  [BsRequest (ODial p1 1%nat 0); BsRequest (ODial p2 2%nat 1); BsPoll 5; BsPoll 6; BsEstablished p1 10;
   BsHandler p1 10 (EvMessage small Bitswap120); BsRequest (ODial p1 3%nat 2); BsPoll 7;
   BsDialFailure 8 (Some p2) false "refused"].

Lemma story_runs : bs_run story start = Some (run story).
Proof. vm_compute. reflexivity. Qed.

Definition not_dropped (o : output) : bool :=
  match o with DroppedConnected _ | DroppedDisconnected _ => false | _ => true end.
Lemma no_drops p log : forallb not_dropped log = true → undropped p log.
Proof.
  intros Hf. rewrite forallb_forall in Hf. split; intros Hin%list_elem_of_In; by apply Hf in Hin.
Qed.

Lemma peers_told_right_witness :
  bs_peers (run story).1 !! p1 = Some (Responsive 10 Bitswap120) ∧ told p1 (run story).2 = Some true.
Proof.
  split; [vm_compute; reflexivity|].
  refine (peers_told_right NetworkToy.config 30000 story (run story).1 (run story).2 p1 _ _ _).
  - fold start. rewrite story_runs. by destruct (run story).
  - apply no_drops. vm_compute. reflexivity.
  - apply no_drops. vm_compute. reflexivity.
Defined.

Lemma dials_accounted_witness :
  answered_dials (run story).2 = [3%nat; 2%nat] ∧ waiting (bs_dials (run story).1) = [1%nat] ∧
  NoDup (answered_dials (run story).2).
Proof.
  split; [vm_compute; reflexivity|]. split; [vm_compute; reflexivity|].
  refine (proj1 (proj2 (dials_accounted NetworkToy.config 30000 story (run story).1 (run story).2 _)) _).
  - fold start. rewrite story_runs. by destruct (run story).
  - apply (bool_decide_unpack _). vm_compute. exact I.
Defined.

(** A caller asks for a block, a peer sends it. *)
Definition draw : nat → Z → Z → bool := λ _ _ _, true.
Definition node0 : Node := Node_new NetworkToy.config 30000 (Some EngineWitness.config).
(** The server starts with the message before the client does, and is in the middle of it
    when the caller takes the block. *)
Definition node_story : list node_event :=
  [NdClient ClNewSession; NdClient (ClGetBlocks 0 [[10; 11]]); NdClient (ClSession 5 0 SeOperation);
   NdSwarm (BsEstablished p1 10); NdSwarm (BsHandler p1 10 (EvMessage small Bitswap120)); NdConnected; NdMessage;
   NdJob 6 3; NdJob 6 0; NdJob 7 1; NdJob 7 0; NdJob 7 0; NdServer (SvFind 0); NdClient (ClGetter 0)].
Definition node1 : Node := default node0 (node_run draw node_story node0).

Lemma node_sound_witness :
  ∃ g, cl_getters (nd_client node1) !! 0%nat = Some g ∧ gt_found g = [Block_new [10; 11] [10; 11]] ∧
    cl_ok (nd_client node1).
Proof.
  eexists. split; [vm_compute; reflexivity|]. split; [vm_compute; reflexivity|].
  refine (proj1 (proj2 (node_sound draw NetworkToy.config 30000 (Some EngineWitness.config) node1 _))).
  apply (node_run_trans draw node_story).
  - intros n. repeat (apply Forall_cons_2; [first [exact I | apply small_sendable | intros s _; exact I]|]). apply Forall_nil_2.
  - vm_compute. reflexivity.
Defined.

(** ** Behaviour worth knowing *)

(** A dial that succeeds is not answered: the connection is established and the peer
    responsive, and the caller still waits. *)
Lemma dial_success_unanswered :
  let r := run [BsRequest (ODial p1 1%nat 0); BsPoll 5; BsEstablished p1 10;
                BsIdentify p1 ["/ipfs/bitswap/1.2.0"%string];
                BsHandler p1 10 (EvMessage small Bitswap120)] in
  bs_peers r.1 !! p1 = Some (Responsive 10 Bitswap120) ∧ answered_dials r.2 = [] ∧
  bs_dials r.1 !! p1 = Some [(0, 1%nat)].
Proof. vm_compute. done. Qed.

(** A second connection makes a responsive peer a merely connected one, and the peer is
    announced again. *)
Lemma announced_twice :
  (run [BsHandler p1 1 (EvMessage (message_new false) Bitswap120); BsEstablished p1 2;
        BsHandler p1 2 (EvMessage (message_new false) Bitswap120)]).2
  = [ToldConnected p1; QueuedMessage p1 (message_new false); ToldConnected p1; QueuedMessage p1 (message_new false)].
Proof. vm_compute. reflexivity. Qed.

(** The first of two connections is closed: dials are still answered with it. *)
Lemma closed_connection_kept :
  (run [BsEstablished p1 1; BsEstablished p1 2; BsClosed p1 1; BsRequest (ODial p1 7%nat 0); BsPoll 5]).2
  = [AnswerDial 7 (Ok (1, None))].
Proof. vm_compute. reflexivity. Qed.

(** A peer that never was connected is announced as gone. *)
Lemma unknown_peer_gone : (run [BsDialFailure 5 (Some p1) false "refused"]).2 = [ToldDisconnected p1].
Proof. vm_compute. reflexivity. Qed.

(** After fifty requests that produce nothing, [poll] is pending with work left and
    without being woken for it. *)
Lemma poll_leaves_work :
  let b := (run (replicate 51 (BsRequest (OProtectPeer p1)))).1 in
  let '(act, _, b') := bitswap_poll 5 b in act = None ∧ bs_network b' = [OProtectPeer p1].
Proof. vm_compute. done. Qed.

(** The workers for new and for lost connections are not ordered: the client keeps a
    peer that is gone. *)
Lemma workers_reorder :
  let n := default node0 (node_run draw
    [NdSwarm (BsHandler p1 1 (EvMessage (message_new false) Bitswap120)); NdSwarm (BsClosed p1 0);
     NdDisconnected; NdJob 5 0; NdConnected; NdJob 5 1] node0) in
  told p1 (run [BsHandler p1 1 (EvMessage (message_new false) Bitswap120); BsClosed p1 0]).2 = Some false ∧
  bs_peers (nd_bitswap n) !! p1 = None ∧
  is_Some (pm_peers (mg_pm (cl_managers (nd_client n))) !! p1).
Proof. vm_compute. eauto. Qed.
End BehaviourToy.
