(* ===== verification/P2pProviders.v ===== *)
(** * Provider queries and peer information of the p2p node

    Models [iroh-p2p/src/providers.rs], the queries for providers that run on the DHT,
    and [iroh-p2p/src/behaviour/peer_manager.rs], what is known about the peers.

    The DHT appears through what is asked of it ([pv_effect]) and through the
    identifier it gives to a new query.  The receiving half of a response channel can go
    away at any time: [closed] tells which are gone.  The [lru] cache is the class [Lru]. *)

From stdpp Require Import prelude gmap fin_maps fin_sets strings.
From Stdlib Require Import ZArith Lia.
From S2P Require Import Prelude Cids.
Local Open Scope Z_scope.

(** [kad::record::Key], [kad::QueryId] and the sending half of a response channel *)
Abbreviation DhtKey := (list Z).
Abbreviation QueryId := Z.
Abbreviation Channel := nat.

Definition OUTSTANDING_LIMIT : nat := 2048.

Section providers.
Context `{Ids} `{HashOrder}.

Record QueryDetails := { qd_limit : Z; qd_channel : Channel }.
Record Query := { q_key : DhtKey; q_queries : list QueryDetails }.
Record RunningQuery := {
  rq_query_id : QueryId;
  rq_found : gset PeerId;
  rq_queries : list QueryDetails
}.
Record Providers := {
  pv_outstanding : list Query;
  pv_current : gmap DhtKey RunningQuery;
  pv_max : Z
}.

(** What is sent to the callers and asked of the DHT *)
Inductive pv_effect :=
  | PvSend (c : Channel) (providers : gset PeerId)
  | PvTimeout (c : Channel)
  | PvStart (id : QueryId) (key : DhtKey)
  | PvFinish (id : QueryId).

Definition Providers_new (max_running_queries : Z) : Providers :=
  {| pv_outstanding := []; pv_current := ∅; pv_max := max_running_queries |}.

Definition pv_with_current (m : gmap DhtKey RunningQuery) (p : Providers) : Providers :=
  {| pv_outstanding := pv_outstanding p; pv_current := m; pv_max := pv_max p |}.
Definition pv_with_outstanding (l : list Query) (p : Providers) : Providers :=
  {| pv_outstanding := l; pv_current := pv_current p; pv_max := pv_max p |}.
Definition rq_with_queries (l : list QueryDetails) (q : RunningQuery) : RunningQuery :=
  {| rq_query_id := rq_query_id q; rq_found := rq_found q; rq_queries := l |}.

(** The first outstanding query for a key gets another caller. *)
Fixpoint join_outstanding (key : DhtKey) (d : QueryDetails) (l : list Query) : option (list Query) :=
  match l with
  | [] => None
  | q :: l =>
      if decide (q_key q = key) then Some ({| q_key := q_key q; q_queries := q_queries q ++ [d] |} :: l)
      else cons q <$> join_outstanding key d l
  end.

Definition providers_push (closed : Channel → bool) (key : DhtKey) (limit : Z) (c : Channel) (p : Providers)
    : bool * Providers * list pv_effect :=
  match pv_current p !! key with
  | Some q =>
      let providers := list_to_set (take (Z.to_nat limit) (hs_iter (rq_found q))) : gset PeerId in
      let out := if decide (providers = ∅) then [] else [PvSend c providers] in
      let p :=
        if (Z.of_nat (size (rq_found q)) <? limit) && negb (closed c)
        then pv_with_current
               (<[key := rq_with_queries (rq_queries q ++ [{| qd_limit := limit; qd_channel := c |}]) q]>
                  (pv_current p)) p
        else p in
      (true, p, out)
  | None =>
      match join_outstanding key {| qd_limit := limit; qd_channel := c |} (pv_outstanding p) with
      | Some l => (true, pv_with_outstanding l p, [])
      | None =>
          if (length (pv_outstanding p) <? OUTSTANDING_LIMIT)%nat
          then (true, pv_with_outstanding
                        (pv_outstanding p ++
                           [{| q_key := key; q_queries := [{| qd_limit := limit; qd_channel := c |}] |}]) p, [])
          else (false, p, [])
      end
  end.

Definition open_queries (closed : Channel → bool) (l : list QueryDetails) : list QueryDetails :=
  filter (λ d, closed (qd_channel d) = false) l.

(** The first half of [poll]: the oldest outstanding query starts when there is room. *)
Definition start_next (id : QueryId) (p : Providers) : Providers * list pv_effect :=
  if Z.of_nat (size (pv_current p)) <? pv_max p then
    match pv_outstanding p with
    | q :: rest =>
        ({| pv_outstanding := rest;
            pv_current := <[q_key q := {| rq_query_id := id; rq_found := ∅; rq_queries := q_queries q |}]>
                            (pv_current p);
            pv_max := pv_max p |}, [PvStart id (q_key q)])
    | [] => (p, [])
    end
  else (p, []).

(** [poll]; [id] is the identifier the DHT gives to a query that starts now. *)
Definition providers_poll (closed : Channel → bool) (id : QueryId) (p : Providers)
    : Providers * list pv_effect :=
  let '(p, out) := start_next id p in
  let current := (λ q, rq_with_queries (open_queries closed (rq_queries q)) q) <$> pv_current p in
  let out' :=
    omap (λ kq, if decide (rq_queries kq.2 = []) then Some (PvFinish (rq_query_id kq.2)) else None)
      (hm_iter current) in
  (pv_with_current (filter (λ kq, rq_queries kq.2 ≠ []) current) p, out ++ out').

Definition handle_get_providers_ok (closed : Channel → bool) (next : QueryId) (id : QueryId) (is_last : bool)
    (key : DhtKey) (providers : gset PeerId) (p : Providers) : Providers * list pv_effect :=
  match pv_current p !! key with
  | None => (p, [])
  | Some q =>
      if decide (rq_query_id q ≠ id) then (p, [])
      else
        let q := rq_with_queries (open_queries closed (rq_queries q)) q in
        if decide (rq_queries q = []) then
          (pv_with_current (delete key (pv_current p)) p, [PvFinish id])
        else
          let new_providers := providers ∖ rq_found q in
          let out := if decide (new_providers = ∅) then []
                     else (λ d, PvSend (qd_channel d) new_providers) <$> rq_queries q in
          let q := {| rq_query_id := rq_query_id q; rq_found := rq_found q ∪ new_providers;
                      rq_queries := rq_queries q |} in
          if is_last then
            let '(p, out') := providers_poll closed next (pv_with_current (delete key (pv_current p)) p) in
            (p, out ++ out')
          else
            let q := rq_with_queries
                       (filter (λ d, Z.of_nat (size (rq_found q)) ≤ qd_limit d) (rq_queries q)) q in
            if decide (rq_queries q = []) then
              let '(p, out') := providers_poll closed next (pv_with_current (delete key (pv_current p)) p) in
              (p, out ++ PvFinish id :: out')
            else (pv_with_current (<[key := q]> (pv_current p)) p, out)
  end.

Definition handle_no_additional_records (closed : Channel → bool) (next : QueryId) (id : QueryId)
    (p : Providers) : Providers * list pv_effect :=
  match list_find (λ kq, rq_query_id kq.2 = id) (hm_iter (pv_current p)) with
  | Some (_, (key, _)) => providers_poll closed next (pv_with_current (delete key (pv_current p)) p)
  | None => (p, [])
  end.

(** [key]: of the timeout *)
Definition handle_get_providers_error (closed : Channel → bool) (next : QueryId) (id : QueryId) (key : DhtKey)
    (p : Providers) : Providers * list pv_effect :=
  match pv_current p !! key with
  | None => (p, [])
  | Some q =>
      if decide (rq_query_id q ≠ id) then (p, [])
      else
        let '(p, out) := providers_poll closed next (pv_with_current (delete key (pv_current p)) p) in
        (p, ((λ d, PvTimeout (qd_channel d)) <$> rq_queries q) ++ out)
  end.
End providers.

(** ** The peer manager *)

(** [lru::LruCache<PeerId, ()>] *)
Class Lru `{Ids} := {
  LruCache : Type;
  lru_new : Z → LruCache;
  lru_contains : PeerId → LruCache → bool;
  lru_put : PeerId → LruCache → LruCache;
  lru_pop : PeerId → LruCache → LruCache
}.

(** What [libp2p] knows: the parts of an address, the names of peers in it, and the
    information peers send about themselves *)
Class Libp2p `{Ids} := {
  Proto : Type;
  Proto_eq_dec :: EqDecision Proto;
  is_p2p : Proto → bool;
  PublicKey : Type;
  to_peer_id : PublicKey → PeerId
}.
Abbreviation Multiaddr := (list Proto).

Section peer_manager.
Context `{Ids} `{!Lru} `{!Libp2p}.

(** [identify::Info] *)
Record IdentifyInfo := {
  ii_public_key : PublicKey;
  ii_protocol_version : string;
  ii_agent_version : string;
  ii_listen_addrs : list Multiaddr;
  ii_protocols : list string;
  ii_observed_addr : Multiaddr
}.

Record Info := { in_last_rtt : option Z; in_last_info : option IdentifyInfo }.
Definition Info_default : Info := {| in_last_rtt := None; in_last_info := None |}.
Definition latency (i : Info) : option Z := (λ rtt, rtt / 2) <$> in_last_rtt i.

Record PeerManager := {
  pm_info : gmap PeerId Info;
  pm_bad_peers : LruCache;
  pm_supported_protocols : list string
}.

Definition DEFAULT_BAD_PEER_CAP : Z := 10 * 4096.
Definition PeerManager_default : PeerManager :=
  {| pm_info := ∅; pm_bad_peers := lru_new DEFAULT_BAD_PEER_CAP; pm_supported_protocols := [] |}.

Definition pm_with_info (m : gmap PeerId Info) (pm : PeerManager) : PeerManager :=
  {| pm_info := m; pm_bad_peers := pm_bad_peers pm; pm_supported_protocols := pm_supported_protocols pm |}.
Definition pm_with_bad (l : LruCache) (pm : PeerManager) : PeerManager :=
  {| pm_info := pm_info pm; pm_bad_peers := l; pm_supported_protocols := pm_supported_protocols pm |}.

Definition is_bad_peer (peer_id : PeerId) (pm : PeerManager) : bool := lru_contains peer_id (pm_bad_peers pm).

Definition info_or_default (peer_id : PeerId) (pm : PeerManager) : Info :=
  default Info_default (pm_info pm !! peer_id).

Definition inject_identify_info (peer_id : PeerId) (new_info : IdentifyInfo) (pm : PeerManager) : PeerManager :=
  pm_with_info
    (<[peer_id := {| in_last_rtt := in_last_rtt (info_or_default peer_id pm); in_last_info := Some new_info |}]>
       (pm_info pm)) pm.

(** [inject_ping]; [None] is an answered ping of the other side. *)
Definition inject_ping (peer_id : PeerId) (rtt : option Z) (pm : PeerManager) : PeerManager :=
  match rtt with
  | Some rtt =>
      pm_with_info
        (<[peer_id := {| in_last_rtt := Some rtt; in_last_info := in_last_info (info_or_default peer_id pm) |}]>
           (pm_info pm)) pm
  | None => pm
  end.

Definition info_for_peer (peer_id : PeerId) (pm : PeerManager) : option Info := pm_info pm !! peer_id.

Definition pm_addresses_of_peer (peer_id : PeerId) (pm : PeerManager) : list Multiaddr :=
  default [] (i ← pm_info pm !! peer_id; ii_listen_addrs <$> in_last_info i).

(** The first occurrence of an address is removed. *)
Definition remove_addr (l : list Multiaddr) (addr : Multiaddr) : list Multiaddr :=
  match list_find (λ a, a = addr) l with
  | Some (i, _) => delete i l
  | None => l
  end.
Definition remove_failed (failed : list Multiaddr) (i : IdentifyInfo) : IdentifyInfo :=
  {| ii_public_key := ii_public_key i; ii_protocol_version := ii_protocol_version i;
     ii_agent_version := ii_agent_version i;
     ii_listen_addrs := foldl remove_addr (ii_listen_addrs i) failed;
     ii_protocols := ii_protocols i; ii_observed_addr := ii_observed_addr i |}.

Definition pm_connection_established (peer_id : PeerId) (failed_addresses : option (list Multiaddr))
    (other_established : Z) (pm : PeerManager) : PeerManager :=
  let pm := if other_established =? 0 then pm_with_bad (lru_pop peer_id (pm_bad_peers pm)) pm else pm in
  match failed_addresses, pm_info pm !! peer_id with
  | Some failed, Some i =>
      pm_with_info
        (<[peer_id := {| in_last_rtt := in_last_rtt i; in_last_info := remove_failed failed <$> in_last_info i |}]>
           (pm_info pm)) pm
  | _, _ => pm
  end.

(** [DialError]: the two that say nothing about the peer, and all others *)
Inductive dial_error := DialConnectionLimit | DialPeerConditionFalse | DialOther.

Definition pm_dial_failure (peer_id : option PeerId) (error : dial_error) (pm : PeerManager) : PeerManager :=
  match peer_id, error with
  | Some peer_id, DialOther =>
      pm_with_info (delete peer_id (pm_info pm)) (pm_with_bad (lru_put peer_id (pm_bad_peers pm)) pm)
  | _, _ => pm
  end.

(** [poll]: the protocols are recorded once. *)
Definition pm_poll (params : list string) (pm : PeerManager) : PeerManager :=
  match pm_supported_protocols pm with
  | [] => {| pm_info := pm_info pm; pm_bad_peers := pm_bad_peers pm; pm_supported_protocols := params |}
  | _ => pm
  end.
End peer_manager.
