(* ===== verification/P2pNode.v ===== *)
(** * The p2p node

    Models [iroh-p2p/src/node.rs], the event loop between the RPC interface, the swarm
    and bitswap, and the requests of [iroh-p2p/src/rpc.rs] that take more than one
    message.

    The swarm is seen through the record [Swarm]: what it answers while one event is
    handled.  What the node asks of the swarm, of the DHT, of gossipsub and of bitswap,
    the answers it sends and the tasks it starts are the effects of a step. *)

From stdpp Require Import prelude gmap fin_maps fin_sets strings.
From Stdlib Require Import ZArith Lia.
From S2P Require Import Prelude Cids Message Network Behaviour P2pProviders.
Local Open Scope Z_scope.

Definition DEFAULT_PROVIDER_LIMIT : Z := 10.

Section node.
Context `{Multiformats} `{HashOrder} `{!Lru} `{!Libp2p}.
(** [PeerId::to_bytes] and [Multihash::to_bytes] *)
Variable peer_to_bytes : PeerId → bytes.
Variable mh_to_bytes : Multihash → bytes.
(** An error names a peer with [Debug]; [error_for] puts the text together. *)
Variable error_for : string → PeerId → string → string.

(** ** Messages of the RPC interface *)

Abbreviation TopicHash := string.

Inductive ProviderRequestKey := KeyDht (key : DhtKey) | KeyBitswap (ctx : Z) (cid : Cid).

Inductive GossipsubMessage :=
  | AddExplicitPeer (tx : Tx) (peer : PeerId)
  | AllMeshPeers (tx : Tx)
  | AllPeers (tx : Tx)
  | MeshPeers (tx : Tx) (topic : TopicHash)
  | Publish (tx : Tx) (topic : TopicHash) (data : bytes)
  | RemoveExplicitPeer (tx : Tx) (peer : PeerId)
  | Subscribe (tx : Tx) (topic : TopicHash)
  | Topics (tx : Tx)
  | Unsubscribe (tx : Tx) (topic : TopicHash).

Inductive RpcMessage :=
  | ExternalAddrs (tx : Tx)
  | Listeners (tx : Tx)
  | LocalPeerId (tx : Tx)
  | BitswapRequest (ctx : Z) (cids : list Cid) (response_channels : list Tx) (providers : gset PeerId)
  | BitswapNotifyNewBlocks (blocks : list Block) (tx : Tx)
  | BitswapStopSession (ctx : Z) (tx : Tx)
  | ProviderRequest (key : ProviderRequestKey) (c : Channel) (limit : Z)
  | StartProviding (tx : Tx) (key : DhtKey)
  | StopProviding (tx : Tx) (key : DhtKey)
  | NetListeningAddrs (tx : Tx)
  | NetPeers (tx : Tx)
  | NetConnectByPeerId (tx : Tx) (peer : PeerId)
  | NetConnect (tx : Tx) (peer : PeerId) (addrs : list Multiaddr)
  | NetDisconnect (tx : Tx) (peer : PeerId)
  | Gossipsub (g : GossipsubMessage)
  | FindPeerOnDHT (tx : Tx) (peer : PeerId)
  | LookupPeerInfo (tx : Tx) (peer : PeerId)
  | ListenForIdentify (tx : Tx) (peer : PeerId)
  | CancelListenForIdentify (tx : Tx) (peer : PeerId)
  | AddressesOfPeer (tx : Tx) (peer : PeerId)
  | LookupLocalPeerInfo (tx : Tx)
  | Shutdown.

(** [Lookup] of the RPC client, and [LookupResponse] *)
Record Lookup := {
  lk_peer_id : PeerId;
  lk_listen_addrs : list Multiaddr;
  lk_observed_addrs : list Multiaddr;
  lk_protocols : list string;
  lk_agent_version : string;
  lk_protocol_version : string
}.

(** The values sent through the response channels *)
Inductive reply :=
  | RUnit
  | RAddrs (l : list Multiaddr)
  | RPeerId (p : PeerId)
  | RResult (r : res string ())
  | RBlock (r : res string Block)
  | RQuery (r : res string QueryId)
  | RListening (p : PeerId) (l : list Multiaddr)
  | RPeers (m : gmap PeerId (list Multiaddr))
  | RInfo (i : option IdentifyInfo)
  | RIdentify (r : res string IdentifyInfo)
  | RLookup (l : Lookup)
  | RLatency (d : option Z)
  | RPeerList (l : list PeerId)
  | RPeerTopics (l : list (PeerId * list TopicHash))
  | RTopics (l : list TopicHash)
  | RBool (r : res string bool)
  | RMessageId (r : res string bytes).

(** ** The swarm *)

Record Gossip := {
  gs_all_mesh_peers : list PeerId;
  gs_all_peers : list (PeerId * list TopicHash);
  gs_mesh_peers : TopicHash → list PeerId;
  gs_publish : TopicHash → bytes → res string bytes;
  gs_subscribe : TopicHash → res string bool;
  gs_topics : list TopicHash;
  gs_unsubscribe : TopicHash → res string bool
}.

(** [sw_next_query]: the identifiers of the queries that start while an event is handled *)
Record Swarm := {
  sw_local_peer_id : PeerId;
  sw_external_addresses : list Multiaddr;
  sw_listeners : list Multiaddr;
  sw_connected_peers : list PeerId;
  sw_addresses_of_peer : PeerId → list Multiaddr;
  sw_dial : PeerId → list Multiaddr → option string;
  sw_bitswap : bool;
  sw_kad : bool;
  sw_autonat : bool;
  sw_gossipsub : option Gossip;
  sw_start_providing : DhtKey → res string QueryId;
  sw_next_query : nat → QueryId;
  sw_kad_protocol : string;
  sw_agent_version : string;
  sw_closed : Channel → bool
}.
Definition sw_is_connected (sw : Swarm) (p : PeerId) : bool := bool_decide (p ∈ sw_connected_peers sw).

(** ** The node *)

Inductive NetworkEvent :=
  | PeerConnected (peer : PeerId)
  | PeerDisconnected (peer : PeerId)
  | GossipSubscribed (peer : PeerId) (topic : TopicHash)
  | GossipUnsubscribed (peer : PeerId) (topic : TopicHash)
  | GossipMessage (from : PeerId) (id : bytes) (message : bytes)
  | CancelLookupQuery (peer : PeerId).

(** A worker that waits for a block, and the caller it answers *)
Record worker := { wk_cid : Cid; wk_chan : Tx }.

Record Node := {
  nd_dial_queries : gmap PeerId (list Tx);
  nd_lookup_queries : gmap PeerId (list Tx);
  nd_find_on_dht_queries : gmap bytes (PeerId * list Tx);
  nd_network_events : list Channel;
  nd_bitswap_sessions : gmap Z (list worker);
  nd_providers : Providers;
  nd_peer_manager : PeerManager
}.

Inductive effect :=
  | Answer (tx : Tx) (r : reply)
  | NoKademlia (c : Channel)
  | Dial (peer : PeerId) (addrs : list Multiaddr)
  | Emit (c : Channel) (ev : NetworkEvent)
  | ProvidersEffect (e : pv_effect)
  | KadStartProviding (key : DhtKey)
  | KadStopProviding (key : DhtKey)
  | KadGetClosestPeers (peer : PeerId)
  | KadBootstrap
  | KadAddAddress (peer : PeerId) (addr : Multiaddr)
  | AutonatAddServer (peer : PeerId) (addr : Multiaddr)
  | BitswapOnIdentify (peer : PeerId) (protocols : list string)
  | BitswapNotify (blocks : list Block)
  | SpawnWorker (ctx : Z) (w : worker) (providers : gset PeerId)
  | StopSession (ctx : Z) (workers : list worker) (tx : option Tx)
  | GossipAddExplicit (peer : PeerId)
  | GossipRemoveExplicit (peer : PeerId)
  | GossipPublish (topic : TopicHash) (data : bytes)
  | GossipSubscribe (topic : TopicHash)
  | GossipUnsubscribe (topic : TopicHash).

Definition Node_default : Node :=
  {| nd_dial_queries := ∅; nd_lookup_queries := ∅; nd_find_on_dht_queries := ∅; nd_network_events := [];
     nd_bitswap_sessions := ∅; nd_providers := Providers_new 4; nd_peer_manager := PeerManager_default |}.

Definition nd_with_dials (m : gmap PeerId (list Tx)) (n : Node) : Node :=
  {| nd_dial_queries := m; nd_lookup_queries := nd_lookup_queries n;
     nd_find_on_dht_queries := nd_find_on_dht_queries n; nd_network_events := nd_network_events n;
     nd_bitswap_sessions := nd_bitswap_sessions n; nd_providers := nd_providers n;
     nd_peer_manager := nd_peer_manager n |}.
Definition nd_with_lookups (m : gmap PeerId (list Tx)) (n : Node) : Node :=
  {| nd_dial_queries := nd_dial_queries n; nd_lookup_queries := m;
     nd_find_on_dht_queries := nd_find_on_dht_queries n; nd_network_events := nd_network_events n;
     nd_bitswap_sessions := nd_bitswap_sessions n; nd_providers := nd_providers n;
     nd_peer_manager := nd_peer_manager n |}.
Definition nd_with_dht (m : gmap bytes (PeerId * list Tx)) (n : Node) : Node :=
  {| nd_dial_queries := nd_dial_queries n; nd_lookup_queries := nd_lookup_queries n;
     nd_find_on_dht_queries := m; nd_network_events := nd_network_events n;
     nd_bitswap_sessions := nd_bitswap_sessions n; nd_providers := nd_providers n;
     nd_peer_manager := nd_peer_manager n |}.
Definition nd_with_events (l : list Channel) (n : Node) : Node :=
  {| nd_dial_queries := nd_dial_queries n; nd_lookup_queries := nd_lookup_queries n;
     nd_find_on_dht_queries := nd_find_on_dht_queries n; nd_network_events := l;
     nd_bitswap_sessions := nd_bitswap_sessions n; nd_providers := nd_providers n;
     nd_peer_manager := nd_peer_manager n |}.
Definition nd_with_sessions (m : gmap Z (list worker)) (n : Node) : Node :=
  {| nd_dial_queries := nd_dial_queries n; nd_lookup_queries := nd_lookup_queries n;
     nd_find_on_dht_queries := nd_find_on_dht_queries n; nd_network_events := nd_network_events n;
     nd_bitswap_sessions := m; nd_providers := nd_providers n; nd_peer_manager := nd_peer_manager n |}.
Definition nd_with_providers (p : Providers) (n : Node) : Node :=
  {| nd_dial_queries := nd_dial_queries n; nd_lookup_queries := nd_lookup_queries n;
     nd_find_on_dht_queries := nd_find_on_dht_queries n; nd_network_events := nd_network_events n;
     nd_bitswap_sessions := nd_bitswap_sessions n; nd_providers := p; nd_peer_manager := nd_peer_manager n |}.
Definition nd_with_peer_manager (pm : PeerManager) (n : Node) : Node :=
  {| nd_dial_queries := nd_dial_queries n; nd_lookup_queries := nd_lookup_queries n;
     nd_find_on_dht_queries := nd_find_on_dht_queries n; nd_network_events := nd_network_events n;
     nd_bitswap_sessions := nd_bitswap_sessions n; nd_providers := nd_providers n; nd_peer_manager := pm |}.

Definition emit_network_event (ev : NetworkEvent) (n : Node) : list effect :=
  (λ c, Emit c ev) <$> nd_network_events n.

(** [network_events]: a new subscriber *)
Definition subscribe_network_events (c : Channel) (n : Node) : Node :=
  nd_with_events (nd_network_events n ++ [c]) n.

(** *** Bitswap sessions *)

Definition destroy_session (sw : Swarm) (ctx : Z) (tx : option Tx) (n : Node) : Node * list effect :=
  if sw_bitswap sw then
    (nd_with_sessions (delete ctx (nd_bitswap_sessions n)) n,
     [StopSession ctx (default [] (nd_bitswap_sessions n !! ctx)) tx])
  else (n, match tx with Some tx => [Answer tx (RResult (Err "no bitswap available"%string))] | None => [] end).

Definition want_block (sw : Swarm) (ctx : Z) (cid : Cid) (providers : gset PeerId) (chan : Tx) (n : Node)
    : res string (Node * list effect) :=
  if sw_bitswap sw then
    let w := {| wk_cid := cid; wk_chan := chan |} in
    Ok (nd_with_sessions
          (<[ctx := default [] (nd_bitswap_sessions n !! ctx) ++ [w]]> (nd_bitswap_sessions n)) n,
        [SpawnWorker ctx w providers])
  else Err "no bitswap available"%string.

(** The requests of one message, until one fails *)
Fixpoint want_blocks (sw : Swarm) (ctx : Z) (providers : gset PeerId) (l : list (Cid * Tx)) (n : Node)
    : res string () * Node * list effect :=
  match l with
  | [] => (Ok (), n, [])
  | (cid, tx) :: l =>
      match want_block sw ctx cid providers tx n with
      | Ok (n, out) => let '(r, n, out') := want_blocks sw ctx providers l n in (r, n, out ++ out')
      | Err e => (Err ("Failed to send a bitswap want_block: " +:+ e), n, [])
      | Panic => (Panic, n, [])
      end
  end.

(** [expiry]: workers that have finished are forgotten, in the order of the map until ten
    sessions without workers are found; these are destroyed. *)
Fixpoint expire_sessions (finished : worker → bool) (l : list (Z * list worker)) (m : gmap Z (list worker))
    (to_remove : list Z) : gmap Z (list worker) * list Z :=
  match l with
  | [] => (m, to_remove)
  | (id, ws) :: l =>
      let ws := filter (λ w, finished w = false) ws in
      let m := <[id := ws]> m in
      let to_remove := if decide (ws = []) then to_remove ++ [id] else to_remove in
      if (10 <=? length to_remove)%nat then (m, to_remove)
      else expire_sessions finished l m to_remove
  end.

Definition expiry (sw : Swarm) (finished : worker → bool) (n : Node) : Node * list effect :=
  let '(m, to_remove) :=
    expire_sessions finished (hm_iter (nd_bitswap_sessions n)) (nd_bitswap_sessions n) [] in
  foldl (λ '(n, out) id, let '(n, out') := destroy_session sw id None n in (n, out ++ out'))
    (nd_with_sessions m n, []) to_remove.

(** *** Answers to those who wait *)

(** The callers are answered from the last to the first; the entry stays, empty. *)
Definition drain_dials (peer : PeerId) (r : res string ()) (n : Node) : Node * list effect :=
  match nd_dial_queries n !! peer with
  | Some channels =>
      (nd_with_dials (<[peer := []]> (nd_dial_queries n)) n,
       (λ tx, Answer tx (RResult r)) <$> reverse channels)
  | None => (n, [])
  end.

Definition answer_lookups (peer : PeerId) (r : res string IdentifyInfo) (n : Node) : Node * list effect :=
  match nd_lookup_queries n !! peer with
  | Some channels =>
      (nd_with_lookups (delete peer (nd_lookup_queries n)) n, (λ tx, Answer tx (RIdentify r)) <$> channels)
  | None => (n, [])
  end.

(** *** Messages of the RPC interface *)

(** Both kinds of connect: a caller waits for the outcome of the dial. *)
Definition connect (sw : Swarm) (tx : Tx) (peer : PeerId) (addrs : list Multiaddr) (n : Node)
    : Node * list effect :=
  if sw_is_connected sw peer then (n, [Answer tx (RResult (Ok ()))])
  else
    let n := nd_with_dials
               (<[peer := default [] (nd_dial_queries n !! peer) ++ [tx]]> (nd_dial_queries n)) n in
    match sw_dial sw peer addrs with
    | Some e =>
        let '(n, out) := drain_dials peer (Err (error_for "error dialing peer" peer e)) n in
        (n, Dial peer addrs :: out)
    | None => (n, [Dial peer addrs])
    end.

Definition handle_gossipsub (gs : Gossip) (g : GossipsubMessage) : list effect :=
  match g with
  | AddExplicitPeer tx peer => [GossipAddExplicit peer; Answer tx RUnit]
  | AllMeshPeers tx => [Answer tx (RPeerList (gs_all_mesh_peers gs))]
  | AllPeers tx => [Answer tx (RPeerTopics (gs_all_peers gs))]
  | MeshPeers tx topic => [Answer tx (RPeerList (gs_mesh_peers gs topic))]
  | Publish tx topic data => [GossipPublish topic data; Answer tx (RMessageId (gs_publish gs topic data))]
  | RemoveExplicitPeer tx peer => [GossipRemoveExplicit peer; Answer tx RUnit]
  | Subscribe tx topic => [GossipSubscribe topic; Answer tx (RBool (gs_subscribe gs topic))]
  | Topics tx => [Answer tx (RTopics (gs_topics gs))]
  | Unsubscribe tx topic => [GossipUnsubscribe topic; Answer tx (RBool (gs_unsubscribe gs topic))]
  end.

Definition provider_request (sw : Swarm) (key : ProviderRequestKey) (c : Channel) (limit : Z) (n : Node)
    : Node * list effect :=
  match key with
  | KeyDht key =>
      if sw_kad sw then
        let '(_, p, out) := providers_push (sw_closed sw) key limit c (nd_providers n) in
        (nd_with_providers p n, ProvidersEffect <$> out)
      else (n, [NoKademlia c])
  | KeyBitswap _ _ => (n, [])
  end.

Definition find_peer_on_dht (sw : Swarm) (tx : Tx) (peer : PeerId) (n : Node) : Node * list effect :=
  if sw_kad sw then
    match nd_find_on_dht_queries n !! peer_to_bytes peer with
    | Some (p, channels) =>
        (nd_with_dht (<[peer_to_bytes peer := (p, channels ++ [tx])]> (nd_find_on_dht_queries n)) n, [])
    | None =>
        (nd_with_dht (<[peer_to_bytes peer := (peer, [tx])]> (nd_find_on_dht_queries n)) n,
         [KadGetClosestPeers peer])
    end
  else (n, [Answer tx (RResult (Err "kademlia is not available"%string))]).

Definition local_peer_info (sw : Swarm) (n : Node) : Lookup :=
  {| lk_peer_id := sw_local_peer_id sw; lk_listen_addrs := sw_listeners sw;
     lk_observed_addrs := sw_external_addresses sw;
     lk_protocols := pm_supported_protocols (nd_peer_manager n);
     lk_agent_version := sw_agent_version sw; lk_protocol_version := "ipfs/0.1.0" |}.

(** [handle_rpc_message]: whether the node shuts down.  Sending an answer is the last
    thing an arm does; when the caller is gone the error is logged by the loop, and the
    state is the same. *)
Definition handle_rpc_message (sw : Swarm) (message : RpcMessage) (n : Node)
    : res string bool * Node * list effect :=
  let continue r := let '(n, out) := r : Node * list effect in (Ok false : res string bool, n, out) in
  match message with
  | ExternalAddrs tx => continue (n, [Answer tx (RAddrs (sw_external_addresses sw))])
  | Listeners tx => continue (n, [Answer tx (RAddrs (sw_listeners sw))])
  | LocalPeerId tx => continue (n, [Answer tx (RPeerId (sw_local_peer_id sw))])
  | BitswapRequest ctx cids txs providers =>
      let '(r, n, out) := want_blocks sw ctx providers (zip cids txs) n in
      (match r with Ok _ => Ok false | Err e => Err e | Panic => Panic end, n, out)
  | BitswapNotifyNewBlocks blocks tx =>
      continue (n, (if sw_bitswap sw then [BitswapNotify blocks] else []) ++ [Answer tx (RResult (Ok ()))])
  | BitswapStopSession ctx tx => continue (destroy_session sw ctx (Some tx) n)
  | ProviderRequest key c limit => continue (provider_request sw key c limit n)
  | StartProviding tx key =>
      continue (n, if sw_kad sw then [KadStartProviding key; Answer tx (RQuery (sw_start_providing sw key))]
                   else [Answer tx (RQuery (Err "kademlia is not available"%string))])
  | StopProviding tx key =>
      continue (n, if sw_kad sw then [KadStopProviding key; Answer tx (RResult (Ok ()))]
                   else [Answer tx (RResult (Err "kademlia is not availalbe"%string))])
  | NetListeningAddrs tx =>
      continue (n, [Answer tx (RListening (sw_local_peer_id sw) (sw_listeners sw ++ sw_external_addresses sw))])
  | NetPeers tx =>
      continue (n, [Answer tx (RPeers (list_to_map
                     ((λ pid, (pid, sw_addresses_of_peer sw pid)) <$> sw_connected_peers sw)))])
  | NetConnect tx peer addrs =>
      continue (connect sw tx peer ((λ a, filter (λ p, is_p2p p = false) a) <$> addrs) n)
  | NetConnectByPeerId tx peer => continue (connect sw tx peer [] n)
  | AddressesOfPeer tx peer => continue (n, [Answer tx (RAddrs (sw_addresses_of_peer sw peer))])
  | NetDisconnect tx peer => continue (n, [Answer tx RUnit])
  | Gossipsub g =>
      match sw_gossipsub sw with
      | Some gs => continue (n, handle_gossipsub gs g)
      | None => (Ok false, n, [])
      end
  | ListenForIdentify tx peer =>
      continue (nd_with_lookups
                  (<[peer := default [] (nd_lookup_queries n !! peer) ++ [tx]]> (nd_lookup_queries n)) n, [])
  | LookupPeerInfo tx peer =>
      continue (n, [Answer tx (RInfo (i ← info_for_peer peer (nd_peer_manager n); in_last_info i))])
  | LookupLocalPeerInfo tx => continue (n, [Answer tx (RLookup (local_peer_info sw n))])
  | CancelListenForIdentify tx peer =>
      continue (nd_with_lookups (delete peer (nd_lookup_queries n)) n,
                emit_network_event (CancelLookupQuery peer) n ++ [Answer tx RUnit])
  | FindPeerOnDHT tx peer => continue (find_peer_on_dht sw tx peer n)
  | Shutdown => (Ok true, n, [])
  end.

(** *** Events of the behaviours *)

(** [QueryResult] of Kademlia, as far as it is handled *)
Inductive query_result :=
  | FoundProviders (key : DhtKey) (providers : gset PeerId)
  | FinishedWithNoAdditionalRecord
  | GetProvidersTimeout (key : DhtKey)
  | ClosestPeers (key : bytes) (peers : list PeerId)
  | ClosestPeersTimeout (key : bytes)
  | OtherResult.

Inductive Event :=
  | EventBitswap (e : BitswapEvent)
  | EventKademlia (id : QueryId) (last : bool) (r : query_result)
  | EventIdentifyReceived (peer : PeerId) (info : IdentifyInfo)
  | EventIdentifyError (peer : PeerId) (error : string)
  | EventPing (peer : PeerId) (rtt : option Z)
  | EventGossip (ev : NetworkEvent)
  | EventMdns (peers : list (PeerId * Multiaddr))
  | EventOther.

Definition lift_providers (n : Node) (r : Providers * list pv_effect) : Node * list effect :=
  (nd_with_providers r.1 n, ProvidersEffect <$> r.2).

Definition handle_kademlia (sw : Swarm) (id : QueryId) (last : bool) (r : query_result) (n : Node)
    : Node * list effect :=
  match r with
  | FoundProviders key providers =>
      if sw_kad sw then
        let providers := filter (λ p, is_bad_peer p (nd_peer_manager n) = false) providers in
        lift_providers n (handle_get_providers_ok (sw_closed sw) (sw_next_query sw 0) id last key providers
                            (nd_providers n))
      else (n, [])
  | FinishedWithNoAdditionalRecord =>
      if sw_kad sw then
        lift_providers n (handle_no_additional_records (sw_closed sw) (sw_next_query sw 0) id (nd_providers n))
      else (n, [])
  | GetProvidersTimeout key =>
      if sw_kad sw then
        lift_providers n (handle_get_providers_error (sw_closed sw) (sw_next_query sw 0) id key (nd_providers n))
      else (n, [])
  | ClosestPeers key peers =>
      match nd_find_on_dht_queries n !! key with
      | Some (peer_id, channels) =>
          let n := nd_with_dht (delete key (nd_find_on_dht_queries n)) n in
          let have_peer := bool_decide (peer_id ∈ peers) in
          if negb have_peer && negb last then (n, [])
          else
            let r := if have_peer then Ok ()
                     else Err (error_for "Failed to find peer on the DHT" peer_id EmptyString) in
            (n, (λ tx, Answer tx (RResult r)) <$> channels)
      | None => (n, [])
      end
  | ClosestPeersTimeout key =>
      match nd_find_on_dht_queries n !! key with
      | Some (peer_id, channels) =>
          (nd_with_dht (delete key (nd_find_on_dht_queries n)) n,
           (λ tx, Answer tx (RResult (Err (error_for "Failed to find peer on the DHT: Timeout" peer_id EmptyString))))
             <$> channels)
      | None => (n, [])
      end
  | OtherResult => (n, [])
  end.

Definition identify_addresses (sw : Swarm) (peer : PeerId) (info : IdentifyInfo) (protocol : string)
    : list effect :=
  if decide (protocol = sw_kad_protocol sw) then
    if sw_kad sw then KadAddAddress peer <$> ii_listen_addrs info else []
  else if decide (protocol = "/libp2p/autonat/1.0.0"%string) then
    if sw_autonat sw then AutonatAddServer peer <$> ii_listen_addrs info else []
  else [].

Definition handle_identify (sw : Swarm) (peer : PeerId) (info : IdentifyInfo) (n : Node) : Node * list effect :=
  let out := ii_protocols info ≫= identify_addresses sw peer info in
  let out := out ++ if sw_bitswap sw then [BitswapOnIdentify peer (ii_protocols info)] else [] in
  let n := nd_with_peer_manager (inject_identify_info peer info (nd_peer_manager n)) n in
  let '(n, out') := answer_lookups peer (Ok info) n in
  (n, out ++ out').

Definition handle_node_event (sw : Swarm) (ev : Event) (n : Node) : res string () * Node * list effect :=
  let done r := let '(n, out) := r : Node * list effect in (Ok () : res string (), n, out) in
  match ev with
  | EventBitswap (Provide key) =>
      done (n, if sw_kad sw then [KadStartProviding (mh_to_bytes (cid_hash key))] else [])
  | EventBitswap (FindProviders key response limit) =>
      let '(r, n, out) :=
        handle_rpc_message sw (ProviderRequest (KeyDht (mh_to_bytes (cid_hash key))) response limit) n in
      (match r with Ok _ => Ok () | Err e => Err e | Panic => Panic end, n, out)
  | EventBitswap (Ping peer response) =>
      done (n, [Answer response (RLatency (i ← info_for_peer peer (nd_peer_manager n); latency i))])
  | EventKademlia id last r => done (handle_kademlia sw id last r n)
  | EventIdentifyReceived peer info => done (handle_identify sw peer info n)
  | EventIdentifyError peer error =>
      done (answer_lookups peer (Err (error_for "error upgrading connection to peer" peer error)) n)
  | EventPing peer rtt => done (nd_with_peer_manager (inject_ping peer rtt (nd_peer_manager n)) n, [])
  | EventGossip ev => done (n, emit_network_event ev n)
  | EventMdns peers =>
      done (n, (λ pa, Dial pa.1 [pa.2]) <$> filter (λ pa, sw_is_connected sw pa.1 = false) peers)
  | EventOther => done (n, [])
  end.

(** *** Events of the swarm *)

Inductive SwarmEvent :=
  | SwarmBehaviour (ev : Event)
  | ConnectionEstablished (peer : PeerId) (num_established : Z)
  | ConnectionClosed (peer : PeerId) (num_established : Z)
  | OutgoingConnectionError (peer : option PeerId) (error : string)
  | SwarmOther.

Definition handle_swarm_event (sw : Swarm) (ev : SwarmEvent) (n : Node) : res string () * Node * list effect :=
  match ev with
  | SwarmBehaviour ev => handle_node_event sw ev n
  | ConnectionEstablished peer num =>
      let '(n, out) := drain_dials peer (Ok ()) n in
      (Ok (), n, out ++ if num =? 1 then emit_network_event (PeerConnected peer) n else [])
  | ConnectionClosed peer num =>
      (Ok (), n, if num =? 0 then emit_network_event (PeerDisconnected peer) n else [])
  | OutgoingConnectionError (Some peer) error =>
      let '(n, out) := drain_dials peer (Err (error_for "Error dialing peer" peer error)) n in (Ok (), n, out)
  | OutgoingConnectionError None _ => (Ok (), n, [])
  | SwarmOther => (Ok (), n, [])
  end.

(** ** The loop *)

(** One turn of [run]; the events for the peer manager reach it through the swarm.
    [TurnRpcClosed]: all senders of messages are gone. *)
Inductive turn :=
  | TurnSwarm (ev : SwarmEvent)
  | TurnRpc (m : RpcMessage)
  | TurnRpcClosed
  | TurnBootstrap
  | TurnExpiry (finished : worker → bool)
  | TurnEstablished (peer : PeerId) (failed : option (list Multiaddr)) (other : Z)
  | TurnDialFailure (peer : option PeerId) (e : dial_error)
  | TurnPoll (protocols : list string).

(** [true]: the loop ends. *)
Definition run_turn (sw : Swarm) (t : turn) (n : Node) : bool * Node * list effect :=
  match t with
  | TurnSwarm ev =>
      let '(_, n, out) := handle_swarm_event sw ev n in
      if sw_kad sw then
        let '(p, out') := providers_poll (sw_closed sw) (sw_next_query sw 1) (nd_providers n) in
        (false, nd_with_providers p n, out ++ (ProvidersEffect <$> out'))
      else (false, n, out)
  | TurnRpc m =>
      let '(r, n, out) := handle_rpc_message sw m n in
      (match r with Ok b => b | _ => false end, n, out)
  | TurnRpcClosed => (true, n, [])
  | TurnBootstrap => (false, n, if sw_kad sw then [KadBootstrap] else [])
  | TurnExpiry finished => let '(n, out) := expiry sw finished n in (false, n, out)
  | TurnEstablished peer failed other =>
      (false, nd_with_peer_manager (pm_connection_established peer failed other (nd_peer_manager n)) n, [])
  | TurnDialFailure peer e =>
      (false, nd_with_peer_manager (pm_dial_failure peer e (nd_peer_manager n)) n, [])
  | TurnPoll protocols =>
      (false, nd_with_peer_manager (pm_poll protocols (nd_peer_manager n)) n, [])
  end.

(** ** Requests of the RPC interface *)

Definition peer_info_from_identify_info (i : IdentifyInfo) : Lookup :=
  {| lk_peer_id := to_peer_id (ii_public_key i); lk_protocol_version := ii_protocol_version i;
     lk_agent_version := ii_agent_version i; lk_listen_addrs := ii_listen_addrs i;
     lk_protocols := ii_protocols i; lk_observed_addrs := [ii_observed_addr i] |}.

(** [fetch_bitswap]: the answer must be for the block that was asked for; [None] is a
    response that was dropped. *)
Definition rpc_fetch_bitswap (cid : Cid) (answer : option (res string Block)) : res string bytes :=
  match answer with
  | None => Err "bitswap req shut down"%string
  | Some (Ok block) =>
      if decide (cid = block_cid block) then Ok (block_data block)
      else Err "unexpected bitswap response"%string
  | Some (Err e) => Err ("bitswap: " +:+ e)
  | Some Panic => Panic
  end.

(** [fetch_provider_dht0]: the key has to be the bytes of a CID. *)
Definition fetch_provider_dht0 (key : bytes) (c : Channel) : res string RpcMessage :=
  match cid_try_from key with
  | Some _ => Ok (ProviderRequest (KeyDht key) c DEFAULT_PROVIDER_LIMIT)
  | None => Err "invalid cid"%string
  end.

(** The answers the node gives to the messages of one request; [None] when the
    channel is closed or the response is dropped. *)
Record rpc_answers := {
  ra_addresses : option (list Multiaddr);
  ra_find : option (res string ());
  ra_connect : option (res string ());
  ra_info : option (option IdentifyInfo);
  ra_cancel : option ();
  ra_identify : option (res string IdentifyInfo)
}.

Definition gone {A} (o : option A) : res string A := ok_or o "channel closed"%string.
Definition flat (o : option (res string ())) : res string () := r ← gone o; r.

(** [peer_connect_by_peer_id] and [peer_connect], with the messages they send *)
Definition peer_connect_by_peer_id (a : rpc_answers) (peer : PeerId) (tx : Tx) : res string () * list RpcMessage :=
  match gone (ra_addresses a) with
  | Ok [] =>
      match flat (ra_find a) with
      | Ok _ => (flat (ra_connect a),
                 [AddressesOfPeer tx peer; FindPeerOnDHT (tx + 1) peer; NetConnectByPeerId (tx + 2) peer])
      | e => (e, [AddressesOfPeer tx peer; FindPeerOnDHT (tx + 1) peer])
      end
  | Ok _ => (flat (ra_connect a), [AddressesOfPeer tx peer; NetConnectByPeerId (tx + 1) peer])
  | Err e => (Err e, [AddressesOfPeer tx peer])
  | Panic => (Panic, [AddressesOfPeer tx peer])
  end.

Definition peer_connect (a : rpc_answers) (peer : PeerId) (addrs : list Multiaddr) (tx : Tx)
    : res string () * list RpcMessage :=
  (flat (ra_connect a), [NetConnect tx peer addrs]).

Definition rpc_lookup (a : rpc_answers) (peer : PeerId) (addr : option Multiaddr) (tx : Tx)
    : res string Lookup * list RpcMessage :=
  match gone (ra_info a) with
  | Ok (Some info) => (Ok (peer_info_from_identify_info info), [LookupPeerInfo tx peer])
  | Ok None =>
      let '(r, msgs) := match addr with
                        | Some addr => peer_connect a peer [addr] (tx + 2)
                        | None => peer_connect_by_peer_id a peer (tx + 2)
                        end in
      let msgs := [LookupPeerInfo tx peer; ListenForIdentify (tx + 1) peer] ++ msgs in
      match r with
      | Ok _ =>
          (info ← gone (ra_identify a); info ← info; Ok (peer_info_from_identify_info info), msgs)
      | Err e =>
          (_ ← gone (ra_cancel a); Err ("Cannot get peer information: " +:+ e),
           msgs ++ [CancelListenForIdentify (tx + 6) peer])
      | Panic => (Panic, msgs)
      end
  | Err e => (Err e, [LookupPeerInfo tx peer])
  | Panic => (Panic, [LookupPeerInfo tx peer])
  end.
End node.
