(* ===== verification/P2pFacts.v ===== *)
(** * Facts about the p2p node

    The queries for providers stay within their bounds and report a provider to a
    caller once; every caller of the node is answered once, waits, or is lost in one of
    the places that are named here. *)

From stdpp Require Import prelude gmap fin_maps fin_sets strings.
From Stdlib Require Import ZArith Lia.
From S2P Require Import Prelude Cids Message Network Behaviour P2pProviders P2pNode.
Local Open Scope Z_scope.

(** ** Queries for providers *)

Section providers.
Context `{Ids} `{HashOrder}.

Inductive pv_event :=
  | PeRequest (key : DhtKey) (limit : Z) (c : Channel)
  | PeFound (next id : QueryId) (is_last : bool) (key : DhtKey) (providers : gset PeerId)
  | PeNoMore (next id : QueryId)
  | PeTimeout (next id : QueryId) (key : DhtKey)
  | PePoll (next : QueryId).

Definition pv_step (closed : Channel → bool) (ev : pv_event) (p : Providers) : Providers * list pv_effect :=
  match ev with
  | PeRequest key limit c => let '(_, p, out) := providers_push closed key limit c p in (p, out)
  | PeFound next id is_last key providers => handle_get_providers_ok closed next id is_last key providers p
  | PeNoMore next id => handle_no_additional_records closed next id p
  | PeTimeout next id key => handle_get_providers_error closed next id key p
  | PePoll next => providers_poll closed next p
  end.

(** At every step some callers may be gone. *)
Fixpoint pv_run (evs : list ((Channel → bool) * pv_event)) (p : Providers) : Providers * list pv_effect :=
  match evs with
  | [] => (p, [])
  | (closed, ev) :: evs =>
      let '(p, out) := pv_step closed ev p in
      let '(p, out') := pv_run evs p in
      (p, out ++ out')
  end.

(** A state is made of the queries that wait and those that run; a property of these
    parts that is closed under the following changes is kept by every operation. *)
Record pv_wf (p : Providers) : Prop := {
  pw_outstanding : (length (pv_outstanding p) ≤ OUTSTANDING_LIMIT)%nat;
  pw_current : Z.of_nat (size (pv_current p)) ≤ Z.max 0 (pv_max p);
  pw_keys : NoDup (q_key <$> pv_outstanding p);
  pw_disjoint q : q ∈ pv_outstanding p → pv_current p !! q_key q = None
}.

Lemma join_outstanding_keys key d l l' :
  join_outstanding key d l = Some l' → q_key <$> l' = q_key <$> l ∧ length l' = length l.
Proof.
  revert l'. induction l as [|q l IH]; intros l'; cbn; [done|]. case_decide.
  - by intros [= <-].
  - intros (l2 & E & ->)%fmap_Some. cbn. by destruct (IH l2 E) as [-> ->].
Qed.

Lemma join_outstanding_None key d l : join_outstanding key d l = None → key ∉ q_key <$> l.
Proof.
  induction l as [|q l IH]; cbn; [intros _; apply not_elem_of_nil|]. case_decide; [done|].
  intros E%fmap_None. apply not_elem_of_cons. split; [done|by apply IH].
Qed.

Lemma pv_wf_current (m : gmap DhtKey RunningQuery) p :
  dom m ⊆ dom (pv_current p) → pv_wf p → pv_wf (pv_with_current m p).
Proof.
  intros Hd [Ho Hc Hk Hdis]. split; cbn; [done| |done|].
  - apply subseteq_size in Hd. rewrite !size_dom in Hd. lia.
  - intros q Hq%Hdis. apply not_elem_of_dom. apply not_elem_of_dom in Hq. set_solver.
Qed.

Lemma start_next_wf id p : pv_wf p → pv_wf (start_next id p).1.
Proof.
  intros Hp. pose proof Hp as [Ho Hc Hk Hd]. unfold start_next. destruct (Z.ltb_spec (Z.of_nat (size (pv_current p))) (pv_max p)); [|done].
  destruct (pv_outstanding p) as [|q rest] eqn:E; [done|]. cbn in *.
  assert (pv_current p !! q_key q = None) as Hq by (apply Hd; left). inversion_clear Hk as [|? ? Hni Hk'].
  split; cbn; [lia| |done|].
  - rewrite map_size_insert_None by done. lia.
  - intros q' Hq'. rewrite lookup_insert_ne; [by apply Hd; right|]. intros Ek. apply Hni. rewrite Ek.
    by apply list_elem_of_fmap_2.
Qed.

Lemma poll_wf closed id p : pv_wf p → pv_wf (providers_poll closed id p).1.
Proof.
  intros Hp. unfold providers_poll. pose proof (start_next_wf id p Hp) as Hs.
  destruct (start_next id p) as [p1 o1]. cbn in *. apply pv_wf_current; [|done].
  intros k. rewrite !elem_of_dom. intros [q Hq]. apply map_lookup_filter_Some in Hq as [Hq _].
  rewrite lookup_fmap in Hq. apply fmap_Some in Hq as (q0 & -> & _). eauto.
Qed.

Lemma pv_wf_delete key p : pv_wf p → pv_wf (pv_with_current (delete key (pv_current p)) p).
Proof. apply pv_wf_current. rewrite dom_delete_L. set_solver. Qed.

Lemma pv_wf_update key q q' p :
  pv_current p !! key = Some q → pv_wf p → pv_wf (pv_with_current (<[key := q']> (pv_current p)) p).
Proof. intros Hq. apply pv_wf_current. rewrite dom_insert_lookup_L by eauto. done. Qed.

Lemma push_wf closed key limit c p : pv_wf p → pv_wf (providers_push closed key limit c p).1.2.
Proof.
  intros Hp. unfold providers_push. destruct (pv_current p !! key) as [q|] eqn:Eq.
  { cbn. case_match; [by eapply pv_wf_update|done]. }
  pose proof Hp as [Ho Hc Hk Hd]. destruct (join_outstanding _ _ _) as [l|] eqn:Ej; cbn [fst snd].
  - apply join_outstanding_keys in Ej as [Ek El]. split; cbn; rewrite ?Ek, ?El; try done.
    intros q Hq%(list_elem_of_fmap_2 q_key). rewrite Ek in Hq. apply list_elem_of_fmap in Hq as (q0 & -> & Hq0).
    by apply Hd.
  - destruct (Nat.ltb_spec (length (pv_outstanding p)) OUTSTANDING_LIMIT); [|done].
    apply join_outstanding_None in Ej. split; cbn; [rewrite length_app; cbn; lia|done| |].
    + rewrite fmap_app. apply list.NoDup_app. cbn. split_and!; [done| |apply NoDup_singleton].
      by intros k Hk1 ->%list_elem_of_singleton.
    + intros q [?|Hq%list_elem_of_singleton]%elem_of_app; [by apply Hd|by subst q].
Qed.

Lemma step_wf closed ev p : pv_wf p → pv_wf (pv_step closed ev p).1.
Proof.
  intros Hp. destruct ev as [key limit c|next id last key ps|next id|next id key|next]; cbn [pv_step].
  - pose proof (push_wf closed key limit c p Hp) as Hw. by destruct (providers_push _ _ _ _ _) as [[b p1] o].
  - unfold handle_get_providers_ok. destruct (pv_current p !! key) as [q|] eqn:Eq; [|done].
    case_decide; [done|]. case_decide; [by apply pv_wf_delete|].
    pose proof (poll_wf closed next _ (pv_wf_delete key p Hp)) as Hw.
    destruct (providers_poll _ _ _) as [p1 o1]. destruct last; [done|]. case_decide; [done|]. by eapply pv_wf_update.
  - unfold handle_no_additional_records. destruct (list_find _ _) as [[i [key q]]|]; [|done].
    by apply poll_wf, pv_wf_delete.
  - unfold handle_get_providers_error. destruct (pv_current p !! key) as [q|] eqn:Eq; [|done]. case_decide; [done|].
    pose proof (poll_wf closed next _ (pv_wf_delete key p Hp)) as Hw. by destruct (providers_poll _ _ _) as [p1 o1].
  - by apply poll_wf.
Qed.

(** *** What is sent to a caller *)

Definition sends (c : Channel) (log : list pv_effect) : list (gset PeerId) :=
  omap (λ e, match e with PvSend c' s => if decide (c' = c) then Some s else None | _ => None end) log.

Lemma sends_app c l l' : sends c (l ++ l') = sends c l ++ sends c l'.
Proof. apply omap_app. Qed.

Definition chans (ds : list QueryDetails) : list Channel := qd_channel <$> ds.

(** The callers of the query for a key, and the providers it has found *)
Definition holds (p : Providers) (k : DhtKey) (ds : list QueryDetails) (f : gset PeerId) : Prop :=
  (∃ q, pv_current p !! k = Some q ∧ ds = rq_queries q ∧ f = rq_found q) ∨
  (∃ q, q ∈ pv_outstanding p ∧ k = q_key q ∧ ds = q_queries q ∧ f = ∅).

(** Callers leave, queries end or start. *)
Definition shrinks (p p' : Providers) : Prop :=
  ∀ k ds' f, holds p' k ds' f → ∃ ds, holds p k ds f ∧ ds' `sublist_of` ds.

Lemma shrinks_self p : shrinks p p.
Proof. intros k ds f Hh. exists ds. split; [done|]. reflexivity. Qed.

Lemma shrinks_trans p1 p2 p3 : shrinks p1 p2 → shrinks p2 p3 → shrinks p1 p3.
Proof.
  intros H12 H23 k ds f (ds2 & (ds1 & Hh & Hs1)%H12 & Hs2)%H23. exists ds1. split; [done|]. by etrans.
Qed.

Lemma shrinks_delete key p : shrinks p (pv_with_current (delete key (pv_current p)) p).
Proof.
  intros k ds f [(q & Hq & -> & ->)|(q & Hq & -> & -> & ->)]; cbn in Hq.
  - apply lookup_delete_Some in Hq as [_ Hq]. eexists. split; [left; eauto|]. reflexivity.
  - eexists. split; [right; eauto|]. reflexivity.
Qed.

Lemma shrinks_start id p : shrinks p (start_next id p).1.
Proof.
  unfold start_next. case_match; [|apply shrinks_self]. destruct (pv_outstanding p) as [|q rest] eqn:E; [apply shrinks_self|].
  intros k ds f [(q1 & Hq & -> & ->)|(q1 & Hq & -> & -> & ->)]; cbn in Hq.
  - apply lookup_insert_Some in Hq as [[<- <-]|[_ Hq]]; cbn.
    + exists (q_queries q). split; [|reflexivity]. right. exists q. rewrite E. split; [left|done].
    + eexists. split; [left; eauto|]. reflexivity.
  - eexists. split; [right; exists q1; rewrite E; split; [by right|done]|]. reflexivity.
Qed.

Lemma open_sublist closed ds : open_queries closed ds `sublist_of` ds.
Proof. apply sublist_filter. Qed.

Lemma shrinks_poll closed id p : shrinks p (providers_poll closed id p).1.
Proof.
  unfold providers_poll. pose proof (shrinks_start id p) as Hs. destruct (start_next id p) as [p1 o1]. cbn in *.
  eapply shrinks_trans; [exact Hs|]. intros k ds f [(q & Hq & -> & ->)|(q & Hq & -> & -> & ->)]; cbn in Hq.
  - apply map_lookup_filter_Some in Hq as [Hq _]. rewrite lookup_fmap in Hq. apply fmap_Some in Hq as (q0 & Hq & ->).
    exists (rq_queries q0). split; [left; eauto|]. apply open_sublist.
  - eexists. split; [right; eauto|]. reflexivity.
Qed.

(** Effects without providers *)
Definition no_send (e : pv_effect) : Prop := match e with PvSend _ _ => False | _ => True end.

Lemma sends_none c log : Forall no_send log → sends c log = [].
Proof. unfold sends. induction 1 as [|[] log Hx _ IH]; cbn; done. Qed.

Lemma poll_no_send closed id p : Forall no_send (providers_poll closed id p).2.
Proof.
  unfold providers_poll. destruct (start_next id p) as [p1 o1] eqn:E. cbn. apply Forall_app. split.
  - unfold start_next in E. repeat case_match; simplify_eq; repeat constructor.
  - apply list.Forall_forall. intros e (kq & _ & He)%list_elem_of_omap. case_decide; by simplify_eq.
Qed.

Lemma sends_batch c ds s :
  NoDup (chans ds) →
  sends c ((λ d, PvSend (qd_channel d) s) <$> ds) = if decide (c ∈ chans ds) then [s] else [].
Proof.
  unfold sends, chans. induction ds as [|d ds IH]; intros Hn; cbn; [done|]. inversion_clear Hn as [|? ? Hni Hn'].
  rewrite IH by done. destruct (decide (qd_channel d = c)) as [<-|Hne].
  - rewrite decide_False by done. rewrite decide_True; [done|]. apply elem_of_cons. by left.
  - destruct (decide (c ∈ qd_channel <$> ds)) as [Hc|Hc].
    + rewrite decide_True; [done|]. apply elem_of_cons. by right.
    + rewrite decide_False; [done|]. by intros [->|?]%elem_of_cons.
Qed.

(** *** Nothing is sent twice *)

Definition disjoint_sends (l : list (gset PeerId)) : Prop :=
  ∀ i j s t, i ≠ j → l !! i = Some s → l !! j = Some t → s ## t.

Lemma disjoint_sends_snoc l s :
  disjoint_sends l → (∀ t, t ∈ l → t ## s) → disjoint_sends (l ++ [s]).
Proof.
  intros Hl Hs i j a b Hij Ha Hb. rewrite lookup_app in Ha, Hb.
  destruct (l !! i) as [x|] eqn:Ei; destruct (l !! j) as [y|] eqn:Ej; simplify_eq.
  - by eapply Hl.
  - apply list_lookup_singleton_Some in Hb as [_ <-]. apply Hs. by eapply list_elem_of_lookup_2.
  - apply list_lookup_singleton_Some in Ha as [_ <-]. symmetry. apply Hs. by eapply list_elem_of_lookup_2.
  - apply list_lookup_singleton_Some in Ha as [Hi _]. apply list_lookup_singleton_Some in Hb as [Hj _].
    apply lookup_ge_None in Ei, Ej. lia.
Qed.

(** The state after the requests of the callers [reqs] *)
Record reports (p : Providers) (log : list pv_effect) (reqs : list Channel) : Prop := {
  rp_wf : pv_wf p;
  rp_chans k ds f : holds p k ds f → NoDup (chans ds) ∧ chans ds ⊆ reqs;
  rp_found k ds f c s : holds p k ds f → c ∈ chans ds → s ∈ sends c log → s ⊆ f;
  rp_unique k k' ds ds' f f' c : holds p k ds f → holds p k' ds' f' → c ∈ chans ds → c ∈ chans ds' → k = k';
  rp_fresh c : c ∉ reqs → sends c log = [];
  rp_disjoint c : disjoint_sends (sends c log)
}.

Lemma sublist_mem (l l' : list Channel) c : l `sublist_of` l' → c ∈ l → c ∈ l'.
Proof. intros Hs Hc. exact (elem_of_sublist _ _ _ Hc Hs). Qed.

Lemma sublist_chans ds ds' : ds' `sublist_of` ds → chans ds' `sublist_of` chans ds.
Proof. apply fmap_sublist. Qed.

Lemma reports_shrinks p p' log out reqs :
  pv_wf p' → shrinks p p' → Forall no_send out → reports p log reqs → reports p' (log ++ out) reqs.
Proof.
  intros Hw Hs Hn [_ Hc Hf Hu Hfr Hd].
  assert (∀ c, sends c (log ++ out) = sends c log) as Es by (intros; by rewrite sends_app, (sends_none _ out), app_nil_r).
  split; [done|..].
  - intros k ds f (ds0 & [Hn0 Hsub]%Hc & Hsl%sublist_chans)%Hs. split; [by eapply sublist_NoDup|].
    intros c Hin. apply Hsub. by eapply sublist_mem.
  - intros k ds f c s (ds0 & Hh & Hsl%sublist_chans)%Hs Hin. rewrite Es. eapply Hf; [exact Hh|]. by eapply sublist_mem.
  - intros k k' ds ds' f f' c (d1 & H1' & S1%sublist_chans)%Hs (d2 & H2' & S2%sublist_chans)%Hs Hin1 Hin2.
    eapply (Hu k k' d1 d2); [done..| |]; by eapply sublist_mem.
  - intros c. rewrite Es. apply Hfr.
  - intros c. rewrite Es. apply Hd.
Qed.

(** The query of one key gets new providers, which are sent to all its callers. *)
Lemma reports_batch p log reqs key q ds news :
  pv_current p !! key = Some q → ds `sublist_of` rq_queries q → news ## rq_found q →
  reports p log reqs →
  reports (pv_with_current (<[key := {| rq_query_id := rq_query_id q; rq_found := rq_found q ∪ news; rq_queries := ds |}]>
                              (pv_current p)) p)
    (log ++ ((λ d, PvSend (qd_channel d) news) <$> ds)) reqs.
Proof.
  intros Eq Hsl Hnew [Hw Hc Hf Hu Hfr Hd].
  assert (holds p key (rq_queries q) (rq_found q)) as Hq by (left; eauto).
  destruct (Hc _ _ _ Hq) as [Hnd Hreq]. pose proof (sublist_chans _ _ Hsl) as Hslc.
  assert (NoDup (chans ds)) as Hnd' by (by eapply sublist_NoDup).
  assert (∀ c, sends c (log ++ ((λ d, PvSend (qd_channel d) news) <$> ds)) =
               sends c log ++ if decide (c ∈ chans ds) then [news] else []) as Es
    by (intros; by rewrite sends_app, sends_batch).
  set (p' := pv_with_current _ p).
  assert (∀ k ds' f, holds p' k ds' f →
    (k = key ∧ ds' = ds ∧ f = rq_found q ∪ news) ∨ (k ≠ key ∧ holds p k ds' f)) as Hh.
  { intros k ds' f [(q1 & Hq1 & -> & ->)|(q1 & Hq1 & -> & -> & ->)]; cbn in Hq1.
    - apply lookup_insert_Some in Hq1 as [[<- <-]|[Hne Hq1]]; [by left|right]. split; [done|]. left. eauto.
    - right. split; [|right; eauto]. intros <-. by rewrite (pw_disjoint _ Hw _ Hq1) in Eq. }
  split; [by eapply pv_wf_update|..].
  - intros k ds' f [(-> & -> & ->)|[_ ?]]%Hh; [|by eapply Hc]. split; [done|].
    intros c Hin. apply Hreq. by eapply sublist_mem.
  - intros k ds' f c s [(-> & -> & ->)|[Hne Hold]]%Hh Hin; rewrite Es, elem_of_app.
    + intros [Hs|Hs]; [|case_decide; set_solver].
      assert (s ⊆ rq_found q); [|set_solver]. eapply Hf; [exact Hq| |exact Hs]. by eapply sublist_mem.
    + rewrite decide_False; [by intros [?|?%not_elem_of_nil]; [eapply Hf|]|].
      intros Hc'. apply Hne. eapply (Hu k key); [exact Hold|exact Hq|done|by eapply sublist_mem].
  - intros k k' d1 d2 f1 f2 c [(-> & -> & ->)|[Hn1 H1']]%Hh [(-> & -> & ->)|[Hn2 H2']]%Hh Hin1 Hin2; [done|..].
    + eapply (Hu key k'); [exact Hq|exact H2'|by eapply sublist_mem|done].
    + eapply (Hu k key); [exact H1'|exact Hq|done|by eapply sublist_mem].
    + by eapply (Hu k k').
  - intros c Hni. rewrite Es, Hfr by done. rewrite decide_False; [done|]. intros Hin. apply Hni, Hreq.
    by eapply sublist_mem.
  - intros c. rewrite Es. case_decide as Hin; [|rewrite app_nil_r; apply Hd]. apply disjoint_sends_snoc; [apply Hd|].
    intros t Ht. assert (t ⊆ rq_found q); [|set_solver]. eapply Hf; [exact Hq| |exact Ht]. by eapply sublist_mem.
Qed.

Lemma shrinks_update key q ds p :
  pv_current p !! key = Some q → ds `sublist_of` rq_queries q →
  shrinks p (pv_with_current (<[key := rq_with_queries ds q]> (pv_current p)) p).
Proof.
  intros Eq Hs k ds' f [(q1 & Hq & -> & ->)|(q1 & Hq & -> & -> & ->)]; cbn in Hq.
  - apply lookup_insert_Some in Hq as [[<- <-]|[_ Hq]].
    + exists (rq_queries q). split; [left; eauto|done].
    + eexists. split; [left; eauto|]. reflexivity.
  - eexists. split; [right; eauto|]. reflexivity.
Qed.

(** The callers that are left are told what is new, or nothing. *)
Lemma reports_found p log reqs key q ds providers :
  pv_current p !! key = Some q → ds `sublist_of` rq_queries q → reports p log reqs →
  let news := providers ∖ rq_found q in
  reports (pv_with_current (<[key := {| rq_query_id := rq_query_id q; rq_found := rq_found q ∪ news; rq_queries := ds |}]>
                              (pv_current p)) p)
    (log ++ if decide (news = ∅) then [] else (λ d, PvSend (qd_channel d) news) <$> ds) reqs.
Proof.
  intros Eq Hs Hr news. case_decide as Hn.
  - rewrite Hn, union_empty_r_L. change {| rq_query_id := rq_query_id q; rq_found := rq_found q; rq_queries := ds |}
      with (rq_with_queries ds q).
    eapply reports_shrinks, Hr; [eapply pv_wf_update, Hr; done|by apply shrinks_update|constructor].
  - apply reports_batch; [done..|set_solver|done].
Qed.

(** A query ends after its callers were told, and [poll] follows. *)
Lemma reports_end closed next p log reqs key q out mid :
  let p1 := pv_with_current (<[key := q]> (pv_current p)) p in
  let r := providers_poll closed next (pv_with_current (delete key (pv_current p)) p) in
  reports p1 (log ++ out) reqs → Forall no_send mid →
  reports r.1 (log ++ out ++ mid ++ r.2) reqs.
Proof.
  intros p1 r Hr Hm. rewrite app_assoc.
  assert (pv_with_current (delete key (pv_current p)) p = pv_with_current (delete key (pv_current p1)) p1) as E.
  { unfold p1. cbn. unfold pv_with_current. cbn. by rewrite delete_insert_eq. }
  eapply reports_shrinks, Hr.
  - apply poll_wf. rewrite E. apply pv_wf_delete, Hr.
  - eapply shrinks_trans, shrinks_poll. rewrite E. apply shrinks_delete.
  - apply Forall_app. split; [done|apply poll_no_send].
Qed.

Lemma reports_ok closed next id last key providers p log reqs :
  reports p log reqs →
  let r := handle_get_providers_ok closed next id last key providers p in reports r.1 (log ++ r.2) reqs.
Proof.
  intros Hr. cbn zeta. unfold handle_get_providers_ok.
  assert (reports p (log ++ []) reqs) as Hr0 by (by rewrite app_nil_r).
  destruct (pv_current p !! key) as [q|] eqn:Eq; [|done]. case_decide; [done|]. cbn [rq_queries rq_with_queries].
  case_decide.
  { eapply reports_shrinks, Hr; [apply pv_wf_delete, Hr|apply shrinks_delete|by repeat constructor]. }
  pose proof (reports_found p log reqs key q _ providers Eq (open_sublist closed (rq_queries q)) Hr) as Hf.
  cbn zeta in Hf. cbn [rq_found rq_query_id rq_queries rq_with_queries].
  set (out := if decide (providers ∖ rq_found q = ∅) then [] else _) in *. clearbody out.
  destruct last; [|case_decide].
  - pose proof (reports_end closed next p log reqs key _ _ [] Hf (Forall_nil_2 _)) as He. cbn zeta in He. revert He.
    by destruct (providers_poll closed next _) as [p2 o2].
  - pose proof (reports_end closed next p log reqs key _ _ [PvFinish id] Hf) as He. cbn zeta in He. revert He.
    destruct (providers_poll closed next _) as [p2 o2]. intros He. apply He. by repeat constructor.
  - cbn [fst snd]. rewrite <-(app_nil_r out), app_assoc.
    eapply reports_shrinks, Hf; [eapply pv_wf_update, Hr; done| |constructor].
    match goal with |- shrinks ?a ?b => set (p1 := a); set (p2 := b) end.
    assert (p2 = pv_with_current (<[key := rq_with_queries
      (filter (λ d, Z.of_nat (size (rq_found q ∪ providers ∖ rq_found q)) ≤ qd_limit d) (open_queries closed (rq_queries q)))
      {| rq_query_id := rq_query_id q; rq_found := rq_found q ∪ providers ∖ rq_found q;
         rq_queries := open_queries closed (rq_queries q) |}]> (pv_current p1)) p1) as ->.
    { unfold p1, p2, pv_with_current. cbn. by rewrite insert_insert_eq. }
    apply shrinks_update; [apply lookup_insert_eq|]. apply sublist_filter.
Qed.

(** A new caller joins the query for a key, or starts one. *)
Lemma reports_request p p' log out reqs key d :
  pv_wf p' → qd_channel d ∉ reqs →
  (∀ k ds f, holds p' k ds f → holds p k ds f ∨
     (k = key ∧ ∃ ds0, ds = ds0 ++ [d] ∧ (holds p key ds0 f ∨ ds0 = []) ∧
        ∀ s, s ∈ sends (qd_channel d) out → s ⊆ f)) →
  (∀ c, c ≠ qd_channel d → sends c out = []) → (length (sends (qd_channel d) out) ≤ 1)%nat →
  reports p log reqs → reports p' (log ++ out) (reqs ++ [qd_channel d]).
Proof.
  intros Hw Hfresh Hh Hoth Hone [_ Hc Hf Hu Hfr Hd].
  assert (∀ c, c ≠ qd_channel d → sends c (log ++ out) = sends c log) as Es
    by (intros; by rewrite sends_app, Hoth, app_nil_r).
  assert (sends (qd_channel d) (log ++ out) = sends (qd_channel d) out) as Esd by (by rewrite sends_app, Hfr).
  assert (∀ k ds f, holds p k ds f → qd_channel d ∉ chans ds) as Hnot.
  { intros k ds f [_ Hsub]%Hc Hin. by apply Hfresh, Hsub. }
  assert (∀ ds0, chans (ds0 ++ [d]) = chans ds0 ++ [qd_channel d]) as Esn
    by (intros; unfold chans; by rewrite fmap_app).
  split; [done|..].
  - intros k ds f [Hold|(-> & ds0 & -> & Hds0 & _)]%Hh.
    + destruct (Hc _ _ _ Hold) as [? ?]. split; [done|]. etrans; [done|]. set_solver.
    + rewrite Esn. destruct Hds0 as [Hold| ->]; [|cbn; split; [apply NoDup_singleton|set_solver]].
      destruct (Hc _ _ _ Hold) as [? Hsub]. split; [|set_solver]. apply list.NoDup_app. split_and!; [done| |apply NoDup_singleton].
      intros c Hin ->%list_elem_of_singleton. by eapply Hnot.
  - intros k ds f c s [Hold|(-> & ds0 & -> & Hds0 & Hs)]%Hh Hin.
    + rewrite Es; [by eapply Hf|]. intros ->. by eapply Hnot.
    + destruct (decide (c = qd_channel d)) as [->|Hne]; [rewrite Esd; apply Hs|]. rewrite Es by done.
      rewrite Esn in Hin. destruct Hds0 as [Hold| ->]; [|set_solver]. eapply Hf; [exact Hold|set_solver].
  - intros k k' d1 d2 f1 f2 c [H1'|(-> & e1 & -> & He1 & _)]%Hh [H2'|(-> & e2 & -> & He2 & _)]%Hh Hin1 Hin2; [by eapply Hu| | |done];
      rewrite Esn in *.
    + assert (c ≠ qd_channel d) as Hne by (intros ->; by eapply Hnot). destruct He2 as [Hold| ->]; [|set_solver].
      apply (Hu k key d1 e2 f1 f2 c); [exact H1'|exact Hold|done|set_solver].
    + assert (c ≠ qd_channel d) as Hne by (intros ->; by eapply (Hnot k')). destruct He1 as [Hold| ->]; [|set_solver].
      apply (Hu key k' e1 d2 f1 f2 c); [exact Hold|exact H2'|set_solver|done].
  - intros c Hni. rewrite Es by set_solver. apply Hfr. set_solver.
  - intros c. destruct (decide (c = qd_channel d)) as [->|Hne]; [rewrite Esd|rewrite Es by done; apply Hd].
    intros i j a b Hij Ha%lookup_lt_Some Hb%lookup_lt_Some. lia.
Qed.

Lemma join_outstanding_elem key d l l' q' :
  join_outstanding key d l = Some l' → q' ∈ l' →
  q' ∈ l ∨ ∃ q, q ∈ l ∧ q_key q = key ∧ q' = {| q_key := q_key q; q_queries := q_queries q ++ [d] |}.
Proof.
  revert l'. induction l as [|q l IH]; intros l'; cbn; [done|]. case_decide as Hk.
  - intros [= <-] [->|Hin]%elem_of_cons; [right; exists q; split; [left|done]|left; by right].
  - intros (l2 & E & ->)%fmap_Some [->|Hin]%elem_of_cons; [left; left|].
    destruct (IH l2 E Hin) as [?|(q1 & ? & ?)]; [left; by right|right; exists q1; split; [by right|done]].
Qed.

Lemma reports_push closed key limit c p log reqs :
  c ∉ reqs → reports p log reqs →
  let r := providers_push closed key limit c p in reports r.1.2 (log ++ r.2) (reqs ++ [c]).
Proof.
  intros Hc Hr. cbn zeta. pose proof (push_wf closed key limit c p (rp_wf _ _ _ Hr)) as Hw. revert Hw.
  set (d := {| qd_limit := limit; qd_channel := c |}). unfold providers_push.
  destruct (pv_current p !! key) as [q|] eqn:Eq; cbn [fst snd]; fold d; intros Hw.
  - set (s := list_to_set (take (Z.to_nat limit) (hs_iter (rq_found q))) : gset PeerId) in *.
    assert (s ⊆ rq_found q) as Hs.
    { intros x. unfold s. rewrite elem_of_list_to_set. intros Hx. apply elem_of_hs_iter.
      eapply elem_of_sublist; [exact Hx|apply sublist_take]. }
    set (out := if decide (s = ∅) then [] else [PvSend c s]).
    assert (∀ t, t ∈ sends c out → t ⊆ rq_found q) as Hout.
    { intros t. unfold out. case_decide; cbn; [by intros ?%not_elem_of_nil|]. rewrite decide_True by done.
      by intros ->%list_elem_of_singleton. }
    apply (reports_request p _ log out reqs key d); [done|done| | | |done].
    + intros k ds f. case_match; [|by left]. intros [(q1 & Hq1 & -> & ->)|(q1 & Hq1 & -> & -> & ->)]; cbn in Hq1.
      * apply lookup_insert_Some in Hq1 as [[<- <-]|[Hne Hq1]]; [|left; left; eauto]. right. split; [done|].
        exists (rq_queries q). split_and!; [done|left; left; eauto|done].
      * left. right. eauto.
    + intros c' Hne. unfold out. case_decide; cbn; [done|]. by rewrite decide_False.
    + unfold out. case_decide; cbn; [lia|]. rewrite decide_True by done. cbn. lia.
  - destruct (join_outstanding _ _ _) as [l|] eqn:Ej; cbn [fst snd] in *.
    + apply (reports_request p _ log [] reqs key d); [done|done| |done|cbn; lia|done].
      intros k ds f [(q1 & Hq1 & -> & ->)|(q1 & Hq1 & -> & -> & ->)]; cbn in Hq1; [left; left; eauto|].
      destruct (join_outstanding_elem _ _ _ _ _ Ej Hq1) as [?|(q2 & Hq2 & Hk & ->)]; [left; right; eauto|].
      right. split; [done|]. exists (q_queries q2). split_and!; [done|left; right; eauto|by intros s ?%not_elem_of_nil].
    + destruct (length (pv_outstanding p) <? OUTSTANDING_LIMIT)%nat; cbn [fst snd] in *;
        apply (reports_request p _ log [] reqs key d); try done; try (cbn; lia); intros k ds f; [|by left].
      intros [(q1 & Hq1 & -> & ->)|(q1 & Hq1 & -> & -> & ->)]; cbn in Hq1; [left; left; eauto|].
      apply elem_of_app in Hq1 as [?|Hq1%list_elem_of_singleton]; [left; right; eauto|subst q1]. right. split; [done|].
      exists []. split_and!; [done|by right|by intros s ?%not_elem_of_nil].
Qed.

Definition request_of (ev : (Channel → bool) * pv_event) : list Channel :=
  match ev.2 with PeRequest _ _ c => [c] | _ => [] end.
Definition requests (evs : list ((Channel → bool) * pv_event)) : list Channel := evs ≫= request_of.

Lemma reports_step closed ev p log reqs :
  NoDup (reqs ++ request_of (closed, ev)) → reports p log reqs →
  reports (pv_step closed ev p).1 (log ++ (pv_step closed ev p).2) (reqs ++ request_of (closed, ev)).
Proof.
  intros Hn Hr. assert (reports p (log ++ []) reqs) as Hr0 by (by rewrite app_nil_r).
  destruct ev as [key limit c|next id last key ps|next id|next id key|next]; cbn [pv_step request_of snd] in *;
    rewrite ?app_nil_r in Hn |- *.
  - apply list.NoDup_app in Hn as (_ & Hn & _).
    pose proof (reports_push closed key limit c p log reqs) as Hp. cbn zeta in Hp. revert Hp.
    destruct (providers_push _ _ _ _ _) as [[b p1] o]. intros Hp. apply Hp; [|done]. intros Hin. apply (Hn c Hin). left.
  - by apply reports_ok.
  - unfold handle_no_additional_records. destruct (list_find _ _) as [[i [key q]]|]; [|done].
    eapply reports_shrinks, Hr; [apply poll_wf, pv_wf_delete, Hr| |apply poll_no_send].
    eapply shrinks_trans, shrinks_poll. apply shrinks_delete.
  - unfold handle_get_providers_error. destruct (pv_current p !! key) as [q|] eqn:Eq; [|done]. case_decide; [done|].
    pose proof (poll_wf closed next _ (pv_wf_delete key p (rp_wf _ _ _ Hr))) as Hw.
    pose proof (shrinks_trans _ _ _ (shrinks_delete key p) (shrinks_poll closed next _)) as Hs.
    pose proof (poll_no_send closed next (pv_with_current (delete key (pv_current p)) p)) as Ho. revert Hw Hs Ho.
    destruct (providers_poll _ _ _) as [p1 o1]. intros Hw Hs Ho. eapply reports_shrinks, Hr; [done..|].
    apply Forall_app. split; [|done]. apply Forall_fmap, list.Forall_forall. done.
  - eapply reports_shrinks, Hr; [apply poll_wf, Hr|apply shrinks_poll|apply poll_no_send].
Qed.

Lemma reports_run evs : ∀ p log reqs,
  NoDup (reqs ++ requests evs) → reports p log reqs →
  reports (pv_run evs p).1 (log ++ (pv_run evs p).2) (reqs ++ requests evs).
Proof.
  induction evs as [|[closed ev] evs IH]; intros p log reqs Hn Hr; cbn [pv_run].
  { by rewrite !app_nil_r. }
  change (requests ((closed, ev) :: evs)) with (request_of (closed, ev) ++ requests evs) in *. rewrite app_assoc in *.
  pose proof (reports_step closed ev p log reqs) as Hs. revert Hs. destruct (pv_step closed ev p) as [p1 o1]. intros Hs.
  specialize (IH p1 (log ++ o1) (reqs ++ request_of (closed, ev)) Hn). revert IH.
  destruct (pv_run evs p1) as [p2 o2]. cbn. rewrite app_assoc. intros IH. apply IH, Hs; [|done].
  by apply list.NoDup_app in Hn as [? _].
Qed.

Lemma Providers_new_reports max : reports (Providers_new max) [] [].
Proof.
  assert (∀ k ds f, ¬ holds (Providers_new max) k ds f) as Hn.
  { intros k ds f [(q & Hq & _)|(q & Hq & _)]; cbn in Hq; [by rewrite lookup_empty in Hq|by apply not_elem_of_nil in Hq]. }
  split; try (intros; by edestruct Hn).
  - split; cbn; [lia|rewrite map_size_empty; lia|constructor|]. by intros q ?%not_elem_of_nil.
  - done.
  - intros c i j a b _ Ha. by destruct i.
Qed.

(** C36: provider queries.  Whatever is requested, found or lost, in any order: at most
    the configured number of queries run and at most 2048 wait, there is one query for a
    key, and no provider is reported twice to the same caller, however the results
    arrive and whenever the caller joined a running query. *)
Theorem providers_reported_once max evs p log :
  pv_run evs (Providers_new max) = (p, log) → NoDup (requests evs) →
  pv_wf p ∧ ∀ c i j s t, i ≠ j → sends c log !! i = Some s → sends c log !! j = Some t → s ## t.
Proof.
  intros Hrun Hn. pose proof (reports_run evs (Providers_new max) [] [] Hn (Providers_new_reports max)) as Hr.
  rewrite Hrun in Hr. split; [apply Hr|]. intros c. apply Hr.
Qed.
End providers.

(** ** The callers of the node *)

Section node.
Context `{Multiformats} `{HashOrder} `{!Lru} `{!Libp2p}.
Variable peer_to_bytes : PeerId → bytes.
Variable mh_to_bytes : Multihash → bytes.
Variable error_for : string → PeerId → string → string.

Abbreviation turn_of := (run_turn peer_to_bytes mh_to_bytes error_for).

(** The callers a message brings: those that wait for one answer.  A request for providers
    brings a channel for any number of results, see [heard]. *)
Definition gossip_tx (g : GossipsubMessage) : Tx :=
  match g with
  | AddExplicitPeer tx _ | AllMeshPeers tx | AllPeers tx | MeshPeers tx _ | Publish tx _ _
  | RemoveExplicitPeer tx _ | Subscribe tx _ | Topics tx | Unsubscribe tx _ => tx
  end.
Definition message_txs (m : RpcMessage) : list Tx :=
  match m with
  | ExternalAddrs tx | Listeners tx | LocalPeerId tx | BitswapNotifyNewBlocks _ tx | BitswapStopSession _ tx
  | StartProviding tx _ | StopProviding tx _ | NetListeningAddrs tx | NetPeers tx | NetConnectByPeerId tx _
  | NetConnect tx _ _ | NetDisconnect tx _ | FindPeerOnDHT tx _ | LookupPeerInfo tx _ | ListenForIdentify tx _
  | CancelListenForIdentify tx _ | AddressesOfPeer tx _ | LookupLocalPeerInfo tx => [tx]
  | Gossipsub g => [gossip_tx g]
  | BitswapRequest _ _ txs _ => txs
  | ProviderRequest _ _ _ | Shutdown => []
  end.
Definition turn_txs (t : turn) : list Tx :=
  match t with
  | TurnRpc m => message_txs m
  | TurnSwarm (SwarmBehaviour (EventBitswap (Ping _ tx))) => [tx]
  | _ => []
  end.

(** Who is answered, and who is handed to a task: a worker that waits for a block, or a task
    that stops a session *)
Definition answered (out : list effect) : list Tx :=
  omap (λ e, match e with Answer tx _ => Some tx | _ => None end) out.
Definition handed_over (out : list effect) : list Tx :=
  omap (λ e, match e with SpawnWorker _ w _ => Some (wk_chan w) | StopSession _ _ tx => tx | _ => None end) out.

(** Who waits *)
Definition in_map {K} `{Countable K} (m : gmap K (list Tx)) : list Tx := mjoin (map_to_list m).*2.
Definition in_queue (n : Node) : list Tx :=
  in_map (nd_dial_queries n) ++ in_map (nd_lookup_queries n) ++ in_map (snd <$> nd_find_on_dht_queries n).

(** Who is lost: callers whose response channel is dropped *)
Definition lost (sw : Swarm) (t : turn) (n : Node) : list Tx :=
  match t with
  | TurnRpc (Gossipsub g) => if sw_gossipsub sw is Some _ then [] else [gossip_tx g]
  | TurnRpc (BitswapRequest _ cids txs _) => if sw_bitswap sw then drop (length cids) txs else txs
  | TurnRpc (CancelListenForIdentify _ peer) => default [] (nd_lookup_queries n !! peer)
  | TurnSwarm (SwarmBehaviour (EventKademlia _ last (ClosestPeers key peers))) =>
      match nd_find_on_dht_queries n !! key with
      | Some (peer, txs) => if negb (bool_decide (peer ∈ peers)) && negb last then txs else []
      | None => []
      end
  | _ => []
  end.

Lemma in_map_delete {K} `{Countable K} (m : gmap K (list Tx)) k l :
  m !! k = Some l → in_map m ≡ₚ l ++ in_map (delete k m).
Proof. intros Hk. unfold in_map. by rewrite <-(map_to_list_delete m k l Hk). Qed.

Lemma in_map_insert {K} `{Countable K} (m : gmap K (list Tx)) k l :
  m !! k = None → in_map (<[k := l]> m) ≡ₚ l ++ in_map m.
Proof. intros Hk. unfold in_map. by rewrite map_to_list_insert. Qed.

Lemma in_map_update {K} `{Countable K} (m : gmap K (list Tx)) k l :
  in_map (<[k := l]> m) ++ default [] (m !! k) ≡ₚ l ++ in_map m.
Proof.
  destruct (m !! k) as [l0|] eqn:E; cbn; [|by rewrite app_nil_r, in_map_insert].
  rewrite <-insert_delete_eq, in_map_insert by apply lookup_delete_eq. rewrite (in_map_delete m k l0 E). solve_Permutation.
Qed.

Lemma in_map_push {K} `{Countable K} (m : gmap K (list Tx)) k tx :
  in_map (<[k := default [] (m !! k) ++ [tx]]> m) ≡ₚ tx :: in_map m.
Proof.
  apply (Permutation_app_inv_r (default [] (m !! k))). rewrite in_map_update. solve_Permutation.
Qed.

Lemma answered_effects_app l l' : answered (l ++ l') = answered l ++ answered l'.
Proof. apply omap_app. Qed.
Lemma handed_app l l' : handed_over (l ++ l') = handed_over l ++ handed_over l'.
Proof. apply omap_app. Qed.

(** The callers [txs] come in, those in [gone] are lost. *)
Definition balances (txs : list Tx) (n n' : Node) (out : list effect) (gone : list Tx) : Prop :=
  txs ++ in_queue n ≡ₚ answered out ++ handed_over out ++ in_queue n' ++ gone.

Lemma balances_same txs n n' out :
  in_queue n' = in_queue n → txs = answered out ++ handed_over out → balances txs n n' out [].
Proof. unfold balances. intros -> ->. solve_Permutation. Qed.

(** Answers to a list of callers *)
Lemma answered_all (l : list Tx) r : answered ((λ tx, Answer tx r) <$> l) = l ∧ handed_over ((λ tx, Answer tx r) <$> l) = [].
Proof. unfold answered, handed_over. induction l as [|tx l [IH1 IH2]]; cbn; [done|]. by rewrite IH1, IH2. Qed.

(** Effects that concern no caller *)
Definition tacit (e : effect) : Prop :=
  match e with Answer _ _ | SpawnWorker _ _ _ | StopSession _ _ (Some _) => False | _ => True end.

Lemma tacit_none out : Forall tacit out → answered out = [] ∧ handed_over out = [].
Proof.
  unfold answered, handed_over. induction 1 as [|[] out He _ [IH1 IH2]]; cbn; try done. by case_match.
Qed.

Lemma balances_tacit txs n n' out out' gone :
  Forall tacit out' → balances txs n n' out gone → balances txs n n' (out' ++ out) gone.
Proof. intros [E1 E2]%tacit_none. unfold balances. by rewrite answered_effects_app, handed_app, E1, E2. Qed.

Lemma balances_tacit_r txs n n' out out' gone :
  Forall tacit out' → balances txs n n' out gone → balances txs n n' (out ++ out') gone.
Proof. intros [E1 E2]%tacit_none. unfold balances. by rewrite answered_effects_app, handed_app, E1, E2, !app_nil_r. Qed.

Lemma balances_state txs n n1 n2 out gone :
  in_queue n2 = in_queue n1 → balances txs n n1 out gone → balances txs n n2 out gone.
Proof. unfold balances. by intros ->. Qed.

Lemma in_map_fmap_insert (m : gmap bytes (PeerId * list Tx)) k v :
  in_map (snd <$> <[k := v]> m) = in_map (<[k := v.2]> (snd <$> m)).
Proof. by rewrite fmap_insert. Qed.

Lemma drain_dials_balances peer r n :
  balances [] n (drain_dials peer r n).1 (drain_dials peer r n).2 [].
Proof.
  unfold drain_dials. destruct (nd_dial_queries n !! peer) as [l|] eqn:E; [|by apply balances_same].
  cbn [fst snd]. unfold balances, in_queue. cbn [nd_with_dials nd_dial_queries nd_lookup_queries nd_find_on_dht_queries].
  destruct (answered_all (reverse l) (RResult r)) as [-> ->]. rewrite reverse_Permutation.
  pose proof (in_map_update (nd_dial_queries n) peer []) as Hu. rewrite E in Hu. cbn in Hu. rewrite <-Hu. solve_Permutation.
Qed.

Lemma answer_lookups_balances peer r n :
  balances [] n (answer_lookups peer r n).1 (answer_lookups peer r n).2 [].
Proof.
  unfold answer_lookups. destruct (nd_lookup_queries n !! peer) as [l|] eqn:E; [|by apply balances_same].
  cbn [fst snd]. unfold balances, in_queue. cbn [nd_with_lookups nd_dial_queries nd_lookup_queries nd_find_on_dht_queries].
  destruct (answered_all l (RIdentify r)) as [-> ->]. rewrite (in_map_delete _ _ _ E). solve_Permutation.
Qed.

Lemma connect_balances sw tx peer addrs n :
  balances [tx] n (connect error_for sw tx peer addrs n).1 (connect error_for sw tx peer addrs n).2 [].
Proof.
  unfold connect. destruct (sw_is_connected sw peer); [by apply balances_same|].
  set (n1 := nd_with_dials _ n). assert ([tx] ++ in_queue n ≡ₚ in_queue n1) as Hq.
  { unfold in_queue, n1. cbn. by rewrite in_map_push. }
  destruct (sw_dial sw peer addrs) as [e|].
  - pose proof (drain_dials_balances peer (Err (error_for "error dialing peer" peer e)) n1) as Hd.
    destruct (drain_dials _ _ _) as [n2 o2]. cbn [fst snd] in *. apply (balances_tacit _ _ _ _ [Dial peer addrs]); [by repeat constructor|].
    unfold balances in *. by rewrite Hq.
  - unfold balances. cbn. by rewrite Hq, app_nil_r.
Qed.

Lemma zip_snd_drop {A} (l : list A) (k : list Tx) : (zip l k).*2 ++ drop (length l) k = k.
Proof. revert k. induction l as [|x l IH]; intros [|y k]; cbn; [done..|]. by rewrite IH. Qed.

Lemma want_blocks_balances sw ctx providers l n :
  let '(r, n', out) := want_blocks sw ctx providers l n in
  balances (l.*2) n n' out (if sw_bitswap sw then [] else l.*2).
Proof.
  revert n. induction l as [|[cid tx] l IH]; intros n; cbn [want_blocks].
  { apply balances_state with n; [done|]. destruct (sw_bitswap sw); by apply balances_same. }
  unfold want_block. destruct (sw_bitswap sw) eqn:Eb.
  - set (n1 := nd_with_sessions _ n). specialize (IH n1). destruct (want_blocks sw ctx providers l n1) as [[r n2] o2].
    unfold balances in *. change (in_queue n) with (in_queue n1). cbn. rewrite IH. solve_Permutation.
  - unfold balances. cbn. solve_Permutation.
Qed.

Lemma destroy_session_balances sw ctx tx n :
  balances (option_list tx) n (destroy_session sw ctx tx n).1 (destroy_session sw ctx tx n).2 [].
Proof.
  unfold destroy_session. destruct (sw_bitswap sw); [|by destruct tx; apply balances_same].
  apply balances_same; [done|]. by destruct tx.
Qed.

Lemma balances_trans n1 n2 n3 o1 o2 :
  balances [] n1 n2 o1 [] → balances [] n2 n3 o2 [] → balances [] n1 n3 (o1 ++ o2) [].
Proof.
  unfold balances. cbn. rewrite !app_nil_r. intros -> ->. rewrite answered_effects_app, handed_app. solve_Permutation.
Qed.

Lemma expiry_balances sw finished n : balances [] n (expiry sw finished n).1 (expiry sw finished n).2 [].
Proof.
  unfold expiry. destruct (expire_sessions _ _ _ _) as [m ids].
  apply (foldl_invariant (λ r : Node * list effect, balances [] n r.1 r.2 [])); [|by apply balances_same].
  intros [n1 o1] id _ Hb. pose proof (destroy_session_balances sw id None n1) as Hd.
  destruct (destroy_session sw id None n1) as [n2 o2]. by eapply balances_trans.
Qed.

Lemma find_peer_balances sw tx peer n :
  balances [tx] n (find_peer_on_dht peer_to_bytes sw tx peer n).1 (find_peer_on_dht peer_to_bytes sw tx peer n).2 [].
Proof.
  unfold find_peer_on_dht. destruct (sw_kad sw); [|by apply balances_same].
  pose proof (in_map_push (snd <$> nd_find_on_dht_queries n) (peer_to_bytes peer) tx) as Hp. rewrite lookup_fmap in Hp.
  destruct (nd_find_on_dht_queries n !! peer_to_bytes peer) as [[p l]|] eqn:E; cbn [fst snd]; cbn in Hp;
    unfold balances, in_queue; cbn [nd_with_dht nd_dial_queries nd_lookup_queries nd_find_on_dht_queries];
    rewrite in_map_fmap_insert; cbn; rewrite Hp; solve_Permutation.
Qed.

Lemma emit_tacit ev n : Forall tacit (emit_network_event ev n).
Proof. apply Forall_fmap, list.Forall_forall. done. Qed.
Lemma providers_tacit out : Forall tacit (ProvidersEffect <$> out).
Proof. apply Forall_fmap, list.Forall_forall. done. Qed.

Lemma balances_tacit_only n n' out : in_queue n' = in_queue n → Forall tacit out → balances [] n n' out [].
Proof. intros E [E1 E2]%tacit_none. apply balances_same; [done|]. by rewrite E1, E2. Qed.

Lemma provider_request_balances sw key c limit n :
  balances [] n (provider_request sw key c limit n).1 (provider_request sw key c limit n).2 [].
Proof.
  unfold provider_request. destruct key as [key|ctx cid]; [|by apply balances_same].
  destruct (sw_kad sw); [|by apply balances_same].
  destruct (providers_push _ _ _ _ _) as [[b p] o]. apply balances_tacit_only; [done|apply providers_tacit].
Qed.

Lemma rpc_balances sw m n :
  let '(r, n', out) := handle_rpc_message peer_to_bytes error_for sw m n in
  balances (message_txs m) n n' out (lost sw (TurnRpc m) n).
Proof.
  destruct m; cbn [handle_rpc_message message_txs lost]; try (by apply balances_same).
  - pose proof (want_blocks_balances sw ctx providers (zip cids response_channels) n) as Hb.
    destruct (want_blocks _ _ _ _ _) as [[r n'] out]. unfold balances in *.
    rewrite <-(zip_snd_drop cids response_channels) at 1. rewrite <-app_assoc, (Permutation_app_comm (drop _ _)), app_assoc, Hb.
    destruct (sw_bitswap sw); [solve_Permutation|]. rewrite <-(zip_snd_drop cids response_channels) at 3. solve_Permutation.
  - apply balances_tacit; [|by apply balances_same]. destruct (sw_bitswap sw); repeat constructor.
  - pose proof (destroy_session_balances sw ctx (Some tx) n) as Hb. by destruct (destroy_session _ _ _ _).
  - pose proof (provider_request_balances sw key c limit n) as Hb. by destruct (provider_request _ _ _ _ _).
  - destruct (sw_kad sw); by apply balances_same.
  - destruct (sw_kad sw); by apply balances_same.
  - pose proof (connect_balances sw tx peer [] n) as Hb. by destruct (connect _ _ _ _ _ _).
  - match goal with |- context [connect error_for sw tx peer ?a n] => pose proof (connect_balances sw tx peer a n) as Hb end.
    by destruct (connect _ _ _ _ _ _).
  - destruct (sw_gossipsub sw) as [gs|]; [|by unfold balances; cbn; solve_Permutation].
    destruct g; by apply balances_same.
  - pose proof (find_peer_balances sw tx peer n) as Hb. by destruct (find_peer_on_dht _ _ _ _ _).
  - unfold balances, in_queue. cbn. rewrite in_map_push. solve_Permutation.
  - apply balances_tacit; [apply emit_tacit|]. unfold balances, in_queue. cbn.
    destruct (nd_lookup_queries n !! peer) as [l|] eqn:E; cbn.
    + rewrite (in_map_delete _ _ _ E). solve_Permutation.
    + rewrite delete_id by done. by rewrite app_nil_r.
Qed.

Lemma kademlia_balances sw id last r n :
  let q := handle_kademlia error_for sw id last r n in
  balances [] n q.1 q.2 (lost sw (TurnSwarm (SwarmBehaviour (EventKademlia id last r))) n).
Proof.
  cbn zeta. destruct r as [key ps| |key|key ps|key|]; cbn [handle_kademlia lost];
    try (destruct (sw_kad sw); [|by apply balances_same]; apply balances_tacit_only; [done|apply providers_tacit]).
  - destruct (nd_find_on_dht_queries n !! key) as [[peer l]|] eqn:E; [|by apply balances_same].
    assert (in_map (snd <$> nd_find_on_dht_queries n) ≡ₚ l ++ in_map (snd <$> delete key (nd_find_on_dht_queries n))) as Hm.
    { rewrite fmap_delete. apply in_map_delete. by rewrite lookup_fmap, E. }
    destruct (negb _ && negb last); unfold balances, in_queue;
      cbn [fst snd nd_with_dht nd_dial_queries nd_lookup_queries nd_find_on_dht_queries]; rewrite Hm; [cbn; solve_Permutation|].
    match goal with |- context [Answer _ ?r] => destruct (answered_all l r) as [-> ->] end. solve_Permutation.
  - destruct (nd_find_on_dht_queries n !! key) as [[peer l]|] eqn:E; [|by apply balances_same].
    assert (in_map (snd <$> nd_find_on_dht_queries n) ≡ₚ l ++ in_map (snd <$> delete key (nd_find_on_dht_queries n))) as Hm.
    { rewrite fmap_delete. apply in_map_delete. by rewrite lookup_fmap, E. }
    unfold balances, in_queue. cbn [fst snd nd_with_dht nd_dial_queries nd_lookup_queries nd_find_on_dht_queries].
    rewrite Hm. match goal with |- context [Answer _ ?r] => destruct (answered_all l r) as [-> ->] end. solve_Permutation.
  - by apply balances_same.
Qed.

Lemma identify_balances sw peer info n :
  balances [] n (handle_identify sw peer info n).1 (handle_identify sw peer info n).2 [].
Proof.
  unfold handle_identify.
  pose proof (answer_lookups_balances peer (Ok info) (nd_with_peer_manager (inject_identify_info peer info (nd_peer_manager n)) n)) as Hb.
  destruct (answer_lookups _ _ _) as [n1 o1]. cbn [fst snd] in *. apply balances_tacit; [|exact Hb].
  apply Forall_app. split; [|destruct (sw_bitswap sw); repeat constructor].
  apply list.Forall_forall. intros e (protocol & He & _)%list_elem_of_bind. unfold identify_addresses in He.
  repeat case_decide; repeat case_match; try (by apply not_elem_of_nil in He);
    by apply list_elem_of_fmap in He as (a & -> & _).
Qed.

Lemma node_event_balances sw ev n :
  let '(r, n', out) := handle_node_event peer_to_bytes mh_to_bytes error_for sw ev n in
  balances (turn_txs (TurnSwarm (SwarmBehaviour ev))) n n' out (lost sw (TurnSwarm (SwarmBehaviour ev)) n).
Proof.
  destruct ev as [[key|key c limit|peer tx]|id last r|peer info|peer e|peer rtt|ev|peers|]; cbn [handle_node_event turn_txs].
  - apply balances_tacit_only; [done|]. destruct (sw_kad sw); repeat constructor.
  - pose proof (rpc_balances sw (ProviderRequest (KeyDht (mh_to_bytes (cid_hash key))) c limit) n) as Hb. revert Hb.
    by destruct (handle_rpc_message _ _ _ _ _) as [[r n'] out].
  - by apply balances_same.
  - pose proof (kademlia_balances sw id last r n) as Hb. cbn zeta in Hb. revert Hb. by destruct (handle_kademlia _ _ _ _ _ _).
  - pose proof (identify_balances sw peer info n) as Hb. by destruct (handle_identify _ _ _ _).
  - match goal with |- context [answer_lookups peer ?r n] => pose proof (answer_lookups_balances peer r n) as Hb end.
    by destruct (answer_lookups _ _ _).
  - by apply balances_same.
  - apply balances_tacit_only; [done|apply emit_tacit].
  - apply balances_tacit_only; [done|]. apply Forall_fmap, list.Forall_forall. done.
  - by apply balances_same.
Qed.

Lemma swarm_event_balances sw ev n :
  let '(r, n', out) := handle_swarm_event peer_to_bytes mh_to_bytes error_for sw ev n in
  balances (turn_txs (TurnSwarm ev)) n n' out (lost sw (TurnSwarm ev) n).
Proof.
  destruct ev as [ev|peer num|peer num|[peer|] e|]; cbn [handle_swarm_event].
  - apply node_event_balances.
  - pose proof (drain_dials_balances peer (Ok ()) n) as Hb. destruct (drain_dials _ _ _) as [n1 o1]. cbn [fst snd] in Hb.
    apply balances_tacit_r; [|exact Hb]. case_match; [apply emit_tacit|constructor].
  - apply balances_tacit_only; [done|]. case_match; [apply emit_tacit|constructor].
  - match goal with |- context [drain_dials peer ?r n] => pose proof (drain_dials_balances peer r n) as Hb end.
    by destruct (drain_dials _ _ _).
  - by apply balances_same.
  - by apply balances_same.
Qed.

Lemma turn_balances sw t n :
  balances (turn_txs t) n (turn_of sw t n).1.2 (turn_of sw t n).2 (lost sw t n).
Proof.
  destruct t as [ev|m| | |fin|peer f o|peer e|ps]; cbn [run_turn].
  - pose proof (swarm_event_balances sw ev n) as Hb. destruct (handle_swarm_event _ _ _ _ _ _) as [[r n1] o1].
    destruct (sw_kad sw); [|done]. destruct (providers_poll _ _ _) as [p o2]. cbn [fst snd].
    apply balances_tacit_r; [apply providers_tacit|]. by eapply balances_state, Hb.
  - pose proof (rpc_balances sw m n) as Hb. by destruct (handle_rpc_message _ _ _ _ _) as [[r n1] o1].
  - by apply balances_same.
  - by destruct (sw_kad sw); apply balances_same.
  - pose proof (expiry_balances sw fin n) as Hb. by destruct (expiry sw fin n).
  - by apply balances_same.
  - by apply balances_same.
  - by apply balances_same.
Qed.

(** A run of the loop, with the callers lost on the way *)
Fixpoint run_turns (ts : list (Swarm * turn)) (n : Node) : Node * list effect * list Tx :=
  match ts with
  | [] => (n, [], [])
  | (sw, t) :: ts =>
      let '(stop, n1, out) := turn_of sw t n in
      let gone := lost sw t n in
      if stop : bool then (n1, out, gone)
      else let '(n2, out', gone') := run_turns ts n1 in (n2, out ++ out', gone ++ gone')
  end.

(** The turns that are taken before the loop ends *)
Fixpoint turns_taken (ts : list (Swarm * turn)) (n : Node) : list turn :=
  match ts with
  | [] => []
  | (sw, t) :: ts =>
      let '(stop, n1, _) := turn_of sw t n in
      t :: if stop : bool then [] else turns_taken ts n1
  end.

Lemma run_balances ts : ∀ n,
  let '(n', out, gone) := run_turns ts n in
  balances (turns_taken ts n ≫= turn_txs) n n' out gone.
Proof.
  induction ts as [|[sw t] ts IH]; intros n; cbn [run_turns turns_taken]; [by apply balances_same|].
  pose proof (turn_balances sw t n) as Hb. destruct (turn_of sw t n) as [[stop n1] out]. cbn [fst snd] in Hb.
  destruct stop; [cbn; by rewrite app_nil_r|]. specialize (IH n1). destruct (run_turns ts n1) as [[n2 o2] g2].
  unfold balances in *. cbn. rewrite <-app_assoc, (Permutation_app_comm (turn_txs t)), <-app_assoc.
  rewrite (Permutation_app_comm (in_queue n)), Hb. rewrite answered_effects_app, handed_app.
  transitivity (answered out ++ handed_over out ++ lost sw t n ++ (turns_taken ts n1 ≫= turn_txs) ++ in_queue n1).
  { solve_Permutation. }
  rewrite IH. solve_Permutation.
Qed.

(** *** Workers *)

Abbreviation at_work := (Z * worker)%type.

Definition spawned (out : list effect) : list at_work :=
  omap (λ e, match e with SpawnWorker ctx w _ => Some (ctx, w) | _ => None end) out.
(** The workers that are told to stop; they do not answer. *)
Definition stopped (out : list effect) : list at_work :=
  out ≫= λ e, match e with StopSession ctx ws _ => pair ctx <$> ws | _ => [] end.
Definition working (m : gmap Z (list worker)) : list at_work :=
  map_to_list m ≫= λ cw, pair cw.1 <$> cw.2.

Definition finishes (t : turn) (w : at_work) : Prop := ∃ finished, t = TurnExpiry finished ∧ finished w.2 = true.

(** The workers of a turn: those that were there and those that start are at work, told to
    stop, or found to have finished. *)
Definition staffs (P : at_work → Prop) (m m' : gmap Z (list worker)) (out : list effect) : Prop :=
  ∃ fin, spawned out ++ working m ≡ₚ working m' ++ stopped out ++ fin ∧ Forall P fin.

Lemma working_delete m ctx : working m ≡ₚ (pair ctx <$> default [] (m !! ctx)) ++ working (delete ctx m).
Proof.
  unfold working. destruct (m !! ctx) as [ws|] eqn:E; cbn; [|by rewrite delete_id].
  rewrite <-(map_to_list_delete m ctx ws E). done.
Qed.

Lemma working_insert m ctx ws : working (<[ctx := ws]> m) ≡ₚ (pair ctx <$> ws) ++ working (delete ctx m).
Proof. rewrite (working_delete _ ctx), lookup_insert_eq, delete_insert_eq. done. Qed.

Lemma spawned_app l l' : spawned (l ++ l') = spawned l ++ spawned l'.
Proof. apply omap_app. Qed.
Lemma stopped_app l l' : stopped (l ++ l') = stopped l ++ stopped l'.
Proof. apply bind_app. Qed.

(** Effects that concern no worker *)
Definition idle (e : effect) : Prop := match e with SpawnWorker _ _ _ | StopSession _ _ _ => False | _ => True end.

Lemma idle_none out : Forall idle out → spawned out = [] ∧ stopped out = [].
Proof. induction 1 as [|[] out He _ [IH1 IH2]]; cbn; done. Qed.

Lemma staffs_idle P m out : Forall idle out → staffs P m m out.
Proof. intros [E1 E2]%idle_none. exists []. rewrite E1, E2. cbn. by rewrite app_nil_r. Qed.

Lemma staffs_trans P m1 m2 m3 o1 o2 : staffs P m1 m2 o1 → staffs P m2 m3 o2 → staffs P m1 m3 (o1 ++ o2).
Proof.
  intros (f1 & E1 & H1') (f2 & E2 & H2'). exists (f1 ++ f2). split; [|by apply Forall_app].
  rewrite spawned_app, stopped_app. transitivity (spawned o2 ++ (spawned o1 ++ working m1)); [solve_Permutation|].
  rewrite E1. transitivity ((spawned o2 ++ working m2) ++ stopped o1 ++ f1); [solve_Permutation|].
  rewrite E2. solve_Permutation.
Qed.

Lemma staffs_mono (P Q : at_work → Prop) m m' out : (∀ w, P w → Q w) → staffs P m m' out → staffs Q m m' out.
Proof. intros HPQ (f & E & Hf). exists f. split; [done|]. by eapply Forall_impl. Qed.

Lemma destroy_session_staffs P sw ctx tx n :
  staffs P (nd_bitswap_sessions n) (nd_bitswap_sessions (destroy_session sw ctx tx n).1) (destroy_session sw ctx tx n).2.
Proof.
  unfold destroy_session. destruct (sw_bitswap sw); [|by apply staffs_idle; destruct tx; repeat constructor].
  exists []. split; [|constructor]. cbn. rewrite !app_nil_r, (working_delete _ ctx). solve_Permutation.
Qed.

Lemma want_blocks_staffs P sw ctx providers l n :
  let '(r, n', out) := want_blocks sw ctx providers l n in
  staffs P (nd_bitswap_sessions n) (nd_bitswap_sessions n') out.
Proof.
  revert n. induction l as [|[cid tx] l IH]; intros n; cbn [want_blocks]; [by apply staffs_idle|].
  unfold want_block. destruct (sw_bitswap sw); [|by apply staffs_idle].
  set (n1 := nd_with_sessions _ n). specialize (IH n1). destruct (want_blocks sw ctx providers l n1) as [[r n2] o2].
  eapply staffs_trans; [|exact IH]. exists []. split; [|constructor].
  cbn. rewrite !app_nil_r, working_insert, (working_delete _ ctx), fmap_app. cbn. solve_Permutation.
Qed.

Lemma expire_staffs fin l m ids m' ids' :
  NoDup l.*1 → (∀ id ws, (id, ws) ∈ l → m !! id = Some ws) →
  expire_sessions fin l m ids = (m', ids') → staffs (λ w, fin w.2 = true) m m' [].
Proof.
  revert m ids. induction l as [|[id ws] l IH]; intros m ids Hnd Hl; cbn [expire_sessions].
  { intros [= <- _]. by apply staffs_idle. }
  apply list.NoDup_cons in Hnd as [Hid Hnd]. set (ws' := filter _ ws). intros E.
  assert (staffs (λ w, fin w.2 = true) m (<[id := ws']> m) []) as Hs.
  { exists (pair id <$> filter (λ w, fin w = true) ws). split.
    - cbn. rewrite working_insert, (working_delete m id), (Hl id ws) by left. cbn.
      assert (ws ≡ₚ ws' ++ filter (λ w, fin w = true) ws) as Hw.
      { unfold ws'. clear. induction ws as [|w ws IH]; [done|]. destruct (fin w) eqn:Ef.
        - rewrite filter_cons_False, (filter_cons_True (λ w, fin w = true)) by congruence. rewrite <-Permutation_middle. by f_equiv.
        - rewrite filter_cons_True, (filter_cons_False (λ w, fin w = true)) by congruence. cbn. by f_equiv. }
      rewrite Hw at 1. rewrite fmap_app. solve_Permutation.
    - apply Forall_fmap, list.Forall_forall. intros w [Hw _]%list_elem_of_filter. exact Hw. }
  change ([] : list effect) with ([] ++ [] : list effect). eapply staffs_trans; [exact Hs|].
  destruct (10 <=? _)%nat; [injection E as <- _; by apply staffs_idle|]. eapply IH; [done| |exact E].
  intros id2 ws2 Hin. rewrite lookup_insert_ne; [apply Hl; by right|]. intros <-. apply Hid, list_elem_of_fmap. exists (id, ws2). done.
Qed.

Lemma expiry_staffs sw fin n :
  staffs (λ w, fin w.2 = true) (nd_bitswap_sessions n) (nd_bitswap_sessions (expiry sw fin n).1) (expiry sw fin n).2.
Proof.
  unfold expiry. destruct (expire_sessions _ _ _ _) as [m ids] eqn:E. apply expire_staffs in E;
    [|apply NoDup_hm_keys|by intros id ws ?%elem_of_hm_iter].
  apply (foldl_invariant (λ r : Node * list effect, staffs _ (nd_bitswap_sessions n) (nd_bitswap_sessions r.1) r.2)); [|done].
  intros [n1 o1] id _ Hb. pose proof (destroy_session_staffs (λ w, fin w.2 = true) sw id None n1) as Hd.
  destruct (destroy_session sw id None n1) as [n2 o2]. by eapply staffs_trans.
Qed.

Lemma answers_idle (l : list Tx) r : Forall idle ((λ tx, Answer tx r) <$> l).
Proof. apply Forall_fmap, list.Forall_forall. done. Qed.
Lemma emit_idle ev n : Forall idle (emit_network_event ev n).
Proof. apply Forall_fmap, list.Forall_forall. done. Qed.
Lemma providers_idle out : Forall idle (ProvidersEffect <$> out).
Proof. apply Forall_fmap, list.Forall_forall. done. Qed.

(** A handler that leaves the sessions alone *)
Definition off_duty (n : Node) (r : Node * list effect) : Prop :=
  nd_bitswap_sessions r.1 = nd_bitswap_sessions n ∧ Forall idle r.2.

Lemma off_duty_staffs P n r : off_duty n r → staffs P (nd_bitswap_sessions n) (nd_bitswap_sessions r.1) r.2.
Proof. intros [-> Hi]. by apply staffs_idle. Qed.

Lemma drain_dials_off peer r n : off_duty n (drain_dials peer r n).
Proof. unfold drain_dials. case_match; split; cbn; [done|apply answers_idle|done|constructor]. Qed.
Lemma answer_lookups_off peer r n : off_duty n (answer_lookups peer r n).
Proof. unfold answer_lookups. case_match; split; cbn; [done|apply answers_idle|done|constructor]. Qed.
Lemma connect_off sw tx peer addrs n : off_duty n (connect error_for sw tx peer addrs n).
Proof.
  unfold connect. case_match; [by split; repeat constructor|]. case_match; [|by split; repeat constructor].
  match goal with |- context [drain_dials peer ?r ?m] => pose proof (drain_dials_off peer r m) as [Hs Hi] end.
  destruct (drain_dials _ _ _). split; [done|]. by constructor.
Qed.
Lemma find_peer_off sw tx peer n : off_duty n (find_peer_on_dht peer_to_bytes sw tx peer n).
Proof. unfold find_peer_on_dht. repeat case_match; by split; repeat constructor. Qed.
Lemma provider_request_off sw key c limit n : off_duty n (provider_request sw key c limit n).
Proof.
  unfold provider_request. repeat case_match; split; cbn; try done; try apply providers_idle; repeat constructor.
Qed.
Lemma kademlia_off sw id last r n : off_duty n (handle_kademlia error_for sw id last r n).
Proof.
  unfold handle_kademlia. repeat case_match; split; cbn; try done; try apply providers_idle; try apply answers_idle; constructor.
Qed.
Lemma identify_off sw peer info n : off_duty n (handle_identify sw peer info n).
Proof.
  unfold handle_identify.
  match goal with |- context [answer_lookups peer ?r ?m] => pose proof (answer_lookups_off peer r m) as [Hs Hi] end.
  destruct (answer_lookups _ _ _) as [n1 o1]. split; [done|]. cbn [snd] in *. rewrite !Forall_app.
  split_and!; [|destruct (sw_bitswap sw); repeat constructor|done].
  apply list.Forall_forall. intros e (protocol & He & _)%list_elem_of_bind. unfold identify_addresses in He.
  repeat case_decide; repeat case_match; try (by apply not_elem_of_nil in He); by apply list_elem_of_fmap in He as (a & -> & _).
Qed.

Lemma rpc_staffs P sw m n :
  let '(r, n', out) := handle_rpc_message peer_to_bytes error_for sw m n in
  staffs P (nd_bitswap_sessions n) (nd_bitswap_sessions n') out.
Proof.
  assert (∀ r, off_duty n r → let '(_, n', out) := (let '(n, out) := r in (Ok false : res string bool, n, out)) in
    staffs P (nd_bitswap_sessions n) (nd_bitswap_sessions n') out) as Hoff by (intros [n' out]; apply off_duty_staffs).
  destruct m; cbn [handle_rpc_message]; try (by apply staffs_idle; repeat constructor).
  - pose proof (want_blocks_staffs P sw ctx providers (zip cids response_channels) n) as Hb.
    by destruct (want_blocks _ _ _ _ _) as [[r n'] out].
  - apply staffs_idle, Forall_app. destruct (sw_bitswap sw); repeat constructor.
  - pose proof (destroy_session_staffs P sw ctx (Some tx) n) as Hb. by destruct (destroy_session _ _ _ _).
  - apply Hoff, provider_request_off.
  - apply staffs_idle. destruct (sw_kad sw); repeat constructor.
  - apply staffs_idle. destruct (sw_kad sw); repeat constructor.
  - apply Hoff, connect_off.
  - apply Hoff, connect_off.
  - destruct (sw_gossipsub sw); apply staffs_idle; [destruct g|]; repeat constructor.
  - apply Hoff, find_peer_off.
  - apply staffs_idle, Forall_app. split; [apply emit_idle|repeat constructor].
Qed.

Lemma turn_staffs sw t n :
  staffs (finishes t) (nd_bitswap_sessions n) (nd_bitswap_sessions (turn_of sw t n).1.2) (turn_of sw t n).2.
Proof.
  destruct t as [ev|m| | |fin|peer f o|peer e|ps]; cbn [run_turn]; try (by apply staffs_idle; repeat constructor).
  - assert (let '(_, n', out) := handle_swarm_event peer_to_bytes mh_to_bytes error_for sw ev n in
      staffs (finishes (TurnSwarm ev)) (nd_bitswap_sessions n) (nd_bitswap_sessions n') out) as Hb.
    { assert (∀ r, off_duty n r → let '(_, n', out) := (let '(n, out) := r in (Ok () : res string (), n, out)) in
        staffs (finishes (TurnSwarm ev)) (nd_bitswap_sessions n) (nd_bitswap_sessions n') out) as Hoff by (intros [n' out]; apply off_duty_staffs).
      destruct ev as [[[key|key c limit|peer tx]|id last r|peer info|peer e|peer rtt|ev|peers|]|peer num|peer num|[peer|] e|];
        cbn [handle_swarm_event handle_node_event]; try (by apply staffs_idle; repeat constructor).
      - apply staffs_idle. destruct (sw_kad sw); repeat constructor.
      - match goal with |- context [handle_rpc_message _ _ sw ?m n] => pose proof (rpc_staffs (finishes (TurnSwarm (SwarmBehaviour (EventBitswap (FindProviders key c limit))))) sw m n) as Hr end.
        revert Hr. by destruct (handle_rpc_message _ _ _ _ _) as [[r n'] out].
      - apply Hoff, kademlia_off.
      - apply Hoff, identify_off.
      - apply Hoff, answer_lookups_off.
      - apply staffs_idle, emit_idle.
      - apply staffs_idle, Forall_fmap, list.Forall_forall. done.
      - match goal with |- context [drain_dials peer ?r n] => pose proof (drain_dials_off peer r n) as [Hs Hi] end.
        destruct (drain_dials _ _ _) as [n1 o1]. cbn in Hs, Hi. rewrite Hs. apply staffs_idle, Forall_app. split; [done|].
        case_match; [apply emit_idle|constructor].
      - apply staffs_idle. case_match; [apply emit_idle|constructor].
      - apply Hoff, drain_dials_off. }
    destruct (handle_swarm_event _ _ _ _ _ _) as [[r n1] o1]. destruct (sw_kad sw); [|done].
    destruct (providers_poll _ _ _) as [p o2]. cbn [fst snd]. eapply staffs_trans; [exact Hb|]. apply staffs_idle, providers_idle.
  - pose proof (rpc_staffs (finishes (TurnRpc m)) sw m n) as Hb. by destruct (handle_rpc_message _ _ _ _ _) as [[r n1] o1].
  - apply staffs_idle. destruct (sw_kad sw); repeat constructor.
  - pose proof (expiry_staffs sw fin n) as Hb. destruct (expiry sw fin n). cbn [fst snd] in *. eapply staffs_mono, Hb.
    intros w Hw. by exists fin.
Qed.

Lemma run_staffs ts : ∀ n,
  let '(n', out, _) := run_turns ts n in
  staffs (λ w, Exists (λ t, finishes t w) (turns_taken ts n)) (nd_bitswap_sessions n) (nd_bitswap_sessions n') out.
Proof.
  induction ts as [|[sw t] ts IH]; intros n; cbn [run_turns turns_taken]; [by apply staffs_idle|].
  pose proof (turn_staffs sw t n) as Hb. destruct (turn_of sw t n) as [[stop n1] out]. cbn [fst snd] in Hb.
  destruct stop; [eapply staffs_mono, Hb; by constructor|]. specialize (IH n1). destruct (run_turns ts n1) as [[n2 o2] g2].
  eapply staffs_trans; (eapply staffs_mono; [|eassumption]); intros w Hw; [by left|by right].
Qed.

(** *** Requests for providers *)

(** The callers of the queries that wait or run *)
Definition queried (p : Providers) : list Channel :=
  qd_channel <$> ((pv_outstanding p ≫= q_queries) ++ (map_to_list (pv_current p) ≫= rq_queries ∘ snd)).

(** A request for providers whose channel is dropped without a word: those of the second
    kind, and those that come when 2048 queries for other keys wait *)
Definition dropped (sw : Swarm) (key : ProviderRequestKey) (n : Node) : Prop :=
  match key with
  | KeyBitswap _ _ => True
  | KeyDht key =>
      sw_kad sw = true ∧ pv_current (nd_providers n) !! key = None ∧
      (key ∉ q_key <$> pv_outstanding (nd_providers n)) ∧ (OUTSTANDING_LIMIT ≤ length (pv_outstanding (nd_providers n)))%nat
  end.

(** A caller that is told something, or will be: it is refused, gets as many providers as it
    asked for, or takes part in a query. *)
Definition heard (c : Channel) (limit : Z) (n' : Node) (out : list effect) : Prop :=
  NoKademlia c ∈ out ∨ c ∈ queried (nd_providers n') ∨
  ∃ ps, ProvidersEffect (PvSend c ps) ∈ out ∧ Z.of_nat (size ps) = limit.

Lemma join_outstanding_channels key d l l' :
  join_outstanding key d l = Some l' → qd_channel d ∈ qd_channel <$> (l' ≫= q_queries).
Proof.
  revert l'. induction l as [|q l IH]; intros l'; cbn; [done|]. case_decide.
  - intros [= <-]. cbn. rewrite !fmap_app, !elem_of_app. left. right. by left.
  - destruct (join_outstanding key d l) as [l1|]; [|done]. intros [= <-]. cbn. rewrite fmap_app, elem_of_app. right. by apply IH.
Qed.

Lemma join_outstanding_none key d l : join_outstanding key d l = None → key ∉ q_key <$> l.
Proof.
  induction l as [|q l IH]; cbn; [set_solver|]. case_decide as Hk; [done|].
  destruct (join_outstanding key d l); [done|]. intros _. rewrite not_elem_of_cons. auto.
Qed.

Lemma provider_request_heard sw key c limit n :
  0 < limit → sw_closed sw c = false →
  let '(n', out) := provider_request sw key c limit n in dropped sw key n ∨ heard c limit n' out.
Proof.
  intros Hl Hc. unfold provider_request. destruct key as [key|ctx cid]; [|by left].
  destruct (sw_kad sw) eqn:Ek; [|by right; left; left].
  unfold providers_push. destruct (pv_current (nd_providers n) !! key) as [q|] eqn:Eq.
  - right. rewrite Hc, andb_true_r. destruct (Z.of_nat (size (rq_found q)) <? limit) eqn:Es.
    + right. left. unfold queried. cbn. rewrite fmap_app, elem_of_app. right. apply list_elem_of_fmap.
      exists {| qd_limit := limit; qd_channel := c |}. split; [done|]. apply list_elem_of_bind. eexists (key, _). split; [|by apply elem_of_map_to_list, lookup_insert_eq].
      cbn. apply elem_of_app. right. by left.
    + right. right. apply Z.ltb_ge in Es. set (ps := list_to_set _). assert (Z.of_nat (size ps) = limit) as Hs.
      { unfold ps. rewrite (size_list_to_set (C := gset PeerId)); [|eapply sublist_NoDup; [apply NoDup_hs_iter|apply sublist_take]].
        rewrite length_take, length_hs_iter. lia. }
      exists ps. split; [|done]. rewrite decide_False; [by left|]. intros E. rewrite E, size_empty in Hs. lia.
  - destruct (join_outstanding _ _ _) as [l|] eqn:Ej.
    + right. right. left. apply join_outstanding_channels in Ej. unfold queried. cbn. rewrite fmap_app, elem_of_app. by left.
    + destruct (_ <? OUTSTANDING_LIMIT)%nat eqn:El.
      * right. right. left. unfold queried. cbn. rewrite bind_app, !fmap_app, !elem_of_app. left. right. cbn. by left.
      * left. apply Nat.ltb_ge in El. split_and!; [done|done|by eapply join_outstanding_none|done].
Qed.

(** C24: the node accounts for its callers.  For every run of the event loop, whatever the
    swarm does, each caller that waits for one answer is answered exactly once, handed to a
    worker or to the task that stops a session, still waiting for a dial, an identification
    or a query, or lost where its response channel is dropped: a request to a gossipsub that
    is off, a request for blocks without bitswap or with more channels than CIDs, a caller
    waiting for the identification of a peer when any caller cancels it, and a caller
    waiting for a peer when the DHT gives a result that is not the last and does not have
    the peer.  A worker is still in its session, was told to stop with it, in which case its
    caller is not answered, or had finished.  A caller that asks for providers, for at least
    one and with its channel open, is refused, gets as many as it asked for, or takes part
    in a query, unless its request is dropped: it names a bitswap session, or 2048 queries
    for other keys wait. *)
Theorem callers_accounted ts n out gone :
  run_turns ts Node_default = (n, out, gone) →
  (turns_taken ts Node_default ≫= turn_txs) ≡ₚ answered out ++ handed_over out ++ in_queue n ++ gone ∧
  (NoDup (turns_taken ts Node_default ≫= turn_txs) → NoDup (answered out)) ∧
  (∃ fin, spawned out ≡ₚ working (nd_bitswap_sessions n) ++ stopped out ++ fin ∧
     Forall (λ w, Exists (λ t, finishes t w) (turns_taken ts Node_default)) fin) ∧
  (∀ sw key c limit n1, 0 < limit → sw_closed sw c = false →
     let '(_, n2, out) := handle_rpc_message peer_to_bytes error_for sw (ProviderRequest key c limit) n1 in
     dropped sw key n1 ∨ heard c limit n2 out).
Proof.
  intros Hr. pose proof (run_balances ts Node_default) as Hb. pose proof (run_staffs ts Node_default) as Hs.
  rewrite Hr in Hb, Hs. unfold balances in Hb. change (in_queue Node_default) with (@nil Tx) in Hb. rewrite app_nil_r in Hb.
  split_and!; [done|rewrite Hb; by intros [? _]%list.NoDup_app| |].
  - destruct Hs as (fin & E & Hf). exists fin. split; [|done]. by rewrite app_nil_r in E.
  - intros sw key c limit n1 Hl Hc. cbn [handle_rpc_message]. pose proof (provider_request_heard sw key c limit n1 Hl Hc) as Hp.
    by destruct (provider_request sw key c limit n1).
Qed.
End node.

(** ** A concrete node *)

Module P2pToy.
Import Toy.

(** A cache that keeps every peer; addresses made of numbers, 421 marks a peer *)
Definition lru : Lru := {|
  LruCache := list nat;
  lru_new := λ _, [];
  lru_contains := λ p l, bool_decide ((p : nat) ∈ l);
  lru_put := λ p l, if bool_decide ((p : nat) ∈ l) then l else (p : nat) :: l;
  lru_pop := λ p l, filter (λ q, q ≠ (p : nat)) l |}.
#[export] Existing Instance lru.
Definition libp2p : Libp2p := {|
  Proto := Z;
  is_p2p := λ p, p =? 421;
  PublicKey := nat;
  to_peer_id := λ k, (k : @PeerId ids) |}.
#[export] Existing Instance libp2p.
#[export] Existing Instance order.

Definition p1 : @PeerId ids := 1%nat.
Definition p2 : @PeerId ids := 2%nat.
Definition key : DhtKey := [7].
Definition open : Channel → bool := λ _, false.

(** Two callers ask for the same key; the second comes when the first provider is known. *)
Definition provider_story : list ((Channel → bool) * pv_event) :=
  [(open, PeRequest key 5 1%nat); (open, PePoll 100); (open, PeFound 101 100 false key {[p1]});
   (open, PeRequest key 5 2%nat); (open, PeFound 102 100 true key {[p1; p2]})].
Definition providers_end : Providers * list pv_effect := pv_run provider_story (Providers_new 4).

Lemma providers_reported_once_witness :
  sends 2%nat providers_end.2 = [{[p1]}; {[p2]}] ∧ ({[p1]} : gset (@PeerId ids)) ## {[p2]}.
Proof.
  split; [vm_compute; reflexivity|].
  refine (proj2 (providers_reported_once 4 provider_story providers_end.1 providers_end.2 _ _) 2%nat 0%nat 1%nat _ _ _ _ _).
  - reflexivity.
  - apply (bool_decide_unpack _). vm_compute. exact I.
  - discriminate.
  - vm_compute. reflexivity.
  - vm_compute. reflexivity.
Defined.

Definition peer_bytes (p : @PeerId ids) : bytes := [Z.of_nat p].
Definition hash_bytes (h : Multihash) : bytes := h.
Definition no_error (what : string) (p : @PeerId ids) (e : string) : string := what.

(** Everything is enabled but gossipsub, and [p2] is connected. *)
Definition sw : Swarm :=
  {| sw_local_peer_id := 0%nat; sw_external_addresses := [[4]]; sw_listeners := [[5]];
     sw_connected_peers := [p2]; sw_addresses_of_peer := λ _, []; sw_dial := λ _ _, None;
     sw_bitswap := true; sw_kad := true; sw_autonat := false; sw_gossipsub := None;
     sw_start_providing := λ _, Ok 50; sw_next_query := λ i, 60 + Z.of_nat i;
     sw_kad_protocol := "/ipfs/kad/1.0.0"; sw_agent_version := "iroh"; sw_closed := open |}.
Definition info1 : IdentifyInfo :=
  {| ii_public_key := 1%nat; ii_protocol_version := "ipfs/0.1.0"; ii_agent_version := "other";
     ii_listen_addrs := [[4; 1]]; ii_protocols := ["/ipfs/kad/1.0.0"%string]; ii_observed_addr := [4; 9] |}.
Definition go (ts : list turn) : Node * list effect * list Tx :=
  run_turns peer_bytes hash_bytes no_error ((λ t, (sw, t)) <$> ts) Node_default.

(** A peer is looked up: a caller waits for its identification, another one for the
    dial, and a third asks for a block. *)
Definition story : list turn :=
  [TurnRpc (ListenForIdentify 1%nat p1); TurnRpc (FindPeerOnDHT 2%nat p1);
   TurnSwarm (SwarmBehaviour (EventKademlia 60 true (ClosestPeers [1] [p1; p2])));
   TurnRpc (NetConnectByPeerId 3%nat p1); TurnSwarm (ConnectionEstablished p1 1);
   TurnSwarm (SwarmBehaviour (EventIdentifyReceived p1 info1));
   TurnRpc (BitswapRequest 9 [[10; 11]] [4%nat] {[p1]}); TurnRpc (ListenForIdentify 5%nat p2)].

Lemma callers_accounted_witness :
  answered (go story).1.2 = [2%nat; 3%nat; 1%nat] ∧ handed_over (go story).1.2 = [4%nat] ∧
  in_queue (go story).1.1 = [5%nat] ∧ (go story).2 = [] ∧ NoDup (answered (go story).1.2).
Proof.
  do 4 (split; [vm_compute; reflexivity|]).
  refine (proj1 (proj2 (callers_accounted peer_bytes hash_bytes no_error ((λ t, (sw, t)) <$> story)
                   (go story).1.1 (go story).1.2 (go story).2 _)) _).
  - unfold go. by destruct (run_turns _ _ _ _ _) as [[? ?] ?].
  - apply (bool_decide_unpack _). vm_compute. exact I.
Defined.

(** ** Behaviour worth knowing *)

(** A result of the DHT that is not the last one and does not have the peer loses the
    callers; a later result that has it finds nobody to answer. *)
Lemma early_result_loses_callers :
  let r := go [TurnRpc (FindPeerOnDHT 2%nat p1);
               TurnSwarm (SwarmBehaviour (EventKademlia 60 false (ClosestPeers [1] [p2])));
               TurnSwarm (SwarmBehaviour (EventKademlia 60 true (ClosestPeers [1] [p1])))] in
  answered r.1.2 = [] ∧ in_queue r.1.1 = [] ∧ r.2 = [2%nat].
Proof. vm_compute. done. Qed.

(** One caller that gives up takes the others who wait for the same peer with it. *)
Lemma cancel_loses_others :
  let r := go [TurnRpc (ListenForIdentify 1%nat p1); TurnRpc (ListenForIdentify 2%nat p1);
               TurnRpc (CancelListenForIdentify 3%nat p1);
               TurnSwarm (SwarmBehaviour (EventIdentifyReceived p1 info1))] in
  answered r.1.2 = [3%nat] ∧ r.2 = [1%nat; 2%nat].
Proof. vm_compute. done. Qed.

(** Without gossipsub its requests are not answered, not even with an error. *)
Lemma no_gossipsub_no_answer :
  let r := go [TurnRpc (Gossipsub (Topics 1%nat))] in answered r.1.2 = [] ∧ r.2 = [1%nat].
Proof. vm_compute. done. Qed.

(** A disconnect is answered with success and nothing is asked of the swarm. *)
Lemma disconnect_does_nothing : (go [TurnRpc (NetDisconnect 1%nat p2)]).1.2 = [Answer 1%nat RUnit].
Proof. vm_compute. done. Qed.

(** A caller that has as many providers as it asked for stays in the query, and gets
    more than it asked for. *)
Lemma limit_exceeded :
  let r := pv_run [(open, PeRequest key 1 1%nat); (open, PePoll 100); (open, PeFound 101 100 false key {[p1]});
                   (open, PeFound 102 100 false key {[p2]})] (Providers_new 4) in
  sends 1%nat r.2 = [{[p1]}; {[p2]}].
Proof. vm_compute. done. Qed.
End P2pToy.
