(* ===== verification/Bits.v ===== *)
(** * Bit fields and hash bits of sharded directories

    Models [iroh-unixfs/src/hamt/bitfield.rs], [iroh-unixfs/src/hamt/hash_bits.rs]
    and the functions [bits] and [log2] of [iroh-unixfs/src/hamt.rs].  Words are
    integers in the range of [u64]; an index out of range panics. *)

From stdpp Require Import prelude strings list.
From Stdlib Require Import ZArith Lia.
From S2P Require Import Prelude Cids.
Local Open Scope Z_scope.

(** [u64::to_be_bytes] and [u64::from_be_bytes] *)
Definition to_be_bytes (w : Z) : bytes :=
  (λ i, Z.land (Z.shiftr w (8 * (7 - Z.of_nat i))) 255) <$> seq 0 8.
Definition be_val (l : bytes) : Z := foldl (λ acc b, acc * 256 + b) 0 l.

(** ** [Bitfield] *)

Definition BITWIDTH : Z := 256.

Record Bitfield := { bf0 : Z; bf1 : Z; bf2 : Z; bf3 : Z }.

(** [self.0[i]] and its update *)
Definition bf_word (bf : Bitfield) (i : Z) : option Z :=
  if i =? 0 then Some (bf0 bf) else if i =? 1 then Some (bf1 bf)
  else if i =? 2 then Some (bf2 bf) else if i =? 3 then Some (bf3 bf) else None.
Definition bf_update (i : Z) (w : Z) (bf : Bitfield) : Bitfield :=
  if i =? 0 then {| bf0 := w; bf1 := bf1 bf; bf2 := bf2 bf; bf3 := bf3 bf |}
  else if i =? 1 then {| bf0 := bf0 bf; bf1 := w; bf2 := bf2 bf; bf3 := bf3 bf |}
  else if i =? 2 then {| bf0 := bf0 bf; bf1 := bf1 bf; bf2 := w; bf3 := bf3 bf |}
  else {| bf0 := bf0 bf; bf1 := bf1 bf; bf2 := bf2 bf; bf3 := w |}.

Definition Bitfield_zero : Bitfield := {| bf0 := 0; bf1 := 0; bf2 := 0; bf3 := 0 |}.

Definition bf_as_bytes (bf : Bitfield) : bytes :=
  to_be_bytes (bf3 bf) ++ to_be_bytes (bf2 bf) ++ to_be_bytes (bf1 bf) ++ to_be_bytes (bf0 bf).

Definition bf_from_bytes (arr : bytes) : Bitfield :=
  {| bf3 := be_val (take 8 arr); bf2 := be_val (take 8 (drop 8 arr));
     bf1 := be_val (take 8 (drop 16 arr)); bf0 := be_val (drop 24 arr) |}.

Definition bf_from_slice (b : bytes) : res string Bitfield :=
  ensure (Z.of_nat (length b) <=? 32) "bitfield too large"%string;;
  Ok (bf_from_bytes (replicate (32 - length b) 0 ++ b)).

Definition bf_clear_bit (idx : Z) (bf : Bitfield) : res string Bitfield :=
  let ai := idx / 64 in
  let bi := idx mod 64 in
  w ← unwrap (bf_word bf ai);
  Ok (bf_update ai (Z.land w (Int.u_max 64 - Z.shiftl 1 bi)) bf).

Definition bf_test_bit (idx : Z) (bf : Bitfield) : res string bool :=
  let ai := idx / 64 in
  let bi := idx mod 64 in
  w ← unwrap (bf_word bf ai);
  Ok (negb (Z.land w (Z.shiftl 1 bi) =? 0)).

Definition bf_set_bit (idx : Z) (bf : Bitfield) : res string Bitfield :=
  let ai := idx / 64 in
  let bi := idx mod 64 in
  w ← unwrap (bf_word bf ai);
  Ok (bf_update ai (Z.lor w (Z.shiftl 1 bi)) bf).

(** The number of the first [n] positions at which [f] holds. *)
Fixpoint rank (f : Z → bool) (n : nat) : Z :=
  match n with
  | O => 0
  | S n => rank f n + Z.b2z (f (Z.of_nat n))
  end.

(** [u64::count_ones] and [Bitfield::count_ones] *)
Definition count_ones (w : Z) : Z := rank (Z.testbit w) 64.
Definition bf_count_ones (bf : Bitfield) : Z :=
  sum_z (count_ones <$> [bf0 bf; bf1 bf; bf2 bf; bf3 bf]).

Definition bf_and (a b : Bitfield) : Bitfield :=
  {| bf0 := Z.land (bf0 a) (bf0 b); bf1 := Z.land (bf1 a) (bf1 b);
     bf2 := Z.land (bf2 a) (bf2 b); bf3 := Z.land (bf3 a) (bf3 b) |}.

(** The free function [set_bits_leq], computed in 128 bits. *)
Definition set_bits_leq (v bit : Z) : Z :=
  Int.wrap 64 (Z.lor v (Z.shiftl 1 (1 + bit) - 1)).

Definition bf_set_bits_leq (bit : Z) (bf : Bitfield) : Bitfield :=
  let max := Int.u_max 64 in
  if bit <? 64 then
    {| bf0 := set_bits_leq (bf0 bf) bit; bf1 := bf1 bf; bf2 := bf2 bf; bf3 := bf3 bf |}
  else if bit <? 128 then
    {| bf0 := max; bf1 := set_bits_leq (bf1 bf) (bit - 64); bf2 := bf2 bf; bf3 := bf3 bf |}
  else if bit <? 192 then
    {| bf0 := max; bf1 := max; bf2 := set_bits_leq (bf2 bf) (bit - 128); bf3 := bf3 bf |}
  else
    {| bf0 := max; bf1 := max; bf2 := max; bf3 := set_bits_leq (bf3 bf) (bit - 192) |}.

Definition bf_set_bits_le (bit : Z) (bf : Bitfield) : Bitfield :=
  if bit =? 0 then bf else bf_set_bits_leq (bit - 1) bf.

(** [Node::index_for_bit_pos] of [hamt.rs] *)
Definition index_for_bit_pos (bp : Z) (bf : Bitfield) : res string Z :=
  let mask := bf_set_bits_le bp Bitfield_zero in
  assert (bf_count_ones mask =? bp);;
  Ok (bf_count_ones (bf_and mask bf)).

(** ** [HashBits] *)

Record HashBits := { hb_b : bytes; hb_consumed : Z }.

Definition mkmask (n : Z) : Z := Int.wrap 32 (Z.shiftl 1 n - 1).

Definition HashBits_new_at_index (b : bytes) (consumed : Z) : HashBits :=
  {| hb_b := b; hb_consumed := consumed |}.
Definition HashBits_new (b : bytes) : HashBits := HashBits_new_at_index b 0.

Definition hb_consume (i : Z) (h : HashBits) : HashBits :=
  {| hb_b := hb_b h; hb_consumed := Int.wrap 32 (hb_consumed h + i) |}.

(** [next_bits]: each call consumes at least one bit. *)
Fixpoint next_bits (fuel : nat) (i : Z) (h : HashBits) : res string (HashBits * Z) :=
  match fuel with
  | O => Panic
  | S fuel =>
      let curbi := hb_consumed h / 8 in
      let leftb := 8 - hb_consumed h mod 8 in
      curb ← unwrap (hb_b h !! Z.to_nat curbi);
      match i ?= leftb with
      | Eq => Ok (hb_consume i h, Z.land (mkmask i) curb)
      | Lt =>
          let a := Z.land curb (mkmask leftb) in
          let b := Z.land a (Int.wrap 32 (Z.lnot (mkmask (leftb - i)))) in
          Ok (hb_consume i h, Z.shiftr b (leftb - i))
      | Gt =>
          let out := Int.wrap 64 (Z.shiftl (Z.land (mkmask leftb) curb) (i - leftb)) in
          '(h, rest) ← next_bits fuel (i - leftb) (hb_consume leftb h);
          Ok (h, Int.wrap 32 (Int.wrap 64 (out + rest)))
      end
  end.

(** [next]: at most eight bits at a time, so at most two bytes are read. *)
Definition hb_next (i : Z) (h : HashBits) : res string (HashBits * Z) :=
  ensure (i <=? 8) "invalid hash bit length"%string;;
  if Z.of_nat (length (hb_b h)) * 8 <? Int.wrap 32 (hb_consumed h + i)
  then Err "maxium depth reached"%string
  else next_bits 2 i h.

(** [bits] of [hamt.rs] *)
Definition bits (hash : bytes) (pos len : Z) : res string Z :=
  '(_, v) ← hb_next len (HashBits_new_at_index hash pos);
  Ok v.

(** [log2] of [hamt.rs]; [leading_zeros] of a positive [u32] is
    [31 - Z.log2 x]. *)
Definition leading_zeros32 (x : Z) : Z := if x =? 0 then 32 else 31 - Z.log2 x.
Definition log2 (x : Z) : res string Z :=
  assert (0 <? x);;
  Ok (32 - leading_zeros32 x - 1).
