(* ===== verification/BitsFacts.v ===== *)
(** * Correctness of the bit fields and the hash bits

    A bit field is a set of positions below 256; [index_for_bit_pos] is the
    rank of a position in it; [HashBits::next] reads consecutive groups of bits
    of the big-endian number that the hash is. *)

From stdpp Require Import prelude strings list.
From Stdlib Require Import ZArith Lia.
From S2P Require Import Prelude Cids Bits.
Local Open Scope Z_scope.

(** ** Bits of a word *)

Lemma land_bit_nonzero w i : 0 ≤ i → negb (Z.land w (Z.shiftl 1 i) =? 0) = Z.testbit w i.
Proof.
  intros Hi. assert (∀ j, 0 ≤ j → Z.testbit (Z.shiftl 1 i) j = (j =? i)) as Hb.
  { intros j Hj. rewrite Z.shiftl_1_l, Z.pow2_bits_eqb by done. apply Z.eqb_sym. }
  destruct (Z.testbit w i) eqn:E.
  - apply negb_true_iff, Z.eqb_neq. intros H0.
    assert (Z.testbit (Z.land w (Z.shiftl 1 i)) i = false) as Hf by (by rewrite H0, Z.testbit_0_l).
    rewrite Z.land_spec, E, Hb, Z.eqb_refl in Hf by done. done.
  - apply negb_false_iff, Z.eqb_eq, Z.bits_inj'. intros j Hj.
    rewrite Z.land_spec, Z.testbit_0_l, Hb by done.
    destruct (Z.eqb_spec j i) as [->|]; [by rewrite E|by rewrite andb_false_r].
Qed.

Lemma testbit_u_max w i : 0 ≤ w → 0 ≤ i → Z.testbit (Int.u_max w) i = (i <? w).
Proof. intros. change (Int.u_max w) with (Z.pred (2 ^ w)). by rewrite <-Z.ones_equiv, Z.testbit_ones_nonneg. Qed.

Lemma in_u_testbit w z : 0 ≤ w → Int.in_u w z ↔ 0 ≤ z ∧ ∀ i, w ≤ i → Z.testbit z i = false.
Proof.
  intros Hw. split.
  - intros [Hz Hlt]. split; [done|]. intros i Hi.
    destruct (Z.eq_dec z 0) as [->|]; [apply Z.testbit_0_l|].
    apply Z.bits_above_log2; [done|]. apply Z.log2_lt_pow2; [lia|].
    eapply Z.lt_le_trans; [exact Hlt|]. apply Z.pow_le_mono_r; lia.
  - intros [Hz Hb]. split; [done|]. destruct (Z.eq_dec z 0) as [->|]; [by apply Z.pow_pos_nonneg; lia|].
    apply Z.log2_lt_pow2; [lia|]. destruct (Z.lt_ge_cases (Z.log2 z) w) as [|Hge]; [done|].
    specialize (Hb _ Hge). rewrite Z.bit_log2 in Hb by lia. done.
Qed.

(** ** Ranks *)

Lemma rank_ext f g n : (∀ j, 0 ≤ j < Z.of_nat n → f j = g j) → rank f n = rank g n.
Proof.
  induction n as [|n IH]; intros Hfg; simpl; [done|]. rewrite IH, Hfg by (intros; try apply Hfg; lia). done.
Qed.

Lemma rank_add f n m : rank f (n + m) = rank f n + rank (λ j, f (Z.of_nat n + j)) m.
Proof.
  induction m as [|m IH]; [rewrite Nat.add_0_r; simpl; lia|].
  rewrite Nat.add_succ_r. simpl. rewrite IH, Nat2Z.inj_add. lia.
Qed.

Lemma rank_bounds f n : 0 ≤ rank f n ≤ Z.of_nat n.
Proof. induction n; simpl; [lia|]. destruct (f _); simpl; lia. Qed.

Lemma rank_false n : rank (λ _, false) n = 0.
Proof. induction n; simpl; lia. Qed.

Lemma rank_below f k n :
  (k ≤ n)%nat → rank (λ j, (j <? Z.of_nat k) && f j) n = rank f k.
Proof.
  intros Hk. replace n with (k + (n - k))%nat by lia. rewrite rank_add.
  rewrite (rank_ext _ f k), (rank_ext (λ j, _ && _) (λ _, false) (n - k)).
  - rewrite rank_false. lia.
  - intros j Hj. by rewrite (proj2 (Z.ltb_ge _ _)) by lia.
  - intros j Hj. by rewrite (proj2 (Z.ltb_lt _ _)) by lia.
Qed.

Lemma rank_true n : rank (λ _, true) n = Z.of_nat n.
Proof. induction n; simpl rank; [done|]. rewrite IHn. simpl. lia. Qed.

#[global] Arguments rank : simpl never.

(** ** The set of a bit field *)

Definition bit (bf : Bitfield) (j : Z) : bool :=
  match bf_word bf (j / 64) with Some w => Z.testbit w (j mod 64) | None => false end.

Definition bf_wf (bf : Bitfield) : Prop :=
  Int.in_u 64 (bf0 bf) ∧ Int.in_u 64 (bf1 bf) ∧ Int.in_u 64 (bf2 bf) ∧ Int.in_u 64 (bf3 bf).

(** Case analysis on the word of a position. *)
Lemma word_cases j : 0 ≤ j < 256 → j / 64 = 0 ∨ j / 64 = 1 ∨ j / 64 = 2 ∨ j / 64 = 3.
Proof.
  intros Hj. assert (0 ≤ j / 64 < 4); [|lia].
  split; [apply Z.div_pos; lia|apply Z.div_lt_upper_bound; lia].
Qed.

Lemma mod64 j : 0 ≤ j mod 64 < 64.
Proof. apply Z.mod_pos_bound. lia. Qed.

Lemma bf_test_bit_spec j bf : 0 ≤ j < 256 → bf_test_bit j bf = Ok (bit bf j).
Proof.
  intros Hj. unfold bf_test_bit, bit. pose proof (mod64 j).
  destruct (word_cases j Hj) as [->|[->|[->| ->]]]; simpl; by rewrite land_bit_nonzero by lia.
Qed.

Lemma lor_bit_in_u w i : Int.in_u 64 w → 0 ≤ i < 64 → Int.in_u 64 (Z.lor w (Z.shiftl 1 i)).
Proof.
  rewrite !in_u_testbit by lia. intros [Hw Hb] Hi. split.
  - apply Z.lor_nonneg. split; [done|]. apply Z.shiftl_nonneg. lia.
  - intros j Hj. rewrite Z.lor_spec, Hb, Z.shiftl_1_l, Z.pow2_bits_false by lia. done.
Qed.

Lemma testbit_lor_bit w i j : 0 ≤ i → 0 ≤ j → Z.testbit (Z.lor w (Z.shiftl 1 i)) j = (i =? j) || Z.testbit w j.
Proof. intros. rewrite Z.lor_spec, Z.shiftl_1_l, Z.pow2_bits_eqb by done. apply orb_comm. Qed.

Lemma pos_eqb i j : (i =? j) = (i / 64 =? j / 64) && (i mod 64 =? j mod 64).
Proof.
  pose proof (Z.div_mod i 64). pose proof (Z.div_mod j 64).
  destruct (Z.eqb_spec i j) as [->|]; [by rewrite !Z.eqb_refl|].
  destruct (Z.eqb_spec (i / 64) (j / 64)); [|done].
  destruct (Z.eqb_spec (i mod 64) (j mod 64)); [lia|done].
Qed.

(** [set_bit] adds a position to the set. *)
Lemma bf_set_bit_spec i bf :
  0 ≤ i < 256 → bf_wf bf →
  ∃ bf', bf_set_bit i bf = Ok bf' ∧ bf_wf bf' ∧
    ∀ j, 0 ≤ j < 256 → bit bf' j = (i =? j) || bit bf j.
Proof.
  intros Hi (H0 & H1 & H2 & H3). unfold bf_set_bit. pose proof (mod64 i) as Hm.
  destruct (word_cases i Hi) as [E|[E|[E|E]]]; rewrite E; simpl; eexists; (split; [done|]);
    (split; [unfold bf_update; split_and!; simpl; try done; by apply lor_bit_in_u|]);
    intros j Hj; rewrite pos_eqb, E; unfold bit; pose proof (mod64 j);
    destruct (word_cases j Hj) as [->|[->|[->| ->]]]; simpl; rewrite ?testbit_lor_bit by lia; done.
Qed.

(** [clear_bit] takes a position out of the set. *)
Lemma bf_clear_bit_spec i bf :
  0 ≤ i < 256 →
  ∃ bf', bf_clear_bit i bf = Ok bf' ∧
    ∀ j, 0 ≤ j < 256 → bit bf' j = negb (i =? j) && bit bf j.
Proof.
  intros Hi. unfold bf_clear_bit. pose proof (mod64 i) as Hm.
  assert (∀ w j, 0 ≤ j < 64 → Z.testbit (Z.land w (Int.u_max 64 - Z.shiftl 1 (i mod 64))) j
    = negb (i mod 64 =? j) && Z.testbit w j) as Hb.
  { intros w j Hj. rewrite Z.land_spec, andb_comm. f_equal.
    rewrite Z.shiftl_1_l. assert (Int.u_max 64 - 2 ^ (i mod 64) = Z.ldiff (Int.u_max 64) (2 ^ (i mod 64))) as ->.
    { apply Z.sub_nocarry_ldiff, Z.bits_inj'. intros k Hk.
      rewrite Z.ldiff_spec, Z.testbit_0_l, testbit_u_max, Z.pow2_bits_eqb by lia.
      destruct (Z.eqb_spec (i mod 64) k); [|done]. by rewrite (proj2 (Z.ltb_lt _ _)) by lia. }
    rewrite Z.ldiff_spec, testbit_u_max, Z.pow2_bits_eqb by lia.
    by rewrite (proj2 (Z.ltb_lt _ _)) by lia. }
  destruct (word_cases i Hi) as [E|[E|[E|E]]]; rewrite E; simpl; eexists; (split; [done|]);
    intros j Hj; rewrite pos_eqb, E; unfold bit; pose proof (mod64 j);
    destruct (word_cases j Hj) as [->|[->|[->| ->]]]; simpl; rewrite ?Hb by lia; done.
Qed.

Lemma bf_count_ones_rank bf : bf_count_ones bf = rank (bit bf) 256.
Proof.
  change 256%nat with (64 + (64 + (64 + 64)))%nat. rewrite !rank_add.
  change (bf_count_ones bf) with (count_ones (bf0 bf) + (count_ones (bf1 bf) +
    (count_ones (bf2 bf) + (count_ones (bf3 bf) + 0)))). unfold count_ones.
  assert (∀ k j, 0 ≤ j < 64 → (64 * k + j) / 64 = k ∧ (64 * k + j) mod 64 = j) as Hdm.
  { intros k j Hj. split; symmetry; [apply (Z.div_unique _ _ k j)|apply (Z.mod_unique _ _ k j)]; lia. }
  rewrite (rank_ext (bit bf) (Z.testbit (bf0 bf))).
  2:{ intros j Hj. unfold bit. by rewrite Z.div_small, Z.mod_small by lia. }
  rewrite (rank_ext (λ j, bit bf (Z.of_nat 64 + j)) (Z.testbit (bf1 bf))).
  2:{ intros j Hj. unfold bit. change (Z.of_nat 64) with (64 * 1). by destruct (Hdm 1 j) as [-> ->]. }
  rewrite (rank_ext (λ j, bit bf (Z.of_nat 64 + (Z.of_nat 64 + j))) (Z.testbit (bf2 bf))).
  2:{ intros j Hj. unfold bit. replace (Z.of_nat 64 + _) with (64 * 2 + j) by lia.
      by destruct (Hdm 2 j) as [-> ->]. }
  rewrite (rank_ext (λ j, bit bf (Z.of_nat 64 + (Z.of_nat 64 + (Z.of_nat 64 + j)))) (Z.testbit (bf3 bf))).
  2:{ intros j Hj. unfold bit. replace (Z.of_nat 64 + _) with (64 * 3 + j) by lia.
      by destruct (Hdm 3 j) as [-> ->]. }
  lia.
Qed.

Lemma bit_and a b j : bit (bf_and a b) j = bit a j && bit b j.
Proof. unfold bit, bf_word. repeat case_match; simplify_eq/=; try done; apply Z.land_spec. Qed.

(** A word filled up to a position. *)
Lemma testbit_set_bits_leq b j :
  0 ≤ b < 64 → 0 ≤ j < 64 → Z.testbit (set_bits_leq 0 b) j = (j <? b + 1).
Proof.
  intros Hb Hj. unfold set_bits_leq, Int.wrap, Int.modulus. rewrite Z.lor_0_l.
  rewrite Z.mod_pow2_bits_low by lia. rewrite Z.shiftl_1_l, Z.sub_1_r, <-Z.ones_equiv.
  rewrite Z.testbit_ones_nonneg by lia. f_equal. lia.
Qed.

Lemma set_bits_le_bit bp j :
  0 ≤ bp ≤ 256 → 0 ≤ j < 256 → bit (bf_set_bits_le bp Bitfield_zero) j = (j <? bp).
Proof.
  intros Hbp Hj. unfold bf_set_bits_le. destruct (Z.eqb_spec bp 0) as [->|Hne].
  { rewrite (proj2 (Z.ltb_ge _ _)) by lia. unfold bit.
    destruct (word_cases j Hj) as [->|[->|[->| ->]]]; simpl; by rewrite Z.testbit_0_l. }
  pose proof (mod64 j) as Hm. pose proof (Z.div_mod j 64).
  unfold bf_set_bits_leq.
  destruct (Z.ltb_spec (bp - 1) 64); [|destruct (Z.ltb_spec (bp - 1) 128);
    [|destruct (Z.ltb_spec (bp - 1) 192)]];
    unfold bit; destruct (word_cases j Hj) as [E|[E|[E|E]]]; rewrite E; simpl;
    rewrite ?testbit_set_bits_leq, ?testbit_u_max, ?Z.testbit_0_l by lia;
    match goal with |- ?l = (?a <? ?b) =>
      destruct (Z.ltb_spec a b); first [apply Z.ltb_lt; lia|apply Z.ltb_ge; lia|lia|done] end.
Qed.

(** [index_for_bit_pos] is the number of the positions of the set below the
    given one; its assertion holds for every position. *)
Lemma index_for_bit_pos_rank bp bf :
  0 ≤ bp ≤ 256 → index_for_bit_pos bp bf = Ok (rank (bit bf) (Z.to_nat bp)).
Proof.
  intros Hbp. unfold index_for_bit_pos. rewrite !bf_count_ones_rank.
  rewrite (rank_ext (bit (bf_set_bits_le bp Bitfield_zero))
    (λ j, (j <? Z.of_nat (Z.to_nat bp)) && true)).
  2:{ intros j Hj. rewrite andb_true_r, Z2Nat.id by lia. apply set_bits_le_bit; lia. }
  rewrite rank_below, rank_true by lia. rewrite Z2Nat.id, Z.eqb_refl by lia. simpl. f_equal.
  rewrite (rank_ext _ (λ j, (j <? Z.of_nat (Z.to_nat bp)) && bit bf j)).
  - apply rank_below. lia.
  - intros j Hj. rewrite bit_and, Z2Nat.id by lia. by rewrite set_bits_le_bit by lia.
Qed.

(** ** Big-endian bytes *)

Lemma be_val_acc l a : foldl (λ acc b, acc * 256 + b) a l = a * 256 ^ Z.of_nat (length l) + be_val l.
Proof.
  unfold be_val. revert a. induction l as [|x l IH]; intros a; cbn [foldl length]; [lia|].
  rewrite IH, (IH (0 * 256 + x)). rewrite Nat2Z.inj_succ, Z.pow_succ_r by lia. lia.
Qed.

Lemma be_val_app l1 l2 : be_val (l1 ++ l2) = be_val l1 * 256 ^ Z.of_nat (length l2) + be_val l2.
Proof. unfold be_val at 1. rewrite foldl_app. apply be_val_acc. Qed.

Lemma be_val_cons x l : be_val (x :: l) = x * 256 ^ Z.of_nat (length l) + be_val l.
Proof. apply (be_val_app [x] l). Qed.

Lemma be_val_bound l : Forall (Int.in_u 8) l → 0 ≤ be_val l < 256 ^ Z.of_nat (length l).
Proof.
  unfold Int.in_u. induction 1 as [|x l Hx _ IH]; [done|].
  rewrite be_val_cons. simpl length. rewrite Nat2Z.inj_succ, Z.pow_succ_r by lia.
  change (2 ^ 8) with 256 in Hx. nia.
Qed.

Lemma to_be_bytes_ok w : length (to_be_bytes w) = 8%nat ∧ Forall (Int.in_u 8) (to_be_bytes w).
Proof.
  split; [done|]. unfold to_be_bytes. apply Forall_fmap, Forall_true. intros i. simpl.
  change 255 with (Z.ones 8). rewrite Z.land_ones by lia. by apply Z.mod_pos_bound.
Qed.

Lemma be_val_to_be_bytes w : Int.in_u 64 w → be_val (to_be_bytes w) = w.
Proof.
  intros [Hw Hlt]. set (b e := Z.land (Z.shiftr w e) 255).
  change (be_val (to_be_bytes w)) with (((((((((0 * 256 + b 56) * 256 + b 48) * 256 + b 40) * 256
    + b 32) * 256 + b 24) * 256 + b 16) * 256 + b 8) * 256 + b 0)).
  assert (∀ e, 0 ≤ e → w / 2 ^ e = w / 2 ^ (e + 8) * 256 + b e) as Hd.
  { intros e He. unfold b. change 255 with (Z.ones 8). rewrite Z.land_ones, Z.shiftr_div_pow2 by lia.
    rewrite Z.pow_add_r, <-Z.div_div by lia. change (2 ^ 8) with 256.
    rewrite (Z.mul_comm (_ / 256)). apply Z.div_mod. lia. }
  pose proof (Hd 56 ltac:(lia)) as H7. pose proof (Hd 48 ltac:(lia)) as H6.
  pose proof (Hd 40 ltac:(lia)) as H5. pose proof (Hd 32 ltac:(lia)) as H4.
  pose proof (Hd 24 ltac:(lia)) as H3. pose proof (Hd 16 ltac:(lia)) as H2.
  pose proof (Hd 8 ltac:(lia)) as H1. pose proof (Hd 0 ltac:(lia)) as H0.
  change (56 + 8) with 64 in H7. rewrite (Z.div_small w (2 ^ 64)) in H7 by lia.
  change (2 ^ 0) with 1 in H0. rewrite Z.div_1_r in H0.
  change (48 + 8) with 56 in H6. change (40 + 8) with 48 in H5. change (32 + 8) with 40 in H4.
  change (24 + 8) with 32 in H3. change (16 + 8) with 24 in H2. change (8 + 8) with 16 in H1.
  change (0 + 8) with 8 in H0. lia.
Qed.

(** The encoding of a bit field, with leading zero bytes left out. *)
Lemma bf_from_slice_drop bf k :
  bf_wf bf → (k ≤ 32)%nat → take k (bf_as_bytes bf) = replicate k 0 →
  bf_from_slice (drop k (bf_as_bytes bf)) = Ok bf.
Proof.
  intros Hwf Hk Hz. assert (length (bf_as_bytes bf) = 32%nat) as Hl by done.
  unfold bf_from_slice. rewrite length_drop, Hl.
  rewrite (proj2 (Z.leb_le _ _)) by lia. simpl. replace (32 - (32 - k))%nat with k by lia.
  rewrite <-Hz, take_drop. f_equal. destruct Hwf as (H0 & H1 & H2 & H3).
  change (bf_from_bytes (bf_as_bytes bf)) with
    {| bf3 := be_val (to_be_bytes (bf3 bf)); bf2 := be_val (to_be_bytes (bf2 bf));
       bf1 := be_val (to_be_bytes (bf1 bf)); bf0 := be_val (to_be_bytes (bf0 bf)) |}.
  rewrite !be_val_to_be_bytes by done. by destruct bf.
Qed.

(** The bit field of a shard survives its encoding, also when leading zero
    bytes are left out; a test after a set sees exactly the positions set, a
    cleared position is gone, and the index of a position is the number of
    positions set below it.  None of these panics for a position below 256. *)
Theorem bitfield_correct bf i k :
  bf_wf bf → 0 ≤ i < 256 → (k ≤ 32)%nat → take k (bf_as_bytes bf) = replicate k 0 →
  bf_from_slice (drop k (bf_as_bytes bf)) = Ok bf ∧
  index_for_bit_pos i bf = Ok (rank (bit bf) (Z.to_nat i)) ∧
  (∃ bf', bf_set_bit i bf = Ok bf' ∧ bf_wf bf' ∧
    ∀ j, 0 ≤ j < 256 → bf_test_bit j bf' = Ok ((i =? j) || bit bf j)) ∧
  (∃ bf', bf_clear_bit i bf = Ok bf' ∧
    ∀ j, 0 ≤ j < 256 → bf_test_bit j bf' = Ok (negb (i =? j) && bit bf j)).
Proof.
  intros Hwf Hi Hk Hz. split_and!.
  - by apply bf_from_slice_drop.
  - apply index_for_bit_pos_rank. lia.
  - destruct (bf_set_bit_spec i bf Hi Hwf) as (bf' & ? & ? & Hb). exists bf'.
    split_and!; [done..|]. intros j Hj. by rewrite bf_test_bit_spec, Hb.
  - destruct (bf_clear_bit_spec i bf Hi) as (bf' & ? & Hb). exists bf'.
    split; [done|]. intros j Hj. by rewrite bf_test_bit_spec, Hb.
Qed.

(** ** Slices of a big-endian number *)

(** The [i] bits that start at position [c] of an [n]-bit number, counted from
    its most significant bit. *)
Definition slice (n v c i : Z) : Z := (v / 2 ^ (n - c - i)) mod 2 ^ i.

Lemma div_mod_pow2 a p q : 0 ≤ p → 0 ≤ q → (a / 2 ^ p) mod 2 ^ q = (a mod 2 ^ (p + q)) / 2 ^ p.
Proof.
  intros Hp Hq. rewrite Z.pow_add_r by lia.
  pose proof (Z.pow_pos_nonneg 2 p). pose proof (Z.pow_pos_nonneg 2 q).
  rewrite Z.rem_mul_r by lia. rewrite (Z.add_comm (a mod _)), (Z.mul_comm (2 ^ p)), Z.div_add_l by lia.
  rewrite (Z.div_small (a mod 2 ^ p)) by (apply Z.mod_pos_bound; lia). lia.
Qed.

Lemma slice_split n v c a b :
  0 ≤ a → 0 ≤ b → c + a + b ≤ n →
  slice n v c (a + b) = slice n v c a * 2 ^ b + slice n v (c + a) b.
Proof.
  intros Ha Hb Hn. unfold slice.
  replace (n - c - (a + b)) with (n - (c + a) - b) by lia.
  replace (n - c - a) with ((n - (c + a) - b) + b) by lia.
  rewrite (Z.pow_add_r 2 (n - (c + a) - b) b), <-Z.div_div by lia.
  set (x := v / 2 ^ (n - (c + a) - b)). rewrite (Z.add_comm a b), Z.pow_add_r by lia.
  rewrite Z.rem_mul_r by lia. lia.
Qed.

(** A slice that lies within one byte. *)
Lemma slice_byte A x r m L i :
  0 ≤ m → 0 ≤ r < 2 ^ m → 0 ≤ i ≤ L → L ≤ 8 →
  (((A * 256 + x) * 2 ^ m + r) / 2 ^ (m + (L - i))) mod 2 ^ i = (x mod 2 ^ L) / 2 ^ (L - i).
Proof.
  intros Hm Hr Hi HL. rewrite Z.pow_add_r, <-Z.div_div by lia.
  rewrite Z.div_add_l, (Z.div_small r) by lia. rewrite Z.add_0_r.
  rewrite div_mod_pow2 by lia. replace (L - i + i) with L by lia. f_equal.
  replace 256 with (2 ^ (8 - L) * 2 ^ L) by (rewrite <-Z.pow_add_r by lia; by replace (8 - L + L) with 8 by lia).
  rewrite Z.mul_assoc, Z.add_comm. apply Z.mod_add. apply Z.pow_nonzero; lia.
Qed.

Lemma mkmask_ones n : 0 ≤ n ≤ 8 → mkmask n = Z.ones n.
Proof.
  intros Hn. unfold mkmask. rewrite Z.shiftl_1_l, Z.sub_1_r, <-Z.ones_equiv. apply Int.wrap_id.
  unfold Int.in_u. rewrite Z.ones_equiv. pose proof (Z.pow_le_mono_r 2 n 8). lia.
Qed.

Lemma pow256 k : 0 ≤ k → 256 ^ k = 2 ^ (8 * k).
Proof. intros. by rewrite Z.pow_mul_r by lia. Qed.

(** The byte at which the reader stands. *)
Lemma be_val_at l k x :
  Forall (Int.in_u 8) l → l !! k = Some x →
  ∃ A r, be_val l = (A * 256 + x) * 2 ^ (8 * (Z.of_nat (length l) - 1 - Z.of_nat k)) + r ∧
    0 ≤ r < 2 ^ (8 * (Z.of_nat (length l) - 1 - Z.of_nat k)) ∧ 0 ≤ x < 256 ∧
    Z.of_nat k < Z.of_nat (length l).
Proof.
  intros Hl Hk. pose proof (lookup_lt_Some _ _ _ Hk) as Hlt.
  pose proof (take_drop_middle _ _ _ Hk) as Hsplit. exists (be_val (take k l)), (be_val (drop (S k) l)).
  assert (Forall (Int.in_u 8) (drop (S k) l)) as Hd by (by apply Forall_drop).
  apply be_val_bound in Hd. rewrite length_drop in Hd.
  replace (Z.of_nat (length l - S k)) with (Z.of_nat (length l) - 1 - Z.of_nat k) in Hd by lia.
  rewrite pow256 in Hd by lia. split_and!; [|lia|lia| | |lia].
  - rewrite <-Hsplit at 1. rewrite be_val_app, be_val_cons. simpl length.
    rewrite length_drop. rewrite <-pow256 by lia.
    replace (Z.of_nat (S (length l - S k))) with (Z.succ (Z.of_nat (length l) - 1 - Z.of_nat k)) by lia.
    replace (Z.of_nat (length l - S k)) with (Z.of_nat (length l) - 1 - Z.of_nat k) by lia.
    rewrite Z.pow_succ_r by lia. lia.
  - eapply Forall_lookup_1 in Hl; [|done]. unfold Int.in_u in Hl. lia.
  - eapply Forall_lookup_1 in Hl; [|done]. unfold Int.in_u in Hl. lia.
Qed.

Definition hb_valid (h : HashBits) : Prop :=
  Forall (Int.in_u 8) (hb_b h) ∧ 0 ≤ hb_consumed h ∧ Z.of_nat (length (hb_b h)) * 8 < 2 ^ 31.

Definition hb_slice (h : HashBits) (i : Z) : Z :=
  slice (8 * Z.of_nat (length (hb_b h))) (be_val (hb_b h)) (hb_consumed h) i.

Lemma hb_consume_id i h :
  hb_valid h → 0 ≤ i ≤ 8 → hb_consumed h + i ≤ 8 * Z.of_nat (length (hb_b h)) →
  hb_consume i h = {| hb_b := hb_b h; hb_consumed := hb_consumed h + i |}.
Proof.
  intros (_ & H1 & H2) Hi Hle. unfold hb_consume. f_equal. apply Int.wrap_id. unfold Int.in_u. lia.
Qed.

(** The current byte of a reader that has bits left. *)
Lemma hb_current h :
  hb_valid h → hb_consumed h < 8 * Z.of_nat (length (hb_b h)) →
  ∃ x, hb_b h !! Z.to_nat (hb_consumed h / 8) = Some x ∧ 0 ≤ x < 256 ∧
    ∀ i, 0 ≤ i ≤ 8 - hb_consumed h mod 8 →
      hb_slice h i = (x mod 2 ^ (8 - hb_consumed h mod 8)) / 2 ^ (8 - hb_consumed h mod 8 - i).
Proof.
  intros (Hb & Hc & Hlen) Hlt.
  assert (0 ≤ hb_consumed h / 8 < Z.of_nat (length (hb_b h))) as Hk.
  { split; [apply Z.div_pos; lia|apply Z.div_lt_upper_bound; lia]. }
  destruct (lookup_lt_is_Some_2 (hb_b h) (Z.to_nat (hb_consumed h / 8))) as [x Hx]; [lia|].
  exists x. destruct (be_val_at _ _ _ Hb Hx) as (A & r & Hv & Hr & Hx256 & _).
  split_and!; [done|lia..|]. intros i Hi. unfold hb_slice, slice. rewrite Hv.
  rewrite Z2Nat.id in * by lia.
  pose proof (Z.div_mod (hb_consumed h) 8). pose proof (Z.mod_pos_bound (hb_consumed h) 8).
  set (L := 8 - hb_consumed h mod 8) in *.
  replace (8 * Z.of_nat (length (hb_b h)) - hb_consumed h - i)
    with (8 * (Z.of_nat (length (hb_b h)) - 1 - hb_consumed h / 8) + (L - i)) by lia.
  apply slice_byte; [lia|done|lia|lia].
Qed.

(** The two branches that stay within the current byte. *)
Lemma next_bits_within fuel h i :
  hb_valid h → 0 ≤ i ≤ 8 - hb_consumed h mod 8 →
  hb_consumed h < 8 * Z.of_nat (length (hb_b h)) →
  hb_consumed h + i ≤ 8 * Z.of_nat (length (hb_b h)) →
  next_bits (S fuel) i h
  = Ok ({| hb_b := hb_b h; hb_consumed := hb_consumed h + i |}, hb_slice h i).
Proof.
  intros Hv Hi Hlt Hle. pose proof (Z.mod_pos_bound (hb_consumed h) 8).
  destruct (hb_current h Hv Hlt) as (x & Hx & Hx256 & Hs). simpl. rewrite Hx. simpl.
  rewrite hb_consume_id, Hs by (done || lia). set (L := 8 - hb_consumed h mod 8) in *.
  destruct (Z.compare_spec i L) as [->|Hl|]; [| |lia].
  - rewrite Z.sub_diag, Z.pow_0_r, Z.div_1_r, mkmask_ones, Z.land_comm, Z.land_ones by lia. done.
  - do 2 f_equal. rewrite !mkmask_ones, Z.land_ones by lia.
    assert (Int.wrap 32 (Z.lnot (Z.ones (L - i))) = Z.ldiff (Z.ones 32) (Z.ones (L - i))) as ->.
    { unfold Int.wrap, Int.modulus. rewrite <-Z.land_ones by lia.
      by rewrite Z.land_comm, <-Z.ldiff_land. }
    rewrite Z.shiftr_div_pow2 by lia. rewrite <-!Z.shiftr_div_pow2 by lia.
    apply Z.bits_inj'. intros j Hj. rewrite !Z.shiftr_spec, Z.land_spec, Z.ldiff_spec by lia.
    rewrite !Z.testbit_ones_nonneg by lia.
    rewrite (proj2 (Z.ltb_ge (j + (L - i)) (L - i))), andb_true_r by lia.
    destruct (Z.ltb_spec (j + (L - i)) 32) as [|Hge]; [by rewrite andb_true_r|].
    rewrite andb_false_r. symmetry. apply Z.mod_pow2_bits_high. lia.
Qed.

Lemma slice_range n v c i : 0 ≤ i → 0 ≤ slice n v c i < 2 ^ i.
Proof. intros. apply Z.mod_pos_bound. apply Z.pow_pos_nonneg; lia. Qed.

(** [next] on a reader with enough bits left. *)
Lemma hb_next_ok h i :
  hb_valid h → 0 ≤ i ≤ 8 → hb_consumed h < 8 * Z.of_nat (length (hb_b h)) →
  hb_consumed h + i ≤ 8 * Z.of_nat (length (hb_b h)) →
  hb_next i h = Ok ({| hb_b := hb_b h; hb_consumed := hb_consumed h + i |}, hb_slice h i).
Proof.
  intros Hv Hi Hlt Hle. unfold hb_next. rewrite (proj2 (Z.leb_le _ _)) by lia. simpl ensure.
  cbn [mbind res_bind]. pose proof (Z.mod_pos_bound (hb_consumed h) 8).
  rewrite (Int.wrap_id 32) by (destruct Hv as (_ & ? & ?); unfold Int.in_u; lia).
  rewrite (proj2 (Z.ltb_ge _ _)) by lia.
  set (L := 8 - hb_consumed h mod 8). destruct (Z.le_gt_cases i L) as [Hil|Hil].
  { apply next_bits_within; [done|unfold L in Hil; lia|lia|lia]. }
  destruct (hb_current h Hv Hlt) as (x & Hx & Hx256 & Hs). fold L in Hs.
  change 2%nat with (S 1). remember 1%nat as f eqn:Ef. cbn [next_bits]. rewrite Hx. subst f. cbn [unwrap mbind res_bind]. fold L.
  rewrite (proj2 (Z.compare_gt_iff i L)) by lia.
  pose proof (Z.div_mod (hb_consumed h) 8).
  rewrite (hb_consume_id L) by (done || lia).
  set (h1 := {| hb_b := hb_b h; hb_consumed := hb_consumed h + L |}).
  assert (hb_consumed h1 mod 8 = 0) as Hm1.
  { simpl. apply Z.mod_divide; [lia|]. exists (hb_consumed h / 8 + 1). lia. }
  assert (hb_valid h1) as Hv1 by (destruct Hv as (? & ? & ?); split_and!; simpl; [done|lia|lia]).
  rewrite (next_bits_within 0 h1 (i - L)); [|done|lia|simpl; lia|simpl; lia].
  cbn [mbind res_bind]. simpl hb_b. simpl hb_consumed. f_equal. f_equal; [f_equal; lia|].
  assert (hb_slice h i = hb_slice h L * 2 ^ (i - L) + hb_slice h1 (i - L)) as Hsplit.
  { unfold hb_slice. simpl. rewrite <-slice_split by lia. f_equal. lia. }
  rewrite mkmask_ones, Z.land_comm, Z.land_ones, Z.shiftl_mul_pow2 by lia.
  assert (x mod 2 ^ L = hb_slice h L) as ->.
  { rewrite Hs by lia. by rewrite Z.sub_diag, Z.pow_0_r, Z.div_1_r. }
  assert (0 ≤ hb_slice h i < 2 ^ i) by (by apply slice_range; lia).
  assert (0 ≤ hb_slice h1 (i - L)) by (by apply slice_range; lia).
  assert (0 ≤ hb_slice h L * 2 ^ (i - L)).
  { apply Z.mul_nonneg_nonneg; [by apply slice_range; lia|apply Z.pow_nonneg; lia]. }
  assert (2 ^ i ≤ 2 ^ 8) by (apply Z.pow_le_mono_r; lia).
  change (2 ^ 8) with 256 in *.
  rewrite (Int.wrap_id 64 (hb_slice h L * _)) by (unfold Int.in_u; lia).
  rewrite <-Hsplit.
  rewrite (Int.wrap_id 64) by (unfold Int.in_u; lia). apply Int.wrap_id. unfold Int.in_u. lia.
Qed.

(** [HashBits::next] reads a hash as one big-endian number: it returns the next
    group of at most eight bits, as an integer, and moves past it; asking for
    more than eight bits, or for more bits than are left, is an error. *)
Theorem hb_next_spec h i :
  hb_valid h → 0 ≤ i → hb_consumed h < 8 * Z.of_nat (length (hb_b h)) →
  hb_next i h =
  if 8 <? i then Err "invalid hash bit length"%string
  else if 8 * Z.of_nat (length (hb_b h)) <? hb_consumed h + i then Err "maxium depth reached"%string
  else Ok ({| hb_b := hb_b h; hb_consumed := hb_consumed h + i |},
           slice (8 * Z.of_nat (length (hb_b h))) (be_val (hb_b h)) (hb_consumed h) i).
Proof.
  intros Hv Hi Hlt. destruct (Z.ltb_spec 8 i) as [H8|H8].
  { unfold hb_next. by rewrite (proj2 (Z.leb_gt _ _)) by lia. }
  destruct (Z.ltb_spec (8 * Z.of_nat (length (hb_b h))) (hb_consumed h + i)) as [Hd|Hd];
    [|by apply hb_next_ok].
  unfold hb_next. rewrite (proj2 (Z.leb_le _ _)) by lia. simpl ensure. cbn [mbind res_bind].
  rewrite (Int.wrap_id 32) by (destruct Hv as (_ & ? & ?); unfold Int.in_u; lia).
  by rewrite (proj2 (Z.ltb_lt _ _)) by lia.
Qed.

(** ** Witnesses *)

Module BitsWitness.
Definition demo : Bitfield := {| bf0 := 5; bf1 := 0; bf2 := 0; bf3 := 0 |}.

Lemma bitfield_correct_witness : index_for_bit_pos 2 demo = Ok 1.
Proof.
  refine (eq_trans (proj1 (proj2 (bitfield_correct demo 2 8 _ _ _ _))) _).
  - split_and!; unfold Int.in_u; simpl; lia.
  - lia.
  - lia.
  - vm_compute. reflexivity.
  - vm_compute. reflexivity.
Defined.

Lemma hb_next_spec_witness :
  hb_next 5 {| hb_b := [136; 170; 191]; hb_consumed := 13 |}
  = Ok ({| hb_b := [136; 170; 191]; hb_consumed := 18 |}, 10).
Proof.
  refine (eq_trans (hb_next_spec {| hb_b := [136; 170; 191]; hb_consumed := 13 |} 5 _ _ _) _).
  - split_and!; simpl; [repeat constructor; unfold Int.in_u; lia|lia|lia].
  - lia.
  - simpl. lia.
  - vm_compute. reflexivity.
Defined.
End BitsWitness.
