(* ===== verification/BlockStore.v ===== *)
(** * The block store

    Models [iroh-store/src/store.rs] and [iroh-store/src/cf.rs].  RocksDB is the class
    [RocksDb]: it reads and writes bytes under bytes in column families, applies the
    writes of a batch together and iterates in the order of the keys; every call can
    fail.  The archives of [rkyv] and the bytes of multihashes are [StoreCodecs]. *)

From stdpp Require Import prelude gmap fin_maps sorting.
From Stdlib Require Import ZArith Lia.
From S2P Require Import Prelude Cids Bits.
Local Open Scope Z_scope.

(** ** Column families and what is in them *)

Inductive cf := CF_BLOBS_V0 | CF_METADATA_V0 | CF_GRAPH_V0 | CF_ID_V0.
#[export] Instance cf_eq_dec : EqDecision cf.
Proof. solve_decision. Defined.

Record MetadataV0 := { md_codec : Z; md_multihash : bytes }.
Record GraphV0 := { gr_children : list Z }.

(** ** The order of keys *)

(** RocksDB compares keys bytewise. *)
Fixpoint bytes_leb (a b : bytes) : bool :=
  match a, b with
  | [], _ => true
  | _ :: _, [] => false
  | x :: a, y :: b => if x <? y then true else if y <? x then false else bytes_leb a b
  end.
Definition entry_le (a b : bytes * bytes) : Prop := bytes_leb a.1 b.1 = true.
#[export] Instance entry_le_dec : RelDecision entry_le.
Proof. intros a b. unfold entry_le. apply _. Defined.

Definition kv_sorted (m : gmap bytes bytes) : list (bytes * bytes) := merge_sort entry_le (map_to_list m).

Inductive IteratorMode := IterStart | IterEnd | IterFrom (key : bytes).
Definition kv_items (mode : IteratorMode) (m : gmap bytes bytes) : list (bytes * bytes) :=
  match mode with
  | IterStart => kv_sorted m
  | IterEnd => reverse (kv_sorted m)
  | IterFrom key => filter (λ e, bytes_leb key e.1 = true) (kv_sorted m)
  end.

(** ** The database *)

Abbreviation batch := (list (cf * bytes * bytes)).

Class RocksDb := {
  Db : Type;
  db_error : Type;
  db_create : Db;
  db_get : Db → cf → bytes → res db_error (option bytes);
  db_write : Db → batch → res db_error Db;
  db_iterator : Db → cf → IteratorMode → list (res db_error (bytes * bytes))
}.

(** Writing an entry *)
Definition cf_put (c : cf → gmap bytes bytes) (e : cf * bytes * bytes) : cf → gmap bytes bytes :=
  λ f, if decide (e.1.1 = f) then <[e.1.2 := e.2]> (c f) else c f.

(** The documented behaviour: a database holds a map in each column family.  A read
    returns what the map has, or fails; a batch is written as a whole or not at all; an
    iterator goes through the entries in the order of their keys until it fails. *)
Class RocksDbLaws `{RocksDb} := {
  db_content : Db → cf → gmap bytes bytes;
  db_create_content f : db_content db_create f = ∅;
  db_get_content d f k o : db_get d f k = Ok o → o = db_content d f !! k;
  db_get_no_panic d f k : db_get d f k ≠ Panic;
  db_write_content d b d' : db_write d b = Ok d' → ∀ f, db_content d' f = foldl cf_put (db_content d) b f;
  db_write_no_panic d b : db_write d b ≠ Panic;
  db_iterator_items d f mode :
    ∃ l rest, db_iterator d f mode = (Ok <$> l) ++ rest ∧
      (rest = [] ∧ l = kv_items mode (db_content d f) ∨
       ∃ e rest', rest = Err e :: rest' ∧ l `prefix_of` kv_items mode (db_content d f))
}.

(** ** Archives and multihashes *)

Class StoreCodecs `{Multiformats} := {
  mh_to_bytes : Multihash → bytes;
  mh_from_bytes : bytes → option Multihash;
  cid_v1 : Z → Multihash → Cid;
  meta_to_bytes : MetadataV0 → option bytes;
  meta_check : bytes → option MetadataV0;
  graph_to_bytes : GraphV0 → option bytes;
  graph_check : bytes → option GraphV0
}.

(** The bytes of a multihash say where they end. *)
Class StoreCodecsLaws `{StoreCodecs} : Prop := {
  mh_bytes_roundtrip h : mh_from_bytes (mh_to_bytes h) = Some h;
  mh_self_delimiting h1 h2 x y : mh_to_bytes h1 ++ x = mh_to_bytes h2 ++ y → h1 = h2;
  meta_roundtrip m b : meta_to_bytes m = Some b → meta_check b = Some m;
  graph_roundtrip g b : graph_to_bytes g = Some b → graph_check b = Some g
}.

Inductive store_err (E : Type) :=
  | ErrDb (e : E)
  | ErrArchive
  | ErrSlice
  | ErrMultihash
  | ErrInvalidLink (id : Z).
Arguments ErrDb {E} e.
Arguments ErrArchive {E}.
Arguments ErrSlice {E}.
Arguments ErrMultihash {E}.
Arguments ErrInvalidLink {E} id.

Section store.
Context `{StoreCodecs} `{RocksDb}.

(** ** State *)

Abbreviation store_error := (store_err db_error).

(** [InnerStore] *)
Record StoreState := { st_db : Db; st_next_id : Z }.

(** A write operation: it takes the lock and returns the state it leaves behind,
    also when it fails. *)
Definition store_m (A : Type) : Type := StoreState → StoreState * res store_error A.

#[export] Instance store_ret : MRet store_m := λ A a s, (s, Ok a).
#[export] Instance store_bind : MBind store_m := λ A B f m s,
  match m s with
  | (s, Ok a) => f a s
  | (s, Err e) => (s, Err e)
  | (s, Panic) => (s, Panic)
  end.

(** [r?] *)
Definition lift {A} (r : res store_error A) : store_m A := λ s, (s, r).
Definition from_db {A} (r : res db_error A) : res store_error A :=
  match r with Ok a => Ok a | Err e => Err (ErrDb e) | Panic => Panic end.

Definition get_cf (f : cf) (key : bytes) (s : StoreState) : res store_error (option bytes) :=
  from_db (db_get (st_db s) f key).
Definition write (b : batch) : store_m unit := λ s,
  match db_write (st_db s) b with
  | Ok d => ({| st_db := d; st_next_id := st_next_id s |}, Ok tt)
  | Err e => (s, Err (ErrDb e))
  | Panic => (s, Panic)
  end.
Definition asks {A} (f : StoreState → res store_error A) : store_m A := λ s, (s, f s).

(** ** Keys *)

Definition id_key (cid : Cid) : bytes := mh_to_bytes (cid_hash cid) ++ to_be_bytes (cid_codec cid).

(** [bytes[..8].try_into()]: a slice that is too short panics. *)
Definition first_8 (b : bytes) : res store_error bytes :=
  if (length b <? 8)%nat then Panic else Ok (take 8 b).
(** [bytes.try_into()] for an array of eight bytes *)
Definition array_8 (b : bytes) : res store_error bytes :=
  if (length b =? 8)%nat then Ok b else Err ErrSlice.

(** ** Creating and opening *)

Definition store_create : StoreState := {| st_db := db_create; st_next_id := 1 |}.

Definition store_open (d : Db) : res store_error StoreState :=
  last_id ← match db_iterator d CF_METADATA_V0 IterEnd with
            | Ok (key, _) :: _ => b ← first_8 key; Ok (be_val b)
            | _ => Ok 0
            end;
  Ok {| st_db := d; st_next_id := Int.wrap 64 (last_id + 1) |}.

(** ** Reading *)

Definition get_id (cid : Cid) (s : StoreState) : res store_error (option Z) :=
  maybe_id_bytes ← get_cf CF_ID_V0 (id_key cid) s;
  match maybe_id_bytes with
  | Some b => arr ← first_8 b; Ok (Some (be_val arr))
  | None => Ok None
  end.

Definition store_has (cid : Cid) (s : StoreState) : res store_error bool :=
  o ← get_id cid s;
  match o with
  | Some id => b ← get_cf CF_BLOBS_V0 (to_be_bytes id) s; Ok (bool_decide (is_Some b))
  | None => Ok false
  end.

Definition get_by_id (id : Z) (s : StoreState) : res store_error (option bytes) :=
  get_cf CF_BLOBS_V0 (to_be_bytes id) s.
Definition get_size_by_id (id : Z) (s : StoreState) : res store_error (option Z) :=
  maybe_blob ← get_cf CF_BLOBS_V0 (to_be_bytes id) s;
  Ok (match maybe_blob with Some b => Some (Z.of_nat (length b)) | None => None end).

(** The loop over the metadata of the children *)
Fixpoint links_loop (children : list Z) (s : StoreState) : res store_error (list Cid) :=
  match children with
  | [] => Ok []
  | id :: children =>
      meta ← get_cf CF_METADATA_V0 (to_be_bytes id) s;
      match meta with
      | Some meta =>
          meta ← ok_or (meta_check meta) ErrArchive;
          multihash ← ok_or (mh_from_bytes (md_multihash meta)) ErrMultihash;
          links ← links_loop children s;
          Ok (cid_v1 (md_codec meta) multihash :: links)
      | None => Err (ErrInvalidLink id)
      end
  end.
Definition get_links_by_id (id : Z) (s : StoreState) : res store_error (option (list Cid)) :=
  links_id ← get_cf CF_GRAPH_V0 (to_be_bytes id) s;
  match links_id with
  | Some links_id =>
      graph ← ok_or (graph_check links_id) ErrArchive;
      links ← links_loop (gr_children graph) s;
      Ok (Some links)
  | None => Ok None
  end.

Definition store_get (cid : Cid) (s : StoreState) : res store_error (option bytes) :=
  o ← get_id cid s;
  match o with Some id => get_by_id id s | None => Ok None end.
Definition store_get_size (cid : Cid) (s : StoreState) : res store_error (option Z) :=
  o ← get_id cid s;
  match o with Some id => get_size_by_id id s | None => Ok None end.
Definition store_get_links (cid : Cid) (s : StoreState) : res store_error (option (list Cid)) :=
  o ← get_id cid s;
  match o with Some id => get_links_by_id id s | None => Ok None end.

(** [get_ids_for_hash]: the code and the identifier of every entry whose key starts
    with the multihash; the iterator is consumed by the loops below. *)
Record CodeAndId := { ci_code : Z; ci_id : Z }.

Fixpoint take_while {A} (p : A → bool) (l : list A) : list A :=
  match l with
  | [] => []
  | x :: l => if p x then x :: take_while p l else []
  end.
Definition starts_with (p b : bytes) : bool := bool_decide (take (length p) b = p).

Definition code_and_id (hash_len : nat) (elem : res db_error (bytes * bytes)) : res store_error CodeAndId :=
  '(k, v) ← from_db elem;
  code ← array_8 (drop hash_len k);
  id ← first_8 v;
  Ok {| ci_code := be_val code; ci_id := be_val id |}.

Definition get_ids_for_hash (hash : Multihash) (s : StoreState) : list (res store_error CodeAndId) :=
  let hash := mh_to_bytes hash in
  let hash_len := length hash in
  code_and_id hash_len <$>
    take_while (λ elem, match elem with
                        | Ok (k, _) => (length k =? hash_len + 8)%nat && starts_with hash k
                        | _ => true
                        end) (db_iterator (st_db s) CF_ID_V0 (IterFrom hash)).

Fixpoint blob_loop (elems : list (res store_error CodeAndId)) (s : StoreState) : res store_error (option bytes) :=
  match elems with
  | [] => Ok None
  | elem :: elems =>
      e ← elem;
      blob ← get_cf CF_BLOBS_V0 (to_be_bytes (ci_id e)) s;
      match blob with
      | Some blob => Ok (Some blob)
      | None => blob_loop elems s
      end
  end.
Definition get_blob_by_hash (hash : Multihash) (s : StoreState) : res store_error (option bytes) :=
  blob_loop (get_ids_for_hash hash s) s.

Fixpoint has_blob_loop (elems : list (res store_error CodeAndId)) (s : StoreState) : res store_error bool :=
  match elems with
  | [] => Ok false
  | elem :: elems =>
      e ← elem;
      blob ← get_cf CF_BLOBS_V0 (to_be_bytes (ci_id e)) s;
      match blob with
      | Some _ => Ok true
      | None => has_blob_loop elems s
      end
  end.
Definition has_blob_for_hash (hash : Multihash) (s : StoreState) : res store_error bool :=
  has_blob_loop (get_ids_for_hash hash s) s.

(** [consistency_check]: the two counts when they differ *)
Definition consistency_check (s : StoreState) : option (nat * nat) :=
  let n_meta := length (db_iterator (st_db s) CF_METADATA_V0 IterStart) in
  let n_id := length (db_iterator (st_db s) CF_ID_V0 IterStart) in
  if decide (n_meta = n_id) then None else Some (n_meta, n_id).

(** ** Writing *)

Definition store_next_id : store_m Z := λ s,
  let id := st_next_id s in
  if id =? Int.u_max 64 then (s, Panic)
  else ({| st_db := st_db s; st_next_id := id + 1 |}, Ok id).

Definition meta_bytes (cid : Cid) : res store_error bytes :=
  ok_or (meta_to_bytes {| md_codec := cid_codec cid; md_multihash := mh_to_bytes (cid_hash cid) |}) ErrArchive.

(** The loop of [ensure_id_many]: the batch is written after it. *)
Fixpoint ensure_loop (cids : list Cid) (ids : list Z) (b : batch) : store_m (list Z * batch) :=
  match cids with
  | [] => mret (ids, b)
  | cid :: cids =>
      o ← asks (get_cf CF_ID_V0 (id_key cid));
      match o with
      | Some id =>
          arr ← lift (array_8 id);
          ensure_loop cids (ids ++ [be_val arr]) b
      | None =>
          id ← store_next_id;
          metadata_bytes ← lift (meta_bytes cid);
          ensure_loop cids (ids ++ [id])
            (b ++ [(CF_ID_V0, id_key cid, to_be_bytes id); (CF_METADATA_V0, to_be_bytes id, metadata_bytes)])
      end
  end.
Definition ensure_id_many (cids : list Cid) : store_m (list Z) :=
  '(ids, b) ← ensure_loop cids [] [];
  write b;;
  mret ids.

(** The four entries of a block *)
Definition block_batch (cid : Cid) (id : Z) (blob metadata_bytes graph_bytes : bytes) : batch :=
  [(CF_ID_V0, id_key cid, to_be_bytes id); (CF_BLOBS_V0, to_be_bytes id, blob);
   (CF_METADATA_V0, to_be_bytes id, metadata_bytes); (CF_GRAPH_V0, to_be_bytes id, graph_bytes)].

(** What [put] and [put_many] do for a block that is not stored *)
Definition prepare (cid : Cid) (blob : bytes) (links : list Cid) : store_m batch :=
  id ← store_next_id;
  metadata_bytes ← lift (meta_bytes cid);
  children ← ensure_id_many links;
  graph_bytes ← lift (ok_or (graph_to_bytes {| gr_children := children |}) ErrArchive);
  mret (block_batch cid id blob metadata_bytes graph_bytes).

Definition store_put (cid : Cid) (blob : bytes) (links : list Cid) : store_m unit :=
  h ← asks (store_has cid);
  if (h : bool) then mret tt
  else b ← prepare cid blob links; write b.

Fixpoint put_many_loop (blocks : list (Cid * bytes * list Cid)) (cid_tracker : gset Cid) (b : batch)
    : store_m batch :=
  match blocks with
  | [] => mret b
  | (cid, blob, links) :: blocks =>
      h ← (if decide (cid ∈ cid_tracker) then mret true else asks (store_has cid));
      if (h : bool) then put_many_loop blocks cid_tracker b
      else
        b' ← prepare cid blob links;
        put_many_loop blocks ({[cid]} ∪ cid_tracker) (b ++ b')
  end.
Definition store_put_many (blocks : list (Cid * bytes * list Cid)) : store_m unit :=
  b ← put_many_loop blocks ∅ [];
  write b.
End store.
