(* ===== verification/BlockStoreFacts.v ===== *)
(** * The block store refines a map from CIDs to blocks

    Whatever is put into the store, in single blocks and in batches, with failures of
    the database and with the store closed and opened again in between, reading returns
    the blocks and the links that were put.  Identifiers, the reverse table of CIDs and
    the tables of metadata and links are internal. *)

From stdpp Require Import prelude gmap fin_maps sorting.
From Stdlib Require Import ZArith Lia.
From S2P Require Import Prelude Cids Bits BitsFacts BlockStore.
Local Open Scope Z_scope.

(** ** The order of keys *)

Lemma bytes_leb_refl a : bytes_leb a a = true.
Proof. induction a as [|x a IH]; cbn; [done|]. by rewrite Z.ltb_irrefl. Qed.

Lemma bytes_leb_trans a b c : bytes_leb a b = true → bytes_leb b c = true → bytes_leb a c = true.
Proof.
  revert b c. induction a as [|x a IH]; intros [|y b] [|z c]; cbn; try done.
  destruct (Z.ltb_spec x y), (Z.ltb_spec y x), (Z.ltb_spec y z), (Z.ltb_spec z y), (Z.ltb_spec x z), (Z.ltb_spec z x);
    try done; try lia. apply IH.
Qed.

Lemma bytes_leb_total a b : bytes_leb a b = true ∨ bytes_leb b a = true.
Proof.
  revert b. induction a as [|x a IH]; intros [|y b]; cbn; auto.
  destruct (Z.ltb_spec x y), (Z.ltb_spec y x); auto.
Qed.

#[export] Instance entry_le_trans : Transitive entry_le.
Proof. intros a b c. apply bytes_leb_trans. Qed.
#[export] Instance entry_le_total : Total entry_le.
Proof. intros a b. apply bytes_leb_total. Qed.

Lemma kv_sorted_spec (m : gmap bytes bytes) :
  StronglySorted entry_le (kv_sorted m) ∧ ∀ k v, (k, v) ∈ kv_sorted m ↔ m !! k = Some v.
Proof.
  unfold kv_sorted. split; [apply (StronglySorted_merge_sort _)|]. intros k v.
  rewrite (merge_sort_Permutation entry_le). apply elem_of_map_to_list.
Qed.

(** Bytes of the same length are ordered like the numbers they encode. *)
Lemma be_val_order a b :
  length a = length b → Forall (Int.in_u 8) a → Forall (Int.in_u 8) b → bytes_leb a b = true → be_val a ≤ be_val b.
Proof.
  revert b. induction a as [|x a IH]; intros [|y b]; try done. cbn [length bytes_leb]. intros [= El] Ha Hb.
  apply Forall_cons in Ha as [Hx Ha]. apply Forall_cons in Hb as [Hy Hb].
  pose proof (be_val_bound a Ha). pose proof (be_val_bound b Hb). rewrite !be_val_cons, El. rewrite El in H.
  destruct (Z.ltb_spec x y); [intros _; nia|]. destruct (Z.ltb_spec y x); [done|]. intros Hle.
  assert (x = y) as -> by lia. specialize (IH b El Ha Hb Hle). lia.
Qed.

Lemma to_be_bytes_inj a b : Int.in_u 64 a → Int.in_u 64 b → to_be_bytes a = to_be_bytes b → a = b.
Proof. intros Ha Hb E. rewrite <-(be_val_to_be_bytes a), <-(be_val_to_be_bytes b), E; done. Qed.

Section facts.
Context `{MultiformatsLaws} `{!StoreCodecs} `{!StoreCodecsLaws} `{RocksDbLaws}.

#[local] Arguments to_be_bytes : simpl never.
#[local] Arguments be_val : simpl never.

Abbreviation store_error := (store_err db_error).
Abbreviation contents := (cf → gmap bytes bytes).
Abbreviation stored := (Cid * bytes * list Cid)%type.

Lemma id_key_inj c c' : id_key c = id_key c' ↔ cid_hash c = cid_hash c' ∧ cid_codec c = cid_codec c'.
Proof.
  unfold id_key. split; [|by intros [-> ->]]. intros E. pose proof (mh_self_delimiting _ _ _ _ E) as Eh.
  split; [done|]. rewrite Eh in E. apply app_inv_head in E. apply to_be_bytes_inj; [apply cid_codec_u64..|done].
Qed.

(** ** The specification *)

(** The blocks that are stored, the latest first; two CIDs name the same block when
    their multihash and codec are the same. *)
Definition same_block (c c' : Cid) : Prop := cid_hash c = cid_hash c' ∧ cid_codec c = cid_codec c'.
#[export] Instance same_block_dec c c' : Decision (same_block c c').
Proof. unfold same_block. apply _. Defined.

Fixpoint spec_lookup (c : Cid) (m : list stored) : option (bytes * list Cid) :=
  match m with
  | [] => None
  | (c', blob, links) :: m => if decide (same_block c c') then Some (blob, links) else spec_lookup c m
  end.

(** Links are returned as CIDs of version 1. *)
Definition to_v1 (l : Cid) : Cid := cid_v1 (cid_codec l) (cid_hash l).

Definition spec_get (c : Cid) (m : list stored) : option bytes :=
  match spec_lookup c m with Some (blob, _) => Some blob | None => None end.
Definition spec_has (c : Cid) (m : list stored) : bool :=
  match spec_lookup c m with Some _ => true | None => false end.
Definition spec_get_size (c : Cid) (m : list stored) : option Z :=
  match spec_lookup c m with Some (blob, _) => Some (Z.of_nat (length blob)) | None => None end.
Definition spec_get_links (c : Cid) (m : list stored) : option (list Cid) :=
  match spec_lookup c m with Some (_, links) => Some (to_v1 <$> links) | None => None end.

Definition spec_put (b : stored) (m : list stored) : list stored :=
  match spec_lookup b.1.1 m with Some _ => m | None => b :: m end.

(** A batch takes the blocks that were not stored before it. *)
Fixpoint spec_put_many (blocks : list stored) (tracker : gset Cid) (before m : list stored) : list stored :=
  match blocks with
  | [] => m
  | b :: blocks =>
      if decide (b.1.1 ∈ tracker ∨ is_Some (spec_lookup b.1.1 before)) then spec_put_many blocks tracker before m
      else spec_put_many blocks ({[b.1.1]} ∪ tracker) before (b :: m)
  end.

(** ** The invariant *)

Definition meta_of_cid (c : Cid) : MetadataV0 :=
  {| md_codec := cid_codec c; md_multihash := mh_to_bytes (cid_hash c) |}.

Definition names (C : contents) (id : Z) (c : Cid) : Prop :=
  ∃ b, C CF_METADATA_V0 !! to_be_bytes id = Some b ∧ meta_check b = Some (meta_of_cid c).

Record store_ok (C : contents) (next : Z) (m : list stored) : Prop := {
  sk_next : 1 ≤ next ≤ Int.u_max 64;
  sk_meta k : is_Some (C CF_METADATA_V0 !! k) → ∃ id, k = to_be_bytes id ∧ 1 ≤ id < next;
  sk_data k : is_Some (C CF_BLOBS_V0 !! k) ∨ is_Some (C CF_GRAPH_V0 !! k) → is_Some (C CF_METADATA_V0 !! k);
  sk_id k v : C CF_ID_V0 !! k = Some v → ∃ c id, k = id_key c ∧ v = to_be_bytes id ∧ Int.in_u 64 id ∧ names C id c;
  sk_stored c :
    match spec_lookup c m with
    | Some (blob, links) =>
        ∃ id g children, C CF_ID_V0 !! id_key c = Some (to_be_bytes id) ∧ C CF_BLOBS_V0 !! to_be_bytes id = Some blob ∧
          C CF_GRAPH_V0 !! to_be_bytes id = Some g ∧ graph_check g = Some {| gr_children := children |} ∧
          Forall2 (names C) children links
    | None => ∀ v, C CF_ID_V0 !! id_key c = Some v → C CF_BLOBS_V0 !! v = None ∧ C CF_GRAPH_V0 !! v = None
    end
}.

Lemma names_ext C C' id c : (∀ f, C' f = C f) → names C id c → names C' id c.
Proof. intros E (b & Hb & Hc). exists b. by rewrite E. Qed.

Lemma store_ok_ext C C' next m : (∀ f, C' f = C f) → store_ok C next m → store_ok C' next m.
Proof.
  intros E [Hx Hm Hd Hi Hs]. split; [done|intros k; rewrite E; apply Hm|intros k; rewrite !E; apply Hd| |].
  - intros k v. rewrite E. intros (c & id & ? & ? & ? & ?)%Hi. exists c, id. split_and!; try done. by eapply names_ext.
  - intros c. specialize (Hs c). rewrite !E. destruct (spec_lookup c m) as [[blob links]|]; [|done].
    destruct Hs as (id & g & ch & ? & ? & ? & ? & Hch). exists id, g, ch. split_and!; try done.
    eapply Forall2_impl; [exact Hch|]. intros i l. by apply names_ext.
Qed.

Lemma store_ok_next C next next' m : next ≤ next' ≤ Int.u_max 64 → store_ok C next m → store_ok C next' m.
Proof.
  intros Hn [Hx Hm Hd Hi Hs]. split; try done; [lia|]. intros k (id & -> & Hid)%Hm. exists id. split; [done|lia].
Qed.

(** An identifier that is not in use *)
Definition unused (C : contents) (next id : Z) : Prop := 1 ≤ id < next ∧ C CF_METADATA_V0 !! to_be_bytes id = None.

Lemma in_range C next m id : store_ok C next m → 1 ≤ id < next → Int.in_u 64 id.
Proof. intros [Hx _ _ _ _] Hid. unfold Int.in_u. unfold Int.u_max in Hx. lia. Qed.

Lemma fresh_id C next m : store_ok C next m → C CF_METADATA_V0 !! to_be_bytes next = None.
Proof.
  intros Hok. apply eq_None_not_Some. intros (id & E & Hid)%(sk_meta _ _ _ Hok).
  apply to_be_bytes_inj in E; [lia| |by eapply in_range]. pose proof (sk_next _ _ _ Hok) as Hn.
  unfold Int.in_u. unfold Int.u_max in Hn. lia.
Qed.

(** Writing under an identifier that is not in use *)
Definition link_batch (c : Cid) (id : Z) (mb : bytes) : batch :=
  [(CF_ID_V0, id_key c, to_be_bytes id); (CF_METADATA_V0, to_be_bytes id, mb)].

Lemma names_mono C id c id' mb :
  C CF_METADATA_V0 !! to_be_bytes id' = None → names C id c →
  ∀ C', C' CF_METADATA_V0 = <[to_be_bytes id' := mb]> (C CF_METADATA_V0) → names C' id c.
Proof.
  intros Hn (b & Hb & Hc) C' E. exists b. split; [|done]. rewrite E, lookup_insert_ne; [done|]. intros E'. congruence.
Qed.

Lemma names_written C id c mb :
  meta_check mb = Some (meta_of_cid c) →
  ∀ C', C' CF_METADATA_V0 = <[to_be_bytes id := mb]> (C CF_METADATA_V0) → names C' id c.
Proof. intros Hc C' E. exists mb. by rewrite E, lookup_insert_eq. Qed.

(** What the two kinds of writes have in common *)
Lemma store_ok_ids C C' next m c id mb :
  store_ok C next m → unused C next id → meta_check mb = Some (meta_of_cid c) →
  C' CF_METADATA_V0 = <[to_be_bytes id := mb]> (C CF_METADATA_V0) →
  C' CF_ID_V0 = <[id_key c := to_be_bytes id]> (C CF_ID_V0) →
  (∀ k, is_Some (C' CF_METADATA_V0 !! k) → ∃ id, k = to_be_bytes id ∧ 1 ≤ id < next) ∧
  (∀ k v, C' CF_ID_V0 !! k = Some v → ∃ c id, k = id_key c ∧ v = to_be_bytes id ∧ Int.in_u 64 id ∧ names C' id c).
Proof.
  intros Hok [Hid Hun] Hc EM EI. split.
  - intros k. rewrite EM, lookup_insert. case_decide; [intros _; by exists id|]. apply Hok.
  - intros k v. rewrite EI, lookup_insert. case_decide as Hk.
    + intros [= <-]. exists c, id. split_and!; [done|done|by eapply in_range|by eapply names_written].
    + intros (c' & id' & -> & -> & Hr & Hnm)%(sk_id _ _ _ Hok). exists c', id'.
      split_and!; [done|done|done|]. by eapply names_mono.
Qed.

(** The blocks whose key is not written keep what they have. *)
Lemma stored_other C C' next m c id mb c' :
  store_ok C next m → unused C next id → ¬ same_block c' c →
  C' CF_METADATA_V0 = <[to_be_bytes id := mb]> (C CF_METADATA_V0) →
  C' CF_ID_V0 = <[id_key c := to_be_bytes id]> (C CF_ID_V0) →
  (∀ k, k ≠ to_be_bytes id → C' CF_BLOBS_V0 !! k = C CF_BLOBS_V0 !! k ∧ C' CF_GRAPH_V0 !! k = C CF_GRAPH_V0 !! k) →
  match spec_lookup c' m with
  | Some (blob, links) =>
      ∃ id g children, C' CF_ID_V0 !! id_key c' = Some (to_be_bytes id) ∧ C' CF_BLOBS_V0 !! to_be_bytes id = Some blob ∧
        C' CF_GRAPH_V0 !! to_be_bytes id = Some g ∧ graph_check g = Some {| gr_children := children |} ∧
        Forall2 (names C') children links
  | None => ∀ v, C' CF_ID_V0 !! id_key c' = Some v → C' CF_BLOBS_V0 !! v = None ∧ C' CF_GRAPH_V0 !! v = None
  end.
Proof.
  intros Hok [Hid Hun] Hne EM EI Hdata. rewrite EI, lookup_insert_ne by (by rewrite id_key_inj; intros [??]; apply Hne).
  assert (∀ v, C CF_ID_V0 !! id_key c' = Some v → v ≠ to_be_bytes id) as Hv.
  { intros v (x & i & _ & -> & _ & (b & Hb & _))%(sk_id _ _ _ Hok) E. rewrite E in Hb. congruence. }
  pose proof (sk_stored _ _ _ Hok c') as Hs. destruct (spec_lookup c' m) as [[blob links]|].
  - destruct Hs as (i & g & ch & H1' & H2' & H3' & H4' & H5'). exists i, g, ch.
    destruct (Hdata (to_be_bytes i)) as [-> ->]; [by apply Hv|]. split_and!; try done.
    eapply Forall2_impl; [exact H5'|]. intros x l Hx. by eapply names_mono.
  - intros v Hid'. destruct (Hdata v) as [-> ->]; [by apply Hv|]. by apply Hs.
Qed.

Lemma unused_data C next m id :
  store_ok C next m → unused C next id →
  C CF_BLOBS_V0 !! to_be_bytes id = None ∧ C CF_GRAPH_V0 !! to_be_bytes id = None.
Proof.
  intros Hok [_ Hun]. split; apply eq_None_not_Some; intros Hx;
    (assert (is_Some (C CF_METADATA_V0 !! to_be_bytes id)) as [? ?]; [apply Hok; auto|congruence]).
Qed.

Lemma spec_lookup_same c c' m : same_block c c' → spec_lookup c m = spec_lookup c' m.
Proof.
  intros [E1 E2]. induction m as [|[[x bl] ls] m IH]; [done|]. cbn. rewrite IH. apply decide_ext.
  unfold same_block. by rewrite E1, E2.
Qed.

Lemma store_ok_link C next m c id mb :
  store_ok C next m → unused C next id → meta_check mb = Some (meta_of_cid c) → spec_lookup c m = None →
  store_ok (foldl cf_put C (link_batch c id mb)) next m.
Proof.
  intros Hok Hun Hc Hl. set (C' := foldl cf_put C _).
  assert (C' CF_METADATA_V0 = <[to_be_bytes id := mb]> (C CF_METADATA_V0)) as EM by done.
  assert (C' CF_ID_V0 = <[id_key c := to_be_bytes id]> (C CF_ID_V0)) as EI by done.
  assert (C' CF_BLOBS_V0 = C CF_BLOBS_V0 ∧ C' CF_GRAPH_V0 = C CF_GRAPH_V0) as [EB EG] by done. clearbody C'.
  destruct (store_ok_ids C C' next m c id mb Hok Hun Hc EM EI) as [Hm Hi].
  destruct (unused_data _ _ _ _ Hok Hun) as [Hb Hg]. split; [apply Hok|done| |done|].
  - intros k Hk. rewrite EB, EG in Hk. rewrite EM, lookup_insert. case_decide; [eauto|by apply Hok].
  - intros c'. destruct (decide (same_block c' c)) as [Hs|Hne]; [|eapply stored_other; try done; by rewrite EB, EG].
    rewrite (spec_lookup_same _ _ _ Hs), Hl, EB, EG, EI. intros v. rewrite (proj2 (id_key_inj c' c) Hs), lookup_insert_eq.
    by intros [= <-].
Qed.

Lemma store_ok_block C next m c id blob mb gb children links :
  store_ok C next m → unused C next id → meta_check mb = Some (meta_of_cid c) →
  graph_check gb = Some {| gr_children := children |} → Forall2 (names C) children links →
  store_ok (foldl cf_put C (block_batch c id blob mb gb)) next ((c, blob, links) :: m).
Proof.
  intros Hok Hun Hc Hgc Hch. set (C' := foldl cf_put C _).
  assert (C' CF_METADATA_V0 = <[to_be_bytes id := mb]> (C CF_METADATA_V0)) as EM by done.
  assert (C' CF_ID_V0 = <[id_key c := to_be_bytes id]> (C CF_ID_V0)) as EI by done.
  assert (C' CF_BLOBS_V0 = <[to_be_bytes id := blob]> (C CF_BLOBS_V0)) as EB by done.
  assert (C' CF_GRAPH_V0 = <[to_be_bytes id := gb]> (C CF_GRAPH_V0)) as EG by done. clearbody C'.
  destruct (store_ok_ids C C' next m c id mb Hok Hun Hc EM EI) as [Hm Hi]. split; [apply Hok|done| |done|].
  - intros k Hk. rewrite EM, lookup_insert. case_decide; [eauto|].
    rewrite EB, EG, !lookup_insert_ne in Hk by done. by apply Hok.
  - intros c'. cbn. case_decide as Hs.
    + rewrite EI, EB, EG, (proj2 (id_key_inj c' c) Hs). exists id, gb, children. rewrite !lookup_insert_eq. split_and!; try done.
      eapply Forall2_impl; [exact Hch|]. intros x l Hx. eapply names_mono; [apply Hun|exact Hx|done].
    + eapply stored_other; try done. intros k Hk. by rewrite EB, EG, !lookup_insert_ne.
Qed.

(** ** Reading *)

Definition content (s : StoreState) : contents := db_content (st_db s).
Definition state_ok (s : StoreState) (m : list stored) : Prop := store_ok (content s) (st_next_id s) m.

(** The answer [v], or a failure of the database *)
Definition answers {A} (r : res store_error A) (v : A) : Prop := r = Ok v ∨ ∃ e, r = Err (ErrDb e).

Lemma answers_bind {A B} (r : res store_error A) v (f : A → res store_error B) w :
  answers r v → answers (f v) w → answers (r ≫= f) w.
Proof. intros [->|[e ->]] Hf; [exact Hf|]. right. by exists e. Qed.

Lemma answers_ok {A} (v : A) : answers (Ok v) v.
Proof. by left. Qed.

Lemma get_cf_answers f k s : answers (get_cf f k s) (content s f !! k).
Proof.
  unfold get_cf, content. destruct (db_get (st_db s) f k) as [o|e|] eqn:E; cbn.
  - left. f_equal. by apply db_get_content.
  - right. by exists e.
  - by apply db_get_no_panic in E.
Qed.

Lemma first_8_be id : first_8 (to_be_bytes id) = Ok (to_be_bytes id).
Proof. done. Qed.

Lemma array_8_be id : array_8 (to_be_bytes id) = Ok (to_be_bytes id).
Proof. done. Qed.

Lemma get_id_answers c s m :
  state_ok s m →
  match content s CF_ID_V0 !! id_key c with
  | Some v => ∃ id, v = to_be_bytes id ∧ answers (get_id c s) (Some id)
  | None => answers (get_id c s) None
  end.
Proof.
  intros Hok. destruct (content s CF_ID_V0 !! id_key c) as [v|] eqn:E.
  - destruct (sk_id _ _ _ Hok _ _ E) as (c' & id & _ & -> & Hr & _). exists id. split; [done|].
    eapply answers_bind; [apply get_cf_answers|]. rewrite E, first_8_be. cbn. rewrite be_val_to_be_bytes by done. by left.
  - eapply answers_bind; [apply get_cf_answers|]. rewrite E. by left.
Qed.

Lemma links_loop_answers children links s :
  Forall2 (names (content s)) children links →
  answers (links_loop children s) (to_v1 <$> links).
Proof.
  induction 1 as [|id l children links (b & Hb & Hc) _ IH]; [by left|]. cbn [links_loop fmap list_fmap].
  eapply answers_bind; [apply get_cf_answers|]. rewrite Hb, Hc. cbn. rewrite mh_bytes_roundtrip. cbn.
  eapply answers_bind; [exact IH|]. by left.
Qed.

Lemma store_reads c s m :
  state_ok s m →
  answers (store_get c s) (spec_get c m) ∧ answers (store_has c s) (spec_has c m) ∧
  answers (store_get_size c s) (spec_get_size c m) ∧ answers (store_get_links c s) (spec_get_links c m).
Proof.
  intros Hok. unfold spec_get, spec_has, spec_get_size, spec_get_links.
  pose proof (get_id_answers c s m Hok) as Hid. pose proof (sk_stored _ _ _ Hok c) as Hs.
  destruct (content s CF_ID_V0 !! id_key c) as [v|] eqn:Ev.
  - destruct Hid as (id & -> & Hid). destruct (spec_lookup c m) as [[blob links]|].
    + destruct Hs as (i & g & ch & Ei & Hb & Hg & Hgc & Hch). apply (inj Some) in Ei. rewrite <-Ei in Hb, Hg.
      split_and!; (eapply answers_bind; [exact Hid|]; cbn beta iota).
      * rewrite <-Hb. apply get_cf_answers.
      * eapply answers_bind; [apply get_cf_answers|]. rewrite Hb. by left.
      * eapply answers_bind; [apply get_cf_answers|]. rewrite Hb. by left.
      * eapply answers_bind; [apply get_cf_answers|]. rewrite Hg, Hgc. cbn.
        eapply answers_bind; [by apply links_loop_answers|]. by left.
    + destruct (Hs _ eq_refl) as [Hb Hg]. split_and!; (eapply answers_bind; [exact Hid|]; cbn beta iota).
      * rewrite <-Hb. apply get_cf_answers.
      * eapply answers_bind; [apply get_cf_answers|]. rewrite Hb. by left.
      * eapply answers_bind; [apply get_cf_answers|]. rewrite Hb. by left.
      * eapply answers_bind; [apply get_cf_answers|]. rewrite Hg. by left.
  - destruct (spec_lookup c m) as [[blob links]|]; [by destruct Hs as (? & ? & ? & ? & _)|].
    split_and!; (eapply answers_bind; [exact Hid|]); by left.
Qed.

(** ** Writing *)

(** What holds of the state and the outcome of a write operation *)
Definition wp {A} (p : store_m A) (Q : StoreState → res store_error A → Prop) (s : StoreState) : Prop :=
  Q (p s).1 (p s).2.

Lemma wp_bind {A B} (p : store_m A) (f : A → store_m B) Q s :
  wp p (λ s r, match r with Ok a => wp (f a) Q s | Err e => Q s (Err e) | Panic => Q s Panic end) s →
  wp (p ≫= f) Q s.
Proof. unfold wp, mbind, store_bind. by destruct (p s) as [s1 [a|e|]]. Qed.

Lemma wp_mono {A} (p : store_m A) (Q Q' : StoreState → res store_error A → Prop) s :
  (∀ s r, Q s r → Q' s r) → wp p Q s → wp p Q' s.
Proof. unfold wp. auto. Qed.

(** Operations fail only because of the database or an archive, and panic only when
    the identifiers are used up. *)
Definition failure {A} (s : StoreState) (r : res store_error A) : Prop :=
  match r with
  | Ok _ => False
  | Err (ErrDb _) | Err ErrArchive => True
  | Err _ => False
  | Panic => st_next_id s = Int.u_max 64
  end.

(** The state after some more identifiers were given to links *)
Record later (m : list stored) (s s' : StoreState) : Prop := {
  lt_ok : state_ok s' m;
  lt_next : st_next_id s ≤ st_next_id s';
  lt_names id c : names (content s) id c → names (content s') id c;
  lt_unused id : unused (content s) (st_next_id s) id → unused (content s') (st_next_id s') id
}.

Lemma later_refl m s : state_ok s m → later m s s.
Proof. intros Hs. by split. Qed.

Lemma later_trans m s1 s2 s3 : later m s1 s2 → later m s2 s3 → later m s1 s3.
Proof. intros [? ? ? ?] [? ? ? ?]. split; eauto; lia. Qed.

Lemma next_id_spec s m :
  state_ok s m →
  wp store_next_id (λ s' r, later m s s' ∧ st_db s' = st_db s ∧
    match r with
    | Ok id => id = st_next_id s ∧ st_next_id s' = id + 1 ∧ unused (content s') (st_next_id s') id
    | _ => failure s' r
    end) s.
Proof.
  intros Hok. pose proof (sk_next _ _ _ Hok) as Hn. unfold wp, store_next_id. destruct (Z.eqb_spec (st_next_id s) (Int.u_max 64)) as [E|E].
  - split; [by apply later_refl|done].
  - cbn. split; [split; cbn; [|lia|done|]|].
    + eapply store_ok_next, Hok. cbn. lia.
    + intros id [? ?]. split; [lia|done].
    + split_and!; try done. split; [lia|]. by eapply fresh_id.
Qed.

Lemma meta_bytes_spec c :
  match meta_bytes c with
  | Ok b => meta_check b = Some (meta_of_cid c)
  | Err e => e = ErrArchive
  | Panic => False
  end.
Proof. unfold meta_bytes. destruct (meta_to_bytes _) eqn:E; cbn; [by apply meta_roundtrip|done]. Qed.

(** A batch of links that is going to be written: identifiers that are not in use and
    differ from each other *)
Record link_write := { lw_cid : Cid; lw_id : Z; lw_meta : bytes }.
Definition lw_batch (l : list link_write) : batch := l ≫= λ w, link_batch (lw_cid w) (lw_id w) (lw_meta w).

Definition links_ready (C : contents) (next : Z) (m : list stored) (l : list link_write) : Prop :=
  NoDup (lw_id <$> l) ∧
  ∀ w, w ∈ l → unused C next (lw_id w) ∧ meta_check (lw_meta w) = Some (meta_of_cid (lw_cid w)) ∧
               spec_lookup (lw_cid w) m = None.

Lemma link_batch_meta C c id mb : foldl cf_put C (link_batch c id mb) CF_METADATA_V0 = <[to_be_bytes id := mb]> (C CF_METADATA_V0).
Proof. done. Qed.

Lemma be_ne C next m i j : store_ok C next m → unused C next i → unused C next j → i ≠ j → to_be_bytes i ≠ to_be_bytes j.
Proof. intros Hok [Hi _] [Hj _] Hne E. apply Hne, to_be_bytes_inj; [eapply in_range; [exact Hok|done]..|done]. Qed.

Lemma links_written l C next m :
  store_ok C next m → links_ready C next m l →
  let C' := foldl cf_put C (lw_batch l) in
  store_ok C' next m ∧ (∀ id c, names C id c → names C' id c) ∧ (∀ w, w ∈ l → names C' (lw_id w) (lw_cid w)) ∧
  (∀ id, unused C next id → id ∉ lw_id <$> l → unused C' next id).
Proof.
  revert C. induction l as [|w l IH]; intros C Hok [Hnd Hl].
  { split_and!; try done. by intros w ?%not_elem_of_nil. }
  cbn in Hnd. apply NoDup_cons in Hnd as [Hw Hnd]. destruct (Hl w) as (Hu & Hc & Hs); [by left|].
  unfold lw_batch. cbn [mbind list_bind]. rewrite foldl_app. set (C1 := foldl cf_put C (link_batch _ _ _)).
  pose proof (link_batch_meta C (lw_cid w) (lw_id w) (lw_meta w)) as EM. fold C1 in EM.
  pose proof (store_ok_link _ _ _ _ _ _ Hok Hu Hc Hs) as Hok1. fold C1 in Hok1.
  assert (∀ id, unused C next id → id ≠ lw_id w → unused C1 next id) as Hun.
  { intros id Hid Hne. split; [apply Hid|]. rewrite EM, lookup_insert_ne; [apply Hid|].
    eapply be_ne; [exact Hok|exact Hu|exact Hid|congruence]. }
  destruct (IH C1 Hok1) as (Hok2 & Hm & Hn & Hu2).
  { split; [done|]. intros x Hx. destruct (Hl x) as (Hux & ? & ?); [by right|]. split_and!; try done. apply Hun; [done|].
    intros E. apply Hw. rewrite <-E. by apply list_elem_of_fmap_2. }
  fold (lw_batch l). split_and!; [done| | |].
  - intros id c Hnm. apply Hm. by eapply names_mono; [apply Hu|..].
  - intros x [->|Hx]%elem_of_cons; [|by apply Hn]. apply Hm. by eapply names_written.
  - intros id Hid Hne. cbn in Hne. apply not_elem_of_cons in Hne as [Hne1 Hne2]. apply Hu2; [|done]. by apply Hun.
Qed.

(** The loop of [ensure_id_many] only reads the database. *)
Lemma ensure_loop_spec cids s0 m :
  ∀ ids l done_ s,
  state_ok s0 m → state_ok s m → st_db s = st_db s0 → st_next_id s0 ≤ st_next_id s →
  links_ready (content s0) (st_next_id s) m l → Forall (λ w, st_next_id s0 ≤ lw_id w) l →
  Forall2 (λ id c, names (content s0) id c ∨ ∃ w, w ∈ l ∧ lw_id w = id ∧ lw_cid w = c) ids done_ →
  wp (ensure_loop cids ids (lw_batch l)) (λ s' r,
    state_ok s' m ∧ st_db s' = st_db s0 ∧ st_next_id s0 ≤ st_next_id s' ∧
    match r with
    | Ok (ids', b) => ∃ l', b = lw_batch l' ∧ links_ready (content s0) (st_next_id s') m l' ∧
        Forall (λ w, st_next_id s0 ≤ lw_id w) l' ∧
        Forall2 (λ id c, names (content s0) id c ∨ ∃ w, w ∈ l' ∧ lw_id w = id ∧ lw_cid w = c) ids' (done_ ++ cids)
    | _ => failure s' r
    end) s.
Proof.
  induction cids as [|c cids IH]; intros ids l dn s Hok0 Hok Hdb Hnx Hl Hge Hf; cbn [ensure_loop].
  { unfold wp. cbn. split_and!; try done. exists l. rewrite app_nil_r. done. }
  assert (content s = content s0) as Ec by (unfold content; by rewrite Hdb).
  apply wp_bind. unfold wp at 1, asks. cbn [fst snd].
  destruct (get_cf_answers CF_ID_V0 (id_key c) s) as [E|[e E]]; rewrite E; [|by split_and!].
  destruct (content s CF_ID_V0 !! id_key c) as [v|] eqn:Ev.
  - destruct (sk_id _ _ _ Hok _ _ Ev) as (c' & id & Ek & -> & Hr & Hnm). apply wp_bind. unfold wp at 1, lift. cbn [fst snd].
    rewrite array_8_be.
    rewrite be_val_to_be_bytes by done.
    eapply wp_mono; [|apply (IH (ids ++ [id]) l (dn ++ [c]) s); try done].
    + intros s' r. by rewrite <-(assoc_L (++)).
    + apply Forall2_app; [done|]. constructor; [|done]. left. rewrite Ec in Hnm. destruct Hnm as (b & Hb & Hc).
      exists b. split; [done|]. apply id_key_inj in Ek as [E1 E2]. rewrite Hc. unfold meta_of_cid. by rewrite E1, E2.
  - assert (spec_lookup c m = None) as Hn.
    { pose proof (sk_stored _ _ _ Hok c) as Hs. destruct (spec_lookup c m) as [[??]|]; [|done].
      destruct Hs as (?&?&?&Hx&_). congruence. }
    apply wp_bind. eapply wp_mono; [|by apply (next_id_spec s m)]. intros s1 r (Hlt & Hdb1 & Hr).
    destruct Hlt as [Hok1 Hnx1 _ Hun1]. rewrite Hdb in Hdb1.
    destruct r as [id|e|]; [|split_and!; [done|done|lia|done]..]. destruct Hr as (-> & Hn1 & Hu).
    apply wp_bind. unfold wp at 1, lift. cbn [fst snd]. pose proof (meta_bytes_spec c) as Hm.
    destruct (meta_bytes c) as [mb|e|]; [|subst e; split_and!; [done|done|lia|done]|done].
    assert (content s1 = content s0) as Ec1 by (unfold content; by rewrite Hdb1). rewrite Ec1 in *.
    set (w := {| lw_cid := c; lw_id := st_next_id s; lw_meta := mb |}).
    replace (lw_batch l ++ _) with (lw_batch (l ++ [w])) by (unfold lw_batch; by rewrite bind_app).
    eapply wp_mono; [|apply (IH (ids ++ [st_next_id s]) (l ++ [w]) (dn ++ [c]) s1); try done].
    + intros s' r. by rewrite <-(assoc_L (++)).
    + lia.
    + destruct Hl as [Hnd Hl]. split.
      * rewrite fmap_app. apply NoDup_app. split_and!; [done| |apply NoDup_singleton].
        intros i (x & -> & Hx)%list_elem_of_fmap Hi. apply list_elem_of_singleton in Hi.
        destruct (Hl x Hx) as ([? _] & _). cbn in Hi. lia.
      * intros x [Hx|Hx]%elem_of_app.
        -- destruct (Hl x Hx) as ([Hx1 Hx2] & ? & ?). split; [split; [lia|done]|done].
        -- apply list_elem_of_singleton in Hx as ->. done.
    + apply Forall_app. split; [done|]. constructor; [done|constructor].
    + apply Forall2_app.
      * eapply Forall2_impl; [exact Hf|]. intros i x [?|(y & ? & ? & ?)]; [by left|]. right. exists y. split; [|done].
        apply elem_of_app. by left.
      * constructor; [|done]. right. exists w. split; [|done]. apply elem_of_app. right. by left.
Qed.

Lemma write_spec b s :
  wp (write b) (λ s' r, st_next_id s' = st_next_id s ∧
    match r with
    | Ok _ => ∀ f, content s' f = foldl cf_put (content s) b f
    | _ => s' = s ∧ failure s' r
    end) s.
Proof.
  unfold wp, write. destruct (db_write (st_db s) b) as [d|e|] eqn:E; cbn; [|done|by apply db_write_no_panic in E].
  split; [done|]. by apply db_write_content.
Qed.

Lemma ensure_id_many_spec cids s m :
  state_ok s m →
  wp (ensure_id_many cids) (λ s' r, later m s s' ∧
    match r with Ok ids => Forall2 (names (content s')) ids cids | _ => failure s' r end) s.
Proof.
  intros Hok. unfold ensure_id_many. apply wp_bind.
  eapply wp_mono; [|apply (ensure_loop_spec cids s m [] [] [] s); try done; by split; [constructor|intros ??%not_elem_of_nil]].
  intros s1 r (Hok1 & Hdb & Hnx & Hr).
  assert (content s1 = content s) as Ec by (unfold content; by rewrite Hdb).
  assert (later m s s1) as Hlt.
  { split; try done; rewrite Ec; [done|]. intros id [? ?]. split; [lia|done]. }
  destruct r as [[ids b]|e|]; [|done..]. destruct Hr as (l & -> & Hl & Hge & Hf). rewrite <-Ec in Hl, Hf.
  apply wp_bind. eapply wp_mono; [|apply write_spec]. intros s2 r (Hnx2 & Hr).
  destruct r as [[]|e|]; [|by destruct Hr as [-> ?]..]. unfold wp. cbn.
  destruct (links_written l (content s1) (st_next_id s1) m Hok1 Hl) as (Hok2 & Hm & Hn & Hu). split.
  - split; unfold state_ok; rewrite ?Hnx2; [by eapply store_ok_ext|done| |].
    + intros id c Hnm. eapply names_ext; [exact Hr|]. by apply Hm, (lt_names _ _ _ Hlt).
    + intros id Hid. destruct (Hu id) as [Hu1 Hu2]; [by apply (lt_unused _ _ _ Hlt)| |split; [done|by rewrite Hr]].
      intros (w & -> & Hw)%list_elem_of_fmap. rewrite Forall_forall in Hge. specialize (Hge w Hw). destruct Hid. lia.
  - eapply Forall2_impl; [exact Hf|]. intros i c [Hnm|(w & Hw & <- & <-)]; (eapply names_ext; [exact Hr|]); auto.
Qed.

(** Blocks that are going to be written *)
Record block_write := {
  bw_cid : Cid; bw_id : Z; bw_blob : bytes; bw_meta : bytes; bw_graph : bytes; bw_children : list Z; bw_links : list Cid
}.
Definition bw_batch (l : list block_write) : batch :=
  l ≫= λ w, block_batch (bw_cid w) (bw_id w) (bw_blob w) (bw_meta w) (bw_graph w).
Definition bw_stored (m : list stored) (w : block_write) : list stored := (bw_cid w, bw_blob w, bw_links w) :: m.

Definition block_ready (C : contents) (next : Z) (w : block_write) : Prop :=
  unused C next (bw_id w) ∧ meta_check (bw_meta w) = Some (meta_of_cid (bw_cid w)) ∧
  graph_check (bw_graph w) = Some {| gr_children := bw_children w |} ∧ Forall2 (names C) (bw_children w) (bw_links w).
Definition blocks_ready (C : contents) (next : Z) (l : list block_write) : Prop :=
  NoDup (bw_id <$> l) ∧ ∀ w, w ∈ l → block_ready C next w.

Lemma block_ready_later m s s' w :
  later m s s' → block_ready (content s) (st_next_id s) w → block_ready (content s') (st_next_id s') w.
Proof.
  intros Hlt (Hu & Hm & Hg & Hc). split_and!; try done; [by apply Hlt|]. eapply Forall2_impl; [exact Hc|]. apply Hlt.
Qed.

Lemma blocks_written l C next m :
  store_ok C next m → blocks_ready C next l → store_ok (foldl cf_put C (bw_batch l)) next (foldl bw_stored m l).
Proof.
  revert C m. induction l as [|w l IH]; intros C m Hok [Hnd Hl]; [done|].
  cbn in Hnd. apply NoDup_cons in Hnd as [Hw Hnd]. destruct (Hl w) as (Hu & Hc & Hg & Hch); [by left|].
  unfold bw_batch. cbn [mbind list_bind foldl]. rewrite foldl_app. apply IH; [by eapply store_ok_block|].
  split; [done|]. intros x Hx. destruct (Hl x) as (Hux & ? & ? & Hchx); [by right|].
  split_and!; try done.
  - split; [apply Hux|]. change (<[to_be_bytes (bw_id w) := bw_meta w]> (C CF_METADATA_V0) !! to_be_bytes (bw_id x) = None).
    rewrite lookup_insert_ne; [apply Hux|]. eapply be_ne; [exact Hok|exact Hu|exact Hux|].
    intros E. apply Hw. rewrite E. by apply list_elem_of_fmap_2.
  - eapply Forall2_impl; [exact Hchx|]. intros i c Hi. eapply names_mono; [apply Hu|exact Hi|done].
Qed.

Lemma prepare_spec c blob links s m :
  state_ok s m →
  wp (prepare c blob links) (λ s' r, later m s s' ∧
    match r with
    | Ok b => ∃ w, b = bw_batch [w] ∧ (bw_cid w, bw_blob w, bw_links w) = (c, blob, links) ∧
                   block_ready (content s') (st_next_id s') w ∧ st_next_id s ≤ bw_id w
    | _ => failure s' r
    end) s.
Proof.
  intros Hok. unfold prepare. apply wp_bind. eapply wp_mono; [|by apply next_id_spec]. intros s1 r (Hlt1 & _ & Hr).
  destruct r as [id|e|]; [|done..]. destruct Hr as (-> & _ & Hu). apply wp_bind. unfold wp at 1, lift. cbn [fst snd].
  pose proof (meta_bytes_spec c) as Hm. destruct (meta_bytes c) as [mb|e|]; [|by subst e|done].
  apply wp_bind. eapply wp_mono; [|apply (ensure_id_many_spec links s1 m), Hlt1]. intros s2 r (Hlt2 & Hr).
  pose proof (later_trans _ _ _ _ Hlt1 Hlt2) as Hlt. destruct r as [children|e|]; [|done..].
  apply wp_bind. unfold wp at 1, lift. cbn [fst snd]. destruct (graph_to_bytes _) as [gb|] eqn:Eg; cbn; [|done].
  unfold wp. cbn. split; [done|].
  exists {| bw_cid := c; bw_id := st_next_id s; bw_blob := blob; bw_meta := mb; bw_graph := gb;
            bw_children := children; bw_links := links |}.
  split_and!; [by unfold bw_batch; cbn; rewrite ?app_nil_r|done| |done].
  split_and!; [by apply Hlt2|done|by apply graph_roundtrip|done].
Qed.

Lemma has_wp c s m (Q : StoreState → res store_error bool → Prop) :
  state_ok s m → Q s (Ok (spec_has c m)) → (∀ e, Q s (Err (ErrDb e))) → wp (asks (store_has c)) Q s.
Proof.
  intros Hok H1' H2'. unfold wp, asks. cbn. destruct (store_reads c s m Hok) as (_ & [->|[e ->]] & _); [done|apply H2'].
Qed.

Lemma write_blocks s m l :
  state_ok s m → blocks_ready (content s) (st_next_id s) l →
  wp (write (bw_batch l)) (λ s' r,
    state_ok s' (match r with Ok _ => foldl bw_stored m l | _ => m end) ∧ (r = Ok tt ∨ failure s' r)) s.
Proof.
  intros Hok Hl. eapply wp_mono; [|apply write_spec]. intros s' r (En & Hr).
  destruct r as [[]|e|]; [|destruct Hr as [-> ?]; split; [done|by right]..].
  split; [|by left]. unfold state_ok. rewrite En. eapply store_ok_ext; [exact Hr|]. by apply blocks_written.
Qed.

Lemma put_spec c blob links s m :
  state_ok s m →
  wp (store_put c blob links) (λ s' r,
    state_ok s' (match r with Ok _ => spec_put (c, blob, links) m | _ => m end) ∧ (r = Ok tt ∨ failure s' r)) s.
Proof.
  intros Hok. unfold store_put. apply wp_bind. eapply has_wp; [done| |].
  - unfold spec_has, spec_put. cbn. destruct (spec_lookup c m) as [[??]|]; [split; [done|by left]|].
    apply wp_bind. eapply wp_mono; [|by apply prepare_spec]. intros s1 r (Hlt & Hr).
    destruct r as [b|e|]; [|split; [apply Hlt|by right]..]. destruct Hr as (w & -> & [= <- <- <-] & Hw & _).
    eapply wp_mono; [|apply (write_blocks s1 m [w])]; [|apply Hlt|].
    + by intros s2 r Hr.
    + split; [apply NoDup_singleton|]. by intros x ->%list_elem_of_singleton.
  - intros e. split; [done|by right].
Qed.

Lemma blocks_ready_snoc m s s' l w :
  later m s s' → blocks_ready (content s) (st_next_id s) l → block_ready (content s') (st_next_id s') w →
  st_next_id s ≤ bw_id w → blocks_ready (content s') (st_next_id s') (l ++ [w]).
Proof.
  intros Hlt [Hnd Hl] Hw Hge. split.
  - rewrite fmap_app. apply NoDup_app. split_and!; [done| |apply NoDup_singleton].
    intros i (x & -> & Hx)%list_elem_of_fmap Hi. apply list_elem_of_singleton in Hi.
    destruct (Hl x Hx) as ([? _] & _). cbn in Hi. lia.
  - intros x [Hx|Hx]%elem_of_app; [by eapply block_ready_later; [|apply Hl]|]. by apply list_elem_of_singleton in Hx as ->.
Qed.

Lemma put_many_loop_spec blocks m : ∀ tracker l s,
  state_ok s m → blocks_ready (content s) (st_next_id s) l →
  wp (put_many_loop blocks tracker (bw_batch l)) (λ s' r, later m s s' ∧
    match r with
    | Ok b => ∃ l', b = bw_batch l' ∧ blocks_ready (content s') (st_next_id s') l' ∧
                    foldl bw_stored m l' = spec_put_many blocks tracker m (foldl bw_stored m l)
    | _ => failure s' r
    end) s.
Proof.
  induction blocks as [|[[c blob] links] blocks IH]; intros tracker l s Hok Hl; cbn [put_many_loop spec_put_many fst].
  { unfold wp. cbn. split; [by apply later_refl|]. by exists l. }
  apply wp_bind. case_decide as Ht.
  { unfold wp at 1. cbn. rewrite decide_True by (by left). by apply IH. }
  eapply has_wp; [done| |intros e; split; [by apply later_refl|done]]. unfold spec_has.
  destruct (spec_lookup c m) as [[??]|] eqn:El; [rewrite decide_True by eauto; by apply IH|].
  rewrite decide_False by (by rewrite is_Some_alt; intros [?|?]).
  apply wp_bind. eapply wp_mono; [|by apply prepare_spec]. intros s1 r (Hlt & Hr).
  destruct r as [b|e|]; [|done..]. destruct Hr as (w & -> & Ew & Hw & Hge).
  replace (bw_batch l ++ bw_batch [w]) with (bw_batch (l ++ [w])) by (unfold bw_batch; by rewrite bind_app).
  eapply wp_mono; [|apply (IH ({[c]} ∪ tracker) (l ++ [w]) s1); [apply Hlt|by eapply blocks_ready_snoc]].
  intros s2 r (Hlt2 & Hr). split; [by eapply later_trans|]. destruct r as [b|e|]; [|done..].
  destruct Hr as (l' & -> & Hl' & E). exists l'. split_and!; [done|done|]. rewrite E, foldl_app. cbn.
  unfold bw_stored at 1. by rewrite Ew.
Qed.

Lemma put_many_spec blocks s m :
  state_ok s m →
  wp (store_put_many blocks) (λ s' r,
    state_ok s' (match r with Ok _ => spec_put_many blocks ∅ m m | _ => m end) ∧ (r = Ok tt ∨ failure s' r)) s.
Proof.
  intros Hok. unfold store_put_many. apply wp_bind.
  eapply wp_mono; [|apply (put_many_loop_spec blocks m ∅ [] s Hok); by split; [constructor|intros ??%not_elem_of_nil]].
  intros s1 r (Hlt & Hr). destruct r as [b|e|]; [|split; [apply Hlt|by right]..].
  destruct Hr as (l & -> & Hl & E). cbn in E. rewrite <-E. apply write_blocks; [apply Hlt|done].
Qed.

(** ** Opening again *)

Lemma last_key_max (m : gmap bytes bytes) k v l : reverse (kv_sorted m) = (k, v) :: l → ∀ k', is_Some (m !! k') → bytes_leb k' k = true.
Proof.
  intros E k' [v' Hv]. destruct (kv_sorted_spec m) as [Hs Hin]. apply StronglySorted_reverse in Hs. rewrite E in Hs.
  apply StronglySorted_inv in Hs as [_ Hf]. rewrite Forall_forall in Hf.
  assert ((k', v') ∈ (k, v) :: l) as Hk by (rewrite <-E, elem_of_reverse; by apply Hin).
  apply elem_of_cons in Hk as [[= <- <-]|Hk]; [apply bytes_leb_refl|]. exact (Hf _ Hk).
Qed.

Definition iterator_starts (d : Db) : Prop := ∀ e, head (db_iterator d CF_METADATA_V0 IterEnd) ≠ Some (Err e).

Lemma open_spec s m : iterator_starts (st_db s) → state_ok s m → ∃ s', store_open (st_db s) = Ok s' ∧ state_ok s' m.
Proof.
  intros Hit Hok. unfold store_open.
  destruct (db_iterator_items (st_db s) CF_METADATA_V0 IterEnd) as (l & rest & E & Hl). rewrite E in *. cbn [kv_items] in Hl.
  fold (content s) in Hl. destruct l as [|[k v] l]; cbn.
  - destruct rest as [|r rest]; [|destruct Hl as [[? _]|(e & ? & [= -> _] & _)]; [done|]; by destruct (Hit e); rewrite E].
    destruct Hl as [[_ Hl]|(? & ? & ? & _)]; [|done]. eexists. split; [done|].
    assert (content s CF_METADATA_V0 = ∅) as Ee.
    { apply map_empty. intros k. apply eq_None_not_Some. intros [v Hv].
      apply (kv_sorted_spec (content s CF_METADATA_V0)) in Hv. rewrite <-elem_of_reverse, <-Hl in Hv. by apply not_elem_of_nil in Hv. }
    split; [done| |apply Hok|apply Hok|apply Hok]. intros k.
    change (is_Some (content s CF_METADATA_V0 !! k) → ∃ id, k = to_be_bytes id ∧ 1 ≤ id < 1). rewrite Ee, lookup_empty. by intros [].
  - assert (∃ l', reverse (kv_sorted (content s CF_METADATA_V0)) = (k, v) :: l') as [l' Hr].
    { destruct Hl as [[_ Hl]|(? & ? & _ & [y Hl])]; [by exists l|]. exists (l ++ y). by rewrite Hl. }
    assert (content s CF_METADATA_V0 !! k = Some v) as Hk.
    { apply kv_sorted_spec. rewrite <-elem_of_reverse, Hr. by left. }
    destruct (sk_meta _ _ _ Hok k) as (id & -> & Hid); [eauto|]. rewrite first_8_be. cbn.
    pose proof (in_range _ _ _ _ Hok Hid) as Hrg. rewrite be_val_to_be_bytes by done.
    pose proof (sk_next _ _ _ Hok) as Hn. rewrite Int.wrap_id by (unfold Int.in_u, Int.u_max in *; lia).
    eexists. split; [done|]. split; cbn; [lia| |apply Hok|apply Hok|apply Hok].
    intros k' Hk'. destruct (sk_meta _ _ _ Hok k' Hk') as (id' & -> & Hid'). exists id'. split; [done|].
    pose proof (last_key_max _ _ _ _ Hr _ Hk') as Hle. pose proof (in_range _ _ _ _ Hok Hid') as Hrg'.
    apply be_val_order in Hle; [|done|apply to_be_bytes_ok..]. rewrite !be_val_to_be_bytes in Hle by done. lia.
Qed.

(** ** Blocks by their hash *)

Lemma prefix_contiguous h x y : bytes_leb h x = true → starts_with h x = false → starts_with h y = true → bytes_leb x y = false.
Proof.
  unfold starts_with. revert x y. induction h as [|a h IH]; intros [|b x] [|c y]; cbn; try done.
  rewrite !bool_decide_eq_true, bool_decide_eq_false. intros Hle Hx [= -> Hy].
  destruct (Z.ltb_spec a b), (Z.ltb_spec b a); try done; try lia.
  assert (a = b) as -> by lia. apply IH; [done|rewrite bool_decide_eq_false; congruence|by rewrite bool_decide_eq_true].
Qed.

Lemma take_while_filter {A} (p : A → bool) (R : A → A → Prop) l :
  StronglySorted R l → (∀ x y, x ∈ l → y ∈ l → R x y → p x = false → p y = false) → take_while p l = filter (λ x, p x = true) l.
Proof.
  induction 1 as [|x l Hs IH Hx]; intros Hp; [done|]. cbn [take_while]. rewrite Forall_forall in Hx. destruct (p x) eqn:E.
  - rewrite filter_cons_True by done. f_equal. apply IH. intros a b Ha Hb. apply Hp; by right.
  - rewrite filter_cons_False by (by rewrite E). symmetry. apply elem_of_nil_inv. intros y [Hpy Hy]%list_elem_of_filter.
    rewrite (Hp x y) in Hpy; [done|by left|by right|by apply Hx|done].
Qed.

Lemma take_while_stop {A} (p : A → bool) l l' :
  take_while p l = l ∧ take_while p (l ++ l') = l ++ take_while p l' ∨ take_while p (l ++ l') = take_while p l.
Proof.
  induction l as [|x l IH]; [by left|]. cbn. destruct (p x); [|by right].
  destruct IH as [[E1 E2]|E]; [left; by rewrite E1, E2|right; by rewrite E].
Qed.

Lemma take_while_fmap {A B} (p : B → bool) (f : A → B) l : take_while p (f <$> l) = f <$> take_while (p ∘ f) l.
Proof. induction l as [|x l IH]; [done|]. cbn. destruct (p (f x)); cbn; [by rewrite IH|done]. Qed.

Lemma StronglySorted_filter_sub {A} (R : A → A → Prop) (P : A → Prop) `{∀ x, Decision (P x)} l :
  StronglySorted R l → StronglySorted R (filter P l).
Proof.
  induction 1 as [|x l Hs IH Hx]; [constructor|]. rewrite filter_cons. case_decide; [|done].
  constructor; [done|by apply Forall_filter_sub].
Qed.

Lemma starts_with_app a b : starts_with a b = true ↔ ∃ x, b = a ++ x.
Proof.
  unfold starts_with. rewrite bool_decide_eq_true. split.
  - intros E. exists (drop (length a) b). rewrite <-E at 1. by rewrite take_drop.
  - intros [x ->]. apply take_app_length.
Qed.

Lemma bytes_leb_app a x : bytes_leb a (a ++ x) = true.
Proof. induction a as [|y a IH]; [done|]. cbn. by rewrite Z.ltb_irrefl. Qed.

(** The keys of a multihash *)
Definition of_hash (hash : bytes) (e : bytes * bytes) : bool := (length e.1 =? length hash + 8)%nat && starts_with hash e.1.

Lemma of_hash_spec C next m h k v :
  store_ok C next m → C CF_ID_V0 !! k = Some v →
  of_hash (mh_to_bytes h) (k, v) = true ↔ ∃ c, k = id_key c ∧ cid_hash c = h.
Proof.
  intros Hok Hk. unfold of_hash. cbn. rewrite andb_true_iff, Nat.eqb_eq, starts_with_app. split.
  - intros [_ [x Ex]]. destruct (sk_id _ _ _ Hok _ _ Hk) as (c & id & -> & _). exists c. split; [done|].
    unfold id_key in Ex. by apply mh_self_delimiting in Ex.
  - intros (c & -> & <-). unfold id_key. rewrite length_app. split; [done|eauto].
Qed.

(** What the iterator hands to the loops: the entries of the multihash, or some of
    them and then a failure *)
Lemma ids_for_hash h s m :
  state_ok s m →
  let keys := filter (λ e, of_hash (mh_to_bytes h) e = true) (kv_sorted (content s CF_ID_V0)) in
  ∃ t rest, get_ids_for_hash h s = code_and_id (length (mh_to_bytes h)) <$> ((Ok <$> t) ++ rest) ∧
    (∀ e, e ∈ t → e ∈ keys) ∧ ((rest = [] ∧ t = keys) ∨ ∃ e rest', rest = Err e :: rest').
Proof.
  intros Hok. cbn zeta. set (hb := mh_to_bytes h). set (keys := filter _ _). unfold get_ids_for_hash. fold hb.
  set (p := λ elem : res db_error (bytes * bytes), match elem with Ok (k, _) => _ | _ => true end).
  destruct (db_iterator_items (st_db s) CF_ID_V0 (IterFrom hb)) as (l & rest & -> & Hl).
  set (items := kv_items (IterFrom hb) (content s CF_ID_V0)). destruct (kv_sorted_spec (content s CF_ID_V0)) as [Hsort Hin].
  assert (∀ l, take_while p (Ok <$> l) = Ok <$> take_while (of_hash hb) l) as Hp.
  { intros l0. rewrite take_while_fmap. f_equal. induction l0 as [|[k v] l0 IH]; [done|]. cbn. by rewrite IH. }
  assert (take_while (of_hash hb) items = keys) as Htw.
  { rewrite (take_while_filter _ entry_le); [|by apply StronglySorted_filter_sub|].
    - unfold items, keys. cbn. rewrite list_filter_filter. apply list_filter_iff. intros [k v].
      split; [by intros [? ?]|]. intros Hk. split; [done|]. apply andb_true_iff in Hk as [_ [x ->]%starts_with_app]. apply bytes_leb_app.
    - intros [k v] [k' v'] [Hk Hx]%list_elem_of_filter [Hk' Hx']%list_elem_of_filter Hle Hf.
      apply Hin in Hx, Hx'. apply not_true_iff_false. intros Ht.
      assert (starts_with hb k = false) as Hs.
      { apply not_true_iff_false. intros Hst. rewrite <-not_true_iff_false in Hf. apply Hf.
        apply (of_hash_spec _ _ _ _ _ _ Hok Hx). apply starts_with_app in Hst as [y Ey].
        destruct (sk_id _ _ _ Hok _ _ Hx) as (c & id & -> & _). exists c. split; [done|]. by apply mh_self_delimiting in Ey. }
      apply andb_true_iff in Ht as [_ Ht]. pose proof (prefix_contiguous _ _ _ Hk Hs Ht) as Hc. unfold entry_le in Hle. cbn in *. congruence. }
  fold (content s) in Hl. fold items in Hl. destruct Hl as [[-> ->]|(e & rest' & -> & [y Hy])].
  - exists keys, []. rewrite !app_nil_r, Hp, Htw. split_and!; [done|done|by left].
  - destruct (take_while_stop p (Ok <$> l) (Err e :: rest')) as [[E1 E2]|E].
    + exists l, (Err e :: take_while p rest'). rewrite E2. split_and!; [done| |right; eauto].
      intros x Hx. rewrite <-Htw, Hy. rewrite Hp in E1. apply list_fmap_eq_inj in E1; [|by intros ?? [=]].
      destruct (take_while_stop (of_hash hb) l y) as [[_ ->]| ->]; [apply elem_of_app; by left|by rewrite E1].
    + rewrite E, Hp. destruct (take_while_stop (of_hash hb) l y) as [[E1 E2]|E1].
      * exfalso. assert (take_while p ((Ok <$> l) ++ Err e :: rest') = (Ok <$> l) ++ take_while p (Err e :: rest')) as E3.
        { clear -E1 Hp. assert (take_while p (Ok <$> l) = Ok <$> l) as E0 by (by rewrite Hp, E1). revert E0. generalize (Ok (E := db_error) <$> l).
          intros q. induction q as [|x q IH]; [done|]. cbn. destruct (p x); [|done]. intros [= Eq]. by rewrite IH. }
        rewrite E3 in E. apply (f_equal length) in E. rewrite Hp, E1, length_app in E. cbn in E. lia.
      * exists keys, []. rewrite app_nil_r, <-Htw, Hy, E1. split_and!; [done|done|by left].
Qed.

Lemma blob_loop_spec h s m t rest :
  state_ok s m →
  (∀ e, e ∈ t → e ∈ filter (λ e, of_hash (mh_to_bytes h) e = true) (kv_sorted (content s CF_ID_V0))) →
  match blob_loop (code_and_id (length (mh_to_bytes h)) <$> ((Ok <$> t) ++ rest)) s with
  | Ok (Some b) => (∃ c links, cid_hash c = h ∧ spec_lookup c m = Some (b, links)) ∨
                   blob_loop (code_and_id (length (mh_to_bytes h)) <$> rest) s = Ok (Some b)
  | Err (ErrDb _) => True
  | r => r = blob_loop (code_and_id (length (mh_to_bytes h)) <$> rest) s ∧
         ∀ e, e ∈ t → content s CF_BLOBS_V0 !! e.2 = None
  end.
Proof.
  intros Hok. induction t as [|[k v] t IH]; intros Ht; cbn [fmap list_fmap app].
  - set (r := blob_loop _ s). destruct r as [[b|]|[]|]; try done;
      first [by right|split; [done|by intros e ?%not_elem_of_nil]].
  - assert ((k, v) ∈ filter (λ e, of_hash (mh_to_bytes h) e = true) (kv_sorted (content s CF_ID_V0))) as Hkv by (apply Ht; by left).
    apply list_elem_of_filter in Hkv as [Hk Hin]. apply kv_sorted_spec in Hin.
    pose proof (proj1 (of_hash_spec _ _ _ _ _ _ Hok Hin) Hk) as (c & Ek & Eh).
    destruct (sk_id _ _ _ Hok _ _ Hin) as (c' & id & _ & -> & Hr & _). cbn [blob_loop].
    assert (code_and_id (length (mh_to_bytes h)) (Ok (k, to_be_bytes id)) =
            Ok {| ci_code := be_val (to_be_bytes (cid_codec c)); ci_id := id |}) as ->.
    { unfold code_and_id. cbn [from_db mbind res_bind]. rewrite Ek. unfold id_key. rewrite Eh, drop_app_length, array_8_be.
      cbn [mbind res_bind]. rewrite first_8_be. cbn [mbind res_bind]. by rewrite (be_val_to_be_bytes id). }
    cbn [mbind res_bind ci_id]. destruct (get_cf_answers CF_BLOBS_V0 (to_be_bytes id) s) as [->|[e ->]]; [|done].
    cbn [mbind res_bind]. destruct (content s CF_BLOBS_V0 !! to_be_bytes id) as [b|] eqn:Eb.
    + left. pose proof (sk_stored _ _ _ Hok c) as Hs. rewrite <-Ek, Hin in Hs. destruct (spec_lookup c m) as [[b' links]|] eqn:El.
      * destruct Hs as (i & g & ch & Ei & Hb & _). apply (inj Some) in Ei. rewrite <-Ei in Hb. exists c, links. split; [done|]. congruence.
      * destruct (Hs _ eq_refl) as [Hn _]. congruence.
    + assert (∀ e, e ∈ t → e ∈ filter (λ e, of_hash (mh_to_bytes h) e = true) (kv_sorted (content s CF_ID_V0))) as Ht'.
      { intros e He. apply Ht. by right. }
      specialize (IH Ht'). revert IH. set (r := blob_loop _ s).
      destruct r as [[b|]|[]|]; try done; (intros [E Hall]; split; [done|]); intros x [->|Hx]%elem_of_cons; auto.
Qed.

Lemma blob_by_hash h s m :
  state_ok s m →
  match get_blob_by_hash h s with
  | Ok (Some b) => ∃ c links, cid_hash c = h ∧ spec_lookup c m = Some (b, links)
  | Ok None => ∀ c, cid_hash c = h → spec_lookup c m = None
  | Err (ErrDb _) => True
  | _ => False
  end.
Proof.
  intros Hok. destruct (ids_for_hash h s m Hok) as (t & rest & E & Ht & Hrest). unfold get_blob_by_hash. rewrite E.
  pose proof (blob_loop_spec h s m t rest Hok Ht) as Hb. set (r := blob_loop _ s) in *.
  destruct Hrest as [[-> ->]|(e & rest' & ->)].
  - destruct r as [[b|]|[]|]; cbn in Hb; try (by destruct Hb).
    destruct Hb as [_ Hall]. intros c Hc. pose proof (sk_stored _ _ _ Hok c) as Hs.
    destruct (spec_lookup c m) as [[b links]|]; [|done]. destruct Hs as (id & g & ch & Hid & Hbl & _).
    rewrite (Hall (id_key c, to_be_bytes id)) in Hbl; [done|]. apply list_elem_of_filter. split; [|by apply kv_sorted_spec].
    apply (of_hash_spec _ _ _ _ _ _ Hok Hid). eauto.
  - destruct r as [[b|]|[]|]; cbn in Hb; by destruct Hb.
Qed.

Lemma has_blob_loop_spec elems s :
  has_blob_loop elems s = (o ← blob_loop elems s; Ok (match o with Some _ => true | None => false end)).
Proof.
  induction elems as [|elem elems IH]; [done|]. cbn. destruct elem as [e|e|]; cbn; try done.
  destruct (get_cf _ _ s) as [[b|]|e'|]; cbn; done.
Qed.

(** ** Runs *)

Inductive store_op :=
  | OpPut (cid : Cid) (blob : bytes) (links : list Cid)
  | OpPutMany (blocks : list stored)
  | OpReopen.

Definition store_step (op : store_op) (s : StoreState) : StoreState * res store_error unit :=
  match op with
  | OpPut cid blob links => store_put cid blob links s
  | OpPutMany blocks => store_put_many blocks s
  | OpReopen =>
      match store_open (st_db s) with
      | Ok s' => (s', Ok tt)
      | Err e => (s, Err e)
      | Panic => (s, Panic)
      end
  end.

(** Operations that fail do not count. *)
Definition spec_step (op : store_op) (r : res store_error unit) (m : list stored) : list stored :=
  match r, op with
  | Ok _, OpPut cid blob links => spec_put (cid, blob, links) m
  | Ok _, OpPutMany blocks => spec_put_many blocks ∅ m m
  | _, _ => m
  end.

Fixpoint store_run (ops : list store_op) (s : StoreState) (m : list stored) : StoreState * list stored :=
  match ops with
  | [] => (s, m)
  | op :: ops => let '(s', r) := store_step op s in store_run ops s' (spec_step op r m)
  end.

Definition opens (ops : list store_op) : Prop := OpReopen ∈ ops → ∀ d, iterator_starts d.

Lemma step_ok op s m :
  opens [op] → state_ok s m →
  let '(s', r) := store_step op s in state_ok s' (spec_step op r m) ∧ (r = Ok tt ∨ failure s' r).
Proof.
  intros Hop Hok. destruct op as [c blob links|blocks|]; cbn [store_step].
  - pose proof (put_spec c blob links s m Hok) as Hp. unfold wp in Hp. destruct (store_put c blob links s) as [s' [[]|e|]]; exact Hp.
  - pose proof (put_many_spec blocks s m Hok) as Hp. unfold wp in Hp. destruct (store_put_many blocks s) as [s' [[]|e|]]; exact Hp.
  - destruct (open_spec s m) as (s' & -> & Hok'); [apply Hop; by left|done|]. split; [done|by left].
Qed.

Lemma create_ok : state_ok store_create [].
Proof.
  split; cbn; [done|..].
  - intros k. unfold content. cbn. rewrite db_create_content, lookup_empty. by intros [].
  - intros k. unfold content. cbn. rewrite !db_create_content, !lookup_empty. by intros [[]|[]].
  - intros k v. unfold content. cbn. by rewrite db_create_content, lookup_empty.
  - intros c v. unfold content. cbn. by rewrite db_create_content, lookup_empty.
Qed.

Lemma run_ok ops s m : opens ops → state_ok s m → let '(s', m') := store_run ops s m in state_ok s' m'.
Proof.
  revert s m. induction ops as [|op ops IH]; intros s m Hops Hok; cbn [store_run]; [done|].
  pose proof (step_ok op s m) as Hs. destruct (store_step op s) as [s' r]. apply IH.
  - intros Hin. apply Hops. by right.
  - apply Hs; [|done]. intros Hin%list_elem_of_singleton. apply Hops. subst. by left.
Qed.

(** C15: the store is a map from CIDs to blocks.  After any sequence of single and
    batched puts, failed ones included, and of closing and opening the store again,
    reading a block, its size, its presence and its links gives what was put for its
    multihash and codec, or a failure of the database; a lookup by multihash finds a
    block exactly when one is stored.  If the store is opened again, the iterator over
    the identifiers must not fail ([opens]): a failure there is taken for an empty store
    and the identifiers start again. *)
Theorem store_refines_map ops c h :
  opens ops →
  let '(s, m) := store_run ops store_create [] in
  answers (store_get c s) (spec_get c m) ∧ answers (store_has c s) (spec_has c m) ∧
  answers (store_get_size c s) (spec_get_size c m) ∧ answers (store_get_links c s) (spec_get_links c m) ∧
  match get_blob_by_hash h s with
  | Ok (Some b) => ∃ c, cid_hash c = h ∧ spec_get c m = Some b
  | Ok None => ∀ c, cid_hash c = h → spec_has c m = false
  | Err e => ∃ x, e = ErrDb x
  | Panic => False
  end.
Proof.
  intros Hops. pose proof (run_ok ops store_create [] Hops create_ok) as Hok.
  destruct (store_run ops store_create []) as [s m]. destruct (store_reads c s m Hok) as (H1' & H2' & H3' & H4').
  split_and!; try done. pose proof (blob_by_hash h s m Hok) as Hb. unfold spec_get, spec_has.
  destruct (get_blob_by_hash h s) as [[b|]|[]|]; try done; eauto.
  - destruct Hb as (c' & links & Hc & E). exists c'. by rewrite E.
  - intros c' Hc. by rewrite Hb.
Qed.

(** C40: operations on the store fail cleanly.  In every reachable state a put, a batch
    of puts or opening the store succeeds, or fails because of the database or of an
    archive, or panics because all identifiers are used; when it does not succeed, all
    blocks are as they were.  As for the map, the iterator over the identifiers must not
    fail when the store is opened again ([opens]). *)
Theorem store_fails_cleanly ops op c :
  opens (op :: ops) →
  let '(s, m) := store_run ops store_create [] in
  let '(s', r) := store_step op s in
  r = Ok tt ∨ (failure s' r ∧ answers (store_get c s') (spec_get c m) ∧ answers (store_get_links c s') (spec_get_links c m)).
Proof.
  intros Hops. pose proof (run_ok ops store_create [] (λ Hin, Hops (list_elem_of_further _ _ _ Hin)) create_ok) as Hok.
  destruct (store_run ops store_create []) as [s m]. pose proof (step_ok op s m) as Hs.
  destruct (store_step op s) as [s' r]. destruct Hs as [Hok' [->|Hf]]; [|done|by left|right].
  - intros Hin%list_elem_of_singleton. apply Hops. subst. by left.
  - assert (spec_step op r m = m) as E by (by destruct r). rewrite E in Hok'.
    destruct (store_reads c s' m Hok') as (? & _ & _ & ?). done.
Qed.
End facts.

(** ** A database in memory *)

Module StoreToy.
Import Toy.

Record MemDb := { mem_blobs : gmap bytes bytes; mem_meta : gmap bytes bytes; mem_graph : gmap bytes bytes; mem_id : gmap bytes bytes }.
Definition mem_content (d : MemDb) (f : cf) : gmap bytes bytes :=
  match f with
  | CF_BLOBS_V0 => mem_blobs d | CF_METADATA_V0 => mem_meta d | CF_GRAPH_V0 => mem_graph d | CF_ID_V0 => mem_id d
  end.
Definition mem_of (c : cf → gmap bytes bytes) : MemDb :=
  {| mem_blobs := c CF_BLOBS_V0; mem_meta := c CF_METADATA_V0; mem_graph := c CF_GRAPH_V0; mem_id := c CF_ID_V0 |}.
Definition mem_empty : MemDb := {| mem_blobs := ∅; mem_meta := ∅; mem_graph := ∅; mem_id := ∅ |}.

(** Databases that work, whose iterators from the end fail, and whose writes fail once
    they hold a block *)
Inductive mem_mode := Works | BrokenIterators | FullDisk.
Definition mem_db (mode : mem_mode) : RocksDb := {|
  Db := MemDb; db_error := unit; db_create := mem_empty;
  db_get := λ d f k, Ok (mem_content d f !! k);
  db_write := λ d b,
    match mode with
    | FullDisk => if decide (mem_blobs d = ∅) then Ok (mem_of (foldl cf_put (mem_content d) b)) else Err tt
    | _ => Ok (mem_of (foldl cf_put (mem_content d) b))
    end;
  db_iterator := λ d f m,
    match mode, m with
    | BrokenIterators, IterEnd => [Err tt]
    | _, _ => Ok <$> kv_items m (mem_content d f)
    end
|}.

#[export] Instance mem_laws mode : @RocksDbLaws (mem_db mode).
Proof.
  refine {| db_content := (mem_content : @Db (mem_db mode) → cf → gmap bytes bytes) |}; try done.
  - by intros [].
  - by intros d f k o [= <-].
  - intros d b d' E. assert (d' = mem_of (foldl cf_put (mem_content d) b)) as ->.
    { cbn in E. destruct mode; [by simplify_eq..|]. case_decide; by simplify_eq. }
    by intros [].
  - intros d b. cbn. destruct mode; [done..|]. by case_decide.
  - intros d f m. destruct mode, m; try (eexists _, []; rewrite app_nil_r; by split; [|left]).
    exists [], [Err tt]. split; [done|]. right. eexists tt, []. split; [done|apply prefix_nil].
Defined.

Definition codecs : StoreCodecs := {|
  mh_to_bytes := λ h : @Multihash _ multiformats, Z.of_nat (length h) :: h;
  mh_from_bytes := λ b, match b with _ :: h => Some h | [] => None end;
  cid_v1 := λ k h, h;
  meta_to_bytes := λ m, Some (md_codec m :: md_multihash m);
  meta_check := λ b, match b with k :: h => Some {| md_codec := k; md_multihash := h |} | [] => None end;
  graph_to_bytes := λ g, Some (gr_children g);
  graph_check := λ b, Some {| gr_children := b |}
|}.
#[export] Existing Instance codecs.

#[export] Instance codecs_laws : StoreCodecsLaws.
Proof.
  split; cbn.
  - done.
  - intros h1 h2 x y [= El E]. apply Nat2Z.inj in El. by apply app_inj_1 in E as [-> _].
  - by intros [] b [= <-].
  - by intros [] b [= <-].
Qed.

Definition c1 : @Cid ids := [1].
Definition c2 : @Cid ids := [2].
Definition c3 : @Cid ids := [3].

(** A block and its child, in a batch with the block again, and the store opened again *)
Definition ops : list store_op := [OpPut c1 [10; 11] [c2]; OpReopen; OpPutMany [(c2, [20], []); (c1, [9], [])]].

Definition memory : RocksDb := mem_db Works.
#[export] Existing Instance memory.
#[export] Instance memory_laws : RocksDbLaws := mem_laws Works.

Lemma opens_ok : opens ops.
Proof. intros _ d e. change (head (Ok (E := unit) <$> kv_items IterEnd (mem_content d CF_METADATA_V0)) ≠ Some (Err e)). by destruct (kv_items _ _). Qed.

Definition final : StoreState * list (Cid * bytes * list Cid) := store_run ops store_create [].

Lemma store_refines_map_witness :
  answers (store_get c1 final.1) (Some [10; 11]) ∧ answers (store_get_links c1 final.1) (Some [c2]).
Proof.
  pose proof (store_refines_map ops c1 c1 opens_ok) as Hr. fold final in Hr.
  assert (spec_get c1 final.2 = Some [10; 11]) as E1 by (vm_compute; reflexivity).
  assert (spec_get_links c1 final.2 = Some [c2]) as E2 by (vm_compute; reflexivity).
  destruct final as [s m]. cbn [fst snd] in *. destruct Hr as (Hg & _ & _ & Hl & _). rewrite E1 in Hg. rewrite E2 in Hl.
  split; [exact Hg|exact Hl].
Defined.

(** A child that is put after its parent gets a second identifier, and the consistency
    check reports a store in which every block can be read. *)
Lemma consistency_check_misreports :
  let s := (store_run [OpPut c1 [10] [c2]; OpPut c2 [20] []] store_create []).1 in
  (consistency_check s, store_get c1 s, store_get c2 s, store_get_links c1 s)
  = (Some (3, 2)%nat, Ok (Some [10]), Ok (Some [20]), Ok (Some [c2])).
Proof. vm_compute. reflexivity. Qed.
End StoreToy.

(** When the iterator that looks for the last identifier fails, opening starts again at
    the first one: the next block overwrites another. *)
Module BrokenToy.
Import Toy StoreToy.

Definition broken : RocksDb := mem_db BrokenIterators.
#[export] Existing Instance broken.

Lemma reopen_after_failure_overwrites :
  let r := store_run [OpPut c1 [10] []; OpReopen; OpPut c2 [20] []] store_create [] in
  (store_get c1 r.1, spec_get c1 r.2) = (Ok (Some [20]), Some [10]).
Proof. vm_compute. reflexivity. Qed.
End BrokenToy.

(** A put that fails *)
Module FullToy.
Import Toy StoreToy.

Definition full : RocksDb := mem_db FullDisk.
#[export] Existing Instance full.
#[export] Instance full_laws : RocksDbLaws := mem_laws FullDisk.

Definition one_block := store_run [OpPut c1 [10; 11] []] store_create [].
Definition no_space := store_step (OpPut c2 [20] [c3]) one_block.1.

Lemma store_fails_cleanly_witness : no_space.2 = Err (ErrDb tt) ∧ answers (store_get c1 no_space.1) (Some [10; 11]).
Proof.
  assert (no_space.2 = Err (ErrDb tt)) as Hf by (vm_compute; reflexivity). split; [exact Hf|].
  pose proof (store_fails_cleanly [OpPut c1 [10; 11] []] (OpPut c2 [20] [c3]) c1) as Hc. fold one_block in Hc.
  assert (spec_get c1 one_block.2 = Some [10; 11]) as E by (vm_compute; reflexivity). unfold no_space in *.
  destruct one_block as [s m]. cbn [fst snd] in *. destruct (store_step (OpPut c2 [20] [c3]) s) as [s' r]. cbn [fst snd] in *.
  destruct Hc as [Hr|(_ & Hg & _)]; [|rewrite Hr in Hf; discriminate Hf|rewrite <-E; exact Hg].
  intros Hin. repeat (apply elem_of_cons in Hin as [Hin|Hin]; [discriminate Hin|]). by apply not_elem_of_nil in Hin.
Defined.
End FullToy.
