(* ===== verification/Unixfs.v ===== *)
(** * UnixFS nodes

    Models [iroh-unixfs/src/unixfs.rs] up to [UnixfsNode::symlink], the types
    [Block], [Link] and [PbLinks] of [iroh-unixfs/src/types.rs], and the
    construction of a HAMT shard from a node in [iroh-unixfs/src/hamt.rs].

    The two protobuf messages ([unixfs.proto], [merkledag.proto]) are the
    records [Data] and [PbNode]; their encoders are generated code, fields of
    the class [UnixfsProto], as are the functions of the [cid] crate used
    here.  [UnixfsProtoLaws] states what the code relies on: decoding inverts
    encoding and a CID has the codec it was made with.  A [String] is its
    UTF-8 encoding. *)

From stdpp Require Import prelude strings list gmap.
From Stdlib Require Import ZArith Lia.
From S2P Require Import Prelude Cids Bits.
Local Open Scope Z_scope.

(** ** Protobuf messages *)

Record Data := {
  data_type : Z;
  data_data : option bytes;
  data_filesize : option Z;
  data_blocksizes : list Z;
  data_hash_type : option Z;
  data_fanout : option Z
}.

Record PbLink := { pbl_hash : option bytes; pbl_name : option bytes; pbl_tsize : option Z }.
Record PbNode := { pbn_links : list PbLink; pbn_data : option bytes }.

Class UnixfsProto `{Multiformats} := {
  pbnode_encode : PbNode → bytes;
  pbnode_decode : bytes → option PbNode;
  data_encode : Data → bytes;
  data_decode : bytes → option Data;
  cid_new_v1 : Z → Multihash → Cid;
  cid_read_bytes : bytes → option Cid
}.

Class UnixfsProtoLaws `{UnixfsProto} : Prop := {
  pbnode_roundtrip n : pbnode_decode (pbnode_encode n) = Some n;
  data_roundtrip d : data_decode (data_encode d) = Some d;
  cid_new_v1_codec k h : Int.in_u 64 k → cid_codec (cid_new_v1 k h) = k;
  cid_new_v1_hash k h : cid_hash (cid_new_v1 k h) = h;
  cid_read_bytes_roundtrip c : cid_read_bytes (cid_to_bytes c) = Some c
}.

(** [DataType], with its conversion from [i32]. *)
Inductive DataType := DT_Raw | DT_Directory | DT_File | DT_Metadata | DT_Symlink | DT_HamtShard.
#[global] Instance DataType_eq_dec : EqDecision DataType.
Proof. solve_decision. Defined.

Definition DataType_into (t : DataType) : Z :=
  match t with
  | DT_Raw => 0 | DT_Directory => 1 | DT_File => 2
  | DT_Metadata => 3 | DT_Symlink => 4 | DT_HamtShard => 5
  end.
Definition DataType_try_from (z : Z) : option DataType :=
  if z =? 0 then Some DT_Raw else if z =? 1 then Some DT_Directory
  else if z =? 2 then Some DT_File else if z =? 3 then Some DT_Metadata
  else if z =? 4 then Some DT_Symlink else if z =? 5 then Some DT_HamtShard else None.

(** [Codec::Raw], [Codec::DagPb] and the hash function code *)
Definition Codec_Raw : Z := 0x55.
Definition Codec_DagPb : Z := 0x70.
Definition HamtHashFunction_Murmur3 : Z := 0x22.
Definition DEFAULT_CHUNK_SIZE_LIMIT : Z := 1024 * 1024.
Definition DEFAULT_FANOUT : Z := 256.

(** [iter.collect::<Result<Vec<_>>>()] *)
Fixpoint collect {E A} (l : list (res E A)) : res E (list A) :=
  match l with
  | [] => Ok []
  | r :: l => a ← r; l ← collect l; Ok (a :: l)
  end.

(** [std::str::from_utf8]: the well-formed byte sequences of Unicode. *)
Fixpoint utf8_valid (l : bytes) : bool :=
  let cont b := (0x80 <=? b) && (b <=? 0xBF) in
  match l with
  | [] => true
  | a :: l1 =>
      if a <? 0x80 then utf8_valid l1
      else match l1 with
      | [] => false
      | b :: l2 =>
          if (0xC2 <=? a) && (a <=? 0xDF) then cont b && utf8_valid l2
          else match l2 with
          | [] => false
          | c :: l3 =>
              if (0xE0 <=? a) && (a <=? 0xEF) then
                cont b && cont c && ((if a =? 0xE0 then 0xA0 <=? b else true)
                  && (if a =? 0xED then b <=? 0x9F else true)) && utf8_valid l3
              else match l3 with
              | [] => false
              | d :: l4 =>
                  (0xF0 <=? a) && (a <=? 0xF4) && cont b && cont c && cont d
                  && ((if a =? 0xF0 then 0x90 <=? b else true)
                    && (if a =? 0xF4 then b <=? 0x8F else true)) && utf8_valid l4
              end
          end
      end
  end.

Section unixfs.
Context `{UnixfsProto}.

(** ** Blocks, links and nodes *)

Record Block := { blk_cid : Cid; blk_data : bytes; blk_links : list Cid }.

Record Link := { link_cid : Cid; link_name : option bytes; link_tsize : option Z }.

(** [PbLinks::next], for one link *)
Definition link_from_pb (l : PbLink) : res string Link :=
  h ← ok_or (pbl_hash l) "missing link"%string;
  c ← ok_or (cid_read_bytes h) "invalid cid"%string;
  Ok {| link_cid := c; link_name := pbl_name l; link_tsize := pbl_tsize l |}.

(** The items of [PbLinks::new(outer)] *)
Definition pb_links (outer : PbNode) : list (res string Link) := link_from_pb <$> pbn_links outer.

(** [unixfs::Node] *)
Record Node := { outer : PbNode; inner : Data }.

(** [hamt::Node] and [Hamt]; the cache of a [NodeLink] memoises the load of
    its link and is left out. *)
Record HamtShardNode := {
  hn_bitfield : Bitfield;
  hn_bit_width : Z;
  hn_padding_len : Z;
  hn_pointers : list Link
}.

Inductive UnixfsNode :=
  | Raw (data : bytes)
  | RawNode (n : Node)
  | Directory (n : Node)
  | File (n : Node)
  | Symlink (n : Node)
  | HamtShard (n : Node) (hamt : HamtShardNode).

Definition node_encode (n : Node) : bytes := pbnode_encode (outer n).

Definition node_typ (n : Node) : res string DataType := unwrap (DataType_try_from (data_type (inner n))).

Definition node_size (n : Node) : option Z :=
  match pbn_links (outer n) with
  | [] => Some (match data_data (inner n) with Some d => Z.of_nat (length d) | None => 0 end)
  | _ => None
  end.

Definition node_links (n : Node) : res string (list (res string Link)) :=
  t ← node_typ n;
  match t with
  | DT_Metadata => Panic
  | DT_Raw | DT_Directory | DT_File | DT_Symlink | DT_HamtShard => Ok (pb_links (outer n))
  end.

(** [Node::hash_type] is [Some(Murmur3)] *)
Definition node_is_murmur3 (n : Node) : bool :=
  bool_decide (data_hash_type (inner n) = Some HamtHashFunction_Murmur3).

Definition node_fanout (n : Node) : option Z :=
  match data_fanout (inner n) with
  | Some f => if f <? 2 ^ 32 then Some f else None
  | None => None
  end.

(** [format!("{:X}", x).len()] *)
Definition hex_len (x : Z) : Z := if x =? 0 then 1 else Z.log2 x / 4 + 1.

Definition calculate_padding_len (n : Node) : Z :=
  hex_len (Int.wrap 32 (default DEFAULT_FANOUT (node_fanout n) - 1)).

(** [hamt::Node::from_node] *)
Definition shard_from_node (n : Node) : res string HamtShardNode :=
  ensure (node_is_murmur3 n) "hamt: only murmur3 is supported"%string;;
  let fanout := default DEFAULT_FANOUT (node_fanout n) in
  ensure (0 <? fanout) "fanout must be non zero"%string;;
  data ← unwrap (data_data (inner n));
  bitfield ← bf_from_slice data;
  pointers ← collect (pb_links (outer n));
  bit_width ← log2 fanout;
  Ok {| hn_bitfield := bitfield; hn_bit_width := bit_width;
        hn_padding_len := hex_len (fanout - 1); hn_pointers := pointers |}.

(** ** Codec *)

Definition unixfs_decode (cid : Cid) (buf : bytes) : res string UnixfsNode :=
  if cid_codec cid =? Codec_Raw then Ok (Raw buf)
  else
    o ← ok_or (pbnode_decode buf) "invalid protobuf"%string;
    inner_data ← ok_or (pbn_data o) "missing data"%string;
    i ← ok_or (data_decode inner_data) "invalid protobuf"%string;
    typ ← ok_or (DataType_try_from (data_type i)) "invalid data type"%string;
    let node := {| outer := o; inner := i |} in
    match typ with
    | DT_Raw => Panic
    | DT_Directory => Ok (Directory node)
    | DT_File => Ok (File node)
    | DT_Symlink => Ok (Symlink node)
    | DT_HamtShard => hamt ← shard_from_node node; Ok (HamtShard node hamt)
    | DT_Metadata => Err "unixfs metadata is not supported"%string
    end.

(** The node inside, if there is one. *)
Definition unixfs_node (u : UnixfsNode) : option Node :=
  match u with
  | Raw _ => None
  | RawNode n | Directory n | File n | Symlink n | HamtShard n _ => Some n
  end.

Definition unixfs_encode (u : UnixfsNode) : res string Block :=
  res ← match unixfs_node u with
        | None =>
            let out := match u with Raw data => data | _ => [] end in
            Ok {| blk_cid := cid_new_v1 Codec_Raw (code_digest Sha2_256 out);
                  blk_data := out; blk_links := [] |}
        | Some node =>
            let out := node_encode node in
            ls ← node_links node;
            links ← collect ls;
            Ok {| blk_cid := cid_new_v1 Codec_DagPb (code_digest Sha2_256 out);
                  blk_data := out; blk_links := link_cid <$> links |}
        end;
  ensure (Z.of_nat (length (blk_data res)) <=? DEFAULT_CHUNK_SIZE_LIMIT) "node is too large"%string;;
  Ok res.

(** ** Accessors *)

Definition unixfs_typ (u : UnixfsNode) : option DataType :=
  match u with
  | Raw _ => None
  | RawNode _ => Some DT_Raw
  | Directory _ => Some DT_Directory
  | File _ => Some DT_File
  | Symlink _ => Some DT_Symlink
  | HamtShard _ _ => Some DT_HamtShard
  end.

Definition unixfs_size (u : UnixfsNode) : option Z :=
  match u with
  | Raw data => Some (Z.of_nat (length data))
  | Directory n | RawNode n | File n | Symlink n | HamtShard n _ => node_size n
  end.

Definition unixfs_filesize (u : UnixfsNode) : option Z :=
  match u with
  | Raw data => Some (Z.of_nat (length data))
  | Directory n | RawNode n | File n | Symlink n | HamtShard n _ => data_filesize (inner n)
  end.

Definition unixfs_blocksizes (u : UnixfsNode) : list Z :=
  match u with
  | Raw _ => []
  | Directory n | RawNode n | Symlink n | HamtShard n _ | File n => data_blocksizes (inner n)
  end.

Definition unixfs_links (u : UnixfsNode) : list (res string Link) :=
  match u with
  | Raw _ => []
  | RawNode n | Directory n | File n | Symlink n | HamtShard n _ => pb_links (outer n)
  end.

Definition links_owned (u : UnixfsNode) : res string (list Link) := collect (unixfs_links u).

Definition is_dir (u : UnixfsNode) : bool :=
  match u with Directory _ | HamtShard _ _ => true | _ => false end.

(** [get_link_by_name]: links that do not parse are skipped. *)
Fixpoint find_by_name (name : bytes) (l : list (res string Link)) : option Link :=
  match l with
  | [] => None
  | Ok x :: l => if decide (link_name x = Some name) then Some x else find_by_name name l
  | _ :: l => find_by_name name l
  end.
Definition get_link_by_name (name : bytes) (u : UnixfsNode) : option Link :=
  find_by_name name (unixfs_links u).

Definition unixfs_symlink (u : UnixfsNode) : res string (option bytes) :=
  match u with
  | Symlink n =>
      let d := default [] (data_data (inner n)) in
      if utf8_valid d then Ok (Some d) else Err "invalid utf-8"%string
  | _ => Ok None
  end.
End unixfs.

(** ** A concrete instance *)

(** CIDs that hold the codec and the data, and messages written with a simple
    prefix code: every definition above can be evaluated with it. *)
Module UnixfsToy.
Definition ids : Ids := {| Cid := Z * list Z; PeerId := nat |}.
#[export] Existing Instance ids.

Definition multiformats : Multiformats := {|
  Multihash := list Z;
  Code := unit;
  Version := unit;
  mh_code := fun _ => 0;
  mh_digest := fun h => h;
  Sha2_256 := tt;
  code_try_from := fun z => if z =? 0 then Some tt else None;
  code_into := fun _ => 0;
  code_digest := fun _ d => d;
  version_try_from := fun z => if z =? 1 then Some tt else None;
  version_into := fun _ => 1;
  cid_version := fun _ => tt;
  cid_codec := fun (c : @Cid ids) => fst (c : Z * list Z);
  cid_hash := fun (c : @Cid ids) => snd (c : Z * list Z);
  cid_new := fun _ k h => Some ((k, h) : @Cid ids);
  cid_new_v0 := fun h => Some ((0x70, h) : @Cid ids);
  cid_to_bytes := fun (c : @Cid ids) => fst (c : Z * list Z) :: snd (c : Z * list Z);
  cid_try_from := fun b => match b with k :: h => Some ((k, h) : @Cid ids) | [] => None end;
  varint_encode_u64 := fun n => [n];
  varint_decode_u64 := fun b => match b with n :: r => Some (n, r) | [] => None end;
  varint_decode_usize := fun b => match b with n :: r => Some (n, r) | [] => None end
|}.
#[export] Existing Instance multiformats.

Definition link_tuple (l : PbLink) := (pbl_hash l, pbl_name l, pbl_tsize l).
Definition link_untuple '(h, n, t) := {| pbl_hash := h; pbl_name := n; pbl_tsize := t |}.
Definition node_tuple (n : PbNode) := (link_tuple <$> pbn_links n, pbn_data n).
Definition node_untuple '(l, d) := {| pbn_links := link_untuple <$> l; pbn_data := d |}.
Definition data_tuple (d : Data) :=
  (data_type d, data_data d, data_filesize d, data_blocksizes d, data_hash_type d, data_fanout d).
Definition data_untuple '(t, d, f, b, h, o) :=
  {| data_type := t; data_data := d; data_filesize := f; data_blocksizes := b;
     data_hash_type := h; data_fanout := o |}.

(** A prefix code for the fields of the messages. *)
Class Codec (A : Type) := {
  put : A → list Z;
  get : list Z → option (A * list Z);
  get_put a r : get (put a ++ r) = Some (a, r)
}.

#[export] Instance Z_codec : Codec Z.
Proof.
  refine {| put := λ z, [z]; get := λ l, match l with z :: r => Some (z, r) | [] => None end |}.
  done.
Defined.

#[export] Instance option_codec {A} `{Codec A} : Codec (option A).
Proof.
  refine {| put := λ o, match o with Some a => 1 :: put a | None => [0] end;
            get := λ l, match l with
                        | z :: r => if z =? 0 then Some (None, r)
                                    else match get r with Some (a, r) => Some (Some a, r) | None => None end
                        | [] => None
                        end |}.
  intros [a|] r; simpl; [by rewrite get_put|done].
Defined.

#[export] Instance pair_codec {A B} `{Codec A, Codec B} : Codec (A * B).
Proof.
  refine {| put := λ p, put p.1 ++ put p.2;
            get := λ l, match get l with
                        | Some (a, r) => match get r with Some (b, r) => Some ((a, b), r) | None => None end
                        | None => None
                        end |}.
  intros [a b] r. simpl. by rewrite <-app_assoc, get_put, get_put.
Defined.

Fixpoint get_n {A} `{Codec A} (n : nat) (l : list Z) : option (list A * list Z) :=
  match n with
  | O => Some ([], l)
  | S n => match get l with
           | Some (a, r) => match get_n n r with Some (xs, r) => Some (a :: xs, r) | None => None end
           | None => None
           end
  end.

#[export] Instance list_codec {A} `{Codec A} : Codec (list A).
Proof.
  refine {| put := λ l, Z.of_nat (length l) :: mjoin (put <$> l);
            get := λ l, match l with n :: r => get_n (Z.to_nat n) r | [] => None end |}.
  intros l r. cbn [app]. rewrite Nat2Z.id. induction l as [|x l IH]; [done|].
  rewrite fmap_cons, mjoin_cons, <-app_assoc. cbn [length get_n]. by rewrite get_put, IH.
Defined.

Definition write {A} `{Codec A} (a : A) : list Z := put a.
Definition read {A} `{Codec A} (b : list Z) : option A :=
  match get b with Some (a, []) => Some a | _ => None end.

Lemma read_write {A} `{Codec A} (a : A) : read (write a) = Some a.
Proof. unfold read, write. rewrite <-(app_nil_r (put a)), get_put. done. Qed.

Definition proto : UnixfsProto := {|
  pbnode_encode := fun n => write (node_tuple n);
  pbnode_decode := fun b => node_untuple <$> read b;
  data_encode := fun d => write (data_tuple d);
  data_decode := fun b => data_untuple <$> read b;
  cid_new_v1 := fun k h => ((k, h) : @Cid ids);
  cid_read_bytes := fun b => match b with k :: h => Some ((k, h) : @Cid ids) | [] => None end
|}.
#[export] Existing Instance proto.

#[export] Instance laws : UnixfsProtoLaws.
Proof.
  split; try done.
  - intros [ls d]. cbn [pbnode_decode pbnode_encode proto]. rewrite read_write. cbn. f_equal.
    unfold node_tuple. simpl. f_equal. rewrite <-list_fmap_compose. rewrite <-(list_fmap_id ls) at 2.
    apply list_fmap_ext. by intros ? [].
  - intros []. cbn [data_decode data_encode proto]. by rewrite read_write.
  - by intros [].
Qed.
End UnixfsToy.
