(* ===== verification/Chunker.v ===== *)
(** * Chunkers

    Models [iroh-unixfs/src/chunker.rs] and [iroh-unixfs/src/chunker/fixed.rs].
    The byte source of a chunker is the list of the results of its reads: how
    many bytes a read returns is up to the source, and a read after the last
    element returns no bytes, which is the end of the input.  The chunkers hold
    for every way the input is cut into reads. *)

From stdpp Require Import prelude strings list.
From Stdlib Require Import ZArith Lia Ascii.
From S2P Require Import Prelude Cids Unixfs.
Local Open Scope Z_scope.

(** The bytes of an ASCII string literal. *)
Definition str (s : string) : bytes := (λ a, Z.of_nat (nat_of_ascii a)) <$> String.list_ascii_of_string s.

(** ** Sources *)

Definition source := list (res string bytes).

(** [source.read_buf(..)] *)
Definition read_buf (s : source) : res string bytes * source :=
  match s with
  | [] => (Ok [], [])
  | r :: s => (r, s)
  end.

(** The bytes and the errors of a list of results. *)
Definition oks {A} (l : list (res string A)) : list A :=
  omap (λ r, match r with Ok a => Some a | _ => None end) l.
Definition errs {A} (l : list (res string A)) : list string :=
  omap (λ r, match r with Err e => Some e | _ => None end) l.

(** ** The fixed-size chunker *)

Definition DEFAULT_CHUNKS_SIZE : Z := 1024 * 256.

Record Fixed := { chunk_size : Z }.

Definition Fixed_new (n : Z) : res string Fixed := assert (0 <? n);; Ok {| chunk_size := n |}.

(** The loop of [Fixed::chunks]: each turn reads once.  [None] is the lack of
    fuel. *)
Fixpoint fixed_loop (fuel : nat) (n : Z) (buffer : bytes) (current_len : Z) (src : source)
    : option (list (res string bytes)) :=
  match fuel with
  | O => None
  | S fuel =>
      let buffer := if current_len =? 0 then [] else buffer in
      match read_buf src with
      | (Ok piece, src) =>
          let len := Z.of_nat (length piece) in
          let buffer := buffer ++ piece in
          let current_len := Int.usize_add current_len len in
          if current_len =? n then
            (λ out, Ok buffer :: out) <$> fixed_loop fuel n buffer 0 src
          else if (current_len <? n) && (0 <? len) then
            fixed_loop fuel n buffer current_len src
          else if n <? current_len then
            (λ out, Ok (take (Z.to_nat n) buffer) :: out)
              <$> fixed_loop fuel n (drop (Z.to_nat n) buffer) (current_len - n) src
          else if 0 <? current_len then Some [Ok buffer] else Some []
      | (Err e, src) => (λ out, Err e :: out) <$> fixed_loop fuel n buffer current_len src
      | (Panic, _) => Some [Panic]
      end
  end.

(** One turn per read, one per chunk cut off after the end of the input, and
    the last one. *)
Definition fixed_chunks (c : Fixed) (src : source) : option (list (res string bytes)) :=
  fixed_loop (length src + length (mjoin (oks src)) + 1) (chunk_size c) [] 0 src.

(** ** Configuration *)

Inductive ChunkerConfig := Config_Fixed (n : Z) | Config_Rabin.
#[global] Instance ChunkerConfig_eq_dec : EqDecision ChunkerConfig.
Proof. solve_decision. Defined.

(** The decimal form of a [usize], most significant digit first *)
Fixpoint dec_digits (fuel : nat) (n : Z) (acc : bytes) : bytes :=
  match fuel with
  | O => acc
  | S fuel =>
      let acc := (48 + n mod 10) :: acc in
      if n <? 10 then acc else dec_digits fuel (n / 10) acc
  end.
Definition usize_to_string (n : Z) : bytes := dec_digits 20 n [].

(** [str::parse::<usize>]: an optional plus sign, then digits; the value must
    fit in 64 bits. *)
Fixpoint parse_digits (acc : Z) (l : bytes) : option Z :=
  match l with
  | [] => Some acc
  | b :: l =>
      if (48 <=? b) && (b <=? 57) then
        let v := acc * 10 + (b - 48) in
        if v <? 2 ^ 64 then parse_digits v l else None
      else None
  end.
Definition parse_usize (l : bytes) : option Z :=
  match l with
  | [] => None
  | b :: l' =>
      if b =? 43 then match l' with [] => None | _ => parse_digits 0 l' end
      else parse_digits 0 l
  end.

Fixpoint strip_prefix (p l : bytes) : option bytes :=
  match p, l with
  | [], _ => Some l
  | a :: p, b :: l => if a =? b then strip_prefix p l else None
  | _ :: _, [] => None
  end.

(** [impl Display for ChunkerConfig] *)
Definition ChunkerConfig_to_string (c : ChunkerConfig) : bytes :=
  match c with
  | Config_Fixed n => str "fixed-" ++ usize_to_string n
  | Config_Rabin => str "rabin"
  end.

(** [impl FromStr for ChunkerConfig] *)
Definition ChunkerConfig_from_str (s : bytes) : res string ChunkerConfig :=
  if decide (s = str "rabin") then Ok Config_Rabin
  else
    match strip_prefix (str "fixed") s with
    | Some [] => Ok (Config_Fixed DEFAULT_CHUNKS_SIZE)
    | Some rest =>
        match strip_prefix (str "-") rest with
        | Some rest =>
            n ← ok_or (parse_usize rest) "invalid chunk size"%string;
            if DEFAULT_CHUNK_SIZE_LIMIT <? n then Err "chunk size too large"%string
            else Ok (Config_Fixed n)
        | None => Err "unknown chunker"%string
        end
    | None => Err "unknown chunker"%string
    end.
