(* ===== verification/ChunkerFacts.v ===== *)
(** * Correctness of the fixed-size chunker and of the chunker configuration *)

From stdpp Require Import prelude strings list.
From Stdlib Require Import ZArith Lia.
From S2P Require Import Prelude Cids Unixfs Chunker.
Local Open Scope Z_scope.

(** ** Cutting a list *)

(** The reference: cut [l] after every [n] elements. *)
Fixpoint cut {A} (fuel n : nat) (l : list A) : list (list A) :=
  match fuel, l with
  | S fuel, _ :: _ => take n l :: cut fuel n (drop n l)
  | _, _ => []
  end.
Definition chunks_of {A} (n : nat) (l : list A) : list (list A) := cut (length l) n l.

Section cut.
Context {A : Type}.
Implicit Types l : list A.

Lemma cut_fuel f1 f2 n l :
  (0 < n)%nat → (length l ≤ f1)%nat → (length l ≤ f2)%nat → cut f1 n l = cut f2 n l.
Proof.
  intros Hn. revert f2 l. induction f1 as [|f1 IH]; intros [|f2] [|x l] H1 H2; simpl in *; try lia; try done.
  f_equal. apply IH; rewrite length_drop; simpl; lia.
Qed.

Lemma chunks_of_cons n l :
  (0 < n)%nat → l ≠ [] → chunks_of n l = take n l :: chunks_of n (drop n l).
Proof.
  intros Hn Hl. destruct l as [|x l]; [done|]. unfold chunks_of at 1. cbn [length cut]. f_equal.
  apply cut_fuel; [done| |done]. rewrite length_drop. simpl. lia.
Qed.

Lemma chunks_of_short n l : (0 < n)%nat → l ≠ [] → (length l ≤ n)%nat → chunks_of n l = [l].
Proof.
  intros Hn Hl Hle. rewrite chunks_of_cons by done.
  by rewrite take_ge, drop_ge by done.
Qed.

(** Strong induction along the cuts. *)
Lemma chunks_of_ind n (P : list A → Prop) :
  (0 < n)%nat → P [] → (∀ l, l ≠ [] → P (drop n l) → P l) → ∀ l, P l.
Proof.
  intros Hn H0 HS l. remember (length l) as k eqn:E. revert l E.
  induction (lt_wf k) as [k _ IH]. intros l ->. destruct (decide (l = [])) as [->|Hl]; [done|].
  apply HS; [done|]. eapply IH; [|done]. rewrite length_drop.
  assert (length l ≠ 0)%nat; [|lia]. by destruct l.
Qed.

Lemma chunks_of_concat n l : (0 < n)%nat → mjoin (chunks_of n l) = l.
Proof.
  intros Hn. revert l. apply (chunks_of_ind n); [done|done|]. intros l Hl IH.
  rewrite chunks_of_cons by done. rewrite mjoin_cons, IH. apply take_drop.
Qed.

(** Every chunk but the last is full, and none is empty. *)
Lemma chunks_of_sizes n l i c :
  (0 < n)%nat → chunks_of n l !! i = Some c →
  (0 < length c ≤ n)%nat ∧ ((S i < length (chunks_of n l))%nat → length c = n).
Proof.
  intros Hn. revert i c. revert l.
  apply (chunks_of_ind n (λ l, ∀ i c, chunks_of n l !! i = Some c → (0 < length c ≤ n)%nat ∧
    ((S i < length (chunks_of n l))%nat → length c = n))); [done|done|].
  intros l Hl IH i c.
  assert (0 < length l)%nat by (destruct l; simpl; [done|lia]).
  rewrite chunks_of_cons by done. destruct i as [|i]; simpl.
  - intros [= <-]. rewrite length_take. split; [lia|]. intros Hlt.
    destruct (decide (length l ≤ n)%nat); [|lia].
    rewrite drop_ge in Hlt by done. unfold chunks_of in Hlt. simpl in Hlt. lia.
  - intros Hi. destruct (IH i c Hi) as [H1 H2]. split; [done|]. intros. apply H2. lia.
Qed.
End cut.

(** ** The loop *)

Lemma usize_add_id a b : 0 ≤ a → 0 ≤ b → a + b < 2 ^ 64 → Int.usize_add a b = a + b.
Proof. intros. apply Int.wrap_id. unfold Int.in_u. lia. Qed.

(** Reads that return data return at least a byte; none panics. *)
Definition source_ok (src : source) : Prop :=
  Forall (λ r, match r with Ok p => p ≠ [] | Err _ => True | Panic => False end) src.

Lemma oks_cons {A} r (l : list (res string A)) :
  oks (r :: l) = match r with Ok a => a :: oks l | _ => oks l end.
Proof. by destruct r. Qed.
Lemma errs_cons {A} r (l : list (res string A)) :
  errs (r :: l) = match r with Err e => e :: errs l | _ => errs l end.
Proof. by destruct r. Qed.

(** What is in the buffer at the start of a turn. *)
Definition live (buffer : bytes) (current_len : Z) : bytes := if current_len =? 0 then [] else buffer.

Section fixed.
Context (n : Z) (Hn : 0 < n).

(** The chunks of what is buffered and what is still to be read. *)
Definition result (buf : bytes) (src : source) (out : list (res string bytes)) : Prop :=
  oks out = chunks_of (Z.to_nat n) (buf ++ mjoin (oks src)) ∧ errs out = errs src
  ∧ Panic ∉ out.

(** The last turns, after the end of the input. *)
Lemma fixed_loop_end fuel buffer current_len :
  Z.of_nat (length (live buffer current_len)) = current_len → current_len < 2 ^ 64 →
  (length (live buffer current_len) < fuel)%nat →
  ∃ out, fixed_loop fuel n buffer current_len [] = Some out ∧ result (live buffer current_len) [] out.
Proof using Hn.
  unfold result. revert buffer current_len. induction fuel as [|fuel IH]; intros buffer cl Hl H64 Hf; [lia|].
  cbn [fixed_loop read_buf]. change (if cl =? 0 then [] else buffer) with (live buffer cl). set (b := live buffer cl) in *. clearbody b.
  change (Z.of_nat (length [])) with 0. rewrite usize_add_id, Z.add_0_r, !app_nil_r by lia.
  assert (b ≠ [] ↔ 0 < cl) as Hb by (destruct b; simpl in *; naive_solver lia).
  destruct (Z.eqb_spec cl n) as [->|Hne].
  - destruct (IH b 0) as (out & Hout & Ho & He & Hp); [done|lia|simpl; lia|].
    rewrite Hout. eexists; split; [done|]. rewrite oks_cons, errs_cons. cbn [live Z.eqb] in Ho.
    split_and!; [|done|rewrite elem_of_cons; naive_solver].
    rewrite Ho, (chunks_of_short _ b); [done|lia|naive_solver lia|lia].
  - rewrite andb_false_r. destruct (Z.ltb_spec n cl).
    + assert (live (drop (Z.to_nat n) b) (cl - n) = drop (Z.to_nat n) b) as E.
      { unfold live. rewrite (proj2 (Z.eqb_neq _ _)) by lia. done. }
      destruct (IH (drop (Z.to_nat n) b) (cl - n)) as (out & Hout & Ho & He & Hp);
        rewrite ?E, ?length_drop in *; [lia|lia|lia|].
      rewrite Hout. eexists; split; [done|]. rewrite oks_cons, errs_cons.
      split_and!; [|done|rewrite elem_of_cons; naive_solver].
      rewrite Ho, app_nil_r, (chunks_of_cons _ b); [done|lia|naive_solver lia].
    + destruct (Z.ltb_spec 0 cl); eexists; (split; [done|]); (split_and!; [|done|set_solver]).
      * rewrite (chunks_of_short _ b); [done|lia|naive_solver|lia].
      * assert (b = []) as -> by (destruct b; simpl in *; [done|lia]). done.
Qed.

Lemma fixed_loop_spec fuel buffer current_len src :
  Z.of_nat (length (live buffer current_len)) = current_len → source_ok src →
  current_len + Z.of_nat (length (mjoin (oks src))) < 2 ^ 64 →
  (length src + length (live buffer current_len) + length (mjoin (oks src)) < fuel)%nat →
  ∃ out, fixed_loop fuel n buffer current_len src = Some out
    ∧ result (live buffer current_len) src out.
Proof using Hn.
  unfold result. intros Hl Hsrc. revert fuel buffer current_len Hl.
  induction Hsrc as [|r src Hr Hsrc IH]; intros fuel buffer cl Hl H64 Hf.
  { apply fixed_loop_end; simpl in *; [done|lia|lia]. }
  destruct fuel as [|fuel]; [simpl in Hf; lia|]. cbn [fixed_loop read_buf]. change (if cl =? 0 then [] else buffer) with (live buffer cl).
  set (b := live buffer cl) in *. clearbody b. rewrite oks_cons in *. rewrite errs_cons.
  destruct r as [p|e|]; cbv beta iota in Hr, H64, Hf |- *; [| |done].
  - rewrite !mjoin_cons in *. cbn [length] in Hf.
    rewrite (length_app p) in H64, Hf.
    assert (0 < length p)%nat by (destruct p; simpl; [done|lia]).
    rewrite usize_add_id by lia. rewrite (app_assoc b p).
    assert (b ++ p ≠ []) by (destruct b, p; done).
    assert (length (b ++ p) = length b + length p)%nat as Hbp by apply length_app.
    set (bp := b ++ p) in *. clearbody bp.
    destruct (Z.eqb_spec (cl + Z.of_nat (length p)) n) as [E|E].
    + destruct (IH fuel bp 0) as (out & Hout & Ho & He & Hp); [done|lia|cbn; lia|].
      rewrite Hout. eexists; split; [done|]. rewrite oks_cons, errs_cons.
      split_and!; [|done|rewrite elem_of_cons; naive_solver].
      rewrite Ho, (chunks_of_cons _ (bp ++ _)); [|lia|destruct bp; done].
      rewrite take_app_length', drop_app_length' by lia. done.
    + rewrite (proj2 (Z.ltb_lt 0 _)), andb_true_r by lia.
      destruct (Z.ltb_spec (cl + Z.of_nat (length p)) n).
      * assert (live bp (cl + Z.of_nat (length p)) = bp) as El.
        { unfold live. rewrite (proj2 (Z.eqb_neq _ _)) by lia. done. }
        destruct (IH fuel bp (cl + Z.of_nat (length p))) as (out & Hout & Ho & He & Hp);
          rewrite ?El in *; [lia|lia|lia|]. eauto 6.
      * rewrite (proj2 (Z.ltb_lt n _)) by lia.
        set (bp' := drop (Z.to_nat n) bp). assert (length bp' = length bp - Z.to_nat n)%nat by apply length_drop.
        assert (live bp' (cl + Z.of_nat (length p) - n) = bp') as El.
        { unfold live. rewrite (proj2 (Z.eqb_neq _ _)) by lia. done. }
        destruct (IH fuel bp' (cl + Z.of_nat (length p) - n)) as (out & Hout & Ho & He & Hp);
          rewrite ?El in *; [lia|lia|lia|].
        rewrite Hout. eexists; split; [done|]. rewrite oks_cons, errs_cons.
        split_and!; [|done|rewrite elem_of_cons; naive_solver].
        rewrite Ho, (chunks_of_cons _ (bp ++ _)); [|lia|destruct bp; done].
        rewrite take_app_le, drop_app_le by lia. done.
  - assert (live b cl = b) as El.
    { unfold live. destruct (Z.eqb_spec cl 0) as [->|]; [|done]. destruct b; simpl in *; [done|lia]. }
    destruct (IH fuel b cl) as (out & Hout & Ho & He & Hp); rewrite ?El in *; [done|done|simpl in *; lia|].
    rewrite Hout. eexists; split; [done|]. rewrite oks_cons, errs_cons.
    split_and!; [done|by rewrite He|rewrite elem_of_cons; naive_solver].
Qed.
End fixed.

(** The output of the chunker, in a form its clients can use. *)
Lemma fixed_chunks_spec c src :
  0 < chunk_size c → source_ok src → Z.of_nat (length (mjoin (oks src))) < 2 ^ 64 →
  ∃ out, fixed_chunks c src = Some out
    ∧ oks out = chunks_of (Z.to_nat (chunk_size c)) (mjoin (oks src))
    ∧ errs out = errs src ∧ Panic ∉ out.
Proof.
  intros Hn Hsrc H64. unfold fixed_chunks.
  destruct (fixed_loop_spec (chunk_size c) Hn (length src + length (mjoin (oks src)) + 1) [] 0 src)
    as (out & Hout & Ho & He & Hp); [done|done|lia|simpl; lia|]. eauto.
Qed.

(** For every way the reads cut the input, and whatever errors they report in
    between, the fixed-size chunker ends; the chunks it yields are the input cut
    after every [chunk_size] bytes, so together they are the input, none is
    empty, all but the last are full, and the errors are passed on in order. *)
Theorem fixed_chunks_correct c src :
  0 < chunk_size c → source_ok src → Z.of_nat (length (mjoin (oks src))) < 2 ^ 64 →
  ∃ out, fixed_chunks c src = Some out ∧
    mjoin (oks out) = mjoin (oks src) ∧
    errs out = errs src ∧ (Panic ∉ out) ∧
    ∀ i chunk, oks out !! i = Some chunk →
      0 < Z.of_nat (length chunk) ≤ chunk_size c ∧
      ((S i < length (oks out))%nat → Z.of_nat (length chunk) = chunk_size c).
Proof.
  intros Hn Hsrc H64. destruct (fixed_chunks_spec c src Hn Hsrc H64) as (out & Hout & Ho & He & Hp).
  exists out. rewrite Ho, chunks_of_concat by lia. split_and!; try done.
  intros i chunk [Hs Hl]%chunks_of_sizes; [|lia]. split; [lia|]. intros. rewrite Hl by done. lia.
Qed.

(** ** Configuration strings *)

Lemma parse_digits_app a l1 l2 :
  parse_digits a (l1 ++ l2) = match parse_digits a l1 with Some v => parse_digits v l2 | None => None end.
Proof. revert a. induction l1 as [|b l1 IH]; intros a; [done|].
  cbn [app parse_digits]. case_match; [|done]. case_match; [apply IH|done].
Qed.

Lemma dec_digits_acc fuel n acc : dec_digits fuel n acc = dec_digits fuel n [] ++ acc.
Proof.
  revert n acc. induction fuel as [|fuel IH]; intros n acc; simpl; [done|]. case_match; [done|].
  rewrite IH, (IH _ [_]), <-app_assoc. done.
Qed.

Lemma parse_dec_digits fuel n :
  0 ≤ n < 2 ^ 64 → n < 10 ^ Z.of_nat fuel → parse_digits 0 (dec_digits fuel n []) = Some n.
Proof.
  revert n. induction fuel as [|fuel IH]; intros n Hn Hf; [simpl in *; f_equal; lia|].
  rewrite Nat2Z.inj_succ, Z.pow_succ_r in Hf by lia.
  pose proof (Z.mod_pos_bound n 10). pose proof (Z.div_mod n 10).
  assert (∀ a, a * 10 + n mod 10 = n → parse_digits a [48 + n mod 10] = Some n) as Hlast.
  { intros a Ha. cbn [parse_digits]. rewrite !(proj2 (Z.leb_le _ _)) by lia. simpl.
    replace (a * 10 + (48 + n mod 10 - 48)) with n by lia. by rewrite (proj2 (Z.ltb_lt _ _)) by lia. }
  cbn [dec_digits]. destruct (Z.ltb_spec n 10).
  - apply Hlast. rewrite Z.mod_small; lia.
  - rewrite dec_digits_acc, parse_digits_app, IH.
    + apply Hlast. lia.
    + split; [apply Z.div_pos; lia|]. apply Z.div_lt_upper_bound; lia.
    + apply Z.div_lt_upper_bound; lia.
Qed.

Lemma dec_digits_head fuel n : (0 < fuel)%nat → 0 ≤ n → ∃ d r, dec_digits fuel n [] = d :: r ∧ 48 ≤ d ≤ 57.
Proof.
  revert n. induction fuel as [|fuel IH]; intros n Hf Hn; [lia|].
  pose proof (Z.mod_pos_bound n 10). cbn [dec_digits]. case_match; [eauto with lia|].
  rewrite dec_digits_acc. destruct fuel; [simpl; eauto with lia|].
  destruct (IH (n / 10)) as (d & r & -> & Hd); [lia|apply Z.div_pos; lia|]. simpl. eauto.
Qed.

Lemma parse_usize_to_string n : 0 ≤ n < 2 ^ 64 → parse_usize (usize_to_string n) = Some n.
Proof.
  intros Hn. unfold usize_to_string.
  destruct (dec_digits_head 20 n) as (d & r & E & Hd); [lia|lia|].
  pose proof (parse_dec_digits 20 n Hn) as Hp. rewrite E in Hp |- *.
  cbn [parse_usize]. rewrite (proj2 (Z.eqb_neq _ _)) by lia. apply Hp. simpl. lia.
Qed.

Lemma strip_prefix_app p l : strip_prefix p (p ++ l) = Some l.
Proof. induction p as [|a p IH]; simpl; [done|]. by rewrite Z.eqb_refl. Qed.

(** A chunker configuration within the size limit survives printing and
    parsing; a larger size is refused. *)
Theorem chunker_config_roundtrip n :
  0 ≤ n < 2 ^ 64 →
  ChunkerConfig_from_str (ChunkerConfig_to_string Config_Rabin) = Ok Config_Rabin ∧
  ChunkerConfig_from_str (ChunkerConfig_to_string (Config_Fixed n)) =
    if n <=? DEFAULT_CHUNK_SIZE_LIMIT then Ok (Config_Fixed n) else Err "chunk size too large"%string.
Proof.
  intros Hn. split; [done|]. unfold ChunkerConfig_from_str, ChunkerConfig_to_string.
  rewrite decide_False by done. change (str "fixed-") with (str "fixed" ++ str "-").
  rewrite <-app_assoc, strip_prefix_app, (strip_prefix_app (str "-")).
  change (str "-" ++ usize_to_string n) with (45 :: usize_to_string n). cbv beta iota.
  rewrite parse_usize_to_string by done. cbn -[DEFAULT_CHUNK_SIZE_LIMIT].
  rewrite Z.leb_antisym. by destruct (DEFAULT_CHUNK_SIZE_LIMIT <? n).
Qed.

Module ChunkerWitness.
Definition input : source := [Ok [1; 2; 3; 4; 5]; Err "interrupted"%string; Ok [6; 7]; Ok [8]].

Lemma fixed_chunks_correct_witness :
  ∃ out, fixed_chunks {| chunk_size := 3 |} input = Some out ∧
    oks out = [[1; 2; 3]; [4; 5; 6]; [7; 8]] ∧ mjoin (oks out) = mjoin (oks input).
Proof.
  destruct (fixed_chunks_correct {| chunk_size := 3 |} input) as (out & Hout & Hj & _).
  - done.
  - repeat constructor; done.
  - vm_compute. done.
  - exists out. split; [exact Hout|]. split; [|exact Hj].
    vm_compute in Hout. injection Hout as <-. reflexivity.
Defined.

Lemma chunker_config_roundtrip_witness :
  ChunkerConfig_from_str (ChunkerConfig_to_string (Config_Fixed 262144)) = Ok (Config_Fixed 262144).
Proof. refine (proj2 (chunker_config_roundtrip 262144 _)). lia. Defined.

(** A configuration string with size zero is accepted, although [Fixed::new]
    panics on it. *)
Theorem zero_chunk_size_accepted :
  ChunkerConfig_from_str (str "fixed-0") = Ok (Config_Fixed 0) ∧ Fixed_new 0 = Panic.
Proof. split; vm_compute; reflexivity. Qed.
End ChunkerWitness.
