(* ===== verification/Rabin.v ===== *)
(** * The Rabin chunker

    Models [iroh-unixfs/src/chunker/rabin.rs] and the dispatch of
    [iroh-unixfs/src/chunker.rs].  Positions in the buffer are natural numbers:
    they never exceed the length of the buffer.  Table look-ups and reads of
    the buffer panic out of range. *)

From stdpp Require Import prelude strings list.
From Stdlib Require Import ZArith Lia.
From S2P Require Import Prelude Cids Unixfs Chunker RabinTables.
Local Open Scope Z_scope.

Record Preset := {
  out_table : list Z;
  mod_table : list Z;
  window_size : Z;
  deg_shift : Z;
  polynomial : Z
}.

Record Config := {
  target_value : Z;
  mask_bits : Z;
  max_size : Z;
  min_size : Z
}.

Record Rabin := {
  init_state : Z;
  mask : Z;
  mins_sans_preheat : Z;
  preset : Preset;
  config : Config
}.

Definition Config_default : Config :=
  {| target_value := 0; mask_bits := 18; max_size := 393216; min_size := 87381 |}.

(** [Presets::GoIpfsV0.into_preset()] *)
Definition GO_IPFS_V0_PRESET : Preset := {|
  out_table := go_ipfs_v0_out_table;
  mod_table := go_ipfs_v0_mod_table;
  window_size := 16;
  deg_shift := 45;
  polynomial := go_ipfs_v0_polynomial
|}.

Definition index {A} (l : list A) (i : Z) : res string A := unwrap (l !! Z.to_nat i).

(** [(state.wrapping_shl(8) | b) ^ mod_table[state >> deg_shift]] *)
Definition shift_in (p : Preset) (state b : Z) : res string Z :=
  table_point ← index (mod_table p) (Z.shiftr state (deg_shift p));
  Ok (Z.lxor (Z.lor (Int.wrap 64 (Z.shiftl state 8)) b) table_point).

Definition Rabin_new (c : Config) (p : Preset) : res string Rabin :=
  assert (min_size c <? max_size c);;
  o ← index (out_table p) 0;
  init ← (m ← index (mod_table p) (Z.shiftr o (deg_shift p));
          Ok (Z.lxor (Z.lor (Int.wrap 64 (Z.shiftl o 8)) 1) m));
  Ok {| init_state := init;
        mins_sans_preheat := Int.usize_sub (min_size c) (window_size p);
        mask := Z.shiftl 1 ((mask_bits c - 1) mod 64);
        preset := p; config := c |}.

(** One turn of the preheat and cycle loops: slide out byte [o], shift in the
    byte at [cur_idx]. *)
Definition roll (p : Preset) (buf : bytes) (state o : Z) (cur_idx : nat) : res string Z :=
  out ← index (out_table p) o;
  b ← unwrap (buf !! cur_idx);
  shift_in p (Z.lxor state out) b.

Section rabin.
Context (r : Rabin).
Let p := preset r.
Let window := Z.to_nat (window_size p).

(** [for i in 1..=preset.window_size]: [k] turns are left. *)
Fixpoint preheat (k : nat) (buf : bytes) (state : Z) (cur_idx : nat) : res string (Z * nat) :=
  match k with
  | O => Ok (state, cur_idx)
  | S k' =>
      state ← roll p buf state (if (k =? 1)%nat then 1 else 0) cur_idx;
      preheat k' buf state (S cur_idx)
  end.

(** [while cur_idx < next_round_max && ..]: [k] is [next_round_max - cur_idx]. *)
Fixpoint cycle (k : nat) (buf : bytes) (state : Z) (cur_idx : nat) : res string nat :=
  match k with
  | O => Ok cur_idx
  | S k =>
      if Z.land state (mask r) =? target_value (config r) then Ok cur_idx
      else
        o ← unwrap (buf !! (cur_idx - window)%nat);
        state ← roll p buf state o cur_idx;
        cycle k buf state (S cur_idx)
  end.

(** [buf.slice(a..b)] *)
Definition slice_of (buf : bytes) (a b : nat) : bytes := take (b - a) (drop a buf).

(** The inner loop over the buffered data: the chunks it yields and where it
    stands in the end.  Every round takes at least a byte; the lack of fuel is
    a panic. *)
Fixpoint rounds (fuel : nat) (use_entire_buffer : bool) (buf : bytes) (cur_idx : nat)
    : res string (list bytes * nat) :=
  match fuel with
  | O => Panic
  | S fuel =>
      let post_buf_idx := length buf in
      let full := (cur_idx + Z.to_nat (max_size (config r)))%nat in
      if (post_buf_idx <? full)%nat && negb use_entire_buffer then Ok ([], cur_idx)
      else
        let next_round_max := if (post_buf_idx <? full)%nat then post_buf_idx else full in
        if (post_buf_idx <=? cur_idx + Z.to_nat (min_size (config r)))%nat then
          if use_entire_buffer && negb (post_buf_idx =? cur_idx)%nat
          then Ok ([slice_of buf cur_idx post_buf_idx], cur_idx)
          else Ok ([], cur_idx)
        else
          '(state, idx) ← preheat window buf (init_state r)
                            (cur_idx + Z.to_nat (mins_sans_preheat r))%nat;
          idx ← cycle (next_round_max - idx) buf state idx;
          '(out, fin) ← rounds fuel use_entire_buffer buf idx;
          Ok (slice_of buf cur_idx idx :: out, fin)
  end.

(** Fill the buffer up to [target_size]. *)
Fixpoint fill (target : nat) (buf : bytes) (total_read : nat) (src : source)
    : res string (bytes * nat * source) :=
  if (target <=? length buf)%nat then Ok (buf, total_read, src)
  else
    match src with
    | [] => Ok (buf, total_read, [])
    | Ok piece :: src =>
        if (length piece =? 0)%nat then Ok (buf, total_read, src)
        else fill target (buf ++ piece) (total_read + length piece) src
    | Err e :: _ => Err e
    | Panic :: _ => Panic
    end.

(** The outer loop: a turn reads something or is the last one. *)
Fixpoint rabin_loop (fuel : nat) (buf : bytes) (src : source) : gen bytes string unit :=
  match fuel with
  | O => ([], Panic)
  | S fuel =>
      let target_size := (3 * Z.to_nat (max_size (config r)))%nat in
      '(buf, total_read, src) ← try_ (fill target_size buf 0 src);
      if (length buf <? Z.to_nat (min_size (config r)))%nat then
        if (length buf =? 0)%nat then mret tt else yield buf
      else
        let use_entire_buffer := (total_read =? 0)%nat in
        '(out, cur_idx) ← try_ (rounds (S (length buf)) use_entire_buffer buf 0);
        ((out, Ok tt) : gen bytes string unit);;
        if use_entire_buffer then mret tt
        else rabin_loop fuel (drop cur_idx buf) src
  end.

Definition rabin_chunks (src : source) : gen bytes string unit :=
  rabin_loop (2 + length src) [] src.
End rabin.

(** ** [Chunker] *)

Inductive Chunker := Chunker_Fixed (c : Fixed) | Chunker_Rabin (r : Rabin).

(** [impl From<ChunkerConfig> for Chunker] *)
Definition Chunker_from (cfg : ChunkerConfig) : res string Chunker :=
  match cfg with
  | Config_Fixed n => c ← Fixed_new n; Ok (Chunker_Fixed c)
  | Config_Rabin => r ← Rabin_new Config_default GO_IPFS_V0_PRESET; Ok (Chunker_Rabin r)
  end.

(** The items of the stream returned by [Chunker::chunks] *)
Definition chunker_chunks (c : Chunker) (src : source) : option (list (res string bytes)) :=
  match c with
  | Chunker_Fixed c => fixed_chunks c src
  | Chunker_Rabin r =>
      let '(out, fin) := rabin_chunks r src in
      Some ((Ok <$> out) ++ match fin with Ok _ => [] | Err e => [Err e] | Panic => [Panic] end)
  end.
