(* ===== verification/RabinFacts.v ===== *)
(** * Correctness of the Rabin chunker

    The rolling state of the chunker is the fingerprint of the last
    [window_size] bytes; so a chunk ends at the first position, not before
    [min_size], at which that fingerprint hits the target, and at [max_size]
    otherwise.  The chunks do not depend on how the input is read. *)

From stdpp Require Import prelude strings list.
From Stdlib Require Import ZArith Lia.
From S2P Require Import Prelude Cids Unixfs Chunker RabinTables Rabin BitsFacts ChunkerFacts.
Local Open Scope Z_scope.

(** ** Fingerprints *)

Definition tbl (t : list Z) (i : Z) : Z := default 0 (t !! Z.to_nat i).

(** Shifting a byte into a state, without panics. *)
Definition sh (p : Preset) (s b : Z) : Z :=
  Z.lxor (Z.lor (Z.shiftl s 8) b) (tbl (mod_table p) (Z.shiftr s 45)).

(** The fingerprint of a string. *)
Definition fp (p : Preset) (w : bytes) : Z := foldl (sh p) 0 w.

(** What the chunker needs of the tables of a preset. *)
Record preset_ok (p : Preset) : Prop := {
  ok_shift : deg_shift p = 45;
  ok_window : 0 < window_size p;
  ok_out_len : length (out_table p) = 256%nat;
  ok_mod_len : length (mod_table p) = 256%nat;
  ok_mod i : 0 ≤ i < 256 → 0 ≤ tbl (mod_table p) i ∧ Z.shiftr (tbl (mod_table p) i) 53 = i;
  ok_lin i j : 0 ≤ i < 256 → 0 ≤ j < 256 →
    tbl (mod_table p) (Z.lxor i j) = Z.lxor (tbl (mod_table p) i) (tbl (mod_table p) j);
  ok_out b : 0 ≤ b < 256 →
    tbl (out_table p) b = fp p (b :: replicate (Z.to_nat (window_size p) - 1) 0)
}.

(** A property of all bytes is checked by evaluation. *)
Lemma forall_bytes (f : Z → bool) :
  forallb f (Z.of_nat <$> seq 0 256) = true → ∀ i, 0 ≤ i < 256 → f i = true.
Proof.
  rewrite List.forallb_forall. intros Hf i Hi. apply Hf, list_elem_of_In, list_elem_of_fmap.
  exists (Z.to_nat i). rewrite elem_of_seq. lia.
Qed.

Lemma go_ipfs_v0_tables :
  generate_lookup_tables go_ipfs_v0_polynomial 16 = (go_ipfs_v0_out_table, go_ipfs_v0_mod_table).
Proof. vm_compute. reflexivity. Qed.

Definition mod_entry_ok (t : list Z) (i : Z) : bool :=
  (0 <=? tbl t i) && (Z.shiftr (tbl t i) 53 =? i).
Definition mod_linear (t : list Z) (i : Z) : bool :=
  forallb (λ j, tbl t (Z.lxor i j) =? Z.lxor (tbl t i) (tbl t j)) (Z.of_nat <$> seq 0 256).
Definition out_entry_ok (p : Preset) (b : Z) : bool :=
  tbl (out_table p) b =? fp p (b :: replicate (Z.to_nat (window_size p) - 1) 0).

Lemma go_ipfs_v0_checks :
  forallb (mod_entry_ok go_ipfs_v0_mod_table) (Z.of_nat <$> seq 0 256) = true ∧
  forallb (mod_linear go_ipfs_v0_mod_table) (Z.of_nat <$> seq 0 256) = true ∧
  forallb (out_entry_ok GO_IPFS_V0_PRESET) (Z.of_nat <$> seq 0 256) = true.
Proof. split_and!; vm_compute; reflexivity. Qed.

Lemma go_ipfs_v0_ok : preset_ok GO_IPFS_V0_PRESET.
Proof.
  destruct go_ipfs_v0_checks as (H1 & H2 & H3).
  constructor; [reflexivity|reflexivity|reflexivity|reflexivity| | |].
  - intros i Hi. pose proof (forall_bytes _ H1 i Hi) as [Ha Hb]%andb_true_iff.
    split; [by apply Z.leb_le|by apply Z.eqb_eq].
  - intros i j Hi Hj. pose proof (forall_bytes _ H2 i Hi) as Hl.
    apply Z.eqb_eq. exact (forall_bytes _ Hl j Hj).
  - intros b Hb. apply Z.eqb_eq. exact (forall_bytes _ H3 b Hb).
Qed.

Section fingerprint.
Context (p : Preset) (Hp : preset_ok p).

Definition state_ok (s : Z) : Prop := 0 ≤ s < 2 ^ 53.
Definition byte_ok (b : Z) : Prop := 0 ≤ b < 256.

Lemma shiftr_small s n : 0 ≤ n → 0 ≤ s → Z.shiftr s n = 0 → s < 2 ^ n.
Proof.
  intros Hn Hs H0. rewrite Z.shiftr_div_pow2 in H0 by done.
  apply Z.div_small_iff in H0; [|apply Z.pow_nonzero; lia]. pose proof (Z.pow_pos_nonneg 2 n). lia.
Qed.

Lemma shiftr_45 s : state_ok s → 0 ≤ Z.shiftr s 45 < 256.
Proof.
  unfold state_ok. intros Hs. rewrite Z.shiftr_div_pow2 by lia.
  split; [apply Z.div_pos; lia|apply Z.div_lt_upper_bound; lia].
Qed.

Lemma lor_byte s b : 0 ≤ s → byte_ok b → Z.lor (Z.shiftl s 8) b = Z.lxor (Z.shiftl s 8) b.
Proof.
  intros Hs Hb. symmetry. apply Z.lxor_lor, Z.bits_inj'. intros i Hi.
  rewrite Z.land_spec, Z.bits_0. destruct (Z.lt_ge_cases i 8).
  - by rewrite Z.shiftl_spec_low.
  - assert (Int.in_u 8 b) as Hb8 by exact Hb. apply in_u_testbit in Hb8 as [_ Hb8]; [|lia].
    by rewrite Hb8, andb_false_r.
Qed.

Lemma sh_ok s b : state_ok s → byte_ok b → state_ok (sh p s b).
Proof using Hp.
  intros Hs Hb. pose proof (shiftr_45 s Hs) as Hi. destruct (ok_mod p Hp _ Hi) as [Hm Hm53].
  unfold sh. rewrite lor_byte; [|unfold state_ok in Hs; lia|done].
  assert (0 ≤ Z.shiftl s 8) by (apply Z.shiftl_nonneg; unfold state_ok in Hs; lia).
  unfold byte_ok in Hb.
  assert (0 ≤ Z.lxor (Z.lxor (Z.shiftl s 8) b) (tbl (mod_table p) (Z.shiftr s 45))) as H0.
  { apply Z.lxor_nonneg. split; [done|]. intros _. apply Z.lxor_nonneg. lia. }
  split; [done|]. apply shiftr_small; [lia|done|].
  rewrite !Z.shiftr_lxor, Hm53, (Z.shiftr_div_pow2 b), (Z.div_small b) by lia.
  rewrite Z.lxor_0_r, Z.shiftr_shiftl_r by lia. change (53 - 8) with 45. apply Z.lxor_nilpotent.
Qed.

Lemma sh_lin s t b c :
  state_ok s → state_ok t → byte_ok b → byte_ok c →
  sh p (Z.lxor s t) (Z.lxor b c) = Z.lxor (sh p s b) (sh p t c).
Proof using Hp.
  intros Hs Ht Hb Hc. unfold sh.
  assert (byte_ok (Z.lxor b c)) as Hbc.
  { unfold byte_ok in *. assert (0 ≤ Z.lxor b c) by (apply Z.lxor_nonneg; lia). split; [done|].
    apply (shiftr_small _ 8); [lia|done|].
    rewrite Z.shiftr_lxor, !Z.shiftr_div_pow2, !Z.div_small by lia. done. }
  rewrite !lor_byte by (done || unfold state_ok in *; try (apply Z.lxor_nonneg); lia).
  rewrite Z.shiftr_lxor, (ok_lin p Hp) by (by apply shiftr_45). rewrite Z.shiftl_lxor.
  rewrite !Z.lxor_assoc. f_equal. rewrite <-!Z.lxor_assoc.
  set (x := Z.shiftl t 8). set (mi := tbl _ _). set (mj := tbl _ (Z.shiftr t 45)).
  rewrite (Z.lxor_comm x b), !Z.lxor_assoc. f_equal. rewrite <-!Z.lxor_assoc. f_equal.
  rewrite (Z.lxor_comm mi), !Z.lxor_assoc. f_equal. apply Z.lxor_comm.
Qed.

Lemma foldl_sh_ok s l : state_ok s → Forall byte_ok l → state_ok (foldl (sh p) s l).
Proof using Hp. intros Hs Hl. revert s Hs. induction Hl; intros s Hs; simpl; [done|]. auto using sh_ok. Qed.

Lemma fp_ok l : Forall byte_ok l → state_ok (fp p l).
Proof using Hp. apply foldl_sh_ok. unfold state_ok. lia. Qed.

Lemma foldl_sh_lin s t l1 l2 :
  state_ok s → state_ok t → Forall byte_ok l1 → Forall byte_ok l2 → length l1 = length l2 →
  foldl (sh p) (Z.lxor s t) (zip_with Z.lxor l1 l2) = Z.lxor (foldl (sh p) s l1) (foldl (sh p) t l2).
Proof using Hp.
  intros Hs Ht Hl1. revert s t l2 Hs Ht. induction Hl1 as [|b l1 Hb Hl1 IH];
    intros s t [|c l2] Hs Ht Hl2 Hlen; try done; simpl in *.
  inversion Hl2; subst. rewrite sh_lin by done. apply IH; auto using sh_ok.
Qed.

Lemma tbl_mod_0 : tbl (mod_table p) 0 = 0.
Proof using Hp. rewrite <-(Z.lxor_nilpotent 0) at 1. rewrite (ok_lin p Hp) by lia. apply Z.lxor_nilpotent. Qed.

Lemma sh_0 b : sh p 0 b = b.
Proof using Hp.
  unfold sh. rewrite Z.shiftr_0_l, tbl_mod_0, Z.lxor_0_r. done.
Qed.

Lemma fp_cons_0 l : fp p (0 :: l) = fp p l.
Proof using Hp. unfold fp. simpl. by rewrite sh_0. Qed.

Lemma fp_snoc l b : fp p (l ++ [b]) = sh p (fp p l) b.
Proof. unfold fp. by rewrite foldl_app. Qed.

Lemma zip_lxor_zeros (l : bytes) : zip_with Z.lxor l (replicate (length l) 0) = l.
Proof. induction l as [|x l IH]; simpl; [done|]. by rewrite IH, Z.lxor_0_r. Qed.

(** Sliding the first byte of a window out. *)
Lemma slide_out o l :
  byte_ok o → Forall byte_ok l → S (length l) = Z.to_nat (window_size p) →
  Z.lxor (fp p (o :: l)) (tbl (out_table p) o) = fp p l.
Proof using Hp.
  intros Ho Hl Hw. rewrite (ok_out p Hp) by done. rewrite <-Hw.
  replace (S (length l) - 1)%nat with (length l) by lia.
  unfold fp at 1 2. rewrite <-foldl_sh_lin.
  - simpl zip_with. rewrite Z.lxor_nilpotent, zip_lxor_zeros. simpl foldl.
    rewrite Z.lxor_nilpotent, sh_0. done.
  - unfold state_ok; lia.
  - unfold state_ok; lia.
  - by constructor.
  - constructor; [done|]. apply Forall_replicate. unfold byte_ok; lia.
  - simpl. by rewrite length_replicate.
Qed.

Lemma index_tbl (t : list Z) i : 0 ≤ i < Z.of_nat (length t) → index t i = Ok (tbl t i).
Proof.
  intros Hi. unfold index, tbl.
  destruct (lookup_lt_is_Some_2 t (Z.to_nat i)) as [x ->]; [lia|done].
Qed.

Lemma shift_in_ok s b : state_ok s → byte_ok b → shift_in p s b = Ok (sh p s b).
Proof using Hp.
  intros Hs Hb. unfold shift_in. rewrite (ok_shift p Hp).
  rewrite index_tbl by (rewrite (ok_mod_len p Hp); by apply shiftr_45). simpl. unfold sh.
  rewrite Int.wrap_id; [done|]. unfold state_ok in Hs. rewrite Z.shiftl_mul_pow2 by lia.
  unfold Int.in_u. lia.
Qed.

(** One turn of the loops on a window of known content. *)
Lemma roll_slide buf o l i b :
  byte_ok o → Forall byte_ok l → S (length l) = Z.to_nat (window_size p) →
  buf !! i = Some b → byte_ok b →
  roll p buf (fp p (o :: l)) o i = Ok (fp p (l ++ [b])).
Proof using Hp.
  intros Ho Hl Hw Hi Hb. unfold roll.
  rewrite index_tbl by (rewrite (ok_out_len p Hp); done). rewrite Hi. simpl.
  rewrite slide_out by done. rewrite shift_in_ok by (by try apply fp_ok). by rewrite fp_snoc.
Qed.

Lemma tbl_out_0 : tbl (out_table p) 0 = 0.
Proof using Hp.
  rewrite (ok_out p Hp), fp_cons_0 by lia.
  generalize (Z.to_nat (window_size p) - 1)%nat as k. intros k.
  induction k as [|k IH]; [done|]. simpl replicate. by rewrite fp_cons_0.
Qed.

Lemma roll_keep buf s i b :
  state_ok s → buf !! i = Some b → byte_ok b → roll p buf s 0 i = Ok (sh p s b).
Proof using Hp.
  intros Hs Hi Hb. unfold roll. rewrite index_tbl by (rewrite (ok_out_len p Hp); lia).
  rewrite Hi, tbl_out_0. cbn [mbind res_bind unwrap]. rewrite Z.lxor_0_r. by apply shift_in_ok.
Qed.
End fingerprint.

(** ** Slices *)

Lemma slice_snoc (buf : bytes) a b x :
  (a ≤ b)%nat → buf !! b = Some x → slice_of buf a (S b) = slice_of buf a b ++ [x].
Proof.
  intros Hab Hx. unfold slice_of. replace (S b - a)%nat with (S (b - a)) by lia.
  apply take_S_r. rewrite lookup_drop. by replace (a + (b - a))%nat with b by lia.
Qed.

Lemma slice_cons (buf : bytes) a b x :
  (a < b)%nat → buf !! a = Some x → slice_of buf a b = x :: slice_of buf (S a) b.
Proof.
  intros Hab Hx. unfold slice_of. rewrite (drop_S _ x) by done.
  replace (b - a)%nat with (S (b - S a)) by lia. done.
Qed.

Lemma length_slice (buf : bytes) a b : (b ≤ length buf)%nat → length (slice_of buf a b) = (b - a)%nat.
Proof. intros. unfold slice_of. rewrite length_take, length_drop. lia. Qed.

Lemma slice_of_take (buf : bytes) cur k : slice_of buf cur (cur + k) = take k (drop cur buf).
Proof. unfold slice_of. f_equal. lia. Qed.

Lemma Forall_slice (P : Z → Prop) buf a b : Forall P buf → Forall P (slice_of buf a b).
Proof. intros. unfold slice_of. by apply Forall_take, Forall_drop. Qed.

Lemma fill_spec target buf n pieces :
  Forall (λ q : bytes, q ≠ []) pieces →
  ∃ p1 p2, pieces = p1 ++ p2 ∧
    fill target buf n (Ok <$> pieces)
    = Ok (buf ++ mjoin p1, (n + length (mjoin p1))%nat, Ok <$> p2) ∧
    (p2 = [] ∨ (target ≤ length (buf ++ mjoin p1))%nat).
Proof.
  intros Hne. revert buf n. induction Hne as [|q pieces Hq Hne IH]; intros buf n.
  { exists [], []. split; [done|]. rewrite app_nil_r. simpl.
    rewrite Nat.add_0_r. split; [by destruct (target <=? length buf)%nat|by left]. }
  rewrite fmap_cons. cbn [fill].
  destruct (Nat.leb_spec target (length buf)) as [Hle|Hlt].
  { exists [], (q :: pieces). rewrite app_nil_r. simpl. rewrite Nat.add_0_r. auto. }
  destruct (Nat.eqb_spec (length q) 0) as [E|E]; [by destruct q|].
  destruct (IH (buf ++ q) (n + length q)%nat) as (p1 & p2 & -> & Hf & Hor).
  exists (q :: p1), p2. rewrite !mjoin_cons. rewrite <-app_assoc in Hf, Hor. split; [done|].
  rewrite Hf. rewrite length_app. split; [do 3 f_equal; lia|done].
Qed.

(** ** The reference chunker *)

Section chunker.
Context (r : Rabin).
Let p := preset r.
Let w := Z.to_nat (window_size p).
Let minn := Z.to_nat (min_size (config r)).
Let maxn := Z.to_nat (max_size (config r)).

(** The fingerprint of the window that ends at position [j] hits the target. *)
Definition hit (data : bytes) (j : nat) : bool :=
  Z.land (fp p (slice_of data (j - w) j)) (mask r) =? target_value (config r).

(** The first hit among [k] positions from [j] on. *)
Fixpoint first_hit (k : nat) (data : bytes) (j : nat) : nat :=
  match k with
  | O => j
  | S k => if hit data j then j else first_hit k data (S j)
  end.

Definition boundary (data : bytes) : nat :=
  first_hit (length data `min` maxn - minn) data minn.

Fixpoint cdc_fuel (fuel : nat) (data : bytes) : list bytes :=
  match fuel, data with
  | S fuel, _ :: _ =>
      if (length data <=? minn)%nat then [data]
      else take (boundary data) data :: cdc_fuel fuel (drop (boundary data) data)
  | _, _ => []
  end.
Definition cdc (data : bytes) : list bytes := cdc_fuel (length data) data.

(** A chunker as [Rabin::new] builds it. *)
Record rabin_ok : Prop := {
  ok_preset : preset_ok p;
  ok_init : init_state r = 1;
  ok_sans : mins_sans_preheat r = min_size (config r) - window_size p;
  ok_min : window_size p ≤ min_size (config r);
  ok_max : min_size (config r) < max_size (config r)
}.

Lemma first_hit_bounds k data j : (j ≤ first_hit k data j ≤ j + k)%nat.
Proof using. revert j. induction k as [|k IH]; intros j; simpl; [lia|]. case_match; [lia|]. specialize (IH (S j)). lia. Qed.

Lemma slice_of_app data rest a b :
  (b ≤ length data)%nat → slice_of (data ++ rest) a b = slice_of data a b.
Proof.
  intros Hb. unfold slice_of. destruct (decide (a ≤ length data)%nat).
  - rewrite drop_app_le, take_app_le by (rewrite ?length_drop; lia). done.
  - replace (b - a)%nat with 0%nat by lia. done.
Qed.

Lemma first_hit_app k data rest j :
  (j + k ≤ length data)%nat → first_hit k (data ++ rest) j = first_hit k data j.
Proof using.
  revert j. induction k as [|k IH]; intros j Hj; simpl; [done|]. unfold hit.
  rewrite slice_of_app, IH by lia. done.
Qed.

Context (Hr : rabin_ok).

Lemma size_facts : (0 < w ≤ minn)%nat ∧ (minn < maxn)%nat.
Proof using Hr. destruct Hr as [Hpre _ _ Hmin Hmax]. pose proof (ok_window p Hpre). unfold w, minn, maxn. lia. Qed.

Lemma boundary_bounds data :
  (minn < length data)%nat → (minn ≤ boundary data ≤ length data `min` maxn)%nat.
Proof using Hr.
  intros Hl. pose proof size_facts. unfold boundary.
  pose proof (first_hit_bounds (length data `min` maxn - minn) data minn). lia.
Qed.

(** Data beyond the largest chunk does not matter. *)
Lemma boundary_app data rest :
  (maxn ≤ length data)%nat → boundary (data ++ rest) = boundary data.
Proof using Hr.
  intros Hl. pose proof size_facts. unfold boundary. rewrite length_app.
  replace ((length data + length rest) `min` maxn)%nat with maxn by lia.
  replace (length data `min` maxn)%nat with maxn by lia. apply first_hit_app. lia.
Qed.

Lemma cdc_fuel_enough f1 f2 data :
  (length data ≤ f1)%nat → (length data ≤ f2)%nat → cdc_fuel f1 data = cdc_fuel f2 data.
Proof using Hr.
  revert f2 data. induction f1 as [|f1 IH]; intros [|f2] [|x l] Hl1 Hl2; try done;
    [simpl in Hl1; lia|simpl in Hl2; lia|]. cbn [cdc_fuel].
  case_match eqn:E; [done|]. apply Nat.leb_gt in E.
  pose proof (boundary_bounds (x :: l) E). pose proof size_facts.
  f_equal. apply IH; rewrite length_drop; cbn [length] in *; lia.
Qed.

Lemma cdc_short data : data ≠ [] → (length data ≤ minn)%nat → cdc data = [data].
Proof using.
  intros Hd Hl. unfold cdc. destruct data as [|x l]; [done|]. cbn [length cdc_fuel].
  rewrite (proj2 (Nat.leb_le _ _)) by done. done.
Qed.

Lemma cdc_long data :
  (minn < length data)%nat → cdc data = take (boundary data) data :: cdc (drop (boundary data) data).
Proof using Hr.
  intros Hl. pose proof (boundary_bounds data Hl). pose proof size_facts. unfold cdc at 1.
  destruct data as [|x l]; [simpl in Hl; lia|]. cbn [length cdc_fuel].
  rewrite (proj2 (Nat.leb_gt _ _)) by done. f_equal.
  apply cdc_fuel_enough; rewrite length_drop; simpl in *; lia.
Qed.

(** ** The loops *)

Lemma preheat_spec m k buf cur :
  Forall byte_ok buf → (0 < k)%nat → (k + m = w)%nat → (cur + w ≤ length buf)%nat →
  preheat r k buf (fp p (1 :: slice_of buf cur (cur + m))) (cur + m)
  = Ok (fp p (slice_of buf cur (cur + w)), (cur + w)%nat).
Proof using Hr.
  intros Hb. revert m. induction k as [|k IH]; intros m Hk Hm Hl; [lia|].
  destruct (lookup_lt_is_Some_2 buf (cur + m)) as [x Hx]; [lia|].
  assert (byte_ok x) by (by eapply Forall_lookup_1).
  cbn [preheat]. destruct k as [|k].
  - cbn [Nat.eqb]. erewrite roll_slide; [|apply ok_preset, Hr|unfold byte_ok; lia|by apply Forall_slice
      |rewrite length_slice by lia; fold p; fold w; lia|done|done].
    simpl. rewrite <-slice_snoc by (lia || done). replace (cur + w)%nat with (S (cur + m)) by lia. done.
  - change (S (S k) =? 1)%nat with false. cbv iota.
    erewrite roll_keep; [|apply ok_preset, Hr| |done|done].
    2:{ apply fp_ok; [apply ok_preset, Hr|]. constructor; [unfold byte_ok; lia|by apply Forall_slice]. }
    cbn [mbind res_bind]. fold p. rewrite <-fp_snoc. cbn [app]. rewrite <-slice_snoc by (lia || done).
    rewrite <-Nat.add_succ_r. apply IH; lia.
Qed.

Lemma preheat_window buf cur :
  Forall byte_ok buf → (cur + w ≤ length buf)%nat →
  preheat r w buf (init_state r) cur = Ok (fp p (slice_of buf cur (cur + w)), (cur + w)%nat).
Proof using Hr.
  intros Hb Hl. pose proof size_facts. pose proof (preheat_spec 0 w buf cur) as Hs.
  rewrite !Nat.add_0_r in Hs. rewrite <-Hs by (done || lia). rewrite (ok_init Hr). f_equal.
  replace (slice_of buf cur cur) with (@nil Z) by (unfold slice_of; by rewrite Nat.sub_diag).
  unfold fp. simpl. by rewrite sh_0 by apply (ok_preset Hr).
Qed.

Lemma cycle_spec k buf last j :
  Forall byte_ok buf → (w ≤ j)%nat → (last + j + k ≤ length buf)%nat →
  cycle r k buf (fp p (slice_of (drop last buf) (j - w) j)) (last + j)
  = Ok (last + first_hit k (drop last buf) j)%nat.
Proof using Hr.
  intros Hb. revert j. induction k as [|k IH]; intros j Hj Hl; [done|].
  cbn [cycle first_hit]. unfold hit. case_match eqn:E; [done|].
  pose proof size_facts. set (data := drop last buf) in *.
  assert (Forall byte_ok data) by (by apply Forall_drop).
  assert (length data = length buf - last)%nat by apply length_drop.
  destruct (lookup_lt_is_Some_2 data (j - w)) as [o Ho]; [lia|].
  destruct (lookup_lt_is_Some_2 data j) as [x Hx]; [lia|].
  assert (buf !! (last + j - w)%nat = Some o) as Ho'.
  { rewrite <-Ho. unfold data. rewrite lookup_drop. f_equal. lia. }
  assert (buf !! (last + j)%nat = Some x) as Hx' by (rewrite <-Hx; unfold data; by rewrite lookup_drop).
  fold p. fold w. rewrite Ho'. cbn [unwrap mbind res_bind]. rewrite (slice_cons data _ _ o) by (lia || done).
  erewrite roll_slide; [|apply ok_preset, Hr|by eapply Forall_lookup_1|by apply Forall_slice
    |rewrite length_slice by lia; fold p; fold w; lia|done|by eapply Forall_lookup_1].
  cbn [mbind res_bind]. rewrite <-slice_snoc by (lia || done).
  replace (S (j - w)) with (S j - w)%nat by lia. rewrite <-Nat.add_succ_r. apply IH; lia.
Qed.

(** A round stops at the boundary. *)
Lemma round_spec buf cur nmax :
  Forall byte_ok buf → (cur + minn < length buf)%nat → nmax = (length buf `min` (cur + maxn))%nat →
  ∃ st, preheat r w buf (init_state r) (cur + Z.to_nat (mins_sans_preheat r)) = Ok (st, (cur + minn)%nat) ∧
    cycle r (nmax - (cur + minn)) buf st (cur + minn) = Ok (cur + boundary (drop cur buf))%nat.
Proof using Hr.
  intros Hb Hl ->. pose proof size_facts.
  assert (Z.to_nat (mins_sans_preheat r) = (minn - w)%nat) as ->.
  { rewrite (ok_sans Hr). unfold minn, w. pose proof (ok_window p (ok_preset Hr)). lia. }
  rewrite preheat_window by (done || lia). eexists. split; [do 2 f_equal; lia|].
  replace (cur + (minn - w) + w)%nat with (cur + minn)%nat by lia.
  replace (slice_of buf (cur + (minn - w)) (cur + minn))
    with (slice_of (drop cur buf) (minn - w) minn).
  2:{ unfold slice_of. rewrite drop_drop. f_equal. lia. }
  rewrite cycle_spec by (done || lia). f_equal. f_equal. unfold boundary. f_equal.
  rewrite length_drop. lia.
Qed.

Lemma rounds_entire fuel buf cur :
  Forall byte_ok buf → (cur ≤ length buf)%nat → (length buf - cur < fuel)%nat →
  ∃ fin, rounds r fuel true buf cur = Ok (cdc (drop cur buf), fin).
Proof using Hr.
  intros Hb. revert cur. induction fuel as [|fuel IH]; intros cur Hc Hf; [lia|].
  pose proof size_facts. cbn [rounds]. fold p minn maxn w. rewrite andb_false_r.
  destruct (Nat.leb_spec (length buf) (cur + minn)) as [Hle|Hlt].
  - destruct (Nat.eqb_spec (length buf) cur) as [E|E]; simpl.
    + eexists. rewrite drop_ge by lia. done.
    + eexists. rewrite cdc_short; [|intros E'%(f_equal length)|]; rewrite ?length_drop in *; simpl in *; [|lia|lia].
      unfold slice_of. rewrite take_ge by (rewrite length_drop; lia). done.
  - edestruct (round_spec buf cur) as (st & Hpre & Hcy); [done|lia| |].
    2:{ rewrite Hpre. cbn [mbind res_bind]. rewrite Hcy. cbn [mbind res_bind].
      assert (minn < length (drop cur buf))%nat as Hd by (rewrite length_drop; lia).
      pose proof (boundary_bounds _ Hd) as Hbd. rewrite length_drop in Hbd.
      destruct (IH (cur + boundary (drop cur buf))%nat) as [fin Hfin]; [lia|lia|].
      rewrite Hfin. cbn [mbind res_bind]. eexists.
      rewrite (cdc_long (drop cur buf)) by done. rewrite slice_of_take, drop_drop. done. }
    case_match eqn:E; [apply Nat.ltb_lt in E|apply Nat.ltb_ge in E]; lia.
Qed.

Lemma rounds_partial fuel buf cur :
  Forall byte_ok buf → (cur ≤ length buf)%nat → (length buf - cur < fuel)%nat →
  ∃ out fin, rounds r fuel false buf cur = Ok (out, fin) ∧ (fin ≤ length buf)%nat ∧
    (length buf < fin + maxn)%nat ∧
    ∀ rest, cdc (drop cur buf ++ rest) = out ++ cdc (drop fin buf ++ rest).
Proof using Hr.
  intros Hb. revert cur. induction fuel as [|fuel IH]; intros cur Hc Hf; [lia|].
  pose proof size_facts. cbn [rounds]. fold p minn maxn w.
  destruct (Nat.ltb_spec (length buf) (cur + maxn)) as [Hlt|Hge]; cbn [andb negb].
  { exists [], cur. split_and!; [done|lia|lia|done]. }
  rewrite (proj2 (Nat.leb_gt _ _)) by lia.
  destruct (round_spec buf cur (cur + maxn)) as (st & Hpre & Hcy); [done|lia|lia|].
  rewrite Hpre. cbn [mbind res_bind]. rewrite Hcy. cbn [mbind res_bind].
  assert (minn < length (drop cur buf))%nat as Hd by (rewrite length_drop; lia).
  pose proof (boundary_bounds _ Hd) as Hbd. rewrite length_drop in Hbd.
  destruct (IH (cur + boundary (drop cur buf))%nat) as (out & fin & Hfin & H1 & H2 & H3); [lia|lia|].
  rewrite Hfin. cbn [mbind res_bind]. do 2 eexists. split_and!; [done|done|done|]. intros rest.
  rewrite (cdc_long (_ ++ rest)) by (rewrite length_app; lia).
  rewrite boundary_app by (rewrite length_drop; lia).
  rewrite take_app_le, drop_app_le by (rewrite length_drop; lia).
  rewrite slice_of_take, drop_drop, H3. done.
Qed.

(** ** The whole stream *)

Lemma rabin_loop_spec fuel buf pieces :
  Forall byte_ok (buf ++ mjoin pieces) → Forall (λ q, q ≠ []) pieces →
  (length buf < maxn)%nat → (length pieces + 1 < fuel)%nat →
  rabin_loop r fuel buf (Ok <$> pieces) = (cdc (buf ++ mjoin pieces), Ok tt).
Proof using Hr.
  intros Hb Hne. revert buf Hb fuel. induction pieces as [pieces IH] using (well_founded_induction
    (Wf_nat.well_founded_ltof _ (@length bytes))).
  intros buf Hb [|fuel] Hl Hf; [lia|]. pose proof size_facts.
  cbn [rabin_loop]. fold maxn minn.
  destruct (fill_spec (3 * maxn) buf 0 pieces Hne) as (p1 & p2 & -> & Hfill & Hor).
  rewrite Hfill. unfold try_. cbn [mbind gen_bind fst snd]. rewrite app_nil_l.
  rewrite mjoin_app, app_assoc in *. apply Forall_app in Hne as [Hne1 Hne2].
  set (buf' := buf ++ mjoin p1) in *. apply Forall_app in Hb as Hb'. destruct Hb' as [Hb' _].
  destruct (Nat.ltb_spec (length buf') minn) as [Hlt|Hge].
  { destruct Hor as [->|]; [|lia]. rewrite app_nil_r.
    destruct (Nat.eqb_spec (length buf') 0) as [E|E].
    - destruct buf'; [done|done].
    - rewrite cdc_short; [done|by destruct buf'|lia]. }
  rewrite Nat.add_0_l. destruct (Nat.eqb_spec (length (mjoin p1)) 0) as [E|E].
  - assert (p1 = []) as ->.
    { destruct p1 as [|[|x q] p1]; [done| |done]. inversion Hne1. done. }
    unfold buf' in *. rewrite app_nil_r in *. destruct Hor as [->|]; [|lia].
    destruct (rounds_entire (S (length buf)) buf 0) as [fin Hfin]; [done|lia|lia|].
    rewrite Hfin. cbn. rewrite !app_nil_r. done.
  - destruct (rounds_partial (S (length buf')) buf' 0) as (out & fin & Hfin & Hle & Hmax & Hcdc);
      [done|lia|lia|]. rewrite Hfin. cbn [mbind gen_bind fst snd].
    rewrite IH.
    + cbn [fst snd]. specialize (Hcdc (mjoin p2)). rewrite drop_0 in Hcdc. by rewrite Hcdc.
    + unfold Wf_nat.ltof. rewrite length_app. destruct p1; [done|]. simpl. lia.
    + done.
    + apply Forall_app in Hb as [_ Hb2]. apply Forall_app. split; [by apply Forall_drop|done].
    + rewrite length_drop. lia.
    + rewrite length_app in Hf. destruct p1; [done|]. simpl in Hf. lia.
Qed.
End chunker.

(** ** The reference chunker cuts the input *)

Section cdc_facts.
Context (r : Rabin) (Hr : rabin_ok r).

Lemma cdc_ind (P : bytes → Prop) :
  P [] →
  (∀ d, d ≠ [] → (length d ≤ Z.to_nat (min_size (config r)))%nat → P d) →
  (∀ d, (Z.to_nat (min_size (config r)) < length d)%nat → P (drop (boundary r d) d) → P d) →
  ∀ d, P d.
Proof using Hr.
  intros H0 H1 H2 d. induction d as [d IH] using (well_founded_induction
    (Wf_nat.well_founded_ltof _ (@length Z))).
  destruct (decide (d = [])) as [->|Hd]; [done|].
  destruct (decide (length d ≤ Z.to_nat (min_size (config r)))%nat) as [Hle|Hgt]; [by apply H1|].
  apply H2; [lia|]. apply IH. unfold Wf_nat.ltof. rewrite length_drop.
  pose proof (boundary_bounds r Hr d). pose proof (size_facts r Hr). lia.
Qed.

Lemma cdc_concat data : mjoin (cdc r data) = data.
Proof using Hr.
  revert data. apply cdc_ind; [done| |].
  - intros d Hd Hl. rewrite cdc_short, mjoin_cons by done. apply app_nil_r.
  - intros d Hl IH. rewrite (cdc_long r Hr) by done. rewrite mjoin_cons, IH. apply take_drop.
Qed.

Lemma cdc_sizes data i c :
  cdc r data !! i = Some c →
  c ≠ [] ∧ Z.of_nat (length c) ≤ max_size (config r) ∧
  ((S i < length (cdc r data))%nat → min_size (config r) ≤ Z.of_nat (length c)).
Proof using Hr.
  pose proof (size_facts r Hr) as Hsz. destruct Hr as [_ _ _ _ Hmm]. revert i c.
  revert data. apply (cdc_ind (λ data, ∀ i c, cdc r data !! i = Some c → c ≠ [] ∧
    Z.of_nat (length c) ≤ max_size (config r) ∧
    ((S i < length (cdc r data))%nat → min_size (config r) ≤ Z.of_nat (length c)))); [done| |].
  - intros d Hd Hl i c. rewrite cdc_short by done. destruct i; [|done]. simpl. intros [= <-].
    split; [done|]. split; [lia|]. lia.
  - intros d Hl IH i c. rewrite (cdc_long r Hr) by done. pose proof (boundary_bounds r Hr d Hl).
    destruct i as [|i]; simpl.
    + intros [= <-]. rewrite length_take. split; [|lia].
      intros E%(f_equal length). rewrite length_take in E. simpl in E. lia.
    + intros Hi. destruct (IH i c Hi) as (Ha & Hb & Hc). split_and!; [done|done|]. intros. apply Hc. lia.
Qed.
End cdc_facts.

Lemma Rabin_new_ok c p :
  preset_ok p → window_size p ≤ min_size c < max_size c → max_size c < 2 ^ 63 →
  ∃ r, Rabin_new c p = Ok r ∧ rabin_ok r ∧ config r = c ∧ preset r = p.
Proof.
  intros Hp Hc H63. unfold Rabin_new. rewrite (proj2 (Z.ltb_lt _ _)) by lia. cbn [assert mbind res_bind].
  pose proof (ok_window p Hp).
  rewrite index_tbl, tbl_out_0 by (done || rewrite (ok_out_len p Hp); lia). cbn [mbind res_bind].
  rewrite Z.shiftr_0_l, index_tbl, tbl_mod_0 by (done || rewrite (ok_mod_len p Hp); lia).
  eexists. split; [done|]. split; [|done]. constructor; simpl; [done|done| |lia|lia].
  apply Int.wrap_id. unfold Int.in_u. lia.
Qed.

(** C32: for a configuration whose window fits in the smallest chunk, the Rabin
    chunker never reads outside its tables or its buffer and ends; however the
    input is cut into reads, its chunks are those of the reference [cdc]: a
    chunk ends at the first position from [min_size] on at which the fingerprint
    of the last [window_size] bytes hits the target, or at [max_size].  So the
    chunks together are the input, none is larger than [max_size] and all but
    the last have at least [min_size] bytes. *)
Theorem rabin_chunks_correct c p pieces :
  preset_ok p → window_size p ≤ min_size c < max_size c → max_size c < 2 ^ 63 →
  Forall (λ q, q ≠ []) pieces → Forall byte_ok (mjoin pieces) →
  ∃ r, Rabin_new c p = Ok r ∧
    rabin_chunks r (Ok <$> pieces) = (cdc r (mjoin pieces), Ok tt) ∧
    mjoin (cdc r (mjoin pieces)) = mjoin pieces ∧
    ∀ i chunk, cdc r (mjoin pieces) !! i = Some chunk →
      chunk ≠ [] ∧ Z.of_nat (length chunk) ≤ max_size c ∧
      ((S i < length (cdc r (mjoin pieces)))%nat → min_size c ≤ Z.of_nat (length chunk)).
Proof.
  intros Hp Hc H63 Hne Hb. destruct (Rabin_new_ok c p Hp Hc H63) as (r & Hnew & Hr & Hrc & Hrp).
  exists r. split; [done|]. split.
  { unfold rabin_chunks. rewrite rabin_loop_spec; try done.
    - simpl. pose proof (size_facts r Hr). lia.
    - rewrite length_fmap. lia. }
  split; [by apply cdc_concat|]. intros i chunk Hi. rewrite <-Hrc. by eapply cdc_sizes.
Qed.

(** The lookup tables in the source are the ones its generator computes from
    the polynomial, and they have what the chunker relies on: every state
    indexes [mod_table] in range, reduction is linear, and [out_table] holds the
    fingerprint of a byte at the far end of the window. *)
Theorem rabin_tables_generated :
  generate_lookup_tables (polynomial GO_IPFS_V0_PRESET) 16
  = (out_table GO_IPFS_V0_PRESET, mod_table GO_IPFS_V0_PRESET) ∧ preset_ok GO_IPFS_V0_PRESET.
Proof. split; [exact go_ipfs_v0_tables|exact go_ipfs_v0_ok]. Qed.

Module RabinWitness.
Definition cfg : Config := {| target_value := 0; mask_bits := 2; max_size := 24; min_size := 18 |}.
Definition pieces : list bytes :=
  [Z.of_nat <$> seq 0 7; Z.of_nat <$> seq 7 50; (λ n, Z.of_nat (n * n mod 251)) <$> seq 0 100].

Lemma rabin_chunks_correct_witness :
  ∃ r, Rabin_new cfg GO_IPFS_V0_PRESET = Ok r ∧
    mjoin (rabin_chunks r (Ok <$> pieces)).1 = mjoin pieces.
Proof.
  destruct (rabin_chunks_correct cfg GO_IPFS_V0_PRESET pieces) as (r & Hnew & Hout & Hj & _).
  - exact go_ipfs_v0_ok.
  - simpl. lia.
  - simpl. lia.
  - unfold pieces. repeat constructor; done.
  - apply (bool_decide_unpack (Forall (λ b, 0 ≤ b < 256) (mjoin pieces))). vm_compute. exact I.
  - exists r. split; [exact Hnew|]. rewrite Hout. exact Hj.
Defined.

(** The chunks of the example. *)
Example rabin_example :
  match Rabin_new cfg GO_IPFS_V0_PRESET with
  | Ok r => (length <$> (rabin_chunks r (Ok <$> pieces)).1, (rabin_chunks r (Ok <$> pieces)).2)
  | _ => ([], Panic)
  end = ([21; 22; 18; 18; 18; 20; 18; 18; 4]%nat, Ok tt).
Proof. vm_compute. reflexivity. Qed.
End RabinWitness.
