(* ===== verification/BalancedTree.v ===== *)
(** * The balanced tree builder

    Models [iroh-unixfs/src/balanced_tree.rs] and [encode_unixfs_pb] of
    [iroh-unixfs/src/builder.rs].  The leaves are encoded by up to eight tasks
    at a time, but their results are taken in order, so the builder sees the
    sequence of encoded chunks.  A stream is the list of the blocks it yields
    and how it ends. *)

From stdpp Require Import prelude strings list gmap.
From Stdlib Require Import ZArith Lia.
From S2P Require Import Prelude Cids Unixfs Chunker.
Local Open Scope Z_scope.

Definition DEFAULT_DEGREE : Z := 174.

(** [iter.sum::<u64>()] *)
Definition sum_u64 (l : list Z) : Z := foldl (λ a b, Int.wrap 64 (a + b)) 0 l.

Section balanced_tree.
Context `{UnixfsProto}.

Definition encode_unixfs_pb (i : Data) (links : list PbLink) : res string PbNode :=
  let data := data_encode i in
  ensure (Z.of_nat (length data) <=? DEFAULT_CHUNK_SIZE_LIMIT) "node is too large"%string;;
  Ok {| pbn_links := links; pbn_data := Some data |}.

Record LinkInfo := { raw_data_len : Z; encoded_len : Z }.

(** A link of the tree under construction *)
Definition entry : Type := Cid * LinkInfo.

Definition file_data (blocksizes : list Z) : Data := {|
  data_type := DataType_into DT_File;
  data_data := None;
  data_filesize := Some (sum_u64 blocksizes);
  data_blocksizes := blocksizes;
  data_hash_type := None;
  data_fanout := None
|}.

Definition pb_link_of (e : entry) : PbLink :=
  {| pbl_hash := Some (cid_to_bytes e.1); pbl_name := None; pbl_tsize := Some (encoded_len e.2) |}.

Definition create_unixfs_node_from_links (links : list entry) : res string UnixfsNode :=
  let i := file_data ((raw_data_len ∘ snd) <$> links) in
  o ← encode_unixfs_pb i (pb_link_of <$> links);
  Ok (File {| outer := o; inner := i |}).

Inductive TreeNode :=
  | Leaf (data : bytes)
  | Stem (links : list entry).

Definition TreeNode_encode (t : TreeNode) : res string (Block * LinkInfo) :=
  match t with
  | Leaf data =>
      let len := Z.of_nat (length data) in
      block ← unixfs_encode (Raw data);
      Ok (block, {| raw_data_len := len; encoded_len := len |})
  | Stem links =>
      let el := sum_u64 ((encoded_len ∘ snd) <$> links) in
      node ← create_unixfs_node_from_links links;
      block ← unixfs_encode node;
      raw ← unwrap (unixfs_filesize node);
      Ok (block, {| raw_data_len := raw;
                    encoded_len := Int.wrap 64 (el + Z.of_nat (length (blk_data block))) |})
  end.

(** The layers of the tree under construction, the lowest first. *)
Definition layers : Type := list (list entry).

Definition tree_gen := gen Block string.

(** Encode a stem node, yield it and return the link to it. *)
Definition yield_stem (links : list entry) : tree_gen entry :=
  '(block, info) ← try_ (TreeNode_encode (Stem links));
  yield block;;
  mret (blk_cid block, info).

(** The [for] loop over the layers: [add] are the links the previous turn has
    pushed onto this layer.  The loop stops at the first layer that is not full;
    a new layer is made above a full top layer. *)
Fixpoint overflow (degree : nat) (add : list entry) (tree : layers) : tree_gen layers :=
  match tree with
  | [] => mret (match add with [] => [] | _ => [add] end)
  | layer :: rest =>
      let links := layer ++ add in
      if (length links <? degree)%nat then mret (links :: rest)
      else
        e ← yield_stem links;
        rest ← overflow degree [e] rest;
        mret ([] :: rest)
  end.

Definition layer0 (tree : layers) : list entry := default [] (head tree).

(** [tree[0].push(e)] *)
Definition push_front_layer (e : entry) (tree : layers) : layers :=
  match tree with [] => [] | l :: rest => (l ++ [e]) :: rest end.

(** One turn of the [while let] loop over the chunks. *)
Definition add_chunk (degree : nat) (tree : layers) (chunk : res string bytes) : tree_gen layers :=
  data ← try_ chunk;
  '(block, info) ← try_ (TreeNode_encode (Leaf data));
  tree ← (if (length (layer0 tree) =? degree)%nat then overflow degree [] tree else mret tree);
  yield block;;
  mret (push_front_layer (blk_cid block, info) tree).

Fixpoint add_chunks (degree : nat) (tree : layers) (chunks : list (res string bytes)) : tree_gen layers :=
  match chunks with
  | [] => mret tree
  | c :: chunks => tree ← add_chunk degree tree c; add_chunks degree tree chunks
  end.

(** The final [while let Some(links) = tree.pop_front()]; [add] are the links
    pushed onto the front layer by the previous turn. *)
Fixpoint clean_up (add : list entry) (tree : layers) : tree_gen unit :=
  match tree with
  | [] => mret tt
  | layer :: rest => e ← yield_stem (layer ++ add); clean_up [e] rest
  end.

Definition stream_balanced_tree (chunks : list (res string bytes)) (degree : nat) : tree_gen unit :=
  tree ← add_chunks degree [[]] chunks;
  if (length tree =? 1)%nat && (length (layer0 tree) =? 1)%nat then mret tt
  else clean_up [] tree.

(** [TreeBuilder::balanced_tree_with_degree] followed by [stream_tree] *)
Definition stream_tree (degree : Z) (chunks : list (res string bytes)) : tree_gen unit :=
  try_ (assert (1 <? degree));;
  stream_balanced_tree chunks (Z.to_nat degree).
End balanced_tree.
