(* ===== verification/Reader.v ===== *)
(** * Reading a file

    Models [UnixfsContentReader] of [iroh-unixfs/src/unixfs.rs]: the reads and
    seeks over a file whose content is spread over a DAG of nodes.  The loader
    is an argument of every poll, so it may answer differently each time: a
    load is pending, fails, or gives the bytes of a block.  The link stack
    [current_links] has its top first. *)

From stdpp Require Import prelude strings list gmap.
From Stdlib Require Import ZArith Lia.
From S2P Require Import Prelude Cids Bits Unixfs.
Local Open Scope Z_scope.

Inductive poll (A : Type) := Pending | Ready (a : A).
Arguments Pending {A}.
Arguments Ready {A} a.

(** [&data[pos..]] *)
Definition slice_from {A} (data : list A) (pos : Z) : res string (list A) :=
  if pos <=? Z.of_nat (length data) then Ok (drop (Z.to_nat pos) data) else Panic.

(** [slice.binary_search(&x)] on an ascending list: the index of the element
    ([Ok] in the source, here [true]) or where it would be inserted. *)
Fixpoint binary_search (l : list Z) (x : Z) : bool * nat :=
  match l with
  | [] => (false, 0%nat)
  | y :: l =>
      if y <? x then let '(b, i) := binary_search l x in (b, S i)
      else (x =? y, 0%nat)
  end.

Section reader.
Context `{UnixfsProto}.

(** What the loader answers when the future of a load is polled. *)
Definition loader := Cid → poll (res string bytes).

(** The future of a load is the CID to load, [None] once it has completed. *)
Inductive CurrentNodeState :=
  | Outer
  | NextNodeRequested (next_node_offset : Z)
  | Loaded (node_offset node_pos : Z) (node : UnixfsNode)
  | Loading (node_offset : Z) (fut : option Cid).

Record Reader := {
  rd_root : UnixfsNode;
  rd_pos : Z;
  rd_pos_max : option Z;
  rd_node : CurrentNodeState;
  rd_links : list (list Link)
}.

Definition set_pos (p : Z) (r : Reader) : Reader :=
  {| rd_root := rd_root r; rd_pos := p; rd_pos_max := rd_pos_max r;
     rd_node := rd_node r; rd_links := rd_links r |}.
Definition set_node (n : CurrentNodeState) (r : Reader) : Reader :=
  {| rd_root := rd_root r; rd_pos := rd_pos r; rd_pos_max := rd_pos_max r;
     rd_node := n; rd_links := rd_links r |}.
Definition set_links (l : list (list Link)) (r : Reader) : Reader :=
  {| rd_root := rd_root r; rd_pos := rd_pos r; rd_pos_max := rd_pos_max r;
     rd_node := rd_node r; rd_links := l |}.

Definition into_content_reader (u : UnixfsNode) (pos_max : option Z) : res string (option Reader) :=
  match u with
  | Raw _ | RawNode _ | File _ | Symlink _ =>
      links ← links_owned u;
      Ok (Some {| rd_root := u; rd_pos := 0; rd_pos_max := pos_max;
                  rd_node := Outer; rd_links := [links] |})
  | HamtShard _ _ | Directory _ => Ok None
  end.

(** [read_data_to_buf]: the bytes put into the buffer, which has [remaining]
    bytes of room. *)
Definition read_data_to_buf (pos : Z) (pos_max : option Z) (data : bytes) (remaining : Z) : bytes :=
  let data_to_read := match pos_max with
                      | Some m => Int.usize_sub m pos
                      | None => Z.of_nat (length data)
                      end in
  let amt := Z.min (Z.min data_to_read remaining) (Z.of_nat (length data)) in
  take (Z.to_nat amt) data.

Definition advance (out : bytes) (r : Reader) : Reader :=
  set_pos (Int.usize_add (rd_pos r) (Z.of_nat (length out))) r.

(** The running sums of [find_block] *)
Fixpoint pivots_from (state : Z) (sizes : list Z) : list Z :=
  match sizes with
  | [] => []
  | x :: sizes => let s := Int.wrap 64 (state + x) in s :: pivots_from s sizes
  end.

Definition find_block (node : UnixfsNode) (pos node_offset : Z) : res string (Z * option nat) :=
  let pivots := pivots_from node_offset (unixfs_blocksizes node) in
  let '(found, b) := binary_search pivots pos in
  let block_index := if found then S b else b in
  if (block_index <? length pivots)%nat then
    next ← (if (0 <? block_index)%nat then unwrap (pivots !! (block_index - 1)%nat) else Ok node_offset);
    Ok (next, Some block_index)
  else
    last ← unwrap (last pivots);
    Ok (last, None).

(** [load_next_node]: drop empty layers, take the next link.  [None] when no
    link is left; the layers dropped stay dropped. *)
Fixpoint load_next_node (links : list (list Link)) : option Link * list (list Link) :=
  match links with
  | [] => (None, [])
  | [] :: links => load_next_node links
  | (l :: layer) :: links => (Some l, layer :: links)
  end.

(** A turn of the loop of [poll_read_file_at] returns or goes on. *)
Inductive turn := Return (p : poll (res string bytes)) (r : Reader) | Continue (r : Reader).

(** The future made by [load_next_node] *)
Definition poll_load (load : loader) (cid : Cid) : poll (res string UnixfsNode) :=
  match load cid with
  | Pending => Pending
  | Ready x => Ready (data ← x; unixfs_decode cid data)
  end.

(** Read from the slice [data[from..]] and return. *)
Definition read_slice (r : Reader) (data : bytes) (from remaining : Z) : poll (res string bytes) * Reader :=
  match slice_from data from with
  | Ok d =>
      let out := read_data_to_buf (rd_pos r) (rd_pos_max r) d remaining in
      (Ready (Ok out), advance out r)
  | _ => (Ready Panic, r)
  end.

(** The states [Outer], [Loading] and [Loaded]. *)
Definition turn_outer (root : Node) (remaining : Z) (r : Reader) : turn :=
  match pbn_links (outer root) with
  | [] =>
      let '(p, r) := read_slice r (default [] (data_data (inner root))) (rd_pos r) remaining in
      Return p r
  | _ =>
      match data_data (inner root) with
      | Some data =>
          if rd_pos r <? Z.of_nat (length data) then
            let '(p, r) := read_slice r data (rd_pos r) remaining in Return p r
          else Continue (set_node (NextNodeRequested 0) r)
      | None => Continue (set_node (NextNodeRequested 0) r)
      end
  end.

Definition turn_loading (load : loader) (node_offset : Z) (cid : Cid) (r : Reader) : turn :=
  match poll_load load cid with
  | Pending => Return Pending r
  | Ready (Ok node) =>
      match links_owned node with
      | Ok [] =>
          Continue (set_node (Loaded node_offset (Int.usize_sub (rd_pos r) node_offset) node) r)
      | Ok links =>
          match find_block node (rd_pos r) node_offset with
          | Ok (next_node_offset, block_index) =>
              let r := match block_index with
                       | Some i => set_links (drop i links :: rd_links r) r
                       | None => r
                       end in
              Continue (set_node (NextNodeRequested next_node_offset) r)
          | _ => Return (Ready Panic) r
          end
      | Err e => Return (Ready (Err e)) (set_node (Loading node_offset None) r)
      | Panic => Return (Ready Panic) r
      end
  | Ready (Err e) => Return (Ready (Err e)) (set_node (NextNodeRequested node_offset) r)
  | Ready Panic => Return (Ready Panic) r
  end.

(** A leaf with data: skip it if it lies before the position, read from it
    otherwise. *)
Definition read_leaf (data : bytes) (node_offset node_pos : Z) (node : UnixfsNode) (remaining : Z)
    (r : Reader) : turn :=
  let fin := Int.usize_add node_offset (Z.of_nat (length data)) in
  if fin <=? rd_pos r then Continue (set_node (NextNodeRequested fin) r)
  else
    match read_slice r data node_pos remaining with
    | (Ready (Ok out), r) =>
        Return (Ready (Ok out))
          (set_node (Loaded node_offset (Int.usize_add node_pos (Z.of_nat (length out))) node) r)
    | (p, r) => Return p r
    end.

Definition turn_loaded (node_offset node_pos : Z) (node : UnixfsNode) (remaining : Z) (r : Reader) : turn :=
  match node with
  | Raw data => read_leaf data node_offset node_pos node remaining r
  | File n | RawNode n =>
      match data_data (inner n) with
      | Some data => read_leaf data node_offset node_pos node remaining r
      | None => Continue (set_node (NextNodeRequested node_offset) r)
      end
  | _ => Return (Ready (Err "invalid type nested in chunked file"%string)) r
  end.

Definition file_turn (load : loader) (root : Node) (remaining : Z) (r : Reader) : turn :=
  if match rd_pos_max r with Some m => m <=? rd_pos r | None => false end
  then Return (Ready (Ok [])) r
  else
    match rd_node r with
    | Outer => turn_outer root remaining r
    | NextNodeRequested off =>
        match load_next_node (rd_links r) with
        | (Some link, links) => Continue (set_node (Loading off (Some (link_cid link))) (set_links links r))
        | (None, links) => Return (Ready (Ok [])) (set_links links r)
        end
    | Loading off (Some cid) => turn_loading load off cid r
    | Loading _ None => Return (Ready Panic) r
    | Loaded off npos node => turn_loaded off npos node remaining r
    end.

(** [poll_read_file_at]; [None] is the lack of fuel. *)
Fixpoint poll_read_file_at (fuel : nat) (load : loader) (root : Node) (remaining : Z) (r : Reader)
    : option (poll (res string bytes) * Reader) :=
  match fuel with
  | O => None
  | S fuel =>
      match file_turn load root remaining r with
      | Return p r => Some (p, r)
      | Continue r => poll_read_file_at fuel load root remaining r
      end
  end.

(** [poll_read] *)
Definition poll_read (fuel : nat) (load : loader) (remaining : Z) (r : Reader)
    : option (poll (res string bytes) * Reader) :=
  match rd_root r with
  | Raw data => Some (read_slice r data (rd_pos r) remaining)
  | File node => poll_read_file_at fuel load node remaining r
  | Symlink node => Some (read_slice r (default [] (data_data (inner node))) (rd_pos r) remaining)
  | _ => Some (Ready (Err "unsupported Unixfs type for file types"%string), r)
  end.

(** ** Seeking *)

Inductive SeekFrom := SeekStart (offset : Z) | SeekEnd (offset : Z) | SeekCurrent (offset : Z).

Definition as_i64 (z : Z) : Z := Int.swrap 64 z.

(** The new position for a known length, [None] for an unknown one. *)
Definition seek_pos (data_len : option Z) (pos : Z) (s : SeekFrom) : res string Z :=
  match s with
  | SeekStart offset =>
      Ok (match data_len with
          | Some len => if len =? 0 then 0 else Z.min offset (len - 1)
          | None => offset
          end)
  | SeekEnd offset =>
      match data_len with
      | Some len =>
          if len =? 0 then Ok 0
          else
            let i := Z.rem (Int.swrap 64 (as_i64 len + offset)) (as_i64 len) in
            Ok (Int.wrap 64 (if i <? 0 then i + as_i64 len else i))
      | None => Err "cannot seek from end of unknown length"%string
      end
  | SeekCurrent offset =>
      let i := Z.max 0 (Int.swrap 64 (as_i64 pos + offset)) in
      Ok (match data_len with
          | Some len => if len =? 0 then 0 else Int.wrap 64 (Z.min i (as_i64 len - 1))
          | None => Int.wrap 64 i
          end)
  end.

Definition start_seek (s : SeekFrom) (r : Reader) : res string unit * Reader :=
  match links_owned (rd_root r) with
  | Ok links =>
      let r' := set_links [links] (set_node Outer r) in
      match seek_pos (unixfs_size (rd_root r)) (rd_pos r) s with
      | Ok p => (Ok tt, set_pos p r')
      | Err e => (Err e, r')
      | Panic => (Panic, r')
      end
  | _ => (Panic, set_node Outer r)
  end.

(** [poll_complete] *)
Definition poll_complete (r : Reader) : Z := rd_pos r.
End reader.
