(* ===== verification/ReaderFacts.v ===== *)
(** * Correctness of the file reader

    [den load k c d] says that the node [c], as the loader serves it, is the
    root of a file DAG of [k] nodes with content [d].  A read returns the next
    bytes of the content and leaves the reader where they end. *)

From stdpp Require Import prelude strings list gmap.
From Stdlib Require Import ZArith Lia.
From S2P Require Import Prelude Cids Bits Unixfs Reader.
Local Open Scope Z_scope.

(** ** Binary search and pivots *)

Lemma binary_search_spec l x b i :
  binary_search l x = (b, i) →
  (i ≤ length l)%nat ∧ (∀ j y, (j < i)%nat → l !! j = Some y → y < x) ∧
  (b = true → l !! i = Some x) ∧ (b = false → ∀ y, l !! i = Some y → x < y).
Proof.
  revert i. induction l as [|y l IH]; intros i; simpl.
  { intros [= <- <-]. split_and!; [done|intros; lia|done|done]. }
  destruct (Z.ltb_spec y x).
  - destruct (binary_search l x) as [b' i'] eqn:E. intros [= -> <-].
    destruct (IH i' eq_refl) as (H1 & H2 & H3 & H4). split_and!; [lia| |done|done].
    intros [|j] z Hj; simpl; [intros [= <-]; done|]. apply H2. lia.
  - intros [= <- <-]. split_and!; [lia|intros; lia| |].
    + intros ->%Z.eqb_eq. done.
    + intros ?%Z.eqb_neq z [= <-]. lia.
Qed.

Lemma pivots_lookup off ss j :
  0 ≤ off → Forall (λ s, 0 ≤ s) ss → off + sum_z ss < 2 ^ 64 → (j < length ss)%nat →
  pivots_from off ss !! j = Some (off + sum_z (take (S j) ss)).
Proof.
  intros Hoff Hss. revert off j Hoff. induction Hss as [|s ss Hs Hss IH]; intros off j Hoff H64 Hj;
    [simpl in Hj; lia|]. simpl in H64. pose proof (sum_z_nonneg ss Hss).
  cbn [pivots_from]. rewrite Int.wrap_id by (unfold Int.in_u; lia).
  destruct j as [|j]; [simpl; f_equal; lia|]. simpl. rewrite IH by (simpl in *; lia). f_equal. simpl. lia.
Qed.

Lemma pivots_length off ss : length (pivots_from off ss) = length ss.
Proof. revert off. induction ss; intros off; simpl; [done|]. by f_equal. Qed.

Lemma sum_z_take_le ss i : Forall (λ s, 0 ≤ s) ss → 0 ≤ sum_z (take i ss) ≤ sum_z ss.
Proof.
  intros Hss. pose proof (sum_z_nonneg _ (Forall_take _ i _ Hss)).
  pose proof (sum_z_nonneg _ (Forall_drop _ i _ Hss)).
  rewrite <-(take_drop i ss) at 3. rewrite sum_z_app. lia.
Qed.

Section reader_facts.
Context `{UnixfsProto}.

(** [find_block] skips only blocks that lie before the position. *)
Lemma find_block_spec node ss pos off :
  unixfs_blocksizes node = ss → ss ≠ [] → Forall (λ s, 0 ≤ s) ss →
  0 ≤ off → off ≤ pos → off + sum_z ss < 2 ^ 64 →
  ∃ i, (i ≤ length ss)%nat ∧ off + sum_z (take i ss) ≤ pos ∧
    find_block node pos off
    = Ok (off + sum_z (take i ss), if (i <? length ss)%nat then Some i else None).
Proof.
  intros Hb Hne Hss Hoff Hpos H64. unfold find_block. rewrite Hb.
  pose proof (λ j, pivots_lookup off ss j Hoff Hss H64) as Hpl.
  destruct (binary_search _ pos) as [b i] eqn:E. apply binary_search_spec in E as (Hi & Hlt & Hf & Hn).
  rewrite pivots_length in *. set (bi := if b then S i else i). exists bi.
  assert ((bi ≤ length ss)%nat ∧ off + sum_z (take bi ss) ≤ pos) as (Hbi & Hle).
  { unfold bi. destruct b.
    - specialize (Hf eq_refl). assert (i < length ss)%nat as Hi'.
      { apply lookup_lt_Some in Hf. by rewrite pivots_length in Hf. }
      rewrite Hpl in Hf by done. injection Hf as Hf. split; lia.
    - split; [done|]. destruct i as [|i]; [simpl; lia|].
      specialize (Hlt i _ ltac:(lia) (Hpl i ltac:(lia))). lia. }
  split; [done|]. split; [done|]. destruct (Nat.ltb_spec bi (length ss)) as [Hl|Hl].
  - destruct (Nat.ltb_spec 0 bi) as [Hz|Hz].
    + rewrite Hpl by lia. simpl. replace (S (bi - 1)) with bi by lia. done.
    + replace bi with 0%nat by lia. simpl. rewrite Z.add_0_r. done.
  - rewrite last_lookup, pivots_length.
    assert (0 < length ss)%nat by (destruct ss; simpl; [done|lia]). rewrite Hpl by lia. simpl.
    replace (S (pred (length ss))) with (length ss) by lia. rewrite !take_ge by lia. done.
Qed.

(** ** File DAGs *)

Inductive den (load : loader) : nat → Cid → bytes → Prop :=
  | den_raw c d :
      poll_load load c = Ready (Ok (Raw d)) → den load 1 c d
  | den_leaf c n :
      poll_load load c = Ready (Ok (File n)) → pbn_links (outer n) = [] →
      den load 1 c (default [] (data_data (inner n)))
  | den_stem k c n links d :
      poll_load load c = Ready (Ok (File n)) → links_owned (File n) = Ok links → links ≠ [] →
      data_data (inner n) = None → dens load k links (data_blocksizes (inner n)) d →
      den load (S k) c d
with dens (load : loader) : nat → list Link → list Z → bytes → Prop :=
  | dens_nil : dens load 0 [] [] []
  | dens_cons k1 k2 l ls ss d ds :
      den load k1 (link_cid l) d → dens load k2 ls ss ds →
      dens load (k1 + k2) (l :: ls) (Z.of_nat (length d) :: ss) (d ++ ds).

Lemma dens_app load k1 l1 s1 d1 k2 l2 s2 d2 :
  dens load k1 l1 s1 d1 → dens load k2 l2 s2 d2 →
  dens load (k1 + k2) (l1 ++ l2) (s1 ++ s2) (d1 ++ d2).
Proof.
  intros Hd H2. induction Hd as [|ka kb l ls ss d ds Hl _ IH]; [done|].
  rewrite <-!app_assoc, <-Nat.add_assoc. simpl. by constructor.
Qed.

Lemma dens_sizes load k ls ss d :
  dens load k ls ss d →
  Forall (λ s, 0 ≤ s) ss ∧ sum_z ss = Z.of_nat (length d) ∧ length ss = length ls.
Proof.
  induction 1 as [|ka kb l ls ss d ds Hl _ (IH1 & IH2 & IH3)]; [done|]. split_and!.
  - constructor; [lia|done].
  - simpl. rewrite IH2, length_app. lia.
  - simpl. by f_equal.
Qed.

(** Dropping the first links drops their content. *)
Lemma dens_drop load k ls ss d i :
  dens load k ls ss d → (i ≤ length ss)%nat →
  ∃ k', (k' ≤ k)%nat ∧ dens load k' (drop i ls) (drop i ss) (drop (Z.to_nat (sum_z (take i ss))) d).
Proof.
  intros Hd. revert i. induction Hd as [|ka kb l ls ss d ds Hl Hd IH]; intros i Hi.
  { exists 0%nat. destruct i; [|simpl in Hi; lia]. split; [done|constructor]. }
  destruct i as [|i]; [exists (ka + kb)%nat; split; [done|by constructor]|].
  simpl in Hi. destruct (IH i) as (k' & Hk & Hk'); [lia|]. exists k'. split; [lia|]. simpl.
  destruct (dens_sizes _ _ _ _ _ Hd) as (Hss & _ & _). pose proof (sum_z_take_le ss i Hss).
  rewrite Z2Nat.inj_add, Nat2Z.id by lia. rewrite drop_app_add. done.
Qed.

Lemma links_owned_file n links :
  links_owned (File n) = Ok links → (links = [] ↔ pbn_links (outer n) = []).
Proof.
  unfold links_owned, unixfs_links, pb_links. destruct (pbn_links (outer n)) as [|l ls]; simpl.
  - by intros [= <-].
  - destruct (link_from_pb l); simpl; try done. destruct (collect _); simpl; try done.
    intros [= <-]. done.
Qed.

(** ** The invariant of the reader *)

Definition leaf_of (node : UnixfsNode) (d : bytes) : Prop :=
  match node with
  | Raw x => d = x
  | File n => d = default [] (data_data (inner n))
  | _ => False
  end.

(** The state of the machine, where [m] bounds the turns until it returns. *)
Definition node_at (load : loader) (content : bytes) (m : nat) (root : Node) (r : Reader) : Prop :=
  match rd_node r with
  | Outer => ∃ links, links_owned (File root) = Ok links ∧ rd_links r = [links] ∧
      ((links = [] ∧ content = default [] (data_data (inner root)) ∧ (0 < m)%nat
          ∧ rd_pos r ≤ Z.of_nat (length content)) ∨
       (links ≠ [] ∧ data_data (inner root) = None ∧
          ∃ k, dens load k links (data_blocksizes (inner root)) content ∧ (3 * k + 2 ≤ m)%nat))
  | NextNodeRequested off => ∃ pre rest k ss, content = pre ++ rest ∧
      Z.of_nat (length pre) = off ∧ off ≤ rd_pos r ∧
      dens load k (mjoin (rd_links r)) ss rest ∧ (3 * k + 1 ≤ m)%nat
  | Loading off fut => ∃ c pre d rest k1 k2 ss, fut = Some c ∧ content = pre ++ d ++ rest ∧
      Z.of_nat (length pre) = off ∧ off ≤ rd_pos r ∧ den load k1 c d ∧
      dens load k2 (mjoin (rd_links r)) ss rest ∧ (3 * (k1 + k2) ≤ m)%nat
  | Loaded off npos node => ∃ pre d rest k ss, content = pre ++ d ++ rest ∧
      Z.of_nat (length pre) = off ∧ off ≤ rd_pos r ∧ npos = rd_pos r - off ∧ leaf_of node d ∧
      dens load k (mjoin (rd_links r)) ss rest ∧ (3 * k + 2 ≤ m)%nat
  end.

(** The reader of a file with the given content. *)
Definition reader_at (load : loader) (content : bytes) (m : nat) (r : Reader) : Prop :=
  Z.of_nat (length content) < 2 ^ 63 ∧ 0 ≤ rd_pos r < 2 ^ 63 ∧
  match rd_pos_max r with Some x => 0 ≤ x < 2 ^ 63 | None => True end ∧
  ∃ root, rd_root r = File root ∧ node_at load content m root r.

(** Where reading ends. *)
Definition limit (content : bytes) (r : Reader) : Z :=
  match rd_pos_max r with
  | Some x => Z.min x (Z.of_nat (length content))
  | None => Z.of_nat (length content)
  end.

(** [out] is what follows the position in the content, within the limit. *)
Definition good_read (content : bytes) (remaining : Z) (r : Reader) (out : bytes) (r' : Reader) : Prop :=
  out = take (length out) (drop (Z.to_nat (rd_pos r)) content) ∧
  rd_pos r' = rd_pos r + Z.of_nat (length out) ∧ Z.of_nat (length out) ≤ remaining ∧
  (out ≠ [] → rd_pos r' ≤ limit content r) ∧
  (rd_pos r < limit content r → out ≠ []) ∧
  rd_pos_max r' = rd_pos_max r ∧ rd_root r' = rd_root r.

(** Reading from the tail [d] of a leaf that starts at the position. *)
Lemma read_data_spec content r d tl remaining :
  Z.of_nat (length content) < 2 ^ 63 → 0 ≤ rd_pos r < 2 ^ 63 → 0 < remaining →
  match rd_pos_max r with Some x => rd_pos r < x < 2 ^ 63 | None => True end →
  drop (Z.to_nat (rd_pos r)) content = d ++ tl → rd_pos r < Z.of_nat (length content) → d ≠ [] →
  let out := read_data_to_buf (rd_pos r) (rd_pos_max r) d remaining in
  good_read content remaining r out (advance out r) ∧ (length out ≤ length d)%nat.
Proof.
  intros Hc Hp Hr Hm Hd Hlt Hne out.
  assert (length d + length tl = length content - Z.to_nat (rd_pos r))%nat as Hlen.
  { rewrite <-length_drop, Hd, length_app. done. }
  assert (0 < length d)%nat by (destruct d; simpl; [done|lia]).
  set (room := match rd_pos_max r with Some x => x - rd_pos r | None => Z.of_nat (length d) end).
  assert (0 < room) by (unfold room; destruct (rd_pos_max r); lia).
  assert (out = take (Z.to_nat (Z.min (Z.min room remaining) (Z.of_nat (length d)))) d) as Hout.
  { unfold out, read_data_to_buf, room. destruct (rd_pos_max r); [|done].
    unfold Int.usize_sub. rewrite Int.wrap_id by (unfold Int.in_u; lia). done. }
  assert (Z.of_nat (length out) = Z.min (Z.min room remaining) (Z.of_nat (length d))) as Hol.
  { rewrite Hout, length_take. lia. }
  split; [|lia]. unfold good_read. split_and!; try done.
  - rewrite Hd, take_app_le by lia. rewrite Hout at 1. f_equal. lia.
  - simpl. unfold Int.usize_add. apply Int.wrap_id. unfold Int.in_u. lia.
  - lia.
  - intros _. simpl. unfold Int.usize_add. rewrite Int.wrap_id by (unfold Int.in_u; lia).
    unfold limit, room in *. destruct (rd_pos_max r); lia.
  - intros _ E. rewrite E in Hol. simpl in Hol. lia.
Qed.

(** ** One turn of the loop *)

Definition turn_ok (load : loader) (content : bytes) (m : nat) (remaining : Z) (r : Reader) (t : turn) : Prop :=
  (∃ out r', t = Return (Ready (Ok out)) r' ∧ good_read content remaining r out r' ∧
     reader_at load content m r') ∨
  (∃ r' m', (m' < m)%nat ∧ t = Continue r' ∧ reader_at load content m' r' ∧
     rd_pos r' = rd_pos r ∧ rd_pos_max r' = rd_pos_max r ∧ rd_root r' = rd_root r).

(** Nothing is read at or behind the limit. *)
Lemma good_read_nil content remaining r r' :
  0 < remaining → limit content r ≤ rd_pos r → rd_pos r' = rd_pos r →
  rd_pos_max r' = rd_pos_max r → rd_root r' = rd_root r → good_read content remaining r [] r'.
Proof. intros. unfold good_read. split_and!; try done; simpl; lia. Qed.

Section turns.
Context (load : loader) (content : bytes) (remaining : Z) (Hrem : 0 < remaining).
Context (root : Node) (r : Reader).
Context (Hc : Z.of_nat (length content) < 2 ^ 63) (Hpos : 0 ≤ rd_pos r < 2 ^ 63).
Context (Hroot : rd_root r = File root).
Context (Hmax : match rd_pos_max r with Some x => rd_pos r < x < 2 ^ 63 | None => True end).

(** A state of the same reader. *)
Lemma reader_at_same m r' :
  rd_pos r' = rd_pos r → rd_pos_max r' = rd_pos_max r → rd_root r' = rd_root r →
  node_at load content m root r' → reader_at load content m r'.
Proof using Hc Hpos Hroot Hmax.
  intros Ep Em Er Hn. unfold reader_at. rewrite Ep, Em, Er. split_and!; try done; try lia.
  - destruct (rd_pos_max r); [lia|done].
  - by exists root.
Qed.

(** The state after bytes have been read. *)
Lemma reader_at_read m out r' :
  good_read content remaining r out r' → out ≠ [] →
  node_at load content m root r' → reader_at load content m r'.
Proof using Hc Hpos Hroot Hmax.
  intros (_ & Ep & _ & Hlim & _ & Em & Er) Hne Hn. specialize (Hlim Hne). unfold reader_at.
  rewrite Em, Er. unfold limit in Hlim. split_and!; try done; try lia.
  - destruct (rd_pos_max r); lia.
  - destruct (rd_pos_max r); [lia|done].
  - by exists root.
Qed.

Lemma limit_pos : rd_pos r < limit content r ↔ rd_pos r < Z.of_nat (length content).
Proof using Hmax. unfold limit. destruct (rd_pos_max r); lia. Qed.

Lemma slice_from_ok {A} (l : list A) (x : Z) :
  x ≤ Z.of_nat (length l) → slice_from l x = Ok (drop (Z.to_nat x) l).
Proof. intros. unfold slice_from. by rewrite (proj2 (Z.leb_le _ _)). Qed.

Lemma turn_outer_ok m :
  rd_node r = Outer → node_at load content m root r →
  turn_ok load content m remaining r (turn_outer root remaining r).
Proof using Hc Hpos Hroot Hmax Hrem.
  intros En Hn. pose proof Hn as Hn0. unfold node_at in Hn. rewrite En in Hn.
  destruct Hn as (links & Hl & Hls & [(-> & Hct & Hm & Hle)|(Hne & Hd & k & Hk & Hm)]); unfold turn_outer.
  - left. rewrite (proj1 (links_owned_file _ _ Hl) eq_refl). rewrite <-Hct. unfold read_slice.
    rewrite slice_from_ok by done. destruct (decide (rd_pos r < Z.of_nat (length content))) as [Hlt|Hge].
    + destruct (read_data_spec content r (drop (Z.to_nat (rd_pos r)) content) [] remaining) as [Hg _];
        [done|done|done|done|by rewrite app_nil_r|done| |].
      { intros E%(f_equal length). rewrite length_drop in E. simpl in E. lia. }
      set (out := read_data_to_buf _ _ _ _) in *. exists out, (advance out r). split; [done|].
      split; [done|]. eapply reader_at_read; [done|apply Hg; by apply limit_pos|].
      unfold node_at. change (rd_node (advance out r)) with (rd_node r).
      change (rd_links (advance out r)) with (rd_links r). rewrite En. exists []. rewrite Hls. split_and!; try done. left.
      split_and!; try done. destruct Hg as (_ & -> & _ & Hlim & _).
      unfold limit in Hlim. destruct (decide (out = [])) as [->|Ho]; [simpl; lia|].
      specialize (Hlim Ho). destruct (rd_pos_max r); lia.
    + rewrite drop_ge by lia. set (out := read_data_to_buf _ _ _ _).
      assert (out = []) as -> by (unfold out, read_data_to_buf; by rewrite take_nil).
      exists [], (advance [] r). split; [done|].
      assert (advance [] r = r) as ->.
      { unfold advance. simpl. unfold Int.usize_add. rewrite Int.wrap_id by (unfold Int.in_u; lia).
        rewrite Z.add_0_r. by destruct r. }
      split; [|by apply reader_at_same]. apply good_read_nil; try done.
      pose proof limit_pos. lia.
  - right. destruct (pbn_links (outer root)) as [|l ls] eqn:E.
    { apply (links_owned_file _ _ Hl) in E. done. }
    rewrite Hd. eexists _, (3 * k + 1)%nat. split; [lia|]. split; [done|]. split; [|done].
    apply reader_at_same; try done. unfold node_at. simpl.
    exists [], content, k, (data_blocksizes (inner root)). rewrite Hls, mjoin_cons, app_nil_r.
    split_and!; try done. simpl. lia.
Qed.

Lemma load_next_node_spec (stack : list (list Link)) :
  match load_next_node stack with
  | (Some l, stack') => mjoin stack = l :: mjoin stack'
  | (None, stack') => mjoin stack = [] ∧ stack' = []
  end.
Proof. induction stack as [|[|l ls] stack IH]; simpl; done. Qed.

Lemma turn_next_ok m off :
  rd_node r = NextNodeRequested off → node_at load content m root r →
  turn_ok load content m remaining r (file_turn load root remaining r).
Proof using Hc Hpos Hroot Hmax Hrem.
  intros En Hn. unfold node_at in Hn. rewrite En in Hn.
  destruct Hn as (pre & rest & k & ss & Hct & Hoff & Hle & Hk & Hm). unfold file_turn.
  assert (match rd_pos_max r with Some x => x <=? rd_pos r | None => false end = false) as ->.
  { destruct (rd_pos_max r); [|done]. apply Z.leb_gt. lia. }
  rewrite En. pose proof (load_next_node_spec (rd_links r)) as Hnext.
  destruct (load_next_node (rd_links r)) as [[l|] stack].
  - right. rewrite Hnext in Hk. inversion Hk as [|k1 k2 l' ls ss' d ds Hd Hds]; subst l' ls ss k rest.
    eexists _, (3 * (k1 + k2))%nat. split; [lia|]. split; [done|]. split; [|done].
    apply reader_at_same; try done. unfold node_at. simpl. exists (link_cid l), pre, d, ds, k1, k2, ss'.
    split_and!; done.
  - left. destruct Hnext as [Hnil ->]. rewrite Hnil in Hk. inversion Hk; subst rest.
    exists [], (set_links [] r). split; [done|]. rewrite app_nil_r in Hct.
    split; [|apply reader_at_same; try done].
    + apply good_read_nil; try done. pose proof limit_pos. rewrite Hct in *. lia.
    + unfold node_at. simpl. rewrite En. exists pre, [], 0%nat, []. rewrite app_nil_r.
      split_and!; try done; try constructor; lia.
Qed.

Lemma turn_loading_ok m off fut :
  rd_node r = Loading off fut → node_at load content m root r →
  turn_ok load content m remaining r (match fut with Some c => turn_loading load off c r | None => Return (Ready Panic) r end).
Proof using Hc Hpos Hroot Hmax Hrem.
  intros En Hn. unfold node_at in Hn. rewrite En in Hn.
  destruct Hn as (c & pre & d & rest & k1 & k2 & ss & -> & Hct & Hoff & Hle & Hd & Hk & Hm).
  right. unfold turn_loading. inversion Hd as [c' d' Hl|c' n Hl Hnl|k c' n links d' Hl Hlo Hne _ Hds]; subst c'.
  - rewrite Hl. simpl. eexists _, (3 * k2 + 2)%nat. split; [lia|]. split; [done|]. split; [|done].
    apply reader_at_same; try done. unfold node_at. simpl. exists pre, d, rest, k2, ss.
    split_and!; try done. apply Int.wrap_id. unfold Int.in_u. lia.
  - rewrite Hl. unfold links_owned, unixfs_links, pb_links. rewrite Hnl. simpl.
    eexists _, (3 * k2 + 2)%nat. split; [lia|]. split; [done|]. split; [|done].
    apply reader_at_same; try done. unfold node_at. simpl. exists pre, d, rest, k2, ss.
    split_and!; try done. apply Int.wrap_id. unfold Int.in_u. lia.
  - subst d'. rewrite Hl, Hlo. destruct (dens_sizes _ _ _ _ _ Hds) as (Hss & Hsum & Hlen).
    pose proof Hc as Hc'. rewrite Hct, !length_app in Hc'. set (sizes := data_blocksizes (inner n)) in *.
    assert (sizes ≠ []) as Hsne by (intros E; rewrite E in Hlen; by destruct links).
    destruct (find_block_spec (File n) sizes (rd_pos r) off) as (i & Hi & Hip & Hfb);
      [done|done|done|lia|done|lia|].
    rewrite Hfb. destruct (dens_drop _ _ _ _ _ i Hds Hi) as (k' & Hk' & Hdd).
    pose proof (sum_z_take_le sizes i Hss) as Hts. set (o := Z.to_nat (sum_z (take i sizes))) in *.
    destruct links as [|l0 ls0]; [done|]. set (links := l0 :: ls0) in *.
    eexists _, (3 * (k' + k2) + 1)%nat. split; [lia|]. split; [done|].
    assert (drop i links ++ mjoin (rd_links r)
      = mjoin (rd_links (set_node (NextNodeRequested (off + sum_z (take i sizes)))
          (match (if (i <? length sizes)%nat then Some i else None) with
           | Some i => set_links (drop i links :: rd_links r) r | None => r end)))) as Estack.
    { destruct (Nat.ltb_spec i (length sizes)); [done|]. by rewrite drop_ge by lia. }
    split; [apply reader_at_same|by destruct (i <? length sizes)%nat]; try (by destruct (i <? length sizes)%nat).
    unfold node_at. cbn [set_node rd_node]. fold (set_node (NextNodeRequested (off + sum_z (take i sizes)))).
    exists (pre ++ take o d), (drop o d ++ rest), (k' + k2)%nat, (drop i sizes ++ ss).
    split_and!.
    + rewrite Hct, <-app_assoc. f_equal. by rewrite app_assoc, take_drop.
    + rewrite length_app, length_take. lia.
    + by destruct (i <? length sizes)%nat.
    + rewrite <-Estack. by apply dens_app.
    + lia.
Qed.

Lemma read_leaf_ok m off npos node d pre rest k ss :
  rd_node r = Loaded off npos node → content = pre ++ d ++ rest → Z.of_nat (length pre) = off →
  off ≤ rd_pos r → npos = rd_pos r - off → leaf_of node d →
  dens load k (mjoin (rd_links r)) ss rest → (3 * k + 2 ≤ m)%nat →
  turn_ok load content m remaining r (read_leaf d off npos node remaining r).
Proof using Hc Hpos Hroot Hmax Hrem.
  intros En Hct Hoff Hle -> Hleaf Hk Hm. unfold read_leaf.
  pose proof Hc as Hc'. rewrite Hct, !length_app in Hc'.
  unfold Int.usize_add. rewrite Int.wrap_id by (unfold Int.in_u; lia).
  destruct (Z.leb_spec (off + Z.of_nat (length d)) (rd_pos r)) as [Hskip|Hin].
  - right. eexists _, (3 * k + 1)%nat. split; [lia|]. split; [done|]. split; [|done].
    apply reader_at_same; try done. unfold node_at. simpl. exists (pre ++ d), rest, k, ss.
    rewrite <-app_assoc, length_app. split_and!; try done; lia.
  - left. unfold read_slice. rewrite slice_from_ok by lia.
    assert (drop (Z.to_nat (rd_pos r)) content = drop (Z.to_nat (rd_pos r - off)) d ++ rest) as Hdrop.
    { rewrite Hct, drop_app_ge, drop_app_le by lia. do 2 f_equal. lia. }
    destruct (read_data_spec content r (drop (Z.to_nat (rd_pos r - off)) d) rest remaining) as [Hg Hlo];
      [done|done|done|done|done| | |].
    { rewrite Hct, !length_app. lia. }
    { intros E%(f_equal length). rewrite length_drop in E. simpl in E. lia. }
    rewrite length_drop in Hlo. set (out := read_data_to_buf _ _ _ _) in *.
    rewrite Int.wrap_id by (unfold Int.in_u; lia).
    exists out, (set_node (Loaded off (rd_pos r - off + Z.of_nat (length out)) node) (advance out r)).
    split; [done|]. split; [exact Hg|].
    eapply (reader_at_read _ out); [exact Hg|apply Hg, limit_pos; rewrite Hct, !length_app; lia|].
    unfold node_at. cbn [set_node rd_node rd_links]. change (rd_links (advance out r)) with (rd_links r).
    exists pre, d, rest, k, ss. destruct Hg as (_ & Ep & _).
    change (rd_pos (set_node (Loaded off (rd_pos r - off + Z.of_nat (length out)) node) (advance out r)))
      with (rd_pos (advance out r)). rewrite Ep. split_and!; try done; lia.
Qed.

Lemma turn_loaded_ok m off npos node :
  rd_node r = Loaded off npos node → node_at load content m root r →
  turn_ok load content m remaining r (turn_loaded off npos node remaining r).
Proof using Hc Hpos Hroot Hmax Hrem.
  intros En Hn. unfold node_at in Hn. rewrite En in Hn.
  destruct Hn as (pre & d & rest & k & ss & Hct & Hoff & Hle & Hnp & Hleaf & Hk & Hm).
  destruct node as [x|n|n|n|n|n h]; try done; simpl in Hleaf |- *.
  - subst x. by eapply read_leaf_ok.
  - destruct (data_data (inner n)) as [x|] eqn:E; simpl in Hleaf.
    + subst x. eapply read_leaf_ok; try done. simpl. by rewrite E.
    + subst d. right. eexists _, (3 * k + 1)%nat. split; [lia|]. split; [done|]. split; [|done].
      apply reader_at_same; try done. unfold node_at. simpl. exists pre, rest, k, ss. done.
Qed.
End turns.

Lemma file_turn_ok load content m remaining root r :
  0 < remaining → reader_at load content m r → rd_root r = File root →
  turn_ok load content m remaining r (file_turn load root remaining r).
Proof.
  intros Hrem (Hc & Hpos & Hmx & root' & Hroot & Hn) Hroot'.
  rewrite Hroot in Hroot'. injection Hroot' as ->.
  destruct (match rd_pos_max r with Some x => x <=? rd_pos r | None => false end) eqn:Estop.
  { unfold file_turn. rewrite Estop. left. exists [], r. split; [done|]. split.
    - apply good_read_nil; try done. unfold limit. destruct (rd_pos_max r); [|done].
      apply Z.leb_le in Estop. lia.
    - unfold reader_at. eauto 6. }
  assert (match rd_pos_max r with Some x => rd_pos r < x < 2 ^ 63 | None => True end) as Hmx'.
  { destruct (rd_pos_max r); [|done]. apply Z.leb_gt in Estop. lia. }
  destruct (rd_node r) as [|off|off npos node|off fut] eqn:En.
  2: by eapply turn_next_ok.
  all: unfold file_turn; rewrite Estop, En.
  - by eapply turn_outer_ok.
  - by eapply turn_loaded_ok.
  - by eapply turn_loading_ok.
Qed.

Lemma reader_at_mono load content m m' r :
  (m ≤ m')%nat → reader_at load content m r → reader_at load content m' r.
Proof.
  intros Hm (Hc & Hpos & Hmx & root & Hroot & Hn). do 3 (split; [done|]). exists root. split; [done|].
  unfold node_at in *. destruct (rd_node r); [|naive_solver lia..].
  destruct Hn as (links & Hl & Hls & [?|?]); exists links; naive_solver lia.
Qed.

Lemma poll_read_file_at_ok load content m fuel remaining root r :
  0 < remaining → reader_at load content m r → rd_root r = File root → (m < fuel)%nat →
  ∃ out r', poll_read_file_at fuel load root remaining r = Some (Ready (Ok out), r') ∧
    good_read content remaining r out r' ∧ reader_at load content m r'.
Proof.
  intros Hrem. revert m r. induction fuel as [|fuel IH]; intros m r Hr Hroot Hf; [lia|].
  cbn [poll_read_file_at].
  destruct (file_turn_ok load content m remaining root r Hrem Hr Hroot)
    as [(out & r' & -> & Hg & Hr')|(r' & m' & Hm & -> & Hr' & Ep & Em & Er)]; [by eauto|].
  destruct (IH m' r') as (out & r'' & Heq & Hg & Hr''); [done|congruence|lia|].
  exists out, r''. split; [done|]. split; [|by eapply reader_at_mono; [|done]; lia].
  unfold good_read, limit in *. by rewrite <-Ep, <-Em, <-Er.
Qed.

(** ** Readers of a file *)

(** The root node [n] of a file with the given content and [k] nodes below it.
    A root that has links carries no data of its own. *)
Definition file_root (load : loader) (n : Node) (content : bytes) (k : nat) : Prop :=
  ∃ links, links_owned (File n) = Ok links ∧
    ((links = [] ∧ content = default [] (data_data (inner n))) ∨
     (links ≠ [] ∧ data_data (inner n) = None ∧ dens load k links (data_blocksizes (inner n)) content)).

(** A reader at the start of a pass over the links. *)
Lemma outer_reader_at load n content k r :
  file_root load n content k → rd_root r = File n → rd_node r = Outer →
  (∀ links, links_owned (File n) = Ok links → rd_links r = [links]) →
  Z.of_nat (length content) < 2 ^ 63 → 0 ≤ rd_pos r < 2 ^ 63 →
  match rd_pos_max r with Some x => 0 ≤ x < 2 ^ 63 | None => True end →
  (pbn_links (outer n) = [] → rd_pos r ≤ Z.of_nat (length content)) →
  reader_at load content (3 * k + 2) r.
Proof.
  intros (links & Hlo & Hcase) Hroot Hnode Hls Hc Hpos Hmx Hle. split_and!; try done; try lia.
  exists n. split; [done|]. unfold node_at. rewrite Hnode. exists links. split; [done|].
  split; [by apply Hls|]. destruct Hcase as [[-> Hd]|(Hne & Hd & Hk)].
  - left. split_and!; [done|done|lia|]. apply Hle. by apply (links_owned_file _ _ Hlo).
  - right. split_and!; try done. exists k. split; [done|lia].
Qed.

Lemma into_content_reader_at load n content k pos_max :
  file_root load n content k → Z.of_nat (length content) < 2 ^ 63 →
  match pos_max with Some x => 0 ≤ x < 2 ^ 63 | None => True end →
  ∃ r, into_content_reader (File n) pos_max = Ok (Some r) ∧
    reader_at load content (3 * k + 2) r ∧ rd_pos r = 0 ∧ rd_pos_max r = pos_max ∧ rd_root r = File n.
Proof.
  intros Hfr Hc Hmx. pose proof Hfr as (links & Hlo & _). unfold into_content_reader. rewrite Hlo.
  eexists. split; [done|]. split; [|done].
  eapply outer_reader_at; simpl; try done; try lia. intros links' Hl'. congruence.
Qed.

(** ** Reads and seeks against a cursor *)

Inductive reader_op := Op_read (remaining : Z) | Op_seek (s : SeekFrom).

(** One call on the reader: the bytes of a read, or the outcome of a seek. *)
Definition run_op (fuel : nat) (load : loader) (op : reader_op) (r : Reader)
    : option (poll (res string bytes) * Reader) :=
  match op with
  | Op_read remaining => poll_read fuel load remaining r
  | Op_seek s =>
      let '(x, r) := start_seek s r in Some (Ready (_ ← x; Ok []), r)
  end.

Fixpoint run_ops (fuel : nat) (load : loader) (ops : list reader_op) (r : Reader)
    : option (list (poll (res string bytes)) * Reader) :=
  match ops with
  | [] => Some ([], r)
  | op :: ops =>
      '(x, r) ← run_op fuel load op r;
      '(xs, r) ← run_ops fuel load ops r;
      Some (x :: xs, r)
  end.

(** The specification: a cursor over the content.  [size] is the length of the
    content if the file is a single node, and unknown otherwise.

    The position that a seek names, in the arithmetic of [i64]; there is none when
    the seek is from an end that is not known. *)
Definition named (size : option Z) (pos : Z) (s : SeekFrom) : option Z :=
  match s with
  | SeekStart offset => Some offset
  | SeekCurrent offset => Some (Int.swrap 64 (pos + offset))
  | SeekEnd offset => (λ len, Int.swrap 64 (len + offset)) <$> size
  end.

Definition from_end (s : SeekFrom) : bool := match s with SeekEnd _ => true | _ => false end.

(** Where a seek goes: to the position it names when that is a byte of the content, or
    not negative when the length is not known.  Otherwise a seek from the start or from
    the position stops at the first or the last byte, one from the end goes round. *)
Inductive moved_to (size : option Z) (s : SeekFrom) (t : Z) : Z → Prop :=
  | moved_inside : 0 ≤ t → (∀ len, size = Some len → t < len) → moved_to size s t t
  | moved_empty : size = Some 0 → moved_to size s t 0
  | moved_before : t < 0 → size ≠ Some 0 → from_end s = false → moved_to size s t 0
  | moved_past len : size = Some len → 0 < len ≤ t → from_end s = false → moved_to size s t (len - 1)
  | moved_round len : size = Some len → 0 < len → from_end s = true → moved_to size s t (t mod len).

Inductive cursor_step (content : bytes) (lim : Z) (size : option Z)
    : Z → reader_op → poll (res string bytes) → Z → Prop :=
  | cursor_read pos remaining out :
      out = take (length out) (drop (Z.to_nat pos) content) →
      Z.of_nat (length out) ≤ remaining →
      (out ≠ [] → pos + Z.of_nat (length out) ≤ lim) → (pos < lim → out ≠ []) →
      cursor_step content lim size pos (Op_read remaining) (Ready (Ok out)) (pos + Z.of_nat (length out))
  | cursor_seek pos s t pos' :
      named size pos s = Some t → moved_to size s t pos' →
      cursor_step content lim size pos (Op_seek s) (Ready (Ok [])) pos'
  | cursor_seek_err pos s e :
      named size pos s = None →
      cursor_step content lim size pos (Op_seek s) (Ready (Err e)) pos.

Inductive cursor_run (content : bytes) (lim : Z) (size : option Z)
    : Z → list reader_op → list (poll (res string bytes)) → Z → Prop :=
  | cursor_run_nil pos : cursor_run content lim size pos [] [] pos
  | cursor_run_cons pos op x pos1 ops xs pos2 :
      cursor_step content lim size pos op x pos1 → cursor_run content lim size pos1 ops xs pos2 →
      cursor_run content lim size pos (op :: ops) (x :: xs) pos2.

(** Buffers have room and offsets from the start are not beyond [2^63]. *)
Definition op_ok (op : reader_op) : Prop :=
  match op with
  | Op_read remaining => 0 < remaining
  | Op_seek (SeekStart offset) => 0 ≤ offset < 2 ^ 63
  | Op_seek _ => True
  end.

Lemma seek_pos_range size pos s p :
  match size with Some len => 0 ≤ len < 2 ^ 63 | None => True end →
  op_ok (Op_seek s) → seek_pos size pos s = Ok p →
  0 ≤ p < 2 ^ 63 ∧ match size with Some len => p ≤ len | None => True end.
Proof.
  intros Hsize Hop. unfold seek_pos, as_i64. destruct s as [o|o|o]; simpl in Hop.
  - intros [= <-]. destruct size as [len|]; [|done]. case_match eqn:E; [lia|].
    apply Z.eqb_neq in E. lia.
  - destruct size as [len|]; [|done]. case_match eqn:E; [intros [= <-]; lia|]. apply Z.eqb_neq in E.
    rewrite (Int.swrap_id 64 len) by (unfold Int.in_i; lia).
    set (x := Int.swrap 64 (len + o)). pose proof (Z.rem_bound_abs x len ltac:(lia)).
    intros [= <-]. destruct (Z.ltb_spec (Z.rem x len) 0);
      rewrite Int.wrap_id by (unfold Int.in_u; lia); lia.
  - pose proof (Int.swrap_range 64 (Int.swrap 64 pos + o) ltac:(lia)) as Hi. unfold Int.in_i in Hi.
    set (x := Int.swrap 64 (_ + o)) in *. intros [= <-]. destruct size as [len|].
    + case_match eqn:E; [lia|]. apply Z.eqb_neq in E.
      rewrite (Int.swrap_id 64 len) by (unfold Int.in_i; lia).
      rewrite Int.wrap_id by (unfold Int.in_u; lia). lia.
    + rewrite Int.wrap_id by (unfold Int.in_u; lia). lia.
Qed.

Lemma rem_round x len : 0 < len → (if Z.rem x len <? 0 then Z.rem x len + len else Z.rem x len) = x mod len.
Proof.
  intros Hl. pose proof (Z.rem_bound_abs x len ltac:(lia)). pose proof (Z.quot_rem' x len) as Hq.
  destruct (Z.ltb_spec (Z.rem x len) 0).
  - apply (Z.mod_unique x len (Z.quot x len - 1)); lia.
  - apply (Z.mod_unique x len (Z.quot x len)); lia.
Qed.

(** [start_seek] computes the position of the specification. *)
Lemma seek_pos_moves size pos s :
  match size with Some len => 0 ≤ len < 2 ^ 63 | None => True end → 0 ≤ pos < 2 ^ 63 → op_ok (Op_seek s) →
  match seek_pos size pos s with
  | Ok p => ∃ t, named size pos s = Some t ∧ moved_to size s t p
  | Err _ => named size pos s = None
  | Panic => False
  end.
Proof.
  intros Hsize Hpos Hop. unfold seek_pos, as_i64. rewrite (Int.swrap_id 64 pos) by (unfold Int.in_i; lia).
  destruct s as [o|o|o]; cbn [named] in *; cbn in Hop.
  - exists o. split; [done|]. destruct size as [len|]; [|constructor; [lia|done]].
    destruct (Z.eqb_spec len 0) as [->|Hne]; [by apply moved_empty|]. destruct (Z.le_gt_cases len o).
    + rewrite Z.min_r by lia. apply moved_past; [done|lia|done].
    + rewrite Z.min_l by lia. apply moved_inside; [lia|]. intros ? [= <-]. lia.
  - destruct size as [len|]; [|done]. destruct (Z.eqb_spec len 0) as [->|Hne].
    { eexists. split; [done|]. by apply moved_empty. }
    rewrite (Int.swrap_id 64 len) by (unfold Int.in_i; lia). eexists. split; [done|]. rewrite rem_round by lia.
    pose proof (Z.mod_pos_bound (Int.swrap 64 (len + o)) len ltac:(lia)).
    rewrite Int.wrap_id by (unfold Int.in_u; lia). apply moved_round; [done|lia|done].
  - pose proof (Int.swrap_range 64 (pos + o) ltac:(lia)) as Hi. unfold Int.in_i in Hi.
    set (x := Int.swrap 64 (pos + o)) in *. exists x. split; [done|]. destruct size as [len|].
    + destruct (Z.eqb_spec len 0) as [->|Hne]; [by apply moved_empty|].
      rewrite (Int.swrap_id 64 len) by (unfold Int.in_i; lia). rewrite Int.wrap_id by (unfold Int.in_u; lia).
      destruct (Z.lt_ge_cases x 0); [rewrite Z.max_l, Z.min_l by lia; apply moved_before; [lia|naive_solver|done]|].
      rewrite Z.max_r by lia. destruct (Z.le_gt_cases len x).
      * rewrite Z.min_r by lia. apply moved_past; [done|lia|done].
      * rewrite Z.min_l by lia. apply moved_inside; [lia|]. intros ? [= <-]. lia.
    + rewrite Int.wrap_id by (unfold Int.in_u; lia). destruct (Z.lt_ge_cases x 0).
      * rewrite Z.max_l by lia. by apply moved_before.
      * rewrite Z.max_r by lia. by apply moved_inside.
Qed.

Section ops.
Context (load : loader) (n : Node) (content : bytes) (k : nat) (Hroot : file_root load n content k).

Lemma file_root_size :
  match node_size n with
  | Some len => len = Z.of_nat (length content) ∧ pbn_links (outer n) = []
  | None => pbn_links (outer n) ≠ []
  end.
Proof using Hroot.
  destruct Hroot as (links & Hlo & Hcase). pose proof (links_owned_file _ _ Hlo) as Hiff.
  unfold node_size. destruct (pbn_links (outer n)) as [|l ls]; [|done].
  destruct Hcase as [[_ ->]|[Hne _]]; [|naive_solver]. by destruct (data_data (inner n)).
Qed.

Lemma start_seek_ok s r :
  reader_at load content (3 * k + 2) r → rd_root r = File n → op_ok (Op_seek s) →
  ∃ x r', start_seek s r = (x, r') ∧ reader_at load content (3 * k + 2) r' ∧
    rd_root r' = File n ∧ rd_pos_max r' = rd_pos_max r ∧
    (∀ p, seek_pos (node_size n) (rd_pos r) s = Ok p → x = Ok tt ∧ rd_pos r' = p) ∧
    cursor_step content (limit content r) (node_size n) (rd_pos r) (Op_seek s)
      (Ready (_ ← x; Ok [])) (rd_pos r').
Proof using Hroot.
  intros Hr Ern Hop. pose proof Hr as (Hc & Hpos & Hmx & _). pose proof Hroot as (links & Hlo & _).
  pose proof file_root_size as Hsz. unfold start_seek. rewrite Ern, Hlo. simpl unixfs_size.
  assert (∀ links', links_owned (File n) = Ok links' → [links] = [links']) as Hll by congruence.
  assert (match node_size n with Some len => 0 ≤ len < 2 ^ 63 | None => True end) as Hlen.
  { revert Hsz. clear -Hc. destruct (node_size n); [lia|done]. }
  pose proof (seek_pos_moves (node_size n) (rd_pos r) s Hlen ltac:(lia) Hop) as Hmv.
  destruct (seek_pos (node_size n) (rd_pos r) s) as [p|e|] eqn:Es.
  - destruct Hmv as (t & Ht & Hmv). destruct (seek_pos_range _ _ _ _ Hlen Hop Es) as [Hp Hle].
    eexists _, _. split; [done|]. split; [|split_and!; [done|done|by intros ? [= <-]|by econstructor]].
    eapply outer_reader_at; simpl; try done. intros Hnil. revert Hsz Hle. destruct (node_size n); [lia|done].
  - eexists _, _. split; [done|]. split; [|split_and!; [done|done|done|by apply cursor_seek_err]].
    destruct (node_size n) eqn:En; [by destruct s; simpl in Es; repeat case_match|].
    eapply outer_reader_at; simpl; done.
  - done.
Qed.

Lemma run_op_ok fuel op r :
  reader_at load content (3 * k + 2) r → rd_root r = File n → op_ok op → (3 * k + 2 < fuel)%nat →
  ∃ x r', run_op fuel load op r = Some (x, r') ∧ reader_at load content (3 * k + 2) r' ∧
    rd_root r' = File n ∧ rd_pos_max r' = rd_pos_max r ∧
    cursor_step content (limit content r) (node_size n) (rd_pos r) op x (rd_pos r').
Proof using Hroot.
  intros Hr Ern Hop Hf. destruct op as [remaining|s]; simpl.
  - unfold poll_read. rewrite Ern.
    destruct (poll_read_file_at_ok load content _ fuel remaining n r Hop Hr Ern Hf)
      as (out & r' & -> & Hg & Hr'). destruct Hg as (Ho & Ep & Hle & Hlim & Hne & Em & Er).
    eexists _, r'. split; [done|]. split; [done|]. split; [congruence|]. split; [done|].
    rewrite Ep. rewrite Ep in Hlim. by constructor.
  - destruct (start_seek_ok s r Hr Ern Hop) as (x & r' & -> & Hr' & Er & Em & _ & Hs). eauto 7.
Qed.

Lemma run_ops_ok fuel ops r :
  reader_at load content (3 * k + 2) r → rd_root r = File n → Forall op_ok ops → (3 * k + 2 < fuel)%nat →
  ∃ xs r', run_ops fuel load ops r = Some (xs, r') ∧
    cursor_run content (limit content r) (node_size n) (rd_pos r) ops xs (rd_pos r').
Proof using Hroot.
  intros Hr Ern Hops Hf. revert r Hr Ern.
  induction Hops as [|op ops Hop Hops IH]; intros r Hr Ern; simpl.
  { eexists _, _. split; [done|constructor]. }
  destruct (run_op_ok fuel op r Hr Ern Hop Hf) as (x & r' & -> & Hr' & Er & Em & Hs). simpl.
  destruct (IH r' Hr' Er) as (xs & r'' & -> & Hrun). eexists _, _. split; [done|].
  econstructor; [done|]. unfold limit in *. by rewrite Em in Hrun.
Qed.
End ops.

(** C10: a reader over a file DAG behaves as a cursor over the content.  For every sequence of reads into buffers with room and seeks (from
    the start below 2^63), every read ends (in at most three turns per node) with the
    bytes that follow the position, at least one unless the end or [pos_max] is reached.
    A seek goes to the position it names when that is a byte of the content; when it is
    not, a seek from the start or the position stops at the first or the last byte, and a
    seek from the end goes round, so that seeking to the end of a file goes to its start.
    The length is known only for a file that is a single node: in a tree of nodes a seek
    from the end fails, and other seeks are not stopped by the end.  The file may be a
    single node or any tree of nodes whose block sizes are right, of less than 2^63
    bytes. *)
Theorem reader_refines_cursor load n content k pos_max ops fuel :
  file_root load n content k → Z.of_nat (length content) < 2 ^ 63 →
  match pos_max with Some x => 0 ≤ x < 2 ^ 63 | None => True end →
  Forall op_ok ops → (3 * k + 2 < fuel)%nat →
  ∃ r xs r', into_content_reader (File n) pos_max = Ok (Some r) ∧
    run_ops fuel load ops r = Some (xs, r') ∧
    node_size n = (if decide (pbn_links (outer n) = []) then Some (Z.of_nat (length content)) else None) ∧
    cursor_run content (limit content r) (node_size n) 0 ops xs (poll_complete r').
Proof.
  intros Hroot Hc Hmx Hops Hf.
  destruct (into_content_reader_at load n content k pos_max Hroot Hc Hmx)
    as (r & Hnew & Hr & Hp & _ & Ern).
  destruct (run_ops_ok load n content k Hroot fuel ops r Hr Ern Hops Hf) as (xs & r' & Hrun & Hcur).
  exists r, xs, r'. rewrite Hp in Hcur. split_and!; [done..| |done]. pose proof (file_root_size load n content k Hroot) as Hsz.
  destruct (node_size n); [destruct Hsz as [-> ->]; by rewrite decide_True|by rewrite decide_False].
Qed.

(** Reading without seeking goes through the content from the start. *)
Lemma cursor_reads content lim size ks pos xs pos' :
  0 ≤ pos → pos ≤ lim ≤ Z.of_nat (length content) →
  cursor_run content lim size pos (Op_read <$> ks) xs pos' →
  ∃ outs, xs = (Ready ∘ Ok) <$> outs ∧ pos ≤ pos' ≤ lim ∧
    mjoin outs = take (Z.to_nat (pos' - pos)) (drop (Z.to_nat pos) content) ∧
    (lim - pos ≤ Z.of_nat (length ks) → pos' = lim).
Proof.
  intros Hp Hlim. remember (Op_read <$> ks) as ops eqn:E. intros Hrun. revert ks E Hp Hlim.
  induction Hrun as [pos|pos op x pos1 ops xs pos2 Hs Hrun IH]; intros [|k0 ks] E Hp Hlim; try done.
  { exists []. rewrite Z.sub_diag. simpl in *. split_and!; try done; lia. }
  injection E as -> ->. inversion Hs as [? ? out Ho Hle Hend Hne| |]; subst.
  assert (pos + Z.of_nat (length out) ≤ lim) as Hend'.
  { destruct (decide (out = [])) as [->|]; [simpl; lia|auto]. }
  destruct (IH ks eq_refl) as (outs & -> & Hpp & Hj & Hfin); [lia|lia|].
  exists (out :: outs). split; [done|]. split; [lia|]. split.
  - rewrite mjoin_cons, Hj. rewrite Ho at 1.
    replace (Z.to_nat (pos2 - pos)) with (length out + Z.to_nat (pos2 - (pos + Z.of_nat (length out))))%nat by lia.
    rewrite <-take_take_drop, drop_drop. do 3 f_equal. lia.
  - intros Hk. apply Hfin. simpl in Hk. destruct (decide (pos < lim)) as [Hlt|]; [|lia].
    assert (0 < length out)%nat by (destruct out; [by destruct (Hne Hlt)|simpl; lia]). lia.
Qed.

(** ** Reading a whole file *)

(** Read with buffers of the given sizes, one after the other. *)
Definition read_all (fuel : nat) (load : loader) (u : UnixfsNode) (ks : list Z)
    : option (list (poll (res string bytes))) :=
  match into_content_reader u None with
  | Ok (Some r) => fst <$> run_ops fuel load (Op_read <$> ks) r
  | _ => None
  end.

(** The data of one block, read within its limit *)
Lemma slice_read_ok d k r :
  Z.of_nat (length d) < 2 ^ 63 → 0 ≤ rd_pos r ≤ Z.of_nat (length d) → 0 < k →
  match rd_pos_max r with Some x => rd_pos r ≤ x < 2 ^ 63 | None => True end →
  ∃ out r', read_slice r d (rd_pos r) k = (Ready (Ok out), r') ∧ good_read d k r out r' ∧ rd_pos r' ≤ limit d r.
Proof.
  intros Hl Hp Hk Hmx. unfold read_slice. rewrite slice_from_ok by lia.
  set (out := read_data_to_buf (rd_pos r) (rd_pos_max r) (drop (Z.to_nat (rd_pos r)) d) k).
  exists out, (advance out r). split; [done|]. destruct (decide (rd_pos r < limit d r)) as [Hlt|Hge].
  - assert (rd_pos r < Z.of_nat (length d)) by (unfold limit in Hlt; destruct (rd_pos_max r); lia).
    destruct (read_data_spec d r (drop (Z.to_nat (rd_pos r)) d) [] k) as [Hg _]; try done; [lia| |by rewrite app_nil_r| |].
    { unfold limit in Hlt. destruct (rd_pos_max r); [lia|done]. }
    { intros E%(f_equal length). rewrite length_drop in E. simpl in E. lia. }
    fold out in Hg. clearbody out. split; [done|]. destruct Hg as (_ & _ & _ & Hlim & Hne & _). by apply Hlim, Hne.
  - assert (out = []) as ->.
    { unfold out, read_data_to_buf. unfold limit in Hge. destruct (rd_pos_max r) as [x|].
      - unfold Int.usize_sub. rewrite Int.wrap_id by (unfold Int.in_u; lia).
        destruct (decide (x = rd_pos r)) as [->|]; [by rewrite Z.sub_diag, !Z.min_l by lia|].
        rewrite drop_ge by lia. apply take_nil.
      - rewrite drop_ge by lia. apply take_nil. }
    assert (rd_pos (advance [] r) = rd_pos r) as E.
    { simpl. unfold Int.usize_add. rewrite Int.wrap_id by (unfold Int.in_u; lia). lia. }
    assert (rd_pos r ≤ limit d r) by (unfold limit; destruct (rd_pos_max r); lia).
    split; [|lia]. apply good_read_nil; try done. lia.
Qed.

(** A file that is one raw block *)
Lemma raw_read_ok fuel load d k r :
  rd_root r = Raw d → Z.of_nat (length d) < 2 ^ 63 → 0 ≤ rd_pos r ≤ Z.of_nat (length d) → 0 < k →
  match rd_pos_max r with Some x => rd_pos r ≤ x < 2 ^ 63 | None => True end →
  ∃ out r', poll_read fuel load k r = Some (Ready (Ok out), r') ∧ good_read d k r out r' ∧
    rd_pos r' ≤ limit d r.
Proof.
  intros Hroot Hl Hp Hk Hmx. destruct (slice_read_ok d k r Hl Hp Hk Hmx) as (out & r' & E & Hg).
  exists out, r'. unfold poll_read. by rewrite Hroot, E.
Qed.

Lemma good_read_cursor content k r out r' size : good_read content k r out r' →
  cursor_step content (limit content r) size (rd_pos r) (Op_read k) (Ready (Ok out)) (rd_pos r').
Proof. intros (Ho & Ep & Hlen & Hlim & Hne & _). rewrite Ep in Hlim |- *. by constructor. Qed.

Lemma raw_run_ops fuel load d ks r :
  rd_root r = Raw d → rd_pos_max r = None → Z.of_nat (length d) < 2 ^ 63 →
  0 ≤ rd_pos r ≤ Z.of_nat (length d) → Forall (λ x, 0 < x) ks →
  ∃ xs r', run_ops fuel load (Op_read <$> ks) r = Some (xs, r') ∧
    cursor_run d (Z.of_nat (length d)) (Some (Z.of_nat (length d))) (rd_pos r) (Op_read <$> ks) xs (rd_pos r').
Proof.
  intros Hroot Hmx Hl Hp Hks. revert r Hroot Hmx Hp.
  induction Hks as [|x ks Hx Hks IH]; intros r Hroot Hmx Hp; cbn [fmap list_fmap run_ops].
  { eexists _, _. split; [done|constructor]. }
  destruct (raw_read_ok fuel load d x r) as (out & r1 & Hread & Hg & Hle); try done; [by rewrite Hmx|].
  cbn [run_op]. rewrite Hread. cbn [mbind option_bind].
  pose proof Hg as (_ & Ep & _ & _ & _ & Em & Er). pose proof (good_read_cursor _ _ _ _ _ (Some (Z.of_nat (length d))) Hg) as Hs.
  unfold limit in Hle, Hs. rewrite Hmx in Hle, Hs.
  destruct (IH r1) as (xs & r' & Hrun & Hcur); [congruence|congruence|lia|].
  rewrite Hrun. eexists _, _. split; [done|]. by econstructor.
Qed.

Lemma read_all_spec load k c content fuel ks :
  den load k c content → Z.of_nat (length content) < 2 ^ 63 → Forall (λ x, 0 < x) ks →
  Z.of_nat (length content) ≤ Z.of_nat (length ks) → (3 * k + 2 < fuel)%nat →
  ∃ u outs, poll_load load c = Ready (Ok u) ∧
    read_all fuel load u ks = Some ((Ready ∘ Ok) <$> outs) ∧ mjoin outs = content.
Proof.
  intros Hd Hc Hks Hlen Hf.
  assert (∀ u r, into_content_reader u None = Ok (Some r) → rd_pos r = 0 →
    (∃ xs r' size, run_ops fuel load (Op_read <$> ks) r = Some (xs, r') ∧
      cursor_run content (Z.of_nat (length content)) size (rd_pos r) (Op_read <$> ks) xs (rd_pos r')) →
    ∃ outs, read_all fuel load u ks = Some ((Ready ∘ Ok) <$> outs) ∧ mjoin outs = content) as Hmain.
  { intros u r Hnew Hp (xs & r' & size & Hrun & Hcur). unfold read_all. rewrite Hnew, Hrun. rewrite Hp in Hcur.
    apply cursor_reads in Hcur as (outs & -> & Hpp & Hj & Hfin); [|lia|lia].
    exists outs. split; [done|]. rewrite Hj, Hfin by lia. simpl. apply take_ge. lia. }
  assert (∀ n k', (k' ≤ k)%nat → file_root load n content k' →
    ∃ outs, read_all fuel load (File n) ks = Some ((Ready ∘ Ok) <$> outs) ∧ mjoin outs = content) as Hfile.
  { intros n k' Hk' Hroot.
    destruct (into_content_reader_at load n content k' None Hroot Hc I) as (r & Hnew & Hr & Hp & Hm & Ern).
    eapply Hmain; [done|done|].
    destruct (run_ops_ok load n content k' Hroot fuel (Op_read <$> ks) r Hr Ern) as (xs & r' & Hrun & Hcur);
      [by apply Forall_fmap|lia|]. unfold limit in Hcur. rewrite Hm in Hcur. eauto. }
  inversion Hd as [c' d' Hl|c' n Hl Hnl|k' c' n links d' Hl Hlo Hne Hdn Hds]; subst.
  - exists (Raw content). set (r := {| rd_root := Raw content; rd_pos := 0; rd_pos_max := None;
      rd_node := Outer; rd_links := [[]] |}).
    destruct (Hmain (Raw content) r) as (outs & Ho & Hj); [done|done| |by eauto].
    destruct (raw_run_ops fuel load content ks r) as (xs & r' & Hrun & Hcur); simpl; try done; try lia. eauto.
  - destruct (Hfile n 0%nat) as (outs & Ho & Hj); [lia| |by eauto].
    exists []. split; [|by left]. unfold links_owned, unixfs_links, pb_links. by rewrite Hnl.
  - destruct (Hfile n k') as (outs & Ho & Hj); [lia| |by eauto]. exists links. split; [done|]. by right.
Qed.
End reader_facts.
