(* ===== verification/BalancedTreeFacts.v ===== *)
(** * Correctness of the balanced tree builder

    The blocks the builder yields form a file DAG whose root is the last block:
    its content is the concatenation of the chunks, all leaves are at the same
    depth and no node has more than [degree] links. *)

From stdpp Require Import prelude strings list gmap.
From Stdlib Require Import ZArith Lia.
From S2P Require Import Prelude Cids Bits Unixfs Chunker BalancedTree Reader ReaderFacts.
Local Open Scope Z_scope.

Lemma sum_u64_id l :
  Forall (λ z, 0 ≤ z) l → sum_z l < 2 ^ 64 → sum_u64 l = sum_z l.
Proof.
  intros Hl Hs. unfold sum_u64. assert (∀ a, 0 ≤ a → a + sum_z l < 2 ^ 64 →
    foldl (λ a b, Int.wrap 64 (a + b)) a l = a + sum_z l) as Hf.
  { clear Hs. induction Hl as [|x l Hx Hl IH]; intros a Ha Hs; simpl in *; [lia|].
    pose proof (sum_z_nonneg l Hl). rewrite Int.wrap_id by (unfold Int.in_u; lia). rewrite IH; lia. }
  rewrite Hf by lia. lia.
Qed.

Section tree_facts.
Context `{UnixfsProtoLaws}.

(** The loader serves these blocks. *)
Definition serves (load : loader) (blocks : list Block) : Prop :=
  ∀ b, b ∈ blocks → load (blk_cid b) = Ready (Ok (blk_data b)).

Definition link_of (e : entry) : Link :=
  {| link_cid := e.1; link_name := None; link_tsize := Some (encoded_len e.2) |}.

(** Links under construction, with the content below them. *)
Definition entries_den (load : loader) (k : nat) (es : list entry) (d : bytes) : Prop :=
  dens load k (link_of <$> es) ((raw_data_len ∘ snd) <$> es) d.

Lemma link_from_pb_link_of e : link_from_pb (pb_link_of e) = Ok (link_of e).
Proof. unfold link_from_pb. simpl. by rewrite cid_read_bytes_roundtrip. Qed.

Lemma collect_links es : collect (link_from_pb <$> (pb_link_of <$> es)) = Ok (link_of <$> es).
Proof.
  induction es as [|e es IH]; [done|]. rewrite !fmap_cons. cbn [collect].
  rewrite link_from_pb_link_of. cbn [mbind res_bind]. by rewrite IH.
Qed.

Lemma poll_load_leaf load d b :
  unixfs_encode (Raw d) = Ok b → serves load [b] → poll_load load (blk_cid b) = Ready (Ok (Raw d)).
Proof.
  unfold unixfs_encode. simpl. destruct (_ <=? _); simpl; [|done]. intros [= <-] Hs. unfold poll_load.
  rewrite (Hs _ (list_elem_of_here _ _)). simpl. unfold unixfs_decode.
  by rewrite cid_new_v1_codec.
Qed.

(** The node of a stem. *)
Definition stem_node (es : list entry) : Node :=
  let i := file_data ((raw_data_len ∘ snd) <$> es) in
  {| outer := {| pbn_links := pb_link_of <$> es; pbn_data := Some (data_encode i) |}; inner := i |}.

(** Encoding a stem fails only if it is too large. *)
Lemma stem_encode es :
  TreeNode_encode (Stem es) = Err "node is too large"%string ∨
  ∃ b info, TreeNode_encode (Stem es) = Ok (b, info) ∧
    blk_cid b = cid_new_v1 Codec_DagPb (code_digest Sha2_256 (blk_data b)) ∧
    blk_data b = pbnode_encode (outer (stem_node es)) ∧
    blk_links b = es.*1 ∧
    raw_data_len info = sum_u64 ((raw_data_len ∘ snd) <$> es).
Proof.
  unfold TreeNode_encode, create_unixfs_node_from_links, encode_unixfs_pb.
  match goal with |- context [ensure ?b _] => destruct b end; simpl; [|by left].
  unfold unixfs_encode, node_links, node_typ, pb_links. simpl. rewrite collect_links. simpl.
  match goal with |- context [ensure ?b _] => destruct b end; simpl; [|by left]. right. eexists _, _. split; [done|].
  split_and!; try done. cbn [blk_links]. rewrite <-list_fmap_compose. by apply list_fmap_ext.
Qed.

Lemma poll_load_stem load es b info :
  TreeNode_encode (Stem es) = Ok (b, info) → serves load [b] →
  poll_load load (blk_cid b) = Ready (Ok (File (stem_node es))).
Proof.
  intros He Hs. destruct (stem_encode es) as [E|(b' & info' & E & Hc & Hd & _)];
    rewrite He in E; [done|]. injection E as <- <-.
  unfold poll_load. rewrite (Hs _ (list_elem_of_here _ _)). simpl. unfold unixfs_decode.
  rewrite Hc, cid_new_v1_codec by (unfold Int.in_u, Codec_DagPb; lia). simpl.
  rewrite Hd, pbnode_roundtrip. simpl. by rewrite data_roundtrip.
Qed.

Lemma stem_links_owned es : links_owned (File (stem_node es)) = Ok (link_of <$> es).
Proof. apply collect_links. Qed.

(** A stem has the content of its links. *)
Lemma stem_den load k es d b info :
  TreeNode_encode (Stem es) = Ok (b, info) → serves load [b] → entries_den load k es d →
  Z.of_nat (length d) < 2 ^ 64 →
  den load (S k) (blk_cid b) d ∧ raw_data_len info = Z.of_nat (length d).
Proof.
  intros He Hs Hes H64. pose proof (poll_load_stem load es b info He Hs) as Hl. split.
  - destruct (decide (es = [])) as [->|Hne].
    + inversion Hes; subst. by apply (den_leaf load (blk_cid b) (stem_node [])).
    + eapply den_stem; [done|apply stem_links_owned| |done|exact Hes].
      by destruct es.
  - destruct (stem_encode es) as [E|(b' & info' & E & _ & _ & _ & Hr)]; rewrite He in E; [done|].
    injection E as <- <-. rewrite Hr. destruct (dens_sizes _ _ _ _ _ Hes) as (Hss & Hsum & _).
    rewrite sum_u64_id by (done || lia). done.
Qed.

Lemma dens_app_inv load k l1 l2 s1 s2 d :
  dens load k (l1 ++ l2) (s1 ++ s2) d → length l1 = length s1 →
  ∃ k1 k2 d1 d2, k = (k1 + k2)%nat ∧ d = d1 ++ d2 ∧ dens load k1 l1 s1 d1 ∧ dens load k2 l2 s2 d2.
Proof.
  revert k s1 d. induction l1 as [|l l1 IH]; intros k [|s s1] d Hd Hlen; try done.
  { exists 0%nat, k, [], d. split_and!; try done. constructor. }
  simpl in Hd. inversion Hd as [|ka kb l' ls ss da db Ha Hb]; subst.
  destruct (IH kb s1 db) as (k1 & k2 & d1 & d2 & -> & -> & Hd1 & Hd2); [done|simpl in Hlen; lia|].
  exists (ka + k1)%nat, k2, (da ++ d1), d2. rewrite <-app_assoc. split_and!; [lia|done|by constructor|done].
Qed.

Lemma entries_den_app load k es1 es2 d :
  entries_den load k (es1 ++ es2) d ↔
  ∃ k1 k2 d1 d2, k = (k1 + k2)%nat ∧ d = d1 ++ d2 ∧
    entries_den load k1 es1 d1 ∧ entries_den load k2 es2 d2.
Proof.
  unfold entries_den. rewrite !fmap_app. split.
  - intros Hd. apply dens_app_inv in Hd; [done|]. by rewrite !length_fmap.
  - intros (k1 & k2 & d1 & d2 & -> & -> & Hd1 & Hd2). by apply dens_app.
Qed.

Lemma entries_den_one load k e d :
  den load k e.1 d → raw_data_len e.2 = Z.of_nat (length d) → entries_den load k [e] d.
Proof.
  intros Hd Hr. unfold entries_den. simpl. rewrite Hr.
  rewrite <-(app_nil_r d) at 2. rewrite <-(Nat.add_0_r k). constructor; [done|constructor].
Qed.

(** Replacing the last links by a stem keeps the content. *)
Lemma replace_by_stem load k up es d b info :
  entries_den load k (up ++ es) d → TreeNode_encode (Stem es) = Ok (b, info) → serves load [b] →
  Z.of_nat (length d) < 2 ^ 64 →
  entries_den load (S k) (up ++ [(blk_cid b, info)]) d.
Proof.
  intros (k1 & k2 & d1 & d2 & -> & -> & Hd1 & Hd2)%entries_den_app He Hs H64.
  rewrite length_app in H64. destruct (stem_den load k2 es d2 b info He Hs Hd2) as [Hden Hraw]; [lia|].
  apply entries_den_app. exists k1, (S k2), d1, d2. split_and!; [lia|done|done|].
  by apply entries_den_one.
Qed.

(** ** Height and degree *)

(** All leaves are raw blocks at depth [h] and no node has more than [degree]
    links. *)
Inductive hgt (load : loader) (degree : nat) : nat → Cid → Prop :=
  | hgt_leaf c d :
      poll_load load c = Ready (Ok (Raw d)) → hgt load degree 0 c
  | hgt_stem h c n links :
      poll_load load c = Ready (Ok (File n)) → links_owned (File n) = Ok links →
      (length links ≤ degree)%nat → Forall (λ l, hgt load degree h (link_cid l)) links →
      hgt load degree (S h) c.

Lemma stem_hgt load degree h es b info :
  TreeNode_encode (Stem es) = Ok (b, info) → serves load [b] → (length es ≤ degree)%nat →
  Forall (λ e, hgt load degree h e.1) es → hgt load degree (S h) (blk_cid b).
Proof.
  intros He Hs Hlen Hes. eapply hgt_stem; [by eapply poll_load_stem|apply stem_links_owned| |].
  - by rewrite length_fmap.
  - by apply Forall_fmap.
Qed.

(** The links of the [j]-th layer point to nodes of height [i + j]. *)
Fixpoint layers_hgt (load : loader) (degree i : nat) (tree : layers) : Prop :=
  match tree with
  | [] => True
  | l :: rest => Forall (λ e, hgt load degree i e.1) l ∧ layers_hgt load degree (S i) rest
  end.

(** ** The loops *)

Lemma serves_app load l1 l2 : serves load (l1 ++ l2) ↔ serves load l1 ∧ serves load l2.
Proof. unfold serves. setoid_rewrite elem_of_app. naive_solver. Qed.

Lemma try_Ok {Y E A} (r : res E A) (out : list Y) a : try_ r = (out, Ok a) → out = [] ∧ r = Ok a.
Proof. unfold try_. by intros [= -> ->]. Qed.

Lemma yield_stem_Ok es out e :
  yield_stem es = (out, Ok e) →
  ∃ b info, TreeNode_encode (Stem es) = Ok (b, info) ∧ out = [b] ∧ e = (blk_cid b, info).
Proof.
  unfold yield_stem. intros ([b info] & o1 & o2 & [-> Ht]%try_Ok & Hk & ->)%gen_bind_Ok.
  exists b, info. unfold yield, mbind, gen_bind, mret, gen_ret in Hk. simpl in Hk.
  injection Hk as <- <-. done.
Qed.

Section loops.
Context (load : loader) (degree : nat) (Hdeg : (2 ≤ degree)%nat).

Lemma overflow_ok i add tree out tree' k d :
  overflow degree add tree = (out, Ok tree') → serves load out →
  entries_den load k (mjoin (reverse tree) ++ add) d → Z.of_nat (length d) < 2 ^ 64 →
  layers_hgt load degree i tree → Forall (λ e, hgt load degree i e.1) add →
  (length (layer0 tree ++ add) ≤ degree)%nat → (length add ≤ 1)%nat →
  Forall (λ l, (length l < degree)%nat) (tail tree) →
  (∃ k', entries_den load k' (mjoin (reverse tree')) d) ∧ layers_hgt load degree i tree' ∧
  Forall (λ l, (length l < degree)%nat) tree' ∧ (tree ≠ [] → tree' ≠ []).
Proof.
  revert i add out tree' k. induction tree as [|layer rest IH];
    intros i add out tree' k Ho Hs Hd H64 Hh Hadd Hlen Hadd1 Hrest; simpl in Ho.
  { injection Ho as <- <-. destruct add as [|a add]; simpl in *.
    - split_and!; [by eauto|done|done|done].
    - split; [|split; [by split|split; [|done]]].
      + exists k. change (entries_den load k ((a :: add) ++ []) d). by rewrite app_nil_r.
      + constructor; [simpl in *; lia|done]. }
  cbn [layer0 head default tail] in Hlen, Hrest. destruct Hh as [Hl Hh].
  rewrite reverse_cons, mjoin_app, mjoin_cons, app_nil_r, <-app_assoc in Hd.
  destruct (Nat.ltb_spec (length (layer ++ add)) degree) as [Hlt|Hge].
  - injection Ho as <- <-. split; [|split; [split; [|done]|split; [|done]]].
    + exists k. by rewrite reverse_cons, mjoin_app, mjoin_cons, app_nil_r.
    + by apply Forall_app.
    + by constructor.
  - apply gen_bind_Ok in Ho as (e & o1 & o2 & (b & info & He & -> & ->)%yield_stem_Ok & Ho & ->).
    apply gen_bind_Ok in Ho as (rest' & o3 & o4 & Ho & Hret & ->). injection Hret as <- <-.
    rewrite app_nil_r in *. apply serves_app in Hs as [Hs1 Hs2].
    pose proof (replace_by_stem load k _ _ _ _ _ Hd He Hs1 H64) as Hd'.
    assert (hgt load degree (S i) (blk_cid b)) as Hb.
    { eapply stem_hgt; [done|done|done|]. by apply Forall_app. }
    destruct (IH (S i) [(blk_cid b, info)] o3 rest' (S k)) as ((k' & Hk') & Hh' & Hlen' & _); try done.
    + by constructor.
    + destruct rest as [|l1 rest]; simpl; [lia|]. apply Forall_cons in Hrest as [Hl1 _].
      rewrite length_app. change (layer0 (l1 :: rest)) with l1. simpl in Hl1 |- *. lia.
    + by destruct rest; [|inversion Hrest].
    + split; [|split; [by split|split; [|done]]].
      * exists k'. by rewrite reverse_cons, mjoin_app, mjoin_cons, !app_nil_r.
      * constructor; [simpl; lia|done].
Qed.

(** The state between two chunks: the links denote the content so far, the
    lowest layer has at most [degree] links and the others fewer; the last block
    yielded is the leaf of the last link of the lowest layer. *)
Definition tree_inv (tree : layers) (d : bytes) : Prop :=
  (∃ k, entries_den load k (mjoin (reverse tree)) d) ∧ layers_hgt load degree 0 tree ∧
  tree ≠ [] ∧ (length (layer0 tree) ≤ degree)%nat ∧
  Forall (λ l, (length l < degree)%nat) (tail tree).

Lemma leaf_encode_Ok data b info :
  TreeNode_encode (Leaf data) = Ok (b, info) →
  unixfs_encode (Raw data) = Ok b ∧ raw_data_len info = Z.of_nat (length data).
Proof.
  unfold TreeNode_encode. destruct (unixfs_encode (Raw data)) as [b'| |]; try done.
  by intros [= <- <-].
Qed.

Lemma add_chunk_ok tree d data out tree' :
  add_chunk degree tree (Ok data) = (out, Ok tree') → serves load out → tree_inv tree d →
  Z.of_nat (length (d ++ data)) < 2 ^ 64 →
  tree_inv tree' (d ++ data) ∧
  ∃ b e, last out = Some b ∧ last (layer0 tree') = Some e ∧ e.1 = blk_cid b.
Proof.
  intros Ho Hs ((k & Hk) & Hh & Hne & Hl0 & Hup) H64. rewrite length_app in H64.
  apply gen_bind_Ok in Ho as (data' & o1 & o2 & [-> [= <-]]%try_Ok & Ho & ->).
  apply gen_bind_Ok in Ho as ([b info] & o3 & o4 & [-> Hb]%try_Ok & Ho & ->).
  apply gen_bind_Ok in Ho as (tree1 & o5 & o6 & Hov & Ho & ->).
  apply gen_bind_Ok in Ho as ([] & o7 & o8 & Hy & Hret & ->).
  injection Hy as <-. injection Hret as <- <-. rewrite !app_nil_l in *.
  apply serves_app in Hs as [Hs1 Hs2]. apply leaf_encode_Ok in Hb as [Hb Hraw].
  assert (((∃ k, entries_den load k (mjoin (reverse tree1)) d) ∧ layers_hgt load degree 0 tree1) ∧
    tree1 ≠ [] ∧ Forall (λ l, (length l < degree)%nat) tree1) as (((k1 & Hk1) & Hh1) & Hne1 & Hlen1).
  { destruct (Nat.eqb_spec (length (layer0 tree)) degree) as [E|E].
    - destruct (overflow_ok 0 [] tree o5 tree1 k d Hov) as (Hx & Hy & Hz & Hw); try done; simpl;
        rewrite ?app_nil_r; try done; [lia|lia|]. split_and!; auto.
    - injection Hov as <- <-. split_and!; try done; [by eauto|].
      destruct tree as [|l0 rest]; [done|]. constructor; [|done]. unfold layer0 in *. simpl in *. lia. }
  destruct tree1 as [|l0 rest]; [done|]. apply Forall_cons in Hlen1 as [Hl1 Hrest1]. destruct Hh1 as [Hh0 Hh1].
  assert (poll_load load (blk_cid b) = Ready (Ok (Raw data))) as Hleaf.
  { apply poll_load_leaf; [done|]. intros b' Hb'. apply Hs2. rewrite app_nil_r. done. }
  pose proof (den_raw load _ _ Hleaf) as Hden. pose proof (hgt_leaf load degree _ _ Hleaf) as Hhb.
  split.
  - split; [|split; [split|split; [done|split]]]; [| |done| |done].
    + exists (k1 + 1)%nat. cbn [push_front_layer].
      rewrite reverse_cons, mjoin_app, mjoin_cons, app_nil_r in Hk1 |- *. rewrite app_assoc.
      apply entries_den_app. exists k1, 1%nat, d, data. split_and!; try done. by apply entries_den_one.
    + apply Forall_app. split; [done|]. by constructor.
    + unfold layer0. simpl. rewrite length_app. simpl in *. lia.
  - exists b, (blk_cid b, info). rewrite app_nil_r. split_and!; [by rewrite last_snoc| |done].
    unfold layer0. simpl. by rewrite last_snoc.
Qed.

Lemma add_chunks_ok tree d chunks out tree' :
  add_chunks degree tree (Ok <$> chunks) = (out, Ok tree') → serves load out → tree_inv tree d →
  Z.of_nat (length (d ++ mjoin chunks)) < 2 ^ 64 →
  tree_inv tree' (d ++ mjoin chunks) ∧
  (chunks ≠ [] → ∃ b e, last out = Some b ∧ last (layer0 tree') = Some e ∧ e.1 = blk_cid b).
Proof.
  revert tree d out. induction chunks as [|c chunks IH]; intros tree d out Ho Hs Hinv H64.
  { injection Ho as <- <-. by rewrite app_nil_r. }
  rewrite fmap_cons in Ho. cbn [add_chunks] in Ho.
  apply gen_bind_Ok in Ho as (tree1 & o1 & o2 & Hc & Ho & ->). apply serves_app in Hs as [Hs1 Hs2].
  rewrite mjoin_cons, app_assoc in *.
  assert (Z.of_nat (length (d ++ c)) < 2 ^ 64) by (rewrite !length_app in *; lia).
  destruct (add_chunk_ok _ _ _ _ _ Hc Hs1 Hinv) as [Hinv1 Hlast]; [done|].
  destruct (IH tree1 (d ++ c) o2 Ho Hs2 Hinv1 H64) as [Hinv' Hlast']. split; [done|]. intros _.
  destruct chunks as [|c' chunks].
  - injection Ho as <- <-. by rewrite app_nil_r.
  - destruct (Hlast' ltac:(done)) as (b & e & Hb & He). exists b, e. split; [|done].
    rewrite last_app, Hb. done.
Qed.

Lemma clean_up_ok i add tree out k d :
  clean_up add tree = (out, Ok tt) → serves load out → tree ≠ [] →
  entries_den load k (mjoin (reverse tree) ++ add) d → Z.of_nat (length d) < 2 ^ 64 →
  layers_hgt load degree i tree → Forall (λ e, hgt load degree i e.1) add →
  (length (layer0 tree ++ add) ≤ degree)%nat → Forall (λ l, (length l < degree)%nat) (tail tree) →
  ∃ b k' h, last out = Some b ∧ den load k' (blk_cid b) d ∧ hgt load degree h (blk_cid b).
Proof.
  revert i add out k. induction tree as [|layer rest IH];
    intros i add out k Ho Hs Hne Hd H64 Hh Hadd Hlen Hrest; [done|].
  cbn [clean_up] in Ho. apply gen_bind_Ok in Ho as (e & o1 & o2 & (b & info & He & -> & ->)%yield_stem_Ok & Ho & ->).
  apply serves_app in Hs as [Hs1 Hs2]. destruct Hh as [Hl Hh].
  cbn [layer0 head default tail] in Hlen, Hrest.
  rewrite reverse_cons, mjoin_app, mjoin_cons, app_nil_r, <-app_assoc in Hd.
  assert (hgt load degree (S i) (blk_cid b)) as Hb.
  { eapply stem_hgt; [done|done|done|]. by apply Forall_app. }
  destruct rest as [|l1 rest].
  - injection Ho as <-. exists b, (S k), (S i). split; [done|]. split; [|done].
    by eapply stem_den in Hd as [Hd _].
  - pose proof (replace_by_stem load k _ _ _ _ _ Hd He Hs1 H64) as Hd'.
    apply Forall_cons in Hrest as [Hl1 Hrest].
    destruct (IH (S i) [(blk_cid b, info)] o2 (S k)) as (b' & k' & h & Hlast & Hb'); try done.
    + by constructor.
    + change (layer0 (l1 :: rest)) with l1. rewrite length_app. simpl in *. lia.
    + exists b', k', h. split; [|done]. rewrite last_app, Hlast. done.
Qed.

Lemma tree_inv_start : tree_inv [[]] [].
Proof.
  split; [exists 0%nat; apply dens_nil|]. split; [split; [by constructor|done]|].
  split_and!; [done|simpl; lia|by constructor].
Qed.

Lemma stream_balanced_tree_ok chunks blocks :
  stream_balanced_tree (Ok <$> chunks) degree = (blocks, Ok tt) → serves load blocks →
  Z.of_nat (length (mjoin chunks)) < 2 ^ 64 →
  ∃ root k h, last blocks = Some root ∧ den load k (blk_cid root) (mjoin chunks) ∧
    hgt load degree h (blk_cid root).
Proof.
  intros Ho Hs H64. unfold stream_balanced_tree in Ho.
  apply gen_bind_Ok in Ho as (tree & o1 & o2 & Hc & Ho & ->). apply serves_app in Hs as [Hs1 Hs2].
  destruct (add_chunks_ok _ _ _ _ _ Hc Hs1 tree_inv_start H64) as [Hinv Hlast].
  destruct Hinv as ((k & Hk) & Hh & Hne & Hl0 & Hup).
  destruct (_ && _) eqn:E.
  - apply andb_true_iff in E as [E1%Nat.eqb_eq E2%Nat.eqb_eq].
    destruct tree as [|[|e [|? ?]] [|? ?]]; try done.
    injection Ho as <-. rewrite app_nil_r.
    destruct (decide (chunks = [])) as [->|Hch]; [by injection Hc|].
    destruct (Hlast Hch) as (b & e' & Hb & He & Heb). injection He as ->.
    change (mjoin (reverse [[e']])) with [e'] in Hk.
    unfold entries_den in Hk. simpl in Hk. inversion Hk as [|k1 k2 l' ls ss d1 d2 Hd1 Hd2]; subst.
    inversion Hd2; subst. destruct Hh as [Hh _]. apply Forall_cons in Hh as [Hh _].
    rewrite ?app_nil_l, ?app_nil_r in *. simpl in Hd1. exists b, k1, 0%nat. rewrite <-Heb. done.
  - destruct (clean_up_ok 0 [] tree o2 k (mjoin chunks)) as (b & k' & h & Hb & Hd & Hhh);
      try done; rewrite ?app_nil_r; try done.
    exists b, k', h. rewrite last_app, Hb. done.
Qed.
End loops.

(** ** The builder fails only on nodes that are too large *)

Definition ok_or_large {A} (g : tree_gen A) : Prop :=
  match g.2 with Ok _ => True | Err e => e = "node is too large"%string | Panic => False end.

Lemma ok_or_large_bind {A B} (m : tree_gen A) (f : A → tree_gen B) :
  ok_or_large m → (∀ a, ok_or_large (f a)) → ok_or_large (m ≫= f).
Proof.
  unfold ok_or_large, mbind, gen_bind. destruct m as [o [a|e|]]; simpl; try done. intros _ Hf. apply Hf.
Qed.

Lemma yield_stem_large es : ok_or_large (yield_stem es).
Proof.
  unfold yield_stem. apply ok_or_large_bind; [|by intros []].
  destruct (stem_encode es) as [E|(b & info & E & _)]; unfold try_; by rewrite E.
Qed.

Lemma overflow_large degree add tree : ok_or_large (overflow degree add tree).
Proof.
  revert add. induction tree as [|l rest IH]; intros add; simpl; [done|]. case_match; [done|].
  apply ok_or_large_bind; [apply yield_stem_large|]. intros e.
  apply ok_or_large_bind; [apply IH|done].
Qed.

Lemma leaf_large data : ok_or_large (try_ (TreeNode_encode (Leaf data))).
Proof. unfold TreeNode_encode, unixfs_encode, ok_or_large. simpl. by destruct (_ <=? _). Qed.

Lemma add_chunks_large degree tree chunks : ok_or_large (add_chunks degree tree (Ok <$> chunks)).
Proof.
  revert tree. induction chunks as [|c chunks IH]; intros tree; [done|]. rewrite fmap_cons. cbn [add_chunks].
  apply ok_or_large_bind; [|apply IH]. apply ok_or_large_bind; [done|]. intros data.
  apply ok_or_large_bind; [apply leaf_large|]. intros [b info].
  apply ok_or_large_bind; [case_match; [apply overflow_large|done]|done].
Qed.

Lemma clean_up_large add tree : ok_or_large (clean_up add tree).
Proof.
  revert add. induction tree as [|l rest IH]; intros add; simpl; [done|].
  apply ok_or_large_bind; [apply yield_stem_large|]. intros e. apply IH.
Qed.

Lemma stream_balanced_tree_large chunks degree : ok_or_large (stream_balanced_tree (Ok <$> chunks) degree).
Proof.
  unfold stream_balanced_tree. apply ok_or_large_bind; [apply add_chunks_large|]. intros tree.
  case_match; [done|apply clean_up_large].
Qed.

Lemma stream_tree_degree degree chunks :
  1 < degree → stream_tree degree chunks = stream_balanced_tree chunks (Z.to_nat degree).
Proof.
  intros Hd. unfold stream_tree. rewrite (proj2 (Z.ltb_lt _ _)) by done.
  unfold try_, mbind, gen_bind. simpl. by destruct (stream_balanced_tree _ _).
Qed.

(** C14: from any sequence of chunks the balanced tree builder produces blocks or
    stops because a node is too large for a block.  With a loader that serves
    the blocks, the last block is the root of a file DAG whose content is the
    concatenation of the chunks, whose leaves are all at the same depth and
    whose nodes have at most [degree] links. *)
Theorem balanced_tree_correct chunks degree load :
  1 < degree → Z.of_nat (length (mjoin chunks)) < 2 ^ 64 →
  match stream_tree degree (Ok <$> chunks) with
  | (blocks, Ok _) => serves load blocks →
      ∃ root k h, last blocks = Some root ∧ den load k (blk_cid root) (mjoin chunks) ∧
        hgt load (Z.to_nat degree) h (blk_cid root)
  | (_, Err e) => e = "node is too large"%string
  | (_, Panic) => False
  end.
Proof.
  intros Hd H64. rewrite stream_tree_degree by done.
  pose proof (stream_balanced_tree_large chunks (Z.to_nat degree)) as Hl. unfold ok_or_large in Hl.
  destruct (stream_balanced_tree _ _) as [blocks [[]|e|]] eqn:E; [|done|done]. intros Hs.
  eapply stream_balanced_tree_ok; try done. lia.
Qed.
End tree_facts.
