(* ===== verification/Files.v ===== *)
(** * Writing and reading back a file

    Composes the chunkers, the balanced tree builder and the content reader:
    what is added can be read back. *)

From stdpp Require Import prelude strings list gmap.
From Stdlib Require Import ZArith Lia.
From S2P Require Import Prelude Cids Bits Unixfs Chunker ChunkerFacts Rabin RabinFacts.
From S2P Require Import BalancedTree Reader ReaderFacts BalancedTreeFacts.
Local Open Scope Z_scope.

(** ** The chunkers *)

Lemma oks_Ok {A} (l : list A) : oks (Ok <$> l) = l.
Proof. induction l as [|x l IH]; [done|]. rewrite fmap_cons, oks_cons. by rewrite IH. Qed.

Lemma errs_Ok {A} (l : list A) : errs (Ok <$> l) = [].
Proof. induction l as [|x l IH]; [done|]. by rewrite fmap_cons, errs_cons. Qed.

Lemma all_oks {A} (l : list (res string A)) : errs l = [] → Panic ∉ l → l = Ok <$> oks l.
Proof.
  induction l as [|[a|e|] l IH]; intros He Hp; [done| | |].
  - rewrite oks_cons, fmap_cons. f_equal. apply IH; [done|set_solver].
  - done.
  - set_solver.
Qed.

Lemma source_ok_Ok pieces : Forall (λ q : bytes, q ≠ []) pieces → source_ok (Ok <$> pieces).
Proof. intros Hp. unfold source_ok. by apply Forall_fmap. Qed.

(** Both chunkers turn an input without errors into chunks of it. *)
Lemma chunker_chunks_ok cfg c pieces :
  Chunker_from cfg = Ok c → Forall (λ q, q ≠ []) pieces → Forall byte_ok (mjoin pieces) →
  Z.of_nat (length (mjoin pieces)) < 2 ^ 63 →
  ∃ chunks, chunker_chunks c (Ok <$> pieces) = Some (Ok <$> chunks) ∧ mjoin chunks = mjoin pieces.
Proof.
  intros Hc Hne Hb H63. destruct cfg as [n|].
  - unfold Chunker_from, Fixed_new in Hc. destruct (Z.ltb_spec 0 n) as [Hn|]; [|done].
    simpl in Hc. injection Hc as <-. simpl.
    destruct (fixed_chunks_spec {| chunk_size := n |} (Ok <$> pieces)) as (out & Hout & Ho & He & Hp);
      [done|by apply source_ok_Ok|rewrite oks_Ok; lia|].
    rewrite oks_Ok in Ho. rewrite errs_Ok in He. exists (oks out). rewrite Hout.
    split; [f_equal; by apply all_oks|]. rewrite Ho. apply chunks_of_concat. simpl. lia.
  - destruct (Rabin_new_ok Config_default GO_IPFS_V0_PRESET go_ipfs_v0_ok) as (r & Hnew & Hr & _);
      [simpl; lia|simpl; lia|].
    unfold Chunker_from in Hc. rewrite Hnew in Hc. simpl in Hc. injection Hc as <-.
    exists (cdc r (mjoin pieces)). split; [|by apply cdc_concat].
    simpl. unfold rabin_chunks. rewrite rabin_loop_spec; try done.
    + by rewrite app_nil_r.
    + simpl. pose proof (size_facts r Hr). lia.
    + rewrite length_fmap. lia.
Qed.

(** ** The round trip *)

Section files.
Context `{UnixfsProtoLaws}.

(** C2: a file that is cut by any configured chunker, put into a balanced tree of
    any degree and served by a loader is read back byte for byte: the last
    block yielded is the root, and reads with any buffer sizes return the input
    in order.  How the source splits the input into reads does not matter. *)
Theorem file_write_read cfg c degree pieces items blocks load :
  Chunker_from cfg = Ok c → 1 < degree →
  Forall (λ q, q ≠ []) pieces → Forall byte_ok (mjoin pieces) →
  Z.of_nat (length (mjoin pieces)) < 2 ^ 63 →
  chunker_chunks c (Ok <$> pieces) = Some items →
  stream_tree degree items = (blocks, Ok tt) → serves load blocks →
  ∃ root u turns, last blocks = Some root ∧ poll_load load (blk_cid root) = Ready (Ok u) ∧
    ∀ ks fuel, Forall (λ x, 0 < x) ks → Z.of_nat (length (mjoin pieces)) ≤ Z.of_nat (length ks) →
      (turns < fuel)%nat →
      ∃ outs, read_all fuel load u ks = Some ((Ready ∘ Ok) <$> outs) ∧ mjoin outs = mjoin pieces.
Proof.
  intros Hc Hdeg Hne Hb H63 Hitems Htree Hs.
  destruct (chunker_chunks_ok cfg c pieces Hc Hne Hb H63) as (chunks & Hch & Hj).
  rewrite Hitems in Hch. injection Hch as ->. rewrite stream_tree_degree in Htree by done.
  destruct (stream_balanced_tree_ok load (Z.to_nat degree) ltac:(lia) chunks blocks Htree Hs)
    as (root & k & h & Hroot & Hden & _); [rewrite Hj; lia|].
  rewrite Hj in Hden. destruct (read_all_spec load k (blk_cid root) (mjoin pieces) (3 * k + 3)
    (replicate (length (mjoin pieces)) 1)) as (u & _ & Hu & _);
    [done|done|apply Forall_replicate; lia|by rewrite length_replicate|lia|].
  exists root, u, (3 * k + 2)%nat. split; [done|]. split; [done|]. intros ks fuel Hks Hlen Hf.
  destruct (read_all_spec load k (blk_cid root) (mjoin pieces) fuel ks) as (u' & outs & Hu' & Ho & Hjo);
    try done. rewrite Hu in Hu'. injection Hu' as <-. eauto.
Qed.
End files.

(** ** Examples *)

Module FilesWitness.
Export UnixfsToy.

(** A CID of the example instance holds its data. *)
Definition load : @loader ids := λ c, Ready (Ok (snd (c : Z * list Z))).

Lemma serves_by (blocks : list Block) :
  Forall (λ b, load (blk_cid b) = Ready (Ok (blk_data b))) blocks → serves load blocks.
Proof. rewrite Forall_forall. auto. Qed.

Definition pieces : list bytes := [[1; 2; 3]; [4; 5]].
Definition items : list (res string bytes) := [Ok [1; 2]; Ok [3; 4]; Ok [5]].
Definition blocks : list Block := (stream_tree 3 items).1.

Lemma file_write_read_witness :
  ∃ root u turns outs, last blocks = Some root ∧ poll_load load (blk_cid root) = Ready (Ok u) ∧
    read_all (S turns) load u [2; 3; 1; 1; 1; 4] = Some ((Ready ∘ Ok) <$> outs) ∧
    mjoin outs = [1; 2; 3; 4; 5].
Proof.
  destruct (file_write_read (Config_Fixed 2) (Chunker_Fixed {| chunk_size := 2 |}) 3 pieces items blocks load)
    as (root & u & turns & Hroot & Hu & Hread).
  - reflexivity.
  - lia.
  - repeat constructor; done.
  - repeat constructor; simpl; lia.
  - simpl. lia.
  - reflexivity.
  - vm_compute. reflexivity.
  - apply serves_by. repeat (constructor; [vm_compute; reflexivity|]). constructor.
  - destruct (Hread [2; 3; 1; 1; 1; 4] (S turns)) as (outs & Ho & Hj).
    + repeat constructor; lia.
    + simpl. lia.
    + lia.
    + exists root, u, turns, outs. auto.
Defined.

Lemma balanced_tree_correct_witness :
  ∃ root k h, last blocks = Some root ∧ den load k (blk_cid root) [1; 2; 3; 4; 5] ∧
    hgt load 3 h (blk_cid root).
Proof.
  pose proof (balanced_tree_correct [[1; 2]; [3; 4]; [5]] 3 load) as Ht.
  assert (stream_tree 3 (Ok <$> [[1; 2]; [3; 4]; [5]]) = (blocks, Ok tt)) as E by (vm_compute; reflexivity).
  rewrite E in Ht. apply Ht.
  - lia.
  - simpl. lia.
  - apply serves_by. repeat (constructor; [vm_compute; reflexivity|]). constructor.
Defined.

(** A root with three leaves. *)
Definition leaf (d : bytes) : @Cid ids := (Codec_Raw, d).
Definition root_over (data : option bytes) (sizes : list Z) (cids : list (@Cid ids)) : Node := {|
  outer := {| pbn_links := (λ c, {| pbl_hash := Some (cid_to_bytes c); pbl_name := None; pbl_tsize := None |}) <$> cids;
              pbn_data := None |};
  inner := {| data_type := 2; data_data := data; data_filesize := None; data_blocksizes := sizes;
              data_hash_type := None; data_fanout := None |}
|}.
Definition three : Node := root_over None [2; 2; 1] [leaf [1; 2]; leaf [3; 4]; leaf [5]].

Lemma three_root : file_root load three [1; 2; 3; 4; 5] 3.
Proof.
  eexists. split; [vm_compute; reflexivity|]. right. split; [done|]. split; [done|].
  apply (dens_cons load 1 2 _ _ _ [1; 2] [3; 4; 5]); [by apply den_raw|].
  apply (dens_cons load 1 1 _ _ _ [3; 4] [5]); [by apply den_raw|].
  apply (dens_cons load 1 0 _ _ _ [5] []); [by apply den_raw|constructor].
Qed.

Lemma reader_refines_cursor_witness :
  ∃ r xs r', into_content_reader (File three) None = Ok (Some r) ∧
    run_ops 100 load [Op_read 1; Op_seek (SeekStart 3); Op_read 9; Op_read 9] r = Some (xs, r') ∧
    cursor_run [1; 2; 3; 4; 5] 5 None 0
      [Op_read 1; Op_seek (SeekStart 3); Op_read 9; Op_read 9] xs (poll_complete r').
Proof.
  destruct (reader_refines_cursor load three [1; 2; 3; 4; 5] 3 None
    [Op_read 1; Op_seek (SeekStart 3); Op_read 9; Op_read 9] 100) as (r & xs & r' & Hr & Hx & _ & Hc).
  - exact three_root.
  - simpl. lia.
  - exact I.
  - repeat constructor; simpl; lia.
  - lia.
  - exists r, xs, r'. split; [exact Hr|]. split; [exact Hx|].
    vm_compute in Hr. injection Hr as <-. exact Hc.
Defined.

(** ** Divergences *)

(** A reader and the results of two polls. *)
Definition open (n : Node) : Reader :=
  match into_content_reader (File n) None with
  | Ok (Some r) => r
  | _ => {| rd_root := File n; rd_pos := 0; rd_pos_max := None; rd_node := Outer; rd_links := [] |}
  end.
Definition two_polls (load1 load2 : @loader ids) (n : Node) :=
  '(x, r) ← poll_read 100 load1 10 (open n);
  '(y, r) ← poll_read 100 load2 10 r;
  Some (x, y, rd_pos r).

Definition failing : @loader ids := λ _, Ready (Err "timeout"%string).

(** After a load has failed the reader asks for the next link, but the link that
    failed has left the stack: reading on returns the second block as if it were
    the first. *)
Theorem load_error_skips_block :
  two_polls failing load three = Some (Ready (Err "timeout"%string), Ready (Ok [3; 4]), 2).
Proof. vm_compute. reflexivity. Qed.

(** Data in a root node that also has links is read first, but the links are
    taken to start at offset zero: as many bytes of them are skipped. *)
Theorem root_data_shadows_links :
  two_polls load load (root_over (Some [9; 9]) [2; 2] [leaf [1; 2]; leaf [3; 4]])
  = Some (Ready (Ok [9; 9]), Ready (Ok [3; 4]), 4).
Proof. vm_compute. reflexivity. Qed.

(** A nested node that has links but no block sizes makes the reader panic. *)
Theorem missing_blocksizes_panic pos off :
  find_block (File (root_over None [] [leaf [1]])) pos off = Panic.
Proof. reflexivity. Qed.

(** A seek to the end of a file that is a single node goes to its start, and a
    seek to its length to its last byte. *)
Theorem seek_end_wraps len pos :
  0 < len < 2 ^ 63 →
  seek_pos (Some len) pos (SeekEnd 0) = Ok 0 ∧ seek_pos (Some len) pos (SeekStart len) = Ok (len - 1).
Proof.
  intros Hl. unfold seek_pos, as_i64. rewrite (proj2 (Z.eqb_neq _ _)) by lia.
  rewrite (Int.swrap_id 64 len), Z.add_0_r, (Int.swrap_id 64 len) by (unfold Int.in_i; lia).
  rewrite Z.rem_same by lia. split; [reflexivity|]. f_equal. lia.
Qed.
End FilesWitness.
