(* ===== verification/Builder.v ===== *)
(** * Building directories

    Models [iroh-unixfs/src/builder.rs]: entries, flat and sharded directories
    and their encoding; the builders that make them are in [Entries].  The
    content of a file is a byte source, or the error of opening it.  A [BTreeMap]
    is the list of its bindings in ascending order of the keys. *)

From stdpp Require Import prelude strings list gmap.
From Stdlib Require Import ZArith Lia.
From S2P Require Import Prelude Cids Bits Unixfs Chunker Rabin BalancedTree.
Local Open Scope Z_scope.

Definition DIRECTORY_LINK_LIMIT : Z := 6000.

Inductive DirectoryType := DirType_Basic | DirType_Hamt.
#[global] Instance DirectoryType_eq_dec : EqDecision DirectoryType.
Proof. solve_decision. Defined.

Inductive Entry :=
  | Entry_File (name : bytes) (content : res string source) (chunker : Chunker) (degree : Z)
  | Entry_Directory (d : Directory)
  | Entry_Symlink (name target : bytes)
with Directory :=
  | Dir_Basic (name : bytes) (entries : list Entry)
  | Dir_Hamt (name : bytes) (hamt : HamtNode)
with HamtNode :=
  | Branch (children : list (Z * HamtNode))
  | HamtLeaf (hash : bytes) (entry : Entry).

Definition Directory_name (d : Directory) : bytes :=
  match d with Dir_Basic n _ | Dir_Hamt n _ => n end.

Definition Entry_name (e : Entry) : bytes :=
  match e with
  | Entry_File n _ _ _ => n
  | Entry_Directory d => Directory_name d
  | Entry_Symlink n _ => n
  end.

Definition Directory_set_name (value : bytes) (d : Directory) : Directory :=
  match d with
  | Dir_Basic _ es => Dir_Basic value es
  | Dir_Hamt _ h => Dir_Hamt value h
  end.

(** [Directory::single] and the [wrap] methods *)
Definition Directory_single (name : bytes) (e : Entry) : Directory := Dir_Basic name [e].
Definition Entry_wrap (e : Entry) : Directory := Directory_single [] e.

(** ** Grouping by hash bits *)

(** [res.entry(value).or_default().push(leaf)] *)
Fixpoint bt_push {A} (k : Z) (x : A) (m : list (Z * list A)) : list (Z * list A) :=
  match m with
  | [] => [(k, [x])]
  | (k', xs) :: m' =>
      if k <? k' then (k, [x]) :: m
      else if k =? k' then (k', xs ++ [x]) :: m'
      else (k', xs) :: bt_push k x m'
  end.

(** A leaf before it is placed: the hash of its name and the entry. *)
Definition hashed : Type := bytes * Entry.

Fixpoint group_map (pos len : Z) (leafs : list hashed) (m : list (Z * list hashed))
    : res string (list (Z * list hashed)) :=
  match leafs with
  | [] => Ok m
  | leaf :: leafs =>
      value ← bits leaf.1 pos len;
      group_map pos len leafs (bt_push value leaf m)
  end.

(** [HamtNode::group]: each level uses [len] more bits of the hash, and [bits]
    fails when there are none left, so with [len = 8] nine levels of fuel are
    enough.  The lack of fuel is a panic. *)
Fixpoint group (fuel : nat) (leafs : list hashed) (pos len : Z) : res string HamtNode :=
  match fuel with
  | O => Panic
  | S fuel =>
      let branch :=
        m ← group_map pos len leafs [];
        cs ← collect ((λ '(k, ls), n ← group fuel ls (Int.wrap 32 (pos + len)) len; Ok (k, n)) <$> m);
        Ok (Branch cs) in
      match leafs with
      | [(hash, e)] => if 0 <? pos then Ok (HamtLeaf hash e) else branch
      | _ => branch
      end
  end.

Section hash.
(** [fastmurmur3::hash], a 128-bit value *)
Context (murmur3 : bytes → Z).

(** [hash_key], on a little-endian machine *)
Definition hash_key (key : bytes) : bytes := to_be_bytes (Int.wrap 64 (murmur3 key)).

Definition HamtNode_new (entries : list Entry) : res string HamtNode :=
  group 10 ((λ e, (hash_key (Entry_name e), e)) <$> entries) 0 8.
End hash.

(** ** Encoding *)

Definition HamtNode_name (n : HamtNode) : bytes :=
  match n with Branch _ => [] | HamtLeaf _ e => Entry_name e end.

(** [format!("{:02X}", prefix)] for a prefix below 256 *)
Definition hex_digit (d : Z) : Z := if d <? 10 then 48 + d else 55 + d.
Definition hex2 (p : Z) : bytes := [hex_digit (p / 16); hex_digit (p mod 16)].

Section encode.
Context `{UnixfsProto}.

Definition file_encode (content : res string source) (chunker : Chunker) (degree : Z) : tree_gen unit :=
  src ← try_ content;
  items ← try_ (unwrap (chunker_chunks chunker src));
  stream_tree degree items.

Definition symlink_node (target : bytes) : res string UnixfsNode :=
  ensure (utf8_valid target) "target path is not valid unicode"%string;;
  let i := {| data_type := DataType_into DT_Symlink; data_data := Some target; data_filesize := None;
              data_blocksizes := []; data_hash_type := None; data_fanout := None |} in
  o ← encode_unixfs_pb i [];
  Ok (Symlink {| outer := o; inner := i |}).

Definition symlink_encode (target : bytes) : res string Block :=
  n ← symlink_node target; unixfs_encode n.

Definition directory_data : Data :=
  {| data_type := DataType_into DT_Directory; data_data := None; data_filesize := None;
     data_blocksizes := []; data_hash_type := None; data_fanout := None |}.

Definition hamt_data (bf : Bitfield) : Data :=
  {| data_type := DataType_into DT_HamtShard; data_data := Some (bf_as_bytes bf); data_filesize := None;
     data_blocksizes := []; data_hash_type := Some HamtHashFunction_Murmur3; data_fanout := Some 256 |}.

(** Forward the blocks of a part and return the last one. *)
Definition forward (parts : tree_gen unit) : tree_gen (option Block) :=
  parts;; mret (last parts.1).

(** The last block of a directory *)
Definition directory_node (links : list PbLink) : res string UnixfsNode :=
  o ← encode_unixfs_pb directory_data links;
  Ok (Unixfs.Directory {| outer := o; inner := directory_data |}).

(** [encode_unixfs_pb(&inner, links).unwrap()]: an error is a panic. *)
Definition hamt_node (bf : Bitfield) (links : list PbLink) : res string UnixfsNode :=
  match encode_unixfs_pb (hamt_data bf) links with
  | Ok o => Ok (Unixfs.Directory {| outer := o; inner := hamt_data bf |})
  | _ => Panic
  end.

(** The link of a flat directory to an entry *)
Definition entry_link (e : Entry) (root : Block) : PbLink :=
  {| pbl_hash := Some (cid_to_bytes (blk_cid root)); pbl_name := Some (Entry_name e);
     pbl_tsize := Some (Z.of_nat (length (blk_data root))) |}.

(** The loop of [BasicDirectory::encode] over its entries; [enc] encodes an
    entry. *)
Definition encode_entries (enc : Entry → tree_gen unit) : list Entry → list PbLink → tree_gen (list PbLink) :=
  fix go (es : list Entry) (links : list PbLink) : tree_gen (list PbLink) :=
    match es with
    | [] => mret links
    | e :: es =>
        root ← forward (enc e);
        root_block ← try_ (unwrap root);
        go es (links ++ [entry_link e root_block])
    end.

(** The link of a shard to a child *)
Definition child_link (prefix : Z) (node : HamtNode) (root : option Block) : PbLink :=
  {| pbl_hash := cid_to_bytes ∘ blk_cid <$> root;
     pbl_name := Some (hex2 prefix ++ HamtNode_name node); pbl_tsize := None |}.

(** The loop of [HamtNode::encode] over the children of a branch; [enc] encodes
    a child. *)
Definition encode_children (enc : HamtNode → tree_gen unit)
    : list (Z * HamtNode) → list PbLink → Bitfield → tree_gen (list PbLink * Bitfield) :=
  fix go (cs : list (Z * HamtNode)) (links : list PbLink) (bf : Bitfield)
      : tree_gen (list PbLink * Bitfield) :=
    match cs with
    | [] => mret (links, bf)
    | (prefix, node) :: cs =>
        bf ← try_ (bf_set_bit prefix bf);
        root ← forward (enc node);
        go cs (links ++ [child_link prefix node root]) bf
    end.

(** [yield node.encode()?] *)
Definition yield_node (node : res string UnixfsNode) : tree_gen unit :=
  n ← try_ node;
  b ← try_ (unixfs_encode n);
  yield b.

Fixpoint entry_encode (e : Entry) : tree_gen unit :=
  match e with
  | Entry_File _ content chunker degree => file_encode content chunker degree
  | Entry_Directory d => directory_encode d
  | Entry_Symlink _ target => b ← try_ (symlink_encode target); yield b
  end
with directory_encode (d : Directory) : tree_gen unit :=
  match d with
  | Dir_Basic _ entries =>
      links ← encode_entries entry_encode entries [];
      yield_node (directory_node links)
  | Dir_Hamt _ hamt => hamt_encode hamt
  end
with hamt_encode (n : HamtNode) : tree_gen unit :=
  match n with
  | Branch tree =>
      '(links, bf) ← encode_children hamt_encode tree [] Bitfield_zero;
      yield_node (hamt_node bf links)
  | HamtLeaf _ e => entry_encode e
  end.

(** [encode_root]: the last item of the stream, an error included *)
Definition encode_root (parts : tree_gen unit) : res string Block :=
  match parts.2 with
  | Ok _ => unwrap (last parts.1)
  | Err e => Err e
  | Panic => Panic
  end.
End encode.
