(* ===== verification/Hamt.v ===== *)
(** * Sharded directories

    Models the lookups and listings of [iroh-unixfs/src/hamt.rs].  Awaiting the
    loader makes no difference to the result, so it is a function from CIDs to
    bytes.  The nodes loaded below a link are cached by the code; loading them
    again gives the same node. *)

From stdpp Require Import prelude strings list gmap.
From Stdlib Require Import ZArith Lia.
From S2P Require Import Prelude Cids Bits Unixfs Builder.
Local Open Scope Z_scope.

Definition MAX_DEPTH : nat := 8.

Section hamt.
Context `{UnixfsProto}.
Context (fetch : Cid → res string bytes).
Context (murmur3 : bytes → Z).

Inductive InnerNode :=
  | Inner_Node (node : HamtShardNode) (value : UnixfsNode)
  | Inner_Leaf (link : Link) (value : UnixfsNode).

(** [InnerNode::load_from_link] *)
Definition load_from_link (link : Link) : res string InnerNode :=
  data ← fetch (link_cid link);
  node ← unixfs_decode (link_cid link) data;
  match node with
  | HamtShard _ hamt => Ok (Inner_Node hamt node)
  | RawNode _ | File _ | Unixfs.Directory _ | Raw _ | Symlink _ => Ok (Inner_Leaf link node)
  end.

(** The name of a link without its padding: [&s.as_bytes()[padding_len..]] *)
Definition unpadded (padding_len : Z) (link : Link) : res string bytes :=
  match link_name link with
  | Some s => if Z.of_nat (length s) <? padding_len then Panic else Ok (drop (Z.to_nat padding_len) s)
  | None => Ok []
  end.

(** [Node::get_value]; [rest] is [MAX_DEPTH - depth]. *)
Fixpoint get_value (rest : nat) (n : HamtShardNode) (hashed_key : HashBits) (key : bytes)
    : res string (option (Link * UnixfsNode)) :=
  match rest with
  | O => Err "max depth reached"%string
  | S rest =>
      '(hashed_key, idx) ← hb_next (hn_bit_width n) hashed_key;
      b ← bf_test_bit idx (hn_bitfield n);
      if negb b then Ok None
      else
        cindex ← index_for_bit_pos idx (hn_bitfield n);
        child ← unwrap (hn_pointers n !! Z.to_nat cindex);
        cached_node ← load_from_link child;
        match cached_node with
        | Inner_Node node value =>
            name ← unpadded (hn_padding_len n) child;
            if bool_decide (key = name) then Ok (Some (child, value))
            else get_value rest node hashed_key key
        | Inner_Leaf link value =>
            name ← unpadded (hn_padding_len n) link;
            if bool_decide (key = name) then Ok (Some (link, value)) else Ok None
        end
  end.

(** [Hamt::get] *)
Definition hamt_get (n : HamtShardNode) (key : bytes) : res string (option (Link * UnixfsNode)) :=
  get_value MAX_DEPTH n (HashBits_new (hash_key murmur3 key)) key.

(** [for link in value.links() { yield link? }] *)
Fixpoint yield_links (l : list (res string Link)) : gen Link string unit :=
  match l with
  | [] => mret tt
  | x :: l => link ← try_ x; yield link;; yield_links l
  end.

(** [Node::children] and [InnerNode::children]: the links yielded and how the
    stream ends.  The lack of fuel is a panic. *)
Fixpoint node_children (fuel : nat) (n : HamtShardNode) : gen Link string unit :=
  match fuel with
  | O => ([], Panic)
  | S fuel =>
      (fix go (ps : list Link) : gen Link string unit :=
        match ps with
        | [] => mret tt
        | p :: ps =>
            (match link_name p with
             | Some name =>
                 if hn_padding_len n <? Z.of_nat (length name) then
                   let name := drop (Z.to_nat (hn_padding_len n)) name in
                   try_ (assert (utf8_valid name));;
                   yield {| link_cid := link_cid p; link_name := Some name; link_tsize := link_tsize p |}
                 else
                   child ← try_ (load_from_link p);
                   match child with
                   | Inner_Node node _ => node_children fuel node
                   | Inner_Leaf _ value =>
                       match value with
                       | Unixfs.Directory _ => yield_links (unixfs_links value)
                       | HamtShard _ hamt => node_children fuel hamt
                       | _ => mret tt
                       end
                   end
             | None => mret tt
             end);;
            go ps
        end) (hn_pointers n)
  end.
End hamt.
