(* ===== verification/BuilderFacts.v ===== *)
(** * Correctness of the directory builder

    Every encoded entry ends with its root block, which decodes; a flat
    directory links each entry by name to its root, in order. *)

From stdpp Require Import prelude strings list gmap.
From Stdlib Require Import ZArith Lia.
From S2P Require Import Prelude Cids Bits BitsFacts Unixfs Chunker Rabin BalancedTree Reader ReaderFacts.
From S2P Require Import BalancedTreeFacts Builder.
Local Open Scope Z_scope.

Section builder_facts.
Context `{UnixfsProtoLaws}.

(** The loader as a function, and the node behind a CID. *)
Definition loader_of (fetch : Cid → res string bytes) : loader := λ c, Ready (fetch c).
Definition node_of (fetch : Cid → res string bytes) (c : Cid) : res string UnixfsNode :=
  data ← fetch c; unixfs_decode c data.

Lemma poll_load_node_of fetch c u :
  poll_load (loader_of fetch) c = Ready (Ok u) ↔ node_of fetch c = Ok u.
Proof. unfold poll_load, loader_of, node_of. split; [by intros [= ->]|by intros ->]. Qed.

(** ** Inversion of encoders *)

Lemma forward_Ok parts out root :
  forward parts = (out, Ok root) → parts = (out, Ok tt) ∧ root = last out.
Proof.
  unfold forward. intros ([] & o1 & o2 & -> & Hr & ->)%gen_bind_Ok.
  injection Hr as <- <-. by rewrite app_nil_r.
Qed.

Lemma yield_node_Ok r out :
  yield_node r = (out, Ok tt) → ∃ n b, r = Ok n ∧ unixfs_encode n = Ok b ∧ out = [b].
Proof.
  unfold yield_node. intros (n & o1 & o2 & [-> Hn]%try_Ok & Hk & ->)%gen_bind_Ok.
  apply gen_bind_Ok in Hk as (b & o3 & o4 & [-> Hb]%try_Ok & Hy & ->). injection Hy as <-. eauto.
Qed.

Lemma encode_unixfs_pb_Ok i links o :
  encode_unixfs_pb i links = Ok o → o = {| pbn_links := links; pbn_data := Some (data_encode i) |}.
Proof.
  unfold encode_unixfs_pb. destruct (_ <=? _); simpl; [|done]. by intros [= <-].
Qed.

(** Encoding a node other than a raw block: the data are the outer message. *)
Lemma unixfs_encode_node u n b :
  unixfs_node u = Some n → unixfs_encode u = Ok b →
  blk_data b = pbnode_encode (outer n) ∧ cid_codec (blk_cid b) = Codec_DagPb.
Proof.
  unfold unixfs_encode. intros ->. destruct (node_links n) as [ls| |]; simpl; try done.
  destruct (collect ls); simpl; try done.
  match goal with |- context [ensure ?x _] => destruct x end; simpl; [|done].
  intros [= <-]. simpl. split; [done|]. apply cid_new_v1_codec. unfold Int.in_u, Codec_DagPb. lia.
Qed.

(** What a node encoded with its own [Data] message decodes to. *)
Lemma node_of_encoded fetch u n b links :
  unixfs_node u = Some n → outer n = {| pbn_links := links; pbn_data := Some (data_encode (inner n)) |} →
  unixfs_encode u = Ok b → fetch (blk_cid b) = Ok (blk_data b) →
  node_of fetch (blk_cid b) =
    match DataType_try_from (data_type (inner n)) with
    | Some DT_Directory => Ok (Unixfs.Directory n)
    | Some DT_File => Ok (File n)
    | Some DT_Symlink => Ok (Symlink n)
    | Some DT_HamtShard => hamt ← shard_from_node n; Ok (HamtShard n hamt)
    | Some DT_Metadata => Err "unixfs metadata is not supported"%string
    | Some DT_Raw => Panic
    | None => Err "invalid data type"%string
    end.
Proof.
  intros Hu Ho He Hf. destruct (unixfs_encode_node u n b Hu He) as [Hd Hc].
  unfold node_of. rewrite Hf. simpl. unfold unixfs_decode. rewrite Hc. simpl.
  rewrite Hd, pbnode_roundtrip, Ho. simpl. rewrite data_roundtrip. simpl.
  destruct n as [o i]. simpl in *. subst o.
  destruct (DataType_try_from (data_type i)) as [[]|]; done.
Qed.

(** ** Every entry ends with a root that decodes *)

Definition rooted (fetch : Cid → res string bytes) (g : tree_gen unit) : Prop :=
  ∀ blocks, g = (blocks, Ok tt) → serves (loader_of fetch) blocks →
    ∃ root u, last blocks = Some root ∧ node_of fetch (blk_cid root) = Ok u.

Section rooted.
Context (fetch : Cid → res string bytes).

(** A raw or a dag-pb block that decodes if it is served. *)
Definition decodes (b : Block) : Prop :=
  (cid_codec (blk_cid b) = Codec_Raw ∨ cid_codec (blk_cid b) = Codec_DagPb) ∧
  (serves (loader_of fetch) [b] → ∃ u, node_of fetch (blk_cid b) = Ok u).

Lemma leaf_decodes data b : unixfs_encode (Raw data) = Ok b → decodes b.
Proof.
  intros Hb. split.
  - left. revert Hb. unfold unixfs_encode. cbn. destruct (_ <=? _); [|done]. intros [= <-]. by apply cid_new_v1_codec.
  - intros Hs. eexists. apply poll_load_node_of. by eapply poll_load_leaf.
Qed.

Lemma serves_one blocks b : b ∈ blocks → serves (loader_of fetch) blocks → serves (loader_of fetch) [b].
Proof. intros Hb Hs b' Hb'. apply list_elem_of_singleton in Hb' as ->. by apply Hs. Qed.

Lemma served_fetch blocks b : b ∈ blocks → serves (loader_of fetch) blocks → fetch (blk_cid b) = Ok (blk_data b).
Proof. intros Hb Hs. specialize (Hs b Hb). by injection Hs. Qed.

Lemma yield_stem_decodes es out e : yield_stem es = (out, Ok e) → Forall decodes out ∧ out ≠ [].
Proof.
  intros (b & info & He & -> & _)%yield_stem_Ok. split; [|done]. constructor; [|done]. split.
  - right. destruct (stem_encode es) as [E|(b' & info' & E & Hc & _)]; rewrite He in E; [done|]. injection E as <- <-.
    rewrite Hc. apply cid_new_v1_codec. unfold Int.in_u, Codec_DagPb. lia.
  - intros Hs. eexists. apply poll_load_node_of. by eapply poll_load_stem.
Qed.

Lemma overflow_decodes degree add tree out tree' :
  overflow degree add tree = (out, Ok tree') → Forall decodes out.
Proof.
  revert add out tree'. induction tree as [|l rest IH]; intros add out tree' Ho; simpl in Ho.
  { by injection Ho as <- <-. }
  case_match; [by injection Ho as <- <-|].
  apply gen_bind_Ok in Ho as (e & o1 & o2 & [Hy _]%yield_stem_decodes & Ho & ->).
  apply gen_bind_Ok in Ho as (rest' & o3 & o4 & Hr%IH & Hm & ->). injection Hm as <- <-.
  rewrite app_nil_r. by apply Forall_app.
Qed.

Lemma add_chunks_decodes degree tree items out tree' :
  add_chunks degree tree items = (out, Ok tree') → Forall decodes out ∧ (items ≠ [] → out ≠ []).
Proof.
  revert tree out. induction items as [|item items IH]; intros tree out Ho; simpl in Ho.
  { by injection Ho as <- <-. }
  apply gen_bind_Ok in Ho as (tree1 & o1 & o2 & Hc & [Hi _]%IH & ->).
  apply gen_bind_Ok in Hc as (data & o3 & o4 & [-> ->]%try_Ok & Hc & ->).
  apply gen_bind_Ok in Hc as ([b info] & o5 & o6 & [-> [Hb _]%leaf_encode_Ok]%try_Ok & Hc & ->).
  apply gen_bind_Ok in Hc as (tree2 & o7 & o8 & Hov & Hc & ->).
  apply gen_bind_Ok in Hc as ([] & o9 & o10 & Hy & Hr & ->). injection Hy as <-. injection Hr as <- <-.
  assert (Forall decodes o7) as Ho7.
  { case_match; [by eapply overflow_decodes|by injection Hov as <- <-]. }
  rewrite !app_nil_l, app_nil_r. split; [|by destruct o7].
  apply Forall_app. split; [|done]. apply Forall_app. split; [done|].
  constructor; [|done]. by eapply leaf_decodes.
Qed.

Lemma clean_up_decodes add tree out :
  clean_up add tree = (out, Ok tt) → Forall decodes out ∧ (tree ≠ [] → out ≠ []).
Proof.
  revert add out. induction tree as [|l rest IH]; intros add out Ho; simpl in Ho.
  { by injection Ho as <-. }
  apply gen_bind_Ok in Ho as (e & o1 & o2 & [Hy Hne]%yield_stem_decodes & [Hr _]%IH & ->).
  split; [by apply Forall_app|]. by destruct o1.
Qed.

Lemma add_chunks_nonempty degree tree items out tree' :
  add_chunks degree tree items = (out, Ok tree') → tree ≠ [] → tree' ≠ [].
Proof.
  revert tree out. induction items as [|item items IH]; intros tree out Ho Hne; simpl in Ho.
  { by injection Ho as <- <-. }
  apply gen_bind_Ok in Ho as (tree1 & o1 & o2 & Hc & Ho & ->). eapply IH; [done|].
  apply gen_bind_Ok in Hc as (data & o3 & o4 & _ & Hc & ->).
  apply gen_bind_Ok in Hc as ([b info] & o5 & o6 & _ & Hc & ->).
  apply gen_bind_Ok in Hc as (tree2 & o7 & o8 & Hov & Hc & ->).
  apply gen_bind_Ok in Hc as ([] & o9 & o10 & _ & Hr & ->). injection Hr as <- <-.
  assert (tree2 ≠ []); [|by destruct tree2]. case_match; [|by injection Hov as <- <-].
  destruct tree as [|l rest]; [done|]. simpl in Hov. case_match; [by injection Hov as <- <-|].
  apply gen_bind_Ok in Hov as (e & o11 & o12 & _ & Hov & ->).
  apply gen_bind_Ok in Hov as (rest' & o13 & o14 & _ & Hm & ->). by injection Hm as <- <-.
Qed.

Lemma rooted_by_decodes blocks :
  Forall decodes blocks → blocks ≠ [] → serves (loader_of fetch) blocks →
  ∃ root u, last blocks = Some root ∧ node_of fetch (blk_cid root) = Ok u.
Proof.
  intros Hd Hne Hs. destruct (last blocks) as [root|] eqn:E; [|by apply last_None in E].
  apply last_Some_elem_of in E as Hin. rewrite Forall_forall in Hd.
  destruct (proj2 (Hd root Hin) (serves_one _ _ Hin Hs)) as [u Hu]. eauto.
Qed.

Lemma stream_tree_decodes degree items blocks :
  stream_tree degree items = (blocks, Ok tt) → Forall decodes blocks ∧ blocks ≠ [].
Proof.
  intros Ho. unfold stream_tree in Ho.
  apply gen_bind_Ok in Ho as ([] & o1 & o2 & [-> _]%try_Ok & Ho & ->). rewrite app_nil_l in *.
  apply gen_bind_Ok in Ho as (tree & o3 & o4 & Hc & Ho & ->).
  destruct (add_chunks_decodes _ _ _ _ _ Hc) as [Hd Hne]. split.
  - apply Forall_app. split; [done|]. case_match; [by injection Ho as <-|]. by eapply clean_up_decodes.
  - case_match eqn:E.
    + destruct items as [|item items]; [by injection Hc as <- <-|].
      intros [Hx _]%app_nil. by apply Hne.
    + intros [_ ->]%app_nil. apply clean_up_decodes in Ho as [_ Hx]. apply Hx; [|done].
      by eapply add_chunks_nonempty.
Qed.

Lemma stream_tree_rooted degree items : rooted fetch (stream_tree degree items).
Proof. intros blocks [Hd Hne]%stream_tree_decodes Hs. by apply rooted_by_decodes. Qed.
End rooted.

(** ** Inversion of the loops *)

Lemma encode_entries_Ok enc es links out links' :
  encode_entries enc es links = (out, Ok links') →
  ∃ parts roots, out = mjoin parts ∧
    Forall2 (λ e blocks, enc e = (blocks, Ok tt)) es parts ∧
    Forall2 (λ blocks root, last blocks = Some root) parts roots ∧
    links' = links ++ zip_with entry_link es roots.
Proof.
  revert links out. induction es as [|e es IH]; intros links out Ho; simpl in Ho.
  { injection Ho as <- <-. exists [], []. rewrite app_nil_r. done. }
  apply gen_bind_Ok in Ho as (root & o1 & o2 & [He Hl]%forward_Ok & Ho & ->).
  apply gen_bind_Ok in Ho as (rb & o3 & o4 & [-> Hr]%try_Ok & Ho & ->).
  destruct root as [root|]; [|done]. injection Hr as <-.
  destruct (IH _ _ Ho) as (parts & roots & -> & Hp & Hq & ->).
  exists (o1 :: parts), (root :: roots). split_and!; [done|by constructor|by constructor|].
  by rewrite <-app_assoc.
Qed.

Lemma encode_children_Ok enc cs links bf out links' bf' :
  encode_children enc cs links bf = (out, Ok (links', bf')) →
  ∃ parts, out = mjoin parts ∧
    Forall2 (λ vc blocks, enc vc.2 = (blocks, Ok tt)) cs parts ∧
    links' = links ++ zip_with (λ vc blocks, child_link vc.1 vc.2 (last blocks)) cs parts ∧
    fold_res (λ bf v, bf_set_bit v bf) bf cs.*1 = Ok bf'.
Proof.
  revert links bf out. induction cs as [|[v c] cs IH]; intros links bf out Ho; simpl in Ho.
  { injection Ho as <- <- <-. exists []. rewrite app_nil_r. done. }
  apply gen_bind_Ok in Ho as (bf1 & o1 & o2 & [-> Hb]%try_Ok & Ho & ->).
  apply gen_bind_Ok in Ho as (root & o3 & o4 & [He ->]%forward_Ok & Ho & ->).
  destruct (IH _ _ _ Ho) as (parts & -> & Hp & -> & Hf).
  exists (o3 :: parts). split_and!; [done|by constructor|by rewrite <-app_assoc|].
  simpl. rewrite Hb. done.
Qed.

(** ** Bit fields of branches *)

Lemma bf_set_bit_range v bf bf' : bf_set_bit v bf = Ok bf' → 0 ≤ v < 256.
Proof.
  unfold bf_set_bit, bf_word. pose proof (Z.div_mod v 64). pose proof (Z.mod_pos_bound v 64).
  repeat (case_match eqn:E; [apply Z.eqb_eq in E; lia|clear E]). done.
Qed.

Lemma set_bits_spec vs bf bf' :
  bf_wf bf → fold_res (λ bf v, bf_set_bit v bf) bf vs = Ok bf' →
  bf_wf bf' ∧ Forall (λ v, 0 ≤ v < 256) vs ∧
  ∀ j, 0 ≤ j < 256 → bit bf' j = bool_decide (j ∈ vs) || bit bf j.
Proof.
  revert bf. induction vs as [|v vs IH]; intros bf Hwf; simpl.
  { intros [= <-]. done. }
  destruct (bf_set_bit v bf) as [bf1| |] eqn:E; simpl; try done. intros Hf.
  pose proof (bf_set_bit_range _ _ _ E) as Hv.
  destruct (bf_set_bit_spec v bf Hv Hwf) as (bf2 & E2 & Hwf2 & Hb). rewrite E in E2. injection E2 as <-.
  destruct (IH bf1 Hwf2 Hf) as (Hwf' & Hvs & Hb'). split_and!; [done|by constructor|].
  intros j Hj. rewrite Hb', Hb by done. rewrite (bool_decide_ext (j ∈ v :: vs) (v = j ∨ j ∈ vs)) by set_solver.
  rewrite bool_decide_or. destruct (Z.eqb_spec v j) as [->|Hne].
  - rewrite (bool_decide_eq_true_2 (j = j)) by done. simpl. apply orb_true_r.
  - rewrite (bool_decide_eq_false_2 (v = j)) by done. done.
Qed.

(** ** Sizes, for induction over entries *)

Fixpoint entry_size (e : Entry) : nat :=
  match e with Entry_Directory d => S (directory_size d) | _ => 1 end
with directory_size (d : Directory) : nat :=
  match d with
  | Dir_Basic _ es => S (list_sum (map entry_size es))
  | Dir_Hamt _ h => S (hamt_size h)
  end
with hamt_size (n : HamtNode) : nat :=
  match n with
  | Branch cs => S (list_sum (map (λ vc, hamt_size vc.2) cs))
  | HamtLeaf _ e => S (entry_size e)
  end.

Lemma list_sum_in {A} (f : A → nat) l x : x ∈ l → (f x ≤ list_sum (map f l))%nat.
Proof. induction 1 as [|y ? ? _ IH]; simpl; lia. Qed.

(** ** Roots of directories *)

Section roots.
Context (fetch : Cid → res string bytes).

Lemma serves_parts (parts : list (list Block)) bl :
  serves (loader_of fetch) (mjoin parts) → bl ∈ parts → serves (loader_of fetch) bl.
Proof.
  intros Hs Hin b Hb. apply Hs. clear Hs. induction Hin as [|? ? ? _ IH]; rewrite mjoin_cons; set_solver.
Qed.

(** The pointer of a shard to a child with root [r]. *)
Definition pointer (vc : Z * HamtNode) (r : Block) : Link :=
  {| link_cid := blk_cid r; link_name := Some (hex2 vc.1 ++ HamtNode_name vc.2); link_tsize := None |}.

Lemma child_link_parses vc r :
  link_from_pb (child_link vc.1 vc.2 (Some r)) = Ok (pointer vc r).
Proof.
  unfold link_from_pb, child_link. simpl. rewrite cid_read_bytes_roundtrip. done.
Qed.

Lemma child_roots cs parts :
  Forall2 (λ vc blocks, hamt_encode vc.2 = (blocks, Ok tt)) cs parts →
  Forall (λ vc, rooted fetch (hamt_encode vc.2)) cs → serves (loader_of fetch) (mjoin parts) →
  ∃ roots, Forall2 (λ bl r, last bl = Some r) parts roots ∧
    collect (link_from_pb <$> zip_with (λ vc blocks, child_link vc.1 vc.2 (last blocks)) cs parts)
    = Ok (zip_with pointer cs roots).
Proof.
  intros Hp Hr. induction Hp as [|vc bl cs parts He Hp IH]; intros Hs; [by exists []|].
  rewrite mjoin_cons in Hs. apply serves_app in Hs as [Hs1 Hs2]. apply Forall_cons in Hr as [Hr1 Hr].
  destruct (IH Hr Hs2) as (roots & Hl & Hcol). destruct (Hr1 bl He Hs1) as (r & u & Hlast & _).
  exists (r :: roots). split; [by constructor|]. cbn [zip_with]. rewrite fmap_cons. cbn [collect].
  rewrite Hlast, child_link_parses. cbn [mbind res_bind]. by rewrite Hcol.
Qed.

Lemma shard_from_hamt_data bf links d ptrs :
  bf_from_slice (bf_as_bytes bf) = Ok bf → collect (link_from_pb <$> links) = Ok ptrs →
  shard_from_node {| outer := {| pbn_links := links; pbn_data := d |}; inner := hamt_data bf |}
  = Ok {| hn_bitfield := bf; hn_bit_width := 8; hn_padding_len := 2; hn_pointers := ptrs |}.
Proof.
  intros Hbf Hl. unfold shard_from_node, pb_links. cbn [inner outer hamt_data data_data pbn_links].
  change (default DEFAULT_FANOUT (node_fanout _)) with 256.
  change (node_is_murmur3 _) with true. cbn [ensure mbind res_bind unwrap Z.ltb Z.compare].
  rewrite Hbf. cbn [mbind res_bind]. rewrite Hl. reflexivity.
Qed.

Lemma branch_shape cs blocks :
  hamt_encode (Branch cs) = (blocks, Ok tt) → serves (loader_of fetch) blocks →
  Forall (λ vc, rooted fetch (hamt_encode vc.2)) cs →
  ∃ parts roots root n shard, blocks = mjoin parts ++ [root] ∧
    Forall2 (λ vc bl, hamt_encode vc.2 = (bl, Ok tt)) cs parts ∧
    Forall2 (λ bl r, last bl = Some r) parts roots ∧
    node_of fetch (blk_cid root) = Ok (HamtShard n shard) ∧
    hn_bit_width shard = 8 ∧ hn_padding_len shard = 2 ∧ hn_pointers shard = zip_with pointer cs roots ∧
    Forall (λ v, 0 ≤ v < 256) cs.*1 ∧
    ∀ j, 0 ≤ j < 256 → bit (hn_bitfield shard) j = bool_decide (j ∈ cs.*1).
Proof.
  intros He Hs Hr. cbn [hamt_encode] in He.
  apply gen_bind_Ok in He as ([links bf] & o1 & o2 & Hc & Hy & ->).
  apply encode_children_Ok in Hc as (parts & -> & Hp & -> & Hbf). rewrite app_nil_l in *.
  apply yield_node_Ok in Hy as (n & b & Hn & Hb & ->). apply serves_app in Hs as [Hs1 Hs2].
  destruct (child_roots cs parts Hp Hr Hs1) as (roots & Hl & Hcol).
  unfold hamt_node in Hn. destruct (encode_unixfs_pb _ _) as [o| |] eqn:Ho; try done. injection Hn as <-.
  apply encode_unixfs_pb_Ok in Ho as ->.
  pose proof (served_fetch fetch _ b (list_elem_of_here _ _) Hs2) as Hfetch.
  match type of Hb with unixfs_encode (Unixfs.Directory ?N) = _ =>
    pose proof (node_of_encoded fetch (Unixfs.Directory N) N b _ eq_refl eq_refl Hb Hfetch) as Hnode end.
  destruct (set_bits_spec cs.*1 Bitfield_zero bf) as (Hwf & Hv & Hbits);
    [split_and!; unfold Int.in_u; simpl; lia|done|].
  pose proof (bf_from_slice_drop bf 0 Hwf ltac:(lia) eq_refl) as Hslice. rewrite drop_0 in Hslice.
  cbn [inner hamt_data data_type DataType_try_from DataType_into] in Hnode.
  erewrite shard_from_hamt_data in Hnode by done.
  eexists parts, roots, b, _, _. split; [done|]. split; [done|]. split; [done|]. split; [exact Hnode|].
  split_and!; try done. intros j Hj. cbn. rewrite Hbits by done.
  assert (bit Bitfield_zero j = false) as -> by (unfold bit, bf_word; repeat case_match; try done;
    simplify_eq/=; apply Z.testbit_0_l). apply orb_false_r.
Qed.

(** The link of a flat directory to an entry with root [r]. *)
Definition entry_pointer (e : Entry) (r : Block) : Link :=
  {| link_cid := blk_cid r; link_name := Some (Entry_name e);
     link_tsize := Some (Z.of_nat (length (blk_data r))) |}.

Lemma entry_link_parses e r : link_from_pb (entry_link e r) = Ok (entry_pointer e r).
Proof. unfold link_from_pb, entry_link. simpl. by rewrite cid_read_bytes_roundtrip. Qed.

Lemma entry_links_parse es roots :
  link_from_pb <$> zip_with entry_link es roots = Ok <$> zip_with entry_pointer es roots.
Proof.
  revert roots. induction es as [|e es IH]; intros [|r roots]; [done..|]. cbn [zip_with].
  rewrite !fmap_cons, entry_link_parses. by rewrite IH.
Qed.

Lemma basic_shape name es blocks :
  directory_encode (Dir_Basic name es) = (blocks, Ok tt) → serves (loader_of fetch) blocks →
  ∃ parts roots root n, blocks = mjoin parts ++ [root] ∧
    Forall2 (λ e bl, entry_encode e = (bl, Ok tt)) es parts ∧
    Forall2 (λ bl r, last bl = Some r) parts roots ∧
    node_of fetch (blk_cid root) = Ok (Unixfs.Directory n) ∧
    unixfs_links (Unixfs.Directory n) = Ok <$> zip_with entry_pointer es roots.
Proof.
  intros He Hs. cbn [directory_encode] in He.
  apply gen_bind_Ok in He as (links & o1 & o2 & Hc & Hy & ->).
  apply encode_entries_Ok in Hc as (parts & roots & -> & Hp & Hl & ->). rewrite app_nil_l in *.
  apply yield_node_Ok in Hy as (n & b & Hn & Hb & ->). apply serves_app in Hs as [_ Hs2].
  pose proof (served_fetch fetch _ b (list_elem_of_here _ _) Hs2) as Hfetch.
  unfold directory_node in Hn. destruct (encode_unixfs_pb _ _) as [o| |] eqn:Ho; try done. injection Hn as <-.
  apply encode_unixfs_pb_Ok in Ho as ->.
  match type of Hb with unixfs_encode (Unixfs.Directory ?N) = _ =>
    pose proof (node_of_encoded fetch (Unixfs.Directory N) N b _ eq_refl eq_refl Hb Hfetch) as Hnode end.
  eexists parts, roots, b, _. split_and!; [done|done|done|exact Hnode|].
  unfold unixfs_links, pb_links. cbn [outer pbn_links]. apply entry_links_parse.
Qed.

Lemma last_snoc_root {A} (l : list A) x : last (l ++ [x]) = Some x.
Proof. by rewrite last_snoc. Qed.

Lemma file_rooted content chunker degree : rooted fetch (file_encode content chunker degree).
Proof.
  intros blocks Ho Hs. unfold file_encode in Ho.
  apply gen_bind_Ok in Ho as (src & o1 & o2 & [-> _]%try_Ok & Ho & ->).
  apply gen_bind_Ok in Ho as (items & o3 & o4 & [-> _]%try_Ok & Ho & ->).
  rewrite !app_nil_l in *. by eapply stream_tree_rooted.
Qed.

Lemma symlink_shape target blocks :
  (b ← try_ (symlink_encode target); yield b) = (blocks, Ok tt) → serves (loader_of fetch) blocks →
  ∃ b n, blocks = [b] ∧ node_of fetch (blk_cid b) = Ok (Symlink n) ∧ data_data (inner n) = Some target ∧
    pbn_links (outer n) = [] ∧ cid_codec (blk_cid b) = Codec_DagPb.
Proof.
  intros Ho Hs. apply gen_bind_Ok in Ho as (b & o1 & o2 & [-> Hb]%try_Ok & Hy & ->).
  injection Hy as <-. rewrite app_nil_l in *. exists b. unfold symlink_encode, symlink_node in Hb.
  destruct (utf8_valid target); simpl in Hb; [|done].
  destruct (encode_unixfs_pb _ _) as [o| |] eqn:Ho; try done. simpl in Hb.
  apply encode_unixfs_pb_Ok in Ho as ->.
  pose proof (served_fetch fetch _ b (list_elem_of_here _ _) Hs) as Hfetch.
  match type of Hb with unixfs_encode (Symlink ?N) = _ =>
    pose proof (node_of_encoded fetch (Symlink N) N b _ eq_refl eq_refl Hb Hfetch) as Hnode;
    destruct (unixfs_encode_node (Symlink N) N b eq_refl Hb) as [_ Hc] end.
  eexists. split; [done|]. split; [exact Hnode|]. done.
Qed.

Lemma symlink_rooted target : rooted fetch (b ← try_ (symlink_encode target); yield b).
Proof. intros blocks Ho Hs. destruct (symlink_shape target blocks Ho Hs) as (b & n & -> & Hn & _). eauto. Qed.

(** Every entry, directory and shard ends with a root that decodes. *)
Lemma all_rooted N :
  (∀ e, (entry_size e ≤ N)%nat → rooted fetch (entry_encode e)) ∧
  (∀ d, (directory_size d ≤ N)%nat → rooted fetch (directory_encode d)) ∧
  (∀ h, (hamt_size h ≤ N)%nat → rooted fetch (hamt_encode h)).
Proof.
  induction N as [|N (IHe & IHd & IHh)].
  { split_and!; intros []; simpl; lia. }
  split_and!.
  - intros [name content chunker degree|d|name target] Hsz; simpl in *.
    + apply file_rooted.
    + apply IHd. lia.
    + apply symlink_rooted.
  - intros [name es|name h] Hsz; cbn [directory_size] in Hsz.
    + intros blocks Hb Hs. destruct (basic_shape name es blocks Hb Hs) as (parts & roots & root & n & -> & _ & _ & Hn & _).
      exists root, (Unixfs.Directory n). by rewrite last_snoc.
    + cbn [directory_encode]. apply IHh. lia.
  - intros [cs|hash e] Hsz; cbn [hamt_size] in Hsz.
    + intros blocks Hb Hs. destruct (branch_shape cs blocks Hb Hs)
        as (parts & roots & root & n & shard & -> & _ & _ & Hn & _).
      { apply Forall_forall. intros vc Hvc. apply IHh.
        pose proof (list_sum_in (λ vc : Z * HamtNode, hamt_size vc.2) cs vc Hvc). simpl in *. lia. }
      exists root, (HamtShard n shard). by rewrite last_snoc.
    + cbn [hamt_encode]. apply IHe. lia.
Qed.

Lemma entry_rooted e : rooted fetch (entry_encode e).
Proof. by apply (proj1 (all_rooted (entry_size e))). Qed.
Lemma hamt_rooted h : rooted fetch (hamt_encode h).
Proof. by apply (proj2 (proj2 (all_rooted (hamt_size h)))). Qed.
End roots.

(** ** Flat directories *)

Lemma find_by_name_entries name (es : list Entry) (roots : list Block) i e r :
  es !! i = Some e → roots !! i = Some r → Entry_name e = name →
  (∀ j e', (j < i)%nat → es !! j = Some e' → Entry_name e' ≠ name) →
  find_by_name name (Ok <$> zip_with entry_pointer es roots) = Some (entry_pointer e r).
Proof.
  revert roots i. induction es as [|e0 es IH]; intros [|r0 roots] [|i] He Hr Hn Hfirst; try done; simpl in *.
  - injection He as ->. injection Hr as ->. by rewrite decide_True by (by rewrite Hn).
  - rewrite decide_False.
    + apply (IH roots i); try done. intros j e' Hj. apply (Hfirst (S j)). lia.
    + intros [= E]. by apply (Hfirst 0%nat e0 ltac:(lia) eq_refl).
Qed.

(** A flat directory that is encoded and served by the loader decodes as a
    directory that lists its entries in order, each under its name with the CID
    of its root block; the root of every entry decodes, and looking up a name
    finds the first entry with it. *)
Theorem basic_directory_correct fetch name es blocks :
  directory_encode (Dir_Basic name es) = (blocks, Ok tt) → serves (loader_of fetch) blocks →
  ∃ roots root n, last blocks = Some root ∧
    node_of fetch (blk_cid root) = Ok (Unixfs.Directory n) ∧
    links_owned (Unixfs.Directory n) = Ok (zip_with entry_pointer es roots) ∧
    Forall2 (λ e r, last (entry_encode e).1 = Some r ∧ is_ok (node_of fetch (blk_cid r)) = true) es roots ∧
    ∀ i e r, es !! i = Some e → roots !! i = Some r →
      (∀ j e', (j < i)%nat → es !! j = Some e' → Entry_name e' ≠ Entry_name e) →
      get_link_by_name (Entry_name e) (Unixfs.Directory n) = Some (entry_pointer e r).
Proof.
  intros He Hs. destruct (basic_shape fetch name es blocks He Hs)
    as (parts & roots & root & n & -> & Hp & Hl & Hn & Hlinks).
  exists roots, root, n. rewrite last_snoc. split; [done|]. split; [done|]. split; [|split].
  - unfold links_owned. rewrite Hlinks. clear. generalize (zip_with entry_pointer es roots) as l.
    intros l. induction l as [|x l IH]; [done|]. rewrite fmap_cons. simpl. by rewrite IH.
  - apply serves_app in Hs as [Hs _]. clear Hlinks Hn He. revert roots Hl Hs.
    induction Hp as [|e bl es parts Hb Hp IH]; intros roots Hl Hs; inversion Hl; subst; [constructor|].
    rewrite mjoin_cons in Hs. apply serves_app in Hs as [Hs1 Hs2]. constructor; [|by apply IH].
    rewrite Hb. split; [done|]. destruct (entry_rooted fetch e bl Hb Hs1) as (r & u & Hr & Hu).
    replace y with r by congruence. by rewrite Hu.
  - intros i e r Hi Hr Hfirst. unfold get_link_by_name. rewrite Hlinks. by eapply find_by_name_entries.
Qed.
End builder_facts.
