(* ===== verification/HamtFacts.v ===== *)
(** * Correctness of sharded directories

    What [HamtNode::new] groups and [HamtNode::encode] writes is found again by
    [Hamt::get]. *)

From stdpp Require Import prelude strings list gmap sorting.
From Stdlib Require Import ZArith Lia.
From S2P Require Import Prelude Cids Bits BitsFacts Unixfs Chunker Rabin BalancedTree Reader ReaderFacts.
From S2P Require Import BalancedTreeFacts Builder BuilderFacts Hamt.
Local Open Scope Z_scope.

(** ** Ranks in ascending lists *)

Section ranks.
Implicit Types ks : list Z.

Lemma sorted_lookup_lt ks i j x y :
  StronglySorted Z.lt ks → ks !! i = Some x → ks !! j = Some y → (i < j)%nat → x < y.
Proof.
  intros Hs. revert i j. induction Hs as [|k ks Hs IH Hk]; intros i j Hi Hj Hij; [done|].
  destruct i as [|i], j as [|j]; try lia; simpl in *.
  - injection Hi as ->. rewrite Forall_forall in Hk. by apply Hk, list_elem_of_lookup_2 with j.
  - eapply (IH i j); [done|done|lia].
Qed.

Lemma filter_none {A} (P : A → Prop) `{∀ x, Decision (P x)} l : Forall (λ x, ¬ P x) l → filter P l = [].
Proof. induction 1; [done|]. by rewrite filter_cons_False. Qed.

(** Counting the elements below a bound. *)
Definition below ks (n : Z) : nat := length (filter (λ k, k < n) ks).

Lemma below_succ ks n :
  NoDup ks → Z.of_nat (below ks (n + 1)) = Z.of_nat (below ks n) + Z.b2z (bool_decide (n ∈ ks)).
Proof.
  unfold below. induction 1 as [|k ks Hk Hnd IH]; [done|].
  destruct (decide (k = n)) as [->|Hne].
  - rewrite (filter_cons_True (λ k, k < n + 1)), (filter_cons_False (λ k, k < n)) by lia. cbn [length].
    rewrite (bool_decide_eq_false_2 _ Hk) in IH. rewrite (bool_decide_eq_true_2 (n ∈ n :: ks)) by left.
    simpl in *. lia.
  - rewrite (bool_decide_ext (n ∈ k :: ks) (n ∈ ks)) by set_solver.
    destruct (decide (k < n)).
    + rewrite !filter_cons_True by lia. cbn [length]. lia.
    + rewrite !filter_cons_False by lia. done.
Qed.

Lemma rank_below_count ks f n :
  NoDup ks → Forall (λ k, 0 ≤ k) ks → (∀ j, 0 ≤ j < Z.of_nat n → f j = bool_decide (j ∈ ks)) →
  rank f n = Z.of_nat (below ks (Z.of_nat n)).
Proof.
  intros Hnd Hpos. induction n as [|n IH]; intros Hf.
  - unfold below. rewrite Forall_forall in Hpos.
    assert (filter (λ k, k < Z.of_nat 0) ks = []) as ->; [|done].
    apply filter_none, Forall_forall. intros k Hk. specialize (Hpos k Hk). lia.
  - change (rank f (S n)) with (rank f n + Z.b2z (f (Z.of_nat n))). rewrite IH by (intros; apply Hf; lia).
    rewrite Hf by lia. rewrite Nat2Z.inj_succ, <-Z.add_1_r. by rewrite below_succ.
Qed.

Lemma below_lookup ks i v : StronglySorted Z.lt ks → ks !! i = Some v → below ks v = i.
Proof.
  intros Hs Hi. rewrite <-(take_drop i ks). unfold below. rewrite filter_app, length_app.
  rewrite (filter_all _ (take i ks)), length_take.
  - apply lookup_lt_Some in Hi as Hl.
    assert (filter (λ k, k < v) (drop i ks) = []) as ->; [|simpl; lia].
    apply filter_none, Forall_lookup. intros j x Hx. rewrite lookup_drop in Hx.
    destruct j as [|j]; [rewrite Nat.add_0_r in Hx; simplify_eq; lia|].
    pose proof (sorted_lookup_lt ks i (i + S j) v x Hs Hi Hx). lia.
  - apply Forall_lookup. intros j x Hx. apply lookup_take_Some in Hx as [Hx Hj].
    by eapply (sorted_lookup_lt ks j i).
Qed.

Lemma sorted_NoDup ks : StronglySorted Z.lt ks → NoDup ks.
Proof.
  induction 1 as [|k ks Hs IH Hk]; [constructor|]. constructor; [|done].
  intros Hin. rewrite Forall_forall in Hk. specialize (Hk k Hin). lia.
Qed.

Lemma rank_sorted ks f i v :
  StronglySorted Z.lt ks → Forall (λ k, 0 ≤ k < 256) ks →
  (∀ j, 0 ≤ j < 256 → f j = bool_decide (j ∈ ks)) → ks !! i = Some v →
  rank f (Z.to_nat v) = Z.of_nat i.
Proof.
  intros Hs Hr Hf Hi. assert (0 ≤ v < 256) as Hv by (by eapply Forall_lookup_1 in Hr).
  rewrite (rank_below_count ks).
  - rewrite Z2Nat.id by lia. by rewrite (below_lookup ks i v).
  - by apply sorted_NoDup.
  - eapply Forall_impl; [done|]. simpl. lia.
  - intros j Hj. apply Hf. lia.
Qed.
End ranks.

(** ** Grouping *)

Section assoc.
Context {A : Type}.
Implicit Types m : list (Z * list A).

Fixpoint assoc (k : Z) m : list A :=
  match m with
  | [] => []
  | (k', xs) :: m => if k =? k' then xs else assoc k m
  end.

Lemma bt_push_keys k x m j : j ∈ (bt_push k x m).*1 ↔ j = k ∨ j ∈ m.*1.
Proof.
  induction m as [|[k' xs] m IH]; simpl; [set_solver|].
  destruct (Z.ltb_spec k k'); [set_solver|]. destruct (Z.eqb_spec k k') as [->|]; simpl; set_solver.
Qed.

Lemma bt_push_sorted k x m : StronglySorted Z.lt m.*1 → StronglySorted Z.lt (bt_push k x m).*1.
Proof.
  induction m as [|[k' xs] m IH]; simpl; intros Hs; [repeat constructor|].
  inversion Hs as [|? ? Hs' Hk']; subst. destruct (Z.ltb_spec k k').
  - constructor; [done|]. constructor; [done|]. eapply Forall_impl; [done|]. simpl. lia.
  - destruct (Z.eqb_spec k k') as [->|]; [done|]. simpl. constructor; [by apply IH|].
    rewrite Forall_forall in Hk' |- *. intros j [->|Hj]%bt_push_keys; [lia|by apply Hk'].
Qed.

Lemma assoc_not_in k m : k ∉ m.*1 → assoc k m = [].
Proof.
  induction m as [|[k' xs] m IH]; simpl; intros Hk; [done|].
  rewrite (proj2 (Z.eqb_neq _ _)) by set_solver. apply IH. set_solver.
Qed.

Lemma bt_push_assoc k x m j :
  StronglySorted Z.lt m.*1 → assoc j (bt_push k x m) = if j =? k then assoc k m ++ [x] else assoc j m.
Proof.
  induction m as [|[k' xs] m IH]; simpl; intros Hs; [by destruct (Z.eqb_spec j k)|].
  inversion Hs as [|? ? Hs' Hk']; subst. rewrite Forall_forall in Hk'.
  destruct (Z.ltb_spec k k') as [Hlt|Hge]; simpl.
  - destruct (Z.eqb_spec j k) as [E|]; [|done]. rewrite (proj2 (Z.eqb_neq k k')) by lia.
    rewrite assoc_not_in; [done|]. intros Hin%Hk'. lia.
  - destruct (Z.eqb_spec k k') as [E|Hne]; simpl.
    + rewrite <-E. by destruct (Z.eqb_spec j k).
    + rewrite IH by done. destruct (Z.eqb_spec j k) as [E|Hjk]; [|done].
      rewrite E. by rewrite (proj2 (Z.eqb_neq k k')).
Qed.

Lemma assoc_lookup m i k xs : StronglySorted Z.lt m.*1 → m !! i = Some (k, xs) → assoc k m = xs.
Proof.
  revert i. induction m as [|[k' xs'] m IH]; intros i Hs Hi; [done|]. simpl.
  inversion Hs as [|? ? Hs' Hk']; subst. destruct i as [|i]; simpl in Hi.
  - injection Hi as -> ->. by rewrite Z.eqb_refl.
  - rewrite (proj2 (Z.eqb_neq _ _)); [by eapply IH|]. rewrite Forall_forall in Hk'.
    assert (k ∈ m.*1) as Hin by (apply list_elem_of_fmap; exists (k, xs); split; [done|by eapply list_elem_of_lookup_2]).
    specialize (Hk' k Hin). lia.
Qed.
End assoc.

Definition has_bits (pos k : Z) (leaf : hashed) : bool :=
  match bits leaf.1 pos 8 with Ok v => v =? k | _ => false end.

Lemma group_map_spec pos leafs m m' :
  group_map pos 8 leafs m = Ok m' → StronglySorted Z.lt m.*1 →
  StronglySorted Z.lt m'.*1 ∧
  (∀ k, assoc k m' = assoc k m ++ List.filter (has_bits pos k) leafs) ∧
  (∀ leaf, leaf ∈ leafs → ∃ v, bits leaf.1 pos 8 = Ok v ∧ v ∈ m'.*1) ∧
  (∀ k, k ∈ m.*1 → k ∈ m'.*1) ∧
  (∀ k, k ∈ m'.*1 → k ∈ m.*1 ∨ ∃ leaf, leaf ∈ leafs ∧ bits leaf.1 pos 8 = Ok k).
Proof.
  revert m. induction leafs as [|leaf leafs IH]; intros m Hg Hs; simpl in Hg.
  { injection Hg as <-. split_and!; [done|intros; by rewrite app_nil_r|set_solver|done|by left]. }
  destruct (bits leaf.1 pos 8) as [v| |] eqn:Hv; simpl in Hg; try done.
  destruct (IH _ Hg (bt_push_sorted v leaf m Hs)) as (Hs' & Ha & Hin & Hk & Hback). split_and!; [done| | | |].
  - intros k. rewrite Ha, bt_push_assoc by done. simpl. unfold has_bits at 2. rewrite Hv.
    rewrite (Z.eqb_sym v k). destruct (Z.eqb_spec k v) as [->|]; [by rewrite <-app_assoc|done].
  - intros x [->|Hx]%elem_of_cons; [|by apply Hin]. exists v. split; [done|].
    apply Hk, bt_push_keys. by left.
  - intros k Hkm. apply Hk, bt_push_keys. by right.
  - intros k [[->|?]%bt_push_keys|(x & Hx & Hxv)]%Hback; [right|by left|right].
    + exists leaf. split; [left|done].
    + exists x. split; [by right|done].
Qed.

Lemma collect_Ok {E A B} (f : A → res E B) l r :
  collect (f <$> l) = Ok r → Forall2 (λ x y, f x = Ok y) l r.
Proof.
  revert r. induction l as [|x l IH]; intros r; [by intros [= <-]|].
  rewrite fmap_cons. cbn [collect]. destruct (f x) as [y| |] eqn:Ef; simpl; try done.
  destruct (collect (f <$> l)) as [r'| |]; simpl; try done. intros [= <-]. constructor; [done|by apply IH].
Qed.

Lemma group_Branch fuel leafs pos cs :
  group (S fuel) leafs pos 8 = Ok (Branch cs) →
  ∃ m, group_map pos 8 leafs [] = Ok m ∧
    Forall2 (λ kl kn, kl.1 = kn.1 ∧ group fuel kl.2 (Int.wrap 32 (pos + 8)) 8 = Ok kn.2) m cs.
Proof.
  intros Hg. cbn [group] in Hg.
  assert ((m ← group_map pos 8 leafs [];
    cs ← collect ((λ '(k, ls), n ← group fuel ls (Int.wrap 32 (pos + 8)) 8; Ok (k, n)) <$> m);
    Ok (Branch cs)) = Ok (Branch cs)) as Hb.
  { destruct leafs as [|[h e] [|? ?]]; try exact Hg. destruct (0 <? pos); [done|exact Hg]. }
  clear Hg. destruct (group_map pos 8 leafs []) as [m| |]; simpl in Hb; try done. exists m. split; [done|].
  destruct (collect _) as [cs'| |] eqn:Hc; simpl in Hb; try done. injection Hb as <-.
  apply collect_Ok in Hc. eapply Forall2_impl; [exact Hc|]. intros [k ls] [k' n]. simpl.
  destruct (group fuel ls _ 8); simpl; try done. by intros [= <- <-].
Qed.

Lemma branch_not_leaf {E A} (x : res E A) (f : A → res E (list (Z * HamtNode))) h e :
  (m ← x; cs ← f m; Ok (Branch cs)) ≠ Ok (HamtLeaf h e).
Proof. destruct x as [m| |]; simpl; [|done|done]. by destruct (f m). Qed.

Lemma group_Leaf fuel leafs pos h e : group fuel leafs pos 8 = Ok (HamtLeaf h e) → leafs = [(h, e)].
Proof.
  destruct fuel as [|fuel]; [done|]. cbn [group].
  destruct leafs as [|[h' e'] [|? ?]]; [by intros ?%branch_not_leaf| |by intros ?%branch_not_leaf].
  destruct (0 <? pos); [by intros [= -> ->]|by intros ?%branch_not_leaf].
Qed.

(** The root is always a branch. *)
Lemma group_root_not_leaf fuel leafs h e : group fuel leafs 0 8 ≠ Ok (HamtLeaf h e).
Proof.
  destruct fuel as [|fuel]; [done|]. cbn [group].
  by destruct leafs as [|[h' e'] [|? ?]]; intros ?%branch_not_leaf.
Qed.

(** ** Bits of a hash *)

Section bits_of_hash.
Context (murmur3 : bytes → Z).

Lemma hash_key_valid key pos : 0 ≤ pos → hb_valid {| hb_b := hash_key murmur3 key; hb_consumed := pos |}.
Proof.
  intros Hp. destruct (to_be_bytes_ok (Int.wrap 64 (murmur3 key))) as [Hl Hb].
  unfold hb_valid, hash_key. cbn [hb_b hb_consumed]. rewrite Hl. split_and!; [done|done|lia].
Qed.

(** The reader and the builder see the same bits. *)
Lemma hash_bits_ok key pos :
  0 ≤ pos → pos + 8 ≤ 64 →
  ∃ v, 0 ≤ v < 256 ∧ bits (hash_key murmur3 key) pos 8 = Ok v ∧
    hb_next 8 {| hb_b := hash_key murmur3 key; hb_consumed := pos |}
    = Ok ({| hb_b := hash_key murmur3 key; hb_consumed := pos + 8 |}, v).
Proof.
  intros Hp Hle. pose proof (hash_key_valid key pos Hp) as Hv.
  assert (length (hash_key murmur3 key) = 8%nat) as Hl by done.
  pose proof (hb_next_ok _ 8 Hv ltac:(lia)) as Hn. cbn [hb_b hb_consumed] in Hn. rewrite Hl in Hn.
  specialize (Hn ltac:(lia) ltac:(lia)). eexists. unfold bits, HashBits_new_at_index. rewrite Hn.
  split; [|done]. pose proof (slice_range (8 * 8) (be_val (hash_key murmur3 key)) pos 8 ltac:(lia)) as Hr.
  unfold hb_slice. cbn [hb_b hb_consumed]. rewrite Hl. exact Hr.
Qed.

Lemma bits_end key pos v : 0 ≤ pos < 2 ^ 31 → bits (hash_key murmur3 key) pos 8 = Ok v → pos + 8 ≤ 64.
Proof.
  intros Hp. unfold bits, hb_next, HashBits_new_at_index. cbn [hb_b hb_consumed].
  change (Z.of_nat (length (hash_key murmur3 key)) * 8) with 64.
  rewrite Int.wrap_id by (unfold Int.in_u; lia). cbn [ensure mbind res_bind Z.leb Z.compare Pos.compare Pos.compare_cont].
  destruct (Z.ltb_spec 64 (pos + 8)); [done|lia].
Qed.
End bits_of_hash.

(** ** Looking up names *)

Section lookup.
Context `{UnixfsProtoLaws}.
Context (fetch : Cid → res string bytes) (murmur3 : bytes → Z).

(** [link] and [u] are the link to an entry and its root node; the loader serves the entry. *)
Definition found (e : Entry) (link : Link) (u : UnixfsNode) : Prop :=
  ∃ bl r, entry_encode e = (bl, Ok tt) ∧ serves (loader_of fetch) bl ∧ last bl = Some r ∧
    link_cid link = blk_cid r ∧ node_of fetch (blk_cid r) = Ok u.

(** The entry is not itself a sharded directory. *)
Definition unsharded (e : Entry) : Prop :=
  ∀ r n shard, last (entry_encode e).1 = Some r → node_of fetch (blk_cid r) ≠ Ok (HamtShard n shard).

Definition key_at (key : bytes) (pos : Z) : HashBits :=
  {| hb_b := hash_key murmur3 key; hb_consumed := pos |}.

Lemma load_from_link_of link u :
  node_of fetch (link_cid link) = Ok u →
  load_from_link fetch link = Ok (match u with HamtShard _ h => Inner_Node h u | _ => Inner_Leaf link u end).
Proof.
  unfold node_of, load_from_link. destruct (fetch (link_cid link)) as [d| |]; simpl; try done.
  intros ->. by destruct u.
Qed.

Lemma unpadded_pointer vc r : unpadded 2 (pointer vc r) = Ok (HamtNode_name vc.2).
Proof.
  unfold unpadded, pointer. cbn [link_name]. rewrite length_app. change (length (hex2 vc.1)) with 2%nat.
  rewrite (proj2 (Z.ltb_ge _ _)) by lia. done.
Qed.

(** One level of a lookup: the position of the child is the rank of its bits. *)
Lemma get_value_level rest cs roots shard key pos v :
  0 ≤ v < 256 → hb_next 8 (key_at key pos) = Ok (key_at key (pos + 8), v) →
  hn_bit_width shard = 8 → hn_padding_len shard = 2 → hn_pointers shard = zip_with pointer cs roots →
  StronglySorted Z.lt cs.*1 → Forall (λ v, 0 ≤ v < 256) cs.*1 →
  (∀ j, 0 ≤ j < 256 → bit (hn_bitfield shard) j = bool_decide (j ∈ cs.*1)) →
  length cs = length roots →
  ((v ∉ cs.*1) ∧ get_value fetch (S rest) shard (key_at key pos) key = Ok None) ∨
  ∃ i c r, cs !! i = Some (v, c) ∧ roots !! i = Some r ∧
    ∀ u, node_of fetch (blk_cid r) = Ok u →
      get_value fetch (S rest) shard (key_at key pos) key =
      if decide (key = HamtNode_name c) then Ok (Some (pointer (v, c) r, u))
      else match u with
           | HamtShard _ h => get_value fetch rest h (key_at key (pos + 8)) key
           | _ => Ok None
           end.
Proof.
  intros Hv Hnext Hw Hpad Hptr Hs Hr Hbits Hlen. cbn [get_value]. rewrite Hw, Hnext. cbn [mbind res_bind].
  rewrite bf_test_bit_spec, Hbits by done. cbn [mbind res_bind].
  destruct (decide (v ∈ cs.*1)) as [Hin|Hin].
  2:{ left. split; [done|]. by rewrite bool_decide_eq_false_2. }
  right. rewrite bool_decide_eq_true_2 by done. cbn [negb].
  apply list_elem_of_lookup in Hin as [i Hi]. pose proof Hi as Hi'.
  rewrite list_lookup_fmap in Hi'. destruct (cs !! i) as [[v' c]|] eqn:Ei; [|done]. simpl in Hi'. injection Hi' as ->.
  destruct (lookup_lt_is_Some_2 roots i) as [r Er]; [rewrite <-Hlen; by eapply lookup_lt_Some|].
  exists i, c, r. split; [done|]. split; [done|]. intros u Hu.
  rewrite index_for_bit_pos_rank by lia. cbn [mbind res_bind].
  rewrite (rank_sorted cs.*1 _ i v Hs Hr Hbits Hi), Nat2Z.id, Hptr.
  rewrite lookup_zip_with, Ei, Er. cbn [mbind option_bind unwrap res_bind].
  rewrite (load_from_link_of (pointer (v, c) r) u Hu). cbn [mbind res_bind]. rewrite Hpad.
  destruct u; cbn [mbind res_bind]; rewrite unpadded_pointer; cbn [mbind res_bind HamtNode_name snd];
    destruct (decide (key = HamtNode_name c)) as [E|E];
    rewrite ?(bool_decide_eq_true_2 _ E), ?(bool_decide_eq_false_2 _ E); done.
Qed.

(** The children of a grouped branch: sorted bits, and below each the leaves
    with these bits. *)
Lemma branch_children fuel leafs pos cs :
  group (S fuel) leafs pos 8 = Ok (Branch cs) →
  StronglySorted Z.lt cs.*1 ∧
  (∀ leaf, leaf ∈ leafs → ∃ v, bits leaf.1 pos 8 = Ok v ∧ v ∈ cs.*1) ∧
  ∀ i v c, cs !! i = Some (v, c) → ∃ ls, group fuel ls (Int.wrap 32 (pos + 8)) 8 = Ok c ∧ ls ≠ [] ∧
    ls = List.filter (has_bits pos v) leafs ∧
    ∀ leaf, leaf ∈ ls ↔ leaf ∈ leafs ∧ bits leaf.1 pos 8 = Ok v.
Proof.
  intros (m & Hm & Hf)%group_Branch.
  destruct (group_map_spec pos leafs [] m Hm) as (Hs & Ha & Hin & _ & Hback); [constructor|].
  assert (cs.*1 = m.*1) as Hkeys.
  { clear -Hf. induction Hf as [|[k ls] [k' c] m cs [Hk _] _ IH]; [done|].
    rewrite !fmap_cons, IH. simpl in Hk. by subst k'. }
  rewrite Hkeys. split; [done|]. split; [done|]. intros i v c Hi.
  destruct (Forall2_lookup_r _ _ _ _ _ Hf Hi) as ([k ls] & Hmi & Hk & Hg). simpl in *. subst k.
  assert (ls = List.filter (has_bits pos v) leafs) as ->.
  { rewrite <-(assoc_lookup m i v ls Hs Hmi). apply Ha. }
  assert (∀ leaf, leaf ∈ List.filter (has_bits pos v) leafs ↔ leaf ∈ leafs ∧ bits leaf.1 pos 8 = Ok v) as Hmem.
  { intros leaf. rewrite !list_elem_of_In, List.filter_In. unfold has_bits.
    destruct (bits leaf.1 pos 8) as [x| |]; [|naive_solver|naive_solver].
    destruct (Z.eqb_spec x v); naive_solver. }
  eexists. split; [exact Hg|]. split; [|by split].
  destruct (Hback v) as [?|(leaf & Hleaf)]; [|set_solver|].
  - apply list_elem_of_fmap. exists (v, List.filter (has_bits pos v) leafs). split; [done|].
    by eapply list_elem_of_lookup_2.
  - apply Hmem in Hleaf. intros E. rewrite E in Hleaf. set_solver.
Qed.

(** The hash in a leaf is that of its name. *)
Definition hashes_ok (leafs : list hashed) : Prop :=
  ∀ leaf, leaf ∈ leafs → leaf.1 = hash_key murmur3 (Entry_name leaf.2).

(** The outcome of a lookup among the leaves of a branch. *)
Definition lookup_ok (leafs : list hashed) (key : bytes)
    (result : res string (option (Link * UnixfsNode))) : Prop :=
  (∀ leaf, leaf ∈ leafs → Entry_name leaf.2 = key →
     ∃ link u, result = Ok (Some (link, u)) ∧ found leaf.2 link u) ∧
  ((∀ leaf, leaf ∈ leafs → unsharded leaf.2 ∧ Entry_name leaf.2 ≠ key) → result = Ok None).

Lemma get_value_correct fuel rest leafs pos cs blocks root n shard key :
  group fuel leafs pos 8 = Ok (Branch cs) → pos = 8 * (8 - Z.of_nat rest) → (1 ≤ rest ≤ 8)%nat →
  hashes_ok leafs → hamt_encode (Branch cs) = (blocks, Ok tt) → serves (loader_of fetch) blocks →
  last blocks = Some root → node_of fetch (blk_cid root) = Ok (HamtShard n shard) → key ≠ [] →
  lookup_ok leafs key (get_value fetch rest shard (key_at key pos) key).
Proof.
  revert rest leafs pos cs blocks root n shard.
  induction fuel as [|fuel IH]; intros rest leafs pos cs blocks root n shard Hg Hpos Hrest Hh He Hs Hroot Hnode Hkey; [done|].
  destruct (branch_children fuel leafs pos cs Hg) as (Hsort & Hval & Hch).
  destruct (branch_shape fetch cs blocks He Hs) as (parts & roots & root' & n' & shard' & -> & Hp & Hl & Hn
    & Hw & Hpad & Hptr & Hr & Hbits).
  { apply Forall_forall. intros vc _. apply hamt_rooted. }
  rewrite last_snoc in Hroot. injection Hroot as ->. rewrite Hnode in Hn. injection Hn as <- <-.
  apply serves_app in Hs as [Hs _]. destruct rest as [|rest]; [lia|].
  destruct (hash_bits_ok murmur3 key pos) as (v & Hv & Hbv & Hnext); [lia|lia|].
  assert (length cs = length roots) as Hlen.
  { by rewrite (Forall2_length _ _ _ Hp), (Forall2_length _ _ _ Hl). }
  destruct (get_value_level rest cs roots shard key pos v Hv Hnext Hw Hpad Hptr Hsort Hr Hbits Hlen)
    as [[Hnot ->]|(i & c & r & Hi & Hri & Hlevel)].
  { split; [|done]. intros leaf Hleaf Hname. exfalso. destruct (Hval leaf Hleaf) as (v' & Hv' & Hin).
    rewrite (Hh leaf Hleaf), Hname in Hv'. congruence. }
  destruct (Hch i v c Hi) as (ls & Hgc & Hne & _ & Hls).
  destruct (Forall2_lookup_l _ _ _ _ _ Hp Hi) as (bl & Hbl & Hec). simpl in Hec.
  destruct (Forall2_lookup_l _ _ _ _ _ Hl Hbl) as (r' & Hr' & Hlast).
  rewrite Hri in Hr'. injection Hr' as <-.
  assert (serves (loader_of fetch) bl) as Hsb by (eapply serves_parts; [done|by eapply list_elem_of_lookup_2]).
  destruct (hamt_rooted fetch c bl Hec Hsb) as (r' & u & Hr' & Hu). rewrite Hlast in Hr'. injection Hr' as <-.
  rewrite (Hlevel u Hu). clear Hlevel.
  assert (∀ leaf, leaf ∈ leafs → Entry_name leaf.2 = key → leaf ∈ ls) as Hmine.
  { intros leaf Hleaf Hname. apply Hls. split; [done|]. by rewrite (Hh leaf Hleaf), Hname. }
  destruct c as [cs'|h e].
  - rewrite decide_False by done.
    destruct (branch_shape fetch cs' bl Hec Hsb) as (p2 & r2 & b2 & n2 & sh2 & -> & _ & _ & Hn2 & _).
    { apply Forall_forall. intros vc _. apply hamt_rooted. }
    rewrite last_snoc in Hlast. injection Hlast as ->. rewrite Hu in Hn2. injection Hn2 as ->.
    rewrite Int.wrap_id in Hgc by (unfold Int.in_u; lia).
    assert (hashes_ok ls) as Hh' by (intros leaf [Hleaf _]%Hls; by apply Hh).
    assert (1 ≤ rest)%nat.
    { destruct fuel as [|fuel]; [done|]. destruct (branch_children fuel ls _ cs' Hgc) as (_ & Hval' & _).
      destruct ls as [|leaf ls]; [done|]. destruct (Hval' leaf (list_elem_of_here _ _)) as (v2 & Hv2 & _).
      rewrite (Hh' leaf (list_elem_of_here _ _)) in Hv2. apply bits_end in Hv2; lia. }
    destruct (IH rest ls (pos + 8) cs' _ r n2 sh2 Hgc ltac:(lia) ltac:(lia) Hh' Hec Hsb) as [IH1 IH2];
      [by rewrite last_snoc|done|done|].
    split; [by intros leaf Hleaf Hname; apply IH1; [apply Hmine|]|].
    intros Hall. apply IH2. intros leaf [Hleaf _]%Hls. by apply Hall.
  - apply group_Leaf in Hgc as ->. change (hamt_encode (HamtLeaf h e)) with (entry_encode e) in Hec. cbn [HamtNode_name].
    assert ((h, e) ∈ leafs) as He' by (apply Hls; left). split.
    + intros leaf Hleaf Hname. specialize (Hmine leaf Hleaf Hname). apply list_elem_of_singleton in Hmine as ->.
      simpl in Hname |- *. rewrite decide_True by done. eexists _, _. split; [done|].
      by exists bl, r.
    + intros Hall. destruct (Hall _ He') as [Hun Hname]. simpl in *. rewrite decide_False by done.
      destruct u as [| | | | |n2 sh2]; try done. exfalso. apply (Hun r n2 sh2); [by rewrite Hec|done].
Qed.

(** ** Collisions *)

Lemma NoDup_by_bits pos leafs :
  (∀ leaf, leaf ∈ leafs → ∃ v, bits leaf.1 pos 8 = Ok v) →
  (∀ v, NoDup (List.filter (has_bits pos v) leafs).*1) → NoDup leafs.*1.
Proof.
  induction leafs as [|leaf leafs IH]; intros Hv Hnd; [constructor|]. rewrite fmap_cons. constructor.
  - intros (x & Hx & Hin)%list_elem_of_fmap. destruct (Hv leaf) as [v Hlv]; [left|].
    specialize (Hnd v). simpl in Hnd. unfold has_bits in Hnd at 1. rewrite Hlv, Z.eqb_refl in Hnd.
    rewrite fmap_cons in Hnd. apply NoDup_cons in Hnd as [Hnot _]. apply Hnot, list_elem_of_fmap.
    exists x. split; [done|]. apply list_elem_of_In, List.filter_In. split; [by apply list_elem_of_In|].
    unfold has_bits. by rewrite <-Hx, Hlv, Z.eqb_refl.
  - apply IH; [intros; apply Hv; by right|]. intros v. specialize (Hnd v). simpl in Hnd.
    destruct (has_bits pos v leaf); [|done]. rewrite fmap_cons in Hnd. by apply NoDup_cons in Hnd as [_ ?].
Qed.

Lemma group_NoDup fuel leafs pos node : group fuel leafs pos 8 = Ok node → NoDup leafs.*1.
Proof.
  revert leafs pos node. induction fuel as [|fuel IH]; intros leafs pos node Hg; [done|].
  destruct node as [cs|h e].
  - destruct (branch_children fuel leafs pos cs Hg) as (_ & Hval & Hch).
    apply (NoDup_by_bits pos); [naive_solver|]. intros v.
    destruct (decide (v ∈ cs.*1)) as [Hin|Hin].
    + apply list_elem_of_lookup in Hin as [i Hi]. rewrite list_lookup_fmap in Hi.
      destruct (cs !! i) as [[v' c]|] eqn:Ei; [|done]. simpl in Hi. injection Hi as ->.
      destruct (Hch i v c Ei) as (ls & Hgc & _ & -> & _). by eapply IH.
    + assert (List.filter (has_bits pos v) leafs = []) as ->; [|constructor].
      destruct (List.filter (has_bits pos v) leafs) as [|x l] eqn:E; [done|]. exfalso.
      assert (x ∈ List.filter (has_bits pos v) leafs) as Hx by (rewrite E; left).
      apply list_elem_of_In, List.filter_In in Hx as [Hx Hb]. apply list_elem_of_In, Hval in Hx as (v' & Hv' & Hin').
      unfold has_bits in Hb. rewrite Hv' in Hb. apply Z.eqb_eq in Hb as ->. done.
  - apply group_Leaf in Hg as ->. repeat constructor. set_solver.
Qed.
End lookup.

Section hamt_theorems.
Context `{UnixfsProtoLaws}.

(** What the root of a sharded directory answers. *)
Lemma hamt_lookup fetch murmur3 name entries node blocks :
  HamtNode_new murmur3 entries = Ok node →
  directory_encode (Dir_Hamt name node) = (blocks, Ok tt) → serves (loader_of fetch) blocks →
  ∃ root n shard, last blocks = Some root ∧ node_of fetch (blk_cid root) = Ok (HamtShard n shard) ∧
    ∀ key, key ≠ [] →
      (∀ e, e ∈ entries → Entry_name e = key →
         ∃ link u, hamt_get fetch murmur3 shard key = Ok (Some (link, u)) ∧ found fetch e link u) ∧
      ((∀ e, e ∈ entries → unsharded fetch e ∧ Entry_name e ≠ key) →
         hamt_get fetch murmur3 shard key = Ok None).
Proof.
  unfold HamtNode_new. generalize 10%nat as fuel. intros fuel Hg He Hs.
  set (leafs := _ <$> entries) in Hg.
  destruct node as [cs|h e].
  2:{ by apply group_root_not_leaf in Hg. }
  cbn [directory_encode] in He. change (hamt_encode (Branch cs) = (blocks, Ok tt)) in He.
  destruct (hamt_rooted fetch (Branch cs) blocks He Hs) as (root & u & Hroot & Hu).
  destruct (branch_shape fetch cs blocks He Hs) as (parts & roots & root' & n & shard & Hb & _ & _ & Hn & _).
  { apply Forall_forall. intros vc _. apply hamt_rooted. }
  rewrite Hb, last_snoc in Hroot. injection Hroot as ->.
  exists root, n, shard. split; [by rewrite Hb, last_snoc|]. split; [done|]. intros key Hkey.
  destruct (get_value_correct fetch murmur3 fuel 8 leafs 0 cs blocks root n shard key) as [Hf Hnf]; try done; try lia.
  { intros leaf (e & -> & _)%list_elem_of_fmap. done. }
  { by rewrite Hb, last_snoc. }
  split.
  - intros e Hin Hname. destruct (Hf (hash_key murmur3 (Entry_name e), e)) as (link & u' & Hl & Hfo); [|done|by eauto].
    apply list_elem_of_fmap. eauto.
  - intros Hall. apply Hnf. intros leaf (e & -> & Hin)%list_elem_of_fmap. by apply Hall.
Qed.

Lemma hamt_names_NoDup murmur3 entries node : HamtNode_new murmur3 entries = Ok node → NoDup (Entry_name <$> entries).
Proof.
  unfold HamtNode_new. intros Hg%group_NoDup. rewrite <-list_fmap_compose in Hg.
  induction entries as [|e es IH]; [constructor|]. rewrite !fmap_cons in *.
  apply NoDup_cons in Hg as [Hn Hg]. constructor; [|by apply IH].
  intros (e' & He' & Hin)%list_elem_of_fmap. apply Hn, list_elem_of_fmap. exists e'. simpl. by rewrite He'.
Qed.

(** C4: a sharded directory that the builder groups, encodes and a loader serves
    decodes as a shard in which looking up the name of an entry, if it is not empty,
    finds the link to the root of this entry together with its decoded node.  Looking
    up another name that is not empty finds nothing, if no entry is itself a sharded
    directory (the lookup would go on into one).  The names are distinct: the builder
    refuses colliding hashes.  Such lookups never panic and never reach the depth limit. *)
Theorem hamt_directory_correct fetch murmur3 name entries node blocks :
  HamtNode_new murmur3 entries = Ok node →
  directory_encode (Dir_Hamt name node) = (blocks, Ok tt) → serves (loader_of fetch) blocks →
  NoDup (Entry_name <$> entries) ∧
  ∃ root n shard, last blocks = Some root ∧ node_of fetch (blk_cid root) = Ok (HamtShard n shard) ∧
    ∀ key, key ≠ [] →
      (∀ e, e ∈ entries → Entry_name e = key →
         ∃ link u, hamt_get fetch murmur3 shard key = Ok (Some (link, u)) ∧ found fetch e link u) ∧
      ((∀ e, e ∈ entries → unsharded fetch e ∧ Entry_name e ≠ key) →
         hamt_get fetch murmur3 shard key = Ok None).
Proof. intros Hn He Hs. split; [by eapply hamt_names_NoDup|by eapply hamt_lookup]. Qed.
End hamt_theorems.

(** ** Examples *)

Module HamtWitness.
Export UnixfsToy.

Definition fetch (c : @Cid ids) : res string bytes := Ok (snd (c : Z * list Z)).

Lemma fetch_serves (blocks : list Block) :
  Forall (λ b, fetch (blk_cid b) = Ok (blk_data b)) blocks → serves (loader_of fetch) blocks.
Proof. rewrite Forall_forall. intros Hb b Hin. unfold loader_of. by rewrite Hb. Qed.

(** A hash whose second byte is the first byte of the name. *)
Definition murmur (key : bytes) : Z := match key with [] => 0 | b :: _ => b * 2 ^ 48 end.

Definition link_to (name target : bytes) : Entry := Entry_Symlink name target.
Definition entries : list Entry := [link_to [97] [120]; link_to [98] [121]].
Definition sharded : HamtNode :=
  match HamtNode_new murmur entries with Ok n => n | _ => Branch [] end.
Definition blocks : list Block := (directory_encode (Dir_Hamt [100] sharded)).1.

Lemma hamt_directory_correct_witness :
  ∃ shard link u, hamt_get fetch murmur shard [98] = Ok (Some (link, u)) ∧
    found fetch (link_to [98] [121]) link u.
Proof.
  destruct (hamt_directory_correct fetch murmur [100] entries sharded blocks)
    as (_ & root & n & shard & _ & _ & Hget).
  - vm_compute. reflexivity.
  - vm_compute. reflexivity.
  - apply fetch_serves. repeat (constructor; [vm_compute; reflexivity|]). constructor.
  - destruct (proj1 (Hget [98] ltac:(done)) (link_to [98] [121])) as (link & u & Hu); [right; left|reflexivity|].
    exists shard, link, u. exact Hu.
Defined.

(** Flat directory *)
Definition flat : list Block := (directory_encode (Dir_Basic [100] entries)).1.

Lemma basic_directory_correct_witness :
  ∃ root n, last flat = Some root ∧ node_of fetch (blk_cid root) = Ok (Unixfs.Directory n).
Proof.
  destruct (basic_directory_correct fetch [100] entries flat) as (roots & root & n & Hr & Hn & _).
  - vm_compute. reflexivity.
  - apply fetch_serves. repeat (constructor; [vm_compute; reflexivity|]). constructor.
  - exists root, n. split; [exact Hr|exact Hn].
Defined.

(** ** Divergences *)

(** The shard at the root of a directory and a lookup in it. *)
Definition lookup_in (m : bytes → Z) (es : list Entry) (key : bytes) : res string (option (option bytes)) :=
  node ← HamtNode_new m es;
  root ← encode_root (directory_encode (Dir_Hamt [] node));
  u ← node_of fetch (blk_cid root);
  match u with
  | HamtShard _ shard =>
      x ← hamt_get fetch m shard key;
      Ok (match x with Some (link, _) => Some (link_name link) | None => None end)
  | _ => Err "not a shard"%string
  end.

Definition zero_hash (_ : bytes) : Z := 0.

(** The directory [100/] holds only the sharded directory [97/], which holds
    [98].  A lookup of [98] in the outer directory goes on inside the inner one
    and finds its entry. *)
Theorem nested_shard_searched :
  match HamtNode_new zero_hash [link_to [98] [120]] with
  | Ok inner =>
      lookup_in zero_hash [Entry_Directory (Dir_Hamt [97] inner)] [98]
      = Ok (Some (Some [48; 48; 98]))
  | _ => False
  end.
Proof. vm_compute. reflexivity. Qed.

(** The empty name matches an intermediate shard, which is not an entry. *)
Theorem empty_name_matches_shard : lookup_in murmur entries [] = Ok (Some (Some [48; 48])).
Proof. vm_compute. reflexivity. Qed.

(** A bit field with more bits than links, or a link with a name shorter than
    the padding, makes a lookup panic. *)
Theorem malformed_shard_panics link_name' :
  let bf := {| bf0 := 1; bf1 := 0; bf2 := 0; bf3 := 0 |} in
  let shard ptrs := {| hn_bitfield := bf; hn_bit_width := 8; hn_padding_len := 2; hn_pointers := ptrs |} in
  hamt_get fetch zero_hash (shard []) [97] = Panic ∧
  hamt_get fetch zero_hash (shard [{| link_cid := (Codec_Raw, [1]); link_name := Some [link_name'];
    link_tsize := None |}]) [97] = Panic.
Proof. split; vm_compute; reflexivity. Qed.

(** A block with the UnixFS type [Raw] makes decoding panic. *)
Theorem raw_type_panics :
  unixfs_decode ((Codec_DagPb, []) : @Cid ids)
    (pbnode_encode {| pbn_links := []; pbn_data := Some (data_encode
      {| data_type := 0; data_data := Some [1]; data_filesize := Some 1; data_blocksizes := [];
         data_hash_type := None; data_fanout := None |}) |}) = Panic.
Proof. vm_compute. reflexivity. Qed.
End HamtWitness.
