(* ===== verification/Paths.v ===== *)
(** * IPFS paths and codecs

    Models the type [Path] of [iroh-resolver/src/resolver.rs] with its parser and its
    printer, the DNSLink records of [iroh-resolver/src/dns_resolver.rs], and the codes of
    [iroh-unixfs/src/codecs.rs].  Strings are their UTF-8 bytes.  The text form of a CID
    and base58 are crates: the class [PathText]. *)

From stdpp Require Import prelude strings list gmap.
From Stdlib Require Import ZArith Lia.
From S2P Require Import Prelude Cids Bits Unixfs Chunker.
Local Open Scope Z_scope.

(** ** Codecs *)

(** The values of [Codec]; [Codec::try_from] accepts exactly these. *)
Definition codec_codes : list Z :=
  [0x00; 0x01; 0x02; 0x03; 0x04; 0x06; 0x11; 0x12; 0x13; 0x14; 0x15; 0x16; 0x17; 0x18; 0x19; 0x1a; 0x1b; 0x1c;
   0x1d; 0x1e; 0x20; 0x21; 0x22; 0x23; 0x29; 0x2a; 0x2f; 0x30; 0x31; 0x32; 0x33; 0x35; 0x36; 0x37; 0x38; 0x50;
   0x51; 0x55; 0x56; 0x60; 0x63; 0x70; 0x71; 0x72; 0x78; 0x7b; 0x7c; 0x81; 0x82; 0x83; 0x84; 0x85; 0x86; 0x90;
   0x91; 0x92; 0x93; 0x94; 0x95; 0x96; 0x97; 0x98; 0x99; 0x9a; 0xa0; 0xa1; 0xa2; 0xa3; 0xa4; 0xb0; 0xb1; 0xb2;
   0xc0; 0xc1; 0xca; 0xce; 0xd0; 0xd1; 0xd4; 0xd5; 0xd6; 0xe0; 0xe1; 0xe2; 0xe3; 0xe4; 0xe5; 0xe6; 0xe7; 0xea;
   0xeb; 0xec; 0xed; 0xee; 0xf0; 0xf1; 0xfa; 0xfb; 0x0111; 0x0113; 0x0114; 0x0115; 0x0122; 0x0129; 0x012d;
   0x012e; 0x0190; 0x0196; 0x01a5; 0x01bb; 0x01bc; 0x01bd; 0x01be; 0x01bf; 0x01c0; 0x01c6; 0x01cc; 0x01d1;
   0x01dd; 0x01de; 0x01df; 0x01e0; 0x01f0; 0x0200; 0x0201; 0x0202; 0x0301; 0x0302; 0x0400; 0x0401; 0x0900;
   0x0910; 0x1012; 0x1013; 0x1014; 0x1015; 0x1022; 0x1052; 0x1053; 0x1054; 0x1055; 0x1100; 0x1200; 0x1201;
   0x1202; 0x1203; 0x1204; 0x1205; 0x1300; 0x1301; 0x1302; 0x1d01; 0x534d; 0xb201; 0xb202; 0xb203; 0xb204;
   0xb205; 0xb206; 0xb207; 0xb208; 0xb209; 0xb20a; 0xb20b; 0xb20c; 0xb20d; 0xb20e; 0xb20f; 0xb210; 0xb211;
   0xb212; 0xb213; 0xb214; 0xb215; 0xb216; 0xb217; 0xb218; 0xb219; 0xb21a; 0xb21b; 0xb21c; 0xb21d; 0xb21e;
   0xb21f; 0xb220; 0xb221; 0xb222; 0xb223; 0xb224; 0xb225; 0xb226; 0xb227; 0xb228; 0xb229; 0xb22a; 0xb22b;
   0xb22c; 0xb22d; 0xb22e; 0xb22f; 0xb230; 0xb231; 0xb232; 0xb233; 0xb234; 0xb235; 0xb236; 0xb237; 0xb238;
   0xb239; 0xb23a; 0xb23b; 0xb23c; 0xb23d; 0xb23e; 0xb23f; 0xb240; 0xb241; 0xb242; 0xb243; 0xb244; 0xb245;
   0xb246; 0xb247; 0xb248; 0xb249; 0xb24a; 0xb24b; 0xb24c; 0xb24d; 0xb24e; 0xb24f; 0xb250; 0xb251; 0xb252;
   0xb253; 0xb254; 0xb255; 0xb256; 0xb257; 0xb258; 0xb259; 0xb25a; 0xb25b; 0xb25c; 0xb25d; 0xb25e; 0xb25f;
   0xb260; 0xb301; 0xb302; 0xb303; 0xb304; 0xb305; 0xb306; 0xb307; 0xb308; 0xb309; 0xb30a; 0xb30b; 0xb30c;
   0xb30d; 0xb30e; 0xb30f; 0xb310; 0xb311; 0xb312; 0xb313; 0xb314; 0xb315; 0xb316; 0xb317; 0xb318; 0xb319;
   0xb31a; 0xb31b; 0xb31c; 0xb31d; 0xb31e; 0xb31f; 0xb320; 0xb321; 0xb322; 0xb323; 0xb324; 0xb325; 0xb326;
   0xb327; 0xb328; 0xb329; 0xb32a; 0xb32b; 0xb32c; 0xb32d; 0xb32e; 0xb32f; 0xb330; 0xb331; 0xb332; 0xb333;
   0xb334; 0xb335; 0xb336; 0xb337; 0xb338; 0xb339; 0xb33a; 0xb33b; 0xb33c; 0xb33d; 0xb33e; 0xb33f; 0xb340;
   0xb341; 0xb342; 0xb343; 0xb344; 0xb345; 0xb346; 0xb347; 0xb348; 0xb349; 0xb34a; 0xb34b; 0xb34c; 0xb34d;
   0xb34e; 0xb34f; 0xb350; 0xb351; 0xb352; 0xb353; 0xb354; 0xb355; 0xb356; 0xb357; 0xb358; 0xb359; 0xb35a;
   0xb35b; 0xb35c; 0xb35d; 0xb35e; 0xb35f; 0xb360; 0xb361; 0xb362; 0xb363; 0xb364; 0xb365; 0xb366; 0xb367;
   0xb368; 0xb369; 0xb36a; 0xb36b; 0xb36c; 0xb36d; 0xb36e; 0xb36f; 0xb370; 0xb371; 0xb372; 0xb373; 0xb374;
   0xb375; 0xb376; 0xb377; 0xb378; 0xb379; 0xb37a; 0xb37b; 0xb37c; 0xb37d; 0xb37e; 0xb37f; 0xb380; 0xb381;
   0xb382; 0xb383; 0xb384; 0xb385; 0xb386; 0xb387; 0xb388; 0xb389; 0xb38a; 0xb38b; 0xb38c; 0xb38d; 0xb38e;
   0xb38f; 0xb390; 0xb391; 0xb392; 0xb393; 0xb394; 0xb395; 0xb396; 0xb397; 0xb398; 0xb399; 0xb39a; 0xb39b;
   0xb39c; 0xb39d; 0xb39e; 0xb39f; 0xb3a0; 0xb3a1; 0xb3a2; 0xb3a3; 0xb3a4; 0xb3a5; 0xb3a6; 0xb3a7; 0xb3a8;
   0xb3a9; 0xb3aa; 0xb3ab; 0xb3ac; 0xb3ad; 0xb3ae; 0xb3af; 0xb3b0; 0xb3b1; 0xb3b2; 0xb3b3; 0xb3b4; 0xb3b5;
   0xb3b6; 0xb3b7; 0xb3b8; 0xb3b9; 0xb3ba; 0xb3bb; 0xb3bc; 0xb3bd; 0xb3be; 0xb3bf; 0xb3c0; 0xb3c1; 0xb3c2;
   0xb3c3; 0xb3c4; 0xb3c5; 0xb3c6; 0xb3c7; 0xb3c8; 0xb3c9; 0xb3ca; 0xb3cb; 0xb3cc; 0xb3cd; 0xb3ce; 0xb3cf;
   0xb3d0; 0xb3d1; 0xb3d2; 0xb3d3; 0xb3d4; 0xb3d5; 0xb3d6; 0xb3d7; 0xb3d8; 0xb3d9; 0xb3da; 0xb3db; 0xb3dc;
   0xb3dd; 0xb3de; 0xb3df; 0xb3e0; 0xb401; 0xb402; 0xcc01; 0xce11; 0xf101; 0xf102; 0x706c61; 0x807124;
   0x817124; 0x947124; 0x957124; 0xa27124; 0xa37124; 0xb19910; 0xb29910; 0xb39910; 0xb49910].
Definition codec_known (z : Z) : bool := existsb (Z.eqb z) codec_codes.

Definition Codec_DagCbor : Z := 0x71.
Definition Codec_DagJson : Z := 0x0129.
Definition Codec_Libp2pKey : Z := 0x72.

(** ** Text *)

Definition SLASH : Z := 47.
Definition BACKSLASH : Z := 92.
Definition ipfs_str : bytes := str "ipfs".
Definition ipns_str : bytes := str "ipns".

(** [s.split(p)]: the parts between the separators, at least one *)
Fixpoint split_on (p : Z → bool) (s : bytes) : list bytes :=
  match s with
  | [] => [[]]
  | b :: s =>
      if p b then [] :: split_on p s
      else match split_on p s with
           | part :: parts => (b :: part) :: parts
           | [] => [[b]]
           end
  end.
Definition is_sep (b : Z) : bool := (b =? SLASH) || (b =? BACKSLASH).
(** [s.split(&['/', '\\']).filter(|s| !s.is_empty())] *)
Definition path_parts (s : bytes) : list bytes := filter (λ p, p ≠ []) (split_on is_sep s).
(** [s.ends_with('/')] *)
Definition ends_with_slash (s : bytes) : bool := bool_decide (last s = Some SLASH).

Definition ascii_lower (b : Z) : Z := if (65 <=? b) && (b <=? 90) then b + 32 else b.
Definition eq_ignore_ascii_case (a b : bytes) : bool := bool_decide (ascii_lower <$> a = ascii_lower <$> b).

(** [parts.join("/")] *)
Fixpoint join_slash (parts : list bytes) : bytes :=
  match parts with
  | [] => []
  | [p] => p
  | p :: parts => p ++ SLASH :: join_slash parts
  end.

(** [str::trim]: the white space of Unicode at the start of a string *)
Definition white_at (s : bytes) : option bytes :=
  match s with
  | b :: s1 =>
      if (b =? 32) || ((9 <=? b) && (b <=? 13)) then Some s1
      else match s1 with
      | c :: s2 =>
          if (b =? 0xC2) && ((c =? 0x85) || (c =? 0xA0)) then Some s2
          else match s2 with
          | d :: s3 =>
              if ((b =? 0xE1) && (c =? 0x9A) && (d =? 0x80))
                 || ((b =? 0xE2) && (c =? 0x80) && (((0x80 <=? d) && (d <=? 0x8A)) || (d =? 0xA8) || (d =? 0xA9) || (d =? 0xAF)))
                 || ((b =? 0xE2) && (c =? 0x81) && (d =? 0x9F))
                 || ((b =? 0xE3) && (c =? 0x80) && (d =? 0x80))
              then Some s3 else None
          | [] => None
          end
      | [] => None
      end
  | [] => None
  end.
(** White space is at most as long as the string, which bounds the recursion. *)
Fixpoint trim_start_n (n : nat) (s : bytes) : bytes :=
  match n with
  | O => s
  | S n => match white_at s with Some s => trim_start_n n s | None => s end
  end.
Definition trim_start (s : bytes) : bytes := trim_start_n (length s) s.
Fixpoint trim_end (s : bytes) : bytes :=
  match s with
  | [] => []
  | b :: s' => if decide (trim_start s = []) then [] else b :: trim_end s'
  end.
Definition trim (s : bytes) : bytes := trim_end (trim_start s).

(** [s.trim_start_matches(p)] *)
Fixpoint trim_start_matches_n (n : nat) (p s : bytes) : bytes :=
  match n with
  | O => s
  | S n => match strip_prefix p s with Some s => trim_start_matches_n n p s | None => s end
  end.
Definition trim_start_matches (p s : bytes) : bytes := trim_start_matches_n (length s) p s.

(** ** Crates *)

Class PathText `{Multiformats} := {
  cid_from_str : bytes → option Cid;
  cid_to_str : Cid → bytes;
  bs58_decode : bytes → option bytes;
  multihash_from_bytes : bytes → option Multihash
}.

(** The text of a CID can be read back and has no separators. *)
Class PathTextLaws `{PathText} : Prop := {
  cid_str_roundtrip c : cid_from_str (cid_to_str c) = Some c;
  cid_str_nonempty c : cid_to_str c ≠ [];
  cid_str_no_sep c : Forall (λ b, is_sep b = false) (cid_to_str c)
}.

Section paths.
Context `{UnixfsProto} `{!PathText}.

(** ** Paths *)

Inductive PathType := PathType_Ipfs | PathType_Ipns.
#[export] Instance PathType_eq_dec : EqDecision PathType.
Proof. solve_decision. Defined.
Definition PathType_as_str (t : PathType) : bytes :=
  match t with PathType_Ipfs => ipfs_str | PathType_Ipns => ipns_str end.

Inductive CidOrDomain := Root_Cid (c : Cid) | Root_Domain (d : bytes).
Definition CidOrDomain_fmt (r : CidOrDomain) : bytes :=
  match r with Root_Cid c => cid_to_str c | Root_Domain s => s end.

Record Path := { path_typ : PathType; path_root : CidOrDomain; path_tail : list bytes }.

Definition Path_from_cid (c : Cid) : Path := {| path_typ := PathType_Ipfs; path_root := Root_Cid c; path_tail := [] |}.

Definition MAX_INLINE_KEY_LENGTH : Z := 42.
Definition from_peer_id (id : bytes) : option Multihash :=
  b ← bs58_decode id;
  multihash ← multihash_from_bytes b;
  if mh_code multihash =? 0x12 then Some multihash
  else if (mh_code multihash =? 0x00) && (Z.of_nat (length (mh_digest multihash)) <=? MAX_INLINE_KEY_LENGTH)
  then Some multihash
  else None.

Definition Path_from_parts (scheme cid_or_domain tail_path : bytes) : res string Path :=
  '(typ, root) ←
    (if eq_ignore_ascii_case scheme ipns_str then
       let root := match cid_from_str cid_or_domain with
                   | Some cid => Root_Cid cid
                   | None =>
                       match from_peer_id cid_or_domain with
                       | Some multihash => Root_Cid (cid_new_v1 Codec_Libp2pKey multihash)
                       | None => Root_Domain cid_or_domain
                       end
                   end in
       Ok (PathType_Ipns, root)
     else
       root ← ok_or (cid_from_str cid_or_domain) "invalid cid"%string;
       Ok (PathType_Ipfs, Root_Cid root));
  let tail := path_parts tail_path in
  let tail := if ends_with_slash tail_path then tail ++ [[]] else tail in
  Ok {| path_typ := typ; path_root := root; path_tail := tail |}.

Definition has_trailing_slash (p : Path) : bool := bool_decide (last (path_tail p) = Some []).

Definition Path_push (s : bytes) (p : Path) : Path :=
  {| path_typ := path_typ p; path_root := path_root p; path_tail := path_tail p ++ [s] |}.

Definition to_relative_string (p : Path) : bytes := join_slash (path_tail p).

Definition Path_cid (p : Path) : option Cid :=
  match path_root p with Root_Cid c => Some c | Root_Domain _ => None end.

Definition Path_fmt (p : Path) : bytes :=
  SLASH :: PathType_as_str (path_typ p) ++ SLASH :: CidOrDomain_fmt (path_root p)
  ++ (path_tail p ≫= λ part, match part with [] => [] | _ => SLASH :: part end)
  ++ (if has_trailing_slash p then [SLASH] else []).

(** [parts.next().ok_or_else(..)?] *)
Definition next_part (parts : list bytes) : res string (bytes * list bytes) :=
  match parts with
  | part :: parts => Ok (part, parts)
  | [] => Err "path too short"%string
  end.

Definition Path_from_str (s : bytes) : res string Path :=
  '(first_part, parts) ← next_part (path_parts s);
  '(typ, root, parts) ←
    (if eq_ignore_ascii_case first_part ipns_str then
       '(root, parts) ← next_part parts;
       let root := match cid_from_str root with Some c => Root_Cid c | None => Root_Domain root end in
       Ok (PathType_Ipns, root, parts)
     else
       '(root, parts) ← (if eq_ignore_ascii_case first_part ipfs_str then next_part parts else Ok (first_part, parts));
       root ← ok_or (cid_from_str root) "invalid cid"%string;
       Ok (PathType_Ipfs, Root_Cid root, parts));
  let tail := if ends_with_slash s then parts ++ [[]] else parts in
  Ok {| path_typ := typ; path_root := root; path_tail := tail |}.

(** ** DNSLink *)

Definition dot : Z := 46.
Definition dnslink_prefix : bytes := str "_dnslink.".
Definition dnslink_eq : bytes := str "dnslink=".

(** [txt_lookup] of a resolver *)
Definition txt_lookup := bytes → res string (list bytes).
Record DnsResolver := { default_resolver : txt_lookup; tld_resolvers : option (gmap bytes txt_lookup) }.

Definition resolve_txt_record (r : DnsResolver) (url : bytes) : res string (list bytes) :=
  let tld := last (filter (λ p, p ≠ []) (split_on (Z.eqb dot) url)) in
  let resolver := match tld with
                  | Some tld =>
                      match tld_resolvers r with
                      | Some m => default (default_resolver r) (m !! tld)
                      | None => default_resolver r
                      end
                  | None => default_resolver r
                  end in
  resolver url.

Definition resolve_dnslink (r : DnsResolver) (url : bytes) : res string (list Path) :=
  records ← resolve_txt_record r (dnslink_prefix ++ url ++ [dot]);
  collect ((λ rec, Path_from_str (trim (trim_start_matches dnslink_eq rec)))
           <$> filter (λ rec, is_Some (strip_prefix dnslink_eq rec)) records).
End paths.
