(* ===== verification/PathsFacts.v ===== *)
(** * Theorems on IPFS paths

    Printing a path and parsing it back, what the parser accepts, and which paths a DNSLink
    lookup returns. *)

From stdpp Require Import prelude strings list gmap.
From Stdlib Require Import ZArith Lia.
From S2P Require Import Prelude Cids Bits Unixfs Chunker ChunkerFacts Paths.
Local Open Scope Z_scope.

#[local] Arguments eq_ignore_ascii_case : simpl never.
#[local] Arguments ipfs_str : simpl never.
#[local] Arguments ipns_str : simpl never.

(** ** Splitting *)

Definition no_sep (s : bytes) : Prop := Forall (λ b, is_sep b = false) s.
(** What the parser takes for one part of a path *)
Definition good_part (s : bytes) : Prop := s ≠ [] ∧ no_sep s.

Lemma split_on_nonempty p s : split_on p s ≠ [].
Proof. destruct s as [|b s]; simpl; [done|]. destruct (p b); [done|]. by destruct (split_on p s). Qed.

Lemma split_on_app p s t : Forall (λ b, p b = false) s →
  split_on p (s ++ t) = match split_on p t with part :: parts => (s ++ part) :: parts | [] => [s] end.
Proof.
  induction 1 as [|b s Hb Hs IH]; simpl.
  - pose proof (split_on_nonempty p t). by destruct (split_on p t).
  - rewrite Hb, IH. by destruct (split_on p t).
Qed.

Lemma split_on_parts p s : Forall (Forall (λ b, p b = false)) (split_on p s).
Proof.
  induction s as [|b s IH]; simpl; [by repeat constructor|].
  destruct (p b) eqn:Hb; [by constructor|].
  destruct IH; repeat constructor; done.
Qed.

Lemma path_parts_good s : Forall good_part (path_parts s).
Proof.
  apply Forall_forall; intros x [Hne Hin]%list_elem_of_filter.
  split; [done|]. pose proof (split_on_parts is_sep s) as Hall.
  rewrite Forall_forall in Hall. by apply Hall.
Qed.

Lemma path_parts_slash s : path_parts (SLASH :: s) = path_parts s.
Proof. done. Qed.

Lemma path_parts_one s : good_part s → path_parts s = [s].
Proof.
  intros [Hne Hs]. unfold path_parts. rewrite <-(app_nil_r s) at 1.
  rewrite split_on_app by done. simpl. rewrite app_nil_r.
  by rewrite filter_cons_True.
Qed.

Lemma path_parts_cons s t : good_part s → path_parts (s ++ SLASH :: t) = s :: path_parts t.
Proof.
  intros [Hne Hs]. unfold path_parts. rewrite split_on_app by done. simpl.
  rewrite app_nil_r. by rewrite filter_cons_True.
Qed.

(** ** Parts written out *)

Definition slashed (parts : list bytes) : bytes := parts ≫= λ p, SLASH :: p.

Lemma path_parts_slashed parts (t : bool) : Forall good_part parts →
  path_parts (slashed parts ++ if t then [SLASH] else []) = parts.
Proof.
  induction 1 as [|p parts Hp Hps IH]; [by destruct t|].
  unfold slashed in *; simpl. rewrite <-app_assoc.
  change (path_parts (SLASH :: ?s)) with (path_parts s).
  destruct parts as [|q parts]; simpl in *.
  - destruct t; simpl; [by rewrite path_parts_cons|]. rewrite app_nil_r. by apply path_parts_one.
  - rewrite path_parts_cons by done. f_equal. exact IH.
Qed.

Lemma last_good p : good_part p → last p ≠ Some SLASH.
Proof.
  intros [_ Hs] Hl. apply last_Some_elem_of in Hl.
  unfold no_sep in Hs. rewrite Forall_forall in Hs. by specialize (Hs _ Hl).
Qed.

Lemma ends_with_slash_slashed parts (t : bool) : Forall good_part parts → parts ≠ [] →
  ends_with_slash (slashed parts ++ if t then [SLASH] else []) = t.
Proof.
  intros Hps Hne. unfold ends_with_slash. destruct t.
  - by rewrite last_snoc, bool_decide_true.
  - rewrite app_nil_r. apply bool_decide_false.
    destruct (exists_last Hne) as (init & p & ->).
    apply Forall_app in Hps as [_ [Hp _]%Forall_cons].
    unfold slashed. rewrite bind_app; simpl. rewrite app_nil_r.
    change (SLASH :: p) with ([SLASH] ++ p). rewrite app_assoc, last_app.
    destruct (last p) eqn:Hl; [rewrite <-Hl; by apply last_good|].
    apply last_None in Hl as ->. by destruct Hp.
Qed.

Section facts.
Context `{UnixfsProto} `{!PathText} `{!PathTextLaws}.

(** ** Well-formed paths *)

Definition root_wf (t : PathType) (r : CidOrDomain) : Prop :=
  match r with
  | Root_Cid _ => True
  | Root_Domain d => t = PathType_Ipns ∧ good_part d ∧ cid_from_str d = None
  end.
Definition tail_wf (tail : list bytes) : Prop :=
  ∃ parts (t : bool), Forall good_part parts ∧ tail = parts ++ if t then [[]] else [].
Definition path_wf (p : Path) : Prop := root_wf (path_typ p) (path_root p) ∧ tail_wf (path_tail p).

Lemma root_text_good t r : root_wf t r → good_part (CidOrDomain_fmt r).
Proof.
  destruct r as [c|d]; simpl; [intros _|by intros (_ & ? & _)].
  split; [apply cid_str_nonempty|apply cid_str_no_sep].
Qed.

Lemma typ_text_good t : good_part (PathType_as_str t).
Proof. destruct t; (split; [done|]); by repeat constructor. Qed.

Lemma tail_text parts (t : bool) : Forall good_part parts →
  ((parts ++ if t then [[]] else []) ≫= λ part, match part with [] => [] | _ => SLASH :: part end) = slashed parts.
Proof.
  intros Hps. rewrite bind_app. replace (mbind _ (if t then _ else _)) with (@nil Z) by by destruct t.
  rewrite app_nil_r. unfold slashed.
  induction Hps as [|p parts [Hne _] Hps IH]; [done|].
  destruct p as [|b p]; [done|]. rewrite !bind_cons. by rewrite IH.
Qed.

Lemma tail_trailing parts (t : bool) : Forall good_part parts →
  bool_decide (last (parts ++ if t then [[]] else []) = Some []) = t.
Proof.
  intros Hps. destruct t; [by rewrite last_snoc, bool_decide_true|].
  rewrite app_nil_r. apply bool_decide_false. intros Hl%last_Some_elem_of.
  rewrite Forall_forall in Hps. by destruct (Hps _ Hl).
Qed.

(** The text of a path is its parts, each after a slash. *)
Lemma Path_fmt_slashed t r parts (tr : bool) : Forall good_part parts →
  Path_fmt {| path_typ := t; path_root := r; path_tail := parts ++ if tr then [[]] else [] |} =
  slashed (PathType_as_str t :: CidOrDomain_fmt r :: parts) ++ if tr then [SLASH] else [].
Proof.
  intros Hps. unfold Path_fmt, has_trailing_slash; cbn [path_typ path_root path_tail].
  rewrite tail_text, tail_trailing by done. unfold slashed; simpl. by rewrite <-!app_assoc; simpl; rewrite <-!app_assoc.
Qed.

Lemma eq_ignore_typ (t : PathType) :
  eq_ignore_ascii_case (PathType_as_str t) ipns_str = bool_decide (t = PathType_Ipns) ∧
  eq_ignore_ascii_case (PathType_as_str t) ipfs_str = bool_decide (t = PathType_Ipfs).
Proof. by destruct t. Qed.

Lemma from_str_fmt p : path_wf p → Path_from_str (Path_fmt p) = Ok p.
Proof.
  destruct p as [t r tail]; intros [Hr (parts & tr & Hps & Ht)]; cbn in Hr, Ht; subst tail.
  pose proof (root_text_good _ _ Hr) as Hg. pose proof (typ_text_good t) as Ht.
  rewrite Path_fmt_slashed by done. unfold Path_from_str.
  rewrite path_parts_slashed, ends_with_slash_slashed by auto using Forall_cons_2.
  cbn [next_part]. destruct (eq_ignore_typ t) as [E1 E2]. simpl. rewrite E1, E2.
  destruct t; simpl.
  - destruct r as [c|d]; [|by destruct Hr]. simpl. rewrite cid_str_roundtrip. simpl.
    by destruct tr; rewrite ?app_nil_r.
  - destruct r as [c|d]; simpl.
    + rewrite cid_str_roundtrip. by destruct tr; rewrite ?app_nil_r.
    + destruct Hr as (_ & _ & ->). by destruct tr; rewrite ?app_nil_r.
Qed.

(** ** What the parser returns *)

Lemma next_part_ok parts p rest : next_part parts = Ok (p, rest) → parts = p :: rest.
Proof. destruct parts; [done|]. simpl. congruence. Qed.

Lemma tail_of_parts s parts : Forall good_part parts → tail_wf (if ends_with_slash s then parts ++ [[]] else parts).
Proof.
  intros Hps. exists parts, (ends_with_slash s). split; [done|].
  destruct (ends_with_slash s); by rewrite ?app_nil_r.
Qed.

Lemma from_str_wf s p : Path_from_str s = Ok p → path_wf p.
Proof.
  unfold Path_from_str. pose proof (path_parts_good s) as Hg.
  destruct (next_part (path_parts s)) as [[first rest]| |] eqn:E1; [|done..].
  apply next_part_ok in E1. rewrite E1 in Hg. apply Forall_cons in Hg as [Hf Hr]. cbn.
  destruct (eq_ignore_ascii_case first ipns_str).
  - destruct (next_part rest) as [[root rest']| |] eqn:E2; [|done..].
    apply next_part_ok in E2 as ->. apply Forall_cons in Hr as [Hroot Hr]. cbn.
    intros [= <-]. split; cbn; [|by apply tail_of_parts].
    by destruct (cid_from_str root) eqn:?.
  - destruct (if eq_ignore_ascii_case first ipfs_str then _ else _) as [[root rest']| |] eqn:E2; [|done..]. cbn.
    destruct (cid_from_str root) as [c|]; [|done]. cbn. intros [= <-]. split; cbn; [done|].
    apply tail_of_parts. destruct (eq_ignore_ascii_case first ipfs_str).
    + apply next_part_ok in E2 as ->. by apply Forall_cons in Hr as [_ ?].
    + by injection E2 as -> ->.
Qed.

Lemma from_parts_wf scheme root tail p : good_part root → Path_from_parts scheme root tail = Ok p → path_wf p.
Proof.
  intros Hroot. unfold Path_from_parts. destruct (eq_ignore_ascii_case scheme ipns_str); cbn.
  - intros [= <-]. split; cbn; [|apply tail_of_parts, path_parts_good].
    destruct (cid_from_str root) eqn:?; [done|]. by destruct (from_peer_id root).
  - destruct (cid_from_str root) as [c|]; [|done]. cbn. intros [= <-].
    split; cbn; [done|]. apply tail_of_parts, path_parts_good.
Qed.

(** C18: the text of a path read by either parser is read back as the same path: the root, the kind,
    the tail and the trailing slash survive printing, whatever separators, repeated separators and
    letter case the original text had. *)
Theorem path_print_parse p :
  (∃ s, Path_from_str s = Ok p) ∨ (∃ scheme root tail, good_part root ∧ Path_from_parts scheme root tail = Ok p) →
  Path_from_str (Path_fmt p) = Ok p.
Proof.
  intros [(s & Hs)|(scheme & root & tail & Hroot & Hp)]; apply from_str_fmt;
    [by eapply from_str_wf|by eapply from_parts_wf].
Qed.

(** ** DNSLink *)

Lemma white_at_slash s : white_at (SLASH :: s) = None.
Proof. by destruct s as [|? []]. Qed.

Lemma trim_start_fmt p : trim_start (Path_fmt p) = Path_fmt p.
Proof. unfold Path_fmt, trim_start; cbn [length trim_start_n]. by rewrite white_at_slash. Qed.

Lemma trim_start_matches_app p s n : strip_prefix p s = None → (length s < n)%nat →
  trim_start_matches_n n p (p ++ s) = s.
Proof.
  intros Hs Hn. destruct n as [|[|n]]; cbn [trim_start_matches_n]; [lia|..]; rewrite strip_prefix_app; [|by rewrite Hs].
  by destruct s; cbn in Hn; [|lia].
Qed.

Lemma dnslink_value p :
  trim_start_matches dnslink_eq (dnslink_eq ++ Path_fmt p) = Path_fmt p.
Proof. apply trim_start_matches_app; [done|]. rewrite length_app. simpl. lia. Qed.

(** A record as a publisher writes it: a DNSLink to a path, or some other text *)
Definition dns_record (r : Path + bytes) : bytes :=
  match r with inl p => dnslink_eq ++ Path_fmt p | inr s => s end.
Definition record_ok (r : Path + bytes) : Prop :=
  match r with
  | inl p => path_wf p ∧ trim_end (Path_fmt p) = Path_fmt p
  | inr s => strip_prefix dnslink_eq s = None
  end.

Lemma published_records rs : Forall record_ok rs →
  collect ((λ rec, Path_from_str (trim (trim_start_matches dnslink_eq rec)))
           <$> filter (λ rec, is_Some (strip_prefix dnslink_eq rec)) (dns_record <$> rs))
  = Ok (omap (λ r, match r with inl p => Some p | inr _ => None end) rs).
Proof.
  induction 1 as [|[p|s] rs Hr Hrs IH]; [done|..]; cbn [fmap list_fmap dns_record].
  - destruct Hr as [Hp Ht]. rewrite filter_cons_True by (rewrite strip_prefix_app; eauto).
    rewrite fmap_cons, dnslink_value. unfold trim at 1.
    rewrite trim_start_fmt, Ht, from_str_fmt by done. cbn [collect]. by rewrite IH.
  - change (strip_prefix dnslink_eq s = None) in Hr.
    rewrite filter_cons_False by (rewrite Hr; by intros []). exact IH.
Qed.

(** A DNSLink lookup asks the resolver of the top level domain for [_dnslink.<domain>.] and returns
    exactly the paths published there, in the order of the records, whatever other TXT records
    there are. *)
Theorem dnslink_published r domain tld m lookup rs :
  last (filter (λ p, p ≠ []) (split_on (Z.eqb dot) (dnslink_prefix ++ domain ++ [dot]))) = Some tld →
  tld_resolvers r = Some m →
  lookup = default (default_resolver r) (m !! tld) →
  lookup (dnslink_prefix ++ domain ++ [dot]) = Ok (dns_record <$> rs) →
  Forall record_ok rs →
  resolve_dnslink r domain = Ok (omap (λ r, match r with inl p => Some p | inr _ => None end) rs).
Proof.
  intros Ht Hm -> Hl Hrs. unfold resolve_dnslink, resolve_txt_record. cbv zeta.
  rewrite Ht, Hm, Hl. by apply published_records.
Qed.
End facts.

(** ** A concrete text form

    A CID is written as a letter and its numbers, which skip the two separators. *)
Module PathsToy.
Import UnixfsToy.

Definition skip (z : Z) : Z := if z <? 47 then z else if z <? 91 then z + 1 else z + 2.
Definition unskip (z : Z) : Z := if z <? 47 then z else if z <? 92 then z - 1 else z - 2.

Lemma unskip_skip z : unskip (skip z) = z.
Proof. unfold skip, unskip. repeat case_match; lia. Qed.
Lemma skip_no_sep z : is_sep (skip z) = false.
Proof. unfold is_sep, skip, SLASH, BACKSLASH. repeat case_match; lia. Qed.

Definition text : PathText := {|
  cid_from_str := λ s, match s with
                       | 122 :: k :: h => Some ((unskip k, unskip <$> h) : @Cid ids)
                       | _ => None
                       end;
  cid_to_str := λ c : @Cid ids, let '(k, h) := (c : Z * list Z) in 122 :: skip k :: (skip <$> h);
  bs58_decode := λ s, match s with 49 :: d => Some d | _ => None end;
  multihash_from_bytes := λ b, Some (b : @Multihash _ multiformats)
|}.
#[export] Existing Instance text.

#[export] Instance text_laws : PathTextLaws.
Proof.
  split.
  - intros [k h]. simpl. rewrite unskip_skip, <-list_fmap_compose.
    do 2 f_equal. rewrite <-(list_fmap_id h) at 2. apply list_fmap_ext. intros ???; apply unskip_skip.
  - by intros [].
  - intros [k h]. repeat constructor; [apply skip_no_sep|].
    apply Forall_fmap, Forall_forall. intros; apply skip_no_sep.
Qed.

(** [\\IPFS//z01//a\\b/] *)
Definition messy : bytes := [92; 73; 80; 70; 83; 47; 47; 122; 48; 49; 47; 47; 97; 92; 98; 47].
Definition tidy : Path :=
  {| path_typ := PathType_Ipfs; path_root := Root_Cid ((47, [48]) : @Cid ids); path_tail := [[97]; [98]; []] |}.

Lemma path_print_parse_witness : Path_from_str messy = Ok tidy ∧ Path_from_str (Path_fmt tidy) = Ok tidy.
Proof.
  split; [by vm_compute|]. apply path_print_parse. left. exists messy. by vm_compute.
Defined.

Definition eth : bytes := [101; 116; 104].
Definition records : list (Path + bytes) := [inr [118; 61]; inl tidy; inl (Path_from_cid ((1, [2]) : @Cid ids))].
Definition dns : DnsResolver :=
  {| default_resolver := λ _, Err "no such name"%string;
     tld_resolvers := Some {[ eth := λ _, Ok (dns_record <$> records) ]} |}.

Lemma dnslink_published_witness :
  resolve_dnslink dns ([97; 46] ++ eth) = Ok [tidy; Path_from_cid ((1, [2]) : @Cid ids)].
Proof.
  apply (dnslink_published dns ([97; 46] ++ eth) eth {[ eth := λ _, Ok (dns_record <$> records) ]}
           (λ _, Ok (dns_record <$> records)) records); try by vm_compute.
  repeat constructor; try by vm_compute.
  - exists [[97]; [98]], true. split; [|done]. by repeat constructor.
  - exists [], false. by split.
Defined.

(** The two parsers differ on a peer id: one reads it as a key, the other as a domain. *)
Lemma peer_id_parsers_differ :
  (Path_from_parts ipns_str [49; 55] [], Path_from_str ([47] ++ ipns_str ++ [47; 49; 55]))
  = (Ok {| path_typ := PathType_Ipns; path_root := Root_Cid ((0x72, [55]) : @Cid ids); path_tail := [] |},
     Ok {| path_typ := PathType_Ipns; path_root := Root_Domain [49; 55]; path_tail := [] |}).
Proof. by vm_compute. Qed.
End PathsToy.
