(* ===== verification/Resolver.v ===== *)
(** * Resolving paths

    Models [iroh-resolver/src/resolver.rs] and [parse_links] of [iroh-unixfs/src/lib.rs].
    The loader and the DNS resolver are arguments; awaiting them makes no difference to a
    result.  IPLD values are those of [libipld], the class [IpldLib].  A loader context is
    its number; the stopping of sessions when contexts are dropped is not modelled. *)

From stdpp Require Import prelude strings list gmap.
From Stdlib Require Import ZArith Lia.
From S2P Require Import Prelude Cids Bits Unixfs Chunker Reader Builder Hamt Paths.
Local Open Scope Z_scope.

(** ** IPLD *)

Inductive IpldCodec := IpldCodec_Raw | IpldCodec_DagCbor | IpldCodec_DagJson | IpldCodec_DagPb.
#[export] Instance IpldCodec_eq_dec : EqDecision IpldCodec.
Proof. solve_decision. Defined.

Inductive IpldIndex := Index_List (i : Z) | Index_Map (key : bytes).

(** [ipld_iter] walks a value, itself first; the cids of [codec_references] come out of a
    [BTreeSet]. *)
Class IpldLib `{Multiformats} := {
  Ipld : Type;
  ipld_codec_try_from : Z → option IpldCodec;
  ipld_decode : IpldCodec → bytes → option Ipld;
  ipld_encode : IpldCodec → Ipld → option bytes;
  ipld_link : Ipld → option Cid;
  ipld_string : Ipld → option bytes;
  ipld_take : IpldIndex → Ipld → option Ipld;
  ipld_iter : Ipld → list Ipld;
  ipld_references : Ipld → list Cid;
  codec_references : IpldCodec → bytes → option (list Cid)
}.

Definition Links_str : bytes := str "Links".
Definition Name_str : bytes := str "Name".
Definition Hash_str : bytes := str "Hash".

(** [slice.chunks(n)]; a slice is not longer than its chunks together. *)
Fixpoint chunks_n {A} (fuel n : nat) (l : list A) : list (list A) :=
  match fuel, l with
  | S fuel, _ :: _ => take n l :: chunks_n fuel n (drop n l)
  | _, _ => []
  end.
Definition chunks {A} (n : nat) (l : list A) : list (list A) := chunks_n (length l) n l.

Inductive Source := Source_Bitswap | Source_Http (url : bytes) | Source_Store (name : string).
Record LoadedCid := { loaded_data : bytes; loaded_source : Source }.

Inductive OutType := OutType_DagPb | OutType_Unixfs | OutType_DagCbor | OutType_DagJson | OutType_Raw.
Inductive UnixfsType := UnixfsType_Dir | UnixfsType_File | UnixfsType_Symlink.
#[export] Instance UnixfsType_eq_dec : EqDecision UnixfsType.
Proof. solve_decision. Defined.

Section resolver.
Context `{UnixfsProto} `{!PathText} `{!IpldLib}.

Definition parse_links (cid : Cid) (b : bytes) : res string (list Cid) :=
  ensure (codec_known (cid_codec cid)) "unknown codec"%string;;
  codec ← (if cid_codec cid =? Codec_DagCbor then Ok IpldCodec_DagCbor
           else if cid_codec cid =? Codec_DagPb then Ok IpldCodec_DagPb
           else if cid_codec cid =? Codec_DagJson then Ok IpldCodec_DagJson
           else if cid_codec cid =? Codec_Raw then Ok IpldCodec_Raw
           else Err "unsupported codec"%string);
  ok_or (codec_references codec b) "invalid block"%string.

(** ** Results *)

Record OutRaw := { or_source : Source; or_content : bytes; or_cid : Cid }.
Definition OutRaw_from_loaded (cid : Cid) (loaded : LoadedCid) : OutRaw :=
  {| or_source := loaded_source loaded; or_content := loaded_data loaded; or_cid := cid |}.
Definition OutRaw_links (o : OutRaw) : res string (list Cid) := parse_links (or_cid o) (or_content o).

Inductive OutContent :=
  | OutContent_DagPb (i : Ipld) (b : bytes)
  | OutContent_Unixfs (n : UnixfsNode)
  | OutContent_DagCbor (i : Ipld) (b : bytes)
  | OutContent_DagJson (i : Ipld) (b : bytes)
  | OutContent_Raw (i : Ipld) (b : bytes).

Record Metadata := {
  md_path : Path;
  md_size : option Z;
  md_typ : OutType;
  md_unixfs_type : option UnixfsType;
  md_resolved_path : list Cid;
  md_source : Source
}.

Record Out := { out_metadata : Metadata; out_content : OutContent; out_context : Z }.

Definition OutContent_typ (c : OutContent) : OutType :=
  match c with
  | OutContent_DagPb _ _ => OutType_DagPb
  | OutContent_Unixfs _ => OutType_Unixfs
  | OutContent_DagCbor _ _ => OutType_DagCbor
  | OutContent_DagJson _ _ => OutType_DagJson
  | OutContent_Raw _ _ => OutType_Raw
  end.

Definition OutContent_links (c : OutContent) : res string (list Cid) :=
  match c with
  | OutContent_DagPb i _ | OutContent_DagCbor i _ | OutContent_DagJson i _ | OutContent_Raw i _ =>
      Ok (ipld_references i)
  | OutContent_Unixfs n => ls ← links_owned n; Ok (map link_cid ls)
  end.

Definition out_is_mutable (o : Out) : bool := bool_decide (path_typ (md_path (out_metadata o)) = PathType_Ipns).
Definition out_is_dir (o : Out) : bool :=
  match out_content o with OutContent_Unixfs n => is_dir n | _ => false end.
Definition out_is_symlink (o : Out) : bool :=
  bool_decide (md_unixfs_type (out_metadata o) = Some UnixfsType_Symlink).
Definition out_links (o : Out) : res string (list Cid) := OutContent_links (out_content o).

Definition out_named_links (o : Out) : res string (list (option bytes * Cid)) :=
  match out_content o with
  | OutContent_Unixfs n => ls ← links_owned n; Ok (map (λ l, (link_name l, link_cid l)) ls)
  | c => ls ← OutContent_links c; Ok (map (λ l, (None, l)) ls)
  end.

(** ** Reading a result *)

Record BytesReader := { br_pos : Z; br_bytes : bytes }.

Inductive OutPrettyReader :=
  | Pretty_DagPb (r : BytesReader)
  | Pretty_Unixfs (r : Reader)
  | Pretty_DagCbor (r : BytesReader)
  | Pretty_DagJson (r : BytesReader)
  | Pretty_Raw (r : BytesReader).

(** [bytes.truncate(pos_max)] *)
Definition truncated (b : bytes) (pos_max : option Z) : BytesReader :=
  {| br_pos := 0; br_bytes := match pos_max with Some m => take (Z.to_nat m) b | None => b end |}.

Definition out_pretty (o : Out) (pos_max : option Z) : res string OutPrettyReader :=
  match out_content o with
  | OutContent_DagPb _ b => Ok (Pretty_DagPb (truncated b pos_max))
  | OutContent_DagCbor _ b => Ok (Pretty_DagCbor (truncated b pos_max))
  | OutContent_DagJson _ b => Ok (Pretty_DagJson (truncated b pos_max))
  | OutContent_Raw _ b => Ok (Pretty_Raw (truncated b pos_max))
  | OutContent_Unixfs n =>
      r ← into_content_reader n pos_max;
      reader ← ok_or r "cannot read the contents of a directory"%string;
      Ok (Pretty_Unixfs reader)
  end.

Definition BytesReader_size (r : BytesReader) : option Z := Some (Z.of_nat (length (br_bytes r))).

(** [UnixfsContentReader::size] is the file size of the root node *)
Definition pretty_size (p : OutPrettyReader) : option Z :=
  match p with
  | Pretty_DagPb r | Pretty_DagCbor r | Pretty_DagJson r | Pretty_Raw r => BytesReader_size r
  | Pretty_Unixfs r => unixfs_filesize (rd_root r)
  end.

Definition bytes_read (remaining : Z) (r : BytesReader) : poll (res string bytes) * BytesReader :=
  match slice_from (br_bytes r) (br_pos r) with
  | Ok d =>
      let out := read_data_to_buf (br_pos r) (Some (Z.of_nat (length (br_bytes r)))) d remaining in
      (Ready (Ok out),
       {| br_pos := Int.usize_add (br_pos r) (Z.of_nat (length out)); br_bytes := br_bytes r |})
  | _ => (Ready Panic, r)
  end.

Definition bytes_seek (s : SeekFrom) (r : BytesReader) : res string unit * BytesReader :=
  let pos_current := as_i64 (br_pos r) in
  let data_len := Z.of_nat (length (br_bytes r)) in
  let at_pos p := {| br_pos := p; br_bytes := br_bytes r |} in
  if data_len =? 0 then (Err "cannot seek on empty data"%string, r)
  else
    match s with
    | SeekStart pos => (Ok tt, at_pos (Z.min (data_len - 1) pos))
    | SeekEnd pos =>
        let i := Z.rem (Int.swrap 64 (as_i64 data_len + pos)) (as_i64 data_len) in
        (Ok tt, at_pos (Int.wrap 64 (if i <? 0 then i + as_i64 data_len else i)))
    | SeekCurrent pos =>
        let i := Z.min (as_i64 data_len - 1) (Int.swrap 64 (pos_current + pos)) in
        (Ok tt, at_pos (Int.wrap 64 (Z.max 0 i)))
    end.

(** Apply an operation to the reader inside. *)
Definition with_bytes {A} (f : BytesReader → A * BytesReader) (r : BytesReader)
    (wrap : BytesReader → OutPrettyReader) : A * OutPrettyReader :=
  let '(a, r) := f r in (a, wrap r).

Definition pretty_poll_read (fuel : nat) (load : loader) (remaining : Z) (p : OutPrettyReader)
    : option (poll (res string bytes) * OutPrettyReader) :=
  match p with
  | Pretty_DagPb r => Some (with_bytes (bytes_read remaining) r Pretty_DagPb)
  | Pretty_DagCbor r => Some (with_bytes (bytes_read remaining) r Pretty_DagCbor)
  | Pretty_DagJson r => Some (with_bytes (bytes_read remaining) r Pretty_DagJson)
  | Pretty_Raw r => Some (with_bytes (bytes_read remaining) r Pretty_Raw)
  | Pretty_Unixfs r =>
      match poll_read fuel load remaining r with
      | Some (x, r) => Some (x, Pretty_Unixfs r)
      | None => None
      end
  end.

Definition pretty_start_seek (s : SeekFrom) (p : OutPrettyReader) : res string unit * OutPrettyReader :=
  match p with
  | Pretty_DagPb r => with_bytes (bytes_seek s) r Pretty_DagPb
  | Pretty_DagCbor r => with_bytes (bytes_seek s) r Pretty_DagCbor
  | Pretty_DagJson r => with_bytes (bytes_seek s) r Pretty_DagJson
  | Pretty_Raw r => with_bytes (bytes_seek s) r Pretty_Raw
  | Pretty_Unixfs r => let '(x, r) := start_seek s r in (x, Pretty_Unixfs r)
  end.

Definition pretty_poll_complete (p : OutPrettyReader) : Z :=
  match p with
  | Pretty_DagPb r | Pretty_DagCbor r | Pretty_DagJson r | Pretty_Raw r => br_pos r
  | Pretty_Unixfs r => poll_complete r
  end.

(** ** Walking an IPLD value *)

Section with_loader.
Context (load_cid : Cid → res string LoadedCid) (dns_resolver : DnsResolver) (murmur3 : bytes → Z).

Definition fetch_data (c : Cid) : res string bytes := loaded ← load_cid c; Ok (loaded_data loaded).

Definition load_ipld_link (cid : Cid) : res string (IpldCodec * Ipld) :=
  codec ← ok_or (ipld_codec_try_from (cid_codec cid)) "unsupported codec"%string;
  loaded_cid ← load_cid cid;
  ipld ← ok_or (ipld_decode codec (loaded_data loaded_cid)) "invalid block"%string;
  Ok (codec, ipld).

(** The loop over the links of a dag-pb node *)
Fixpoint find_dagpb_link (name : bytes) (links : list Ipld) : res string Ipld :=
  match links with
  | [] => Err "could not find DagPb link"%string
  | dagpb_link :: links =>
      n ← ok_or (ipld_take (Index_Map Name_str) dagpb_link) "Expected the Dagpb link to have a 'Name' field"%string;
      match ipld_string n with
      | Some n =>
          if bool_decide (n = name) then
            ok_or (ipld_take (Index_Map Hash_str) dagpb_link) "Expected the DagPb link to have a 'Hash' field"%string
          else find_dagpb_link name links
      | None => Err "expected DagPb link to have a string Name field"%string
      end
  end.

Definition get_dagpb_link (i : Ipld) (name : bytes) : res string Ipld :=
  links ← ok_or (ipld_take (Index_Map Links_str) i) "Expected the DagPb node to have a list of links."%string;
  find_dagpb_link name (tail (ipld_iter links)).

(** [if let Ipld::Link(c) = current { (codec, current) = load(c)? }] *)
Definition follow_link (state : IpldCodec * Ipld) : res string (IpldCodec * Ipld) :=
  match ipld_link state.2 with Some c => load_ipld_link c | None => Ok state end.

Definition ipld_step (state : IpldCodec * Ipld) (part : bytes) : res string (IpldCodec * Ipld) :=
  '(codec, current) ← follow_link state;
  if bool_decide (codec = IpldCodec_DagPb) then
    current ← get_dagpb_link current part; Ok (codec, current)
  else
    let index := match parse_usize part with Some i => Index_List i | None => Index_Map part end in
    current ← ok_or (ipld_take index current) "IPLD resolve error"%string;
    Ok (codec, current).

Definition resolve_ipld_path (codec : IpldCodec) (root : Ipld) (path : list bytes) : res string (IpldCodec * Ipld) :=
  state ← fold_res ipld_step (codec, root) (filter (λ s, s ≠ []) path);
  follow_link state.

Definition resolve_ipld (root_path : Path) (cid : Cid) (loaded_cid : LoadedCid) (ctx : Z) : res string Out :=
  codec ← ok_or (ipld_codec_try_from (cid_codec cid)) "unsupported codec"%string;
  ipld ← ok_or (ipld_decode codec (loaded_data loaded_cid)) "invalid block"%string;
  '(codec, out) ← resolve_ipld_path codec ipld (path_tail root_path);
  b ← match path_tail root_path with
      | [] => Ok (loaded_data loaded_cid)
      | _ => ok_or (ipld_encode codec out) "cannot encode"%string
      end;
  let '(typ, content) := match codec with
                         | IpldCodec_Raw => (OutType_Raw, OutContent_Raw out b)
                         | IpldCodec_DagCbor => (OutType_DagCbor, OutContent_DagCbor out b)
                         | IpldCodec_DagJson => (OutType_DagJson, OutContent_DagJson out b)
                         | IpldCodec_DagPb => (OutType_DagPb, OutContent_DagPb out b)
                         end in
  Ok {| out_metadata := {| md_path := root_path; md_size := Some (Z.of_nat (length b)); md_typ := typ;
                           md_unixfs_type := None; md_resolved_path := [cid];
                           md_source := loaded_source loaded_cid |};
        out_content := content; out_context := ctx |}.

(** ** Walking a UnixFS tree *)

Definition inner_resolve (state : UnixfsNode * list Cid) (part : bytes) : res string (UnixfsNode * list Cid) :=
  let '(current, resolved_path) := state in
  match current with
  | Unixfs.Directory _ =>
      next_link ← ok_or (get_link_by_name part current) "UnixfsNode::Directory link not found"%string;
      loaded_cid ← load_cid (link_cid next_link);
      next_node ← unixfs_decode (link_cid next_link) (loaded_data loaded_cid);
      Ok (next_node, resolved_path ++ [link_cid next_link])
  | HamtShard _ hamt =>
      x ← hamt_get fetch_data murmur3 hamt part;
      '(next_link, next_node) ← ok_or x "UnixfsNode::HamtShard link not found"%string;
      Ok (next_node, resolved_path ++ [link_cid next_link])
  | _ => Err "unexpected unixfs type"%string
  end.

Definition unixfs_type_of (u : UnixfsNode) : option UnixfsType :=
  match unixfs_typ u with
  | Some DT_Directory | Some DT_HamtShard => Some UnixfsType_Dir
  | Some DT_File | Some DT_Raw => Some UnixfsType_File
  | Some DT_Symlink => Some UnixfsType_Symlink
  | Some DT_Metadata => None
  | None => Some UnixfsType_File
  end.

Definition resolve_dag_pb_or_unixfs (root_path : Path) (cid : Cid) (loaded_cid : LoadedCid) (ctx : Z) : res string Out :=
  match unixfs_decode cid (loaded_data loaded_cid) with
  | Ok node =>
      '(current, resolved_path) ← fold_res inner_resolve (node, [cid]) (filter (λ s, s ≠ []) (path_tail root_path));
      Ok {| out_metadata := {| md_path := root_path; md_size := unixfs_filesize current; md_typ := OutType_Unixfs;
                               md_unixfs_type := unixfs_type_of current; md_resolved_path := resolved_path;
                               md_source := loaded_source loaded_cid |};
            out_content := OutContent_Unixfs current; out_context := ctx |}
  | Err _ => resolve_ipld root_path cid loaded_cid ctx
  | Panic => Panic
  end.

(** ** Roots *)

Definition MAX_LOOKUPS : nat := 16.

(** [load_ipns_record] is [todo!()] *)
Definition load_ipns_record (c : Cid) : res string Cid := Panic.

(** The lookups left are counted down. *)
Fixpoint resolve_lookups (n : nat) (current : Path) : res string Cid :=
  match n with
  | O => Err "too many recursive lookups"%string
  | S n =>
      match path_typ current, path_root current with
      | PathType_Ipfs, Root_Cid c => Ok c
      | PathType_Ipfs, Root_Domain _ => Err "invalid domain encountered"%string
      | PathType_Ipns, Root_Cid c => c ← load_ipns_record c; resolve_lookups n (Path_from_cid c)
      | PathType_Ipns, Root_Domain domain =>
          records ← resolve_dnslink dns_resolver domain;
          match records with
          | [] => Err "no valid dnslink records found"%string
          | first :: _ => resolve_lookups n first
          end
      end
  end.
Definition resolve_path_to_cid (root : Path) : res string Cid := resolve_lookups MAX_LOOKUPS root.

Definition resolve_root (root : Path) : res string (Cid * LoadedCid) :=
  cid ← resolve_path_to_cid root;
  loaded_cid ← load_cid cid;
  Ok (cid, loaded_cid).

Definition resolve_with_ctx (ctx : Z) (path : Path) (force_raw : bool) : res string Out :=
  '(root_cid, loaded_cid) ← resolve_root path;
  codec ← (if force_raw then Ok Codec_Raw
           else ensure (codec_known (cid_codec root_cid)) "unknown codec"%string;; Ok (cid_codec root_cid));
  if codec =? Codec_DagPb then resolve_dag_pb_or_unixfs path root_cid loaded_cid ctx
  else if (codec =? Codec_DagCbor) || (codec =? Codec_DagJson) || (codec =? Codec_Raw)
  then resolve_ipld path root_cid loaded_cid ctx
  else Err "unsupported codec"%string.

(** The counter [next_id] is an [AtomicU64]. *)
Definition next_id (id : Z) : Z := Int.wrap 64 (id + 1).

Definition resolve (id : Z) (path : Path) : res string Out * Z := (resolve_with_ctx id path false, next_id id).
Definition resolve_raw (id : Z) (path : Path) : res string Out * Z := (resolve_with_ctx id path true, next_id id).

(** ** Recursive resolution

    A stream is the list of the items it yields with how it ends; [None] is the lack of
    fuel. *)

Section mapped.
Context {Item : Type} (links_of : Item → res string (list Cid)) (resolve_one : Cid → res string Item).

(** The chunks of links are resolved one after the other; the queue grows by the results. *)
Fixpoint push_chunks (parts : list (list Cid)) (cids : list Item) : res string (list Item) :=
  match parts with
  | [] => Ok cids
  | link_chunk :: parts =>
      next ← collect (resolve_one <$> link_chunk);
      push_chunks parts (cids ++ next)
  end.

(** A turn of the loop up to its [yield]: the links of an item are counted and resolved *)
Definition expand (limit : option Z) (counter : Z) (current : Item) (cids : list Item) : res string (Z * list Item) :=
  links ← links_of current;
  let counter := Int.usize_add counter (Z.of_nat (length links)) in
  ensure (match limit with Some l => counter <=? l | None => true end)
    "Number of links exceeds the recursion limit."%string;;
  cids ← push_chunks (chunks 8 links) cids;
  Ok (counter, cids).

(** The loop of [resolve_recursive_mapped] *)
Fixpoint mapped_loop (fuel : nat) (limit : option Z) (counter : Z) (cids : list Item)
    : option (gen Item string unit) :=
  match fuel with
  | O => None
  | S fuel =>
      match cids with
      | [] => Some ([], Ok tt)
      | current :: cids =>
          match expand limit counter current cids with
          | Ok (counter, cids) =>
              match mapped_loop fuel limit counter cids with
              | Some (out, r) => Some (current :: out, r)
              | None => None
              end
          | Err e => Some ([], Err e)
          | Panic => Some ([], Panic)
          end
      end
  end.

Definition resolve_recursive_mapped (fuel : nat) (root : Path) (limit : option Z) : option (gen Item string unit) :=
  match (root_cid ← resolve_path_to_cid root; resolve_one root_cid) with
  | Ok root_block => mapped_loop fuel limit 0 [root_block]
  | Err e => Some ([], Err e)
  | Panic => Some ([], Panic)
  end.
End mapped.

Definition resolve_recursive (fuel : nat) (ctx : Z) (root : Path) : option (gen Out string unit) :=
  resolve_recursive_mapped out_links (λ cid, resolve_with_ctx ctx (Path_from_cid cid) false) fuel root None.

Definition resolve_recursive_raw (fuel : nat) (root : Path) (recursion_limit : option Z)
    : option (gen OutRaw string unit) :=
  resolve_recursive_mapped OutRaw_links
    (λ cid, loaded ← load_cid cid; Ok (OutRaw_from_loaded cid loaded)) fuel root recursion_limit.

(** [unixfs_read_dir]: the stream of [as_child_reader], [None] if not a directory *)
Definition as_child_reader (fuel : nat) (u : UnixfsNode) : option (gen Link string unit) :=
  match u with
  | Raw _ | RawNode _ | File _ | Symlink _ => None
  | Unixfs.Directory _ => Some (yield_links (unixfs_links u))
  | HamtShard _ hamt => Some (node_children fetch_data fuel hamt)
  end.
Definition unixfs_read_dir (fuel : nat) (o : Out) : option (gen Link string unit) :=
  match out_content o with OutContent_Unixfs n => as_child_reader fuel n | _ => None end.

(** [stream.try_collect()] *)
Definition try_collect {Y} (g : gen Y string unit) : res string (list Y) := g.2;; Ok g.1.

(** Resolve the links of a directory; each result goes with its path. *)
Fixpoint resolve_links (id : Z) (path : Path) (links : list Link) : list (Path * res string Out) * Z :=
  match links with
  | [] => ([], id)
  | link :: links =>
      let this_path := Path_push (default (cid_to_str (link_cid link)) (link_name link)) path in
      let '(r, id) := resolve id (Path_from_cid (link_cid link)) in
      let '(rs, id) := resolve_links id path links in
      ((this_path, r) :: rs, id)
  end.

Fixpoint with_paths_loop (fuel : nat) (id : Z) (blocks : list (Path * res string Out))
    : option (gen (Path * Out) string unit) :=
  match fuel with
  | O => None
  | S fuel =>
      match blocks with
      | [] => Some ([], Ok tt)
      | (path, Err e) :: _ => Some ([], Err e)
      | (_, Panic) :: _ => Some ([], Panic)
      | (path, Ok current) :: blocks =>
          let go id blocks :=
            match with_paths_loop fuel id blocks with
            | Some (out, r) => Some ((path, current) :: out, r)
            | None => None
            end in
          if negb (out_is_dir current) then go id blocks
          else
            match (stream ← unwrap (unixfs_read_dir fuel current); try_collect stream) with
            | Ok links =>
                let '(next, id) := foldl (λ '(acc, id) chunk, let '(rs, id) := resolve_links id path chunk in (acc ++ rs, id))
                                     ([], id) (chunks 8 links) in
                go id (blocks ++ next)
            | Err e => Some ([], Err e)
            | Panic => Some ([], Panic)
            end
      end
  end.

Definition resolve_recursive_with_paths (fuel : nat) (id : Z) (root : Path) : option (gen (Path * Out) string unit) :=
  let '(r, id) := resolve id root in with_paths_loop fuel id [(root, r)].
End with_loader.
End resolver.
