(* ===== verification/ResolverFacts.v ===== *)
(** * Theorems on path resolution

    A path through a directory tree that the builder encoded reaches the entry it names,
    and reading a file found this way gives the bytes it was made from; the recursive walk
    is breadth first and bounded by its limit; DNSLink lookups are bounded; the reader of a
    plain block is a cursor over it. *)

From stdpp Require Import prelude strings list gmap.
From Stdlib Require Import ZArith Lia.
From S2P Require Import Prelude Cids Bits Unixfs Chunker ChunkerFacts Rabin RabinFacts Reader ReaderFacts BalancedTree.
From S2P Require Import BalancedTreeFacts Files Builder Hamt BuilderFacts HamtFacts Paths PathsFacts Resolver.
Local Open Scope Z_scope.

(** ** The recursive walk *)

Lemma chunks_n_concat {A} (fuel n : nat) (l : list A) :
  (0 < n)%nat → (length l ≤ fuel)%nat → mjoin (chunks_n fuel n l) = l.
Proof.
  intros Hn. revert l. induction fuel as [|fuel IH]; intros [|x l] Hl; try done; simpl in Hl; [lia|].
  cbn [chunks_n]. rewrite mjoin_cons, IH by (rewrite length_drop; simpl; lia). apply take_drop.
Qed.

Lemma chunks_concat {A} (n : nat) (l : list A) : (0 < n)%nat → mjoin (chunks n l) = l.
Proof. intros. by apply chunks_n_concat. Qed.

Lemma collect_app {E A} (l k : list (res E A)) :
  collect (l ++ k) = (xs ← collect l; ys ← collect k; Ok (xs ++ ys)).
Proof.
  induction l as [|[a|e|] l IH]; simpl; try done.
  - by destruct (collect k).
  - rewrite IH. destruct (collect l); simpl; try done. by destruct (collect k).
Qed.

Lemma collect_length {E A} (l : list (res E A)) xs : collect l = Ok xs → length xs = length l.
Proof.
  revert xs. induction l as [|[a|e|] l IH]; simpl; intros xs; try done; [by intros [= <-]|].
  destruct (collect l) as [ys| |]; simpl; try done. intros [= <-]. simpl. by rewrite (IH ys).
Qed.

Section mapped.
Context `{Multiformats}.
Context {Item : Type} (links_of : Item → res string (list Cid)) (resolve_one : Cid → res string Item).

Lemma push_chunks_collect parts q :
  push_chunks resolve_one parts q = (xs ← collect (resolve_one <$> mjoin parts); Ok (q ++ xs)).
Proof.
  revert q. induction parts as [|c parts IH]; intros q; [by simpl; rewrite app_nil_r|].
  rewrite mjoin_cons, fmap_app, collect_app. cbn [push_chunks].
  destruct (collect (resolve_one <$> c)) as [xs| |]; simpl; try done. rewrite IH.
  destruct (collect _); simpl; try done. by rewrite app_assoc.
Qed.

(** The items below an item, in the order of its links *)
Definition below_item (o : Item) (kids : list Item) : Prop :=
  ∃ ls, links_of o = Ok ls ∧ collect (resolve_one <$> ls) = Ok kids.

(** One turn of the loop *)
Lemma mapped_turn limit counter o q counter' q' :
  expand links_of resolve_one limit counter o q = Ok (counter', q') →
  ∃ ls kids, links_of o = Ok ls ∧ collect (resolve_one <$> ls) = Ok kids ∧ q' = q ++ kids ∧
    counter' = Int.usize_add counter (Z.of_nat (length ls)) ∧
    match limit with Some l => counter' ≤ l | None => True end.
Proof.
  unfold expand. destruct (links_of o) as [ls| |] eqn:El; try done. cbn.
  rewrite push_chunks_collect, chunks_concat by lia.
  destruct (match limit with Some l => _ | None => true end) eqn:Elim; [|done]. cbn.
  destruct (collect (resolve_one <$> ls)) as [kids| |] eqn:Ek; try done. cbn. intros [= <- <-].
  exists ls, kids. split_and!; try done. destruct limit; [|done]. by apply Z.leb_le.
Qed.

Lemma mapped_loop_bfs fuel limit counter q out :
  mapped_loop links_of resolve_one fuel limit counter q = Some (out, Ok tt) →
  ∃ kids, Forall2 below_item out kids ∧ out = q ++ mjoin kids.
Proof.
  revert counter q out. induction fuel as [|fuel IH]; intros counter [|o q] out; try done; cbn [mapped_loop].
  { intros [= <-]. by exists []. }
  destruct (expand _ _ _ _ _ _) as [[counter' q']| |] eqn:E; try done.
  apply mapped_turn in E as (ls & kids & Hl & Hk & -> & _).
  destruct (mapped_loop _ _ fuel _ _ _) as [[out' r]|] eqn:El; [|done]. intros [= <- ->].
  apply IH in El as (kk & Hkk & ->). exists (kids :: kk). split; [constructor; [by exists ls|done]|].
  by rewrite mjoin_cons, <-!app_assoc.
Qed.

Lemma mapped_loop_bounded fuel l counter q :
  (∀ o ls, links_of o = Ok ls → Z.of_nat (length ls) < 2 ^ 63) → 0 ≤ counter ≤ l → l < 2 ^ 63 →
  Z.of_nat (length q) + (l - counter) < Z.of_nat fuel →
  ∃ out r, mapped_loop links_of resolve_one fuel (Some l) counter q = Some (out, r) ∧
    Z.of_nat (length out) ≤ Z.of_nat (length q) + (l - counter).
Proof.
  intros Hlen. revert counter q. induction fuel as [|fuel IH]; intros counter [|o q] Hc Hl Hf; try (simpl in *; lia);
    cbn [mapped_loop]; [eexists _, _; split; [done|simpl; lia]|].
  destruct (expand _ _ _ _ _ _) as [[counter' q']|e|] eqn:E;
    [|eexists _, _; split; [done|simpl; lia]..].
  apply mapped_turn in E as (ls & kids & Hls & Hk & -> & -> & Hlim).
  apply collect_length in Hk. rewrite length_fmap in Hk. specialize (Hlen _ _ Hls).
  unfold Int.usize_add in *. rewrite Int.wrap_id in * by (unfold Int.in_u; lia).
  destruct (IH (counter + Z.of_nat (length ls)) (q ++ kids)) as (out & r & -> & Hout);
    rewrite ?length_app in *; simpl in *; try lia.
  eexists _, _. split; [done|]. simpl. lia.
Qed.
End mapped.

(** Every item that is yielded was waiting or was resolved. *)
Lemma mapped_loop_all `{Multiformats} {Item} (P : Item → Prop) links_of resolve_one fuel limit counter q out r :
  (∀ c o, resolve_one c = Ok o → P o) → Forall P q →
  mapped_loop links_of resolve_one fuel limit counter q = Some (out, r) → Forall P out.
Proof.
  intros HP. revert counter q out. induction fuel as [|fuel IH]; intros counter [|o q] out Hq; try done; cbn [mapped_loop].
  { by intros [= <- _]. }
  apply Forall_cons in Hq as [Ho Hq]. destruct (expand _ _ _ _ _ _) as [[counter' q']| |] eqn:E; [|by intros [= <- _]..].
  apply mapped_turn in E as (ls & kids & _ & Hk & -> & _).
  destruct (mapped_loop _ _ fuel _ _ _) as [[out' r']|] eqn:El; [|done]. intros [= <- ->]. constructor; [done|].
  eapply IH; [|exact El]. apply Forall_app. split; [done|]. clear -HP Hk. revert kids Hk.
  induction ls as [|c ls IHl]; intros kids; cbn; [by intros [= <-]|]. destruct (resolve_one c) as [x| |] eqn:Ex; try done.
  destruct (collect _) as [xs| |]; try done. intros [= <-]. constructor; [by eapply HP|by apply IHl].
Qed.

Section walk.
Context `{UnixfsProto} `{!PathText}.
Context {Item : Type} (links_of : Item → res string (list Cid)) (resolve_one : Cid → res string Item).
Context (dns : DnsResolver).

Lemma walk_bounded root l fuel :
  (∀ o ls, links_of o = Ok ls → Z.of_nat (length ls) < 2 ^ 63) → 0 ≤ l < 2 ^ 63 → l + 1 < Z.of_nat fuel →
  ∃ out r, resolve_recursive_mapped dns links_of resolve_one fuel root (Some l) = Some (out, r) ∧
    Z.of_nat (length out) ≤ l + 1.
Proof.
  intros Hlen Hl Hf. unfold resolve_recursive_mapped.
  destruct (resolve_path_to_cid dns root ≫= resolve_one) as [o|e|]; [|eexists _, _; split; [done|simpl; lia]..].
  destruct (mapped_loop_bounded links_of resolve_one fuel l 0 [o]) as (out & r & Hout & Hn);
    [done|lia|lia|simpl; lia|]. exists out, r. split; [done|]. simpl in Hn. lia.
Qed.

Lemma walk_exact root limit fuel out :
  resolve_recursive_mapped dns links_of resolve_one fuel root limit = Some (out, Ok tt) →
  ∃ cid o kids, resolve_path_to_cid dns root = Ok cid ∧ resolve_one cid = Ok o ∧
    Forall2 (below_item links_of resolve_one) out kids ∧ out = o :: mjoin kids.
Proof.
  unfold resolve_recursive_mapped. destruct (resolve_path_to_cid dns root) as [cid| |] eqn:Ec; try done. cbn.
  destruct (resolve_one cid) as [o| |] eqn:Eo; try done.
  intros (kids & Hk & ->)%mapped_loop_bfs. by exists cid, o, kids.
Qed.
(** C35: with a recursion limit the walk ends whatever the blocks are, cycles of links included, and
    yields at most one item more than the limit. *)
Theorem recursion_limit_bounds root l fuel :
  (∀ o ls, links_of o = Ok ls → Z.of_nat (length ls) < 2 ^ 63) → 0 ≤ l < 2 ^ 63 → l + 1 < Z.of_nat fuel →
  ∃ out r, resolve_recursive_mapped dns links_of resolve_one fuel root (Some l) = Some (out, r) ∧
    Z.of_nat (length out) ≤ l + 1.
Proof. apply walk_bounded. Qed.

(** C28: a recursive walk that ends without an error is the breadth-first walk of the whole graph: it yields
    the root and then, for each item yielded, in the order of the items, the items its links resolve to, in
    the order of the links; every link was resolved and nothing else is yielded. *)
Theorem recursive_walk_exact root limit fuel out :
  resolve_recursive_mapped dns links_of resolve_one fuel root limit = Some (out, Ok tt) →
  ∃ cid o kids, resolve_path_to_cid dns root = Ok cid ∧ resolve_one cid = Ok o ∧
    Forall2 (below_item links_of resolve_one) out kids ∧ out = o :: mjoin kids.
Proof. apply walk_exact. Qed.
End walk.

(** ** The walk of raw blocks *)

Section raw_walk.
Context `{UnixfsProto} `{!PathText} `{!IpldLib}.
Context (load_cid : Cid → res string LoadedCid) (dns : DnsResolver).
Abbreviation load_raw := (λ cid, loaded ← load_cid cid; Ok (OutRaw_from_loaded cid loaded)).

Lemma raw_walk_bounded root l fuel :
  (∀ o ls, OutRaw_links o = Ok ls → Z.of_nat (length ls) < 2 ^ 63) → 0 ≤ l < 2 ^ 63 → l + 1 < Z.of_nat fuel →
  ∃ out r, resolve_recursive_raw load_cid dns fuel root (Some l) = Some (out, r) ∧ Z.of_nat (length out) ≤ l + 1.
Proof. apply walk_bounded. Qed.

Lemma raw_walk_exact root limit fuel out :
  resolve_recursive_raw load_cid dns fuel root limit = Some (out, Ok tt) →
  ∃ cid o kids, resolve_path_to_cid dns root = Ok cid ∧ load_raw cid = Ok o ∧
    Forall2 (below_item OutRaw_links load_raw) out kids ∧ out = o :: mjoin kids.
Proof. apply walk_exact. Qed.

(** What holds of every block that is loaded holds of every block that is yielded. *)
Lemma raw_walk_all (P : Cid → bytes → Prop) root limit fuel out r :
  (∀ c loaded, load_cid c = Ok loaded → P c (loaded_data loaded)) →
  resolve_recursive_raw load_cid dns fuel root limit = Some (out, r) → Forall (λ o, P (or_cid o) (or_content o)) out.
Proof.
  intros HP. assert (∀ c o, load_raw c = Ok o → P (or_cid o) (or_content o)) as Hone.
  { intros c o. destruct (load_cid c) as [loaded| |] eqn:E; try done. cbn. intros [= <-]. by apply HP. }
  unfold resolve_recursive_raw, resolve_recursive_mapped.
  destruct (resolve_path_to_cid dns root) as [cid| |]; cbn [mbind res_bind]; [|by intros [= <- <-]..].
  destruct (load_cid cid) as [loaded| |] eqn:E; cbn [mbind res_bind]; [|by intros [= <- <-]..].
  apply mapped_loop_all; [exact Hone|]. constructor; [by apply HP|constructor].
Qed.
End raw_walk.

(** ** DNSLink lookups *)

Section lookups.
Context `{UnixfsProto} `{!PathText}.
Context (dns : DnsResolver).

(** [n] lookups lead from one path to another, each to the first record of a domain. *)
Inductive lookups : nat → Path → Path → Prop :=
  | lookups_done p : lookups 0 p p
  | lookups_next n p domain first rest q :
      path_typ p = PathType_Ipns → path_root p = Root_Domain domain →
      resolve_dnslink dns domain = Ok (first :: rest) → lookups n first q → lookups (S n) p q.

Lemma resolve_lookups_chain n m p q : lookups n p q → resolve_lookups dns (n + m) p = resolve_lookups dns m q.
Proof.
  induction 1 as [p|n p domain first rest q Ht Hr Hd _ IH]; [done|].
  cbn [Nat.add resolve_lookups]. rewrite Ht, Hr, Hd. exact IH.
Qed.

Lemma ipfs_root p c : path_typ p = PathType_Ipfs → path_root p = Root_Cid c → resolve_path_to_cid dns p = Ok c.
Proof.
  intros Ht Hr. unfold resolve_path_to_cid, MAX_LOOKUPS. generalize 15%nat as n. intros n.
  cbn [resolve_lookups]. by rewrite Ht, Hr.
Qed.

(** A root is found through at most fifteen DNSLink lookups, each to the first record of a domain; a chain
    of sixteen lookups, so every cycle of domains, ends with an error. *)
Theorem dns_lookups_bounded n p q :
  lookups n p q →
  ((n ≤ 15)%nat → ∀ c, path_typ q = PathType_Ipfs → path_root q = Root_Cid c → resolve_path_to_cid dns p = Ok c) ∧
  (n = 16%nat → resolve_path_to_cid dns p = Err "too many recursive lookups"%string).
Proof.
  intros Hn. unfold resolve_path_to_cid, MAX_LOOKUPS. split.
  - intros Hle c Ht Hr. replace 16%nat with (n + S (15 - n))%nat by lia.
    rewrite (resolve_lookups_chain n _ p q Hn). cbn [resolve_lookups]. by rewrite Ht, Hr.
  - intros ->. by rewrite <-(Nat.add_0_r 16), (resolve_lookups_chain 16 0 p q Hn).
Qed.
End lookups.

(** ** Paths through a built tree *)

Section tree.
Context `{UnixfsProtoLaws} `{!PathText} `{!IpldLib}.
Context (load_cid : Cid → res string LoadedCid) (dns : DnsResolver) (murmur3 : bytes → Z).
Abbreviation fetch := (fetch_data load_cid).

(** The entry that a list of names leads to: in a flat directory the first one with the name, in a sharded
    one the one with the name. *)
Inductive entry_at : Entry → list bytes → Entry → Prop :=
  | entry_here e : entry_at e [] e
  | entry_flat name es i child ns e :
      es !! i = Some child → (∀ j e', (j < i)%nat → es !! j = Some e' → Entry_name e' ≠ Entry_name child) →
      entry_at child ns e → entry_at (Entry_Directory (Dir_Basic name es)) (Entry_name child :: ns) e
  | entry_sharded name es node child ns e :
      HamtNode_new murmur3 es = Ok node → child ∈ es → Entry_name child ≠ [] →
      entry_at child ns e → entry_at (Entry_Directory (Dir_Hamt name node)) (Entry_name child :: ns) e.

(** A served entry with its root block and node *)
Definition stands_for (e : Entry) (r : Block) (u : UnixfsNode) : Prop :=
  ∃ bl, entry_encode e = (bl, Ok tt) ∧ serves (loader_of fetch) bl ∧ last bl = Some r ∧ node_of fetch (blk_cid r) = Ok u.

Lemma step_flat name es i child r u rp :
  stands_for (Entry_Directory (Dir_Basic name es)) r u → es !! i = Some child →
  (∀ j e', (j < i)%nat → es !! j = Some e' → Entry_name e' ≠ Entry_name child) →
  ∃ r' u', stands_for child r' u' ∧
    inner_resolve load_cid murmur3 (u, rp) (Entry_name child) = Ok (u', rp ++ [blk_cid r']).
Proof.
  intros (bl & He & Hs & Hl & Hu) Hi Hfirst.
  destruct (basic_shape fetch name es bl He Hs) as (parts & roots & root & n & -> & Hp & Hroots & Hn & Hlinks).
  rewrite last_snoc in Hl. injection Hl as ->. rewrite Hu in Hn. injection Hn as ->.
  destruct (Forall2_lookup_l _ _ _ _ _ Hp Hi) as (bl & Hbl & Hec).
  destruct (Forall2_lookup_l _ _ _ _ _ Hroots Hbl) as (r' & Hr' & Hlast).
  apply serves_app in Hs as [Hs _].
  assert (serves (loader_of fetch) bl) as Hsb by (eapply serves_parts; [done|by eapply list_elem_of_lookup_2]).
  destruct (entry_rooted fetch child bl Hec Hsb) as (r'' & u' & Hr'' & Hu'). rewrite Hlast in Hr''. injection Hr'' as <-.
  exists r', u'. split; [by exists bl|]. cbn [inner_resolve]. unfold get_link_by_name.
  rewrite Hlinks, (find_by_name_entries _ es roots i child r') by done. cbn.
  unfold node_of, fetch_data in Hu'. destruct (load_cid (blk_cid r')) as [ld| |]; try done. cbn in *. by rewrite Hu'.
Qed.

Lemma step_sharded name es node child r u rp :
  stands_for (Entry_Directory (Dir_Hamt name node)) r u → HamtNode_new murmur3 es = Ok node → child ∈ es →
  Entry_name child ≠ [] →
  ∃ r' u', stands_for child r' u' ∧
    inner_resolve load_cid murmur3 (u, rp) (Entry_name child) = Ok (u', rp ++ [blk_cid r']).
Proof.
  intros (bl & He & Hs & Hl & Hu) Hnew Hin Hne.
  destruct (hamt_lookup fetch murmur3 name es node bl Hnew He Hs) as (root & n & shard & Hroot & Hn & Hget).
  rewrite Hl in Hroot. injection Hroot as <-. rewrite Hu in Hn. injection Hn as ->.
  destruct (proj1 (Hget _ Hne) child Hin eq_refl) as (link & u' & Hg & bl' & r' & Hec & Hsb & Hlast & Hlk & Hu').
  exists r', u'. split; [by exists bl'|]. cbn [inner_resolve]. rewrite Hg. cbn. by rewrite Hlk.
Qed.

(** The walk: one CID is resolved for each name. *)
Lemma walk_tree root ns e : entry_at root ns e → ∀ r u rp, stands_for root r u →
  ∃ r' u' cids, stands_for e r' u' ∧ fold_res (inner_resolve load_cid murmur3) (u, rp) ns = Ok (u', rp ++ cids) ∧
    length cids = length ns ∧ last (blk_cid r :: cids) = Some (blk_cid r').
Proof.
  induction 1 as [e|name es i child ns e Hi Hf _ IH|name es node child ns e Hn Hin Hne _ IH]; intros r u rp Hr.
  { exists r, u, []. cbn. by rewrite app_nil_r. }
  1: destruct (step_flat _ _ _ _ _ _ rp Hr Hi Hf) as (r1 & u1 & Hr1 & Hstep).
  2: destruct (step_sharded _ _ _ _ _ _ rp Hr Hn Hin Hne) as (r1 & u1 & Hr1 & Hstep).
  all: destruct (IH r1 u1 (rp ++ [blk_cid r1]) Hr1) as (r2 & u2 & cids & Hr2 & Hw & Hlen & Hlast).
  all: exists r2, u2, (blk_cid r1 :: cids); split; [done|]; cbn [fold_res]; rewrite Hstep; cbn [mbind res_bind].
  all: rewrite Hw, <-app_assoc; split; [done|]; split; [by simpl; rewrite Hlen|exact Hlast].
Qed.

Lemma yielded_codec node out r : yield_node node = (out, Ok tt) → last out = Some r →
  (∀ u, node = Ok u → is_Some (unixfs_node u)) → cid_codec (blk_cid r) = Codec_DagPb.
Proof.
  intros (u & b & -> & Hb & ->)%yield_node_Ok [= <-] Hu. destruct (Hu u eq_refl) as [n Hn].
  by destruct (unixfs_encode_node u n b Hn Hb).
Qed.

(** The root of a flat directory is a dag-pb block. *)
Lemma flat_codec name es bl r :
  directory_encode (Dir_Basic name es) = (bl, Ok tt) → last bl = Some r → cid_codec (blk_cid r) = Codec_DagPb.
Proof.
  cbn. intros He Hl. apply gen_bind_Ok in He as (links & o1 & o2 & _ & Hy & ->).
  assert (∃ b, o2 = [b]) as [b ->] by (apply yield_node_Ok in Hy as (? & b & _ & _ & ->); eauto).
  rewrite last_snoc in Hl. eapply yielded_codec; [exact Hy|exact Hl|].
  intros u. unfold directory_node. destruct (encode_unixfs_pb _ _); [|done..]. intros [= <-]. by eexists.
Qed.

(** The root of a directory is a dag-pb block. *)
Lemma entry_at_codec root n ns e bl r :
  entry_at root (n :: ns) e → entry_encode root = (bl, Ok tt) → last bl = Some r → cid_codec (blk_cid r) = Codec_DagPb.
Proof.
  intros Hat He Hl. inversion Hat as [|name es i child ? ? Hi Hf|name es node child ? ? Hnew]; subst; clear Hat.
  - exact (flat_codec name es bl r He Hl).
  - unfold HamtNode_new in Hnew. revert Hnew. generalize 10%nat as fuel. intros fuel Hnew. destruct node as [cs|h x]; [|by apply group_root_not_leaf in Hnew].
    cbn in He. apply gen_bind_Ok in He as ([links bf] & o1 & o2 & _ & Hy & ->).
    assert (∃ b, o2 = [b]) as [b ->] by (apply yield_node_Ok in Hy as (? & b & _ & _ & ->); eauto).
    rewrite last_snoc in Hl. eapply yielded_codec; [exact Hy|exact Hl|].
    intros u. unfold hamt_node. destruct (encode_unixfs_pb _ _); [|done..]. intros [= <-]. by eexists.
Qed.

Lemma DagPb_known : codec_known Codec_DagPb = true.
Proof. vm_compute. reflexivity. Qed.

(** A path to the block [r] followed by names *)
Definition names_from (p : Path) (r : Block) (ns : list bytes) : Prop :=
  path_typ p = PathType_Ipfs ∧ path_root p = Root_Cid (blk_cid r) ∧ filter (λ s, s ≠ []) (path_tail p) = ns.

Lemma resolve_tree id p root r u n ns e :
  stands_for root r u → names_from p r (n :: ns) → entry_at root (n :: ns) e →
  ∃ r' u' out, stands_for e r' u' ∧ (resolve load_cid dns murmur3 id p).1 = Ok out ∧
    out_content out = OutContent_Unixfs u' ∧ out_context out = id ∧
    md_unixfs_type (out_metadata out) = unixfs_type_of u' ∧ md_size (out_metadata out) = unixfs_filesize u' ∧
    head (md_resolved_path (out_metadata out)) = Some (blk_cid r) ∧
    last (md_resolved_path (out_metadata out)) = Some (blk_cid r') ∧
    length (md_resolved_path (out_metadata out)) = S (length (n :: ns)).
Proof.
  intros Hr (Ht & Hroot & Hns) Hat. destruct (walk_tree _ _ _ Hat r u [blk_cid r] Hr) as (r' & u' & cids & Hr' & Hw & Hlen & Hlast).
  destruct Hr as (bl & He & _ & Hl & Hu). pose proof (entry_at_codec _ _ _ _ _ _ Hat He Hl) as Hc.
  unfold node_of, fetch_data in Hu. destruct (load_cid (blk_cid r)) as [ld| |] eqn:Eld; try done. cbn in Hu.
  unfold resolve, resolve_with_ctx, resolve_root. cbn [fst].
  rewrite (ipfs_root dns p (blk_cid r) Ht Hroot). cbn [mbind res_bind]. rewrite Eld. cbn [mbind res_bind]. rewrite Hc.
  rewrite DagPb_known. cbn [ensure mbind res_bind]. rewrite Z.eqb_refl.
  unfold resolve_dag_pb_or_unixfs. rewrite Hu, Hns, Hw. cbn [mbind res_bind].
  eexists r', u', _. split; [done|]. split; [done|]. cbn. split_and!; try done. by rewrite Hlen.
Qed.

(** C12: a path of names through a directory tree that the builder encoded and a loader serves, flat and sharded
    directories nested in any way, resolves to the entry it names: the content is the decoded root node of this
    entry, the type and the size are those of this node, and one CID is recorded for each step, from the root of
    the tree to the root of the entry. *)
Theorem resolve_finds_entry id p d blocks r n ns e :
  entry_encode (Entry_Directory d) = (blocks, Ok tt) → serves (loader_of fetch) blocks → last blocks = Some r →
  names_from p r (n :: ns) → entry_at (Entry_Directory d) (n :: ns) e →
  ∃ r' u out, stands_for e r' u ∧ (resolve load_cid dns murmur3 id p).1 = Ok out ∧
    out_content out = OutContent_Unixfs u ∧ out_context out = id ∧
    md_unixfs_type (out_metadata out) = unixfs_type_of u ∧ md_size (out_metadata out) = unixfs_filesize u ∧
    head (md_resolved_path (out_metadata out)) = Some (blk_cid r) ∧
    last (md_resolved_path (out_metadata out)) = Some (blk_cid r') ∧
    length (md_resolved_path (out_metadata out)) = S (length (n :: ns)).
Proof.
  intros He Hs Hl Hp Hat. destruct (entry_rooted fetch _ _ He Hs) as (r0 & u & Hr0 & Hu).
  rewrite Hl in Hr0. injection Hr0 as <-. eapply resolve_tree; [by exists blocks|done|done].
Qed.

(** ** Reading what was resolved *)

(** Reads with buffers of the given sizes, one after the other *)
Fixpoint pretty_reads (fuel : nat) (ks : list Z) (p : OutPrettyReader) : option (list (poll (res string bytes))) :=
  match ks with
  | [] => Some []
  | k :: ks =>
      match pretty_poll_read fuel (loader_of fetch) k p with
      | Some (x, p) => match pretty_reads fuel ks p with Some xs => Some (x :: xs) | None => None end
      | None => None
      end
  end.

Lemma pretty_reads_unixfs fuel ks r :
  pretty_reads fuel ks (Pretty_Unixfs r) = fst <$> run_ops fuel (loader_of fetch) (Op_read <$> ks) r.
Proof.
  revert r. induction ks as [|k ks IH]; intros r; [done|]. cbn [pretty_reads pretty_poll_read fmap list_fmap run_ops run_op].
  destruct (poll_read fuel (loader_of fetch) k r) as [[x r']|]; [|done]. rewrite IH. cbn.
  by destruct (run_ops _ _ _ _) as [[]|].
Qed.

(** The root of a file entry is the root of a DAG with the bytes the file was made from, a raw or a dag-pb
    block. *)
Lemma file_entry_den name cfg c degree pieces r u :
  Chunker_from cfg = Ok c → 1 < degree → Forall (λ q, q ≠ []) pieces → Forall byte_ok (mjoin pieces) →
  Z.of_nat (length (mjoin pieces)) < 2 ^ 63 →
  stands_for (Entry_File name (Ok (Ok <$> pieces)) c degree) r u →
  (∃ k, den (loader_of fetch) k (blk_cid r) (mjoin pieces)) ∧
  (cid_codec (blk_cid r) = Codec_Raw ∨ cid_codec (blk_cid r) = Codec_DagPb).
Proof.
  intros Hc Hdeg Hne Hb H63 (bl & He & Hs & Hl & Hu).
  destruct (chunker_chunks_ok cfg c pieces Hc Hne Hb H63) as (chunks & Hch & Hj).
  cbn [entry_encode] in He. unfold file_encode in He. cbn in He. rewrite Hch in He. cbn in He.
  assert (stream_tree degree (Ok <$> chunks) = (bl, Ok tt)) as Ht by (by destruct (stream_tree _ _)). split.
  2:{ destruct (stream_tree_decodes fetch _ _ _ Ht) as [Hd _]. rewrite Forall_forall in Hd.
      by apply (Hd r (last_Some_elem_of _ _ Hl)). }
  rewrite stream_tree_degree in Ht by done.
  destruct (stream_balanced_tree_ok (loader_of fetch) (Z.to_nat degree) ltac:(lia) chunks bl Ht Hs)
    as (root & k & h & Hroot & Hden & _); [rewrite Hj; lia|].
  rewrite Hl in Hroot. injection Hroot as <-. rewrite Hj in Hden. eauto.
Qed.

(** The root node of a file entry reads as the bytes the file was made from. *)
Lemma file_entry_reads name cfg c degree pieces r u :
  Chunker_from cfg = Ok c → 1 < degree → Forall (λ q, q ≠ []) pieces → Forall byte_ok (mjoin pieces) →
  Z.of_nat (length (mjoin pieces)) < 2 ^ 63 →
  stands_for (Entry_File name (Ok (Ok <$> pieces)) c degree) r u →
  ∃ turns, ∀ ks fuel, Forall (λ x, 0 < x) ks → Z.of_nat (length (mjoin pieces)) ≤ Z.of_nat (length ks) →
    (turns < fuel)%nat →
    ∃ outs, read_all fuel (loader_of fetch) u ks = Some ((Ready ∘ Ok) <$> outs) ∧ mjoin outs = mjoin pieces.
Proof.
  intros Hc Hdeg Hne Hb H63 Hst. destruct (file_entry_den name cfg c degree pieces r u) as [[k Hden] _]; try done.
  destruct Hst as (bl & _ & _ & _ & Hu). apply poll_load_node_of in Hu.
  exists (3 * k + 2)%nat. intros ks fuel Hks Hlen Hf.
  destruct (read_all_spec (loader_of fetch) k (blk_cid r) (mjoin pieces) fuel ks) as (u' & outs & Hu' & Ho & Hjo); try done.
  rewrite Hu in Hu'. injection Hu' as <-. eauto.
Qed.

(** C3: the whole way round: bytes that a chunker cuts, that are put into a balanced tree below directories of
    either kind, and that a loader serves, are what reading the resolved path of the file gives, in order, with
    any buffer sizes. *)
Theorem resolve_reads_file id p d blocks r n ns name cfg c degree pieces :
  entry_encode (Entry_Directory d) = (blocks, Ok tt) → serves (loader_of fetch) blocks → last blocks = Some r →
  names_from p r (n :: ns) → entry_at (Entry_Directory d) (n :: ns) (Entry_File name (Ok (Ok <$> pieces)) c degree) →
  Chunker_from cfg = Ok c → 1 < degree → Forall (λ q, q ≠ []) pieces → Forall byte_ok (mjoin pieces) →
  Z.of_nat (length (mjoin pieces)) < 2 ^ 63 →
  ∃ out turns, (resolve load_cid dns murmur3 id p).1 = Ok out ∧
    ∀ ks fuel, Forall (λ x, 0 < x) ks → Z.of_nat (length (mjoin pieces)) ≤ Z.of_nat (length ks) → (turns < fuel)%nat →
      ∃ reader outs, out_pretty out None = Ok reader ∧
        pretty_reads fuel ks reader = Some ((Ready ∘ Ok) <$> outs) ∧ mjoin outs = mjoin pieces.
Proof.
  intros He Hs Hl Hp Hat Hc Hdeg Hne Hb H63.
  destruct (entry_rooted fetch _ _ He Hs) as (r0 & u0 & Hr0 & Hu0). rewrite Hl in Hr0. injection Hr0 as <-.
  destruct (resolve_tree id p _ r u0 n ns _ ltac:(by exists blocks) Hp Hat) as (r' & u & out & Hr' & Ho & Hout & _).
  destruct (file_entry_reads name cfg c degree pieces r' u) as [turns Hread]; try done.
  exists out, turns. split; [done|]. intros ks fuel Hks Hlen Hf.
  destruct (Hread ks fuel Hks Hlen Hf) as (outs & Hra & Hj). unfold out_pretty. rewrite Hout.
  unfold read_all in Hra. destruct (into_content_reader u None) as [[reader|]| |]; try done.
  exists (Pretty_Unixfs reader), outs. split; [done|]. by rewrite pretty_reads_unixfs.
Qed.
End tree.

(** ** Readers of plain blocks *)

Section bytes_reader.
Context `{UnixfsProto} `{!PathText} `{!IpldLib}.

Definition run_pretty_op (fuel : nat) (load : loader) (op : reader_op) (p : OutPrettyReader)
    : option (poll (res string bytes) * OutPrettyReader) :=
  match op with
  | Op_read remaining => pretty_poll_read fuel load remaining p
  | Op_seek s => let '(x, p) := pretty_start_seek s p in Some (Ready (_ ← x; Ok []), p)
  end.

Fixpoint run_pretty (fuel : nat) (load : loader) (ops : list reader_op) (p : OutPrettyReader)
    : option (list (poll (res string bytes)) * OutPrettyReader) :=
  match ops with
  | [] => Some ([], p)
  | op :: ops =>
      '(x, p) ← run_pretty_op fuel load op p;
      '(xs, p) ← run_pretty fuel load ops p;
      Some (x :: xs, p)
  end.

(** The plain reader inside *)
Definition plain (p : OutPrettyReader) : option BytesReader :=
  match p with
  | Pretty_DagPb r | Pretty_DagCbor r | Pretty_DagJson r | Pretty_Raw r => Some r
  | Pretty_Unixfs _ => None
  end.

Lemma run_plain_op fuel load op p r : plain p = Some r → ∃ p',
  run_pretty_op fuel load op p =
    Some (match op with
          | Op_read k => (bytes_read k r).1
          | Op_seek s => Ready (_ ← (bytes_seek s r).1; Ok [])
          end, p') ∧
  plain p' = Some (match op with Op_read k => (bytes_read k r).2 | Op_seek s => (bytes_seek s r).2 end).
Proof.
  destruct p; try done; intros [= <-]; destruct op; cbn; unfold with_bytes;
    (destruct (bytes_read _ _) || destruct (bytes_seek _ _)); eexists; split; done.
Qed.

Lemma take_own_length {A} n (l : list A) : take n l = take (length (take n l)) l.
Proof. rewrite length_take. destruct (Nat.min_spec n (length l)) as [[? ->]|[? ->]]; [done|]. by rewrite !take_ge by lia. Qed.

Context (content : bytes) (Hlen : Z.of_nat (length content) < 2 ^ 63).
Abbreviation len := (Z.of_nat (length content)).

Lemma bytes_read_cursor k pos : 0 < k → 0 ≤ pos ≤ len →
  ∃ out, bytes_read k {| br_pos := pos; br_bytes := content |}
    = (Ready (Ok out), {| br_pos := pos + Z.of_nat (length out); br_bytes := content |}) ∧
    pos + Z.of_nat (length out) ≤ len ∧
    cursor_step content len (Some len) pos (Op_read k) (Ready (Ok out)) (pos + Z.of_nat (length out)).
Proof.
  intros Hk Hp. unfold bytes_read. cbn [br_pos br_bytes]. rewrite slice_from_ok by lia.
  unfold read_data_to_buf, Int.usize_sub, Int.usize_add. rewrite (Int.wrap_id 64 (len - pos)) by (unfold Int.in_u; lia).
  rewrite length_drop. set (amt := Z.to_nat _). set (out := take amt _).
  assert (Z.of_nat (length out) = Z.min k (len - pos)) as Ho.
  { unfold out, amt. rewrite length_take, length_drop. lia. }
  exists out. rewrite Int.wrap_id by (unfold Int.in_u; lia). split; [done|]. split; [lia|].
  constructor; [|lia|lia|intros ?; intros E; rewrite E in Ho; simpl in Ho; lia].
  apply take_own_length.
Qed.

Lemma bytes_seek_cursor s pos : 0 < len → 0 ≤ pos ≤ len → op_ok (Op_seek s) →
  ∃ pos', bytes_seek s {| br_pos := pos; br_bytes := content |} = (Ok tt, {| br_pos := pos'; br_bytes := content |}) ∧
    0 ≤ pos' ≤ len ∧ seek_pos (Some len) pos s = Ok pos'.
Proof.
  intros Hne Hp Hs. unfold bytes_seek, as_i64. cbn [br_pos br_bytes].
  rewrite (proj2 (Z.eqb_neq len 0)) by lia. rewrite !(Int.swrap_id 64 len), !(Int.swrap_id 64 pos) by (unfold Int.in_i; lia).
  destruct s as [off|off|off]; cbn [op_ok] in Hs; eexists; (split; [done|]); unfold seek_pos, as_i64;
    rewrite (proj2 (Z.eqb_neq len 0)) by lia; rewrite ?(Int.swrap_id 64 len), ?(Int.swrap_id 64 pos) by (unfold Int.in_i; lia).
  - split; [lia|]. f_equal. lia.
  - split; [|done]. set (x := Int.swrap 64 _). pose proof (Z.rem_bound_abs x len ltac:(lia)).
    destruct (Z.ltb_spec (Z.rem x len) 0); rewrite Int.wrap_id by (unfold Int.in_u; lia); lia.
  - set (x := Int.swrap 64 _). rewrite !Int.wrap_id by (unfold Int.in_u; lia). split; [lia|]. f_equal. lia.
Qed.

Lemma plain_run fuel load ops p pos : 0 < len → Forall op_ok ops → 0 ≤ pos ≤ len →
  plain p = Some {| br_pos := pos; br_bytes := content |} →
  ∃ xs p', run_pretty fuel load ops p = Some (xs, p') ∧
    cursor_run content len (Some len) pos ops xs (pretty_poll_complete p').
Proof.
  intros Hne Hops. revert p pos. induction Hops as [|op ops Hop Hops IH]; intros p pos Hp Hplain; cbn [run_pretty].
  { eexists _, _. split; [done|]. replace (pretty_poll_complete p) with pos by (by destruct p; simplify_eq/=).
    constructor. }
  destruct (run_plain_op fuel load op p _ Hplain) as (p1 & -> & Hp1). destruct op as [k|s].
  - destruct (bytes_read_cursor k pos Hop Hp) as (out & E & Hle & Hstep). rewrite E in Hp1 |- *. cbn in Hp1 |- *.
    destruct (IH p1 (pos + Z.of_nat (length out)) ltac:(lia) Hp1) as (xs & p' & -> & Hrun). eexists _, _. split; [done|]. by econstructor.
  - destruct (bytes_seek_cursor s pos Hne Hp Hop) as (pos' & E & Hr & Hseek). rewrite E in Hp1 |- *. cbn in Hp1 |- *.
    destruct (IH p1 _ Hr Hp1) as (xs & p' & -> & Hrun). eexists _, _. split; [done|].
    pose proof (seek_pos_moves (Some len) pos s ltac:(cbn; lia) ltac:(lia) Hop) as Hmv. rewrite Hseek in Hmv. destruct Hmv as (t & Ht & Hmv).
    econstructor; [by econstructor|done].
Qed.
End bytes_reader.

Section plain_content.
Context `{UnixfsProto} `{!PathText} `{!IpldLib}.

Definition content_bytes (c : OutContent) : option bytes :=
  match c with
  | OutContent_DagPb _ b | OutContent_DagCbor _ b | OutContent_DagJson _ b | OutContent_Raw _ b => Some b
  | OutContent_Unixfs _ => None
  end.

(** Reads and seeks over resolved content that is not UnixFS never fail and are those of a cursor over the
    bytes, cut at the position given: any sequence of them, with any buffer sizes and offsets, gives what the
    cursor gives and ends where it ends. *)
Theorem plain_reader_refines_cursor o b pos_max content ops fuel load :
  content_bytes (out_content o) = Some b →
  content = match pos_max with Some m => take (Z.to_nat m) b | None => b end →
  0 < Z.of_nat (length content) < 2 ^ 63 → Forall op_ok ops →
  ∃ p xs p', out_pretty o pos_max = Ok p ∧ pretty_size p = Some (Z.of_nat (length content)) ∧
    run_pretty fuel load ops p = Some (xs, p') ∧
    cursor_run content (Z.of_nat (length content)) (Some (Z.of_nat (length content))) 0 ops xs (pretty_poll_complete p').
Proof.
  intros Hb Hcut Hl Hops.
  assert (∃ p, out_pretty o pos_max = Ok p ∧ pretty_size p = Some (Z.of_nat (length content)) ∧
    plain p = Some {| br_pos := 0; br_bytes := content |}) as (p & Hp & Hsize & Hplain).
  { unfold out_pretty, truncated. rewrite Hcut. destruct (out_content o); try done; injection Hb as ->; by eexists. }
  destruct (plain_run content ltac:(lia) fuel load ops p 0) as (xs & p' & Hrun & Hcur); try done; try lia.
  by exists p, xs, p'.
Qed.
End plain_content.

(** ** Examples *)

(** IPLD values that are bytes or a link: a dag-cbor block holds the CID it links to. *)
Module ResolverToy.
Import UnixfsToy PathsToy HamtWitness.

Inductive value := V_bytes (b : bytes) | V_link (c : @Cid ids).

Definition cbor_link (b : bytes) : option (@Cid ids) :=
  match b with k :: h => Some ((k, h) : @Cid ids) | [] => None end.

Definition ipld : IpldLib := {|
  Ipld := value;
  ipld_codec_try_from := λ z, if z =? 0x55 then Some IpldCodec_Raw else if z =? 0x71 then Some IpldCodec_DagCbor
                              else if z =? 0x70 then Some IpldCodec_DagPb else None;
  ipld_decode := λ k b, match k with
                        | IpldCodec_DagCbor => V_link <$> cbor_link b
                        | _ => Some (V_bytes b)
                        end;
  ipld_encode := λ _ v, match v with V_bytes b => Some b | V_link c => Some (cid_to_bytes c) end;
  ipld_link := λ v, match v with V_link c => Some c | V_bytes _ => None end;
  ipld_string := λ v, match v with V_bytes b => Some b | V_link _ => None end;
  ipld_take := λ _ _, None;
  ipld_iter := λ v, [v];
  ipld_references := λ v, match v with V_link c => [c] | V_bytes _ => [] end;
  codec_references := λ k b, match k with
                             | IpldCodec_DagCbor => (λ c, [c]) <$> cbor_link b
                             | IpldCodec_Raw => Some []
                             | _ => None
                             end
|}.
#[export] Existing Instance ipld.

(** The CID of a block holds its data. *)
Definition load_held (c : @Cid ids) : res string LoadedCid :=
  Ok {| loaded_data := snd (c : Z * list Z); loaded_source := Source_Bitswap |}.
Definition load_raw (c : @Cid ids) : res string OutRaw := loaded ← load_held c; Ok (OutRaw_from_loaded c loaded).

Definition pieces : list bytes := [[1; 2; 3]; [4; 5]].
Definition chunker : Chunker := Chunker_Fixed {| chunk_size := 2 |}.
Definition file : Entry := Entry_File [103] (Ok (Ok <$> pieces)) chunker 3.
Definition shard_entries : list Entry := [link_to [97] [120]; file].
Definition shard_node : HamtNode := match HamtNode_new murmur shard_entries with Ok n => n | _ => Branch [] end.
Definition tree : Directory := Dir_Basic [100] [link_to [98] [121]; Entry_Directory (Dir_Hamt [115] shard_node)].
Definition tree_blocks : list Block := Eval vm_compute in (directory_encode tree).1.
Definition tree_root : Block := Eval vm_compute in
  default {| blk_cid := ((0, []) : @Cid ids); blk_data := []; blk_links := [] |} (last tree_blocks).
(** [/ipfs/<root>/s/g] *)
Definition file_path : Path :=
  {| path_typ := PathType_Ipfs; path_root := Root_Cid (blk_cid tree_root); path_tail := [[115]; [103]] |}.

Lemma tree_encodes : entry_encode (Entry_Directory tree) = (tree_blocks, Ok tt).
Proof. vm_compute. reflexivity. Qed.

Lemma tree_served : serves (loader_of (fetch_data load_held)) tree_blocks.
Proof.
  assert (forallb (λ b, bool_decide (snd (blk_cid b : Z * list Z) = blk_data b)) tree_blocks = true) as Hb
    by (vm_compute; reflexivity).
  rewrite forallb_forall in Hb. intros b Hin. unfold loader_of, fetch_data, load_held. cbn [mbind res_bind loaded_data].
  by rewrite (bool_decide_eq_true_1 _ (Hb b (proj1 (list_elem_of_In _ _) Hin))).
Qed.

Lemma tree_file : entry_at murmur (Entry_Directory tree) [[115]; [103]] file.
Proof.
  apply (entry_flat murmur [100] _ 1 (Entry_Directory (Dir_Hamt [115] shard_node)) [[103]] file); [done| |].
  { intros [|j] e' Hj; [|lia]. by intros [= <-]. }
  apply (entry_sharded murmur [115] shard_entries shard_node file [] file); [vm_compute; reflexivity|right; left|done|constructor].
Qed.

Lemma tree_path : names_from file_path tree_root [[115]; [103]].
Proof. split; [reflexivity|]. split; [reflexivity|]. vm_compute. reflexivity. Qed.

Lemma tree_last : last tree_blocks = Some tree_root.
Proof. vm_compute. reflexivity. Qed.

Lemma resolve_finds_entry_witness :
  ∃ out, (resolve load_held dns murmur 7 file_path).1 = Ok out ∧ out_context out = 7 ∧
    length (md_resolved_path (out_metadata out)) = 3%nat.
Proof.
  destruct (resolve_finds_entry load_held dns murmur 7 file_path tree tree_blocks tree_root [115] [[103]] file
    tree_encodes tree_served tree_last tree_path tree_file) as (r' & u & out & _ & Ho & _ & Hc & _ & _ & _ & _ & Hl).
  exists out. exact (conj Ho (conj Hc Hl)).
Defined.

Lemma resolve_reads_file_witness :
  ∃ out turns reader outs, (resolve load_held dns murmur 7 file_path).1 = Ok out ∧ out_pretty out None = Ok reader ∧
    pretty_reads load_held (S turns) [2; 3; 1; 1; 9] reader = Some ((Ready ∘ Ok) <$> outs) ∧ mjoin outs = [1; 2; 3; 4; 5].
Proof.
  destruct (resolve_reads_file load_held dns murmur 7 file_path tree tree_blocks tree_root [115] [[103]] [103]
    (Config_Fixed 2) chunker 3 pieces tree_encodes tree_served tree_last tree_path tree_file)
    as (out & turns & Ho & Hread); [reflexivity|lia|by repeat constructor|repeat constructor; simpl; lia|simpl; lia|].
  destruct (Hread [2; 3; 1; 1; 9] (S turns)) as (reader & outs & Hr & Hx & Hj);
    [repeat constructor; lia|simpl; lia|lia|].
  exists out, turns, reader, outs. exact (conj Ho (conj Hr (conj Hx Hj))).
Defined.

Lemma toy_links_short o ls : OutRaw_links o = Ok ls → Z.of_nat (length ls) < 2 ^ 63.
Proof.
  unfold OutRaw_links, parse_links. destruct (codec_known _); [|done]. cbn [ensure mbind res_bind].
  repeat case_match; cbn; try done; try (by intros [= <-]).
  destruct (cbor_link _); cbn; [|done]. by intros [= <-].
Qed.

(** A block that links to itself *)
Definition loop_load (c : @Cid ids) : res string OutRaw :=
  Ok {| or_source := Source_Bitswap; or_content := cid_to_bytes c; or_cid := c |}.

Lemma recursion_limit_bounds_witness :
  ∃ out r, resolve_recursive_mapped dns OutRaw_links loop_load 9 (Path_from_cid ((0x71, [1]) : @Cid ids)) (Some 5)
    = Some (out, r) ∧ Z.of_nat (length out) ≤ 6.
Proof.
  apply (recursion_limit_bounds OutRaw_links loop_load dns _ 5 9); [exact toy_links_short|lia|lia].
Defined.

Lemma recursive_walk_exact_witness :
  ∃ out cid o kids, resolve_path_to_cid dns (Path_from_cid ((0x71, [0x55; 8]) : @Cid ids)) = Ok cid ∧
    load_raw cid = Ok o ∧ Forall2 (below_item OutRaw_links load_raw) out kids ∧ out = o :: mjoin kids ∧ length out = 2%nat.
Proof.
  set (out := [ {| or_source := Source_Bitswap; or_content := [0x55; 8]; or_cid := ((0x71, [0x55; 8]) : @Cid ids) |};
                {| or_source := Source_Bitswap; or_content := [8]; or_cid := ((0x55, [8]) : @Cid ids) |} ]).
  destruct (recursive_walk_exact OutRaw_links load_raw dns (Path_from_cid ((0x71, [0x55; 8]) : @Cid ids)) None 5 out)
    as (cid & o & kids & Hc & Ho & Hk & Hout); [vm_compute; reflexivity|].
  exists out, cid, o, kids. exact (conj Hc (conj Ho (conj Hk (conj Hout eq_refl)))).
Defined.

Definition domain_path : Path :=
  {| path_typ := PathType_Ipns; path_root := Root_Domain ([97; 46] ++ eth); path_tail := [] |}.

Lemma dns_lookups_bounded_witness : resolve_path_to_cid dns domain_path = Ok ((47, [48]) : @Cid ids).
Proof.
  destruct (dns_lookups_bounded dns 1 domain_path tidy) as [Hc _].
  - apply (lookups_next dns 0 domain_path ([97; 46] ++ eth) tidy [Path_from_cid ((1, [2]) : @Cid ids)]);
      [done|done|vm_compute; reflexivity|constructor].
  - apply Hc; [lia|done|done].
Defined.

Lemma plain_reader_refines_cursor_witness :
  ∃ p xs p', run_pretty 1 (loader_of (fetch_data load_held)) [Op_read 2; Op_seek (SeekCurrent 1); Op_read 9] p = Some (xs, p') ∧
    cursor_run [1; 2; 3; 4] 4 (Some 4) 0 [Op_read 2; Op_seek (SeekCurrent 1); Op_read 9] xs (pretty_poll_complete p').
Proof.
  destruct (plain_reader_refines_cursor
    {| out_metadata := {| md_path := domain_path; md_size := None; md_typ := OutType_Raw; md_unixfs_type := None;
                          md_resolved_path := []; md_source := Source_Bitswap |};
       out_content := OutContent_Raw (V_bytes [1; 2; 3; 4; 5] : @Ipld _ _ ipld) [1; 2; 3; 4; 5]; out_context := 0 |}
    [1; 2; 3; 4; 5] (Some 4) [1; 2; 3; 4] [Op_read 2; Op_seek (SeekCurrent 1); Op_read 9] 1
    (loader_of (fetch_data load_held))) as (p & xs & p' & _ & _ & Hrun & Hcur);
    [reflexivity|reflexivity|simpl; lia|repeat constructor; simpl; lia|].
  exists p, xs, p'. exact (conj Hrun Hcur).
Defined.

(** ** Divergences *)

(** The first DNSLink record of the domain is a path with two names, of which only the root is used: the
    domain resolves to the root itself. *)
Lemma dnslink_tail_dropped :
  (resolve_dnslink dns ([97; 46] ++ eth), path_tail tidy, resolve_path_to_cid dns domain_path)
  = (Ok [tidy; Path_from_cid ((1, [2]) : @Cid ids)], [[97]; [98]; []], Ok ((47, [48]) : @Cid ids)).
Proof. vm_compute. reflexivity. Qed.

(** A path to an IPNS key panics. *)
Lemma ipns_key_panics c :
  resolve_path_to_cid dns {| path_typ := PathType_Ipns; path_root := Root_Cid c; path_tail := [] |} = Panic.
Proof. reflexivity. Qed.

(** A raw resolution of a dag-pb block decodes it with the codec of its CID and returns a dag-pb node. *)
Lemma resolve_raw_follows_codec :
  match (resolve_raw load_held dns murmur 0 (Path_from_cid ((0x70, [5]) : @Cid ids))).1 with
  | Ok out => OutContent_typ (out_content out)
  | _ => OutType_Raw
  end = OutType_DagPb.
Proof. vm_compute. reflexivity. Qed.
End ResolverToy.
