(* ===== verification/Loader.v ===== *)
(** * Loading content

    Models [FullLoader] and the loader over a hash map of
    [iroh-unixfs/src/content_loader.rs]: a block comes from the local store, from bitswap or
    from an HTTP gateway, and what came over the network is stored.  The store is that of
    [BlockStore]; bitswap, the indexer and HTTP are functions, and which of two requests is
    answered first is an argument. *)

From stdpp Require Import prelude strings list gmap.
From Stdlib Require Import ZArith Lia.
From S2P Require Import Prelude Cids Bits BlockStore Unixfs Chunker Paths Resolver.
Local Open Scope Z_scope.

Definition IROH_STORE : string := "iroh-store".

(** The [url] crate, and the text of a CID as version 1 in base 32 *)
Class Urls `{Ids} := {
  Url : Type;
  url_parse : bytes → option Url;
  url_to_string : Url → bytes;
  url_join : Url → bytes → option Url;
  url_set_query : Url → bytes → Url;
  cid_base32 : Cid → option bytes
}.

Section loader.
Context `{Multiformats} `{!StoreCodecs} `{!RocksDb} `{!IpldLib} `{!Urls}.

Inductive GatewayUrl := Gateway_Full (u : Url) | Gateway_Subdomain (s : bytes).

Definition GatewayUrl_from_str (input : bytes) : res string GatewayUrl :=
  if bool_decide (is_Some (strip_prefix (str "http") input)) || bool_decide (is_Some (strip_prefix (str "https") input)) then
    url ← ok_or (url_parse input) "invalid url"%string;
    Ok (Gateway_Full url)
  else Ok (Gateway_Subdomain input).

Definition GatewayUrl_as_string (g : GatewayUrl) : bytes :=
  match g with Gateway_Full url => url_to_string url | Gateway_Subdomain s => s end.

Definition GatewayUrl_as_url (g : GatewayUrl) (cid : Cid) : res string Url :=
  cid_str ← ok_or (cid_base32 cid) "invalid cid"%string;
  match g with
  | Gateway_Full raw =>
      url ← unwrap (url_join raw cid_str);
      Ok (url_set_query url (str "format=raw"))
  | Gateway_Subdomain raw =>
      ok_or (url_parse (str "https://" ++ cid_str ++ str ".ipfs." ++ raw ++ str "?format=raw")) "invalid url"%string
  end.

(** ** The services *)

(** [None] is a service that is not configured.  A response of a gateway is whether its
    status is a success, and its body. *)
Record FullLoader := {
  fl_store : option StoreState;
  fl_p2p : option (Z → Cid → gset PeerId → res string bytes);
  fl_indexer : option (Cid → res string (list PeerId));
  fl_http : Url → res string (bool * bytes);
  fl_gateways : list GatewayUrl
}.

(** [choose(&mut rng)]: the draw is a number below the length of the list. *)
Definition next_gateway (l : FullLoader) (draw : nat) : option GatewayUrl :=
  match fl_gateways l with [] => None | _ => fl_gateways l !! draw end.

(** An error of the store is passed on by its service. *)
Definition rpc_store {A} (r : res (store_err db_error) A) : res string A :=
  match r with Ok a => Ok a | _ => Err "store"%string end.

Definition fetch_store (l : FullLoader) (cid : Cid) : res string (option LoadedCid) :=
  match fl_store l with
  | Some store =>
      data ← rpc_store (store_get cid store);
      Ok (match data with
          | Some data => Some {| loaded_data := data; loaded_source := Source_Store IROH_STORE |}
          | None => None
          end)
  | None => Ok None
  end.

Definition fetch_bitswap (l : FullLoader) (ctx : Z) (cid : Cid) : res string (option LoadedCid) :=
  match fl_p2p l with
  | Some p2p =>
      let providers := match fl_indexer l with
                       | Some indexer => match indexer cid with Ok ps => list_to_set ps | _ => ∅ end
                       | None => ∅
                       end in
      data ← p2p ctx cid providers;
      Ok (Some {| loaded_data := data; loaded_source := Source_Bitswap |})
  | None => Ok None
  end.

Definition fetch_gateway (l : FullLoader) (draw : nat) (cid : Cid) : res string (option LoadedCid) :=
  match next_gateway l draw with
  | Some gw =>
      url ← GatewayUrl_as_url gw cid;
      '(success, data) ← fl_http l url;
      ensure success "unexpected http status"%string;;
      if bool_decide (verify_hash cid data = Some true) then
        Ok (Some {| loaded_data := data; loaded_source := Source_Http (GatewayUrl_as_string gw) |})
      else Err "invalid CID hash"%string
  | None => Ok None
  end.

(** ** Loading *)

Definition offline (r : res string (option LoadedCid)) : bool := match r with Ok None => true | _ => false end.

(** Of two answers the first that has the block; otherwise the error.  A panic of a request
    is one of the loader. *)
Definition select_loaded (first second : res string (option LoadedCid)) : res string LoadedCid :=
  match first with
  | Ok (Some loaded) => Ok loaded
  | Panic => Panic
  | _ =>
      match second with
      | Ok (Some loaded) => Ok loaded
      | Panic => Panic
      | _ => if offline first && offline second then Err "offline"%string else Err "failed to find"%string
      end
  end.

(** The result, and what is handed to [store_data] *)
Definition load_cid (l : FullLoader) (draw : nat) (bitswap_first : bool) (ctx : Z) (cid : Cid)
    : res string LoadedCid * option (Cid * bytes) :=
  match fetch_store l cid with
  | Ok (Some loaded) => (Ok loaded, None)
  | Ok None =>
      let bitswap := fetch_bitswap l ctx cid in
      let gateway := fetch_gateway l draw cid in
      match (if bitswap_first then select_loaded bitswap gateway else select_loaded gateway bitswap) with
      | Ok loaded => (Ok loaded, Some (cid, loaded_data loaded))
      | Err e => (Err e, None)
      | Panic => (Panic, None)
      end
  | Err e => (Err e, None)
  | Panic => (Panic, None)
  end.

(** The task of [store_data]: the store after it, whether the block was stored, and the
    blocks that bitswap is told of *)
Definition store_data (l : FullLoader) (cid : Cid) (data : bytes)
    : option StoreState * bool * list (list (Cid * bytes)) :=
  let links := match parse_links cid data with Ok links => links | _ => [] end in
  match fl_store l with
  | Some store =>
      match store_put cid data links store with
      | (store, Ok _) => (Some store, true, match fl_p2p l with Some _ => [[(cid, data)]] | None => [] end)
      | (store, _) => (Some store, false, [])
      end
  | None => (None, false, [])
  end.

Definition with_store (l : FullLoader) (store : option StoreState) : FullLoader :=
  {| fl_store := store; fl_p2p := fl_p2p l; fl_indexer := fl_indexer l; fl_http := fl_http l; fl_gateways := fl_gateways l |}.

Definition loader_has_cid (l : FullLoader) (cid : Cid) : res string bool :=
  store ← ok_or (fl_store l) "no store"%string;
  rpc_store (store_has cid store).

(** ** The loader over a hash map *)

Definition map_load_cid (m : gmap Cid bytes) (cid : Cid) : res string LoadedCid :=
  match m !! cid with
  | Some b => Ok {| loaded_data := b; loaded_source := Source_Bitswap |}
  | None => Err "not found"%string
  end.
Definition map_has_cid (m : gmap Cid bytes) (cid : Cid) : res string bool := Ok (bool_decide (is_Some (m !! cid))).
End loader.
