(* ===== verification/LoaderFacts.v ===== *)
(** * Theorems on loading content

    What a load returns does not depend on luck beyond the choice between two sources that
    both have the block, and what came over the network is found in the store afterwards. *)

From stdpp Require Import prelude strings list gmap.
From Stdlib Require Import ZArith Lia.
From S2P Require Import Prelude Cids Bits BlockStore BlockStoreFacts Unixfs Chunker Paths Resolver Loader.
Local Open Scope Z_scope.

Section select.

Lemma select_is_ok a b : a ≠ Panic → b ≠ Panic → is_ok (select_loaded a b) = is_ok (select_loaded b a).
Proof. destruct a as [[]|?|], b as [[]|?|]; done. Qed.

Lemma select_fails a b : a ≠ Panic → b ≠ Panic → is_ok (select_loaded a b) = false → select_loaded a b = select_loaded b a.
Proof. destruct a as [[]|?|], b as [[]|?|]; done. Qed.

Lemma select_from a b x : select_loaded a b = Ok x → a = Ok (Some x) ∨ b = Ok (Some x).
Proof. destruct a as [[]|?|], b as [[]|?|]; cbn; intros; simplify_eq; auto. Qed.

Lemma select_offline a b : select_loaded a b = Err "offline"%string ↔ a = Ok None ∧ b = Ok None.
Proof. destruct a as [[]|?|], b as [[]|?|]; cbn; (split; [by intros|by intros []]). Qed.
End select.

Section facts.
Context `{Multiformats} `{!StoreCodecs} `{!RocksDb} `{!IpldLib} `{!Urls}.

Lemma gateway_verified l draw cid x :
  fetch_gateway l draw cid = Ok (Some x) → verify_hash cid (loaded_data x) = Some true.
Proof.
  unfold fetch_gateway. destruct (next_gateway l draw) as [gw|]; [|done].
  destruct (GatewayUrl_as_url gw cid) as [url| |]; try done. cbn.
  destruct (fl_http l url) as [[[] data]| |]; try done. cbn. case_bool_decide; [|done]. by intros [= <-].
Qed.

Lemma bitswap_source l ctx cid x : fetch_bitswap l ctx cid = Ok (Some x) → loaded_source x = Source_Bitswap.
Proof.
  unfold fetch_bitswap. destruct (fl_p2p l) as [p2p|]; [|done]. destruct (p2p _ _ _); try done. cbn. by intros [= <-].
Qed.

(** C37: if the store does not have a block, whether it is found does not depend on which of bitswap and the
    gateway answers first, and neither does the error: the loader is offline exactly if neither service is
    configured.  What is found is what one of the two sent, is handed on to be stored under its CID, and has
    been checked against the hash if it is from a gateway.  This is for calls in which neither of the two panics. *)
Theorem load_cid_robust l draw ctx cid order :
  let bitswap := fetch_bitswap l ctx cid in
  let gateway := fetch_gateway l draw cid in
  let '(result, to_store) := load_cid l draw order ctx cid in
  let '(result', _) := load_cid l draw (negb order) ctx cid in
  fetch_store l cid = Ok None → bitswap ≠ Panic → gateway ≠ Panic →
  is_ok result = is_ok result' ∧ (is_ok result = false → result = result') ∧
  (result = Err "offline"%string ↔ bitswap = Ok None ∧ gateway = Ok None) ∧
  (∀ x, result = Ok x → (bitswap = Ok (Some x) ∨ gateway = Ok (Some x)) ∧ to_store = Some (cid, loaded_data x) ∧
     (loaded_source x ≠ Source_Bitswap → verify_hash cid (loaded_data x) = Some true)).
Proof.
  cbv zeta. set (b := fetch_bitswap l ctx cid). set (g := fetch_gateway l draw cid).
  destruct (load_cid l draw order ctx cid) as [result to_store] eqn:E1.
  destruct (load_cid l draw (negb order) ctx cid) as [result' to_store'] eqn:E2. intros Hs Hb Hg.
  set (sel := λ o : bool, if o then select_loaded b g else select_loaded g b).
  assert (result = sel order ∧ ∀ x, result = Ok x → to_store = Some (cid, loaded_data x)) as [E Hto].
  { unfold load_cid in E1. rewrite Hs in E1. fold b g in E1. change (if order then _ else _) with (sel order) in E1.
    destruct (sel order); by simplify_eq/=; split; [|intros; simplify_eq]. }
  assert (result' = sel (negb order)) as E'.
  { unfold load_cid in E2. rewrite Hs in E2. fold b g in E2. change (if negb order then _ else _) with (sel (negb order)) in E2.
    destruct (sel (negb order)); by simplify_eq/=. }
  rewrite E' . rewrite E in Hto |- *. clear E E' E1 E2 result result'. split; [|split; [|split]].
  - unfold sel. destruct order; by apply select_is_ok.
  - unfold sel. destruct order; by apply select_fails.
  - unfold sel. destruct order; rewrite select_offline; tauto.
  - intros x Hx. assert (b = Ok (Some x) ∨ g = Ok (Some x)) as Hfrom.
    { unfold sel in Hx. destruct order; apply select_from in Hx; tauto. }
    split; [done|]. split; [by apply Hto|]. intros Hsrc. destruct Hfrom as [Hf|Hf].
    + by apply bitswap_source in Hf.
    + by eapply gateway_verified.
Qed.
End facts.

Section cached.
Context `{MultiformatsLaws} `{!StoreCodecs} `{!StoreCodecsLaws} `{RocksDbLaws} `{!IpldLib} `{!Urls}.

(** A block that was loaded over the network and stored is from then on loaded from the store, with the
    same bytes and whatever the network answers, unless the database fails; bitswap is told of it if it is
    configured. *)
Theorem loaded_block_cached ops s m l draw order ctx cid x data s' notes :
  opens ops → store_run ops store_create [] = (s, m) → fl_store l = Some s →
  load_cid l draw order ctx cid = (Ok x, Some (cid, data)) → store_data l cid data = (Some s', true, notes) →
  notes = match fl_p2p l with Some _ => [[(cid, loaded_data x)]] | None => [] end ∧
  ∀ l' draw' order' ctx', fl_store l' = Some s' →
    load_cid l' draw' order' ctx' cid
      = (Ok {| loaded_data := loaded_data x; loaded_source := Source_Store IROH_STORE |}, None) ∨
    load_cid l' draw' order' ctx' cid = (Err "store"%string, None).
Proof.
  intros Hops Hrun Hst Hload Hput. pose proof (run_ok ops store_create [] Hops create_ok) as Hok. rewrite Hrun in Hok.
  assert (fetch_store l cid = Ok None ∧ data = loaded_data x) as [Hmiss ->].
  { unfold load_cid in Hload. destruct (fetch_store l cid) as [[]| |]; try done. split; [done|].
    destruct (if order then _ else _); by simplify_eq. }
  assert (spec_lookup cid m = None) as Hnone.
  { unfold fetch_store in Hmiss. rewrite Hst in Hmiss. destruct (store_reads cid s m Hok) as [[Hg|[e Hg]] _];
      rewrite Hg in Hmiss; cbn in Hmiss; [|done]. unfold spec_get in Hmiss. by destruct (spec_lookup cid m) as [[]|]. }
  unfold store_data in Hput. rewrite Hst in Hput. set (links := match parse_links cid _ with Ok _ => _ | _ => _ end) in Hput.
  pose proof (put_spec cid (loaded_data x) links s m Hok) as Hp. unfold wp in Hp.
  destruct (store_put cid (loaded_data x) links s) as [s1 [[]|e|]]; try done. cbn in Hp. simplify_eq/=. split; [done|].
  intros l' draw' order' ctx' Hst'. destruct Hp as [Hok' _]. unfold spec_put in Hok'. cbn in Hok'. rewrite Hnone in Hok'.
  destruct (store_reads cid s' _ Hok') as [Hg _]. unfold load_cid, fetch_store. rewrite Hst'.
  assert (spec_get cid ((cid, loaded_data x, links) :: m) = Some (loaded_data x)) as E.
  { unfold spec_get. cbn. by rewrite decide_True. }
  rewrite E in Hg. destruct Hg as [->|[e ->]]; [by left|by right].
Qed.
End cached.

(** ** Examples *)

Module LoaderToy.
Import Toy StoreToy.

Definition ipld : IpldLib := {|
  Ipld := unit; ipld_codec_try_from := λ _, None; ipld_decode := λ _ _, None; ipld_encode := λ _ _, None;
  ipld_link := λ _, None; ipld_string := λ _, None; ipld_take := λ _ _, None; ipld_iter := λ v, [v];
  ipld_references := λ _, []; codec_references := λ _ _, Some []
|}.
#[export] Existing Instance ipld.

Definition urls : Urls := {|
  Url := bytes; url_parse := λ b, Some b; url_to_string := λ u, u; url_join := λ u b, Some (u ++ b);
  url_set_query := λ u q, u ++ q; cid_base32 := λ c : @Cid ids, Some (c : list Z)
|}.
#[export] Existing Instance urls.

(** The CID [5] is the hash of the data [5]; the gateway has it and bitswap fails. *)
Definition cid5 : @Cid ids := [5].
Definition node_loader : FullLoader := {|
  fl_store := Some store_create; fl_p2p := Some (λ _ _ _, Err "timeout"%string); fl_indexer := None;
  fl_http := λ _, Ok (true, [5]); fl_gateways := [Gateway_Subdomain [9]]
|}.
Definition answer : LoadedCid := {| loaded_data := [5]; loaded_source := Source_Http [9] |}.

Lemma load_cid_robust_witness :
  (load_cid node_loader 0 true 1 cid5).1 = Ok answer ∧ verify_hash cid5 [5] = Some true.
Proof.
  pose proof (load_cid_robust node_loader 0 1 cid5 true) as Ht.
  assert (load_cid node_loader 0 true 1 cid5 = (Ok answer, Some (cid5, [5]))) as E1 by (vm_compute; reflexivity).
  assert (load_cid node_loader 0 (negb true) 1 cid5 = (Ok answer, Some (cid5, [5]))) as E2 by (vm_compute; reflexivity).
  cbv zeta in Ht. rewrite E1, E2 in Ht. rewrite E1.
  destruct Ht as (_ & _ & _ & Hx); [vm_compute; reflexivity|by vm_compute|by vm_compute|].
  split; [reflexivity|]. by apply (Hx answer eq_refl).
Defined.

Definition stored5 : StoreState := default store_create (store_data node_loader cid5 [5]).1.1.

Lemma loaded_block_cached_witness :
  load_cid (with_store node_loader (Some stored5)) 0 true 2 cid5
    = (Ok {| loaded_data := [5]; loaded_source := Source_Store IROH_STORE |}, None) ∨
  load_cid (with_store node_loader (Some stored5)) 0 true 2 cid5 = (Err "store"%string, None).
Proof.
  apply (loaded_block_cached [] store_create [] node_loader 0 true 1 cid5 answer [5] stored5 [[(cid5, [5])]]).
  - intros Hin. by apply not_elem_of_nil in Hin.
  - reflexivity.
  - reflexivity.
  - vm_compute. reflexivity.
  - vm_compute. reflexivity.
  - reflexivity.
Defined.
End LoaderToy.
