(* ===== verification/FileSystem.v ===== *)
(** * A file system

    The part of [std::fs] and [std::path] on a Unix system that adding and getting
    files uses: directories, files and symbolic links, the resolution of paths with
    the limit on the number of links that are followed, and the operations with their
    errors.  Permissions, limits on sizes and other processes are not part of it.

    A file system is a map from absolute paths, lists of names, to objects; the root
    is always there.  The order in which [read_dir] lists a directory is that of
    [HashOrder]; how a file is cut into reads is the class [Reads]. *)

From stdpp Require Import prelude gmap strings list.
From Stdlib Require Import ZArith Lia.
From S2P Require Import Prelude Cids Bits Unixfs Chunker Paths.
Local Open Scope Z_scope.

(** ** Paths *)

(** A path as [Path::components] sees it: whether it is absolute, and its names; empty
    names are dropped, and [.] is kept only at the start of a relative path. *)
Record PathBuf := { pb_abs : bool; pb_parts : list bytes }.
#[export] Instance PathBuf_eq_dec : EqDecision PathBuf.
Proof. solve_decision. Defined.

Definition CUR_DIR : bytes := [46].
Definition PARENT_DIR : bytes := [46; 46].

Definition PathBuf_from (s : bytes) : PathBuf :=
  let parts := filter (λ p, p ≠ []) (split_on (Z.eqb SLASH) s) in
  {| pb_abs := bool_decide (head s = Some SLASH);
     pb_parts := match parts with
                 | p :: ps => if bool_decide (p = CUR_DIR) && bool_decide (head s ≠ Some SLASH)
                              then p :: filter (λ p, p ≠ CUR_DIR) ps
                              else filter (λ p, p ≠ CUR_DIR) parts
                 | [] => []
                 end |}.

Definition pb_join (p : PathBuf) (name : bytes) : PathBuf :=
  {| pb_abs := pb_abs p; pb_parts := pb_parts p ++ [name] |}.

(** [Path::file_name] *)
Definition file_name (p : PathBuf) : option bytes :=
  match last (pb_parts p) with
  | Some n => if bool_decide (n = PARENT_DIR) || bool_decide (n = CUR_DIR) then None else Some n
  | None => None
  end.
(** [path.file_name().and_then(|s| s.to_str()).unwrap_or_default()] *)
Definition file_name_str (p : PathBuf) : bytes :=
  match file_name p with Some n => if utf8_valid n then n else [] | None => [] end.

(** [Path::parent] *)
Definition pb_parent (p : PathBuf) : option PathBuf :=
  match pb_parts p with
  | [] => None
  | ps => Some {| pb_abs := pb_abs p; pb_parts := removelast ps |}
  end.

Definition pb_empty (p : PathBuf) : bool := negb (pb_abs p) && bool_decide (pb_parts p = []).

(** ** Objects *)

Inductive fs_object := Fs_Dir | Fs_File (content : bytes) | Fs_Symlink (target : bytes).
#[export] Instance fs_object_eq_dec : EqDecision fs_object.
Proof. solve_decision. Defined.

Inductive fs_error := NotFound | NotADirectory | FilesystemLoop | AlreadyExists | IsADirectory | InvalidInput.

Abbreviation Fs := (gmap (list bytes) fs_object).

Definition fs_at (f : Fs) (p : list bytes) : option fs_object :=
  match p with [] => Some Fs_Dir | _ => f !! p end.

(** ** Resolution of paths *)

Definition MAX_SYMLINKS : nat := 40.

Section resolution.
Context (f : Fs).

(** Where a path leads, from a directory: the last component need not exist.  [follow]:
    whether a link that is the last component is followed. *)
Fixpoint fs_walk (links : nat) (follow : bool) : list bytes → list bytes → res fs_error (list bytes) :=
  fix go (at_ parts : list bytes) : res fs_error (list bytes) :=
    match parts with
    | [] => Ok at_
    | p :: rest =>
        if decide (p = CUR_DIR) then go at_ rest
        else if decide (p = PARENT_DIR) then go (removelast at_) rest
        else
          match f !! (at_ ++ [p]) with
          | Some Fs_Dir => go (at_ ++ [p]) rest
          | Some (Fs_File _) => match rest with [] => Ok (at_ ++ [p]) | _ => Err NotADirectory end
          | None => match rest with [] => Ok (at_ ++ [p]) | _ => Err NotFound end
          | Some (Fs_Symlink t) =>
              if bool_decide (rest = []) && negb follow then Ok (at_ ++ [p])
              else match links with
                   | O => Err FilesystemLoop
                   | S links =>
                       let t := PathBuf_from t in
                       fs_walk links follow (if pb_abs t then [] else at_) (pb_parts t ++ rest)
                   end
          end
    end.
End resolution.

Section operations.
(** The working directory *)
Context (cwd : list bytes).

(** An empty path is not found. *)
Definition fs_real (follow : bool) (f : Fs) (p : PathBuf) : res fs_error (list bytes) :=
  if pb_empty p then Err NotFound
  else fs_walk f MAX_SYMLINKS follow (if pb_abs p then [] else cwd) (pb_parts p).

(** ** Reading *)

Definition fs_stat (follow : bool) (f : Fs) (p : PathBuf) : option fs_object :=
  match fs_real follow f p with Ok here => fs_at f here | _ => None end.

Definition exists_ (f : Fs) (p : PathBuf) : bool := bool_decide (is_Some (fs_stat true f p)).
Definition is_dir_path (f : Fs) (p : PathBuf) : bool :=
  match fs_stat true f p with Some Fs_Dir => true | _ => false end.
Definition is_file_path (f : Fs) (p : PathBuf) : bool :=
  match fs_stat true f p with Some (Fs_File _) => true | _ => false end.
Definition is_symlink_path (f : Fs) (p : PathBuf) : bool :=
  match fs_stat false f p with Some (Fs_Symlink _) => true | _ => false end.

(** The target is the text of the link. *)
Definition read_link (f : Fs) (p : PathBuf) : res fs_error bytes :=
  match fs_real false f p with
  | Ok here => match fs_at f here with
               | Some (Fs_Symlink t) => Ok t
               | Some _ => Err InvalidInput
               | None => Err NotFound
               end
  | Err e => Err e
  | Panic => Panic
  end.

(** The names in a directory *)
Definition name_in (dir k : list bytes) : option bytes :=
  match drop (length dir) k with
  | [n] => if decide (take (length dir) k = dir) then Some n else None
  | _ => None
  end.
Definition children (f : Fs) (dir : list bytes) : gset bytes :=
  list_to_set (omap (name_in dir) (map_to_list f).*1).

Definition read_dir `{HashOrder} (f : Fs) (p : PathBuf) : res fs_error (list bytes) :=
  match fs_real true f p with
  | Ok here => match fs_at f here with
               | Some Fs_Dir => Ok (hs_iter (children f here))
               | Some _ => Err NotADirectory
               | None => Err NotFound
               end
  | Err e => Err e
  | Panic => Panic
  end.

(** ** Writing *)

Definition mkdir (p : PathBuf) (f : Fs) : res fs_error unit * Fs :=
  match fs_real false f p with
  | Ok here => match fs_at f here with
               | Some _ => (Err AlreadyExists, f)
               | None => (Ok tt, <[here := Fs_Dir]> f)
               end
  | Err e => (Err e, f)
  | Panic => (Panic, f)
  end.

(** [create_dir_all], by recursion on the number of components *)
Fixpoint create_dir_all_n (n : nat) (p : PathBuf) (f : Fs) : res fs_error unit * Fs :=
  if pb_empty p then (Ok tt, f)
  else
    match mkdir p f with
    | (Ok _, f) => (Ok tt, f)
    | (Err NotFound, _) =>
        match n, pb_parent p with
        | S n, Some parent =>
            match create_dir_all_n n parent f with
            | (Ok _, f) =>
                match mkdir p f with
                | (Ok _, f) => (Ok tt, f)
                | (Err e, _) => (if is_dir_path f p then Ok tt else Err e, f)
                | (Panic, _) => (Panic, f)
                end
            | r => r
            end
        | _, _ => (Err NotFound, f)
        end
    | (Err e, _) => (if is_dir_path f p then Ok tt else Err e, f)
    | (Panic, _) => (Panic, f)
    end.
Definition create_dir_all (p : PathBuf) (f : Fs) : res fs_error unit * Fs :=
  create_dir_all_n (length (pb_parts p)) p f.

(** [File::create] gives a file that is empty; writing appends to it. *)
Definition file_create (p : PathBuf) (f : Fs) : res fs_error (list bytes) * Fs :=
  match fs_real true f p with
  | Ok here => match fs_at f here with
               | Some Fs_Dir => (Err IsADirectory, f)
               | _ => (Ok here, <[here := Fs_File []]> f)
               end
  | Err e => (Err e, f)
  | Panic => (Panic, f)
  end.
Definition file_write (here : list bytes) (b : bytes) (f : Fs) : Fs :=
  match f !! here with
  | Some (Fs_File c) => <[here := Fs_File (c ++ b)]> f
  | _ => f
  end.

Definition symlink (target : bytes) (p : PathBuf) (f : Fs) : res fs_error unit * Fs :=
  match target with
  | [] => (Err NotFound, f)
  | _ =>
      match fs_real false f p with
      | Ok here => match fs_at f here with
                   | Some _ => (Err AlreadyExists, f)
                   | None => (Ok tt, <[here := Fs_Symlink target]> f)
                   end
      | Err e => (Err e, f)
      | Panic => (Panic, f)
      end
  end.
End operations.

(** ** Reads *)

(** How the content of a file or of a buffer is cut into the reads of a source *)
Class Reads := {
  reads : bytes → list bytes;
  reads_join b : mjoin (reads b) = b;
  reads_nonempty b : Forall (λ q, q ≠ []) (reads b)
}.

(** [tokio::fs::File::open] and the reads of the file; the reads of a directory fail. *)
Definition file_open `{Reads} (cwd : list bytes) (f : Fs) (p : PathBuf) : res string source :=
  match fs_real cwd true f p with
  | Ok here => match fs_at f here with
               | Some (Fs_File c) => Ok (Ok <$> reads c)
               | Some Fs_Dir => Ok [Err "is a directory"%string]
               | _ => Err "not found"%string
               end
  | Err _ => Err "not found"%string
  | Panic => Panic
  end.
