(* ===== verification/Entries.v ===== *)
(** * Entries from the file system

    Models the builders of [iroh-unixfs/src/builder.rs]: files from paths, bytes and
    readers, symbolic links, directories from entries and from the tree below a path.
    The reads of a file are taken when its entry is built; the code opens it when the
    entry is encoded, and nothing writes in between. *)

From stdpp Require Import prelude gmap strings list.
From Stdlib Require Import ZArith Lia.
From S2P Require Import Prelude Cids Bits Unixfs Chunker Rabin BalancedTree Builder Paths FileSystem.
Local Open Scope Z_scope.

Definition io {A} (r : res fs_error A) : res string A :=
  match r with Ok a => Ok a | Err _ => Err "io error"%string | Panic => Panic end.

Section builders.
Context `{HashOrder} `{Reads} (cwd : list bytes) (murmur3 : bytes → Z).

(** ** Files *)

Record FileBuilder := {
  fb_name : option bytes;
  fb_path : option PathBuf;
  fb_reader : option source;
  fb_chunker : Chunker;
  fb_degree : Z
}.
Definition FileBuilder_default : FileBuilder :=
  {| fb_name := None; fb_path := None; fb_reader := None;
     fb_chunker := Chunker_Fixed {| chunk_size := DEFAULT_CHUNKS_SIZE |}; fb_degree := DEFAULT_DEGREE |}.

Definition fb_set_path (path : PathBuf) (b : FileBuilder) : FileBuilder :=
  {| fb_name := fb_name b; fb_path := Some path; fb_reader := fb_reader b;
     fb_chunker := fb_chunker b; fb_degree := fb_degree b |}.
Definition fb_set_name (name : bytes) (b : FileBuilder) : FileBuilder :=
  {| fb_name := Some name; fb_path := fb_path b; fb_reader := fb_reader b;
     fb_chunker := fb_chunker b; fb_degree := fb_degree b |}.
Definition fb_set_chunker (chunker : Chunker) (b : FileBuilder) : FileBuilder :=
  {| fb_name := fb_name b; fb_path := fb_path b; fb_reader := fb_reader b;
     fb_chunker := chunker; fb_degree := fb_degree b |}.
Definition fb_fixed_chunker (chunk_size : Z) (b : FileBuilder) : res string FileBuilder :=
  c ← Fixed_new chunk_size; Ok (fb_set_chunker (Chunker_Fixed c) b).
Definition fb_rabin_chunker (b : FileBuilder) : res string FileBuilder :=
  r ← Rabin_new Config_default GO_IPFS_V0_PRESET; Ok (fb_set_chunker (Chunker_Rabin r) b).
Definition fb_set_degree (degree : Z) (b : FileBuilder) : FileBuilder :=
  {| fb_name := fb_name b; fb_path := fb_path b; fb_reader := fb_reader b;
     fb_chunker := fb_chunker b; fb_degree := degree |}.
Definition fb_content_reader (content : source) (b : FileBuilder) : FileBuilder :=
  {| fb_name := fb_name b; fb_path := fb_path b; fb_reader := Some content;
     fb_chunker := fb_chunker b; fb_degree := fb_degree b |}.
Definition fb_content_bytes (content : bytes) (b : FileBuilder) : FileBuilder :=
  fb_content_reader (Ok <$> reads content) b.

Definition fb_build (f : Fs) (b : FileBuilder) : res string Entry :=
  assert (1 <? fb_degree b);;
  match fb_path b with
  | Some path =>
      let name := default (file_name_str path) (fb_name b) in
      Ok (Entry_File name (file_open cwd f path) (fb_chunker b) (fb_degree b))
  | None =>
      match fb_reader b with
      | Some reader =>
          name ← ok_or (fb_name b) "must add a name when building a file from a reader or bytes"%string;
          Ok (Entry_File name (Ok reader) (fb_chunker b) (fb_degree b))
      | None => Err "must have a path to the content or a reader for the content"%string
      end
  end.

(** ** Symbolic links *)

Record SymlinkBuilder := { sb_path : PathBuf; sb_target : option bytes }.
Definition SymlinkBuilder_new (path : PathBuf) : SymlinkBuilder := {| sb_path := path; sb_target := None |}.
Definition sb_set_target (target : bytes) (b : SymlinkBuilder) : SymlinkBuilder :=
  {| sb_path := sb_path b; sb_target := Some target |}.
Definition sb_build (f : Fs) (b : SymlinkBuilder) : res string Entry :=
  target ← match sb_target b with Some t => Ok t | None => io (read_link cwd f (sb_path b)) end;
  Ok (Entry_Symlink (file_name_str (sb_path b)) target).

(** ** Directories *)

Record DirectoryBuilder := {
  db_name : option bytes;
  db_entries : list Entry;
  db_typ : DirectoryType;
  db_chunker : Chunker;
  db_degree : Z;
  db_path : option PathBuf
}.
Definition DirectoryBuilder_new : DirectoryBuilder :=
  {| db_name := None; db_entries := []; db_typ := DirType_Basic;
     db_chunker := Chunker_Fixed {| chunk_size := DEFAULT_CHUNKS_SIZE |}; db_degree := DEFAULT_DEGREE;
     db_path := None |}.

Definition db_hamt (b : DirectoryBuilder) : DirectoryBuilder :=
  {| db_name := db_name b; db_entries := db_entries b; db_typ := DirType_Hamt;
     db_chunker := db_chunker b; db_degree := db_degree b; db_path := db_path b |}.
Definition db_set_name (n : bytes) (b : DirectoryBuilder) : DirectoryBuilder :=
  {| db_name := Some n; db_entries := db_entries b; db_typ := db_typ b;
     db_chunker := db_chunker b; db_degree := db_degree b; db_path := db_path b |}.
Definition db_set_path (path : PathBuf) (b : DirectoryBuilder) : DirectoryBuilder :=
  {| db_name := db_name b; db_entries := db_entries b; db_typ := db_typ b;
     db_chunker := db_chunker b; db_degree := db_degree b; db_path := Some path |}.
Definition db_set_chunker (chunker : Chunker) (b : DirectoryBuilder) : DirectoryBuilder :=
  {| db_name := db_name b; db_entries := db_entries b; db_typ := db_typ b;
     db_chunker := chunker; db_degree := db_degree b; db_path := db_path b |}.
Definition db_set_degree (degree : Z) (b : DirectoryBuilder) : DirectoryBuilder :=
  {| db_name := db_name b; db_entries := db_entries b; db_typ := db_typ b;
     db_chunker := db_chunker b; db_degree := degree; db_path := db_path b |}.

(** [DirectoryBuilder::entry], called by [add_dir], [add_file] and [add_symlink] *)
Definition db_entry (e : Entry) (b : DirectoryBuilder) : DirectoryBuilder :=
  {| db_name := db_name b;
     db_entries := db_entries b ++ [e];
     db_typ := if bool_decide (db_typ b = DirType_Basic)
                  && (DIRECTORY_LINK_LIMIT <=? Z.of_nat (length (db_entries b)))
               then DirType_Hamt else db_typ b;
     db_chunker := db_chunker b; db_degree := db_degree b; db_path := db_path b |}.

(** [build] of a builder without a path *)
Definition db_build_entries (b : DirectoryBuilder) : res string Directory :=
  let name := default [] (db_name b) in
  match db_typ b with
  | DirType_Basic => Ok (Dir_Basic name (db_entries b))
  | DirType_Hamt => hamt ← HamtNode_new murmur3 (db_entries b); Ok (Dir_Hamt name hamt)
  end.

(** The entry for one name in a directory; [walk] makes a directory. *)
Definition entry_for (walk : PathBuf → option (res string Directory)) (f : Fs) (chunker : Chunker) (degree : Z)
    (path : PathBuf) : option (res string Entry) :=
  if is_symlink_path cwd f path then Some (sb_build f (SymlinkBuilder_new path))
  else if is_file_path cwd f path then
    Some (fb_build f (fb_set_path path (fb_set_degree degree (fb_set_chunker chunker FileBuilder_default))))
  else if is_dir_path cwd f path then
    d ← walk path; Some (d ← d; Ok (Entry_Directory d))
  else Some (Err "directory entry is neither file nor directory"%string).

(** The loop over the names of a directory; [None] is the lack of fuel. *)
Fixpoint add_entries (walk : PathBuf → option (res string Directory)) (f : Fs) (chunker : Chunker) (degree : Z)
    (path : PathBuf) (names : list bytes) (dir : DirectoryBuilder) : option (res string DirectoryBuilder) :=
  match names with
  | [] => Some (Ok dir)
  | n :: names =>
      e ← entry_for walk f chunker degree (pb_join path n);
      match e with
      | Ok e => add_entries walk f chunker degree path names (db_entry e dir)
      | Err e => Some (Err e)
      | Panic => Some Panic
      end
  end.

(** [make_dir_from_path]: one unit of fuel for each level of directories *)
Fixpoint make_dir_from_path (fuel : nat) (f : Fs) (chunker : Chunker) (degree : Z) (path : PathBuf)
    : option (res string Directory) :=
  match fuel with
  | O => None
  | S fuel =>
      let dir := db_set_name (file_name_str path) DirectoryBuilder_new in
      match io (read_dir cwd f path) with
      | Ok names =>
          dir ← add_entries (make_dir_from_path fuel f chunker degree) f chunker degree path names dir;
          Some (dir ← dir; db_build_entries dir)
      | Err e => Some (Err e)
      | Panic => Some Panic
      end
  end.

Definition db_build (fuel : nat) (f : Fs) (b : DirectoryBuilder) : option (res string Directory) :=
  match db_path b with
  | Some path =>
      dir ← make_dir_from_path fuel f (db_chunker b) (db_degree b) path;
      Some (dir ← dir; Ok (match db_name b with Some n => Directory_set_name n dir | None => dir end))
  | None => Some (db_build_entries b)
  end.

(** ** Entries from a path *)

Record UnixfsConfig := { cfg_wrap : bool; cfg_chunker : option ChunkerConfig }.

Definition Entry_from_path (fuel : nat) (f : Fs) (path : PathBuf) (config : UnixfsConfig) : option (res string Entry) :=
  let with_chunker (k : Chunker → option (res string Entry)) : option (res string Entry) :=
    match cfg_chunker config with
    | Some c => match Chunker_from c with
                | Ok chunker => k chunker
                | Err e => Some (Err e)
                | Panic => Some Panic
                end
    | None => Some (Err "expected a ChunkerConfig in the Config"%string)
    end in
  entry ←
    (if is_dir_path cwd f path then
       with_chunker (λ chunker,
         dir ← db_build fuel f (db_set_path path (db_set_chunker chunker DirectoryBuilder_new));
         Some (dir ← dir; Ok (Entry_Directory dir)))
     else if is_file_path cwd f path then
       with_chunker (λ chunker, Some (fb_build f (fb_set_path path (fb_set_chunker chunker FileBuilder_default))))
     else if is_symlink_path cwd f path then Some (sb_build f (SymlinkBuilder_new path))
     else Some (Err "can only add files, directories, or symlinks"%string));
  Some (entry ← entry; Ok (if cfg_wrap config then Entry_Directory (Entry_wrap entry) else entry)).
End builders.
