(* ===== verification/FileTrees.v ===== *)
(** * Trees of files

    What the operations of [FileSystem] do on paths without symbolic links, the tree of
    objects below a path, the entry that the builders make of it, and its objects in
    breadth-first order. *)

From stdpp Require Import prelude gmap strings list sorting.
From Stdlib Require Import ZArith Lia.
From S2P Require Import Prelude Cids Bits Unixfs Chunker Rabin RabinFacts BalancedTree Builder Paths.
From S2P Require Import FileSystem Entries.
Local Open Scope Z_scope.

(** ** Names and plain paths *)

(** A name that can be a component of a path *)
Definition proper (n : bytes) : Prop :=
  n ≠ [] ∧ n ≠ CUR_DIR ∧ n ≠ PARENT_DIR ∧ SLASH ∉ n.

Section paths.
Context (cwd : list bytes).
Implicit Types (f : Fs) (p : PathBuf) (P : list bytes).

Lemma fs_walk_nil f links follow at_ : fs_walk f links follow at_ [] = Ok at_.
Proof. by destruct links. Qed.

Lemma fs_walk_cons f links follow at_ n rest : proper n →
  fs_walk f links follow at_ (n :: rest) =
    match f !! (at_ ++ [n]) with
    | Some Fs_Dir => fs_walk f links follow (at_ ++ [n]) rest
    | Some (Fs_File _) => match rest with [] => Ok (at_ ++ [n]) | _ => Err NotADirectory end
    | None => match rest with [] => Ok (at_ ++ [n]) | _ => Err NotFound end
    | Some (Fs_Symlink t) =>
        if bool_decide (rest = []) && negb follow then Ok (at_ ++ [n])
        else match links with
             | O => Err FilesystemLoop
             | S links => let t := PathBuf_from t in
                          fs_walk f links follow (if pb_abs t then [] else at_) (pb_parts t ++ rest)
             end
    end.
Proof.
  intros (_ & Hc & Hp & _). destruct links; cbn [fs_walk];
    destruct (decide (n = CUR_DIR)); [done| |done|]; destruct (decide (n = PARENT_DIR)); done.
Qed.

(** The directory that a path starts from *)
Definition base_of p : list bytes := if pb_abs p then [] else cwd.

(** [p] is the path [P], by directories only *)
Definition leads f p P : Prop :=
  P = base_of p ++ pb_parts p ∧ pb_parts p ≠ [] ∧ Forall proper (pb_parts p) ∧
  ∀ l n r, pb_parts p = l ++ n :: r → r ≠ [] → f !! (base_of p ++ l ++ [n]) = Some Fs_Dir.

Lemma walk_plain f links follow at_ parts :
  Forall proper parts → parts ≠ [] →
  (∀ l n r, parts = l ++ n :: r → r ≠ [] → f !! (at_ ++ l ++ [n]) = Some Fs_Dir) →
  follow = false ∨ (∀ t, f !! (at_ ++ parts) ≠ Some (Fs_Symlink t)) →
  fs_walk f links follow at_ parts = Ok (at_ ++ parts).
Proof.
  revert at_. induction parts as [|n rest IH]; intros at_ Hp Hne Hd Hf; [done|].
  apply Forall_cons in Hp as [Hn Hp]. rewrite fs_walk_cons by done. destruct (decide (rest = [])) as [->|Hr].
  - destruct (f !! (at_ ++ [n])) as [[| |t]|] eqn:E; rewrite ?fs_walk_nil; try done.
    destruct follow; [|done]. destruct Hf as [|Hf]; [done|]. by destruct (Hf t).
  - pose proof (Hd [] n rest eq_refl Hr) as E. cbn in E. rewrite E. replace (at_ ++ n :: rest) with ((at_ ++ [n]) ++ rest) by by rewrite <-app_assoc.
    apply IH; try done.
    + intros l m r -> Hr'. pose proof (Hd (n :: l) m r eq_refl Hr') as Hx. by rewrite <-app_assoc.
    + destruct Hf as [|Hf]; [by left|right]. intros t. by rewrite <-app_assoc.
Qed.

Lemma real_leads f p P follow :
  leads f p P → follow = false ∨ (∀ t, f !! P ≠ Some (Fs_Symlink t)) → fs_real cwd follow f p = Ok P.
Proof.
  intros (-> & Hne & Hp & Hd) Hf. unfold fs_real, pb_empty. rewrite (bool_decide_eq_false_2 _ Hne), andb_false_r.
  by apply walk_plain.
Qed.

Lemma leads_nonempty f p P : leads f p P → P ≠ [].
Proof. intros (-> & Hne & _) [_ ?]%app_eq_nil. done. Qed.

Lemma at_nonempty f P : P ≠ [] → fs_at f P = f !! P.
Proof. by destruct P. Qed.

(** Objects at a plain path *)
Lemma stat_leads f p P follow o :
  leads f p P → f !! P = o → follow = false ∨ (∀ t, o ≠ Some (Fs_Symlink t)) → fs_stat cwd follow f p = o.
Proof.
  intros Hl E Hf. unfold fs_stat. rewrite (real_leads f p P) by (try done; by rewrite E).
  rewrite at_nonempty by by eapply leads_nonempty. done.
Qed.

Lemma leads_child f p P n :
  leads f p P → proper n → f !! P = Some Fs_Dir → leads f (pb_join p n) (P ++ [n]).
Proof.
  intros (-> & Hne & Hp & Hd) Hn E. split_and!; cbn.
  - by rewrite <-app_assoc.
  - intros [_ ?]%app_eq_nil. done.
  - apply Forall_app. split; [done|]. by apply Forall_singleton.
  - intros l m r Hx Hr. destruct r as [|x r _] using rev_ind; [done|].
    change (l ++ m :: r ++ [x]) with (l ++ (m :: r) ++ [x]) in Hx. rewrite app_assoc in Hx.
    apply app_inj_2 in Hx as [Hx _]; [|done]. destruct (decide (r = [])) as [->|Hr'].
    + change (base_of (pb_join p n)) with (base_of p). by rewrite <-Hx.
    + by apply (Hd l m r).
Qed.

(** Changes at or below a plain path do not change it. *)
Lemma leads_change f f' p P :
  leads f p P → (∀ k, ¬ P `prefix_of` k → f !! k = Some Fs_Dir → f' !! k = Some Fs_Dir) → leads f' p P.
Proof.
  intros (-> & Hne & Hp & Hd) Hf. split_and!; try done. intros l n r Hx Hr. apply Hf; [|by eapply Hd].
  intros [k Hk]. rewrite Hx in Hk. rewrite <-!app_assoc in Hk. apply app_inv_head in Hk. apply app_inv_head in Hk.
  injection Hk as Hk. by destruct r.
Qed.

(** *** Operations *)

Lemma mkdir_fresh f p P : leads f p P → f !! P = None → mkdir cwd p f = (Ok tt, <[P := Fs_Dir]> f).
Proof.
  intros Hl E. unfold mkdir. rewrite (real_leads f p P) by (try done; by left).
  by rewrite at_nonempty, E by by eapply leads_nonempty.
Qed.

Lemma create_dir_all_fresh f p P :
  leads f p P → f !! P = None → create_dir_all cwd p f = (Ok tt, <[P := Fs_Dir]> f).
Proof.
  intros Hl E. unfold create_dir_all. pose proof Hl as (_ & Hne & _).
  assert (pb_empty p = false) as He by (unfold pb_empty; by rewrite (bool_decide_eq_false_2 _ Hne), andb_false_r).
  destruct (length (pb_parts p)); cbn [create_dir_all_n]; by rewrite He, (mkdir_fresh f p P).
Qed.

Lemma create_dir_all_exists f p P :
  leads f p P → f !! P = Some Fs_Dir → create_dir_all cwd p f = (Ok tt, f).
Proof.
  intros Hl E. unfold create_dir_all. pose proof Hl as (_ & Hne & _).
  assert (pb_empty p = false) as He by (unfold pb_empty; by rewrite (bool_decide_eq_false_2 _ Hne), andb_false_r).
  assert (mkdir cwd p f = (Err AlreadyExists, f)) as Hm.
  { unfold mkdir. rewrite (real_leads f p P) by (try done; by left). by rewrite at_nonempty, E by by eapply leads_nonempty. }
  assert (is_dir_path cwd f p = true) as Hd by (unfold is_dir_path; by rewrite (stat_leads f p P true (Some Fs_Dir)) by (done || by right)).
  destruct (length (pb_parts p)); cbn [create_dir_all_n]; by rewrite He, Hm, Hd.
Qed.

Lemma file_create_fresh f p P : leads f p P → f !! P = None → file_create cwd p f = (Ok P, <[P := Fs_File []]> f).
Proof.
  intros Hl E. unfold file_create. rewrite (real_leads f p P) by (try done; right; by rewrite E).
  by rewrite at_nonempty, E by by eapply leads_nonempty.
Qed.

Lemma file_write_at f P c b : f !! P = Some (Fs_File c) → file_write P b f = <[P := Fs_File (c ++ b)]> f.
Proof. intros E. unfold file_write. by rewrite E. Qed.

Lemma symlink_fresh f p P t :
  leads f p P → f !! P = None → t ≠ [] → symlink cwd t p f = (Ok tt, <[P := Fs_Symlink t]> f).
Proof.
  intros Hl E Ht. unfold symlink. destruct t; [done|]. rewrite (real_leads f p P) by (try done; by left).
  by rewrite at_nonempty, E by by eapply leads_nonempty.
Qed.
End paths.

(** ** Trees *)

Inductive tree := T_File (content : bytes) | T_Link (target : bytes) | T_Dir (entries : list (bytes * tree)).

Definition object (t : tree) : fs_object :=
  match t with T_File c => Fs_File c | T_Link t => Fs_Symlink t | T_Dir _ => Fs_Dir end.

(** The tree with a name among the entries of a directory *)
Definition named {A} (n : bytes) (l : list (bytes * A)) : option A := snd <$> (snd <$> list_find (λ e, e.1 = n) l).

Fixpoint subtree (t : tree) (rel : list bytes) : option tree :=
  match rel with
  | [] => Some t
  | n :: rel => match t with T_Dir l => t ← named n l; subtree t rel | _ => None end
  end.

(** The tree below a path of a file system, as [read_dir] lists it *)
Section tree_at.
Context `{HashOrder}.

Fixpoint tree_at (depth : nat) (f : Fs) (P : list bytes) : option tree :=
  match depth with
  | O => None
  | S depth =>
      match f !! P with
      | Some (Fs_File c) => Some (T_File c)
      | Some (Fs_Symlink t) => Some (T_Link t)
      | Some Fs_Dir =>
          l ← mapM (λ n, t ← tree_at depth f (P ++ [n]); Some (n, t)) (hs_iter (children f P));
          Some (T_Dir l)
      | None => None
      end
  end.
End tree_at.

(** Every object is in a directory. *)
Definition closed (f : Fs) : Prop := ∀ k n o, f !! (k ++ [n]) = Some o → k = [] ∨ f !! k = Some Fs_Dir.

Lemma named_Some {A} n (l : list (bytes * A)) t : named n l = Some t → (n, t) ∈ l.
Proof.
  unfold named. destruct (list_find _ l) as [[i [m t']]|] eqn:E; [|done]. intros [= <-].
  apply list_find_Some in E as (Hi & Hm & _). cbn in *. subst. by eapply list_elem_of_lookup_2.
Qed.

Lemma named_None {A} n (l : list (bytes * A)) : named n l = None → n ∉ l.*1.
Proof.
  unfold named. destruct (list_find _ l) as [[i [m t']]|] eqn:E; [done|]. intros _ ([m t] & -> & Hin)%list_elem_of_fmap.
  apply list_find_None in E. rewrite list.Forall_forall in E. by apply (E (m, t)).
Qed.

Lemma named_elem {A} n (l : list (bytes * A)) t : NoDup l.*1 → (n, t) ∈ l → named n l = Some t.
Proof.
  intros Hnd Hin. destruct (named n l) as [t'|] eqn:E.
  - apply named_Some in E. f_equal.
    apply list_elem_of_lookup in Hin as [i Hi], E as [j Hj].
    assert (i = j) as ->; [|congruence]. apply (NoDup_lookup l.*1 i j n Hnd); by rewrite list_lookup_fmap, ?Hi, ?Hj.
  - apply named_None in E. destruct E. apply list_elem_of_fmap. by exists (n, t).
Qed.

Section trees.
Context `{HashOrder}.
Implicit Types (f : Fs) (P : list bytes).

Lemma name_in_Some dir k n : name_in dir k = Some n ↔ k = dir ++ [n].
Proof.
  unfold name_in. split.
  - destruct (drop (length dir) k) as [|m [|? ?]] eqn:Ed; try done. case_decide as Et; [|done]. intros [= <-].
    by rewrite <-(take_drop (length dir) k), Et, Ed.
  - intros ->. rewrite drop_app_length, take_app_length. by rewrite decide_True.
Qed.

Lemma elem_of_children f P n : n ∈ children f P ↔ is_Some (f !! (P ++ [n])).
Proof.
  unfold children. rewrite elem_of_list_to_set, list_elem_of_omap. split.
  - intros (k & Hk & ->%name_in_Some). apply list_elem_of_fmap in Hk as ([k o] & -> & Hin).
    apply elem_of_map_to_list in Hin. eauto.
  - intros [o Ho]. exists (P ++ [n]). split; [|by apply name_in_Some].
    apply list_elem_of_fmap. exists (P ++ [n], o). split; [done|]. by apply elem_of_map_to_list.
Qed.

(** The entries of a directory of the tree *)
Lemma tree_at_dir depth f P l :
  tree_at (S depth) f P = Some (T_Dir l) →
  f !! P = Some Fs_Dir ∧ NoDup l.*1 ∧ l.*1 = hs_iter (children f P) ∧
  ∀ n t, (n, t) ∈ l → tree_at depth f (P ++ [n]) = Some t.
Proof.
  cbn [tree_at]. destruct (f !! P) as [[| |]|]; try done. intros (l' & Hl & [= <-])%bind_Some.
  apply mapM_Some in Hl. assert (l'.*1 = hs_iter (children f P)) as E.
  { clear -Hl. induction Hl as [|n [m t] names l (t' & _ & [= -> ->])%bind_Some _ IH]; [done|]. cbn. by rewrite IH. }
  split; [done|]. split; [rewrite E; apply NoDup_hm_keys|]. split; [done|].
  intros n t Hin. apply list_elem_of_lookup in Hin as [i Hi].
  destruct (Forall2_lookup_r _ _ _ _ _ Hl Hi) as (m & _ & (t' & Ht & [= -> ->])%bind_Some). done.
Qed.

Lemma closed_below f P rel : closed f → P ≠ [] → f !! P ≠ Some Fs_Dir → rel ≠ [] → f !! (P ++ rel) = None.
Proof.
  intros Hc HP Hd. induction rel as [|n rel IH] using rev_ind; [done|]. intros _.
  destruct (f !! (P ++ rel ++ [n])) as [o|] eqn:E; [|done]. rewrite app_assoc in E.
  destruct (Hc _ _ _ E) as [[? _]%app_eq_nil|E']; [done|]. destruct (decide (rel = [])) as [->|Hr].
  - by rewrite app_nil_r in E'.
  - rewrite IH in E' by done. done.
Qed.

(** The tree below a path says what every object below it is. *)
Lemma tree_holds f : closed f → ∀ depth P t rel, P ≠ [] →
  tree_at depth f P = Some t → f !! (P ++ rel) = object <$> subtree t rel.
Proof.
  intros Hc. induction depth as [|depth IH]; intros P t rel HP Ht; [done|]. destruct rel as [|n rel].
  { rewrite app_nil_r. cbn [tree_at] in Ht. destruct (f !! P) as [[| |]|]; try done; try by injection Ht as <-.
    apply bind_Some in Ht as (l & _ & [= <-]). done. }
  destruct t as [c|tg|l].
  1,2: cbn [subtree]; apply closed_below; try done; intros E; cbn [tree_at] in Ht; rewrite E in Ht;
    by apply bind_Some in Ht as (? & _ & [=]).
  apply tree_at_dir in Ht as (E & Hnd & Hk & Hl). cbn [subtree].
  replace (P ++ n :: rel) with ((P ++ [n]) ++ rel) by by rewrite <-app_assoc.
  destruct (named n l) as [t|] eqn:En; cbn.
  - apply IH; [by destruct P|]. by apply Hl, named_Some.
  - apply named_None in En. rewrite Hk, elem_of_hs_iter, elem_of_children in En. apply eq_None_not_Some in En.
    destruct (decide (rel = [])) as [->|Hr]; [by rewrite app_nil_r|].
    apply closed_below; try done; [by destruct P|by rewrite En].
Qed.
End trees.

(** ** The entry of a tree *)

(** A tree that can be added: directories are not sharded, names and targets are text. *)
Fixpoint tree_ok (t : tree) : Prop :=
  match t with
  | T_File c => Forall byte_ok c ∧ Z.of_nat (length c) < 2 ^ 63
  | T_Link target => target ≠ [] ∧ utf8_valid target = true ∧ Z.of_nat (length target) < 2 ^ 63
  | T_Dir l =>
      Z.of_nat (length l) ≤ DIRECTORY_LINK_LIMIT ∧ NoDup l.*1 ∧
      Forall (λ n, proper n ∧ utf8_valid n = true) l.*1 ∧ foldr and True (map (λ e, tree_ok e.2) l)
  end.

Lemma tree_ok_entries l : tree_ok (T_Dir l) → Forall (λ e, proper e.1 ∧ utf8_valid e.1 = true ∧ tree_ok e.2) l.
Proof.
  intros (_ & _ & Hn & Ht). induction l as [|[n t] l IH]; [constructor|]. cbn in *.
  apply Forall_cons in Hn as [[? ?] Hn]. destruct Ht as [? Ht]. constructor; [done|by apply IH].
Qed.

Section entry_of.
Context `{HashOrder} `{Reads} (chunker : Chunker) (degree : Z).

Fixpoint entry_of (n : bytes) (t : tree) : Entry :=
  match t with
  | T_File c => Entry_File n (Ok (Ok <$> reads c)) chunker degree
  | T_Link target => Entry_Symlink n target
  | T_Dir l => Entry_Directory (Dir_Basic n (map (λ e, entry_of e.1 e.2) l))
  end.

Lemma entry_of_name n t : Entry_name (entry_of n t) = n.
Proof. by destruct t. Qed.

Context (cwd : list bytes) (murmur3 : bytes → Z) (Hdeg : 1 < degree).

Lemma file_name_join p n : proper n → utf8_valid n = true → file_name_str (pb_join p n) = n.
Proof.
  intros (_ & Hc & Hp & _) Hu. unfold file_name_str, file_name, pb_join. cbn. rewrite last_snoc.
  rewrite !bool_decide_eq_false_2 by done. cbn. by rewrite Hu.
Qed.

Lemma file_entry f p P c :
  leads cwd f p P → f !! P = Some (Fs_File c) →
  fb_build cwd f (fb_set_path p (fb_set_degree degree (fb_set_chunker chunker FileBuilder_default))) =
    Ok (Entry_File (file_name_str p) (Ok (Ok <$> reads c)) chunker degree).
Proof using Hdeg.
  intros Hl E. unfold fb_build. cbn. rewrite (proj2 (Z.ltb_lt 1 degree)) by done. cbn. unfold file_open.
  rewrite (real_leads cwd f p P) by (try done; right; by rewrite E).
  by rewrite at_nonempty, E by by eapply leads_nonempty.
Qed.

Lemma link_entry f p P t :
  leads cwd f p P → f !! P = Some (Fs_Symlink t) →
  sb_build cwd f (SymlinkBuilder_new p) = Ok (Entry_Symlink (file_name_str p) t).
Proof.
  intros Hl E. unfold sb_build. cbn. unfold read_link. rewrite (real_leads cwd f p P) by (try done; by left).
  by rewrite at_nonempty, E by by eapply leads_nonempty.
Qed.

(** What the checks of an entry say *)
Lemma checks f p P o : leads cwd f p P → f !! P = Some o →
  is_symlink_path cwd f p = (match o with Fs_Symlink _ => true | _ => false end) ∧
  ((∀ t, o ≠ Fs_Symlink t) → is_file_path cwd f p = (match o with Fs_File _ => true | _ => false end) ∧
                             is_dir_path cwd f p = (match o with Fs_Dir => true | _ => false end)).
Proof.
  intros Hl E. split.
  - unfold is_symlink_path. rewrite (stat_leads cwd f p P false (Some o)) by (done || by left). by destruct o.
  - intros Ho. unfold is_file_path, is_dir_path.
    rewrite (stat_leads cwd f p P true (Some o)) by (try done; right; intros t [= ->]; by apply (Ho t)). by destruct o.
Qed.

Lemma add_entries_all walk f p l : ∀ b,
  (∀ n t, (n, t) ∈ l → entry_for cwd walk f chunker degree (pb_join p n) = Some (Ok (entry_of n t))) →
  db_typ b = DirType_Basic → Z.of_nat (length (db_entries b) + length l) ≤ DIRECTORY_LINK_LIMIT →
  ∃ b', add_entries cwd walk f chunker degree p l.*1 b = Some (Ok b') ∧ db_name b' = db_name b ∧
    db_typ b' = DirType_Basic ∧ db_entries b' = db_entries b ++ map (λ e, entry_of e.1 e.2) l.
Proof.
  induction l as [|[n t] l IH]; intros b Hl Hb Hlen; cbn [fmap list_fmap add_entries fst].
  { exists b. cbn. by rewrite app_nil_r. }
  rewrite (Hl n t) by left. cbn [mbind option_bind]. destruct (IH (db_entry (entry_of n t) b)) as (b' & -> & Hn & Ht & He).
  - intros m t' Hin. apply Hl. by right.
  - cbn. rewrite Hb. cbn in Hlen. rewrite (proj2 (Z.leb_gt _ _)) by lia. by rewrite andb_false_r.
  - cbn. cbn in Hlen. rewrite length_app. cbn. lia.
  - exists b'. split; [done|]. split; [done|]. split; [done|]. rewrite He. cbn. by rewrite <-app_assoc.
Qed.

(** The walk makes the entry of the tree. *)
Lemma make_dir_tree f depth : ∀ p P l,
  leads cwd f p P → tree_at depth f P = Some (T_Dir l) → tree_ok (T_Dir l) →
  make_dir_from_path cwd murmur3 depth f chunker degree p =
    Some (Ok (Dir_Basic (file_name_str p) (map (λ e, entry_of e.1 e.2) l))).
Proof using Hdeg.
  induction depth as [|depth IH]; intros p P l Hl Ht Hok; [done|].
  apply tree_at_dir in Ht as (E & _ & Hk & Hsub). pose proof (tree_ok_entries l Hok) as Hents.
  cbn [make_dir_from_path]. unfold read_dir.
  rewrite (real_leads cwd f p P) by (try done; right; by rewrite E).
  rewrite at_nonempty, E by by eapply leads_nonempty. cbn [io]. rewrite <-Hk.
  destruct (add_entries_all (make_dir_from_path cwd murmur3 depth f chunker degree) f p l
              (db_set_name (file_name_str p) DirectoryBuilder_new)) as (b & -> & Hn & Hty & He); [|done|apply Hok|].
  - intros n t Hin. rewrite list.Forall_forall in Hents. destruct (Hents _ Hin) as (Hp & Hu & Hokt). cbn in Hp, Hu, Hokt.
    assert (leads cwd f (pb_join p n) (P ++ [n])) as Hlc by by apply leads_child.
    pose proof (Hsub n t Hin) as Ht. unfold entry_for. destruct t as [c|tg|l'].
    + assert (f !! (P ++ [n]) = Some (Fs_File c)) as Ec.
      { destruct depth; [done|]. cbn in Ht. destruct (f !! (P ++ [n])) as [[| |]|]; try done; [|congruence].
        by apply bind_Some in Ht as (? & _ & [=]). }
      destruct (checks _ _ _ _ Hlc Ec) as [-> Hc]. destruct Hc as [-> _]; [done|].
      rewrite (file_entry f _ _ c Hlc Ec). by rewrite file_name_join.
    + assert (f !! (P ++ [n]) = Some (Fs_Symlink tg)) as Ec.
      { destruct depth; [done|]. cbn in Ht. destruct (f !! (P ++ [n])) as [[| |]|]; try done; [|congruence].
        by apply bind_Some in Ht as (? & _ & [=]). }
      destruct (checks _ _ _ _ Hlc Ec) as [-> _]. rewrite (link_entry f _ _ tg Hlc Ec). by rewrite file_name_join.
    + assert (f !! (P ++ [n]) = Some Fs_Dir) as Ec by (destruct depth; [done|]; by apply tree_at_dir in Ht as [? _]).
      destruct (checks _ _ _ _ Hlc Ec) as [-> Hc]. destruct Hc as [-> ->]; [done|].
      rewrite (IH _ _ _ Hlc Ht Hokt). cbn. by rewrite file_name_join.
  - cbn. unfold db_build_entries. rewrite Hty, Hn, He. done.
Qed.
End entry_of.

(** [Entry::from_path] makes the entry of the tree; a link at the top is followed instead. *)
Lemma from_path_tree `{HashOrder} `{Reads} cwd murmur3 f depth p P t cfg chunker :
  leads cwd f p P → tree_at depth f P = Some t → tree_ok t → (∀ target, t ≠ T_Link target) →
  Chunker_from cfg = Ok chunker →
  Entry_from_path cwd murmur3 depth f p {| cfg_wrap := false; cfg_chunker := Some cfg |} =
    Some (Ok (entry_of chunker DEFAULT_DEGREE (file_name_str p) t)).
Proof.
  intros Hl Ht Hok Hlink Hc. unfold Entry_from_path. cbn [cfg_chunker cfg_wrap]. rewrite Hc.
  assert (1 < DEFAULT_DEGREE) as Hdeg by (unfold DEFAULT_DEGREE; lia).
  destruct t as [c|tg|l]; [|by destruct (Hlink tg)|].
  - assert (f !! P = Some (Fs_File c)) as E.
    { destruct depth; [done|]. cbn in Ht. destruct (f !! P) as [[| |]|]; try done; [|congruence].
      by apply bind_Some in Ht as (? & _ & [=]). }
    destruct (checks cwd f p P _ Hl E) as [_ Hk]. destruct Hk as [-> ->]; [done|].
    by rewrite (file_entry chunker DEFAULT_DEGREE cwd Hdeg f p P c Hl E).
  - assert (f !! P = Some Fs_Dir) as E by (destruct depth; [done|]; by apply tree_at_dir in Ht as [? _]).
    destruct (checks cwd f p P _ Hl E) as [_ Hk]. destruct Hk as [_ ->]; [done|].
    unfold db_build. cbn [db_path db_set_path db_chunker db_set_chunker db_degree db_name DirectoryBuilder_new].
    by rewrite (make_dir_tree chunker DEFAULT_DEGREE cwd murmur3 Hdeg f depth p P l Hl Ht Hok).
Qed.

(** ** Breadth first *)

Implicit Types (q L : list (list bytes * tree)).

Definition below_dir (k : list bytes) (l : list (bytes * tree)) : list (list bytes * tree) :=
  (λ e, (k ++ [e.1], e.2)) <$> l.

(** The trees to be visited after one *)
Definition kids (e : list bytes * tree) : list (list bytes * tree) :=
  match e.2 with T_Dir l => below_dir e.1 l | _ => [] end.

Fixpoint bfs (n : nat) q : option (list (list bytes * tree)) :=
  match n, q with
  | O, _ => None
  | S _, [] => Some []
  | S n, e :: q => L ← bfs n (q ++ kids e); Some (e :: L)
  end.

Fixpoint tree_size (t : tree) : nat :=
  match t with T_Dir l => S (list_sum (map (λ e, tree_size e.2) l)) | _ => 1 end.

Lemma kids_size e : (list_sum (map (tree_size ∘ snd) (kids e)) < tree_size e.2)%nat.
Proof.
  destruct e as [k [c|tg|l]]; cbn; try lia. apply Nat.lt_succ_r, Nat.eq_le_incl. f_equal.
  unfold below_dir. induction l as [|[m t] l IH]; [done|]. cbn. by rewrite IH.
Qed.

Lemma bfs_total n q : (list_sum (map (tree_size ∘ snd) q) < n)%nat → is_Some (bfs n q).
Proof.
  revert q. induction n as [|n IH]; intros [|e q] Hn; try lia; cbn; [eauto|].
  destruct (IH (q ++ kids e)) as [L ->]; [|cbn; eauto].
  rewrite map_app, list_sum_app. pose proof (kids_size e).
  change (list_sum (map _ (e :: q))) with (tree_size e.2 + list_sum (map (tree_size ∘ snd) q))%nat in Hn. lia.
Qed.

Definition visits (e : list bytes * tree) (k : list bytes) (t : tree) : Prop :=
  ∃ rel, k = e.1 ++ rel ∧ subtree e.2 rel = Some t.

Lemma kids_visits e k t : tree_ok e.2 →
  visits e k t ↔ (k, t) = e ∨ ∃ e', e' ∈ kids e ∧ visits e' k t.
Proof.
  destruct e as [k0 t0]. cbn. intros Hok. split.
  - intros ([|n rel] & -> & Ht).
    + left. cbn in Ht. rewrite app_nil_r. cbn. congruence.
    + right. cbn in Ht. destruct t0 as [| |l]; try done. apply bind_Some in Ht as (t' & Hn%named_Some & Ht).
      exists (k0 ++ [n], t'). split; [apply list_elem_of_fmap; by exists (n, t')|].
      exists rel. cbn. by rewrite <-app_assoc.
  - intros [[= -> ->]|(e' & Hin & rel & -> & Ht)]; [exists []; by rewrite app_nil_r|].
    destruct t0 as [| |l]; try by apply not_elem_of_nil in Hin. destruct Hok as (_ & Hnd & _).
    apply list_elem_of_fmap in Hin as ([n t'] & -> & Hin). exists (n :: rel). cbn in *.
    rewrite <-app_assoc. split; [done|]. by rewrite (named_elem n l t').
Qed.

Lemma kids_ok e : tree_ok e.2 → Forall (λ e, tree_ok e.2) (kids e).
Proof.
  destruct e as [k [c|tg|l]]; cbn [snd kids]; try constructor. intros Hl%tree_ok_entries.
  unfold below_dir. apply Forall_fmap. eapply Forall_impl; [exact Hl|]. by intros [] (_ & _ & ?).
Qed.

Lemma bfs_elem n q L : bfs n q = Some L → Forall (λ e, tree_ok e.2) q →
  ∀ k t, (k, t) ∈ L ↔ ∃ e, e ∈ q ∧ visits e k t.
Proof.
  revert q L. induction n as [|n IH]; intros [|e q] L Hb Hok k t; try done; cbn in Hb.
  { injection Hb as <-. split; [by intros ?%not_elem_of_nil|]. by intros (e & ?%not_elem_of_nil & _). }
  apply bind_Some in Hb as (L' & Hb & [= <-]). apply Forall_cons in Hok as [He Hok].
  rewrite elem_of_cons. rewrite (IH _ _ Hb) by (apply Forall_app; split; [done|by apply kids_ok]).
  pose proof (kids_visits e k t He) as Hv. split.
  - intros [<-|(e' & [Hin|Hin]%elem_of_app & Hv')].
    + exists (k, t). split; [left|]. apply Hv. by left.
    + exists e'. split; [by right|done].
    + exists e. split; [left|]. apply Hv. right. by exists e'.
  - intros (e' & [->|Hin]%elem_of_cons & Hv').
    + apply Hv in Hv' as [?|(e'' & Hin & ?)]; [by left|right]. exists e''. split; [|done]. apply elem_of_app. by right.
    + right. exists e'. split; [|done]. apply elem_of_app. by left.
Qed.

(** *** Putting the objects of a list at their places *)

Definition put_objects (Q : list bytes) L (f : Fs) : Fs :=
  foldl (λ f e, <[Q ++ e.1 := object e.2]> f) f L.

Lemma put_objects_other Q L f x : (∀ k t, (k, t) ∈ L → x ≠ Q ++ k) → put_objects Q L f !! x = f !! x.
Proof.
  revert f. induction L as [|[k t] L IH]; intros f Hx; [done|].
  change (put_objects Q ((k, t) :: L) f) with (put_objects Q L (<[Q ++ k := object t]> f)). rewrite IH.
  - apply lookup_insert_ne. intros E. by apply (Hx k t); [left|].
  - intros k' t' Hin. apply (Hx k' t'). by right.
Qed.

Lemma put_objects_elem Q L f k t :
  (∀ t', (k, t') ∈ L → t' = t) → (k, t) ∈ L → put_objects Q L f !! (Q ++ k) = Some (object t).
Proof.
  revert f. induction L as [|[k' t'] L IH]; intros f Hu Hin; [by apply not_elem_of_nil in Hin|].
  change (put_objects Q ((k', t') :: L) f) with (put_objects Q L (<[Q ++ k' := object t']> f)).
  assert (∀ t2, (k, t2) ∈ L → t2 = t) as Hu' by (intros t2 ?; apply Hu; by right).
  assert ((k, t) ∈ L ∨ ∀ t2, (k, t2) ∉ L) as [Hl|Hl].
  { destruct (decide (k ∈ L.*1)) as [([k2 t2] & -> & Hl)%list_elem_of_fmap|Hl].
    - left. cbn in *. by rewrite <-(Hu' t2 Hl).
    - right. intros t2 Hl2. apply Hl, list_elem_of_fmap. by exists (k, t2). }
  - by apply IH.
  - apply elem_of_cons in Hin as [[= <- <-]|Hin]; [|by apply Hl in Hin].
    rewrite put_objects_other; [by rewrite lookup_insert_eq|]. intros k2 t2 Hin E%app_inv_head. subst k2.
    by apply Hl in Hin.
Qed.

(** The objects of a tree make a copy of it. *)
Lemma put_tree n t L Q f : bfs n [([], t)] = Some L → tree_ok t → (∀ rel, f !! (Q ++ rel) = None) →
  (∀ rel, put_objects Q L f !! (Q ++ rel) = object <$> subtree t rel) ∧
  ∀ x, ¬ Q `prefix_of` x → put_objects Q L f !! x = f !! x.
Proof.
  intros Hb Hok Hf.
  assert (∀ k t', (k, t') ∈ L ↔ subtree t k = Some t') as HL.
  { intros k t'. rewrite (bfs_elem _ _ _ Hb) by by apply Forall_singleton. split.
    - intros (e & ->%list_elem_of_singleton & rel & -> & Ht). exact Ht.
    - intros Ht. exists ([], t). split; [by apply list_elem_of_singleton|]. by exists k. }
  split.
  - intros rel. destruct (subtree t rel) as [t'|] eqn:E; cbn.
    + apply put_objects_elem; [|by apply HL]. intros t'' ?%HL. congruence.
    + rewrite put_objects_other; [apply Hf|]. intros k t' ?%HL ?%app_inv_head. congruence.
  - intros x Hx. apply put_objects_other. intros k t' _ ->. apply Hx. by exists k.
Qed.

(** Places that do not contain each other *)
Definition apart2 (a b : list bytes) : Prop := ¬ a `prefix_of` b ∧ ¬ b `prefix_of` a.
Fixpoint apart q : Prop :=
  match q with [] => True | e :: q => Forall (λ e', apart2 e.1 e'.1) q ∧ apart q end.

Lemma apart_app q q' : apart (q ++ q') ↔ apart q ∧ apart q' ∧ Forall (λ e, Forall (λ e', apart2 e.1 e'.1) q') q.
Proof.
  induction q as [|e q IH]; cbn; [naive_solver|]. rewrite Forall_app, Forall_cons, IH. naive_solver.
Qed.

Lemma apart_kids e : tree_ok e.2 → apart (kids e).
Proof.
  destruct e as [k [c|tg|l]]; cbn [snd kids]; try done. intros (_ & Hnd & _).
  unfold below_dir. induction l as [|[m t] l IH]; [done|]. cbn in *. apply NoDup_cons in Hnd as [Hm Hnd].
  split; [|by apply IH]. apply Forall_fmap, list.Forall_forall. intros [m' t'] Hin. cbn.
  assert (m ≠ m') as Hne by (intros ->; apply Hm, list_elem_of_fmap; by exists (m', t')).
  split; intros [r Hr]; rewrite <-!app_assoc in Hr; apply app_inv_head in Hr; by injection Hr.
Qed.

Lemma apart_below (e e' x : list bytes * tree) : apart2 e.1 e'.1 → x ∈ kids e' → apart2 e.1 x.1.
Proof.
  intros [H1 H2] Hx. destruct e' as [k [c|tg|l]]; cbn [kids snd fst] in *; try by apply not_elem_of_nil in Hx.
  apply list_elem_of_fmap in Hx as ([m t] & -> & _). cbn. split.
  - intros [r Hr]. destruct r as [|y r _] using rev_ind.
    + apply H2. exists [m]. by rewrite app_nil_r in Hr.
    + rewrite app_assoc in Hr. apply app_inj_2 in Hr as [Hr _]; [|done]. apply H1. by exists r.
  - intros [r Hr]. apply H2. exists ([m] ++ r). by rewrite Hr, app_assoc.
Qed.

Lemma apart_next e q : tree_ok e.2 → apart (e :: q) → apart (q ++ kids e).
Proof.
  intros Hok [He Hq]. apply apart_app. split; [done|]. split; [by apply apart_kids|].
  rewrite list.Forall_forall in He |- *. intros e' Hin. apply list.Forall_forall. intros x Hx.
  eapply apart_below; [|exact Hx]. destruct (He e' Hin). by split.
Qed.
