(* ===== verification/Api.v ===== *)
(** * Adding and getting content

    Models [iroh-api/src/api.rs], [iroh-api/src/store.rs] and [iroh-api/src/fs.rs]: the
    blocks of an entry are put into a store in batches, and what a path refers to is
    written to the file system.  The crate [relative-path] is the class [RelativePath];
    the size of the buffers of reads is an argument. *)

From stdpp Require Import prelude gmap strings list.
From Stdlib Require Import ZArith Lia.
From S2P Require Import Prelude Cids Bits BlockStore Unixfs Chunker Reader Builder Hamt Paths Resolver Loader.
From S2P Require Import FileSystem Entries.
Local Open Scope Z_scope.

(** ** Stores *)

(** The trait [Store] *)
Class ApiStore `{Multiformats} (S : Type) := {
  st_has : Cid → S → res string bool;
  st_put : Cid → bytes → list Cid → S → res string unit * S;
  st_put_many : list Block → S → res string unit * S
}.

(** [HashMap<Cid, Bytes>] behind a mutex *)
Definition map_put_many `{Multiformats} (blocks : list Block) (m : gmap Cid bytes) : gmap Cid bytes :=
  foldl (λ m b, <[blk_cid b := blk_data b]> m) m blocks.
#[export] Instance map_store `{Multiformats} : ApiStore (gmap Cid bytes) := {|
  st_has := λ c m, Ok (bool_decide (is_Some (m !! c)));
  st_put := λ c b _ m, (Ok tt, <[c := b]> m);
  st_put_many := λ blocks m, (Ok tt, map_put_many blocks m)
|}.

(** The client of the store service, if there is one *)
Section client_store.
Context `{StoreCodecs} `{RocksDb}.

Definition into_parts (b : Block) : Cid * bytes * list Cid := (blk_cid b, blk_data b, blk_links b).

Definition try_store {A} (op : store_m A) (s : option StoreState) : res string A * option StoreState :=
  match s with
  | Some store => let '(store, r) := op store in (rpc_store r, Some store)
  | None => (Err "missing rpc store connection"%string, None)
  end.
#[export] Instance client_store : ApiStore (option StoreState) := {|
  st_has := λ c s, store ← ok_or s "missing rpc store connection"%string; rpc_store (store_has c store);
  st_put := λ c b links, try_store (store_put c b links);
  st_put_many := λ blocks, try_store (store_put_many (into_parts <$> blocks))
|}.
End client_store.

(** ** Adding *)

Definition MAX_CHUNK_SIZE : Z := 1024 * 1024.

Section add.
Context `{UnixfsProto} {S : Type} `{!ApiStore S}.

(** [Block::raw_data_size] *)
Definition raw_data_size (b : Block) : res string (option Z) :=
  assert (codec_known (cid_codec (blk_cid b)));;
  Ok (if cid_codec (blk_cid b) =? Codec_Raw then Some (Z.of_nat (length (blk_data b))) else None).

Definition block_size (b : Block) : Z :=
  Int.wrap 64 (Z.of_nat (length (blk_data b)) + Int.wrap 64 (Z.of_nat (length (blk_links b)) * 128)).

(** The stream of [add_blocks_to_store_chunked]; [fin] is how the stream of blocks ends. *)
Fixpoint add_blocks_to_store_chunked (blocks : list Block) (fin : res string unit) (chunk : list Block)
    (chunk_size : Z) (s : S) : gen (Cid * Z) string unit * S :=
  match blocks with
  | [] =>
      match fin with
      | Ok _ => let '(r, s) := st_put_many chunk s in (([], r), s)
      | Err e => (([], Err e), s)
      | Panic => (([], Panic), s)
      end
  | block :: blocks =>
      match raw_data_size block with
      | Ok raw_data_size =>
          let full := MAX_CHUNK_SIZE <? Int.wrap 64 (chunk_size + block_size block) in
          let '(r, s) := if full then st_put_many chunk s else (Ok tt, s) in
          match r with
          | Ok _ =>
              let chunk := if full then [] else chunk in
              let chunk_size := if full then 0 else chunk_size in
              let '((out, r), s) :=
                add_blocks_to_store_chunked blocks fin (chunk ++ [block])
                  (Int.wrap 64 (chunk_size + block_size block)) s in
              (((blk_cid block, default 0 raw_data_size) :: out, r), s)
          | Err e => (([], Err e), s)
          | Panic => (([], Panic), s)
          end
      | Err e => (([], Err e), s)
      | Panic => (([], Panic), s)
      end
  end.

Definition add_stream (entry : Entry) (s : S) : gen (Cid * Z) string unit * S :=
  let '(blocks, fin) := entry_encode entry in add_blocks_to_store_chunked blocks fin [] 0 s.

Definition add (entry : Entry) (s : S) : res string Cid * S :=
  let '((out, r), s) := add_stream entry s in
  (_ ← r; ok_or (fst <$> last out) "No cid found"%string, s).
End add.

(** ** Getting *)

(** [relative_path]: paths made of names that are joined with slashes *)
Class RelativePath := {
  RelPath : Type;
  rel_from_path : bytes → option RelPath;
  rel_starts_with : RelPath → bytes → bool;
  rel_strip_prefix : RelPath → bytes → option RelPath;
  rel_parent : RelPath → option RelPath;
  rel_to_path : RelPath → PathBuf → PathBuf
}.

Section get.
Context `{UnixfsProto} `{!PathText} `{!IpldLib} `{!RelativePath}.
Context (load_cid : Cid → res string LoadedCid) (dns : DnsResolver) (murmur3 : bytes → Z) (buf : Z).
Abbreviation load := (λ c, Ready (fetch_data load_cid c)).

(** [OutType] *)
Inductive GetType :=
  | Get_Dir
  | Get_Reader (r : OutPrettyReader)
  | Get_Symlink (target : bytes).

(** Read until there is no more; [None] is the lack of fuel. *)
Fixpoint read_to_end (turns fuel : nat) (p : OutPrettyReader) (read : bytes) : option (res string bytes) :=
  match turns with
  | O => None
  | S turns =>
      match pretty_poll_read fuel load buf p with
      | Some (Ready (Ok []), _) => Some (Ok read)
      | Some (Ready (Ok b), p) => read_to_end turns fuel p (read ++ b)
      | Some (Ready (Err e), _) => Some (Err e)
      | Some (Ready Panic, _) => Some Panic
      | Some (Pending, p) => read_to_end turns fuel p read
      | None => None
      end
  end.

(** One item of the walk: [Ok None] is one outside of [sub_path]. *)
Definition get_item (fuel : nat) (sub_path : bytes) (path : Path) (out : Out)
    : option (res string (option (RelPath * GetType))) :=
  match ok_or (rel_from_path (to_relative_string path)) "not a relative path"%string with
  | Ok relative_path =>
      if negb (rel_starts_with relative_path sub_path) then Some (Ok None)
      else
        match rel_strip_prefix relative_path sub_path with
        | None => Some Panic
        | Some relative_path =>
            if out_is_dir out then Some (Ok (Some (relative_path, Get_Dir)))
            else
              match out_pretty out None with
              | Ok reader =>
                  if out_is_symlink out then
                    target ← read_to_end fuel fuel reader [];
                    Some (target ← target;
                          ensure (utf8_valid target) "stream did not contain valid UTF-8"%string;;
                          Ok (Some (relative_path, Get_Symlink target)))
                  else Some (Ok (Some (relative_path, Get_Reader reader)))
              | Err e => Some (Err e)
              | Panic => Some Panic
              end
        end
  | Err e => Some (Err e)
  | Panic => Some Panic
  end.

Fixpoint get_items (fuel : nat) (sub_path : bytes) (items : list (Path * Out)) (fin : res string unit)
    : option (gen (RelPath * GetType) string unit) :=
  match items with
  | [] => Some ([], fin)
  | (path, out) :: items =>
      item ← get_item fuel sub_path path out;
      match item with
      | Ok item => '(out, r) ← get_items fuel sub_path items fin; Some (option_list item ++ out, r)
      | Err e => Some ([], Err e)
      | Panic => Some ([], Panic)
      end
  end.

(** [Api::get] *)
Definition get (fuel : nat) (id : Z) (ipfs_path : Path) : option (gen (RelPath * GetType) string unit) :=
  match Path_cid ipfs_path with
  | None => Some ([], Err "IPFS path does not refer to a CID"%string)
  | Some _ =>
      '(items, fin) ← resolve_recursive_with_paths load_cid dns murmur3 fuel id ipfs_path;
      get_items fuel (to_relative_string ipfs_path) items fin
  end.

(** ** Writing to the file system *)

Section write.
Context (cwd : list bytes).

Definition get_root_path (ipfs_path : Path) (output_path : option PathBuf) : option PathBuf :=
  match output_path with
  | Some path => Some path
  | None =>
      match last (path_tail ipfs_path) with
      | None => (λ c, PathBuf_from (cid_to_str c)) <$> Path_cid ipfs_path
      | Some name => Some (PathBuf_from name)
      end
  end.

(** [tokio::io::copy] *)
Fixpoint copy (turns fuel : nat) (p : OutPrettyReader) (here : list bytes) (f : Fs)
    : option (res string unit * Fs) :=
  match turns with
  | O => None
  | S turns =>
      match pretty_poll_read fuel load buf p with
      | Some (Ready (Ok []), _) => Some (Ok tt, f)
      | Some (Ready (Ok b), p) => copy turns fuel p here (file_write here b f)
      | Some (Ready (Err e), _) => Some (Err e, f)
      | Some (Ready Panic, _) => Some (Panic, f)
      | Some (Pending, p) => copy turns fuel p here f
      | None => None
      end
  end.

(** The directory that an object is put into *)
Definition create_parent (root : PathBuf) (path : RelPath) (f : Fs) : res string unit * Fs :=
  match rel_parent path with
  | Some parent => let '(r, f) := create_dir_all cwd (rel_to_path parent root) f in (io r, f)
  | None => (Ok tt, f)
  end.

Definition save_item (fuel : nat) (root : PathBuf) (path : RelPath) (out : GetType) (f : Fs)
    : option (res string unit * Fs) :=
  let full_path := rel_to_path path root in
  match out with
  | Get_Dir => let '(r, f) := create_dir_all cwd full_path f in Some (io r, f)
  | Get_Reader reader =>
      match create_parent root path f with
      | (Ok _, f) =>
          match file_create cwd full_path f with
          | (Ok here, f) => copy fuel fuel reader here f
          | (Err _, f) => Some (Err "io error"%string, f)
          | (Panic, f) => Some (Panic, f)
          end
      | r => Some r
      end
  | Get_Symlink target =>
      match create_parent root path f with
      | (Ok _, f) => let '(r, f) := symlink cwd target full_path f in Some (io r, f)
      | r => Some r
      end
  end.

Fixpoint save_get_stream (fuel : nat) (root : PathBuf) (items : list (RelPath * GetType)) (fin : res string unit)
    (f : Fs) : option (res string unit * Fs) :=
  match items with
  | [] => Some (fin, f)
  | (path, out) :: items =>
      match save_item fuel root path out f with
      | Some (Ok _, f) => save_get_stream fuel root items fin f
      | r => r
      end
  end.

Definition write_get_stream (fuel : nat) (ipfs_path : Path) (blocks : gen (RelPath * GetType) string unit)
    (output_path : option PathBuf) (f : Fs) : option (res string PathBuf * Fs) :=
  match get_root_path ipfs_path output_path with
  | None => Some (Err "IPFS path does not refer to a CID"%string, f)
  | Some root =>
      if exists_ cwd f root then Some (Err "output path already exists"%string, f)
      else
        '(r, f) ← save_get_stream fuel root blocks.1 blocks.2 f;
        Some (_ ← r; Ok root, f)
  end.
End write.
End get.
