(* ===== verification/ApiFacts.v ===== *)
(** * What is added can be got

    A tree of files that is added to a store and got again is written to the file
    system as it was. *)

From stdpp Require Import prelude gmap strings list.
From Stdlib Require Import ZArith Lia.
From S2P Require Import Prelude Cids Bits BlockStore Unixfs Chunker ChunkerFacts Rabin RabinFacts Reader ReaderFacts.
From S2P Require Import BalancedTree BalancedTreeFacts Files Builder BuilderFacts Hamt HamtFacts Paths PathsFacts Resolver.
From S2P Require Import ResolverFacts Loader BlockStoreFacts FileSystem Entries FileTrees Api.
Local Open Scope Z_scope.

(** A relative path is made of names; it is relative to a place below which it leads. *)
Class RelativePathLaws `{RelativePath} := {
  rel_of : list bytes → RelPath;
  rel_from_names ns : Forall proper ns → rel_from_path (join_slash ns) = Some (rel_of ns);
  rel_starts_names pre ns : Forall proper (pre ++ ns) → rel_starts_with (rel_of (pre ++ ns)) (join_slash pre) = true;
  rel_strip_names pre ns : Forall proper (pre ++ ns) →
    rel_strip_prefix (rel_of (pre ++ ns)) (join_slash pre) = Some (rel_of ns);
  rel_parent_top : rel_parent (rel_of []) = None;
  rel_parent_names ns n : Forall proper (ns ++ [n]) → rel_parent (rel_of (ns ++ [n])) = Some (rel_of ns);
  rel_to_path_names ns p : Forall proper ns →
    rel_to_path (rel_of ns) p = {| pb_abs := pb_abs p; pb_parts := pb_parts p ++ ns |}
}.

(** ** Writing a tree *)

Section write.
Context `{UnixfsProto} `{!PathText} `{!IpldLib} `{!RelativePath} `{!RelativePathLaws}.
Context (load_cid : Cid → res string LoadedCid) (buf : Z) (cwd : list bytes).
Abbreviation load := (λ c, Ready (fetch_data load_cid c)).

(** Reading with a buffer gives the bytes in pieces until there are no more. *)
Inductive streams (fuel : nat) : OutPrettyReader → bytes → Prop :=
  | streams_end p p' : pretty_poll_read fuel load buf p = Some (Ready (Ok []), p') → streams fuel p []
  | streams_more p p' b c :
      b ≠ [] → pretty_poll_read fuel load buf p = Some (Ready (Ok b), p') → streams fuel p' c → streams fuel p (b ++ c).

Lemma copy_streams fuel p c : streams fuel p c → ∀ turns f here c0,
  (length c < turns)%nat → f !! here = Some (Fs_File c0) →
  copy load_cid buf turns fuel p here f = Some (Ok tt, <[here := Fs_File (c0 ++ c)]> f).
Proof.
  induction 1 as [p p' E|p p' b c Hb E Hs IH]; intros [|turns] f here c0 Ht Hf; try lia; cbn [copy]; rewrite E.
  - by rewrite app_nil_r, insert_id.
  - destruct b as [|x b]; [done|]. rewrite (file_write_at f here c0 (x :: b) Hf).
    rewrite (IH turns _ here (c0 ++ x :: b)).
    + by rewrite insert_insert_eq, <-app_assoc.
    + rewrite length_app in Ht. cbn in Ht. lia.
    + by rewrite lookup_insert_eq.
Qed.

Lemma read_to_end_streams fuel p c : streams fuel p c → ∀ turns acc,
  (length c < turns)%nat → read_to_end load_cid buf turns fuel p acc = Some (Ok (acc ++ c)).
Proof.
  induction 1 as [p p' E|p p' b c Hb E Hs IH]; intros [|turns] acc Ht; try lia; cbn [read_to_end]; rewrite E.
  - by rewrite app_nil_r.
  - destruct b as [|x b]; [done|]. rewrite IH; [by rewrite <-app_assoc|]. rewrite length_app in Ht. cbn in Ht. lia.
Qed.

(** What is written for a tree *)
Definition out_for (fuel : nat) (g : GetType) (t : tree) : Prop :=
  match g, t with
  | Get_Dir, T_Dir _ => True
  | Get_Reader r, T_File c => streams fuel r c ∧ (length c < fuel)%nat
  | Get_Symlink target, T_Link target' => target = target'
  | _, _ => False
  end.
Definition item_for (fuel : nat) (i : RelPath * GetType) (e : list bytes * tree) : Prop :=
  i.1 = rel_of e.1 ∧ out_for fuel i.2 e.2.

Context (q : PathBuf) (Q : list bytes).
Definition pb_below (k : list bytes) : PathBuf := {| pb_abs := pb_abs q; pb_parts := pb_parts q ++ k |}.

(** The place of a tree is ready: its directory is there, and nothing else. *)
Definition ready (f : Fs) (e : list bytes * tree) : Prop :=
  Forall proper e.1 ∧ leads cwd f (pb_below e.1) (Q ++ e.1) ∧ tree_ok e.2 ∧ ∀ rel, f !! (Q ++ e.1 ++ rel) = None.

Lemma ready_fresh f e : ready f e → f !! (Q ++ e.1) = None.
Proof. intros (_ & _ & _ & Hf). rewrite <-(Hf []). by rewrite app_nil_r. Qed.

Lemma parent_ready f k n :
  pb_parts q ≠ [] → Q = base_of cwd q ++ pb_parts q → leads cwd f (pb_below (k ++ [n])) (Q ++ k ++ [n]) →
  leads cwd f (pb_below k) (Q ++ k) ∧ f !! (Q ++ k) = Some Fs_Dir.
Proof.
  intros Hq HQ (_ & _ & Hp & Hd). cbn in Hp, Hd. change (base_of cwd (pb_below (k ++ [n]))) with (base_of cwd q) in Hd.
  rewrite app_assoc in Hp. apply Forall_app in Hp as [Hp _]. split.
  - split_and!; cbn; [|by intros [? _]%app_eq_nil|done|].
    + change (base_of cwd (pb_below k)) with (base_of cwd q). by rewrite HQ, app_assoc.
    + intros l m r Hx Hr. change (base_of cwd (pb_below k)) with (base_of cwd q).
      apply (Hd l m (r ++ [n])); [|by destruct r]. rewrite app_assoc, Hx, <-app_assoc. done.
  - destruct (pb_parts q ++ k) as [|x l _] eqn:E using rev_ind; [by apply app_eq_nil in E as [? _]|].
    rewrite HQ, <-app_assoc, E. apply (Hd l x [n]); [|done]. rewrite app_assoc, E, <-app_assoc. done.
Qed.

Lemma create_parent_ready f e :
  pb_parts q ≠ [] → Q = base_of cwd q ++ pb_parts q → ready f e →
  create_parent cwd q (rel_of e.1) f = (Ok tt, f).
Proof.
  intros Hq HQ (Hp & Hl & _ & _). unfold create_parent. destruct (e.1) as [|n k _] eqn:E using rev_ind.
  { by rewrite rel_parent_top. }
  rewrite rel_parent_names by done. apply Forall_app in Hp as [Hp _]. rewrite rel_to_path_names by done.
  destruct (parent_ready f k n Hq HQ Hl) as [Hl' Hd]. fold (pb_below k). by rewrite (create_dir_all_exists cwd f _ _ Hl' Hd).
Qed.

Lemma save_item_ready fuel f i e :
  pb_parts q ≠ [] → Q = base_of cwd q ++ pb_parts q → ready f e → item_for fuel i e →
  save_item load_cid buf cwd fuel q i.1 i.2 f = Some (Ok tt, <[Q ++ e.1 := object e.2]> f).
Proof.
  intros Hq HQ Hr [Hi Ho]. pose proof (ready_fresh f e Hr) as Hf. pose proof (create_parent_ready f e Hq HQ Hr) as Hc.
  destruct Hr as (Hp & Hl & Hok & _). unfold save_item. rewrite Hi, rel_to_path_names by done. fold (pb_below e.1).
  destruct (i.2) as [|r|tg], (e.2) as [c|tg'|l]; try done; cbn [out_for] in Ho.
  - by rewrite (create_dir_all_fresh cwd f _ _ Hl Hf).
  - destruct Ho as [Hs Ht]. rewrite Hc, (file_create_fresh cwd f _ _ Hl Hf).
    rewrite (copy_streams fuel r c Hs fuel _ _ []) by (done || by rewrite lookup_insert_eq).
    by rewrite insert_insert_eq.
  - subst tg'. rewrite Hc, (symlink_fresh cwd f _ _ tg Hl Hf) by apply Hok. done.
Qed.

Lemma leads_insert f p P x o : leads cwd f p P → f !! x = None → leads cwd (<[x := o]> f) p P.
Proof.
  intros Hl Hx. eapply leads_change; [done|]. intros k _ Hk. rewrite lookup_insert_ne; [done|]. congruence.
Qed.

(** The places of the trees that come next are ready after one was written. *)
Lemma ready_next f e qu :
  Forall (ready f) (e :: qu) → apart (e :: qu) → Forall (ready (<[Q ++ e.1 := object e.2]> f)) (qu ++ kids e).
Proof.
  intros [He Hq]%Forall_cons [Ha _]. pose proof (ready_fresh f e He) as Hf. apply Forall_app. split.
  - rewrite list.Forall_forall in Hq, Ha |- *. intros e' Hin. destruct (Hq e' Hin) as (Hp & Hl & Hok & Hn).
    split; [done|]. split; [by apply leads_insert|]. split; [done|]. intros rel. rewrite lookup_insert_ne; [apply Hn|].
    intros Ex%app_inv_head. apply (proj2 (Ha e' Hin)). by exists rel.
  - destruct e as [k [c|tg|l]]; [apply Forall_nil_2..|]. cbn [kids snd fst below_dir] in *.
    destruct He as (Hp & Hl & Hok & Hn). cbn in Hp, Hl, Hn. pose proof (tree_ok_entries l Hok) as Hents.
    apply Forall_fmap. eapply Forall_impl; [exact Hents|]. intros [m t] (Hm & _ & Ht). cbn in Hm, Ht.
    split_and!; cbn; [apply Forall_app; split; [done|by apply Forall_singleton]| |done|].
    + assert (pb_below (k ++ [m]) = pb_join (pb_below k) m) as -> by (unfold pb_below, pb_join; cbn; by rewrite app_assoc).
      rewrite app_assoc. apply leads_child; [by apply leads_insert|done|by rewrite lookup_insert_eq].
    + intros rel. rewrite lookup_insert_ne; [rewrite <-app_assoc; apply Hn|]. intros Ex%app_inv_head.
      apply (f_equal length) in Ex. rewrite !length_app in Ex. cbn in Ex. lia.
Qed.

(** Saving the items of a tree in breadth-first order puts its objects at their places. *)
Lemma save_bfs fuel n : ∀ qu L items f,
  pb_parts q ≠ [] → Q = base_of cwd q ++ pb_parts q → bfs n qu = Some L → Forall2 (item_for fuel) items L →
  Forall (ready f) qu → apart qu →
  save_get_stream load_cid buf cwd fuel q items (Ok tt) f = Some (Ok tt, put_objects Q L f).
Proof.
  induction n as [|n IH]; intros [|e qu] L items f Hq HQ Hb Hi Hr Ha; try done; cbn in Hb.
  { injection Hb as <-. by inversion Hi. }
  apply bind_Some in Hb as (L' & Hb & [= <-]). inversion Hi as [|i ? items' ? Hie Hi']; subst.
  cbn [save_get_stream]. destruct i as [rp g]. pose proof Hr as [He _]%Forall_cons.
  pose proof (save_item_ready fuel f (rp, g) e Hq HQ He Hie) as Hs. cbn [fst snd] in Hs. rewrite Hs.
  rewrite (IH (qu ++ kids e) L' items'); try done.
  - by apply ready_next.
  - apply apart_next; [|done]. apply He.
Qed.
End write.

(** ** Getting a tree *)

(** Bytes are an IPLD value without links. *)
Class IpldRawLaws `{IpldLib} := {
  raw_codec : ipld_codec_try_from Codec_Raw = Some IpldCodec_Raw;
  raw_decodes b : ∃ i, ipld_decode IpldCodec_Raw b = Some i ∧ ipld_link i = None
}.

Section read.
Context `{UnixfsProtoLaws} `{!PathText} `{!IpldLib} `{!IpldRawLaws} `{Reads}.
Context (load_cid : Cid → res string LoadedCid) (dns : DnsResolver) (murmur3 : bytes → Z).
Context (buf : Z) (Hbuf : 0 < buf).
Abbreviation fetch := (fetch_data load_cid).
Abbreviation len c := (Z.of_nat (length c)).

(** A reader that goes through the content *)
Lemma streams_by fuel content (at_pos : OutPrettyReader → Z → Prop) :
  (∀ p pos, at_pos p pos → 0 ≤ pos ≤ len content → ∃ out p',
    pretty_poll_read fuel (loader_of fetch) buf p = Some (Ready (Ok out), p') ∧ at_pos p' (pos + len out) ∧
    out = take (length out) (drop (Z.to_nat pos) content) ∧
    (out ≠ [] → pos + len out ≤ len content) ∧ (pos < len content → out ≠ [])) →
  ∀ p pos, at_pos p pos → 0 ≤ pos ≤ len content → streams load_cid buf fuel p (drop (Z.to_nat pos) content).
Proof.
  intros Hstep p pos. remember (Z.to_nat (len content - pos)) as m eqn:Em. revert p pos Em.
  induction m as [m IH] using lt_wf_ind. intros p pos -> Hp Hpos.
  destruct (Hstep p pos Hp Hpos) as (out & p' & Hr & Hp' & Ho & Hle & Hne).
  destruct (decide (out = [])) as [->|Hout].
  - rewrite drop_ge; [by eapply streams_end|]. destruct (decide (pos < len content)) as [?|?]; [by destruct Hne|lia].
  - specialize (Hle Hout). rewrite <-(take_drop (length out) (drop _ content)), <-Ho, drop_drop.
    eapply streams_more; [done|exact Hr|]. replace (Z.to_nat pos + length out)%nat with (Z.to_nat (pos + len out)) by lia.
    assert (0 < len out) by (destruct out; [done|cbn; lia]). eapply IH; [|done|done|lia]. lia.
Qed.

Lemma streams_new fuel content at_pos p :
  (∀ p pos, at_pos p pos → 0 ≤ pos ≤ len content → ∃ out p',
    pretty_poll_read fuel (loader_of fetch) buf p = Some (Ready (Ok out), p') ∧ at_pos p' (pos + len out) ∧
    out = take (length out) (drop (Z.to_nat pos) content) ∧
    (out ≠ [] → pos + len out ≤ len content) ∧ (pos < len content → out ≠ [])) →
  at_pos p 0 → streams load_cid buf fuel p content.
Proof. intros Hstep Hp. apply (streams_by fuel content at_pos Hstep p 0 Hp). lia. Qed.

Lemma raw_streams fuel content : len content < 2 ^ 63 →
  streams load_cid buf fuel (Pretty_Raw {| br_pos := 0; br_bytes := content |}) content.
Proof.
  intros Hl. eapply (streams_new _ _ (λ p pos, p = Pretty_Raw {| br_pos := pos; br_bytes := content |})); [|done].
  intros p pos -> Hp. destruct (bytes_read_cursor content Hl buf pos Hbuf Hp) as (out & E & Hle & Hs).
  inversion Hs as [? ? ? Ho _ _ Hne| |]; subst. eexists out, _. cbn. unfold with_bytes. by rewrite E.
Qed.

Lemma good_read_step content r out r' : rd_pos_max r = None → good_read content buf r out r' →
  rd_pos r' = rd_pos r + len out ∧ out = take (length out) (drop (Z.to_nat (rd_pos r)) content) ∧
  (out ≠ [] → rd_pos r + len out ≤ len content) ∧ (rd_pos r < len content → out ≠ []).
Proof. intros Hm (Ho & Hp & _ & Hle & Hne & _). unfold limit in *. rewrite Hm in *. rewrite <-Hp. done. Qed.

Lemma file_streams n content k fuel : file_root (loader_of fetch) n content k → len content < 2 ^ 63 →
  (3 * k + 2 < fuel)%nat →
  ∃ r, into_content_reader (File n) None = Ok (Some r) ∧ streams load_cid buf fuel (Pretty_Unixfs r) content.
Proof.
  intros Hroot Hl Hf. destruct (into_content_reader_at _ n content k None Hroot Hl I) as (r & Hnew & Hr & Hp & Hm & Ern).
  exists r. split; [done|].
  apply (streams_new _ _ (λ p pos, ∃ r, p = Pretty_Unixfs r ∧ reader_at (loader_of fetch) content (3 * k + 2) r ∧
    rd_root r = File n ∧ rd_pos_max r = None ∧ rd_pos r = pos)); [|by exists r].
  clear r Hnew Hr Hp Hm Ern. intros p pos (r & -> & Hr & Ern & Hm & <-) Hpos.
  destruct (poll_read_file_at_ok _ content _ fuel buf n r Hbuf Hr Ern Hf) as (out & r' & E & Hg & Hr').
  pose proof Hg as (_ & _ & _ & _ & _ & Hm' & Er'). destruct (good_read_step content r out r' Hm Hg) as (Hp & ? & ? & ?).
  exists out, (Pretty_Unixfs r'). cbn [pretty_poll_read]. unfold poll_read. rewrite Ern, E. split; [done|]. split; [|done].
  exists r'. split_and!; try done; congruence.
Qed.

Lemma link_streams n content fuel : data_data (inner n) = Some content → pbn_links (outer n) = [] → len content < 2 ^ 63 →
  ∃ r, into_content_reader (Symlink n) None = Ok (Some r) ∧ streams load_cid buf fuel (Pretty_Unixfs r) content.
Proof.
  intros Hd Hn Hl. eexists. split; [unfold into_content_reader, links_owned, unixfs_links, pb_links; by rewrite Hn|].
  apply (streams_new _ _ (λ p pos, ∃ r, p = Pretty_Unixfs r ∧ rd_root r = Symlink n ∧ rd_pos_max r = None ∧
    rd_pos r = pos)); [|by eexists].
  intros p pos (r & -> & Ern & Hm & <-) Hpos.
  destruct (slice_read_ok content buf r Hl Hpos Hbuf) as (out & r' & E & Hg & _); [by rewrite Hm|].
  pose proof Hg as (_ & _ & _ & _ & _ & Hm' & Er'). destruct (good_read_step content r out r' Hm Hg) as (Hp & ? & ? & ?).
  exists out, (Pretty_Unixfs r'). cbn [pretty_poll_read]. unfold poll_read. rewrite Ern, Hd. cbn [from_option id]. rewrite E.
  split; [done|]. split; [|done]. exists r'. split_and!; try done; congruence.
Qed.

(** *** Resolving a root *)

Lemma resolve_unixfs id c u : cid_codec c = Codec_DagPb → node_of fetch c = Ok u →
  ∃ out, (resolve load_cid dns murmur3 id (Path_from_cid c)).1 = Ok out ∧ out_content out = OutContent_Unixfs u ∧
    md_unixfs_type (out_metadata out) = unixfs_type_of u.
Proof.
  intros Hc Hu. unfold node_of, fetch_data in Hu. destruct (load_cid c) as [ld| |] eqn:Eld; try done. cbn in Hu.
  unfold resolve, resolve_with_ctx, resolve_root. cbn [fst].
  rewrite (ipfs_root dns (Path_from_cid c) c) by done. cbn [mbind res_bind]. rewrite Eld. cbn [mbind res_bind]. rewrite Hc.
  rewrite DagPb_known. cbn [ensure mbind res_bind]. rewrite Z.eqb_refl.
  unfold resolve_dag_pb_or_unixfs. rewrite Hu. cbn. by eexists.
Qed.

Lemma Raw_known : codec_known Codec_Raw = true.
Proof. vm_compute. reflexivity. Qed.

Lemma resolve_raw_block id c data : cid_codec c = Codec_Raw → fetch c = Ok data →
  ∃ out i, (resolve load_cid dns murmur3 id (Path_from_cid c)).1 = Ok out ∧ out_content out = OutContent_Raw i data ∧
    md_unixfs_type (out_metadata out) = None.
Proof.
  intros Hc Hd. unfold fetch_data in Hd. destruct (load_cid c) as [ld| |] eqn:Eld; try done. cbn in Hd. injection Hd as <-.
  unfold resolve, resolve_with_ctx, resolve_root. cbn [fst].
  rewrite (ipfs_root dns (Path_from_cid c) c) by done. cbn [mbind res_bind]. rewrite Eld. cbn [mbind res_bind]. rewrite Hc.
  rewrite Raw_known. cbn [ensure mbind res_bind]. change (Codec_Raw =? Codec_DagPb) with false.
  rewrite Z.eqb_refl, orb_true_r. cbn match. unfold resolve_ipld. rewrite Hc, raw_codec. cbn [ok_or mbind res_bind].
  destruct (raw_decodes (loaded_data ld)) as (i & -> & Hi). cbn [ok_or mbind res_bind].
  unfold resolve_ipld_path. cbn [path_tail Path_from_cid filter list_filter fold_res mbind res_bind]. unfold follow_link.
  cbn [snd]. rewrite Hi. cbn. by eexists _, i.
Qed.

(** *** Resolving a tree *)

Context (cfg : ChunkerConfig) (chunker : Chunker) (degree : Z) (Hcfg : Chunker_from cfg = Ok chunker) (Hdeg : 1 < degree).
Abbreviation entry := (entry_of chunker degree).
Abbreviation resolved id c := ((resolve load_cid dns murmur3 id (Path_from_cid c)).1).

(** A result is that of a tree. *)
Definition shows (fuel : nat) (out : Out) (t : tree) : Prop :=
  match t with
  | T_Dir _ => out_is_dir out = true
  | T_File c => out_is_dir out = false ∧ out_is_symlink out = false ∧
      ∃ reader, out_pretty out None = Ok reader ∧ streams load_cid buf fuel reader c
  | T_Link target => out_is_dir out = false ∧ out_is_symlink out = true ∧
      ∃ reader, out_pretty out None = Ok reader ∧ streams load_cid buf fuel reader target
  end.

Lemma decoded_raw c b d : unixfs_decode c b = Ok (Raw d) → cid_codec c = Codec_Raw ∧ d = b.
Proof.
  unfold unixfs_decode. destruct (cid_codec c =? Codec_Raw) eqn:E; [apply Z.eqb_eq in E; by intros [= ->]|].
  destruct (pbnode_decode b) as [o|]; [|done]. cbn. destruct (pbn_data o) as [i|]; [|done]. cbn.
  destruct (data_decode i) as [x|]; [|done]. cbn. destruct (DataType_try_from _) as [[]|]; try done. cbn.
  by destruct (shard_from_node _).
Qed.

Lemma unixfs_file_root k c n content : den (loader_of fetch) k c content → node_of fetch c = Ok (File n) →
  ∃ k', file_root (loader_of fetch) n content k'.
Proof.
  intros Hd Hn. apply poll_load_node_of in Hn.
  inversion Hd as [c' d' Hl|c' n' Hl Hnl|k' c' n' links d' Hl Hlo Hne Hdn Hds]; subst; rewrite Hn in Hl; try done;
    injection Hl as <-.
  - exists 0%nat, []. split; [unfold links_owned, unixfs_links, pb_links; by rewrite Hnl|by left].
  - exists k', links. split; [done|by right].
Qed.

Lemma resolve_file n c r u : stands_for load_cid (entry n (T_File c)) r u → tree_ok (T_File c) →
  ∃ turns, ∀ fuel id, (turns < fuel)%nat → ∃ out, resolved id (blk_cid r) = Ok out ∧ shows fuel out (T_File c).
Proof.
  intros Hst [Hb Hl]. pose proof (file_entry_den load_cid n cfg chunker degree (reads c) r u Hcfg Hdeg (reads_nonempty c)) as Hden.
  rewrite reads_join in Hden. destruct (Hden Hb Hl Hst) as [[k Hk] Hc]. destruct Hst as (bl & _ & _ & _ & Hu).
  assert (∃ data, fetch (blk_cid r) = Ok data ∧ unixfs_decode (blk_cid r) data = Ok u) as (data & Hf & Hdec).
  { unfold node_of in Hu. destruct (fetch (blk_cid r)) as [data| |]; try done. by exists data. }
  pose proof Hu as Hpoll. apply poll_load_node_of in Hpoll. destruct Hc as [Hc|Hc].
  - exists 0%nat. intros fuel id _. destruct (resolve_raw_block id (blk_cid r) data Hc Hf) as (out & i & Ho & Hcon & Ht).
    exists out. split; [done|]. unfold shows, out_is_dir, out_is_symlink, out_pretty. rewrite Hcon, Ht.
    split_and!; [done|done|]. eexists. split; [done|]. unfold unixfs_decode in Hdec. rewrite Hc in Hdec. injection Hdec as <-.
    inversion Hk as [c' d' Hl'|c' n' Hl'|k' c' n' ? ? Hl']; subst; rewrite Hpoll in Hl'; try done. injection Hl' as <-.
    by apply raw_streams.
  - assert (∃ nd, u = File nd) as [nd ->].
    { inversion Hk as [c' d' Hl'|c' n' Hl'|k' c' n' ? ? Hl']; subst; rewrite Hpoll in Hl'; injection Hl' as ->; eauto.
      apply decoded_raw in Hdec as [Hraw _]. by rewrite Hc in Hraw. }
    destruct (unixfs_file_root k _ nd c Hk Hu) as [k' Hroot]. exists (3 * k' + 2)%nat. intros fuel id Hfuel.
    destruct (resolve_unixfs id (blk_cid r) _ Hc Hu) as (out & Ho & Hcon & Ht). exists out. split; [done|].
    destruct (file_streams nd c k' fuel Hroot Hl Hfuel) as (rd & Hnew & Hs).
    unfold shows, out_is_dir, out_is_symlink, out_pretty. rewrite Hcon, Ht, Hnew. cbn. eauto.
Qed.

Lemma resolve_link n target r u : stands_for load_cid (entry n (T_Link target)) r u → tree_ok (T_Link target) →
  ∀ fuel id, ∃ out, resolved id (blk_cid r) = Ok out ∧ shows fuel out (T_Link target).
Proof.
  intros (bl & He & Hs & Hl & _) (_ & _ & Hlen) fuel id.
  destruct (symlink_shape fetch target bl He Hs) as (b & nd & -> & Hn & Hd & Hlinks & Hc). injection Hl as <-.
  destruct (resolve_unixfs id (blk_cid b) _ Hc Hn) as (out & Ho & Hcon & Ht). exists out. split; [done|].
  destruct (link_streams nd target fuel Hd Hlinks Hlen) as (rd & Hnew & Hst).
  unfold shows, out_is_dir, out_is_symlink, out_pretty. rewrite Hcon, Ht, Hnew. cbn. eauto.
Qed.

Lemma yield_links_Ok ls : yield_links (Ok <$> ls) = (ls, Ok tt).
Proof. induction ls as [|l ls IH]; [done|]. rewrite fmap_cons. cbn [yield_links]. rewrite IH. done. Qed.

Lemma resolve_dir n l r u : stands_for load_cid (entry n (T_Dir l)) r u →
  ∃ roots, Forall2 (λ e r, ∃ u, stands_for load_cid (entry e.1 e.2) r u) l roots ∧
    ∀ id, ∃ out, resolved id (blk_cid r) = Ok out ∧ out_is_dir out = true ∧
      ∀ fuel, unixfs_read_dir load_cid fuel out = Some (zip_with entry_pointer (map (λ e, entry e.1 e.2) l) roots, Ok tt).
Proof.
  intros (bl & He & Hs & Hl & Hu). change (directory_encode (Dir_Basic n (map (λ e, entry e.1 e.2) l)) = (bl, Ok tt)) in He.
  pose proof (flat_codec n _ bl r He Hl) as Hc.
  destruct (basic_shape fetch n _ bl He Hs) as (parts & roots & root & nd & -> & Hp & Hroots & Hn & Hlinks).
  rewrite last_snoc in Hl. injection Hl as ->. exists roots. split.
  - apply serves_app in Hs as [Hs _]. clear He Hlinks Hc Hu Hn r u. revert parts roots Hp Hroots Hs.
    induction l as [|e l IH]; intros parts roots Hp Hroots Hs; inversion Hp as [|? bl ? parts' He Hp']; subst;
      inversion Hroots as [|? r ? roots' Hl Hr]; subst; constructor; [|apply (IH parts'); [done..|]].
    + assert (serves (loader_of fetch) bl) as Hb by (eapply serves_parts; [exact Hs|by left]).
      destruct (entry_rooted fetch _ bl He Hb) as (r' & u & Hr' & Hu). rewrite Hl in Hr'. injection Hr' as <-. by exists u, bl.
    + intros b Hb. apply Hs. rewrite mjoin_cons. apply elem_of_app. by right.
  - intros id. destruct (resolve_unixfs id (blk_cid r) _ Hc Hn) as (out & Ho & Hcon & _). exists out. split; [done|].
    unfold out_is_dir, unixfs_read_dir. rewrite Hcon. split; [done|]. intros fuel. cbn [as_child_reader].
    by rewrite Hlinks, yield_links_Ok.
Qed.

(** *** Walking a tree *)

(** A link leads to the root of a tree below a directory. *)
Definition link_for (k : list bytes) (link : Link) (er : (list bytes * tree) * Block) : Prop :=
  link_cid link = blk_cid er.2 ∧ ∃ m, link_name link = Some m ∧ er.1.1 = k ++ [m].
Definition rooted_at (e : list bytes * tree) (r : Block) : Prop := ∃ m u, stands_for load_cid (entry m e.2) r u.

Lemma resolve_entry e r : rooted_at e r → tree_ok e.2 →
  ∃ turns roots, Forall2 rooted_at (kids e) roots ∧ ∀ fuel id, (turns < fuel)%nat →
    ∃ out, resolved id (blk_cid r) = Ok out ∧ shows fuel out e.2 ∧
      if out_is_dir out then ∀ fuel, ∃ links, unixfs_read_dir load_cid fuel out = Some (links, Ok tt) ∧
                                Forall2 (link_for e.1) links (zip (kids e) roots)
      else kids e = [].
Proof.
  destruct e as [k [c|target|l]]; intros (m & u & Hst) Hok; cbn [fst snd] in *.
  - destruct (resolve_file m c r u Hst Hok) as [turns Ht]. exists turns, []. split; [constructor|]. intros fuel id Hf.
    destruct (Ht fuel id Hf) as (out & Ho & Hs). exists out. split; [done|]. split; [done|]. by rewrite (proj1 Hs).
  - exists 0%nat, []. split; [constructor|]. intros fuel id _.
    destruct (resolve_link m target r u Hst Hok fuel id) as (out & Ho & Hs). exists out. split; [done|]. split; [done|].
    by rewrite (proj1 Hs).
  - destruct (resolve_dir m l r u Hst) as (roots & Hr & Hd). exists 0%nat, roots. cbn [kids snd fst]. unfold below_dir. split.
    + apply Forall2_fmap_l. eapply Forall2_impl; [exact Hr|]. intros [n t] r' [u' Hu']. by exists n, u'.
    + intros fuel id _. destruct (Hd id) as (out & Ho & Hdir & Hread). exists out. split; [done|]. split; [done|].
      rewrite Hdir. intros fuel'. rewrite Hread. eexists. split; [done|]. clear -Hr.
      induction Hr as [|[n t] r' l roots _ Hr IH]; [constructor|]. cbn. constructor; [|exact IH].
      split; [done|]. exists n. split; [|done]. cbn. f_equal. apply entry_of_name.
Qed.

(** What waits to be visited: a path with the result for a root *)
Definition block_for (b : Path * res string Out) (er : (list bytes * tree) * Block) : Prop :=
  path_tail b.1 = er.1.1 ∧ ∃ id, b.2 = resolved id (blk_cid er.2).

Lemma resolve_links_for path links ers id : Forall2 (link_for (path_tail path)) links ers →
  Forall2 block_for (resolve_links load_cid dns murmur3 id path links).1 ers.
Proof.
  intros Hl. revert id. induction Hl as [|link er links ers (Hc & m & Hm & Hk) _ IH]; intros id; [constructor|].
  cbn [resolve_links]. destruct (resolve _ _ _ _ _) as [x id'] eqn:Ex.
  destruct (resolve_links _ _ _ id' path links) as [rs id''] eqn:Er. specialize (IH id'). rewrite Er in IH.
  cbn [fst]. constructor; [|done]. split; cbn [fst snd].
  - by rewrite Hm, Hk.
  - exists id. by rewrite <-Hc, Ex.
Qed.

Lemma resolve_chunks_for path parts : ∀ acc id ers, Forall2 (link_for (path_tail path)) (mjoin parts) ers →
  ∃ next id', foldl (λ '(acc, id) chunk, let '(rs, id) := resolve_links load_cid dns murmur3 id path chunk in (acc ++ rs, id))
    (acc, id) parts = (acc ++ next, id') ∧ Forall2 block_for next ers.
Proof.
  induction parts as [|chunk parts IH]; intros acc id ers Hl.
  { exists [], id. rewrite app_nil_r. split; [done|]. inversion Hl. constructor. }
  rewrite mjoin_cons in Hl. apply Forall2_app_inv_l in Hl as (e1 & e2 & Hl1 & Hl2 & ->). cbn [foldl].
  pose proof (resolve_links_for path chunk e1 id Hl1) as Hb. destruct (resolve_links _ _ _ id path chunk) as [rs id1].
  destruct (IH (acc ++ rs) id1 e2 Hl2) as (next & id' & -> & Hn). exists (rs ++ next), id'. rewrite app_assoc.
  split; [done|]. by apply Forall2_app.
Qed.

(** The walk visits the trees in breadth-first order. *)
Lemma walk_trees n : ∀ qu roots L,
  bfs n qu = Some L → Forall2 rooted_at qu roots → Forall (λ e, tree_ok e.2) qu →
  ∃ turns, ∀ fuel' fuel id blocks, (turns < fuel')%nat → (n ≤ fuel)%nat → Forall2 block_for blocks (zip qu roots) →
    ∃ items, with_paths_loop load_cid dns murmur3 fuel id blocks = Some (items, Ok tt) ∧
      Forall2 (λ i e, path_tail i.1 = e.1 ∧ shows fuel' i.2 e.2) items L.
Proof.
  induction n as [|n IH]; intros [|e qu] roots L Hb Hr Hok; try done; cbn in Hb.
  { injection Hb as <-. exists 0%nat. intros fuel' [|fuel] id blocks _ Hf Hbl; [lia|]. inversion Hbl; subst.
    exists []. split; [done|constructor]. }
  apply bind_Some in Hb as (L' & Hb & [= <-]). inversion Hr as [|? r ? roots' He Hq]; subst.
  apply Forall_cons in Hok as [Hoke Hok].
  destruct (resolve_entry e r He Hoke) as (turns & kr & Hkr & Hres).
  destruct (IH (qu ++ kids e) (roots' ++ kr) L' Hb) as [turns' Hwalk]; [by apply Forall2_app| |].
  { apply Forall_app. split; [done|by apply kids_ok]. }
  exists (turns `max` turns')%nat. intros fuel' [|fuel] id blocks Ht Hf Hbl; [lia|].
  inversion Hbl as [|[path x] ? blocks' ? [Hp [i Hx]] Hbl']; subst. cbn [fst snd] in *.
  destruct (Hres fuel' i ltac:(lia)) as (out & Ho & Hs & Hkids). rewrite Hx, Ho. cbn [with_paths_loop].
  assert (∀ id next, Forall2 block_for next (zip (kids e) kr) → ∃ items,
    with_paths_loop load_cid dns murmur3 fuel id (blocks' ++ next) = Some (items, Ok tt) ∧
    Forall2 (λ i e, path_tail i.1 = e.1 ∧ shows fuel' i.2 e.2) items L') as Hgo.
  { intros id' next Hn. apply (Hwalk fuel' fuel id'); [lia|lia|].
    rewrite zip_with_app by (by eapply Forall2_length). by apply Forall2_app. }
  destruct (out_is_dir out) eqn:Ed; cbn [negb].
  - destruct (Hkids fuel) as (links & -> & Hl). cbn [unwrap mbind res_bind try_collect snd fst].
    rewrite <-(chunks_concat 8 links), <-Hp in Hl by lia.
    destruct (resolve_chunks_for path (chunks 8 links) [] id _ Hl) as (next & id' & -> & Hn). cbn [app].
    destruct (Hgo id' next Hn) as (items & -> & Hi). exists ((path, out) :: items). split; [done|]. by constructor.
  - rewrite Hkids in Hgo. destruct (Hgo id []) as (items & Hi & Hall); [constructor|]. rewrite app_nil_r in Hi. rewrite Hi.
    exists ((path, out) :: items). split; [done|]. by constructor.
Qed.
End read.

Definition content_size (t : tree) : nat := match t with T_File c | T_Link c => length c | T_Dir _ => 0 end.

(** Trees at paths made of names *)
Definition placed (e : list bytes * tree) : Prop := Forall proper e.1 ∧ tree_ok e.2.

Lemma bfs_placed n : ∀ qu L, bfs n qu = Some L → Forall placed qu → Forall placed L.
Proof.
  induction n as [|n IH]; intros [|e qu] L Hb Hq; try done; cbn in Hb.
  { injection Hb as <-. constructor. }
  apply bind_Some in Hb as (L' & Hb & [= <-]). apply Forall_cons in Hq as [He Hq]. constructor; [done|].
  apply (IH _ _ Hb), Forall_app. split; [done|]. destruct e as [k [c|tg|l]]; [constructor..|].
  destruct He as [Hk Hl%tree_ok_entries]. cbn [fst snd kids] in *. unfold below_dir. apply Forall_fmap.
  eapply Forall_impl; [exact Hl|]. intros [m t] (Hm & _ & Ht). split; [|done]. cbn. apply Forall_app.
  split; [done|by apply Forall_singleton].
Qed.

Section items.
Context `{UnixfsProto} `{!PathText} `{!IpldLib} `{!RelativePath} `{!RelativePathLaws}.
Context (load_cid : Cid → res string LoadedCid) (buf : Z).

Lemma get_item_shown fuel path out e :
  shows load_cid buf fuel out e.2 → path_tail path = e.1 → placed e → (content_size e.2 < fuel)%nat →
  ∃ i, get_item load_cid buf fuel (join_slash []) path out = Some (Ok (Some i)) ∧ item_for load_cid buf fuel i e.
Proof.
  intros Hs Hp [Hn Hok] Hf. unfold get_item, to_relative_string. rewrite Hp, rel_from_names by done. cbn [ok_or].
  rewrite (rel_starts_names [] e.1) by done. cbn [negb]. rewrite (rel_strip_names [] e.1) by done.
  destruct (e.2) as [c|target|l] eqn:Et; cbn [shows content_size] in *; unfold item_for; rewrite Et.
  - destruct Hs as (-> & -> & reader & -> & Hs). eexists. split; [done|]. done.
  - destruct Hs as (-> & -> & reader & -> & Hs). rewrite (read_to_end_streams load_cid buf fuel reader target Hs fuel []) by done.
    cbn. destruct Hok as (_ & -> & _). eexists. split; [done|]. done.
  - rewrite Hs. eexists. split; [done|]. done.
Qed.

Lemma get_items_shown fuel items L : Forall2 (λ i e, path_tail i.1 = e.1 ∧ shows load_cid buf fuel i.2 e.2) items L →
  Forall placed L → Forall (λ e, (content_size e.2 < fuel)%nat) L →
  ∃ out, get_items load_cid buf fuel (join_slash []) items (Ok tt) = Some (out, Ok tt) ∧
    Forall2 (item_for load_cid buf fuel) out L.
Proof.
  induction 1 as [|[path o] e items L [Hp Hs] _ IH]; intros Hn Hf.
  { exists []. split; [done|constructor]. }
  apply Forall_cons in Hn as [Hne Hn], Hf as [Hfe Hf]. destruct (IH Hn Hf) as (out & Hi & Hall).
  destruct (get_item_shown fuel path o e Hs Hp Hne Hfe) as (i & Hg & Hie). exists (i :: out).
  cbn [get_items]. rewrite Hg. cbn [mbind option_bind]. rewrite Hi. split; [done|by constructor].
Qed.
End items.

(** ** Adding a tree *)

(** What a store promises: [st_view s v] when [s] holds the blocks of [v]; CIDs of the same block have the
    same entry. *)
Class ApiStoreLaws `{UnixfsProto} S `{!ApiStore S} := {
  st_view : S → (Cid → option bytes) → Prop;
  st_same : Cid → Cid → Prop;
  st_same_refl c : st_same c c;
  st_put_many_view blocks s v s' :
    st_view s v → st_put_many blocks s = (Ok tt, s') →
    ∃ v', st_view s' v' ∧
      (∀ c d, v' c = Some d → v c = Some d ∨ ∃ b, b ∈ blocks ∧ st_same c (blk_cid b) ∧ d = blk_data b) ∧
      (∀ c, is_Some (v c) ∨ (∃ b, b ∈ blocks ∧ st_same c (blk_cid b)) → is_Some (v' c))
}.

Section adding.
Context `{UnixfsProto} {S : Type} `{!ApiStore S} `{!ApiStoreLaws S}.

(** No two different blocks among those of the store and [blocks] have the same CID. *)
Definition no_collision (v : Cid → option bytes) (blocks : list Block) : Prop :=
  (∀ b b', b ∈ blocks → b' ∈ blocks → st_same (blk_cid b) (blk_cid b') → blk_data b = blk_data b') ∧
  ∀ b d, b ∈ blocks → v (blk_cid b) = Some d → d = blk_data b.

(** The blocks of [all] that are held, and those that were put, are held. *)
Definition holds_more (all chunk : list Block) (v v' : Cid → option bytes) : Prop :=
  no_collision v' all ∧
  ∀ b, b ∈ all → b ∈ chunk ∨ v (blk_cid b) = Some (blk_data b) → v' (blk_cid b) = Some (blk_data b).

Lemma put_many_holds all chunk s v s' :
  st_view s v → no_collision v all → chunk ⊆ all → st_put_many chunk s = (Ok tt, s') →
  ∃ v', st_view s' v' ∧ holds_more all chunk v v'.
Proof.
  intros Hv [Hall Hst] Hsub Hput. destruct (st_put_many_view chunk s v s' Hv Hput) as (v' & Hv' & Hfrom & Hin).
  exists v'. split; [done|]. assert (∀ b d, b ∈ all → v' (blk_cid b) = Some d → d = blk_data b) as Heq.
  { intros b d Hb [E|(b' & Hb' & Hs & ->)]%Hfrom; [by apply Hst|]. symmetry. apply Hall; auto. }
  split; [by split|]. intros b Hb Hor. destruct (Hin (blk_cid b)) as [d Hd].
  { destruct Hor as [?| ->]; [right; exists b; split; [done|apply st_same_refl]|by left]. }
  rewrite Hd. f_equal. by apply Heq.
Qed.

Lemma holds_more_trans all c1 c2 v1 v2 v3 :
  holds_more all c1 v1 v2 → holds_more all c2 v2 v3 → holds_more all (c1 ++ c2) v1 v3.
Proof. intros [_ H12] [Hn H23]. split; [done|]. intros b Hb [[?|?]%elem_of_app|?]; eauto. Qed.

Lemma chunked_adds all blocks fin : ∀ chunk size s v out s',
  st_view s v → no_collision v all → chunk ++ blocks ⊆ all →
  add_blocks_to_store_chunked blocks fin chunk size s = ((out, Ok tt), s') →
  fin = Ok tt ∧ out.*1 = blk_cid <$> blocks ∧ ∃ v', st_view s' v' ∧ holds_more all (chunk ++ blocks) v v'.
Proof.
  induction blocks as [|b blocks IH]; intros chunk size s v out s' Hv Hn Hsub; cbn [add_blocks_to_store_chunked].
  { rewrite app_nil_r in *. destruct fin as [[]|e|]; [|done..]. destruct (st_put_many chunk s) as [r s1] eqn:E.
    intros [= <- -> ->]. split_and!; [done|done|]. by eapply put_many_holds. }
  destruct (raw_data_size b) as [raw|e|]; [|done..].
  destruct (MAX_CHUNK_SIZE <? Int.wrap 64 (size + block_size b)).
  - destruct (st_put_many chunk s) as [[[]|e|] s1] eqn:E; [|done..].
    destruct (put_many_holds all chunk s v s1 Hv Hn) as (v1 & Hv1 & Hh1); [set_solver|done|].
    destruct (add_blocks_to_store_chunked blocks fin _ _ s1) as [[out' r] s2] eqn:E2. intros [= <- -> ->].
    assert ([b] ++ blocks ⊆ all) as Hsub' by set_solver.
    destruct (IH _ _ _ v1 _ _ Hv1 (proj1 Hh1) Hsub' E2) as (-> & Ho & v' & Hv' & Hh). split_and!; [done|by cbn; rewrite Ho|].
    exists v'. split; [done|]. by eapply holds_more_trans.
  - destruct (add_blocks_to_store_chunked blocks fin _ _ s) as [[out' r] s2] eqn:E2. intros [= <- -> ->].
    replace (chunk ++ b :: blocks) with ((chunk ++ [b]) ++ blocks) in * by by rewrite <-app_assoc.
    destruct (IH _ _ _ v _ _ Hv Hn Hsub E2) as (-> & Ho & Hh). split_and!; [done|by cbn; rewrite Ho|done].
Qed.

(** Adding an entry: its CID is that of its last block, and all blocks are held. *)
Lemma add_holds e s v c s' :
  st_view s v → no_collision v (entry_encode e).1 → add e s = (Ok c, s') →
  ∃ blocks r v', entry_encode e = (blocks, Ok tt) ∧ last blocks = Some r ∧ c = blk_cid r ∧ st_view s' v' ∧
    ∀ b, b ∈ blocks → v' (blk_cid b) = Some (blk_data b).
Proof.
  intros Hv Hn. unfold add, add_stream. destruct (entry_encode e) as [blocks fin] eqn:He.
  destruct (add_blocks_to_store_chunked _ _ _ _ _) as [[out r] s1] eqn:Ea. destruct r as [[]|x|]; [|done..].
  destruct (chunked_adds blocks blocks fin [] 0 s v out s1 Hv Hn ltac:(done) Ea) as (-> & Ho & v' & Hv' & _ & Hh).
  cbn [mbind res_bind]. rewrite <-fmap_last, Ho, fmap_last. destruct (last blocks) as [r|] eqn:El; [|done]. intros [= <- <-].
  exists blocks, r, v'. split_and!; try done. intros b Hb. apply Hh; [done|]. by left.
Qed.
End adding.

(** ** The stores *)

#[export] Program Instance map_store_laws `{UnixfsProto} : ApiStoreLaws (gmap Cid bytes) := {|
  st_view := λ m v, ∀ c, v c = m !! c;
  st_same := eq
|}.
Next Obligation. done. Qed.
Next Obligation.
  intros ? ? ? blocks m v m' Hv [= <-]. exists (λ c, map_put_many blocks m !! c). split; [done|].
  assert (∀ c, v c = m !! c) as Hv' by exact Hv. clear Hv. unfold map_put_many. revert m v Hv'.
  induction blocks as [|b blocks IH]; intros m v Hv; cbn [foldl].
  { split; [intros c d Hd; left; by rewrite Hv|]. intros c [Hc|(b & ?%not_elem_of_nil & _)]; [by rewrite <-Hv|done]. }
  destruct (IH (<[blk_cid b := blk_data b]> m) (λ c, <[blk_cid b := blk_data b]> m !! c)) as [Hfrom Hin]; [done|]. split.
  - intros c d [E|(b' & Hb' & Hs & ->)]%Hfrom; [|right; exists b'; split; [by right|done]].
    destruct (decide (blk_cid b = c)) as [<-|Hne].
    + rewrite lookup_insert_eq in E. injection E as <-. right. exists b. split; [by left|done].
    + rewrite lookup_insert_ne in E by done. left. by rewrite Hv.
  - intros c Hc. apply Hin. destruct (decide (blk_cid b = c)) as [<-|Hne]; [left; by rewrite lookup_insert_eq|].
    rewrite lookup_insert_ne by done. destruct Hc as [Hc|(b' & Hb' & Hs)]; [left; by rewrite <-Hv|].
    apply elem_of_cons in Hb' as [->|Hb']; [done|]. right. by exists b'.
Qed.

(** The client of the store service *)
Section client_store.
Context `{UnixfsProto} `{!MultiformatsLaws} `{!StoreCodecs} `{!StoreCodecsLaws} `{RocksDbLaws}.

Lemma spec_get_cons c b m :
  spec_get c (b :: m) = if decide (same_block c b.1.1) then Some b.1.2 else spec_get c m.
Proof. destruct b as [[c' d] links]. unfold spec_get. cbn. by case_decide. Qed.

Lemma spec_put_many_from blocks before c d : ∀ tracker m,
  spec_get c (spec_put_many blocks tracker before m) = Some d →
  spec_get c m = Some d ∨ ∃ b, b ∈ blocks ∧ same_block c b.1.1 ∧ d = b.1.2.
Proof.
  induction blocks as [|b blocks IH]; intros tracker m; cbn [spec_put_many]; [by left|]. case_decide.
  - intros [?|(b' & ? & ?)]%IH; [by left|]. right. exists b'. split; [by right|done].
  - intros [E|(b' & ? & ?)]%IH; [|right; exists b'; split; [by right|done]]. rewrite spec_get_cons in E. case_decide as Hs.
    + injection E as <-. right. exists b. split; [by left|done].
    + by left.
Qed.

Lemma spec_put_many_has blocks before c : ∀ tracker m,
  (∀ c, c ∈ tracker ∨ is_Some (spec_get c before) → is_Some (spec_get c m)) →
  is_Some (spec_get c m) ∨ (∃ b, b ∈ blocks ∧ same_block c b.1.1) →
  is_Some (spec_get c (spec_put_many blocks tracker before m)).
Proof.
  induction blocks as [|b blocks IH]; intros tracker m Hm Hc; cbn [spec_put_many].
  { by destruct Hc as [?|(b & ?%not_elem_of_nil & _)]. }
  case_decide as Hb.
  - apply IH; [done|]. destruct Hc as [?|(b' & [->|Hb']%elem_of_cons & Hs)]; [by left| |right; by exists b'].
    left. unfold spec_get. rewrite (spec_lookup_same _ _ _ Hs). fold (spec_get b.1.1 m). apply Hm.
    destruct Hb as [?|[[d l] Hd]]; [by left|]. right. unfold spec_get. rewrite Hd. eauto.
  - apply IH.
    + intros c' Hc'. rewrite spec_get_cons. case_decide as Hs; [eauto|]. apply Hm.
      destruct Hc' as [[->%elem_of_singleton|?]%elem_of_union|?]; [|by left|by right]. by destruct Hs.
    + rewrite spec_get_cons. case_decide as Hs; [left; eauto|].
      destruct Hc as [?|(b' & [->|Hb']%elem_of_cons & Hs')]; [by left|done|right; by exists b'].
Qed.

#[export] Program Instance client_store_laws : ApiStoreLaws (option StoreState) := {|
  st_view := λ s v, ∃ store m, s = Some store ∧ state_ok store m ∧ ∀ c, v c = spec_get c m;
  st_same := same_block
|}.
Next Obligation. done. Qed.
Next Obligation.
  intros blocks s v s' (store & m & -> & Hok & Hv). cbn. pose proof (put_many_spec (into_parts <$> blocks) store m Hok) as Hp.
  unfold wp in Hp. destruct (store_put_many _ store) as [store' [[]|e|]]; try done. intros [= <-]. cbn in Hp.
  destruct Hp as [Hok' _]. exists (λ c, spec_get c (spec_put_many (into_parts <$> blocks) ∅ m m)). split_and!.
  - by eexists store', _.
  - intros c d [E|(b & (b' & -> & Hb)%list_elem_of_fmap & Hs & ->)]%spec_put_many_from; [left; by rewrite Hv|].
    right. by exists b'.
  - intros c Hc. apply spec_put_many_has; [by intros c' [?%elem_of_empty|?]|].
    destruct Hc as [Hc|(b & Hb & Hs)]; [left; by rewrite <-Hv|]. right. exists (into_parts b). split; [|done].
    apply list_elem_of_fmap. by exists b.
Qed.
End client_store.

(** ** The way round *)

Section way_round.
Context `{UnixfsProtoLaws} `{!PathText} `{!IpldLib} `{!IpldRawLaws} `{HashOrder} `{Reads} `{!RelativePath} `{!RelativePathLaws}.
Context {S : Type} `{!ApiStore S} `{!ApiStoreLaws S}.
Context (dns : DnsResolver) (murmur3 : bytes → Z) (buf : Z).

(** Getting the root of a tree gives its items in breadth-first order. *)
Lemma get_tree load_cid cfg chunker degree t r n L :
  0 < buf → Chunker_from cfg = Ok chunker → 1 < degree →
  rooted_at load_cid chunker degree ([], t) r → tree_ok t → bfs n [([], t)] = Some L →
  ∃ turns, ∀ fuel id, (turns < fuel)%nat → ∃ items,
    get load_cid dns murmur3 buf fuel id (Path_from_cid (blk_cid r)) = Some (items, Ok tt) ∧
    Forall2 (item_for load_cid buf fuel) items L.
Proof.
  intros Hbuf Hcfg Hdeg Hr Hok Hb.
  destruct (walk_trees load_cid dns murmur3 buf Hbuf cfg chunker degree Hcfg Hdeg n [([], t)] [r] L Hb) as [turns Hw];
    [by repeat constructor|by repeat constructor|].
  exists (turns `max` (n `max` list_sum (map (content_size ∘ snd) L)))%nat. intros fuel id Hf.
  destruct (Hw fuel fuel (next_id id) [(Path_from_cid (blk_cid r), (resolve load_cid dns murmur3 id (Path_from_cid (blk_cid r))).1)])
    as (items & Hi & Hs); [lia|lia|by repeat econstructor|].
  destruct (get_items_shown load_cid buf fuel items L Hs) as (out & Hg & Hall).
  - eapply bfs_placed; [exact Hb|]. by repeat constructor.
  - apply list.Forall_forall. intros e He. pose proof (list_sum_in (content_size ∘ snd) L e He) as Hle. cbn in Hle |- *. lia.
  - exists out. split; [|done]. unfold get. cbn [Path_cid Path_from_cid path_root].
    change (resolve_recursive_with_paths load_cid dns murmur3 fuel id (Path_from_cid (blk_cid r)))
      with (with_paths_loop load_cid dns murmur3 fuel (next_id id)
              [(Path_from_cid (blk_cid r), (resolve load_cid dns murmur3 id (Path_from_cid (blk_cid r))).1)]).
    rewrite Hi. exact Hg.
Qed.

(** What is written for a tree is the tree. *)
Lemma write_tree load_cid cwd g q Q t n L fuel items c :
  leads cwd g q Q → (∀ rel, g !! (Q ++ rel) = None) → tree_ok t → bfs n [([], t)] = Some L →
  Forall2 (item_for load_cid buf fuel) items L →
  ∃ g', write_get_stream load_cid buf cwd fuel (Path_from_cid c) (items, Ok tt) (Some q) g = Some (Ok q, g') ∧
    (∀ rel, g' !! (Q ++ rel) = object <$> subtree t rel) ∧ ∀ x, ¬ Q `prefix_of` x → g' !! x = g !! x.
Proof.
  intros Hl Hfree Hok Hb Hi. assert (g !! Q = None) as Hq by (rewrite <-(Hfree []); by rewrite app_nil_r).
  exists (put_objects Q L g). split; [|by apply (put_tree n t L Q g Hb Hok)].
  unfold write_get_stream. cbn [get_root_path]. unfold exists_.
  rewrite (stat_leads cwd g q Q true None Hl Hq) by by right. cbn [fst snd].
  pose proof Hl as (HQ & Hne & _).
  rewrite (save_bfs load_cid buf cwd q Q fuel n [([], t)] L items g Hne HQ Hb Hi).
  - done.
  - apply Forall_singleton. split_and!; cbn [fst snd]; [constructor| |done|done].
    unfold pb_below. rewrite !app_nil_r. by destruct q.
  - by split.
Qed.

(** C1: a file or a tree of files, symbolic links and directories that is added and then got is written as it was:
    the blocks of the entry that is made of a path go through any store, and what the resolver finds for the CID that was
    returned is written below a new path as the same files with the same bytes, the same links and the same
    directories; nothing else of the file system changes.  The tree is one that is not sharded and that is text
    where text is needed ([tree_ok]): at most 6000 entries in a directory, names and targets of links in UTF-8,
    targets not empty, files below 2^63 bytes.  The path itself is not a link, since the builder would follow it;
    no two different blocks have the same CID, and what the loader gives for a CID is what the store has. *)
Theorem add_get_roundtrip cwd f p P depth t cfg chunker s v cid s' cwd' g q Q load_cid :
  0 < buf → closed f → leads cwd f p P → tree_at depth f P = Some t → tree_ok t → (∀ target, t ≠ T_Link target) →
  Chunker_from cfg = Ok chunker → leads cwd' g q Q → (∀ rel, g !! (Q ++ rel) = None) →
  ∃ e, Entry_from_path cwd murmur3 depth f p {| cfg_wrap := false; cfg_chunker := Some cfg |} = Some (Ok e) ∧
    (st_view s v → no_collision v (entry_encode e).1 → add e s = (Ok cid, s') →
     (∀ v', st_view s' v' → ∀ c d, v' c = Some d → fetch_data load_cid c = Ok d) →
     ∃ turns, ∀ fuel id, (turns < fuel)%nat → ∃ items g',
       get load_cid dns murmur3 buf fuel id (Path_from_cid cid) = Some (items, Ok tt) ∧
       write_get_stream load_cid buf cwd' fuel (Path_from_cid cid) (items, Ok tt) (Some q) g = Some (Ok q, g') ∧
       (∀ rel, g' !! (Q ++ rel) = f !! (P ++ rel)) ∧ ∀ x, ¬ Q `prefix_of` x → g' !! x = g !! x).
Proof.
  intros Hbuf Hclosed Hp Ht Hok Hlink Hcfg Hq Hfree. eexists. split; [by eapply from_path_tree|].
  intros Hv Hn Ha Hload. destruct (add_holds _ s v cid s' Hv Hn Ha) as (blocks & r & v' & He & Hr & -> & Hv' & Hheld).
  assert (serves (loader_of (fetch_data load_cid)) blocks) as Hs.
  { intros b Hb. unfold loader_of. by rewrite (Hload v' Hv' _ _ (Hheld b Hb)). }
  destruct (entry_rooted (fetch_data load_cid) _ blocks He Hs) as (r' & u & Hr' & Hu). rewrite Hr in Hr'. injection Hr' as <-.
  destruct (bfs_total (Datatypes.S (tree_size t)) [([], t)]) as [L HL]; [cbn; lia|].
  destruct (get_tree load_cid cfg chunker DEFAULT_DEGREE t r (Datatypes.S (tree_size t)) L Hbuf Hcfg ltac:(done)) as [turns Hget]; [by eexists _, u, blocks|done|done|].
  exists turns. intros fuel id Hf. destruct (Hget fuel id Hf) as (items & Hi & Hall).
  destruct (write_tree load_cid cwd' g q Q t _ L fuel items (blk_cid r) Hq Hfree Hok HL Hall) as (g' & Hw & Hput & Hother).
  exists items, g'. split_and!; try done. intros rel. rewrite Hput. symmetry. eapply tree_holds; [done|by eapply leads_nonempty|done].
Qed.
End way_round.

(** ** A concrete instance *)

Module ApiToy.
Import UnixfsToy PathsToy HamtWitness ResolverToy.
#[export] Existing Instance Toy.order.

Definition names_of (s : bytes) : list bytes := filter (λ n, n ≠ []) (split_on (Z.eqb SLASH) s).

Lemma names_of_joined ns : Forall proper ns → names_of (join_slash ns) = ns.
Proof.
  assert (∀ n, proper n → Forall (λ b, (SLASH =? b) = false) n) as Hn.
  { intros n (_ & _ & _ & Hs). apply list.Forall_forall. intros b Hb. apply Z.eqb_neq. congruence. }
  unfold names_of. induction 1 as [|n ns Hp Hps IH]; [done|]. destruct ns as [|m ns].
  - cbn [join_slash]. pose proof (split_on_app (Z.eqb SLASH) n [] (Hn n Hp)) as E. rewrite app_nil_r in E. rewrite E. cbn [split_on].
    rewrite app_nil_r. by rewrite filter_cons_True by apply Hp.
  - change (join_slash (n :: m :: ns)) with (n ++ SLASH :: join_slash (m :: ns)).
    rewrite (split_on_app _ _ _ (Hn n Hp)). cbn [split_on]. rewrite Z.eqb_refl, app_nil_r.
    by rewrite filter_cons_True, IH by apply Hp.
Qed.

#[export] Instance relative : RelativePath := {|
  RelPath := list bytes;
  rel_from_path := λ s, if bool_decide (head s = Some SLASH) then None else Some (names_of s);
  rel_starts_with := λ p s, bool_decide (names_of s `prefix_of` p);
  rel_strip_prefix := λ p s, if bool_decide (names_of s `prefix_of` p) then Some (drop (length (names_of s)) p) else None;
  rel_parent := λ p, match p with [] => None | _ => Some (removelast p) end;
  rel_to_path := λ p q, {| pb_abs := pb_abs q; pb_parts := pb_parts q ++ p |}
|}.

#[export] Program Instance relative_laws : RelativePathLaws := {| rel_of := λ ns, ns |}.
Next Obligation.
  intros ns Hns. cbn. rewrite bool_decide_false, names_of_joined by (done || (destruct Hns as [|n ns (Hne & _ & _ & Hs) _]; [done|];
    destruct n as [|b n]; [done|]; destruct ns; cbn; intros [= ->]; by destruct Hs; left)). done.
Qed.
Next Obligation.
  intros pre ns Hns. cbn. apply bool_decide_eq_true. apply Forall_app in Hns as [Hp _]. rewrite names_of_joined by done. by exists ns.
Qed.
Next Obligation.
  intros pre ns Hns. cbn. apply Forall_app in Hns as [Hp _]. rewrite names_of_joined, bool_decide_true by (done || by exists ns).
  by rewrite drop_app_length.
Qed.
Next Obligation. done. Qed.
Next Obligation. intros ns n _. cbn. rewrite removelast_last. by destruct ns. Qed.
Next Obligation. done. Qed.

#[export] Instance ipld_raw : IpldRawLaws.
Proof. split; [done|]. intros b. by exists (V_bytes b). Qed.

Definition read_once (b : bytes) : list bytes := match b with [] => [] | _ => [b] end.
#[export] Instance one_read : Reads.
Proof.
  refine {| reads := read_once |}; intros [|x b]; try done; [cbn [read_once]; by rewrite mjoin_cons, app_nil_r|by repeat constructor].
Defined.

(** A directory [d] with a file, a symbolic link and a directory with an empty file *)
Definition files : Fs := list_to_map [
  ([[100]], Fs_Dir); ([[100]; [97]], Fs_File [1; 2; 3]); ([[100]; [108]], Fs_Symlink [97]);
  ([[100]; [101]], Fs_Dir); ([[100]; [101]; [98]], Fs_File [])].
Definition d_path : PathBuf := PathBuf_from [100].
Definition q_path : PathBuf := PathBuf_from [113].
Definition d_tree : FileTrees.tree := Eval vm_compute in default (T_File []) (tree_at 3 files [[100]]).
Definition d_chunker : Chunker := Chunker_Fixed {| chunk_size := 2 |}.
Definition d_entry : Entry := Eval vm_compute in
  match Entry_from_path [] murmur 3 files d_path {| cfg_wrap := false; cfg_chunker := Some (Config_Fixed 2) |} with
  | Some (Ok e) => e
  | _ => Entry_Symlink [] []
  end.
Definition d_added : res string (@Cid ids) * gmap (@Cid ids) bytes := add d_entry ∅.
Definition d_cid : @Cid ids := Eval vm_compute in match d_added.1 with Ok c => c | _ => (0, []) end.
Definition d_load (c : @Cid ids) : res string LoadedCid :=
  match d_added.2 !! c with
  | Some d => Ok {| loaded_data := d; loaded_source := Source_Bitswap |}
  | None => Err "not found"%string
  end.

Lemma d_entry_made :
  Entry_from_path [] murmur 3 files d_path {| cfg_wrap := false; cfg_chunker := Some (Config_Fixed 2) |} = Some (Ok d_entry).
Proof. vm_compute. reflexivity. Qed.

Lemma files_closed : closed files.
Proof.
  assert (map_Forall (λ k _, removelast k = [] ∨ files !! removelast k = Some Fs_Dir) files) as Hm
    by (apply (bool_decide_unpack _); vm_compute; exact I).
  intros k n o Hk. specialize (Hm _ _ Hk). cbn in Hm. by rewrite removelast_last in Hm.
Qed.

Lemma q_free rel : files !! ([[113]] ++ rel) = None.
Proof.
  assert (map_Forall (λ k _, head k = Some [100]) files) as Hm by (apply (bool_decide_unpack _); vm_compute; exact I).
  destruct (files !! ([[113]] ++ rel)) as [o|] eqn:E; [|done]. by specialize (Hm _ _ E).
Qed.

Lemma path_leads n : proper n → leads [] files {| pb_abs := false; pb_parts := [n] |} [n].
Proof.
  intros Hn. split; [done|]. split; [done|]. split; [by apply Forall_singleton|]. intros [|? [|? ?]] m r E Hr; cbn in E; injection E; intros; subst; done.
Qed.

Lemma d_tree_ok : tree_ok d_tree.
Proof.
  unfold d_tree. cbn [tree_ok map foldr snd]. unfold proper, byte_ok.
  split_and!; try done; apply (bool_decide_unpack _); vm_compute; exact I.
Qed.

Lemma blocks_held blocks : forallb (λ b, bool_decide (snd (blk_cid b : Z * list Z) = blk_data b)) blocks = true →
  no_collision (λ _, None) blocks.
Proof.
  rewrite forallb_forall. intros Hb. split; [|done]. intros b b' H1 H2 E.
  rewrite <-(bool_decide_eq_true_1 _ (Hb b (proj1 (list_elem_of_In _ _) H1))).
  rewrite <-(bool_decide_eq_true_1 _ (Hb b' (proj1 (list_elem_of_In _ _) H2))). by rewrite E.
Qed.

Lemma d_tree_at : tree_at 3 files [[100]] = Some d_tree.
Proof. vm_compute. reflexivity. Qed.

Lemma d_leads : leads [] files d_path [[100]].
Proof. apply path_leads. apply (bool_decide_unpack _). vm_compute. exact I. Qed.

Lemma q_leads : leads [] files q_path [[113]].
Proof. apply path_leads. apply (bool_decide_unpack _). vm_compute. exact I. Qed.

Lemma d_blocks : no_collision (λ _, None) (entry_encode d_entry).1.
Proof. apply blocks_held. vm_compute. reflexivity. Qed.

Lemma d_adds : add d_entry ∅ = (Ok d_cid, d_added.2).
Proof.
  assert (d_added.1 = Ok d_cid) as E by (vm_compute; reflexivity). rewrite <-E. apply surjective_pairing.
Qed.

Lemma d_loads v' : st_view d_added.2 v' → ∀ c d, v' c = Some d → fetch_data d_load c = Ok d.
Proof. intros Hv' c d Hc. unfold fetch_data, d_load. by rewrite <-(Hv' c), Hc. Qed.

Lemma d_files : files !! [[100]; [97]] = Some (Fs_File [1; 2; 3]) ∧ files !! [[100]; [108]] = Some (Fs_Symlink [97]) ∧
  files !! [[100]; [101]; [98]] = Some (Fs_File []).
Proof. vm_compute. done. Qed.

Lemma add_get_roundtrip_witness :
  ∃ turns items g', Api.get d_load dns murmur 2 (S turns) 7 (Path_from_cid d_cid) = Some (items, Ok tt) ∧
    write_get_stream d_load 2 [] (S turns) (Path_from_cid d_cid) (items, Ok tt) (Some q_path) files = Some (Ok q_path, g') ∧
    g' !! [[113]; [97]] = Some (Fs_File [1; 2; 3]) ∧ g' !! [[113]; [108]] = Some (Fs_Symlink [97]) ∧
    g' !! [[113]; [101]; [98]] = Some (Fs_File []).
Proof.
  destruct (add_get_roundtrip dns murmur 2 [] files d_path [[100]] 3 d_tree (Config_Fixed 2) d_chunker
    (∅ : gmap (@Cid ids) bytes) (λ _, None) d_cid d_added.2 [] files q_path [[113]] d_load
    ltac:(lia) files_closed d_leads d_tree_at d_tree_ok ltac:(discriminate) eq_refl q_leads q_free) as (e & He & Hway).
  rewrite d_entry_made in He. injection He as <-.
  destruct (Hway (λ c, eq_refl) d_blocks d_adds d_loads) as [turns Hget]. destruct d_files as (Ha & Hl & Hb).
  destruct (Hget (S turns) 7 (Nat.lt_succ_diag_r turns)) as (items & g' & Hg & Hw & Hf & _).
  exists turns, items, g'. split; [exact Hg|]. split; [exact Hw|].
  split; [exact (eq_trans (Hf [[97]]) Ha)|]. split; [exact (eq_trans (Hf [[108]]) Hl)|exact (eq_trans (Hf [[101]; [98]]) Hb)].
Defined.

(** *** What is written outside of the output path *)

(** Add an entry, get it and write it to a path. *)
Definition added_and_got (e : Entry) (tail : list bytes) (output : option PathBuf) : option (res string PathBuf * Fs) :=
  match add e (∅ : gmap (@Cid ids) bytes) with
  | (Ok c, s) =>
      let load c := match s !! c with
                    | Some d => Ok {| loaded_data := d; loaded_source := Source_Bitswap |}
                    | None => Err "not found"%string
                    end in
      let path := {| path_typ := PathType_Ipfs; path_root := Root_Cid c; path_tail := tail |} in
      blocks ← Api.get load dns murmur 2 50 0 path;
      write_get_stream load 2 [] 50 path blocks output files
  | _ => None
  end.

(** A directory with a link and a file of the same name: the file is written where the link leads. *)
Definition twice : Entry :=
  Entry_Directory (Dir_Basic [100] [Entry_Symlink [97] [SLASH; 120]; Entry_File [97] (Ok [Ok [1; 2; 3]]) d_chunker 3]).
Lemma get_writes_through_link :
  (λ '(r, f), (r, f !! [[120]])) <$> added_and_got twice [] (Some q_path) = Some (Ok q_path, Some (Fs_File [1; 2; 3])).
Proof. vm_compute. reflexivity. Qed.

(** A path with a trailing slash: the paths below it start with a slash, and nothing below it can be got. *)
Definition one_file : Entry := Entry_Directory (Dir_Basic [100] [Entry_File [97] (Ok [Ok [1; 2; 3]]) d_chunker 3]).
Lemma get_trailing_slash :
  fst <$> added_and_got one_file [] (Some q_path) = Some (Ok q_path) ∧
  fst <$> added_and_got one_file [[]] (Some q_path) = Some (Err "not a relative path"%string).
Proof. split; vm_compute; reflexivity. Qed.
End ApiToy.
