(* ===== verification/Car.v ===== *)
(** * CAR archives

    Models [iroh-car]: the header, the sections of an archive with their length prefix, the
    writer and the reader.  Variable-length integers ([integer-encoding]), dag-cbor and the
    binary form of CIDs are crates: the class [CarLib].  The writer below is any sink with
    a function that writes bytes; the reader is over the bytes that are left. *)

From stdpp Require Import prelude strings list gmap.
From Stdlib Require Import ZArith Lia.
From S2P Require Import Prelude Cids.
Local Open Scope Z_scope.

Inductive car_error :=
  | Car_Parsing (s : string)
  | Car_InvalidFile (s : string)
  | Car_Io
  | Car_Cbor
  | Car_LdReadTooLarge (length : Z).

(** What reading a variable-length integer gives: the value and the rest, the end of the
    input, or another error *)
Inductive varint_read := Varint_Ok (n : Z) (rest : bytes) | Varint_Eof | Varint_Err.

Record CarHeaderV1 `{Ids} := { car_roots : list Cid; car_version : Z }.
Arguments car_roots {_} _.
Arguments car_version {_} _.
Inductive CarHeader `{Ids} := CarHeader_V1 (h : CarHeaderV1).

Class CarLib `{Multiformats} := {
  read_varint : bytes → varint_read;
  write_varint : Z → bytes;
  header_decode : bytes → option CarHeaderV1;
  header_encode : CarHeaderV1 → option bytes;
  (** [Cid::read_bytes] over a cursor, with the position of the cursor after it *)
  cid_read_at : bytes → option (Cid * Z)
}.

(** Reading gives back what was written, from any input that goes on after it; reading stops
    with the end of the input inside an integer and consumes at least a byte otherwise. *)
Class CarLibLaws `{CarLib} : Prop := {
  varint_write_read n r : Int.in_u 64 n → read_varint (write_varint n ++ r) = Varint_Ok n r;
  varint_cut n p q : Int.in_u 64 n → write_varint n = p ++ q → q ≠ [] → read_varint p = Varint_Eof;
  varint_consumes b n r : read_varint b = Varint_Ok n r → 0 ≤ n ∧ (length r < length b)%nat;
  header_roundtrip h b : header_encode h = Some b → header_decode b = Some h;
  cid_read_written c r : cid_read_at (cid_to_bytes c ++ r) = Some (c, Z.of_nat (length (cid_to_bytes c)));
  cid_read_inside b c pos : cid_read_at b = Some (c, pos) → 0 ≤ pos ≤ Z.of_nat (length b)
}.

Definition MAX_ALLOC : Z := 4 * 1024 * 1024.

Section car.
Context `{CarLib}.

(** ** Header *)

Definition CarHeader_new_v1 (roots : list Cid) : CarHeader := CarHeader_V1 {| car_roots := roots; car_version := 1 |}.

Definition CarHeader_decode (buffer : bytes) : res car_error CarHeader :=
  header ← ok_or (header_decode buffer) (Car_Parsing "cbor");
  ensure (negb (bool_decide (car_roots header = []))) (Car_Parsing "empty CAR file");;
  ensure (car_version header =? 1) (Car_InvalidFile "Only CAR file version 1 is supported");;
  Ok (CarHeader_V1 header).

Definition CarHeader_encode (h : CarHeader) : res car_error bytes :=
  match h with CarHeader_V1 header => ok_or (header_encode header) Car_Cbor end.

Definition CarHeader_roots (h : CarHeader) : list Cid := match h with CarHeader_V1 header => car_roots header end.
Definition CarHeader_version (h : CarHeader) : Z := match h with CarHeader_V1 _ => 1 end.

(** ** Sections *)

(** [buf.resize(length, 0)] if the buffer is shorter *)
Definition grow (length' : Z) (buf : bytes) : bytes :=
  if Z.of_nat (length buf) <? length' then buf ++ replicate (Z.to_nat length' - length buf) 0 else buf.

(** The result, what is left to read, and the buffer after it; a section that is cut off is
    read to the end of the input. *)
Definition ld_read (reader buf : bytes) : res car_error (option bytes) * bytes * bytes :=
  match read_varint reader with
  | Varint_Ok n reader =>
      if MAX_ALLOC <? n then (Err (Car_LdReadTooLarge n), reader, buf)
      else
        let buf := grow n buf in
        if Z.of_nat (length reader) <? n then
          (Err (Car_Parsing "early eof"), [], reader ++ drop (length reader) buf)
        else
          let data := take (Z.to_nat n) reader in
          (Ok (Some data), drop (Z.to_nat n) reader, data ++ drop (Z.to_nat n) buf)
  | Varint_Eof => (Ok None, [], buf)
  | Varint_Err => (Err (Car_Parsing "varint"), [], buf)
  end.

Definition read_node (reader buf : bytes) : res car_error (option (Cid * bytes)) * bytes * bytes :=
  let '(r, reader, buf) := ld_read reader buf in
  (section ← r;
   match section with
   | Some b =>
       '(c, pos) ← ok_or (cid_read_at b) (Car_Parsing "cid");
       if pos <=? Z.of_nat (length b) then Ok (Some (c, drop (Z.to_nat pos) b)) else Panic
   | None => Ok None
   end, reader, buf).

(** ** Reader *)

Record CarReader := { cr_reader : bytes; cr_header : CarHeader; cr_buffer : bytes }.

Definition CarReader_new (reader : bytes) : res car_error CarReader :=
  let '(r, reader, buffer) := ld_read reader [] in
  section ← r;
  match section with
  | Some buf =>
      header ← CarHeader_decode buf;
      Ok {| cr_reader := reader; cr_header := header; cr_buffer := buffer |}
  | None => Err (Car_Parsing "failed to parse uvarint for header")
  end.

Definition next_block (r : CarReader) : res car_error (option (Cid * bytes)) * CarReader :=
  let '(x, reader, buffer) := read_node (cr_reader r) (cr_buffer r) in
  (x, {| cr_reader := reader; cr_header := cr_header r; cr_buffer := buffer |}).

(** The stream of the blocks; [None] is the lack of fuel. *)
Fixpoint car_stream (fuel : nat) (r : CarReader) : option (gen (Cid * bytes) car_error unit) :=
  match fuel with
  | O => None
  | S fuel =>
      let '(x, r) := next_block r in
      match x with
      | Ok (Some b) => match car_stream fuel r with Some (out, e) => Some (b :: out, e) | None => None end
      | Ok None => Some ([], Ok tt)
      | Err e => Some ([], Err e)
      | Panic => Some ([], Panic)
      end
  end.

(** ** Writer *)

Section writer.
Context {W : Type} (write_all : bytes → W → res car_error unit * W).

Record CarWriter := { cw_header : CarHeader; cw_writer : W; cw_is_header_written : bool }.

Definition CarWriter_new (header : CarHeader) (writer : W) : CarWriter :=
  {| cw_header := header; cw_writer := writer; cw_is_header_written := false |}.

(** Write the pieces one after the other until one fails. *)
Fixpoint write_pieces (pieces : list bytes) (w : W) : res car_error unit * W :=
  match pieces with
  | [] => (Ok tt, w)
  | b :: pieces =>
      match write_all b w with
      | (Ok _, w) => write_pieces pieces w
      | (e, w) => (e, w)
      end
  end.

Definition set_written (c : CarWriter) (w : W) (b : bool) : CarWriter :=
  {| cw_header := cw_header c; cw_writer := w; cw_is_header_written := b |}.

Definition write_header (c : CarWriter) : res car_error unit * CarWriter :=
  if cw_is_header_written c then (Ok tt, c)
  else
    match CarHeader_encode (cw_header c) with
    | Ok header_bytes =>
        match write_pieces [write_varint (Z.of_nat (length header_bytes)); header_bytes] (cw_writer c) with
        | (Ok _, w) => (Ok tt, set_written c w true)
        | (e, w) => (e, set_written c w false)
        end
    | Err e => (Err e, c)
    | Panic => (Panic, c)
    end.

Definition car_write (cid : Cid) (data : bytes) (c : CarWriter) : res car_error unit * CarWriter :=
  match write_header c with
  | (Ok _, c) =>
      let cid_buffer := cid_to_bytes cid in
      let len := Int.usize_add (Z.of_nat (length cid_buffer)) (Z.of_nat (length data)) in
      let '(r, w) := write_pieces [write_varint len; cid_buffer; data] (cw_writer c) in
      (r, set_written c w (cw_is_header_written c))
  | (e, c) => (e, c)
  end.

(** [finish] flushes and returns the writer. *)
Definition car_finish (flush : W → res car_error unit * W) (c : CarWriter) : res car_error W :=
  match flush (cw_writer c) with
  | (Ok _, w) => Ok w
  | (Err e, _) => Err e
  | (Panic, _) => Panic
  end.

(** Blocks written one after the other until one fails *)
Fixpoint car_write_all (blocks : list (Cid * bytes)) (c : CarWriter) : res car_error unit * CarWriter :=
  match blocks with
  | [] => (Ok tt, c)
  | (cid, data) :: blocks =>
      match car_write cid data c with
      | (Ok _, c) => car_write_all blocks c
      | (e, c) => (e, c)
      end
  end.
End writer.
End car.
