(* ===== verification/CarFacts.v ===== *)
(** * Theorems on CAR archives

    An archive is read back as it was written, a cut archive gives only blocks that were
    written, and reading ends. *)

From stdpp Require Import prelude strings list gmap.
From Stdlib Require Import ZArith Lia.
From S2P Require Import Prelude Cids Car.
Local Open Scope Z_scope.

Section facts.
Context `{CarLibLaws}.

(** ** What an archive looks like *)

Definition section_of (b : bytes) : bytes := write_varint (Z.of_nat (length b)) ++ b.
Definition block_section (b : Cid * bytes) : bytes := section_of (cid_to_bytes b.1 ++ b.2).
Definition sections (blocks : list (Cid * bytes)) : bytes := mjoin (block_section <$> blocks).
(** Sections that the reader accepts *)
Definition small (b : bytes) : Prop := Z.of_nat (length b) ≤ MAX_ALLOC.
Definition small_block (b : Cid * bytes) : Prop := small (cid_to_bytes b.1 ++ b.2).

Lemma small_u64 b : small b → Int.in_u 64 (Z.of_nat (length b)).
Proof. unfold small, MAX_ALLOC, Int.in_u. lia. Qed.

Lemma ld_read_section b r buf : small b →
  ∃ buf', ld_read (section_of b ++ r) buf = (Ok (Some b), r, buf').
Proof.
  intros Hb. unfold ld_read, section_of. rewrite <-app_assoc, varint_write_read by by apply small_u64.
  rewrite (proj2 (Z.ltb_ge _ _)) by exact Hb.
  rewrite (proj2 (Z.ltb_ge _ _)) by (rewrite length_app; lia).
  rewrite Nat2Z.id, take_app_length, drop_app_length. by eexists.
Qed.

Lemma read_node_block b r buf : small_block b →
  ∃ buf', read_node (block_section b ++ r) buf = (Ok (Some b), r, buf').
Proof.
  intros Hb. destruct (ld_read_section _ r buf Hb) as [buf' E]. exists buf'. unfold read_node, block_section.
  rewrite E. destruct b as [c d]. cbn [fst snd mbind res_bind]. rewrite cid_read_written. cbn [ok_or mbind res_bind].
  rewrite (proj2 (Z.leb_le _ _)) by (rewrite length_app; lia). by rewrite Nat2Z.id, drop_app_length.
Qed.

(** A section that is cut off: inside the length it is the end, inside the data an error. *)
Lemma ld_read_cut b p q buf : small b → section_of b = p ++ q → q ≠ [] →
  ∃ r buf', ld_read p buf = (r, [], buf') ∧ (r = Ok None ∨ ∃ e, r = Err e).
Proof.
  intros Hb Hs Hq. unfold section_of in Hs. apply app_eq_app in Hs as (k & [[Ev Eb]|[Ev Eb]]).
  - destruct (decide (k = [])) as [->|Hk].
    + rewrite app_nil_r in Ev. subst p. simpl in Eb. subst b. unfold ld_read.
      rewrite <-(app_nil_r (write_varint _)), varint_write_read by by apply small_u64.
      rewrite (proj2 (Z.ltb_ge _ _)) by exact Hb. rewrite (proj2 (Z.ltb_lt _ _)).
      2:{ destruct q; simpl; [done|lia]. } eexists _, _. split; [done|]. right. by eexists.
    + unfold ld_read. rewrite (varint_cut _ p k (small_u64 b Hb) Ev Hk). eexists _, _. split; [done|]. by left.
  - subst p b. unfold ld_read. rewrite varint_write_read by by apply small_u64.
    rewrite (proj2 (Z.ltb_ge _ _)) by exact Hb. rewrite (proj2 (Z.ltb_lt _ _)).
    2:{ rewrite length_app. destruct q; simpl; [done|lia]. } eexists _, _. split; [done|]. right. by eexists.
Qed.

Lemma read_node_cut b p q buf : small_block b → block_section b = p ++ q → q ≠ [] →
  ∃ r buf', read_node p buf = (r, [], buf') ∧ (r = Ok None ∨ ∃ e, r = Err e).
Proof.
  intros Hb Hs Hq. destruct (ld_read_cut _ _ _ buf Hb Hs Hq) as (r & buf' & E & Hr). unfold read_node. rewrite E.
  eexists _, _. split; [done|]. destruct Hr as [->|[e ->]]; [by left|]. right. by exists e.
Qed.

(** Nothing can be read at the end. *)
Lemma read_node_end buf : read_node [] buf = (Ok None, [], buf).
Proof.
  assert (Int.in_u 64 0) as H0' by (unfold Int.in_u; lia).
  unfold read_node, ld_read. rewrite (varint_cut 0 [] (write_varint 0) H0' eq_refl); [done|].
  intros E. pose proof (varint_write_read 0 [] H0') as Hr. rewrite E in Hr.
  apply varint_consumes in Hr as [_ Hr]. simpl in Hr. lia.
Qed.

(** ** Reading *)

Definition reader_at (rest : bytes) (h : CarHeader) (buf : bytes) : CarReader :=
  {| cr_reader := rest; cr_header := h; cr_buffer := buf |}.

Lemma next_block_of rest h buf :
  next_block (reader_at rest h buf) = let '(x, rest, buf) := read_node rest buf in (x, reader_at rest h buf).
Proof. done. Qed.

Lemma car_stream_sections blocks fuel h buf : Forall small_block blocks → (length blocks < fuel)%nat →
  car_stream fuel (reader_at (sections blocks) h buf) = Some (blocks, Ok tt).
Proof.
  intros Hb. revert fuel buf. induction Hb as [|b blocks Hb Hbs IH]; intros [|fuel] buf Hf; simpl in Hf; try lia;
    cbn [car_stream]; rewrite next_block_of.
  - by rewrite read_node_end.
  - unfold sections. rewrite fmap_cons, mjoin_cons. destruct (read_node_block b (sections blocks) buf Hb) as [buf' E].
    unfold sections in E. rewrite E. cbv beta iota zeta. fold (sections blocks). by rewrite IH by lia.
Qed.

(** Any beginning of the sections gives a beginning of the blocks. *)
Lemma car_stream_cut blocks fuel h buf p q : Forall small_block blocks → (length blocks < fuel)%nat →
  sections blocks = p ++ q →
  ∃ out r, car_stream fuel (reader_at p h buf) = Some (out, r) ∧ out `prefix_of` blocks ∧ r ≠ Panic.
Proof.
  intros Hb. revert fuel buf p. induction Hb as [|b blocks Hb Hbs IH]; intros [|fuel] buf p Hf Hs; simpl in Hf; try lia;
    cbn [car_stream]; rewrite next_block_of.
  { apply eq_sym, app_eq_nil in Hs as [-> ->]. rewrite read_node_end. by exists [], (Ok tt). }
  unfold sections in Hs. rewrite fmap_cons, mjoin_cons in Hs. fold (sections blocks) in Hs.
  apply app_eq_app in Hs as (k & [[Eb Eq]|[Ep Eq]]).
  - destruct (decide (k = [])) as [->|Hk].
    + rewrite app_nil_r in Eb. simpl in Eq. subst p q. rewrite <-(app_nil_r (block_section b)).
      destruct (read_node_block b [] buf Hb) as [buf' ->].
      destruct (IH fuel buf' [] ltac:(lia) eq_refl) as (out & r & E & Hp & Hr). rewrite E.
      exists (b :: out), r. split; [done|]. split; [by apply prefix_cons|done].
    + destruct (read_node_cut b p k buf Hb Eb Hk) as (r & buf' & -> & [->|[e ->]]);
        eexists [], _; (split; [done|]; split; [apply prefix_nil|done]).
  - subst p. destruct (read_node_block b k buf Hb) as [buf' ->].
    destruct (IH fuel buf' k ltac:(lia) Eq) as (out & r & E & Hp & Hr). rewrite E.
    exists (b :: out), r. split; [done|]. split; [by apply prefix_cons|done].
Qed.

(** Every read of a section consumes input or ends the stream. *)
Lemma read_node_consumes rest buf b rest' buf' :
  read_node rest buf = (Ok (Some b), rest', buf') → (length rest' < length rest)%nat.
Proof.
  unfold read_node, ld_read. destruct (read_varint rest) as [n r| |] eqn:E; try done.
  apply varint_consumes in E as [Hn Hl]. destruct (MAX_ALLOC <? n); [done|].
  destruct (Z.of_nat (length r) <? n); [done|]. intros [= _ <- _]. rewrite length_drop. lia.
Qed.

Lemma car_stream_ends fuel r : (length (cr_reader r) < fuel)%nat → ∃ g, car_stream fuel r = Some g.
Proof.
  revert r. induction fuel as [|fuel IH]; intros r Hf; [lia|]. cbn [car_stream]. unfold next_block.
  destruct (read_node (cr_reader r) (cr_buffer r)) as [[[[b|]|e|] rest] buf] eqn:E; [|by eexists..].
  apply read_node_consumes in E.
  destruct (IH {| cr_reader := rest; cr_header := cr_header r; cr_buffer := buf |}) as [[out x] Hx]; [simpl; lia|].
  rewrite Hx. by eexists.
Qed.

(** ** Writing *)

Section writing.
Context {W : Type} (write_all : bytes → W → res car_error unit * W) (written : W → bytes).
Context (write_all_ok : ∀ b w w', write_all b w = (Ok tt, w') → written w' = written w ++ b).

Lemma write_pieces_ok ps w w' : write_pieces write_all ps w = (Ok tt, w') → written w' = written w ++ mjoin ps.
Proof.
  revert w. induction ps as [|b ps IH]; intros w; cbn [write_pieces].
  { intros [= <-]. by rewrite app_nil_r. }
  destruct (write_all b w) as [[[]|e|] w1] eqn:E; try done. intros Hw. rewrite (IH w1 Hw), (write_all_ok _ _ _ E).
  by rewrite mjoin_cons, app_assoc.
Qed.

(** What is in the sink once the header is written *)
Definition header_bytes (h : CarHeader) (b : bytes) : Prop := CarHeader_encode h = Ok b.

Lemma write_header_ok c c' : write_header write_all c = (Ok tt, c') →
  cw_header c' = cw_header c ∧ cw_is_header_written c' = true ∧
  ((cw_is_header_written c = true ∧ c' = c) ∨
   (cw_is_header_written c = false ∧
    ∃ b, header_bytes (cw_header c) b ∧ written (cw_writer c') = written (cw_writer c) ++ section_of b)).
Proof.
  unfold write_header. destruct (cw_is_header_written c) eqn:Ew.
  { intros [= <-]. split_and!; try done. by left. }
  destruct (CarHeader_encode (cw_header c)) as [b| |] eqn:Eb; try done.
  destruct (write_pieces write_all _ (cw_writer c)) as [[[]|e|] w] eqn:E; try done. intros [= <-].
  split_and!; try done. right. split; [done|]. exists b. split; [done|]. cbn. rewrite (write_pieces_ok _ _ _ E).
  unfold section_of. by rewrite !mjoin_cons, app_nil_r.
Qed.

Lemma car_write_ok cid data c c' : small_block (cid, data) → car_write write_all cid data c = (Ok tt, c') →
  cw_header c' = cw_header c ∧ cw_is_header_written c' = true ∧
  ∃ pre, written (cw_writer c') = written (cw_writer c) ++ pre ++ block_section (cid, data) ∧
    if cw_is_header_written c then pre = [] else ∃ b, header_bytes (cw_header c) b ∧ pre = section_of b.
Proof.
  intros Hs. unfold car_write. destruct (write_header write_all c) as [[[]|e|] c1] eqn:E1; try done.
  apply write_header_ok in E1 as (Hh & Hw & Hcase).
  destruct (write_pieces write_all _ (cw_writer c1)) as [r w] eqn:E2. intros [= -> <-]. cbn. split; [done|]. split; [done|].
  apply write_pieces_ok in E2. unfold Int.usize_add in E2.
  rewrite Int.wrap_id in E2.
  2:{ apply small_u64 in Hs. cbn in Hs. by rewrite length_app, Nat2Z.inj_add in Hs. }
  rewrite E2, !mjoin_cons. cbn [mjoin]. rewrite app_nil_r.
  unfold block_section, section_of; cbn [fst snd]. rewrite length_app, Nat2Z.inj_add.
  destruct Hcase as [[-> ->]|[-> (b & Hb & ->)]].
  - by exists [].
  - exists (section_of b). rewrite <-!app_assoc. split; [done|]. by exists b.
Qed.

Lemma car_write_all_ok blocks c c' : Forall small_block blocks → car_write_all write_all blocks c = (Ok tt, c') →
  blocks ≠ [] → ∃ pre, written (cw_writer c') = written (cw_writer c) ++ pre ++ sections blocks ∧
    if cw_is_header_written c then pre = [] else ∃ b, header_bytes (cw_header c) b ∧ pre = section_of b.
Proof.
  intros Hs. revert c. induction Hs as [|[cid data] blocks Hb Hs IH]; intros c Hw Hne; [done|]. cbn [car_write_all] in Hw.
  destruct (car_write write_all cid data c) as [[[]|e|] c1] eqn:E; try done.
  apply car_write_ok in E as (Hh & Hw1 & pre & E & Hpre); [|done]. exists pre. split; [|done].
  unfold sections. rewrite fmap_cons, mjoin_cons. fold (sections blocks). destruct blocks as [|b2 blocks].
  { injection Hw as <-. rewrite E. by rewrite app_nil_r. }
  destruct (IH c1 Hw) as (pre2 & E2 & Hpre2); [done|]. rewrite Hw1 in Hpre2. subst pre2.
  by rewrite E2, E, <-!app_assoc.
Qed.

(** A sink that never fails takes every block if the header can be encoded. *)
Section total_sink.
Context (sink_total : ∀ b w, ∃ w', write_all b w = (Ok tt, w')).

Lemma write_pieces_total ps w : ∃ w', write_pieces write_all ps w = (Ok tt, w').
Proof using sink_total.
  revert w. induction ps as [|b ps IH]; intros w; cbn [write_pieces]; [by eexists|].
  destruct (sink_total b w) as [w' ->]. apply IH.
Qed.

Lemma car_write_all_total blocks c b : header_bytes (cw_header c) b → ∃ c', car_write_all write_all blocks c = (Ok tt, c').
Proof using sink_total.
  revert c. induction blocks as [|[cid data] blocks IH]; intros c Hb; cbn [car_write_all]; [by eexists|].
  assert (∃ c1, write_header write_all c = (Ok tt, c1) ∧ cw_header c1 = cw_header c) as (c1 & Hc1 & Eh).
  { unfold write_header. destruct (cw_is_header_written c); [by exists c|]. rewrite Hb.
    destruct (write_pieces_total [write_varint (Z.of_nat (length b)); b] (cw_writer c)) as [w ->]. by eexists. }
  unfold car_write. rewrite Hc1. edestruct write_pieces_total as [w ->]. apply IH. by rewrite <-Eh in Hb.
Qed.
End total_sink.
End writing.

(** A block above the limit is written like any other and refused by the reader. *)
Lemma large_block_refused b r buf :
  MAX_ALLOC < Z.of_nat (length (cid_to_bytes b.1 ++ b.2)) < 2 ^ 64 →
  (read_node (block_section b ++ r) buf).1.1 = Err (Car_LdReadTooLarge (Z.of_nat (length (cid_to_bytes b.1 ++ b.2)))).
Proof.
  intros Hl. unfold read_node, ld_read, block_section, section_of. rewrite <-app_assoc, varint_write_read.
  2:{ unfold Int.in_u, MAX_ALLOC in *. lia. }
  by rewrite (proj2 (Z.ltb_lt _ _)) by lia.
Qed.

(** Reading never panics. *)
Lemma read_node_no_panic rest buf : (read_node rest buf).1.1 ≠ Panic.
Proof.
  unfold read_node. destruct (ld_read rest buf) as [[r rest'] buf'] eqn:E. cbn.
  assert (r ≠ Panic) as Hr.
  { revert E. unfold ld_read. repeat case_match; by intros [= <- _ _]. }
  destruct r as [[b|]|e|]; cbn; try done. destruct (cid_read_at b) as [[c pos]|] eqn:Ec; [|done]. cbn.
  apply cid_read_inside in Ec. by rewrite (proj2 (Z.leb_le _ _)) by lia.
Qed.

Lemma car_stream_no_panic fuel r out x : car_stream fuel r = Some (out, x) → x ≠ Panic.
Proof.
  revert r out. induction fuel as [|fuel IH]; intros r out; [done|]. cbn [car_stream]. unfold next_block.
  pose proof (read_node_no_panic (cr_reader r) (cr_buffer r)) as Hn.
  destruct (read_node (cr_reader r) (cr_buffer r)) as [[[[b|]|e|] rest] buf]; cbn in Hn; try (by intros [= _ <-]).
  destruct (car_stream fuel _) as [[out' x']|] eqn:E; [|done]. intros [= _ <-]. by eapply IH.
Qed.

Lemma car_stream_length fuel r out x : car_stream fuel r = Some (out, x) → (length out ≤ length (cr_reader r))%nat.
Proof.
  revert r out x. induction fuel as [|fuel IH]; intros r out x; [done|]. cbn [car_stream]. unfold next_block.
  destruct (read_node (cr_reader r) (cr_buffer r)) as [[[[b|]|e|] rest] buf] eqn:En; try (intros [= <- _]; simpl; lia).
  apply read_node_consumes in En.
  destruct (car_stream fuel _) as [[out' x']|] eqn:E; [|done]. intros [= <- _]. apply IH in E. simpl in *. lia.
Qed.

(** A header that the reader accepts *)
Definition header_ok (h : CarHeader) : Prop :=
  match h with CarHeader_V1 v => car_roots v ≠ [] ∧ car_version v = 1 end.

Lemma header_read h b : header_ok h → header_bytes h b → CarHeader_decode b = Ok h.
Proof.
  destruct h as [v]. intros [Hr Hv]. unfold header_bytes, CarHeader_encode, CarHeader_decode.
  destruct (header_encode v) as [b'|] eqn:E; [|done]. intros [= ->]. rewrite (header_roundtrip _ _ E). cbn.
  rewrite (bool_decide_eq_false_2 _ Hr). cbn. by rewrite Hv.
Qed.

Lemma CarReader_new_written h b rest : header_ok h → header_bytes h b → small b →
  ∃ buf, CarReader_new (section_of b ++ rest) = Ok (reader_at rest h buf).
Proof.
  intros Hh Hb Hs. unfold CarReader_new. destruct (ld_read_section b rest [] Hs) as [buf E]. rewrite E. cbn.
  rewrite (header_read h b Hh Hb). by eexists.
Qed.

Lemma CarReader_new_cut b p q : small b → section_of b = p ++ q → q ≠ [] → ∃ e, CarReader_new p = Err e.
Proof.
  intros Hs E Hq. unfold CarReader_new. destruct (ld_read_cut b p q [] Hs E Hq) as (r & buf & -> & [->|[e ->]]); by eexists.
Qed.
End facts.

Section theorems.
Context `{CarLibLaws}.
Context {W : Type} (write_all : bytes → W → res car_error unit * W) (written : W → bytes).

Lemma written_archive_reads h w blocks c' fuel :
  (∀ b w w', write_all b w = (Ok tt, w') → written w' = written w ++ b) → written w = [] →
  header_ok h → (∀ b, header_bytes h b → small b) → Forall small_block blocks → blocks ≠ [] →
  car_write_all write_all blocks (CarWriter_new h w) = (Ok tt, c') → (length blocks < fuel)%nat →
  ∃ r, CarReader_new (written (cw_writer c')) = Ok r ∧ cr_header r = h ∧ car_stream fuel r = Some (blocks, Ok tt).
Proof.
  intros Hok Hw Hh Hsm Hs Hne Hrun Hf.
  destruct (car_write_all_ok write_all written Hok blocks _ c' Hs Hrun Hne) as (pre & E & b & Hb & ->).
  cbn in E, Hb. rewrite E, Hw. simpl. destruct (CarReader_new_written h b (sections blocks) Hh Hb (Hsm b Hb)) as [buf ->].
  eexists. split; [done|]. split; [done|]. by apply car_stream_sections.
Qed.

(** An archive written to an empty sink is read back with its header and exactly its blocks, in order, if
    no section is above the limit of the reader. *)
Theorem car_write_read h w blocks c' fuel :
  (∀ b w w', write_all b w = (Ok tt, w') → written w' = written w ++ b) → written w = [] →
  header_ok h → (∀ b, header_bytes h b → small b) → Forall small_block blocks → blocks ≠ [] →
  car_write_all write_all blocks (CarWriter_new h w) = (Ok tt, c') → (length blocks < fuel)%nat →
  ∃ r, CarReader_new (written (cw_writer c')) = Ok r ∧ cr_header r = h ∧ car_stream fuel r = Some (blocks, Ok tt).
Proof. apply written_archive_reads. Qed.

(** An archive that was cut off anywhere is either refused when it is opened or gives a beginning of the
    blocks that were written, never another block, and then ends or fails without a panic. *)
Theorem car_cut_safe h w blocks c' fuel p q :
  (∀ b w w', write_all b w = (Ok tt, w') → written w' = written w ++ b) → written w = [] →
  header_ok h → (∀ b, header_bytes h b → small b) → Forall small_block blocks → blocks ≠ [] →
  car_write_all write_all blocks (CarWriter_new h w) = (Ok tt, c') → (length blocks < fuel)%nat →
  written (cw_writer c') = p ++ q →
  (∃ e, CarReader_new p = Err e) ∨
  ∃ r out x, CarReader_new p = Ok r ∧ cr_header r = h ∧ car_stream fuel r = Some (out, x) ∧ out `prefix_of` blocks ∧ x ≠ Panic.
Proof.
  intros Hok Hw Hh Hsm Hs Hne Hrun Hf Hcut.
  destruct (car_write_all_ok write_all written Hok blocks _ c' Hs Hrun Hne) as (pre & E & b & Hb & ->).
  cbn in E, Hb. rewrite E, Hw in Hcut. simpl in Hcut. specialize (Hsm b Hb).
  apply app_eq_app in Hcut as (k & [[Ep Eq]|[Ep Eq]]).
  - destruct (decide (k = [])) as [->|Hk]; [|left; by eapply CarReader_new_cut].
    rewrite app_nil_r in Ep. subst p. right. rewrite <-(app_nil_r (section_of b)).
    destruct (CarReader_new_written h b [] Hh Hb Hsm) as [buf ->].
    destruct (car_stream_cut blocks fuel h buf [] (sections blocks) Hs Hf eq_refl) as (out & x & Ex & Hp & Hx). eauto 10.
  - subst p. right. destruct (CarReader_new_written h b k Hh Hb Hsm) as [buf ->].
    destruct (car_stream_cut blocks fuel h buf k q Hs Hf Eq) as (out & x & Ex & Hp & Hx). eauto 10.
Qed.
End theorems.

Section total.
Context `{CarLibLaws}.

(** Whatever the bytes are, an archive that can be opened is read to an end or to an error, never to a
    panic, and gives at most one block for each byte. *)
Theorem car_reader_total r :
  ∃ out x, car_stream (S (length (cr_reader r))) r = Some (out, x) ∧ x ≠ Panic ∧
    (length out ≤ length (cr_reader r))%nat.
Proof.
  destruct (car_stream_ends (S (length (cr_reader r))) r) as [[out x] E]; [lia|]. exists out, x.
  split; [done|]. split; [by eapply car_stream_no_panic|by eapply car_stream_length].
Qed.
End total.

(** ** A concrete archive format *)

(** CIDs, integers and the parts of a header are one byte each. *)
Module CarToy.
Definition ids : Ids := {| Cid := Z; PeerId := nat |}.
#[export] Existing Instance ids.

Definition multiformats : Multiformats := {|
  Multihash := list Z; Code := unit; Version := unit;
  mh_code := λ _, 0; mh_digest := λ h, h; Sha2_256 := tt;
  code_try_from := λ _, Some tt; code_into := λ _, 0; code_digest := λ _ d, d;
  version_try_from := λ _, Some tt; version_into := λ _, 1;
  cid_version := λ _, tt; cid_codec := λ _, 85; cid_hash := λ c : @Cid ids, [c : Z];
  cid_new := λ _ _ _, None; cid_new_v0 := λ _, None;
  cid_to_bytes := λ c : @Cid ids, [c : Z]; cid_try_from := λ _, None;
  varint_encode_u64 := λ n, [n];
  varint_decode_u64 := λ b, match b with n :: r => Some (n, r) | [] => None end;
  varint_decode_usize := λ b, match b with n :: r => Some (n, r) | [] => None end
|}.
#[export] Existing Instance multiformats.

Definition lib : CarLib := {|
  read_varint := λ b, match b with
                      | [] => Varint_Eof
                      | n :: r => if 0 <=? n then Varint_Ok n r else Varint_Err
                      end;
  write_varint := λ n, [n];
  header_decode := λ b, match b with
                        | v :: roots => Some {| car_roots := (roots : list (@Cid ids)); car_version := v |}
                        | [] => None
                        end;
  header_encode := λ h, Some (car_version h :: (car_roots h : list Z));
  cid_read_at := λ b, match b with c :: _ => Some ((c : @Cid ids), 1) | [] => None end
|}.
#[export] Existing Instance lib.

#[export] Instance lib_laws : CarLibLaws.
Proof.
  split.
  - intros n r [Hn _]. cbn. by rewrite (proj2 (Z.leb_le _ _)).
  - intros n [|x p] q Hn E Hq; [done|]. injection E as _ E. symmetry in E. by apply app_eq_nil in E as [_ ->].
  - intros [|x b] n r; cbn; [done|]. destruct (Z.leb_spec 0 x); [|done]. intros [= <- <-]. simpl. lia.
  - intros [roots v] b [= <-]. done.
  - done.
  - intros [|x b] c pos; [done|]. intros [= _ <-]. simpl. lia.
Qed.

Definition append (b w : bytes) : res car_error unit * bytes := (Ok tt, w ++ b).
Lemma append_ok b w w' : append b w = (Ok tt, w') → w' = w ++ b.
Proof. by intros [= <-]. Qed.

Definition header : CarHeader := CarHeader_new_v1 [(7 : @Cid ids)].
Definition archive : list (@Cid ids * bytes) := [((7 : @Cid ids), [1; 2]); ((8 : @Cid ids), [])].
Definition final : CarWriter := (car_write_all append archive (CarWriter_new header [])).2.

Lemma header_small b : header_bytes header b → small b.
Proof. intros [= <-]. unfold small, MAX_ALLOC. simpl. lia. Qed.

Lemma archive_small : Forall small_block archive.
Proof. repeat constructor; unfold small_block, small, MAX_ALLOC; simpl; lia. Qed.

Lemma car_write_read_witness :
  ∃ r, CarReader_new (cw_writer final) = Ok r ∧ cr_header r = header ∧ car_stream 3 r = Some (archive, Ok tt).
Proof.
  apply (car_write_read append (λ w, w) header [] archive final 3); try done;
    [exact append_ok|exact header_small|exact archive_small|simpl; lia].
Defined.

Lemma car_cut_safe_witness :
  (∃ e, CarReader_new [2; 1; 7; 3; 7; 1] = Err e) ∨
  ∃ r out x, CarReader_new [2; 1; 7; 3; 7; 1] = Ok r ∧ cr_header r = header ∧ car_stream 3 r = Some (out, x) ∧
    out `prefix_of` archive ∧ x ≠ Panic.
Proof.
  apply (car_cut_safe append (λ w, w) header [] archive final 3 [2; 1; 7; 3; 7; 1] [2; 1; 8]); try done;
    [exact append_ok|exact header_small|exact archive_small|simpl; lia].
Defined.

Lemma car_reader_total_witness :
  ∃ out x, car_stream 5 (reader_at [2; 7; 1; 9] header []) = Some (out, x) ∧ x ≠ Panic ∧ (length out ≤ 4)%nat.
Proof. exact (car_reader_total (reader_at [2; 7; 1; 9] header [])). Defined.

(** Without a block the header is not written either, and what is written is no archive. *)
Lemma empty_archive_unreadable :
  (cw_writer (car_write_all append [] (CarWriter_new header [])).2,
   CarReader_new (cw_writer (car_write_all append [] (CarWriter_new header [])).2))
  = ([], Err (Car_Parsing "failed to parse uvarint for header")).
Proof. reflexivity. Qed.
End CarToy.
