(* ===== verification/Gateway.v ===== *)
(** * The gateway: headers, formats and names

    Models the parts of [iroh-gateway] that compute on text: [headers.rs], [response.rs],
    [bad_bits.rs], [handler_params.rs] and [text.rs].  Strings are their bytes; the crates
    for headers, media types, hashing and bases are the class [GatewayLib]. *)

From stdpp Require Import prelude strings list gmap.
From Stdlib Require Import ZArith Lia.
From S2P Require Import Prelude Cids Bits Unixfs Chunker Paths Resolver.
Local Open Scope Z_scope.

Class GatewayLib `{Multiformats} := {
  (** [HeaderValue::from_str] and [HeaderValue::to_str] *)
  header_value : bytes → option bytes;
  header_str : bytes → option bytes;
  (** [str::to_lowercase], [mime_guess::from_path], [Sha256] *)
  to_lowercase : bytes → bytes;
  mime_guess : bytes → option bytes;
  sha256 : bytes → bytes;
  (** [Cid::into_v1] and [multibase::encode(Base36Lower, _)] *)
  cid_into_v1 : Cid → option Cid;
  base36_lower : bytes → bytes;
  (** [version_and_template_hash] and the time in text *)
  version_template_hash : bytes;
  now_text : bytes
}.

(** ** Header maps *)

(** The values of each name, the first one first; names are in lower case. *)
Abbreviation HeaderMap := (gmap bytes (list bytes)).
Definition hm_get (name : bytes) (h : HeaderMap) : option bytes :=
  match h !! name with Some (v :: _) => Some v | _ => None end.
Definition hm_insert (name v : bytes) (h : HeaderMap) : HeaderMap := <[name := [v]]> h.

Definition CONTENT_TYPE : bytes := str "content-type".
Definition CONTENT_DISPOSITION : bytes := str "content-disposition".
Definition CONTENT_RANGE : bytes := str "content-range".
Definition CONTENT_LENGTH : bytes := str "content-length".
Definition ACCEPT_RANGES : bytes := str "accept-ranges".
Definition LAST_MODIFIED : bytes := str "last-modified".
Definition CACHE_CONTROL : bytes := str "cache-control".
Definition ETAG : bytes := str "etag".
Definition HEADER_X_IPFS_ROOTS : bytes := str "x-ipfs-roots".
Definition HEADER_X_CONTENT_TYPE_OPTIONS : bytes := str "x-content-type-options".
Definition VAL_IMMUTABLE_MAX_AGE : bytes := str "public, max-age=31536000, immutable".

Definition QUOTE : Z := 34.
Definition COMMA : Z := 44.
Definition DASH : Z := 45.

(** [s.starts_with(p)] and [s.contains(p)] *)
Definition starts_with_str (p s : bytes) : bool := bool_decide (is_Some (strip_prefix p s)).
Fixpoint contains_str (p s : bytes) : bool :=
  starts_with_str p s || match s with [] => false | _ :: s => contains_str p s end.

(** [s.splitn(2, sep)]: the part before the first separator, and the rest if there is one *)
Fixpoint split_once (sep : Z) (s : bytes) : bytes * option bytes :=
  match s with
  | [] => ([], None)
  | b :: s => if b =? sep then ([], Some s) else let '(a, r) := split_once sep s in (b :: a, r)
  end.

(** [s.trim_end_matches] of a quote *)
Fixpoint trim_end_quotes (s : bytes) : bytes :=
  match s with
  | [] => []
  | b :: s => match trim_end_quotes s with
              | [] => if b =? QUOTE then [] else [b]
              | s => b :: s
              end
  end.

Record Range := { range_start : Z; range_end : Z }.

(** ** Entity tags *)

(** The scan for the closing quote: the tag up to it and the rest *)
Fixpoint scan_quoted (s : bytes) : option (bytes * bytes) :=
  match s with
  | [] => None
  | c :: s =>
      if (c =? 0x21) || ((0x23 <=? c) && (c <? 0x7E)) || (0x80 <=? c) then
        match scan_quoted s with Some (a, r) => Some (c :: a, r) | None => None end
      else if c =? QUOTE then Some ([c], s)
      else None
  end.

Definition scan_etag (buf : bytes) : bytes * bytes :=
  let s := trim buf in
  let start := if starts_with_str (str "W/") s then 2%nat else 0%nat in
  if (length s - start <? 2)%nat || negb (bool_decide (s !! start = Some QUOTE)) then ([], [])
  else match scan_quoted (drop (S start) s) with
       | Some (a, r) => (take (S start) s ++ a, r)
       | None => ([], [])
       end.

Definition etag_weak_match (etag cid_etag : bytes) : bool :=
  bool_decide (trim_start_matches (str "W/") etag = trim_start_matches (str "W/") cid_etag).

(** The loop of [etag_matches]; [None] is the lack of fuel. *)
Fixpoint etag_loop (fuel : nat) (cid_etag buf : bytes) : option bool :=
  match fuel with
  | O => None
  | S fuel =>
      match buf with
      | [] => Some false
      | b :: rest =>
          if b =? COMMA then etag_loop fuel cid_etag rest
          else if b =? 42 then Some true
          else
            let '(etag, remain) := scan_etag buf in
            match etag with
            | [] => Some false
            | _ => if etag_weak_match etag cid_etag then Some true else etag_loop fuel cid_etag remain
            end
      end
  end.

(** Every turn shortens the buffer. *)
Definition etag_matches (inm cid_etag : bytes) : bool :=
  default false (etag_loop (S (length inm)) cid_etag (trim inm)).

(** ** Ranges *)

Definition get_filename (content_path : bytes) : bytes :=
  default [] (last (filter (λ s, s ≠ []) (split_on (Z.eqb SLASH) content_path))).

Section gateway.
Context `{GatewayLib} `{!PathText}.

(** [headers.insert(name, HeaderValue::from_str(&v).unwrap())] *)
Definition insert_str (name v : bytes) (h : HeaderMap) : res string HeaderMap :=
  v ← unwrap (header_value v); Ok (hm_insert name v h).

Definition parse_range_header (range : bytes) : option Range :=
  range ← header_str range;
  let '(unit_, rest) := split_once 61 range in
  if negb (bool_decide (unit_ = str "bytes")) then None
  else
    rest ← rest;
    let '(start, fin) := split_once DASH rest in
    start ← parse_usize start;
    fin ← fin;
    fin ← parse_usize fin;
    if (fin <=? start) || (fin =? 0) then None
    else Some {| range_start := start; range_end := Int.wrap 64 (fin + 1) |}.

Definition add_user_headers (h user_headers : HeaderMap) : HeaderMap := user_headers ∪ h.

Definition add_content_type_headers (h : HeaderMap) (name : bytes) (content_sniffed_mime : option bytes)
    : res string HeaderMap :=
  let content_type := match mime_guess name with
                      | Some ct => ct
                      | None => default [] content_sniffed_mime
                      end in
  let content_type := if starts_with_str (str "text/") content_type && negb (contains_str (str "charset") content_type)
                      then content_type ++ str "; charset=utf-8" else content_type in
  let content_type := if starts_with_str (str "text/html") content_type then str "text/html" else content_type in
  match content_type with [] => Ok h | _ => insert_str CONTENT_TYPE content_type h end.

Definition set_content_disposition_headers (h : HeaderMap) (filename disposition : bytes) : res string HeaderMap :=
  insert_str CONTENT_DISPOSITION (disposition ++ str "; filename=" ++ filename) h.

Definition add_content_disposition_headers (h : HeaderMap) (filename : bytes) (content_path : Path)
    (should_download : bool) : res string (HeaderMap * bytes) :=
  let name := match filename with [] => get_filename (Path_fmt content_path) | _ => filename end in
  match name with
  | [] => Ok (h, name)
  | _ =>
      h ← set_content_disposition_headers h name (if should_download then str "attachment" else str "inline");
      Ok (h, name)
  end.

Definition add_content_range_headers (h : HeaderMap) (range : Range) (size : option Z) : res string HeaderMap :=
  if range_end range =? 0 then Ok h
  else insert_str CONTENT_RANGE
         (str "bytes " ++ usize_to_string (range_start range) ++ str "-" ++ usize_to_string (range_end range - 1)
          ++ str "/" ++ match size with Some size => usize_to_string size | None => str "*" end) h.

Definition add_cache_control_headers `{!IpldLib} (h : HeaderMap) (metadata : Metadata) : res string HeaderMap :=
  if bool_decide (path_typ (md_path metadata) = PathType_Ipns) then insert_str LAST_MODIFIED now_text h
  else Ok (hm_insert CACHE_CONTROL VAL_IMMUTABLE_MAX_AGE h).

Definition add_content_length_header (h : HeaderMap) (content_length : option Z) : res string HeaderMap :=
  match content_length with
  | Some n => insert_str CONTENT_LENGTH (usize_to_string n) h
  | None => Ok h
  end.

Definition add_ipfs_roots_headers (h : HeaderMap) (metadata : Metadata) : res string HeaderMap :=
  let roots := mjoin ((λ rcid, cid_to_str rcid ++ [COMMA]) <$> md_resolved_path metadata) in
  insert_str HEADER_X_IPFS_ROOTS (removelast roots) h.

Definition set_etag_headers (h : HeaderMap) (etag : bytes) : res string HeaderMap := insert_str ETAG etag h.

Definition add_etag_range (h : HeaderMap) (range : Range) : res string HeaderMap :=
  match h !! ETAG with
  | Some _ =>
      v ← unwrap (hm_get ETAG h);
      etag ← unwrap (header_str v);
      insert_str ETAG (trim_end_quotes etag ++ str "." ++ usize_to_string (range_start range) ++ str "-"
                       ++ usize_to_string (Int.wrap 64 (range_end range - 1)) ++ [QUOTE]) h
  | None => Ok h
  end.

(** ** Response formats *)

Inductive ResponseFormat := Format_Raw | Format_Car | Format_Fs (s : bytes).

Definition ResponseFormat_try_from (s : bytes) : res string ResponseFormat :=
  let rf := to_lowercase s in
  if decide (rf = str "application/vnd.ipld.raw" ∨ rf = str "raw") then Ok Format_Raw
  else if decide (rf = str "application/vnd.ipld.car" ∨ rf = str "car") then Ok Format_Car
  else if decide (rf = str "fs" ∨ rf = []) then Ok (Format_Fs [])
  else if starts_with_str (str "application/vnd.ipld.") rf then Ok (Format_Fs rf)
  else Err "unsuported format"%string.

Definition ResponseFormat_write_headers (f : ResponseFormat) (h : HeaderMap) : HeaderMap :=
  match f with
  | Format_Raw =>
      hm_insert HEADER_X_CONTENT_TYPE_OPTIONS (str "nosniff") (hm_insert CONTENT_TYPE (str "application/vnd.ipld.raw") h)
  | Format_Car =>
      hm_insert ACCEPT_RANGES (str "none")
        (hm_insert HEADER_X_CONTENT_TYPE_OPTIONS (str "nosniff")
           (hm_insert CONTENT_TYPE (str "application/vnd.ipld.car; version=1") h))
  | Format_Fs _ => h
  end.

Definition get_extension (f : ResponseFormat) : bytes :=
  match f with
  | Format_Raw => str "bin"
  | Format_Car => str "car"
  | Format_Fs [] => []
  | Format_Fs s => default [] (last (split_on (Z.eqb dot) s))
  end.

(** The loop over the values of the Accept header *)
Fixpoint format_of_accept (values : list bytes) : res string ResponseFormat :=
  match values with
  | [] => Ok (Format_Fs [])
  | v :: values =>
      let v := trim v in
      if starts_with_str (str "application/vnd.ipld.") v then ResponseFormat_try_from v else format_of_accept values
  end.

Definition try_from_headers (h : HeaderMap) : res string ResponseFormat :=
  match hm_get (str "accept") h with
  | Some v => v ← unwrap (header_str v); format_of_accept (split_on (Z.eqb COMMA) v)
  | None => Ok (Format_Fs [])
  end.

Definition get_response_format (request_headers : HeaderMap) (query_format : option bytes) : res string ResponseFormat :=
  let from_headers := match try_from_headers request_headers with Err _ => Ok (Format_Fs []) | r => r end in
  match query_format with
  | Some (b :: s) => match ResponseFormat_try_from (b :: s) with Ok f => Ok f | _ => from_headers end
  | _ => from_headers
  end.

Definition get_etag (cid : CidOrDomain) (response_format : option ResponseFormat) : bytes :=
  match cid with
  | Root_Cid cid =>
      let suffix := match response_format with
                    | Some fmt => match get_extension fmt with [] => [] | ext => dot :: ext end
                    | None => []
                    end in
      [QUOTE] ++ cid_to_str cid ++ suffix ++ [QUOTE]
  | Root_Domain _ => []
  end.

Definition get_dir_etag (cid : CidOrDomain) : bytes :=
  match cid with
  | Root_Cid cid => [QUOTE] ++ str "Dir-" ++ version_template_hash ++ str "-CID-" ++ cid_to_str cid ++ [QUOTE]
  | Root_Domain _ => []
  end.

(** ** The deny list *)

Definition to_anchor (cid : Cid) (path : bytes) : res string bytes :=
  v1 ← unwrap (cid_into_v1 cid);
  Ok (sha256 (cid_to_str v1 ++ (if starts_with_str [SLASH] path then [] else [SLASH]) ++ path)).

Definition is_bad (denylist : list bytes) (cid : Cid) (path : bytes) : res string bool :=
  hash ← to_anchor cid path;
  Ok (bool_decide (hash ∈ denylist)).

(** ** Names in subdomains *)

(** [s.replace(from, to)] for one character *)
Definition replace_char (c : Z) (to s : bytes) : bytes := s ≫= λ b, if b =? c then to else [b].

Definition recode_path_to_inlined_dns_link (p : Path) : bytes :=
  match path_root p with
  | Root_Cid cid => match path_typ p with
                    | PathType_Ipfs => cid_to_str cid
                    | PathType_Ipns => base36_lower (cid_to_bytes cid)
                    end
  | Root_Domain domain => replace_char dot [DASH] (replace_char DASH [DASH; DASH] domain)
  end.

(** [s.replace("--", "-")] *)
Fixpoint undouble (s : bytes) : bytes :=
  match s with
  | [] => []
  | a :: s' => if a =? DASH then
                 match s' with
                 | b :: s'' => if b =? DASH then DASH :: undouble s'' else a :: undouble s'
                 | [] => [a]
                 end
               else a :: undouble s'
  end.

(** The characters between the first and the last; a dash alone becomes a dot. *)
Fixpoint middle_chars (a : Z) (l : bytes) : bytes :=
  match l with
  | b :: (c :: _) as t => (if (b =? DASH) && negb (a =? DASH) && negb (c =? DASH) then dot else b) :: middle_chars b t
  | _ => []
  end.

(** The host names it is used on are ASCII.  The last character is added whatever the length is. *)
Definition inlined_dns_link_to_dns_link (l : bytes) : bytes :=
  undouble (take 1 l ++ match l with a :: t => middle_chars a t | [] => [] end
            ++ match last l with Some c => [c] | None => [] end).

Record IpfsSubdomain := { sub_cid_or_domain : bytes; sub_scheme : bytes; sub_hostname : bytes }.

Definition IpfsSubdomain_try_from_str (value : bytes) : option IpfsSubdomain :=
  let '(cid_or_domain, rest) := split_once dot value in
  rest ← rest;
  let '(schema, hostname) := split_once dot rest in
  hostname ← hostname;
  if bool_decide (schema = ipns_str) || bool_decide (schema = ipfs_str)
  then Some {| sub_cid_or_domain := cid_or_domain; sub_scheme := schema; sub_hostname := hostname |}
  else None.
End gateway.
