(* ===== verification/GatewayFacts.v ===== *)
(** * Theorems on the text the gateway computes with

    The comparison of entity tags is the weak comparison of RFC 7232 over the list of a
    header, ranges are read as they are written, and a path survives the redirection to a
    subdomain. *)

From stdpp Require Import prelude strings list gmap.
From Stdlib Require Import ZArith Lia.
From S2P Require Import Prelude Cids Bits Unixfs Chunker ChunkerFacts Paths PathsFacts Resolver Gateway.
Local Open Scope Z_scope.

#[local] Arguments str : simpl never.

(** ** White space *)

Definition blank (b : Z) : bool := (b =? 32) || ((9 <=? b) && (b <=? 13)).

(** A byte that neither is nor starts nor ends white space *)
Definition inked (b : Z) : Prop := 33 ≤ b < 128.

Lemma white_at_inked b s : inked b → white_at (b :: s) = None.
Proof.
  intros [H1 H2]. cbn [white_at].
  rewrite (proj2 (Z.eqb_neq b 32)), (proj2 (Z.leb_gt b 13)), andb_false_r by lia. cbn [orb].
  destruct s as [|c s]; [done|]. rewrite (proj2 (Z.eqb_neq b 0xC2)) by lia. cbn [andb].
  destruct s as [|d s]; [done|]. rewrite (proj2 (Z.eqb_neq b 0xE1)), (proj2 (Z.eqb_neq b 0xE2)), (proj2 (Z.eqb_neq b 0xE3)) by lia.
  done.
Qed.

Lemma trim_start_inked b s : inked b → trim_start (b :: s) = b :: s.
Proof. intros Hb. unfold trim_start. cbn [length trim_start_n]. by rewrite white_at_inked. Qed.

(** White space has no ink. *)
Lemma white_at_app s s' : white_at s = Some s' → ∃ w, s = w ++ s' ∧ w ≠ [] ∧ Forall (λ b, ¬ inked b) w.
Proof.
  unfold inked. destruct s as [|b [|c [|d s]]]; cbn [white_at]; repeat case_match; intros [= <-];
    first [exists [b; c; d]; split; [done|] | exists [b; c]; split; [done|] | exists [b]; split; [done|]];
    (split; [done|]);
    repeat constructor; repeat match goal with
      | H : _ = true |- _ => rewrite ?orb_true_iff, ?andb_true_iff, ?Z.eqb_eq, ?Z.leb_le in H
      end; lia.
Qed.

Lemma white_at_shorter s s' : white_at s = Some s' → (length s' < length s)%nat.
Proof. intros (w & -> & Hw & _)%white_at_app. rewrite length_app. destruct w; [done|simpl; lia]. Qed.

(** More turns change nothing. *)
Lemma trim_start_n_more n m s : (length s ≤ n)%nat → (length s ≤ m)%nat → trim_start_n n s = trim_start_n m s.
Proof.
  revert m s. induction n as [|n IH]; intros [|m] s Hn Hm; try done; cbn [trim_start_n];
    [by destruct s; [|simpl in *; lia]..|].
  destruct (white_at s) as [s'|] eqn:E; [|done]. apply white_at_shorter in E. apply IH; lia.
Qed.

Lemma trim_start_spaces n s : trim_start (replicate n 32 ++ s) = trim_start s.
Proof.
  induction n as [|n IH]; [done|]. rewrite <-IH. unfold trim_start. cbn [replicate app length trim_start_n white_at].
  done.
Qed.

Lemma trim_start_length s : (length (trim_start s) ≤ length s)%nat.
Proof.
  unfold trim_start. generalize (length s) at 1 as n. intros n. revert s.
  induction n as [|n IH]; intros s; cbn [trim_start_n]; [done|].
  destruct (white_at s) as [s'|] eqn:E; [|done]. apply white_at_shorter in E. specialize (IH s'). lia.
Qed.

Lemma trim_end_length s : (length (trim_end s) ≤ length s)%nat.
Proof. induction s as [|b s IH]; cbn [trim_end]; [done|]. case_decide; simpl; lia. Qed.

Lemma trim_length s : (length (trim s) ≤ length s)%nat.
Proof. unfold trim. pose proof (trim_end_length (trim_start s)). pose proof (trim_start_length s). lia. Qed.

Lemma trim_start_n_snoc n s b : inked b → trim_start_n n (s ++ [b]) ≠ [].
Proof.
  intros Hb. revert s. induction n as [|n IH]; intros s; cbn [trim_start_n]; [by destruct s|].
  destruct (white_at (s ++ [b])) as [s'|] eqn:E; [|by destruct s].
  apply white_at_app in E as (w & E & _ & Hw). destruct (decide (s' = [])) as [->|Hs'].
  - rewrite app_nil_r in E. subst w. apply Forall_app in Hw as [_ [Hw _]%Forall_cons]. done.
  - destruct (exists_last Hs') as (s'' & x & ->). rewrite app_assoc in E. apply app_inj_tail in E as [_ <-]. apply IH.
Qed.

(** A text that ends with ink is not shortened at the end. *)
Lemma trim_end_snoc s b : inked b → trim_end (s ++ [b]) = s ++ [b].
Proof.
  intros Hb. induction s as [|x s IH].
  - cbn [app trim_end]. rewrite decide_False; [done|]. by rewrite trim_start_inked.
  - cbn [app trim_end]. rewrite decide_False; [by rewrite IH|].
    change (x :: s ++ [b]) with ((x :: s) ++ [b]). by apply trim_start_n_snoc.
Qed.

Lemma trim_spaces n a s b : inked a → inked b → trim (replicate n 32 ++ a :: s ++ [b]) = a :: s ++ [b].
Proof.
  intros Ha Hb. unfold trim. rewrite trim_start_spaces, trim_start_inked by done.
  change (a :: s ++ [b]) with ((a :: s) ++ [b]). by apply trim_end_snoc.
Qed.

(** ** Entity tags *)

Record Tag := { tag_weak : bool; tag_opaque : bytes }.
Definition tag_text (t : Tag) : bytes := (if tag_weak t then str "W/" else []) ++ QUOTE :: tag_opaque t ++ [QUOTE].

(** The characters that the scanner takes for those of a tag *)
Definition tag_char (c : Z) : Prop := c = 0x21 ∨ 0x23 ≤ c < 0x7E ∨ 0x80 ≤ c.
Definition tag_wf (t : Tag) : Prop := Forall tag_char (tag_opaque t).

(** Tags, each after some spaces and all but the last before a comma *)
Fixpoint tag_list (ts : list (nat * Tag)) : bytes :=
  match ts with
  | [] => []
  | [(n, t)] => replicate n 32 ++ tag_text t
  | (n, t) :: ts => replicate n 32 ++ tag_text t ++ COMMA :: tag_list ts
  end.

Lemma scan_quoted_tag s r : Forall tag_char s → scan_quoted (s ++ QUOTE :: r) = Some (s ++ [QUOTE], r).
Proof.
  induction 1 as [|c s Hc Hs IH]; [done|]. cbn [app scan_quoted]. rewrite IH.
  replace ((c =? 0x21) || ((0x23 <=? c) && (c <? 0x7E)) || (0x80 <=? c)) with true; [done|].
  symmetry. apply orb_true_iff. rewrite orb_true_iff, andb_true_iff, Z.eqb_eq, !Z.leb_le, Z.ltb_lt. unfold tag_char in Hc. lia.
Qed.

Lemma scan_quoted_shorter s a r : scan_quoted s = Some (a, r) → (length r < length s)%nat.
Proof.
  revert a r. induction s as [|c s IH]; intros a r; cbn [scan_quoted]; [done|].
  case_match; [|case_match; [intros [= <- <-]; simpl; lia|done]].
  destruct (scan_quoted s) as [[a' r']|]; [|done]. intros [= <- <-]. specialize (IH _ _ eq_refl). simpl. lia.
Qed.

Lemma scan_etag_shorter buf e r : scan_etag buf = (e, r) → e ≠ [] → (length r < length buf)%nat.
Proof.
  unfold scan_etag. set (start := if starts_with_str _ _ then 2%nat else 0%nat). case_match; [by intros [= <- <-]|].
  destruct (scan_quoted _) as [[a r']|] eqn:E; [|by intros [= <- <-]]. intros [= <- <-] _.
  apply scan_quoted_shorter in E. rewrite length_drop in E. pose proof (trim_length buf). lia.
Qed.

Lemma etag_loop_ends fuel cid_etag buf : (length buf < fuel)%nat → ∃ b, etag_loop fuel cid_etag buf = Some b.
Proof.
  revert buf. induction fuel as [|fuel IH]; intros buf Hf; [lia|]. cbn [etag_loop].
  destruct buf as [|c buf]; [by eexists|]. simpl in Hf. case_match; [apply IH; lia|]. case_match; [by eexists|].
  destruct (scan_etag (c :: buf)) as [[|e0 e] r] eqn:E; [by eexists|]. apply scan_etag_shorter in E; [|done]. simpl in E.
  case_match; [by eexists|]. apply IH. lia.
Qed.

Lemma strip_W_quote s : strip_prefix (str "W/") (QUOTE :: s) = None.
Proof. done. Qed.

Lemma scan_etag_tag n t r : tag_wf t →
  scan_etag (replicate n 32 ++ tag_text t ++ r ++ [QUOTE]) = (tag_text t, r ++ [QUOTE]) ∧
  scan_etag (replicate n 32 ++ tag_text t) = (tag_text t, []).
Proof.
  intros Ht.
  assert (∀ r, (r = [] ∨ ∃ r', r = r' ++ [QUOTE]) → scan_etag (replicate n 32 ++ tag_text t ++ r) = (tag_text t, r)) as Hscan.
  { clear r. intros r Hr.
    assert (trim (replicate n 32 ++ tag_text t ++ r) = tag_text t ++ r) as Htrim.
    { assert (∃ a s, tag_text t ++ r = a :: s ++ [QUOTE] ∧ inked a) as (a & s & -> & Ha);
        [|by apply trim_spaces].
      unfold tag_text, inked. change (str "W/") with [87; 47]. destruct Hr as [->|[r' ->]], (tag_weak t); cbn.
      - eexists _, (47 :: QUOTE :: tag_opaque t). rewrite app_nil_r. split; [done|]. lia.
      - eexists _, (tag_opaque t). rewrite app_nil_r. split; [done|]. unfold QUOTE. lia.
      - eexists _, (47 :: QUOTE :: tag_opaque t ++ [QUOTE] ++ r'). split; [by rewrite <-?app_comm_cons, <-!app_assoc|]. lia.
      - eexists _, (tag_opaque t ++ [QUOTE] ++ r'). split; [by rewrite <-!app_assoc|]. unfold QUOTE. lia. }
    unfold scan_etag. rewrite Htrim. unfold tag_text. change (str "W/") with [87; 47].
    destruct (tag_weak t); cbn [app].
    - replace (starts_with_str _ _) with true by (symmetry; done).
      rewrite (proj2 (Nat.ltb_ge _ _)) by (simpl; rewrite !length_app; simpl; lia).
      rewrite bool_decide_true by done. cbn [negb orb drop take app].
      rewrite <-app_assoc, drop_0, take_0. cbn [app]. by rewrite scan_quoted_tag.
    - replace (starts_with_str _ _) with false by (symmetry; apply bool_decide_false; intros [? [=]]).
      rewrite (proj2 (Nat.ltb_ge _ _)) by (simpl; rewrite !length_app; simpl; lia).
      rewrite bool_decide_true by done. cbn [negb orb drop take app].
      rewrite <-app_assoc, drop_0, take_0. cbn [app]. by rewrite scan_quoted_tag. }
  split; [apply Hscan; eauto|]. rewrite <-(app_nil_r (tag_text t)) at 1. apply Hscan. by left.
Qed.

Lemma trim_start_W s n : (length s ≤ n)%nat → trim_start_matches_n n (str "W/") (QUOTE :: s) = QUOTE :: s.
Proof. by destruct n. Qed.

(** The weak comparison is that of the opaque parts. *)
Lemma weak_match_opaque t t' : etag_weak_match (tag_text t) (tag_text t') = bool_decide (tag_opaque t = tag_opaque t').
Proof.
  assert (∀ t, trim_start_matches (str "W/") (tag_text t) = QUOTE :: tag_opaque t ++ [QUOTE]) as Htrim.
  { intros [[] o]; [|done]. unfold tag_text, trim_start_matches. cbn [tag_weak tag_opaque].
    apply trim_start_matches_app; [done|]. rewrite length_app. simpl. lia. }
  unfold etag_weak_match. rewrite !Htrim. apply bool_decide_ext. split; [|congruence].
  intros [= E]. by apply app_inj_tail in E as [-> _].
Qed.

Lemma tag_list_ends ts : ts ≠ [] → ∃ s, tag_list ts = s ++ [QUOTE].
Proof.
  induction ts as [|[n t] ts IH]; [done|]. intros _. destruct ts as [|x ts].
  - exists (replicate n 32 ++ (if tag_weak t then str "W/" else []) ++ QUOTE :: tag_opaque t).
    cbn [tag_list]. unfold tag_text. by rewrite <-!app_assoc.
  - destruct IH as [s Hs]; [done|]. change (tag_list ((n, t) :: x :: ts))
      with (replicate n 32 ++ tag_text t ++ COMMA :: tag_list (x :: ts)). rewrite Hs.
    exists (replicate n 32 ++ tag_text t ++ COMMA :: s). by rewrite <-!app_assoc.
Qed.

Lemma tag_text_length t : (2 ≤ length (tag_text t))%nat.
Proof. unfold tag_text. rewrite length_app. simpl. rewrite length_app. simpl. lia. Qed.

Lemma etag_loop_list fuel t ts : Forall (λ x, tag_wf x.2) ts → (length (tag_list ts) < fuel)%nat →
  etag_loop fuel (tag_text t) (tag_list ts) = Some (existsb (λ x, bool_decide (tag_opaque x.2 = tag_opaque t)) ts).
Proof.
  intros Hts. revert fuel. induction Hts as [|[n x] ts Hx Hts IH]; intros [|fuel] Hf; try lia; [done|].
  assert (∀ r, (length r < fuel)%nat →
    scan_etag (replicate n 32 ++ tag_text x ++ r) = (tag_text x, r) →
    etag_loop (S fuel) (tag_text t) (replicate n 32 ++ tag_text x ++ r)
    = if bool_decide (tag_opaque x = tag_opaque t) then Some true else etag_loop fuel (tag_text t) r) as Hstep.
  { intros r Hr Hscan. rewrite <-weak_match_opaque.
    assert (∃ c s, replicate n 32 ++ tag_text x ++ r = c :: s ∧ c ≠ COMMA ∧ c ≠ 42) as (c & s & E & Hc & Hs).
    { destruct n; [|by eexists _, _]. unfold tag_text. destruct (tag_weak x); by eexists _, _. }
    rewrite E in Hscan |- *. cbn [etag_loop]. rewrite (proj2 (Z.eqb_neq _ _) Hc), (proj2 (Z.eqb_neq _ _) Hs), Hscan.
    by destruct (tag_text x) eqn:Ex; [destruct x as [[] ?]|]. }
  pose proof (tag_text_length x) as Hx2. destruct ts as [|y ts].
  - cbn [tag_list existsb snd] in *. rewrite length_app in Hf. destruct (scan_etag_tag n x [] Hx) as [_ Hscan].
    rewrite <-(app_nil_r (tag_text x)) in Hscan at 1 |- *. rewrite Hstep by (done || (simpl; lia)).
    case_match; [done|]. by destruct fuel; [lia|].
  - change (tag_list ((n, x) :: y :: ts)) with (replicate n 32 ++ tag_text x ++ COMMA :: tag_list (y :: ts)) in *.
    destruct (tag_list_ends (y :: ts)) as [s Hs]; [done|]. destruct (scan_etag_tag n x (COMMA :: s) Hx) as [Hscan _].
    rewrite <-app_comm_cons, <-Hs in Hscan. rewrite !length_app in Hf. simpl in Hf.
    rewrite Hstep by (done || (simpl; lia)). cbn [existsb snd]. case_match; [done|]. cbn [orb].
    destruct fuel as [|fuel]; [simpl in *; lia|]. change (etag_loop (S fuel) (tag_text t) (COMMA :: ?s)) with (etag_loop fuel (tag_text t) s).
    apply IH. simpl in *. lia.
Qed.

Lemma trim_tag_list n t ts : trim (tag_list ((n, t) :: ts)) = tag_list ((0%nat, t) :: ts).
Proof.
  assert (∃ a s, tag_list ((0%nat, t) :: ts) = a :: s ++ [QUOTE] ∧ inked a ∧
    tag_list ((n, t) :: ts) = replicate n 32 ++ tag_list ((0%nat, t) :: ts)) as (a & s & E & Ha & ->).
  2:{ rewrite E. apply trim_spaces; [done|]. unfold inked, QUOTE. lia. }
  destruct (tag_list_ends ((0%nat, t) :: ts)) as [s Hs]; [done|].
  assert (∃ a s', tag_list ((0%nat, t) :: ts) = a :: s' ∧ s' ≠ [] ∧ inked a) as (a & s' & E & Hne & Ha).
  { unfold inked. destruct t as [[] o]; destruct ts; eexists _, _; (split; [done|]);
      (split; [try done; by destruct o|]); unfold QUOTE; try lia; by vm_compute. }
  rewrite E in Hs |- *. destruct s as [|a' s]; [by injection Hs as -> ->|]. injection Hs as -> ->.
  exists a', s. split; [done|]. split; [done|]. rewrite <-E. by destruct ts.
Qed.

(** The comparison of entity tags ends for every header, and on a list of tags, weak or strong, with any
    spaces after the commas, it finds exactly the tags whose opaque part is that of the given one. *)
Theorem etag_matches_weakly :
  (∀ inm cid_etag, ∃ b, etag_loop (S (length inm)) cid_etag (trim inm) = Some b ∧ etag_matches inm cid_etag = b) ∧
  ∀ ts t, Forall (λ x, tag_wf x.2) ts →
    etag_matches (tag_list ts) (tag_text t) = existsb (λ x, bool_decide (tag_opaque x.2 = tag_opaque t)) ts.
Proof.
  split.
  - intros inm cid_etag. destruct (etag_loop_ends (S (length inm)) cid_etag (trim inm)) as [b Hb];
      [pose proof (trim_length inm); lia|]. exists b. unfold etag_matches. by rewrite Hb.
  - intros [|[n x] ts] t Hts; [done|]. unfold etag_matches. pose proof (trim_length (tag_list ((n, x) :: ts))) as Hlen.
    rewrite trim_tag_list in Hlen |- *. rewrite etag_loop_list; [done| |lia]. by inversion Hts; constructor.
Qed.

(** ** Names in subdomains *)

Definition plain_char (b : Z) : Prop := b ≠ dot ∧ b ≠ DASH.

(** What is written for a character *)
Definition inlined (b : Z) : bytes := if b =? DASH then [DASH; DASH] else if b =? dot then [DASH] else [b].

Lemma recode_inlined d : replace_char dot [DASH] (replace_char DASH [DASH; DASH] d) = d ≫= inlined.
Proof.
  unfold replace_char. induction d as [|b d IH]; [done|]. rewrite !bind_cons, bind_app, IH. f_equal.
  unfold inlined. destruct (b =? DASH); [done|]. rewrite bind_cons, app_nil_r. done.
Qed.

(** No dot is next to another dot, to a dash or to the end; the text does not end with a dash. *)
Fixpoint dots_apart (prev : Z) (d : bytes) : Prop :=
  match d with
  | [] => plain_char prev
  | b :: d => (b = dot → plain_char prev) ∧ (prev = dot → plain_char b) ∧ dots_apart b d
  end.

(** The middle and the last character *)
Definition rest_chars (a : Z) (t : bytes) : bytes := middle_chars a t ++ match last t with Some c => [c] | None => [] end.

#[local] Arguments rest_chars : simpl never.

Lemma rest_chars_cons a b c t :
  rest_chars a (b :: c :: t)
  = (if (b =? DASH) && negb (a =? DASH) && negb (c =? DASH) then dot else b) :: rest_chars b (c :: t).
Proof. done. Qed.

Lemma inlined_nonempty b d : ∃ c t, ((b :: d) ≫= inlined) = c :: t ∧ (plain_char b → c = b).
Proof.
  rewrite bind_cons. unfold inlined at 1, plain_char. destruct (Z.eqb_spec b DASH); [eexists _, _; split; [done|tauto]|].
  destruct (Z.eqb_spec b dot); [eexists _, _; split; [done|tauto]|]. by eexists _, _.
Qed.

Lemma undouble_rest d p q : dots_apart p d → (plain_char p → q ≠ DASH) → undouble (rest_chars q (d ≫= inlined)) = d.
Proof.
  revert p q. induction d as [|b d IH]; intros p q Hd Hq; [done|]. cbn [dots_apart] in Hd. destruct Hd as (Hdot & Hprev & Hd).
  rewrite bind_cons. unfold inlined at 1. destruct (Z.eqb_spec b DASH) as [->|Hb].
  - destruct d as [|b' d]; [by destruct Hd|]. destruct (inlined_nonempty b' d) as (c & t & E & _). rewrite E. cbn [app].
    rewrite !rest_chars_cons. cbn. rewrite andb_false_r. cbn. rewrite <-E. f_equal. by apply (IH DASH); [|intros []].
  - destruct (Z.eqb_spec b dot) as [->|Hb'].
    + destruct d as [|b' d]; [by destruct Hd|]. cbn [dots_apart] in Hd. assert (plain_char b') as Hb' by by apply Hd.
      destruct (inlined_nonempty b' d) as (c & t & E & Hc). specialize (Hc Hb') as ->. rewrite E. cbn [app].
      rewrite rest_chars_cons. rewrite (proj2 (Z.eqb_neq q DASH)) by auto. rewrite (proj2 (Z.eqb_neq b' DASH)) by apply Hb'.
      cbn. f_equal. rewrite <-E. apply (IH dot); [exact Hd|by intros []].
    + destruct d as [|b' d].
      { change (undouble [b] = [b]). cbn [undouble]. by rewrite (proj2 (Z.eqb_neq b DASH)) by done. }
      destruct (inlined_nonempty b' d) as (c & t & E & _). rewrite E. cbn [app]. rewrite rest_chars_cons.
      rewrite (proj2 (Z.eqb_neq b DASH)) by done. cbn [andb undouble]. rewrite (proj2 (Z.eqb_neq b DASH)) by done.
      f_equal. rewrite <-E. by apply (IH b).
Qed.

Lemma inlined_roundtrip a d : plain_char a → d ≠ [] → dots_apart a d →
  inlined_dns_link_to_dns_link ((a :: d) ≫= inlined) = a :: d.
Proof.
  intros Ha Hne Hd. rewrite bind_cons. unfold inlined at 1. destruct Ha as [Ha1 Ha2].
  rewrite (proj2 (Z.eqb_neq a DASH)), (proj2 (Z.eqb_neq a dot)) by done. cbn [app]. unfold inlined_dns_link_to_dns_link.
  destruct d as [|b d]; [done|]. destruct (inlined_nonempty b d) as (c & t & E & _).
  pose proof (undouble_rest (b :: d) a a Hd (λ _, Ha2)) as Hu. rewrite E in Hu |- *.
  cbn [take app undouble]. rewrite (proj2 (Z.eqb_neq a DASH)) by done. f_equal. exact Hu.
Qed.

(** A domain name: labels between dots, which neither start nor end with a dash *)
Definition label (l : bytes) : Prop :=
  (∃ a l', l = a :: l' ∧ plain_char a) ∧ (∃ l' b, l = l' ++ [b] ∧ plain_char b) ∧ dot ∉ l.
Fixpoint join_dot (ls : list bytes) : bytes :=
  match ls with [] => [] | [l] => l | l :: ls => l ++ dot :: join_dot ls end.

Lemma dots_apart_label p l rest : p ≠ dot → dot ∉ l → (∃ l' b, p :: l = l' ++ [b] ∧ plain_char b) →
  (∀ q, plain_char q → dots_apart q rest) → dots_apart p (l ++ rest).
Proof.
  revert p. induction l as [|x l IH]; intros p Hp Hl (l' & b & E & Hb) Hr.
  - destruct l' as [|? []]; simplify_eq/=. by apply Hr.
  - apply not_elem_of_cons in Hl as [Hx Hl]. cbn [app dots_apart]. split_and!; [congruence|done|].
    apply IH; try done. destruct l' as [|y l']; [done|]. injection E as <- E. by exists l', b.
Qed.

Definition more_labels (ls : list bytes) : bytes := match ls with [] => [] | _ => dot :: join_dot ls end.
Lemma join_dot_cons l ls : join_dot (l :: ls) = l ++ more_labels ls.
Proof. destruct ls; simpl; by rewrite ?app_nil_r. Qed.

Lemma label_then a l rest : label (a :: l) → (∀ q, plain_char q → dots_apart q rest) → dots_apart a (l ++ rest).
Proof.
  intros ((a' & l' & [= <- _] & Ha) & Hb & Hdot). apply not_elem_of_cons in Hdot as [_ Hdot].
  apply dots_apart_label; [apply Ha|done|done].
Qed.

Lemma dots_apart_labels ls : Forall label ls → ∀ q, plain_char q → dots_apart q (more_labels ls).
Proof.
  induction 1 as [|l ls Hl Hls IH]; intros q Hq; [done|]. unfold more_labels. rewrite join_dot_cons.
  pose proof Hl as ((a & l' & -> & Ha) & _). cbn [app dots_apart]. destruct Hq as [Hq1 Hq2].
  split_and!; try done; [by destruct Ha|]. by apply label_then.
Qed.

(** ** Numbers and ranges *)

Definition digit (b : Z) : Prop := 48 ≤ b ≤ 57.
Lemma dec_digits_digits fuel n acc : 0 ≤ n → Forall digit acc → Forall digit (dec_digits fuel n acc).
Proof.
  revert n acc. induction fuel as [|fuel IH]; intros n acc Hn Hacc; cbn [dec_digits]; [done|].
  pose proof (Z.mod_pos_bound n 10 ltac:(lia)). assert (Forall digit ((48 + n mod 10) :: acc)) by (constructor; [unfold digit; lia|done]).
  case_match; [done|]. apply IH; [apply Z.div_pos; lia|done].
Qed.
Lemma usize_digits n : 0 ≤ n → Forall digit (usize_to_string n).
Proof. intros. apply dec_digits_digits; [done|constructor]. Qed.

(** The characters that a header may have *)
Definition visible (b : Z) : Prop := 32 ≤ b < 127.

(** A header takes visible text and gives it back. *)
Class GatewayLibLaws `{GatewayLib} : Prop := {
  header_visible s : Forall visible s → header_value s = Some s;
  header_visible_str s : Forall visible s → header_str s = Some s;
  now_visible : Forall visible now_text;
  mime_guess_visible name m : mime_guess name = Some m → Forall visible m
}.

Lemma split_once_app sep a r : sep ∉ a → split_once sep (a ++ sep :: r) = (a, Some r).
Proof.
  induction a as [|b a IH]; intros Ha; cbn [app split_once]; [by rewrite Z.eqb_refl|].
  apply not_elem_of_cons in Ha as [Hb Ha]. rewrite (proj2 (Z.eqb_neq b sep)) by congruence. by rewrite IH.
Qed.

Lemma usize_visible n : 0 ≤ n → Forall visible (usize_to_string n).
Proof. intros Hn. eapply Forall_impl; [by apply usize_digits|]. unfold digit, visible. lia. Qed.

Section ranges.
Context `{GatewayLibLaws}.

(** The range of a request, both ends included, as a client writes it *)
Definition range_text (first last : Z) : bytes := str "bytes=" ++ usize_to_string first ++ str "-" ++ usize_to_string last.

Lemma parse_range_parts first rest : 0 ≤ first < 2 ^ 64 → Forall visible rest →
  parse_range_header (str "bytes=" ++ usize_to_string first ++ DASH :: rest)
  = (fin ← parse_usize rest;
     if (fin <=? first) || (fin =? 0) then None
     else Some {| range_start := first; range_end := Int.wrap 64 (fin + 1) |}).
Proof.
  intros Hf Hr. unfold parse_range_header. rewrite header_visible_str.
  2:{ apply Forall_app; split; [by apply (bool_decide_unpack _); vm_compute|]. apply Forall_app; split; [apply usize_visible; lia|].
      constructor; [|done]. by apply (bool_decide_unpack _); vm_compute. }
  cbn [mbind option_bind]. change (str "bytes=" ++ ?s) with (str "bytes" ++ 61 :: s).
  rewrite split_once_app by by apply (bool_decide_unpack _); vm_compute. rewrite bool_decide_true by done. cbn [negb].
  cbn [mbind option_bind]. rewrite split_once_app.
  2:{ intros Hin. pose proof (usize_digits first ltac:(lia)) as Hd. rewrite Forall_forall in Hd. specialize (Hd _ Hin).
      unfold digit, DASH in Hd. lia. }
  by rewrite parse_usize_to_string by lia.
Qed.

Lemma parse_range_text first last : 0 ≤ first < last → last < 2 ^ 64 - 1 →
  parse_range_header (range_text first last) = Some {| range_start := first; range_end := last + 1 |}.
Proof.
  intros Hf Hl. unfold range_text. change (str "-" ++ ?s) with (DASH :: s).
  rewrite parse_range_parts by (lia || (apply usize_visible; lia)). rewrite parse_usize_to_string by lia. cbn [mbind option_bind].
  rewrite (proj2 (Z.leb_gt last first)), (proj2 (Z.eqb_neq last 0)) by lia. cbn [orb].
  by rewrite Int.wrap_id by (unfold Int.in_u; lia).
Qed.

(** Ranges that a client may write and that are not served: one byte or backwards, without an end, without a
    start, several ranges *)
Inductive unserved : bytes → Prop :=
  | unserved_backwards first last : 0 ≤ last ≤ first → first < 2 ^ 64 → unserved (range_text first last)
  | unserved_open first : 0 ≤ first < 2 ^ 64 → unserved (str "bytes=" ++ usize_to_string first ++ str "-")
  | unserved_suffix n : 0 ≤ n → unserved (str "bytes=-" ++ usize_to_string n)
  | unserved_several first last more : 0 ≤ first < 2 ^ 64 → 0 ≤ last → Forall visible more →
      unserved (range_text first last ++ COMMA :: more).

Lemma parse_digits_comma l more : COMMA ∉ l → ∀ n, parse_digits n (l ++ COMMA :: more) = None.
Proof.
  induction l as [|b l IH]; intros Hl n; [done|]. apply not_elem_of_cons in Hl as [_ Hl]. cbn [app parse_digits].
  repeat case_match; try done; by apply IH.
Qed.

Lemma unserved_parse v : unserved v → parse_range_header v = None.
Proof.
  intros Hv. destruct Hv as [first last Hr Hf|first Hf|n Hn|first last more Hf Hl Hm].
  - unfold range_text. change (str "-" ++ ?s) with (DASH :: s).
    rewrite parse_range_parts by (lia || (apply usize_visible; lia)). rewrite parse_usize_to_string by lia. cbn [mbind option_bind].
    by rewrite (proj2 (Z.leb_le last first)) by lia.
  - change (str "-") with [DASH]. by rewrite parse_range_parts by (lia || constructor).
  - unfold parse_range_header. rewrite header_visible_str.
    2:{ apply Forall_app; split; [by apply (bool_decide_unpack _); vm_compute|by apply usize_visible]. }
    cbn [mbind option_bind]. change (str "bytes=-" ++ ?s) with (str "bytes" ++ 61 :: [] ++ DASH :: s).
    rewrite split_once_app by by apply (bool_decide_unpack _); vm_compute. rewrite bool_decide_true by done. cbn [negb mbind option_bind].
    by rewrite split_once_app by apply not_elem_of_nil.
  - unfold range_text. rewrite <-!app_assoc. change (str "-" ++ ?s) with (DASH :: s).
    pose proof (usize_digits last Hl) as Hd. assert (COMMA ∉ usize_to_string last) as Hc.
    { intros Hin. rewrite Forall_forall in Hd. specialize (Hd _ Hin). unfold digit, COMMA in Hd. lia. }
    rewrite parse_range_parts; [|lia|apply Forall_app; split; [by apply usize_visible|constructor; [|done]]].
    2:{ by apply (bool_decide_unpack _); vm_compute. }
    destruct (usize_to_string last) as [|d l] eqn:El; [done|]. cbn [app parse_usize].
    apply Forall_cons in Hd as [Hd _]. rewrite (proj2 (Z.eqb_neq d 43)) by (unfold digit in Hd; lia).
    change (d :: l ++ COMMA :: more) with ((d :: l) ++ COMMA :: more). by rewrite parse_digits_comma.
Qed.
End ranges.

Section names.
Context `{UnixfsProto} `{!PathText} `{!GatewayLib}.

(** A host that stands for a domain name is read back as the name. *)
Lemma domain_inlined_roundtrip ls : Forall label ls → (2 ≤ length (join_dot ls))%nat →
  inlined_dns_link_to_dns_link (replace_char dot [DASH] (replace_char DASH [DASH; DASH] (join_dot ls))) = join_dot ls.
Proof.
  intros Hls Hlen. rewrite recode_inlined. destruct Hls as [|l ls Hl Hls]; [simpl in Hlen; lia|]. rewrite join_dot_cons in Hlen |- *.
  pose proof Hl as ((a & l' & -> & Ha) & _). cbn [app] in *. apply inlined_roundtrip; [done| |].
  - intros E. rewrite E in Hlen. simpl in Hlen. lia.
  - apply label_then; [done|]. by apply dots_apart_labels.
Qed.

Lemma inlined_no_dot d : dot ∉ (d ≫= inlined).
Proof.
  rewrite list_elem_of_bind. intros (b & Hin & _). revert Hin. unfold inlined.
  destruct (Z.eqb_spec b DASH); [by change (dot ∉ [DASH; DASH]); apply (bool_decide_unpack _); vm_compute|].
  destruct (Z.eqb_spec b dot) as [|Hb]; intros Hin%list_elem_of_singleton; [done|congruence].
Qed.

Lemma plain_inlined d : Forall plain_char d → (d ≫= inlined) = d.
Proof.
  induction 1 as [|b d [Hb1 Hb2] Hd IH]; [done|]. rewrite bind_cons, IH. unfold inlined.
  by rewrite (proj2 (Z.eqb_neq b DASH)), (proj2 (Z.eqb_neq b dot)).
Qed.

Lemma plain_dots_apart a d : Forall plain_char (a :: d) → dots_apart a d.
Proof.
  revert a. induction d as [|b d IH]; intros a Hd; apply Forall_cons in Hd as [Ha Hd]; [done|].
  apply Forall_cons in Hd as Hd'. destruct Hd' as [[Hb _] _]. split; [done|]. split; [by intros; destruct Ha|by apply IH].
Qed.

(** ** The redirection to a subdomain *)

(** The text of a CID in base 36 is read as the CID. *)
Class Base36Laws : Prop := { base36_roundtrip c : cid_from_str (base36_lower (cid_to_bytes c)) = Some c }.

(** A root that the redirection can carry: a CID, whose text has neither dots nor dashes, or a name of two
    characters or more that is neither a CID nor the key of a peer, its labels with dashes only inside *)
Definition redirectable (p : Path) : Prop :=
  match path_root p with
  | Root_Cid c => Forall plain_char (recode_path_to_inlined_dns_link p) ∧ (2 ≤ length (recode_path_to_inlined_dns_link p))%nat
  | Root_Domain d => path_typ p = PathType_Ipns ∧ cid_from_str d = None ∧ from_peer_id d = None ∧
      ∃ ls, d = join_dot ls ∧ Forall label ls ∧ (2 ≤ length d)%nat
  end.

(** What the host of the redirection is read as: a key below [/ipns] stays in base 36 *)
Definition root_text (p : Path) : bytes :=
  match path_root p with Root_Cid _ => recode_path_to_inlined_dns_link p | Root_Domain d => d end.

Lemma recode_decodes p : redirectable p →
  (dot ∉ recode_path_to_inlined_dns_link p) ∧
  inlined_dns_link_to_dns_link (recode_path_to_inlined_dns_link p) = root_text p.
Proof.
  unfold redirectable, root_text. destruct (path_root p) as [c|d] eqn:Er.
  - generalize (recode_path_to_inlined_dns_link p) as txt. intros txt (Hc & Hlen). split.
    + intros Hin. rewrite Forall_forall in Hc. by destruct (Hc _ Hin).
    + pose proof (plain_inlined _ Hc) as E. destruct txt as [|a t]; [simpl in Hlen; lia|]. rewrite <-E at 1.
      apply inlined_roundtrip; [by apply Forall_cons in Hc as [? _]| |by apply plain_dots_apart].
      intros ->. simpl in Hlen. lia.
  - intros (_ & _ & _ & ls & -> & Hls & Hlen). unfold recode_path_to_inlined_dns_link. rewrite Er.
    split; [rewrite recode_inlined; apply inlined_no_dot|]. by apply domain_inlined_roundtrip.
Qed.

Lemma typ_no_dot t : dot ∉ PathType_as_str t.
Proof. apply (bool_decide_unpack _). by destruct t; vm_compute. Qed.

(** The host that the redirection leads to is split into what it was made of. *)
Lemma subdomain_of_redirect p host : redirectable p →
  IpfsSubdomain_try_from_str
    (recode_path_to_inlined_dns_link p ++ [dot] ++ PathType_as_str (path_typ p) ++ [dot] ++ host)
  = Some {| sub_cid_or_domain := recode_path_to_inlined_dns_link p; sub_scheme := PathType_as_str (path_typ p);
            sub_hostname := host |}.
Proof.
  intros [Hd _]%recode_decodes. unfold IpfsSubdomain_try_from_str. cbn [app]. rewrite split_once_app by done. cbn [mbind option_bind].
  rewrite split_once_app by apply typ_no_dot. cbn [mbind option_bind]. by destruct (path_typ p).
Qed.

Lemma path_parts_joined parts : Forall good_part parts → path_parts (join_slash parts) = parts.
Proof.
  induction 1 as [|p parts Hp Hps IH]; [done|]. destruct parts as [|q parts]; [by apply path_parts_one|].
  change (join_slash (p :: q :: parts)) with (p ++ SLASH :: join_slash (q :: parts)). by rewrite path_parts_cons, IH.
Qed.

Lemma join_slash_trailing parts : parts ≠ [] → join_slash (parts ++ [[]]) = join_slash parts ++ [SLASH].
Proof.
  induction parts as [|p parts IH]; [done|]. intros _. destruct parts as [|q parts]; [done|].
  change (join_slash ((p :: q :: parts) ++ [[]])) with (p ++ SLASH :: join_slash ((q :: parts) ++ [[]])).
  rewrite IH by done. change (join_slash (p :: q :: parts)) with (p ++ SLASH :: join_slash (q :: parts)).
  by rewrite <-app_assoc.
Qed.

Lemma join_slash_last parts : Forall good_part parts → parts ≠ [] → ∃ s b, join_slash parts = s ++ [b] ∧ b ≠ SLASH.
Proof.
  induction 1 as [|p parts Hp Hps IH]; [done|]. intros _. destruct parts as [|q parts].
  - destruct p as [|b p _] using rev_ind; [by destruct Hp|]. exists p, b. split; [done|].
    intros ->. apply (last_good _ Hp). by rewrite last_snoc.
  - destruct IH as (s & b & E & Hb); [done|]. exists (p ++ SLASH :: s), b. split; [|done].
    change (join_slash (p :: q :: parts)) with (p ++ SLASH :: join_slash (q :: parts)). by rewrite E, <-app_assoc.
Qed.
End names.
