(* ===== verification/Handlers.v ===== *)
(** * The gateway: requests

    Models [client.rs] and [handlers.rs] of [iroh-gateway], over the resolver and the CAR
    writer.  The router, the middleware and the trace identifiers are left out.  The crates
    for URLs, query strings, media types and templates are the class [WebLib].  Reading the
    sample of a body and listing a directory take fuel, the lack of which is a panic. *)

From stdpp Require Import prelude strings list gmap.
From Stdlib Require Import ZArith Lia.
From S2P Require Import Prelude Cids Bits Unixfs Chunker Reader Hamt Paths Resolver Car Gateway.
Local Open Scope Z_scope.

Record GetParams := {
  gp_format : option bytes;
  gp_filename : option bytes;
  gp_download : option bool;
  gp_force_dir : option bool;
  gp_uri : option bytes;
  gp_recursive : option bool
}.

Record Uri := { uri_scheme : bytes; uri_host : option bytes; uri_path : bytes; uri_query : option bytes }.

(** What the template of a directory page is filled with *)
Record DirLink := { dl_name : bytes; dl_size : bytes; dl_path : bytes; dl_icon : bytes }.
Record DirPage := {
  dp_breadcrumbs : list (bytes * bytes);
  dp_root_cid : option bytes;
  dp_root_path : bytes;
  dp_public_url_base : bytes;
  dp_links : list DirLink
}.

Class WebLib := {
  sniff_content_type : bytes → bytes;
  parse_uri : bytes → option Uri;
  url_encode : bytes → bytes;
  query_to_string : GetParams → bytes;
  format_size : Z → bytes;
  render_dir_list : DirPage → bytes;
  (** [axum::Json] of an error, from its code and its message, and the page for missing content *)
  render_error : Z → string → bytes;
  not_found_template : bytes;
  (** [hex::decode], and the anchors in the text of a deny list ([serde_json]) *)
  hex_decode : bytes → option bytes;
  denylist_anchors : bytes → option (list bytes)
}.

Definition OK : Z := 200.
Definition PARTIAL_CONTENT : Z := 206.
Definition MOVED_PERMANENTLY : Z := 301.
Definition NOT_MODIFIED : Z := 304.
Definition BAD_REQUEST : Z := 400.
Definition NOT_FOUND : Z := 404.
Definition METHOD_NOT_ALLOWED : Z := 405.
Definition GONE : Z := 410.
Definition PRECONDITION_FAILED : Z := 412.
Definition INTERNAL_SERVER_ERROR : Z := 500.
Definition SERVICE_UNAVAILABLE : Z := 503.
Definition GATEWAY_TIMEOUT : Z := 504.
Definition TOO_MANY_REQUESTS : Z := 429.

Definition LOCATION : bytes := str "location".
Definition HEADER_X_IPFS_PATH : bytes := str "x-ipfs-path".
Definition RECURSION_LIMIT : Z := 4096.

Inductive Method := Method_GET | Method_HEAD | Method_Other.

Record GatewayError := { ge_status : Z; ge_message : string; ge_method : option Method; ge_html : bool }.
Definition GatewayError_new (status : Z) (message : string) : GatewayError :=
  {| ge_status := status; ge_message := message; ge_method := None; ge_html := false |}.

(** The header insertions only succeed or panic. *)
Definition unwrapped {E A} (r : res string A) : res E A := match r with Ok a => Ok a | _ => Panic end.
Definition with_status {A} (status : Z) (r : res string A) : res GatewayError A :=
  match r with Ok a => Ok a | Err e => Err (GatewayError_new status e) | Panic => Panic end.

(** ** Icons *)

Definition KNOWN_ICONS : list bytes :=
  str <$> [".aac"; ".aiff"; ".ai"; ".avi"; ".bmp"; ".c"; ".cpp"; ".css"; ".dat"; ".dmg"; ".doc";
    ".dotx"; ".dwg"; ".dxf"; ".eps"; ".exe"; ".flv"; ".gif"; ".h"; ".hpp"; ".html"; ".ics";
    ".iso"; ".java"; ".jpg"; ".jpeg"; ".js"; ".key"; ".less"; ".mid"; ".mkv"; ".mov"; ".mp3";
    ".mp4"; ".mpg"; ".odf"; ".ods"; ".odt"; ".otp"; ".ots"; ".ott"; ".pdf"; ".php"; ".png";
    ".ppt"; ".psd"; ".py"; ".qt"; ".rar"; ".rb"; ".rtf"; ".sass"; ".scss"; ".sql"; ".tga";
    ".tgz"; ".tiff"; ".txt"; ".wav"; ".wmv"; ".xls"; ".xlsx"; ".xml"; ".yml"; ".zip"]%string.

(** [Path::file_name] and [Path::extension]: the last component that is a name, and what
    follows its last dot, unless that dot is its first character *)
Definition file_name (path : bytes) : option bytes :=
  match last (filter (λ s, s ≠ [] ∧ s ≠ [dot]) (split_on (Z.eqb SLASH) path)) with
  | Some s => if decide (s = [dot; dot]) then None else Some s
  | None => None
  end.
Definition file_extension (path : bytes) : option bytes :=
  match file_name path with
  | Some s => match split_on (Z.eqb dot) s with
              | _ :: [] => None
              | [] :: [_] => None
              | parts => last parts
              end
  | None => None
  end.

Definition icon_class_name (path : bytes) : bytes :=
  let ext := default [] (file_extension path) in
  let icon := if decide (ext ∈ KNOWN_ICONS) then ext else str "_blank" in
  str "icon-" ++ icon.

Section handlers.
Context `{UnixfsProto} `{!PathText} `{!IpldLib} `{!GatewayLib} `{!WebLib} `{!CarLib}.
Context (load_cid : Cid → res string LoadedCid) (dns : DnsResolver) (murmur3 : bytes → Z).
Context (has_cid : Cid → res string bool).

(** ** The client *)

Record PrettyStreamBody := {
  sb_buffer : bytes;
  sb_reader : OutPrettyReader;
  sb_size : option Z;
  sb_mime : option bytes
}.

Inductive FileResult :=
  | FileResult_File (b : PrettyStreamBody)
  | FileResult_Directory (o : Out)
  | FileResult_Raw (b : PrettyStreamBody).

Definition load_poll : loader := λ c, Ready (fetch_data load_cid c).

Definition format_is_raw (f : option ResponseFormat) : bool := match f with Some Format_Raw => true | _ => false end.

(** [id] is the number of the context *)
Definition retrieve_path_metadata (id : Z) (path : Path) (format : option ResponseFormat) : res string Out :=
  if format_is_raw format then (resolve_raw load_cid dns murmur3 id path).1
  else (resolve load_cid dns murmur3 id path).1.

(** [fill_buf] of a reader with a buffer of one MiB *)
Definition fill_buf (fuel : nat) (reader : OutPrettyReader) : res string (bytes * OutPrettyReader) :=
  match pretty_poll_read fuel load_poll (1024 * 1024) reader with
  | Some (Ready (Ok b), reader) => Ok (b, reader)
  | Some (Ready (Err e), _) => Err e
  | _ => Panic
  end.

(** A seek drops what is in the buffer. *)
Definition seek_to (range : option Range) (sample : bytes) (reader : OutPrettyReader) : res string (bytes * OutPrettyReader) :=
  match range with
  | Some range =>
      match pretty_start_seek (SeekStart (range_start range)) reader with
      | (Ok _, reader) => Ok ([], reader)
      | (Err e, _) => Err e
      | (Panic, _) => Panic
      end
  | None => Ok (sample, reader)
  end.

Definition get_file (fuel : nat) (id : Z) (path : Path) (path_metadata : option Out) (range : option Range)
    : res string (FileResult * Metadata) :=
  path_metadata ← match path_metadata with
                  | Some m => Ok m
                  | None => retrieve_path_metadata id path None
                  end;
  let metadata := out_metadata path_metadata in
  if out_is_dir path_metadata then Ok (FileResult_Directory path_metadata, metadata)
  else
    reader ← out_pretty path_metadata (match range with Some r => Some (range_end r) | None => None end);
    '(sample, reader) ← fill_buf fuel reader;
    let mime := sniff_content_type sample in
    '(buffer, reader) ← seek_to range sample reader;
    let body := {| sb_buffer := buffer; sb_reader := reader; sb_size := md_size metadata; sb_mime := Some mime |} in
    match md_typ metadata with
    | OutType_Raw => Ok (FileResult_Raw body, metadata)
    | _ => Ok (FileResult_File body, metadata)
    end.

(** [poll_data] with the room that is left in the buffer of the stream; [None] is the end. *)
Definition poll_data (fuel : nat) (room : Z) (b : PrettyStreamBody) : res string (option bytes * PrettyStreamBody) :=
  '(avail, reader) ← match sb_buffer b with
                     | [] => fill_buf fuel (sb_reader b)
                     | avail => Ok (avail, sb_reader b)
                     end;
  let chunk := take (Z.to_nat room) avail in
  Ok (match chunk with [] => None | _ => Some chunk end,
      {| sb_buffer := drop (Z.to_nat room) avail; sb_reader := reader; sb_size := sb_size b; sb_mime := sb_mime b |}).

Section car.
Context {W : Type} (write_all : bytes → W → res car_error unit * W).

(** The outcome and the sink after it: the blocks are written as they are yielded, and an
    error of the walk ends it. *)
Definition fetch_car_recursive (fuel : nat) (path : Path) (w : W) : option (res string unit * W) :=
  match resolve_recursive_raw load_cid dns fuel path (Some RECURSION_LIMIT) with
  | None => None
  | Some ([], Ok _) => Some (Err "root cid not found"%string, w)
  | Some ([], r) => Some (r, w)
  | Some (root :: blocks, r) =>
      let writer := CarWriter_new (CarHeader_new_v1 [or_cid root]) w in
      match car_write_all write_all ((λ o, (or_cid o, or_content o)) <$> root :: blocks) writer with
      | (Ok _, writer) => Some (r, cw_writer writer)
      | (Err _, writer) => Some (Err "car"%string, cw_writer writer)
      | (Panic, writer) => Some (Panic, cw_writer writer)
      end
  end.
End car.

(** ** Requests and responses *)

Record IpfsRequest := {
  rq_format : ResponseFormat;
  rq_cid : CidOrDomain;
  rq_resolved_path : Path;
  rq_query_file_name : bytes;
  rq_download : bool;
  rq_query_params : GetParams;
  rq_subdomain_mode : bool;
  rq_path_metadata : Out
}.

Definition request_path_for_redirection (r : IpfsRequest) : bytes :=
  if rq_subdomain_mode r then to_relative_string (rq_resolved_path r) else Path_fmt (rq_resolved_path r).

(** The body of a recursive download is what [fetch_car_recursive] writes for a path. *)
Inductive Body := Body_Empty | Body_Text (b : bytes) | Body_Stream (b : PrettyStreamBody) | Body_Car (path : Path).

Record GatewayResponse := { gr_status : Z; gr_headers : HeaderMap; gr_body : Body }.
Definition GatewayResponse_new (status : Z) (body : Body) (headers : HeaderMap) : GatewayResponse :=
  {| gr_status := status; gr_headers := headers; gr_body := body |}.

Definition redirect_permanently (to : bytes) : res GatewayError GatewayResponse :=
  h ← unwrapped (insert_str LOCATION to ∅);
  Ok (GatewayResponse_new MOVED_PERMANENTLY Body_Empty h).
Definition not_modified : GatewayResponse := GatewayResponse_new NOT_MODIFIED Body_Empty ∅.

Record GwState := {
  gs_bad_bits : option (list bytes);
  gs_user_headers : HeaderMap;
  gs_public_url_base : bytes;
  gs_redirect_to_subdomain : bool
}.

Definition to_query_string (q : GetParams) : bytes :=
  match query_to_string q with [] => [] | s => 63 :: s end.

(** ** Checks *)

Definition protocol_handler_redirect (uri_param : bytes) : res GatewayError GatewayResponse :=
  u ← ok_or (parse_uri uri_param) (GatewayError_new BAD_REQUEST "invalid uri");
  if negb (bool_decide (uri_scheme u = ipfs_str)) && negb (bool_decide (uri_scheme u = ipns_str))
  then Err (GatewayError_new BAD_REQUEST "invalid uri scheme, must be ipfs or ipns")
  else
    let path := uri_path u ++ match uri_query u with Some q => 63 :: url_encode q | None => [] end in
    host ← unwrap (uri_host u);
    redirect_permanently (uri_scheme u ++ str "://" ++ host ++ path).

Definition service_worker_check (request_headers : HeaderMap) (content_path : bytes) : res GatewayError unit :=
  match hm_get (str "service-worker") request_headers with
  | Some sw =>
      sw ← unwrap (header_str sw);
      ensure (negb (bool_decide (sw = str "script") && bool_decide (content_path = [])))
        (GatewayError_new BAD_REQUEST "Service Worker not supported")
  | None => Ok tt
  end.

Definition unsupported_header_check (request_headers : HeaderMap) : res GatewayError unit :=
  ensure (negb (bool_decide (is_Some (request_headers !! str "x-ipfs-gateway-prefix"))))
    (GatewayError_new BAD_REQUEST "Unsupported HTTP header").

Definition redirect_path_handlers (host : bytes) (path : Path) (request_headers : HeaderMap)
    : res GatewayError GatewayResponse :=
  target_host ← match hm_get (str "x-forwarded-host") request_headers with
                | Some v => unwrap (header_str v)
                | None => Ok host
                end;
  target_proto ← match hm_get (str "x-forwarded-proto") request_headers with
                 | Some v => unwrap (header_str v)
                 | None => Ok (str "http")
                 end;
  let content_path := to_relative_string path in
  redirect_permanently
    (target_proto ++ str "://" ++ recode_path_to_inlined_dns_link path ++ str "."
     ++ PathType_as_str (path_typ path) ++ str "." ++ target_host ++ [SLASH]
     ++ default content_path (strip_prefix [SLASH] content_path)).

Definition handle_only_if_cached (request_headers : HeaderMap) (cid : CidOrDomain) : res GatewayError bool :=
  match hm_get CACHE_CONTROL request_headers with
  | Some hv =>
      hv ← unwrap (header_str hv);
      if bool_decide (hv = str "only-if-cached") then
        match cid with
        | Root_Cid cid =>
            match has_cid cid with
            | Ok true => Ok true
            | Ok false => Err (GatewayError_new PRECONDITION_FAILED "File not found in cache")
            | Err _ => Err (GatewayError_new PRECONDITION_FAILED "Error checking cache")
            | Panic => Panic
            end
        | Root_Domain _ => Err (GatewayError_new PRECONDITION_FAILED "Cannot resolve in cache: invalid CID.")
        end
      else Ok false
  | None => Ok false
  end.

Definition check_bad_bits (st : GwState) (cid : Cid) (content_path : bytes) : res GatewayError bool :=
  match gs_bad_bits st with
  | Some denylist => unwrapped (is_bad denylist cid content_path)
  | None => Ok false
  end.

Definition etag_check (request_headers : HeaderMap) (resolved_cid : CidOrDomain) (format : ResponseFormat)
    : res GatewayError (option GatewayResponse) :=
  match hm_get (str "if-none-match") request_headers with
  | Some inm =>
      inm ← unwrap (header_str inm);
      match inm with
      | [] => Ok None
      | _ =>
          let cid_etag := get_etag resolved_cid (Some format) in
          let dir_etag := get_dir_etag resolved_cid in
          Ok (if etag_matches inm cid_etag || etag_matches inm dir_etag then Some not_modified else None)
      end
  | None => Ok None
  end.

(** ** Preprocessing *)

Inductive RequestPreprocessingResult :=
  | RespondImmediately (r : GatewayResponse)
  | ShouldRequestData (r : IpfsRequest).

(** The status of an error of the resolver *)
Definition resolve_error (e : string) : GatewayError :=
  GatewayError_new
    (if decide (e = "offline"%string) then SERVICE_UNAVAILABLE
     else if String.prefix "failed to find" e then NOT_FOUND
     else INTERNAL_SERVER_ERROR) e.

Definition request_preprocessing (st : GwState) (id : Z) (path : Path) (query_params : GetParams)
    (request_headers response_headers : HeaderMap) (subdomain_mode : bool)
    : res GatewayError (RequestPreprocessingResult * HeaderMap) :=
  let typ := PathType_as_str (path_typ path) in
  ensure (bool_decide (typ = ipfs_str) || bool_decide (typ = ipns_str))
    (GatewayError_new BAD_REQUEST "invalid scheme, must be ipfs or ipns");;
  let content_path := to_relative_string path in
  match default [] (gp_uri query_params) with
  | _ :: _ as uri_param => r ← protocol_handler_redirect uri_param; Ok (RespondImmediately r, response_headers)
  | [] =>
      service_worker_check request_headers content_path;;
      unsupported_header_check request_headers;;
      bad ← match Path_cid path with Some cid => check_bad_bits st cid content_path | None => Ok false end;
      ensure (negb bad) (GatewayError_new GONE "CID is in the denylist");;
      format ← with_status BAD_REQUEST (get_response_format request_headers (gp_format query_params));
      path_metadata ← match retrieve_path_metadata id path (Some format) with
                      | Ok m => Ok m
                      | Err e => Err (resolve_error e)
                      | Panic => Panic
                      end;
      resolved_cid ← ok_or (last (md_resolved_path (out_metadata path_metadata)))
                       (GatewayError_new NOT_FOUND "failed to resolve path");
      bad ← check_bad_bits st resolved_cid content_path;
      ensure (negb bad) (GatewayError_new GONE "CID is in the denylist");;
      cached ← handle_only_if_cached request_headers (path_root path);
      if (cached : bool) then Ok (RespondImmediately (GatewayResponse_new OK Body_Empty ∅), response_headers)
      else
        check ← etag_check request_headers (Root_Cid resolved_cid) format;
        match check with
        | Some resp => Ok (RespondImmediately resp, response_headers)
        | None =>
            let response_headers := add_user_headers (ResponseFormat_write_headers format response_headers) (gs_user_headers st) in
            hv ← ok_or (header_value (Path_fmt path)) (GatewayError_new BAD_REQUEST "invalid header value");
            let response_headers := hm_insert HEADER_X_IPFS_PATH hv response_headers in
            Ok (ShouldRequestData
                  {| rq_format := format; rq_cid := path_root path; rq_resolved_path := path;
                     rq_query_file_name := default [] (gp_filename query_params);
                     rq_download := default false (gp_download query_params);
                     rq_query_params := query_params; rq_subdomain_mode := subdomain_mode;
                     rq_path_metadata := path_metadata |}, response_headers)
        end
  end.

(** ** Serving *)

Definition request_range (http_headers : HeaderMap) : option Range :=
  match hm_get (str "range") http_headers with Some v => parse_range_header v | None => None end.

Definition capped_range (range : Range) (size : option Z) : Range :=
  {| range_start := range_start range;
     range_end := match size with Some size => Z.min (range_end range) size | None => range_end range end |}.

(** [format!("{}.{ext}", req.cid)] if the query has no file name *)
Definition download_name (req : IpfsRequest) (ext : bytes) : bytes :=
  match rq_query_file_name req with [] => CidOrDomain_fmt (rq_cid req) ++ ext | n => n end.

(** The end of a response with a range *)
Definition serve_range (headers : HeaderMap) (body : PrettyStreamBody) (range : option Range) (size : option Z)
    : res GatewayError GatewayResponse :=
  match range with
  | Some range =>
      let range := capped_range range size in
      headers ← unwrapped (add_etag_range headers range);
      headers ← unwrapped (add_content_range_headers headers range size);
      Ok (GatewayResponse_new PARTIAL_CONTENT (Body_Stream body) headers)
  | None => Ok (GatewayResponse_new OK (Body_Stream body) headers)
  end.

Definition serve_raw (fuel : nat) (id : Z) (req : IpfsRequest) (headers http_headers : HeaderMap)
    : res GatewayError GatewayResponse :=
  let range := request_range http_headers in
  '(body, metadata) ← with_status INTERNAL_SERVER_ERROR
    (get_file fuel id (rq_resolved_path req) (Some (rq_path_metadata req)) range);
  match body with
  | FileResult_File body | FileResult_Raw body =>
      headers ← unwrapped (set_content_disposition_headers headers (download_name req (str ".bin")) (str "attachment"));
      headers ← unwrapped (set_etag_headers headers (get_etag (rq_cid req) (Some (rq_format req))));
      check ← etag_check headers (rq_cid req) (rq_format req);
      match check with
      | Some r => Ok r
      | None =>
          headers ← unwrapped (add_cache_control_headers headers metadata);
          headers ← unwrapped (add_ipfs_roots_headers headers metadata);
          headers ← unwrapped (add_content_length_header headers (md_size metadata));
          serve_range headers body range (md_size metadata)
      end
  | FileResult_Directory _ => Err (GatewayError_new INTERNAL_SERVER_ERROR "cannot serve directory as raw")
  end.

Definition serve_car (fuel : nat) (id : Z) (req : IpfsRequest) (headers : HeaderMap) : res GatewayError GatewayResponse :=
  '(body, metadata) ← with_status INTERNAL_SERVER_ERROR
    (get_file fuel id (rq_resolved_path req) (Some (rq_path_metadata req)) None);
  match body with
  | FileResult_File body | FileResult_Raw body =>
      headers ← unwrapped (set_content_disposition_headers headers (download_name req (str ".car")) (str "attachment"));
      headers ← unwrapped (add_cache_control_headers headers metadata);
      headers ← unwrapped (add_content_length_header headers (md_size metadata));
      headers ← unwrapped (set_etag_headers headers (str "W/" ++ get_etag (rq_cid req) (Some (rq_format req))));
      check ← etag_check headers (rq_cid req) (rq_format req);
      match check with
      | Some r => Ok r
      | None =>
          headers ← unwrapped (add_ipfs_roots_headers headers metadata);
          Ok (GatewayResponse_new OK (Body_Stream body) headers)
      end
  | FileResult_Directory _ => Err (GatewayError_new INTERNAL_SERVER_ERROR "cannot serve directory as car file")
  end.

Definition serve_car_recursive (req : IpfsRequest) (headers : HeaderMap) : res GatewayError GatewayResponse :=
  headers ← unwrapped (set_content_disposition_headers headers (download_name req (str ".car")) (str "attachment"));
  headers ← unwrapped (set_etag_headers headers (str "W/" ++ get_etag (rq_cid req) (Some (rq_format req))));
  check ← etag_check headers (rq_cid req) (rq_format req);
  match check with
  | Some r => Ok r
  | None => Ok (GatewayResponse_new OK (Body_Car (rq_resolved_path req)) headers)
  end.

(** [s.trim_matches('/')] *)
Definition trim_slashes (s : bytes) : bytes :=
  let fix front s := match s with b :: s' => if b =? SLASH then front s' else s | [] => [] end in
  reverse (front (reverse (front s))).

(** The elements of a path, each with the path up to it *)
Fixpoint breadcrumbs (base : bytes) (els : list bytes) : list (bytes * bytes) :=
  match els with
  | [] => []
  | el :: els => let path := base ++ SLASH :: url_encode el in (el, path) :: breadcrumbs path els
  end.

(** The page of a directory *)
Definition dir_page (st : GwState) (req : IpfsRequest) (dir_list : list Link) : DirPage :=
  let root_path := if has_trailing_slash (rq_resolved_path req) then rq_resolved_path req
                   else Path_push [] (rq_resolved_path req) in
  {| dp_breadcrumbs := breadcrumbs [] (split_on (Z.eqb SLASH) (trim_slashes (Path_fmt root_path)));
     dp_root_cid := match rq_cid req with Root_Cid c => Some (cid_to_str c) | Root_Domain _ => None end;
     dp_root_path := Path_fmt (rq_resolved_path req);
     dp_public_url_base := gs_public_url_base st;
     dp_links := (λ l, let name := default [] (link_name l) in
                       {| dl_name := get_filename name;
                          dl_size := format_size (default 0 (link_tsize l));
                          dl_path := Path_fmt root_path ++ name;
                          dl_icon := icon_class_name name |}) <$> dir_list |}.

(** [serve_fs_dir]; [serve] is [serve_fs]. *)
Definition serve_fs_dir (serve : IpfsRequest → HeaderMap → res GatewayError GatewayResponse)
    (st : GwState) (dir_list : list Link) (req : IpfsRequest) (headers : HeaderMap) : res GatewayError GatewayResponse :=
  let force_dir := default false (gp_force_dir (rq_query_params req)) in
  let has_index := existsb (λ l, match link_name l with Some n => starts_with_str (str "index.html") n | None => false end) dir_list in
  if negb force_dir && has_index then
    if negb (has_trailing_slash (rq_resolved_path req)) then
      redirect_permanently (request_path_for_redirection req ++ [SLASH] ++ to_query_string (rq_query_params req))
    else
      serve {| rq_format := rq_format req; rq_cid := rq_cid req;
               rq_resolved_path := Path_push (str "index.html") (rq_resolved_path req);
               rq_query_file_name := rq_query_file_name req; rq_download := rq_download req;
               rq_query_params := rq_query_params req; rq_subdomain_mode := rq_subdomain_mode req;
               rq_path_metadata := rq_path_metadata req |} headers
  else
    headers ← unwrapped (insert_str CONTENT_TYPE (str "text/html") headers);
    headers ← unwrapped (set_etag_headers headers (get_dir_etag (rq_cid req)));
    check ← etag_check headers (rq_cid req) (rq_format req);
    match check with
    | Some r => Ok r
    | None => Ok (GatewayResponse_new OK (Body_Text (render_dir_list (dir_page st req dir_list))) headers)
    end.

(** The length that is announced for a file *)
Definition body_length (range : option Range) (size : option Z) : option Z :=
  match range with Some r => Some (Int.wrap 64 (range_end r - range_start r)) | None => size end.

Definition serve_fs_file (req : IpfsRequest) (headers : HeaderMap) (body : PrettyStreamBody) (metadata : Metadata)
    (range : option Range) : res GatewayError GatewayResponse :=
  unixfs_type ← ok_or (md_unixfs_type metadata) (GatewayError_new BAD_REQUEST "couldn't determine unixfs type");
  headers ← unwrapped (add_cache_control_headers headers metadata);
  headers ← unwrapped (add_content_length_header headers (body_length range (md_size metadata)));
  headers ← unwrapped (set_etag_headers headers (get_etag (rq_cid req) (Some (rq_format req))));
  check ← etag_check headers (rq_cid req) (rq_format req);
  match check with
  | Some r => Ok r
  | None =>
      '(headers, name) ← unwrapped (add_content_disposition_headers headers (rq_query_file_name req)
                                      (rq_resolved_path req) (rq_download req));
      headers ← unwrapped (if decide (unixfs_type = UnixfsType_Symlink)
                           then insert_str CONTENT_TYPE (str "inode/symlink") headers
                           else add_content_type_headers headers name (sb_mime body));
      serve_range headers body range (md_size metadata)
  end.

Definition serve_fs_raw (req : IpfsRequest) (headers : HeaderMap) (body : PrettyStreamBody) (metadata : Metadata)
    (range : option Range) : res GatewayError GatewayResponse :=
  headers ← unwrapped (add_cache_control_headers headers metadata);
  headers ← unwrapped (add_content_length_header headers (body_length range (md_size metadata)));
  headers ← unwrapped (set_etag_headers headers (get_etag (rq_cid req) (Some (rq_format req))));
  check ← etag_check headers (rq_cid req) (rq_format req);
  match check with
  | Some r => Ok r
  | None =>
      '(headers, name) ← unwrapped (add_content_disposition_headers headers (rq_query_file_name req)
                                      (rq_resolved_path req) (rq_download req));
      headers ← unwrapped (add_content_type_headers headers name (sb_mime body));
      Ok (GatewayResponse_new OK (Body_Stream body) headers)
  end.

(** [depth] counts the recursion through [serve_fs_dir]; [None] is the lack of it. *)
Fixpoint serve_fs (depth fuel : nat) (st : GwState) (id : Z) (http_headers : HeaderMap) (req : IpfsRequest)
    (headers : HeaderMap) : res GatewayError GatewayResponse :=
  let range := request_range http_headers in
  '(body, metadata) ← with_status INTERNAL_SERVER_ERROR
    (get_file fuel id (rq_resolved_path req) (Some (rq_path_metadata req)) range);
  headers ← unwrapped (add_ipfs_roots_headers headers metadata);
  match body with
  | FileResult_Directory o =>
      stream ← unwrap (unixfs_read_dir load_cid fuel o);
      dir_list ← match try_collect stream with
                 | Ok l => Ok l
                 | Err _ => Err (GatewayError_new INTERNAL_SERVER_ERROR "failed to read dir listing")
                 | Panic => Panic
                 end;
      match depth with
      | O => Panic
      | S depth => serve_fs_dir (serve_fs depth fuel st id http_headers) st dir_list req headers
      end
  | FileResult_File body => serve_fs_file req headers body metadata range
  | FileResult_Raw body => serve_fs_raw req headers body metadata range
  end.

(** ** Handlers *)

Definition handler (depth fuel : nat) (st : GwState) (id : Z) (method : Method) (path : Path) (query_params : GetParams)
    (request_headers : HeaderMap) (subdomain_mode : bool) : res GatewayError GatewayResponse :=
  '(r, response_headers) ← request_preprocessing st id path query_params request_headers ∅ subdomain_mode;
  match r with
  | RespondImmediately resp => Ok resp
  | ShouldRequestData req =>
      match method with
      | Method_HEAD =>
          h ← unwrapped (add_content_length_header response_headers (md_size (out_metadata (rq_path_metadata req))));
          Ok (GatewayResponse_new OK Body_Empty h)
      | Method_GET =>
          if default false (gp_recursive query_params) then serve_car_recursive req response_headers
          else match rq_format req with
               | Format_Raw => serve_raw fuel id req response_headers request_headers
               | Format_Car => serve_car fuel id req response_headers
               | Format_Fs _ => serve_fs depth fuel st id request_headers req response_headers
               end
      | Method_Other => Err (GatewayError_new METHOD_NOT_ALLOWED "method not allowed")
      end
  end.

Definition maybe_html_error (err : GatewayError) (method : Method) (headers : HeaderMap) : res GatewayError GatewayError :=
  let e html := {| ge_status := ge_status err; ge_message := ge_message err; ge_method := Some method; ge_html := html |} in
  match hm_get (str "accept") headers with
  | Some v => accept ← unwrap (header_str v); Ok (e (ge_html err || contains_str (str "text/html") accept))
  | None => Ok (e (ge_html err))
  end.

(** [impl IntoResponse for GatewayError], without the trace *)
Definition GatewayError_into_response (e : GatewayError) : GatewayResponse :=
  match ge_method e with
  | Some Method_HEAD => GatewayResponse_new (ge_status e) Body_Empty ∅
  | _ =>
      if ge_html e && (ge_status e =? NOT_FOUND)
      then GatewayResponse_new (ge_status e) (Body_Text not_found_template) (hm_insert CONTENT_TYPE (str "text/html") ∅)
      else GatewayResponse_new (ge_status e) (Body_Text (render_error (ge_status e) (ge_message e)))
             (hm_insert CONTENT_TYPE (str "application/json") ∅)
  end.

(** What the layers around the handlers fail with *)
Inductive BoxError := BoxError_Gateway (e : GatewayError) | BoxError_Elapsed | BoxError_Overloaded | BoxError_Other (e : string).

Definition middleware_error_handler (request_headers : HeaderMap) (method : Method) (err : BoxError) : res GatewayError GatewayError :=
  match err with
  | BoxError_Gateway err => maybe_html_error err method request_headers
  | BoxError_Elapsed => Ok (GatewayError_new GATEWAY_TIMEOUT "request timed out")
  | BoxError_Overloaded => Ok (GatewayError_new TOO_MANY_REQUESTS "service is overloaded, try again later")
  | BoxError_Other err => Ok (GatewayError_new INTERNAL_SERVER_ERROR ("unhandled internal error: " ++ err))
  end.

(** The answer to a HEAD request loses its body. *)
Definition request_middleware (method : Method) (r : GatewayResponse) : GatewayResponse :=
  match method with
  | Method_HEAD => GatewayResponse_new (gr_status r) Body_Empty (gr_headers r)
  | _ => r
  end.

(** What is sent for the outcome of a handler *)
Definition into_response (method : Method) (r : res GatewayError GatewayResponse) : option GatewayResponse :=
  match r with
  | Ok r => Some (request_middleware method r)
  | Err e => Some (request_middleware method (GatewayError_into_response e))
  | Panic => None
  end.

Definition map_html_error (method : Method) (headers : HeaderMap) (r : res GatewayError GatewayResponse)
    : res GatewayError GatewayResponse :=
  match r with
  | Err e => e ← maybe_html_error e method headers; Err e
  | r => r
  end.

Definition subdomain_handler (depth fuel : nat) (st : GwState) (id : Z) (method : Method) (host : bytes)
    (content_path : option bytes) (query_params : GetParams) (request_headers : HeaderMap) : res GatewayError GatewayResponse :=
  sub ← ok_or (IpfsSubdomain_try_from_str host) (GatewayError_new BAD_REQUEST "hostname is not compliant");
  path ← with_status BAD_REQUEST
    (Path_from_parts (sub_scheme sub) (inlined_dns_link_to_dns_link (sub_cid_or_domain sub)) (default [SLASH] content_path));
  map_html_error method request_headers (handler depth fuel st id method path query_params request_headers true).

Definition path_handler (depth fuel : nat) (st : GwState) (id : Z) (method : Method) (host scheme cid_or_domain : bytes)
    (content_path : option bytes) (query_params : GetParams) (request_headers : HeaderMap) : res GatewayError GatewayResponse :=
  path ← with_status BAD_REQUEST (Path_from_parts scheme cid_or_domain (default [] content_path));
  if gs_redirect_to_subdomain st then redirect_path_handlers host path request_headers
  else map_html_error method request_headers (handler depth fuel st id method path query_params request_headers true).
End handlers.

(** ** The deny list *)

Section denylist.
Context `{WebLib}.

(** An anchor in hexadecimal; what is shorter than 32 bytes panics. *)
Definition de_from_str (s : bytes) : res string bytes :=
  b ← unwrap (hex_decode s);
  if (length b <? 32)%nat then Panic else Ok (take 32 b).

(** A turn of the task that updates the list: the answer to the request is a status and a body. *)
Definition updater_turn (answer : res string (Z * res string bytes)) (denylist : list bytes) : res string (list bytes) :=
  match answer with
  | Ok (status, body) =>
      if (200 <=? status) && (status <? 300) then
        match body with
        | Ok body =>
            if 2 ^ 26 <? Z.of_nat (length body) then Ok denylist
            else anchors ← unwrap (denylist_anchors body); collect (de_from_str <$> anchors)
        | _ => Panic
        end
      else Ok denylist
  | _ => Panic
  end.
End denylist.
