(* ===== verification/HandlersFacts.v ===== *)
(** * Theorems on the requests of the gateway

    A range request is answered with exactly the bytes it asks for, denied content is not
    served, a recursive download is an archive of the whole graph, and a redirection to a
    subdomain leads to the same path. *)

From stdpp Require Import prelude strings list gmap.
From Stdlib Require Import ZArith Lia.
From S2P Require Import Prelude Cids Car CarFacts Bits Unixfs Chunker ChunkerFacts Reader ReaderFacts Builder Hamt BuilderFacts HamtFacts.
From S2P Require Import Paths PathsFacts Resolver ResolverFacts Gateway GatewayFacts Handlers.
Local Open Scope Z_scope.

#[local] Arguments str : simpl never.
#[local] Arguments hm_get : simpl never.
#[local] Arguments hm_insert : simpl never.

(** ** Icons *)

Lemma last_elem_of {A} (l : list A) x : last l = Some x → x ∈ l.
Proof. apply last_Some_elem_of. Qed.

(** No file has an icon of its own: the names of the icons start with a dot and an extension has none. *)
Theorem icons_are_blank path : icon_class_name path = str "icon-_blank".
Proof.
  unfold icon_class_name. rewrite decide_False; [done|].
  assert (∀ ext, dot ∉ ext → ext ∉ KNOWN_ICONS) as Hext.
  { intros ext Hd Hin. apply Hd. revert Hin.
    assert (Forall (λ i, dot ∈ i) KNOWN_ICONS) as Hall by (apply (bool_decide_unpack _); by vm_compute).
    rewrite Forall_forall in Hall. apply Hall. }
  apply Hext. unfold file_extension. destruct (file_name path) as [s|]; [|by intros ?%elem_of_nil].
  pose proof (split_on_parts (Z.eqb dot) s) as Hp. rewrite Forall_forall in Hp.
  assert (∀ x, x ∈ split_on (Z.eqb dot) s → dot ∉ x) as Hx.
  { intros x Hx Hin. specialize (Hp x Hx). rewrite Forall_forall in Hp. specialize (Hp _ Hin). by rewrite Z.eqb_refl in Hp. }
  destruct (split_on (Z.eqb dot) s) as [|a [|b l]] eqn:E;
    [by intros ?%elem_of_nil|by destruct a; intros ?%elem_of_nil|].
  assert (∀ y, last (a :: b :: l) = Some y → dot ∉ y) as Hlast by (intros y Hy; by apply Hx, last_elem_of).
  destruct a as [|a0 a]; [destruct l as [|c l]; [by intros ?%elem_of_nil|]|];
    (destruct (last _) as [y|] eqn:Hy; [by apply Hlast|by intros ?%elem_of_nil]).
Qed.

(** ** Bodies *)

Section bodies.
Context `{UnixfsProto} `{!PathText} `{!IpldLib} `{!GatewayLib} `{!WebLib}.
Context (load_cid : Cid → res string LoadedCid).
Abbreviation load := (loader_of (fetch_data load_cid)).

(** The body is polled with the given rooms. *)
Fixpoint body_polls (fuel : nat) (rooms : list Z) (b : PrettyStreamBody) : res string (list (option bytes)) :=
  match rooms with
  | [] => Ok []
  | room :: rooms =>
      '(x, b) ← poll_data load_cid fuel room b;
      xs ← body_polls fuel rooms b;
      Ok (x :: xs)
  end.

(** The body yields pieces of [rest], then the end: it is never over before and never yields more. *)
Definition body_yields (fuel : nat) (b : PrettyStreamBody) (rest : bytes) : Prop :=
  ∀ rooms, Forall (λ k, 0 < k) rooms → (length rest < length rooms)%nat →
    ∃ chunks m, body_polls fuel rooms b = Ok ((Some <$> chunks) ++ replicate (S m) None) ∧ mjoin chunks = rest.

Definition byte_slice (content : bytes) (from to : Z) : bytes :=
  take (Z.to_nat (to - from)) (drop (Z.to_nat from) content).

Lemma byte_slice_split content pos n lim out :
  out = take n (drop (Z.to_nat pos) content) → n = length out → 0 ≤ pos → pos + Z.of_nat n ≤ lim →
  byte_slice content pos lim = out ++ byte_slice content (pos + Z.of_nat n) lim.
Proof.
  intros Ho Hn Hp Hle. unfold byte_slice. rewrite Ho at 1.
  replace (Z.to_nat (lim - pos)) with (n + Z.to_nat (lim - (pos + Z.of_nat n)))%nat by lia.
  rewrite <-take_take_drop, drop_drop. do 3 f_equal. lia.
Qed.

Lemma byte_slice_all content : byte_slice content 0 (Z.of_nat (length content)) = content.
Proof. unfold byte_slice. rewrite Z.sub_0_r, Nat2Z.id, firstn_all. done. Qed.

(** ** A reader that is a cursor *)

Section cursor.
Context (fuel : nat) (content : bytes) (lim : Z) (size : option Z) (at_pos : OutPrettyReader → Z → Prop).
Context (Hat : ∀ p pos k, at_pos p pos → 0 < k → 0 ≤ pos ≤ lim → ∃ out p',
  pretty_poll_read fuel load k p = Some (Ready (Ok out), p') ∧ at_pos p' (pos + Z.of_nat (length out)) ∧
  cursor_step content lim size pos (Op_read k) (Ready (Ok out)) (pos + Z.of_nat (length out))).

Lemma read_slice_of p pos k : at_pos p pos → 0 < k → 0 ≤ pos ≤ lim → ∃ out p',
  pretty_poll_read fuel load k p = Some (Ready (Ok out), p') ∧ at_pos p' (pos + Z.of_nat (length out)) ∧
  pos + Z.of_nat (length out) ≤ lim ∧ byte_slice content pos lim = out ++ byte_slice content (pos + Z.of_nat (length out)) lim ∧
  (out = [] → pos = lim).
Proof using Hat.
  intros Hp Hk Hpos. destruct (Hat p pos k Hp Hk Hpos) as (out & p' & Hr & Hp' & Hs).
  inversion Hs as [? ? ? Ho Hle Hend Hne| |]; subst. exists out, p'.
  assert (pos + Z.of_nat (length out) ≤ lim) as Hend' by (destruct (decide (out = [])) as [->|]; [simpl; lia|auto]).
  split_and!; try done.
  - by apply byte_slice_split; [..|lia|].
  - intros ->. destruct (decide (pos < lim)) as [Hlt|]; [by destruct (Hne Hlt)|lia].
Qed.

(** What a body is about to yield *)
Definition body_at (b : PrettyStreamBody) (rest : bytes) : Prop :=
  ∃ pos, at_pos (sb_reader b) pos ∧ 0 ≤ pos ≤ lim ∧ rest = sb_buffer b ++ byte_slice content pos lim.

Lemma poll_data_ok b rest room : body_at b rest → 0 < room →
  ∃ x b' rest', poll_data load_cid fuel room b = Ok (x, b') ∧ body_at b' rest' ∧
    match x with Some chunk => chunk ≠ [] ∧ rest = chunk ++ rest' | None => rest = [] ∧ rest' = [] end.
Proof using Hat.
  intros (pos & Hp & Hpos & ->) Hroom.
  assert (∃ avail reader pos', 0 ≤ pos' ≤ lim ∧ at_pos reader pos' ∧
    (match sb_buffer b with [] => fill_buf load_cid fuel (sb_reader b) | avail => Ok (avail, sb_reader b) end) = Ok (avail, reader) ∧
    sb_buffer b ++ byte_slice content pos lim = avail ++ byte_slice content pos' lim ∧ (avail = [] → pos' = lim))
    as (avail & reader & pos' & Hpos' & Hr & Hfill & Hrest & Hend).
  { destruct (sb_buffer b) as [|x buf]; [|by exists (x :: buf), (sb_reader b), pos].
    destruct (read_slice_of (sb_reader b) pos (1024 * 1024) Hp ltac:(lia) Hpos) as (out & p' & Hread & Hp' & Hle & Hs & He).
    exists out, p', (pos + Z.of_nat (length out)). unfold fill_buf. change (load_poll load_cid) with load. rewrite Hread.
    split; [lia|]. split_and!; try done. intros ->. simpl. specialize (He eq_refl). lia. }
  unfold poll_data. rewrite Hfill. cbn [mbind res_bind]. eexists _, _, (drop (Z.to_nat room) avail ++ byte_slice content pos' lim).
  split; [done|]. split; [by exists pos'|]. rewrite Hrest. destruct avail as [|a avail].
  - rewrite take_nil, drop_nil. rewrite (Hend eq_refl). unfold byte_slice. by rewrite Z.sub_diag.
  - destruct (take (Z.to_nat room) (a :: avail)) as [|c chunk] eqn:Et.
    { destruct (Z.to_nat room) eqn:?; [lia|done]. }
    split; [done|]. by rewrite <-Et, app_assoc, take_drop.
Qed.

Lemma body_at_yields b rest : body_at b rest → body_yields fuel b rest.
Proof using Hat.
  intros Hb rooms Hrooms. revert b rest Hb. induction Hrooms as [|room rooms Hroom Hrooms IH]; intros b rest Hb Hlen; simpl in Hlen; [lia|].
  destruct (poll_data_ok b rest room Hb Hroom) as (x & b' & rest' & Hpoll & Hb' & Hx). cbn [body_polls]. rewrite Hpoll. cbn [mbind res_bind].
  destruct x as [chunk|].
  - destruct Hx as [Hne ->]. rewrite length_app in Hlen. destruct chunk as [|c chunk]; [done|]. simpl in Hlen.
    destruct (IH b' rest' Hb' ltac:(lia)) as (chunks & m & -> & <-). by exists ((c :: chunk) :: chunks), m.
  - destruct Hx as [-> ->]. clear Hlen. exists [], (length rooms). split; [|done]. cbn [fmap list_fmap app replicate].
    assert (body_polls fuel rooms b' = Ok (replicate (length rooms) None)) as ->; [|done].
    clear -Hat Hrooms Hb'. revert b' Hb'. induction Hrooms as [|room rooms Hroom Hrooms IH]; intros b Hb; [done|].
    destruct (poll_data_ok b [] room Hb Hroom) as (x & b' & rest' & Hpoll & Hb' & Hx). cbn [body_polls length replicate].
    rewrite Hpoll. cbn [mbind res_bind]. destruct x as [chunk|]; [by destruct Hx as [? [? _]%eq_sym%app_eq_nil]|].
    destruct Hx as [_ ->]. by rewrite IH.
Qed.
End cursor.

(** ** Files *)

(** A node that stands for the given content: a raw block, or the root of a file with [k] nodes below it *)
Definition file_content (u : UnixfsNode) (content : bytes) (k : nat) : Prop :=
  u = Raw content ∨ ∃ n, u = File n ∧ file_root load n content k.

Section file.
Context (u : UnixfsNode) (content : bytes) (k fuel : nat) (e : option Z).
Context (Hu : file_content u content k) (Hlen : Z.of_nat (length content) < 2 ^ 63).
Context (He : match e with Some e => 0 ≤ e < 2 ^ 63 | None => True end) (Hfuel : (3 * k + 2 < fuel)%nat).

(** A reader of the file that stops before [e], if it is given *)
Definition file_at (p : OutPrettyReader) (pos : Z) : Prop :=
  ∃ r, p = Pretty_Unixfs r ∧ rd_root r = u ∧ rd_pos_max r = e ∧ rd_pos r = pos ∧
    ∀ n, u = File n → reader_at load content (3 * k + 2) r.
Definition file_limit : Z :=
  match e with Some e => Z.min e (Z.of_nat (length content)) | None => Z.of_nat (length content) end.

Lemma file_at_limit r : rd_pos_max r = e → limit content r = file_limit.
Proof. intros E. unfold limit. by rewrite E. Qed.

Lemma file_limit_bounds : 0 ≤ file_limit ≤ Z.of_nat (length content).
Proof using He. clear -He. unfold file_limit. destruct e; lia. Qed.

Lemma file_new : ∃ p, (r ← into_content_reader u e; reader ← ok_or r "cannot read the contents of a directory"%string;
    Ok (Pretty_Unixfs reader)) = Ok p ∧ file_at p 0.
Proof using Hu Hlen He Hfuel.
  destruct Hu as [Eu|(n & Eu & Hn)].
  - rewrite Eu. eexists. split; [done|]. eexists. split; [done|]. split_and!; try done. intros n. congruence.
  - rewrite Eu. destruct (into_content_reader_at load n content k e Hn ltac:(lia) He) as (r & -> & Hr & Hp & Hm & Ern).
    eexists. split; [done|]. exists r. split_and!; try done. congruence.
Qed.

Lemma file_read p pos room : file_at p pos → 0 < room → 0 ≤ pos ≤ file_limit → ∃ out p',
  pretty_poll_read fuel load room p = Some (Ready (Ok out), p') ∧ file_at p' (pos + Z.of_nat (length out)) ∧
  cursor_step content file_limit (unixfs_size u) pos (Op_read room) (Ready (Ok out)) (pos + Z.of_nat (length out)).
Proof using Hu Hlen He Hfuel.
  intros (r & -> & Er & Em & <- & Hr) Hroom Hpos. rewrite <-(file_at_limit r Em) in Hpos |- *. cbn [pretty_poll_read].
  assert (∃ out r', poll_read fuel load room r = Some (Ready (Ok out), r') ∧ good_read content room r out r' ∧
    ∀ n, u = File n → reader_at load content (3 * k + 2) r') as (out & r' & -> & Hg & Hr').
  { destruct Hu as [Eu|(n & Eu & Hn)].
    - rewrite Eu in Er. destruct (raw_read_ok fuel load content room r) as (out & r' & Hx & Hg & _); try done;
        [unfold limit in Hpos; destruct (rd_pos_max r); lia|unfold limit in Hpos; rewrite Em in Hpos |- *; destruct e; [lia|done]|]. exists out, r'. split_and!; try done. intros n. congruence.
    - destruct (poll_read_file_at_ok load content _ fuel room n r Hroom (Hr n Eu) ltac:(congruence) Hfuel) as (out & r' & Hx & Hg & Hr').
      exists out, r'. unfold poll_read. rewrite Er, Eu. by split_and!. }
  pose proof Hg as (_ & Ep & _ & _ & _ & Em' & Er'). eexists _, _. split; [done|]. rewrite <-Ep. split.
  - exists r'. split_and!; try done; congruence.
  - by apply good_read_cursor.
Qed.

Lemma file_seek p pos first : file_at p pos → 0 ≤ first < Z.of_nat (length content) →
  ∃ p', pretty_start_seek (SeekStart first) p = (Ok tt, p') ∧ file_at p' first.
Proof using Hu Hlen He Hfuel.
  intros (r & -> & Er & Em & <- & Hr) Hf. cbn [pretty_start_seek]. destruct Hu as [Eu|(n & Eu & Hn)].
  - unfold start_seek. rewrite Er, Eu. cbn [links_owned unixfs_size seek_pos]. rewrite (proj2 (Z.eqb_neq _ 0)) by lia.
    rewrite Z.min_l by lia. eexists. split; [done|]. eexists. split; [done|]. split_and!; try done. intros n. congruence.
  - destruct (start_seek_ok load n content k Hn (SeekStart first) r (Hr n Eu) ltac:(congruence)) as (x & r' & -> & Hr' & Er' & Em' & Hx & _);
      [simpl; lia|].
    pose proof (file_root_size load n content k Hn) as Hsz.
    assert (seek_pos (node_size n) (rd_pos r) (SeekStart first) = Ok first) as Hseek.
    { cbn [seek_pos]. destruct (node_size n) as [len|]; [|done]. destruct Hsz as [-> _]. rewrite (proj2 (Z.eqb_neq _ 0)) by lia.
      by rewrite Z.min_l by lia. }
    apply Hx in Hseek as [-> Hp]. eexists. split; [done|exists r'; split_and!; try done; congruence].
Qed.

(** The body of a range request *)
Lemma file_range first : 0 ≤ first < file_limit →
  ∃ p sample p1 p2, (r ← into_content_reader u e; reader ← ok_or r "cannot read the contents of a directory"%string;
      Ok (Pretty_Unixfs reader)) = Ok p ∧
    fill_buf load_cid fuel p = Ok (sample, p1) ∧ pretty_start_seek (SeekStart first) p1 = (Ok tt, p2) ∧
    ∀ size mime, body_yields fuel {| sb_buffer := []; sb_reader := p2; sb_size := size; sb_mime := mime |}
                   (byte_slice content first file_limit).
Proof using Hu Hlen He Hfuel.
  intros Hf. pose proof file_limit_bounds as Hl. destruct file_new as (p & Hp & Hat).
  destruct (file_read p 0 (1024 * 1024) Hat) as (sample & p1 & Hread & Hat1 & _); [lia|lia|].
  destruct (file_seek p1 _ first Hat1 ltac:(lia)) as (p2 & Hseek & Hat2).
  exists p, sample, p1, p2. split; [done|]. split; [|split; [done|]].
  - unfold fill_buf. change (load_poll load_cid) with load. by rewrite Hread.
  - intros size mime. apply (body_at_yields fuel content file_limit (unixfs_size u) file_at file_read).
    exists first. split; [done|]. split; [lia|done].
Qed.

(** The body of a request without a range: it starts with the sample *)
Lemma file_whole :
  ∃ p sample p1, (r ← into_content_reader u e; reader ← ok_or r "cannot read the contents of a directory"%string;
      Ok (Pretty_Unixfs reader)) = Ok p ∧
    fill_buf load_cid fuel p = Ok (sample, p1) ∧
    ∀ size mime, body_yields fuel {| sb_buffer := sample; sb_reader := p1; sb_size := size; sb_mime := mime |}
                   (byte_slice content 0 file_limit).
Proof using Hu Hlen He Hfuel.
  pose proof file_limit_bounds as Hl. destruct file_new as (p & Hp & Hat).
  destruct (read_slice_of fuel content file_limit (unixfs_size u) file_at file_read p 0 (1024 * 1024) Hat)
    as (sample & p1 & Hread & Hat1 & Hle & Hs & _); [lia|lia|].
  exists p, sample, p1. split; [done|]. split; [unfold fill_buf; change (load_poll load_cid) with load; by rewrite Hread|].
  intros size mime. apply (body_at_yields fuel content file_limit (unixfs_size u) file_at file_read).
  exists (0 + Z.of_nat (length sample)). split; [done|]. split; [lia|done].
Qed.
End file.
End bodies.

(** ** Response headers *)

(** The media type found in a sample is visible text. *)
Class WebLibLaws `{WebLib} : Prop := { sniff_visible s : Forall visible (sniff_content_type s) }.

Ltac visible_literal := by apply (bool_decide_unpack _); vm_compute.

Section headers.
Context `{GatewayLibLaws} `{!PathText}.

Lemma hm_get_insert (name v : bytes) (h : HeaderMap) : hm_get name (hm_insert name v h) = Some v.
Proof. unfold hm_get, hm_insert. by rewrite lookup_insert_eq. Qed.

(** Only the header of the given name may differ. *)
Definition only (name : bytes) (h h' : HeaderMap) : Prop := ∀ n, n ≠ name → h' !! n = h !! n.

Lemma insert_str_ok name v h : Forall visible v →
  insert_str name v h = Ok (hm_insert name v h) ∧ only name h (hm_insert name v h).
Proof.
  intros Hv. unfold insert_str. rewrite header_visible by done. split; [done|]. intros n Hn. by apply lookup_insert_ne.
Qed.

Lemma only_refl name h : only name h h.
Proof. done. Qed.

Lemma roots_ok h metadata : Forall (λ c, Forall visible (cid_to_str c)) (md_resolved_path metadata) →
  ∃ h', add_ipfs_roots_headers h metadata = Ok h' ∧ only HEADER_X_IPFS_ROOTS h h'.
Proof.
  intros Hc. unfold add_ipfs_roots_headers. eexists. apply insert_str_ok.
  assert (∀ l : bytes, Forall visible l → Forall visible (removelast l)) as Hrl.
  { intros l. induction 1 as [|x l Hx Hl IH]; [constructor|]. destruct l; [constructor|]. by constructor. }
  apply Hrl. induction Hc as [|c l Hc Hl IH]; [constructor|]. cbn [fmap list_fmap]. rewrite mjoin_cons.
  apply Forall_app; split; [|done]. apply Forall_app; split; [done|visible_literal].
Qed.

Lemma cache_control_ok `{!IpldLib} h metadata : ∃ h' name,
  add_cache_control_headers h metadata = Ok h' ∧ (name = CACHE_CONTROL ∨ name = LAST_MODIFIED) ∧ only name h h'.
Proof.
  unfold add_cache_control_headers. case_bool_decide.
  - eexists _, _. destruct (insert_str_ok LAST_MODIFIED now_text h now_visible) as [-> Ho]. split_and!; [done|by right|done].
  - eexists _, CACHE_CONTROL. split; [done|]. split; [by left|]. intros n Hn. by apply lookup_insert_ne.
Qed.

Lemma content_length_ok h size : match size with Some n => 0 ≤ n | None => True end →
  ∃ h', add_content_length_header h size = Ok h' ∧ only CONTENT_LENGTH h h' ∧
    match size with Some n => hm_get CONTENT_LENGTH h' = Some (usize_to_string n) | None => True end.
Proof.
  intros Hn. destruct size as [n|]; [|by exists h]. cbn [add_content_length_header]. eexists.
  destruct (insert_str_ok CONTENT_LENGTH (usize_to_string n) h (usize_visible n Hn)) as [-> Ho].
  split; [done|]. split; [done|]. apply hm_get_insert.
Qed.

Lemma etag_ok h etag : Forall visible etag →
  ∃ h', set_etag_headers h etag = Ok h' ∧ only ETAG h h' ∧ hm_get ETAG h' = Some etag.
Proof.
  intros Hv. eexists. unfold set_etag_headers. destruct (insert_str_ok ETAG etag h Hv) as [-> Ho]. split; [done|].
  split; [done|]. apply hm_get_insert.
Qed.

Lemma filename_visible s : Forall visible s → Forall visible (get_filename s).
Proof.
  intros Hs. unfold get_filename. destruct (last _) as [x|] eqn:E; [|constructor].
  apply last_Some_elem_of, list_elem_of_filter in E as [_ Hin]. simpl. revert x Hin.
  induction Hs as [|b s Hb Hs IH]; cbn [split_on]; intros x Hin.
  { apply list_elem_of_singleton in Hin as ->. constructor. }
  destruct (SLASH =? b); [apply elem_of_cons in Hin as [->|Hin]; [constructor|by apply IH]|].
  destruct (split_on (Z.eqb SLASH) s) as [|part parts]; [apply list_elem_of_singleton in Hin as ->; by apply Forall_singleton|].
  apply elem_of_cons in Hin as [->|Hin]; [constructor; [done|]; apply IH|apply IH]; by constructor.
Qed.

Lemma disposition_ok h filename path (download : bool) : Forall visible filename → Forall visible (Path_fmt path) →
  ∃ h' name, add_content_disposition_headers h filename path download = Ok (h', name) ∧ only CONTENT_DISPOSITION h h'.
Proof.
  intros Hf Hp. unfold add_content_disposition_headers.
  set (name := match filename with [] => get_filename (Path_fmt path) | _ => filename end).
  assert (Forall visible name) as Hname by (unfold name; destruct filename; [by apply filename_visible|done]).
  clearbody name. destruct (insert_str_ok CONTENT_DISPOSITION
    ((if download then str "attachment" else str "inline") ++ str "; filename=" ++ name) h) as [Hi Ho].
  { apply Forall_app; split; [destruct download; visible_literal|]. by apply Forall_app; split; [visible_literal|]. }
  destruct name as [|c name]; [by exists h, []|]. unfold set_content_disposition_headers. rewrite Hi.
  eexists _, _. by split.
Qed.

Lemma content_type_ok h name mime : match mime with Some m => Forall visible m | None => True end →
  ∃ h', add_content_type_headers h name mime = Ok h' ∧ only CONTENT_TYPE h h'.
Proof.
  intros Hm. unfold add_content_type_headers. cbv zeta.
  set (ct := match mime_guess name with Some ct => ct | None => default [] mime end).
  assert (Forall visible ct) as Hct.
  { unfold ct. destruct (mime_guess name) as [m|] eqn:E; [by eapply mime_guess_visible|]. destruct mime; [exact Hm|constructor]. }
  set (ct1 := if starts_with_str (str "text/") ct && negb (contains_str (str "charset") ct) then ct ++ str "; charset=utf-8" else ct).
  assert (Forall visible ct1) as Hct1.
  { clearbody ct. unfold ct1. destruct (_ && _); [|done]. apply Forall_app; split; [done|visible_literal]. }
  set (ct2 := if starts_with_str (str "text/html") ct1 then str "text/html" else ct1).
  assert (Forall visible ct2) as Hct2 by (unfold ct2; clearbody ct1; destruct (starts_with_str _ _); [visible_literal|done]).
  clearbody ct2. destruct ct2 as [|c ct2]; [by exists h|]. eexists. by apply insert_str_ok.
Qed.

Lemma trim_quotes_visible s : Forall visible s → Forall visible (trim_end_quotes s).
Proof.
  induction 1 as [|b s Hb Hs IH]; [constructor|]. cbn [trim_end_quotes]. destruct (trim_end_quotes s); [|by constructor].
  case_match; [constructor|by apply Forall_singleton].
Qed.

Lemma etag_range_ok h range etag : hm_get ETAG h = Some etag → Forall visible etag →
  0 ≤ range_start range → 0 < range_end range < 2 ^ 64 →
  ∃ h', add_etag_range h range = Ok h' ∧ only ETAG h h'.
Proof.
  intros He Hv Hs Hend. unfold add_etag_range. destruct (h !! ETAG) as [l|] eqn:E; [|by exists h].
  rewrite He. cbn [unwrap mbind res_bind]. rewrite header_visible_str by done. cbn [unwrap mbind res_bind].
  eexists. apply insert_str_ok. rewrite Int.wrap_id by (unfold Int.in_u; lia).
  repeat (apply Forall_app; split); first [by apply trim_quotes_visible | apply usize_visible; lia | visible_literal].
Qed.

(** The value of the Content-Range header *)
Definition content_range (range : Range) (size : Z) : bytes :=
  str "bytes " ++ usize_to_string (range_start range) ++ str "-" ++ usize_to_string (range_end range - 1)
  ++ str "/" ++ usize_to_string size.

Lemma content_range_ok h range size : 0 ≤ range_start range → 0 < range_end range → 0 ≤ size →
  ∃ h', add_content_range_headers h range (Some size) = Ok h' ∧ only CONTENT_RANGE h h' ∧
    hm_get CONTENT_RANGE h' = Some (content_range range size).
Proof.
  intros Hs He Hsize. unfold add_content_range_headers. rewrite (proj2 (Z.eqb_neq _ 0)) by lia. eexists.
  edestruct insert_str_ok as [Hi Ho]; [|rewrite Hi].
  - repeat (apply Forall_app; split); first [apply usize_visible; lia | visible_literal].
  - split; [done|]. split; [done|]. apply hm_get_insert.
Qed.
End headers.

(** ** Range requests *)

Section range_requests.
Context `{UnixfsProto} `{!PathText} `{!IpldLib} `{!GatewayLib} `{!WebLib} `{!CarLib} `{!GatewayLibLaws} `{!WebLibLaws}.
Context (load_cid : Cid → res string LoadedCid) (dns : DnsResolver) (murmur3 : bytes → Z).

(** What a response repeats of a request is visible text. *)
Definition printable_request (req : IpfsRequest) : Prop :=
  Forall visible (get_etag (rq_cid req) (Some (rq_format req))) ∧ Forall visible (rq_query_file_name req) ∧
  Forall visible (Path_fmt (rq_resolved_path req)) ∧
  Forall (λ c, Forall visible (cid_to_str c)) (md_resolved_path (out_metadata (rq_path_metadata req))).

Lemma only_get name m h h' : only name h h' → m ≠ name → hm_get m h' = hm_get m h.
Proof. intros Ho Hm. unfold hm_get. by rewrite Ho. Qed.

Lemma etag_check_none h cid f : hm_get (str "if-none-match") h = None → etag_check h cid f = Ok None.
Proof. intros E. unfold etag_check. by rewrite E. Qed.

(** The end of a range response *)
Lemma serve_range_ok h body range size etag :
  hm_get ETAG h = Some etag → Forall visible etag → 0 ≤ range_start range < range_end (capped_range range (Some size)) →
  range_end range < 2 ^ 64 → 0 ≤ size →
  ∃ h', serve_range h body (Some range) (Some size) = Ok (GatewayResponse_new PARTIAL_CONTENT (Body_Stream body) h') ∧
    hm_get CONTENT_RANGE h' = Some (content_range (capped_range range (Some size)) size).
Proof.
  intros He Hv Hr Hend Hsize. unfold serve_range. set (r := capped_range range (Some size)) in *.
  assert (range_start r = range_start range ∧ range_end r ≤ range_end range) as [Es Ee] by (unfold r; cbn; lia).
  destruct (etag_range_ok h r etag) as (h1 & -> & Ho1); [done|done|lia|lia|]. cbn [unwrapped mbind res_bind].
  destruct (content_range_ok h1 r size) as (h2 & -> & _ & Hcr); [lia|lia|done|]. cbn [unwrapped mbind res_bind].
  by exists h2.
Qed.

Ltac unseen := by apply (bool_decide_unpack _); vm_compute.

(** A file up to the range of its response *)
Lemma serve_fs_file_ok req h body metadata range size n :
  printable_request req → md_unixfs_type metadata = Some UnixfsType_File → md_size metadata = Some size →
  match sb_mime body with Some m => Forall visible m | None => True end →
  body_length range (Some size) = Some n → 0 ≤ n → hm_get (str "if-none-match") h = None →
  ∃ h', serve_fs_file req h body metadata range = serve_range h' body range (Some size) ∧
    hm_get ETAG h' = Some (get_etag (rq_cid req) (Some (rq_format req))) ∧
    hm_get CONTENT_LENGTH h' = Some (usize_to_string n) ∧ hm_get CONTENT_RANGE h' = hm_get CONTENT_RANGE h.
Proof.
  intros (Hetag & Hname & Hpath & _) Ht Hsize Hmime Hn Hn0 Hinm. unfold serve_fs_file. rewrite Ht, Hsize. cbn [ok_or mbind res_bind].
  destruct (cache_control_ok h metadata) as (h1 & n1 & -> & Hn1 & Ho1). cbn [unwrapped mbind res_bind]. rewrite Hn.
  destruct (content_length_ok h1 (Some n) Hn0) as (h2 & -> & Ho2 & Hcl). cbn [unwrapped mbind res_bind].
  destruct (etag_ok h2 _ Hetag) as (h3 & -> & Ho3 & He3). cbn [unwrapped mbind res_bind].
  rewrite etag_check_none.
  2:{ rewrite (only_get _ _ _ _ Ho3), (only_get _ _ _ _ Ho2), (only_get _ _ _ _ Ho1); [done|destruct Hn1 as [->| ->]; unseen|unseen..]. }
  cbn [unwrapped mbind res_bind].
  destruct (disposition_ok h3 (rq_query_file_name req) (rq_resolved_path req) (rq_download req) Hname Hpath) as (h4 & name & -> & Ho4).
  cbn [unwrapped mbind res_bind]. rewrite decide_False by done.
  destruct (content_type_ok h4 name (sb_mime body) Hmime) as (h5 & -> & Ho5). cbn [unwrapped mbind res_bind].
  exists h5. split; [done|]. split_and!.
  - rewrite (only_get _ _ _ _ Ho5), (only_get _ _ _ _ Ho4); [done|unseen..].
  - rewrite (only_get _ _ _ _ Ho5), (only_get _ _ _ _ Ho4), (only_get _ _ _ _ Ho3); [done|unseen..].
  - rewrite (only_get _ _ _ _ Ho5), (only_get _ _ _ _ Ho4), (only_get _ _ _ _ Ho3), (only_get _ _ _ _ Ho2), (only_get _ _ _ _ Ho1);
      [done|destruct Hn1 as [->| ->]; unseen|unseen..].
Qed.

(** A file as its reader serves it *)
Lemma serve_fs_body depth fuel st id http req h u content k range first :
  out_content (rq_path_metadata req) = OutContent_Unixfs u → file_content load_cid u content k →
  md_typ (out_metadata (rq_path_metadata req)) = OutType_Unixfs → Z.of_nat (length content) < 2 ^ 63 →
  request_range http = range → (3 * k + 2 < fuel)%nat →
  match range with
  | Some r => first = range_start r ∧ 0 ≤ first < Z.min (range_end r) (Z.of_nat (length content)) ∧ range_end r < 2 ^ 63
  | None => first = 0
  end → printable_request req →
  ∃ h0 body, only HEADER_X_IPFS_ROOTS h h0 ∧
    serve_fs load_cid dns murmur3 depth fuel st id http req h
    = serve_fs_file req h0 body (out_metadata (rq_path_metadata req)) range ∧
    (∃ sample, sb_mime body = Some (sniff_content_type sample)) ∧
    body_yields load_cid fuel body (byte_slice content first (file_limit content (range_end <$> range))).
Proof.
  intros Hu Hc Htyp Hlen Hrr Hfuel Hr Hreq.
  assert (∃ body sample, sb_mime body = Some (sniff_content_type sample) ∧
    get_file load_cid dns murmur3 fuel id (rq_resolved_path req) (Some (rq_path_metadata req)) range
    = Ok (FileResult_File body, out_metadata (rq_path_metadata req)) ∧
    body_yields load_cid fuel body (byte_slice content first (file_limit content (range_end <$> range)))) as (body & sample & Hm & Hget & Hy).
  { unfold get_file. cbn [mbind res_bind]. unfold out_is_dir, out_pretty. rewrite Hu.
    replace (is_dir u) with false by (by destruct Hc as [->|(n & -> & _)]). destruct range as [r|].
    - destruct Hr as (-> & Hf & Hend).
      destruct (file_range load_cid u content k fuel (Some (range_end r)) Hc Hlen ltac:(cbn; lia) Hfuel (range_start r))
        as (p & sample & p1 & p2 & -> & Hfill & Hseek & Hbody); [done|]. cbn [mbind res_bind]. rewrite Hfill.
      cbn [mbind res_bind seek_to]. rewrite Hseek. cbn [mbind res_bind]. rewrite Htyp. eexists _, _. split; [|split; [done|apply Hbody]]. done.
    - subst first. destruct (file_whole load_cid u content k fuel None Hc Hlen I Hfuel) as (p & sample & p1 & -> & Hfill & Hbody).
      cbn [mbind res_bind]. rewrite Hfill. cbn [mbind res_bind seek_to]. rewrite Htyp. eexists _, _. split; [|split; [done|apply Hbody]]. done. }
  destruct (roots_ok h (out_metadata (rq_path_metadata req))) as (h0 & Hroots & Ho); [by apply Hreq|].
  exists h0, body. split; [done|]. split; [|by eauto]. destruct depth; cbn [serve_fs]; rewrite Hrr, Hget; cbn [with_status mbind res_bind];
    rewrite Hroots; done.
Qed.

End range_requests.

(** ** The deny list *)

Section deny.
Context `{UnixfsProto} `{!PathText} `{!IpldLib} `{!GatewayLib} `{!WebLib} `{!CarLib}.
Context (load_cid : Cid → res string LoadedCid) (dns : DnsResolver) (murmur3 : bytes → Z).
Context (has_cid : Cid → res string bool).

(** The list has the hash of the CID, as one of version 1, and the path with one slash between them. *)
Definition denied (denylist : list bytes) (c : Cid) (path : bytes) : Prop :=
  ∃ v1, cid_into_v1 c = Some v1 ∧ sha256 (cid_to_str v1 ++ SLASH :: default path (strip_prefix [SLASH] path)) ∈ denylist.
Definition gone : GatewayError := GatewayError_new GONE "CID is in the denylist".

Lemma to_anchor_denied denylist c path : denied denylist c path → ∃ a, to_anchor c path = Ok a ∧ a ∈ denylist.
Proof.
  intros (v1 & Hv & Hin). eexists. split; [|exact Hin]. unfold to_anchor. rewrite Hv. cbn [unwrap mbind res_bind].
  do 3 f_equal. destruct path as [|b path]; [done|]. unfold starts_with_str. cbn [strip_prefix].
  destruct (Z.eqb_spec SLASH b) as [<-|]; done.
Qed.

Lemma check_bad_bits_denied st denylist c path : gs_bad_bits st = Some denylist → denied denylist c path →
  check_bad_bits st c path = Ok true.
Proof. intros E (a & Ha & Hin)%to_anchor_denied. unfold check_bad_bits, is_bad. rewrite E, Ha. cbn. by rewrite bool_decide_true. Qed.

Lemma check_bad_bits_clean st denylist c path : gs_bad_bits st = Some denylist → check_bad_bits st c path = Ok false →
  ¬ denied denylist c path.
Proof. intros E Hc Hd. by rewrite (check_bad_bits_denied _ _ _ _ E Hd) in Hc. Qed.

Lemma ensure_Ok {E} (b : bool) (e : E) : ensure b e = Ok tt → b = true.
Proof. by destruct b. Qed.

Abbreviation pre := (request_preprocessing load_cid dns murmur3 has_cid).

(** What was checked when the request goes on *)
Lemma preprocessing_clean st denylist id path q rh h sub r :
  gs_bad_bits st = Some denylist → default [] (gp_uri q) = [] → pre st id path q rh h sub = Ok r →
  (∀ c, Path_cid path = Some c → ¬ denied denylist c (to_relative_string path)) ∧
  ∃ f o c, get_response_format rh (gp_format q) = Ok f ∧ retrieve_path_metadata load_cid dns murmur3 id path (Some f) = Ok o ∧
    last (md_resolved_path (out_metadata o)) = Some c ∧ ¬ denied denylist c (to_relative_string path).
Proof.
  intros Hd Hq. unfold request_preprocessing. rewrite Hq. destruct (ensure _ _) as [[]| |]; try done. cbn [mbind res_bind].
  destruct (service_worker_check _ _) as [[]| |]; try done. cbn [mbind res_bind].
  destruct (unsupported_header_check _) as [[]| |]; try done. cbn [mbind res_bind].
  destruct (match Path_cid path with Some cid => _ | None => _ end) as [bad| |] eqn:Ebad; try done. cbn [mbind res_bind].
  destruct bad; [done|]. cbn [negb ensure mbind res_bind].
  destruct (get_response_format rh (gp_format q)) as [f| |]; try done. cbn [with_status mbind res_bind].
  destruct (retrieve_path_metadata _ _ _ id path (Some f)) as [o| |] eqn:Eo; try done. cbn [mbind res_bind].
  destruct (last (md_resolved_path (out_metadata o))) as [c|] eqn:Ec; try done. cbn [ok_or mbind res_bind].
  destruct (check_bad_bits st c _) as [bad| |] eqn:Ebad'; try done. cbn [mbind res_bind]. destruct bad; [done|]. intros _. split.
  - intros c' Hc'. rewrite Hc' in Ebad. by eapply check_bad_bits_clean.
  - exists f, o, c. split_and!; try done. by eapply check_bad_bits_clean.
Qed.

(** C22: a request without a uri parameter (one with it is redirected before) is answered only if neither the root
    of its path nor the content it resolves to is on the deny list under that path: the list does not have the hash
    of the CID, as one of version 1, and the path.  If the root is on it, the answer to a request that passes the
    checks of its headers (one that does not gets a bad request) is that the content is gone, before anything is
    resolved. *)
Theorem denied_requests_refused st denylist depth fuel id method path q rh sub :
  gs_bad_bits st = Some denylist → default [] (gp_uri q) = [] →
  (∀ resp, handler load_cid dns murmur3 has_cid depth fuel st id method path q rh sub = Ok resp →
    (∀ c, Path_cid path = Some c → ¬ denied denylist c (to_relative_string path)) ∧
    ∃ f o c, get_response_format rh (gp_format q) = Ok f ∧
      retrieve_path_metadata load_cid dns murmur3 id path (Some f) = Ok o ∧
      last (md_resolved_path (out_metadata o)) = Some c ∧ ¬ denied denylist c (to_relative_string path)) ∧
  (∀ c, Path_cid path = Some c → denied denylist c (to_relative_string path) →
    service_worker_check rh (to_relative_string path) = Ok tt → unsupported_header_check rh = Ok tt →
    handler load_cid dns murmur3 has_cid depth fuel st id method path q rh sub = Err gone).
Proof.
  intros Hd Hq. split.
  - intros resp. unfold handler. destruct (pre st id path q rh ∅ sub) as [r| |] eqn:E; try done. intros _.
    by eapply preprocessing_clean.
  - intros c Hc Hden Hsw Hun. unfold handler, request_preprocessing. rewrite Hq, Hsw, Hun, Hc.
    rewrite (check_bad_bits_denied _ _ _ _ Hd Hden). by destruct (path_typ path).
Qed.
End deny.

(** ** Recursive downloads *)

Section download.
Context `{UnixfsProto} `{!PathText} `{!IpldLib} `{!GatewayLib} `{!WebLib} `{!CarLib} `{!CarLibLaws}.
Context (load_cid : Cid → res string LoadedCid) (dns : DnsResolver).
Context {W : Type} (write_all : bytes → W → res car_error unit * W) (written : W → bytes).
Abbreviation load_raw := (λ cid, loaded ← load_cid cid; Ok (OutRaw_from_loaded cid loaded)).

(** The entry of a block in an archive *)
Definition archived (o : OutRaw) : Cid * bytes := (or_cid o, or_content o).

(** C19: a recursive download ends, whatever the graph is, and what it writes to an empty sink that takes every
    write is an archive that reads back as exactly the blocks that the walk of the path yields, in this order, with
    the CID of the first one as its root; this also holds of what was written when the walk fails on the way.  If the
    walk does not fail, these blocks are the whole graph, breadth first.  The header and every block with its CID
    must have at most 4 MiB, the most that the reader of archives takes (the writer has no such limit), and a block
    fewer than 2^63 links. *)
Theorem car_download_exact fuel path w :
  (∀ b w w', write_all b w = (Ok tt, w') → written w' = written w ++ b) → (∀ b w, ∃ w', write_all b w = (Ok tt, w')) →
  (∀ c, ∃ b, header_bytes (CarHeader_new_v1 [c]) b ∧ small b) →
  (∀ c loaded, load_cid c = Ok loaded → small_block (c, loaded_data loaded)) →
  (∀ o ls, OutRaw_links o = Ok ls → Z.of_nat (length ls) < 2 ^ 63) →
  RECURSION_LIMIT + 1 < Z.of_nat fuel → written w = [] →
  ∃ out r, resolve_recursive_raw load_cid dns fuel path (Some RECURSION_LIMIT) = Some (out, r) ∧
    (r = Ok tt → ∃ cid o kids, resolve_path_to_cid dns path = Ok cid ∧ load_raw cid = Ok o ∧
      Forall2 (below_item OutRaw_links load_raw) out kids ∧ out = o :: mjoin kids) ∧
    match out with
    | [] => r ≠ Ok tt ∧ fetch_car_recursive load_cid dns write_all fuel path w = Some (r, w)
    | root :: _ => ∃ w' reader, fetch_car_recursive load_cid dns write_all fuel path w = Some (r, w') ∧
        CarReader_new (written w') = Ok reader ∧ cr_header reader = CarHeader_new_v1 [or_cid root] ∧
        car_stream (S (length out)) reader = Some (archived <$> out, Ok tt)
    end.
Proof.
  intros Hok Htotal Hhdr Hsmall Hlinks Hfuel Hw.
  destruct (raw_walk_bounded load_cid dns path RECURSION_LIMIT fuel) as (out & r & Hwalk & _); [done|by vm_compute|done|].
  exists out, r. split; [done|]. split; [intros ->; by eapply raw_walk_exact|].
  unfold fetch_car_recursive. rewrite Hwalk. destruct out as [|root out].
  { assert (r ≠ Ok tt) as Hr by (intros ->; apply raw_walk_exact in Hwalk as (? & ? & ? & _ & _ & _ & ?); done).
    split; [done|]. by destruct r as [[]| |]. }
  destruct (Hhdr (or_cid root)) as (hb & Hhb & Hsm).
  destruct (car_write_all_total write_all Htotal ((λ o, (or_cid o, or_content o)) <$> root :: out)
    (CarWriter_new (CarHeader_new_v1 [or_cid root]) w) hb Hhb) as [c' Hc'].
  rewrite Hc'. destruct (written_archive_reads write_all written (CarHeader_new_v1 [or_cid root]) w
    ((λ o, (or_cid o, or_content o)) <$> root :: out) c' (S (length (root :: out)))) as (reader & Hr & Hh & Hs); try done.
  - intros b Hb. unfold header_bytes in Hb, Hhb. rewrite Hhb in Hb. by injection Hb as <-.
  - apply Forall_fmap. by apply (raw_walk_all load_cid dns (λ c d, small_block (c, d)) _ _ _ _ _ Hsmall Hwalk).
  - rewrite length_fmap. lia.
  - by exists (cw_writer c'), reader.
Qed.
End download.

(** ** The redirection to a subdomain *)

Section redirect.
Context `{UnixfsProto} `{!PathText} `{!PathTextLaws} `{!IpldLib} `{!GatewayLib} `{!WebLib} `{!GatewayLibLaws} `{!Base36Laws}.

Lemma relative_text parts (t : bool) : Forall good_part parts →
  to_relative_string {| path_typ := PathType_Ipfs; path_root := Root_Domain []; path_tail := parts ++ if t then [[]] else [] |}
  = join_slash parts ++ (if t && negb (bool_decide (parts = [])) then [SLASH] else []).
Proof.
  intros Hps. unfold to_relative_string. cbn [path_tail]. destruct parts as [|p parts]; [by destruct t|].
  rewrite bool_decide_false by done. destruct t; cbn [andb negb]; [by rewrite join_slash_trailing|by rewrite !app_nil_r].
Qed.

(** A relative path starts with the first character of a part. *)
Lemma relative_no_slash parts s : Forall good_part parts → (parts = [] → s = []) →
  strip_prefix [SLASH] (join_slash parts ++ s) = None.
Proof.
  intros Hps Hs. destruct Hps as [|p parts [Hne Hp] Hps]; [by rewrite Hs|].
  destruct p as [|b p]; [done|]. apply Forall_cons in Hp as [Hb _].
  assert (∃ r, join_slash ((b :: p) :: parts) ++ s = b :: r) as [r ->] by (destruct parts; by eexists).
  cbn [strip_prefix]. unfold is_sep in Hb. apply orb_false_iff in Hb as [Hb _]. rewrite Z.eqb_sym in Hb. by rewrite Hb.
Qed.

(** The tail that the handler of a subdomain reads *)
Lemma parts_of_relative parts (t : bool) : Forall good_part parts →
  let s := SLASH :: join_slash parts ++ (if t && negb (bool_decide (parts = [])) then [SLASH] else []) in
  path_parts s = parts ∧ ends_with_slash s = t || bool_decide (parts = []).
Proof.
  intros Hps. cbv zeta. rewrite path_parts_slash. destruct (decide (parts = [])) as [->|Hne].
  { by rewrite bool_decide_true, andb_false_r, orb_true_r by done. }
  rewrite bool_decide_false, andb_true_r, orb_false_r by done. destruct (join_slash_last parts Hps Hne) as (s & b & E & Hb).
  rewrite E. unfold ends_with_slash. destruct t.
  - split; [|by rewrite app_comm_cons, last_snoc, bool_decide_true]. rewrite <-E.
    clear E Hb s b. induction Hps as [|p parts Hp Hps IH]; [done|]. destruct parts as [|q parts]; [by apply path_parts_cons|].
    change (join_slash (p :: q :: parts)) with (p ++ SLASH :: join_slash (q :: parts)).
    rewrite <-app_assoc. cbn [app]. rewrite path_parts_cons by done. f_equal. by apply IH.
  - rewrite app_nil_r. split; [rewrite <-E; by apply path_parts_joined|].
    rewrite app_comm_cons, last_snoc. apply bool_decide_false. congruence.
Qed.

Lemma from_parts_root p tail : redirectable p →
  Path_from_parts (PathType_as_str (path_typ p)) (root_text p) tail
  = Ok {| path_typ := path_typ p; path_root := path_root p;
          path_tail := if ends_with_slash tail then path_parts tail ++ [[]] else path_parts tail |}.
Proof.
  unfold redirectable, root_text, recode_path_to_inlined_dns_link, Path_from_parts. destruct (path_root p) as [c|d].
  - intros _. destruct (path_typ p); rewrite (proj1 (eq_ignore_typ _)); cbn; by rewrite ?cid_str_roundtrip, ?base36_roundtrip.
  - intros (-> & Hc & Hp & _). rewrite (proj1 (eq_ignore_typ PathType_Ipns)). cbn. by rewrite Hc, Hp.
Qed.

(** The value of a header that a proxy may set *)
Definition forwarded (name fallback : bytes) (rh : HeaderMap) : bytes := default fallback (hm_get name rh).

(** C29: a redirection to a subdomain leads to the path it comes from: the host of its location is one that the
    handler of subdomains accepts, and what this handler reads from the host and the path of the location has
    the kind, the root and the names of the path, and its trailing slash; a path without names gets one. The root
    is a CID, also the key of a peer below /ipns, which goes in base 36, or a domain name of two characters or
    more, whose labels do not start or end with a dash and which cannot be read as a CID or the key of a peer. The
    host and the protocol are those that a proxy forwards, if it does, and with the root and the names they are
    visible ASCII, as a header needs; no name holds a slash or backslash. *)
Theorem redirect_keeps_path p host rh parts (t : bool) :
  redirectable p → Forall good_part parts → path_tail p = parts ++ (if t then [[]] else []) →
  let target := forwarded (str "x-forwarded-host") host rh in
  let proto := forwarded (str "x-forwarded-proto") (str "http") rh in
  Forall visible target → Forall visible proto →
  Forall visible (recode_path_to_inlined_dns_link p) → Forall (Forall visible) parts →
  ∃ h sub_host rest sub, redirect_path_handlers host p rh = Ok (GatewayResponse_new MOVED_PERMANENTLY Body_Empty h) ∧
    hm_get LOCATION h = Some (proto ++ str "://" ++ sub_host ++ SLASH :: rest) ∧
    IpfsSubdomain_try_from_str sub_host = Some sub ∧ sub_hostname sub = target ∧
    Path_from_parts (sub_scheme sub) (inlined_dns_link_to_dns_link (sub_cid_or_domain sub)) (SLASH :: rest)
    = Ok {| path_typ := path_typ p; path_root := path_root p;
            path_tail := parts ++ if t || bool_decide (parts = []) then [[]] else [] |}.
Proof.
  intros Hp Hparts Htail target proto Hhost Hproto Hrec Hvis. destruct (recode_decodes p Hp) as [_ Hdec].
  set (rest := join_slash parts ++ (if t && negb (bool_decide (parts = [])) then [SLASH] else [])).
  assert (to_relative_string p = rest) as Erel by (unfold to_relative_string; rewrite Htail; by apply relative_text).
  set (sub_host := recode_path_to_inlined_dns_link p ++ [dot] ++ PathType_as_str (path_typ p) ++ [dot] ++ target).
  unfold redirect_path_handlers.
  assert (∀ name d, Forall visible (forwarded name d rh) →
    match hm_get name rh with Some v => unwrap (header_str v) | None => Ok d end = Ok (E := GatewayError) (forwarded name d rh)) as Hfwd.
  { intros name d. unfold forwarded. destruct (hm_get name rh); [|done]. simpl. intros Hv. by rewrite header_visible_str. }
  rewrite (Hfwd _ _ Hhost), (Hfwd _ _ Hproto). fold target proto. cbn [mbind res_bind]. rewrite Erel.
  assert (strip_prefix [SLASH] rest = None) as Estrip.
  { apply relative_no_slash; [done|]. intros ->. by rewrite bool_decide_true, andb_false_r. }
  rewrite Estrip. cbn [default from_option].
  unfold redirect_permanently.
  destruct (insert_str_ok LOCATION (proto ++ str "://" ++ sub_host ++ SLASH :: rest) ∅) as [Hi _].
  { assert (Forall visible rest).
    { apply Forall_app. split; [|destruct (t && _); [visible_literal|constructor]]. clear -Hvis.
      induction Hvis as [|x l Hx Hl IH]; [constructor|]. destruct l; [done|]. apply Forall_app. split; [done|].
      constructor; [unfold visible, SLASH; lia|done]. }
    apply Forall_app; split; [done|]. apply Forall_app; split; [visible_literal|]. apply Forall_app; split; [|constructor; [unfold visible, SLASH; lia|done]].
    repeat (apply Forall_app; split); try done; try visible_literal. destruct (path_typ p); visible_literal. }
  exists (hm_insert LOCATION (proto ++ str "://" ++ sub_host ++ SLASH :: rest) ∅), sub_host, rest,
    {| sub_cid_or_domain := recode_path_to_inlined_dns_link p; sub_scheme := PathType_as_str (path_typ p); sub_hostname := target |}.
  split; [|split; [apply hm_get_insert|split; [by apply subdomain_of_redirect|split; [done|]]]].
  - replace (proto ++ _) with (proto ++ str "://" ++ sub_host ++ SLASH :: rest); [by rewrite Hi|].
    unfold sub_host. by rewrite <-!app_assoc.
  - cbn [sub_scheme sub_cid_or_domain]. rewrite Hdec, from_parts_root by done.
    destruct (parts_of_relative parts t Hparts) as [E1 E2]. fold rest in E1, E2. rewrite E1, E2.
    destruct (t || _); by rewrite ?app_nil_r.
Qed.
End redirect.

(** ** Examples *)

(** Headers take any bytes, the hash is the identity, and media types are not guessed. *)
Module HandlersToy.
Import UnixfsToy PathsToy HamtWitness ResolverToy.

Definition gateway_lib : GatewayLib := {|
  header_value := Some; header_str := Some; to_lowercase := λ s, s; mime_guess := λ _, None; sha256 := λ s, s;
  cid_into_v1 := Some; base36_lower := λ s, match s with k :: h => 122 :: skip k :: (skip <$> h) | [] => [] end; version_template_hash := [118]; now_text := [110]
|}.
#[export] Existing Instance gateway_lib.

Definition web_lib : WebLib := {|
  sniff_content_type := λ _, [116]; parse_uri := λ _, None; url_encode := λ s, s; query_to_string := λ _, [];
  format_size := λ _, [48]; render_dir_list := λ _, [104]; render_error := λ _ _, [123]; not_found_template := [60];
  hex_decode := Some; denylist_anchors := λ b, Some [b]
|}.
#[export] Existing Instance web_lib.

#[export] Instance gateway_laws : GatewayLibLaws.
Proof. split; try done. apply (bool_decide_unpack _). by vm_compute. Qed.
#[export] Instance base36_laws : Base36Laws.
Proof. split. intros c. rewrite <-cid_str_roundtrip. by destruct c. Qed.
#[export] Instance web_laws : WebLibLaws.
Proof. split. intros s. apply (bool_decide_unpack _). by vm_compute. Qed.

Definition no_params : GetParams :=
  {| gp_format := None; gp_filename := None; gp_download := None; gp_force_dir := None; gp_uri := None; gp_recursive := None |}.
Definition open_state (denylist : option (list bytes)) : GwState :=
  {| gs_bad_bits := denylist; gs_user_headers := ∅; gs_public_url_base := []; gs_redirect_to_subdomain := false |}.
Definition known (c : @Cid ids) : res string bool := Ok true.
Definition get_path (denylist : option (list bytes)) (p : Path) (sub : bool) : res GatewayError GatewayResponse :=
  handler load_held dns murmur known 3 30 (open_state denylist) 0 Method_GET p no_params ∅ sub.
Definition status (r : res GatewayError GatewayResponse) : Z :=
  match r with Ok r => gr_status r | Err e => ge_status e | Panic => 0 end.
Definition location (r : res GatewayError GatewayResponse) : option bytes :=
  match r with Ok r => hm_get LOCATION (gr_headers r) | _ => None end.

Lemma etag_matches_weakly_witness :
  etag_matches (tag_list [(0%nat, {| tag_weak := true; tag_opaque := [97] |}); (2%nat, {| tag_weak := false; tag_opaque := [98] |})])
    (tag_text {| tag_weak := true; tag_opaque := [98] |}) = true.
Proof.
  rewrite (proj2 etag_matches_weakly); [reflexivity|].
  repeat constructor; simpl; unfold tag_char; lia.
Defined.

(** ** Ranges *)

Definition five : Out :=
  {| out_metadata := {| md_path := domain_path; md_size := Some 5; md_typ := OutType_Unixfs;
                        md_unixfs_type := Some UnixfsType_File; md_resolved_path := []; md_source := Source_Bitswap |};
     out_content := OutContent_Unixfs (Raw [1; 2; 3; 4; 5]); out_context := 0 |}.
Definition five_request : IpfsRequest :=
  {| rq_format := Format_Fs []; rq_cid := Root_Domain []; rq_resolved_path := domain_path; rq_query_file_name := [];
     rq_download := false; rq_query_params := no_params; rq_subdomain_mode := false; rq_path_metadata := five |}.

Lemma five_printable : printable_request five_request.
Proof. split_and!; apply (bool_decide_unpack _); by vm_compute. Qed.


(** ** The deny list *)

Definition file_anchor : bytes := match to_anchor (blk_cid tree_root) (str "s/g") with Ok a => a | _ => [] end.
Definition toy_path (parts : list bytes) : Path :=
  {| path_typ := PathType_Ipfs; path_root := Root_Cid (blk_cid tree_root); path_tail := parts |}.

Lemma denied_requests_refused_witness : get_path (Some [file_anchor]) (toy_path [[115]; [103]]) true = Err gone.
Proof.
  apply (proj2 (denied_requests_refused load_held dns murmur known (open_state (Some [file_anchor])) [file_anchor] 3 30 0
    Method_GET (toy_path [[115]; [103]]) no_params ∅ true eq_refl eq_refl) (blk_cid tree_root)); [reflexivity| |reflexivity|reflexivity].
  exists (blk_cid tree_root). split; [reflexivity|left].
Defined.

(** A trailing slash makes another anchor: the same file is served. *)
Lemma trailing_slash_evades :
  (status (get_path (Some [file_anchor]) (toy_path [[115]; [103]]) true),
   status (get_path (Some [file_anchor]) (toy_path [[115]; [103]; []]) true)) = (GONE, OK).
Proof. vm_compute. reflexivity. Qed.

(** The CID that the path resolves to is looked up with the path of the request: content that is on the list by
    its own CID is served below another root. *)
Definition file_cid : @Cid ids :=
  match (resolve load_held dns murmur 0 (toy_path [[115]; [103]])).1 with
  | Ok o => default (blk_cid tree_root) (last (md_resolved_path (out_metadata o)))
  | _ => blk_cid tree_root
  end.
Definition own_anchor : bytes := match to_anchor file_cid [] with Ok a => a | _ => [] end.
Lemma denied_cid_served_below :
  (status (get_path (Some [own_anchor]) (Path_from_cid file_cid) true),
   status (get_path (Some [own_anchor]) (toy_path [[115]; [103]]) true)) = (GONE, OK).
Proof. vm_compute. reflexivity. Qed.

(** ** Index pages *)

Definition site : list Block := Eval vm_compute in
  (directory_encode (Dir_Basic [100] [Entry_File (str "index.html") (Ok [Ok [60]]) chunker 3])).1.
Definition site_root : @Cid ids :=
  Eval vm_compute in blk_cid (default tree_root (last site)).
Definition site_path (parts : list bytes) : Path :=
  {| path_typ := PathType_Ipfs; path_root := Root_Cid site_root; path_tail := parts |}.

(** The index page of a directory is not served with the directory: the request is redirected to the page with
    a slash behind it. *)
Lemma index_redirected :
  (status (get_path None (site_path [[]]) true), location (get_path None (site_path [[]]) true))
  = (MOVED_PERMANENTLY, Some (str "/index.html/")).
Proof. vm_compute. reflexivity. Qed.

(** The handler of paths works as that of subdomains: the slash is added to the path below the root, which
    leads to the root of the gateway. *)
Lemma path_mode_redirects_to_root :
  location (path_handler load_held dns murmur known 3 30 (open_state None) 0 Method_GET [] ipfs_str
    (cid_to_str site_root) None no_params ∅) = Some [SLASH].
Proof. vm_compute. reflexivity. Qed.

(** ** Names *)

Definition blog : Path :=
  {| path_typ := PathType_Ipns; path_root := Root_Domain (str "my-blog.eth"); path_tail := [[97]] |}.

Lemma blog_redirectable : redirectable blog.
Proof.
  split; [done|]. split; [done|]. split; [done|]. exists [str "my-blog"; str "eth"]. split; [done|]. split; [|simpl; lia].
  repeat constructor.
  - exists 109, (str "y-blog"). by repeat split.
  - exists (str "my-blo"), 103. by repeat split.
  - apply (bool_decide_unpack _). by vm_compute.
  - exists 101, (str "th"). by repeat split.
  - exists (str "et"), 104. by repeat split.
  - apply (bool_decide_unpack _). by vm_compute.
Qed.

(** The key of a peer below [/ipns] *)
Definition keyed : Path :=
  {| path_typ := PathType_Ipns; path_root := Root_Cid ((0x72, [65]) : @Cid ids); path_tail := [] |}.

Lemma redirect_keeps_path_witness :
  (∃ h sub_host rest sub, redirect_path_handlers (str "gw.net") blog {[ str "x-forwarded-proto" := [str "https"] ]}
      = Ok (GatewayResponse_new MOVED_PERMANENTLY Body_Empty h) ∧
    hm_get LOCATION h = Some (str "https" ++ str "://" ++ sub_host ++ SLASH :: rest) ∧
    IpfsSubdomain_try_from_str sub_host = Some sub ∧ sub_hostname sub = str "gw.net" ∧
    Path_from_parts (sub_scheme sub) (inlined_dns_link_to_dns_link (sub_cid_or_domain sub)) (SLASH :: rest)
    = Ok {| path_typ := PathType_Ipns; path_root := Root_Domain (str "my-blog.eth"); path_tail := [[97]] ++ [] |}) ∧
  (∃ h sub_host rest sub, redirect_path_handlers (str "gw.net") keyed ∅
      = Ok (GatewayResponse_new MOVED_PERMANENTLY Body_Empty h) ∧
    hm_get LOCATION h = Some (str "http" ++ str "://" ++ sub_host ++ SLASH :: rest) ∧
    IpfsSubdomain_try_from_str sub_host = Some sub ∧ sub_hostname sub = str "gw.net" ∧
    Path_from_parts (sub_scheme sub) (inlined_dns_link_to_dns_link (sub_cid_or_domain sub)) (SLASH :: rest)
    = Ok {| path_typ := PathType_Ipns; path_root := path_root keyed; path_tail := [] ++ [[]] |}).
Proof.
  split.
  - pose proof (redirect_keeps_path blog (str "gw.net") {[ str "x-forwarded-proto" := [str "https"] ]} [[97]] false blog_redirectable) as W.
    cbv zeta in W.
    replace (forwarded (str "x-forwarded-host") (str "gw.net") {[ str "x-forwarded-proto" := [str "https"] ]}) with (str "gw.net") in W by (vm_compute; reflexivity).
    replace (forwarded (str "x-forwarded-proto") (str "http") {[ str "x-forwarded-proto" := [str "https"] ]}) with (str "https") in W by (vm_compute; reflexivity).
    apply W; first [reflexivity | by repeat constructor | by apply (bool_decide_unpack _); vm_compute].
  - pose proof (redirect_keeps_path keyed (str "gw.net") ∅ [] false) as W. cbv zeta in W.
    replace (forwarded (str "x-forwarded-host") (str "gw.net") ∅) with (str "gw.net") in W by (vm_compute; reflexivity).
    replace (forwarded (str "x-forwarded-proto") (str "http") ∅) with (str "http") in W by (vm_compute; reflexivity).
    apply W; [split; [unfold plain_char; by apply (bool_decide_unpack _); vm_compute|vm_compute; lia]|by apply Forall_nil_2|reflexivity| | | |by apply Forall_nil_2];
      by apply (bool_decide_unpack _); vm_compute.
Defined.

(** A name of one character is read twice. *)
Lemma short_name_doubled : inlined_dns_link_to_dns_link [97] = [97; 97].
Proof. reflexivity. Qed.

(** ** Headers *)

(** The largest end of a range wraps to zero, and with it the range is [5..0]. *)
Lemma range_end_wraps :
  parse_range_header (range_text 5 (2 ^ 64 - 1)) = Some {| range_start := 5; range_end := 0 |}.
Proof. vm_compute. reflexivity. Qed.

(** A space before a comma ends the comparison, although the second tag matches. *)
Lemma space_before_comma_stops :
  etag_matches ([QUOTE; 97; QUOTE] ++ [32; COMMA] ++ [QUOTE; 98; QUOTE]) [QUOTE; 98; QUOTE] = false.
Proof. vm_compute. reflexivity. Qed.

(** A tag with a tilde does not match itself. *)
Lemma tilde_not_matched : etag_matches [QUOTE; 126; QUOTE] [QUOTE; 126; QUOTE] = false.
Proof. vm_compute. reflexivity. Qed.
End HandlersToy.

(** Blocks named by a codec and a number, so that the binary form of a CID has a fixed length: the dag-cbor block
    number 1 links to the raw blocks 2 and 3. *)
Module DownloadToy.
Definition ids : Ids := {| Cid := Z * Z; PeerId := nat |}.
#[export] Existing Instance ids.

Definition cid (k n : Z) : @Cid ids := ((k, n) : Z * Z).

Definition multiformats : Multiformats := {|
  Multihash := Z; Code := unit; Version := unit;
  mh_code := λ _, 0; mh_digest := λ h, [h]; Sha2_256 := tt;
  code_try_from := λ _, Some tt; code_into := λ _, 0; code_digest := λ _ d, default 0 (head d);
  version_try_from := λ _, Some tt; version_into := λ _, 1;
  cid_version := λ _, tt; cid_codec := λ c : @Cid ids, fst (c : Z * Z); cid_hash := λ c : @Cid ids, snd (c : Z * Z);
  cid_new := λ _ k h, Some (cid k h); cid_new_v0 := λ h, Some (cid 0x70 h);
  cid_to_bytes := λ c : @Cid ids, [fst (c : Z * Z); snd (c : Z * Z)];
  cid_try_from := λ b, match b with [k; n] => Some (cid k n) | _ => None end;
  varint_encode_u64 := λ n, [n];
  varint_decode_u64 := λ b, match b with n :: r => Some (n, r) | [] => None end;
  varint_decode_usize := λ b, match b with n :: r => Some (n, r) | [] => None end
|}.
#[export] Existing Instance multiformats.

Definition proto : UnixfsProto := {|
  pbnode_encode := λ _, []; pbnode_decode := λ _, None; data_encode := λ _, []; data_decode := λ _, None;
  cid_new_v1 := cid; cid_read_bytes := cid_try_from
|}.
#[export] Existing Instance proto.

Definition text : PathText :=
  {| cid_from_str := λ _, None; cid_to_str := λ _, []; bs58_decode := λ _, None; multihash_from_bytes := λ _, None |}.
#[export] Existing Instance text.

(** A dag-cbor block holds the numbers of the raw blocks it links to. *)
Definition ipld : IpldLib := {|
  Ipld := bytes;
  ipld_codec_try_from := λ z, if z =? 0x55 then Some IpldCodec_Raw else if z =? 0x71 then Some IpldCodec_DagCbor else None;
  ipld_decode := λ _ b, Some b; ipld_encode := λ _ v, Some v; ipld_link := λ _, None; ipld_string := λ _, None;
  ipld_take := λ _ _, None; ipld_iter := λ v, [v]; ipld_references := λ _, [];
  codec_references := λ k b, match k with IpldCodec_DagCbor => Some (cid 0x55 <$> take 9 b) | _ => Some [] end
|}.
#[export] Existing Instance ipld.

Definition lib : CarLib := {|
  read_varint := λ b, match b with
                      | [] => Varint_Eof
                      | n :: r => if 0 <=? n then Varint_Ok n r else Varint_Err
                      end;
  write_varint := λ n, [n];
  header_decode := λ b, match b with
                        | v :: k :: n :: _ => Some {| car_roots := [cid k n]; car_version := v |}
                        | _ => None
                        end;
  header_encode := λ h, match car_roots h with [c] => Some (car_version h :: cid_to_bytes c) | _ => None end;
  cid_read_at := λ b, match b with k :: n :: _ => Some (cid k n, 2) | _ => None end
|}.
#[export] Existing Instance lib.

#[export] Instance lib_laws : CarLibLaws.
Proof.
  split.
  - intros n r [Hn _]. cbn. by rewrite (proj2 (Z.leb_le _ _)).
  - intros n [|x p] q Hn E Hq; [done|]. injection E as _ E. symmetry in E. by apply app_eq_nil in E as [_ ->].
  - intros [|x b] n r; cbn; [done|]. destruct (Z.leb_spec 0 x); [|done]. intros [= <- <-]. simpl. lia.
  - intros [[|[k n] [|]] v] b; [done| |done]. by intros [= <-].
  - by intros [k n] r.
  - intros [|k [|n b]] c pos; [done|done|]. intros [= _ <-]. simpl. lia.
Qed.

Definition node_data (c : @Cid ids) : bytes := if snd (c : Z * Z) =? 1 then [2; 3] else [7].
Definition load_node (c : @Cid ids) : res string LoadedCid :=
  Ok {| loaded_data := node_data c; loaded_source := Source_Bitswap |}.
Definition no_dns : DnsResolver := {| default_resolver := λ _, Err "no such name"%string; tld_resolvers := None |}.

Lemma short_links o ls : OutRaw_links o = Ok ls → Z.of_nat (length ls) < 2 ^ 63.
Proof.
  unfold OutRaw_links, parse_links. destruct (codec_known _); [|done]. cbn [ensure mbind res_bind].
  repeat case_match; cbn; try done; try (by intros [= <-]).
  intros [= <-]. rewrite length_fmap, length_take. lia.
Qed.

Lemma small_nodes c loaded : load_node c = Ok loaded → small_block (c, loaded_data loaded).
Proof. intros [= <-]. unfold small_block, small, MAX_ALLOC. simpl. unfold node_data. case_match; simpl; lia. Qed.

Lemma one_root c : ∃ b, header_bytes (CarHeader_new_v1 [c]) b ∧ small b.
Proof. eexists. split; [done|]. unfold small, MAX_ALLOC. simpl. lia. Qed.

Definition append (b w : bytes) : res car_error unit * bytes := (Ok tt, w ++ b).

Lemma car_download_exact_witness :
  ∃ out r, resolve_recursive_raw load_node no_dns 4100 (Path_from_cid (cid 0x71 1)) (Some RECURSION_LIMIT) = Some (out, r) ∧
    match out with
    | [] => r ≠ Ok tt
    | root :: _ => ∃ w' reader, fetch_car_recursive load_node no_dns append 4100 (Path_from_cid (cid 0x71 1)) [] = Some (r, w') ∧
        CarReader_new w' = Ok reader ∧ cr_header reader = CarHeader_new_v1 [or_cid root] ∧
        car_stream (S (length out)) reader = Some (archived <$> out, Ok tt)
    end.
Proof.
  destruct (car_download_exact load_node no_dns append (λ w, w) 4100 (Path_from_cid (cid 0x71 1)) [])
    as (out & r & Hw & _ & Hout); try done.
  - by intros b w w' [= <-].
  - by eexists.
  - exact one_root.
  - exact small_nodes.
  - exact short_links.
  - exists out, r. split; [exact Hw|]. destruct out; [exact (proj1 Hout)|exact Hout].
Defined.

(** The archive of the example *)
Lemma download_example :
  (λ x, x.2) <$> fetch_car_recursive load_node no_dns append 5 (Path_from_cid (cid 0x71 1)) []
  = Some [3; 1; 0x71; 1;  4; 0x71; 1; 2; 3;  3; 0x55; 2; 7;  3; 0x55; 3; 7].
Proof. vm_compute. reflexivity. Qed.
End DownloadToy.
